(* ===== verification/_CoqProject ===== *)
-Q . S2P
Prelude.v
Spinlock.v
RingBuffer.v
MpscFifo.v
SpscFifo.v
RelaxedFifo.v
MpmcFifo.v
WaitQueue.v
ItemQueue.v
Mutex.v
RwLock.v
HazardPointer.v
Wsd.v
SchedulerWsd.v
Manager.v
MpmcQueue.v
Lifo.v
MpmcStack.v
DistFifo.v
SchedulerDist.v
Semaphore.v
Signal.v
MultiSignal.v
Barrier.v
Cond.v
Channel.v
UnboundedChannel.v
WorkQueue.v
MultiChannel.v
Context.v
Fiber.v
Event.v
EventEv.v
Io.v
NodePool.v
ManagerLoop.v
ManagerLife.v
CppFifo.v
CppChannel.v
SchedulerLock.v
ContextPort.v
FiberRun.v
EventPoll.v
Teardown.v
HazardRace.v
HazardFifo.v
Barriers.v
