(* ===== verification/Prelude.v ===== *)
(** * libfiber: a verification library

    libfiber multiplexes user-level threads ("fibers") over kernel threads.
    This library models its C sources and proves the properties that make them
    correct.  Paths below are relative to the repository.

    ** The program and how its parts interact

    Each kernel thread has a manager ([src/fiber_manager.c]) that switches
    between fibers.  A fiber ([src/fiber.c]) owns a machine context and a stack
    ([src/fiber_context.c]).  A yield asks the scheduler
    ([src/fiber_scheduler_wsd.c], two work-stealing deques per thread,
    [src/work_stealing_deque.c]; or [src/fiber_scheduler_dist.c], one
    [include/dist_fifo.h] per thread) for the next fiber and switches to it; the
    fiber that now runs performs the maintenance the old one left behind: it
    publishes the old fiber (back to the scheduler, into a queue of waiters, at
    a join location) only when the old context is saved.  The blocking
    primitives are an atomic word and a queue of sleeping fibers: mutex,
    readers-writer lock, condition variable and barrier over
    [include/mpsc_fifo.h], the semaphore over [include/mpmc_fifo.h], whose nodes
    are reclaimed by the hazard pointers ([src/hazard_pointer.c]).  Signals
    ([include/fiber_signal.h]) are a word that holds the sleeping fiber; channels
    ([include/fiber_channel.h], [include/fiber_multi_channel.h]) are buffers or
    queues of messages with a signal or a mutex.  The shims of [src/fiber_io.c]
    replace the blocking calls of the C library by "wait for the descriptor in
    the event system, then call", and the event system
    ([src/fiber_event_native.c], or [src/fiber_event_ev.c] over libev) wakes
    fibers on descriptor events and timers.  Below these are the spin lock
    ([src/fiber_spinlock.c]) and lock-free containers.  [cpp/lockfree_fifo.hpp]
    and [cpp/channel.hpp] are templates for C++ clients: a queue that allocates
    its nodes, and channels of events over the C queues.

    ** The files

    - [Prelude]: machine integers with explicit wrap, lists and sums, the
      configurations of concurrent machines ([conf], [conf_step], [run]) and the
      simulation theorem [run_simulation].
    - [Spinlock]: [fiber_spinlock_*]; the ticket and users halves of a 32-bit
      pair, and the abstract lock [lock_spec] that the mutex reuses.
    - Containers on a heap of nodes or an array of cells.  [RingBuffer]:
      [lockfree_ring_buffer_*] against the bounded queue [queue_spec].
      [MpscFifo], [SpscFifo], [MpmcFifo]: [mpsc_fifo_*], [spsc_fifo_*] and
      [mpmc_fifo_*] (with the announcements of the hazard pointers and a
      collector) against [fifo_spec].  [Lifo], [MpmcStack], [DistFifo]:
      [mpmc_lifo_*], [mpmc_stack_*] and [dist_fifo_*], with nodes reused by their
      owners.  [RelaxedFifo]: [mpscr_fifo_*] over one queue per producer.
    - [WaitQueue]: [fiber_manager_wait_in_mpsc_queue] and
      [fiber_manager_wake_from_mpsc_queue]; the class [WaitQueue] is the
      interface the primitives are proved against, and [mpsc_wait_queue] is its
      instance by the node heap; [MpmcQueue] is the instance by [mpmc_fifo.h],
      [spsc_msg_queue] that by [spsc_fifo.h].  [ItemQueue]: the invariant of the
      clients that push items of their own.
    - [Mutex], [RwLock], [Semaphore], [Cond], [Barrier]: the primitives of
      [src/fiber_mutex.c], [src/fiber_rwlock.c], [src/fiber_semaphore.c],
      [src/fiber_cond.c] and [src/fiber_barrier.c], generic in the queue.
    - [Signal], [MultiSignal]: both kinds of signal.
    - [Channel], [UnboundedChannel], [MultiChannel]: the channels, over a signal
      taken as the flag that [Signal] shows it to be, or a lock.
    - [WorkQueue]: [src/work_queue.c].
    - [HazardPointer]: records, retirement, the scan and its binary search, one
      operation at a time.  [HazardRace]: the same operations by any number of
      threads that also register, one access to a shared record at a time and with
      store buffers, against the contract of a reclaimer, [reclaim_spec].
      [HazardFifo]: the queue of [MpmcFifo] over any reclaimer with that contract.
    - [Barriers]: the barriers of [include/machine_specific.h], under a compiler
      that reorders and the store buffers of x86.
    - [Wsd]: the deque with its growing circular arrays, against [deque_spec].
    - [SchedulerWsd], [SchedulerDist]: the two [fiber_scheduler_*], over abstract
      deques and queues.
    - [Manager]: switching, maintenance, yielding, waiting and the scheduler lock
      ([src/schedule_lock.c]), over the class [FiberScheduler] of which
      [SchedulerWsd] is an instance.
    - [ManagerLoop]: the idle loop of a thread's maintenance fiber and its end at
      shutdown.  [ManagerLife]: [fiber_manager_init], [fiber_shutdown] and what
      they create and destroy, and the statistics, over a heap and an allocator
      that may fail.  [NodePool]: the pool of queue nodes for the semaphore.
      [SchedulerLock]: [src/schedule_lock.c] over the readers-writer lock.
    - [Context]: context creation and destruction, and the x86-64 switch run by
      an interpreter for its instructions.  [ContextPort]: the same for i386
      (Module [I386]) and over ucontext (Module [Ucontext]).
    - [Fiber]: creation, completion, join, tryjoin and detach.  [FiberRun]: the
      life of a fiber from its entry to the switch away from it, over the manager.
    - [Event]: sleepers, descriptor waiters, polling and closing.  [EventPoll]:
      blocking polls, and the event ports of Solaris.  [EventEv]: the event system
      over the class [LibEv].
    - [Io]: every intercepted call, as computations over the module's variables
      and the event system.
    - [CppFifo]: the C++ queue, with nodes allocated and freed and every
      combination of one or many producers and consumers.  [CppChannel]: the C++
      channels and the selector, over the class [EventQueue] of which both C
      queues are instances.
    - [Teardown]: what the deque, the schedulers and the channels allocate, and
      that they give it back.

    ** How code becomes definitions

    A concurrent component is a machine: a shared state, a program counter per
    thread with one constructor per shared access of the C code, and one step
    function per C function that performs the access and returns the new state,
    the next program point and the events that happened ([option]: no step means
    blocked, or an access outside the allocated memory).  A run is a list of
    (thread, choice) pairs, so every theorem about runs is about every
    interleaving.  Memory is sequentially consistent, but for the store buffers of
    [HazardRace] and [Barriers].  A component that uses
    another one calls the abstract specification the other one is shown to
    refine, or is generic in the class it implements.  A sequential component is
    a function; failed assertions and faults are [None] or [Crash].  What comes
    from outside (the allocator, [epoll_wait], system calls, compare-and-swaps
    that fail, the clock) is an argument.  Integers are [Z] with the wrap of
    their C type written out where the code can reach it.

    ** What the theorems show

    - Refinement of an abstract specification under all interleavings: of a lock
      ([spinlock_refines_lock], [mutex_refines_lock], [rwlock_exclusion]), of
      permits, flags and sleepers ([semaphore_refines_permits], [cond_refines],
      [signal_refines_flag], [multi_signal_refines], [barrier_releases_rounds],
      [barrier_two_fibers]), of queues, stacks and deques ([ring_linearizable],
      [mpsc_fifo_order], [mpmc_fifo_order], [dist_fifo_order],
      [lifo_refines_stack], [stack_flush_order], [wsd_refines_deque],
      [relaxed_fifo_per_producer]), of channels ([bounded_channel_fifo],
      [unbounded_channel_delivers], [sp_channel_delivers],
      [multi_channel_fifo], [cpp_fifo_order], [event_channels_fifo]), of the pool
      of nodes ([pool_never_shares]), of one worker at a time
      ([work_queue_one_worker]), of the scheduler's flag ([lock_flag_atomic]),
      of a reclaimer ([hazard_race_refines]),
      of joining ([join_refines]) and of exact wake-ups ([ev_wakes_exactly]).
    - Equivalence: [spsc_is_mpsc], [port_fd_as_epoll].
    - No lost wake-up, progress, termination: [spinlock_progress],
      [spinlock_fifo], [mutex_no_lost_wakeup], [rwlock_no_lost_wakeup],
      [join_progress], [wsd_wait_free], [mpsc_empty_means],
      [mpmc_solo_terminates], [mpmc_empty_means], [hazard_race_progress],
      [hazard_free_wait_free], [semaphore_post_progress],
      [cond_wake_progress], [signal_no_lost_wakeup],
      [multi_signal_no_lost_wakeup], [barrier_no_deadlock],
      [bounded_channel_no_lost_wakeup], [work_queue_progress],
      [relaxed_fifo_no_starvation], [dist_failed_pop_means],
      [selector_no_lost_wakeup].
    - What a component relies on when it calls another:
      [mutex_single_consumer] and [rwlock_single_consumer] (the queue of waiters
      has one consumer), [yield_switches] and [waits_publish_after_save] (no
      fiber is visible to other threads before its context is saved),
      [mpsc_wait_unlocks_after_save] (nor the mutex it held free),
      [mpmc_keeps_contract] and [mpmc_allows_reclaimer] (the queue and the hazard
      pointers keep to one contract), [write_barrier_publishes] and
      [store_load_barrier_orders] (what the barriers are used for).
    - The life of the system: [init_starts], [shutdown_frees],
      [shutdown_completes_maintenance], [idle_loop_iteration], [all_stats_sum], and
      of a fiber: [fiber_starts], [fiber_ends].
    - Memory: [mpmc_memory_safe], [hazard_race_protects], [hazard_free_reclaims],
      [hazard_bounded_garbage], [binary_search_correct], [pool_accounts],
      [cpp_fifo_memory], [cpp_fifo_no_leak], [event_channels_memory], the destroy
      functions ([mutex_destroy_frees] and its neighbours), and that what is
      taken is given back: [scheduler_memory_roundtrip],
      [scheduler_init_all_or_nothing], [channel_memory_roundtrip],
      [unbounded_destroy_frees], [dist_shutdown_frees].
    - The switch: [swap_roundtrip], [new_context_starts],
      [context_destroy_frees]; [swap32_roundtrip], [init32_enters],
      [destroy32_frees]; [u_swap_roundtrip], [u_init_outcomes], [u_destroy_frees].
    - Scheduling: [scheduler_next_picks], [load_balance_conserves],
      [dist_scheduler_conserves], [dist_scheduler_picks].
    - Events and shims: [wait_registers], [fd_event_wakes],
      [fd_closed_fails_waiters], [wake_sleepers_exact], [sleep_wakes_after],
      [ev_active_threads_bounds], [blocking_poll_outcomes], [port_timer_exact],
      [port_init_outcomes], [reads_block_until_ready],
      [writes_block_until_ready], [nonblocking_passes_through],
      [socket_managed], [io_calls_safe].
    - Behaviour the code does not intend, each by a run of the model:
      [mutex_early_return], [yield_drops_fiber], [double_join_breaks],
      [join_undoes_detach], [barrier_overtaken], [multi_channel_stuck], [ev_blocking_locks_out],
      [nonblocking_mode_ignored], [no_restart], [pool_shutdown_leaks],
      [fiber_end_asserts], [add_lock_deadlocks], [free_out_of_order],
      [port_timer_overflow], [port_failure_fatal], and smaller ones beside them.

    ** Bounds and fuel

    Machines take no fuel: a run is as long as its list of steps.  Counters
    that wrap in C are compared modulo their width; where a count of threads must
    fit a field (the ticket lock, the packed read-write word, the counters of the
    mutex, the semaphore, the barrier and the condition variable) the bound on
    the number of threads is a hypothesis of the theorem, and where a 64-bit
    counter keeps versions apart the number of steps is below 2^64.  The sizes of
    ring buffers and bounded channels are at most 2^28, since [required_size]
    wraps beyond ([ring_required_size_wraps], [channel_required_size_wraps]).
    [binary_search] has fuel [log2 size + 2], which its theorem shows is enough;
    the loops of [SchedulerWsd], [SchedulerDist], [Event] and [Io] take as fuel
    the number of elements or of answers, one of which each iteration uses, and
    their theorems state the result itself and not only its shape when there is
    one.  The destroy functions take the number of nodes, or of all the blocks
    there are, and [mpmc_stack_reverse] the size of the heap.  A deque grows at
    most 22 times, up to 2^30 elements: beyond, the shift that computes the size
    is undefined.

    ** Not modelled

    - Weak memory, apart from the protocol of the hazard pointers and the uses of
      the barriers: the other machines take every shared access as sequentially
      consistent, the acquire and release accesses of C11 included.
    - Split stacks, prefetches, and the valgrind and sanitizer hooks of
      [src/fiber_context.c], which call a compiler runtime or a tool.
    - The spinning strategies of [cpp/lockfree_fifo.hpp] that only pause, yield or
      sleep, and [cpp/signal.hpp], which forwards to [include/fiber_signal.h].
    - The Go bindings, the tests and the example server, which are clients of the
      library. *)

From Stdlib Require Export ZArith Lia.
From stdpp Require Export base tactics option list numbers gmap sorting.


Declare Scope fiber_scope.
Delimit Scope fiber_scope with fiber.
Open Scope Z_scope.
#[global] Arguments Z.pow : simpl never.
#[global] Arguments Z.mul : simpl never.
#[global] Arguments Z.add : simpl never.
#[global] Arguments Z.sub : simpl never.
#[global] Arguments Z.modulo : simpl never.
#[global] Arguments Z.div : simpl never.

(** ** Return codes shared by the C files ([include/fiber_context.h]). *)

Definition FIBER_ERROR : Z := 0.
Definition FIBER_SUCCESS : Z := 1.

(** ** Machine integers

    A C integer of width [w] is a [Z] kept in range by an explicit wrap. *)

Definition u8 (z : Z) : Z := z mod 2 ^ 8.
Definition u32 (z : Z) : Z := z mod 2 ^ 32.
Definition u64 (z : Z) : Z := z mod 2 ^ 64.
Definition i32 (z : Z) : Z := (z + 2 ^ 31) mod 2 ^ 32 - 2 ^ 31.
Definition i64 (z : Z) : Z := (z + 2 ^ 63) mod 2 ^ 64 - 2 ^ 63.

(** [solve_wrap] closes linear goals over wrapped integers. *)
Ltac solve_wrap :=
  unfold u8, u32, u64, i32, i64 in *;
  Z.to_euclidean_division_equations; lia.

Lemma u32_range z : 0 <= u32 z < 2 ^ 32.
Proof. solve_wrap. Qed.

Lemma u64_range z : 0 <= u64 z < 2 ^ 64.
Proof. solve_wrap. Qed.

Lemma u32_small z : 0 <= z < 2 ^ 32 -> u32 z = z.
Proof. intros; unfold u32; apply Z.mod_small; lia. Qed.

Lemma u64_small z : 0 <= z < 2 ^ 64 -> u64 z = z.
Proof. intros; unfold u64; apply Z.mod_small; lia. Qed.

Lemma i32_small z : - 2 ^ 31 <= z < 2 ^ 31 -> i32 z = z.
Proof. intros; unfold i32; rewrite Z.mod_small; lia. Qed.

Lemma i64_small z : - 2 ^ 63 <= z < 2 ^ 63 -> i64 z = z.
Proof. intros; unfold i64; rewrite Z.mod_small; lia. Qed.

(** Masking with a power of two minus one is reduction modulo the power:
    the ring buffers and the circular array index with [i & (size - 1)]. *)
Lemma land_pow2_mod i p : 0 <= p -> Z.land i (2 ^ p - 1) = i mod 2 ^ p.
Proof.
  intros Hp. rewrite <- (Z.land_ones i p Hp). f_equal.
  rewrite Z.ones_equiv. lia.
Qed.

(** Two indices less than [n] apart fall in the same slot only if equal. *)
Lemma mod_inj_near n a b : 0 < n -> a mod n = b mod n -> - n < a - b < n -> a = b.
Proof.
  intros Hn Hm Hd.
  pose proof (Z.div_mod a n) as Ha. pose proof (Z.div_mod b n) as Hb.
  assert (a - b = n * (a / n - b / n)) as E by lia.
  assert (a / n - b / n = 0) by nia. lia.
Qed.

Create HintDb fiber discriminated.
Create Rewrite HintDb fiber.
#[export] Hint Resolve u32_range u64_range : fiber.
#[export] Hint Rewrite u32_small u64_small i32_small i64_small using lia : fiber.

(** ** List lemmas used by every thread-indexed model *)

(** Updating one element of a list, seen through permutations: the rest is
    the same list whatever the new element is. *)
Lemma insert_split {A} (ls : list A) i x :
  ls !! i = Some x ->
  exists rest, ls ≡ₚ x :: rest /\ forall y, <[i:=y]> ls ≡ₚ y :: rest.
Proof.
  intros Hi. exists (take i ls ++ drop (S i) ls). split.
  - rewrite <- (take_drop_middle ls i x Hi) at 1.
    by rewrite Permutation_middle.
  - intros y. rewrite insert_take_drop by (by eapply lookup_lt_Some).
    by rewrite Permutation_middle.
Qed.

(** Counting with weights. *)
Lemma sum_list_with_insert {A} (f : A -> nat) (ls : list A) i x y :
  ls !! i = Some x ->
  (sum_list_with f (<[i:=y]> ls) + f x = sum_list_with f ls + f y)%nat.
Proof.
  revert i. induction ls as [|a ls IH]; intros [|i] Hi; simplify_eq/=; [lia|].
  specialize (IH _ Hi). lia.
Qed.

Lemma sum_list_with_lookup {A} (f : A -> nat) (ls : list A) i x :
  ls !! i = Some x -> (f x <= sum_list_with f ls)%nat.
Proof.
  revert i. induction ls as [|a ls IH]; intros [|i] Hi; simplify_eq/=; [lia|].
  specialize (IH _ Hi). lia.
Qed.

Lemma sum_list_with_lookup2 {A} (f : A -> nat) (ls : list A) i j x y :
  i <> j -> ls !! i = Some x -> ls !! j = Some y ->
  (f x + f y <= sum_list_with f ls)%nat.
Proof.
  revert i j. induction ls as [|a ls IH]; intros [|i] [|j] Hij Hi Hj; simplify_eq/=.
  - pose proof (sum_list_with_lookup f ls j y Hj). lia.
  - pose proof (sum_list_with_lookup f ls i x Hi). lia.
  - assert (i <> j) by congruence. specialize (IH i j ltac:(done) Hi Hj). lia.
Qed.

Lemma sum_list_with_pos {A} (f : A -> nat) (ls : list A) :
  (0 < sum_list_with f ls)%nat -> exists i x, ls !! i = Some x /\ (0 < f x)%nat.
Proof.
  induction ls as [|a ls IH]; simpl; [lia|]. intros H.
  destruct (decide (0 < f a)%nat) as [Ha|Ha].
  - by exists 0%nat, a.
  - destruct IH as (i & x & Hi & Hx); [lia|]. by exists (S i), x.
Qed.

(** A sum with one non-zero summand. *)
Lemma sum_single {A} (f : A -> nat) (ls : list A) t x : ls !! t = Some x ->
  (forall i y, ls !! i = Some y -> i <> t -> f y = 0%nat) -> sum_list_with f ls = f x.
Proof.
  revert t. induction ls as [|a ls IH]; intros [|t] Ht Hz; simplify_eq/=.
  - assert (sum_list_with f ls = 0%nat) as ->; [|lia].
    destruct (decide (0 < sum_list_with f ls)%nat) as [(i & y & Hi & Hy)%sum_list_with_pos|]; [|lia].
    pose proof (Hz (S i) y Hi ltac:(done)). lia.
  - rewrite (Hz 0%nat a) by done. rewrite (IH t Ht); [done|]. intros i y Hi Hne. apply (Hz (S i) y Hi). lia.
Qed.

Lemma sum_list_with_le_length {A} (f : A -> nat) (ls : list A) :
  (forall x, f x <= 1)%nat -> (sum_list_with f ls <= length ls)%nat.
Proof. intros Hf. induction ls as [|a ls IH]; simpl; [lia|]. specialize (Hf a). lia. Qed.

(** The elements a 0/1 weight selects, as a duplicate-free list of indices. *)
Lemma sum_indices {A} (f : A -> nat) (ls : list A) : (forall x, f x <= 1)%nat ->
  exists idx : list nat, NoDup idx /\ length idx = sum_list_with f ls /\
    forall i, i ∈ idx -> exists x, ls !! i = Some x /\ f x = 1%nat.
Proof.
  intros Hf. induction ls as [|a ls (idx & Hnd & Hl & Hi)].
  - exists []. split_and!; [apply NoDup_nil_2|done|]. by intros i ?%elem_of_nil.
  - assert (forall i, i ∈ S <$> idx -> exists x, (a :: ls) !! i = Some x /\ f x = 1%nat) as HS.
    { intros i (j & -> & Hj)%list_elem_of_fmap. by apply Hi. }
    assert (NoDup (S <$> idx)) as HN by (apply NoDup_fmap_2; [apply _|done]).
    destruct (decide (f a = 1%nat)) as [Ha|Ha].
    + exists (0%nat :: (S <$> idx)). simpl. rewrite length_fmap, Hl, Ha. split_and!; [|done|].
      * constructor; [|done]. by intros (j & ? & _)%list_elem_of_fmap.
      * intros i [->|H]%elem_of_cons; [by exists a|by apply HS].
    + exists (S <$> idx). simpl. rewrite length_fmap, Hl. split_and!; [done| |done].
      specialize (Hf a). lia.
Qed.

(** More selected indices than a list has elements: one is not in the list. *)
Lemma sum_pigeonhole {A} (f : A -> nat) (ls : list A) (l : list nat) : (forall x, f x <= 1)%nat ->
  (length l < sum_list_with f ls)%nat -> exists i x, ls !! i = Some x /\ f x = 1%nat /\ i ∉ l.
Proof.
  intros Hf Hlt. destruct (sum_indices f ls Hf) as (idx & Hnd & Hl & Hi).
  destruct (decide (Forall (.∈ l) idx)) as [Hall|Hn].
  - rewrite Forall_forall in Hall.
    pose proof (submseteq_length _ _ (NoDup_submseteq _ _ Hnd Hall)). lia.
  - apply not_Forall_Exists in Hn; [|apply _]. apply Exists_exists in Hn as (i & Hin & Hni).
    destruct (Hi _ Hin) as (x & Hx & Hfx). by exists i, x.
Qed.

(** Distinct indices that a weight selects are at most its sum. *)
Lemma sum_covers {A} (f : A -> nat) (ls : list A) (idx : list nat) : NoDup idx ->
  (forall i, i ∈ idx -> exists x, ls !! i = Some x /\ (1 <= f x)%nat) -> (length idx <= sum_list_with f ls)%nat.
Proof.
  intros Hnd Hi. pose (g := fun i => match ls !! i with Some x => f x | None => 0%nat end).
  assert (sum_list_with g (seq 0 (length ls)) = sum_list_with f ls) as <-.
  { clear Hi. subst g. induction ls as [|a ls IH] using rev_ind; [done|].
    rewrite length_app, seq_app, !sum_list_with_app. simpl. f_equal.
    - rewrite <- IH. assert (forall l, (forall i, i ∈ l -> (i < length ls)%nat) ->
        sum_list_with (fun i => match (ls ++ [a]) !! i with Some x => f x | None => 0%nat end) l =
        sum_list_with (fun i => match ls !! i with Some x => f x | None => 0%nat end) l) as Hl.
      { intros l. induction l as [|i l IHl]; intros Hl; [done|]. simpl.
        rewrite lookup_app_l by (apply Hl; left). rewrite IHl; [done|]. intros j Hj. apply Hl. by right. }
      apply Hl. intros i Hin%elem_of_seq. lia.
    - rewrite lookup_app_r, Nat.sub_diag by lia. done. }
  assert (idx ⊆+ seq 0 (length ls)) as [k Hk]%submseteq_Permutation.
  { apply NoDup_submseteq; [done|]. intros i Hin. destruct (Hi i Hin) as (x & Hx & _).
    apply lookup_lt_Some in Hx. apply elem_of_seq. lia. }
  rewrite Hk, sum_list_with_app. clear Hk Hnd. induction idx as [|i idx IH]; simpl; [lia|].
  destruct (Hi i) as (x & Hx & Hf); [left|]. assert (g i = f x) as -> by (unfold g; by rewrite Hx).
  enough (length idx <= sum_list_with g idx + sum_list_with g k)%nat by lia. apply IH. intros j Hj. apply Hi. by right.
Qed.

Lemma omap_replicate_None {A B} (f : A -> option B) n x : f x = None -> omap f (replicate n x) = [].
Proof. intros E. induction n as [|n IH]; [done|]. csimpl. by rewrite E. Qed.

Lemma omap_length_le {A B} (f : A -> option B) (l : list A) : (length (omap f l) <= length l)%nat.
Proof. induction l as [|x l IH]; csimpl; [lia|]. destruct (f x); csimpl; lia. Qed.

(** In a list whose images are pairwise distinct, an image identifies its
    index. *)
Lemma omap_NoDup_inj {A B} (f : A -> option B) (l : list A) i j x y v :
  NoDup (omap f l) -> l !! i = Some x -> l !! j = Some y ->
  f x = Some v -> f y = Some v -> i = j.
Proof.
  revert i j. induction l as [|a l IH]; intros [|i] [|j] Hnd Hi Hj Hx Hy;
    simplify_eq; csimpl in *; simplify_eq; try done.
  - rewrite Hx in Hnd. apply NoDup_cons in Hnd as [[] _].
    apply list_elem_of_omap. exists y. split; [by eapply list_elem_of_lookup_2|done].
  - rewrite Hy in Hnd. apply NoDup_cons in Hnd as [[] _].
    apply list_elem_of_omap. exists x. split; [by eapply list_elem_of_lookup_2|done].
  - f_equal. eapply IH; eauto. destruct (f a); [by apply NoDup_cons in Hnd as [_ ?]|done].
Qed.

(** Replacing an element by one with the same image keeps the images. *)
Lemma omap_insert_same {A B} (f : A -> option B) (ls : list A) t x y :
  ls !! t = Some x -> f y = f x -> omap f (<[t:=y]> ls) ≡ₚ omap f ls.
Proof.
  intros Ht E. destruct (insert_split _ _ _ Ht) as (rest & Hr & Hi).
  rewrite (Hi y), Hr. csimpl. by rewrite E.
Qed.

(** An element gains or loses its image. *)
Lemma omap_insert_add {A B} (f : A -> option B) (ls : list A) t x y b :
  ls !! t = Some x -> f x = None -> f y = Some b ->
  omap f (<[t:=y]> ls) ≡ₚ b :: omap f ls.
Proof.
  intros Ht E1 E2. destruct (insert_split _ _ _ Ht) as (rest & Hr & Hi).
  rewrite (Hi y), Hr. csimpl. by rewrite E1, E2.
Qed.

Lemma omap_insert_del {A B} (f : A -> option B) (ls : list A) t x y b :
  ls !! t = Some x -> f x = Some b -> f y = None ->
  omap f ls ≡ₚ b :: omap f (<[t:=y]> ls).
Proof.
  intros Ht E1 E2. destruct (insert_split _ _ _ Ht) as (rest & Hr & Hi).
  rewrite (Hi y), Hr. csimpl. by rewrite E1, E2.
Qed.

(** A set seen as a list, one element apart. *)
Lemma elements_take `{Countable A} (X : gset A) n : n ∈ X -> elements X ≡ₚ n :: elements (X ∖ {[n]}).
Proof.
  intros Hn. rewrite <- (elements_union_singleton (X ∖ {[n]}) n) by set_solver. f_equiv.
  by rewrite <- union_difference_singleton.
Qed.

(** Lists of lists. *)

Lemma concat_insert {A} (ls : list (list A)) t x y : ls !! t = Some x ->
  x ++ concat (<[t:=y]> ls) ≡ₚ y ++ concat ls.
Proof.
  revert t. induction ls as [|z ls IH]; intros [|t] Ht; simplify_eq/=.
  - apply Permutation_app_swap_app.
  - by rewrite (Permutation_app_swap_app x), (Permutation_app_swap_app y), IH.
Qed.

Lemma concat_NoDup_inj {A} (ls : list (list A)) i j x y v : NoDup (concat ls) -> ls !! i = Some x -> ls !! j = Some y ->
  v ∈ x -> v ∈ y -> i = j.
Proof.
  revert i j. induction ls as [|z ls IH]; intros i j Hnd Hi Hj Hx Hy; [done|]. rewrite concat_cons in Hnd.
  apply NoDup_app in Hnd as (_ & Hd & Hnd).
  assert (forall k w, ls !! k = Some w -> v ∈ w -> v ∉ z) as Hz.
  { intros k w Hk Hw Hvz. apply (Hd v Hvz), list_elem_of_In, in_concat. exists w.
    split; apply list_elem_of_In; [by eapply list_elem_of_lookup_2|done]. }
  destruct i as [|i], j as [|j]; simplify_eq/=; [done|by destruct (Hz _ _ Hj Hy)|by destruct (Hz _ _ Hi Hx)|].
  f_equal. by eapply IH.
Qed.

Lemma concat_insert_cons {A} (ls : list (list A)) i l l' x : ls !! i = Some l -> l' ≡ₚ x :: l -> concat (<[i:=l']> ls) ≡ₚ x :: concat ls.
Proof. intros Hi Hl. apply (Permutation_app_inv_l l). rewrite (concat_insert _ _ _ l' Hi), Hl. cbn. by rewrite <- Permutation_middle. Qed.

Lemma concat_insert_tail {A} (ls : list (list A)) i l' x : ls !! i = Some (x :: l') -> concat ls ≡ₚ x :: concat (<[i:=l']> ls).
Proof. intros Hi. apply (Permutation_app_inv_l l'). rewrite <- (concat_insert _ _ _ l' Hi). cbn. by rewrite <- Permutation_middle. Qed.

Lemma Forall2_elem_impl {A B} (P Q : A -> B -> Prop) l k : (forall a b, a ∈ l -> P a b -> Q a b) -> Forall2 P l k -> Forall2 Q l k.
Proof. intros Hi Hf. induction Hf as [|a b l k Hp Hf IH]; constructor; [apply Hi; [left|done]|]. apply IH. intros x y Hx. apply Hi. by right. Qed.

Lemma omap_all_none {A B} (f : A -> option B) (l : list A) : (forall i x, l !! i = Some x -> f x = None) -> omap f l = [].
Proof. induction l as [|a l IH]; intros Hn; [done|]. csimpl. rewrite (Hn 0%nat a eq_refl). apply IH. intros i x Hi. by apply (Hn (S i)). Qed.

Lemma omap_none_but {A B} (f : A -> option B) (l : list A) t x : l !! t = Some x ->
  (forall i y, i <> t -> l !! i = Some y -> f y = None) -> omap f l = option_list (f x).
Proof.
  revert t. induction l as [|a l IH]; intros [|t] Ht Ho; simplify_eq/=.
  - assert (omap f l = []) as ->; [|by destruct (f x)]. clear - Ho. revert Ho. induction l as [|b l IH]; intros Ho; [done|].
    csimpl. rewrite (Ho 1%nat b) by done. apply IH. intros [|i] y Hi Hy; [done|]. by apply (Ho (S (S i))).
  - rewrite (Ho 0%nat a) by done. apply (IH t Ht). intros i y Hi Hy. apply (Ho (S i)); [lia|done].
Qed.

Lemma omap_none_same {A B} (f : A -> option B) (l : list A) t x y : l !! t = Some x -> f x = None -> f y = None ->
  omap f (<[t:=y]> l) = omap f l.
Proof. revert t. induction l as [|a l IH]; intros [|t] Ht Ex Ey; simplify_eq/=; [by rewrite Ex, Ey|]. by rewrite (IH t Ht). Qed.

(** The nodes of a list that are all in a map. *)
Lemma NoDup_length_size {A} (h : gmap Z A) (l : list Z) : NoDup l -> (forall a, a ∈ l -> is_Some (h !! a)) -> (length l <= size h)%nat.
Proof.
  intros Hnd Hin. rewrite <- size_dom, <- (size_list_to_set (C := gset Z) l) by done. apply subseteq_size.
  intros x Hx%elem_of_list_to_set. by apply elem_of_dom, Hin.
Qed.

Lemma NoDup_size {A} (h : gmap Z A) (l : list Z) : NoDup l -> (forall a, is_Some (h !! a) <-> a ∈ l) -> size h = length l.
Proof.
  intros Hnd Hl. rewrite <- size_dom. assert (dom h = list_to_set (C := gset Z) l) as ->.
  { apply set_eq. intros a. by rewrite elem_of_dom, elem_of_list_to_set, Hl. }
  by apply size_list_to_set.
Qed.

Lemma filter_all {A} (P : A -> Prop) `{!forall x, Decision (P x)} (l : list A) :
  (forall x, x ∈ l -> P x) -> filter P l = l.
Proof.
  induction l as [|x l IH]; intros Hx; [done|]. rewrite filter_cons_True by (apply Hx; left).
  f_equal. apply IH. intros y Hy. apply Hx. by right.
Qed.

Lemma filter_none {A} (P : A -> Prop) `{!forall x, Decision (P x)} (l : list A) :
  (forall x, x ∈ l -> ~ P x) -> filter P l = [].
Proof.
  induction l as [|x l IH]; intros Hx; [done|]. rewrite filter_cons_False by (apply Hx; left).
  apply IH. intros y Hy. apply Hx. by right.
Qed.

(** ** Labelled transition systems

    Every concurrent component is an executable step function.  A label says
    which thread moves and what the environment chooses (the operation called,
    a spurious failure of a weak compare-and-swap); a step returns the events
    it emits, which are the linearisation points of the operations. *)

Section lts.
Context {St Lbl Ev : Type}.
Variable step : Lbl -> St -> option (St * list Ev).

Fixpoint run (ls : list Lbl) (s : St) : option (St * list Ev) :=
  match ls with
  | [] => Some (s, [])
  | l :: ls =>
      match step l s with
      | None => None
      | Some (s1, e1) =>
          match run ls s1 with
          | None => None
          | Some (s2, e2) => Some (s2, e1 ++ e2)
          end
      end
  end.

Definition reachable (init s : St) : Prop :=
  exists ls evs, run ls init = Some (s, evs).

Lemma run_cons_inv l ls s s2 evs :
  run (l :: ls) s = Some (s2, evs) ->
  exists s1 e1 e2, step l s = Some (s1, e1) /\ run ls s1 = Some (s2, e2) /\ evs = e1 ++ e2.
Proof.
  simpl. destruct (step l s) as [[s1 e1]|]; [|done].
  destruct (run ls s1) as [[s2' e2]|] eqn:E; [|done].
  intros [= <- <-]. eauto 10.
Qed.

Lemma run_app_intro ls1 ls2 s s1 s2 e1 e2 :
  run ls1 s = Some (s1, e1) -> run ls2 s1 = Some (s2, e2) -> run (ls1 ++ ls2) s = Some (s2, e1 ++ e2).
Proof.
  revert s e1. induction ls1 as [|l ls1 IH]; intros s e1 H1 H2; [simpl in *; by simplify_eq/=|].
  apply run_cons_inv in H1 as (s' & x & y & Hs & Hr & ->). simpl. rewrite Hs. simpl.
  by rewrite (IH _ _ Hr H2), app_assoc.
Qed.

(** An indexed simulation: [n] counts the steps taken so far, so that a bound
    on the length of the run bounds the counters the component keeps. *)
Section simulation.
Context {A : Type}.
Variable astep : Ev -> A -> option A.

Fixpoint spec_run (evs : list Ev) (a : A) : option A :=
  match evs with
  | [] => Some a
  | e :: evs => match astep e a with Some a' => spec_run evs a' | None => None end
  end.

Lemma spec_run_app e1 e2 a :
  spec_run (e1 ++ e2) a =
  match spec_run e1 a with Some a' => spec_run e2 a' | None => None end.
Proof. revert a. induction e1 as [|e e1 IH]; intros a; simpl; [done|]. by destruct (astep e a). Qed.

Variable B : Z.
Variable R : Z -> St -> A -> Prop.
Hypothesis R_step : forall n l s s' evs a,
  n + 1 < B -> R n s a -> step l s = Some (s', evs) ->
  exists a', spec_run evs a = Some a' /\ R (n + 1) s' a'.

Lemma run_simulation ls : forall n s s' evs a,
  n + Z.of_nat (length ls) < B -> R n s a -> run ls s = Some (s', evs) ->
  exists a', spec_run evs a = Some a' /\ R (n + Z.of_nat (length ls)) s' a'.
Proof.
  induction ls as [|l ls IH]; intros n s s' evs a Hn HR Hrun.
  - simpl in Hrun. simplify_eq. exists a. split; [done|]. by rewrite Z.add_0_r.
  - apply run_cons_inv in Hrun as (s1 & e1 & e2 & Hs & Hr & ->).
    rewrite length_cons in *.
    destruct (R_step n l s s1 e1 a) as (a1 & Ha1 & HR1); [lia|done|done|].
    destruct (IH (n + 1) s1 s' e2 a1) as (a2 & Ha2 & HR2); [lia|done|done|].
    exists a2. rewrite spec_run_app, Ha1. split; [done|].
    by replace (n + Z.of_nat (S (length ls))) with (n + 1 + Z.of_nat (length ls)) by lia.
Qed.

End simulation.

(** Plain invariants, by induction on the run. *)
Lemma run_invariant (I : St -> Prop) ls s s' evs :
  (forall l s s' evs, I s -> step l s = Some (s', evs) -> I s') ->
  I s -> run ls s = Some (s', evs) -> I s'.
Proof.
  intros Hpres. revert s evs. induction ls as [|l ls IH]; intros s evs HI Hrun.
  - simpl in Hrun. by simplify_eq.
  - apply run_cons_inv in Hrun as (s1 & e1 & e2 & Hs & Hr & ->). eauto.
Qed.

Lemma reachable_invariant (I : St -> Prop) init s :
  (forall l s s' evs, I s -> step l s = Some (s', evs) -> I s') ->
  I init -> reachable init s -> I s.
Proof. intros Hp Hi (ls & evs & Hr). by eapply run_invariant. Qed.

End lts.

(** ** Configurations: a shared state and one local state per thread *)

Record conf (Sh Loc : Type) := Conf { shared : Sh; threads : list Loc }.
Arguments Conf {_ _} _ _.
Arguments shared {_ _} _.
Arguments threads {_ _} _.

Section threads.
Context {Sh Loc Ch Ev : Type}.
Variable tstep : nat -> Ch -> Sh -> Loc -> option (Sh * Loc * list Ev).

Definition conf_step (lbl : nat * Ch) (c : conf Sh Loc) : option (conf Sh Loc * list Ev) :=
  match threads c !! lbl.1 with
  | None => None
  | Some l =>
      match tstep lbl.1 lbl.2 (shared c) l with
      | None => None
      | Some (s', l', evs) => Some (Conf s' (<[lbl.1:=l']> (threads c)), evs)
      end
  end.

Lemma conf_step_inv t ch c c' evs :
  conf_step (t, ch) c = Some (c', evs) ->
  exists l s' l', threads c !! t = Some l /\
    tstep t ch (shared c) l = Some (s', l', evs) /\
    c' = Conf s' (<[t:=l']> (threads c)).
Proof.
  unfold conf_step; simpl. intros H.
  destruct (threads c !! t) as [l|] eqn:E; [|done].
  destruct (tstep t ch (shared c) l) as [[[s' l'] e]|] eqn:E2; [|done].
  simplify_eq. eauto 10.
Qed.

Lemma conf_step_length lbl c c' evs :
  conf_step lbl c = Some (c', evs) -> length (threads c') = length (threads c).
Proof.
  destruct lbl as [t ch]. intros (l & s' & l' & _ & _ & ->)%conf_step_inv.
  simpl. apply length_insert.
Qed.

End threads.

(** Case analysis on the lookup of an updated thread list. *)
Lemma lookup_insert_cases {A} (ls : list A) t x i y :
  <[t:=x]> ls !! i = Some y -> (i = t /\ y = x) \/ (i <> t /\ ls !! i = Some y).
Proof. intros [(-> & -> & _)|(? & ?)]%list_lookup_insert_Some; naive_solver. Qed.

(** A step that moves a program counter changes the configuration. *)
Lemma conf_changed {Sh Loc} (c : conf Sh Loc) s' t pc pc' :
  threads c !! t = Some pc -> pc' <> pc -> Conf s' (<[t:=pc']> (threads c)) <> c.
Proof.
  intros Ht Hne E. assert (threads (Conf s' (<[t:=pc']> (threads c))) !! t = Some pc') as Hx
    by (simpl; apply list_lookup_insert_eq; by eapply lookup_lt_Some).
  rewrite E in Hx. congruence.
Qed.

(** [case_step H] splits a hypothesis saying that an executable step function
    returned a result into its cases, dropping the impossible ones. *)
Ltac case_step H :=
  repeat (simpl in H; first
    [ discriminate H
    | match type of H with context [match ?x with _ => _ end] =>
        destruct x eqn:?; try discriminate H end ]);
  simpl in H; simplify_eq.

Ltac thread_cases H :=
  apply lookup_insert_cases in H as [(-> & ->)|(? & H)].

(** Discharge the leading conjuncts that are hypotheses. *)
Ltac keep_hyps := repeat (split; [assumption|]).
