(* ===== verification/Spinlock.v ===== *)
(** * The ticket spin lock ([src/fiber_spinlock.c], [include/fiber_spinlock.h])

    Shared state: the [ticket]/[users] union and the [spin_count] statistic the
    waiting loop increments.  One program point per atomic access of the C
    functions.  The events of a run are the acquisitions and releases; the
    abstract lock they refine is [lock_spec]. *)

From S2P Require Import Prelude.

(** ** Data *)

(** [fiber_spinlock_internal_t]: two 32-bit counters overlaid with a 64-bit
    [blob] (little endian: [ticket] is the low half). *)
Record fiber_spinlock_internal := SpinState { ticket : Z; users : Z }.

Definition spin_blob (s : fiber_spinlock_internal) : Z := ticket s + users s * 2 ^ 32.

Definition spin_of_blob (b : Z) : fiber_spinlock_internal :=
  SpinState (u32 b) (u32 (Z.shiftr b 32)).

Definition fiber_spinlock_init : fiber_spinlock_internal := spin_of_blob 0.

Record spin_shared := SpinShared {
  spin_state : fiber_spinlock_internal;
  spin_count : Z   (* fiber_manager_get()->spin_count *)
}.

(** Where a thread is, with the C locals live there. *)
Inductive spin_pc :=
| SIdle
| SLockSpin (my_ticket : Z)               (* fiber_spinlock_lock: the while loop *)
| STryCas (old_blob new_blob : Z)         (* fiber_spinlock_trylock: before the CAS *)
| SHeld
| SUnlockStore (old_ticket : Z).          (* fiber_spinlock_unlock: before the store *)

Inductive spin_choice :=
| CallLock | CallTrylock | CallUnlock | Continue | SpuriousFail.

Inductive lock_ev :=
| EvAcquire (t : nat)
| EvRelease (t : nat)
| EvTryFail (t : nat).

(** ** Operations *)

(** [fiber_spinlock_lock]: take a ticket, then spin until it is served. *)
Definition fiber_spinlock_lock (t : nat) (s : spin_shared) (pc : spin_pc)
    : option (spin_shared * spin_pc * list lock_ev) :=
  let st := spin_state s in
  match pc with
  | SIdle =>
      let my_ticket := users st in
      Some (SpinShared (SpinState (ticket st) (u32 (users st + 1))) (spin_count s),
            SLockSpin my_ticket, [])
  | SLockSpin my_ticket =>
      if Z.eqb (ticket st) my_ticket
      then Some (s, SHeld, [EvAcquire t])
      else Some (SpinShared st (u64 (spin_count s + 1)), SLockSpin my_ticket, [])
  | _ => None
  end.

(** [fiber_spinlock_trylock]: read the blob, then one weak compare-and-swap
    (which may fail spuriously). *)
Definition fiber_spinlock_trylock (spurious : bool) (t : nat) (s : spin_shared) (pc : spin_pc)
    : option (spin_shared * spin_pc * list lock_ev) :=
  match pc with
  | SIdle =>
      let old := spin_of_blob (spin_blob (spin_state s)) in
      let old := SpinState (users old) (users old) in
      let new := SpinState (ticket old) (u32 (users old + 1)) in
      Some (s, STryCas (spin_blob old) (spin_blob new), [])
  | STryCas old_blob new_blob =>
      if negb spurious && Z.eqb (spin_blob (spin_state s)) old_blob
      then Some (SpinShared (spin_of_blob new_blob) (spin_count s), SHeld, [EvAcquire t])
      else Some (s, SIdle, [EvTryFail t])
  | _ => None
  end.

(** [fiber_spinlock_unlock]: a load and a store, not a read-modify-write. *)
Definition fiber_spinlock_unlock (t : nat) (s : spin_shared) (pc : spin_pc)
    : option (spin_shared * spin_pc * list lock_ev) :=
  let st := spin_state s in
  match pc with
  | SHeld => Some (s, SUnlockStore (ticket st), [])
  | SUnlockStore old_ticket =>
      Some (SpinShared (SpinState (u32 (old_ticket + 1)) (users st)) (spin_count s),
            SIdle, [EvRelease t])
  | _ => None
  end.

(** A thread calls an operation when idle (unlock when it holds the lock) and
    then continues it. *)
Definition spin_tstep (t : nat) (ch : spin_choice) (s : spin_shared) (pc : spin_pc)
    : option (spin_shared * spin_pc * list lock_ev) :=
  match ch, pc with
  | CallLock, SIdle => fiber_spinlock_lock t s pc
  | CallTrylock, SIdle => fiber_spinlock_trylock false t s pc
  | CallUnlock, SHeld => fiber_spinlock_unlock t s pc
  | Continue, SLockSpin _ => fiber_spinlock_lock t s pc
  | Continue, STryCas _ _ => fiber_spinlock_trylock false t s pc
  | SpuriousFail, STryCas _ _ => fiber_spinlock_trylock true t s pc
  | Continue, SUnlockStore _ => fiber_spinlock_unlock t s pc
  | _, _ => None
  end.

Definition spin_conf := conf spin_shared spin_pc.
Definition spin_step := conf_step spin_tstep.
Definition spin_init (n : nat) : spin_conf :=
  Conf (SpinShared fiber_spinlock_init 0) (replicate n SIdle).

(** ** The abstract lock: at most one holder, released by its holder *)

Definition lock_spec (e : lock_ev) (holder : option nat) : option (option nat) :=
  match e, holder with
  | EvAcquire t, None => Some (Some t)
  | EvRelease t, Some t' => if decide (t = t') then Some None else None
  | EvTryFail _, h => Some h
  | _, _ => None
  end.

(** ** Positions in the queue of tickets *)

(** How many releases separate a thread from the lock: its ticket's distance
    from the one being served, modulo 2^32. *)
Definition spin_pos (tk : Z) (pc : spin_pc) : option Z :=
  match pc with
  | SLockSpin m => Some (u32 (m - tk))
  | SHeld | SUnlockStore _ => Some 0
  | SIdle | STryCas _ _ => None
  end.

Definition spin_holds (pc : spin_pc) : bool :=
  match pc with SHeld | SUnlockStore _ => true | _ => false end.

Definition spin_local_ok (tk : Z) (pc : spin_pc) : Prop :=
  match pc with
  | SLockSpin m => 0 <= m < 2 ^ 32
  | STryCas o n => exists k, 0 <= k < 2 ^ 32 /\
      o = spin_blob (SpinState k k) /\ n = spin_blob (SpinState k (u32 (k + 1)))
  | SUnlockStore o => o = tk
  | SIdle | SHeld => True
  end.

Record spin_inv (c : spin_conf) : Prop := {
  spin_inv_ticket : 0 <= ticket (spin_state (shared c)) < 2 ^ 32;
  spin_inv_users : 0 <= users (spin_state (shared c)) < 2 ^ 32;
  spin_inv_len : Z.of_nat (length (threads c)) < 2 ^ 32;
  spin_inv_pos :
    omap (spin_pos (ticket (spin_state (shared c)))) (threads c) ≡ₚ
    seqZ 0 (u32 (users (spin_state (shared c)) - ticket (spin_state (shared c))));
  spin_inv_local : forall i pc, threads c !! i = Some pc ->
    spin_local_ok (ticket (spin_state (shared c))) pc
}.

(** ** Lemmas *)

Lemma spin_blob_inj a b :
  0 <= ticket a < 2 ^ 32 -> 0 <= ticket b < 2 ^ 32 ->
  spin_blob a = spin_blob b -> a = b.
Proof.
  destruct a as [ta ua], b as [tb ub]; unfold spin_blob; simpl. intros Ha Hb E.
  assert (ua = ub) by lia. f_equal; lia.
Qed.

Lemma spin_of_blob_blob s :
  0 <= ticket s < 2 ^ 32 -> 0 <= users s < 2 ^ 32 -> spin_of_blob (spin_blob s) = s.
Proof.
  destruct s as [tk us]; unfold spin_of_blob, spin_blob; simpl. intros.
  rewrite Z.shiftr_div_pow2 by lia. f_equal; solve_wrap.
Qed.

Lemma spin_init_inv n : Z.of_nat n < 2 ^ 32 -> spin_inv (spin_init n).
Proof.
  intros Hn. split; simpl.
  - done.
  - done.
  - by rewrite length_replicate.
  - induction n as [|n IH]; simpl; [done|]. apply IH. lia.
  - intros i pc [-> _]%lookup_replicate. done.
Qed.

(** The number of queued or holding threads is the distance between the
    counters, so it never reaches 2^32. *)
Lemma spin_dist_length c : spin_inv c ->
  u32 (users (spin_state (shared c)) - ticket (spin_state (shared c))) =
  Z.of_nat (length (omap (spin_pos (ticket (spin_state (shared c)))) (threads c))).
Proof.
  intros [_ _ _ Hp _]. rewrite Hp, length_seqZ.
  pose proof (u32_range (users (spin_state (shared c)) - ticket (spin_state (shared c)))).
  lia.
Qed.

(** A thread outside the queue leaves room for one more ticket. *)
Lemma spin_dist_room c t pc : spin_inv c -> threads c !! t = Some pc ->
  spin_pos (ticket (spin_state (shared c))) pc = None ->
  u32 (users (spin_state (shared c)) - ticket (spin_state (shared c))) + 1 < 2 ^ 32.
Proof.
  intros Hi Ht Hn. rewrite (spin_dist_length c Hi).
  destruct (insert_split _ _ _ Ht) as (rest & Hr & _).
  rewrite Hr. csimpl. rewrite Hn.
  pose proof (omap_length_le (spin_pos (ticket (spin_state (shared c)))) rest).
  destruct Hi as [_ _ Hl _ _]. rewrite Hr in Hl. csimpl in Hl. lia.
Qed.

(** Serving the next ticket moves every waiter one position forward. *)
Lemma spin_pos_release tk rest d :
  0 <= tk < 2 ^ 32 -> 0 < d ->
  (forall pc, pc ∈ rest -> spin_local_ok tk pc) ->
  0 :: omap (spin_pos tk) rest ≡ₚ seqZ 0 d ->
  omap (spin_pos (u32 (tk + 1))) rest ≡ₚ seqZ 0 (d - 1).
Proof.
  intros Htk Hd Hok Hp. rewrite (seqZ_cons 0 d) in Hp by lia.
  apply Permutation.Permutation_cons_inv in Hp.
  replace (Z.pred d) with (d - 1) in Hp by lia.
  assert (omap (spin_pos (u32 (tk + 1))) rest = Z.add (-1) <$> omap (spin_pos tk) rest) as ->.
  { assert (forall v, v ∈ omap (spin_pos tk) rest -> 1 <= v) as Hge.
    { intros v Hv. rewrite Hp in Hv. apply elem_of_seqZ in Hv. lia. }
    clear Hp. induction rest as [|pc rest IH]; [done|].
    assert (omap (spin_pos (u32 (tk + 1))) rest = Z.add (-1) <$> omap (spin_pos tk) rest) as IH'.
    { apply IH; [|intros v Hv; apply Hge; csimpl; case_match; set_solver].
      intros pc' ?. apply Hok. set_solver. }
    csimpl. destruct pc as [|m|o n| |o]; csimpl in *; try done.
    - assert (1 <= u32 (m - tk)) by (apply Hge; set_solver).
      specialize (Hok (SLockSpin m) ltac:(set_solver)); simpl in Hok.
      rewrite IH'. f_equal. solve_wrap.
    - specialize (Hge 0 ltac:(set_solver)). lia.
    - specialize (Hge 0 ltac:(set_solver)). lia. }
  rewrite Hp, fmap_add_seqZ. done.
Qed.

Lemma u32_succ_dist a b : 0 <= a < 2 ^ 32 -> 0 <= b < 2 ^ 32 -> u32 (a - b) + 1 < 2 ^ 32 ->
  u32 (u32 (a + 1) - b) = u32 (a - b) + 1.
Proof. intros. solve_wrap. Qed.

Lemma u32_dist_succ a b : 0 <= a < 2 ^ 32 -> 0 <= b < 2 ^ 32 -> 0 < u32 (a - b) ->
  u32 (a - u32 (b + 1)) = u32 (a - b) - 1.
Proof. intros. solve_wrap. Qed.

(** Only the served ticket's thread is at position zero. *)
Lemma spin_holder_unique c i j pi pj : spin_inv c ->
  threads c !! i = Some pi -> threads c !! j = Some pj ->
  spin_pos (ticket (spin_state (shared c))) pi = Some 0 ->
  spin_pos (ticket (spin_state (shared c))) pj = Some 0 -> i = j.
Proof.
  intros [_ _ _ Hp _] Hi Hj Ei Ej. eapply omap_NoDup_inj; eauto.
  rewrite Hp. apply NoDup_seqZ.
Qed.

Lemma spin_lock_inv c t s' pc' evs pc :
  spin_inv c -> threads c !! t = Some pc ->
  fiber_spinlock_lock t (shared c) pc = Some (s', pc', evs) ->
  spin_inv (Conf s' (<[t:=pc']> (threads c))).
Proof.
  intros Hi Ht Hs. pose proof Hi as [Htk Hus Hl Hp Hlo].
  destruct pc as [|m|o n| |o]; simpl in Hs; try done.
  - simplify_eq. split; simpl; auto using u32_range.
    + by rewrite length_insert.
    + pose proof (spin_dist_room c t SIdle Hi Ht eq_refl) as Hroom.
      rewrite u32_succ_dist by (auto; lia).
      destruct (insert_split _ _ _ Ht) as (rest & Hr & Hin).
      rewrite (Hin _). csimpl. rewrite Hr in Hp. csimpl in Hp. rewrite Hp.
      pose proof (u32_range (users (spin_state (shared c)) - ticket (spin_state (shared c)))).
      rewrite seqZ_app by lia. rewrite (seqZ_cons _ 1) by lia. simpl.
      rewrite Z.add_0_l. apply Permutation_cons_append.
    + intros i pc Hpc. thread_cases Hpc; [done|]. eauto.
  - destruct (Z.eqb_spec (ticket (spin_state (shared c))) m) as [<-|Hne]; simplify_eq.
    + split; simpl; auto.
      * by rewrite length_insert.
      * rewrite <- Hp. eapply omap_insert_same; [done|]. simpl. f_equal. solve_wrap.
      * intros i pc Hpc. thread_cases Hpc; [done|]. eauto.
    + split; simpl; auto.
      * by rewrite length_insert.
      * rewrite <- Hp. by eapply omap_insert_same.
      * intros i pc Hpc. thread_cases Hpc; [|by eauto]. by apply (Hlo t).
Qed.

Lemma spin_trylock_inv sp c t s' pc' evs pc :
  spin_inv c -> threads c !! t = Some pc ->
  fiber_spinlock_trylock sp t (shared c) pc = Some (s', pc', evs) ->
  spin_inv (Conf s' (<[t:=pc']> (threads c))).
Proof.
  intros Hi Ht Hs. pose proof Hi as [Htk Hus Hl Hp Hlo].
  destruct pc as [|m|o n| |o]; cbv beta iota zeta delta [fiber_spinlock_trylock] in Hs; try done.
  - rewrite spin_of_blob_blob in Hs by done. simplify_eq.
    split; simpl; auto.
    + by rewrite length_insert.
    + rewrite <- Hp. by eapply omap_insert_same.
    + intros i pc Hpc. thread_cases Hpc; [|by eauto]. simpl. eauto.
  - destruct (negb sp && _) eqn:E; simplify_eq.
    + apply andb_prop in E as [_ E%Z.eqb_eq].
      destruct (Hlo _ _ Ht) as (k & Hk & -> & ->).
      apply spin_blob_inj in E; [|done|done].
      rewrite E in Htk, Hus, Hp, Hlo. simpl in *.
      rewrite spin_of_blob_blob by (simpl; auto using u32_range).
      assert (u32 (k - k) = 0) as Hz by solve_wrap.
      assert (u32 (u32 (k + 1) - k) = 1) as Ho by solve_wrap.
      split; simpl; auto using u32_range.
      * by rewrite length_insert.
      * rewrite Ho. rewrite Hz in Hp. destruct (insert_split _ _ _ Ht) as (rest & Hr & Hin).
        rewrite (Hin _). rewrite Hr in Hp. csimpl in *. by rewrite Hp.
      * intros i pc Hpc. thread_cases Hpc; [done|]. eauto.
    + split; simpl; auto.
      * by rewrite length_insert.
      * rewrite <- Hp. by eapply omap_insert_same.
      * intros i pc Hpc. thread_cases Hpc; [done|]. eauto.
Qed.

Lemma spin_unlock_inv c t s' pc' evs pc :
  spin_inv c -> threads c !! t = Some pc ->
  fiber_spinlock_unlock t (shared c) pc = Some (s', pc', evs) ->
  spin_inv (Conf s' (<[t:=pc']> (threads c))).
Proof.
  intros Hi Ht Hs. pose proof Hi as [Htk Hus Hl Hp Hlo].
  destruct pc as [|m|o n| |o]; simpl in Hs; try done; simplify_eq.
  - split; simpl; auto.
    + by rewrite length_insert.
    + rewrite <- Hp. by eapply omap_insert_same.
    + intros i pc Hpc. thread_cases Hpc; [done|]. eauto.
  - pose proof (Hlo _ _ Ht) as Ho. simpl in Ho. subst o.
    destruct (insert_split _ _ _ Ht) as (rest & Hr & Hin).
    assert (0 < u32 (users (spin_state (shared c)) - ticket (spin_state (shared c)))) as Hpos.
    { rewrite (spin_dist_length c Hi), Hr. csimpl. lia. }
    split; simpl; auto using u32_range.
    + by rewrite length_insert.
    + rewrite (Hin _), u32_dist_succ by done. csimpl.
      apply spin_pos_release; [done|done| |by rewrite Hr in Hp].
      intros pc Hpc. assert (pc ∈ threads c) as [i Hpci]%list_elem_of_lookup_1
        by (rewrite Hr; set_solver). eauto.
    + intros i pc Hpc. thread_cases Hpc; [done|].
      specialize (Hlo _ _ Hpc). destruct pc as [|m|o n| |o]; simpl in *; try done.
      assert (i = t) by (eapply spin_holder_unique; eauto; done). congruence.
Qed.

Lemma spin_step_inv lbl c c' evs :
  spin_inv c -> spin_step lbl c = Some (c', evs) -> spin_inv c'.
Proof.
  destruct lbl as [t ch]. intros Hi Hstep.
  apply conf_step_inv in Hstep as (pc & s' & pc' & Ht & Hs & ->).
  destruct ch, pc; try discriminate Hs;
    first [by eapply spin_lock_inv | by eapply (spin_trylock_inv false)
          | by eapply (spin_trylock_inv true) | by eapply spin_unlock_inv].
Qed.

Lemma spin_reachable_inv n c :
  Z.of_nat n < 2 ^ 32 -> reachable spin_step (spin_init n) c -> spin_inv c.
Proof.
  intros Hn. apply reachable_invariant; [|by apply spin_init_inv].
  intros. by eapply spin_step_inv.
Qed.

Lemma spin_holds_pos tk pc : spin_holds pc = true -> spin_pos tk pc = Some 0.
Proof. by destruct pc. Qed.

Lemma spin_only_holder c t pc : spin_inv c -> threads c !! t = Some pc ->
  spin_pos (ticket (spin_state (shared c))) pc = Some 0 ->
  forall i p, threads c !! i = Some p -> spin_holds p = true -> i = t.
Proof.
  intros Hi Ht E i p Hp Hh. eapply spin_holder_unique; [exact Hi|exact Hp|exact Ht| |exact E].
  by apply spin_holds_pos.
Qed.

(** The refinement relation: the abstract holder is the thread between its
    acquisition and its releasing store. *)
Definition spin_rel (_ : Z) (c : spin_conf) (h : option nat) : Prop :=
  spin_inv c /\
  match h with
  | Some t => exists pc, threads c !! t = Some pc /\ spin_holds pc = true
  | None => forall i pc, threads c !! i = Some pc -> spin_holds pc = false
  end.

(** A step that does not change who holds the lock keeps the relation. *)
Lemma spin_rel_same_holds c s' pc pc' t h :
  threads c !! t = Some pc -> spin_holds pc' = spin_holds pc ->
  spin_inv (Conf s' (<[t:=pc']> (threads c))) ->
  spin_rel 0 c h -> spin_rel 0 (Conf s' (<[t:=pc']> (threads c))) h.
Proof.
  intros Ht E Hi [_ Hh]. split; [done|]. destruct h as [h|]; simpl in *.
  - destruct Hh as (p & Hp & Hpt). destruct (decide (h = t)) as [->|Hne].
    + exists pc'. split; [|congruence]. apply list_lookup_insert_eq. by eapply lookup_lt_Some.
    + exists p. by rewrite list_lookup_insert_ne.
  - intros i p Hp. thread_cases Hp; [|by eauto]. rewrite E. eauto.
Qed.

(** A thread enters the lock only from position zero, when nobody holds it. *)
Lemma spin_rel_acquire c s' pc t h :
  threads c !! t = Some pc -> spin_holds pc = false ->
  (forall i p, threads c !! i = Some p -> spin_holds p = true -> i = t) ->
  spin_inv (Conf s' (<[t:=SHeld]> (threads c))) ->
  spin_rel 0 c h ->
  h = None /\ spin_rel 0 (Conf s' (<[t:=SHeld]> (threads c))) (Some t).
Proof.
  intros Ht Hnh Hu Hi [_ Hh]. split.
  - destruct h as [h|]; [|done]. destruct Hh as (p & Hp & Hpt).
    specialize (Hu _ _ Hp Hpt). congruence.
  - split; [done|]. exists SHeld. split; [|done].
    apply list_lookup_insert_eq. by eapply lookup_lt_Some.
Qed.

Lemma spin_rel_release c s' t o h : spin_inv c ->
  threads c !! t = Some (SUnlockStore o) ->
  spin_inv (Conf s' (<[t:=SIdle]> (threads c))) ->
  spin_rel 0 c h ->
  h = Some t /\ spin_rel 0 (Conf s' (<[t:=SIdle]> (threads c))) None.
Proof.
  intros Hi0 Ht Hi [_ Hh].
  pose proof (spin_only_holder c t _ Hi0 Ht eq_refl) as Hu.
  split.
  - destruct h as [h|]; [|by specialize (Hh _ _ Ht)].
    destruct Hh as (p & Hp & Hpt). f_equal. exact (Hu _ _ Hp Hpt).
  - split; [exact Hi|]. intros i p Hp. simpl in Hp. thread_cases Hp; [done|].
    destruct (spin_holds p) eqn:E; [|done]. by specialize (Hu _ _ Hp E).
Qed.

Lemma spin_simulation n lbl c c' evs h :
  spin_rel n c h -> spin_step lbl c = Some (c', evs) ->
  exists h', spec_run lock_spec evs h = Some h' /\ spin_rel (n + 1) c' h'.
Proof.
  intros HR Hstep. pose proof HR as [Hi _].
  pose proof (spin_step_inv _ _ _ _ Hi Hstep) as Hi'.
  destruct lbl as [t ch]. apply conf_step_inv in Hstep as (pc & s' & pc' & Ht & Hs & ->).
  destruct ch, pc as [|m|o nb| |o]; try discriminate Hs; simpl in Hs; case_step Hs;
    try (exists h; split; [done|]; by eapply spin_rel_same_holds).
  - (* the served ticket enters *)
    apply Z.eqb_eq in Heqb. subst m.
    assert (forall i p, threads c !! i = Some p -> spin_holds p = true -> i = t) as Hu.
    { eapply spin_only_holder; [exact Hi|exact Ht|]. simpl. f_equal. solve_wrap. }
    destruct (spin_rel_acquire c _ _ t h Ht eq_refl Hu Hi' HR) as [-> HR']. by exists (Some t).
  - (* trylock succeeds: the queue was empty *)
    assert (forall i p, threads c !! i = Some p -> spin_holds p = true -> i = t) as Hu.
    { intros i p Hp Hpt. apply Z.eqb_eq in Heqb.
      destruct (spin_inv_local _ Hi _ _ Ht) as (k & Hk & -> & _).
      apply spin_blob_inj in Heqb; [|by destruct Hi|done].
      pose proof (spin_dist_length c Hi) as Hd. rewrite Heqb in Hd. simpl in Hd.
      assert (u32 (k - k) = 0) as Hz by solve_wrap. rewrite Hz in Hd.
      destruct (insert_split _ _ _ Hp) as (rest & Hr & _). rewrite Hr in Hd.
      csimpl in Hd. rewrite (spin_holds_pos k p Hpt) in Hd. csimpl in Hd. lia. }
    destruct (spin_rel_acquire c _ _ t h Ht eq_refl Hu Hi' HR) as [-> HR']. by exists (Some t).
  - (* release *)
    destruct (spin_rel_release c _ t o h Hi Ht Hi' HR) as [-> HR'].
    exists None. simpl. by rewrite decide_True.
Qed.

(** ** Properties *)

(** C19: Mutual exclusion as a refinement.  For any number of threads below
    2^32 and any interleaving of lock, trylock (spurious failures included) and
    unlock, the sequence of acquisitions and releases is one the abstract lock
    allows: an acquisition happens only when nobody holds the lock and a release
    only by the holder.  The counters may wrap around any number of times. *)
Theorem spinlock_refines_lock (n : nat) (ls : list (nat * spin_choice)) c evs :
  Z.of_nat n < 2 ^ 32 ->
  run spin_step ls (spin_init n) = Some (c, evs) ->
  exists holder, spec_run lock_spec evs None = Some holder /\
    forall t pc, threads c !! t = Some pc -> spin_holds pc = true -> holder = Some t.
Proof.
  intros Hn Hrun.
  destruct (run_simulation spin_step lock_spec (Z.of_nat (length ls) + 1) spin_rel)
    with (ls := ls) (n := 0) (s := spin_init n) (s' := c) (evs := evs) (a := @None nat)
    as (h & Hh & [Hi HR]); [|lia| |done|].
  - intros. by eapply spin_simulation.
  - split; [by apply spin_init_inv|]. intros i pc [-> _]%lookup_replicate. done.
  - exists h. split; [done|]. intros t pc Ht Hpc. destruct h as [h|].
    + destruct HR as (p & Hp & Hpt). f_equal.
      eapply spin_only_holder; [done|exact Ht|by apply spin_holds_pos|exact Hp|done].
    + specialize (HR _ _ Ht). congruence.
Qed.

Definition spin_demo : list (nat * spin_choice) :=
  [(0, CallLock); (1, CallLock); (2, CallTrylock); (0, Continue); (2, Continue);
   (1, Continue); (0, CallUnlock); (0, Continue); (1, Continue)]%nat.

Lemma spinlock_refines_lock_witness :
  exists holder, spec_run lock_spec [EvAcquire 0; EvTryFail 2; EvRelease 0; EvAcquire 1]%nat None
    = Some holder /\ holder = Some 1%nat.
Proof.
  destruct (spinlock_refines_lock 3 spin_demo
    (Conf (SpinShared (SpinState 1 2) 1) [SIdle; SHeld; SIdle])
    [EvAcquire 0; EvTryFail 2; EvRelease 0; EvAcquire 1]%nat) as (h & H1 & H2).
  - lia.
  - vm_compute. reflexivity.
  - exists h. split; [exact H1|]. apply (H2 1%nat SHeld); reflexivity.
Defined.

Lemma spin_front_exists c i pc v : spin_inv c ->
  threads c !! i = Some pc -> spin_pos (ticket (spin_state (shared c))) pc = Some v ->
  exists t p, threads c !! t = Some p /\ spin_pos (ticket (spin_state (shared c))) p = Some 0.
Proof.
  intros Hi Ht Hv. destruct Hi as [_ _ _ Hp _].
  assert (v ∈ seqZ 0 (u32 (users (spin_state (shared c)) - ticket (spin_state (shared c))))) as Hin.
  { rewrite <- Hp. apply list_elem_of_omap. exists pc.
    split; [by eapply list_elem_of_lookup_2|done]. }
  apply elem_of_seqZ in Hin.
  assert (0 ∈ omap (spin_pos (ticket (spin_state (shared c)))) (threads c)) as H0.
  { rewrite Hp. apply elem_of_seqZ. lia. }
  apply list_elem_of_omap in H0 as (p & [t Hpt]%list_elem_of_lookup_1 & Hz). eauto.
Qed.

Definition releases (evs : list lock_ev) : Z :=
  foldr (fun e k => match e with EvRelease _ => k + 1 | _ => k end) 0 evs.

(** First come, first served.  While a thread waits in [fiber_spinlock_lock]
    its position decreases by exactly one at each release and is changed by
    nothing else, and any thread that acquires the lock meanwhile (by lock or by
    trylock) was strictly ahead of it: nobody overtakes a ticket holder. *)
Theorem spinlock_fifo (n : nat) c lbl c' evs i m p :
  Z.of_nat n < 2 ^ 32 ->
  reachable spin_step (spin_init n) c ->
  spin_step lbl c = Some (c', evs) ->
  threads c !! i = Some (SLockSpin m) -> threads c' !! i = Some (SLockSpin m) ->
  spin_pos (ticket (spin_state (shared c))) (SLockSpin m) = Some p ->
  spin_pos (ticket (spin_state (shared c'))) (SLockSpin m) = Some (p - releases evs) /\
  (forall t, EvAcquire t ∈ evs -> 0 < p).
Proof.
  intros Hn Hreach Hstep Hi Hi' Hp. pose proof (spin_reachable_inv n c Hn Hreach) as Hinv.
  simpl in Hp. injection Hp as <-. destruct lbl as [t ch].
  apply conf_step_inv in Hstep as (pc & s' & pc' & Ht & Hs & ->). simpl in Hi'.
  assert (forall q, spin_pos (ticket (spin_state (shared c))) q = Some 0 ->
    threads c !! t = Some q -> t <> i -> 0 < u32 (m - ticket (spin_state (shared c)))) as Hfront.
  { intros q Hq Htq Hne. pose proof (u32_range (m - ticket (spin_state (shared c)))) as Hr.
    destruct (decide (u32 (m - ticket (spin_state (shared c))) = 0)) as [E|E]; [|lia].
    destruct Hne. eapply spin_holder_unique; [done|exact Htq|exact Hi|done|].
    simpl. by rewrite E. }
  pose proof (spin_inv_local _ Hinv _ _ Hi) as Hm. simpl in Hm.
  pose proof (spin_inv_ticket _ Hinv) as Htk.
  destruct ch, pc as [|k|o nb| |o]; try discriminate Hs; simpl in Hs; case_step Hs;
    unfold releases; simpl; rewrite ?Z.sub_0_r.
  all: try (split; [done|]; intros t' Hin; by apply elem_of_nil in Hin).
  all: try (split; [done|]; intros t' Hin; by apply list_elem_of_singleton in Hin).
  - apply Z.eqb_eq in Heqb. subst k. split; [done|]. intros _ _.
    apply (Hfront (SLockSpin (ticket (spin_state (shared c))))); [|exact Ht|].
    { simpl. f_equal. solve_wrap. }
    intros ->.
    rewrite list_lookup_insert_eq in Hi' by (by eapply lookup_lt_Some). done.
  - apply Z.eqb_eq in Heqb. destruct (spin_inv_local _ Hinv _ _ Ht) as (k & Hk & -> & ->).
    apply spin_blob_inj in Heqb; [|done|done].
    exfalso. pose proof (spin_dist_length c Hinv) as Hd. rewrite Heqb in Hd. simpl in Hd.
    assert (u32 (k - k) = 0) as Hz by solve_wrap. rewrite Hz in Hd.
    destruct (insert_split _ _ _ Hi) as (rest & Hr & _). rewrite Hr in Hd. csimpl in Hd. lia.
  - split; [|intros t' Hin; by apply list_elem_of_singleton in Hin].
    assert (t <> i) as Hne.
    { intros ->. congruence. }
    specialize (Hfront (SUnlockStore o) eq_refl Ht Hne).
    pose proof (spin_inv_local _ Hinv _ _ Ht) as Ho. simpl in Ho. subst o.
    f_equal. rewrite u32_dist_succ by done. done.
Qed.

Lemma spinlock_fifo_witness :
  spin_pos 1 (SLockSpin 1) = Some (1 - releases [EvRelease 0%nat]).
Proof.
  refine (proj1 (spinlock_fifo 2
    (Conf (SpinShared (SpinState 0 2) 0) [SUnlockStore 0; SLockSpin 1]) (0%nat, Continue)
    (Conf (SpinShared (SpinState 1 2) 0) [SIdle; SLockSpin 1])
    [EvRelease 0%nat] 1 1 1 _ _ _ _ _ _)).
  - lia.
  - exists [(0%nat, CallLock); (1%nat, CallLock); (0%nat, Continue); (0%nat, CallUnlock)].
    eexists. vm_compute. reflexivity.
  - reflexivity.
  - reflexivity.
  - reflexivity.
  - reflexivity.
Defined.

(** No deadlock.  Whenever some thread is queued or holds the lock, either a
    thread holds it, or the thread whose ticket is being served is waiting and
    its next load of [ticket] takes the lock. *)
Theorem spinlock_progress (n : nat) c i pc v :
  Z.of_nat n < 2 ^ 32 ->
  reachable spin_step (spin_init n) c ->
  threads c !! i = Some pc ->
  spin_pos (ticket (spin_state (shared c))) pc = Some v ->
  exists t p, threads c !! t = Some p /\
    (spin_holds p = true \/
     exists c', spin_step (t, Continue) c = Some (c', [EvAcquire t])).
Proof.
  intros Hn Hreach Ht Hv. pose proof (spin_reachable_inv n c Hn Hreach) as Hi.
  destruct (spin_front_exists c i pc v Hi Ht Hv) as (t & p & Hp & Hz).
  exists t, p. split; [done|]. destruct p as [|m|o nb| |o]; simpl in Hz; try done; auto.
  right. pose proof (spin_inv_local _ Hi _ _ Hp) as Hm. simpl in Hm.
  pose proof (spin_inv_ticket _ Hi) as Htk.
  assert (ticket (spin_state (shared c)) = m) as E.
  { injection Hz as Hz. solve_wrap. }
  unfold spin_step, conf_step; simpl. rewrite Hp. simpl.
  rewrite (proj2 (Z.eqb_eq _ _) E). eauto.
Qed.

Lemma spinlock_progress_witness :
  exists t p, [SLockSpin 0; SLockSpin 1] !! t = Some p /\
    (spin_holds p = true \/
     exists c', spin_step (t, Continue)
       (Conf (SpinShared (SpinState 0 2) 0) [SLockSpin 0; SLockSpin 1]) = Some (c', [EvAcquire t])).
Proof.
  refine (spinlock_progress 2 (Conf (SpinShared (SpinState 0 2) 0) [SLockSpin 0; SLockSpin 1])
            1 (SLockSpin 1) 1 _ _ _ _).
  - lia.
  - exists [(0%nat, CallLock); (1%nat, CallLock)]. eexists. vm_compute. reflexivity.
  - reflexivity.
  - reflexivity.
Defined.
