(* ===== verification/RingBuffer.v ===== *)
(** * The lock-free ring buffer ([include/lockfree_ring_buffer.h])

    A bounded multi-producer multi-consumer queue.  Threads claim a ticket by a
    compare-and-swap on [high] (producers) or [low] (consumers); a NULL cell
    marks a slot not yet written or already emptied.  The model has one program
    point per shared access, so the window between claiming a ticket and
    touching the cell is explicit.  The events of a run refine the sequential
    bounded queue [queue_spec]. *)

From S2P Require Import Prelude.

(** ** The abstract bounded queue *)

Section queue_spec.
Context {A : Type} `{EqDecision A}.

Inductive queue_ev :=
| Enq (v : A)
| Deq (v : A).

(** [Enq] needs room, [Deq v] needs [v] at the front. *)
Definition queue_spec (cap : Z) (e : queue_ev) (q : list A) : option (list A) :=
  match e, q with
  | Enq v, q => if decide (Z.of_nat (length q) < cap) then Some (q ++ [v]) else None
  | Deq v, x :: q => if decide (v = x) then Some q else None
  | Deq _, [] => None
  end.

End queue_spec.
Arguments queue_ev : clear implicits.

(** ** Allocation *)

(** [sizeof(lockfree_ring_buffer_t)]: two padded cache lines and two 32-bit
    fields; a pointer is 8 bytes. *)
Definition sizeof_lockfree_ring_buffer : Z := 64 + 64 + 4 + 4.
Definition sizeof_ptr : Z := 8.

(** The [uint32_t required_size] passed to [calloc]. *)
Definition ring_required_size (power_of_2_size : Z) : Z :=
  let size := u32 (Z.shiftl 1 power_of_2_size) in
  u32 (sizeof_lockfree_ring_buffer + size * sizeof_ptr).

(** The cells of a flexible array that lie in the block [calloc] returns. *)
Definition cells_in (required_size header : Z) : nat := Z.to_nat ((required_size - header) / sizeof_ptr).

Lemma required_size_fits header p : 0 < p < 29 -> 0 <= header < 1024 ->
  u32 (header + u32 (Z.shiftl 1 p) * sizeof_ptr) = header + 2 ^ p * sizeof_ptr.
Proof.
  intros Hp Hh. assert (2 ^ p <= 2 ^ 28) by (apply Z.pow_le_mono_r; lia).
  assert (0 < 2 ^ p) by (apply Z.pow_pos_nonneg; lia). unfold sizeof_ptr.
  rewrite Z.shiftl_1_l, !u32_small by (rewrite ?u32_small; lia). lia.
Qed.

Lemma cells_in_fits header n : cells_in (header + n * sizeof_ptr) header = Z.to_nat n.
Proof. unfold cells_in. f_equal. rewrite Z.add_simpl_l. by apply Z.div_mul. Qed.

Section ring.
Context {A : Type}.

(** ** Data *)

Record ring := Ring {
  high : Z;
  low : Z;
  rb_size : Z;
  power_of_2_mod : Z;
  buffer : list (option A)     (* None is NULL *)
}.

Definition lockfree_ring_buffer_create (power_of_2_size : Z) : option ring :=
  if decide (0 < power_of_2_size < 32) then
    let size := u32 (Z.shiftl 1 power_of_2_size) in
    Some (Ring 0 0 size (u32 (size - 1))
      (replicate (cells_in (ring_required_size power_of_2_size) sizeof_lockfree_ring_buffer) None))
  else None (* the assert *).

(** [lockfree_ring_buffer_size]: the signed difference, clamped at zero.  The
    two loads are [high] first, so [h] and [l] are separate arguments. *)
Definition lockfree_ring_buffer_size (h l : Z) : Z :=
  let size := i64 (h - l) in if Z.leb 0 size then size else 0.

Definition slot (r : ring) (index : Z) : option A := default None (buffer r !! Z.to_nat index).
Definition set_slot (r : ring) (index : Z) (v : option A) : ring :=
  Ring (high r) (low r) (rb_size r) (power_of_2_mod r) (<[Z.to_nat index:=v]> (buffer r)).

(** Program points.  [blk] tells [push]/[pop], which retry, from
    [trypush]/[trypop], which return. *)
Inductive ring_pc :=
| RIdle
| RPushLow (blk : bool) (v : A)                          (* about to load low *)
| RPushHigh (blk : bool) (v : A) (low : Z)               (* about to load high *)
| RPushRead (blk : bool) (v : A) (low high : Z)          (* about to read buffer[index] *)
| RPushCas (blk : bool) (v : A) (low high : Z)           (* the cell was NULL, room checked *)
| RPushWrite (v : A) (high : Z)                          (* ticket claimed *)
| RPushDone (ok : bool)
| RPopHigh (blk : bool)
| RPopLow (blk : bool) (high : Z)
| RPopRead (blk : bool) (high low : Z)
| RPopCas (blk : bool) (high low : Z) (ret : A)
| RPopClear (low : Z) (ret : A)
| RPopDone (ret : option A).

Inductive ring_choice :=
| RCallTryPush (v : A) | RCallPush (v : A) | RCallTryPop | RCallPop
| RGo | RSpurious | RReturn.

(** What a failed attempt does: the blocking call starts over (after a
    [cpu_relax], which has no effect), the other returns. *)
Definition push_fail (blk : bool) (v : A) : ring_pc :=
  if blk then RPushLow blk v else RPushDone false.
Definition pop_fail (blk : bool) : ring_pc :=
  if blk then RPopHigh blk else RPopDone None.

(** ** Operations *)

(** [lockfree_ring_buffer_trypush] (and the loop [lockfree_ring_buffer_push]
    around it when [blk]). *)
Definition lockfree_ring_buffer_trypush (spurious : bool) (r : ring) (pc : ring_pc)
    : option (ring * ring_pc * list (queue_ev A)) :=
  match pc with
  | RPushLow blk v => Some (r, RPushHigh blk v (low r), [])
  | RPushHigh blk v l => Some (r, RPushRead blk v l (high r), [])
  | RPushRead blk v l h =>
      let index := Z.land h (power_of_2_mod r) in
      match slot r index with
      | Some _ => Some (r, push_fail blk v, [])
      | None =>
          if Z.ltb (u64 (h - l)) (rb_size r)
          then Some (r, RPushCas blk v l h, [])
          else Some (r, push_fail blk v, [])
      end
  | RPushCas blk v l h =>
      if negb spurious && Z.eqb (high r) h
      then Some (Ring (u64 (h + 1)) (low r) (rb_size r) (power_of_2_mod r) (buffer r),
                 RPushWrite v h, [Enq v])
      else Some (r, push_fail blk v, [])
  | RPushWrite v h =>
      let index := Z.land h (power_of_2_mod r) in
      Some (set_slot r index (Some v), RPushDone true, [])
  | _ => None
  end.

(** [lockfree_ring_buffer_trypop] (and [lockfree_ring_buffer_pop] when [blk]). *)
Definition lockfree_ring_buffer_trypop (spurious : bool) (r : ring) (pc : ring_pc)
    : option (ring * ring_pc * list (queue_ev A)) :=
  match pc with
  | RPopHigh blk => Some (r, RPopLow blk (high r), [])
  | RPopLow blk h => Some (r, RPopRead blk h (low r), [])
  | RPopRead blk h l =>
      let index := Z.land l (power_of_2_mod r) in
      match slot r index with
      | None => Some (r, pop_fail blk, [])
      | Some ret =>
          if Z.ltb l h
          then Some (r, RPopCas blk h l ret, [])
          else Some (r, pop_fail blk, [])
      end
  | RPopCas blk h l ret =>
      if negb spurious && Z.eqb (low r) l
      then Some (Ring (high r) (u64 (l + 1)) (rb_size r) (power_of_2_mod r) (buffer r),
                 RPopClear l ret, [Deq ret])
      else Some (r, pop_fail blk, [])
  | RPopClear l ret =>
      let index := Z.land l (power_of_2_mod r) in
      Some (set_slot r index None, RPopDone (Some ret), [])
  | _ => None
  end.

Definition ring_tstep (t : nat) (ch : ring_choice) (r : ring) (pc : ring_pc)
    : option (ring * ring_pc * list (queue_ev A)) :=
  match ch, pc with
  | RCallTryPush v, RIdle => Some (r, RPushLow false v, [])
  | RCallPush v, RIdle => Some (r, RPushLow true v, [])
  | RCallTryPop, RIdle => Some (r, RPopHigh false, [])
  | RCallPop, RIdle => Some (r, RPopHigh true, [])
  | RReturn, RPushDone _ => Some (r, RIdle, [])
  | RReturn, RPopDone _ => Some (r, RIdle, [])
  | RGo, (RPushLow _ _ | RPushHigh _ _ _ | RPushRead _ _ _ _ | RPushCas _ _ _ _ | RPushWrite _ _) =>
      lockfree_ring_buffer_trypush false r pc
  | RGo, (RPopHigh _ | RPopLow _ _ | RPopRead _ _ _ | RPopCas _ _ _ _ | RPopClear _ _) =>
      lockfree_ring_buffer_trypop false r pc
  | RSpurious, RPushCas _ _ _ _ => lockfree_ring_buffer_trypush true r pc
  | RSpurious, RPopCas _ _ _ _ => lockfree_ring_buffer_trypop true r pc
  | _, _ => None
  end.

Definition ring_conf := conf ring ring_pc.
Definition ring_step := conf_step ring_tstep.
Definition ring_init (p : Z) (n : nat) : option ring_conf :=
  r ← lockfree_ring_buffer_create p; Some (Conf r (replicate n RIdle)).

End ring.
Arguments ring : clear implicits.
Arguments ring_pc : clear implicits.
Arguments ring_choice : clear implicits.
Arguments ring_conf : clear implicits.

(** ** The invariant

    [pt] and [ct] list the claimed but unwritten push tickets and the claimed
    but uncleared pop tickets; [q] is the abstract queue: ticket [low + i] is
    its [i]-th element, whether or not its cell is written yet. *)

Section ring_proof.
Context {A : Type} `{EqDecision A}.
Variable p : Z.
Hypothesis Hp : 0 < p < 29.

Abbreviation N := (2 ^ p).

Implicit Types (r : ring A) (q : list A) (pt ct : list (Z * A)) (pc : ring_pc A).

Definition cell r (k : Z) : option A := slot r (k mod N).

Record ring_wf r : Prop := {
  wf_size : rb_size r = N;
  wf_mod : power_of_2_mod r = N - 1;
  wf_len : Z.of_nat (length (buffer r)) = N
}.

Record ring_core r pt ct q : Prop := {
  core_wf : ring_wf r;
  core_range : 0 <= low r <= high r /\ high r <= low r + N;
  core_len : Z.of_nat (length q) = high r - low r;
  core_in : forall k v, low r <= k < high r -> q !! Z.to_nat (k - low r) = Some v ->
    (cell r k = Some v /\ forall w, (k, w) ∉ pt) \/ (cell r k = None /\ (k, v) ∈ pt);
  core_pt : forall k v, (k, v) ∈ pt -> low r <= k < high r;
  core_pt_nd : NoDup pt.*1;
  core_ct : forall k v, (k, v) ∈ ct -> 0 <= k < low r /\ high r <= k + N /\ cell r k = Some v;
  core_ct_nd : NoDup ct.*1;
  core_free : forall k v, high r <= k < low r + N -> cell r k = Some v -> (k - N, v) ∈ ct
}.

(** What a thread's locals promise about the shared state. *)
Definition ring_ok r pc : Prop :=
  match pc with
  | RPushHigh _ _ l => 0 <= l <= low r
  | RPushRead _ _ l h => 0 <= l <= low r /\ l <= h <= high r
  | RPushCas _ _ l h => 0 <= l <= low r /\ l <= h <= high r /\ h - l < N /\
      (h = high r -> cell r h = None)
  | RPopLow _ h => h <= high r
  | RPopRead _ h l => h <= high r /\ 0 <= l <= low r
  | RPopCas _ h l ret => h <= high r /\ 0 <= l <= low r /\ l < h /\
      (l = low r -> cell r l = Some ret)
  | _ => True
  end.

Definition push_ticket pc : option (Z * A) :=
  match pc with RPushWrite v h => Some (h, v) | _ => None end.
Definition pop_ticket pc : option (Z * A) :=
  match pc with RPopClear l v => Some (l, v) | _ => None end.

(** [n] bounds the number of steps so far, hence both counters. *)
Record ring_rel (n : Z) (c : ring_conf A) q : Prop := {
  rel_core : ring_core (shared c) (omap push_ticket (threads c)) (omap pop_ticket (threads c)) q;
  rel_n : high (shared c) <= n;
  rel_ok : forall t pc, threads c !! t = Some pc -> ring_ok (shared c) pc
}.

(** ** Cells *)

Lemma N_pos : 1 < N.
Proof. rewrite <- (Z.pow_0_r 2). apply Z.pow_lt_mono_r; lia. Qed.

Lemma land_cell r k : ring_wf r -> slot r (Z.land k (power_of_2_mod r)) = cell r k.
Proof. intros [_ Hm _]. rewrite Hm, land_pow2_mod by lia. done. Qed.

Lemma wf_set_slot r i v : ring_wf r -> ring_wf (set_slot r i v).
Proof. intros [Hs Hm Hl]. split; simpl; [done|done|]. by rewrite length_insert. Qed.

Lemma cell_set_same r k v : ring_wf r -> cell (set_slot r (k mod N) v) k = v.
Proof.
  intros [_ _ Hl]. pose proof N_pos. pose proof (Z.mod_pos_bound k N ltac:(lia)).
  unfold cell, slot; simpl. rewrite list_lookup_insert_eq by lia. done.
Qed.

Lemma cell_set_other r k k' v : k' mod N <> k mod N ->
  cell (set_slot r (k mod N) v) k' = cell r k'.
Proof.
  intros Hne. pose proof N_pos.
  pose proof (Z.mod_pos_bound k N ltac:(lia)). pose proof (Z.mod_pos_bound k' N ltac:(lia)).
  unfold cell, slot; simpl. rewrite list_lookup_insert_ne by lia. done.
Qed.

Lemma cell_near r k k' v : k <> k' -> - N < k - k' < N ->
  cell (set_slot r (k mod N) v) k' = cell r k'.
Proof.
  intros Hne Hd. apply cell_set_other. intros E. apply Hne.
  symmetry. apply (mod_inj_near N); [pose proof N_pos; lia|done|lia].
Qed.

Lemma cell_shift r k : cell r (k - N) = cell r k.
Proof.
  unfold cell. f_equal. pose proof N_pos. replace (k - N) with (k + (-1) * N) by lia.
  apply Z_mod_plus_full.
Qed.

(** ** The four steps that change the shared state *)

Lemma core_push_cas r pt ct q v :
  ring_core r pt ct q -> cell r (high r) = None -> high r - low r < N ->
  ring_core (Ring (high r + 1) (low r) (rb_size r) (power_of_2_mod r) (buffer r))
            ((high r, v) :: pt) ct (q ++ [v]).
Proof.
  intros [Hw Hr Hl Hin Hpt Hnd Hct Hcnd Hf] Hc Hroom.
  split; simpl; auto.
  - destruct Hw; by split.
  - lia.
  - rewrite length_app; simpl. lia.
  - intros k w Hk Hq. destruct (decide (k = high r)) as [->|Hne].
    + right. split; [done|]. rewrite lookup_app_r in Hq by lia.
      replace (Z.to_nat (high r - low r) - length q)%nat with 0%nat in Hq by lia.
      simplify_eq/=. left.
    + rewrite lookup_app_l in Hq by lia.
      destruct (Hin k w ltac:(lia) Hq) as [[H1 H2]|[H1 H2]]; [left|right; split; [done|by right]].
      split; [done|]. intros w' [?|?]%elem_of_cons; [simplify_eq|]. by eapply H2.
  - intros k w [?|?]%elem_of_cons; [simplify_eq; lia|]. specialize (Hpt _ _ H). lia.
  - constructor; [|done]. intros ([k w] & Hk & Hel)%list_elem_of_fmap. simpl in Hk. subst k.
    specialize (Hpt _ _ Hel). lia.
  - intros k w Hel. destruct (Hct _ _ Hel) as (H1 & H2 & H3). split; [done|]. split; [|done].
    destruct (decide (high r = k + N)) as [E|E]; [|lia].
    rewrite <- (cell_shift r (high r)), E in Hc. replace (k + N - N) with k in Hc by lia.
    congruence.
  - intros k w Hk Hcell. apply Hf; [lia|done].
Qed.

Lemma core_push_write r pt ct q h v :
  ring_core r ((h, v) :: pt) ct q ->
  ring_core (set_slot r (h mod N) (Some v)) pt ct q.
Proof.
  intros [Hw Hr Hl Hin Hpt Hnd Hct Hcnd Hf].
  pose proof (Hpt h v ltac:(left)) as Hh. pose proof N_pos as HN.
  inversion Hnd as [|? ? Hnin Hnd']; subst.
  split; simpl; auto using wf_set_slot.
  - intros k w Hk Hq. destruct (decide (h = k)) as [->|Hne].
    + left. rewrite cell_set_same by done.
      destruct (Hin k w Hk Hq) as [[_ H2]|[_ H2]]; [by destruct (H2 v); left|].
      apply elem_of_cons in H2 as [?|H2]; simplify_eq.
      * split; [done|]. intros w Hel. apply Hnin. apply list_elem_of_fmap. by exists (k, w).
      * destruct Hnin. apply list_elem_of_fmap. by exists (k, w).
    + rewrite cell_near by lia.
      destruct (Hin k w Hk Hq) as [[H1 H2]|[H1 H2]]; [left|right].
      * split; [done|]. intros w' Hel. eapply H2. by right.
      * apply elem_of_cons in H2 as [?|H2]; [simplify_eq|done].
  - intros k w Hel. eapply Hpt. by right.
  - intros k w Hel. destruct (Hct _ _ Hel) as (H1 & H2 & H3). rewrite cell_near by lia. done.
  - intros k w Hk Hcell. rewrite cell_near in Hcell by lia. by apply Hf.
Qed.

Lemma core_pop_cas r pt ct q v :
  ring_core r pt ct q -> cell r (low r) = Some v -> low r < high r ->
  exists q', q = v :: q' /\
  ring_core (Ring (high r) (low r + 1) (rb_size r) (power_of_2_mod r) (buffer r))
            pt ((low r, v) :: ct) q'.
Proof.
  intros [Hw Hr Hl Hin Hpt Hnd Hct Hcnd Hf] Hc Hlt. pose proof N_pos as HN.
  destruct q as [|x q]; [simpl in Hl; lia|].
  assert (cell r (low r) = Some x /\ forall w, (low r, w) ∉ pt) as [Hx Hnp].
  { destruct (Hin (low r) x) as [?|[? _]]; [lia| |done|congruence].
    by rewrite Z.sub_diag. }
  assert (x = v) as -> by congruence.
  exists q. split; [done|]. split; simpl; auto.
  - destruct Hw; by split.
  - lia.
  - simpl in Hl. lia.
  - intros k w Hk Hq. apply Hin; [lia|].
    by replace (Z.to_nat (k - low r)) with (S (Z.to_nat (k - (low r + 1)))) by lia.
  - intros k w Hel. specialize (Hpt _ _ Hel).
    destruct (decide (k = low r)) as [->|?]; [by destruct (Hnp w)|lia].
  - intros k w [?|Hel]%elem_of_cons; [simplify_eq; split; [lia|]; by split; [lia|]|].
    destruct (Hct _ _ Hel) as (H1 & H2 & H3). split; [lia|]. by split; [lia|].
  - constructor; [|done]. intros ([k w] & Hk & Hel)%list_elem_of_fmap. simpl in Hk. subst k.
    destruct (Hct _ _ Hel) as (H1 & _). lia.
  - intros k w Hk Hcell. destruct (decide (k = low r + N)) as [->|Hne].
    + rewrite <- cell_shift in Hcell.
      replace (low r + N - N) with (low r) in * by lia.
      assert (w = v) as -> by (unfold cell, slot in Hcell, Hc; simpl in Hcell; congruence). left.
    + right. apply Hf; [lia|done].
Qed.

Lemma core_pop_clear r pt ct q l v :
  ring_core r pt ((l, v) :: ct) q ->
  ring_core (set_slot r (l mod N) None) pt ct q.
Proof.
  intros [Hw Hr Hl Hin Hpt Hnd Hct Hcnd Hf]. pose proof N_pos as HN.
  destruct (Hct l v ltac:(left)) as (Hll & Hlh & Hc).
  inversion Hcnd as [|? ? Hnin Hcnd']; subst.
  split; simpl; auto using wf_set_slot.
  - intros k w Hk Hq. rewrite cell_near by lia. by apply Hin.
  - intros k w Hel. destruct (Hct k w ltac:(by right)) as (H1 & H2 & H3).
    rewrite cell_near; [done| |lia]. intros ->. apply Hnin.
    apply list_elem_of_fmap. by exists (k, w).
  - intros k w Hk Hcell. destruct (decide (k = l + N)) as [->|Hne].
    + rewrite <- cell_shift in Hcell. replace (l + N - N) with l in Hcell by lia.
      by rewrite cell_set_same in Hcell.
    + rewrite cell_set_other in Hcell.
      * specialize (Hf k w Hk Hcell). apply elem_of_cons in Hf as [?|?]; [|done]. simplify_eq. lia.
      * intros E. apply Hne. apply (mod_inj_near N); [lia| |lia].
        rewrite E. replace (l + N) with (l + 1 * N) by lia. by rewrite Z_mod_plus_full.
Qed.

(** ** Stability of the locals *)

(** Counters only grow, and the cells a pending compare-and-swap relies on
    do not change while its expected counter value is current. *)
Lemma ok_push_cas r pt ct q pc : ring_core r pt ct q -> ring_ok r pc ->
  ring_ok (Ring (high r + 1) (low r) (rb_size r) (power_of_2_mod r) (buffer r)) pc.
Proof.
  intros Hc. destruct pc as [|b v|b v l|b v l h|b v l h|v h|o|b|b h|b h l|b h l v|l v|o];
    simpl; intuition (auto; try lia).
Qed.

Lemma ok_pop_cas r pt ct q pc : ring_core r pt ct q -> ring_ok r pc ->
  ring_ok (Ring (high r) (low r + 1) (rb_size r) (power_of_2_mod r) (buffer r)) pc.
Proof.
  intros Hc. destruct pc as [|b v|b v l|b v l h|b v l h|v h|o|b|b h|b h l|b h l v|l v|o];
    simpl; intuition (auto; try lia).
Qed.

Lemma ok_push_write r pt ct q h v pc : ring_core r ((h, v) :: pt) ct q -> ring_ok r pc ->
  ring_ok (set_slot r (h mod N) (Some v)) pc.
Proof.
  intros Hc. pose proof (core_range _ _ _ _ Hc) as Hr. pose proof N_pos as HN.
  pose proof (core_pt _ _ _ _ Hc h v ltac:(left)) as Hh.
  destruct pc as [|b w|b w l|b w l k|b w l k|w k|o|b|b k|b k l|b k l w|l w|o]; simpl; auto.
  - intros (H1 & H2 & H3 & H4). keep_hyps. intros ->. rewrite cell_near by lia. auto.
  - intros (H1 & H2 & H3 & H4). keep_hyps. intros ->. rewrite cell_near; [auto| |lia].
    intros ->. specialize (H4 eq_refl).
    destruct (lookup_lt_is_Some_2 q (Z.to_nat (low r - low r))) as [x Hx].
    { pose proof (core_len _ _ _ _ Hc). lia. }
    destruct (core_in _ _ _ _ Hc (low r) x) as [[_ Hn]|[Hn _]]; [lia|done| |congruence].
    destruct (Hn v). left.
Qed.

Lemma ok_pop_clear r pt ct q l v pc : ring_core r pt ((l, v) :: ct) q -> ring_ok r pc ->
  ring_ok (set_slot r (l mod N) None) pc.
Proof.
  intros Hc. pose proof (core_range _ _ _ _ Hc) as Hr. pose proof N_pos as HN.
  destruct (core_ct _ _ _ _ Hc l v ltac:(left)) as (Hl & Hlh & _).
  destruct pc as [|b w|b w l'|b w l' k|b w l' k|w k|o|b|b k|b k l'|b k l' w|l' w|o]; simpl; auto.
  - intros (H1 & H2 & H3 & H4). keep_hyps. intros ->.
    destruct (decide (l + N = high r)) as [E|E].
    + rewrite <- cell_shift. replace (high r - N) with l by lia.
      apply cell_set_same, Hc.
    + rewrite cell_set_other; [auto|]. intros E2. apply E.
      apply (mod_inj_near N); [lia| |lia]. rewrite E2.
      replace (l + N) with (l + 1 * N) by lia. by rewrite Z_mod_plus_full.
  - intros (H1 & H2 & H3 & H4). keep_hyps. intros ->. rewrite cell_near by lia. auto.
Qed.

(** ** Assembling a step *)

Lemma core_perm r pt pt' ct ct' q :
  pt ≡ₚ pt' -> ct ≡ₚ ct' -> ring_core r pt ct q -> ring_core r pt' ct' q.
Proof.
  intros Hp1 Hp2 [H1 H2 H3 H4 H5 H6 H7 H8 H9].
  split; auto; try setoid_rewrite <- Hp1; try setoid_rewrite <- Hp2; auto.
Qed.

(** A step that only moves one thread between points without a ticket. *)
Lemma rel_local n c q t pc pc' :
  ring_rel n c q -> threads c !! t = Some pc ->
  push_ticket pc' = push_ticket pc -> pop_ticket pc' = pop_ticket pc ->
  ring_ok (shared c) pc' ->
  ring_rel (n + 1) (Conf (shared c) (<[t:=pc']> (threads c))) q.
Proof.
  intros [Hc Hn Hok] Ht E1 E2 Hpc. split; simpl; [|lia|].
  - eapply core_perm; [| |exact Hc]; symmetry; by eapply omap_insert_same.
  - intros i x Hx. thread_cases Hx; eauto.
Qed.

Lemma push_simulation sp n c q t pc s' pc' evs :
  n + 1 < 2 ^ 64 -> ring_rel n c q -> threads c !! t = Some pc ->
  lockfree_ring_buffer_trypush sp (shared c) pc = Some (s', pc', evs) ->
  exists q', spec_run (queue_spec N) evs q = Some q' /\
    ring_rel (n + 1) (Conf s' (<[t:=pc']> (threads c))) q'.
Proof.
  intros Hb HR Ht Hs. pose proof HR as [Hc Hn Hok]. pose proof (Hok _ _ Ht) as Hpc.
  pose proof (core_wf _ _ _ _ Hc) as Hw. pose proof (core_range _ _ _ _ Hc) as Hr.
  pose proof (core_len _ _ _ _ Hc) as Hlen. pose proof N_pos as HN.
  assert (forall b v, push_ticket (push_fail b v) = None /\ pop_ticket (push_fail b v) = None /\
    ring_ok (shared c) (push_fail b v)) as Hfail by (by intros []).
  destruct pc as [|b v|b v l|b v l h|b v l h|v h|o|b|b h|b h l|b h l v|l v|o];
    simpl in Hs; try discriminate Hs.
  - simplify_eq. exists q. split; [done|]. eapply rel_local; eauto. simpl. lia.
  - simplify_eq. exists q. split; [done|]. eapply rel_local; eauto. simpl in *. lia.
  - rewrite land_cell in Hs by done. simpl in Hpc.
    destruct (Hfail b v) as (F1 & F2 & F3).
    destruct (cell (shared c) h) eqn:Ecell; [simplify_eq|destruct (Z.ltb_spec (u64 (h - l)) (rb_size (shared c))) as [Hlt|Hge]; simplify_eq].
    all: exists q; split; [done|]; eapply rel_local; eauto.
    simpl. rewrite (wf_size _ Hw), u64_small in Hlt by lia.
    split; [lia|]. split; [lia|]. by split; [lia|].
  - destruct Hpc as (Hl & Hh & Hd & Hcell). destruct (negb sp && _) eqn:E; simplify_eq.
    + apply andb_prop in E as [_ E%Z.eqb_eq]. subst h. specialize (Hcell eq_refl).
      rewrite u64_small by lia.
      exists (q ++ [v]). split.
      { simpl. rewrite decide_True by lia. done. }
      split; simpl; [|lia|].
      * eapply core_perm; [| |apply core_push_cas; [exact Hc|exact Hcell|lia]].
        -- symmetry. by eapply omap_insert_add.
        -- symmetry. by eapply omap_insert_same.
      * intros i x Hx. thread_cases Hx; [done|]. eapply ok_push_cas; eauto.
    + destruct (Hfail b v) as (F1 & F2 & F3).
      exists q. split; [done|]. eapply rel_local; eauto.
  - simplify_eq. exists q. split; [done|].
    replace (Z.land h (power_of_2_mod (shared c))) with (h mod N)
      by (rewrite (wf_mod _ Hw), land_pow2_mod; [done|lia]).
    pose proof (omap_insert_del push_ticket _ _ _ (RPushDone true) _ Ht eq_refl eq_refl) as Hdel.
    assert (ring_core (shared c) ((h, v) :: omap push_ticket (<[t:=RPushDone true]> (threads c)))
      (omap pop_ticket (<[t:=RPushDone true]> (threads c))) q) as Hc'.
    { eapply core_perm; [exact Hdel| |exact Hc]. symmetry. by eapply omap_insert_same. }
    split; simpl; [by apply core_push_write|lia|].
    intros i x Hx. thread_cases Hx; [done|]. eapply ok_push_write; eauto.
Qed.

Lemma pop_simulation sp n c q t pc s' pc' evs :
  n + 1 < 2 ^ 64 -> ring_rel n c q -> threads c !! t = Some pc ->
  lockfree_ring_buffer_trypop sp (shared c) pc = Some (s', pc', evs) ->
  exists q', spec_run (queue_spec N) evs q = Some q' /\
    ring_rel (n + 1) (Conf s' (<[t:=pc']> (threads c))) q'.
Proof.
  intros Hb HR Ht Hs. pose proof HR as [Hc Hn Hok]. pose proof (Hok _ _ Ht) as Hpc.
  pose proof (core_wf _ _ _ _ Hc) as Hw. pose proof (core_range _ _ _ _ Hc) as Hr.
  pose proof N_pos as HN.
  assert (forall b, push_ticket (@pop_fail A b) = None /\ pop_ticket (@pop_fail A b) = None /\
    ring_ok (shared c) (pop_fail b)) as Hfail by (by intros []).
  destruct pc as [|b v|b v l|b v l h|b v l h|v h|o|b|b h|b h l|b h l v|l v|o];
    simpl in Hs; try discriminate Hs.
  - simplify_eq. exists q. split; [done|]. eapply rel_local; eauto. simpl. lia.
  - simplify_eq. exists q. split; [done|]. eapply rel_local; eauto. simpl in *. lia.
  - rewrite land_cell in Hs by done. simpl in Hpc.
    destruct (Hfail b) as (F1 & F2 & F3).
    destruct (cell (shared c) l) eqn:Ecell; [destruct (Z.ltb_spec l h) as [Hlt|Hge]|]; simplify_eq.
    all: exists q; split; [done|]; eapply rel_local; eauto.
    simpl. split; [lia|]. split; [lia|]. by split; [lia|].
  - destruct Hpc as (Hh & Hl & Hd & Hcell). destruct (negb sp && _) eqn:E; simplify_eq.
    + apply andb_prop in E as [_ E%Z.eqb_eq]. subst l. specialize (Hcell eq_refl).
      rewrite u64_small by lia.
      destruct (core_pop_cas _ _ _ _ v Hc Hcell) as (q' & -> & Hc'); [lia|].
      exists q'. split.
      { simpl. rewrite decide_True by done. done. }
      split; simpl; [|lia|].
      * eapply core_perm; [| |exact Hc'].
        -- symmetry. by eapply omap_insert_same.
        -- symmetry. by eapply omap_insert_add.
      * intros i x Hx. thread_cases Hx; [done|]. eapply ok_pop_cas; eauto.
    + destruct (Hfail b) as (F1 & F2 & F3).
      exists q. split; [done|]. eapply rel_local; eauto.
  - simplify_eq. exists q. split; [done|].
    replace (Z.land l (power_of_2_mod (shared c))) with (l mod N)
      by (rewrite (wf_mod _ Hw), land_pow2_mod; [done|lia]).
    pose proof (omap_insert_del pop_ticket _ _ _ (RPopDone (Some v)) _ Ht eq_refl eq_refl) as Hdel.
    assert (ring_core (shared c) (omap push_ticket (<[t:=RPopDone (Some v)]> (threads c)))
      ((l, v) :: omap pop_ticket (<[t:=RPopDone (Some v)]> (threads c))) q) as Hc'.
    { eapply core_perm; [|exact Hdel|exact Hc]. symmetry. by eapply omap_insert_same. }
    split; simpl; [by eapply core_pop_clear|lia|].
    intros i x Hx. thread_cases Hx; [done|]. eapply ok_pop_clear; eauto.
Qed.

Lemma ring_simulation n lbl c c' evs q :
  n + 1 < 2 ^ 64 -> ring_rel n c q -> ring_step lbl c = Some (c', evs) ->
  exists q', spec_run (queue_spec N) evs q = Some q' /\ ring_rel (n + 1) c' q'.
Proof.
  destruct lbl as [t ch]. intros Hb HR Hstep.
  apply conf_step_inv in Hstep as (pc & s' & pc' & Ht & Hs & ->).
  destruct ch, pc; try discriminate Hs;
    first [ by eapply (push_simulation false) | by eapply (pop_simulation false)
          | by eapply (push_simulation true) | by eapply (pop_simulation true)
          | simpl in Hs; simplify_eq; exists q; split; [done|]; by eapply rel_local ].
Qed.

Lemma ring_init_rel n c : ring_init p n = Some c -> ring_rel 0 c [].
Proof.
  unfold ring_init, lockfree_ring_buffer_create, ring_required_size. rewrite decide_True by lia.
  rewrite required_size_fits, cells_in_fits by done. simpl. intros [= <-]. pose proof N_pos as HN.
  assert (N < 2 ^ 32) as HN2 by (apply Z.pow_lt_mono_r; lia).
  assert (u32 (Z.shiftl 1 p) = N) as Es.
  { rewrite Z.shiftl_1_l. apply u32_small. lia. }
  assert (forall {B} (f : ring_pc A -> option B), f RIdle = None ->
    omap f (replicate n (@RIdle A)) = []) as Hom.
  { intros B f E. induction n as [|m IH]; [done|]. csimpl. by rewrite E. }
  split; simpl; [|done|by intros t pc [-> _]%lookup_replicate].
  rewrite !Hom by done. rewrite Es.
  split; simpl; try done; try (by constructor); try lia.
  - split; simpl; [done|apply u32_small; lia|]. rewrite length_replicate. lia.
  - intros k v Hel. by apply elem_of_nil in Hel.
  - intros k v Hel. by apply elem_of_nil in Hel.
  - intros k v Hk. unfold cell, slot; simpl.
    destruct (replicate (Z.to_nat N) None !! Z.to_nat (k mod N)) as [x|] eqn:E; [|done].
    apply lookup_replicate in E as [-> _]. done.
Qed.

End ring_proof.

(** ** Properties *)

Section ring_properties.
Context {A : Type} `{EqDecision A}.
Implicit Types (q : list A) (ls : list (nat * ring_choice A)).

Lemma ring_run_rel p n ls c0 c evs :
  0 < p < 29 -> ring_init p n = Some c0 -> Z.of_nat (length ls) < 2 ^ 64 ->
  run ring_step ls c0 = Some (c, evs) ->
  exists q, spec_run (queue_spec (2 ^ p)) evs [] = Some q /\
    ring_rel p (Z.of_nat (length ls)) c q.
Proof.
  intros Hp Hi Hl Hrun.
  destruct (run_simulation ring_step (queue_spec (A := A) (2 ^ p)) (2 ^ 64) (ring_rel p))
    with (ls := ls) (n := 0) (s := c0) (s' := c) (evs := evs) (a := @nil A)
    as (q & Hq & HR); eauto using ring_init_rel.
  intros. by eapply ring_simulation.
Qed.

(** C8: Linearisability.  In every interleaving of any number of threads
    calling [trypush], [push], [trypop] and [pop] (spurious compare-and-swap
    failures included), as long as fewer than 2^64 steps were taken and the buffer
    fits the block allocated for it (at most 2^28 cells), the
    successful operations, ordered by their compare-and-swap, form a legal
    history of a FIFO queue of capacity [size]: no element is lost, duplicated,
    reordered or overwritten.  [lockfree_ring_buffer_size] read with no operation
    in between is the length of that queue. *)
Theorem ring_linearizable p n ls c0 c evs :
  0 < p < 29 -> ring_init p n = Some c0 -> Z.of_nat (length ls) < 2 ^ 64 ->
  run ring_step ls c0 = Some (c, evs) ->
  exists q, spec_run (queue_spec (2 ^ p)) evs [] = Some q /\
    lockfree_ring_buffer_size (high (shared c)) (low (shared c)) = Z.of_nat (length q).
Proof.
  intros Hp Hi Hl Hrun. destruct (ring_run_rel p n ls c0 c evs) as (q & Hq & [Hc Hn _]); auto.
  exists q. split; [done|]. destruct Hc as [_ Hr Hlen _ _ _ _ _ _].
  assert (2 ^ p < 2 ^ 32) by (apply Z.pow_lt_mono_r; lia).
  unfold lockfree_ring_buffer_size. rewrite i64_small by lia.
  destruct (Z.leb_spec 0 (high (shared c) - low (shared c))); lia.
Qed.

(** The five steps of one [trypush] and of one [trypop]. *)
Definition trypush_alone (t : nat) (v : A) : list (nat * ring_choice A) :=
  [(t, RCallTryPush v); (t, RGo); (t, RGo); (t, RGo); (t, RGo); (t, RGo)].
Definition trypop_alone (t : nat) : list (nat * ring_choice A) :=
  [(t, RCallTryPop); (t, RGo); (t, RGo); (t, RGo); (t, RGo); (t, RGo)].

(** Without claimed tickets the cells in range are the queue and the others
    are NULL. *)
Lemma quiescent_cells p r q : ring_core p r [] [] q ->
  (forall k v, low r <= k < high r -> q !! Z.to_nat (k - low r) = Some v -> cell p r k = Some v) /\
  (forall k, high r <= k < low r + 2 ^ p -> cell p r k = None).
Proof.
  intros [_ _ _ Hin _ _ _ _ Hf]. split.
  - intros k v Hk Hq. destruct (Hin k v Hk Hq) as [[H _]|[_ H]]; [done|].
    by apply elem_of_nil in H.
  - intros k Hk. destruct (cell p r k) as [v|] eqn:E; [|done].
    specialize (Hf k v Hk E). by apply elem_of_nil in Hf.
Qed.

Lemma quiescent_core p n (c : ring_conf A) q : ring_rel p n c q ->
  (forall i pc, threads c !! i = Some pc -> pc = RIdle) -> ring_core p (shared c) [] [] q.
Proof.
  intros [Hc _ _] Hq.
  assert (forall B (f : ring_pc A -> option B), f RIdle = None -> omap f (threads c) = []) as Hom.
  { intros B f E. clear Hc. induction (threads c) as [|x l IH]; [done|]. csimpl.
    rewrite (Hq 0%nat x eq_refl), E. apply IH. intros i pc Hi. by apply (Hq (S i)). }
  by rewrite !Hom in Hc.
Qed.

(** Running one thread through a block of its own steps. *)
Lemma run_own_step ls t ch (r r' : ring A) ths pc pc' e c2 e2 evs :
  ths !! t = Some pc -> ring_tstep t ch r pc = Some (r', pc', e) -> evs = e ++ e2 ->
  run ring_step ls (Conf r' (<[t:=pc']> ths)) = Some (c2, e2) ->
  run ring_step ((t, ch) :: ls) (Conf r ths) = Some (c2, evs).
Proof.
  intros Ht Hs -> Hr. simpl. unfold ring_step at 1, conf_step; simpl. rewrite Ht, Hs.
  by rewrite Hr.
Qed.

Ltac own_step tac := eapply run_own_step;
  [ apply list_lookup_insert_eq; rewrite ?length_insert; by eapply lookup_lt_Some
  | tac; reflexivity | reflexivity | rewrite ?list_insert_insert_eq ].

(** Functional behaviour without contention.  When no other operation is in
    progress, [trypush] succeeds exactly when the queue holds fewer than [size]
    elements and then appends its argument; otherwise it returns 0 and changes
    nothing. *)
Theorem ring_trypush_alone p n ls c0 c evs t v :
  0 < p < 29 -> ring_init p n = Some c0 -> Z.of_nat (length ls) + 6 < 2 ^ 64 ->
  run ring_step ls c0 = Some (c, evs) ->
  (forall i pc, threads c !! i = Some pc -> pc = RIdle) ->
  is_Some (threads c !! t) ->
  exists q c', spec_run (queue_spec (2 ^ p)) evs [] = Some q /\
    if decide (Z.of_nat (length q) < 2 ^ p)
    then run ring_step (trypush_alone t v) c = Some (c', [Enq v]) /\
         threads c' !! t = Some (RPushDone true)
    else run ring_step (take 4 (trypush_alone t v)) c = Some (c', []) /\
         threads c' !! t = Some (RPushDone false) /\ shared c' = shared c.
Proof.
  intros Hp Hi Hl Hrun Hq [pc Ht].
  destruct (ring_run_rel p n ls c0 c evs) as (q & Hspec & HR); [auto|auto|lia|auto|].
  pose proof (quiescent_core _ _ _ _ HR Hq) as Hc. rewrite (Hq _ _ Ht) in Ht.
  destruct (quiescent_cells p _ q Hc) as [Hin Hout]. destruct HR as [_ Hn _].
  destruct Hc as [Hw Hr Hlen _ _ _ _ _ _].
  assert (2 ^ p < 2 ^ 32) by (apply Z.pow_lt_mono_r; lia).
  pose proof (N_pos p Hp). pose proof (lookup_lt_Some _ _ _ Ht) as Hlt.
  assert (high (shared c) mod 2 ^ p = Z.land (high (shared c)) (power_of_2_mod (shared c))) as Em.
  { rewrite (wf_mod p _ Hw), land_pow2_mod; [done|lia]. }
  destruct c as [r ths]; cbn [shared threads] in *.
  exists q. case_decide as Hroom.
  - eexists. split; [done|]. split.
    + eapply (run_own_step _ t (RCallTryPush v)); [exact Ht|reflexivity|reflexivity|].
      own_step idtac. own_step idtac.
      own_step ltac:(simpl; rewrite <- Em; fold (cell p r (high r)); rewrite Hout by lia;
        rewrite (proj2 (Z.ltb_lt _ _))
          by (rewrite (wf_size p _ Hw), u64_small by lia; lia)).
      own_step ltac:(simpl; rewrite Z.eqb_refl). own_step idtac. reflexivity.
    + simpl. by rewrite list_lookup_insert_eq.
  - eexists. split; [done|]. split; [|split].
    + eapply (run_own_step _ t (RCallTryPush v)); [exact Ht|reflexivity|reflexivity|].
      own_step idtac. own_step idtac.
      own_step ltac:(simpl; rewrite <- Em; fold (cell p r (high r));
        rewrite (proj2 (Z.ltb_ge _ _)) by (rewrite (wf_size p _ Hw), u64_small by lia; lia);
        destruct (cell p r (high r))).
      reflexivity.
    + simpl. by rewrite list_lookup_insert_eq.
    + done.
Qed.

(** Likewise [trypop] returns the oldest element and removes it, and
    returns NULL, changing nothing, exactly when the queue is empty. *)
Theorem ring_trypop_alone p n ls c0 c evs t :
  0 < p < 29 -> ring_init p n = Some c0 -> Z.of_nat (length ls) + 6 < 2 ^ 64 ->
  run ring_step ls c0 = Some (c, evs) ->
  (forall i pc, threads c !! i = Some pc -> pc = RIdle) ->
  is_Some (threads c !! t) ->
  exists q c', spec_run (queue_spec (2 ^ p)) evs [] = Some q /\
    match q with
    | v :: _ => run ring_step (trypop_alone t) c = Some (c', [Deq v]) /\
                threads c' !! t = Some (RPopDone (Some v))
    | [] => run ring_step (take 4 (trypop_alone t)) c = Some (c', []) /\
            threads c' !! t = Some (RPopDone None) /\ shared c' = shared c
    end.
Proof.
  intros Hp Hi Hl Hrun Hq [pc Ht].
  destruct (ring_run_rel p n ls c0 c evs) as (q & Hspec & HR); [auto|auto|lia|auto|].
  pose proof (quiescent_core _ _ _ _ HR Hq) as Hc. rewrite (Hq _ _ Ht) in Ht.
  destruct (quiescent_cells p _ q Hc) as [Hin Hout].
  destruct Hc as [Hw Hr Hlen _ _ _ _ _ _].
  pose proof (N_pos p Hp). pose proof (lookup_lt_Some _ _ _ Ht) as Hlt.
  assert (low (shared c) mod 2 ^ p = Z.land (low (shared c)) (power_of_2_mod (shared c))) as Em.
  { rewrite (wf_mod p _ Hw), land_pow2_mod; [done|lia]. }
  destruct c as [r ths]; cbn [shared threads] in *.
  exists q. destruct q as [|v q].
  - eexists. split; [done|]. simpl in Hlen. split; [|split].
    + eapply (run_own_step _ t RCallTryPop); [exact Ht|reflexivity|reflexivity|].
      own_step idtac. own_step idtac.
      own_step ltac:(simpl; rewrite <- Em; fold (cell p r (low r));
        rewrite (proj2 (Z.ltb_ge _ _)) by lia; destruct (cell p r (low r))).
      reflexivity.
    + simpl. by rewrite list_lookup_insert_eq.
    + done.
  - eexists. split; [done|]. simpl in Hlen. split.
    + eapply (run_own_step _ t RCallTryPop); [exact Ht|reflexivity|reflexivity|].
      own_step idtac. own_step idtac.
      own_step ltac:(simpl; rewrite <- Em; fold (cell p r (low r));
        rewrite (Hin (low r) v) by (try lia; by rewrite Z.sub_diag);
        rewrite (proj2 (Z.ltb_lt _ _)) by lia).
      own_step ltac:(simpl; rewrite Z.eqb_refl). own_step idtac. reflexivity.
    + simpl. by rewrite list_lookup_insert_eq.
Qed.

End ring_properties.

(** Two producers claim tickets 0 and 1; the second writes first, so the
    consumer fails until ticket 0 is written. *)
Definition ring_demo : list (nat * ring_choice Z) :=
  [(0, RCallPush 7%Z); (1, RCallTryPush 8%Z);
   (0, RGo); (0, RGo); (0, RGo); (0, RGo);
   (1, RGo); (1, RGo); (1, RGo); (1, RGo); (1, RGo);
   (2, RCallTryPop); (2, RGo); (2, RGo); (2, RGo); (2, RReturn);
   (0, RGo); (0, RReturn); (1, RReturn);
   (2, RCallPop); (2, RGo); (2, RGo); (2, RGo); (2, RGo); (2, RGo); (2, RReturn)]%nat.

Definition ring_demo_final : ring_conf Z :=
  Conf (Ring 2 1 2 1 [None; Some 8]) [RIdle; RIdle; RIdle].

Lemma ring_linearizable_witness :
  exists q, spec_run (queue_spec (2 ^ 1)) [Enq 7; Enq 8; Deq 7] [] = Some q /\
    lockfree_ring_buffer_size 2 1 = Z.of_nat (length q).
Proof.
  refine (ring_linearizable 1 3 ring_demo (Conf (Ring 0 0 2 1 [None; None]) (replicate 3 RIdle))
            ring_demo_final [Enq 7; Enq 8; Deq 7] _ _ _ _).
  - lia.
  - vm_compute. reflexivity.
  - vm_compute. reflexivity.
  - vm_compute. reflexivity.
Defined.

Lemma ring_trypush_alone_witness :
  exists q c', spec_run (queue_spec (2 ^ 1)) [Enq 7; Enq 8; Deq 7] [] = Some q /\
    if decide (Z.of_nat (length q) < 2 ^ 1)
    then run ring_step (trypush_alone 0 9) ring_demo_final = Some (c', [Enq 9]) /\
         threads c' !! 0%nat = Some (RPushDone true)
    else run ring_step (take 4 (trypush_alone 0 9)) ring_demo_final = Some (c', []) /\
         threads c' !! 0%nat = Some (RPushDone false) /\ shared c' = shared ring_demo_final.
Proof.
  refine (ring_trypush_alone 1 3 ring_demo (Conf (Ring 0 0 2 1 [None; None]) (replicate 3 RIdle))
            ring_demo_final [Enq 7; Enq 8; Deq 7] 0 9 _ _ _ _ _ _).
  - lia.
  - vm_compute. reflexivity.
  - vm_compute. reflexivity.
  - vm_compute. reflexivity.
  - intros [|[|[|i]]] pc Hi; vm_compute in Hi; congruence.
  - eexists. reflexivity.
Defined.

Lemma ring_trypop_alone_witness :
  exists q c', spec_run (queue_spec (2 ^ 1)) [Enq 7; Enq 8; Deq 7] [] = Some q /\
    match q with
    | v :: _ => run ring_step (trypop_alone 0) ring_demo_final = Some (c', [Deq v]) /\
                threads c' !! 0%nat = Some (RPopDone (Some v))
    | [] => run ring_step (take 4 (trypop_alone 0)) ring_demo_final = Some (c', []) /\
            threads c' !! 0%nat = Some (RPopDone None) /\ shared c' = shared ring_demo_final
    end.
Proof.
  refine (ring_trypop_alone 1 3 ring_demo (Conf (Ring 0 0 2 1 [None; None]) (replicate 3 RIdle))
            ring_demo_final [Enq 7; Enq 8; Deq 7] 0 _ _ _ _ _ _).
  - lia.
  - vm_compute. reflexivity.
  - vm_compute. reflexivity.
  - vm_compute. reflexivity.
  - intros [|[|[|i]]] pc Hi; vm_compute in Hi; congruence.
  - eexists. reflexivity.
Defined.

(** The size passed to [calloc] is a [uint32_t].  For every exponent the
    assertion of [lockfree_ring_buffer_create] admits it equals the bytes the
    structure needs exactly when the exponent is at most 28; from 29 on it wraps
    around to the size of the header alone, so no cell of the buffer lies in the
    allocated block. *)
Theorem ring_required_size_wraps p :
  0 < p < 32 ->
  ring_required_size p =
    if decide (p <= 28) then sizeof_lockfree_ring_buffer + 2 ^ p * sizeof_ptr
    else sizeof_lockfree_ring_buffer.
Proof.
  intros Hp. case_decide as Hle.
  - apply required_size_fits; [lia|done].
  - assert (p = 29 \/ p = 30 \/ p = 31) as [-> | [-> | ->]] by lia; vm_compute; reflexivity.
Qed.

Lemma ring_required_size_wraps_witness :
  ring_required_size 29 = sizeof_lockfree_ring_buffer.
Proof. exact (ring_required_size_wraps 29 ltac:(lia)). Defined.
