(* ===== verification/MpscFifo.v ===== *)
(** * Linked nodes and the multi-producer single-consumer FIFO
    ([include/mpsc_fifo.h])

    Nodes live in a heap, pointers are [Z] with [NULL = 0], and an access to
    an unallocated node has no step.  The queue always owns one dummy node: the
    consumer gets the old dummy back, with the data of its successor copied
    into it.  A producer first swaps the tail and then links its predecessor, so
    between the two the chain is broken; the invariant tracks these pending
    links. *)

From S2P Require Import Prelude.

(** ** Nodes *)

Definition NULL : Z := 0.

(** [mpsc_fifo_node_t] *)
Record node := Node { nd_data : Z; nd_next : Z }.

Definition load_data (h : gmap Z node) (l : Z) : option Z := nd_data <$> h !! l.
Definition load_next (h : gmap Z node) (l : Z) : option Z := nd_next <$> h !! l.
Definition store_data (h : gmap Z node) (l v : Z) : option (gmap Z node) :=
  n ← h !! l; Some (<[l:=Node v (nd_next n)]> h).
Definition store_next (h : gmap Z node) (l v : Z) : option (gmap Z node) :=
  n ← h !! l; Some (<[l:=Node (nd_data n) v]> h).

(** ** The FIFO *)

Record mpsc_fifo := Fifo { f_head : Z; f_tail : Z }.

(** [m_owned] is the set of nodes the clients own and [m_consumer] the thread
    that currently acts as the single consumer: the contract of the header
    comments, never read by the operations themselves. *)
Record mpsc_shared := MShared {
  m_heap : gmap Z node;
  m_fifo : mpsc_fifo;
  m_owned : gset Z;
  m_consumer : option nat
}.

Inductive mpsc_pc :=
| MIdle
| MPushInit (new_node : Z)                 (* new_node->next = NULL *)
| MPushXchg (new_node : Z)                 (* atomic_exchange of the tail *)
| MPushLink (prev_tail new_node : Z)       (* prev_tail->next = new_node *)
| MPopHead                                 (* load f->head *)
| MPopNext (prev_head : Z)                 (* load prev_head->next *)
| MPopStore (prev_head prev_head_next : Z) (* f->head = prev_head_next *)
| MPopLoad (prev_head prev_head_next : Z)  (* read prev_head_next->data *)
| MPopWrite (prev_head prev_head_next d : Z) (* prev_head->data = d *)
| MPopDone (ret : Z)
| MPeekHead
| MPeekNext (head : Z)
| MPeekData (head_next : Z)
| MPeekDone (ret : option Z).

Inductive mpsc_choice :=
| MCallPush (new_node d : Z) | MCallPop | MCallPeek | MGo | MReturn.

Inductive fifo_ev := FEnq (d : Z) | FDeq (d : Z) | FEmpty | FPeek (d : Z).

(** [mpsc_fifo_init]: one zeroed node that is both head and tail. *)
Definition mpsc_fifo_init (h : gmap Z node) (fresh : Z) : gmap Z node * mpsc_fifo :=
  (<[fresh:=Node 0 NULL]> h, Fifo fresh fresh).

(** [mpsc_fifo_push] *)
Definition mpsc_fifo_push (s : mpsc_shared) (pc : mpsc_pc)
    : option (mpsc_shared * mpsc_pc * list fifo_ev) :=
  let '(MShared h f o k) := s in
  match pc with
  | MPushInit n => h' ← store_next h n NULL; Some (MShared h' f o k, MPushXchg n, [])
  | MPushXchg n =>
      d ← load_data h n;
      Some (MShared h (Fifo (f_head f) n) o k, MPushLink (f_tail f) n, [FEnq d])
  | MPushLink prev n => h' ← store_next h prev n; Some (MShared h' f o k, MIdle, [])
  | _ => None
  end.

(** [mpsc_fifo_trypop] *)
Definition mpsc_fifo_trypop (s : mpsc_shared) (pc : mpsc_pc)
    : option (mpsc_shared * mpsc_pc * list fifo_ev) :=
  let '(MShared h f o k) := s in
  match pc with
  | MPopHead => Some (s, MPopNext (f_head f), [])
  | MPopNext ph =>
      nx ← load_next h ph;
      if decide (nx = NULL) then Some (s, MPopDone NULL, [FEmpty])
      else Some (s, MPopStore ph nx, [])
  | MPopStore ph nx => Some (MShared h (Fifo nx (f_tail f)) o k, MPopLoad ph nx, [])
  | MPopLoad ph nx => d ← load_data h nx; Some (s, MPopWrite ph nx d, [])
  | MPopWrite ph nx d => h' ← store_data h ph d; Some (MShared h' f o k, MPopDone ph, [FDeq d])
  | _ => None
  end.

(** [mpsc_fifo_peek] *)
Definition mpsc_fifo_peek (s : mpsc_shared) (pc : mpsc_pc)
    : option (mpsc_shared * mpsc_pc * list fifo_ev) :=
  let '(MShared h f o k) := s in
  match pc with
  | MPeekHead => Some (s, MPeekNext (f_head f), [])
  | MPeekNext hd =>
      nx ← load_next h hd;
      if decide (nx = NULL) then Some (s, MPeekDone None, [FEmpty])
      else Some (s, MPeekData nx, [])
  | MPeekData nx => d ← load_data h nx; Some (s, MPeekDone (Some d), [FPeek d])
  | _ => None
  end.

(** [mpsc_fifo_destroy]: free the nodes from the head on.  The loop ends at a
    NULL [next]; [fuel] bounds it. *)
Fixpoint mpsc_fifo_destroy (fuel : nat) (h : gmap Z node) (hd : Z) : option (gmap Z node) :=
  match fuel with
  | O => None
  | S fuel =>
      if decide (hd = NULL) then Some h
      else nx ← load_next h hd; mpsc_fifo_destroy fuel (delete hd h) nx
  end.

(** A producer pushes a node it owns, after writing its [data]; a thread may
    pop or peek when no other thread is consuming; a popped node is handed to
    the caller on return. *)
Definition mpsc_tstep (t : nat) (ch : mpsc_choice) (s : mpsc_shared) (pc : mpsc_pc)
    : option (mpsc_shared * mpsc_pc * list fifo_ev) :=
  let '(MShared h f o k) := s in
  match ch, pc with
  | MCallPush n d, MIdle =>
      if decide (n ∈ o)
      then h' ← store_data h n d; Some (MShared h' f (o ∖ {[n]}) k, MPushInit n, [])
      else None
  | MCallPop, MIdle =>
      match k with None => Some (MShared h f o (Some t), MPopHead, []) | Some _ => None end
  | MCallPeek, MIdle =>
      match k with None => Some (MShared h f o (Some t), MPeekHead, []) | Some _ => None end
  | MGo, (MPushInit _ | MPushXchg _ | MPushLink _ _) => mpsc_fifo_push s pc
  | MGo, (MPopHead | MPopNext _ | MPopStore _ _ | MPopLoad _ _ | MPopWrite _ _ _) =>
      mpsc_fifo_trypop s pc
  | MGo, (MPeekHead | MPeekNext _ | MPeekData _) => mpsc_fifo_peek s pc
  | MReturn, MPopDone r =>
      Some (MShared h f (if decide (r = NULL) then o else {[r]} ∪ o) None, MIdle, [])
  | MReturn, MPeekDone _ => Some (MShared h f o None, MIdle, [])
  | _, _ => None
  end.

Definition mpsc_conf := conf mpsc_shared mpsc_pc.
Definition mpsc_step := conf_step mpsc_tstep.

(** Initially the dummy is node 1 and the clients own nodes [2 .. m + 1]. *)
Definition mpsc_init (m n : nat) : mpsc_conf :=
  let own : gset Z := list_to_set (seqZ 2 (Z.of_nat m)) in
  let '(h, f) := mpsc_fifo_init (gset_to_gmap (Node 0 NULL) own) 1 in
  Conf (MShared h f own None) (replicate n MIdle).

(** ** The abstract queue *)

Definition fifo_spec (e : fifo_ev) (q : list Z) : option (list Z) :=
  match e, q with
  | FEnq d, _ => Some (q ++ [d])
  | FDeq d, x :: q => if decide (d = x) then Some q else None
  | FPeek d, x :: _ => if decide (d = x) then Some q else None
  | FEmpty, _ => Some q       (* what emptiness means is a separate theorem *)
  | _, _ => None
  end.

(** ** Heap lemmas *)

Lemma store_data_Some h l v h' : store_data h l v = Some h' ->
  exists n, h !! l = Some n /\ h' = <[l:=Node v (nd_next n)]> h.
Proof. unfold store_data. destruct (h !! l) as [n|]; simpl; [|done]. intros [= <-]. eauto. Qed.

Lemma store_next_Some h l v h' : store_next h l v = Some h' ->
  exists n, h !! l = Some n /\ h' = <[l:=Node (nd_data n) v]> h.
Proof. unfold store_next. destruct (h !! l) as [n|]; simpl; [|done]. intros [= <-]. eauto. Qed.

Lemma store_data_next h l v h' a : store_data h l v = Some h' -> load_next h' a = load_next h a.
Proof.
  intros (n & Hn & ->)%store_data_Some. unfold load_next.
  destruct (decide (l = a)) as [->|?]; [|by rewrite lookup_insert_ne].
  by rewrite lookup_insert_eq, Hn.
Qed.

Lemma store_data_other h l v h' a : store_data h l v = Some h' -> a <> l ->
  load_data h' a = load_data h a.
Proof. intros (n & Hn & ->)%store_data_Some Hne. unfold load_data. by rewrite lookup_insert_ne. Qed.

Lemma store_data_same h l v h' : store_data h l v = Some h' -> load_data h' l = Some v.
Proof. intros (n & Hn & ->)%store_data_Some. unfold load_data. by rewrite lookup_insert_eq. Qed.

Lemma store_next_data h l v h' a : store_next h l v = Some h' -> load_data h' a = load_data h a.
Proof.
  intros (n & Hn & ->)%store_next_Some. unfold load_data.
  destruct (decide (l = a)) as [->|?]; [|by rewrite lookup_insert_ne].
  by rewrite lookup_insert_eq, Hn.
Qed.

Lemma store_next_other h l v h' a : store_next h l v = Some h' -> a <> l ->
  load_next h' a = load_next h a.
Proof. intros (n & Hn & ->)%store_next_Some Hne. unfold load_next. by rewrite lookup_insert_ne. Qed.

Lemma store_next_same h l v h' : store_next h l v = Some h' -> load_next h' l = Some v.
Proof. intros (n & Hn & ->)%store_next_Some. unfold load_next. by rewrite lookup_insert_eq. Qed.

Lemma store_data_dom h l v h' a : store_data h l v = Some h' ->
  is_Some (h' !! a) <-> is_Some (h !! a).
Proof.
  intros (n & Hn & ->)%store_data_Some. rewrite lookup_insert. case_decide; [|done].
  subst. rewrite Hn. split; eauto.
Qed.

Lemma store_next_dom h l v h' a : store_next h l v = Some h' ->
  is_Some (h' !! a) <-> is_Some (h !! a).
Proof.
  intros (n & Hn & ->)%store_next_Some. rewrite lookup_insert. case_decide; [|done].
  subst. rewrite Hn. split; eauto.
Qed.

(** ** The chain

    [chain] lists the nodes from head to tail; [pend] the producers that have
    swapped the tail but not linked their predecessor yet. *)

Definition linked (h : gmap Z node) (pend : list (Z * Z)) (a b : Z) : Prop :=
  (load_next h a = Some b /\ (a, b) ∉ pend) \/ (load_next h a = Some NULL /\ (a, b) ∈ pend).

Record chain_inv (h : gmap Z node) (f : mpsc_fifo) (pend : list (Z * Z)) (chain : list Z) : Prop := {
  ch_head : chain !! 0%nat = Some (f_head f);
  ch_last : last chain = Some (f_tail f);
  ch_nd : NoDup chain;
  ch_null : NULL ∉ chain;
  ch_link : forall i a b, chain !! i = Some a -> chain !! S i = Some b -> linked h pend a b;
  ch_end : load_next h (f_tail f) = Some NULL;
  ch_pend : forall a b, (a, b) ∈ pend -> exists i, chain !! i = Some a /\ chain !! S i = Some b;
  ch_pend_nd : NoDup pend
}.

Definition chain_data (h : gmap Z node) (chain : list Z) : list Z := omap (load_data h) chain.

Lemma chain_perm h f pend pend' chain :
  pend ≡ₚ pend' -> chain_inv h f pend chain -> chain_inv h f pend' chain.
Proof.
  intros Hp [H1 H2 H3 H4 H5 H6 H7 H8].
  split; auto; unfold linked in *; try setoid_rewrite <- Hp; auto.
Qed.

(** The heap may change outside the chain's [next] fields. *)
Lemma chain_heap h h' f pend chain :
  (forall a, a ∈ chain -> load_next h' a = load_next h a) ->
  chain_inv h f pend chain -> chain_inv h' f pend chain.
Proof.
  intros Hh [H1 H2 H3 H4 H5 H6 H7 H8]. split; auto.
  - intros i a b Ha Hb. unfold linked.
    rewrite (Hh a) by (by eapply list_elem_of_lookup_2). by eapply H5.
  - rewrite Hh; [done|]. by apply last_Some_elem_of.
Qed.

(** The exchange of the tail appends the new node. *)
Lemma chain_xchg h f pend chain n :
  chain_inv h f pend chain -> n ∉ chain -> n <> NULL -> load_next h n = Some NULL ->
  chain_inv h (Fifo (f_head f) n) ((f_tail f, n) :: pend) (chain ++ [n]).
Proof.
  intros [H1 H2 H3 H4 H5 H6 H7 H8] Hn Hnn Hnx.
  assert (forall a b, (a, b) ∈ pend -> b ∈ chain) as Hpb.
  { intros a b (i & _ & Hb)%H7. by eapply list_elem_of_lookup_2. }
  split; simpl; auto.
  - by rewrite lookup_app_l by (by eapply lookup_lt_Some).
  - apply last_snoc.
  - apply NoDup_app. split_and!; [done| |apply NoDup_singleton].
    intros x Hx ->%list_elem_of_singleton. done.
  - intros [?|?%list_elem_of_singleton]%elem_of_app; [done|congruence].
  - intros i a b Ha Hb. destruct (decide (S i < length chain)%nat) as [Hlt|Hge].
    + rewrite !lookup_app_l in * by lia. destruct (H5 _ _ _ Ha Hb) as [[? ?]|[? ?]].
      * left. split; [done|]. intros [?|?]%elem_of_cons; [|done]. by simplify_eq.
      * right. split; [done|]. by right.
    + assert (S i = length chain) as Ei.
      { apply lookup_lt_Some in Hb. rewrite length_app in Hb. simpl in Hb. lia. }
      rewrite lookup_app_l in Ha by lia. rewrite lookup_app_r in Hb by lia.
      rewrite Ei, Nat.sub_diag in Hb. simplify_eq/=.
      rewrite last_lookup, <- Ei in H2. simpl in H2. simplify_eq.
      right. split; [done|]. left.
  - intros a b [?|Hab]%elem_of_cons.
    + simplify_eq. rewrite last_lookup in H2. exists (pred (length chain)).
      pose proof (lookup_lt_Some _ _ _ H1). split; [by rewrite lookup_app_l by lia|].
      rewrite lookup_app_r by lia. by replace (S (pred (length chain)) - length chain)%nat with 0%nat by lia.
    + destruct (H7 _ _ Hab) as (i & Ha & Hb). exists i.
      pose proof (lookup_lt_Some _ _ _ Hb). by rewrite !lookup_app_l by lia.
  - constructor; [|done]. intros Hin. apply Hn. by eapply Hpb.
Qed.

(** Storing the predecessor's [next] repairs its link. *)
Lemma chain_store_link h h' f pend chain a b :
  chain_inv h f ((a, b) :: pend) chain -> store_next h a b = Some h' ->
  chain_inv h' f pend chain.
Proof.
  intros [H1 H2 H3 H4 H5 H6 H7 H8] Hs.
  inversion H8 as [|? ? Hnin Hnd]; subst.
  destruct (H7 a b ltac:(left)) as (i & Hia & Hib).
  split; auto.
  - intros j x y Hx Hy. destruct (decide (x = a)) as [->|Hne].
    + assert (j = i) as -> by exact (NoDup_lookup _ _ _ _ H3 Hx Hia).
      assert (y = b) as -> by congruence.
      left. split; [by eapply store_next_same|done].
    + destruct (H5 _ _ _ Hx Hy) as [[? Hni]|[? Hin]]; [left|right];
        (rewrite (store_next_other _ _ _ _ _ Hs) by done); (split; [done|]).
      * intros ?. apply Hni. by right.
      * apply elem_of_cons in Hin as [?|?]; [simplify_eq|done].
  - rewrite (store_next_other _ _ _ _ _ Hs); [done|]. intros E.
    rewrite last_lookup in H2. rewrite E in H2.
    assert (i = pred (length chain)) by exact (NoDup_lookup _ _ _ _ H3 Hia H2).
    apply lookup_lt_Some in Hib. lia.
  - intros x y Hxy. apply H7. by right.
Qed.

(** Moving the head drops the old dummy, whose link is not pending. *)
Lemma chain_pop h f pend chain ph nx :
  chain_inv h f pend chain -> ph = f_head f -> load_next h ph = Some nx -> nx <> NULL ->
  exists rest, chain = ph :: nx :: rest /\
    chain_inv h (Fifo nx (f_tail f)) pend (nx :: rest).
Proof.
  intros [H1 H2 H3 H4 H5 H6 H7 H8] -> Hnx Hn0.
  destruct chain as [|c0 [|c1 rest]]; simpl in *; [done|congruence|].
  injection H1 as ->.
  assert (c1 = nx /\ (f_head f, c1) ∉ pend) as [-> Hnp].
  { destruct (H5 0%nat _ _ eq_refl eq_refl) as [[? ?]|[? ?]]; split; congruence. }
  exists rest. split; [done|].
  inversion H3; subst. split; simpl; auto.
  - set_solver.
  - intros i a b Ha Hb. by apply (H5 (S i)).
  - intros a b Hab. destruct (H7 _ _ Hab) as ([|i] & Ha & Hb); [|by exists i].
    by simplify_eq/=.
Qed.

(** ** Threads *)

Definition pend_of (pc : mpsc_pc) : option (Z * Z) :=
  match pc with MPushLink a b => Some (a, b) | _ => None end.

(** The node a thread has to itself: before the exchange (producer) or after
    moving the head (consumer). *)
Definition priv_of (pc : mpsc_pc) : option Z :=
  match pc with
  | MPushInit n | MPushXchg n => Some n
  | MPopLoad ph _ | MPopWrite ph _ _ => Some ph
  | MPopDone r => if decide (r = NULL) then None else Some r
  | _ => None
  end.

(** Is the consumer between moving the head and delivering the data? *)
Definition mid_pop (pc : mpsc_pc) : bool :=
  match pc with MPopLoad _ _ | MPopWrite _ _ _ => true | _ => false end.

Definition consuming (pc : mpsc_pc) : bool :=
  match pc with
  | MPopHead | MPopNext _ | MPopStore _ _ | MPopLoad _ _ | MPopWrite _ _ _ | MPopDone _
  | MPeekHead | MPeekNext _ | MPeekData _ | MPeekDone _ => true
  | _ => false
  end.

(** What a thread's locals promise about the heap and the queue's head. *)
Definition mpsc_ok (h : gmap Z node) (hd : Z) (pc : mpsc_pc) : Prop :=
  match pc with
  | MPushXchg n => load_next h n = Some NULL
  | MPopNext ph | MPeekNext ph => ph = hd
  | MPopStore ph nx => ph = hd /\ load_next h ph = Some nx /\ nx <> NULL
  | MPopLoad _ nx => nx = hd
  | MPopWrite _ nx d => nx = hd /\ load_data h nx = Some d
  | MPeekData nx => load_next h hd = Some nx /\ nx <> NULL
  | _ => True
  end.

(** The abstract contents: while a pop is delivering, the head node still
    carries the element being removed. *)
Definition contents (h : gmap Z node) (chain : list Z) (mid : bool) : list Z :=
  chain_data h (if mid then chain else drop 1 chain).

(** Every node: in the queue, with one thread, or with the clients. *)
Definition all_nodes (c : mpsc_conf) (chain : list Z) : list Z :=
  chain ++ omap priv_of (threads c) ++ elements (m_owned (shared c)).

Record mpsc_rel (c : mpsc_conf) (q : list Z) (chain : list Z) : Prop := {
  mr_chain : chain_inv (m_heap (shared c)) (m_fifo (shared c)) (omap pend_of (threads c)) chain;
  mr_nd : NoDup (all_nodes c chain);
  mr_null : NULL ∉ all_nodes c chain;
  mr_alloc : forall l, l ∈ all_nodes c chain -> is_Some (m_heap (shared c) !! l);
  mr_cons : forall t pc, threads c !! t = Some pc -> consuming pc = true ->
    m_consumer (shared c) = Some t;
  mr_ok : forall t pc, threads c !! t = Some pc ->
    mpsc_ok (m_heap (shared c)) (f_head (m_fifo (shared c))) pc;
  mr_q : q = contents (m_heap (shared c)) chain (existsb mid_pop (threads c))
}.

Lemma chain_data_ext h h' chain :
  (forall a, a ∈ chain -> load_data h' a = load_data h a) ->
  chain_data h' chain = chain_data h chain.
Proof.
  intros H. unfold chain_data. induction chain as [|a l IH]; [done|]. csimpl.
  rewrite (H a) by set_solver. rewrite IH; [done|]. set_solver.
Qed.

Lemma contents_ext h h' chain m :
  (forall a, a ∈ chain -> load_data h' a = load_data h a) ->
  contents h' chain m = contents h chain m.
Proof.
  intros H. unfold contents. destruct m; apply chain_data_ext; auto.
  destruct chain; simpl; [done|]. intros a Ha. apply H. by right.
Qed.

Lemma existsb_insert_same (f : mpsc_pc -> bool) ls t x y :
  ls !! t = Some x -> f y = f x -> existsb f (<[t:=y]> ls) = existsb f ls.
Proof.
  revert t. induction ls as [|a l IH]; intros [|t] Ht E; simplify_eq/=; [by rewrite E|].
  by rewrite IH.
Qed.

Lemma existsb_only (f : mpsc_pc -> bool) ls t x :
  ls !! t = Some x -> (forall i y, i <> t -> ls !! i = Some y -> f y = false) ->
  existsb f ls = f x.
Proof.
  revert t. induction ls as [|a l IH]; intros [|t] Ht Ho; simplify_eq/=.
  - assert (existsb f l = false) as ->.
    { clear IH. induction l as [|b l IH]; [done|]. simpl.
      rewrite (Ho 1%nat b) by done. apply IH. intros [|i] y Hi Hy; [lia|]. by apply (Ho (S (S i))). }
    by rewrite orb_false_r.
  - rewrite (Ho 0%nat a) by done. simpl. apply (IH t); [done|].
    intros i y Hi Hy. apply (Ho (S i)); [lia|done].
Qed.

Lemma mid_consuming pc : mid_pop pc = true -> consuming pc = true.
Proof. by destruct pc. Qed.

(** The frame of a step of thread [t]: nodes are only passed around, the heap
    keeps its domain, and the other threads keep their promises. *)
Lemma rel_step c q chain t pc s' pc' chain' q' :
  mpsc_rel c q chain -> threads c !! t = Some pc ->
  chain_inv (m_heap s') (m_fifo s') (omap pend_of (<[t:=pc']> (threads c))) chain' ->
  all_nodes (Conf s' (<[t:=pc']> (threads c))) chain' ≡ₚ all_nodes c chain ->
  (forall l, is_Some (m_heap (shared c) !! l) -> is_Some (m_heap s' !! l)) ->
  (consuming pc' = true -> m_consumer s' = Some t) ->
  (forall i p, i <> t -> threads c !! i = Some p -> consuming p = true -> m_consumer s' = Some i) ->
  mpsc_ok (m_heap s') (f_head (m_fifo s')) pc' ->
  (forall i p, i <> t -> threads c !! i = Some p ->
     mpsc_ok (m_heap (shared c)) (f_head (m_fifo (shared c))) p ->
     mpsc_ok (m_heap s') (f_head (m_fifo s')) p) ->
  q' = contents (m_heap s') chain' (existsb mid_pop (<[t:=pc']> (threads c))) ->
  mpsc_rel (Conf s' (<[t:=pc']> (threads c))) q' chain'.
Proof.
  intros [H1 H2 H3 H4 H5 H6 H7] Ht Hch Hall Hdom Hc1 Hc2 Hok Hoks Hq.
  split; simpl; auto; rewrite ?Hall; auto.
  - intros l Hl. rewrite Hall in Hl. auto.
  - intros i p Hp Hcp. thread_cases Hp; eauto.
  - intros i p Hp. thread_cases Hp; eauto.
Qed.

Section facts.
Context (c : mpsc_conf) (q chain : list Z).
Hypothesis HR : mpsc_rel c q chain.

Lemma priv_not_chain t pc n : threads c !! t = Some pc -> priv_of pc = Some n -> n ∉ chain.
Proof using HR.
  intros Ht Hn Hc. destruct HR as [_ Hnd _ _ _ _ _].
  apply NoDup_app in Hnd as (_ & Hd & _). apply (Hd n Hc). apply elem_of_app. left.
  apply list_elem_of_omap. exists pc. split; [by eapply list_elem_of_lookup_2|done].
Qed.

Lemma priv_node t pc n : threads c !! t = Some pc -> priv_of pc = Some n ->
  n <> NULL /\ is_Some (m_heap (shared c) !! n).
Proof using HR.
  intros Ht Hn. assert (n ∈ all_nodes c chain) as Hin.
  { apply elem_of_app. right. apply elem_of_app. left.
    apply list_elem_of_omap. exists pc. split; [by eapply list_elem_of_lookup_2|done]. }
  split; [|by apply (mr_alloc _ _ _ HR)]. intros ->. by apply (mr_null _ _ _ HR).
Qed.

Lemma priv_ne i j pi pj a b : i <> j ->
  threads c !! i = Some pi -> threads c !! j = Some pj ->
  priv_of pi = Some a -> priv_of pj = Some b -> a <> b.
Proof using HR.
  intros Hij Hi Hj Ha Hb ->. apply Hij. eapply omap_NoDup_inj; eauto.
  destruct HR as [_ Hnd _ _ _ _ _]. apply NoDup_app in Hnd as (_ & _ & Hnd).
  by apply NoDup_app in Hnd as (? & _ & _).
Qed.

Lemma owned_not_chain n : n ∈ m_owned (shared c) -> n ∉ chain.
Proof using HR.
  intros Hn Hc. destruct HR as [_ Hnd _ _ _ _ _].
  apply NoDup_app in Hnd as (_ & Hd & _). apply (Hd n Hc). apply elem_of_app. right.
  by apply elem_of_elements.
Qed.

Lemma owned_not_priv n t pc : n ∈ m_owned (shared c) ->
  threads c !! t = Some pc -> priv_of pc <> Some n.
Proof using HR.
  intros Hn Ht Hp. destruct HR as [_ Hnd _ _ _ _ _].
  apply NoDup_app in Hnd as (_ & _ & Hnd). apply NoDup_app in Hnd as (_ & Hd & _).
  apply (Hd n); [|by apply elem_of_elements].
  apply list_elem_of_omap. exists pc. split; [by eapply list_elem_of_lookup_2|done].
Qed.

Lemma chain_alloc n : n ∈ chain -> is_Some (m_heap (shared c) !! n).
Proof using HR. intros Hn. apply (mr_alloc _ _ _ HR). apply elem_of_app. by left. Qed.

Lemma head_in_chain : f_head (m_fifo (shared c)) ∈ chain.
Proof using HR. eapply list_elem_of_lookup_2, ch_head, HR. Qed.

(** Only one thread consumes. *)
Lemma consumer_unique i j pi pj :
  threads c !! i = Some pi -> threads c !! j = Some pj ->
  consuming pi = true -> consuming pj = true -> i = j.
Proof using HR.
  intros Hi Hj Ci Cj. pose proof (mr_cons _ _ _ HR _ _ Hi Ci) as E1.
  pose proof (mr_cons _ _ _ HR _ _ Hj Cj) as E2. congruence.
Qed.

(** Who is delivering, when the stepping thread is the consumer. *)
Lemma mid_consumer t pc pc' :
  threads c !! t = Some pc -> consuming pc = true ->
  existsb mid_pop (<[t:=pc']> (threads c)) = mid_pop pc' /\
  existsb mid_pop (threads c) = mid_pop pc.
Proof using HR.
  intros Ht Hc.
  assert (forall i y, i <> t -> threads c !! i = Some y -> mid_pop y = false) as Ho.
  { intros i y Hi Hy. destruct (mid_pop y) eqn:E; [|done]. destruct Hi.
    eapply consumer_unique; eauto using mid_consuming. }
  split.
  - apply (existsb_only _ _ t); [by apply list_lookup_insert_eq; eapply lookup_lt_Some|].
    intros i y Hi Hy. rewrite list_lookup_insert_ne in Hy by done. eauto.
  - by apply (existsb_only _ _ t).
Qed.

(** A node with a non-NULL [next] at the head is followed by it. *)
Lemma head_followed nx : load_next (m_heap (shared c)) (f_head (m_fifo (shared c))) = Some nx ->
  nx <> NULL -> exists rest, chain = f_head (m_fifo (shared c)) :: nx :: rest.
Proof using HR.
  intros Hn Hnn. destruct (chain_pop _ _ _ _ _ nx (mr_chain _ _ _ HR) eq_refl Hn Hnn) as (rest & -> & _).
  by exists rest.
Qed.

(** Writing the data of a node outside the chain disturbs nobody. *)
Lemma ok_store_data n v h' pc :
  n ∉ chain -> store_data (m_heap (shared c)) n v = Some h' ->
  mpsc_ok (m_heap (shared c)) (f_head (m_fifo (shared c))) pc ->
  mpsc_ok h' (f_head (m_fifo (shared c))) pc.
Proof using HR.
  intros Hn Hs. pose proof head_in_chain as Hh.
  destruct pc; simpl; rewrite ?(store_data_next _ _ _ _ _ Hs); auto.
  intros [-> Hd]. split; [done|].
  rewrite (store_data_other _ _ _ _ _ Hs); [done|]. intros E. by rewrite E in Hh.
Qed.

(** Writing the [next] of a node disturbs nobody if it is another thread's
    private node or a broken link. *)
Lemma ok_store_next a v h' pc :
  store_next (m_heap (shared c)) a v = Some h' -> priv_of pc <> Some a ->
  (a = f_head (m_fifo (shared c)) -> load_next (m_heap (shared c)) a = Some NULL) ->
  mpsc_ok (m_heap (shared c)) (f_head (m_fifo (shared c))) pc ->
  mpsc_ok h' (f_head (m_fifo (shared c))) pc.
Proof.
  intros Hs Hp Hh.
  assert (forall nx, load_next (m_heap (shared c)) (f_head (m_fifo (shared c))) = Some nx ->
    nx <> NULL -> load_next h' (f_head (m_fifo (shared c))) = Some nx) as Hhd.
  { intros nx Hx Hnn. rewrite (store_next_other _ _ _ _ _ Hs); [done|].
    intros E. specialize (Hh (eq_sym E)). congruence. }
  destruct pc; simpl in *; rewrite ?(store_next_data _ _ _ _ _ Hs); auto.
  - intros Hx. rewrite (store_next_other _ _ _ _ _ Hs); [done|congruence].
  - intros (-> & Hx & Hnn). auto.
  - intros (Hx & Hnn). auto.
Qed.

End facts.

(** ** Simulation *)

Section simulation.
Context (c : mpsc_conf) (q chain : list Z) (t : nat).
Hypothesis HR : mpsc_rel c q chain.

Ltac split_conf := destruct c as [[h f o k] ths]; cbn [shared threads m_heap m_fifo m_owned m_consumer] in *.

(** A step that changes neither the shared state nor the nodes. *)
Lemma rel_quiet pc pc' k' :
  threads c !! t = Some pc -> pend_of pc' = pend_of pc -> priv_of pc' = priv_of pc ->
  mid_pop pc' = mid_pop pc ->
  (consuming pc' = true -> k' = Some t) ->
  (forall i p, i <> t -> threads c !! i = Some p -> consuming p = true -> k' = Some i) ->
  mpsc_ok (m_heap (shared c)) (f_head (m_fifo (shared c))) pc' ->
  mpsc_rel (Conf (MShared (m_heap (shared c)) (m_fifo (shared c)) (m_owned (shared c)) k')
                 (<[t:=pc']> (threads c))) q chain.
Proof using HR.
  intros Ht E1 E2 E3 Hk Hk' Hok. split_conf.
  eapply (rel_step _ _ _ _ _ _ _ _ _ HR Ht); simpl; try done.
  - eapply chain_perm; [|apply HR]. symmetry. by eapply omap_insert_same.
  - unfold all_nodes; simpl. by rewrite omap_insert_same.
  - rewrite (mr_q _ _ _ HR). simpl. f_equal. symmetry. by eapply existsb_insert_same.
Qed.

Lemma sim_call_push n d h' : threads c !! t = Some MIdle -> n ∈ m_owned (shared c) ->
  store_data (m_heap (shared c)) n d = Some h' ->
  mpsc_rel (Conf (MShared h' (m_fifo (shared c)) (m_owned (shared c) ∖ {[n]}) (m_consumer (shared c)))
                 (<[t:=MPushInit n]> (threads c))) q chain.
Proof using HR.
  intros Ht Hn Hs. pose proof (owned_not_chain _ _ _ HR n Hn) as Hnc. split_conf.
  eapply (rel_step _ _ _ _ _ _ _ _ _ HR Ht); simpl; try done.
  - eapply chain_perm; [symmetry; by eapply omap_insert_same|].
    eapply chain_heap; [|apply HR]. intros a _. by eapply store_data_next.
  - unfold all_nodes; simpl. rewrite (omap_insert_add priv_of ths _ _ (MPushInit n) n Ht eq_refl eq_refl).
    rewrite (union_difference_singleton_L n o) at 2 by done.
    rewrite elements_union_singleton by set_solver.
    apply Permutation_app_head, Permutation_middle.
  - intros l. by rewrite (store_data_dom _ _ _ _ _ Hs).
  - intros i p Hi Hp Hc. by apply (mr_cons _ _ _ HR _ _ Hp).
  - intros i p Hi Hp. eapply (ok_store_data _ _ _ HR); eauto.
  - rewrite (mr_q _ _ _ HR); simpl. rewrite (existsb_insert_same _ _ _ _ _ Ht) by done.
    symmetry. apply contents_ext. intros a Ha. eapply store_data_other; [exact Hs|]. set_solver.
Qed.

Lemma sim_push_init n h' : threads c !! t = Some (MPushInit n) ->
  store_next (m_heap (shared c)) n NULL = Some h' ->
  mpsc_rel (Conf (MShared h' (m_fifo (shared c)) (m_owned (shared c)) (m_consumer (shared c)))
                 (<[t:=MPushXchg n]> (threads c))) q chain.
Proof using HR.
  intros Ht Hs. pose proof (priv_not_chain _ _ _ HR _ _ _ Ht eq_refl) as Hnc.
  pose proof (head_in_chain _ _ _ HR) as Hhd.
  assert (forall a, a ∈ chain -> a <> n) as Hne by set_solver.
  split_conf. eapply (rel_step _ _ _ _ _ _ _ _ _ HR Ht); simpl; try done.
  - eapply chain_perm; [symmetry; by eapply omap_insert_same|].
    eapply chain_heap; [|apply HR]. intros a Ha. eapply store_next_other; eauto.
  - unfold all_nodes; simpl. by rewrite omap_insert_same.
  - intros l. by rewrite (store_next_dom _ _ _ _ _ Hs).
  - intros i p Hi Hp Hc. by apply (mr_cons _ _ _ HR _ _ Hp).
  - by eapply store_next_same.
  - intros i p Hi Hp. eapply (ok_store_next (Conf (MShared h f o k) ths)); eauto.
    + intros E. by eapply (priv_ne _ _ _ HR i t).
    + intros ->. by destruct (Hne _ Hhd).
  - rewrite (mr_q _ _ _ HR); simpl. rewrite (existsb_insert_same _ _ _ _ _ Ht) by done.
    symmetry. apply contents_ext. intros a Ha. by eapply store_next_data.
Qed.

Lemma chain_data_app h l1 l2 : chain_data h (l1 ++ l2) = chain_data h l1 ++ chain_data h l2.
Proof. apply omap_app. Qed.

Lemma sim_push_xchg n d : threads c !! t = Some (MPushXchg n) ->
  load_data (m_heap (shared c)) n = Some d ->
  mpsc_rel (Conf (MShared (m_heap (shared c)) (Fifo (f_head (m_fifo (shared c))) n)
                    (m_owned (shared c)) (m_consumer (shared c)))
                 (<[t:=MPushLink (f_tail (m_fifo (shared c))) n]> (threads c)))
           (q ++ [d]) (chain ++ [n]).
Proof using HR.
  intros Ht Hd. pose proof (priv_not_chain _ _ _ HR _ _ _ Ht eq_refl) as Hnc.
  destruct (priv_node _ _ _ HR _ _ _ Ht eq_refl) as [Hnn _].
  pose proof (mr_ok _ _ _ HR _ _ Ht) as Hok. simpl in Hok.
  split_conf. eapply (rel_step _ _ _ _ _ _ _ _ _ HR Ht); simpl; try done.
  - eapply chain_perm; [symmetry; by eapply (omap_insert_add pend_of)|].
    apply (chain_xchg _ _ _ _ n); [apply HR|done|done|done].
  - unfold all_nodes; simpl. rewrite (omap_insert_del priv_of ths _ _ (MPushLink (f_tail f) n) n Ht eq_refl eq_refl).
    by rewrite <- !app_assoc.
  - intros i p Hi Hp Hc. by apply (mr_cons _ _ _ HR _ _ Hp).
  - rewrite (mr_q _ _ _ HR); simpl. rewrite (existsb_insert_same _ _ _ _ _ Ht) by done.
    unfold contents.
    assert (chain_data h [n] = [d]) as E by (unfold chain_data; csimpl; by rewrite Hd).
    destruct (existsb mid_pop ths); [by rewrite chain_data_app, E|].
    pose proof (ch_head _ _ _ _ (mr_chain _ _ _ HR)) as Hh. destruct chain as [|a l]; [done|].
    simpl. rewrite !drop_0. by rewrite chain_data_app, E.
Qed.

Lemma sim_push_link prev n h' : threads c !! t = Some (MPushLink prev n) ->
  store_next (m_heap (shared c)) prev n = Some h' ->
  mpsc_rel (Conf (MShared h' (m_fifo (shared c)) (m_owned (shared c)) (m_consumer (shared c)))
                 (<[t:=MIdle]> (threads c))) q chain.
Proof using HR.
  intros Ht Hs. pose proof (omap_insert_del pend_of _ _ _ MIdle _ Ht eq_refl eq_refl) as Hdel.
  pose proof (chain_perm _ _ _ _ _ Hdel (mr_chain _ _ _ HR)) as Hch.
  destruct (ch_pend _ _ _ _ Hch prev n ltac:(left)) as (i0 & Hi0 & Hi1).
  assert (load_next (m_heap (shared c)) prev = Some NULL) as Hnull.
  { destruct (ch_link _ _ _ _ Hch _ _ _ Hi0 Hi1) as [[_ []]|[? _]]; [by left|done]. }
  assert (prev ∈ chain) as Hpc by (by eapply list_elem_of_lookup_2).
  split_conf. eapply (rel_step _ _ _ _ _ _ _ _ _ HR Ht); simpl; try done.
  - by eapply chain_store_link.
  - unfold all_nodes; simpl. by rewrite omap_insert_same.
  - intros l. by rewrite (store_next_dom _ _ _ _ _ Hs).
  - intros i p Hi Hp Hc. by apply (mr_cons _ _ _ HR _ _ Hp).
  - intros i p Hi Hp. eapply (ok_store_next (Conf (MShared h f o k) ths)); eauto.
    intros E. by apply (priv_not_chain _ _ _ HR _ _ _ Hp E).
  - rewrite (mr_q _ _ _ HR); simpl. rewrite (existsb_insert_same _ _ _ _ _ Ht) by done.
    symmetry. apply contents_ext. intros a Ha. by eapply store_next_data.
Qed.

Lemma sim_pop_store ph nx : threads c !! t = Some (MPopStore ph nx) ->
  exists rest, chain = ph :: nx :: rest /\
  mpsc_rel (Conf (MShared (m_heap (shared c)) (Fifo nx (f_tail (m_fifo (shared c))))
                    (m_owned (shared c)) (m_consumer (shared c)))
                 (<[t:=MPopLoad ph nx]> (threads c))) q (nx :: rest).
Proof using HR.
  intros Ht. destruct (mr_ok _ _ _ HR _ _ Ht) as (Hph & Hnx & Hnn).
  destruct (chain_pop _ _ _ _ _ _ (mr_chain _ _ _ HR) Hph Hnx Hnn) as (rest & Hch & Hinv).
  exists rest. split; [done|].
  destruct (mid_consumer _ _ _ HR t _ (MPopLoad ph nx) Ht eq_refl) as [M1 M2].
  split_conf. eapply (rel_step _ _ _ _ _ _ _ _ _ HR Ht); simpl; try done.
  - eapply chain_perm; [|exact Hinv]. symmetry. by eapply omap_insert_same.
  - unfold all_nodes; simpl. rewrite Hch.
    rewrite (omap_insert_add priv_of ths _ _ (MPopLoad ph nx) ph Ht eq_refl eq_refl).
    simpl. rewrite <- (Permutation_middle rest). apply perm_swap.
  - intros _. by apply (mr_cons _ _ _ HR _ _ Ht).
  - intros i p Hi Hp Hc. by apply (mr_cons _ _ _ HR _ _ Hp).
  - intros i p Hi Hp. destruct (consuming p) eqn:E; [|by destruct p].
    destruct Hi. by eapply (consumer_unique _ _ _ HR).
  - rewrite (mr_q _ _ _ HR); simpl. by rewrite M1, M2, Hch.
Qed.

Lemma sim_pop_write ph nx d h' : threads c !! t = Some (MPopWrite ph nx d) ->
  store_data (m_heap (shared c)) ph d = Some h' ->
  exists q', q = d :: q' /\
  mpsc_rel (Conf (MShared h' (m_fifo (shared c)) (m_owned (shared c)) (m_consumer (shared c)))
                 (<[t:=MPopDone ph]> (threads c))) q' chain.
Proof using HR.
  intros Ht Hs. destruct (mr_ok _ _ _ HR _ _ Ht) as [Hhd Hd].
  pose proof (priv_not_chain _ _ _ HR _ _ _ Ht eq_refl) as Hnc.
  destruct (priv_node _ _ _ HR _ _ _ Ht eq_refl) as [Hnn _].
  assert (priv_of (MPopDone ph) = Some ph) as Epriv by (simpl; by rewrite decide_False).
  destruct (mid_consumer _ _ _ HR t _ (MPopDone ph) Ht eq_refl) as [M1 M2].
  pose proof (ch_head _ _ _ _ (mr_chain _ _ _ HR)) as Hh.
  destruct chain as [|hd rest] eqn:Ech; [done|]. simpl in Hh.
  exists (chain_data (m_heap (shared c)) rest). split.
  { rewrite (mr_q _ _ _ HR), M2. unfold contents, chain_data. csimpl.
    replace hd with nx by congruence. by rewrite Hd. }
  assert (forall a, a ∈ hd :: rest -> a <> ph) as Hne by (intros a Ha ->; done).
  split_conf. eapply (rel_step _ _ _ _ _ _ _ _ _ HR Ht); simpl; try done.
  - eapply chain_perm; [symmetry; by eapply omap_insert_same|].
    eapply chain_heap; [|apply HR]. intros a _. by eapply store_data_next.
  - unfold all_nodes; simpl. by rewrite (omap_insert_same priv_of _ _ _ _ Ht).
  - intros l. by rewrite (store_data_dom _ _ _ _ _ Hs).
  - intros _. by apply (mr_cons _ _ _ HR _ _ Ht).
  - intros i p Hi Hp Hc. by apply (mr_cons _ _ _ HR _ _ Hp).
  - intros i p Hi Hp. eapply (ok_store_data _ _ _ HR); [exact Hnc|exact Hs].
  - rewrite M1. unfold contents; simpl. rewrite drop_0. symmetry. apply chain_data_ext.
    intros a Ha. eapply store_data_other; [exact Hs|]. apply Hne. by right.
Qed.

Lemma sim_return_pop r : threads c !! t = Some (MPopDone r) ->
  mpsc_rel (Conf (MShared (m_heap (shared c)) (m_fifo (shared c))
                    (if decide (r = NULL) then m_owned (shared c) else {[r]} ∪ m_owned (shared c)) None)
                 (<[t:=MIdle]> (threads c))) q chain.
Proof using HR.
  intros Ht. pose proof (fun n H => owned_not_priv _ _ _ HR n _ _ H Ht) as Hno.
  simpl in Hno.
  assert (forall i p, i <> t -> threads c !! i = Some p -> consuming p = true -> None = Some i) as Hcons.
  { intros i p Hi Hp Hc. destruct Hi. by eapply (consumer_unique _ _ _ HR). }
  split_conf. eapply (rel_step _ _ _ _ _ _ _ _ _ HR Ht); simpl; try done.
  - eapply chain_perm; [|apply HR]. symmetry. by eapply omap_insert_same.
  - unfold all_nodes; simpl. case_decide as Hr.
    + rewrite (omap_insert_same priv_of _ _ _ MIdle Ht); [done|]. simpl. by rewrite decide_True.
    + rewrite (omap_insert_del priv_of ths _ _ MIdle r Ht);
        [|simpl; by rewrite decide_False|done].
      rewrite elements_union_singleton by (intros H; by apply (Hno r H)).
      apply Permutation_app_head. symmetry. apply Permutation_middle.
  - rewrite (mr_q _ _ _ HR); simpl. f_equal. symmetry. by eapply existsb_insert_same.
Qed.

End simulation.

Lemma mpsc_simulation c q chain lbl c' evs :
  mpsc_rel c q chain -> mpsc_step lbl c = Some (c', evs) ->
  exists q' chain', spec_run fifo_spec evs q = Some q' /\ mpsc_rel c' q' chain'.
Proof.
  destruct lbl as [t ch]. intros HR Hstep.
  apply conf_step_inv in Hstep as (pc & s' & pc' & Ht & Hs & ->).
  pose proof (mr_ok _ _ _ HR _ _ Ht) as Hok.
  assert (forall i p, i <> t -> threads c !! i = Some p -> consuming p = true ->
    m_consumer (shared c) = Some i) as Hk by (intros; by eapply (mr_cons _ _ _ HR)).
  assert (consuming pc = true -> m_consumer (shared c) = Some t) as Hkt
    by (intros; by eapply (mr_cons _ _ _ HR)).
  destruct c as [[h f o k] ths]; cbn [shared threads m_heap m_fifo m_owned m_consumer] in *.
  assert (k = None -> forall i p, i <> t -> ths !! i = Some p -> consuming p = true -> Some t = Some i) as Hnone.
  { intros -> i p Hi Hp Hc. by specialize (Hk _ _ Hi Hp Hc). }
  assert (forall i p, i <> t -> consuming pc = true -> ths !! i = Some p -> consuming p = true ->
    None = Some i) as Hret.
  { intros i p Hi Hct Hp Hc. destruct Hi. by eapply (consumer_unique _ _ _ HR). }
  pose proof (fun pc' k' => rel_quiet _ _ _ t HR pc pc' k' Ht) as Hquiet; simpl in Hquiet.
  destruct ch, pc; try discriminate Hs; simpl in Hs.
  - (* call push *)
    case_decide as Hn; [|done]. destruct (store_data h new_node d) as [h'|] eqn:E; [|done].
    simplify_eq/=. exists q, chain. split; [done|]. by apply (sim_call_push _ _ _ _ HR _ d).
  - (* call pop *)
    destruct k; [done|]. simplify_eq. exists q, chain. split; [done|].
    apply Hquiet; simpl; auto. exact (Hnone eq_refl).
  - (* call peek *)
    destruct k; [done|]. simplify_eq. exists q, chain. split; [done|].
    apply Hquiet; simpl; auto. exact (Hnone eq_refl).
  - destruct (store_next h new_node NULL) as [h'|] eqn:E; [|done].
    simplify_eq/=. exists q, chain. split; [done|]. by apply (sim_push_init _ _ _ _ HR).
  - destruct (load_data h new_node) as [d|] eqn:E; [|done]. simplify_eq/=.
    exists (q ++ [d]), (chain ++ [new_node]). split; [done|]. by apply (sim_push_xchg _ _ _ _ HR).
  - destruct (store_next h prev_tail new_node) as [h'|] eqn:E; [|done]. simplify_eq/=.
    exists q, chain. split; [done|]. by apply (sim_push_link _ _ _ _ HR prev_tail new_node).
  - simplify_eq. exists q, chain. split; [done|]. apply Hquiet; simpl; auto.
  - destruct (load_next h prev_head) as [nx|] eqn:E; [|done]. simpl in Hs, Hok.
    case_decide as Hnx; simplify_eq; exists q, chain; (split; [by destruct q|]); apply Hquiet; simpl; auto.
  - simplify_eq. destruct (sim_pop_store _ _ _ _ HR _ _ Ht) as (rest & _ & HR').
    exists q, (prev_head_next :: rest). split; [done|]. exact HR'.
  - destruct (load_data h prev_head_next) as [d|] eqn:E; [|done]. simplify_eq/=.
    exists q, chain. split; [done|]. apply Hquiet; simpl; auto.
  - destruct (store_data h prev_head d) as [h'|] eqn:E; [|done]. simplify_eq/=.
    destruct (sim_pop_write _ _ _ _ HR _ _ _ h' Ht E) as (q' & -> & HR').
    exists q', chain. split; [simpl; by rewrite decide_True|]. exact HR'.
  - simplify_eq. exists q, chain. split; [done|]. apply Hquiet; simpl; auto.
  - destruct (load_next h head) as [nx|] eqn:E; [|done]. simpl in Hs, Hok.
    case_decide as Hnx; simplify_eq; exists q, chain; (split; [by destruct q|]); apply Hquiet; simpl; auto.
  - destruct (load_data h head_next) as [d|] eqn:E; [|done]. simplify_eq/=.
    exists q, chain. split; [|apply Hquiet; simpl; auto].
    destruct Hok as [Hnx Hnn]. destruct (head_followed _ _ _ HR head_next Hnx Hnn) as (rest & Hch).
    destruct (mid_consumer _ _ _ HR t _ MIdle Ht eq_refl) as [_ M].
    pose proof (mr_q _ _ _ HR) as Hq. simpl in Hq, M, Hch. rewrite M, Hch in Hq.
    unfold contents, chain_data in Hq. simpl in Hq. csimpl in Hq. rewrite E in Hq.
    subst q. simpl. by rewrite decide_True.
  - simplify_eq. exists q, chain. split; [done|]. by apply (sim_return_pop _ _ _ _ HR).
  - simplify_eq. exists q, chain. split; [done|]. apply Hquiet; simpl; auto; [done|]. intros. by eapply Hret.
Qed.

Lemma mpsc_init_rel m n : mpsc_rel (mpsc_init m n) [] [1].
Proof.
  assert (forall {B} (f : mpsc_pc -> option B), f MIdle = None ->
    omap f (replicate n MIdle) = []) as Hom.
  { intros B f E. induction n as [|k IH]; [done|]. csimpl. by rewrite E. }
  assert (existsb mid_pop (replicate n MIdle) = false) as Hmid.
  { induction n as [|k IH]; [done|]. simpl. apply IH. intros B f E. specialize (Hom B f E).
    csimpl in Hom. by rewrite E in Hom. }
  unfold mpsc_init, mpsc_fifo_init. split; simpl.
  - rewrite Hom by done. split; simpl; try done.
    + apply NoDup_singleton.
    + intros ?%list_elem_of_singleton. done.
    + unfold load_next. by rewrite lookup_insert_eq.
    + intros a b Hab. by apply elem_of_nil in Hab.
    + apply NoDup_nil_2.
  - unfold all_nodes; simpl. rewrite Hom by done. simpl.
    rewrite elements_list_to_set by apply NoDup_seqZ.
    apply NoDup_cons. split; [|apply NoDup_seqZ]. intros ?%elem_of_seqZ. lia.
  - unfold all_nodes; simpl. rewrite Hom by done. simpl.
    rewrite elements_list_to_set by apply NoDup_seqZ.
    intros [?|H%elem_of_seqZ]%elem_of_cons; [done|]. unfold NULL in *. lia.
  - unfold all_nodes; simpl. rewrite Hom by done. simpl. intros l.
    rewrite elements_list_to_set by apply NoDup_seqZ.
    intros [->|H]%elem_of_cons; [rewrite lookup_insert_eq; eauto|].
    destruct (decide (1 = l)) as [<-|?]; [rewrite lookup_insert_eq; eauto|].
    rewrite lookup_insert_ne by done.
    exists (Node 0 NULL). apply lookup_gset_to_gmap_Some. split; [|done].
    by apply elem_of_list_to_set.
  - by intros t pc [-> _]%lookup_replicate.
  - by intros t pc [-> _]%lookup_replicate.
  - by rewrite Hmid.
Qed.

Lemma mpsc_run_rel m n ls c evs : run mpsc_step ls (mpsc_init m n) = Some (c, evs) ->
  exists q chain, spec_run fifo_spec evs [] = Some q /\ mpsc_rel c q chain.
Proof.
  intros Hrun.
  destruct (run_simulation mpsc_step fifo_spec (Z.of_nat (length ls) + 1)
    (fun _ c q => exists chain, mpsc_rel c q chain))
    with (ls := ls) (n := 0) (s := mpsc_init m n) (s' := c) (evs := evs) (a := @nil Z)
    as (q & Hq & chain & HR); eauto using mpsc_init_rel; [|lia].
  intros k l s s' e a _ [chain HR] Hs.
  destruct (mpsc_simulation _ _ _ _ _ _ HR Hs) as (q' & chain' & ? & ?). eauto.
Qed.

(** ** Properties *)

(** C9: First in, first out.  For any number of producers and consumers that
    respect the single-consumer contract, in every interleaving the elements
    come out in the order of the tail exchanges, each exactly once, and a
    successful peek sees the element the next pop returns. *)
Theorem mpsc_fifo_order m n ls c evs :
  run mpsc_step ls (mpsc_init m n) = Some (c, evs) ->
  exists q, spec_run fifo_spec evs [] = Some q.
Proof. intros Hrun. destruct (mpsc_run_rel _ _ _ _ _ Hrun) as (q & _ & Hq & _). by exists q. Qed.

(** Two producers push; the first stalls before linking, the consumer sees
    NULL, then both elements arrive in exchange order. *)
Definition mpsc_demo : list (nat * mpsc_choice) :=
  [(0, MCallPush 2 70); (0, MGo); (0, MGo); (1, MCallPush 3 80); (1, MGo); (1, MGo); (1, MGo);
   (2, MCallPop); (2, MGo); (2, MGo); (2, MReturn); (0, MGo);
   (2, MCallPop); (2, MGo); (2, MGo); (2, MGo); (2, MGo); (2, MGo); (2, MReturn)]%nat.

Lemma mpsc_fifo_order_witness :
  exists q, spec_run fifo_spec [FEnq 70; FEnq 80; FEmpty; FDeq 70] [] = Some q.
Proof.
  refine (mpsc_fifo_order 2 3 mpsc_demo _ [FEnq 70; FEnq 80; FEmpty; FDeq 70] _).
  vm_compute. reflexivity.
Defined.

(** Only the load of the head's successor answers empty. *)
Lemma mpsc_tstep_empty t ch s pc s' pc' e :
  mpsc_tstep t ch s pc = Some (s', pc', e) -> FEmpty ∈ e ->
  exists hd, (pc = MPopNext hd \/ pc = MPeekNext hd) /\ load_next (m_heap s) hd = Some NULL.
Proof.
  intros Hs He. destruct s as [h f o k].
  assert (forall (x : fifo_ev), FEmpty ∈ [x] -> x = FEmpty) as H1 by set_solver.
  assert (FEmpty ∉ @nil fifo_ev) as H0 by set_solver.
  destruct ch, pc; simpl in Hs; try discriminate Hs.
  all: try (simplify_eq; by destruct H0).
  all: try (destruct k; simplify_eq; by destruct H0).
  - case_decide; [|done]. destruct (store_data h new_node d); simplify_eq/=. by destruct H0.
  - destruct (store_next h new_node NULL); simplify_eq/=. by destruct H0.
  - destruct (load_data h new_node); simplify_eq/=. by apply H1 in He.
  - destruct (store_next h prev_tail new_node); simplify_eq/=. by destruct H0.
  - destruct (load_next h prev_head) as [nx|] eqn:E; simplify_eq/=.
    case_decide; simplify_eq; first [by destruct H0 | by eauto].
  - destruct (load_data h prev_head_next); simplify_eq/=. by destruct H0.
  - destruct (store_data h prev_head d); simplify_eq/=. by apply H1 in He.
  - destruct (load_next h head) as [nx|] eqn:E; simplify_eq/=.
    case_decide; simplify_eq; first [by destruct H0 | by eauto].
  - destruct (load_data h head_next); simplify_eq/=. by apply H1 in He.
Qed.

(** What an empty answer means.  When pop or peek finds no successor, the
    queue is empty or the producer of its oldest element has exchanged the tail
    and not yet linked it (the queue is not linearisable in this window: later,
    completed pushes are invisible too). *)
Theorem mpsc_empty_means m n ls c evs lbl c' e :
  run mpsc_step ls (mpsc_init m n) = Some (c, evs) ->
  mpsc_step lbl c = Some (c', e) -> FEmpty ∈ e ->
  spec_run fifo_spec evs [] = Some [] \/
  exists t new_node, threads c !! t = Some (MPushLink (f_head (m_fifo (shared c))) new_node).
Proof.
  intros Hrun Hstep He. destruct (mpsc_run_rel _ _ _ _ _ Hrun) as (q & chain & Hq & HR).
  destruct lbl as [t ch]. apply conf_step_inv in Hstep as (pc & s' & pc' & Ht & Hs & ->).
  destruct (mpsc_tstep_empty _ _ _ _ _ _ _ Hs He) as (hd0 & Hpc & Hn).
  pose proof (mr_ok _ _ _ HR _ _ Ht) as Hok. pose proof (mr_q _ _ _ HR) as Hqq.
  pose proof (mr_chain _ _ _ HR) as Hch.
  assert (consuming pc = true /\ mid_pop pc = false /\ hd0 = f_head (m_fifo (shared c))) as (Hcons & Hm & ->)
    by (destruct Hpc as [-> | ->]; done).
  destruct (mid_consumer _ _ _ HR t _ MIdle Ht Hcons) as [_ M]. rewrite M in Hqq.
  rewrite Hm in Hqq. pose proof (ch_head _ _ _ _ Hch) as Hh.
  destruct chain as [|hd [|x rest]]; [done|left|right].
  - rewrite Hq. subst q. done.
  - simpl in Hh. injection Hh as ->.
    destruct (ch_link _ _ _ _ Hch 0%nat _ _ eq_refl eq_refl) as [[Hx _]|[_ Hp]].
    + rewrite Hx in Hn. injection Hn as ->. destruct (ch_null _ _ _ _ Hch). set_solver.
    + apply list_elem_of_omap in Hp as (p & [i Hi]%list_elem_of_lookup_1 & Hpe).
      exists i, x. rewrite Hi. by destruct p; simplify_eq/=.
Qed.

Lemma mpsc_empty_means_witness :
  spec_run fifo_spec [FEnq 70; FEnq 80] [] = Some [] \/
  exists t new_node, [MPushLink 1 2; MIdle; MPopNext 1] !! t = Some (MPushLink 1 new_node).
Proof.
  refine (mpsc_empty_means 2 3 (take 9 mpsc_demo)
    (Conf (MShared _ (Fifo 1 3) _ _) [MPushLink 1 2; MIdle; MPopNext 1]) [FEnq 70; FEnq 80]
    (2%nat, MGo) _ [FEmpty] _ _ _).
  - vm_compute. reflexivity.
  - vm_compute. reflexivity.
  - left.
Defined.

(** Wait freedom and memory safety.  In every reachable state each thread
    that is inside push, trypop or peek can take its next step: no access goes
    to an unallocated node and no thread ever waits for another. *)
Theorem mpsc_wait_free m n ls c evs t pc :
  run mpsc_step ls (mpsc_init m n) = Some (c, evs) ->
  threads c !! t = Some pc -> pc <> MIdle ->
  exists ch c' e, mpsc_step (t, ch) c = Some (c', e).
Proof.
  intros Hrun Ht Hne. destruct (mpsc_run_rel _ _ _ _ _ Hrun) as (q & chain & Hq & HR).
  pose proof (mr_ok _ _ _ HR _ _ Ht) as Hok.
  assert (forall ch s' pc' e, mpsc_tstep t ch (shared c) pc = Some (s', pc', e) ->
    exists ch c' e, mpsc_step (t, ch) c = Some (c', e)) as Hgo.
  { intros ch s' pc' e Hs. exists ch. unfold mpsc_step, conf_step; simpl. rewrite Ht, Hs. eauto. }
  assert (forall a, is_Some (m_heap (shared c) !! a) -> is_Some (load_data (m_heap (shared c)) a) /\
    is_Some (load_next (m_heap (shared c)) a) /\
    (forall v, is_Some (store_data (m_heap (shared c)) a v)) /\
    (forall v, is_Some (store_next (m_heap (shared c)) a v))) as Hacc.
  { intros a [nd Ha]. unfold load_data, load_next, store_data, store_next. rewrite Ha. eauto. }
  pose proof (head_in_chain _ _ _ HR) as Hhd.
  pose proof (fun a H => Hacc a (chain_alloc _ _ _ HR a H)) as Hca.
  pose proof (fun a H => Hacc a (proj2 (priv_node _ _ _ HR t pc a Ht H))) as Hpa.
  destruct c as [[h f o k] ths]; cbn [shared threads m_heap m_fifo m_owned m_consumer] in *.
  destruct pc as [|a|a|a b| |a|a b|a b|a b d|r| |a|a|r]; simpl in Hok; try done.
  - destruct (Hpa a eq_refl) as (_ & _ & _ & H). destruct (H NULL) as [h' E].
    eapply (Hgo MGo). simpl. rewrite E. reflexivity.
  - destruct (Hpa a eq_refl) as ([d E] & _). eapply (Hgo MGo). simpl. rewrite E. reflexivity.
  - destruct (ch_pend _ _ _ _ (mr_chain _ _ _ HR) a b) as (i & Hi & _).
    { apply list_elem_of_omap. exists (MPushLink a b). split; [by eapply list_elem_of_lookup_2|done]. }
    destruct (Hca a ltac:(by eapply list_elem_of_lookup_2)) as (_ & _ & _ & H). destruct (H b) as [h' E].
    eapply (Hgo MGo). simpl. rewrite E. reflexivity.
  - eapply (Hgo MGo). reflexivity.
  - subst a. destruct (Hca _ Hhd) as (_ & [nx E] & _).
    destruct (decide (nx = NULL)) eqn:Ed; eapply (Hgo MGo); simpl; rewrite E; simpl; rewrite Ed; reflexivity.
  - eapply (Hgo MGo). reflexivity.
  - subst b. destruct (Hca _ Hhd) as ([d E] & _). eapply (Hgo MGo). simpl. rewrite E. reflexivity.
  - destruct (Hpa a eq_refl) as (_ & _ & H & _). destruct (H d) as [h' E].
    eapply (Hgo MGo). simpl. rewrite E. reflexivity.
  - eapply (Hgo MReturn). reflexivity.
  - eapply (Hgo MGo). reflexivity.
  - subst a. destruct (Hca _ Hhd) as (_ & [nx E] & _).
    destruct (decide (nx = NULL)) eqn:Ed; eapply (Hgo MGo); simpl; rewrite E; simpl; rewrite Ed; reflexivity.
  - destruct Hok as [Hx Hnn]. destruct (head_followed _ _ _ HR a Hx Hnn) as (rest & Hch).
    simpl in Hch. destruct (Hca a) as ([d E] & _); [rewrite Hch; set_solver|].
    eapply (Hgo MGo). simpl. rewrite E. reflexivity.
  - eapply (Hgo MReturn). reflexivity.
Qed.

Lemma mpsc_wait_free_witness :
  exists ch c' e, mpsc_step (0%nat, ch) (Conf (MShared
    (m_heap (shared (mpsc_init 1 1))) (Fifo 1 1) ∅ None) [MPushInit 2]) = Some (c', e).
Proof.
  refine (mpsc_wait_free 1 1 [(0%nat, MCallPush 2 0)] _ [] 0 (MPushInit 2) _ _ _).
  - vm_compute. reflexivity.
  - reflexivity.
  - discriminate.
Defined.

(** Freeing a complete chain from its head removes exactly its nodes. *)
Lemma destroy_chain chain : forall h fuel hd tl,
  chain !! 0%nat = Some hd -> last chain = Some tl -> NoDup chain -> NULL ∉ chain ->
  (forall i a b, chain !! i = Some a -> chain !! S i = Some b -> load_next h a = Some b) ->
  load_next h tl = Some NULL -> (length chain < fuel)%nat ->
  exists h', mpsc_fifo_destroy fuel h hd = Some h' /\
    forall l, h' !! l = if decide (l ∈ chain) then None else h !! l.
Proof.
  induction chain as [|c chain IH]; intros h fuel hd tl Hhd Hl Hnd Hnull Hlink Htl Hf; [done|].
  simpl in Hhd. injection Hhd as <-. destruct fuel as [|fuel]; [simpl in Hf; lia|].
  apply NoDup_cons in Hnd as [Hc Hnd]. apply not_elem_of_cons in Hnull as [Hc0 Hnull].
  simpl. rewrite decide_False by done.
  assert (forall a, a ∈ chain -> load_next (delete c h) a = load_next h a) as Hdel.
  { intros a Ha. unfold load_next. rewrite lookup_delete_ne; [done|]. by intros ->. }
  destruct chain as [|c1 chain].
  - simpl in Hl. injection Hl as <-. rewrite Htl. simpl. destruct fuel as [|fuel]; [simpl in Hf; lia|].
    simpl. exists (delete c h). split; [done|]. intros l. rewrite lookup_delete.
    destruct (decide (c = l)), (decide (l ∈ [c])); try done; set_solver.
  - rewrite (Hlink 0%nat c c1) by done. simpl.
    assert (tl ∈ c1 :: chain) as Hin by (by apply last_Some_elem_of).
    destruct (IH (delete c h) fuel c1 tl) as (h' & Hh' & Hl'); try done.
    + intros i a b Ha Hb. rewrite Hdel by (by eapply list_elem_of_lookup_2). by apply (Hlink (S i)).
    + by rewrite Hdel.
    + simpl in *. lia.
    + exists h'. split; [done|]. intros l. rewrite Hl', lookup_delete.
      destruct (decide (c = l)), (decide (l ∈ c1 :: chain)), (decide (l ∈ c :: c1 :: chain));
        try done; set_solver.
Qed.

Lemma existsb_idle (f : mpsc_pc -> bool) ths : f MIdle = false ->
  (forall t pc, ths !! t = Some pc -> pc = MIdle) -> existsb f ths = false.
Proof.
  intros Hf. induction ths as [|p ths IH]; intros Hi; simpl; [done|].
  rewrite (Hi 0%nat p eq_refl), Hf. apply IH. intros t pc. apply (Hi (S t)).
Qed.

Lemma chain_data_length h chain : (forall l, l ∈ chain -> is_Some (h !! l)) ->
  length (chain_data h chain) = length chain.
Proof.
  unfold chain_data, load_data. induction chain as [|a l IH]; intros H; [done|]. csimpl.
  destruct (H a) as [x Hx]; [left|]. rewrite Hx. simpl. f_equal. apply IH. intros b Hb. apply H. by right.
Qed.

(** Destruction.  When every thread is outside the queue, the destroy loop
    terminates after one iteration per node, frees exactly the dummy and one
    node per queued element, and leaves every client-owned node allocated. *)
Theorem mpsc_destroy_frees m n ls c evs q :
  run mpsc_step ls (mpsc_init m n) = Some (c, evs) ->
  spec_run fifo_spec evs [] = Some q ->
  (forall t pc, threads c !! t = Some pc -> pc = MIdle) ->
  exists freed h', length freed = S (length q) /\ NoDup freed /\
    mpsc_fifo_destroy (S (length freed)) (m_heap (shared c)) (f_head (m_fifo (shared c))) = Some h' /\
    (forall l, h' !! l = if decide (l ∈ freed) then None else m_heap (shared c) !! l) /\
    (forall l, l ∈ m_owned (shared c) -> is_Some (h' !! l)).
Proof.
  intros Hrun Hq Hidle. destruct (mpsc_run_rel _ _ _ _ _ Hrun) as (q' & chain & Hq' & HR).
  rewrite Hq in Hq'. injection Hq' as <-.
  assert (forall {B} (f : mpsc_pc -> option B), f MIdle = None -> omap f (threads c) = []) as Hom.
  { intros B f Hf. apply elem_of_nil_inv. intros x (pc & [t Ht]%list_elem_of_lookup_1 & Hx)%list_elem_of_omap.
    rewrite (Hidle _ _ Ht) in Hx. congruence. }
  pose proof (mr_chain _ _ _ HR) as Hch. rewrite Hom in Hch by done.
  destruct (destroy_chain chain (m_heap (shared c)) (S (length chain))
    (f_head (m_fifo (shared c))) (f_tail (m_fifo (shared c)))) as (h' & Hd & Hh'); try apply Hch; [|lia|].
  { intros i a b Ha Hb. destruct (ch_link _ _ _ _ Hch _ _ _ Ha Hb) as [[? _]|[_ Hin]]; [done|].
    by apply elem_of_nil in Hin. }
  exists chain, h'. split_and!; try done; [|apply Hch|].
  - rewrite (mr_q _ _ _ HR), existsb_idle by done. unfold contents.
    rewrite chain_data_length by (intros l Hl; apply (chain_alloc _ _ _ HR); destruct chain; [done|]; by right).
    pose proof (ch_head _ _ _ _ Hch). destruct chain; [done|]. simpl. by rewrite drop_0.
  - intros l Hl. rewrite Hh', decide_False.
    + apply (mr_alloc _ _ _ HR). unfold all_nodes. set_solver.
    + intros Hin. pose proof (mr_nd _ _ _ HR) as Hnd. unfold all_nodes in Hnd.
      apply NoDup_app in Hnd as (_ & Hd2 & _). apply (Hd2 _ Hin). set_solver.
Qed.

Lemma mpsc_destroy_frees_witness :
  exists freed h', length freed = 2%nat /\ NoDup freed /\
    mpsc_fifo_destroy (S (length freed)) {[1 := Node 0 2; 2 := Node 70 0; 3 := Node 0 0]} 1 = Some h' /\
    (forall l, h' !! l = if decide (l ∈ freed) then None
      else ({[1 := Node 0 2; 2 := Node 70 0; 3 := Node 0 0]} : gmap Z node) !! l) /\
    (forall l, l ∈ ({[3]} : gset Z) -> is_Some (h' !! l)).
Proof.
  refine (mpsc_destroy_frees 2 1 [(0%nat, MCallPush 2 70); (0%nat, MGo); (0%nat, MGo); (0%nat, MGo)]
    (Conf (MShared _ (Fifo 1 2) {[3]} None) [MIdle]) [FEnq 70] [70] _ _ _).
  - vm_compute. reflexivity.
  - reflexivity.
  - intros t pc H. apply list_elem_of_lookup_2, list_elem_of_singleton in H. exact H.
Defined.
