(* ===== verification/SpscFifo.v ===== *)
(** * The single-producer single-consumer FIFO ([include/spsc_fifo.h])

    The queue of [mpsc_fifo.h] without the atomic exchange: the one producer
    reads the tail and writes it in two steps.  As long as only one thread at a
    time pushes, every run is a run of the multi-producer queue. *)

From S2P Require Import Prelude MpscFifo.

(** ** State *)

(** [sp_producer]: the thread inside a push, never read by the operations. *)
Record spsc_shared := SpShared { sp_fifo : mpsc_shared; sp_producer : option nat }.

Inductive spsc_pc :=
| SpIdle
| SpPushInit (new_node : Z)                   (* new_node->next = NULL *)
| SpPushTail (new_node : Z)                   (* load f->tail *)
| SpPushStore (prev_tail new_node : Z)        (* f->tail = new_node *)
| SpPushLink (prev_tail new_node : Z)         (* prev_tail->next = new_node *)
| SpPopHead                                   (* load f->head *)
| SpPopNext (prev_head : Z)                   (* load prev_head->next *)
| SpPopStore (prev_head prev_head_next : Z)   (* f->head = prev_head_next *)
| SpPopLoad (prev_head prev_head_next : Z)    (* read prev_head_next->data *)
| SpPopWrite (prev_head prev_head_next d : Z) (* prev_head->data = d *)
| SpPopDone (ret : Z).

Inductive spsc_choice := SpCallPush (new_node d : Z) | SpCallPop | SpGo | SpReturn.

(** ** Operations *)

(** [spsc_fifo_init]: [calloc] may fail. *)
Definition spsc_fifo_init (h : gmap Z node) (fresh : option Z) : option (gmap Z node * mpsc_fifo) :=
  n ← fresh; Some (<[n:=Node 0 NULL]> h, Fifo n n).

Definition spsc_fifo_push (s : spsc_shared) (pc : spsc_pc) : option (spsc_shared * spsc_pc * list fifo_ev) :=
  let '(SpShared (MShared h f o k) p) := s in
  match pc with
  | SpPushInit n => h' ← store_next h n NULL; Some (SpShared (MShared h' f o k) p, SpPushTail n, [])
  | SpPushTail n => Some (s, SpPushStore (f_tail f) n, [])
  | SpPushStore prev n =>
      d ← load_data h n;
      Some (SpShared (MShared h (Fifo (f_head f) n) o k) p, SpPushLink prev n, [FEnq d])
  | SpPushLink prev n => h' ← store_next h prev n; Some (SpShared (MShared h' f o k) None, SpIdle, [])
  | _ => None
  end.

Definition spsc_fifo_trypop (s : spsc_shared) (pc : spsc_pc) : option (spsc_shared * spsc_pc * list fifo_ev) :=
  let '(SpShared (MShared h f o k) p) := s in
  match pc with
  | SpPopHead => Some (s, SpPopNext (f_head f), [])
  | SpPopNext ph =>
      nx ← load_next h ph;
      if decide (nx = NULL) then Some (s, SpPopDone NULL, [FEmpty]) else Some (s, SpPopStore ph nx, [])
  | SpPopStore ph nx => Some (SpShared (MShared h (Fifo nx (f_tail f)) o k) p, SpPopLoad ph nx, [])
  | SpPopLoad ph nx => d ← load_data h nx; Some (s, SpPopWrite ph nx d, [])
  | SpPopWrite ph nx d => h' ← store_data h ph d; Some (SpShared (MShared h' f o k) p, SpPopDone ph, [FDeq d])
  | _ => None
  end.

(** [spsc_fifo_destroy]: free the nodes from the head on. *)
Fixpoint spsc_fifo_destroy (fuel : nat) (h : gmap Z node) (hd : Z) : option (gmap Z node) :=
  match fuel with
  | O => None
  | S fuel =>
      if decide (hd = NULL) then Some h
      else nx ← load_next h hd; spsc_fifo_destroy fuel (delete hd h) nx
  end.

(** One thread at a time pushes and one at a time pops. *)
Definition spsc_tstep (t : nat) (ch : spsc_choice) (s : spsc_shared) (pc : spsc_pc)
    : option (spsc_shared * spsc_pc * list fifo_ev) :=
  let '(SpShared (MShared h f o k) p) := s in
  match ch, pc with
  | SpCallPush n d, SpIdle =>
      if decide (n ∈ o /\ p = None)
      then h' ← store_data h n d; Some (SpShared (MShared h' f (o ∖ {[n]}) k) (Some t), SpPushInit n, [])
      else None
  | SpCallPop, SpIdle =>
      match k with None => Some (SpShared (MShared h f o (Some t)) p, SpPopHead, []) | Some _ => None end
  | SpGo, (SpPushInit _ | SpPushTail _ | SpPushStore _ _ | SpPushLink _ _) => spsc_fifo_push s pc
  | SpGo, (SpPopHead | SpPopNext _ | SpPopStore _ _ | SpPopLoad _ _ | SpPopWrite _ _ _) => spsc_fifo_trypop s pc
  | SpReturn, SpPopDone r =>
      Some (SpShared (MShared h f (if decide (r = NULL) then o else {[r]} ∪ o) None) p, SpIdle, [])
  | _, _ => None
  end.

Definition spsc_conf := conf spsc_shared spsc_pc.
Definition spsc_step := conf_step spsc_tstep.
Definition spsc_init (m n : nat) : spsc_conf :=
  Conf (SpShared (shared (mpsc_init m n)) None) (replicate n SpIdle).

(** ** The correspondence with the multi-producer queue *)

Definition as_mpsc (pc : spsc_pc) : mpsc_pc :=
  match pc with
  | SpIdle => MIdle
  | SpPushInit n => MPushInit n
  | SpPushTail n | SpPushStore _ n => MPushXchg n
  | SpPushLink p n => MPushLink p n
  | SpPopHead => MPopHead
  | SpPopNext h => MPopNext h
  | SpPopStore h x => MPopStore h x
  | SpPopLoad h x => MPopLoad h x
  | SpPopWrite h x d => MPopWrite h x d
  | SpPopDone r => MPopDone r
  end.

Definition as_mpsc_conf (c : spsc_conf) : mpsc_conf := Conf (sp_fifo (shared c)) (as_mpsc <$> threads c).

Definition pushing (pc : spsc_pc) : bool :=
  match pc with SpPushInit _ | SpPushTail _ | SpPushStore _ _ | SpPushLink _ _ => true | _ => false end.

(** The tail a producer has read is the tail until it writes it. *)
Record spsc_inv (c : spsc_conf) : Prop := {
  si_producer : forall t pc, threads c !! t = Some pc -> pushing pc = true -> sp_producer (shared c) = Some t;
  si_tail : forall t prev n, threads c !! t = Some (SpPushStore prev n) -> prev = f_tail (m_fifo (sp_fifo (shared c)))
}.

(** The steps of the multi-producer queue a step corresponds to. *)
Definition as_label (lbl : nat * spsc_choice) (pc : spsc_pc) : list (nat * mpsc_choice) :=
  match pc, lbl.2 with
  | SpPushTail _, _ => []
  | _, SpCallPush n d => [(lbl.1, MCallPush n d)]
  | _, SpCallPop => [(lbl.1, MCallPop)]
  | _, SpGo => [(lbl.1, MGo)]
  | _, SpReturn => [(lbl.1, MReturn)]
  end.

Lemma as_mpsc_tstep t ch s pc s' pc' evs : (forall n, pc <> SpPushTail n) ->
  (forall prev n, pc = SpPushStore prev n -> prev = f_tail (m_fifo (sp_fifo s))) ->
  spsc_tstep t ch s pc = Some (s', pc', evs) ->
  exists ch', as_label (t, ch) pc = [(t, ch')] /\
    mpsc_tstep t ch' (sp_fifo s) (as_mpsc pc) = Some (sp_fifo s', as_mpsc pc', evs).
Proof.
  intros Hnt Htl Hs. destruct s as [[h f o k] p].
  destruct ch, pc; cbn [spsc_tstep spsc_fifo_push spsc_fifo_trypop] in Hs; try discriminate Hs;
    try (by destruct (Hnt new_node)); eexists; (split; [reflexivity|]); simpl in *.
  - case_decide as E; [|done]. destruct E as [E _]. rewrite decide_True by done.
    destruct (store_data _ _ _); by simplify_eq/=.
  - destruct k; by simplify_eq/=.
  - destruct (store_next _ _ _); by simplify_eq/=.
  - rewrite (Htl _ _ eq_refl) in Hs. destruct (load_data _ _); by simplify_eq/=.
  - destruct (store_next _ _ _); by simplify_eq/=.
  - by simplify_eq/=.
  - destruct (load_next _ _); simplify_eq/=. case_decide; by simplify_eq/=.
  - by simplify_eq/=.
  - destruct (load_data _ _); by simplify_eq/=.
  - destruct (store_data _ _ _); by simplify_eq/=.
  - by simplify_eq/=.
Qed.

(** Case analysis on one step of the queue. *)
Ltac spsc_cases Hs :=
  cbn [spsc_tstep spsc_fifo_push spsc_fifo_trypop] in Hs; try discriminate Hs;
  repeat (case_match || apply bind_Some in Hs as (? & ? & Hs)); simplify_eq/=.

Lemma spsc_inv_step lbl c c' evs : spsc_inv c -> spsc_step lbl c = Some (c', evs) -> spsc_inv c'.
Proof.
  destruct lbl as [t ch]. intros HI Hstep. apply conf_step_inv in Hstep as (pc & s' & pc' & Ht & Hs & ->).
  assert (forall i p, i <> t -> threads c !! i = Some p -> pushing p = true -> pushing pc = true -> False) as Hone.
  { intros i p Hne Hi Hp Hq. pose proof (si_producer _ HI _ _ Hi Hp). pose proof (si_producer _ HI _ _ Ht Hq). congruence. }
  split; cbn [shared threads].
  - intros i p Hi Hp. apply lookup_insert_cases in Hi as [(-> & ->)|(Hne & Hi)].
    + pose proof (si_producer _ HI _ _ Ht) as Hpr. destruct (shared c) as [[h f o k] pr]. simpl in Hpr.
      destruct ch, pc; spsc_cases Hs; auto.
    + pose proof (si_producer _ HI _ _ Hi Hp) as Hpr. pose proof (fun Hq => Hone i p Hne Hi Hp Hq) as Hno.
      destruct (shared c) as [[h f o k] pr]. simpl in Hpr. subst pr.
      destruct ch, pc; spsc_cases Hs; try done; naive_solver.
  - intros i prev n Hi. apply lookup_insert_cases in Hi as [(-> & E)|(Hne & Hi)].
    + destruct (shared c) as [[h f o k] pr].
      destruct ch, pc; spsc_cases Hs; done.
    + pose proof (si_tail _ HI _ _ _ Hi) as Htl. pose proof (fun Hq => Hone i _ Hne Hi eq_refl Hq) as Hno.
      destruct (shared c) as [[h f o k] pr]. simpl in Htl.
      destruct ch, pc; spsc_cases Hs; try done; naive_solver.
Qed.

Lemma spsc_simulation lbl c c' evs : spsc_inv c -> spsc_step lbl c = Some (c', evs) ->
  exists ls, run mpsc_step ls (as_mpsc_conf c) = Some (as_mpsc_conf c', evs).
Proof.
  destruct lbl as [t ch]. intros HI Hstep. apply conf_step_inv in Hstep as (pc & s' & pc' & Ht & Hs & ->).
  assert ((exists n, pc = SpPushTail n) \/ forall n, pc <> SpPushTail n) as [[n ->]|Hnt] by (destruct pc; eauto; by right).
  - exists []. unfold as_mpsc_conf. cbn [shared threads].
    assert (sp_fifo s' = sp_fifo (shared c) /\ as_mpsc pc' = MPushXchg n /\ evs = []) as (-> & E & ->).
    { destruct (shared c) as [[h f o k] p]. destruct ch; by simplify_eq/=. }
    rewrite list_fmap_insert, E. rewrite (list_insert_id (as_mpsc <$> threads c)); [done|].
    by rewrite list_lookup_fmap, Ht.
  - edestruct (as_mpsc_tstep t ch (shared c) pc) as (ch' & _ & Hm); [exact Hnt| |exact Hs|].
    { intros prev n ->. by apply (si_tail _ HI t prev n). }
    exists [(t, ch')]. cbn [run]. unfold mpsc_step, conf_step, as_mpsc_conf. cbn [fst snd shared threads].
    rewrite list_lookup_fmap, Ht. cbn [fmap option_fmap option_map mbind option_bind]. rewrite Hm. simpl.
    by rewrite list_fmap_insert, app_nil_r.
Qed.

Lemma spsc_run_sim ls : forall c c' evs, spsc_inv c -> run spsc_step ls c = Some (c', evs) ->
  exists ls', run mpsc_step ls' (as_mpsc_conf c) = Some (as_mpsc_conf c', evs).
Proof.
  induction ls as [|l ls IH]; intros c c' evs HI Hrun.
  - simpl in Hrun. simplify_eq. by exists [].
  - apply run_cons_inv in Hrun as (c1 & e1 & e2 & Hs & Hr & ->).
    destruct (spsc_simulation _ _ _ _ HI Hs) as (l1 & H1).
    destruct (IH _ _ _ (spsc_inv_step _ _ _ _ HI Hs) Hr) as (l2 & H2).
    exists (l1 ++ l2). by eapply run_app_intro.
Qed.

Lemma as_mpsc_init m n : spsc_inv (spsc_init m n) /\ as_mpsc_conf (spsc_init m n) = mpsc_init m n.
Proof.
  split.
  - split; [by intros t pc [-> _]%lookup_replicate|by intros t prev k [? _]%lookup_replicate].
  - unfold as_mpsc_conf, spsc_init, mpsc_init. simpl. by rewrite fmap_replicate.
Qed.

(** ** Properties *)

(** C32: Equivalence with the multi-producer queue.  With one thread at a time
    pushing and one at a time popping, in any interleaving, every run of
    [spsc_fifo.h] has the events and the final state of a run of [mpsc_fifo.h]:
    reading and writing the tail separately is as good as exchanging it.  So
    elements leave in the order they were pushed, each once. *)
Theorem spsc_is_mpsc m n ls c evs : run spsc_step ls (spsc_init m n) = Some (c, evs) ->
  (exists ls', run mpsc_step ls' (mpsc_init m n) = Some (Conf (sp_fifo (shared c)) (as_mpsc <$> threads c), evs)) /\
  exists q, spec_run fifo_spec evs [] = Some q.
Proof.
  intros Hrun. destruct (as_mpsc_init m n) as [HI Ei].
  destruct (spsc_run_sim _ _ _ _ HI Hrun) as (ls' & Hr). rewrite Ei in Hr. split; [by exists ls'|].
  destruct (mpsc_run_rel _ _ _ _ _ Hr) as (q & _ & Hq & _). by exists q.
Qed.

(** Destroying the queue is what it is for the multi-producer queue. *)
Lemma spsc_destroy_is_mpsc fuel : forall h hd, spsc_fifo_destroy fuel h hd = mpsc_fifo_destroy fuel h hd.
Proof.
  induction fuel as [|fuel IH]; intros h hd; [done|]. simpl. case_decide; [done|].
  destruct (load_next h hd); [apply IH|done].
Qed.

(** Thread 0 pushes two elements while thread 1 pops; the first pop falls
    between the write of the tail and the link. *)
Definition spsc_demo : list (nat * spsc_choice) :=
  [(0%nat, SpCallPush 2 70)] ++ replicate 3 (0%nat, SpGo) ++ [(1%nat, SpCallPop); (1%nat, SpGo); (1%nat, SpGo); (1%nat, SpReturn);
   (0%nat, SpGo); (0%nat, SpCallPush 3 71)] ++ replicate 4 (0%nat, SpGo) ++ [(1%nat, SpCallPop)] ++ replicate 5 (1%nat, SpGo).

Lemma spsc_is_mpsc_witness : exists c,
  run spsc_step spsc_demo (spsc_init 2 2) = Some (c, [FEnq 70; FEmpty; FEnq 71; FDeq 70]) /\
  (exists ls', run mpsc_step ls' (mpsc_init 2 2) =
     Some (Conf (sp_fifo (shared c)) (as_mpsc <$> threads c), [FEnq 70; FEmpty; FEnq 71; FDeq 70])) /\
  exists q, spec_run fifo_spec [FEnq 70; FEmpty; FEnq 71; FDeq 70] [] = Some q.
Proof.
  eexists. split; [vm_compute; reflexivity|]. apply (spsc_is_mpsc 2 2 spsc_demo). vm_compute. reflexivity.
Defined.
