(* ===== verification/RelaxedFifo.v ===== *)
(** * The relaxed multi-producer FIFO ([include/mpsc_relaxed_fifo.h])

    One single-producer FIFO per producer; the consumer looks at them in turn.
    The FIFOs are the queues that [SpscFifo] shows [spsc_fifo.h] to be: a push
    enters its item and completes it later, a pop takes the oldest item if it is
    complete. *)

From S2P Require Import Prelude.

(** ** State *)

(** An item of a FIFO, with the flag saying that its push has completed. *)
Abbreviation fifo := (list (Z * bool)).

(** [mpscr_fifo_t]; [x_busy] are the producers inside a push, each used by one
    thread at a time. *)
Record mpscr := Mpscr { x_counter : Z; x_num : Z; x_fifos : list fifo; x_busy : gset nat }.

(** Thread 0 is the consumer. *)
Inductive mpscr_pc :=
| XIdle
| XPush (producer : nat) (item : Z)
| XLink (producer : nat) (item : Z)
| XProbe (i : Z).                       (* an iteration of the loop of trypop *)

Inductive mpscr_choice := XCallPush (producer : nat) (item : Z) | XCallPop | XGo.

Inductive mpscr_ev := EvIn (producer : nat) (item : Z) | EvOut (producer : nat) (item : Z) | EvNull.

(** ** Operations *)

(** The loop of [mpscr_fifo_create] from FIFO [i] on: [allocs] says which
    [spsc_fifo_init] succeed.  The second component lists the FIFOs destroyed
    when one fails. *)
Fixpoint create_fifos (n : nat) (i : nat) (allocs : nat -> bool) : option (list fifo) * list nat :=
  match n with
  | O => (Some [], [])
  | S n =>
      if allocs i then
        let '(rest, destroyed) := create_fifos n (S i) allocs in
        (option_map (cons []) rest, destroyed)
      else (None, seq 0 i)
  end.

(** [block]: the allocation of the structure succeeds. *)
Definition mpscr_fifo_create (block : bool) (num_producers : nat) (allocs : nat -> bool) : option (option mpscr * list nat) :=
  if decide (0 < num_producers)%nat then
    if block then
      let '(fifos, destroyed) := create_fifos num_producers 0 allocs in
      Some (option_map (fun fs => Mpscr 0 (Z.of_nat num_producers) fs ∅) fifos, destroyed)
    else Some (None, [])
  else None (* the assert *).

(** The FIFOs that [mpscr_fifo_destroy] destroys. *)
Definition mpscr_fifo_destroy (s : mpscr) : list fifo := x_fifos s.

Definition set_fifos (s : mpscr) (fs : list fifo) : mpscr := Mpscr (x_counter s) (x_num s) fs (x_busy s).
Definition set_busy (s : mpscr) (b : gset nat) : mpscr := Mpscr (x_counter s) (x_num s) (x_fifos s) b.

(** Marks the item complete. *)
Definition complete (item : Z) (f : fifo) : fifo := (fun e => if decide (e = (item, false)) then (item, true) else e) <$> f.

Definition mpscr_fifo_push (s : mpscr) (pc : mpscr_pc) : option (mpscr * mpscr_pc * list mpscr_ev) :=
  match pc with
  | XPush producer_number new_node =>
      let index := Z.of_nat producer_number mod x_num s in
      f ← x_fifos s !! Z.to_nat index;
      Some (set_fifos s (<[Z.to_nat index:=f ++ [(new_node, false)]]> (x_fifos s)), XLink producer_number new_node,
            [EvIn producer_number new_node])
  | XLink producer_number new_node =>
      let index := Z.of_nat producer_number mod x_num s in
      f ← x_fifos s !! Z.to_nat index;
      Some (Mpscr (x_counter s) (x_num s) (<[Z.to_nat index:=complete new_node f]> (x_fifos s)) (x_busy s ∖ {[producer_number]}), XIdle, [])
  | _ => None
  end.

Definition mpscr_fifo_trypop (s : mpscr) (pc : mpscr_pc) : option (mpscr * mpscr_pc * list mpscr_ev) :=
  match pc with
  | XProbe i =>
      if Z.ltb i (x_num s) then
        let index := x_counter s mod x_num s in
        let counter := u64 (x_counter s + 1) in
        f ← x_fifos s !! Z.to_nat index;
        match f with
        | (out, true) :: rest =>
            Some (Mpscr counter (x_num s) (<[Z.to_nat index:=rest]> (x_fifos s)) (x_busy s), XIdle, [EvOut (Z.to_nat index) out])
        | _ => Some (Mpscr counter (x_num s) (x_fifos s) (x_busy s), XProbe (i + 1), [])
        end
      else Some (s, XIdle, [EvNull])
  | _ => None
  end.

Definition mpscr_tstep (t : nat) (ch : mpscr_choice) (s : mpscr) (pc : mpscr_pc) : option (mpscr * mpscr_pc * list mpscr_ev) :=
  match ch, pc with
  | XCallPush p item, XIdle =>
      if decide (Z.of_nat p < x_num s /\ (p ∉ x_busy s) /\ t <> 0%nat) then Some (set_busy s ({[p]} ∪ x_busy s), XPush p item, []) else None
  | XCallPop, XIdle => if decide (t = 0%nat) then Some (s, XProbe 0, []) else None
  | XGo, (XPush _ _ | XLink _ _) => mpscr_fifo_push s pc
  | XGo, XProbe _ => mpscr_fifo_trypop s pc
  | _, _ => None
  end.

Definition mpscr_conf := conf mpscr mpscr_pc.
Definition mpscr_step := conf_step mpscr_tstep.
Definition mpscr_init (m n : nat) : mpscr_conf := Conf (Mpscr 0 (Z.of_nat m) (replicate m []) ∅) (replicate n XIdle).

(** One FIFO queue per producer. *)
Definition mpscr_spec (e : mpscr_ev) (qs : list (list Z)) : option (list (list Z)) :=
  match e with
  | EvIn p item => q ← qs !! p; Some (<[p:=q ++ [item]]> qs)
  | EvOut p item =>
      match qs !! p with
      | Some (x :: q) => if Z.eqb item x then Some (<[p:=q]> qs) else None
      | _ => None
      end
  | EvNull => Some qs
  end.

(** ** Creation *)

Lemma create_fifos_spec n : forall i allocs,
  (forall j, i <= j < i + n -> allocs j = true)%nat /\ create_fifos n i allocs = (Some (replicate n []), []) \/
  exists k, (i <= k < i + n)%nat /\ allocs k = false /\ (forall j, (i <= j < k)%nat -> allocs j = true) /\
    create_fifos n i allocs = (None, seq 0 k).
Proof.
  induction n as [|n IH]; intros i allocs; simpl; [left; split; [lia|done]|].
  destruct (allocs i) eqn:E; [|right; exists i; split_and!; auto; lia].
  destruct (IH (S i) allocs) as [(Hall & ->)|(k & Hk & Hf & Hb & ->)]; simpl; [left|right].
  - split; [|done]. intros j Hj. destruct (decide (j = i)) as [->|]; [done|]. apply Hall. lia.
  - exists k. split_and!; auto; try lia. intros j Hj. destruct (decide (j = i)) as [->|]; [done|]. apply Hb. lia.
Qed.

(** ** Invariant *)

Record mpscr_rel (k : Z) (c : mpscr_conf) (qs : list (list Z)) : Prop := {
  xr_num : 0 < x_num (shared c) < 2 ^ 64;
  xr_len : Z.of_nat (length (x_fifos (shared c))) = x_num (shared c);
  xr_queues : qs = (fun f : fifo => f.*1) <$> x_fifos (shared c);
  xr_counter : 0 <= x_counter (shared c) <= k;
  xr_producers : forall t p m, threads c !! t = Some (XPush p m) \/ threads c !! t = Some (XLink p m) -> Z.of_nat p < x_num (shared c);
  xr_one : forall t i, threads c !! t = Some (XProbe i) -> t = 0%nat
}.

Lemma complete_fst item f : (complete item f).*1 = f.*1.
Proof. unfold complete. rewrite <- list_fmap_compose. apply list_fmap_ext. intros _ [a b] _. simpl. case_decide; by simplify_eq/=. Qed.

(** ** Preservation *)

Lemma mpscr_rel_step k c qs t pc s' pc' qs' : mpscr_rel k c qs -> threads c !! t = Some pc ->
  x_num s' = x_num (shared c) -> length (x_fifos s') = length (x_fifos (shared c)) ->
  qs' = (fun f : fifo => f.*1) <$> x_fifos s' -> 0 <= x_counter s' <= k + 1 ->
  (forall p m, pc' = XPush p m \/ pc' = XLink p m -> Z.of_nat p < x_num (shared c)) ->
  (forall i, pc' = XProbe i -> t = 0%nat) ->
  mpscr_rel (k + 1) (Conf s' (<[t:=pc']> (threads c))) qs'.
Proof.
  intros HR Ht E1 E2 Hq Hc Hp H1. split; cbn [shared threads]; rewrite ?E1, ?E2; auto; try apply HR; cycle 1.
  { intros i j Hi. apply lookup_insert_cases in Hi as [(-> & <-)|(_ & Hi)]; [by apply (H1 j)|by apply (xr_one _ _ _ HR i j)]. }
  intros i p m Hi. destruct (decide (i = t)) as [->|Hne].
  - rewrite list_lookup_insert_eq in Hi by (by eapply lookup_lt_Some). apply (Hp p m). destruct Hi as [[= ->]|[= ->]]; auto.
  - rewrite list_lookup_insert_ne in Hi by done. by apply (xr_producers _ _ _ HR i p m).
Qed.

(** The FIFO a producer number or the counter selects. *)
Lemma mpscr_index k c qs v : mpscr_rel k c qs -> exists f, x_fifos (shared c) !! Z.to_nat (v mod x_num (shared c)) = Some f /\
  qs !! Z.to_nat (v mod x_num (shared c)) = Some f.*1.
Proof.
  intros HR. pose proof (xr_num _ _ _ HR). pose proof (xr_len _ _ _ HR).
  destruct (lookup_lt_is_Some_2 (x_fifos (shared c)) (Z.to_nat (v mod x_num (shared c)))) as [f Hf].
  - pose proof (Z.mod_pos_bound v (x_num (shared c)) ltac:(lia)). lia.
  - exists f. split; [done|]. rewrite (xr_queues _ _ _ HR), list_lookup_fmap, Hf. done.
Qed.

Lemma mpscr_simulation k lbl c c' evs qs : k + 1 < 2 ^ 64 -> mpscr_rel k c qs -> mpscr_step lbl c = Some (c', evs) ->
  exists qs', spec_run mpscr_spec evs qs = Some qs' /\ mpscr_rel (k + 1) c' qs'.
Proof.
  destruct lbl as [t ch]. intros Hk HR Hstep. apply conf_step_inv in Hstep as (pc & s' & pc' & Ht & Hs & ->).
  pose proof (xr_counter _ _ _ HR) as Hc. pose proof (xr_num _ _ _ HR) as Hn. pose proof (xr_queues _ _ _ HR) as Hq.
  destruct ch as [p m| |], pc as [|p1 m1|p1 m1|i]; try discriminate Hs; cbn [mpscr_tstep mpscr_fifo_push mpscr_fifo_trypop] in Hs.
  - case_decide as Hp; [|done]. injection Hs as <- <- <-. exists qs. split; [done|].
    eapply mpscr_rel_step; [exact HR|exact Ht|done|done|done|simpl; lia| |done]. intros p1 m1 [[= <- <-]|?]; [tauto|done].
  - case_decide as Hp; [|done]. injection Hs as <- <- <-. exists qs. split; [done|].
    eapply mpscr_rel_step; [exact HR|exact Ht|done|done|done|simpl; lia|by intros p1 m1 [|]|done].
  - pose proof (xr_producers _ _ _ HR t p1 m1 ltac:(auto)) as Hp. destruct (mpscr_index _ _ _ (Z.of_nat p1) HR) as (f & Hf & Hqf).
    rewrite Hf in Hs. injection Hs as <- <- <-. rewrite Z.mod_small in * by lia. rewrite Nat2Z.id in *.
    exists (<[p1:=f.*1 ++ [m1]]> qs). split; [simpl; by rewrite Hqf|].
    eapply mpscr_rel_step; [exact HR|exact Ht|done|simpl; by rewrite length_insert| |simpl; lia| |done].
    + simpl. rewrite list_fmap_insert, Hq. by rewrite fmap_app.
    + intros p m [|[= <- <-]]; done.
  - pose proof (xr_producers _ _ _ HR t p1 m1 ltac:(auto)) as Hp. destruct (mpscr_index _ _ _ (Z.of_nat p1) HR) as (f & Hf & Hqf).
    rewrite Hf in Hs. injection Hs as <- <- <-. rewrite Z.mod_small in * by lia. rewrite Nat2Z.id in *.
    exists qs. split; [done|]. eapply mpscr_rel_step; [exact HR|exact Ht|done|simpl; by rewrite length_insert| |simpl; lia|by intros p m [|]|done].
    simpl. rewrite list_fmap_insert, complete_fst, <- Hq. by rewrite list_insert_id.
  - destruct (Z.ltb i (x_num (shared c))); [|injection Hs as <- <- <-; exists qs; split; [done|];
      eapply mpscr_rel_step; [exact HR|exact Ht|done|done|done|simpl; lia|by intros p m [|]|done]].
    destruct (mpscr_index _ _ _ (x_counter (shared c)) HR) as (f & Hf & Hqf). rewrite Hf in Hs. simpl in Hs.
    rewrite u64_small in Hs by lia. destruct f as [|[out []] rest]; injection Hs as <- <- <-.
    + exists qs. split; [done|]. eapply mpscr_rel_step; [exact HR|exact Ht|done|done|done|simpl; lia|by intros p m [|]|].
      intros _ _. by apply (xr_one _ _ _ HR t i).
    + eexists (<[_:=rest.*1]> qs). split; [simpl; rewrite Hqf; simpl; by rewrite Z.eqb_refl|].
      eapply mpscr_rel_step; [exact HR|exact Ht|done|simpl; by rewrite length_insert| |simpl; lia|by intros p m [|]|done].
      simpl. by rewrite list_fmap_insert, Hq.
    + exists qs. split; [done|]. eapply mpscr_rel_step; [exact HR|exact Ht|done|done|done|simpl; lia|by intros p m [|]|].
      intros _ _. by apply (xr_one _ _ _ HR t i).
Qed.

Lemma mpscr_init_rel m n : (0 < m)%nat -> Z.of_nat m < 2 ^ 64 -> mpscr_rel 0 (mpscr_init m n) (replicate m []).
Proof.
  intros Hm Hb. split; cbn [mpscr_init shared threads x_num x_fifos x_counter]; try lia.
  - by rewrite length_replicate.
  - by rewrite fmap_replicate.
  - intros t p v [[? _]%lookup_replicate|[? _]%lookup_replicate]; done.
  - by intros t i [? _]%lookup_replicate.
Qed.

Lemma mpscr_run_rel m n ls c evs : (0 < m)%nat -> Z.of_nat m < 2 ^ 64 -> Z.of_nat (length ls) < 2 ^ 64 ->
  run mpscr_step ls (mpscr_init m n) = Some (c, evs) ->
  exists qs, spec_run mpscr_spec evs (replicate m []) = Some qs /\ mpscr_rel (Z.of_nat (length ls)) c qs.
Proof.
  intros Hm Hb Hl Hrun.
  destruct (run_simulation mpscr_step mpscr_spec (2 ^ 64) mpscr_rel)
    with (ls := ls) (n := 0) (s := mpscr_init m n) (s' := c) (evs := evs) (a := replicate m (@nil Z))
    as (q & Hq & HR); eauto using mpscr_init_rel.
  intros k l s1 s2 e a Hk HR Hs. by apply (mpscr_simulation k l s1 s2 e a).
Qed.

Lemma mpscr_num_const lbl c c' evs : mpscr_step lbl c = Some (c', evs) -> x_num (shared c') = x_num (shared c).
Proof.
  destruct lbl as [t ch]. intros Hstep. apply conf_step_inv in Hstep as (pc & s' & pc' & Ht & Hs & ->). simpl.
  destruct ch, pc; try discriminate Hs; simpl in Hs; repeat case_match; simplify_eq/=; try done;
    destruct (x_fifos (shared c) !! _) as [f|]; simplify_eq/=; try done; repeat case_match; by simplify_eq/=.
Qed.

(** ** Turns *)

Definition is_pop (e : mpscr_ev) : bool := match e with EvIn _ _ => false | _ => true end.
Definition pops (evs : list mpscr_ev) : Z := Z.of_nat (length (filter (fun e => is_pop e = true) evs)).

Lemma pops_app e1 e2 : pops (e1 ++ e2) = pops e1 + pops e2.
Proof. unfold pops. rewrite filter_app, length_app. lia. Qed.

(** The probes of the pop under way. *)
Definition probes (pc : mpscr_pc) : Z := match pc with XProbe i => i | _ => 0 end.

(** Since the counter was [k0]: the item [m] of producer [p] is out, or it is
    still the first of its FIFO, whose turn has not come, and every completed pop
    has cost a probe. *)
Definition waits_turn (k0 : Z) (p : nat) (m : Z) (c : mpscr_conf) (evs : list mpscr_ev) : Prop :=
  EvOut p m ∈ evs \/
  ((exists rest, x_fifos (shared c) !! p = Some ((m, true) :: rest)) /\
   (forall v, k0 <= v < x_counter (shared c) -> v mod x_num (shared c) <> Z.of_nat p) /\
   exists pc, threads c !! 0%nat = Some pc /\ (forall p m, pc <> XPush p m /\ pc <> XLink p m) /\
     0 <= probes pc /\ pops evs <= x_counter (shared c) - k0 - probes pc).

Lemma complete_cons item m rest : complete item ((m, true) :: rest) = (m, true) :: complete item rest.
Proof. unfold complete. csimpl. case_decide; [done|done]. Qed.

(** A step of a producer. *)
Lemma waits_turn_push k k0 p m c qs t pc s' pc' evs e : mpscr_rel k c qs -> waits_turn k0 p m c evs -> threads c !! t = Some pc ->
  (forall p m, pc = XPush p m \/ pc = XLink p m -> Z.of_nat p < x_num (shared c)) ->
  mpscr_fifo_push (shared c) pc = Some (s', pc', e) -> waits_turn k0 p m (Conf s' (<[t:=pc']> (threads c))) (evs ++ e).
Proof.
  intros HR [Hin|((rest & Hf) & Hv & pc0 & Ht0 & Hnp & Hpr & Hp)] Ht Hlt Hs; [left; set_solver|right].
  assert (exists f p1 rest', x_fifos (shared c) !! p1 = Some f /\ x_fifos s' = <[p1:=rest']> (x_fifos (shared c)) /\
    x_counter s' = x_counter (shared c) /\ x_num s' = x_num (shared c) /\ pops e = 0 /\
    (forall r, f = (m, true) :: r -> exists r', rest' = (m, true) :: r')) as (f & p1 & rest' & Hf1 & E1 & E2 & E3 & E4 & Hhd).
  { destruct pc as [|p1 m1|p1 m1|i]; try discriminate Hs; cbn [mpscr_fifo_push] in Hs;
      (destruct (mpscr_index _ _ _ (Z.of_nat p1) HR) as (f & E & _)); rewrite E in Hs; injection Hs as <- <- <-; simpl;
      (eexists f, _, _; split_and!; [exact E|done|done|done|done|]); intros r ->; [|rewrite complete_cons]; eauto. }
  rewrite pops_app, E4, Z.add_0_r. cbn [shared threads]. rewrite E1, E2, E3. split; [|split; [done|]].
  - destruct (decide (p = p1)) as [<-|Hne]; [|rewrite list_lookup_insert_ne by done; eauto].
    rewrite list_lookup_insert_eq by (by eapply lookup_lt_Some). rewrite Hf in Hf1. injection Hf1 as <-.
    destruct (Hhd rest eq_refl) as [r' ->]. eauto.
  - exists pc0. split; [|done]. rewrite list_lookup_insert_ne; [done|]. intros ->. assert (pc0 = pc) as -> by congruence.
    destruct pc as [|p2 m2|p2 m2|]; try discriminate Hs; destruct (Hnp p2 m2); done.
Qed.

(** A probe. *)
Lemma waits_turn_probe k k0 p m c qs i s' pc' evs e : k + 1 < 2 ^ 64 -> mpscr_rel k c qs -> k0 <= x_counter (shared c) ->
  waits_turn k0 p m c evs -> threads c !! 0%nat = Some (XProbe i) ->
  mpscr_fifo_trypop (shared c) (XProbe i) = Some (s', pc', e) -> waits_turn k0 p m (Conf s' (<[0%nat:=pc']> (threads c))) (evs ++ e).
Proof.
  intros Hk HR Hk0 [Hin|((rest & Hf) & Hv & pc0 & Ht0 & Hnp & Hpr & Hp)] Ht Hs; [left; set_solver|].
  rewrite Ht in Ht0. injection Ht0 as <-. simpl in Hpr, Hp. pose proof (xr_num _ _ _ HR) as Hn. pose proof (xr_counter _ _ _ HR).
  cbn [mpscr_fifo_trypop] in Hs. destruct (Z.ltb_spec i (x_num (shared c))) as [Hi|Hi].
  - destruct (mpscr_index _ _ _ (x_counter (shared c)) HR) as (f & Hfi & _). rewrite Hfi in Hs. simpl in Hs. rewrite u64_small in Hs by lia.
    pose proof (Z.mod_pos_bound (x_counter (shared c)) (x_num (shared c)) ltac:(lia)) as Hmod.
    destruct (decide (Z.to_nat (x_counter (shared c) mod x_num (shared c)) = p)) as [E|Hne].
    + rewrite E, Hf in Hfi. injection Hfi as <-. injection Hs as <- <- <-. left. rewrite E. set_solver.
    + right. assert (forall v, k0 <= v < x_counter (shared c) + 1 -> v mod x_num (shared c) <> Z.of_nat p) as Hv'.
      { intros v Hvr. destruct (decide (v = x_counter (shared c))) as [->|]; [lia|]. apply Hv. lia. }
      destruct f as [|[out []] rest1]; injection Hs as <- <- <-; rewrite pops_app; cbn [shared threads x_fifos x_counter x_num];
        (split; [rewrite ?list_lookup_insert_ne by done; eauto|split; [done|]]); eexists;
        (split; [apply list_lookup_insert_eq; by eapply lookup_lt_Some|]); (split; [done|]); split; simpl; change (pops []) with 0;
        rewrite ?Z.add_0_r; try lia; unfold pops in *; simpl; lia.
  - injection Hs as <- <- <-. right. rewrite pops_app. cbn [shared threads]. split; [eauto|]. split; [done|]. exists XIdle.
    split; [apply list_lookup_insert_eq; by eapply lookup_lt_Some|]. split; [done|]. change (pops [EvNull]) with 1. simpl. lia.
Qed.

(** The events so far, as an abstract state. *)
Definition log (e : mpscr_ev) (evs : list mpscr_ev) : option (list mpscr_ev) := Some (evs ++ [e]).

Lemma log_run evs : forall acc, spec_run log evs acc = Some (acc ++ evs).
Proof. induction evs as [|e evs IH]; intros acc; simpl; [by rewrite app_nil_r|]. rewrite IH. by rewrite <- app_assoc. Qed.

Lemma waits_turn_step k0 p m k lbl c c' e evs qs : k + 1 < 2 ^ 64 -> mpscr_rel k c qs -> k0 <= x_counter (shared c) ->
  waits_turn k0 p m c evs -> mpscr_step lbl c = Some (c', e) ->
  k0 <= x_counter (shared c') /\ waits_turn k0 p m c' (evs ++ e).
Proof.
  destruct lbl as [t ch]. intros Hk HR Hk0 Hw Hstep. apply conf_step_inv in Hstep as (pc & s' & pc' & Ht & Hs & ->).
  assert (forall p m, pc = XPush p m \/ pc = XLink p m -> Z.of_nat p < x_num (shared c)) as Hlt
    by (intros p1 m1 Hpc; apply (xr_producers _ _ _ HR t p1 m1); destruct Hpc as [<- | <-]; auto).
  pose proof (xr_counter _ _ _ HR) as Hc.
  destruct ch as [p1 m1| |], pc as [|p2 m2|p2 m2|i]; try discriminate Hs; cbn [mpscr_tstep] in Hs.
  - case_decide as Hd; [|done]. injection Hs as <- <- <-. split; [done|].
    destruct Hw as [Hin|(H1 & H2 & pc0 & Ht0 & H3)]; [left; set_solver|right]. rewrite app_nil_r. split; [done|]. split; [done|].
    exists pc0. split; [|done]. cbn [threads]. rewrite list_lookup_insert_ne; [done|tauto].
  - case_decide as Hd; [|done]. injection Hs as <- <- <-. split; [done|]. subst t.
    destruct Hw as [Hin|(H1 & H2 & pc0 & Ht0 & H3 & H4 & H5)]; [left; set_solver|right]. rewrite app_nil_r. split; [done|]. split; [done|].
    rewrite Ht in Ht0. injection Ht0 as <-. exists (XProbe 0). split; [apply list_lookup_insert_eq; by eapply lookup_lt_Some|].
    split; [done|]. simpl in *. lia.
  - split; [|by eapply waits_turn_push]. cbn [mpscr_fifo_push] in Hs. destruct (mpscr_index _ _ _ (Z.of_nat p2) HR) as (f & E & _).
    rewrite E in Hs. by injection Hs as <- <- <-.
  - split; [|by eapply waits_turn_push]. cbn [mpscr_fifo_push] in Hs. destruct (mpscr_index _ _ _ (Z.of_nat p2) HR) as (f & E & _).
    rewrite E in Hs. by injection Hs as <- <- <-.
  - assert (t = 0%nat) as -> by (by eapply (xr_one _ _ _ HR)). split; [|by eapply waits_turn_probe]. cbn [mpscr_fifo_trypop] in Hs.
    destruct (Z.ltb _ _); [|by injection Hs as <- <- <-]. destruct (mpscr_index _ _ _ (x_counter (shared c)) HR) as (f & E & _).
    rewrite E in Hs. simpl in Hs. rewrite u64_small in Hs by lia. destruct f as [|[out []] rest]; injection Hs as <- <- <-; simpl; lia.
Qed.

(** ** Properties *)

(** Per-producer FIFO.  In every interleaving of the producers with the
    consumer, the items of each producer come out in the order in which it
    pushed them, each once, whatever the order between producers. *)
Theorem relaxed_fifo_per_producer m n ls c evs : (0 < m)%nat -> Z.of_nat m < 2 ^ 64 -> Z.of_nat (length ls) < 2 ^ 64 ->
  run mpscr_step ls (mpscr_init m n) = Some (c, evs) ->
  exists qs, spec_run mpscr_spec evs (replicate m []) = Some qs /\ qs = (fun f : fifo => f.*1) <$> x_fifos (shared c).
Proof.
  intros Hm Hb Hl Hrun. destruct (mpscr_run_rel _ _ _ _ _ Hm Hb Hl Hrun) as (qs & Hq & HR). exists qs. split; [done|apply HR].
Qed.

(** Among as many consecutive counters as there are producers, each has a turn. *)
Lemma turn_comes k0 num p : 0 < num -> 0 <= p < num -> exists v, k0 <= v < k0 + num /\ v mod num = p.
Proof.
  intros Hn Hp. exists (k0 + (p - k0) mod num). pose proof (Z.mod_pos_bound (p - k0) num Hn). split; [lia|].
  rewrite Z.add_mod_idemp_r by lia. replace (k0 + (p - k0)) with p by lia. by apply Z.mod_small.
Qed.

(** No producer is starved.  Once an item is the first of its FIFO and its
    push has completed, it is returned by one of the next [num_producers] pops,
    whatever the other producers push meanwhile. *)
Theorem relaxed_fifo_no_starvation m n ls c evs ls' c' evs' p item rest :
  (0 < m)%nat -> Z.of_nat m < 2 ^ 64 -> Z.of_nat (length ls) + Z.of_nat (length ls') < 2 ^ 64 ->
  run mpscr_step ls (mpscr_init m n) = Some (c, evs) -> threads c !! 0%nat = Some XIdle ->
  x_fifos (shared c) !! p = Some ((item, true) :: rest) ->
  run mpscr_step ls' c = Some (c', evs') -> x_num (shared c) <= pops evs' -> EvOut p item ∈ evs'.
Proof.
  intros Hm Hb Hl Hrun Ht0 Hf Hrun' Hpops. destruct (mpscr_run_rel m n ls c evs Hm Hb ltac:(lia) Hrun) as (qs & _ & HR).
  set (num := x_num (shared c)) in *. set (k0 := x_counter (shared c)).
  destruct (run_simulation mpscr_step log (2 ^ 64)
      (fun k d acc => (exists qs, mpscr_rel k d qs) /\ x_num (shared d) = num /\ k0 <= x_counter (shared d) /\ waits_turn k0 p item d acc))
    with (ls := ls') (n := Z.of_nat (length ls)) (s := c) (s' := c') (evs := evs') (a := @nil mpscr_ev)
    as (acc & Hacc & (qs' & HR') & Hnum & Hk0 & Hw); auto.
  - intros k l d d' e acc Hk ((q1 & HR1) & Hn & Hc & Hw) Hs. exists (acc ++ e). split; [apply log_run|].
    destruct (mpscr_simulation k l d d' e q1 Hk HR1 Hs) as (q2 & _ & HR2).
    destruct (waits_turn_step k0 p item k l d d' e acc q1) as [H1 H2]; auto. split_and!; eauto.
    rewrite <- Hn. by eapply mpscr_num_const.
  - split_and!; [eauto|done|unfold k0; lia|]. right. split; [eauto|]. split; [unfold k0; lia|]. exists XIdle. split; [done|]. split; [done|].
    unfold k0, pops. simpl. lia.
  - rewrite log_run in Hacc. injection Hacc as <-. simpl in Hw. destruct Hw as [?|(_ & Hv & pc & _ & _ & Hpr & Hp)]; [done|]. exfalso.
    pose proof (xr_num _ _ _ HR) as Hn0. fold num in Hn0. pose proof (xr_len _ _ _ HR) as Hlen. apply lookup_lt_Some in Hf. fold num in Hlen.
    destruct (turn_comes k0 num (Z.of_nat p)) as (v & Hvr & Hvm); [lia|lia|]. apply (Hv v); [lia|]. by rewrite Hnum.
Qed.

(** A failed creation leaves nothing behind: when the creation of a FIFO
    fails, exactly the FIFOs created before are destroyed; otherwise all of them
    are there, empty. *)
Theorem relaxed_fifo_create m allocs : (0 < m)%nat ->
  (exists s, mpscr_fifo_create true m allocs = Some (Some s, []) /\ x_fifos s = replicate m [] /\ x_num s = Z.of_nat m) \/
  (exists k, (k < m)%nat /\ allocs k = false /\ (forall j, (j < k)%nat -> allocs j = true) /\
     mpscr_fifo_create true m allocs = Some (None, seq 0 k)).
Proof.
  intros Hm. unfold mpscr_fifo_create. rewrite decide_True by done.
  destruct (create_fifos_spec m 0 allocs) as [(_ & ->)|(k & Hk & Hf & Hb & ->)]; [left|right].
  - eexists. by split.
  - exists k. split_and!; auto; try lia. intros j Hj. apply Hb. lia.
Qed.

(** ** Runs *)

Definition mpscr_demo : list (nat * mpscr_choice) :=
  let push t p item := (t, XCallPush p item) :: replicate 2 (t, XGo) in
  push 1%nat 2%nat 70 ++ push 2%nat 0%nat 80 ++ push 2%nat 0%nat 81.
Definition mpscr_pops : list (nat * mpscr_choice) :=
  [(0%nat, XCallPop); (0%nat, XGo); (0%nat, XCallPop); (0%nat, XGo); (0%nat, XGo); (0%nat, XCallPop); (0%nat, XGo)].

Lemma relaxed_fifo_per_producer_witness : exists qs,
  spec_run mpscr_spec [EvIn 2 70; EvIn 0 80; EvIn 0 81; EvOut 0 80; EvOut 2 70; EvOut 0 81] (replicate 3 []) = Some qs.
Proof.
  edestruct (relaxed_fifo_per_producer 3 3 (mpscr_demo ++ mpscr_pops)) as (qs & Hq & _);
    [lia|vm_compute; reflexivity|vm_compute; reflexivity|vm_compute; reflexivity|]. by exists qs.
Defined.

Lemma relaxed_fifo_no_starvation_witness : EvOut 2 70 ∈ [EvOut 0 80; EvOut 2 70; EvOut 0 81].
Proof.
  eapply (relaxed_fifo_no_starvation 3 3 mpscr_demo _ _ mpscr_pops _ [EvOut 0 80; EvOut 2 70; EvOut 0 81] 2 70);
    [lia|vm_compute; reflexivity|vm_compute; reflexivity|vm_compute; reflexivity|reflexivity|reflexivity|vm_compute; reflexivity|].
  vm_compute. discriminate.
Defined.

Lemma relaxed_fifo_create_witness : exists k, (k < 3)%nat /\ mpscr_fifo_create true 3 (fun j => Nat.ltb j 2) = Some (None, seq 0 k).
Proof.
  destruct (relaxed_fifo_create 3 (fun j => Nat.ltb j 2) ltac:(lia)) as [(s & Hs & _)|(k & Hk & _ & _ & Hc)]; [discriminate|eauto].
Defined.
