(* ===== verification/MpmcFifo.v ===== *)
(** * The multi-producer multi-consumer FIFO ([include/mpmc_fifo.h])

    The nodes are chained from the head by [prev] (here the [nd_next] field of
    the nodes of [MpscFifo]; the [next] field of the C struct is only written,
    and is [p_next]).  A consumer that moves the head retires the old dummy node
    through the hazard pointers.  A retired node is freed when every hazard
    pointer has been read, one at a time and at any time after the retirement,
    without finding the node: the choices [PScan] and [PReclaim], which any thread
    may make at any time.  That a scan is such a sequence of reads is
    [HazardRace.hazard_race_refines].  A freed node leaves the heap, and a push may
    get any address outside the heap, so that every access to a freed node and
    every confusion with a recycled one is visible. *)

From S2P Require Import Prelude MpscFifo.

(** ** State *)

(** [p_hazard]: the two hazard pointers of every thread ([MPMC_HAZARD_COUNT]);
    [p_retired]: the nodes given to [hazard_pointer_free] and not yet freed;
    [p_clear]: for a retired node the hazard pointers (of a thread, the first or
    the second) that were read since without finding it. *)
Record mpmc_shared := PShared {
  p_heap : gmap Z node;
  p_next : gmap Z Z;
  p_fifo : mpsc_fifo;
  p_hazard : list (Z * Z);
  p_retired : list Z;
  p_clear : gmap Z (gset (nat * bool))
}.

Inductive mpmc_pc :=
| PIdle
| PPushInit (new_node : Z)              (* new_node->prev = NULL *)
| PPushTail (new_node : Z)              (* load the tail *)
| PPushUsing (new_node tail : Z)        (* hazard_pointer_using(tail, 0) *)
| PPushCheck (new_node tail : Z)        (* reload the tail *)
| PPushNext (new_node tail : Z)         (* new_node->next = tail *)
| PPushCas (new_node tail : Z)
| PPushLink (tail new_node : Z)         (* tail->prev = new_node *)
| PPushDone                             (* hazard_pointer_done_using(0) *)
| PPopHead                              (* load the head *)
| PPopUsing (head : Z)
| PPopCheck (head : Z)                  (* reload the head *)
| PPopPrev (head : Z)                   (* load head->prev *)
| PPopEmpty                             (* done_using(0), return NULL *)
| PPopUsing1 (head prev : Z)
| PPopCheck1 (head prev : Z)            (* reload the head *)
| PPopValue (head prev : Z)             (* load prev->value *)
| PPopCas (head prev ret : Z)
| PPopDone (head ret : Z)               (* done_using(0) *)
| PPopDone1 (head ret : Z)              (* done_using(1) *)
| PPopFree (head ret : Z).              (* hazard_pointer_free(head), return ret *)

Inductive mpmc_choice :=
| PCallPush (new_node value : Z) | PCallPop | PGo (spurious : bool) | PScan (n : Z) (i : nat) (second : bool) | PReclaim (n : Z).

(** ** Operations *)

Definition using0 (t : nat) (x : Z) (hz : list (Z * Z)) : list (Z * Z) := alter (fun s => (x, s.2)) t hz.
Definition using1 (t : nat) (x : Z) (hz : list (Z * Z)) : list (Z * Z) := alter (fun s => (s.1, x)) t hz.
Definition slot_of (hz : list (Z * Z)) (i : nat) (second : bool) : option Z :=
  s ← hz !! i; Some (if second then s.2 else s.1).
Definition cleared (cl : gmap Z (gset (nat * bool))) (x : Z) : gset (nat * bool) := default ∅ (cl !! x).

(** Every hazard pointer of [k] threads is in the set. *)
Definition all_clear (k : nat) (seen : gset (nat * bool)) : bool :=
  forallb (fun i => bool_decide ((i, false) ∈ seen) && bool_decide ((i, true) ∈ seen)) (seq 0 k).

(** [mpmc_fifo_init] on a node the caller allocated. *)
Definition mpmc_fifo_init (h : gmap Z node) (nx : gmap Z Z) (initial_node : Z) : gmap Z node * gmap Z Z * mpsc_fifo :=
  (<[initial_node:=Node NULL NULL]> h, <[initial_node:=NULL]> nx, Fifo initial_node initial_node).

Definition mpmc_fifo_push (t : nat) (spurious : bool) (s : mpmc_shared) (pc : mpmc_pc)
    : option (mpmc_shared * mpmc_pc * list fifo_ev) :=
  let '(PShared h nx f hz rt cl) := s in
  match pc with
  | PPushInit n => h' ← store_next h n NULL; Some (PShared h' nx f hz rt cl, PPushTail n, [])
  | PPushTail n => Some (s, PPushUsing n (f_tail f), [])
  | PPushUsing n tail => Some (PShared h nx f (using0 t tail hz) rt cl, PPushCheck n tail, [])
  | PPushCheck n tail =>
      if decide (tail = f_tail f) then Some (s, PPushNext n tail, []) else Some (s, PPushTail n, [])
  | PPushNext n tail =>
      _ ← h !! n; Some (PShared h (<[n:=tail]> nx) f hz rt cl, PPushCas n tail, [])
  | PPushCas n tail =>
      if negb spurious && Z.eqb tail (f_tail f) then
        d ← load_data h n; Some (PShared h nx (Fifo (f_head f) n) hz rt cl, PPushLink tail n, [FEnq d])
      else Some (s, PPushTail n, [])
  | PPushLink tail n => h' ← store_next h tail n; Some (PShared h' nx f hz rt cl, PPushDone, [])
  | PPushDone => Some (PShared h nx f (using0 t NULL hz) rt cl, PIdle, [])
  | _ => None
  end.

Definition mpmc_fifo_trypop (t : nat) (spurious : bool) (s : mpmc_shared) (pc : mpmc_pc)
    : option (mpmc_shared * mpmc_pc * list fifo_ev) :=
  let '(PShared h nx f hz rt cl) := s in
  match pc with
  | PPopHead => Some (s, PPopUsing (f_head f), [])
  | PPopUsing hd => Some (PShared h nx f (using0 t hd hz) rt cl, PPopCheck hd, [])
  | PPopCheck hd =>
      if decide (hd = f_head f) then Some (s, PPopPrev hd, []) else Some (s, PPopHead, [])
  | PPopPrev hd =>
      p ← load_next h hd;
      if decide (p = NULL) then Some (s, PPopEmpty, [FEmpty]) else Some (s, PPopUsing1 hd p, [])
  | PPopEmpty => Some (PShared h nx f (using0 t NULL hz) rt cl, PIdle, [])
  | PPopUsing1 hd p => Some (PShared h nx f (using1 t p hz) rt cl, PPopCheck1 hd p, [])
  | PPopCheck1 hd p =>
      if decide (hd = f_head f) then Some (s, PPopValue hd p, []) else Some (s, PPopHead, [])
  | PPopValue hd p => v ← load_data h p; Some (s, PPopCas hd p v, [])
  | PPopCas hd p v =>
      if negb spurious && Z.eqb hd (f_head f)
      then Some (PShared h nx (Fifo p (f_tail f)) hz rt cl, PPopDone hd v, [FDeq v])
      else Some (s, PPopHead, [])
  | PPopDone hd v => Some (PShared h nx f (using0 t NULL hz) rt cl, PPopDone1 hd v, [])
  | PPopDone1 hd v => Some (PShared h nx f (using1 t NULL hz) rt cl, PPopFree hd v, [])
  | PPopFree hd v => Some (PShared h nx f hz (hd :: rt) (<[hd:=∅]> cl), PIdle, [])
  | _ => None
  end.

(** [mpmc_fifo_destroy]: the nodes handed to [hazard_pointer_free], in order. *)
Fixpoint mpmc_fifo_destroy (fuel : nat) (h : gmap Z node) (hd : Z) : option (list Z) :=
  match fuel with
  | O => None
  | S fuel =>
      if decide (hd = NULL) then Some []
      else p ← load_next h hd; l ← mpmc_fifo_destroy fuel h p; Some (hd :: l)
  end.

(** A push gets a node the allocator returned, with a value that is not NULL. *)
Definition mpmc_tstep (t : nat) (ch : mpmc_choice) (s : mpmc_shared) (pc : mpmc_pc)
    : option (mpmc_shared * mpmc_pc * list fifo_ev) :=
  let '(PShared h nx f hz rt cl) := s in
  match ch, pc with
  | PCallPush n v, PIdle =>
      if decide (h !! n = None /\ n <> NULL /\ v <> NULL)
      then Some (PShared (<[n:=Node v NULL]> h) nx f hz rt cl, PPushInit n, []) else None
  | PCallPop, PIdle => Some (s, PPopHead, [])
  | PGo sp, (PPushInit _ | PPushTail _ | PPushUsing _ _ | PPushCheck _ _ | PPushNext _ _ | PPushCas _ _
            | PPushLink _ _ | PPushDone) => mpmc_fifo_push t sp s pc
  | PGo sp, (PPopHead | PPopUsing _ | PPopCheck _ | PPopPrev _ | PPopEmpty | PPopUsing1 _ _ | PPopCheck1 _ _
            | PPopValue _ _ | PPopCas _ _ _ | PPopDone _ _ | PPopDone1 _ _ | PPopFree _ _) =>
      mpmc_fifo_trypop t sp s pc
  | PReclaim n, _ =>
      if decide (n ∈ rt) then
        if all_clear (length hz) (cleared cl n)
        then Some (PShared (delete n h) (delete n nx) f hz (filter (fun x => x <> n) rt) (delete n cl), pc, [])
        else None
      else None
  | PScan n i second, _ =>
      if decide (n ∈ rt) then
        h_i ← slot_of hz i second;
        if decide (h_i = n) then None
        else Some (PShared h nx f hz rt (<[n:={[(i, second)]} ∪ cleared cl n]> cl), pc, [])
      else None
  | _, _ => None
  end.

Definition mpmc_conf := conf mpmc_shared mpmc_pc.
Definition mpmc_step := conf_step mpmc_tstep.

(** [n] threads and a queue with one node. *)
Definition mpmc_init (n : nat) : mpmc_conf :=
  let '(h, nx, f) := mpmc_fifo_init ∅ ∅ 1 in
  Conf (PShared h nx f (replicate n (NULL, NULL)) [] ∅) (replicate n PIdle).

(** ** Invariant *)

Definition p_pend (pc : mpmc_pc) : option (Z * Z) :=
  match pc with PPushLink a b => Some (a, b) | _ => None end.

(** The node of a push that has not exchanged the tail yet. *)
Definition p_new (pc : mpmc_pc) : option Z :=
  match pc with
  | PPushInit n | PPushTail n | PPushUsing n _ | PPushCheck n _ | PPushNext n _ | PPushCas n _ => Some n
  | _ => None
  end.

(** The node a consumer took out of the queue and has not retired yet. *)
Definition p_taken (pc : mpmc_pc) : option Z :=
  match pc with PPopDone n _ | PPopDone1 n _ | PPopFree n _ => Some n | _ => None end.

(** The nodes the head has passed and that are still allocated. *)
Definition passed (ths : list mpmc_pc) (rt : list Z) : list Z := omap p_taken ths ++ rt.

Definition p_nodes (ths : list mpmc_pc) (rt chain : list Z) : list Z :=
  chain ++ passed ths rt ++ omap p_new ths.

(** A chain of [prev] pointers continues at [a]. *)
Definition followed (h : gmap Z node) (a : Z) : Prop := exists p, load_next h a = Some p /\ p <> NULL.

Definition holds0 (hz : list (Z * Z)) (t : nat) (x : Z) : Prop := exists y, hz !! t = Some (x, y).
Definition holds1 (hz : list (Z * Z)) (t : nat) (x : Z) : Prop := exists y, hz !! t = Some (y, x).

(** The nodes a consumer has announced and then found to be the head, or the
    successor of the head. *)
Definition prot0 (pc : mpmc_pc) : option Z :=
  match pc with
  | PPopPrev hd | PPopUsing1 hd _ | PPopCheck1 hd _ | PPopValue hd _ | PPopCas hd _ _ => Some hd
  | _ => None
  end.
Definition prot1 (pc : mpmc_pc) : option Z :=
  match pc with PPopValue _ p | PPopCas _ p _ => Some p | _ => None end.

Definition protects0 (ths : list mpmc_pc) (i : nat) (a : Z) : Prop := exists pc, ths !! i = Some pc /\ prot0 pc = Some a.
Definition protects1 (ths : list mpmc_pc) (i : nat) (a : Z) : Prop := exists pc, ths !! i = Some pc /\ prot1 pc = Some a.

(** What a consumer knows of a node it announced and found to be the head. *)
Definition was_head (s : mpmc_shared) (old : list Z) (t : nat) (a : Z) : Prop :=
  holds0 (p_hazard s) t a /\
  (a = f_head (p_fifo s) \/ (a ∈ old /\ followed (p_heap s) a)).

Definition mpmc_ok (s : mpmc_shared) (chain old : list Z) (t : nat) (pc : mpmc_pc) : Prop :=
  match pc with
  | PPushTail n | PPushUsing n _ | PPushCheck n _ | PPushNext n _ | PPushCas n _ =>
      load_next (p_heap s) n = Some NULL
  | PPopCheck hd => holds0 (p_hazard s) t hd
  | PPopPrev hd => was_head s old t hd
  | PPopUsing1 hd p => was_head s old t hd /\ load_next (p_heap s) hd = Some p /\ p <> NULL
  | PPopCheck1 hd p =>
      was_head s old t hd /\ load_next (p_heap s) hd = Some p /\ p <> NULL /\ holds1 (p_hazard s) t p
  | PPopValue hd p =>
      was_head s old t hd /\ load_next (p_heap s) hd = Some p /\ p <> NULL /\
      holds1 (p_hazard s) t p /\ p ∈ chain ++ old
  | PPopCas hd p v =>
      was_head s old t hd /\ load_next (p_heap s) hd = Some p /\ p <> NULL /\
      holds1 (p_hazard s) t p /\ p ∈ chain ++ old /\ load_data (p_heap s) p = Some v
  | _ => True
  end.

Record mpmc_rel (c : mpmc_conf) (q chain : list Z) : Prop := {
  pr_chain : chain_inv (p_heap (shared c)) (p_fifo (shared c)) (omap p_pend (threads c)) chain;
  pr_nd : NoDup (p_nodes (threads c) (p_retired (shared c)) chain);
  pr_alloc : forall a, a ∈ p_nodes (threads c) (p_retired (shared c)) chain -> is_Some (p_heap (shared c) !! a);
  pr_null : NULL ∉ p_nodes (threads c) (p_retired (shared c)) chain;
  pr_hz : length (p_hazard (shared c)) = length (threads c);
  pr_ok : forall t pc, threads c !! t = Some pc ->
    mpmc_ok (shared c) chain (passed (threads c) (p_retired (shared c))) t pc;
  pr_clear : forall n i, n ∈ p_retired (shared c) ->
    (protects0 (threads c) i n -> (i, false) ∉ cleared (p_clear (shared c)) n) /\
    (protects1 (threads c) i n -> (i, true) ∉ cleared (p_clear (shared c)) n);
  pr_q : q = chain_data (p_heap (shared c)) (drop 1 chain)
}.

(** ** The frame of a step *)

(** What the other threads rely on when thread [t] moves: protected nodes stay
    in place and keep their link and value, and a head that is left behind is
    followed. *)
Record p_stable (ths : list mpmc_pc) (t : nat) (s s' : mpmc_shared) (chain old chain' old' : list Z) : Prop := {
  ps_hz : forall i, i <> t -> p_hazard s' !! i = p_hazard s !! i;
  ps_live : forall i a, i <> t -> protects1 ths i a -> a ∈ chain ++ old -> a ∈ chain' ++ old';
  ps_old : forall i a, i <> t -> protects0 ths i a -> a ∈ old -> a ∈ old';
  ps_head : f_head (p_fifo s') = f_head (p_fifo s) \/
    (f_head (p_fifo s) ∈ old' /\ followed (p_heap s') (f_head (p_fifo s)));
  ps_next : forall i a p, i <> t -> protects0 ths i a -> a ∈ chain ++ old ->
    load_next (p_heap s) a = Some p -> p <> NULL -> load_next (p_heap s') a = Some p;
  ps_data : forall i a, i <> t -> protects1 ths i a -> a ∈ chain ++ old ->
    load_data (p_heap s') a = load_data (p_heap s) a
}.

Section stable.
Context {ths : list mpmc_pc} {t : nat} {s s' : mpmc_shared} {chain old chain' old' : list Z}.
Hypothesis HS : p_stable ths t s s' chain old chain' old'.
Hypothesis Hhead : f_head (p_fifo s) ∈ chain.

Lemma was_head_live i a : was_head s old i a -> a ∈ chain ++ old.
Proof using Hhead. clear HS. intros [_ [->|[Ha _]]]; set_solver. Qed.

Lemma holds_stable i a : i <> t ->
  (holds0 (p_hazard s) i a -> holds0 (p_hazard s') i a) /\ (holds1 (p_hazard s) i a -> holds1 (p_hazard s') i a).
Proof using HS. intros Hi. unfold holds0, holds1. by rewrite (ps_hz _ _ _ _ _ _ _ _ HS) by done. Qed.

Lemma was_head_stable i a : i <> t -> protects0 ths i a -> was_head s old i a -> was_head s' old' i a.
Proof using HS Hhead.
  intros Hi Hpr HW. pose proof (was_head_live _ _ HW) as Hl. destruct HW as [Hz Hc].
  split; [by apply holds_stable|]. destruct Hc as [->|[Ho (p & Hp & Hn)]].
  - destruct (ps_head _ _ _ _ _ _ _ _ HS) as [E|?]; [by left|by right].
  - right. split; [by eapply (ps_old _ _ _ _ _ _ _ _ HS)|]. exists p. split; [|done].
    by eapply (ps_next _ _ _ _ _ _ _ _ HS).
Qed.

Lemma next_stable i a p : i <> t -> protects0 ths i a -> was_head s old i a -> load_next (p_heap s) a = Some p ->
  p <> NULL -> load_next (p_heap s') a = Some p.
Proof using HS Hhead.
  intros Hi Hpr HW. apply (ps_next _ _ _ _ _ _ _ _ HS i); [done|done|by eapply was_head_live].
Qed.

Lemma ok_stable i pc : i <> t -> ths !! i = Some pc ->
  (forall n, p_new pc = Some n -> load_next (p_heap s) n = Some NULL -> load_next (p_heap s') n = Some NULL) ->
  mpmc_ok s chain old i pc -> mpmc_ok s' chain' old' i pc.
Proof using HS Hhead.
  intros Hi Hpc Hn.
  assert (forall a, prot0 pc = Some a -> protects0 ths i a) as H0 by (intros a Ha; by exists pc).
  assert (forall a, prot1 pc = Some a -> protects1 ths i a) as H1 by (intros a Ha; by exists pc).
  destruct pc; simpl in *; auto.
  - by apply holds_stable.
  - by apply was_head_stable; [|apply H0].
  - intros (H2 & H3 & H4). split_and!; eauto using was_head_stable, next_stable.
  - intros (H2 & H3 & H4 & H5). split_and!; eauto using was_head_stable, next_stable. by apply holds_stable.
  - intros (H2 & H3 & H4 & H5 & H6). split_and!; eauto using was_head_stable, next_stable; [by apply holds_stable|].
    by eapply (ps_live _ _ _ _ _ _ _ _ HS); [|apply H1|].
  - intros (H2 & H3 & H4 & H5 & H6 & H7).
    split_and!; eauto using was_head_stable, next_stable; [by apply holds_stable| |].
    + by eapply (ps_live _ _ _ _ _ _ _ _ HS); [|apply H1|].
    + by rewrite (ps_data _ _ _ _ _ _ _ _ HS i); [|done|apply H1|].
Qed.

End stable.

Lemma rel_head_in c q chain : mpmc_rel c q chain -> f_head (p_fifo (shared c)) ∈ chain.
Proof. intros HR. eapply list_elem_of_lookup_2, ch_head, HR. Qed.

(** A step of a thread from [pc] to [pc'] keeps what is known of the scans: the
    node it retires has no cleared hazard pointer yet, and it does not begin to
    protect a retired node. *)
Record keeps_clear (s s' : mpmc_shared) (pc pc' : mpmc_pc) : Prop := {
  kc_clear : forall n, n ∈ p_retired s' -> cleared (p_clear s') n = ∅ \/
    (n ∈ p_retired s /\ cleared (p_clear s') n = cleared (p_clear s) n);
  kc_prot : forall n, n ∈ p_retired s' -> (prot0 pc' = Some n -> prot0 pc = Some n) /\ (prot1 pc' = Some n -> prot1 pc = Some n)
}.

Lemma keeps_same s h nx f hz pc pc' : prot0 pc' = None \/ prot0 pc' = prot0 pc -> prot1 pc' = None \/ prot1 pc' = prot1 pc ->
  keeps_clear s (PShared h nx f hz (p_retired s) (p_clear s)) pc pc'.
Proof. intros H0 H1. split; simpl; [auto|]. intros n _. split; intros E; [destruct H0|destruct H1]; congruence. Qed.

Lemma mpmc_rel_step c q chain t pc s' pc' chain' q' :
  mpmc_rel c q chain -> threads c !! t = Some pc ->
  let ths' := <[t:=pc']> (threads c) in
  chain_inv (p_heap s') (p_fifo s') (omap p_pend ths') chain' ->
  NoDup (p_nodes ths' (p_retired s') chain') ->
  (forall a, a ∈ p_nodes ths' (p_retired s') chain' -> is_Some (p_heap s' !! a) /\ a <> NULL) ->
  length (p_hazard s') = length (p_hazard (shared c)) ->
  p_stable (threads c) t (shared c) s' chain (passed (threads c) (p_retired (shared c))) chain' (passed ths' (p_retired s')) ->
  (forall i p n, i <> t -> threads c !! i = Some p -> p_new p = Some n ->
    load_next (p_heap (shared c)) n = Some NULL -> load_next (p_heap s') n = Some NULL) ->
  mpmc_ok s' chain' (passed ths' (p_retired s')) t pc' ->
  keeps_clear (shared c) s' pc pc' ->
  q' = chain_data (p_heap s') (drop 1 chain') ->
  mpmc_rel (Conf s' ths') q' chain'.
Proof.
  intros HR Ht ths' Hch Hnd Hal Hlen HS Hnew Hok [Hcl Hpr] Hq.
  split; cbn [shared threads]; auto.
  - intros a Ha. by apply Hal.
  - intros Ha. by apply Hal in Ha as [_ ?].
  - unfold ths'. by rewrite length_insert, Hlen, (pr_hz _ _ _ HR).
  - intros i p Hp. unfold ths' in Hp. thread_cases Hp; [done|].
    eapply ok_stable; [exact HS|by eapply rel_head_in|done|done| |by apply HR]. intros n Hn. by eapply Hnew.
  - intros n i Hn. destruct (Hcl n Hn) as [E|[Hr E]]; rewrite E; [set_solver|].
    destruct (pr_clear _ _ _ HR n i Hr) as [H0 H1]. destruct (Hpr n Hn) as [P0 P1].
    split; intros (p & Hp & Hx); unfold ths' in Hp; [apply H0|apply H1]; (thread_cases Hp; [exists pc; auto|by exists p]).
Qed.

(** A step that leaves heap, queue and nodes as they are. *)
Lemma mpmc_rel_local c q chain t pc pc' nx hz rt cl :
  mpmc_rel c q chain -> threads c !! t = Some pc ->
  p_pend pc' = p_pend pc -> p_new pc' = p_new pc ->
  passed (<[t:=pc']> (threads c)) rt ≡ₚ passed (threads c) (p_retired (shared c)) ->
  length hz = length (p_hazard (shared c)) -> (forall i, i <> t -> hz !! i = p_hazard (shared c) !! i) ->
  let s' := PShared (p_heap (shared c)) nx (p_fifo (shared c)) hz rt cl in
  keeps_clear (shared c) s' pc pc' ->
  (forall old, old ≡ₚ passed (threads c) (p_retired (shared c)) -> mpmc_ok s' chain old t pc') ->
  mpmc_rel (Conf s' (<[t:=pc']> (threads c))) q chain.
Proof.
  intros HR Ht Hp Hn Hpas Hl Hz s' Hkc Hok.
  assert (p_nodes (<[t:=pc']> (threads c)) rt chain ≡ₚ
          p_nodes (threads c) (p_retired (shared c)) chain) as Hnodes.
  { unfold p_nodes. by rewrite Hpas, (omap_insert_same _ _ _ _ _ Ht Hn). }
  eapply mpmc_rel_step; [exact HR|exact Ht|..]; simpl; auto.
  - eapply chain_perm; [symmetry; by apply (omap_insert_same _ _ _ _ _ Ht Hp)|apply HR].
  - rewrite Hnodes. apply HR.
  - intros a. rewrite Hnodes. intros Ha. split; [by apply HR|]. intros ->. by apply (pr_null _ _ _ HR).
  - split; simpl; auto; try setoid_rewrite Hpas; auto.
  - apply HR.
Qed.

(** ** Facts about the nodes *)

Section facts.
Context {c : mpmc_conf} {q chain : list Z}.
Hypothesis HR : mpmc_rel c q chain.

Lemma new_in t pc n : threads c !! t = Some pc -> p_new pc = Some n -> n ∈ omap p_new (threads c).
Proof. intros Ht Hn. apply list_elem_of_omap. exists pc. split; [by eapply list_elem_of_lookup_2|done]. Qed.

Lemma new_private t pc n : threads c !! t = Some pc -> p_new pc = Some n ->
  (n ∉ chain ++ passed (threads c) (p_retired (shared c))) /\ is_Some (p_heap (shared c) !! n) /\ n <> NULL.
Proof using HR.
  intros Ht Hn. pose proof (new_in _ _ _ Ht Hn) as Hin.
  pose proof (pr_nd _ _ _ HR) as Hnd. unfold p_nodes in Hnd. rewrite app_assoc in Hnd.
  apply NoDup_app in Hnd as (_ & Hd & _).
  split; [intros Hx; by apply (Hd n)|]. assert (n ∈ p_nodes (threads c) (p_retired (shared c)) chain) as Hp.
  { unfold p_nodes. rewrite app_assoc. apply elem_of_app. by right. }
  split; [by apply HR|]. intros ->. by apply (pr_null _ _ _ HR).
Qed.

Lemma new_ne t i pc p n m : i <> t -> threads c !! t = Some pc -> threads c !! i = Some p ->
  p_new pc = Some n -> p_new p = Some m -> m <> n.
Proof using HR.
  intros Hi Ht Hp Hn Hm ->. apply Hi. eapply omap_NoDup_inj; [|exact Hp|exact Ht|exact Hm|exact Hn].
  pose proof (pr_nd _ _ _ HR) as Hnd. unfold p_nodes in Hnd.
  apply NoDup_app in Hnd as (_ & _ & Hnd). by apply NoDup_app in Hnd as (_ & _ & ?).
Qed.

Lemma live_alloc a : a ∈ chain ++ passed (threads c) (p_retired (shared c)) -> is_Some (p_heap (shared c) !! a) /\ a <> NULL.
Proof using HR.
  intros Ha. assert (a ∈ p_nodes (threads c) (p_retired (shared c)) chain) as Hp.
  { unfold p_nodes. rewrite app_assoc. apply elem_of_app. by left. }
  split; [by apply HR|]. intros ->. by apply (pr_null _ _ _ HR).
Qed.

Lemma push_link_chain t a b : threads c !! t = Some (PPushLink a b) -> a ∈ chain /\ load_next (p_heap (shared c)) a = Some NULL.
Proof using HR.
  intros Ht. assert ((a, b) ∈ omap p_pend (threads c)) as Hin.
  { apply list_elem_of_omap. exists (PPushLink a b). split; [by eapply list_elem_of_lookup_2|done]. }
  destruct (ch_pend _ _ _ _ (pr_chain _ _ _ HR) a b Hin) as (i & Hi & Hj).
  split; [by eapply list_elem_of_lookup_2|].
  destruct (ch_link _ _ _ _ (pr_chain _ _ _ HR) i a b Hi Hj) as [[_ ?]|[? _]]; done.
Qed.

(** Protected nodes are announced. *)
Lemma prot_holds i pc : threads c !! i = Some pc ->
  (forall a, prot0 pc = Some a -> holds0 (p_hazard (shared c)) i a) /\ (forall a, prot1 pc = Some a -> holds1 (p_hazard (shared c)) i a).
Proof using HR.
  intros Ht. pose proof (pr_ok _ _ _ HR _ _ Ht) as Hok.
  split; intros a Ha; destruct pc; simplify_eq/=; unfold was_head in *; by destruct_and?.
Qed.

Lemma chain_not_retired a : a ∈ chain -> a ∉ p_retired (shared c).
Proof using HR.
  intros Ha Hr. pose proof (pr_nd _ _ _ HR) as Hnd. unfold p_nodes, passed in Hnd. apply NoDup_app in Hnd as (_ & Hd & _).
  apply (Hd a Ha). set_solver.
Qed.

(** The head's successor is in the chain. *)
Lemma head_next p : load_next (p_heap (shared c)) (f_head (p_fifo (shared c))) = Some p -> p <> NULL ->
  exists rest : list Z, chain = f_head (p_fifo (shared c)) :: p :: rest /\
    chain_inv (p_heap (shared c)) (Fifo p (f_tail (p_fifo (shared c)))) (omap p_pend (threads c)) (p :: rest).
Proof using HR. intros Hp Hn. by apply (chain_pop _ _ _ _ _ p (pr_chain _ _ _ HR) eq_refl). Qed.

End facts.

Lemma all_clear_elem k seen i : all_clear k seen = true -> (i < k)%nat -> (i, false) ∈ seen /\ (i, true) ∈ seen.
Proof.
  unfold all_clear. rewrite forallb_forall. intros Hall Hi. assert (In i (seq 0 k)) as Hin by (apply in_seq; lia). specialize (Hall i Hin).
  apply andb_prop in Hall as [?%bool_decide_eq_true ?%bool_decide_eq_true]. done.
Qed.

Lemma alter_slot {A} (g : A -> A) (t : nat) (l : list A) :
  length (alter g t l) = length l /\ forall i, i <> t -> alter g t l !! i = l !! i.
Proof. split; [apply length_alter|]. intros i Hi. by apply list_lookup_alter_ne. Qed.

Lemma using_holds (hz : list (Z * Z)) t x : (t < length hz)%nat ->
  holds0 (using0 t x hz) t x /\ holds1 (using1 t x hz) t x /\
  (forall y, holds0 hz t y -> holds0 (using1 t x hz) t y).
Proof.
  intros Ht. destruct (lookup_lt_is_Some_2 hz t Ht) as [[y0 y1] Hy].
  unfold holds0, holds1, using0, using1. rewrite !list_lookup_alter_eq, Hy. simpl. split_and!; eauto.
  intros z [y ?]. simplify_eq. eauto.
Qed.

(** ** Preservation, one lemma per kind of step *)

Lemma load_insert_ne (h : gmap Z node) n x a : a <> n ->
  load_next (<[n:=x]> h) a = load_next h a /\ load_data (<[n:=x]> h) a = load_data h a.
Proof. intros Hne. unfold load_next, load_data. by rewrite lookup_insert_ne. Qed.

Lemma load_delete_ne (h : gmap Z node) n a : a <> n ->
  load_next (delete n h) a = load_next h a /\ load_data (delete n h) a = load_data h a.
Proof. intros Hne. unfold load_next, load_data. by rewrite lookup_delete_ne. Qed.

Section steps.
Context {c : mpmc_conf} {q chain : list Z} (t : nat).
Hypothesis HR : mpmc_rel c q chain.

Lemma step_call n v : threads c !! t = Some PIdle -> p_heap (shared c) !! n = None -> n <> NULL ->
  mpmc_rel (Conf (PShared (<[n:=Node v NULL]> (p_heap (shared c))) (p_next (shared c)) (p_fifo (shared c))
    (p_hazard (shared c)) (p_retired (shared c)) (p_clear (shared c))) (<[t:=PPushInit n]> (threads c))) q chain.
Proof using HR.
  intros Ht Hn Hnn.
  assert (n ∉ p_nodes (threads c) (p_retired (shared c)) chain) as Hfresh.
  { intros [? E]%(pr_alloc _ _ _ HR). congruence. }
  assert (forall a, a ∈ p_nodes (threads c) (p_retired (shared c)) chain ->
    load_next (<[n:=Node v NULL]> (p_heap (shared c))) a = load_next (p_heap (shared c)) a /\
    load_data (<[n:=Node v NULL]> (p_heap (shared c))) a = load_data (p_heap (shared c)) a) as Hsame.
  { intros a Ha. apply load_insert_ne. by intros ->. }
  assert (passed (<[t:=PPushInit n]> (threads c)) (p_retired (shared c)) ≡ₚ
          passed (threads c) (p_retired (shared c))) as Hpas.
  { unfold passed. by rewrite (omap_insert_same p_taken _ _ _ (PPushInit n) Ht eq_refl). }
  assert (p_nodes (<[t:=PPushInit n]> (threads c)) (p_retired (shared c)) chain ≡ₚ
          n :: p_nodes (threads c) (p_retired (shared c)) chain) as Hnodes.
  { unfold p_nodes. rewrite Hpas, (omap_insert_add p_new _ _ _ (PPushInit n) n Ht eq_refl eq_refl).
    rewrite !app_assoc. by rewrite <- Permutation_middle. }
  assert (forall a, a ∈ chain ++ passed (threads c) (p_retired (shared c)) ->
    a ∈ p_nodes (threads c) (p_retired (shared c)) chain) as Hsub.
  { intros a Ha. unfold p_nodes. rewrite app_assoc. apply elem_of_app. by left. }
  eapply mpmc_rel_step; [exact HR|exact Ht|..]; simpl; auto using keeps_same.
  - eapply chain_perm; [symmetry; by apply (omap_insert_same _ _ _ _ _ Ht)|].
    eapply chain_heap; [|apply HR]. intros a Ha. apply Hsame, Hsub. set_solver.
  - rewrite Hnodes. constructor; [done|apply HR].
  - intros a. rewrite Hnodes, elem_of_cons. intros [->|Ha]; [rewrite lookup_insert_eq; eauto|].
    rewrite lookup_insert_ne by (by intros ->). split; [by apply HR|]. intros ->. by apply (pr_null _ _ _ HR).
  - split; simpl; try setoid_rewrite Hpas; auto.
    + intros i a p _ _ Ha. rewrite (proj1 (Hsame a (Hsub a Ha))). done.
    + intros i a _ _ Ha. apply Hsame, Hsub, Ha.
  - intros i p m Hi Hp Hm. rewrite (proj1 (Hsame m ltac:(unfold p_nodes; rewrite !elem_of_app; right; right; by eapply new_in))).
    done.
  - rewrite (pr_q _ _ _ HR). symmetry. apply chain_data_ext. intros a Ha. apply Hsame, Hsub.
    apply elem_of_app. left. destruct chain; [done|]. by right.
Qed.

Lemma step_push_init n h' : threads c !! t = Some (PPushInit n) ->
  store_next (p_heap (shared c)) n NULL = Some h' ->
  mpmc_rel (Conf (PShared h' (p_next (shared c)) (p_fifo (shared c)) (p_hazard (shared c))
    (p_retired (shared c)) (p_clear (shared c))) (<[t:=PPushTail n]> (threads c))) q chain.
Proof using HR.
  intros Ht Hs. destruct (new_private HR t _ n Ht eq_refl) as (Hn & _ & _).
  assert (passed (<[t:=PPushTail n]> (threads c)) (p_retired (shared c)) ≡ₚ
          passed (threads c) (p_retired (shared c))) as Hpas.
  { unfold passed. by rewrite (omap_insert_same p_taken _ _ _ (PPushTail n) Ht eq_refl). }
  assert (p_nodes (<[t:=PPushTail n]> (threads c)) (p_retired (shared c)) chain ≡ₚ
          p_nodes (threads c) (p_retired (shared c)) chain) as Hnodes.
  { unfold p_nodes. by rewrite Hpas, (omap_insert_same p_new _ _ _ (PPushTail n) Ht eq_refl). }
  eapply mpmc_rel_step; [exact HR|exact Ht|..]; simpl; auto using keeps_same.
  - eapply chain_perm; [symmetry; by apply (omap_insert_same _ _ _ _ _ Ht)|].
    eapply chain_heap; [|apply HR]. intros a Ha. apply (store_next_other _ _ _ _ _ Hs). set_solver.
  - rewrite Hnodes. apply HR.
  - intros a. rewrite Hnodes. intros Ha. split; [by apply (store_next_dom _ _ _ _ _ Hs), HR|].
    intros ->. by apply (pr_null _ _ _ HR).
  - split; simpl; try setoid_rewrite Hpas; auto.
    + intros i a p _ _ Ha. rewrite (store_next_other _ _ _ _ _ Hs); [done|]. by intros ->.
    + intros i a _ _ Ha. apply (store_next_data _ _ _ _ _ Hs).
  - intros i p m Hi Hp Hm. rewrite (store_next_other _ _ _ _ _ Hs); [done|].
    by eapply new_ne; [exact HR|exact Hi|exact Ht|exact Hp|..].
  - by apply (store_next_same _ _ _ _ Hs).
  - rewrite (pr_q _ _ _ HR). symmetry. apply chain_data_ext. intros a _. apply (store_next_data _ _ _ _ _ Hs).
Qed.

Lemma step_push_cas n tail d : threads c !! t = Some (PPushCas n tail) -> tail = f_tail (p_fifo (shared c)) ->
  load_data (p_heap (shared c)) n = Some d ->
  mpmc_rel (Conf (PShared (p_heap (shared c)) (p_next (shared c)) (Fifo (f_head (p_fifo (shared c))) n)
    (p_hazard (shared c)) (p_retired (shared c)) (p_clear (shared c))) (<[t:=PPushLink tail n]> (threads c))) (q ++ [d]) (chain ++ [n]).
Proof using HR.
  intros Ht -> Hd. destruct (new_private HR t _ n Ht eq_refl) as (Hn & _ & Hnn).
  pose proof (pr_ok _ _ _ HR _ _ Ht) as Hok. simpl in Hok.
  set (pc' := PPushLink (f_tail (p_fifo (shared c))) n).
  assert (passed (<[t:=pc']> (threads c)) (p_retired (shared c)) ≡ₚ
          passed (threads c) (p_retired (shared c))) as Hpas.
  { unfold passed. by rewrite (omap_insert_same p_taken _ _ _ pc' Ht eq_refl). }
  assert (p_nodes (<[t:=pc']> (threads c)) (p_retired (shared c)) (chain ++ [n]) ≡ₚ
          p_nodes (threads c) (p_retired (shared c)) chain) as Hnodes.
  { unfold p_nodes. rewrite Hpas, (omap_insert_del p_new _ _ _ pc' n Ht eq_refl eq_refl).
    rewrite <- !app_assoc. simpl. by rewrite !Permutation_middle. }
  eapply mpmc_rel_step; [exact HR|exact Ht|..]; simpl; auto using keeps_same.
  - eapply chain_perm; [symmetry; by apply (omap_insert_add p_pend _ _ _ pc' (f_tail (p_fifo (shared c)), n) Ht)|].
    apply chain_xchg; [apply HR|set_solver|done|done].
  - rewrite Hnodes. apply HR.
  - intros a. rewrite Hnodes. intros Ha. split; [by apply HR|]. intros ->. by apply (pr_null _ _ _ HR).
  - split; simpl; try setoid_rewrite Hpas; auto. set_solver.
  - rewrite (pr_q _ _ _ HR). pose proof (rel_head_in _ _ _ HR) as Hh. destruct chain as [|c0 ch]; [set_solver|].
    simpl. rewrite !drop_0. unfold chain_data. rewrite omap_app. csimpl. by rewrite Hd.
Qed.

Lemma step_push_link a b h' : threads c !! t = Some (PPushLink a b) ->
  store_next (p_heap (shared c)) a b = Some h' ->
  mpmc_rel (Conf (PShared h' (p_next (shared c)) (p_fifo (shared c)) (p_hazard (shared c))
    (p_retired (shared c)) (p_clear (shared c))) (<[t:=PPushDone]> (threads c))) q chain.
Proof using HR.
  intros Ht Hs. destruct (push_link_chain HR _ _ _ Ht) as [Ha Hnull].
  assert (passed (<[t:=PPushDone]> (threads c)) (p_retired (shared c)) ≡ₚ
          passed (threads c) (p_retired (shared c))) as Hpas.
  { unfold passed. by rewrite (omap_insert_same p_taken _ _ _ PPushDone Ht eq_refl). }
  assert (p_nodes (<[t:=PPushDone]> (threads c)) (p_retired (shared c)) chain ≡ₚ
          p_nodes (threads c) (p_retired (shared c)) chain) as Hnodes.
  { unfold p_nodes. by rewrite Hpas, (omap_insert_same p_new _ _ _ PPushDone Ht eq_refl). }
  eapply mpmc_rel_step; [exact HR|exact Ht|..]; simpl; auto using keeps_same.
  - eapply chain_store_link; [|exact Hs]. eapply chain_perm; [|apply HR].
    by apply (omap_insert_del p_pend _ _ _ PPushDone (a, b) Ht eq_refl eq_refl).
  - rewrite Hnodes. apply HR.
  - intros x. rewrite Hnodes. intros Hx. split; [by apply (store_next_dom _ _ _ _ _ Hs), HR|].
    intros ->. by apply (pr_null _ _ _ HR).
  - split; simpl; try setoid_rewrite Hpas; auto.
    + intros i x p _ _ Hx Hl Hp. rewrite (store_next_other _ _ _ _ _ Hs); [done|]. intros ->. congruence.
    + intros i x _ _ _. apply (store_next_data _ _ _ _ _ Hs).
  - intros i p m Hi Hp Hm. rewrite (store_next_other _ _ _ _ _ Hs); [done|]. intros ->.
    destruct (new_private HR i p a Hp Hm) as [Hx _]. set_solver.
  - rewrite (pr_q _ _ _ HR). symmetry. apply chain_data_ext. intros x _. apply (store_next_data _ _ _ _ _ Hs).
Qed.

Lemma step_pop_cas p v : threads c !! t = Some (PPopCas (f_head (p_fifo (shared c))) p v) ->
  exists q' chain', q = v :: q' /\
  mpmc_rel (Conf (PShared (p_heap (shared c)) (p_next (shared c)) (Fifo p (f_tail (p_fifo (shared c))))
    (p_hazard (shared c)) (p_retired (shared c)) (p_clear (shared c)))
    (<[t:=PPopDone (f_head (p_fifo (shared c))) v]> (threads c))) q' chain'.
Proof using HR.
  intros Ht. destruct (pr_ok _ _ _ HR _ _ Ht) as (_ & Hp & Hpn & _ & _ & Hv).
  destruct (head_next HR p Hp Hpn) as (rest & Hc & Hch). set (hd := f_head (p_fifo (shared c))) in *.
  assert (passed (<[t:=PPopDone hd v]> (threads c)) (p_retired (shared c)) ≡ₚ
          hd :: passed (threads c) (p_retired (shared c))) as Hpas.
  { unfold passed. by rewrite (omap_insert_add p_taken _ _ _ (PPopDone hd v) hd Ht eq_refl eq_refl). }
  assert (p_nodes (<[t:=PPopDone hd v]> (threads c)) (p_retired (shared c)) (p :: rest) ≡ₚ
          p_nodes (threads c) (p_retired (shared c)) chain) as Hnodes.
  { unfold p_nodes. rewrite Hpas, Hc, (omap_insert_same p_new _ _ _ (PPopDone hd v) Ht eq_refl).
    simpl. rewrite <- Permutation_middle. apply perm_swap. }
  exists (chain_data (p_heap (shared c)) rest), (p :: rest). split.
  { rewrite (pr_q _ _ _ HR), Hc. simpl. unfold chain_data. csimpl. by rewrite Hv. }
  eapply mpmc_rel_step; [exact HR|exact Ht|..]; simpl; auto using keeps_same.
  - eapply chain_perm; [symmetry; by apply (omap_insert_same _ _ _ _ _ Ht)|done].
  - rewrite Hnodes. apply HR.
  - intros a. rewrite Hnodes. intros Ha. split; [by apply HR|]. intros ->. by apply (pr_null _ _ _ HR).
  - split; simpl; try setoid_rewrite Hpas; auto.
    + rewrite Hc. set_solver.
    + set_solver.
    + right. fold hd. split; [left|]. by exists p.
Qed.

Lemma step_scan n i second h_i pc : threads c !! t = Some pc -> n ∈ p_retired (shared c) ->
  slot_of (p_hazard (shared c)) i second = Some h_i -> h_i <> n ->
  mpmc_rel (Conf (PShared (p_heap (shared c)) (p_next (shared c)) (p_fifo (shared c)) (p_hazard (shared c))
    (p_retired (shared c)) (<[n:={[(i, second)]} ∪ cleared (p_clear (shared c)) n]> (p_clear (shared c)))) (<[t:=pc]> (threads c))) q chain.
Proof using HR.
  intros Ht Hn Hsl Hne. rewrite list_insert_id by done. split; try apply HR. cbn [shared threads p_retired p_clear]. intros m j Hm.
  destruct (pr_clear _ _ _ HR m j Hm) as [H0 H1]. unfold cleared at 1 3. destruct (decide (n = m)) as [<-|Hnm].
  - rewrite lookup_insert_eq. simpl. unfold slot_of in Hsl.
    split; intros Hp; [specialize (H0 Hp)|specialize (H1 Hp)]; destruct Hp as (p & Hp & Hx).
    + destruct (prot_holds HR _ _ Hp) as [Hh _]. destruct (Hh _ Hx) as [y Hy].
      intros [[= <- <-]%elem_of_singleton|?]%elem_of_union; [|done]. rewrite Hy in Hsl. by injection Hsl as <-.
    + destruct (prot_holds HR _ _ Hp) as [_ Hh]. destruct (Hh _ Hx) as [y Hy].
      intros [[= <- <-]%elem_of_singleton|?]%elem_of_union; [|done]. rewrite Hy in Hsl. by injection Hsl as <-.
  - rewrite lookup_insert_ne by done. by split.
Qed.

Lemma step_reclaim n pc : threads c !! t = Some pc -> n ∈ p_retired (shared c) ->
  all_clear (length (p_hazard (shared c))) (cleared (p_clear (shared c)) n) = true ->
  mpmc_rel (Conf (PShared (delete n (p_heap (shared c))) (delete n (p_next (shared c))) (p_fifo (shared c))
    (p_hazard (shared c)) (filter (fun x => x <> n) (p_retired (shared c))) (delete n (p_clear (shared c)))) (<[t:=pc]> (threads c))) q chain.
Proof using HR.
  intros Ht Hn Hann. rewrite list_insert_id by done.
  assert (forall i a, protects0 (threads c) i a \/ protects1 (threads c) i a -> a <> n) as Hne.
  { intros i a Hp ->. assert (i < length (p_hazard (shared c)))%nat as Hi.
    { rewrite (pr_hz _ _ _ HR). destruct Hp as [(p & Hp & _)|(p & Hp & _)]; by eapply lookup_lt_Some. }
    destruct (all_clear_elem _ _ _ Hann Hi) as [C0 C1]. destruct (pr_clear _ _ _ HR n i Hn) as [H0 H1].
    destruct Hp as [Hp|Hp]; [by apply H0|by apply H1]. }
  pose proof (pr_nd _ _ _ HR) as Hnd. unfold p_nodes, passed in Hnd.
  assert (p_nodes (threads c) (p_retired (shared c)) chain ≡ₚ
    n :: p_nodes (threads c) (filter (fun x => x <> n) (p_retired (shared c))) chain) as Hnodes.
  { assert (NoDup (p_retired (shared c))) as Hr.
    { apply NoDup_app in Hnd as (_ & _ & Hnd). apply NoDup_app in Hnd as (Hnd & _ & _). by apply NoDup_app in Hnd as (_ & _ & ?). }
    assert (p_retired (shared c) ≡ₚ n :: filter (fun x => x <> n) (p_retired (shared c))) as E.
    { apply NoDup_Permutation; [done|constructor; [|by apply NoDup_filter]|].
      - rewrite list_elem_of_filter. naive_solver.
      - intros x. rewrite elem_of_cons, list_elem_of_filter. destruct (decide (x = n)); naive_solver. }
    unfold p_nodes, passed. rewrite E at 1. rewrite !app_assoc. rewrite <- (Permutation_middle (chain ++ omap p_taken (threads c))). done. }
  fold (passed (threads c) (p_retired (shared c))) in Hnd. fold (p_nodes (threads c) (p_retired (shared c)) chain) in Hnd.
  rewrite Hnodes in Hnd. apply NoDup_cons in Hnd as [Hnn Hnd].
  assert (forall a, a ∈ p_nodes (threads c) (filter (fun x => x <> n) (p_retired (shared c))) chain -> a <> n) as Hout
    by (by intros a Ha ->).
  assert (forall a, a ∈ chain -> a <> n) as Hcn.
  { intros a Ha. apply Hout. unfold p_nodes. set_solver. }
  assert (forall a, a <> n -> a ∈ passed (threads c) (p_retired (shared c)) ->
    a ∈ passed (threads c) (filter (fun x => x <> n) (p_retired (shared c)))) as Hold.
  { intros a Ha. unfold passed. rewrite !elem_of_app, list_elem_of_filter. naive_solver. }
  split; cbn [shared threads p_heap p_next p_fifo p_hazard p_retired p_clear].
  - eapply chain_heap; [|apply HR]. intros a Ha. by apply load_delete_ne, Hcn.
  - done.
  - intros a Ha. rewrite lookup_delete_ne by (by apply not_eq_sym, Hout). apply HR. rewrite Hnodes. by right.
  - intros Ha. apply (pr_null _ _ _ HR). rewrite Hnodes. by right.
  - apply HR.
  - intros i p Hp. eapply (ok_stable (ths := threads c) (t := length (threads c))); [|by eapply rel_head_in| |done| |by apply HR].
    + split; simpl; auto.
      * intros j a _ Hh. rewrite !elem_of_app. intros [?|?]; [by left|right]. apply Hold; [|done]. eapply Hne. by right.
      * intros j a _ Hh. apply Hold. eapply Hne. by left.
      * intros j a x _ Hh _ Hx _. rewrite (proj1 (load_delete_ne _ n a (Hne _ _ (or_introl Hh)))). done.
      * intros j a _ Hh _. by apply load_delete_ne, (Hne j), or_intror.
    + apply lookup_lt_Some in Hp. lia.
    + intros m Hm Hl. assert (m <> n) as Hm'; [|simpl; by rewrite (proj1 (load_delete_ne _ n m Hm'))]. apply Hout.
      unfold p_nodes. rewrite !elem_of_app. right; right. by eapply new_in.
  - intros m i [Hm Hr]%list_elem_of_filter. unfold cleared. rewrite lookup_delete_ne by done. by apply (pr_clear _ _ _ HR m i).
  - rewrite (pr_q _ _ _ HR). symmetry. apply chain_data_ext. intros a Ha. apply load_delete_ne, Hcn.
    destruct chain; [done|]. by right.
Qed.

End steps.

(** A step of one thread that only moves its program point and its own hazard
    pointers. *)
Ltac mpmc_local HR Ht :=
  eapply (mpmc_rel_local _ _ _ _ _ _ _ _ _ _ HR Ht); simpl;
  [ reflexivity | reflexivity
  | match goal with |- passed (<[_:=?y]> _) _ ≡ₚ _ =>
      unfold passed; by rewrite (omap_insert_same p_taken _ _ _ y Ht eq_refl) end
  | first [reflexivity | apply alter_slot] | first [reflexivity | apply alter_slot]
  | first [apply keeps_same; simpl; by (left + right) | split; simpl; [by auto|]] | ].

Lemma mpmc_push_simulation c q chain t sp pc s' pc' evs :
  mpmc_rel c q chain -> threads c !! t = Some pc ->
  mpmc_fifo_push t sp (shared c) pc = Some (s', pc', evs) ->
  exists q' chain', spec_run fifo_spec evs q = Some q' /\ mpmc_rel (Conf s' (<[t:=pc']> (threads c))) q' chain'.
Proof.
  intros HR Ht Hs. pose proof (pr_ok _ _ _ HR _ _ Ht) as Hok.
  assert (shared c = PShared (p_heap (shared c)) (p_next (shared c)) (p_fifo (shared c)) (p_hazard (shared c))
    (p_retired (shared c)) (p_clear (shared c))) as Es by (by destruct (shared c)).
  rewrite Es in Hs. destruct pc; cbn [mpmc_fifo_push] in Hs; simpl in Hok; try discriminate Hs.
  - destruct (store_next _ new_node NULL) as [h'|] eqn:E; simplify_eq/=. exists q, chain. split; [done|].
    by apply (step_push_init t HR).
  - simplify_eq. exists q, chain. split; [done|]. mpmc_local HR Ht. done.
  - simplify_eq. exists q, chain. split; [done|]. mpmc_local HR Ht. done.
  - case_decide; simplify_eq; exists q, chain; (split; [done|]); mpmc_local HR Ht; done.
  - destruct (p_heap (shared c) !! new_node); simplify_eq/=. exists q, chain. split; [done|]. mpmc_local HR Ht. done.
  - destruct (negb sp && Z.eqb tail (f_tail (p_fifo (shared c)))) eqn:E.
    + apply andb_prop in E as [_ E%Z.eqb_eq]. destruct (load_data _ new_node) as [d|] eqn:Ed; simplify_eq/=.
      eexists _, _. split; [done|]. by apply (step_push_cas t HR).
    + simplify_eq. exists q, chain. split; [done|]. mpmc_local HR Ht. done.
  - destruct (store_next _ tail new_node) as [h'|] eqn:E; simplify_eq/=. exists q, chain. split; [done|].
    by eapply (step_push_link t HR).
  - simplify_eq. exists q, chain. split; [done|]. mpmc_local HR Ht. done.
Qed.

Lemma mpmc_pop_simulation c q chain t sp pc s' pc' evs :
  mpmc_rel c q chain -> threads c !! t = Some pc ->
  mpmc_fifo_trypop t sp (shared c) pc = Some (s', pc', evs) ->
  exists q' chain', spec_run fifo_spec evs q = Some q' /\ mpmc_rel (Conf s' (<[t:=pc']> (threads c))) q' chain'.
Proof.
  intros HR Ht Hs. pose proof (pr_ok _ _ _ HR _ _ Ht) as Hok.
  assert (shared c = PShared (p_heap (shared c)) (p_next (shared c)) (p_fifo (shared c)) (p_hazard (shared c))
    (p_retired (shared c)) (p_clear (shared c))) as Es by (by destruct (shared c)).
  assert (t < length (p_hazard (shared c)))%nat as Htz
    by (rewrite (pr_hz _ _ _ HR); by eapply lookup_lt_Some).
  pose proof (using_holds (p_hazard (shared c)) t) as Hu.
  rewrite Es in Hs. destruct pc; cbn [mpmc_fifo_trypop] in Hs; simpl in Hok; try discriminate Hs.
  - simplify_eq. exists q, chain. split; [done|]. mpmc_local HR Ht. done.
  - simplify_eq. exists q, chain. split; [done|]. mpmc_local HR Ht. intros old _. by apply Hu.
  - case_decide as Hd; simplify_eq; exists q, chain; (split; [done|]); mpmc_local HR Ht; [| |done].
    + intros n Hn. split; [|done]. intros [= <-]. by destruct (chain_not_retired HR _ (rel_head_in _ _ _ HR)).
    + intros old _. split; [done|]. by left.
  - destruct (load_next _ head) as [p|] eqn:E; simplify_eq/=.
    case_decide; simplify_eq; exists q, chain; (split; [done|]); mpmc_local HR Ht; [done|].
    intros old Hold. split; [|done]. split; [apply Hok|]. rewrite Hold. apply Hok.
  - simplify_eq. exists q, chain. split; [done|]. mpmc_local HR Ht. done.
  - simplify_eq. exists q, chain. split; [done|]. mpmc_local HR Ht. intros old Hold. simpl.
    destruct Hok as ([Hz Hw] & Hp & Hn). destruct (Hu prev Htz) as (_ & H1 & H2). split_and!; try done.
    split; [by apply H2|]. by rewrite Hold.
  - case_decide as Hd; simplify_eq; exists q, chain; (split; [done|]); mpmc_local HR Ht; [| |done];
      destruct Hok as ([Hz Hw] & Hp & Hn & H1); destruct (head_next HR prev Hp Hn) as (rest & Hc & _).
    + intros n Hr. split; [by auto|]. intros [= <-]. destruct (chain_not_retired HR prev); [|done]. rewrite Hc. set_solver.
    + intros old Hold. split_and!; try done; [split; [done|by left]|]. rewrite Hc. set_solver.
  - destruct (load_data _ prev) as [v|] eqn:E; simplify_eq/=. exists q, chain. split; [done|]. mpmc_local HR Ht.
    intros old Hold. destruct Hok as ([Hz Hw] & Hp & Hn & H1 & H2). split_and!; try done; [|by rewrite Hold].
    split; [done|]. by rewrite Hold.
  - destruct (negb sp && Z.eqb head (f_head (p_fifo (shared c)))) eqn:E.
    + apply andb_prop in E as [_ ->%Z.eqb_eq]. simplify_eq.
      destruct (step_pop_cas t HR prev ret Ht) as (q' & chain' & -> & HR'). exists q', chain'. split; [|done].
      simpl. by rewrite decide_True.
    + simplify_eq. exists q, chain. split; [done|]. mpmc_local HR Ht. done.
  - simplify_eq. exists q, chain. split; [done|]. mpmc_local HR Ht. done.
  - simplify_eq. exists q, chain. split; [done|]. mpmc_local HR Ht. done.
  - simplify_eq. exists q, chain. split; [done|].
    eapply (mpmc_rel_local _ _ _ _ _ _ _ _ _ _ HR Ht); try done.
    + unfold passed. rewrite (omap_insert_del p_taken _ _ _ PIdle head Ht eq_refl eq_refl). simpl.
      by rewrite <- Permutation_middle.
    + split; [|done]. simpl. unfold cleared. intros n Hn. destruct (decide (head = n)) as [->|Hne]; [left; by rewrite lookup_insert_eq|].
      right. rewrite lookup_insert_ne by done. set_solver.
Qed.

Lemma scan_inv t n i second h nx f hz rt cl pc s' pc' evs :
  mpmc_tstep t (PScan n i second) (PShared h nx f hz rt cl) pc = Some (s', pc', evs) ->
  exists h_i, n ∈ rt /\ slot_of hz i second = Some h_i /\ h_i <> n /\
    s' = PShared h nx f hz rt (<[n:={[(i, second)]} ∪ cleared cl n]> cl) /\ pc' = pc /\ evs = [].
Proof.
  intros Hs. assert ((if decide (n ∈ rt) then h_i ← slot_of hz i second; if decide (h_i = n) then None
    else Some (PShared h nx f hz rt (<[n:={[(i, second)]} ∪ cleared cl n]> cl), pc, []) else None) = Some (s', pc', evs)) as Hs'
    by (by destruct pc). clear Hs. case_decide; [|done]. destruct (slot_of hz i second) as [h_i|]; [|done]. simpl in Hs'.
  case_decide; [done|]. simplify_eq. eauto 10.
Qed.

Lemma reclaim_inv t n h nx f hz rt cl pc s' pc' evs :
  mpmc_tstep t (PReclaim n) (PShared h nx f hz rt cl) pc = Some (s', pc', evs) ->
  n ∈ rt /\ all_clear (length hz) (cleared cl n) = true /\
    s' = PShared (delete n h) (delete n nx) f hz (filter (fun x => x <> n) rt) (delete n cl) /\ pc' = pc /\ evs = [].
Proof.
  intros Hs. assert ((if decide (n ∈ rt) then if all_clear (length hz) (cleared cl n)
    then Some (PShared (delete n h) (delete n nx) f hz (filter (fun x => x <> n) rt) (delete n cl), pc, []) else None else None) =
    Some (s', pc', evs)) as Hs' by (by destruct pc). clear Hs. case_decide; [|done].
  destruct (all_clear _ _); [|done]. by simplify_eq.
Qed.

Lemma mpmc_simulation lbl c c' evs q chain :
  mpmc_rel c q chain -> mpmc_step lbl c = Some (c', evs) ->
  exists q' chain', spec_run fifo_spec evs q = Some q' /\ mpmc_rel c' q' chain'.
Proof.
  destruct lbl as [t ch]. intros HR Hstep.
  apply conf_step_inv in Hstep as (pc & s' & pc' & Ht & Hs & ->).
  assert (shared c = PShared (p_heap (shared c)) (p_next (shared c)) (p_fifo (shared c)) (p_hazard (shared c))
    (p_retired (shared c)) (p_clear (shared c))) as Es by (by destruct (shared c)).
  destruct ch as [n v| |sp|n i second|n].
  - rewrite Es in Hs. destruct pc; try discriminate Hs. cbn [mpmc_tstep] in Hs. case_decide as Hd; simplify_eq.
    destruct Hd as (Hd1 & Hd2 & _). exists q, chain. split; [done|]. by apply (step_call t HR).
  - rewrite Es in Hs. destruct pc; try discriminate Hs. simplify_eq/=. exists q, chain. split; [done|].
    mpmc_local HR Ht. done.
  - destruct pc; rewrite Es in Hs; try discriminate Hs; cbn [mpmc_tstep] in Hs; rewrite <- Es in Hs;
      first [by eapply mpmc_push_simulation | by eapply mpmc_pop_simulation].
  - exists q, chain. rewrite Es in Hs. apply scan_inv in Hs as (h_i & Hn & Hsl & Hne & -> & -> & ->). split; [done|].
    by eapply (step_scan t HR).
  - exists q, chain. rewrite Es in Hs. apply reclaim_inv in Hs as (Hn & Hcl & -> & -> & ->). split; [done|]. by apply (step_reclaim t HR).
Qed.

Lemma mpmc_init_rel n : mpmc_rel (mpmc_init n) [] [1].
Proof.
  assert (forall {B} (f : mpmc_pc -> option B), f PIdle = None -> omap f (replicate n PIdle) = []) as Hom.
  { intros B f E. induction n as [|k IH]; [done|]. csimpl. by rewrite E. }
  unfold mpmc_init, mpmc_fifo_init. split; simpl; unfold p_nodes, passed; rewrite ?Hom by done; simpl.
  - split; simpl; try done.
    + apply NoDup_singleton.
    + by intros ?%list_elem_of_singleton.
    + intros a b Hab. by apply elem_of_nil in Hab.
    + apply NoDup_nil_2.
  - apply NoDup_singleton.
  - intros a ->%list_elem_of_singleton. rewrite lookup_insert_eq. eauto.
  - by intros ?%list_elem_of_singleton.
  - by rewrite !length_replicate.
  - by intros t pc [-> _]%lookup_replicate.
  - by intros m i ?%elem_of_nil.
  - done.
Qed.

Lemma mpmc_run_rel n ls c evs : run mpmc_step ls (mpmc_init n) = Some (c, evs) ->
  exists q chain, spec_run fifo_spec evs [] = Some q /\ mpmc_rel c q chain.
Proof.
  intros Hrun.
  destruct (run_simulation mpmc_step fifo_spec (Z.of_nat (length ls) + 1)
    (fun _ c q => exists chain, mpmc_rel c q chain))
    with (ls := ls) (n := 0) (s := mpmc_init n) (s' := c) (evs := evs) (a := @nil Z)
    as (q & Hq & chain & HR); eauto using mpmc_init_rel; [|lia].
  intros k l s s' e a _ [chain HR] Hs.
  destruct (mpmc_simulation _ _ _ _ _ _ HR Hs) as (q' & chain' & ? & ?). eauto.
Qed.

(** ** Progress *)

(** The number of steps thread [t] needs when it runs alone: a stale snapshot
    of the head or of the tail costs one more round of the loop. *)
Definition mpmc_cost (f : mpsc_fifo) (pc : mpmc_pc) : nat :=
  let fresh_tail x := Z.eqb x (f_tail f) in
  let fresh_head x := Z.eqb x (f_head f) in
  match pc with
  | PIdle => 0
  | PPushDone => 1 | PPushLink _ _ => 2
  | PPushCas _ x => if fresh_tail x then 3 else 8
  | PPushNext _ x => if fresh_tail x then 4 else 9
  | PPushCheck _ x => if fresh_tail x then 5 else 8
  | PPushUsing _ x => if fresh_tail x then 6 else 9
  | PPushTail _ => 7 | PPushInit _ => 8
  | PPopFree _ _ => 1 | PPopDone1 _ _ => 2 | PPopDone _ _ => 3 | PPopEmpty => 1
  | PPopCas x _ _ => if fresh_head x then 4 else 12
  | PPopValue x _ => if fresh_head x then 5 else 13
  | PPopCheck1 x _ => if fresh_head x then 6 else 12
  | PPopUsing1 x _ => if fresh_head x then 7 else 13
  | PPopPrev x => if fresh_head x then 8 else 14
  | PPopCheck x => if fresh_head x then 9 else 12
  | PPopUsing x => if fresh_head x then 10 else 13
  | PPopHead => 11
  end%nat.

(** Every access of a thread that runs goes to an allocated node. *)
Lemma mpmc_enabled c q chain t pc sp : mpmc_rel c q chain -> threads c !! t = Some pc -> pc <> PIdle ->
  exists s' pc' e, mpmc_tstep t (PGo sp) (shared c) pc = Some (s', pc', e) /\
    (sp = false -> (mpmc_cost (p_fifo s') pc' < mpmc_cost (p_fifo (shared c)) pc)%nat).
Proof.
  intros HR Ht Hne. pose proof (pr_ok _ _ _ HR _ _ Ht) as Hok. pose proof (rel_head_in _ _ _ HR) as Hhd.
  assert (forall a, is_Some (p_heap (shared c) !! a) -> is_Some (load_data (p_heap (shared c)) a) /\
    is_Some (load_next (p_heap (shared c)) a) /\
    (forall v, is_Some (store_next (p_heap (shared c)) a v))) as Hacc.
  { intros a [nd Ha]. unfold load_data, load_next, store_next. rewrite Ha. eauto. }
  pose proof (fun a H => Hacc a (proj1 (live_alloc HR a H))) as Hlive.
  pose proof (fun n H => Hacc n (proj1 (proj2 (new_private HR t pc n Ht H)))) as Hnew.
  destruct (shared c) as [h nx f hz rt cl] eqn:Es; cbn [p_heap p_next p_fifo p_hazard p_retired p_clear] in *.
  destruct pc as [|n|n|n x|n x|n x|n x|x n| | |x|x|x| |x p|x p|x p|x p v|x v|x v|x v]; try done;
    cbn [mpmc_tstep mpmc_fifo_push mpmc_fifo_trypop]; simpl in Hok.
  - destruct (Hnew n eq_refl) as (_ & _ & Hs). destruct (Hs NULL) as [h' ->]. simpl. eauto 10.
  - do 3 eexists. split; [done|]. intros _. simpl. rewrite Z.eqb_refl. lia.
  - do 3 eexists. split; [done|]. intros _. simpl. case_match; lia.
  - case_decide; subst; do 3 eexists; (split; [done|]); intros _; simpl; [rewrite Z.eqb_refl; lia|].
    rewrite (proj2 (Z.eqb_neq _ _)) by done. lia.
  - destruct (new_private HR t _ n Ht eq_refl) as (_ & [nd Hnd] & _). rewrite Es in Hnd. simpl in Hnd.
    rewrite Hnd. simpl. do 3 eexists. split; [done|]. intros _. simpl. case_match; lia.
  - destruct (Hnew n eq_refl) as ([d ->] & _). destruct (Z.eqb x (f_tail f)) eqn:Ex, sp; simpl;
      do 3 eexists; (split; [done|]); intros Hsp; try discriminate Hsp; simpl; rewrite Ex; lia.
  - destruct (push_link_chain HR _ _ _ Ht) as [Hx _].
    destruct (Hlive x ltac:(apply elem_of_app; by left)) as (_ & _ & Hs). destruct (Hs n) as [h' ->]. simpl. eauto 10.
  - eauto 10.
  - do 3 eexists. split; [done|]. intros _. simpl. rewrite Z.eqb_refl. lia.
  - do 3 eexists. split; [done|]. intros _. simpl. case_match; lia.
  - case_decide; subst; do 3 eexists; (split; [done|]); intros _; simpl; [rewrite Z.eqb_refl; lia|].
    rewrite (proj2 (Z.eqb_neq _ _)) by done. lia.
  - pose proof (Hlive x ltac:(rewrite <- Es in Hok; eapply was_head_live; [|exact Hok]; by rewrite Es)) as (_ & [p Hp] & _).
    rewrite Hp. simpl. case_decide; do 3 eexists; (split; [done|]); intros _; simpl; case_match; lia.
  - eauto 10.
  - do 3 eexists. split; [done|]. intros _. simpl. case_match; lia.
  - case_decide; subst; do 3 eexists; (split; [done|]); intros _; simpl; [rewrite Z.eqb_refl; lia|].
    rewrite (proj2 (Z.eqb_neq _ _)) by done. lia.
  - destruct Hok as (_ & _ & _ & _ & Hp). destruct (Hlive p Hp) as ([v ->] & _). simpl.
    do 3 eexists. split; [done|]. intros _. simpl. case_match; lia.
  - destruct (Z.eqb x (f_head f)) eqn:Ex, sp; simpl; do 3 eexists; (split; [done|]); intros Hsp; try discriminate Hsp; simpl; rewrite Ex; lia.
  - do 3 eexists. split; [done|]. intros _. simpl. lia.
  - do 3 eexists. split; [done|]. intros _. simpl. lia.
  - do 3 eexists. split; [done|]. intros _. simpl. lia.
Qed.

Lemma mpmc_cost_bound f pc : (mpmc_cost f pc <= 14)%nat.
Proof. destruct pc; simpl; repeat case_match; lia. Qed.

Lemma mpmc_solo k : forall c q chain t pc, mpmc_rel c q chain -> threads c !! t = Some pc ->
  (mpmc_cost (p_fifo (shared c)) pc <= k)%nat ->
  exists j c' evs, (j <= k)%nat /\ run mpmc_step (replicate j (t, PGo false)) c = Some (c', evs) /\
    threads c' !! t = Some PIdle.
Proof.
  induction k as [|k IH]; intros c q chain t pc HR Ht Hk.
  - exists 0%nat, c, []. split_and!; [done|done|]. rewrite Ht. destruct pc; simpl in Hk; repeat case_match; done || lia.
  - destruct (decide (mpmc_cost (p_fifo (shared c)) pc = 0%nat)) as [E|E].
    { destruct (IH c q chain t pc HR Ht) as (j & c' & evs & ? & ?); [lia|]. exists j, c', evs. split; [lia|done]. }
    destruct (mpmc_enabled c q chain t pc false HR Ht) as (s' & pc' & e & Hs & Hm); [by intros ->|].
    assert (mpmc_step (t, PGo false) c = Some (Conf s' (<[t:=pc']> (threads c)), e)) as Hstep.
    { unfold mpmc_step, conf_step; simpl. by rewrite Ht, Hs. }
    destruct (mpmc_simulation _ _ _ _ _ _ HR Hstep) as (q' & chain' & _ & HR').
    destruct (IH _ _ _ t pc' HR') as (j & c' & evs & Hj & Hr & Hi).
    + simpl. apply list_lookup_insert_eq. by eapply lookup_lt_Some.
    + simpl. specialize (Hm eq_refl). lia.
    + exists (S j), c', (e ++ evs). split_and!; [lia| |done]. simpl. by rewrite Hstep, Hr.
Qed.

(** ** Properties *)

(** C4: First in, first out, with several consumers and memory reclamation.
    In every interleaving of pushes, pops, failing compare-and-swaps and the
    freeing of retired nodes that the hazard pointers, read one at a time, did not
    announce, with freed addresses reused at will, the elements come out in the order in which the
    tail was exchanged, each exactly once. *)
Theorem mpmc_fifo_order n ls c evs :
  run mpmc_step ls (mpmc_init n) = Some (c, evs) ->
  exists q, spec_run fifo_spec evs [] = Some q.
Proof. intros Hrun. destruct (mpmc_run_rel _ _ _ _ Hrun) as (q & _ & Hq & _). by exists q. Qed.

(** C5: No use after free.  In every reachable state the next access of every
    thread inside a push or a pop goes to an allocated node: it can take its
    step, whether or not its compare-and-swap fails. *)
Theorem mpmc_memory_safe n ls c evs t pc sp :
  run mpmc_step ls (mpmc_init n) = Some (c, evs) ->
  threads c !! t = Some pc -> pc <> PIdle ->
  exists c' e, mpmc_step (t, PGo sp) c = Some (c', e).
Proof.
  intros Hrun Ht Hne. destruct (mpmc_run_rel _ _ _ _ Hrun) as (q & chain & _ & HR).
  destruct (mpmc_enabled c q chain t pc sp HR Ht Hne) as (s' & pc' & e & Hs & _).
  exists (Conf s' (<[t:=pc']> (threads c))), e. unfold mpmc_step, conf_step; simpl. by rewrite Ht, Hs.
Qed.

(** Termination without interference.  From every reachable state an
    operation that runs alone, and whose compare-and-swap does not fail
    spuriously, returns within 14 steps. *)
Theorem mpmc_solo_terminates n ls c evs t pc :
  run mpmc_step ls (mpmc_init n) = Some (c, evs) -> threads c !! t = Some pc ->
  exists j c' evs', (j <= 14)%nat /\ run mpmc_step (replicate j (t, PGo false)) c = Some (c', evs') /\
    threads c' !! t = Some PIdle.
Proof.
  intros Hrun Ht. destruct (mpmc_run_rel _ _ _ _ Hrun) as (q & chain & _ & HR).
  by eapply mpmc_solo; [exact HR|exact Ht|apply mpmc_cost_bound].
Qed.

(** Only the load of the head's [prev] answers empty. *)
Lemma mpmc_tstep_empty t ch s pc s' pc' e : mpmc_tstep t ch s pc = Some (s', pc', e) -> FEmpty ∈ e ->
  exists hd, pc = PPopPrev hd /\ load_next (p_heap s) hd = Some NULL.
Proof.
  intros Hs He. destruct s as [h nx f hz rt cl].
  assert (forall (x : fifo_ev), FEmpty ∈ [x] -> x = FEmpty) as H1 by set_solver.
  assert (FEmpty ∉ @nil fifo_ev) as H0 by set_solver.
  destruct ch as [n v| |sp|n i second|n];
    [..|by apply scan_inv in Hs as (h_i & _ & _ & _ & _ & _ & ->)|by apply reclaim_inv in Hs as (_ & _ & _ & _ & ->)].
  all: destruct pc; simpl in Hs; repeat case_decide; try discriminate Hs; try (simplify_eq; by destruct H0).
  all: try (destruct (store_next _ _ _); simplify_eq/=; by destruct H0).
  - destruct (h !! new_node); simplify_eq/=. by destruct H0.
  - destruct (negb _ && _); [destruct (load_data _ _)|]; simplify_eq/=; [by apply H1 in He|by destruct H0].
  - destruct (load_next h head) as [p|] eqn:E; simplify_eq/=. case_decide; simplify_eq; first [by eauto | by destruct H0].
  - destruct (load_data _ _); simplify_eq/=. by destruct H0.
  - destruct (negb _ && _); simplify_eq/=; [by apply H1 in He|by destruct H0].
Qed.

(** What an empty answer means.  A pop that returns NULL read it at a time
    when the queue was empty, or the push of its oldest element had exchanged
    the tail and not yet linked it. *)
Theorem mpmc_empty_means n ls c evs lbl c' e :
  run mpmc_step ls (mpmc_init n) = Some (c, evs) ->
  mpmc_step lbl c = Some (c', e) -> FEmpty ∈ e ->
  spec_run fifo_spec evs [] = Some [] \/
  exists t new_node, threads c !! t = Some (PPushLink (f_head (p_fifo (shared c))) new_node).
Proof.
  intros Hrun Hstep He. destruct (mpmc_run_rel _ _ _ _ Hrun) as (q & chain & Hq & HR).
  destruct lbl as [t ch]. apply conf_step_inv in Hstep as (pc & s' & pc' & Ht & Hs & ->).
  destruct (mpmc_tstep_empty _ _ _ _ _ _ _ Hs He) as (hd0 & -> & Hn).
  destruct (pr_ok _ _ _ HR _ _ Ht) as [_ [->|[_ (p & Hp & Hpn)]]]; [|congruence].
  pose proof (pr_q _ _ _ HR) as Hqq. pose proof (pr_chain _ _ _ HR) as Hch.
  pose proof (ch_head _ _ _ _ Hch) as Hh.
  destruct chain as [|hd [|x rest]]; [done|left; by rewrite Hq, Hqq|right].
  simpl in Hh. injection Hh as ->.
  destruct (ch_link _ _ _ _ Hch 0%nat _ _ eq_refl eq_refl) as [[Hx _]|[_ Hp]].
  - rewrite Hx in Hn. injection Hn as ->. destruct (ch_null _ _ _ _ Hch). set_solver.
  - apply list_elem_of_omap in Hp as (p & [i Hi]%list_elem_of_lookup_1 & Hpe).
    exists i, x. rewrite Hi. by destruct p; simplify_eq/=.
Qed.

(** Destroying a complete chain retires exactly its nodes. *)
Lemma mpmc_destroy_chain chain : forall h fuel hd tl,
  chain !! 0%nat = Some hd -> last chain = Some tl -> NULL ∉ chain ->
  (forall i a b, chain !! i = Some a -> chain !! S i = Some b -> load_next h a = Some b) ->
  load_next h tl = Some NULL -> (length chain < fuel)%nat ->
  mpmc_fifo_destroy fuel h hd = Some chain.
Proof.
  induction chain as [|c chain IH]; intros h fuel hd tl Hhd Hl Hnull Hlink Htl Hf; [done|].
  simpl in Hhd. injection Hhd as <-. destruct fuel as [|fuel]; [simpl in Hf; lia|].
  apply not_elem_of_cons in Hnull as [Hc0 Hnull]. simpl. rewrite decide_False by done.
  destruct chain as [|c1 chain].
  - simpl in Hl. injection Hl as <-. rewrite Htl. simpl. destruct fuel as [|fuel]; [simpl in Hf; lia|]. done.
  - rewrite (Hlink 0%nat c c1) by done. simpl. rewrite (IH h fuel c1 tl); try done.
    + intros i a b Ha Hb. by apply (Hlink (S i)).
    + simpl in *. lia.
Qed.

(** Destruction.  When no thread is in a push between its exchange and its
    link, the destroy loop ends after one iteration per node and retires the
    dummy and one node per queued element, all distinct and allocated and none
    retired before. *)
Theorem mpmc_destroy_retires n ls c evs q :
  run mpmc_step ls (mpmc_init n) = Some (c, evs) -> spec_run fifo_spec evs [] = Some q ->
  (forall t pc, threads c !! t = Some pc -> p_pend pc = None) ->
  exists freed, mpmc_fifo_destroy (length q + 2) (p_heap (shared c)) (f_head (p_fifo (shared c))) = Some freed /\
    length freed = S (length q) /\ NoDup freed /\
    (forall a, a ∈ freed -> is_Some (p_heap (shared c) !! a) /\ a ∉ p_retired (shared c)).
Proof.
  intros Hrun Hq Hidle. destruct (mpmc_run_rel _ _ _ _ Hrun) as (q' & chain & Hq' & HR).
  rewrite Hq in Hq'. injection Hq' as <-.
  assert (omap p_pend (threads c) = []) as Hom.
  { apply elem_of_nil_inv. intros x (pc & [t Ht]%list_elem_of_lookup_1 & Hx)%list_elem_of_omap.
    rewrite (Hidle _ _ Ht) in Hx. congruence. }
  pose proof (pr_chain _ _ _ HR) as Hch. rewrite Hom in Hch.
  assert (forall a, a ∈ chain -> is_Some (p_heap (shared c) !! a)) as Hal.
  { intros a Ha. apply (pr_alloc _ _ _ HR). unfold p_nodes. set_solver. }
  assert (length chain = S (length q)) as Hlen.
  { rewrite (pr_q _ _ _ HR), chain_data_length by (intros l Hl; apply Hal; destruct chain; [done|]; by right).
    pose proof (ch_head _ _ _ _ Hch). destruct chain; [done|]. simpl. by rewrite drop_0. }
  exists chain. split_and!; [|done|apply Hch|].
  - eapply mpmc_destroy_chain; try apply Hch; [|lia].
    intros i a b Ha Hb. destruct (ch_link _ _ _ _ Hch _ _ _ Ha Hb) as [[? _]|[_ Hin]]; [done|]. by apply elem_of_nil in Hin.
  - intros a Ha. split; [by apply Hal|]. intros Hr. pose proof (pr_nd _ _ _ HR) as Hnd.
    unfold p_nodes, passed in Hnd. apply NoDup_app in Hnd as (_ & Hd & _). apply (Hd a Ha). set_solver.
Qed.

(** ** Runs *)

(** Thread 0 pushes 70; thread 1 pops it, which retires node 1; the node is
    freed and thread 0 gets its address again for a second push. *)
Definition mpmc_demo_push : list (nat * mpmc_choice) := (0%nat, PCallPush 2 70) :: replicate 8 (0%nat, PGo false).
Definition mpmc_demo_scan (n : Z) : list (nat * mpmc_choice) :=
  [(0%nat, PScan n 0 false); (0%nat, PScan n 0 true); (0%nat, PScan n 1 false); (0%nat, PScan n 1 true)].
Definition mpmc_demo : list (nat * mpmc_choice) :=
  mpmc_demo_push ++ (1%nat, PCallPop) :: replicate 11 (1%nat, PGo false) ++
  mpmc_demo_scan 1 ++ [(0%nat, PReclaim 1); (0%nat, PCallPush 1 80)] ++ replicate 8 (0%nat, PGo false).

Lemma mpmc_fifo_order_witness : exists q, spec_run fifo_spec [FEnq 70; FDeq 70; FEnq 80] [] = Some q.
Proof.
  refine (mpmc_fifo_order 2 mpmc_demo _ [FEnq 70; FDeq 70; FEnq 80] _). vm_compute. reflexivity.
Defined.

(** Thread 1 has read [head->prev] of node 1 and is about to announce node 2,
    while thread 0 pops and retires node 1, which the scan of thread 1's hazard
    pointer finds. *)
Definition mpmc_demo_race : list (nat * mpmc_choice) :=
  mpmc_demo_push ++ (1%nat, PCallPop) :: replicate 4 (1%nat, PGo false) ++
  (0%nat, PCallPop) :: replicate 11 (0%nat, PGo false).

Lemma mpmc_memory_safe_witness : exists c : mpmc_conf,
  run mpmc_step mpmc_demo_race (mpmc_init 2) = Some (c, [FEnq 70; FDeq 70]) /\
  p_retired (shared c) = [1] /\ mpmc_step (0%nat, PReclaim 1) c = None /\ mpmc_step (0%nat, PScan 1 1 false) c = None /\
  exists c' e, mpmc_step (1%nat, PGo true) c = Some (c', e).
Proof.
  eexists. split; [vm_compute; reflexivity|]. split; [reflexivity|]. do 2 (split; [vm_compute; reflexivity|]).
  eapply (mpmc_memory_safe 2 mpmc_demo_race _ [FEnq 70; FDeq 70] 1 (PPopUsing1 1 2) true).
  - vm_compute. reflexivity.
  - reflexivity.
  - discriminate.
Defined.

Lemma mpmc_solo_terminates_witness : exists c : mpmc_conf,
  run mpmc_step mpmc_demo_race (mpmc_init 2) = Some (c, [FEnq 70; FDeq 70]) /\
  exists j c' evs', (j <= 14)%nat /\ run mpmc_step (replicate j (1%nat, PGo false)) c = Some (c', evs') /\
    threads c' !! 1%nat = Some PIdle.
Proof.
  eexists. split; [vm_compute; reflexivity|].
  eapply (mpmc_solo_terminates 2 mpmc_demo_race _ [FEnq 70; FDeq 70] 1 (PPopUsing1 1 2)).
  - vm_compute. reflexivity.
  - reflexivity.
Defined.

Lemma mpmc_empty_means_witness : exists c : mpmc_conf,
  run mpmc_step (take 7 mpmc_demo_push ++ (1%nat, PCallPop) :: replicate 3 (1%nat, PGo false)) (mpmc_init 2) =
    Some (c, [FEnq 70]) /\
  (spec_run fifo_spec [FEnq 70] [] = Some [] \/
   exists t new_node, threads c !! t = Some (PPushLink (f_head (p_fifo (shared c))) new_node)).
Proof.
  eexists. split; [vm_compute; reflexivity|].
  eapply (mpmc_empty_means 2 (take 7 mpmc_demo_push ++ (1%nat, PCallPop) :: replicate 3 (1%nat, PGo false))
    _ [FEnq 70] (1%nat, PGo false) _ [FEmpty]).
  - vm_compute. reflexivity.
  - vm_compute. reflexivity.
  - left.
Defined.

Lemma mpmc_destroy_retires_witness : exists c : mpmc_conf,
  run mpmc_step mpmc_demo (mpmc_init 2) = Some (c, [FEnq 70; FDeq 70; FEnq 80]) /\
  exists freed, mpmc_fifo_destroy 3 (p_heap (shared c)) (f_head (p_fifo (shared c))) = Some freed /\
    length freed = 2%nat /\ NoDup freed /\
    (forall a, a ∈ freed -> is_Some (p_heap (shared c) !! a) /\ a ∉ p_retired (shared c)).
Proof.
  eexists. split; [vm_compute; reflexivity|].
  eapply (mpmc_destroy_retires 2 mpmc_demo _ [FEnq 70; FDeq 70; FEnq 80] [80]).
  - vm_compute. reflexivity.
  - reflexivity.
  - intros [|[|t]] pc Ht; vm_compute in Ht; [injection Ht as <-|injection Ht as <-|discriminate Ht]; reflexivity.
Defined.
