(* ===== verification/WaitQueue.v ===== *)
(** * Queues of sleeping fibers ([src/fiber_manager.c]: the wait/wake functions
    over an [mpsc_fifo])

    The class [WaitQueue] is what the blocking primitives rely on: a queue of
    fibers, oldest first, in which an element stays invisible between the
    exchange of the tail and the link of its predecessor.  [mpsc_wait_queue]
    discharges it with the node heap of [mpsc_fifo.h], including the recycling
    of the nodes through [fiber_t.mpsc_fifo_node]. *)

From S2P Require Import Prelude MpscFifo.

(** ** The interface *)

(** Fibers are numbers.  [wq_repr n q l]: among [n] fibers, [q] holds the fibers
    of [l], oldest first, each with a flag saying that its push has completed.
    An operation that returns [None] has made an invalid memory access. *)
Class WaitQueue (Q : Type) := {
  wq_init : nat -> Q;
  wq_xchg : nat -> Q -> option Q;               (* first half of the push *)
  wq_link : nat -> Q -> option Q;               (* second half *)
  wq_trypop : Q -> option (option nat * Q);
  wq_destroy : Q -> option (list Z);            (* the nodes it frees *)
  wq_kept : Q -> list Z;                        (* nodes it must not free *)
  wq_repr : nat -> Q -> list (nat * bool) -> Prop;
  wq_init_spec n : wq_repr n (wq_init n) [];
  wq_xchg_spec n q l f : wq_repr n q l -> (f < n)%nat -> f ∉ l.*1 ->
    exists q', wq_xchg f q = Some q' /\ wq_repr n q' (l ++ [(f, false)]);
  wq_link_spec n q l1 l2 f : wq_repr n q (l1 ++ (f, false) :: l2) ->
    exists q', wq_link f q = Some q' /\ wq_repr n q' (l1 ++ (f, true) :: l2);
  wq_pop_spec n q l f : wq_repr n q ((f, true) :: l) ->
    exists q', wq_trypop q = Some (Some f, q') /\ wq_repr n q' l;
  wq_pop_empty n q l : wq_repr n q l -> (forall f, head l <> Some (f, true)) ->
    wq_trypop q = Some (None, q);
  wq_destroy_spec n q : wq_repr n q [] -> exists dummy, wq_destroy q = Some [dummy] /\ dummy ∉ wq_kept q
}.

(** ** The implementation *)

(** [mq_node f] is the fiber's [mpsc_fifo_node] (absent: NULL); [mq_push f] the
    locals [prev_tail] and [new_node] of a push it has not linked yet. *)
Record mpsc_queue := MQueue {
  mq_heap : gmap Z node;
  mq_fifo : mpsc_fifo;
  mq_node : gmap nat Z;
  mq_push : gmap nat (Z * Z)
}.

(** The first half of [fiber_manager_wait_in_mpsc_queue]: the node leaves the
    fiber, gets the fiber as its data and is exchanged into the tail. *)
Definition mpsc_wait_xchg (f : nat) (q : mpsc_queue) : option mpsc_queue :=
  n ← mq_node q !! f;
  h ← store_data (mq_heap q) n (Z.of_nat f);
  r1 ← mpsc_fifo_push (MShared h (mq_fifo q) ∅ None) (MPushInit n);
  r2 ← mpsc_fifo_push r1.1.1 r1.1.2;
  match r2.1.2 with
  | MPushLink prev n => Some (MQueue (m_heap r2.1.1) (m_fifo r2.1.1)
      (delete f (mq_node q)) (<[f:=(prev, n)]> (mq_push q)))
  | _ => None
  end.

(** The second half: [prev_tail->next = new_node]. *)
Definition mpsc_wait_link (f : nat) (q : mpsc_queue) : option mpsc_queue :=
  p ← mq_push q !! f;
  r ← mpsc_fifo_push (MShared (mq_heap q) (mq_fifo q) ∅ None) (MPushLink p.1 p.2);
  Some (MQueue (m_heap r.1.1) (m_fifo r.1.1) (mq_node q) (delete f (mq_push q))).

(** The pop of [fiber_manager_wake_from_mpsc_queue]: the whole
    [mpsc_fifo_trypop] (only one fiber consumes), then the popped node becomes
    the woken fiber's [mpsc_fifo_node]. *)
Definition mpsc_wake_trypop (q : mpsc_queue) : option (option nat * mpsc_queue) :=
  let s0 := MShared (mq_heap q) (mq_fifo q) ∅ None in
  r1 ← mpsc_fifo_trypop s0 MPopHead;
  r2 ← mpsc_fifo_trypop r1.1.1 r1.1.2;
  match r2.1.2 with
  | MPopDone _ => Some (None, q)
  | pc =>
      r3 ← mpsc_fifo_trypop r2.1.1 pc;
      r4 ← mpsc_fifo_trypop r3.1.1 r3.1.2;
      r5 ← mpsc_fifo_trypop r4.1.1 r4.1.2;
      match r5.1.2 with
      | MPopDone out =>
          d ← load_data (m_heap r5.1.1) out;
          let to_schedule := Z.to_nat d in
          Some (Some to_schedule, MQueue (m_heap r5.1.1) (m_fifo r5.1.1)
                 (<[to_schedule:=out]> (mq_node q)) (mq_push q))
      | _ => None
      end
  end.

(** Every fiber is created with a node ([fiber_create_no_sched]); the dummy is
    node 1 and fiber [f] starts with node [f + 2]. *)
Definition mpsc_queue_init (n : nat) : mpsc_queue :=
  let nodes := (fun f => Z.of_nat f + 2) <$> seq 0 n in
  let '(h, f) := mpsc_fifo_init (list_to_map ((fun a => (a, Node 0 NULL)) <$> nodes)) 1 in
  MQueue h f (list_to_map (zip (seq 0 n) nodes)) ∅.

(** The nodes [mpsc_fifo_destroy] frees; the nodes in the hands of the fibers
    are freed with them. *)
Definition mpsc_queue_destroy (q : mpsc_queue) : option (list Z) :=
  h ← mpsc_fifo_destroy (size (mq_heap q) + 2) (mq_heap q) (f_head (mq_fifo q));
  Some (elements (dom (mq_heap q) ∖ dom h)).
Definition mpsc_queue_kept (q : mpsc_queue) : list Z := (map_to_list (mq_node q)).*2.

(** ** The representation invariant *)

Definition link_at (chain : list Z) (i : nat) : option (Z * Z) :=
  match chain !! i, chain !! S i with Some p, Some a => Some (p, a) | _, _ => None end.

Record mpsc_repr (n : nat) (q : mpsc_queue) (l : list (nat * bool)) (chain : list Z) : Prop := {
  mq_chain : chain_inv (mq_heap q) (mq_fifo q) (map_to_list (mq_push q)).*2 chain;
  mq_len : length chain = S (length l);
  mq_fibers : NoDup (l.*1);
  mq_data : forall (i f : nat) (b : bool), l !! i = Some (f, b) ->
    exists a, chain !! S i = Some a /\ load_data (mq_heap q) a = Some (Z.of_nat f);
  mq_flag : forall (i f : nat) (b : bool), l !! i = Some (f, b) ->
    mq_push q !! f = if b then None else link_at chain i;
  mq_idle : forall (f : nat), f ∉ l.*1 -> mq_push q !! f = None;
  mq_own : forall (f : nat), is_Some (mq_node q !! f) <-> (f < n)%nat /\ f ∉ l.*1;
  mq_below : forall (f : nat), f ∈ l.*1 -> (f < n)%nat;
  mq_nodes : NoDup (chain ++ (map_to_list (mq_node q)).*2);
  mq_alloc : forall (a : Z), a ∈ chain ++ (map_to_list (mq_node q)).*2 -> a <> NULL /\ is_Some (mq_heap q !! a)
}.

Definition mpsc_queue_repr (n : nat) (q : mpsc_queue) (l : list (nat * bool)) : Prop :=
  exists chain, mpsc_repr n q l chain.

(** ** Lemmas *)

Lemma link_at_Some chain i p a : link_at chain i = Some (p, a) <->
  chain !! i = Some p /\ chain !! S i = Some a.
Proof.
  unfold link_at. destruct (chain !! i), (chain !! S i); naive_solver.
Qed.

Lemma link_at_app chain x i : (S i < length chain)%nat -> link_at (chain ++ [x]) i = link_at chain i.
Proof. intros Hi. unfold link_at. by rewrite !lookup_app_l by lia. Qed.

(** Completing a push changes one flag. *)
Lemma relinked_lookup (l1 l2 : list (nat * bool)) f : NoDup (l1 ++ (f, false) :: l2).*1 ->
  forall i g b, (l1 ++ (f, true) :: l2) !! i = Some (g, b) ->
    (i = length l1 /\ g = f /\ b = true) \/ (g <> f /\ (l1 ++ (f, false) :: l2) !! i = Some (g, b)).
Proof.
  intros Hnd i g b Hg. assert ((l1 ++ (f, true) :: l2).*1 = (l1 ++ (f, false) :: l2).*1) as Hfst by (by rewrite !fmap_app).
  rewrite <- Hfst in Hnd. destruct (decide (i = length l1)) as [->|Hne].
  - left. rewrite lookup_app_r, Nat.sub_diag in Hg by lia. by simplify_eq/=.
  - right. split.
    + intros ->. apply Hne. eapply (NoDup_lookup _ _ _ f Hnd); rewrite list_lookup_fmap.
      * by rewrite Hg.
      * by rewrite lookup_app_r, Nat.sub_diag by lia.
    + destruct (decide (i < length l1)%nat).
      * rewrite lookup_app_l in * by lia. done.
      * rewrite lookup_app_r in * by lia. destruct (i - length l1)%nat eqn:?; [lia|done].
Qed.

Lemma mem_values {K} `{Countable K} {A} (m : gmap K A) (x : A) :
  x ∈ (map_to_list m).*2 <-> exists k, m !! k = Some x.
Proof.
  rewrite list_elem_of_fmap. split.
  - intros ([k y] & -> & Hk%elem_of_map_to_list). by exists k.
  - intros [k Hk]. exists (k, x). split; [done|]. by apply elem_of_map_to_list.
Qed.

Lemma values_insert {K} `{Countable K} {A} (m : gmap K A) k (x : A) :
  m !! k = None -> (map_to_list (<[k:=x]> m)).*2 ≡ₚ x :: (map_to_list m).*2.
Proof. intros Hk. by rewrite map_to_list_insert. Qed.

Lemma values_delete {K} `{Countable K} {A} (m : gmap K A) k (x : A) :
  m !! k = Some x -> (map_to_list m).*2 ≡ₚ x :: (map_to_list (delete k m)).*2.
Proof. intros Hk. by rewrite <- (map_to_list_delete m k x Hk). Qed.

Section repr.
Variables (n : nat) (q : mpsc_queue) (l : list (nat * bool)) (chain : list Z).
Hypothesis HR : mpsc_repr n q l chain.

Lemma repr_next i : (i < length l)%nat -> is_Some (link_at chain i).
Proof using HR.
  intros Hi. pose proof (mq_len _ _ _ _ HR).
  destruct (lookup_lt_is_Some_2 chain i) as [p Hp]; [lia|].
  destruct (lookup_lt_is_Some_2 chain (S i)) as [a Ha]; [lia|].
  exists (p, a). by apply link_at_Some.
Qed.

(** A completed push is not among the pending links. *)
Lemma repr_flag_pend i f b p a : l !! i = Some (f, b) -> link_at chain i = Some (p, a) ->
  (p, a) ∈ (map_to_list (mq_push q)).*2 <-> b = false.
Proof using HR.
  intros Hi Hp. rewrite mem_values. split.
  - intros [g Hg]. destruct (decide (g ∈ l.*1)) as [Hin|Hn]; [|by rewrite (mq_idle _ _ _ _ HR) in Hg].
    apply list_elem_of_fmap in Hin as ([g' c] & -> & [j Hj]%list_elem_of_lookup_1). simpl in Hg.
    rewrite (mq_flag _ _ _ _ HR _ _ _ Hj) in Hg. destruct c; [done|].
    apply link_at_Some in Hp as [Hp _]. apply link_at_Some in Hg as [Hg _].
    assert (i = j) as -> by (eapply NoDup_lookup; [apply (ch_nd _ _ _ _ (mq_chain _ _ _ _ HR))|done..]).
    congruence.
  - intros ->. exists f. by rewrite (mq_flag _ _ _ _ HR _ _ _ Hi).
Qed.

Lemma repr_own_fresh f a : mq_node q !! f = Some a -> a ∉ chain.
Proof using HR.
  intros Ha Hin. destruct (NoDup_app chain (map_to_list (mq_node q)).*2) as [Hn _].
  destruct (Hn (mq_nodes _ _ _ _ HR)) as (_ & Hd & _). apply (Hd _ Hin). apply mem_values. by exists f.
Qed.

End repr.

Lemma load_insert_other (h : gmap Z node) a x b : b <> a ->
  load_next (<[a:=x]> h) b = load_next h b /\ load_data (<[a:=x]> h) b = load_data h b.
Proof. intros Hne. unfold load_next, load_data. by rewrite lookup_insert_ne. Qed.

Lemma mpsc_wait_xchg_eq q f a nd :
  mq_node q !! f = Some a -> mq_heap q !! a = Some nd ->
  mpsc_wait_xchg f q = Some (MQueue (<[a:=Node (Z.of_nat f) NULL]> (mq_heap q))
    (Fifo (f_head (mq_fifo q)) a) (delete f (mq_node q))
    (<[f:=(f_tail (mq_fifo q), a)]> (mq_push q))).
Proof.
  intros Ha Hnd. unfold mpsc_wait_xchg. rewrite Ha. simpl. unfold store_data. rewrite Hnd. simpl.
  unfold store_next. rewrite lookup_insert_eq. simpl. unfold load_data.
  rewrite lookup_insert_eq. simpl. by rewrite insert_insert_eq.
Qed.

Lemma mpsc_xchg_repr n q l chain f :
  mpsc_repr n q l chain -> (f < n)%nat -> f ∉ l.*1 ->
  exists q' a, mpsc_wait_xchg f q = Some q' /\ mpsc_repr n q' (l ++ [(f, false)]) (chain ++ [a]).
Proof.
  intros HR Hf Hfl. destruct (proj2 (mq_own _ _ _ _ HR f) (conj Hf Hfl)) as [a Ha].
  assert (a ∈ (map_to_list (mq_node q)).*2) as Hav by (apply mem_values; by exists f).
  destruct (mq_alloc _ _ _ _ HR a) as [Ha0 [nd Hnd]]; [set_solver|].
  pose proof (repr_own_fresh _ _ _ _ HR _ _ Ha) as Hfresh.
  pose proof (mq_idle _ _ _ _ HR _ Hfl) as Hidle.
  pose proof (mq_chain _ _ _ _ HR) as Hch. pose proof (mq_len _ _ _ _ HR) as Hlen.
  eexists _, a. split; [by eapply mpsc_wait_xchg_eq|].
  set (h2 := <[a:=Node (Z.of_nat f) NULL]> (mq_heap q)).
  assert (forall b, b ∈ chain -> load_next h2 b = load_next (mq_heap q) b /\
    load_data h2 b = load_data (mq_heap q) b) as Hsame.
  { intros b Hb. apply load_insert_other. by intros ->. }
  assert (chain !! length l = Some (f_tail (mq_fifo q))) as Htl.
  { pose proof (ch_last _ _ _ _ Hch) as Hl. rewrite last_lookup, Hlen in Hl. done. }
  assert (Permutation (chain ++ (map_to_list (mq_node q)).*2)
    ((chain ++ [a]) ++ (map_to_list (delete f (mq_node q))).*2)) as Hperm.
  { rewrite (values_delete _ _ _ Ha). by rewrite <- app_assoc. }
  split; cbn [mq_heap mq_fifo mq_node mq_push].
  - eapply chain_perm; [symmetry; by apply values_insert|].
    apply chain_xchg; [|done|done|unfold h2, load_next; by rewrite lookup_insert_eq].
    eapply chain_heap; [|done]. intros b Hb. by apply Hsame.
  - rewrite !length_app, Hlen. simpl. lia.
  - rewrite fmap_app. simpl. apply NoDup_app. split_and!; [apply HR| |apply NoDup_singleton].
    intros x Hx ->%list_elem_of_singleton. done.
  - intros i g b [Hi|[Hi Hg]]%lookup_app_Some.
    + destruct (mq_data _ _ _ _ HR _ _ _ Hi) as (c & Hc & Hd). exists c.
      rewrite lookup_app_l by (by eapply lookup_lt_Some). split; [done|].
      rewrite (proj2 (Hsame c (list_elem_of_lookup_2 _ _ _ Hc))). done.
    + apply list_lookup_singleton_Some in Hg as [Hz ?]. simplify_eq. exists a.
      rewrite lookup_app_r by lia. replace (S i - length chain)%nat with 0%nat by lia. split; [done|].
      unfold h2, load_data. by rewrite lookup_insert_eq.
  - intros i g b [Hi|[Hi Hg]]%lookup_app_Some.
    + assert (g <> f) as Hne.
      { intros ->. apply Hfl. apply list_elem_of_fmap. exists (f, b). split; [done|]. by eapply list_elem_of_lookup_2. }
      rewrite lookup_insert_ne by done. rewrite link_at_app by (apply lookup_lt_Some in Hi; lia).
      by apply (mq_flag _ _ _ _ HR).
    + apply list_lookup_singleton_Some in Hg as [Hz ?]. simplify_eq. rewrite lookup_insert_eq.
      symmetry. apply link_at_Some. rewrite lookup_app_l, lookup_app_r by lia.
      replace i with (length l) by lia. rewrite Hlen, Nat.sub_diag. done.
  - intros g Hg. rewrite fmap_app in Hg. rewrite lookup_insert_ne by set_solver.
    apply (mq_idle _ _ _ _ HR). set_solver.
  - intros g. rewrite fmap_app. simpl. destruct (decide (g = f)) as [->|Hne].
    + rewrite lookup_delete_eq. split; [intros [? ?]; done|]. intros [_ Hn]. set_solver.
    + rewrite lookup_delete_ne by done. rewrite (mq_own _ _ _ _ HR). set_solver.
  - intros g. rewrite fmap_app, elem_of_app. intros [Hg|Hg%list_elem_of_singleton]; [by apply (mq_below _ _ _ _ HR)|].
    simpl in Hg. by subst.
  - rewrite <- Hperm. apply HR.
  - intros b. rewrite <- Hperm. intros Hb. destruct (mq_alloc _ _ _ _ HR b Hb) as [? ?]. split; [done|].
    unfold h2. rewrite lookup_insert. case_decide; eauto.
Qed.

Lemma mpsc_link_repr n q l1 l2 chain f :
  mpsc_repr n q (l1 ++ (f, false) :: l2) chain ->
  exists q', mpsc_wait_link f q = Some q' /\ mpsc_repr n q' (l1 ++ (f, true) :: l2) chain.
Proof.
  intros HR. set (l := l1 ++ (f, false) :: l2) in *.
  assert (l !! length l1 = Some (f, false)) as Hi.
  { unfold l. rewrite lookup_app_r, Nat.sub_diag by lia. done. }
  assert ((l1 ++ (f, true) :: l2).*1 = l.*1) as Hfst by (unfold l; by rewrite !fmap_app).
  pose proof (relinked_lookup l1 l2 f (mq_fibers _ _ _ _ HR)) as Hcases. fold l in Hcases.
  destruct (repr_next _ _ _ _ HR (length l1)) as [[p a] Hpa]; [by eapply lookup_lt_Some|].
  pose proof (mq_flag _ _ _ _ HR _ _ _ Hi) as Hp. simpl in Hp. rewrite Hpa in Hp.
  pose proof (values_delete _ _ _ Hp) as Hperm.
  pose proof (mq_chain _ _ _ _ HR) as Hch.
  apply link_at_Some in Hpa as [Hcp Hca].
  destruct (mq_alloc _ _ _ _ HR p) as [_ [nd Hnd]].
  { apply elem_of_app. left. by eapply list_elem_of_lookup_2. }
  assert (store_next (mq_heap q) p a = Some (<[p:=Node (nd_data nd) a]> (mq_heap q))) as Hst.
  { unfold store_next. by rewrite Hnd. }
  exists (MQueue (<[p:=Node (nd_data nd) a]> (mq_heap q)) (mq_fifo q) (mq_node q) (delete f (mq_push q))).
  split; [unfold mpsc_wait_link; rewrite Hp; simpl; by rewrite Hst|].
  split; cbn [mq_heap mq_fifo mq_node mq_push]; rewrite ?Hfst; try apply HR.
  - eapply chain_store_link; [|exact Hst]. by eapply chain_perm.
  - rewrite (mq_len _ _ _ _ HR). unfold l. by rewrite !length_app.
  - intros i g b Hg. assert (exists b', l !! i = Some (g, b')) as [b' Hg'].
    { destruct (Hcases _ _ _ Hg) as [(-> & -> & ->)|[_ ?]]; eauto. }
    destruct (mq_data _ _ _ _ HR _ _ _ Hg') as (c & Hc & Hd). exists c. split; [done|].
    by rewrite (store_next_data _ _ _ _ c Hst).
  - intros i g b Hg. destruct (Hcases _ _ _ Hg) as [(-> & -> & ->)|[Hne Hg']].
    + apply lookup_delete_eq.
    + rewrite lookup_delete_ne by done. by apply (mq_flag _ _ _ _ HR).
  - intros g Hg. rewrite lookup_delete_ne; [by apply HR|]. intros ->. apply Hg.
    apply list_elem_of_fmap. exists (g, false). split; [done|]. by eapply list_elem_of_lookup_2.
  - intros b Hb. destruct (mq_alloc _ _ _ _ HR b Hb) as [? ?]. split; [done|].
    by apply (store_next_dom _ _ _ _ _ Hst).
Qed.

Lemma mpsc_wake_trypop_eq q c0 c1 nd0 f nx1 :
  f_head (mq_fifo q) = c0 -> c1 <> NULL -> c0 <> c1 ->
  mq_heap q !! c0 = Some nd0 -> nd_next nd0 = c1 ->
  mq_heap q !! c1 = Some (Node (Z.of_nat f) nx1) ->
  mpsc_wake_trypop q = Some (Some f, MQueue (<[c0:=Node (Z.of_nat f) c1]> (mq_heap q))
    (Fifo c1 (f_tail (mq_fifo q))) (<[f:=c0]> (mq_node q)) (mq_push q)).
Proof.
  intros Hh Hn0 Hne H0 Hnx H1. unfold mpsc_wake_trypop. simpl. rewrite Hh.
  unfold load_next. rewrite H0. simpl. rewrite decide_False by congruence. simpl.
  unfold load_data. rewrite Hnx, H1. simpl. unfold store_data. rewrite H0. simpl.
  rewrite lookup_insert_eq. simpl. by rewrite Nat2Z.id, Hnx.
Qed.

Lemma mpsc_pop_repr n q l chain f :
  mpsc_repr n q ((f, true) :: l) chain ->
  exists q' chain', mpsc_wake_trypop q = Some (Some f, q') /\ mpsc_repr n q' l chain'.
Proof.
  intros HR. pose proof (mq_chain _ _ _ _ HR) as Hch. pose proof (mq_len _ _ _ _ HR) as Hlen.
  pose proof (ch_head _ _ _ _ Hch) as Hh.
  destruct chain as [|c0 [|c1 rest]]; simpl in Hlen, Hh; [lia|lia|]. injection Hh as Hh.
  pose proof (repr_flag_pend _ _ _ _ HR 0 f true c0 c1 eq_refl eq_refl) as Hnp.
  assert (load_next (mq_heap q) c0 = Some c1) as Hnx.
  { destruct (ch_link _ _ _ _ Hch 0%nat _ _ eq_refl eq_refl) as [[? _]|[_ ?]]; [done|naive_solver]. }
  destruct (mq_data _ _ _ _ HR 0%nat f true eq_refl) as (c & [= <-] & Hd).
  assert (c1 <> NULL) as Hc1 by (apply (mq_alloc _ _ _ _ HR); set_solver).
  assert (c0 <> c1) as Hne by (pose proof (ch_nd _ _ _ _ Hch) as Hnd; inversion Hnd; set_solver).
  destruct (chain_pop _ _ _ _ c0 c1 Hch (eq_sym (eq_sym Hh)) Hnx Hc1) as (rest' & [= <-] & Hch').
  unfold load_next in Hnx. destruct (mq_heap q !! c0) as [nd0|] eqn:E0; [|done]. injection Hnx as Hnx.
  pose proof Hd as Hd'. unfold load_data in Hd'. destruct (mq_heap q !! c1) as [[d1 nx1]|] eqn:E1; [|done].
  simpl in Hd'. injection Hd' as ->.
  eexists _, (c1 :: rest). split; [by eapply mpsc_wake_trypop_eq|].
  pose proof (mq_fibers _ _ _ _ HR) as Hfnd. simpl in Hfnd. apply NoDup_cons in Hfnd as [Hfl Hfnd].
  assert (c0 ∉ c1 :: rest) as Hc0 by (pose proof (ch_nd _ _ _ _ Hch) as Hnd; by apply NoDup_cons in Hnd as [? _]).
  assert (mq_node q !! f = None) as Hnf.
  { destruct (mq_node q !! f) eqn:E; [|done]. destruct (proj1 (mq_own _ _ _ _ HR f)); [by rewrite E|set_solver]. }
  assert (Permutation ((c0 :: c1 :: rest) ++ (map_to_list (mq_node q)).*2)
    ((c1 :: rest) ++ (map_to_list (<[f:=c0]> (mq_node q))).*2)) as Hperm.
  { rewrite (values_insert _ _ c0 Hnf). rewrite <- Permutation_middle. done. }
  split; cbn [mq_heap mq_fifo mq_node mq_push]; try done.
  - eapply chain_heap; [|exact Hch']. intros b Hb. apply load_insert_other. by intros ->.
  - simpl. lia.
  - intros i g b Hi. destruct (mq_data _ _ _ _ HR (S i) g b Hi) as (c & Hc & Hdc). exists c. split; [done|].
    assert (c <> c0) as Hcc by (intros ->; apply Hc0; by apply (list_elem_of_lookup_2 _ (S i))).
    by rewrite (proj2 (load_insert_other (mq_heap q) c0 (Node (Z.of_nat f) c1) c Hcc)).
  - intros i g b Hi. exact (mq_flag _ _ _ _ HR (S i) g b Hi).
  - intros g Hg. destruct (decide (g = f)) as [->|Hgf].
    + exact (mq_flag _ _ _ _ HR 0%nat f true eq_refl).
    + apply (mq_idle _ _ _ _ HR). set_solver.
  - intros g. destruct (decide (g = f)) as [->|Hgf].
    + rewrite lookup_insert_eq. split; [|eauto]. intros _. split; [|done]. apply (mq_below _ _ _ _ HR). set_solver.
    + rewrite lookup_insert_ne by done. rewrite (mq_own _ _ _ _ HR). set_solver.
  - intros g Hg. apply (mq_below _ _ _ _ HR). set_solver.
  - rewrite <- Hperm. apply HR.
  - intros b. rewrite <- Hperm. intros Hb. destruct (mq_alloc _ _ _ _ HR b Hb) as [? ?]. split; [done|].
    rewrite lookup_insert. case_decide; eauto.
Qed.

Lemma mpsc_pop_none n q l chain : mpsc_repr n q l chain ->
  (forall f, head l <> Some (f, true)) -> mpsc_wake_trypop q = Some (None, q).
Proof.
  intros HR Hhd. pose proof (mq_chain _ _ _ _ HR) as Hch. pose proof (mq_len _ _ _ _ HR) as Hlen.
  pose proof (ch_head _ _ _ _ Hch) as Hh.
  assert (load_next (mq_heap q) (f_head (mq_fifo q)) = Some NULL) as Hnx.
  { destruct l as [|[f b] l].
    - destruct chain as [|c0 [|c1 rest]]; simpl in *; try lia. injection Hh as <-.
      pose proof (ch_last _ _ _ _ Hch) as Hl. simpl in Hl. injection Hl as ->. apply Hch.
    - destruct b; [by destruct (Hhd f)|].
      destruct chain as [|c0 [|c1 rest]]; simpl in Hlen, Hh; [lia|lia|]. injection Hh as <-.
      pose proof (repr_flag_pend _ _ _ _ HR 0 f false c0 c1 eq_refl eq_refl) as Hnp.
      destruct (ch_link _ _ _ _ Hch 0%nat _ _ eq_refl eq_refl) as [[_ ?]|[? _]]; [naive_solver|done]. }
  unfold mpsc_wake_trypop. simpl. rewrite Hnx. simpl. done.
Qed.

Lemma mpsc_queue_init_repr n : mpsc_repr n (mpsc_queue_init n) [] [1].
Proof.
  set (nodes := (fun f => Z.of_nat f + 2) <$> seq 0 n).
  assert (length nodes = n) as Hln by (unfold nodes; by rewrite length_fmap, length_seq).
  assert (forall i, nodes !! i = if decide (i < n)%nat then Some (Z.of_nat i + 2) else None) as Hnl.
  { intros i. unfold nodes. rewrite list_lookup_fmap. case_decide.
    - by rewrite lookup_seq_lt.
    - rewrite lookup_seq_ge by lia. done. }
  assert (NoDup nodes) as Hnd.
  { apply NoDup_alt. intros i j x Hi Hj. rewrite Hnl in Hi, Hj. repeat case_decide; simplify_eq; lia. }
  assert ((1 ∉ nodes) /\ (NULL ∉ nodes)) as [H1 H0].
  { split; intros [i Hi]%list_elem_of_lookup_1; rewrite Hnl in Hi; case_decide; simplify_eq; unfold NULL in *; lia. }
  set (zs := zip (seq 0 n) nodes).
  assert (zs.*1 = seq 0 n /\ zs.*2 = nodes) as [Hz1 Hz2].
  { split; [apply fst_zip|apply snd_zip]; rewrite length_seq, Hln; lia. }
  assert (NoDup zs.*1) as Hzn by (rewrite Hz1; apply NoDup_seq).
  assert (Permutation (map_to_list (list_to_map (M:=gmap nat Z) zs)).*2 nodes) as Hv.
  { rewrite map_to_list_to_map by done. by rewrite Hz2. }
  unfold mpsc_queue_init, mpsc_fifo_init. fold nodes zs.
  split; cbn [mq_heap mq_fifo mq_node mq_push]; try done; try apply NoDup_nil_2.
  all: try (intros f Hf; by apply elem_of_nil in Hf).
  - split; simpl; try done.
    + apply NoDup_singleton.
    + intros ?%list_elem_of_singleton. done.
    + unfold load_next. by rewrite lookup_insert_eq.
    + rewrite map_to_list_empty. intros a b Hab. by apply elem_of_nil in Hab.
    + rewrite map_to_list_empty. apply NoDup_nil_2.
  - intros f. split.
    + intros [a Ha%elem_of_list_to_map_2]. split; [|apply not_elem_of_nil].
      apply (list_elem_of_fmap_2 fst) in Ha. rewrite Hz1 in Ha. apply elem_of_seq in Ha. simpl in Ha. lia.
    + intros [Hf _]. exists (Z.of_nat f + 2). apply elem_of_list_to_map_1; [done|].
      apply list_elem_of_lookup. exists f. unfold zs. rewrite lookup_zip_with, lookup_seq_lt by done.
      simpl. rewrite Hnl, decide_True by done. done.
  - rewrite Hv. simpl. by constructor.
  - intros a. rewrite Hv. intros [->|Ha]%elem_of_cons.
    + split; [done|]. rewrite lookup_insert_eq. eauto.
    + split; [by intros ->|]. rewrite lookup_insert_ne by (by intros <-).
      exists (Node 0 NULL). apply elem_of_list_to_map_1'.
      * intros y (x & [= _ ->] & _)%list_elem_of_fmap. done.
      * apply list_elem_of_fmap. eauto.
Qed.

Lemma mpsc_queue_destroy_repr n q chain : mpsc_repr n q [] chain ->
  exists dummy, mpsc_queue_destroy q = Some [dummy] /\ dummy ∉ mpsc_queue_kept q.
Proof.
  intros HR. pose proof (mq_chain _ _ _ _ HR) as Hch. pose proof (mq_len _ _ _ _ HR) as Hlen.
  destruct chain as [|x [|]]; simpl in Hlen; try lia. exists x.
  destruct (mq_alloc _ _ _ _ HR x) as [Hx0 [nd Hnd]]; [set_solver|].
  destruct (destroy_chain [x] (mq_heap q) (size (mq_heap q) + 2) (f_head (mq_fifo q)) (f_tail (mq_fifo q)))
    as (h' & Hd & Hh'); try apply Hch; [|simpl; lia|].
  { intros [|i] a b Ha Hb; simplify_eq/=. }
  unfold mpsc_queue_destroy. rewrite Hd. simpl. split.
  - assert (dom (mq_heap q) ∖ dom h' = {[x]}) as ->; [|by rewrite elements_singleton].
    apply set_eq. intros y. rewrite elem_of_difference, elem_of_singleton, !elem_of_dom, Hh'.
    case_decide as Hy; [apply list_elem_of_singleton in Hy as ->; rewrite Hnd; naive_solver|].
    split; [naive_solver|]. intros ->. set_solver.
  - pose proof (mq_nodes _ _ _ _ HR) as Hn. simpl in Hn. by apply NoDup_cons in Hn as [? _].
Qed.

#[export] Instance mpsc_wait_queue : WaitQueue mpsc_queue.
Proof.
  refine (Build_WaitQueue _ mpsc_queue_init mpsc_wait_xchg mpsc_wait_link mpsc_wake_trypop
    mpsc_queue_destroy mpsc_queue_kept mpsc_queue_repr _ _ _ _ _ _).
  - intros n. exists [1]. apply mpsc_queue_init_repr.
  - intros n q l f [chain HR] Hf Hfl. destruct (mpsc_xchg_repr _ _ _ _ _ HR Hf Hfl) as (q' & a & E & HR').
    exists q'. split; [done|]. by eexists.
  - intros n q l1 l2 f [chain HR]. destruct (mpsc_link_repr _ _ _ _ _ _ HR) as (q' & E & HR').
    exists q'. split; [done|]. by eexists.
  - intros n q l f [chain HR]. destruct (mpsc_pop_repr _ _ _ _ _ HR) as (q' & chain' & E & HR').
    exists q'. split; [done|]. by eexists.
  - intros n q l [chain HR] Hh. by eapply mpsc_pop_none.
  - intros n q [chain HR]. by eapply mpsc_queue_destroy_repr.
Defined.

(** ** Waiting and waking *)

(** The program points of [fiber_manager_wait_in_mpsc_queue]; [WParked] is the
    call of [fiber_manager_yield] that ends it. *)
Inductive wait_pc := WPush | WLink | WParked.

#[export] Instance wait_pc_eq_dec : EqDecision wait_pc.
Proof. solve_decision. Defined.

Section wait_wake.
Context {Q : Type} `{WaitQueue Q}.

Definition fiber_manager_wait_in_mpsc_queue (f : nat) (pc : wait_pc) (q : Q) : option (Q * wait_pc) :=
  match pc with
  | WPush => q' ← wq_xchg f q; Some (q', WLink)
  | WLink => q' ← wq_link f q; Some (q', WParked)
  | WParked => None
  end.

(** One iteration of the loop of [fiber_manager_wake_from_mpsc_queue]: the
    popped fiber goes to the scheduler ([ready]); the result says whether the
    loop goes on, with its [wake_count]. *)
Definition fiber_manager_wake_from_mpsc_queue (count wake_count : Z) (q : Q) (ready : list nat)
    : option (Q * list nat * option Z) :=
  r ← wq_trypop q;
  match r with
  | (Some to_schedule, q') =>
      let wake_count := wake_count + 1 in
      Some (q', ready ++ [to_schedule], if Z.ltb wake_count count then Some wake_count else None)
  | (None, q') => Some (q', ready, if Z.ltb wake_count count then Some wake_count else None)
  end.

End wait_wake.

(** The scheduler takes a fiber out of its run queue. *)
Definition take_ready (t : nat) (ready : list nat) : list nat := filter (fun x => x <> t) ready.

(** ** Where the sleeping fibers are

    [w t] is the fiber's program point in the wait, if it is in one. *)
Record wq_inv (l : list (nat * bool)) (ready : list nat) (w : nat -> option wait_pc) : Prop := {
  wqi_nd : NoDup (l.*1 ++ ready);
  wqi_link : forall t, (t, false) ∈ l <-> w t = Some WLink;
  wqi_park : forall t, ((t, true) ∈ l \/ t ∈ ready) <-> w t = Some WParked
}.

Definition upd_at (t : nat) (x : option wait_pc) (w w' : nat -> option wait_pc) : Prop :=
  w' t = x /\ forall i, i <> t -> w' i = w i.

Lemma elem_fst l (t : nat) : t ∈ l.*1 <-> (t, false) ∈ l \/ (t, true) ∈ l.
Proof.
  rewrite list_elem_of_fmap. split.
  - intros ([x []] & -> & ?); auto.
  - intros [?|?]; eexists; by split; [|done].
Qed.

Section wq_inv.
Variables (l : list (nat * bool)) (ready : list nat) (w : nat -> option wait_pc) (t : nat).
Hypothesis HI : wq_inv l ready w.

Lemma wqi_absent : w t = None \/ w t = Some WPush -> (t ∉ l.*1) /\ (t ∉ ready).
Proof using HI.
  intros Hw. rewrite elem_fst.
  pose proof (wqi_link _ _ _ HI t). pose proof (wqi_park _ _ _ HI t).
  split; [intros [?|?]|intros ?]; destruct Hw as [Hw|Hw]; rewrite Hw in *; naive_solver.
Qed.

Lemma wqi_perm ready' : ready ≡ₚ ready' -> wq_inv l ready' w.
Proof using HI. intros Hp. split; try setoid_rewrite <- Hp; apply HI. Qed.

Lemma wqi_ext w' : (forall i, w' i = w i) -> wq_inv l ready w'.
Proof using HI. intros E. split; try setoid_rewrite E; apply HI. Qed.

(** A fiber outside the queue stays outside. *)
Lemma wqi_other w' x : w t = None \/ w t = Some WPush -> x = None \/ x = Some WPush ->
  upd_at t x w w' -> wq_inv l ready w'.
Proof using HI.
  intros Hw Hx [Ht Ho]. destruct (wqi_absent Hw) as [H1 H2]. rewrite elem_fst in H1.
  split; [apply HI| |]; intros i; (destruct (decide (i = t)) as [->|Hne];
    [rewrite Ht; destruct Hx as [-> | ->]; naive_solver|rewrite (Ho i) by done; apply HI]).
Qed.

Lemma wqi_push w' : w t = Some WPush -> upd_at t (Some WLink) w w' ->
  wq_inv (l ++ [(t, false)]) ready w'.
Proof using HI.
  intros Hw [Ht Ho]. destruct (wqi_absent (or_intror Hw)) as [H1 H2].
  pose proof (wqi_nd _ _ _ HI) as Hnd.
  assert (forall i b, (i, b) ∈ l ++ [(t, false)] <-> (i, b) ∈ l \/ (i = t /\ b = false)) as Hin.
  { intros i b. rewrite elem_of_app, list_elem_of_singleton. naive_solver. }
  rewrite elem_fst in H1. split.
  - rewrite fmap_app. simpl. rewrite <- app_assoc. simpl. rewrite <- Permutation_middle.
    constructor; [|done]. rewrite elem_of_app, elem_fst. naive_solver.
  - intros i. rewrite Hin. destruct (decide (i = t)) as [->|Hne]; [naive_solver|].
    rewrite (Ho i) by done. rewrite <- (wqi_link _ _ _ HI). naive_solver.
  - intros i. rewrite Hin. destruct (decide (i = t)) as [->|Hne]; [rewrite Ht; naive_solver|].
    rewrite (Ho i) by done. rewrite <- (wqi_park _ _ _ HI). naive_solver.
Qed.

Lemma wqi_linked w' : w t = Some WLink -> upd_at t (Some WParked) w w' ->
  exists l1 l2, l = l1 ++ (t, false) :: l2 /\ wq_inv (l1 ++ (t, true) :: l2) ready w'.
Proof using HI.
  intros Hw [Ht Ho]. apply (wqi_link _ _ _ HI) in Hw.
  apply list_elem_of_split in Hw as (l1 & l2 & E). exists l1, l2. split; [done|].
  pose proof (wqi_nd _ _ _ HI) as Hnd. pose proof (wqi_link _ _ _ HI) as Hl.
  pose proof (wqi_park _ _ _ HI) as Hp. rewrite E in Hnd, Hl, Hp.
  assert ((t ∉ l1.*1) /\ (t ∉ l2.*1) /\ (t ∉ ready)) as (N1 & N2 & N3).
  { rewrite fmap_app in Hnd. simpl in Hnd. rewrite <- app_assoc in Hnd. simpl in Hnd.
    rewrite <- Permutation_middle in Hnd. apply NoDup_cons in Hnd as [Hn _]. set_solver. }
  rewrite elem_fst in N1, N2.
  assert (forall i b b', (i, b) ∈ l1 ++ (t, b') :: l2 <-> (i, b) ∈ l1 \/ (i = t /\ b = b') \/ (i, b) ∈ l2) as Hin.
  { intros i b b'. rewrite elem_of_app, elem_of_cons. naive_solver. }
  split.
  - rewrite fmap_app in *. done.
  - intros i. rewrite Hin. destruct (decide (i = t)) as [->|Hne]; [rewrite Ht; naive_solver|].
    rewrite (Ho i) by done. rewrite <- Hl, Hin. naive_solver.
  - intros i. rewrite Hin. destruct (decide (i = t)) as [->|Hne]; [rewrite Ht; naive_solver|].
    rewrite (Ho i) by done. rewrite <- Hp, Hin. naive_solver.
Qed.

Lemma wqi_resume w' : t ∈ ready -> upd_at t None w w' ->
  w t = Some WParked /\ wq_inv l (take_ready t ready) w'.
Proof using HI.
  intros Hr [Ht Ho]. split; [apply (wqi_park _ _ _ HI); auto|].
  pose proof (wqi_nd _ _ _ HI) as Hnd. apply NoDup_app in Hnd as (Hn1 & Hn2 & Hn3).
  assert (t ∉ l.*1) as N by (intros Hx; by apply (Hn2 t)). rewrite elem_fst in N.
  unfold take_ready. split.
  - apply NoDup_app. split_and!; [done| |by apply NoDup_filter].
    intros x Hx [_ Hin]%list_elem_of_filter. by apply (Hn2 x).
  - intros i. destruct (decide (i = t)) as [->|Hne]; [rewrite Ht; naive_solver|].
    rewrite (Ho i) by done. apply HI.
  - intros i. rewrite list_elem_of_filter. destruct (decide (i = t)) as [->|Hne]; [rewrite Ht; naive_solver|].
    rewrite (Ho i) by done. rewrite <- (wqi_park _ _ _ HI). naive_solver.
Qed.

End wq_inv.

Lemma wqi_pop l ready w g : wq_inv ((g, true) :: l) ready w -> wq_inv l (ready ++ [g]) w.
Proof.
  intros [Hnd Hl Hp]. simpl in Hnd. split.
  - rewrite app_assoc, <- Permutation_cons_append. done.
  - intros t. rewrite <- Hl, elem_of_cons. naive_solver.
  - intros t. rewrite <- Hp, elem_of_app, list_elem_of_singleton, elem_of_cons. naive_solver.
Qed.

Lemma wq_inv_init w : (forall t, w t = None) -> wq_inv [] [] w.
Proof.
  intros Hw. split; [apply NoDup_nil_2|..]; intros t; rewrite Hw, ?elem_of_nil; naive_solver.
Qed.

(** When nobody waits, the queue and the run queue are empty. *)
Lemma wqi_nobody l ready w : wq_inv l ready w -> (forall t, w t = None) -> l = [] /\ ready = [].
Proof.
  intros [_ Hl Hp] Hw. split; apply elem_of_nil_inv.
  - intros [t []] Ht; [assert (w t = Some WParked) by (apply Hp; auto)|apply Hl in Ht]; by rewrite Hw in *.
  - intros t Ht. assert (w t = Some WParked) by (apply Hp; auto). by rewrite Hw in *.
Qed.

Lemma take_ready_length t ready : NoDup ready -> t ∈ ready ->
  length ready = S (length (take_ready t ready)).
Proof.
  intros Hnd Hin. apply list_elem_of_split in Hin as (l1 & l2 & ->).
  apply NoDup_app in Hnd as (H1 & H2 & H3). apply NoDup_cons in H3 as [H3 H4].
  assert (forall l, t ∉ l -> take_ready t l = l) as Hk.
  { intros l Hl. unfold take_ready. induction l as [|x l IH]; [done|].
    apply not_elem_of_cons in Hl as [? ?]. rewrite filter_cons_True by congruence. by rewrite IH. }
  unfold take_ready in *. rewrite filter_app, filter_cons_False by naive_solver.
  rewrite !Hk by (try done; intros Hx; apply (H2 _ Hx); by left).
  rewrite !length_app. simpl. lia.
Qed.
