(* ===== verification/ItemQueue.v ===== *)
(** * Queues of items that change hands

    The clients of a [WaitQueue] that push items of their own (messages, work)
    rather than fibers share one invariant: an item is in the queue, in the
    hands of a pusher, or owned by a caller.  [items] states it over the lists
    of the pushers, so that each client keeps it with a line per step. *)

From S2P Require Import Prelude WaitQueue.

Section items.
Context {Q : Type} `{WaitQueue Q}.

(** [l]: the queue, with the flag of [wq_repr]; [P]: items about to be pushed;
    [L]: items pushed and not linked; [own]: items of the callers. *)
Record items (nm : nat) (q : Q) (l : list (nat * bool)) (P L : list nat) (own : gset nat) : Prop := {
  it_repr : wq_repr nm q l;
  it_links : forall m, (m, false) ∈ l <-> m ∈ L;
  it_links_nd : NoDup L;
  it_where : NoDup (l.*1 ++ P);
  it_owned : forall m, m ∈ own -> (m ∉ l.*1 ++ P) /\ (m < nm)%nat;
  it_below : forall m, m ∈ l.*1 ++ P -> (m < nm)%nat
}.

#[export] Instance items_proper nm q l :
  Proper ((≡ₚ) ==> (≡ₚ) ==> (=) ==> iff) (items nm q l).
Proof.
  assert (forall P P' L L' own, P ≡ₚ P' -> L ≡ₚ L' -> items nm q l P L own -> items nm q l P' L' own) as Himp.
  { intros P P' L L' own HP HL [H1 H2 H3 H4 H5 H6]. split; auto.
    - intros m. by rewrite H2, HL.
    - by rewrite <- HL.
    - by rewrite <- HP.
    - intros m. rewrite <- HP. apply H5.
    - intros m. rewrite <- HP. apply H6. }
  intros P P' HP L L' HL own own' <-. split; apply Himp; done.
Qed.

Lemma items_init nm : items nm (wq_init nm) [] [] [] (set_seq 0 nm).
Proof.
  split; simpl.
  - apply wq_init_spec.
  - intros m. by rewrite !elem_of_nil.
  - apply NoDup_nil_2.
  - apply NoDup_nil_2.
  - intros m Hm%elem_of_set_seq. split; [apply not_elem_of_nil|lia].
  - by intros m ?%elem_of_nil.
Qed.

(** A caller hands an item to a push. *)
Lemma items_call nm q l P L own m : items nm q l P L own -> m ∈ own -> items nm q l (m :: P) L (own ∖ {[m]}).
Proof.
  intros [H1 H2 H3 H4 H5 H6] Hm. destruct (H5 m Hm) as [Hn Hlt]. split; auto.
  - rewrite <- Permutation_middle. by constructor.
  - intros x [Hx Hne]%elem_of_difference. destruct (H5 x Hx). rewrite <- Permutation_middle. set_solver.
  - intros x. rewrite <- Permutation_middle, elem_of_cons. intros [->|Hx]; auto.
Qed.

Lemma items_xchg nm q l P L own m : items nm q l (m :: P) L own ->
  exists q', wq_xchg m q = Some q' /\ items nm q' (l ++ [(m, false)]) P (m :: L) own.
Proof.
  intros [H1 H2 H3 H4 H5 H6].
  assert (l.*1 ++ m :: P ≡ₚ (l ++ [(m, false)]).*1 ++ P) as Hp by (rewrite fmap_app; simpl; by rewrite <- app_assoc).
  assert (m ∉ l.*1) as Hml. { rewrite <- Permutation_middle in H4. apply NoDup_cons in H4 as [Hn _]. set_solver. }
  destruct (wq_xchg_spec nm q l m H1) as (q' & E & Hr); [apply H6; set_solver|done|].
  exists q'. split; [done|]. split; auto.
  - intros x. rewrite elem_of_app, list_elem_of_singleton, elem_of_cons, H2. naive_solver.
  - constructor; [|done]. rewrite <- H2. intros Hx. apply Hml, elem_fst. auto.
  - by rewrite <- Hp.
  - intros x. rewrite <- Hp. apply H5.
  - intros x. rewrite <- Hp. apply H6.
Qed.

Lemma items_link nm q l P L own m : items nm q l P (m :: L) own ->
  exists q' l', wq_link m q = Some q' /\ l'.*1 = l.*1 /\ items nm q' l' P L own.
Proof.
  intros [H1 H2 H3 H4 H5 H6]. assert ((m, false) ∈ l) as Hin by (apply H2; left).
  apply list_elem_of_split in Hin as (l1 & l2 & ->). destruct (wq_link_spec nm q l1 l2 m H1) as (q' & E & Hr).
  assert ((l1 ++ (m, true) :: l2).*1 = (l1 ++ (m, false) :: l2).*1) as Hfst by (by rewrite !fmap_app).
  exists q', (l1 ++ (m, true) :: l2). split; [done|]. split; [done|]. apply NoDup_cons in H3 as [Hm H3].
  split; rewrite ?Hfst; auto.
  intros x. specialize (H2 x). rewrite elem_of_app, !elem_of_cons in *.
  destruct (decide (x = m)) as [->|Hne]; [|naive_solver]. split; [|done]. intros Hx. exfalso.
  rewrite fmap_app in H4. simpl in H4. rewrite <- app_assoc in H4. simpl in H4. rewrite <- Permutation_middle in H4.
  apply NoDup_cons in H4 as [Hn _]. apply Hn. rewrite !elem_of_app, !elem_fst. naive_solver.
Qed.

(** The pop gives the oldest item to the caller, if its push has completed. *)
Lemma items_pop nm q l P L own : items nm q l P L own ->
  (exists m l' q', l = (m, true) :: l' /\ wq_trypop q = Some (Some m, q') /\ (m ∉ l'.*1 ++ P) /\
     items nm q' l' P L ({[m]} ∪ own)) \/
  (wq_trypop q = Some (None, q) /\ forall m, head l.*1 = Some m -> m ∈ L).
Proof.
  intros [H1 H2 H3 H4 H5 H6]. destruct l as [|[m []] l].
  - right. split; [|done]. by apply (wq_pop_empty nm _ _ H1).
  - left. destruct (wq_pop_spec nm q l m H1) as (q' & E & Hr). exists m, l, q'. split; [done|]. split; [done|].
    simpl in H4. apply NoDup_cons in H4 as [Hm H4]. split; [done|]. split; auto.
    + intros x. rewrite <- H2, elem_of_cons. naive_solver.
    + intros x. rewrite elem_of_union, elem_of_singleton. intros [->|Hx]; [split; [done|]; apply H6; left|].
      destruct (H5 x Hx) as [Hn ?]. split; [|done]. simpl in Hn. set_solver.
    + intros x Hx. apply H6. by right.
  - right. split; [apply (wq_pop_empty nm _ _ H1); naive_solver|]. intros x [= <-]. apply H2. left.
Qed.
End items.
