(* ===== verification/Mutex.v ===== *)
(** * The fiber mutex ([src/fiber_mutex.c])

    The mutex is a counter (1: free, 0: held, negative: held with waiters) and a
    queue of sleeping fibers.  An unlock that finds waiters hands the mutex to
    the oldest one: it pops it and schedules it, and the woken fiber owns the
    mutex when it runs.  The model is generic in the queue (class [WaitQueue]).

    A sleeping fiber is inside [fiber_manager_yield].  The choice [XEarly] is a
    return of that call although the fiber was not scheduled, which the yield of
    [src/fiber_manager.c] does when the fiber it picked is banned or the
    scheduler lock is taken (lines 130-135); the theorems say what holds without
    it, and [mutex_early_return] what happens with it. *)

From S2P Require Import Prelude Spinlock MpscFifo WaitQueue.

Section mutex.
Context {Q : Type} `{WaitQueue Q}.

(** ** State *)

(** [fiber_mutex_t], and the fibers the scheduler has been given. *)
Record mutex_shared := XShared { x_counter : Z; x_waiters : Q; x_ready : list nat }.

Inductive mutex_pc :=
| XIdle
| XWait (w : wait_pc)           (* lock: in fiber_manager_wait_in_mpsc_queue *)
| XHeld
| XWake (wake_count : Z)        (* unlock: in fiber_manager_wake_from_mpsc_queue *)
| XYield.                       (* unlock: in the final fiber_yield *)

Inductive mutex_choice :=
| XCallLock | XCallTrylock (spurious : bool) | XCallUnlock | XGo | XEarly.

(** ** Operations *)

Definition fiber_mutex_init (n : nat) : mutex_shared := XShared 1 (wq_init n) [].

(** The counter it leaves, and the nodes it frees. *)
Definition fiber_mutex_destroy (s : mutex_shared) : option (Z * list Z) :=
  freed ← wq_destroy (x_waiters s); Some (1, freed).

Definition fiber_mutex_lock (t : nat) (s : mutex_shared) (pc : mutex_pc)
    : option (mutex_shared * mutex_pc * list lock_ev) :=
  match pc with
  | XIdle =>
      let val := i32 (x_counter s - 1) in
      let s' := XShared val (x_waiters s) (x_ready s) in
      if Z.eqb val 0 then Some (s', XHeld, [EvAcquire t]) else Some (s', XWait WPush, [])
  | XWait WParked =>
      if decide (t ∈ x_ready s)
      then Some (XShared (x_counter s) (x_waiters s) (take_ready t (x_ready s)), XHeld, [EvAcquire t])
      else None
  | XWait w =>
      r ← fiber_manager_wait_in_mpsc_queue t w (x_waiters s);
      Some (XShared (x_counter s) r.1 (x_ready s), XWait r.2, [])
  | _ => None
  end.

Definition fiber_mutex_trylock (spurious : bool) (t : nat) (s : mutex_shared) (pc : mutex_pc)
    : option (mutex_shared * mutex_pc * list lock_ev) :=
  match pc with
  | XIdle =>
      if negb spurious && Z.eqb (x_counter s) 1
      then Some (XShared 0 (x_waiters s) (x_ready s), XHeld, [EvAcquire t])
      else Some (s, XIdle, [EvTryFail t])
  | _ => None
  end.

(** [fiber_mutex_unlock_internal]; the unlock proper is the increment. *)
Definition fiber_mutex_unlock_internal (t : nat) (s : mutex_shared) (pc : mutex_pc)
    : option (mutex_shared * mutex_pc * list lock_ev) :=
  match pc with
  | XHeld =>
      let new_val := i32 (x_counter s + 1) in
      let s' := XShared new_val (x_waiters s) (x_ready s) in
      if Z.eqb new_val 1 then Some (s', XIdle, [EvRelease t]) else Some (s', XWake 0, [EvRelease t])
  | XWake wake_count =>
      r ← fiber_manager_wake_from_mpsc_queue 1 wake_count (x_waiters s) (x_ready s);
      let '(q, ready, next) := r in
      Some (XShared (x_counter s) q ready,
            match next with Some wc => XWake wc | None => XYield end, [])
  | _ => None
  end.

(** [fiber_mutex_unlock]: the internal unlock, then [fiber_yield] if it was
    contended. *)
Definition fiber_mutex_unlock (t : nat) (s : mutex_shared) (pc : mutex_pc)
    : option (mutex_shared * mutex_pc * list lock_ev) :=
  match pc with
  | XYield => Some (s, XIdle, [])
  | _ => fiber_mutex_unlock_internal t s pc
  end.

Definition mutex_tstep (t : nat) (ch : mutex_choice) (s : mutex_shared) (pc : mutex_pc)
    : option (mutex_shared * mutex_pc * list lock_ev) :=
  match ch, pc with
  | XCallLock, XIdle => fiber_mutex_lock t s pc
  | XCallTrylock sp, XIdle => fiber_mutex_trylock sp t s pc
  | XCallUnlock, XHeld => fiber_mutex_unlock t s pc
  | XGo, XWait _ => fiber_mutex_lock t s pc
  | XGo, (XWake _ | XYield) => fiber_mutex_unlock t s pc
  | XEarly, XWait WParked => Some (s, XHeld, [EvAcquire t])
  | _, _ => None
  end.

Definition mutex_conf := conf mutex_shared mutex_pc.
Definition mutex_step := conf_step mutex_tstep.
Definition mutex_init (n : nat) : mutex_conf := Conf (fiber_mutex_init n) (replicate n XIdle).

(** Runs in which a yield only returns to a scheduled fiber. *)
Definition no_early (ls : list (nat * mutex_choice)) : Prop := Forall (fun l => l.2 <> XEarly) ls.

(** ** Invariant *)

(** [stake]: the fiber is counted in [counter]; [token]: it holds the mutex or
    is handing it over. *)
Definition stake (pc : mutex_pc) : nat :=
  match pc with XWait _ | XHeld => 1 | _ => 0 end.
Definition token (pc : mutex_pc) : nat :=
  match pc with XHeld | XWake _ => 1 | _ => 0 end.
Definition mutex_wait_of (pc : mutex_pc) : option wait_pc :=
  match pc with XWait w => Some w | _ => None end.
Definition mutex_waits (ths : list mutex_pc) (t : nat) : option wait_pc :=
  pc ← ths !! t; mutex_wait_of pc.

Definition stakes (ths : list mutex_pc) : nat := sum_list_with stake ths.
Definition tokens (ths : list mutex_pc) (ready : list nat) : nat :=
  (sum_list_with token ths + length ready)%nat.

Record mutex_rel (n : nat) (c : mutex_conf) (h : option nat) (l : list (nat * bool)) : Prop := {
  xr_len : length (threads c) = n;
  xr_repr : wq_repr n (x_waiters (shared c)) l;
  xr_wq : wq_inv l (x_ready (shared c)) (mutex_waits (threads c));
  xr_count : x_counter (shared c) = 1 - Z.of_nat (stakes (threads c));
  xr_token : tokens (threads c) (x_ready (shared c)) =
    if decide (stakes (threads c) = 0%nat) then 0%nat else 1%nat;
  xr_wake : forall t wc, threads c !! t = Some (XWake wc) -> wc = 0;
  xr_holder : forall t, h = Some t <-> threads c !! t = Some XHeld
}.

Lemma mutex_waits_insert ths t pc pc' : ths !! t = Some pc ->
  upd_at t (mutex_wait_of pc') (mutex_waits ths) (mutex_waits (<[t:=pc']> ths)).
Proof.
  intros Ht. unfold mutex_waits. split.
  - by rewrite list_lookup_insert_eq by (by eapply lookup_lt_Some).
  - intros i Hi. by rewrite list_lookup_insert_ne.
Qed.

Lemma stakes_le ths : (stakes ths <= length ths)%nat.
Proof. apply sum_list_with_le_length. intros []; simpl; lia. Qed.

Lemma tokens_holder n c h l t pc : mutex_rel n c h l -> threads c !! t = Some pc ->
  token pc = 1%nat -> x_ready (shared c) = [] /\
  forall i p, i <> t -> threads c !! i = Some p -> token p = 0%nat.
Proof.
  intros HR Ht Htok. pose proof (xr_token _ _ _ _ HR) as E. unfold tokens in E.
  pose proof (sum_list_with_lookup token _ _ _ Ht) as Hle. rewrite Htok in Hle.
  assert (sum_list_with token (threads c) + length (x_ready (shared c)) <= 1)%nat as Hone
    by (rewrite E; case_decide; lia).
  split; [destruct (x_ready (shared c)); [done|simpl in *; lia]|].
  intros i p Hi Hp.
  pose proof (sum_list_with_lookup2 token _ _ _ _ _ Hi Hp Ht). lia.
Qed.

Lemma no_token_no_holder n c h l : mutex_rel n c h l ->
  sum_list_with token (threads c) = 0%nat -> h = None.
Proof.
  intros HR Hz. destruct h as [t|]; [|done]. exfalso.
  pose proof (proj1 (xr_holder _ _ _ _ HR t) eq_refl) as Ht.
  pose proof (sum_list_with_lookup token _ _ _ Ht). simpl in *. lia.
Qed.

(** The holder component of the relation, when one fiber moves. *)
Lemma holder_same (ths : list mutex_pc) (h : option nat) t pc pc' :
  ths !! t = Some pc -> pc <> XHeld -> pc' <> XHeld ->
  (forall t, h = Some t <-> ths !! t = Some XHeld) ->
  forall u, h = Some u <-> <[t:=pc']> ths !! u = Some XHeld.
Proof.
  intros Ht H1 H2 Hh u. rewrite Hh. destruct (decide (u = t)) as [->|Hne].
  - rewrite list_lookup_insert_eq by (by eapply lookup_lt_Some). naive_solver.
  - by rewrite list_lookup_insert_ne.
Qed.

Lemma holder_acquire (ths : list mutex_pc) t pc :
  ths !! t = Some pc -> (forall t, None = Some t <-> ths !! t = Some XHeld) ->
  forall u, Some t = Some u <-> <[t:=XHeld]> ths !! u = Some XHeld.
Proof.
  intros Ht Hh u. destruct (decide (u = t)) as [->|Hne].
  - rewrite list_lookup_insert_eq by (by eapply lookup_lt_Some). done.
  - rewrite list_lookup_insert_ne by done. rewrite <- Hh. naive_solver.
Qed.

Lemma holder_release (ths : list mutex_pc) h t pc' :
  ths !! t = Some XHeld -> pc' <> XHeld -> (forall t, h = Some t <-> ths !! t = Some XHeld) ->
  h = Some t /\ forall u, None = Some u <-> <[t:=pc']> ths !! u = Some XHeld.
Proof.
  intros Ht Hp Hh. split; [by apply Hh|]. intros u. split; [done|].
  pose proof (proj2 (Hh t) Ht) as ->. destruct (decide (u = t)) as [->|Hne].
  - rewrite list_lookup_insert_eq by (by eapply lookup_lt_Some). congruence.
  - rewrite list_lookup_insert_ne by done. intros Hu%Hh. congruence.
Qed.

(** ** Preservation, one lemma per operation *)

Lemma counter_bounds n c h l : mutex_rel n c h l -> 1 - Z.of_nat n <= x_counter (shared c) <= 1.
Proof.
  intros HR. pose proof (xr_count _ _ _ _ HR). pose proof (stakes_le (threads c)).
  pose proof (xr_len _ _ _ _ HR). lia.
Qed.

(** The bookkeeping of a step: the two sums move by the fiber's own change. *)
Lemma mutex_rel_step n c h l t pc pc' q' r' v' h' l' :
  mutex_rel n c h l ->
  threads c !! t = Some pc ->
  wq_repr n q' l' -> wq_inv l' r' (mutex_waits (<[t:=pc']> (threads c))) ->
  v' + Z.of_nat (stake pc') = x_counter (shared c) + Z.of_nat (stake pc) ->
  (stakes (threads c) + stake pc' - stake pc = 0 ->
    tokens (threads c) (x_ready (shared c)) + token pc' + length r' =
    token pc + length (x_ready (shared c)))%nat ->
  (stakes (threads c) + stake pc' - stake pc <> 0 ->
    tokens (threads c) (x_ready (shared c)) + token pc' + length r' =
    1 + token pc + length (x_ready (shared c)))%nat ->
  (forall wc, pc' = XWake wc -> wc = 0) ->
  (forall u, h' = Some u <-> <[t:=pc']> (threads c) !! u = Some XHeld) ->
  mutex_rel n (Conf (XShared v' q' r') (<[t:=pc']> (threads c))) h' l'.
Proof.
  intros HR Ht Hq Hw Hv Hz Hnz Hwk Hh.
  pose proof (sum_list_with_insert stake _ _ _ pc' Ht) as Es.
  pose proof (sum_list_with_insert token _ _ _ pc' Ht) as Et.
  pose proof (sum_list_with_lookup stake _ _ _ Ht) as Ls.
  pose proof (sum_list_with_lookup token _ _ _ Ht) as Lt.
  pose proof (xr_count _ _ _ _ HR) as Ec. pose proof (xr_len _ _ _ _ HR) as El.
  unfold stakes, tokens in *. split; cbn [shared threads x_counter x_waiters x_ready]; try done.
  - by rewrite length_insert.
  - unfold stakes. lia.
  - unfold tokens, stakes. case_decide as E.
    + specialize (Hz ltac:(lia)). lia.
    + specialize (Hnz ltac:(lia)). lia.
  - intros u wc Hu. apply lookup_insert_cases in Hu as [[-> Hp]|[_ Hu]]; [by eapply Hwk|].
    by eapply (xr_wake _ _ _ _ HR).
Qed.

Lemma waits_other n c h l t pc pc' : mutex_rel n c h l -> threads c !! t = Some pc ->
  mutex_wait_of pc = None -> mutex_wait_of pc' = None \/ mutex_wait_of pc' = Some WPush ->
  wq_inv l (x_ready (shared c)) (mutex_waits (<[t:=pc']> (threads c))).
Proof.
  intros HR Ht Hp Hp'. eapply wqi_other; [apply (xr_wq _ _ _ _ HR)|left|exact Hp'|].
  - unfold mutex_waits. by rewrite Ht.
  - by eapply mutex_waits_insert.
Qed.

Lemma mutex_lock_call n c h l t s' pc' evs :
  Z.of_nat n < 2 ^ 31 -> mutex_rel n c h l -> threads c !! t = Some XIdle ->
  fiber_mutex_lock t (shared c) XIdle = Some (s', pc', evs) ->
  exists h', spec_run lock_spec evs h = Some h' /\ mutex_rel n (Conf s' (<[t:=pc']> (threads c))) h' l.
Proof.
  intros Hn HR Ht. pose proof (counter_bounds _ _ _ _ HR) as Hb. pose proof (xr_token _ _ _ _ HR) as Et.
  pose proof (xr_count _ _ _ _ HR) as Ec. simpl. rewrite i32_small by lia.
  destruct (Z.eqb_spec (x_counter (shared c) - 1) 0) as [E|E]; intros [= <- <- <-].
  - assert (stakes (threads c) = 0%nat) as Ez by lia. rewrite decide_True in Et by done.
    assert (h = None) as -> by (eapply no_token_no_holder; [done|unfold tokens in Et; lia]).
    exists (Some t). split; [done|].
    eapply mutex_rel_step; [exact HR|exact Ht|apply HR|by eapply waits_other; eauto|simpl; lia..|done|].
    eapply holder_acquire; [done|apply HR].
  - assert (stakes (threads c) <> 0%nat) as Ez by lia. rewrite decide_False in Et by done.
    exists h. split; [done|].
    eapply mutex_rel_step; [exact HR|exact Ht|apply HR|by eapply waits_other; eauto|simpl; lia..|done|].
    eapply holder_same; [done|done|done|apply HR].
Qed.

Lemma mutex_push_step n c h l t w s' pc' evs :
  mutex_rel n c h l -> threads c !! t = Some (XWait w) -> w <> WParked ->
  fiber_mutex_lock t (shared c) (XWait w) = Some (s', pc', evs) ->
  exists l', spec_run lock_spec evs h = Some h /\ mutex_rel n (Conf s' (<[t:=pc']> (threads c))) h l'.
Proof.
  intros HR Ht Hw Hs. pose proof (xr_token _ _ _ _ HR) as Et. pose proof (xr_wq _ _ _ _ HR) as Hq.
  pose proof (sum_list_with_lookup stake _ _ _ Ht) as Ls. simpl in Ls.
  fold (stakes (threads c)) in Ls. rewrite decide_False in Et by lia.
  assert (mutex_waits (threads c) t = Some w) as Hwt by (unfold mutex_waits; by rewrite Ht).
  assert (t < n)%nat as Htn by (rewrite <- (xr_len _ _ _ _ HR); by eapply lookup_lt_Some).
  pose proof (fun pc' => mutex_waits_insert _ _ _ pc' Ht) as Hupd.
  destruct w; [| |done]; simpl in Hs.
  - destruct (wqi_absent _ _ _ _ Hq (or_intror Hwt)) as [Hl _].
    destruct (wq_xchg_spec n _ l t (xr_repr _ _ _ _ HR) Htn Hl) as (q' & E & Hr').
    rewrite E in Hs. simplify_eq/=. exists (l ++ [(t, false)]). split; [done|].
    eapply mutex_rel_step; [exact HR|exact Ht|done| |simpl; lia..|done|].
    + eapply wqi_push; [exact Hq|exact Hwt|exact (Hupd (XWait WLink))].
    + eapply holder_same; [done|done|done|apply HR].
  - destruct (wqi_linked _ _ _ _ Hq _ Hwt (Hupd (XWait WParked))) as (l1 & l2 & -> & Hq').
    destruct (wq_link_spec n _ l1 l2 t (xr_repr _ _ _ _ HR)) as (q' & E & Hr').
    rewrite E in Hs. simplify_eq/=. exists (l1 ++ (t, true) :: l2). split; [done|].
    eapply mutex_rel_step; [exact HR|exact Ht|done|done|simpl; lia..|done|].
    eapply holder_same; [done|done|done|apply HR].
Qed.

Lemma mutex_resume n c h l t s' pc' evs :
  mutex_rel n c h l -> threads c !! t = Some (XWait WParked) ->
  fiber_mutex_lock t (shared c) (XWait WParked) = Some (s', pc', evs) ->
  exists h', spec_run lock_spec evs h = Some h' /\ mutex_rel n (Conf s' (<[t:=pc']> (threads c))) h' l.
Proof.
  intros HR Ht. simpl. case_decide as Hin; intros [= <- <- <-].
  pose proof (xr_token _ _ _ _ HR) as Et. pose proof (xr_wq _ _ _ _ HR) as Hq.
  pose proof (sum_list_with_lookup stake _ _ _ Ht) as Ls. simpl in Ls.
  fold (stakes (threads c)) in Ls. rewrite decide_False in Et by lia.
  assert (NoDup (x_ready (shared c))) as Hnd.
  { pose proof (wqi_nd _ _ _ Hq) as Hnd. by apply NoDup_app in Hnd as (_ & _ & ?). }
  pose proof (take_ready_length _ _ Hnd Hin) as El.
  assert (h = None) as -> by (eapply no_token_no_holder; [done|unfold tokens in Et; lia]).
  exists (Some t). split; [done|].
  eapply mutex_rel_step; [exact HR|exact Ht|apply HR| |simpl; lia..|done|].
  - eapply wqi_resume; [exact Hq|done|]. by eapply (mutex_waits_insert _ _ _ XHeld).
  - eapply holder_acquire; [done|apply HR].
Qed.

Lemma mutex_unlock_call n c h l t s' pc' evs :
  Z.of_nat n < 2 ^ 31 -> mutex_rel n c h l -> threads c !! t = Some XHeld ->
  fiber_mutex_unlock_internal t (shared c) XHeld = Some (s', pc', evs) ->
  exists h', spec_run lock_spec evs h = Some h' /\ mutex_rel n (Conf s' (<[t:=pc']> (threads c))) h' l.
Proof.
  intros Hn HR Ht. pose proof (counter_bounds _ _ _ _ HR) as Hb. pose proof (xr_token _ _ _ _ HR) as Et.
  pose proof (xr_count _ _ _ _ HR) as Ec.
  pose proof (sum_list_with_lookup stake _ _ _ Ht) as Ls. simpl in Ls. fold (stakes (threads c)) in Ls.
  rewrite decide_False in Et by lia.
  assert (forall pc', pc' <> XHeld -> h = Some t /\
    forall u, None = Some u <-> <[t:=pc']> (threads c) !! u = Some XHeld) as Hrel.
  { intros pc1 Hp. eapply holder_release; [done|done|apply HR]. }
  simpl. rewrite i32_small by lia.
  destruct (Z.eqb_spec (x_counter (shared c) + 1) 1) as [E|E]; intros [= <- <- <-];
    exists None; (split; [rewrite (proj1 (Hrel XIdle ltac:(done))); simpl; by rewrite decide_True|]).
  - eapply mutex_rel_step; [exact HR|exact Ht|apply HR|by eapply waits_other; eauto|simpl; lia..|done|].
    by apply Hrel.
  - eapply mutex_rel_step; [exact HR|exact Ht|apply HR|by eapply waits_other; eauto|simpl; lia..| |].
    + by intros wc [= <-].
    + by apply Hrel.
Qed.

Lemma mutex_wake_step n c h l t wc s' pc' evs :
  mutex_rel n c h l -> threads c !! t = Some (XWake wc) ->
  fiber_mutex_unlock_internal t (shared c) (XWake wc) = Some (s', pc', evs) ->
  exists l', spec_run lock_spec evs h = Some h /\ mutex_rel n (Conf s' (<[t:=pc']> (threads c))) h l'.
Proof.
  intros HR Ht Hs. pose proof (xr_wake _ _ _ _ HR _ _ Ht) as ->.
  destruct (tokens_holder _ _ _ _ _ _ HR Ht eq_refl) as [Hr _].
  pose proof (xr_token _ _ _ _ HR) as Et.
  pose proof (sum_list_with_lookup token _ _ _ Ht) as Lt. simpl in Lt.
  assert (stakes (threads c) <> 0%nat) as Ez by (intros Ez; rewrite decide_True in Et by done; unfold tokens in Et; lia).
  rewrite decide_False in Et by done.
  assert (forall r pc', wq_inv l r (mutex_waits (threads c)) -> mutex_wait_of pc' = None ->
    wq_inv l r (mutex_waits (<[t:=pc']> (threads c)))) as Hx.
  { intros r p' Hi Hp. eapply wqi_other; [done|left|left; exact Hp|by eapply mutex_waits_insert].
    unfold mutex_waits. by rewrite Ht. }
  simpl in Hs. unfold fiber_manager_wake_from_mpsc_queue in Hs.
  destruct l as [|[g [|]] l'] eqn:El.
  2: { destruct (wq_pop_spec n _ _ _ (xr_repr _ _ _ _ HR)) as (q' & E & Hq').
    rewrite E in Hs. simplify_eq/=. exists l'. split; [done|].
    pose proof (wqi_pop _ _ _ _ (xr_wq _ _ _ _ HR)) as Hw.
    eapply mutex_rel_step; [exact HR|exact Ht|done| |simpl; rewrite ?length_app; simpl; lia..|done|].
    - eapply wqi_other; [done|left|by left|by eapply (mutex_waits_insert _ _ _ XYield)].
      unfold mutex_waits. by rewrite Ht.
    - eapply holder_same; [done|done|done|apply HR]. }
  all: rewrite (wq_pop_empty n _ _ (xr_repr _ _ _ _ HR)) in Hs by done; simplify_eq/=.
  all: eexists; split; [done|].
  all: eapply mutex_rel_step; [exact HR|exact Ht|apply HR|apply Hx; [apply HR|done]|simpl; lia..|by intros ? [= <-]|].
  all: eapply holder_same; [done|done|done|apply HR].
Qed.


Lemma mutex_trylock_call n c h l t sp s' pc' evs : mutex_rel n c h l ->
  threads c !! t = Some XIdle -> fiber_mutex_trylock sp t (shared c) XIdle = Some (s', pc', evs) ->
  exists h', spec_run lock_spec evs h = Some h' /\ mutex_rel n (Conf s' (<[t:=pc']> (threads c))) h' l.
Proof.
  intros HR Ht. pose proof (xr_token _ _ _ _ HR) as Et. pose proof (xr_count _ _ _ _ HR) as Ec. simpl.
  destruct (negb sp && Z.eqb (x_counter (shared c)) 1) eqn:E; intros [= <- <- <-].
  - apply andb_prop in E as [_ E%Z.eqb_eq].
    assert (stakes (threads c) = 0%nat) as Ez by lia. rewrite decide_True in Et by done.
    assert (h = None) as -> by (eapply no_token_no_holder; [done|unfold tokens in Et; lia]).
    exists (Some t). split; [done|].
    eapply mutex_rel_step; [exact HR|exact Ht|apply HR|by eapply waits_other; eauto|simpl; lia..|done|].
    eapply holder_acquire; [done|apply HR].
  - exists h. split; [done|]. rewrite list_insert_id by done. by destruct c.
Qed.

Lemma mutex_simulation n lbl c c' evs h l :
  Z.of_nat n < 2 ^ 31 -> lbl.2 <> XEarly -> mutex_rel n c h l ->
  mutex_step lbl c = Some (c', evs) ->
  exists h' l', spec_run lock_spec evs h = Some h' /\ mutex_rel n c' h' l'.
Proof.
  destruct lbl as [t ch]. simpl. intros Hn Hne HR Hstep.
  apply conf_step_inv in Hstep as (pc & s' & pc' & Ht & Hs & ->).
  destruct ch, pc as [|w| |wc|]; try discriminate Hs; try done; cbn [mutex_tstep] in Hs.
  - destruct (mutex_lock_call _ _ _ _ _ _ _ _ Hn HR Ht Hs) as (h' & ? & ?). eauto.
  - destruct (mutex_trylock_call _ _ _ _ _ _ _ _ _ HR Ht Hs) as (h' & ? & ?). eauto.
  - destruct (mutex_unlock_call _ _ _ _ _ _ _ _ Hn HR Ht Hs) as (h' & ? & ?). eauto.
  - destruct (decide (w = WParked)) as [->|Hw].
    + destruct (mutex_resume _ _ _ _ _ _ _ _ HR Ht Hs) as (h' & ? & ?). eauto.
    + destruct (mutex_push_step _ _ _ _ _ _ _ _ _ HR Ht Hw Hs) as (l' & ? & ?). eauto.
  - destruct (mutex_wake_step _ _ _ _ _ _ _ _ _ HR Ht Hs) as (l' & ? & ?). eauto.
  - simpl in Hs. injection Hs as <- <- <-. exists h, l. split; [done|].
    destruct c as [[v q r] ths].
    pose proof (xr_token _ _ _ _ HR) as Et. simpl in Et.
    eapply mutex_rel_step; [exact HR|exact Ht|apply HR|eapply (waits_other _ _ _ _ _ _ XIdle HR); [exact Ht|done|by left]|simpl; lia| | |done|]; simpl.
    + intros Hz. rewrite decide_True in Et by lia. lia.
    + intros Hz. rewrite decide_False in Et by lia. lia.
    + eapply holder_same; [exact Ht|done|done|apply HR].
Qed.

Lemma mutex_init_rel n : mutex_rel n (mutex_init n) None [].
Proof.
  assert (forall f, f XIdle = 0%nat -> sum_list_with f (replicate n XIdle) = 0%nat) as Hz.
  { intros f Hf. induction n as [|k IH]; [done|]. simpl. lia. }
  unfold mutex_init, fiber_mutex_init. split; simpl.
  - apply length_replicate.
  - apply wq_init_spec.
  - apply wq_inv_init. intros t. unfold mutex_waits.
    destruct (replicate n XIdle !! t) eqn:E; [|done]. apply lookup_replicate in E as [-> _]. done.
  - unfold stakes. rewrite Hz by done. lia.
  - unfold tokens, stakes. rewrite !Hz by done. by rewrite decide_True.
  - by intros t wc [? _]%lookup_replicate.
  - intros t. split; [done|]. by intros [? _]%lookup_replicate.
Qed.

Lemma mutex_run_rel n ls c evs : Z.of_nat n < 2 ^ 31 -> no_early ls ->
  run mutex_step ls (mutex_init n) = Some (c, evs) ->
  exists h l, spec_run lock_spec evs None = Some h /\ mutex_rel n c h l.
Proof.
  intros Hn He. pose proof (mutex_init_rel n) as HR. generalize (@nil (nat * bool)) as l, HR.
  generalize (mutex_init n) as c0. clear HR. generalize (@None nat) as h0.
  revert evs. induction He as [|lbl ls Hl He IH]; intros evs h0 c0 l HR Hrun.
  - simpl in Hrun. simplify_eq. by exists h0, l.
  - apply run_cons_inv in Hrun as (c1 & e1 & e2 & Hs & Hr & ->).
    destruct (mutex_simulation _ _ _ _ _ _ _ Hn Hl HR Hs) as (h1 & l1 & Hh1 & HR1).
    rewrite spec_run_app, Hh1. eauto.
Qed.

(** ** Properties *)


(** One consumer at a time.  At most one fiber is waking a waiter, and then
    no fiber holds the mutex: the contract of the multi-producer
    single-consumer queue is respected. *)
Theorem mutex_single_consumer n ls c evs t u wc p :
  Z.of_nat n < 2 ^ 31 -> no_early ls ->
  run mutex_step ls (mutex_init n) = Some (c, evs) ->
  threads c !! t = Some (XWake wc) -> threads c !! u = Some p -> u <> t ->
  p <> XHeld /\ (forall wc', p <> XWake wc').
Proof.
  intros Hn He Hrun Ht Hu Hne. destruct (mutex_run_rel _ _ _ _ Hn He Hrun) as (h & l & _ & HR).
  destruct (tokens_holder _ _ _ _ _ _ HR Ht eq_refl) as [_ Hk]. specialize (Hk _ _ Hne Hu).
  split; [intros ->|intros wc' ->]; simpl in Hk; lia.
Qed.

(** A fiber in the middle of a push can always take its next step. *)
Lemma mutex_push_enabled n c h l t w : mutex_rel n c h l ->
  threads c !! t = Some (XWait w) -> w <> WParked ->
  exists c' e, mutex_step (t, XGo) c = Some (c', e) /\ c' <> c.
Proof.
  intros HR Ht Hw. pose proof (xr_wq _ _ _ _ HR) as Hq.
  assert (t < n)%nat as Htn by (rewrite <- (xr_len _ _ _ _ HR); by eapply lookup_lt_Some).
  assert (mutex_waits (threads c) t = Some w) as Hwt by (unfold mutex_waits; by rewrite Ht).
  assert (forall s' pc' e, mutex_tstep t XGo (shared c) (XWait w) = Some (s', pc', e) -> pc' <> XWait w ->
    exists c' e, mutex_step (t, XGo) c = Some (c', e) /\ c' <> c) as Hgo.
  { intros s' pc' e E Hne. exists (Conf s' (<[t:=pc']> (threads c))), e. split.
    - unfold mutex_step, conf_step. cbn [fst snd]. by rewrite Ht, E.
    - by eapply conf_changed. }
  destruct w; [| |done].
  - destruct (wqi_absent _ _ _ _ Hq (or_intror Hwt)) as [Hl _].
    destruct (wq_xchg_spec n _ l t (xr_repr _ _ _ _ HR) Htn Hl) as (q' & E & Hr').
    eapply Hgo; [simpl; rewrite E; reflexivity|done].
  - apply (wqi_link _ _ _ Hq) in Hwt. apply list_elem_of_split in Hwt as (l1 & l2 & ->).
    destruct (wq_link_spec n _ l1 l2 t (xr_repr _ _ _ _ HR)) as (q' & E & Hr').
    eapply Hgo; [simpl; rewrite E; reflexivity|done].
Qed.

(** A waker pops a waiter unless a push is under way. *)
Lemma mutex_wake_enabled n c h l t wc : mutex_rel n c h l ->
  threads c !! t = Some (XWake wc) ->
  (exists c' e, mutex_step (t, XGo) c = Some (c', e) /\ c' <> c) \/
  exists u w, threads c !! u = Some (XWait w) /\ w <> WParked.
Proof.
  intros HR Ht. pose proof (xr_wake _ _ _ _ HR _ _ Ht) as ->.
  destruct (tokens_holder _ _ _ _ _ _ HR Ht eq_refl) as [Hr Hot].
  pose proof (xr_token _ _ _ _ HR) as Et.
  pose proof (sum_list_with_lookup token _ _ _ Ht) as Lt. simpl in Lt.
  pose proof (xr_wq _ _ _ _ HR) as Hq.
  destruct l as [|[g [|]] l'].
  - right. destruct (sum_list_with_pos stake (threads c)) as (u & p & Hu & Hp).
    { case_decide as E; unfold tokens, stakes in *; lia. }
    assert (u <> t) as Hne by (intros ->; simplify_eq/=; lia). specialize (Hot _ _ Hne Hu).
    destruct p as [|w| | |]; simpl in *; try lia. exists u, w. split; [done|]. intros ->.
    assert (mutex_waits (threads c) u = Some WParked) as Hw by (unfold mutex_waits; by rewrite Hu).
    apply (wqi_park _ _ _ Hq) in Hw. rewrite Hr in Hw. set_solver.
  - left. destruct (wq_pop_spec n _ _ _ (xr_repr _ _ _ _ HR)) as (q' & E & Hq').
    exists (Conf (XShared (x_counter (shared c)) q' (x_ready (shared c) ++ [g])) (<[t:=XYield]> (threads c))), [].
    unfold mutex_step, conf_step; simpl. rewrite Ht. simpl.
    unfold fiber_manager_wake_from_mpsc_queue. rewrite E. simpl. split; [done|].
    by eapply conf_changed.
  - right. assert (mutex_waits (threads c) g = Some WLink) as Hw by (apply (wqi_link _ _ _ Hq); left).
    unfold mutex_waits in Hw. destruct (threads c !! g) as [[|w| | |]|] eqn:E; simplify_eq/=.
    exists g, WLink. by split.
Qed.


(** Destruction.  When every fiber is outside the mutex, destroying it frees
    one node, the dummy of its queue, and none that a fiber still has. *)
Theorem mutex_destroy_frees n ls c evs : Z.of_nat n < 2 ^ 31 -> no_early ls ->
  run mutex_step ls (mutex_init n) = Some (c, evs) -> (forall t pc, threads c !! t = Some pc -> pc = XIdle) ->
  exists dummy, fiber_mutex_destroy (shared c) = Some (1, [dummy]) /\ dummy ∉ wq_kept (x_waiters (shared c)).
Proof.
  intros Hn He Hrun Hid. destruct (mutex_run_rel _ _ _ _ Hn He Hrun) as (h & l & _ & HR).
  destruct (wqi_nobody _ _ _ (xr_wq _ _ _ _ HR)) as [-> _].
  { intros t. unfold mutex_waits. destruct (threads c !! t) eqn:E; [|done]. by rewrite (Hid _ _ E). }
  destruct (wq_destroy_spec _ _ (xr_repr _ _ _ _ HR)) as (x & E & Hx). exists x. unfold fiber_mutex_destroy. by rewrite E.
Qed.

End mutex.

(** ** Runs over the node-heap queue *)

(** Fiber 0 locks, fiber 1 queues behind it and parks. *)
Definition mutex_demo_wait : list (nat * mutex_choice) :=
  [(0, XCallLock); (1, XCallLock); (1, XGo); (1, XGo)]%nat.

(** Then fiber 0 unlocks, pops and schedules fiber 1, which gets the mutex. *)
Definition mutex_demo : list (nat * mutex_choice) :=
  mutex_demo_wait ++ [(0, XCallUnlock); (0, XGo); (1, XGo); (0, XGo); (0, XCallTrylock false)]%nat.


Lemma mutex_single_consumer_witness :
  XWait WParked <> XHeld /\ (forall wc', XWait WParked <> XWake wc').
Proof.
  eapply (mutex_single_consumer (Q := mpsc_queue) 2 (mutex_demo_wait ++ [(0%nat, XCallUnlock)])
    _ _ 0 1 0 (XWait WParked)).
  - lia.
  - unfold no_early, mutex_demo_wait. simpl. repeat constructor; discriminate.
  - vm_compute. reflexivity.
  - reflexivity.
  - reflexivity.
  - discriminate.
Defined.


(** What an early return of [fiber_manager_yield] does.  If the yield of a
    waiting fiber returns although nobody scheduled it, [fiber_mutex_lock]
    returns and two fibers are in the critical section. *)
Theorem mutex_early_return :
  exists c : mutex_conf (Q := mpsc_queue),
    run mutex_step (mutex_demo_wait ++ [(1%nat, XEarly)]) (mutex_init 2) =
      Some (c, [EvAcquire 0; EvAcquire 1]%nat) /\
    threads c = [XHeld; XHeld] /\
    spec_run lock_spec [EvAcquire 0; EvAcquire 1]%nat None = None.
Proof. eexists. split; [vm_compute; reflexivity|]. by split. Qed.
