(* ===== verification/RwLock.v ===== *)
(** * The readers-writer lock ([src/fiber_rwlock.c], [include/fiber_rwlock.h])

    The lock is one 64-bit word of four packed fields, changed only by
    compare-and-swap, and two queues of sleeping fibers.  As with the mutex, an
    unlock hands the lock over before it wakes the waiters: the fields count
    fibers that are still to be woken as readers or as the writer. *)

From S2P Require Import Prelude MpscFifo WaitQueue.

(** ** The packed state *)

(** [fiber_rwlock_state_t.state]: bit-fields of 1, 21, 21 and 21 bits. *)
Record rw_state := RwState {
  write_locked : Z; reader_count : Z; waiting_readers : Z; waiting_writers : Z
}.

Definition rw_blob (s : rw_state) : Z :=
  Z.lor (write_locked s) (Z.lor (Z.shiftl (reader_count s) 1)
    (Z.lor (Z.shiftl (waiting_readers s) 22) (Z.shiftl (waiting_writers s) 43))).

Definition rw_of_blob (b : Z) : rw_state :=
  RwState (Z.land b (2 ^ 1 - 1)) (Z.land (Z.shiftr b 1) (2 ^ 21 - 1))
          (Z.land (Z.shiftr b 22) (2 ^ 21 - 1)) (Z.land (Z.shiftr b 43) (2 ^ 21 - 1)).

(** Assigning to a 21-bit field truncates. *)
Definition u21 (z : Z) : Z := z mod 2 ^ 21.

Definition rw_ok (s : rw_state) : Prop :=
  0 <= write_locked s < 2 ^ 1 /\ 0 <= reader_count s < 2 ^ 21 /\
  0 <= waiting_readers s < 2 ^ 21 /\ 0 <= waiting_writers s < 2 ^ 21.

(** ** Operations

    Each function is a loop: read the word, decide, compare-and-swap, retry on
    failure.  A [decision] is what the body computes from the snapshot. *)

Inductive rw_after := AHoldRead | AHoldWrite | AWaitRead | AWaitWrite
  | ADone | AWakeWriter | AWakeReaders (count : Z).

Inductive decision :=
| Swap (new : rw_state) (after : rw_after)
| RetError               (* return FIBER_ERROR *)
| AssertFails.

Definition fiber_rwlock_rdlock (s : rw_state) : decision :=
  let '(RwState wl rc wr ww) := s in
  if negb (Z.eqb ww 0) || negb (Z.eqb wl 0) || negb (Z.eqb wr 0)
  then Swap (RwState wl rc (u21 (wr + 1)) ww) AWaitRead
  else Swap (RwState wl (u21 (rc + 1)) wr ww) AHoldRead.

Definition fiber_rwlock_wrlock (s : rw_state) : decision :=
  let '(RwState wl rc wr ww) := s in
  if negb (Z.eqb (rw_blob s) 0)
  then Swap (RwState wl rc wr (u21 (ww + 1))) AWaitWrite
  else Swap (RwState 1 rc wr ww) AHoldWrite.

Definition fiber_rwlock_tryrdlock (s : rw_state) : decision :=
  let '(RwState wl rc wr ww) := s in
  if negb (Z.eqb ww 0) || negb (Z.eqb wl 0) || negb (Z.eqb wr 0)
  then RetError
  else Swap (RwState wl (u21 (rc + 1)) wr ww) AHoldRead.

Definition fiber_rwlock_trywrlock (s : rw_state) : decision :=
  let '(RwState wl rc wr ww) := s in
  if negb (Z.eqb (rw_blob s) 0) then RetError
  else Swap (RwState 1 rc wr ww) AHoldWrite.

Definition fiber_rwlock_rdunlock (s : rw_state) : decision :=
  let '(RwState wl rc wr ww) := s in
  if negb (Z.ltb 0 rc) then AssertFails
  else if negb (Z.eqb wl 0) then AssertFails
  else
    let rc := u21 (rc - 1) in
    if Z.eqb rc 0
    then if negb (Z.eqb ww 0) then Swap (RwState 1 rc wr (u21 (ww - 1))) AWakeWriter
         else if negb (Z.eqb wr 0) then Swap (RwState wl wr 0 ww) (AWakeReaders wr)
         else Swap (RwState wl rc wr ww) ADone
    else Swap (RwState wl rc wr ww) ADone.

Definition fiber_rwlock_wrunlock (s : rw_state) : decision :=
  let '(RwState wl rc wr ww) := s in
  if negb (Z.eqb rc 0) then AssertFails
  else if Z.eqb wl 0 then AssertFails
  else if negb (Z.eqb ww 0) then Swap (RwState 1 rc wr (u21 (ww - 1))) AWakeWriter
  else if negb (Z.eqb wr 0) then Swap (RwState 0 wr 0 ww) (AWakeReaders wr)
  else Swap (RwState 0 rc wr ww) ADone.

Inductive rw_op := RdLock | WrLock | TryRdLock | TryWrLock | RdUnlock | WrUnlock.

Definition rw_decide (o : rw_op) : rw_state -> decision :=
  match o with
  | RdLock => fiber_rwlock_rdlock | WrLock => fiber_rwlock_wrlock
  | TryRdLock => fiber_rwlock_tryrdlock | TryWrLock => fiber_rwlock_trywrlock
  | RdUnlock => fiber_rwlock_rdunlock | WrUnlock => fiber_rwlock_wrunlock
  end.

(** ** The concurrent machine *)

Inductive rw_pc :=
| RIdle
| RHeldR | RHeldW
| RLoop (o : rw_op)                     (* before reading the snapshot *)
| RCas (o : rw_op) (snapshot : Z)       (* before the compare-and-swap *)
| RWaitR (w : wait_pc) | RWaitW (w : wait_pc)
| RWakeR (count wake_count : Z)
| RWakeW (wake_count : Z)
| RAborted.                             (* an assertion failed *)

Inductive rw_choice := RCall (o : rw_op) | RGo.

Section rwlock.
Context {Q : Type} `{WaitQueue Q}.

Record rw_shared := RwShared {
  rw_word : Z; rw_write_waiters : Q; rw_read_waiters : Q; rw_ready : list nat
}.

Definition fiber_rwlock_init (n : nat) : rw_shared := RwShared 0 (wq_init n) (wq_init n) [].

(** The nodes it frees, of both queues. *)
Definition fiber_rwlock_destroy (s : rw_shared) : option (list Z * list Z) :=
  freed_w ← wq_destroy (rw_write_waiters s); freed_r ← wq_destroy (rw_read_waiters s); Some (freed_w, freed_r).

Definition rw_after_pc (a : rw_after) : rw_pc :=
  match a with
  | AHoldRead => RHeldR | AHoldWrite => RHeldW
  | AWaitRead => RWaitR WPush | AWaitWrite => RWaitW WPush
  | ADone => RIdle | AWakeWriter => RWakeW 0 | AWakeReaders count => RWakeR count 0
  end.

Definition rw_tstep (t : nat) (ch : rw_choice) (s : rw_shared) (pc : rw_pc)
    : option (rw_shared * rw_pc * list unit) :=
  let '(RwShared b qw qr ready) := s in
  match ch, pc with
  | RCall ((RdLock | WrLock | TryRdLock | TryWrLock) as o), RIdle => Some (s, RLoop o, [])
  | RCall RdUnlock, RHeldR => Some (s, RLoop RdUnlock, [])
  | RCall WrUnlock, RHeldW => Some (s, RLoop WrUnlock, [])
  | RGo, RLoop o =>
      match rw_decide o (rw_of_blob b) with
      | Swap _ _ => Some (s, RCas o b, [])
      | RetError => Some (s, RIdle, [])
      | AssertFails => Some (s, RAborted, [])
      end
  | RGo, RCas o snapshot =>
      if Z.eqb b snapshot
      then match rw_decide o (rw_of_blob snapshot) with
           | Swap new after => Some (RwShared (rw_blob new) qw qr ready, rw_after_pc after, [])
           | _ => None
           end
      else Some (s, RLoop o, [])
  | RGo, RWaitR WParked =>
      if decide (t ∈ ready) then Some (RwShared b qw qr (take_ready t ready), RHeldR, []) else None
  | RGo, RWaitR w =>
      r ← fiber_manager_wait_in_mpsc_queue t w qr; Some (RwShared b qw r.1 ready, RWaitR r.2, [])
  | RGo, RWaitW WParked =>
      if decide (t ∈ ready) then Some (RwShared b qw qr (take_ready t ready), RHeldW, []) else None
  | RGo, RWaitW w =>
      r ← fiber_manager_wait_in_mpsc_queue t w qw; Some (RwShared b r.1 qr ready, RWaitW r.2, [])
  | RGo, RWakeW wc =>
      r ← fiber_manager_wake_from_mpsc_queue 1 wc qw ready;
      let '(q, ready, next) := r in
      Some (RwShared b q qr ready, match next with Some wc => RWakeW wc | None => RIdle end, [])
  | RGo, RWakeR count wc =>
      r ← fiber_manager_wake_from_mpsc_queue count wc qr ready;
      let '(q, ready, next) := r in
      Some (RwShared b qw q ready, match next with Some wc => RWakeR count wc | None => RIdle end, [])
  | _, _ => None
  end.

Definition rw_conf := conf rw_shared rw_pc.
Definition rw_step := conf_step rw_tstep.
Definition rw_init (n : nat) : rw_conf := Conf (fiber_rwlock_init n) (replicate n RIdle).
End rwlock.

(** ** Packing *)

Lemma lor_shift_add a b k : 0 <= k -> 0 <= a < 2 ^ k -> Z.lor a (Z.shiftl b k) = a + b * 2 ^ k.
Proof.
  intros Hk Ha. rewrite Z.shiftl_mul_pow2 by lia.
  assert (Z.land a (b * 2 ^ k) = 0) as Hl.
  { apply Z.bits_inj'. intros i Hi. rewrite Z.land_spec, Z.bits_0.
    destruct (Z.ltb_spec i k) as [Hlt|Hge].
    - rewrite (Z.mul_pow2_bits_low b k i) by lia. apply andb_false_r.
    - destruct (decide (a = 0)) as [->|Hnz]; [by rewrite Z.bits_0|].
      rewrite (Z.bits_above_log2 a i); [done|lia|].
      assert (Z.log2 a < k) by (apply Z.log2_lt_pow2; lia). lia. }
  rewrite <- (Z.lxor_lor _ _ Hl). symmetry. by apply Z.add_nocarry_lxor.
Qed.

Lemma rw_blob_add s : rw_ok s -> rw_blob s =
  write_locked s + reader_count s * 2 ^ 1 + waiting_readers s * 2 ^ 22 + waiting_writers s * 2 ^ 43.
Proof.
  intros (H1 & H2 & H3 & H4). destruct s as [wl rc wr ww]; unfold rw_blob; simpl in *.
  replace (Z.lor (Z.shiftl wr 22) (Z.shiftl ww 43)) with (Z.shiftl (wr + ww * 2 ^ 21) 22).
  2: { rewrite <- (lor_shift_add wr ww 21) by lia. rewrite Z.shiftl_lor, Z.shiftl_shiftl by lia. done. }
  replace (Z.lor (Z.shiftl rc 1) (Z.shiftl (wr + ww * 2 ^ 21) 22)) with
    (Z.shiftl (rc + (wr + ww * 2 ^ 21) * 2 ^ 21) 1).
  2: { rewrite <- (lor_shift_add rc _ 21) by lia. rewrite Z.shiftl_lor, Z.shiftl_shiftl by lia. done. }
  rewrite lor_shift_add by lia. lia.
Qed.

Lemma rw_unpack s : rw_ok s -> rw_of_blob (rw_blob s) = s.
Proof.
  intros Hs. rewrite rw_blob_add by done. destruct Hs as (H1 & H2 & H3 & H4).
  destruct s as [wl rc wr ww]; simpl in *. unfold rw_of_blob.
  rewrite !land_pow2_mod, !Z.shiftr_div_pow2 by lia. f_equal;
    Z.to_euclidean_division_equations; lia.
Qed.

Lemma rw_blob_inj s s' : rw_ok s -> rw_ok s' -> rw_blob s = rw_blob s' -> s = s'.
Proof. intros H1 H2 E. by rewrite <- (rw_unpack s), <- (rw_unpack s'), E. Qed.

(** ** Counting the fibers *)

(** Readers and writers inside (also those in the unlock loop), wake-ups still
    owed by a waker, and fibers in a queue. *)
Definition hold_r (pc : rw_pc) : nat :=
  match pc with RHeldR | RLoop RdUnlock | RCas RdUnlock _ => 1 | _ => 0 end.
Definition hold_w (pc : rw_pc) : nat :=
  match pc with RHeldW | RLoop WrUnlock | RCas WrUnlock _ => 1 | _ => 0 end.
Definition owe_r (pc : rw_pc) : nat :=
  match pc with RWakeR count wc => Z.to_nat (count - wc) | _ => 0 end.
Definition owe_w (pc : rw_pc) : nat := match pc with RWakeW _ => 1 | _ => 0 end.
Definition wakes_r (pc : rw_pc) : nat := match pc with RWakeR _ _ => 1 | _ => 0 end.
Definition in_r (pc : rw_pc) : nat := match pc with RWaitR _ => 1 | _ => 0 end.
Definition in_w (pc : rw_pc) : nat := match pc with RWaitW _ => 1 | _ => 0 end.

Definition wait_r_of (pc : rw_pc) : option wait_pc := match pc with RWaitR w => Some w | _ => None end.
Definition wait_w_of (pc : rw_pc) : option wait_pc := match pc with RWaitW w => Some w | _ => None end.
Definition waits_r (ths : list rw_pc) (t : nat) : option wait_pc := pc ← ths !! t; wait_r_of pc.
Definition waits_w (ths : list rw_pc) (t : nat) : option wait_pc := pc ← ths !! t; wait_w_of pc.

(** The meaning of the four fields.  [nr] and [nw] are the woken readers and
    writers the scheduler has not run yet. *)
Record rw_counts (s : rw_state) (hr hw owr oww inr inw nr nw : nat) : Prop := {
  rk_rc : reader_count s = Z.of_nat (hr + nr + owr);
  rk_wl : write_locked s = Z.of_nat (hw + nw + oww);
  rk_wr : waiting_readers s + Z.of_nat (owr + nr) = Z.of_nat inr;
  rk_ww : waiting_writers s + Z.of_nat (oww + nw) = Z.of_nat inw;
  rk_pos : 0 <= waiting_readers s /\ 0 <= waiting_writers s;
  rk_one : write_locked s <= 1;
  rk_excl : write_locked s = 0 \/ reader_count s = 0;
  rk_free : write_locked s = 0 -> reader_count s = 0 ->
    waiting_readers s = 0 /\ waiting_writers s = 0
}.

Definition rw_pc_ok (pc : rw_pc) : Prop :=
  match pc with
  | RWakeR count wc => 0 <= wc < count
  | RWakeW wc => wc = 0
  | RCas o snapshot => exists new after, rw_decide o (rw_of_blob snapshot) = Swap new after
  | RAborted => False
  | _ => True
  end.

Abbreviation total f c := (sum_list_with f (threads c)).

Section invariant.
Context {Q : Type} `{WaitQueue Q}.

Record rw_inv (n : nat) (c : rw_conf (Q := Q)) (s : rw_state)
    (lr lw : list (nat * bool)) (rr rw : list nat) : Prop := {
  ri_len : length (threads c) = n;
  ri_word : rw_word (shared c) = rw_blob s;
  ri_counts : rw_counts s (total hold_r c) (total hold_w c) (total owe_r c) (total owe_w c)
                (total in_r c) (total in_w c) (length rr) (length rw);
  ri_repr_r : wq_repr n (rw_read_waiters (shared c)) lr;
  ri_repr_w : wq_repr n (rw_write_waiters (shared c)) lw;
  ri_wq_r : wq_inv lr rr (waits_r (threads c));
  ri_wq_w : wq_inv lw rw (waits_w (threads c));
  ri_ready : rw_ready (shared c) ≡ₚ rr ++ rw;
  ri_pc : forall t pc, threads c !! t = Some pc -> rw_pc_ok pc;
  ri_waker : (total wakes_r c <= 1)%nat
}.

Lemma waits_r_insert ths t pc pc' : ths !! t = Some pc ->
  upd_at t (wait_r_of pc') (waits_r ths) (waits_r (<[t:=pc']> ths)).
Proof.
  intros Ht. unfold waits_r. split.
  - by rewrite list_lookup_insert_eq by (by eapply lookup_lt_Some).
  - intros i Hi. by rewrite list_lookup_insert_ne.
Qed.

Lemma waits_w_insert ths t pc pc' : ths !! t = Some pc ->
  upd_at t (wait_w_of pc') (waits_w ths) (waits_w (<[t:=pc']> ths)).
Proof.
  intros Ht. unfold waits_w. split.
  - by rewrite list_lookup_insert_eq by (by eapply lookup_lt_Some).
  - intros i Hi. by rewrite list_lookup_insert_ne.
Qed.

Lemma totals_le (ths : list rw_pc) :
  (sum_list_with hold_r ths + sum_list_with hold_w ths + sum_list_with in_r ths +
   sum_list_with in_w ths <= length ths)%nat.
Proof.
  induction ths as [|pc ths IH]; simpl; [lia|].
  assert (hold_r pc + hold_w pc + in_r pc + in_w pc <= 1)%nat; [|lia].
  destruct pc; simpl; try lia; destruct o; simpl; lia.
Qed.

Lemma rw_counts_ok n s hr hw owr oww inr inw nr nw :
  Z.of_nat n < 2 ^ 21 -> (hr + hw + inr + inw <= n)%nat ->
  rw_counts s hr hw owr oww inr inw nr nw -> rw_ok s.
Proof. intros Hn Hle [H1 H2 H3 H4 H5 H6 H7 H8]. unfold rw_ok. lia. Qed.

Lemma wakers_owe (ths : list rw_pc) : (forall t pc, ths !! t = Some pc -> rw_pc_ok pc) ->
  (sum_list_with wakes_r ths <= sum_list_with owe_r ths)%nat.
Proof.
  induction ths as [|p ths IH]; intros Hok; simpl; [lia|].
  specialize (IH (fun t => Hok (S t))). pose proof (Hok 0%nat p eq_refl) as Hp.
  destruct p; simpl in *; lia.
Qed.

Section step.
Variables (n : nat) (c : rw_conf (Q := Q)) (s : rw_state) (lr lw : list (nat * bool)) (rr rw : list nat)
  (t : nat) (pc : rw_pc).
Hypothesis Hn : Z.of_nat n < 2 ^ 21.
Hypothesis HI : rw_inv n c s lr lw rr rw.
Hypothesis Ht : threads c !! t = Some pc.

Lemma rw_inv_ok : rw_ok s.
Proof using Hn HI.
  eapply rw_counts_ok; [done| |apply HI]. rewrite <- (ri_len _ _ _ _ _ _ _ HI). apply totals_le.
Qed.

(** A fiber that is neither inside nor in a queue leaves room for one more. *)
Lemma rw_room : hold_r pc = 0%nat -> hold_w pc = 0%nat -> in_r pc = 0%nat -> in_w pc = 0%nat ->
  (total hold_r c + total hold_w c + total in_r c + total in_w c < n)%nat.
Proof using HI Ht.
  intros H1 H2 H3 H4. pose proof (totals_le (<[t:=RHeldR]> (threads c))) as Hle.
  rewrite length_insert, (ri_len _ _ _ _ _ _ _ HI) in Hle.
  pose proof (sum_list_with_insert hold_r _ _ _ RHeldR Ht). pose proof (sum_list_with_insert hold_w _ _ _ RHeldR Ht).
  pose proof (sum_list_with_insert in_r _ _ _ RHeldR Ht). pose proof (sum_list_with_insert in_w _ _ _ RHeldR Ht).
  simpl in *. lia.
Qed.

(** The generic step: the new counts follow from the moving fiber's own. *)
Lemma rw_inv_step pc' b' qw' qr' ready' s' lr' lw' rr' rw' :
  b' = rw_blob s' ->
  (forall hr hw owr oww inr inw,
    (hr + hold_r pc = total hold_r c + hold_r pc' /\ hw + hold_w pc = total hold_w c + hold_w pc' /\
     owr + owe_r pc = total owe_r c + owe_r pc' /\ oww + owe_w pc = total owe_w c + owe_w pc' /\
     inr + in_r pc = total in_r c + in_r pc' /\ inw + in_w pc = total in_w c + in_w pc')%nat ->
    (hold_r pc <= total hold_r c /\ hold_w pc <= total hold_w c /\ owe_r pc <= total owe_r c /\
     owe_w pc <= total owe_w c /\ in_r pc <= total in_r c /\ in_w pc <= total in_w c)%nat ->
    rw_counts s' hr hw owr oww inr inw (length rr') (length rw')) ->
  wq_repr n qr' lr' -> wq_repr n qw' lw' ->
  wq_inv lr' rr' (waits_r (<[t:=pc']> (threads c))) ->
  wq_inv lw' rw' (waits_w (<[t:=pc']> (threads c))) ->
  ready' ≡ₚ rr' ++ rw' -> rw_pc_ok pc' ->
  (wakes_r pc' <= wakes_r pc)%nat \/ total owe_r c = 0%nat ->
  rw_inv n (Conf (RwShared b' qw' qr' ready') (<[t:=pc']> (threads c))) s' lr' lw' rr' rw'.
Proof using HI Ht.
  intros Hb Hc Hqr Hqw Hwr Hww Hrd Hpc Hwk. split; simpl; try done.
  - rewrite length_insert. apply HI.
  - apply Hc; split_and!; first [by apply sum_list_with_insert | by eapply sum_list_with_lookup].
  - intros u p Hu. apply lookup_insert_cases in Hu as [[-> ->]|[_ Hu]]; [done|].
    by eapply (ri_pc _ _ _ _ _ _ _ HI).
  - pose proof (sum_list_with_insert wakes_r _ _ _ pc' Ht). pose proof (ri_waker _ _ _ _ _ _ _ HI).
    pose proof (wakers_owe (threads c) (ri_pc _ _ _ _ _ _ _ HI)).
    assert (wakes_r pc' <= 1)%nat by (destruct pc'; simpl; lia). lia.
Qed.

Lemma waits_r_out pc' : wait_r_of pc = None \/ wait_r_of pc = Some WPush ->
  wait_r_of pc' = None \/ wait_r_of pc' = Some WPush ->
  wq_inv lr rr (waits_r (<[t:=pc']> (threads c))).
Proof using HI Ht.
  intros H1 H2. eapply wqi_other; [apply HI| |exact H2|by eapply waits_r_insert].
  unfold waits_r. rewrite Ht. exact H1.
Qed.

Lemma waits_w_out pc' : wait_w_of pc = None \/ wait_w_of pc = Some WPush ->
  wait_w_of pc' = None \/ wait_w_of pc' = Some WPush ->
  wq_inv lw rw (waits_w (<[t:=pc']> (threads c))).
Proof using HI Ht.
  intros H1 H2. eapply wqi_other; [apply HI| |exact H2|by eapply waits_w_insert].
  unfold waits_w. rewrite Ht. exact H1.
Qed.

End step.

Ltac rw_arith HI :=
  let h1 := fresh in let h2 := fresh in
  intros ? ? ? ? ? ? h1 h2;
  destruct (ri_counts _ _ _ _ _ _ _ HI);
  simpl in h1, h2; cbn [write_locked reader_count waiting_readers waiting_writers] in *;
  split; cbn [write_locked reader_count waiting_readers waiting_writers];
  rewrite ?length_app in *; simpl in *; lia.

Ltac rw_move HI Ht :=
  eapply (rw_inv_step _ _ _ _ _ _ _ _ _ HI Ht);
  [ | | try apply HI | try apply HI
  | try (eapply (waits_r_out _ _ _ _ _ _ _ _ _ HI Ht); simpl; by auto)
  | try (eapply (waits_w_out _ _ _ _ _ _ _ _ _ HI Ht); simpl; by auto)
  | try apply HI | try done | try (left; simpl; lia) ].

(** A compare-and-swap that succeeds applies the decision to the current word. *)
Lemma rw_cas_inv n c s lr lw rr rw t o new after :
  Z.of_nat n < 2 ^ 21 -> rw_inv n c s lr lw rr rw ->
  threads c !! t = Some (RCas o (rw_word (shared c))) -> rw_decide o s = Swap new after ->
  rw_inv n (Conf (RwShared (rw_blob new) (rw_write_waiters (shared c)) (rw_read_waiters (shared c))
    (rw_ready (shared c))) (<[t:=rw_after_pc after]> (threads c))) new lr lw rr rw.
Proof.
  intros Hn HI Ht Hd. pose proof (rw_inv_ok _ _ _ _ _ _ _ Hn HI) as Hok.
  pose proof (ri_counts _ _ _ _ _ _ _ HI) as Hc. destruct Hc as [C1 C2 C3 C4 C5 C6 C7 C8].
  assert (forall z, 0 <= z < 2 ^ 21 -> u21 z = z) as Hu by (intros; unfold u21; apply Z.mod_small; lia).
  assert (o <> RdUnlock -> o <> WrUnlock ->
    (total hold_r c + total hold_w c + total in_r c + total in_w c < n)%nat) as Hroom.
  { intros O1 O2. eapply rw_room; [exact HI|exact Ht|..]; destruct o; done. }
  assert (rw_blob s = 0 -> s = RwState 0 0 0 0) as Hzero.
  { intros E. apply rw_blob_inj; [done|unfold rw_ok; simpl; lia|]. by rewrite E. }
  pose proof (sum_list_with_lookup hold_r _ _ _ Ht) as L1.
  pose proof (sum_list_with_lookup hold_w _ _ _ Ht) as L2.
  destruct s as [wl rc wr ww]; cbn [write_locked reader_count waiting_readers waiting_writers] in *.
  destruct Hok as (K1 & K2 & K3 & K4); cbn [write_locked reader_count waiting_readers waiting_writers] in *.
  destruct o; simpl in Hd, L1, L2;
    [specialize (Hroom ltac:(done) ltac:(done)).. | |].
  - destruct (negb (ww =? 0) || negb (wl =? 0) || negb (wr =? 0)) eqn:E; injection Hd as <- <-.
    + rewrite Hu by lia. rw_move HI Ht; [done|]. rw_arith HI.
    + rewrite Hu by lia. rw_move HI Ht; [done|]. rw_arith HI.
  - destruct (Z.eqb_spec (rw_blob (RwState wl rc wr ww)) 0) as [E|E]; simpl in Hd; injection Hd as <- <-.
    + specialize (Hzero E). injection Hzero as -> -> -> ->. rw_move HI Ht; [done|]. rw_arith HI.
    + assert (wl <> 0 \/ rc <> 0).
      { destruct (decide (wl = 0)) as [->|?]; [|by left]. right. intros ->.
        destruct (C8 eq_refl eq_refl) as [-> ->]. by apply E. }
      rewrite Hu by lia. rw_move HI Ht; [done|]. rw_arith HI.
  - destruct (negb (ww =? 0) || negb (wl =? 0) || negb (wr =? 0)) eqn:E; [done|]. injection Hd as <- <-.
    rewrite Hu by lia. rw_move HI Ht; [done|]. rw_arith HI.
  - destruct (Z.eqb_spec (rw_blob (RwState wl rc wr ww)) 0) as [E|E]; simpl in Hd; [|done]. injection Hd as <- <-.
    specialize (Hzero E). injection Hzero as -> -> -> ->. rw_move HI Ht; [done|]. rw_arith HI.
  - rewrite Hu in Hd by lia.
    destruct (Z.ltb_spec 0 rc); simpl in Hd; [|done]. destruct (Z.eqb_spec wl 0); simpl in Hd; [|done].
    destruct (Z.eqb_spec (rc - 1) 0) as [E|E]; [destruct (Z.eqb_spec ww 0); simpl in Hd; [destruct (Z.eqb_spec wr 0); simpl in Hd|]|];
      injection Hd as <- <-; rewrite ?Hu by lia; (rw_move HI Ht; [done| |..]); try (rw_arith HI); simpl; lia.
  - destruct (Z.eqb_spec rc 0); simpl in Hd; [|done]. destruct (Z.eqb_spec wl 0); simpl in Hd; [done|].
    destruct (Z.eqb_spec ww 0); simpl in Hd; [destruct (Z.eqb_spec wr 0); simpl in Hd|];
      injection Hd as <- <-; rewrite ?Hu by lia; (rw_move HI Ht; [done| |..]); try (rw_arith HI); simpl; lia.
Qed.

Abbreviation inv_of n c := (exists s lr lw rr rw, rw_inv n c s lr lw rr rw).

Lemma rw_push_inv n c s lr lw rr rw t pc s' pc' e w :
  rw_inv n c s lr lw rr rw -> threads c !! t = Some pc ->
  (pc = RWaitR w \/ pc = RWaitW w) -> w <> WParked ->
  rw_tstep t RGo (shared c) pc = Some (s', pc', e) ->
  inv_of n (Conf s' (<[t:=pc']> (threads c))).
Proof.
  intros HI Ht Hpc Hw Hs. pose proof (ri_word _ _ _ _ _ _ _ HI) as Hb.
  assert (t < n)%nat as Htn by (rewrite <- (ri_len _ _ _ _ _ _ _ HI); by eapply lookup_lt_Some).
  pose proof (ri_wq_r _ _ _ _ _ _ _ HI) as Hqr. pose proof (ri_wq_w _ _ _ _ _ _ _ HI) as Hqw.
  pose proof (fun pc' => waits_r_insert _ _ _ pc' Ht) as Hur.
  pose proof (fun pc' => waits_w_insert _ _ _ pc' Ht) as Huw.
  pose proof (ri_repr_r _ _ _ _ _ _ _ HI) as Hrr. pose proof (ri_repr_w _ _ _ _ _ _ _ HI) as Hrw.
  pose proof (ri_ready _ _ _ _ _ _ _ HI) as Hrd.
  assert (forall w', pc = RWaitR w' -> waits_r (threads c) t = Some w') as Wr by (intros ? ->; unfold waits_r; by rewrite Ht).
  assert (forall w', pc = RWaitW w' -> waits_w (threads c) t = Some w') as Ww by (intros ? ->; unfold waits_w; by rewrite Ht).
  destruct (shared c) as [b qw qr ready] eqn:Es; simpl in *.
  destruct Hpc as [-> | ->]; destruct w; try done; simpl in Hs.
  - destruct (wqi_absent _ _ _ _ Hqr (or_intror (Wr _ eq_refl))) as [Hl _].
    destruct (wq_xchg_spec n _ lr t Hrr Htn Hl) as (q' & E & Hq').
    rewrite E in Hs. simplify_eq/=. exists s, (lr ++ [(t, false)]), lw, rr, rw.
    rw_move HI Ht; [done|rw_arith HI|done|done| |done].
    eapply wqi_push; [exact Hqr|by apply Wr|exact (Hur (RWaitR WLink))].
  - destruct (wqi_linked _ _ _ _ Hqr _ (Wr _ eq_refl) (Hur (RWaitR WParked))) as (l1 & l2 & -> & Hq').
    destruct (wq_link_spec n _ l1 l2 t Hrr) as (q' & E & Hr').
    rewrite E in Hs. simplify_eq/=. exists s, (l1 ++ (t, true) :: l2), lw, rr, rw.
    rw_move HI Ht; [done|rw_arith HI|done|done|done|done].
  - destruct (wqi_absent _ _ _ _ Hqw (or_intror (Ww _ eq_refl))) as [Hl _].
    destruct (wq_xchg_spec n _ lw t Hrw Htn Hl) as (q' & E & Hq').
    rewrite E in Hs. simplify_eq/=. exists s, lr, (lw ++ [(t, false)]), rr, rw.
    rw_move HI Ht; [done|rw_arith HI|done|done| |done].
    eapply wqi_push; [exact Hqw|by apply Ww|exact (Huw (RWaitW WLink))].
  - destruct (wqi_linked _ _ _ _ Hqw _ (Ww _ eq_refl) (Huw (RWaitW WParked))) as (l1 & l2 & -> & Hq').
    destruct (wq_link_spec n _ l1 l2 t Hrw) as (q' & E & Hr').
    rewrite E in Hs. simplify_eq/=. exists s, lr, (l1 ++ (t, true) :: l2), rr, rw.
    rw_move HI Ht; [done|rw_arith HI|done|done|done|done].
Qed.

Lemma take_ready_app t l1 l2 : take_ready t (l1 ++ l2) = take_ready t l1 ++ take_ready t l2.
Proof. apply filter_app. Qed.

Lemma take_ready_absent t l : t ∉ l -> take_ready t l = l.
Proof.
  intros Hl. unfold take_ready. induction l as [|x l IH]; [done|].
  apply not_elem_of_cons in Hl as [? ?]. rewrite filter_cons_True by congruence. by rewrite IH.
Qed.

Lemma rw_resume_inv n c s lr lw rr rw t pc s' pc' e :
  rw_inv n c s lr lw rr rw -> threads c !! t = Some pc ->
  (pc = RWaitR WParked \/ pc = RWaitW WParked) ->
  rw_tstep t RGo (shared c) pc = Some (s', pc', e) ->
  inv_of n (Conf s' (<[t:=pc']> (threads c))).
Proof.
  intros HI Ht Hpc Hs. pose proof (ri_word _ _ _ _ _ _ _ HI) as Hb.
  pose proof (ri_wq_r _ _ _ _ _ _ _ HI) as Hqr. pose proof (ri_wq_w _ _ _ _ _ _ _ HI) as Hqw.
  pose proof (ri_repr_r _ _ _ _ _ _ _ HI) as Hrr. pose proof (ri_repr_w _ _ _ _ _ _ _ HI) as Hrw.
  pose proof (ri_ready _ _ _ _ _ _ _ HI) as Hrd.
  assert (NoDup rr /\ NoDup rw) as [Nr Nw].
  { pose proof (wqi_nd _ _ _ Hqr) as N1. pose proof (wqi_nd _ _ _ Hqw) as N2.
    apply NoDup_app in N1 as (_ & _ & ?). by apply NoDup_app in N2 as (_ & _ & ?). }
  assert (take_ready t (rw_ready (shared c)) ≡ₚ take_ready t rr ++ take_ready t rw) as Hrd'.
  { rewrite <- take_ready_app. unfold take_ready. by rewrite Hrd. }
  destruct (shared c) as [b qw qr ready] eqn:Es; simpl in *.
  destruct Hpc as [-> | ->]; simpl in Hs; case_decide as Hin; simplify_eq; rewrite Hrd in Hin.
  - destruct (wqi_absent _ _ _ t Hqw) as [_ Hnw]; [left; unfold waits_w; by rewrite Ht|].
    assert (t ∈ rr) as Hr by set_solver. pose proof (take_ready_length _ _ Nr Hr) as El.
    rewrite (take_ready_absent t rw) in Hrd' by done.
    exists s, lr, lw, (take_ready t rr), rw. rw_move HI Ht; [done|rw_arith HI|done|done| |done].
    eapply wqi_resume; [exact Hqr|done|]. by eapply (waits_r_insert _ _ _ RHeldR).
  - destruct (wqi_absent _ _ _ t Hqr) as [_ Hnr]; [left; unfold waits_r; by rewrite Ht|].
    assert (t ∈ rw) as Hr by set_solver. pose proof (take_ready_length _ _ Nw Hr) as El.
    rewrite (take_ready_absent t rr) in Hrd' by done.
    exists s, lr, lw, rr, (take_ready t rw). rw_move HI Ht; [done|rw_arith HI|done|done| |done].
    eapply wqi_resume; [exact Hqw|done|]. by eapply (waits_w_insert _ _ _ RHeldW).
Qed.

Lemma rw_wake_inv n c s lr lw rr rw t pc s' pc' e :
  rw_inv n c s lr lw rr rw -> threads c !! t = Some pc ->
  (exists count wc, pc = RWakeR count wc) \/ (exists wc, pc = RWakeW wc) ->
  rw_tstep t RGo (shared c) pc = Some (s', pc', e) ->
  inv_of n (Conf s' (<[t:=pc']> (threads c))).
Proof.
  intros HI Ht Hpc Hs. pose proof (ri_word _ _ _ _ _ _ _ HI) as Hb.
  pose proof (ri_wq_r _ _ _ _ _ _ _ HI) as Hqr. pose proof (ri_wq_w _ _ _ _ _ _ _ HI) as Hqw.
  pose proof (ri_repr_r _ _ _ _ _ _ _ HI) as Hrr. pose proof (ri_repr_w _ _ _ _ _ _ _ HI) as Hrw.
  pose proof (ri_ready _ _ _ _ _ _ _ HI) as Hrd. pose proof (ri_pc _ _ _ _ _ _ _ HI _ _ Ht) as Hok.
  destruct (shared c) as [b qw qr ready] eqn:Es; simpl in *. unfold fiber_manager_wake_from_mpsc_queue in Hs.
  destruct Hpc as [(count & wc & ->)|(wc & ->)]; simpl in Hok.
  - destruct lr as [|[g [|]] lr'].
    2: { destruct (wq_pop_spec n _ _ _ Hrr) as (q' & E & Hq'). rewrite E in Hs. simpl in Hs.
      pose proof (wqi_pop _ _ _ _ Hqr) as Hqr'.
      assert (forall p, wait_r_of p = None -> wq_inv lr' (rr ++ [g]) (waits_r (<[t:=p]> (threads c)))) as Hx.
      { intros p Hp. eapply wqi_other; [exact Hqr'|left|left; exact Hp|by eapply waits_r_insert].
        unfold waits_r. by rewrite Ht. }
      assert (ready ++ [g] ≡ₚ (rr ++ [g]) ++ rw) as Hrd'.
      { rewrite Hrd, <- !app_assoc. apply Permutation_app_head. apply Permutation_app_comm. }
      exists s, lr', lw, (rr ++ [g]), rw.
      destruct (Z.ltb_spec (wc + 1) count); injection Hs as <- <- <-;
        (rw_move HI Ht; [done|rw_arith HI|done|done|by apply Hx|done|simpl; lia..]). }
    all: rewrite (wq_pop_empty n _ _ Hrr) in Hs by done; simpl in Hs;
      destruct (Z.ltb_spec wc count); [|lia]; injection Hs as <- <- <-.
    all: eexists s, _, lw, rr, rw; (rw_move HI Ht; [done|rw_arith HI|done|done|done]).
  - subst wc. destruct lw as [|[g [|]] lw'].
    2: { destruct (wq_pop_spec n _ _ _ Hrw) as (q' & E & Hq'). rewrite E in Hs. simpl in Hs.
      pose proof (wqi_pop _ _ _ _ Hqw) as Hqw'.
      assert (forall p, wait_w_of p = None -> wq_inv lw' (rw ++ [g]) (waits_w (<[t:=p]> (threads c)))) as Hx.
      { intros p Hp. eapply wqi_other; [exact Hqw'|left|left; exact Hp|by eapply waits_w_insert].
        unfold waits_w. by rewrite Ht. }
      assert (ready ++ [g] ≡ₚ rr ++ (rw ++ [g])) as Hrd' by (rewrite Hrd; by rewrite app_assoc).
      exists s, lr, lw', rr, (rw ++ [g]). injection Hs as <- <- <-.
      rw_move HI Ht; [done|rw_arith HI|done|done|by apply Hx|done]. }
    all: rewrite (wq_pop_empty n _ _ Hrw) in Hs by done; simpl in Hs; injection Hs as <- <- <-.
    all: eexists s, lr, _, rr, rw; (rw_move HI Ht; [done|rw_arith HI|done|done|done]).
Qed.

(** Steps that only move the program counter. *)
Lemma rw_quiet n c s lr lw rr rw t pc pc' :
  rw_inv n c s lr lw rr rw -> threads c !! t = Some pc ->
  hold_r pc' = hold_r pc -> hold_w pc' = hold_w pc -> owe_r pc' = owe_r pc -> owe_w pc' = owe_w pc ->
  in_r pc = 0%nat -> in_r pc' = 0%nat -> in_w pc = 0%nat -> in_w pc' = 0%nat -> rw_pc_ok pc' ->
  wakes_r pc' = 0%nat -> inv_of n (Conf (shared c) (<[t:=pc']> (threads c))).
Proof.
  intros HI Ht H1 H2 H3 H4 H5 H6 H7 H8 Hok Hwk. exists s, lr, lw, rr, rw.
  destruct c as [[b qw qr ready] ths]. simpl.
  pose proof (ri_word _ _ _ _ _ _ _ HI) as Hb. simpl in Hb.
  assert (forall p, in_r p = 0%nat -> wait_r_of p = None) as Nr by (by intros []).
  assert (forall p, in_w p = 0%nat -> wait_w_of p = None) as Nw by (by intros []).
  eapply (rw_inv_step _ _ _ _ _ _ _ _ _ HI Ht); try apply HI; try done.
  - rw_arith HI.
  - eapply (waits_r_out _ _ _ _ _ _ _ _ _ HI Ht); auto.
  - eapply (waits_w_out _ _ _ _ _ _ _ _ _ HI Ht); auto.
  - left. lia.
Qed.

(** The assertions of the unlock functions hold: a fiber that unlocks is
    counted in the word it reads. *)
Lemma rw_loop_decides n c s lr lw rr rw t o :
  rw_inv n c s lr lw rr rw -> threads c !! t = Some (RLoop o) -> rw_decide o s <> AssertFails.
Proof.
  intros HI Ht. destruct (ri_counts _ _ _ _ _ _ _ HI) as [C1 C2 C3 C4 C5 C6 C7 C8].
  pose proof (sum_list_with_lookup hold_r _ _ _ Ht) as L1.
  pose proof (sum_list_with_lookup hold_w _ _ _ Ht) as L2.
  destruct s as [wl rc wr ww]; simpl in *. destruct o; simpl in *; repeat case_match; try done; lia.
Qed.

Lemma rw_ret_error o s : rw_decide o s = RetError -> o = TryRdLock \/ o = TryWrLock.
Proof. destruct s, o; simpl; auto; repeat case_match; done. Qed.

Lemma rw_step_inv n c lbl c' e : Z.of_nat n < 2 ^ 21 ->
  inv_of n c -> rw_step lbl c = Some (c', e) -> inv_of n c'.
Proof.
  destruct lbl as [t ch]. intros Hn (s & lr & lw & rr & rw & HI) Hstep.
  apply conf_step_inv in Hstep as (pc & s' & pc' & Ht & Hs & ->).
  pose proof (ri_word _ _ _ _ _ _ _ HI) as Hb.
  pose proof (rw_unpack s (rw_inv_ok _ _ _ _ _ _ _ Hn HI)) as Hun.
  pose proof (fun pc' => rw_quiet _ _ _ _ _ _ _ _ _ pc' HI Ht) as Hq.
  destruct ch as [o|].
  - destruct c as [[b qw qr ready] ths], o, pc; simpl in Hs; try discriminate Hs; injection Hs as <- <- <-;
      by apply Hq.
  - destruct pc as [| | |o|o snap|w|w|count wc|wc|]; try (destruct c as [[b qw qr ready] ths]; discriminate Hs).
    + pose proof (rw_loop_decides _ _ _ _ _ _ _ _ _ HI Ht) as Hna.
      destruct (shared c) as [b qw qr ready] eqn:Es. simpl in Hs, Hb.
      rewrite Hb, Hun in Hs. destruct (rw_decide o s) as [new after| |] eqn:Ed; [| |done];
        injection Hs as <- <- <-; rewrite <- ?Hb; apply Hq; simpl; try (by destruct o).
      * rewrite Hb, Hun. eauto.
      * by destruct (rw_ret_error _ _ Ed) as [-> | ->].
      * by destruct (rw_ret_error _ _ Ed) as [-> | ->].
    + destruct (shared c) as [b qw qr ready] eqn:Es. simpl in Hs, Hb.
      destruct (Z.eqb_spec b snap) as [<-|Hne].
      * rewrite Hb, Hun in Hs. destruct (rw_decide o s) as [new after| |] eqn:Ed; try done.
        injection Hs as <- <- <-. exists new, lr, lw, rr, rw.
        pose proof (rw_cas_inv n c s lr lw rr rw t o new after Hn HI) as Hcas. rewrite Es in Hcas. simpl in Hcas.
        by apply Hcas.
      * injection Hs as <- <- <-. apply Hq; by destruct o.
    + destruct (decide (w = WParked)) as [->|Hw].
      * eapply rw_resume_inv; [exact HI|exact Ht|by left|exact Hs].
      * eapply rw_push_inv; [exact HI|exact Ht|by left|exact Hw|exact Hs].
    + destruct (decide (w = WParked)) as [->|Hw].
      * eapply rw_resume_inv; [exact HI|exact Ht|by right|exact Hs].
      * eapply rw_push_inv; [exact HI|exact Ht|by right|exact Hw|exact Hs].
    + eapply rw_wake_inv; [exact HI|exact Ht|left; eauto|exact Hs].
    + eapply rw_wake_inv; [exact HI|exact Ht|right; eauto|exact Hs].
Qed.

Lemma rw_init_inv n : inv_of n (rw_init n).
Proof.
  exists (RwState 0 0 0 0), [], [], [], [].
  assert (forall f, f RIdle = 0%nat -> sum_list_with f (replicate n RIdle) = 0%nat) as Hz.
  { intros f Hf. induction n as [|k IH]; [done|]. simpl. lia. }
  unfold rw_init, fiber_rwlock_init. split; simpl; try apply wq_init_spec; try done.
  - apply length_replicate.
  - rewrite !Hz by done. split; simpl; lia.
  - apply wq_inv_init. intros t. unfold waits_r.
    destruct (replicate n RIdle !! t) eqn:E; [|done]. by apply lookup_replicate in E as [-> _].
  - apply wq_inv_init. intros t. unfold waits_w.
    destruct (replicate n RIdle !! t) eqn:E; [|done]. by apply lookup_replicate in E as [-> _].
  - by intros t pc [-> _]%lookup_replicate.
  - by rewrite Hz by done; lia.
Qed.

Lemma rw_reachable_inv n c : Z.of_nat n < 2 ^ 21 -> reachable rw_step (rw_init n) c -> inv_of n c.
Proof.
  intros Hn Hr. eapply (reachable_invariant rw_step (fun c => inv_of n c)); [|apply rw_init_inv|exact Hr].
  intros l c1 c2 e HI Hs. by eapply rw_step_inv.
Qed.

Definition can_move (c : rw_conf (Q := Q)) (u : nat) : Prop :=
  exists c' e, rw_step (u, RGo) c = Some (c', e) /\ c' <> c.

Lemma can_move_intro c u pc s' pc' e : threads c !! u = Some pc ->
  rw_tstep u RGo (shared c) pc = Some (s', pc', e) -> pc' <> pc -> can_move c u.
Proof.
  intros Hu E Hne. exists (Conf s' (<[u:=pc']> (threads c))), e. split.
  - unfold rw_step, conf_step. cbn [fst snd]. by rewrite Hu, E.
  - by eapply conf_changed.
Qed.

Lemma rw_push_enabled n c u w pc : inv_of n c -> threads c !! u = Some pc ->
  pc = RWaitR w \/ pc = RWaitW w -> w <> WParked -> can_move c u.
Proof.
  intros (s & lr & lw & rr & rw & HI) Hu Hpc Hw.
  assert (u < n)%nat as Hun by (rewrite <- (ri_len _ _ _ _ _ _ _ HI); by eapply lookup_lt_Some).
  pose proof (ri_wq_r _ _ _ _ _ _ _ HI) as Hqr. pose proof (ri_wq_w _ _ _ _ _ _ _ HI) as Hqw.
  pose proof (ri_repr_r _ _ _ _ _ _ _ HI) as Hrr. pose proof (ri_repr_w _ _ _ _ _ _ _ HI) as Hrw.
  pose proof (fun s' pc' e => can_move_intro c u pc s' pc' e Hu) as Hgo.
  destruct (shared c) as [b qw qr ready]; simpl in *.
  assert (pc = RWaitR w -> waits_r (threads c) u = Some w) as Wr by (intros ->; unfold waits_r; by rewrite Hu).
  assert (pc = RWaitW w -> waits_w (threads c) u = Some w) as Ww by (intros ->; unfold waits_w; by rewrite Hu).
  destruct Hpc as [-> | ->]; destruct w; try done.
  - destruct (wqi_absent _ _ _ _ Hqr (or_intror (Wr eq_refl))) as [Hl _].
    destruct (wq_xchg_spec n _ lr u Hrr Hun Hl) as (q' & E & _).
    eapply Hgo; [simpl; rewrite E; reflexivity|done].
  - pose proof (proj2 (wqi_link _ _ _ Hqr u) (Wr eq_refl)) as (l1 & l2 & ->)%list_elem_of_split.
    destruct (wq_link_spec n _ l1 l2 u Hrr) as (q' & E & _).
    eapply Hgo; [simpl; rewrite E; reflexivity|done].
  - destruct (wqi_absent _ _ _ _ Hqw (or_intror (Ww eq_refl))) as [Hl _].
    destruct (wq_xchg_spec n _ lw u Hrw Hun Hl) as (q' & E & _).
    eapply Hgo; [simpl; rewrite E; reflexivity|done].
  - pose proof (proj2 (wqi_link _ _ _ Hqw u) (Ww eq_refl)) as (l1 & l2 & ->)%list_elem_of_split.
    destruct (wq_link_spec n _ l1 l2 u Hrw) as (q' & E & _).
    eapply Hgo; [simpl; rewrite E; reflexivity|done].
Qed.

(** A queue with sleepers but no completed entry at its head has a fiber in the
    middle of a push. *)
Lemma queue_pusher (l : list (nat * bool)) ready w k :
  wq_inv l ready w -> (forall f, head l <> Some (f, true)) ->
  (exists x, w k = Some x) -> k ∉ ready ->
  exists u x, w u = Some x /\ x <> WParked.
Proof.
  intros Hq Hh [x Hk] Hr. destruct l as [|[g []] l].
  - exists k, x. split; [done|]. intros ->. apply (wqi_park _ _ _ Hq) in Hk. set_solver.
  - by destruct (Hh g).
  - exists g, WLink. split; [|done]. apply (wqi_link _ _ _ Hq). left.
Qed.

(** A waker pops a sleeper unless a push is under way. *)
Lemma rw_wake_enabled n c t pc : inv_of n c -> threads c !! t = Some pc ->
  (0 < owe_r pc + owe_w pc)%nat -> exists u p, threads c !! u = Some p /\ can_move c u.
Proof.
  intros HI0. pose proof HI0 as (s & lr & lw & rr & rw & HI). intros Ht Howe.
  pose proof (ri_pc _ _ _ _ _ _ _ HI _ _ Ht) as Hok.
  pose proof (sum_list_with_lookup owe_r _ _ _ Ht) as L1.
  pose proof (sum_list_with_lookup owe_w _ _ _ Ht) as L2.
  destruct (ri_counts _ _ _ _ _ _ _ HI) as [C1 C2 C3 C4 C5 C6 C7 C8].
  pose proof (ri_wq_r _ _ _ _ _ _ _ HI) as Hqr. pose proof (ri_wq_w _ _ _ _ _ _ _ HI) as Hqw.
  pose proof (ri_repr_r _ _ _ _ _ _ _ HI) as Hrr. pose proof (ri_repr_w _ _ _ _ _ _ _ HI) as Hrw.
  pose proof (fun s' pc' e => can_move_intro c t pc s' pc' e Ht) as Hgo.
  destruct pc as [| | | | | | |count wc|wc|]; simpl in L1, L2, Howe, Hok; try lia.
  - assert ((forall f, head lr <> Some (f, true)) -> exists u p, threads c !! u = Some p /\ can_move c u) as Hpush.
    { intros Hh. destruct (sum_pigeonhole in_r (threads c) rr) as (k & p & Hk & Hp & Hnk); [intros []; simpl; lia|lia|].
      destruct (queue_pusher _ _ _ k Hqr Hh) as (u & x & Hu & Hx); [|done|].
      - unfold waits_r. rewrite Hk. destruct p; simpl in *; try lia. eauto.
      - unfold waits_r in Hu. destruct (threads c !! u) as [p'|] eqn:Eu; [|done]. simpl in Hu.
        destruct p'; simplify_eq/=. eexists u, _. split; [done|]. eapply rw_push_enabled; eauto. }
    destruct lr as [|[g [|]] lr']; [by apply Hpush| |by apply Hpush].
    destruct (wq_pop_spec n _ _ _ Hrr) as (q' & E & _). eexists t, _. split; [done|].
    destruct (shared c) as [b qw qr ready]; simpl in *. unfold fiber_manager_wake_from_mpsc_queue in Hgo.
    rewrite E in Hgo. simpl in Hgo.
    eapply Hgo; [reflexivity|]. destruct (Z.ltb (wc + 1) count); [|done]. intros [=]. lia.
  - assert ((forall f, head lw <> Some (f, true)) -> exists u p, threads c !! u = Some p /\ can_move c u) as Hpush.
    { intros Hh. destruct (sum_pigeonhole in_w (threads c) rw) as (k & p & Hk & Hp & Hnk); [intros []; simpl; lia|lia|].
      destruct (queue_pusher _ _ _ k Hqw Hh) as (u & x & Hu & Hx); [|done|].
      - unfold waits_w. rewrite Hk. destruct p; simpl in *; try lia. eauto.
      - unfold waits_w in Hu. destruct (threads c !! u) as [p'|] eqn:Eu; [|done]. simpl in Hu.
        destruct p'; simplify_eq/=. eexists u, _. split; [done|]. eapply rw_push_enabled; eauto. }
    destruct lw as [|[g [|]] lw']; [by apply Hpush| |by apply Hpush].
    destruct (wq_pop_spec n _ _ _ Hrw) as (q' & E & _). eexists t, _. split; [done|].
    destruct (shared c) as [b qw qr ready]; simpl in *. unfold fiber_manager_wake_from_mpsc_queue in Hgo.
    rewrite E in Hgo. simpl in Hgo. subst wc. eapply Hgo; [reflexivity|]. done.
Qed.

Lemma rw_ready_enabled n c r : inv_of n c -> r ∈ rw_ready (shared c) ->
  exists p, threads c !! r = Some p /\ can_move c r.
Proof.
  intros (s & lr & lw & rr & rw & HI) Hr. pose proof Hr as Hr'. rewrite (ri_ready _ _ _ _ _ _ _ HI) in Hr'.
  apply elem_of_app in Hr'.
  assert (waits_r (threads c) r = Some WParked \/ waits_w (threads c) r = Some WParked) as Hw.
  { destruct Hr'; [left; apply (wqi_park _ _ _ (ri_wq_r _ _ _ _ _ _ _ HI))|
      right; apply (wqi_park _ _ _ (ri_wq_w _ _ _ _ _ _ _ HI))]; auto. }
  unfold waits_r, waits_w in Hw. destruct (threads c !! r) as [p|] eqn:Er; [|by destruct Hw].
  exists p. split; [done|]. pose proof (fun s' pc' e => can_move_intro c r p s' pc' e Er) as Hgo.
  destruct (shared c) as [b qw qr ready]. simpl in Hr.
  destruct Hw as [Hw|Hw]; destruct p; simplify_eq/=; rewrite decide_True in Hgo by done;
    (eapply Hgo; [reflexivity|done]).
Qed.

(** ** Properties *)


(** One waker at a time.  While a fiber is waking readers or a writer, no
    other fiber is: each queue has a single consumer. *)
Theorem rwlock_single_consumer n c t u p p' :
  Z.of_nat n < 2 ^ 21 -> reachable rw_step (rw_init n) c ->
  threads c !! t = Some p -> threads c !! u = Some p' -> u <> t ->
  (0 < owe_r p + owe_w p)%nat ->
  (forall wc, p' <> RWakeW wc) /\ (forall count wc, p' <> RWakeR count wc).
Proof.
  intros Hn Hr Ht Hu Hne Hp. destruct (rw_reachable_inv _ _ Hn Hr) as (s & lr & lw & rr & rw & HI).
  pose proof (ri_pc _ _ _ _ _ _ _ HI _ _ Ht) as Ho. pose proof (ri_pc _ _ _ _ _ _ _ HI _ _ Hu) as Ho'.
  destruct (ri_counts _ _ _ _ _ _ _ HI) as [C1 C2 C3 C4 C5 C6 C7 C8].
  pose proof (sum_list_with_lookup2 owe_w _ _ _ _ _ Hne Hu Ht) as Lw.
  pose proof (sum_list_with_lookup2 owe_r _ _ _ _ _ Hne Hu Ht) as Lr.
  pose proof (sum_list_with_lookup2 wakes_r _ _ _ _ _ Hne Hu Ht) as Lk. pose proof (ri_waker _ _ _ _ _ _ _ HI).
  split; [intros wc -> | intros count wc ->]; simpl in *; [lia|].
  destruct (decide (owe_w p = 0%nat)); [|lia]. destruct p; simpl in *; lia.
Qed.

(** No lost wake-up.  Whenever a fiber waits to read or to write, a fiber
    is inside, or some fiber can take a step that changes the state. *)
Theorem rwlock_no_lost_wakeup n c t w p :
  Z.of_nat n < 2 ^ 21 -> reachable rw_step (rw_init n) c ->
  threads c !! t = Some p -> p = RWaitR w \/ p = RWaitW w ->
  exists u p', threads c !! u = Some p' /\ (hold_r p' = 1%nat \/ hold_w p' = 1%nat \/ can_move c u).
Proof.
  intros Hn Hr Ht Hp. pose proof (rw_reachable_inv _ _ Hn Hr) as HI0.
  pose proof HI0 as (s & lr & lw & rr & rw & HI).
  destruct (ri_counts _ _ _ _ _ _ _ HI) as [C1 C2 C3 C4 C5 C6 C7 C8].
  pose proof (sum_list_with_lookup in_r _ _ _ Ht) as L1. pose proof (sum_list_with_lookup in_w _ _ _ Ht) as L2.
  assert (in_r p + in_w p = 1)%nat as Hin by (by destruct Hp as [-> | ->]).
  assert (forall f, (forall x, f x = 0 \/ f x = 1)%nat -> (0 < total f c)%nat ->
    exists u x, threads c !! u = Some x /\ f x = 1%nat) as Hpos.
  { intros f Hf Hs. destruct (sum_list_with_pos _ _ Hs) as (u & x & Hu & Hx). exists u, x. split; [done|].
    destruct (Hf x); lia. }
  destruct (decide (rr ++ rw = [])) as [E|E].
  - apply app_eq_nil in E as [-> ->]. simpl in *.
    destruct (decide (total hold_r c = 0%nat)) as [Z1|Z1].
    2: { destruct (Hpos hold_r) as (u & x & Hu & Hx); [intros []; simpl; try lia; destruct o; lia|lia|]. eauto 10. }
    destruct (decide (total hold_w c = 0%nat)) as [Z2|Z2].
    2: { destruct (Hpos hold_w) as (u & x & Hu & Hx); [intros []; simpl; try lia; destruct o; lia|lia|]. eauto 10. }
    destruct (decide (total owe_r c = 0%nat)) as [Z3|Z3].
    + destruct (sum_list_with_pos owe_w (threads c)) as (u & x & Hu & Hx); [lia|].
      destruct (rw_wake_enabled _ _ _ _ HI0 Hu) as (v & pv & Hv & Hm); [lia|]. eauto 10.
    + destruct (sum_list_with_pos owe_r (threads c)) as (u & x & Hu & Hx); [lia|].
      destruct (rw_wake_enabled _ _ _ _ HI0 Hu) as (v & pv & Hv & Hm); [lia|]. eauto 10.
  - destruct (rr ++ rw) as [|r rest] eqn:Er; [done|].
    destruct (rw_ready_enabled _ _ r HI0) as (x & Hx & Hm).
    { rewrite (ri_ready _ _ _ _ _ _ _ HI), Er. left. }
    eauto 10.
Qed.

(** Destruction.  When every fiber is outside the lock, destroying it frees the
    dummy nodes of the two queues, and none that a fiber still has. *)
Theorem rwlock_destroy_frees n c : Z.of_nat n < 2 ^ 21 -> reachable rw_step (rw_init n) c ->
  (forall t pc, threads c !! t = Some pc -> pc = RIdle) ->
  exists dw dr, fiber_rwlock_destroy (shared c) = Some ([dw], [dr]) /\
    (dw ∉ wq_kept (rw_write_waiters (shared c))) /\ (dr ∉ wq_kept (rw_read_waiters (shared c))).
Proof.
  intros Hn Hr Hid. destruct (rw_reachable_inv _ _ Hn Hr) as (s & lr & lw & rr & rw & HI).
  destruct (wqi_nobody _ _ _ (ri_wq_r _ _ _ _ _ _ _ HI)) as [-> _].
  { intros t. unfold waits_r. destruct (threads c !! t) eqn:E; [|done]. by rewrite (Hid _ _ E). }
  destruct (wqi_nobody _ _ _ (ri_wq_w _ _ _ _ _ _ _ HI)) as [-> _].
  { intros t. unfold waits_w. destruct (threads c !! t) eqn:E; [|done]. by rewrite (Hid _ _ E). }
  destruct (wq_destroy_spec _ _ (ri_repr_r _ _ _ _ _ _ _ HI)) as (dr & Er & Hdr).
  destruct (wq_destroy_spec _ _ (ri_repr_w _ _ _ _ _ _ _ HI)) as (dw & Ew & Hdw).
  exists dw, dr. unfold fiber_rwlock_destroy. by rewrite Ew, Er.
Qed.

End invariant.

(** The packed word.  For field values within their widths the four fields
    are read back unchanged from the 64-bit word, and every word is the packing
    of the fields it is read as. *)
Theorem rwlock_pack_roundtrip s b :
  rw_ok s -> 0 <= b < 2 ^ 64 ->
  rw_of_blob (rw_blob s) = s /\ 0 <= rw_blob s < 2 ^ 64 /\
  rw_ok (rw_of_blob b) /\ rw_blob (rw_of_blob b) = b.
Proof.
  intros Hs Hb. split; [by apply rw_unpack|].
  assert (rw_ok (rw_of_blob b)) as Hok.
  { unfold rw_ok, rw_of_blob; cbn [write_locked reader_count waiting_readers waiting_writers].
    rewrite !land_pow2_mod by lia. split_and!; apply Z.mod_pos_bound; lia. }
  split_and!; [..|done|].
  - rewrite rw_blob_add by done. unfold rw_ok in Hs. lia.
  - rewrite rw_blob_add by done. unfold rw_ok in Hs. lia.
  - rewrite rw_blob_add by done. unfold rw_of_blob; cbn [write_locked reader_count waiting_readers waiting_writers].
    rewrite !land_pow2_mod, !Z.shiftr_div_pow2 by lia. Z.to_euclidean_division_equations; lia.
Qed.

Lemma rwlock_pack_roundtrip_witness :
  rw_of_blob (rw_blob (RwState 0 3 2 1)) = RwState 0 3 2 1 /\ 0 <= rw_blob (RwState 0 3 2 1) < 2 ^ 64 /\
  rw_ok (rw_of_blob 8796101410822) /\ rw_blob (rw_of_blob 8796101410822) = 8796101410822.
Proof. apply (rwlock_pack_roundtrip (RwState 0 3 2 1) 8796101410822); unfold rw_ok; simpl; lia. Defined.

(** ** Runs over the node-heap queue *)

(** Fiber 0 reads, fiber 1 waits to write, fiber 2 waits to read. *)
Definition rw_demo_wait : list (nat * rw_choice) :=
  [(0, RCall RdLock); (0, RGo); (0, RGo); (1, RCall WrLock); (1, RGo); (1, RGo); (1, RGo); (1, RGo);
   (2, RCall RdLock); (2, RGo); (2, RGo); (2, RGo); (2, RGo)]%nat.

(** Fiber 0 leaves and owes a wake-up to the writer. *)
Definition rw_demo_wake : list (nat * rw_choice) :=
  rw_demo_wait ++ [(0, RCall RdUnlock); (0, RGo); (0, RGo)]%nat.

(** The writer is woken and runs. *)
Definition rw_demo : list (nat * rw_choice) := rw_demo_wake ++ [(0, RGo); (1, RGo)]%nat.


Lemma rwlock_single_consumer_witness :
  (forall wc, RWaitW WParked <> RWakeW wc) /\ (forall count wc, RWaitW WParked <> RWakeR count wc).
Proof.
  eapply (rwlock_single_consumer (Q := mpsc_queue) 3 _ 0 1 (RWakeW 0) (RWaitW WParked)).
  - lia.
  - exists rw_demo_wake. eexists. vm_compute. reflexivity.
  - reflexivity.
  - reflexivity.
  - discriminate.
  - simpl. lia.
Defined.

Lemma rwlock_no_lost_wakeup_witness :
  exists c : rw_conf (Q := mpsc_queue), run rw_step rw_demo_wake (rw_init 3) = Some (c, []) /\
    exists u p', threads c !! u = Some p' /\ (hold_r p' = 1%nat \/ hold_w p' = 1%nat \/ can_move c u).
Proof.
  eexists. split; [vm_compute; reflexivity|].
  eapply (rwlock_no_lost_wakeup 3 _ 2 WParked (RWaitR WParked)).
  - lia.
  - exists rw_demo_wake, []. vm_compute. reflexivity.
  - reflexivity.
  - by left.
Defined.
