(* ===== verification/HazardPointer.v ===== *)
(** * Hazard pointers ([src/hazard_pointer.c], [include/hazard_pointer.h])

    The records of the threads form a list, newest first (the list behind
    [hptr->head]); an operation names its own record by its index.  Nodes and
    hazard pointers are addresses with [NULL = 0].  [None] stands for a failed
    assertion or an access outside an array. *)

From S2P Require Import Prelude MpscFifo.

(** ** Data *)

(** [hazard_pointer_thread_record_t]; [hazard_pointers_count] is the length of
    [hazard_pointers]. *)
Record hp_record := HpRecord {
  retire_threshold : Z;
  retired_count : Z;
  retired_list : list Z;
  plist_size : Z;               (* 0 while plist is NULL *)
  hazard_pointers : list Z
}.

Definition hazard_pointers_count (r : hp_record) : Z := Z.of_nat (length (hazard_pointers r)).

(** ** Binary search *)

(** The loop of [binary_search] on [start <= end]; every assertion is checked.
    [fuel] bounds the iterations. *)
Fixpoint binary_search_loop (fuel : nat) (haystack : list Z) (needle start end_ : Z) : option bool :=
  match fuel with
  | O => None
  | S fuel =>
      let size := Z.of_nat (length haystack) in
      if Z.leb start end_ then
        if negb (Z.leb 0 start && Z.ltb start size) then None
        else if negb (Z.leb 0 end_ && Z.ltb end_ size) then None
        else
          let middle := Z.quot (start + end_) 2 in
          if negb (Z.leb 0 middle && Z.ltb middle size) then None
          else
            match haystack !! Z.to_nat middle with
            | None => None
            | Some middle_value =>
                if Z.ltb needle middle_value
                then binary_search_loop fuel haystack needle start (middle - 1)
                else if Z.ltb middle_value needle
                then binary_search_loop fuel haystack needle (middle + 1) end_
                else Some true
            end
      else Some false
  end.

Definition binary_search (haystack : list Z) (needle : Z) : option bool :=
  let size := Z.of_nat (length haystack) in
  if Z.eqb size 0 then Some false
  else binary_search_loop (Z.to_nat (Z.log2 size) + 2) haystack needle 0 (size - 1).

(** ** Records *)

(** [hazard_pointer_thread_record_create_and_push], without contention on the
    head: the new record counts the threads, the others raise their threshold. *)
Definition hazard_pointer_thread_record_create_and_push (recs : list hp_record)
    (pointers_per_thread : nat) : option (list hp_record) :=
  let k := Z.of_nat pointers_per_thread in
  if Z.eqb k 0 then None
  else if forallb (fun r => Z.eqb (hazard_pointers_count r) k) recs then
    let threads := 1 + Z.of_nat (length recs) in
    let ret := HpRecord (2 * threads * k) 0 [] 0 (replicate pointers_per_thread NULL) in
    Some (ret :: ((fun r => HpRecord (retire_threshold r + 2 * hazard_pointers_count r)
                              (retired_count r) (retired_list r) (plist_size r) (hazard_pointers r))
                  <$> recs))
  else None.

Definition hazard_pointer_using (recs : list hp_record) (i : nat) (node : Z) (n : nat)
    : option (list hp_record) :=
  r ← recs !! i;
  if Z.ltb (Z.of_nat n) (hazard_pointers_count r)
  then Some (<[i:=HpRecord (retire_threshold r) (retired_count r) (retired_list r) (plist_size r)
                    (<[n:=node]> (hazard_pointers r))]> recs)
  else None.

Definition hazard_pointer_done_using (recs : list hp_record) (i : nat) (n : nat)
    : option (list hp_record) :=
  r ← recs !! i;
  if Z.ltb (Z.of_nat n) (hazard_pointers_count r)
  then Some (<[i:=HpRecord (retire_threshold r) (retired_count r) (retired_list r) (plist_size r)
                    (<[n:=NULL]> (hazard_pointers r))]> recs)
  else None.

(** ** Scan *)

(** The inner loop: the non-null hazard pointers of one record go to [plist]. *)
Fixpoint scan_pointers (size : Z) (hs plist : list Z) : option (list Z) :=
  match hs with
  | [] => Some plist
  | h :: hs =>
      if Z.eqb h NULL then scan_pointers size hs plist
      else if Z.ltb (Z.of_nat (length plist)) size then scan_pointers size hs (plist ++ [h])
      else None
  end.

Fixpoint scan_records (max_pointers size : Z) (recs : list hp_record) (plist : list Z)
    : option (list Z) :=
  match recs with
  | [] => Some plist
  | r :: recs =>
      if Z.ltb (Z.of_nat (length plist)) max_pointers
      then plist' ← scan_pointers size (hazard_pointers r) plist;
           scan_records max_pointers size recs plist'
      else None
  end.

(** [hazard_pointer_compare], the order given to [qsort]. *)
Definition hazard_pointer_compare (one two : Z) : Z :=
  if Z.eqb one two then 0 else if Z.ltb one two then -1 else 1.

Definition hazard_le (one two : Z) : Prop := hazard_pointer_compare one two <= 0.
#[export] Instance hazard_le_dec : RelDecision hazard_le.
Proof. intros x y. unfold hazard_le. apply _. Defined.

(** The second loop: a hazardous node goes back to the retired list, any other
    is given to its [gc_function]. *)
Fixpoint scan_retired (plist nodes kept freed : list Z) : option (list Z * list Z) :=
  match nodes with
  | [] => Some (kept, freed)
  | node :: next =>
      is_hazardous ← binary_search plist node;
      if (is_hazardous : bool) then scan_retired plist next (node :: kept) freed
      else scan_retired plist next kept (freed ++ [node])
  end.

Definition hazard_pointer_scan (recs : list hp_record) (i : nat) : option (list hp_record * list Z) :=
  head ← recs !! 0%nat;
  r ← recs !! i;
  let max_pointers := Z.div (retire_threshold head) 2 in
  let size := if Z.ltb (plist_size r) max_pointers then max_pointers else plist_size r in
  plist ← scan_records max_pointers size recs [];
  res ← scan_retired (merge_sort hazard_le plist) (retired_list r) [] [];
  let '(kept, freed) := res in
  Some (<[i:=HpRecord (retire_threshold r) (Z.of_nat (length kept)) kept size (hazard_pointers r)]> recs,
        freed).

(** [hazard_pointer_free]: retire, and scan at the threshold. *)
Definition hazard_pointer_free (recs : list hp_record) (i : nat) (node : Z)
    : option (list hp_record * list Z) :=
  r ← recs !! i;
  let r' := HpRecord (retire_threshold r) (retired_count r + 1) (node :: retired_list r)
              (plist_size r) (hazard_pointers r) in
  let recs' := <[i:=r']> recs in
  if Z.leb (retire_threshold r') (retired_count r') then hazard_pointer_scan recs' i
  else Some (recs', []).

(** [hazard_pointer_thread_record_destroy_all]: each record is scanned as the
    head of the records after it ([cur->head = &cur]), then freed. *)
Fixpoint hazard_pointer_thread_record_destroy_all (recs : list hp_record) : option (list Z) :=
  match recs with
  | [] => Some []
  | _ :: next =>
      s ← hazard_pointer_scan recs 0;
      rest ← hazard_pointer_thread_record_destroy_all next;
      Some (s.2 ++ rest)
  end.

(** ** Binary search is correct *)

Lemma sorted_lookup_le (l : list Z) i j x y :
  StronglySorted Z.le l -> (i <= j)%nat -> l !! i = Some x -> l !! j = Some y -> x <= y.
Proof.
  intros Hs. revert i j. induction Hs as [|a l Hs IH Ha]; intros [|i] [|j] Hij Hi Hj; simplify_eq/=; try lia.
  - rewrite Forall_forall in Ha. apply Ha. by eapply list_elem_of_lookup_2.
  - eapply (IH i j); [lia|done|done].
Qed.

Lemma binary_search_loop_S fuel haystack needle start end_ :
  0 <= start -> end_ < Z.of_nat (length haystack) ->
  binary_search_loop (S fuel) haystack needle start end_ =
  if Z.leb start end_ then
    match haystack !! Z.to_nat ((start + end_) / 2) with
    | None => None
    | Some middle_value =>
        if Z.ltb needle middle_value
        then binary_search_loop fuel haystack needle start ((start + end_) / 2 - 1)
        else if Z.ltb middle_value needle
        then binary_search_loop fuel haystack needle ((start + end_) / 2 + 1) end_
        else Some true
    end
  else Some false.
Proof.
  intros H0 He. cbn [binary_search_loop]. destruct (Z.leb_spec start end_) as [Hle|Hgt]; [|done].
  rewrite (Z.quot_div_nonneg (start + end_) 2) by lia.
  assert (start <= (start + end_) / 2 <= end_) as Hmb by (Z.to_euclidean_division_equations; lia).
  by rewrite !(proj2 (Z.leb_le _ _)), !(proj2 (Z.ltb_lt _ _)) by lia.
Qed.

Lemma binary_search_loop_spec haystack needle :
  StronglySorted Z.le haystack ->
  forall fuel start end_,
    0 <= start -> end_ < Z.of_nat (length haystack) -> end_ - start + 1 < 2 ^ Z.of_nat fuel ->
    (forall i x, haystack !! i = Some x -> Z.of_nat i < start -> x < needle) ->
    (forall i x, haystack !! i = Some x -> end_ < Z.of_nat i -> needle < x) ->
    exists b, binary_search_loop (S fuel) haystack needle start end_ = Some b /\
      (b = true <-> needle ∈ haystack).
Proof.
  intros Hs. induction fuel as [|fuel IH]; intros start end_ H0 He Hf Hlo Hhi.
  all: rewrite binary_search_loop_S by lia; destruct (Z.leb_spec start end_) as [Hle|Hgt].
  1: { simpl in Hf. lia. }
  1, 3: exists false; split; [done|]; split; [done|]; intros [i Hi]%list_elem_of_lookup_1; exfalso;
    destruct (Z.lt_ge_cases (Z.of_nat i) start) as [Hlt|Hge];
    [specialize (Hlo _ _ Hi Hlt); lia|specialize (Hhi _ _ Hi ltac:(lia)); lia].
  set (mid := (start + end_) / 2).
  assert (start <= mid <= end_) as Hmb by (unfold mid; Z.to_euclidean_division_equations; lia).
  destruct (lookup_lt_is_Some_2 haystack (Z.to_nat mid)) as [mv Hmv]; [lia|]. rewrite Hmv.
  rewrite Nat2Z.inj_succ, Z.pow_succ_r in Hf by lia.
  destruct (Z.ltb_spec needle mv) as [Hlt|Hge]; [|destruct (Z.ltb_spec mv needle) as [Hlt|Hge']].
  - apply IH; [lia|lia|unfold mid; Z.to_euclidean_division_equations; lia|done|].
    intros i x Hi Hgt. assert (mv <= x); [|lia].
    eapply (sorted_lookup_le _ (Z.to_nat mid) i); [done|lia|done|done].
  - apply IH; [lia|lia|unfold mid; Z.to_euclidean_division_equations; lia| |done].
    intros i x Hi Hgt. assert (x <= mv); [|lia].
    eapply (sorted_lookup_le _ i (Z.to_nat mid)); [done|lia|done|done].
  - exists true. split; [done|]. split; [|done]. intros _.
    assert (needle = mv) as -> by lia. by eapply list_elem_of_lookup_2.
Qed.

Lemma binary_search_spec haystack needle : StronglySorted Z.le haystack ->
  exists b, binary_search haystack needle = Some b /\ (b = true <-> needle ∈ haystack).
Proof.
  intros Hs. unfold binary_search. destruct (Z.eqb_spec (Z.of_nat (length haystack)) 0) as [E|E].
  - exists false. split; [done|]. split; [done|]. destruct haystack; [|done]. by intros ?%elem_of_nil.
  - rewrite Nat.add_comm. eapply (binary_search_loop_spec _ _ Hs (S _)); try lia.
    + rewrite Nat2Z.inj_succ, Z2Nat.id by apply Z.log2_nonneg.
      pose proof (Z.log2_spec (Z.of_nat (length haystack)) ltac:(lia)). lia.
    + intros i x Hi%lookup_lt_Some. lia.
Qed.

(** ** Scan is correct *)

(** The addresses some thread has announced. *)
Definition hazards (recs : list hp_record) : list Z :=
  filter (fun h => h <> NULL) (concat (hazard_pointers <$> recs)).

Lemma hazard_le_spec x y : hazard_le x y <-> x <= y.
Proof.
  unfold hazard_le, hazard_pointer_compare.
  destruct (Z.eqb_spec x y), (Z.ltb_spec x y); lia.
Qed.

#[export] Instance hazard_le_total : Total hazard_le.
Proof. intros x y. rewrite !hazard_le_spec. lia. Qed.
#[export] Instance hazard_le_trans : Transitive hazard_le.
Proof. intros x y z. rewrite !hazard_le_spec. lia. Qed.

Lemma sorted_plist plist : StronglySorted Z.le (merge_sort hazard_le plist).
Proof.
  assert (StronglySorted hazard_le (merge_sort hazard_le plist)) as Hs by (apply StronglySorted_merge_sort; apply _).
  induction Hs as [|a l Hs IH Ha]; constructor; [done|].
  eapply Forall_impl; [exact Ha|]. intros x. apply hazard_le_spec.
Qed.

Lemma scan_pointers_spec size hs : forall plist,
  Z.of_nat (length plist + length hs) <= size ->
  scan_pointers size hs plist = Some (plist ++ filter (fun h => h <> NULL) hs).
Proof.
  induction hs as [|h hs IH]; intros plist Hle; simpl; [by rewrite app_nil_r|].
  simpl in Hle. destruct (Z.eqb_spec h NULL) as [E|E].
  - rewrite IH by lia. by rewrite filter_cons_False by naive_solver.
  - rewrite (proj2 (Z.ltb_lt _ _)) by lia. rewrite IH by (rewrite length_app; simpl; lia).
    rewrite filter_cons_True by done. by rewrite <- app_assoc.
Qed.

Lemma hazards_cons r recs : hazards (r :: recs) = filter (fun h => h <> NULL) (hazard_pointers r) ++ hazards recs.
Proof. unfold hazards. simpl. by rewrite filter_app. Qed.

Lemma scan_records_spec K max size recs : forall plist,
  (0 < K)%nat -> (forall r, r ∈ recs -> length (hazard_pointers r) = K) ->
  Z.of_nat (length plist + K * length recs) <= max -> max <= size ->
  scan_records max size recs plist = Some (plist ++ hazards recs).
Proof.
  induction recs as [|r recs IH]; intros plist HK Hall Hle Hms; cbn [scan_records length] in *.
  - by rewrite app_nil_r.
  - pose proof (Hall r ltac:(left)) as Hr.
    rewrite (proj2 (Z.ltb_lt _ _)) by nia. rewrite scan_pointers_spec by (rewrite Hr; nia). simpl.
    rewrite IH; [by rewrite hazards_cons, app_assoc|done|intros r' Hr'; apply Hall; by apply list_elem_of_further| |done].
    pose proof (length_filter (fun h => h <> NULL) (hazard_pointers r)). rewrite length_app. nia.
Qed.

Lemma hazards_length K recs : (forall r, r ∈ recs -> length (hazard_pointers r) = K) ->
  (length (hazards recs) <= K * length recs)%nat.
Proof.
  induction recs as [|r recs IH]; intros Hall; [simpl; lia|]. rewrite hazards_cons, length_app. simpl.
  pose proof (Hall r ltac:(left)). pose proof (length_filter (fun h => h <> NULL) (hazard_pointers r)).
  specialize (IH (fun r H => Hall r (list_elem_of_further _ _ _ H))). lia.
Qed.

Lemma scan_retired_spec plist nodes : StronglySorted Z.le plist -> forall kept freed,
  scan_retired plist nodes kept freed =
  Some (reverse (filter (.∈ plist) nodes) ++ kept, freed ++ filter (.∉ plist) nodes).
Proof.
  intros Hs. induction nodes as [|x nodes IH]; intros kept freed; simpl; [by rewrite app_nil_r|].
  destruct (binary_search_spec plist x Hs) as (b & -> & Hb). simpl. rewrite !IH.
  destruct b.
  - rewrite filter_cons_True by naive_solver. rewrite filter_cons_False by naive_solver.
    by rewrite reverse_cons, <- app_assoc.
  - assert (x ∉ plist) by naive_solver.
    rewrite filter_cons_False by done. rewrite (filter_cons_True (.∉ plist)) by done.
    by rewrite <- app_assoc.
Qed.

(** ** Invariant *)

(** [N] threads with [K] hazard pointers each: every threshold is [2NK], and
    fewer nodes than that wait in a record. *)
Record hp_inv (K : nat) (recs : list hp_record) : Prop := {
  hi_K : (0 < K)%nat;
  hi_count : forall r, r ∈ recs -> length (hazard_pointers r) = K;
  hi_threshold : forall r, r ∈ recs -> retire_threshold r = 2 * Z.of_nat (length recs) * Z.of_nat K;
  hi_retired : forall r, r ∈ recs -> retired_count r = Z.of_nat (length (retired_list r));
  hi_nodup : forall r, r ∈ recs -> NoDup (retired_list r);
  hi_bound : forall r, r ∈ recs -> retired_count r < retire_threshold r
}.

(** A scan without the bound on the scanned record: it may be at its threshold. *)
Lemma hazard_pointer_scan_spec K recs i r :
  (0 < K)%nat -> (forall r, r ∈ recs -> length (hazard_pointers r) = K) ->
  (forall r, recs !! 0%nat = Some r -> 2 * Z.of_nat (length recs) * Z.of_nat K <= retire_threshold r) ->
  recs !! i = Some r -> NoDup (retired_list r) ->
  let kept := reverse (filter (.∈ hazards recs) (retired_list r)) in
  exists size, hazard_pointer_scan recs i = Some
    (<[i:=HpRecord (retire_threshold r) (Z.of_nat (length kept)) kept size (hazard_pointers r)]> recs,
     filter (.∉ hazards recs) (retired_list r)) /\
  (length kept <= K * length recs)%nat.
Proof.
  intros HK Hc Ht Hi Hnd kept. unfold hazard_pointer_scan.
  destruct (lookup_lt_is_Some_2 recs 0) as [r0 H0]; [apply lookup_lt_Some in Hi; lia|].
  rewrite H0, Hi. cbn [mbind option_bind].
  assert (Z.of_nat (K * length recs) <= retire_threshold r0 / 2) as Hmax.
  { apply Z.div_le_lower_bound; [lia|]. specialize (Ht r0 H0). lia. }
  set (size := if Z.ltb (plist_size r) _ then _ else _).
  assert (retire_threshold r0 / 2 <= size) as Hsize.
  { unfold size. destruct (Z.ltb_spec (plist_size r) (retire_threshold r0 / 2)); lia. }
  rewrite (scan_records_spec K) by (try done; simpl; lia). cbn [mbind option_bind app].
  rewrite scan_retired_spec by apply sorted_plist. cbn [mbind option_bind app]. exists size.
  assert (forall x, x ∈ merge_sort hazard_le (hazards recs) <-> x ∈ hazards recs) as Hin.
  { intros x. by rewrite merge_sort_Permutation. }
  rewrite (list_filter_iff _ (.∈ hazards recs)) by (intros x; apply Hin).
  rewrite (list_filter_iff (.∉ merge_sort hazard_le (hazards recs)) (.∉ hazards recs)) by (intros x; by rewrite Hin).
  rewrite app_nil_r. split; [done|].
  etrans; [|by apply hazards_length]. unfold kept. rewrite length_reverse.
  apply submseteq_length, NoDup_submseteq; [by apply NoDup_filter|].
  intros x [? _]%list_elem_of_filter. done.
Qed.

(** Replacing a record by one that agrees on the shared fields. *)
Lemma hp_inv_insert K recs i r r' :
  hp_inv K recs -> recs !! i = Some r ->
  length (hazard_pointers r') = K -> retire_threshold r' = retire_threshold r ->
  retired_count r' = Z.of_nat (length (retired_list r')) -> NoDup (retired_list r') ->
  retired_count r' < retire_threshold r' ->
  hp_inv K (<[i:=r']> recs).
Proof.
  intros [HK Hc Ht Hr Hn Hb] Hi H1 H2 H3 H4 H5.
  assert (forall x, x ∈ <[i:=r']> recs -> x = r' \/ x ∈ recs) as Hx.
  { intros x [j [[_ ->]|[_ Hj]]%lookup_insert_cases]%list_elem_of_lookup_1; [by left|right].
    by eapply list_elem_of_lookup_2. }
  assert (r ∈ recs) as Hri by (by eapply list_elem_of_lookup_2).
  split; try done; rewrite ?length_insert; intros x [->|Hin]%Hx; auto. rewrite H2. auto.
Qed.

Lemma hp_create_inv K recs : (0 < K)%nat -> hp_inv K recs ->
  exists recs', hazard_pointer_thread_record_create_and_push recs K = Some recs' /\ hp_inv K recs' /\
    length recs' = S (length recs).
Proof.
  intros HK [_ Hc Ht Hr Hn Hb]. unfold hazard_pointer_thread_record_create_and_push.
  destruct (Z.eqb_spec (Z.of_nat K) 0); [lia|].
  assert (forallb (fun r => Z.eqb (hazard_pointers_count r) (Z.of_nat K)) recs = true) as ->.
  { apply forallb_forall. intros r Hin%list_elem_of_In. apply Z.eqb_eq. unfold hazard_pointers_count.
    by rewrite Hc. }
  eexists. split; [done|]. split; [|simpl; by rewrite length_fmap].
  split; try done; intros r; rewrite ?length_cons, ?length_fmap;
    intros [->|(r0 & -> & Hin)%list_elem_of_fmap]%elem_of_cons; cbn [hazard_pointers retire_threshold retired_count retired_list].
  - apply length_replicate.
  - by apply Hc.
  - lia.
  - rewrite (Ht r0 Hin). unfold hazard_pointers_count. rewrite (Hc r0 Hin). lia.
  - done.
  - by apply Hr.
  - apply NoDup_nil_2.
  - by apply Hn.
  - lia.
  - specialize (Hb r0 Hin). unfold hazard_pointers_count. lia.
Qed.

Lemma hp_using_inv K recs i r n node : hp_inv K recs -> recs !! i = Some r -> (n < K)%nat ->
  exists recs', hazard_pointer_using recs i node n = Some recs' /\ hp_inv K recs'.
Proof.
  intros HI Hi Hn. assert (r ∈ recs) as Hin by (by eapply list_elem_of_lookup_2).
  pose proof (hi_count _ _ HI _ Hin) as Hc.
  unfold hazard_pointer_using. rewrite Hi. simpl. unfold hazard_pointers_count. rewrite Hc, (proj2 (Z.ltb_lt _ _)) by lia.
  eexists. split; [done|]. eapply hp_inv_insert; [done|exact Hi|..]; simpl; try (by apply HI); try done.
  by rewrite length_insert.
Qed.

Lemma hp_done_inv K recs i r n : hp_inv K recs -> recs !! i = Some r -> (n < K)%nat ->
  exists recs', hazard_pointer_done_using recs i n = Some recs' /\ hp_inv K recs'.
Proof. exact (hp_using_inv K recs i r n NULL). Qed.

(** What [hazard_pointer_free] guarantees, on both branches. *)
Lemma hp_free_inv K recs i r node : hp_inv K recs -> recs !! i = Some r -> node ∉ retired_list r ->
  exists recs' freed r', hazard_pointer_free recs i node = Some (recs', freed) /\ hp_inv K recs' /\
    recs' !! i = Some r' /\ node :: retired_list r ≡ₚ retired_list r' ++ freed /\
    (forall x, x ∈ freed -> x ∉ hazards recs) /\
    (retired_count r + 1 < retire_threshold r -> freed = []) /\
    (retire_threshold r <= retired_count r + 1 ->
      retire_threshold r <= 2 * Z.of_nat (length freed) /\ forall x, x ∈ retired_list r' -> x ∈ hazards recs).
Proof.
  intros HI Hi Hnode. assert (r ∈ recs) as Hin by (by eapply list_elem_of_lookup_2).
  pose proof (hi_count _ _ HI _ Hin) as Hc. pose proof (hi_threshold _ _ HI _ Hin) as Ht.
  pose proof (hi_retired _ _ HI _ Hin) as Hr. pose proof (hi_bound _ _ HI _ Hin) as Hb.
  pose proof (hi_nodup _ _ HI _ Hin) as Hnd. pose proof (hi_K _ _ HI) as HK.
  assert (NoDup (node :: retired_list r)) as Hnd' by (by constructor).
  unfold hazard_pointer_free. rewrite Hi. cbn [mbind option_bind retire_threshold retired_count].
  set (r1 := HpRecord _ _ _ _ _). assert (i < length recs)%nat as Hlt by (by eapply lookup_lt_Some).
  assert (retire_threshold r = 2 * Z.of_nat (K * length recs)) as HtP by lia.
  assert (0 < K * length recs)%nat as HP by nia.
  destruct (Z.leb_spec (retire_threshold r) (retired_count r + 1)) as [Hle|Hgt].
  - assert (forall x, x ∈ <[i:=r1]> recs -> length (hazard_pointers x) = K /\ retire_threshold x = retire_threshold r) as Hx.
    { intros x [j [[_ ->]|[_ Hj%list_elem_of_lookup_2]]%lookup_insert_cases]%list_elem_of_lookup_1; [done|].
      rewrite Ht. split; apply HI; done. }
    assert (hazards (<[i:=r1]> recs) = hazards recs) as Hhz.
    { unfold hazards. do 2 f_equal. rewrite list_fmap_insert. apply list_insert_id.
      by rewrite list_lookup_fmap, Hi. }
    destruct (hazard_pointer_scan_spec K (<[i:=r1]> recs) i r1) as (size & E & Hk); try done.
    { intros x Hxi. by apply Hx. }
    { intros x Hxi%list_elem_of_lookup_2. rewrite (proj2 (Hx _ Hxi)), length_insert. lia. }
    { by apply list_lookup_insert_eq. }
    rewrite E. cbn [retired_list r1] in *. rewrite list_insert_insert_eq. rewrite Hhz in *. rewrite length_insert in Hk.
    pose proof (filter_app_complement (.∈ hazards recs) (node :: retired_list r)) as Hperm.
    eexists _, _, _. split; [done|]. split.
    { eapply hp_inv_insert; [done|exact Hi|..]; cbn [retire_threshold retired_count retired_list hazard_pointers]; try done.
      - rewrite reverse_Permutation. by apply NoDup_filter.
      - cbn [retire_threshold r1]. rewrite HtP. lia. }
    split; [by apply list_lookup_insert_eq|]. cbn [retired_list]. split_and!.
    + rewrite <- Hperm at 1. by rewrite reverse_Permutation.
    + by intros x [? _]%list_elem_of_filter.
    + lia.
    + intros _. split.
      * pose proof (Permutation_length Hperm) as Hl. rewrite length_app in Hl. simpl in Hl.
        rewrite length_reverse in Hk. simpl in Hk. lia.
      * intros x. by intros [? _]%elem_of_reverse%list_elem_of_filter.
  - eexists _, [], _. split; [done|]. split.
    { eapply hp_inv_insert; [done|exact Hi|..]; cbn [retire_threshold retired_count retired_list hazard_pointers r1]; try done.
      rewrite Hr. simpl. lia. }
    split; [by apply list_lookup_insert_eq|]. cbn [retired_list r1]. rewrite app_nil_r. split_and!; try done; try lia.
    by intros x ?%elem_of_nil.
Qed.

(** The states of a system of threads that retire each node once. *)
Inductive hp_reach (K : nat) : list hp_record -> Prop :=
| hp_reach_nil : hp_reach K []
| hp_reach_create recs recs' : hp_reach K recs ->
    hazard_pointer_thread_record_create_and_push recs K = Some recs' -> hp_reach K recs'
| hp_reach_using recs recs' i node n : hp_reach K recs ->
    hazard_pointer_using recs i node n = Some recs' -> hp_reach K recs'
| hp_reach_done recs recs' i n : hp_reach K recs ->
    hazard_pointer_done_using recs i n = Some recs' -> hp_reach K recs'
| hp_reach_free recs recs' freed i r node : hp_reach K recs ->
    recs !! i = Some r -> node ∉ retired_list r ->
    hazard_pointer_free recs i node = Some (recs', freed) -> hp_reach K recs'.

Lemma hp_reach_inv K recs : (0 < K)%nat -> hp_reach K recs -> hp_inv K recs.
Proof.
  intros HK Hreach. induction Hreach as [|recs recs' _ IH E|recs recs' i node n _ IH E|recs recs' i n _ IH E|
    recs recs' freed i r node _ IH Hi Hn E].
  - split; try done; intros r Hr; by apply elem_of_nil in Hr.
  - destruct (hp_create_inv K recs HK IH) as (? & ? & ? & _). congruence.
  - unfold hazard_pointer_using in E. destruct (recs !! i) as [r|] eqn:Hi; [|done]. simpl in E.
    destruct (Z.ltb_spec (Z.of_nat n) (hazard_pointers_count r)) as [Hlt|]; [|done].
    destruct (hp_using_inv K recs i r n node IH Hi) as (? & E' & ?).
    { unfold hazard_pointers_count in Hlt. rewrite (hi_count _ _ IH r) in Hlt by (by eapply list_elem_of_lookup_2). lia. }
    unfold hazard_pointer_using in E'. rewrite Hi in E'. simpl in E'. rewrite (proj2 (Z.ltb_lt _ _) Hlt) in E'. congruence.
  - unfold hazard_pointer_done_using in E. destruct (recs !! i) as [r|] eqn:Hi; [|done]. simpl in E.
    destruct (Z.ltb_spec (Z.of_nat n) (hazard_pointers_count r)) as [Hlt|]; [|done].
    destruct (hp_done_inv K recs i r n IH Hi) as (? & E' & ?).
    { unfold hazard_pointers_count in Hlt. rewrite (hi_count _ _ IH r) in Hlt by (by eapply list_elem_of_lookup_2). lia. }
    unfold hazard_pointer_done_using in E'. rewrite Hi in E'. simpl in E'. rewrite (proj2 (Z.ltb_lt _ _) Hlt) in E'. congruence.
  - destruct (hp_free_inv K recs i r node IH Hi Hn) as (? & ? & ? & E' & ? & _). congruence.
Qed.

(** ** Properties *)

(** Binary search.  On a sorted array the search terminates within
    [log2 size + 2] tests of its loop condition, no assertion fails, and the
    answer says whether the value is in the array. *)
Theorem binary_search_correct haystack needle :
  StronglySorted Z.le haystack ->
  binary_search haystack needle = Some (bool_decide (needle ∈ haystack)).
Proof.
  intros Hs. destruct (binary_search_spec haystack needle Hs) as (b & -> & Hb). f_equal.
  destruct b; symmetry; [apply bool_decide_true|apply bool_decide_false]; naive_solver.
Qed.

Lemma binary_search_correct_witness :
  binary_search [8; 16; 24; 40] 24 = Some (bool_decide (24 ∈ [8; 16; 24; 40])).
Proof.
  apply binary_search_correct. repeat constructor; lia.
Defined.

(** Bounded garbage.  In every state reached by any number of threads with
    [K] pointers each, all thresholds are [2NK], every record's counter is the
    length of its retired list, and fewer than [2NK] nodes wait in it; and a
    further operation with valid indices never fails an assertion or overruns
    [plist]. *)
Theorem hazard_bounded_garbage K recs i r node n :
  (0 < K)%nat -> hp_reach K recs -> recs !! i = Some r -> node ∉ retired_list r -> (n < K)%nat ->
  retire_threshold r = 2 * Z.of_nat (length recs) * Z.of_nat K /\
  retired_count r = Z.of_nat (length (retired_list r)) /\ retired_count r < retire_threshold r /\
  is_Some (hazard_pointer_free recs i node) /\
  is_Some (hazard_pointer_using recs i node n) /\ is_Some (hazard_pointer_done_using recs i n) /\
  is_Some (hazard_pointer_thread_record_create_and_push recs K).
Proof.
  intros HK Hr Hi Hn Hlt. pose proof (hp_reach_inv K recs HK Hr) as HI.
  assert (r ∈ recs) as Hin by (by eapply list_elem_of_lookup_2).
  split; [by apply (hi_threshold _ _ HI)|]. split; [by apply (hi_retired _ _ HI)|].
  split; [by apply (hi_bound _ _ HI)|].
  destruct (hp_free_inv K recs i r node HI Hi Hn) as (? & ? & ? & -> & _).
  destruct (hp_using_inv K recs i r n node HI Hi Hlt) as (? & -> & _).
  destruct (hp_done_inv K recs i r n HI Hi Hlt) as (? & -> & _).
  destruct (hp_create_inv K recs HK HI) as (? & -> & _). eauto 10.
Qed.

(** Two threads with two pointers each. *)
Definition hp_demo : list hp_record :=
  [HpRecord 8 0 [] 0 [16; 0]; HpRecord 8 0 [] 0 [0; 0]].

Lemma hp_demo_reach : hp_reach 2 hp_demo.
Proof.
  eapply (hp_reach_using 2 [HpRecord 8 0 [] 0 [0; 0]; HpRecord 8 0 [] 0 [0; 0]] _ 0 16 0); [|reflexivity].
  eapply (hp_reach_create 2 [HpRecord 4 0 [] 0 [0; 0]]); [|reflexivity].
  eapply (hp_reach_create 2 []); [|reflexivity]. constructor.
Qed.

Lemma hazard_bounded_garbage_witness :
  let r := HpRecord 8 0 [] 0 [0; 0] in
  retire_threshold r = 2 * Z.of_nat (length hp_demo) * Z.of_nat 2 /\
  retired_count r = Z.of_nat (length (retired_list r)) /\ retired_count r < retire_threshold r /\
  is_Some (hazard_pointer_free hp_demo 1 16) /\
  is_Some (hazard_pointer_using hp_demo 1 16 1) /\ is_Some (hazard_pointer_done_using hp_demo 1 1) /\
  is_Some (hazard_pointer_thread_record_create_and_push hp_demo 2).
Proof.
  apply (hazard_bounded_garbage 2 hp_demo 1 (HpRecord 8 0 [] 0 [0; 0]) 16 1).
  - lia.
  - exact hp_demo_reach.
  - reflexivity.
  - apply not_elem_of_nil.
  - lia.
Defined.

(** Safe and amortised reclamation.  Retiring a node neither loses nor
    duplicates one; nothing is freed below the threshold; at the threshold the
    scan frees no node that a thread has announced, keeps only announced ones,
    and frees at least half of the retired nodes. *)
Theorem hazard_free_reclaims K recs i r node :
  (0 < K)%nat -> hp_reach K recs -> recs !! i = Some r -> node ∉ retired_list r ->
  exists recs' freed r', hazard_pointer_free recs i node = Some (recs', freed) /\
    recs' !! i = Some r' /\ node :: retired_list r ≡ₚ retired_list r' ++ freed /\
    (forall x, x ∈ freed -> x ∉ hazards recs) /\
    (retired_count r + 1 < retire_threshold r -> freed = []) /\
    (retire_threshold r <= retired_count r + 1 ->
      retire_threshold r <= 2 * Z.of_nat (length freed) /\ forall x, x ∈ retired_list r' -> x ∈ hazards recs).
Proof.
  intros HK Hr Hi Hn. pose proof (hp_reach_inv K recs HK Hr) as HI.
  destruct (hp_free_inv K recs i r node HI Hi Hn) as (recs' & freed & r' & H1 & _ & H2).
  by exists recs', freed, r'.
Qed.

Lemma hazard_free_reclaims_witness :
  exists recs' freed r', hazard_pointer_free hp_demo 1 24 = Some (recs', freed) /\
    recs' !! 1%nat = Some r' /\ [24] ≡ₚ retired_list r' ++ freed /\
    (forall x, x ∈ freed -> x ∉ hazards hp_demo) /\
    (0 + 1 < 8 -> freed = []) /\
    (8 <= 0 + 1 -> 8 <= 2 * Z.of_nat (length freed) /\ forall x, x ∈ retired_list r' -> x ∈ hazards hp_demo).
Proof.
  apply (hazard_free_reclaims 2 hp_demo 1 (HpRecord 8 0 [] 0 [0; 0]) 24).
  - lia.
  - exact hp_demo_reach.
  - reflexivity.
  - apply not_elem_of_nil.
Defined.

(** Shutdown.  When no thread announces a pointer any more, destroying all
    records frees every retired node of every record, in record order. *)
Theorem hazard_destroy_all_frees K recs :
  (0 < K)%nat -> hp_reach K recs -> hazards recs = [] ->
  hazard_pointer_thread_record_destroy_all recs = Some (concat (retired_list <$> recs)).
Proof.
  intros HK Hr. destruct (hp_reach_inv K recs HK Hr) as [_ Hc Ht _ Hn _].
  assert (forall r, r ∈ recs -> 2 * Z.of_nat (length recs) * Z.of_nat K <= retire_threshold r) as Ht'
    by (intros r Hin; rewrite (Ht r Hin); lia).
  clear Hr Ht. induction recs as [|r recs IH]; intros Hz; [done|]. cbn [hazard_pointer_thread_record_destroy_all].
  destruct (hazard_pointer_scan_spec K (r :: recs) 0 r HK Hc) as (size & -> & _).
  { intros r0 [= <-]. apply Ht'. left. }
  { done. }
  { apply Hn. left. }
  rewrite Hz. rewrite hazards_cons in Hz. apply app_eq_nil in Hz as [_ Hz].
  cbn [mbind option_bind snd]. rewrite IH.
  - simpl. do 2 f_equal. clear. induction (retired_list r) as [|x l IH]; [done|].
    rewrite filter_cons_True by apply not_elem_of_nil. by rewrite IH.
  - intros r' Hr'. apply Hc. by right.
  - intros r' Hr'. apply Hn. by right.
  - intros r' Hr'. specialize (Ht' r' ltac:(by right)). rewrite length_cons in Ht'. lia.
  - done.
Qed.

Lemma hazard_destroy_all_frees_witness :
  hazard_pointer_thread_record_destroy_all [HpRecord 4 1 [24] 0 [0; 0]] = Some [24].
Proof.
  apply (hazard_destroy_all_frees 2 [HpRecord 4 1 [24] 0 [0; 0]]).
  - lia.
  - eapply (hp_reach_free 2 [HpRecord 4 0 [] 0 [0; 0]] _ [] 0 _ 24); [|reflexivity|apply not_elem_of_nil|reflexivity].
    eapply (hp_reach_create 2 []); [|reflexivity]. constructor.
  - reflexivity.
Defined.
