(* ===== verification/Wsd.v ===== *)
(** * The work-stealing deque ([src/work_stealing_deque.c],
    [include/work_stealing_deque.h])

    Thread 0 owns the deque: it pushes and pops at the bottom; every other
    thread steals at the top.  The circular array grows by doubling; the old
    arrays stay allocated ([prev]), and a thief may still read one.  One program
    point per access to [top], [bottom], [underlying_array] or an array that
    another thread can change; what only the owner writes, the owner reads in the
    same step. *)

From S2P Require Import Prelude.

(** ** Data *)

(** [wsd_circular_array_t]: the slots that have been written; the memory of the
    others is unspecified and read as 0. *)
Record wsd_array := WsdArray { log_size : Z; slots : gmap Z Z }.

(** [1 << log_size] is an [int] shift: undefined from 31 on. *)
Definition wsd_circular_array_create (lg : Z) : option wsd_array :=
  if Z.ltb lg 31 then Some (WsdArray lg ∅) else None.

Definition wsd_circular_array_size (a : wsd_array) : Z := 2 ^ log_size a.

Definition wsd_circular_array_get (a : wsd_array) (i : Z) : Z :=
  default 0 (slots a !! Z.land i (wsd_circular_array_size a - 1)).

Definition wsd_circular_array_put (a : wsd_array) (i p : Z) : wsd_array :=
  WsdArray (log_size a) (<[Z.land i (wsd_circular_array_size a - 1) := p]> (slots a)).

(** The copy loop of [wsd_circular_array_grow], [n] iterations from [i]. *)
Fixpoint grow_copy (n : nat) (a new_a : wsd_array) (i : Z) : wsd_array :=
  match n with
  | O => new_a
  | S n => grow_copy n a (wsd_circular_array_put new_a i (wsd_circular_array_get a i)) (i + 1)
  end.

Definition wsd_circular_array_grow (a : wsd_array) (start end_ : Z) : option wsd_array :=
  if Z.leb start end_ then
    new_a ← wsd_circular_array_create (log_size a + 1);
    Some (grow_copy (Z.to_nat (end_ - start)) a new_a start)
  else None.

(** The deque; [arrays] are all arrays ever created, [cur] the index of
    [underlying_array]. *)
Record wsd := Wsd { top : Z; bottom : Z; arrays : list wsd_array; cur : nat }.

Definition wsd_work_stealing_deque_create : wsd := Wsd 0 0 [WsdArray 8 ∅] 0.

Definition wsd_work_stealing_deque_size (d : wsd) : Z :=
  let size := i64 (bottom d - top d) in if Z.ltb size 0 then 0 else size.

Inductive wsd_pc :=
| DIdle
| DPushB (p : Z)                     (* load bottom *)
| DPushT (p b : Z)                   (* load top *)
| DPushA (p b t : Z)                 (* grow if full, publish the array *)
| DPushPut (p b : Z) (a : nat)       (* write the slot *)
| DPushStore (p b : Z)               (* bottom = b + 1 *)
| DPopB                              (* load bottom and the array *)
| DPopStore (b : Z) (a : nat)        (* bottom = b *)
| DPopT (b : Z) (a : nat)            (* load top, decide, read the slot *)
| DPopReset (t : Z)                  (* empty: bottom = t *)
| DPopCas (t ret : Z)                (* last element: compete for it *)
| DPopFin (t_plus_one : Z)           (* bottom = t + 1 *)
| DStealT                            (* load top *)
| DStealB (t : Z)                    (* load bottom *)
| DStealA (t b : Z)                  (* load the array, decide *)
| DStealGet (t : Z) (a : nat)        (* read the slot *)
| DStealCas (t ret : Z).             (* top = t + 1 *)

Inductive wsd_choice := DCallPush (p : Z) | DCallPop | DCallSteal | DGo | DSpurious.

Inductive deque_ev := DPush (p : Z) | DPop (p : Z) | DSteal (p : Z)
  | DPopEmpty | DEmpty | DAbort.

(** ** Operations *)

Definition wsd_work_stealing_deque_push_bottom (d : wsd) (pc : wsd_pc)
    : option (wsd * wsd_pc * list deque_ev) :=
  match pc with
  | DPushB p => Some (d, DPushT p (bottom d), [])
  | DPushT p b => Some (d, DPushA p b (top d), [])
  | DPushA p b t =>
      a ← arrays d !! cur d;
      let size := i64 (b - t) in
      if Z.leb (wsd_circular_array_size a - 1) size then
        new_a ← wsd_circular_array_grow a t b;
        Some (Wsd (top d) (bottom d) (arrays d ++ [new_a]) (length (arrays d)),
              DPushPut p b (length (arrays d)), [])
      else Some (d, DPushPut p b (cur d), [])
  | DPushPut p b k =>
      a ← arrays d !! k;
      Some (Wsd (top d) (bottom d) (<[k:=wsd_circular_array_put a b p]> (arrays d)) (cur d),
            DPushStore p b, [])
  | DPushStore p b => Some (Wsd (top d) (i64 (b + 1)) (arrays d) (cur d), DIdle, [DPush p])
  | _ => None
  end.

(** The weak compare-and-swap of the last element may fail spuriously. *)
Definition wsd_work_stealing_deque_pop_bottom (spurious : bool) (d : wsd) (pc : wsd_pc)
    : option (wsd * wsd_pc * list deque_ev) :=
  match pc with
  | DPopB => Some (d, DPopStore (i64 (bottom d - 1)) (cur d), [])
  | DPopStore b k => Some (Wsd (top d) b (arrays d) (cur d), DPopT b k, [])
  | DPopT b k =>
      a ← arrays d !! k;
      let t := top d in
      let size := i64 (b - t) in
      if Z.ltb size 0 then Some (d, DPopReset t, [])
      else
        let ret := wsd_circular_array_get a b in
        if Z.ltb 0 size then Some (d, DIdle, [DPop ret]) else Some (d, DPopCas t ret, [])
  | DPopReset t => Some (Wsd (top d) t (arrays d) (cur d), DIdle, [DPopEmpty])
  | DPopCas t ret =>
      let t_plus_one := i64 (t + 1) in
      if negb spurious && Z.eqb (top d) t
      then Some (Wsd t_plus_one (bottom d) (arrays d) (cur d), DPopFin t_plus_one, [DPop ret])
      else Some (d, DPopFin t_plus_one, [DAbort])
  | DPopFin v => Some (Wsd (top d) v (arrays d) (cur d), DIdle, [])
  | _ => None
  end.

Definition wsd_work_stealing_deque_steal (spurious : bool) (d : wsd) (pc : wsd_pc)
    : option (wsd * wsd_pc * list deque_ev) :=
  match pc with
  | DStealT => Some (d, DStealB (top d), [])
  | DStealB t => Some (d, DStealA t (bottom d), [])
  | DStealA t b =>
      if Z.leb (i64 (b - t)) 0 then Some (d, DIdle, [DEmpty]) else Some (d, DStealGet t (cur d), [])
  | DStealGet t k => a ← arrays d !! k; Some (d, DStealCas t (wsd_circular_array_get a t), [])
  | DStealCas t ret =>
      if negb spurious && Z.eqb (top d) t
      then Some (Wsd (i64 (t + 1)) (bottom d) (arrays d) (cur d), DIdle, [DSteal ret])
      else Some (d, DIdle, [DAbort])
  | _ => None
  end.

Definition wsd_tstep (th : nat) (ch : wsd_choice) (d : wsd) (pc : wsd_pc)
    : option (wsd * wsd_pc * list deque_ev) :=
  match ch, pc with
  | DCallPush p, DIdle => if decide (th = 0%nat) then Some (d, DPushB p, []) else None
  | DCallPop, DIdle => if decide (th = 0%nat) then Some (d, DPopB, []) else None
  | DCallSteal, DIdle => if decide (th = 0%nat) then None else Some (d, DStealT, [])
  | (DGo | DSpurious), (DPopB | DPopStore _ _ | DPopT _ _ | DPopReset _ | DPopCas _ _ | DPopFin _) =>
      wsd_work_stealing_deque_pop_bottom (match ch with DSpurious => true | _ => false end) d pc
  | (DGo | DSpurious), (DStealT | DStealB _ | DStealA _ _ | DStealGet _ _ | DStealCas _ _) =>
      wsd_work_stealing_deque_steal (match ch with DSpurious => true | _ => false end) d pc
  | DGo, (DPushB _ | DPushT _ _ | DPushA _ _ _ | DPushPut _ _ _ | DPushStore _ _) =>
      wsd_work_stealing_deque_push_bottom d pc
  | _, _ => None
  end.

Definition wsd_conf := conf wsd wsd_pc.
Definition wsd_step := conf_step wsd_tstep.
Definition wsd_init (n : nat) : wsd_conf := Conf wsd_work_stealing_deque_create (replicate n DIdle).

(** ** The abstract deque *)

Definition deque_spec (e : deque_ev) (q : list Z) : option (list Z) :=
  match e, q with
  | DPush p, _ => Some (q ++ [p])
  | DPop p, _ => if decide (last q = Some p) then Some (removelast q) else None
  | DSteal p, x :: q => if decide (p = x) then Some q else None
  | DSteal _, [] => None
  | DPopEmpty, [] => Some []
  | DPopEmpty, _ :: _ => None
  | (DEmpty | DAbort), _ => Some q    (* a thief's answer may be out of date *)
  end.

(** ** Circular arrays *)

Lemma get_put_same a i p : wsd_circular_array_get (wsd_circular_array_put a i p) i = p.
Proof. unfold wsd_circular_array_get, wsd_circular_array_put. simpl. by rewrite lookup_insert_eq. Qed.

Lemma get_put_near a i j p : 0 <= log_size a -> i <> j ->
  - wsd_circular_array_size a < i - j < wsd_circular_array_size a ->
  wsd_circular_array_get (wsd_circular_array_put a j p) i = wsd_circular_array_get a i.
Proof.
  intros Hl Hne Hd. unfold wsd_circular_array_get, wsd_circular_array_put, wsd_circular_array_size in *. simpl.
  rewrite lookup_insert_ne; [done|]. rewrite !land_pow2_mod by done. intros E. apply Hne.
  symmetry. eapply (mod_inj_near (2 ^ log_size a)); [apply Z.pow_pos_nonneg; lia|done|lia].
Qed.

Lemma grow_copy_log n : forall a na i, log_size (grow_copy n a na i) = log_size na.
Proof. induction n as [|n IH]; intros a na i; simpl; [done|]. by rewrite IH. Qed.

Lemma grow_copy_before n : forall a na i j, 0 <= log_size na ->
  j < i -> i + Z.of_nat n - j < wsd_circular_array_size na + 1 ->
  wsd_circular_array_get (grow_copy n a na i) j = wsd_circular_array_get na j.
Proof.
  induction n as [|n IH]; intros a na i j Hl Hj Hn; cbn [grow_copy]; [done|].
  rewrite IH.
  - apply get_put_near; [done|lia|]. lia.
  - done.
  - lia.
  - unfold wsd_circular_array_size in *. simpl. lia.
Qed.

Lemma grow_copy_get n : forall a na i j, 0 <= log_size na ->
  i <= j < i + Z.of_nat n -> Z.of_nat n <= wsd_circular_array_size na ->
  wsd_circular_array_get (grow_copy n a na i) j = wsd_circular_array_get a j.
Proof.
  induction n as [|n IH]; intros a na i j Hl Hj Hn; cbn [grow_copy]; [lia|].
  destruct (decide (j = i)) as [->|Hne].
  - rewrite grow_copy_before; [apply get_put_same|done|lia|]. unfold wsd_circular_array_size in *. simpl. lia.
  - apply IH; [done|lia|]. unfold wsd_circular_array_size in *. simpl. lia.
Qed.

(** ** The invariant

    [B] is the abstract bottom: while the owner is popping, the element it has
    reserved still belongs to the deque until the pop takes effect. *)

Definition abs_bottom (pc : wsd_pc) (bot : Z) : Z :=
  match pc with
  | DPopT b _ => b + 1 | DPopReset t => t | DPopCas t _ => t + 1 | DPopFin v => v
  | _ => bot
  end.

(** The owner's locals. *)
Definition owner_ok (d : wsd) (a : wsd_array) (pc : wsd_pc) : Prop :=
  match pc with
  | DIdle | DPushB _ | DPopB => True
  | DPushT _ b => b = bottom d
  | DPushA _ b t => b = bottom d /\ 0 <= t <= top d /\ b - t <= wsd_circular_array_size a - 1
  | DPushPut _ b k => b = bottom d /\ k = cur d /\ b - top d < wsd_circular_array_size a - 1
  | DPushStore p b => b = bottom d /\ b - top d < wsd_circular_array_size a - 1 /\
      wsd_circular_array_get a b = p
  | DPopStore b k => b = bottom d - 1 /\ k = cur d
  | DPopT b k => b = bottom d /\ k = cur d
  | DPopReset t => t = top d /\ bottom d = t - 1
  | DPopCas t ret => bottom d = t /\ t <= top d /\ wsd_circular_array_get a t = ret
  | DPopFin v => bottom d = v - 1
  | _ => False
  end.

(** A thief's locals: what it read is current as long as [top] has not moved. *)
Definition thief_ok (n : Z) (d : wsd) (B : Z) (a : wsd_array) (pc : wsd_pc) : Prop :=
  match pc with
  | DIdle | DStealT => True
  | DStealB t => 0 <= t <= top d
  | DStealA t b => 0 <= t <= top d /\ -1 <= b <= n /\ (top d = t -> t < b -> t < B)
  | DStealGet t k => 0 <= t <= top d /\ exists ak, arrays d !! k = Some ak /\
      (top d = t -> t < B /\ wsd_circular_array_get ak t = wsd_circular_array_get a t)
  | DStealCas t ret => 0 <= t <= top d /\
      (top d = t -> t < B /\ ret = wsd_circular_array_get a t)
  | _ => False
  end.

Record wsd_inv (n : Z) (c : wsd_conf) (q : list Z) (pc0 : wsd_pc) (a : wsd_array) : Prop := {
  wi_owner : threads c !! 0%nat = Some pc0;
  wi_cur : arrays (shared c) !! cur (shared c) = Some a;
  wi_top : 0 <= top (shared c);
  wi_bot : top (shared c) - 1 <= bottom (shared c) <= abs_bottom pc0 (bottom (shared c));
  wi_lim : abs_bottom pc0 (bottom (shared c)) <= n;
  wi_log : 8 <= log_size a /\ wsd_circular_array_size a <= 2 * n + 256;
  wi_room : abs_bottom pc0 (bottom (shared c)) - top (shared c) <= wsd_circular_array_size a - 1;
  wi_len : Z.of_nat (length q) = abs_bottom pc0 (bottom (shared c)) - top (shared c);
  wi_q : forall i, top (shared c) <= i < abs_bottom pc0 (bottom (shared c)) ->
    q !! Z.to_nat (i - top (shared c)) = Some (wsd_circular_array_get a i);
  wi_own_ok : owner_ok (shared c) a pc0;
  wi_thief : forall th pc, th <> 0%nat -> threads c !! th = Some pc ->
    thief_ok n (shared c) (abs_bottom pc0 (bottom (shared c))) a pc
}.

Definition wsd_rel (n : Z) (c : wsd_conf) (q : list Z) : Prop := exists pc0 a, wsd_inv n c q pc0 a.

(** Thieves survive any change that keeps what is at [top], or moves [top]. *)
Lemma thief_mono n n' d d' B B' a a' pc :
  n <= n' -> top d <= top d' ->
  (top d' = top d -> top d < B -> top d < B' /\
     wsd_circular_array_get a' (top d) = wsd_circular_array_get a (top d)) ->
  (forall k ak, arrays d !! k = Some ak -> exists ak', arrays d' !! k = Some ak' /\
     (top d' = top d -> top d < B -> wsd_circular_array_get ak' (top d) = wsd_circular_array_get ak (top d))) ->
  thief_ok n d B a pc -> thief_ok n' d' B' a' pc.
Proof.
  intros Hn Ht HB Har. destruct pc as [| | | | | | | | | | | | |t|t b|t k|t ret]; simpl; try done.
  - lia.
  - intros (H1 & H2 & H3). split_and!; lia.
  - intros (H1 & ak & Hk & H3). split; [lia|]. destruct (Har _ _ Hk) as (ak' & Hk' & Hg).
    exists ak'. split; [done|]. intros E.
    assert (top d' = top d) as Et by lia. assert (t = top d) as -> by lia.
    destruct (H3 eq_refl) as [Hb Hv]. destruct (HB Et Hb) as [Hb' Hv']. split; [done|].
    rewrite Hg by done. congruence.
  - intros (H1 & H3). split; [lia|]. intros E.
    assert (top d' = top d) as Et by lia. assert (t = top d) as -> by lia.
    destruct (H3 eq_refl) as [Hb Hv]. destruct (HB Et Hb) as [Hb' Hv']. split; [done|]. congruence.
Qed.

(** A step of the owner. *)
Lemma owner_step n c q pc0 a d' pc' q' a' :
  wsd_inv n c q pc0 a ->
  top d' = top (shared c) \/ (top d' = top (shared c) + 1 /\ top (shared c) < abs_bottom pc0 (bottom (shared c))) ->
  arrays d' !! cur d' = Some a' ->
  top d' - 1 <= bottom d' <= abs_bottom pc' (bottom d') ->
  abs_bottom pc' (bottom d') <= n + 1 ->
  8 <= log_size a' /\ wsd_circular_array_size a' <= 2 * (n + 1) + 256 ->
  abs_bottom pc' (bottom d') - top d' <= wsd_circular_array_size a' - 1 ->
  Z.of_nat (length q') = abs_bottom pc' (bottom d') - top d' ->
  (forall i, top d' <= i < abs_bottom pc' (bottom d') ->
    q' !! Z.to_nat (i - top d') = Some (wsd_circular_array_get a' i)) ->
  owner_ok d' a' pc' ->
  (top d' = top (shared c) -> top (shared c) < abs_bottom pc0 (bottom (shared c)) ->
     top (shared c) < abs_bottom pc' (bottom d') /\
     wsd_circular_array_get a' (top (shared c)) = wsd_circular_array_get a (top (shared c))) ->
  (forall k ak, arrays (shared c) !! k = Some ak -> exists ak', arrays d' !! k = Some ak' /\
     (top (shared c) < abs_bottom pc0 (bottom (shared c)) ->
      wsd_circular_array_get ak' (top (shared c)) = wsd_circular_array_get ak (top (shared c)))) ->
  wsd_rel (n + 1) (Conf d' (<[0%nat:=pc']> (threads c))) q'.
Proof.
  intros HI Ht Hc Hb Hl Hlog Hroom Hlen Hq Hok Hk Har.
  pose proof (wi_owner _ _ _ _ _ HI) as H0. pose proof (wi_top _ _ _ _ _ HI).
  exists pc', a'. split; cbn [shared threads]; try done; try lia.
  - apply list_lookup_insert_eq. by eapply lookup_lt_Some.
  - intros th pc Hne Hth. rewrite list_lookup_insert_ne in Hth by done.
    eapply thief_mono; [..|by eapply (wi_thief _ _ _ _ _ HI)]; try lia; try done.
    intros k ak Hak. destruct (Har _ _ Hak) as (ak' & Hak' & Hg). eauto.
Qed.

(** A step of a thief that does not take an element. *)
Lemma thief_step n c q pc0 a th pc' :
  wsd_inv n c q pc0 a -> th <> 0%nat ->
  thief_ok (n + 1) (shared c) (abs_bottom pc0 (bottom (shared c))) a pc' ->
  wsd_rel (n + 1) (Conf (shared c) (<[th:=pc']> (threads c))) q.
Proof.
  intros HI Hne Hok. exists pc0, a. destruct HI as [H1 H2 H3 H4 H5 H6 H7 H8 H9 H10 H11].
  split; cbn [shared threads]; try done; try lia.
  - by rewrite list_lookup_insert_ne.
  - intros th' pc Hth' Hp. apply lookup_insert_cases in Hp as [[-> ->]|[_ Hp]]; [done|].
    eapply thief_mono; [..|by eapply H11]; try lia; try done. intros k ak Hk. eauto.
Qed.

Section owner.
Variables (n : Z) (c : wsd_conf) (q : list Z) (a : wsd_array).
Abbreviation d := (shared c).

Lemma owner_quiet pc0 pc' : wsd_inv n c q pc0 a -> abs_bottom pc' (bottom d) = abs_bottom pc0 (bottom d) ->
  owner_ok d a pc' -> wsd_rel (n + 1) (Conf d (<[0%nat:=pc']> (threads c))) q.
Proof.
  intros HI HB Hok. pose proof HI as [H1 H2 H3 H4 H5 H6 H7 H8 H9 H10 H11]. 
  eapply owner_step; [exact HI|..]; rewrite ?HB; try done; try lia; auto.
  intros k ak Hk. eauto.
Qed.

Lemma abs_bottom_le pc0 : owner_ok d a pc0 -> abs_bottom pc0 (bottom d) <= bottom d + 1.
Proof. destruct pc0; simpl; lia. Qed.

Lemma cur_size_pos pc0 : wsd_inv n c q pc0 a -> 256 <= wsd_circular_array_size a.
Proof.
  intros HI. unfold wsd_circular_array_size. destruct (wi_log _ _ _ _ _ HI) as [Hl _].
  change 256 with (2 ^ 8). apply Z.pow_le_mono_r; lia.
Qed.

(** Every array is old or current; only the current one changes. *)
Lemma push_grow p b t new_a : wsd_inv n c q (DPushA p b t) a ->
  wsd_circular_array_size a - 1 <= b - t -> wsd_circular_array_grow a t b = Some new_a ->
  wsd_rel (n + 1) (Conf (Wsd (top d) (bottom d) (arrays d ++ [new_a]) (length (arrays d)))
    (<[0%nat:=DPushPut p b (length (arrays d))]> (threads c))) q.
Proof.
  intros HI Hfull Hg. pose proof HI as [H1 H2 H3 H4 H5 [H6 H6'] H7 H8 H9 H10 H11]. 
  destruct H10 as (-> & Ht & Hbt). simpl in *. pose proof (cur_size_pos _ HI) as Hs.
  unfold wsd_circular_array_grow, wsd_circular_array_create in Hg.
  rewrite (proj2 (Z.leb_le t (bottom d))) in Hg by lia.
  destruct (Z.ltb (log_size a + 1) 31); simpl in Hg; [|done]. injection Hg as <-.
  set (new_a := grow_copy _ _ _ _).
  assert (log_size new_a = log_size a + 1) as Hlog by (unfold new_a; by rewrite grow_copy_log).
  assert (wsd_circular_array_size new_a = 2 * wsd_circular_array_size a) as Hsz.
  { unfold wsd_circular_array_size. rewrite Hlog, Z.pow_add_r by lia. lia. }
  assert (forall i, t <= i < bottom d -> wsd_circular_array_get new_a i = wsd_circular_array_get a i) as Hget.
  { intros i Hi. unfold new_a. apply grow_copy_get; simpl; [lia|lia|].
    unfold wsd_circular_array_size in *. simpl. rewrite Z.pow_add_r by lia. lia. }
  eapply owner_step with (a' := new_a); [exact HI|..]; cbn [top bottom arrays cur abs_bottom]; try done; try lia.
  - rewrite lookup_app_r, Nat.sub_diag by lia. done.
  - intros i Hi. rewrite Hget by lia. by apply H9.
  - simpl. split_and!; [done|done|lia].
  - intros _ Hlt. split; [done|]. apply Hget. lia.
  - intros k ak Hk. exists ak. split; [|done]. by rewrite lookup_app_l by (by eapply lookup_lt_Some).
Qed.

Lemma push_put p b k : wsd_inv n c q (DPushPut p b k) a ->
  wsd_rel (n + 1) (Conf (Wsd (top d) (bottom d) (<[k:=wsd_circular_array_put a b p]> (arrays d)) (cur d))
    (<[0%nat:=DPushStore p b]> (threads c))) q.
Proof.
  intros HI. pose proof HI as [H1 H2 H3 H4 H5 [H6 H6'] H7 H8 H9 H10 H11]. 
  destruct H10 as (-> & -> & Hr). simpl in *.
  assert (forall i, top d <= i < bottom d ->
    wsd_circular_array_get (wsd_circular_array_put a (bottom d) p) i = wsd_circular_array_get a i) as Hget.
  { intros i Hi. apply get_put_near; lia. }
  assert (cur d < length (arrays d))%nat as Hlt by (by eapply lookup_lt_Some).
  assert (wsd_circular_array_size (wsd_circular_array_put a (bottom d) p) = wsd_circular_array_size a) as Hsz by done.
  eapply owner_step with (a' := wsd_circular_array_put a (bottom d) p); [exact HI|..];
    cbn [top bottom arrays cur abs_bottom]; rewrite ?Hsz; try done; try lia.
  - by apply list_lookup_insert_eq.
  - split; [exact H6|lia].
  - intros i Hi. rewrite Hget by lia. by apply H9.
  - simpl. split_and!; [done|done|apply get_put_same].
  - intros _ Hb. split; [done|]. apply Hget. lia.
  - intros k ak Hk. destruct (decide (k = cur d)) as [->|Hne].
    + rewrite list_lookup_insert_eq by done. eexists. split; [done|]. intros Hb.
      rewrite H2 in Hk. injection Hk as <-. apply Hget. lia.
    + rewrite list_lookup_insert_ne by done. eauto.
Qed.

Lemma push_store p b : wsd_inv n c q (DPushStore p b) a ->
  wsd_rel (n + 1) (Conf (Wsd (top d) (b + 1) (arrays d) (cur d)) (<[0%nat:=DIdle]> (threads c))) (q ++ [p]).
Proof.
  intros HI. pose proof HI as [H1 H2 H3 H4 H5 [H6 H6'] H7 H8 H9 H10 H11]. 
  destruct H10 as (-> & Hr & Hp). simpl in *.
  eapply owner_step; [exact HI|..]; cbn [top bottom arrays cur abs_bottom]; try done; try lia.
  - rewrite length_app. simpl. lia.
  - intros i Hi. destruct (decide (i = bottom d)) as [->|Hne].
    + rewrite lookup_app_r by lia. replace (_ - _)%nat with 0%nat by lia. simpl. by rewrite Hp.
    + rewrite lookup_app_l by lia. apply H9. lia.
  - intros k ak Hk. eauto.
Qed.

(** The pop of an element that is not the last one. *)
Lemma pop_many b k : wsd_inv n c q (DPopT b k) a -> top d < b ->
  deque_spec (DPop (wsd_circular_array_get a b)) q = Some (removelast q) /\
  wsd_rel (n + 1) (Conf d (<[0%nat:=DIdle]> (threads c))) (removelast q).
Proof.
  intros HI Hb. pose proof HI as [H1 H2 H3 H4 H5 [H6 H6'] H7 H8 H9 H10 H11]. 
  destruct H10 as (-> & ->). simpl in *.
  assert (last q = Some (wsd_circular_array_get a (bottom d))) as Hl.
  { rewrite last_lookup. rewrite <- (H9 (bottom d)) by lia. f_equal. lia. }
  revert HI H8 H9 Hl. destruct q as [|x q0 _] using rev_ind; intros HI H8 H9 Hl; [done|].
  rewrite removelast_last. rewrite last_snoc in Hl. injection Hl as ->. rewrite length_app in H8. simpl in H8.
  split; [by rewrite last_snoc, decide_True|].
  eapply owner_step; [exact HI|..]; cbn [shared threads abs_bottom]; try done; try lia.
  - intros i Hi. rewrite <- (H9 i) by lia. by rewrite lookup_app_l by lia.
  - intros j ak Hk. eauto.
Qed.

(** The owner wins the last element. *)
Lemma pop_last t ret : wsd_inv n c q (DPopCas t ret) a -> top d = t ->
  deque_spec (DPop ret) q = Some [] /\
  wsd_rel (n + 1) (Conf (Wsd (t + 1) (bottom d) (arrays d) (cur d)) (<[0%nat:=DPopFin (t + 1)]> (threads c))) [].
Proof.
  intros HI Ht. pose proof HI as [H1 H2 H3 H4 H5 [H6 H6'] H7 H8 H9 H10 H11]. 
  destruct H10 as (Hbt & Htt & Hr). simpl in *. pose proof (cur_size_pos _ HI) as Hs.
  destruct q as [|x [|]]; simpl in H8; try lia.
  specialize (H9 t ltac:(lia)) as Hx. replace (Z.to_nat (t - top d)) with 0%nat in Hx by lia.
  simpl in Hx. injection Hx as ->. rewrite Hr. split; [by rewrite decide_True|].
  eapply owner_step; [exact HI|..]; cbn [top bottom arrays cur abs_bottom]; try done; try lia.
  all: simpl; try done; try lia.
  all: intros k ak Hk; eauto.
Qed.

Lemma pop_stores pc0 pc' bot' : wsd_inv n c q pc0 a ->
  (pc0 = DPopStore bot' (cur d) /\ pc' = DPopT bot' (cur d)) \/
  (pc0 = DPopReset bot' /\ pc' = DIdle) \/ (pc0 = DPopFin bot' /\ pc' = DIdle) ->
  wsd_rel (n + 1) (Conf (Wsd (top d) bot' (arrays d) (cur d)) (<[0%nat:=pc']> (threads c))) q.
Proof.
  intros HI E. pose proof HI as [H1 H2 H3 H4 H5 [H6 H6'] H7 H8 H9 H10 H11].
  assert (abs_bottom pc' bot' = abs_bottom pc0 (bottom d)) as HB
    by (destruct E as [[-> ->]|[[-> ->]|[-> ->]]]; simpl in *; lia).
  eapply owner_step; [exact HI|..]; cbn [top bottom arrays cur]; rewrite ?HB; try done; try lia.
  - destruct E as [[-> ->]|[[-> ->]|[-> ->]]]; simpl in *; lia.
  - destruct E as [[-> ->]|[[-> ->]|[-> ->]]]; simpl in *; auto.
  - intros k ak Hk. eauto.
Qed.

End owner.

(** A thief takes the element at [top]. *)
Lemma steal_takes n c q pc0 a th t ret :
  wsd_inv n c q pc0 a -> n + 1 < 2 ^ 28 -> th <> 0%nat ->
  threads c !! th = Some (DStealCas t ret) -> top (shared c) = t ->
  exists q', deque_spec (DSteal ret) q = Some q' /\
    wsd_rel (n + 1) (Conf (Wsd (t + 1) (bottom (shared c)) (arrays (shared c)) (cur (shared c)))
      (<[th:=DIdle]> (threads c))) q'.
Proof.
  intros HI Hn Hne Hth Ht. pose proof HI as [H1 H2 H3 H4 H5 [H6 H6'] H7 H8 H9 H10 H11].
  destruct (H11 _ _ Hne Hth) as [_ Hcur]. destruct (Hcur Ht) as [Hlt Hret].
  pose proof (abs_bottom_le c a pc0 H10) as HB.
  destruct q as [|x q]; [simpl in H8; lia|]. simpl in H8.
  pose proof (H9 t ltac:(lia)) as Hx. replace (Z.to_nat (t - top (shared c))) with 0%nat in Hx by lia.
  simpl in Hx. injection Hx as ->. exists q. rewrite Hret. split; [simpl; by rewrite decide_True|].
  exists pc0, a. split; cbn [shared threads top bottom arrays cur]; try done; try lia.
  - by rewrite list_lookup_insert_ne.
  - intros i Hi. rewrite <- (H9 i) by lia. replace (Z.to_nat (i - top (shared c))) with (S (Z.to_nat (i - (t + 1)))) by lia. done.
  - destruct pc0; simpl in *; try done; lia.
  - intros th' pc Hth' Hp. apply lookup_insert_cases in Hp as [[-> ->]|[_ Hp]]; [done|].
    eapply thief_mono; [..|by eapply H11]; cbn [top arrays]; try lia; try done.
    intros k ak Hk. eauto.
Qed.

Lemma wsd_owner_simulation n c q pc0 a ch d' pc' evs :
  wsd_inv n c q pc0 a -> n + 1 < 2 ^ 28 ->
  wsd_tstep 0 ch (shared c) pc0 = Some (d', pc', evs) ->
  exists q', spec_run deque_spec evs q = Some q' /\
    wsd_rel (n + 1) (Conf d' (<[0%nat:=pc']> (threads c))) q'.
Proof.
  intros HI Hn Hs. pose proof HI as [H1 H2 H3 H4 H5 [H6 H6'] H7 H8 H9 H10 H11].
  pose proof (fun pc' => owner_quiet n c q a pc0 pc' HI) as Hquiet.
  pose proof (cur_size_pos _ _ _ _ _ HI) as Hsz. 
  assert (top (shared c) <= n) as Htn by lia.
  destruct pc0 as [|p|p b|p b t|p b k|p b| |b k|b k|t|t ret|v| |t|t b|t k|t ret];
    cbn [owner_ok abs_bottom] in *; try done.
  - destruct ch; simpl in Hs; try done; simplify_eq; exists q; (split; [done|]); by apply Hquiet.
  - destruct ch; simpl in Hs; try done. simplify_eq. exists q. split; [done|]. by apply Hquiet.
  - destruct ch; simpl in Hs; try done. simplify_eq. exists q. split; [done|].
    apply Hquiet; [done|]. simpl. lia.
  - destruct H10 as (-> & Ht & Hbt). destruct ch; simpl in Hs; try done.
    rewrite H2 in Hs. simpl in Hs. rewrite i64_small in Hs by lia. exists q.
    destruct (Z.leb_spec (wsd_circular_array_size a - 1) (bottom (shared c) - t)) as [Hf|Hf].
    + destruct (wsd_circular_array_grow a t (bottom (shared c))) as [new_a|] eqn:Eg; [|done].
      simpl in Hs. injection Hs as <- <- <-. split; [done|]. by eapply push_grow.
    + injection Hs as <- <- <-. split; [done|]. apply Hquiet; [done|]. simpl. split_and!; [done|done|lia].
  - destruct H10 as (-> & -> & Hr). destruct ch; simpl in Hs; try done. rewrite H2 in Hs. simpl in Hs.
    injection Hs as <- <- <-. exists q. split; [done|]. by eapply push_put.
  - destruct H10 as (-> & Hr & Hp). destruct ch; simpl in Hs; try done. rewrite i64_small in Hs by lia.
    injection Hs as <- <- <-. exists (q ++ [p]). split; [done|]. by eapply push_store.
  - assert (i64 (bottom (shared c) - 1) = bottom (shared c) - 1) as Ei by (apply i64_small; lia).
    destruct ch; simpl in Hs; try done; rewrite Ei in Hs; injection Hs as <- <- <-; exists q;
      (split; [done|]); by apply Hquiet.
  - destruct H10 as (Hb & ->). destruct ch; simpl in Hs; try done; injection Hs as <- <- <-; exists q;
      (split; [done|]); eapply pop_stores; eauto.
  - destruct H10 as (-> & ->).
    assert (wsd_tstep 0 DGo (shared c) (DPopT (bottom (shared c)) (cur (shared c))) = Some (d', pc', evs)) as Hs'
      by (by destruct ch). clear Hs. simpl in Hs'. rewrite H2 in Hs'. simpl in Hs'. rewrite i64_small in Hs' by lia.
    destruct (Z.ltb_spec (bottom (shared c) - top (shared c)) 0) as [Hneg|Hpos].
    + injection Hs' as <- <- <-. exists q. split; [done|]. apply Hquiet; simpl; lia.
    + destruct (Z.ltb_spec 0 (bottom (shared c) - top (shared c))) as [Hmany|Hone]; injection Hs' as <- <- <-.
      * destruct (pop_many n c q a _ _ HI) as [Hspec HR]; [lia|]. exists (removelast q).
        split; [|done]. cbn [spec_run]. by rewrite Hspec.
      * exists q. split; [done|]. assert (top (shared c) = bottom (shared c)) as Et by lia.
        apply Hquiet; simpl; [lia|]. rewrite Et. split_and!; [done|lia|done].
  - destruct H10 as (-> & Hb). assert (q = []) as Hq by (destruct q; [done|simpl in H8; lia]).
    destruct ch; simpl in Hs; try done; injection Hs as <- <- <-; exists q;
      (split; [by rewrite Hq|]); eapply pop_stores; eauto.
  - destruct H10 as (Hb & Ht & Hr).
    assert (exists sp, wsd_work_stealing_deque_pop_bottom sp (shared c) (DPopCas t ret) = Some (d', pc', evs)) as [sp Hs']
      by (destruct ch; try discriminate Hs; [exists false|exists true]; exact Hs). clear Hs. simpl in Hs'.
    rewrite i64_small in Hs' by lia.
    destruct (negb sp && Z.eqb (top (shared c)) t) eqn:Ec; injection Hs' as <- <- <-.
    + apply andb_prop in Ec as [_ Ec%Z.eqb_eq].
      destruct (pop_last n c q a t ret HI Ec) as [Hspec HR]. exists []. split; [|done]. cbn [spec_run]. by rewrite Hspec.
    + exists q. split; [done|]. apply Hquiet; simpl; lia.
  - destruct ch; simpl in Hs; try done; injection Hs as <- <- <-; exists q;
      (split; [done|]); eapply pop_stores; eauto.
Qed.

Lemma wsd_thief_simulation n c q pc0 a th ch pc d' pc' evs :
  wsd_inv n c q pc0 a -> n + 1 < 2 ^ 28 -> th <> 0%nat -> threads c !! th = Some pc ->
  wsd_tstep th ch (shared c) pc = Some (d', pc', evs) ->
  exists q', spec_run deque_spec evs q = Some q' /\
    wsd_rel (n + 1) (Conf d' (<[th:=pc']> (threads c))) q'.
Proof.
  intros HI Hn Hne Hth Hs. pose proof HI as [H1 H2 H3 H4 H5 [H6 H6'] H7 H8 H9 H10 H11].
  pose proof (H11 _ _ Hne Hth) as Hok. pose proof (abs_bottom_le c a pc0 H10) as HB.
  assert (forall pc', thief_ok (n + 1) (shared c) (abs_bottom pc0 (bottom (shared c))) a pc' ->
    wsd_rel (n + 1) (Conf (shared c) (<[th:=pc']> (threads c))) q) as Hquiet.
  { intros p Hp. by eapply thief_step. }
  destruct pc as [| | | | | | | | | | | | |t|t b|t k|t ret]; cbn [thief_ok] in Hok; try done.
  - destruct ch; simpl in Hs; try done; rewrite decide_False in Hs by done; simplify_eq.
    exists q. split; [done|]. by apply Hquiet.
  - assert (wsd_work_stealing_deque_steal false (shared c) DStealT = Some (d', pc', evs)) as Hs' by (by destruct ch).
    simpl in Hs'. injection Hs' as <- <- <-. exists q. split; [done|]. apply Hquiet. simpl. lia.
  - assert (wsd_work_stealing_deque_steal false (shared c) (DStealB t) = Some (d', pc', evs)) as Hs' by (by destruct ch).
    simpl in Hs'. injection Hs' as <- <- <-. exists q. split; [done|]. apply Hquiet. simpl. lia.
  - assert (wsd_work_stealing_deque_steal false (shared c) (DStealA t b) = Some (d', pc', evs)) as Hs' by (by destruct ch).
    simpl in Hs'. rewrite i64_small in Hs' by lia.
    destruct (Z.leb_spec (b - t) 0); injection Hs' as <- <- <-; exists q; (split; [done|]); apply Hquiet; [done|].
    simpl. split; [lia|]. exists a. split; [done|]. intros E. split; [|done]. apply Hok; lia.
  - destruct Hok as (Ht & ak & Hk & Hcur).
    assert (wsd_work_stealing_deque_steal false (shared c) (DStealGet t k) = Some (d', pc', evs)) as Hs' by (by destruct ch).
    simpl in Hs'. rewrite Hk in Hs'. simpl in Hs'. injection Hs' as <- <- <-. exists q. split; [done|].
    apply Hquiet. simpl. split; [lia|]. intros E. by destruct (Hcur E).
  - assert (exists sp, wsd_work_stealing_deque_steal sp (shared c) (DStealCas t ret) = Some (d', pc', evs)) as [sp Hs']
      by (destruct ch; try discriminate Hs; [exists false|exists true]; exact Hs). clear Hs. simpl in Hs'.
    rewrite i64_small in Hs' by lia.
    destruct (negb sp && Z.eqb (top (shared c)) t) eqn:Ec; injection Hs' as <- <- <-.
    + apply andb_prop in Ec as [_ Ec%Z.eqb_eq].
      destruct (steal_takes _ _ _ _ _ _ _ _ HI Hn Hne Hth Ec) as (q' & Hspec & HR). exists q'. split; [|done].
      cbn [spec_run]. by rewrite Hspec.
    + exists q. split; [done|]. by apply Hquiet.
Qed.

Lemma wsd_simulation n lbl c c' evs q :
  n + 1 < 2 ^ 28 -> wsd_rel n c q -> wsd_step lbl c = Some (c', evs) ->
  exists q', spec_run deque_spec evs q = Some q' /\ wsd_rel (n + 1) c' q'.
Proof.
  destruct lbl as [th ch]. intros Hn (pc0 & a & HI) Hstep.
  apply conf_step_inv in Hstep as (pc & d' & pc' & Hth & Hs & ->).
  destruct (decide (th = 0%nat)) as [->|Hne].
  - rewrite (wi_owner _ _ _ _ _ HI) in Hth. injection Hth as <-. by eapply wsd_owner_simulation.
  - by eapply wsd_thief_simulation.
Qed.

Lemma wsd_init_rel n : (0 < n)%nat -> wsd_rel 0 (wsd_init n) [].
Proof.
  intros Hn. exists DIdle, (WsdArray 8 ∅). unfold wsd_init. split; simpl; try done; try lia.
  - by rewrite lookup_replicate_2.
  - intros th pc _ [-> _]%lookup_replicate. done.
Qed.

Lemma wsd_run_rel n ls c evs : (0 < n)%nat -> Z.of_nat (length ls) < 2 ^ 28 ->
  run wsd_step ls (wsd_init n) = Some (c, evs) ->
  exists q, spec_run deque_spec evs [] = Some q /\ wsd_rel (Z.of_nat (length ls)) c q.
Proof.
  intros Hn Hl Hrun.
  destruct (run_simulation wsd_step deque_spec (2 ^ 28) wsd_rel wsd_simulation ls 0 (wsd_init n) c evs [])
    as (q & Hq & HR); [lia|by apply wsd_init_rel|done|]. eauto.
Qed.

(** ** Properties *)

(** C3: The deque is a deque.  For one owner and any number of thieves, in every
    interleaving of fewer than 2^28 steps, growth and spurious failures included,
    pushes append, a successful pop returns and removes the newest element, a
    successful steal the oldest one, each element is taken exactly once, and the
    owner is told "empty" only when the deque is empty. *)
Theorem wsd_refines_deque n ls c evs :
  (0 < n)%nat -> Z.of_nat (length ls) < 2 ^ 28 ->
  run wsd_step ls (wsd_init n) = Some (c, evs) ->
  exists q, spec_run deque_spec evs [] = Some q.
Proof. intros Hn Hl Hrun. destruct (wsd_run_rel _ _ _ _ Hn Hl Hrun) as (q & Hq & _). by exists q. Qed.

(** The owner pushes two elements; a thief and the owner each take one, then both
    compete for the last. *)
Definition wsd_demo : list (nat * wsd_choice) :=
  let push p := (0%nat, DCallPush p) :: replicate 5 (0%nat, DGo) in
  push 8 ++ push 16 ++ push 24 ++
  [(1, DCallSteal); (1, DGo); (1, DGo); (1, DGo); (1, DGo); (0, DCallPop); (0, DGo); (0, DGo); (1, DGo); (0, DGo);
   (1, DCallSteal); (1, DGo); (1, DGo); (1, DGo); (1, DGo); (0, DCallPop); (0, DGo); (0, DGo); (0, DGo); (0, DGo);
   (1, DGo); (0, DGo); (0, DCallPop); (0, DGo); (0, DGo); (0, DGo); (0, DGo)]%nat.

Lemma wsd_refines_deque_witness :
  exists q, spec_run deque_spec
    [DPush 8; DPush 16; DPush 24; DSteal 8; DPop 24; DPop 16; DAbort; DPopEmpty] [] = Some q.
Proof.
  eapply (wsd_refines_deque 2 wsd_demo).
  - lia.
  - vm_compute. reflexivity.
  - vm_compute. reflexivity.
Defined.

(** Size.  While the owner is between operations, [bottom - top] is exactly
    the number of elements, and the elements are the array slots from [top] to
    [bottom - 1], oldest first. *)
Theorem wsd_size_exact n ls c evs :
  (0 < n)%nat -> Z.of_nat (length ls) < 2 ^ 28 ->
  run wsd_step ls (wsd_init n) = Some (c, evs) -> threads c !! 0%nat = Some DIdle ->
  exists q a, spec_run deque_spec evs [] = Some q /\
    wsd_work_stealing_deque_size (shared c) = Z.of_nat (length q) /\
    arrays (shared c) !! cur (shared c) = Some a /\
    forall i, 0 <= i < Z.of_nat (length q) ->
      q !! Z.to_nat i = Some (wsd_circular_array_get a (top (shared c) + i)).
Proof.
  intros Hn Hl Hrun H0. destruct (wsd_run_rel _ _ _ _ Hn Hl Hrun) as (q & Hq & pc0 & a & HI).
  rewrite (wi_owner _ _ _ _ _ HI) in H0. injection H0 as ->.
  destruct HI as [H1 H2 H3 H4 H5 H6 H7 H8 H9 H10 H11]. simpl in *.
  exists q, a. split_and!; try done.
  - unfold wsd_work_stealing_deque_size. rewrite i64_small by lia.
    destruct (Z.ltb_spec (bottom (shared c) - top (shared c)) 0); lia.
  - intros i Hi. rewrite <- (H9 (top (shared c) + i)) by lia. f_equal. lia.
Qed.

Lemma wsd_size_exact_witness :
  exists c, run wsd_step (take 12 wsd_demo) (wsd_init 2) = Some (c, [DPush 8; DPush 16]) /\
  exists q a, spec_run deque_spec [DPush 8; DPush 16] [] = Some q /\
    wsd_work_stealing_deque_size (shared c) = Z.of_nat (length q) /\
    arrays (shared c) !! cur (shared c) = Some a /\
    forall i, 0 <= i < Z.of_nat (length q) ->
      q !! Z.to_nat i = Some (wsd_circular_array_get a (top (shared c) + i)).
Proof.
  eexists. split; [vm_compute; reflexivity|].
  eapply (wsd_size_exact 2 (take 12 wsd_demo)).
  - lia.
  - vm_compute. reflexivity.
  - vm_compute. reflexivity.
  - reflexivity.
Defined.

(** Wait freedom and memory safety.  In every such state each thread inside
    an operation can take its next step: no array access is out of range, the
    array can always grow, and nobody waits for anybody. *)
Theorem wsd_wait_free n ls c evs th pc :
  (0 < n)%nat -> Z.of_nat (length ls) < 2 ^ 28 ->
  run wsd_step ls (wsd_init n) = Some (c, evs) ->
  threads c !! th = Some pc -> pc <> DIdle ->
  exists c' e, wsd_step (th, DGo) c = Some (c', e).
Proof.
  intros Hn Hl Hrun Hth Hne. destruct (wsd_run_rel _ _ _ _ Hn Hl Hrun) as (q & _ & pc0 & a & HI).
  destruct HI as [H1 H2 H3 H4 H5 [H6 H6'] H7 H8 H9 H10 H11].
  assert (is_Some (wsd_tstep th DGo (shared c) pc)) as [[[s' pc'] e] E].
  2: { unfold wsd_step, conf_step. cbn [fst snd]. rewrite Hth, E. eauto. }
  destruct (decide (th = 0%nat)) as [->|Hth0].
  - assert (pc = pc0) as -> by congruence.
    destruct pc0; cbn [wsd_tstep owner_ok wsd_work_stealing_deque_push_bottom
      wsd_work_stealing_deque_pop_bottom abs_bottom] in *; try done; eauto; rewrite ?H2; simpl.
    + case_match eqn:Hfull; [|done]. apply Z.leb_le in Hfull. rewrite i64_small in Hfull by lia.
      unfold wsd_circular_array_grow, wsd_circular_array_create. rewrite (proj2 (Z.leb_le _ _)) by lia.
      rewrite (proj2 (Z.ltb_lt _ _)); [done|].
      assert (2 ^ log_size a < 2 ^ 30) as Hlt by (unfold wsd_circular_array_size in *; lia).
      apply Z.pow_lt_mono_r_iff in Hlt; lia.
    + destruct H10 as (_ & -> & _). by rewrite H2.
    + destruct H10 as (_ & ->). rewrite H2. simpl. repeat case_match; eauto.
    + case_match; eauto.
  - specialize (H11 _ _ Hth0 Hth). destruct pc; cbn [wsd_tstep thief_ok wsd_work_stealing_deque_steal] in *; try done; eauto.
    + case_match; eauto.
    + destruct H11 as (_ & ak & -> & _). eauto.
    + case_match; eauto.
Qed.

Lemma wsd_wait_free_witness :
  exists c', wsd_step (0%nat, DGo) (Conf wsd_work_stealing_deque_create [DPushB 8; DIdle]) = Some (c', []).
Proof.
  destruct (wsd_wait_free 2 [(0%nat, DCallPush 8)] (Conf wsd_work_stealing_deque_create [DPushB 8; DIdle])
    [] 0 (DPushB 8)) as (c' & e & E).
  - lia.
  - reflexivity.
  - reflexivity.
  - reflexivity.
  - discriminate.
  - exists c'. vm_compute in E. injection E as <- <-. reflexivity.
Defined.
