(* ===== verification/SchedulerWsd.v ===== *)
(** * The work-stealing scheduler ([src/fiber_scheduler_wsd.c])

    Each kernel thread has two deques and schedules from one of them while it
    stores fibers that must not run yet in the other.  A deque is the list of its
    elements, oldest first, and a call on it is the step [deque_spec] of the
    deque ([Wsd.wsd_refines_deque]).  A compare-and-swap that fails, in a pop of
    the last element or in a steal, is an input of the loops ([aborts]). *)

From S2P Require Import Prelude Wsd.

(** ** State *)

Definition FIBER_STATE_RUNNING : Z := 1.
Definition FIBER_STATE_READY : Z := 2.
Definition FIBER_STATE_WAITING : Z := 3.
Definition FIBER_STATE_DONE : Z := 4.
Definition FIBER_STATE_SAVING_STATE_TO_WAIT : Z := 5.

(** [fiber_scheduler_wsd_t]: the queues are named by their index in
    [fiber_scheduler_thread_queues]. *)
Record scheduler := Scheduler {
  schedule_from : nat; store_to : nat; sched_id : nat;
  steal_count : Z; failed_steal_count : Z
}.

(** [fiber_scheduler_thread_queues] and [fiber_schedulers]. *)
Record schedulers := Schedulers { queues : list (list Z); scheds : list scheduler }.

Definition fiber_scheduler_wsd_init (id : nat) : scheduler := Scheduler (2 * id) (2 * id + 1) id 0 0.

Definition fiber_scheduler_init (num_threads : nat) : schedulers :=
  Schedulers (replicate (2 * num_threads) []) (fiber_scheduler_wsd_init <$> seq 0 num_threads).

Definition get_queue (s : schedulers) (k : nat) : list Z := default [] (queues s !! k).
Definition set_queue (s : schedulers) (k : nat) (q : list Z) : schedulers :=
  Schedulers (<[k:=q]> (queues s)) (scheds s).
Definition set_sched (s : schedulers) (i : nat) (x : scheduler) : schedulers :=
  Schedulers (queues s) (<[i:=x]> (scheds s)).

Definition queue_size (s : schedulers) (k : nat) : Z := Z.of_nat (length (get_queue s k)).

(** ** Operations *)

Definition fiber_scheduler_schedule (s : schedulers) (i : nat) (the_fiber : Z) : option schedulers :=
  x ← scheds s !! i;
  q ← deque_spec (DPush the_fiber) (get_queue s (schedule_from x));
  Some (set_queue s (schedule_from x) q).

(** The loop of [fiber_scheduler_next].  The result is the fiber to run. *)
Fixpoint next_loop (fuel : nat) (state : Z -> Z) (aborts : list bool) (from to : nat) (s : schedulers)
    : option (schedulers * option Z) :=
  match fuel with
  | O => None
  | S fuel =>
      let q := get_queue s from in
      match last q, aborts with
      | None, _ => Some (s, None)
      | Some f, true :: aborts =>           (* WSD_ABORT *)
          next_loop fuel state aborts from to s
      | Some f, _ =>
          q' ← deque_spec (DPop f) q;
          let s' := set_queue s from q' in
          if Z.eqb (state f) FIBER_STATE_SAVING_STATE_TO_WAIT
          then t' ← deque_spec (DPush f) (get_queue s' to);
               next_loop fuel state (tail aborts) from to (set_queue s' to t')
          else Some (s', Some f)
      end
  end.

(** [state] is each fiber's state; the loop ends after one round per queued
    fiber and per failed compare-and-swap. *)
Definition fiber_scheduler_next (state : Z -> Z) (aborts : list bool) (s : schedulers) (i : nat)
    : option (schedulers * option Z) :=
  x ← scheds s !! i;
  let x' := if Z.eqb (queue_size s (schedule_from x)) 0
            then Scheduler (store_to x) (schedule_from x) (sched_id x) (steal_count x) (failed_steal_count x)
            else x in
  let s' := set_sched s i x' in
  next_loop (S (length (get_queue s' (schedule_from x')) + length aborts)) state aborts
    (schedule_from x') (store_to x') s'.

(** The inner loop of [fiber_scheduler_load_balance] on one victim.  Returns
    what is left of [max_steal], the local count and the input. *)
Fixpoint steal_loop (fuel : nat) (aborts : list bool) (i remote : nat)
    (remote_count local_count max_steal : Z) (s : schedulers)
    : option (schedulers * Z * Z * list bool) :=
  match fuel with
  | O => None
  | S fuel =>
      if Z.ltb local_count remote_count && Z.ltb 0 max_steal then
        x ← scheds s !! i;
        match get_queue s remote, aborts with
        | [], _ | _, true :: _ =>           (* WSD_EMPTY or WSD_ABORT *)
            Some (set_sched s i (Scheduler (schedule_from x) (store_to x) (sched_id x) (steal_count x)
                                   (u64 (failed_steal_count x + 1))), local_count, max_steal, tail aborts)
        | stolen :: _, _ =>
            r' ← deque_spec (DSteal stolen) (get_queue s remote);
            let s' := set_queue s remote r' in
            l' ← deque_spec (DPush stolen) (get_queue s' (schedule_from x));
            let s'' := set_queue s' (schedule_from x) l' in
            steal_loop fuel (tail aborts) i remote (remote_count - 1) (local_count + 1) (max_steal - 1)
              (set_sched s'' i (Scheduler (schedule_from x) (store_to x) (sched_id x)
                                  (u64 (steal_count x + 1)) (failed_steal_count x)))
        end
      else Some (s, local_count, max_steal, aborts)
  end.

(** The loop over the other threads' queues, [n] of them from index [k]. *)
Fixpoint balance_loop (n : nat) (aborts : list bool) (i k : nat) (local_count max_steal : Z)
    (s : schedulers) : option schedulers :=
  match n with
  | O => Some s
  | S n =>
      x ← scheds s !! i;
      let index := (k mod (2 * length (scheds s)))%nat in
      if decide (index = 2 * sched_id x \/ index = 2 * sched_id x + 1)%nat then None   (* the assertions *)
      else
        r ← steal_loop (S (Z.to_nat max_steal)) aborts i index (queue_size s index) local_count max_steal s;
        let '(s', local_count, max_steal, aborts) := r in
        balance_loop n aborts i (S k) local_count max_steal s'
  end.

Definition fiber_scheduler_load_balance (aborts : list bool) (s : schedulers) (i : nat) : option schedulers :=
  x ← scheds s !! i;
  balance_loop (2 * (length (scheds s) - 1)) aborts i (2 * (sched_id x + 1))
    (queue_size s (schedule_from x)) 50 s.

(** [fiber_scheduler_stats] adds to the caller's totals. *)
Definition fiber_scheduler_stats (s : schedulers) (i : nat) (totals : Z * Z) : option (Z * Z) :=
  x ← scheds s !! i;
  Some (u64 (totals.1 + steal_count x), u64 (totals.2 + failed_steal_count x)).

(** ** Invariant *)

(** All fibers in all queues. *)
Definition all_fibers (s : schedulers) : list Z := concat (queues s).

Record sched_inv (s : schedulers) : Prop := {
  si_queues : length (queues s) = (2 * length (scheds s))%nat;
  si_sched : forall i x, scheds s !! i = Some x ->
    sched_id x = i /\ ((schedule_from x = 2 * i /\ store_to x = 2 * i + 1) \/
                       (schedule_from x = 2 * i + 1 /\ store_to x = 2 * i))%nat
}.

Lemma sched_init_inv n : sched_inv (fiber_scheduler_init n).
Proof.
  split; simpl.
  - by rewrite length_replicate, length_fmap, length_seq.
  - intros i x Hi. apply list_lookup_fmap_Some in Hi as (j & -> & [-> _]%lookup_seq). simpl. auto.
Qed.

Lemma set_queue_inv s k q : sched_inv s -> sched_inv (set_queue s k q).
Proof. intros [H1 H2]. split; simpl; [by rewrite length_insert|done]. Qed.

Lemma set_sched_inv s i x x' : sched_inv s -> scheds s !! i = Some x ->
  sched_id x' = sched_id x ->
  (schedule_from x' = schedule_from x /\ store_to x' = store_to x) \/
  (schedule_from x' = store_to x /\ store_to x' = schedule_from x) ->
  sched_inv (set_sched s i x').
Proof.
  intros [H1 H2] Hi Hid Hor. split; simpl; [by rewrite length_insert|].
  intros j y [[-> ->]|[Hne Hj]]%lookup_insert_cases; [|by apply H2].
  destruct (H2 _ _ Hi) as [? ?]. split; [congruence|].
  destruct Hor as [[-> ->]|[-> ->]]; naive_solver.
Qed.

(** Replacing one queue changes the fibers by that queue's change. *)
Lemma all_fibers_set s k q : (k < length (queues s))%nat ->
  get_queue s k ++ all_fibers (set_queue s k q) ≡ₚ q ++ all_fibers s.
Proof.
  intros Hk. unfold all_fibers, get_queue. simpl.
  destruct (lookup_lt_is_Some_2 _ _ Hk) as [q0 Hq]. rewrite Hq. simpl.
  destruct (insert_split _ _ _ Hq) as (rest & Hr & Hi).
  rewrite (Hi q), Hr. simpl. rewrite !app_assoc. apply Permutation_app_tail, Permutation_app_comm.
Qed.

Lemma get_set_same s k q : (k < length (queues s))%nat -> get_queue (set_queue s k q) k = q.
Proof. intros Hk. unfold get_queue. simpl. by rewrite list_lookup_insert_eq. Qed.

Lemma get_set_other s k j q : k <> j -> get_queue (set_queue s k q) j = get_queue s j.
Proof. intros Hne. unfold get_queue. simpl. by rewrite list_lookup_insert_ne. Qed.

(** ** [fiber_scheduler_next] *)

Definition saving (state : Z -> Z) (f : Z) : Prop := state f = FIBER_STATE_SAVING_STATE_TO_WAIT.

(** What the loop computes: the newest fiber that is not still saving its
    state; the newer ones go to [to], newest first. *)
Lemma next_loop_spec state from to : from <> to -> forall fuel aborts s,
  (from < length (queues s))%nat -> (to < length (queues s))%nat ->
  (length (get_queue s from) + length aborts < fuel)%nat ->
  exists s' r, next_loop fuel state aborts from to s = Some (s', r) /\ scheds s' = scheds s /\
    length (queues s') = length (queues s) /\
    (forall k, k <> from -> k <> to -> get_queue s' k = get_queue s k) /\
    match r with
    | None => get_queue s' from = [] /\ Forall (saving state) (get_queue s from) /\
        get_queue s' to = get_queue s to ++ reverse (get_queue s from)
    | Some f => exists pre post, get_queue s from = pre ++ f :: post /\ ~ saving state f /\
        Forall (saving state) post /\ get_queue s' from = pre /\
        get_queue s' to = get_queue s to ++ reverse post
    end.
Proof.
  intros Hne. induction fuel as [|fuel IH]; intros aborts s Hf Ht Hfuel; [lia|]. cbn [next_loop].
  destruct (get_queue s from) as [|x q _] eqn:Eq using rev_ind.
  { exists s, None. split_and!; try done. by rewrite app_nil_r. }
  rewrite last_snoc. rewrite length_app in Hfuel. simpl in Hfuel.
  assert (forall ab', (length ab' <= length aborts)%nat -> exists s' r,
    (q' ← deque_spec (DPop x) (q ++ [x]);
     if Z.eqb (state x) FIBER_STATE_SAVING_STATE_TO_WAIT
     then t' ← deque_spec (DPush x) (get_queue (set_queue s from q') to);
          next_loop fuel state ab' from to (set_queue (set_queue s from q') to t')
     else Some (set_queue s from q', Some x)) = Some (s', r) /\ scheds s' = scheds s /\
    length (queues s') = length (queues s) /\
    (forall k, k <> from -> k <> to -> get_queue s' k = get_queue s k) /\
    match r with
    | None => get_queue s' from = [] /\ Forall (saving state) (q ++ [x]) /\
        get_queue s' to = get_queue s to ++ reverse (q ++ [x])
    | Some f => exists pre post, q ++ [x] = pre ++ f :: post /\ ~ saving state f /\
        Forall (saving state) post /\ get_queue s' from = pre /\
        get_queue s' to = get_queue s to ++ reverse post
    end) as Hpop.
  { intros ab' Hab. simpl. rewrite last_snoc, decide_True by done. simpl. rewrite removelast_last.
    destruct (Z.eqb_spec (state x) FIBER_STATE_SAVING_STATE_TO_WAIT) as [Hs|Hs].
    - set (s1 := set_queue _ to _).
      assert (get_queue s1 from = q) as E1.
      { unfold s1. rewrite get_set_other by done. by rewrite get_set_same. }
      assert (get_queue s1 to = get_queue s to ++ [x]) as E2.
      { unfold s1. rewrite get_set_same by (simpl; by rewrite length_insert). by rewrite get_set_other. }
      destruct (IH ab' s1) as (s' & r & -> & Hsc & Hln & Hoth & Hr).
      { unfold s1. simpl. by rewrite !length_insert. }
      { unfold s1. simpl. by rewrite !length_insert. }
      { rewrite E1. lia. }
      exists s', r. split; [done|]. split; [done|].
      split; [rewrite Hln; unfold s1; simpl; by rewrite !length_insert|].
      split. { intros k K1 K2. rewrite Hoth by done. unfold s1. by rewrite !get_set_other. }
      rewrite E1, E2 in Hr. destruct r as [f|].
      + destruct Hr as (pre & post & -> & Hnf & Hp & Hg & Hto). exists pre, (post ++ [x]).
        split_and!; try done.
        * by rewrite <- app_assoc.
        * apply Forall_app. split; [done|]. by constructor.
        * rewrite Hto, reverse_snoc, <- app_assoc. done.
      + destruct Hr as (Hg & Hp & Hto). split_and!; try done.
        * apply Forall_app. split; [done|]. by constructor.
        * rewrite Hto, reverse_snoc, <- app_assoc. done.
    - exists (set_queue s from q), (Some x). split_and!; try done.
      + simpl. by rewrite length_insert.
      + intros k K1 K2. by rewrite get_set_other.
      + exists q, []. split_and!; try done.
        * by rewrite get_set_same.
        * rewrite app_nil_r. by rewrite get_set_other. }
  destruct aborts as [|[] aborts].
  - apply (Hpop []). simpl. lia.
  - destruct (IH aborts s Hf Ht) as (s' & r & E & H); [rewrite Eq, length_app; simpl in *; lia|].
    exists s', r. rewrite E. by rewrite Eq in H.
  - apply (Hpop aborts). simpl. lia.
Qed.

(** ** [fiber_scheduler_load_balance] *)

(** The scheduler's own fields except its statistics. *)
Definition same_sched (x x' : scheduler) : Prop :=
  schedule_from x' = schedule_from x /\ store_to x' = store_to x /\ sched_id x' = sched_id x.

Lemma u64_add a b : u64 (u64 a + b) = u64 (a + b).
Proof. unfold u64. by rewrite Zplus_mod_idemp_l. Qed.

(** The outcome of stealing the fibers [stolen] from queue [remote] or, in the
    outer loop, from several queues. *)
Record stole (s s' : schedulers) (i : nat) (x : scheduler) (own : nat) (stolen : list Z) : Prop := {
  st_len : length (queues s') = length (queues s);
  st_sched : exists x', scheds s' = <[i:=x']> (scheds s) /\ same_sched x x' /\
    u64 (steal_count x') = u64 (steal_count x + Z.of_nat (length stolen));
  st_own : get_queue s' own = get_queue s own ++ stolen;
  st_other : forall k, k <> own -> exists pre, get_queue s k = pre ++ get_queue s' k;
  st_fibers : all_fibers s' ≡ₚ all_fibers s
}.

Lemma stole_none s i x own : scheds s !! i = Some x -> stole s s i x own [].
Proof.
  intros Hi. split; try done.
  - exists x. rewrite list_insert_id by done. split; [done|]. split; [done|]. f_equal. simpl. lia.
  - by rewrite app_nil_r.
  - intros k _. by exists [].
Qed.

Lemma stole_app s s1 s2 i x x1 own l1 l2 : stole s s1 i x own l1 -> same_sched x x1 ->
  scheds s !! i = Some x -> scheds s1 !! i = Some x1 ->
  stole s1 s2 i x1 own l2 -> stole s s2 i x own (l1 ++ l2).
Proof.
  intros [A1 (x1' & A2 & A3 & A4) A5 A6 A7] Hs Hi Hi1 [B1 (x2 & B2 & B3 & B4) B5 B6 B7].
  rewrite A2, list_lookup_insert_eq in Hi1 by (by eapply lookup_lt_Some). injection Hi1 as ->.
  split.
  - congruence.
  - exists x2. rewrite B2, A2, list_insert_insert_eq. split; [done|]. split.
    + unfold same_sched in *. naive_solver congruence.
    + rewrite B4, length_app, <- u64_add, A4, u64_add. f_equal. lia.
  - by rewrite B5, A5, app_assoc.
  - intros k Hk. destruct (A6 k Hk) as [p1 ->], (B6 k Hk) as [p2 ->]. exists (p1 ++ p2). by rewrite app_assoc.
  - by rewrite B7.
Qed.

(** One successful steal. *)
Lemma stole_one s i x remote f r : scheds s !! i = Some x -> remote <> schedule_from x ->
  (remote < length (queues s))%nat -> (schedule_from x < length (queues s))%nat ->
  get_queue s remote = f :: r ->
  let s1 := set_queue s remote r in
  let s2 := set_queue s1 (schedule_from x) (get_queue s1 (schedule_from x) ++ [f]) in
  let x' := Scheduler (schedule_from x) (store_to x) (sched_id x) (u64 (steal_count x + 1)) (failed_steal_count x) in
  stole s (set_sched s2 i x') i x (schedule_from x) [f] /\
  get_queue (set_sched s2 i x') remote = r.
Proof.
  intros Hi Hne Hr Hf Hq s1 s2 x'.
  assert (length (queues s1) = length (queues s)) as L1 by (unfold s1; simpl; by rewrite length_insert).
  assert (get_queue s1 (schedule_from x) = get_queue s (schedule_from x)) as E1 by (unfold s1; by rewrite get_set_other).
  assert (forall k, get_queue (set_sched s2 i x') k = get_queue s2 k) as Eq by done.
  split; [split|].
  - unfold s2. simpl. by rewrite !length_insert.
  - exists x'. split; [done|]. split; [done|]. simpl. unfold u64. by rewrite Zmod_mod.
  - rewrite Eq. unfold s2. rewrite get_set_same by lia. by rewrite E1.
  - intros k Hk. rewrite Eq. unfold s2. rewrite get_set_other by done. destruct (decide (k = remote)) as [->|Hkr].
    + exists [f]. unfold s1. by rewrite get_set_same.
    + exists []. unfold s1. by rewrite get_set_other.
  - unfold all_fibers. simpl. fold (all_fibers s1). fold (all_fibers s).
    pose proof (all_fibers_set s remote r Hr) as P1. rewrite Hq in P1. fold s1 in P1.
    pose proof (all_fibers_set s1 (schedule_from x) (get_queue s1 (schedule_from x) ++ [f]) ltac:(lia)) as P2.
    fold s2 in P2. rewrite <- app_assoc in P2. apply Permutation_app_inv_l in P2.
    unfold all_fibers in *. simpl in *. rewrite P2. 
    apply (Permutation_app_inv_l r). rewrite <- Permutation_middle. exact P1.
  - rewrite Eq. unfold s2. rewrite get_set_other by done. unfold s1. by rewrite get_set_same.
Qed.

Lemma steal_loop_spec i remote : forall fuel aborts rc lc ms s x,
  scheds s !! i = Some x -> remote <> schedule_from x ->
  (remote < length (queues s))%nat -> (schedule_from x < length (queues s))%nat ->
  0 <= ms -> ms < Z.of_nat fuel ->
  exists s' ab' stolen, steal_loop fuel aborts i remote rc lc ms s =
      Some (s', lc + Z.of_nat (length stolen), ms - Z.of_nat (length stolen), ab') /\
    Z.of_nat (length stolen) <= ms /\ stole s s' i x (schedule_from x) stolen.
Proof.
  induction fuel as [|fuel IH]; intros aborts rc lc ms s x Hi Hne Hr Hf Hms Hfuel; [lia|].
  cbn [steal_loop]. destruct (Z.ltb lc rc && Z.ltb 0 ms) eqn:Econd.
  2: { exists s, aborts, []. simpl. rewrite Z.add_0_r, Z.sub_0_r. split_and!; try done. by apply stole_none. }
  apply andb_prop in Econd as [_ Hpos%Z.ltb_lt]. rewrite Hi. simpl.
  assert (forall ab' : list bool, exists s' ab'' stolen,
    Some (set_sched s i (Scheduler (schedule_from x) (store_to x) (sched_id x) (steal_count x)
      (u64 (failed_steal_count x + 1))), lc, ms, ab') =
      Some (s', lc + Z.of_nat (length stolen), ms - Z.of_nat (length stolen), ab'') /\
    Z.of_nat (length stolen) <= ms /\ stole s s' i x (schedule_from x) stolen) as Hfail.
  { intros ab'. eexists _, ab', []. simpl. rewrite Z.add_0_r, Z.sub_0_r. split_and!; try done.
    split; try done.
    - eexists. split; [reflexivity|]. split; [done|]. f_equal. simpl. lia.
    - by rewrite app_nil_r.
    - intros k _. by exists []. }
  assert (forall f r ab', get_queue s remote = f :: r -> exists s' ab'' stolen,
    (r' ← deque_spec (DSteal f) (get_queue s remote);
     l' ← deque_spec (DPush f) (get_queue (set_queue s remote r') (schedule_from x));
     steal_loop fuel ab' i remote (rc - 1) (lc + 1) (ms - 1)
       (set_sched (set_queue (set_queue s remote r') (schedule_from x) l') i
          (Scheduler (schedule_from x) (store_to x) (sched_id x) (u64 (steal_count x + 1)) (failed_steal_count x)))) =
      Some (s', lc + Z.of_nat (length stolen), ms - Z.of_nat (length stolen), ab'') /\
    Z.of_nat (length stolen) <= ms /\ stole s s' i x (schedule_from x) stolen) as Hgo.
  { intros f r ab' Eq. rewrite Eq. simpl. rewrite decide_True by done. simpl.
    destruct (stole_one s i x remote f r Hi Hne Hr Hf Eq) as [Hone _].
    clear Hfail. set (x2 := Scheduler _ _ _ (u64 _) _) in *. set (s2 := set_sched _ i x2) in *.
    assert (scheds s2 !! i = Some x2) as Hi2 by (apply list_lookup_insert_eq; by eapply lookup_lt_Some).
    destruct (IH ab' (rc - 1) (lc + 1) (ms - 1) s2 x2) as (s' & ab'' & stolen & E & Hle & Hst); try done; try lia.
    1, 2: by rewrite (st_len _ _ _ _ _ _ Hone).
    exists s', ab'', (f :: stolen). rewrite E. split; [|split].
    - rewrite length_cons.
      replace (lc + 1 + Z.of_nat (length stolen)) with (lc + Z.of_nat (S (length stolen))) by lia.
      by replace (ms - 1 - Z.of_nat (length stolen)) with (ms - Z.of_nat (S (length stolen))) by lia.
    - simpl. lia.
    - apply (stole_app s s2 s' i x x2 _ [f] stolen); done. }
  destruct (get_queue s remote) as [|f r] eqn:Eq; [apply Hfail|].
  destruct aborts as [|[] aborts]; [by apply (Hgo f r)|apply Hfail|by apply (Hgo f r)].
Qed.

(** The victims are never the scheduler's own queues. *)
Lemma victim_not_own i m N : (i < N)%nat -> (2 * i + 2 <= m < 2 * i + 2 * N)%nat ->
  (m mod (2 * N) <> 2 * i /\ m mod (2 * N) <> 2 * i + 1 /\ m mod (2 * N) < 2 * N)%nat.
Proof.
  intros Hi Hm. pose proof (Nat.div_mod m (2 * N) ltac:(lia)) as E.
  pose proof (Nat.mod_upper_bound m (2 * N) ltac:(lia)) as Hb.
  assert (m / (2 * N) = 0 \/ m / (2 * N) = 1)%nat as [Hd|Hd]; [|rewrite Hd in E; lia..].
  assert (m / (2 * N) < 2)%nat; [|lia]. apply Nat.Div0.div_lt_upper_bound. lia.
Qed.

Lemma stole_inv s s' i x own l : sched_inv s -> scheds s !! i = Some x -> stole s s' i x own l -> sched_inv s'.
Proof.
  intros [H1 H2] Hi [A1 (x' & A2 & A3 & _) _ _ _]. split.
  - by rewrite A1, H1, A2, length_insert.
  - intros j y. rewrite A2. intros [[-> ->]|[_ Hj]]%lookup_insert_cases; [|by apply H2].
    destruct A3 as (-> & -> & ->). by apply H2.
Qed.

Lemma balance_loop_spec i : forall n aborts k lc ms s x,
  sched_inv s -> scheds s !! i = Some x ->
  (2 * i + 2 <= k)%nat -> (k + n <= 2 * i + 2 * length (scheds s))%nat -> 0 <= ms ->
  exists s' stolen, balance_loop n aborts i k lc ms s = Some s' /\
    Z.of_nat (length stolen) <= ms /\ stole s s' i x (schedule_from x) stolen.
Proof.
  induction n as [|n IH]; intros aborts k lc ms s x HI Hi Hk Hn Hms.
  - exists s, []. split_and!; [done|simpl; lia|by apply stole_none].
  - cbn [balance_loop]. rewrite Hi. cbn [mbind option_bind].
    pose proof HI as [Hql Hsc]. destruct (Hsc _ _ Hi) as [Hid Hft]. rewrite Hid.
    pose proof (lookup_lt_Some _ _ _ Hi) as Hlt.
    destruct (victim_not_own i k (length (scheds s)) Hlt) as (V1 & V2 & V3); [lia|].
    rewrite decide_False by lia.
    destruct (steal_loop_spec i (k mod (2 * length (scheds s))) (S (Z.to_nat ms)) aborts
      (queue_size s (k mod (2 * length (scheds s)))) lc ms s x) as (s1 & ab & st1 & E & Hle & Hst); try done; try lia.
    rewrite E. cbn [mbind option_bind].
    pose proof (st_sched _ _ _ _ _ _ Hst) as (x1 & Hs1 & Hsame & _).
    assert (scheds s1 !! i = Some x1) as Hi1 by (rewrite Hs1; by apply list_lookup_insert_eq).
    destruct (IH ab (S k) (lc + Z.of_nat (length st1)) (ms - Z.of_nat (length st1)) s1 x1) as (s2 & st2 & E2 & Hle2 & Hst2).
    { by eapply stole_inv. }
    { done. }
    { lia. }
    { rewrite Hs1, length_insert. lia. }
    { lia. }
    exists s2, (st1 ++ st2). rewrite E2. split_and!; [done|rewrite length_app; lia|].
    assert (schedule_from x1 = schedule_from x) as Hf by apply Hsame. rewrite Hf in Hst2.
    by eapply stole_app.
Qed.

(** A change of two queues, seen on all fibers. *)
Lemma moved_fibers s s' from to m1 m2 : from <> to ->
  (from < length (queues s))%nat -> (to < length (queues s))%nat -> length (queues s') = length (queues s) ->
  (forall k, k <> from -> k <> to -> get_queue s' k = get_queue s k) ->
  get_queue s' from = m1 -> get_queue s' to = get_queue s to ++ m2 ->
  m1 ++ m2 ++ all_fibers s ≡ₚ get_queue s from ++ all_fibers s'.
Proof.
  intros Hne Hf Ht Hl Hoth E1 E2.
  assert (queues s' = <[to:=get_queue s to ++ m2]> (<[from:=m1]> (queues s))) as Eq.
  { apply list_eq_same_length with (length (queues s)); [by rewrite !length_insert|exact Hl|].
    intros k a b Hk Ha Hb.
    assert (get_queue s' k = a) as <- by (unfold get_queue; by rewrite Ha).
    destruct (decide (k = to)) as [->|K1].
    { rewrite list_lookup_insert_eq in Hb by (by rewrite length_insert). congruence. }
    rewrite list_lookup_insert_ne in Hb by done. destruct (decide (k = from)) as [->|K2].
    { rewrite list_lookup_insert_eq in Hb by done. congruence. }
    rewrite list_lookup_insert_ne in Hb by done. rewrite Hoth by done. unfold get_queue. by rewrite Hb. }
  set (s1 := set_queue s from m1). pose proof (all_fibers_set s from m1 Hf) as P1. fold s1 in P1.
  assert (to < length (queues s1))%nat as Ht1 by (unfold s1; simpl; by rewrite length_insert).
  pose proof (all_fibers_set s1 to (get_queue s to ++ m2) Ht1) as P2.
  assert (get_queue s1 to = get_queue s to) as Eg by (unfold s1; by rewrite get_set_other).
  rewrite Eg, <- app_assoc in P2. apply Permutation_app_inv_l in P2.
  assert (all_fibers s' = all_fibers (set_queue s1 to (get_queue s to ++ m2))) as ->
    by (unfold all_fibers; by rewrite Eq).
  rewrite P2. rewrite (Permutation_app_comm m2), app_assoc, <- P1. rewrite <- !app_assoc.
  apply Permutation_app_head. apply Permutation_app_comm.
Qed.

(** ** Properties *)

Lemma scheduler_next_spec state aborts s i x :
  sched_inv s -> scheds s !! i = Some x ->
  exists s' r, fiber_scheduler_next state aborts s i = Some (s', r) /\ sched_inv s' /\ is_Some (scheds s' !! i) /\
    all_fibers s ≡ₚ option_list r ++ all_fibers s' /\
    (forall k, k <> (2 * i)%nat -> k <> (2 * i + 1)%nat -> get_queue s' k = get_queue s k) /\
    let q := if decide (get_queue s (schedule_from x) = []) then get_queue s (store_to x)
             else get_queue s (schedule_from x) in
    match r with
    | Some f => ~ saving state f /\ exists pre post, q = pre ++ f :: post /\ Forall (saving state) post
    | None => Forall (saving state) q
    end.
Proof.
  intros HI Hi. pose proof HI as [Hql Hsc]. destruct (Hsc _ _ Hi) as [Hid Hft].
  pose proof (lookup_lt_Some _ _ _ Hi) as Hlt. unfold fiber_scheduler_next. rewrite Hi. cbn [mbind option_bind].
  set (x' := if Z.eqb _ 0 then _ else _). set (s0 := set_sched s i x').
  assert (sched_inv s0) as HI0.
  { eapply set_sched_inv; [done|exact Hi|..]; unfold x'; case_match; simpl; auto. }
  assert (schedule_from x' <> store_to x' /\ (schedule_from x' < length (queues s))%nat /\
    (store_to x' < length (queues s))%nat /\ (schedule_from x' = 2 * i \/ schedule_from x' = 2 * i + 1)%nat /\
    (store_to x' = 2 * i \/ store_to x' = 2 * i + 1)%nat) as (Hne & Hf & Ht & Hf2 & Ht2).
  { unfold x'. case_match; simpl; lia. }
  assert (forall k, get_queue s0 k = get_queue s k) as Hg0 by done.
  destruct (next_loop_spec state _ _ Hne (S (length (get_queue s0 (schedule_from x')) + length aborts)) aborts s0)
    as (s' & r & E & Hs' & Hl' & Hoth & Hr); try done; try lia.
  exists s', r. split; [exact E|].
  assert (queue_size s (schedule_from x) = 0 <-> get_queue s (schedule_from x) = []) as Hz.
  { unfold queue_size. destruct (get_queue s (schedule_from x)); naive_solver lia. }
  assert ((if decide (get_queue s (schedule_from x) = []) then get_queue s (store_to x)
    else get_queue s (schedule_from x)) = get_queue s (schedule_from x')) as Hq.
  { unfold x'. destruct (Z.eqb_spec (queue_size s (schedule_from x)) 0); case_decide; simpl; naive_solver. }
  split. { destruct HI0 as [A1 A2]. split; rewrite Hs'; [by rewrite Hl'|done]. }
  split. { rewrite Hs'. unfold s0. simpl. rewrite list_lookup_insert_eq by done. by eexists. }
  rewrite Hq. rewrite !Hg0 in Hr.
  assert (forall m1 m2 : list Z, get_queue s' (schedule_from x') = m1 -> get_queue s' (store_to x') = get_queue s (store_to x') ++ m2 ->
    m1 ++ m2 ++ all_fibers s ≡ₚ get_queue s (schedule_from x') ++ all_fibers s') as Hcount.
  { intros m1 m2 E1 E2. by apply (moved_fibers s s' _ (store_to x')). }
  split.
  { destruct r as [f|]; simpl.
    - destruct Hr as (pre & post & Hq0 & _ & _ & H1 & H2). specialize (Hcount _ _ H1 H2).
      rewrite Hq0, reverse_Permutation in Hcount. rewrite <- app_assoc in Hcount.
      apply Permutation_app_inv_l in Hcount. simpl in Hcount. rewrite Permutation_middle in Hcount.
      by apply Permutation_app_inv_l in Hcount.
    - destruct Hr as (H1 & _ & H2). specialize (Hcount _ _ H1 H2). rewrite reverse_Permutation in Hcount. simpl in Hcount.
      by apply Permutation_app_inv_l in Hcount. }
  split. { intros k K1 K2. rewrite Hoth; [done|lia|lia]. }
  destruct r as [f|]; [|apply Hr]. destruct Hr as (pre & post & Hq0 & Hns & Hp & _). split; [done|]. by exists pre, post.
Qed.

(** Picking the next fiber.  Whatever the failures of the deque's
    compare-and-swap, [fiber_scheduler_next] terminates; it takes exactly the
    returned fiber out of the scheduler's queues and touches no other thread's
    queue.  It looks at the current queue, or at the stored one when the current
    one is empty, and returns the newest fiber there that is not still saving its
    state; it returns none only if all of them are. *)
Theorem scheduler_next_picks state aborts s i x :
  sched_inv s -> scheds s !! i = Some x ->
  exists s' r, fiber_scheduler_next state aborts s i = Some (s', r) /\ sched_inv s' /\
    all_fibers s ≡ₚ option_list r ++ all_fibers s' /\
    (forall k, k <> (2 * i)%nat -> k <> (2 * i + 1)%nat -> get_queue s' k = get_queue s k) /\
    let q := if decide (get_queue s (schedule_from x) = []) then get_queue s (store_to x)
             else get_queue s (schedule_from x) in
    match r with
    | Some f => ~ saving state f /\ exists pre post, q = pre ++ f :: post /\ Forall (saving state) post
    | None => Forall (saving state) q
    end.
Proof.
  intros HI Hi. destruct (scheduler_next_spec state aborts s i x HI Hi) as (s' & r & H1 & H2 & _ & H3). by exists s', r.
Qed.

(** Two kernel threads; the first one's queue holds fibers 8, 16 and 24, and 24
    is still saving its state. *)
Definition sched_demo : schedulers :=
  Schedulers [[8; 16; 24]; []; []; []] [fiber_scheduler_wsd_init 0; fiber_scheduler_wsd_init 1].

Definition demo_state (f : Z) : Z := if Z.eqb f 24 then FIBER_STATE_SAVING_STATE_TO_WAIT else FIBER_STATE_READY.

Lemma sched_demo_inv : sched_inv sched_demo.
Proof.
  split; [done|]. intros i x Hi.
  destruct i as [|[|i]]; simpl in Hi; [| |done]; injection Hi as <-; simpl; auto.
Qed.

Lemma scheduler_next_picks_witness :
  exists s' r, fiber_scheduler_next demo_state [true] sched_demo 0 = Some (s', r) /\ sched_inv s' /\
    all_fibers sched_demo ≡ₚ option_list r ++ all_fibers s' /\
    (forall k, k <> 0%nat -> k <> 1%nat -> get_queue s' k = get_queue sched_demo k) /\
    match r with
    | Some f => ~ saving demo_state f /\
        exists pre post, [8; 16; 24] = pre ++ f :: post /\ Forall (saving demo_state) post
    | None => Forall (saving demo_state) [8; 16; 24]
    end.
Proof.
  apply (scheduler_next_picks demo_state [true] sched_demo 0 (fiber_scheduler_wsd_init 0)).
  - exact sched_demo_inv.
  - reflexivity.
Defined.

(** Load balancing.  Whatever the failed steals, the balancer terminates,
    never picks the thread's own queues (its assertions hold), loses and
    duplicates no fiber, moves at most 50 of them to the end of the thread's
    queue, takes only the oldest ones of each victim, and counts what it moved. *)
Theorem load_balance_conserves aborts s i x :
  sched_inv s -> scheds s !! i = Some x ->
  exists s' x' stolen, fiber_scheduler_load_balance aborts s i = Some s' /\ sched_inv s' /\
    all_fibers s' ≡ₚ all_fibers s /\ (length stolen <= 50)%nat /\
    get_queue s' (schedule_from x) = get_queue s (schedule_from x) ++ stolen /\
    (forall k, k <> schedule_from x -> exists taken, get_queue s k = taken ++ get_queue s' k) /\
    scheds s' !! i = Some x' /\
    u64 (steal_count x') = u64 (steal_count x + Z.of_nat (length stolen)).
Proof.
  intros HI Hi. pose proof HI as [_ Hsc]. destruct (Hsc _ _ Hi) as [Hid _].
  pose proof (lookup_lt_Some _ _ _ Hi) as Hlt.
  unfold fiber_scheduler_load_balance. rewrite Hi. cbn [mbind option_bind]. rewrite Hid.
  destruct (balance_loop_spec i (2 * (length (scheds s) - 1)) aborts (2 * (i + 1))
    (queue_size s (schedule_from x)) 50 s x) as (s' & stolen & E & Hle & Hst); try done; try lia.
  pose proof (st_sched _ _ _ _ _ _ Hst) as (x' & Hs' & _ & Hc).
  exists s', x', stolen. split; [exact E|]. split_and!.
  - by eapply stole_inv.
  - apply Hst.
  - lia.
  - apply Hst.
  - apply Hst.
  - rewrite Hs'. by apply list_lookup_insert_eq.
  - done.
Qed.

Lemma load_balance_conserves_witness :
  exists s' x' stolen, fiber_scheduler_load_balance [] sched_demo 1 = Some s' /\ sched_inv s' /\
    all_fibers s' ≡ₚ all_fibers sched_demo /\ (length stolen <= 50)%nat /\
    get_queue s' 2 = get_queue sched_demo 2 ++ stolen /\
    (forall k, k <> 2%nat -> exists taken, get_queue sched_demo k = taken ++ get_queue s' k) /\
    scheds s' !! 1%nat = Some x' /\ u64 (steal_count x') = u64 (0 + Z.of_nat (length stolen)).
Proof.
  apply (load_balance_conserves [] sched_demo 1 (fiber_scheduler_wsd_init 1)).
  - exact sched_demo_inv.
  - reflexivity.
Defined.

(** A scheduled fiber is runnable.  Scheduling a fiber that is not saving its
    state makes it the next one the same thread picks. *)
Theorem schedule_then_next state s i x f :
  sched_inv s -> scheds s !! i = Some x -> ~ saving state f ->
  exists s1 s2, fiber_scheduler_schedule s i f = Some s1 /\
    fiber_scheduler_next state [] s1 i = Some (s2, Some f) /\ all_fibers s2 ≡ₚ all_fibers s.
Proof.
  intros HI Hi Hf. pose proof HI as [Hql Hsc]. destruct (Hsc _ _ Hi) as [Hid Hft].
  pose proof (lookup_lt_Some _ _ _ Hi) as Hlt.
  set (s1 := set_queue s (schedule_from x) (get_queue s (schedule_from x) ++ [f])).
  assert (fiber_scheduler_schedule s i f = Some s1) as E1 by (unfold fiber_scheduler_schedule; by rewrite Hi).
  assert (sched_inv s1) as HI1 by (by apply set_queue_inv).
  assert (scheds s1 !! i = Some x) as Hi1 by done.
  assert (schedule_from x < length (queues s))%nat as Hlf by lia.
  assert (get_queue s1 (schedule_from x) = get_queue s (schedule_from x) ++ [f]) as Hq by (unfold s1; by rewrite get_set_same).
  destruct (next_loop_spec state (schedule_from x) (store_to x) ltac:(lia)
    (S (length (get_queue s1 (schedule_from x)) + length (@nil bool))) [] s1) as (s2 & r & E & Hs & Hl & Hoth & Hr).
  { unfold s1. simpl. rewrite length_insert. lia. }
  { unfold s1. simpl. rewrite length_insert. lia. }
  { simpl. lia. }
  assert (fiber_scheduler_next state [] s1 i = Some (s2, r)) as E2.
  { unfold fiber_scheduler_next. rewrite Hi1. cbn [mbind option_bind].
    assert (queue_size s1 (schedule_from x) <> 0) as Hz by (unfold queue_size; rewrite Hq, length_app; simpl; lia).
    rewrite (proj2 (Z.eqb_neq _ _) Hz). unfold set_sched. rewrite list_insert_id by done.
    replace (Schedulers (queues s1) (scheds s1)) with s1 by done. exact E. }
  rewrite Hq in Hr. destruct r as [g|].
  2: { destruct Hr as (_ & Hall & _). apply Forall_app in Hall as [_ Hall]. by inversion Hall. }
  destruct Hr as (pre & post & Heq & Hg & Hp & G1 & G2).
  destruct post as [|y post _] using rev_ind.
  - apply app_inj_tail in Heq as [Hpre <-]. rewrite <- Hpre in G1. exists s1, s2. split; [done|]. split; [done|].
    pose proof (moved_fibers s1 s2 (schedule_from x) (store_to x) (get_queue s (schedule_from x)) []) as P.
    specialize (P ltac:(lia) ltac:(unfold s1; simpl; rewrite length_insert; lia)
      ltac:(unfold s1; simpl; rewrite length_insert; lia) Hl Hoth G1 G2). simpl in P. rewrite Hq in P. rewrite <- app_assoc in P. apply Permutation_app_inv_l in P.
    pose proof (all_fibers_set s (schedule_from x) (get_queue s (schedule_from x) ++ [f]) Hlf) as P1.
    fold s1 in P1. rewrite <- app_assoc in P1. apply Permutation_app_inv_l in P1. simpl in P, P1.
    rewrite P in P1. by apply (Permutation_app_inv_l [f]) in P1.
  - exfalso. rewrite app_comm_cons, app_assoc in Heq. apply app_inj_tail in Heq as [_ ->].
    apply Forall_app in Hp as [_ Hp]. by inversion Hp.
Qed.

Lemma schedule_then_next_witness :
  exists s1 s2, fiber_scheduler_schedule sched_demo 1 32 = Some s1 /\
    fiber_scheduler_next demo_state [] s1 1 = Some (s2, Some 32) /\ all_fibers s2 ≡ₚ all_fibers sched_demo.
Proof.
  apply (schedule_then_next demo_state sched_demo 1 (fiber_scheduler_wsd_init 1) 32).
  - exact sched_demo_inv.
  - reflexivity.
  - unfold saving. vm_compute. discriminate.
Defined.
