(* ===== verification/Manager.v ===== *)
(** * The fiber manager ([src/fiber_manager.c], [src/schedule_lock.c])

    One manager per kernel thread switches between fibers.  The model is what
    the thread executes: a switch ends with the maintenance that the fiber
    switched to performs on behalf of the one that left its stack
    ([fiber_manager_do_maintenance]), so that whatever makes the old fiber visible
    to other threads happens after its context is saved.  The scheduler is an
    interface ([FiberScheduler]), implemented by [SchedulerWsd]. *)

From S2P Require Import Prelude MpscFifo Wsd SchedulerWsd.

(** ** The scheduler as the manager sees it *)

Class FiberScheduler (S : Type) := {
  fs_ok : S -> Prop;
  fs_fibers : S -> list Z;
  fs_schedule : S -> Z -> option S;
  fs_next : (Z -> Z) -> S -> option (S * option Z);
  fs_balance : S -> option S;
  fs_schedule_ok : forall s f, fs_ok s ->
    exists s', fs_schedule s f = Some s' /\ fs_ok s' /\ fs_fibers s' ≡ₚ f :: fs_fibers s;
  fs_next_ok : forall state s, fs_ok s ->
    exists s' r, fs_next state s = Some (s', r) /\ fs_ok s' /\ fs_fibers s ≡ₚ option_list r ++ fs_fibers s' /\
      (forall f, r = Some f -> state f <> FIBER_STATE_SAVING_STATE_TO_WAIT);
  fs_balance_ok : forall s, fs_ok s ->
    exists s', fs_balance s = Some s' /\ fs_ok s' /\ fs_fibers s' ≡ₚ fs_fibers s
}.

(** Thread [i] of the work-stealing scheduler; [aborts] are the failed
    compare-and-swaps of its deques. *)
#[refine, global] Instance wsd_scheduler (i : nat) (aborts : list bool) : FiberScheduler schedulers := {
  fs_ok s := sched_inv s /\ is_Some (scheds s !! i);
  fs_fibers := all_fibers;
  fs_schedule s f := fiber_scheduler_schedule s i f;
  fs_next state s := fiber_scheduler_next state aborts s i;
  fs_balance s := fiber_scheduler_load_balance aborts s i
}.
Proof.
  - intros s f [HI [x Hi]]. pose proof HI as [Hql Hsc]. destruct (Hsc _ _ Hi) as [Hid Hft].
    pose proof (lookup_lt_Some _ _ _ Hi) as Hlt. unfold fiber_scheduler_schedule. rewrite Hi. cbn [mbind option_bind deque_spec].
    eexists. split; [reflexivity|]. split; [split; [by apply set_queue_inv|by eexists]|].
    pose proof (all_fibers_set s (schedule_from x) (get_queue s (schedule_from x) ++ [f]) ltac:(lia)) as Hp.
    rewrite <- app_assoc in Hp. by apply Permutation_app_inv_l in Hp.
  - intros state s [HI [x Hi]]. destruct (scheduler_next_spec state aborts s i x HI Hi) as (s' & r & H1 & H2 & H3 & H4 & _ & H5).
    exists s', r. split_and!; [done|done|done|done|]. intros f ->. apply H5.
  - intros s [HI [x Hi]]. pose proof HI as [_ Hsc]. destruct (Hsc _ _ Hi) as [Hid _].
    pose proof (lookup_lt_Some _ _ _ Hi) as Hlt.
    unfold fiber_scheduler_load_balance. rewrite Hi. cbn [mbind option_bind]. rewrite Hid.
    destruct (balance_loop_spec i (2 * (length (scheds s) - 1)) aborts (2 * (i + 1))
      (queue_size s (schedule_from x)) 50 s x) as (s' & stolen & E & Hle & Hst); try done; try lia.
    pose proof (st_sched _ _ _ _ _ _ Hst) as (x' & Hs' & _).
    exists s'. split; [exact E|]. split; [|apply Hst]. split; [by eapply stole_inv|].
    rewrite Hs', list_lookup_insert_eq by done. by eexists.
Defined.

Section manager.
Context {S : Type} `{FiberScheduler S}.

(** ** State *)

(** [fiber_manager_t]; a pointer is an address, NULL when unset. *)
Record manager := Manager {
  maintenance_fiber : Z;
  current_fiber : Z;
  old_fiber : Z;
  thread_fiber : Z;
  to_schedule : Z;
  mpmc_to_push : Z * Z;                 (* fifo, node *)
  mpsc_to_push : Z * Z;
  mutex_to_unlock : Z;
  spinlock_to_unlock : Z;
  set_wait_location : Z;
  set_wait_value : Z;
  done_fiber : Z;
  yield_count : Z
}.

(** What the thread did, in order. *)
Inductive mact :=
| ASwap (old new : Z)                   (* fiber_context_swap *)
| ASchedule (f : Z)
| ADestroy (f : Z)
| APushMpmc (fifo node : Z)
| APushMpsc (fifo node : Z)
| AUnlockMutex (m : Z)
| AUnlockSpin (l : Z)
| AStore (location value : Z)
| ABalance.

(** The manager, the fibers' [state] fields, the scheduler, the time until which
    each fiber is banned, and [lock_using] of [src/schedule_lock.c]. *)
Record mstate := MState {
  mgr : manager;
  fst_of : gmap Z Z;
  sched : S;
  banned_until : gmap Z (Z * Z);
  lock_using : Z;
  acts : list mact
}.

Definition state_of (s : mstate) (f : Z) : Z := default 0 (fst_of s !! f).

Definition with_mgr (s : mstate) (m : manager) : mstate :=
  MState m (fst_of s) (sched s) (banned_until s) (lock_using s) (acts s).
Definition with_fstate (s : mstate) (f v : Z) : mstate :=
  MState (mgr s) (<[f:=v]> (fst_of s)) (sched s) (banned_until s) (lock_using s) (acts s).
Definition with_sched (s : mstate) (x : S) : mstate :=
  MState (mgr s) (fst_of s) x (banned_until s) (lock_using s) (acts s).
Definition with_lock (s : mstate) (v : Z) : mstate :=
  MState (mgr s) (fst_of s) (sched s) (banned_until s) v (acts s).
Definition act (s : mstate) (a : mact) : mstate :=
  MState (mgr s) (fst_of s) (sched s) (banned_until s) (lock_using s) (acts s ++ [a]).

(** ** The scheduler lock ([src/schedule_lock.c]) *)

Definition init_scheduler_lock_data (s : mstate) : mstate := with_lock s (-1).
Definition set_lock_status (s : mstate) : mstate := with_lock s 1.
Definition is_lock_using (s : mstate) : Z := lock_using s.

(** ** Maintenance *)

Definition fiber_manager_schedule (s : mstate) (f : Z) : option mstate :=
  x ← fs_schedule (sched s) f; Some (act (with_sched s x) (ASchedule f)).

(** [fiber_manager_do_maintenance]. *)
Definition fiber_manager_do_maintenance (s : mstate) : option mstate :=
  let m := mgr s in
  let s := if Z.eqb (state_of s (old_fiber m)) FIBER_STATE_SAVING_STATE_TO_WAIT
           then with_fstate s (old_fiber m) FIBER_STATE_WAITING else s in
  s ← (if Z.eqb (done_fiber m) NULL then Some s
       else if Z.eqb (state_of s (done_fiber m)) FIBER_STATE_DONE      (* fiber_destroy *)
            then Some (act s (ADestroy (done_fiber m))) else None);
  s ← (if Z.eqb (to_schedule m) NULL then Some s
       else if Z.eqb (state_of s (to_schedule m)) FIBER_STATE_READY
            then fiber_manager_schedule s (to_schedule m) else None);
  let s := if Z.eqb (mpmc_to_push m).1 NULL then s else act s (APushMpmc (mpmc_to_push m).1 (mpmc_to_push m).2) in
  let s := if Z.eqb (mpsc_to_push m).1 NULL then s else act s (APushMpsc (mpsc_to_push m).1 (mpsc_to_push m).2) in
  let s := if Z.eqb (mutex_to_unlock m) NULL then s else act s (AUnlockMutex (mutex_to_unlock m)) in
  let s := if Z.eqb (spinlock_to_unlock m) NULL then s else act s (AUnlockSpin (spinlock_to_unlock m)) in
  let s := if Z.eqb (set_wait_location m) NULL then s else act s (AStore (set_wait_location m) (set_wait_value m)) in
  Some (with_mgr s (Manager (maintenance_fiber m) (current_fiber m) (old_fiber m) (thread_fiber m)
    NULL
    (if Z.eqb (mpmc_to_push m).1 NULL then mpmc_to_push m else (NULL, NULL))
    (if Z.eqb (mpsc_to_push m).1 NULL then mpsc_to_push m else (NULL, NULL))
    NULL NULL NULL
    (if Z.eqb (set_wait_location m) NULL then set_wait_value m else NULL)
    NULL (yield_count m))).

(** ** Switching *)

(** [fiber_manager_switch_to] before the context switch. *)
Definition switch_prepare (s : mstate) (old new : Z) : mstate :=
  let running := Z.eqb (state_of s old) FIBER_STATE_RUNNING in
  let s := if running then with_fstate s old FIBER_STATE_READY else s in
  let m := mgr s in
  let s := with_mgr s (Manager (maintenance_fiber m) new old (thread_fiber m)
    (if running then old else to_schedule m) (mpmc_to_push m) (mpsc_to_push m) (mutex_to_unlock m)
    (spinlock_to_unlock m) (set_wait_location m) (set_wait_value m) (done_fiber m) (yield_count m)) in
  with_fstate s new FIBER_STATE_RUNNING.

Definition fiber_manager_switch_to (s : mstate) (old new : Z) : option mstate :=
  fiber_manager_do_maintenance (act (switch_prepare s old new) (ASwap old new)).

(** What one iteration of the loop of [fiber_manager_yield] did: switched to a
    fiber; switched to the maintenance fiber (the caller goes on looping when it
    runs again); or returned without a switch. *)
Inductive yield_result := YSwitched (new : Z) | YMaintenance | YStayed.

Definition time_lt (a b : Z * Z) : bool := Z.ltb a.1 b.1 || (Z.eqb a.1 b.1 && Z.ltb a.2 b.2).

Definition try_steal (s : mstate) : option mstate :=
  if Z.eqb (Z.land (yield_count (mgr s)) 1023) 0
  then x ← fs_balance (sched s); Some (act (with_sched s x) ABalance) else Some s.

(** [now] is what [gettimeofday] returns, [created] a new maintenance fiber. *)
Definition fiber_manager_yield (now : Z * Z) (created : Z) (s : mstate) : option (mstate * yield_result) :=
  let m := mgr s in
  let s := with_mgr s (Manager (maintenance_fiber m) (current_fiber m) (old_fiber m) (thread_fiber m) (to_schedule m)
    (mpmc_to_push m) (mpsc_to_push m) (mutex_to_unlock m) (spinlock_to_unlock m) (set_wait_location m)
    (set_wait_value m) (done_fiber m) (u64 (yield_count m + 1))) in
  let state := state_of s (current_fiber m) in
  '(x, next) ← fs_next (state_of s) (sched s);
  let s := with_sched s x in
  match next with
  | Some new_fiber =>
      if time_lt (default (0, 0) (banned_until s !! new_fiber)) now && negb (Z.eqb (is_lock_using s) 1) then
        s ← fiber_manager_switch_to (set_lock_status s) (current_fiber m) new_fiber;
        Some (s, YSwitched new_fiber)
      else
        s ← fiber_manager_schedule s (current_fiber m);
        s ← try_steal s;
        Some (s, YStayed)
  | None =>
      if Z.eqb state FIBER_STATE_WAITING || Z.eqb state FIBER_STATE_DONE ||
         Z.eqb state FIBER_STATE_SAVING_STATE_TO_WAIT then
        let target := if Z.eqb (maintenance_fiber m) NULL then created else maintenance_fiber m in
        let m := mgr s in
        let s := with_mgr s (Manager target (current_fiber m) (old_fiber m) (thread_fiber m) (to_schedule m)
          (mpmc_to_push m) (mpsc_to_push m) (mutex_to_unlock m) (spinlock_to_unlock m) (set_wait_location m)
          (set_wait_value m) (done_fiber m) (yield_count m)) in
        s ← fiber_manager_switch_to s (current_fiber m) target;
        Some (s, YMaintenance)
      else s ← try_steal s; Some (s, YStayed)
  end.

(** ** Waiting *)

Definition running_current (s : mstate) : bool :=
  Z.eqb (state_of s (current_fiber (mgr s))) FIBER_STATE_RUNNING.

(** [fiber_manager_wait_in_mpmc_queue], with the node it gets. *)
Definition fiber_manager_wait_in_mpmc_queue (now : Z * Z) (created fifo node : Z) (s : mstate)
    : option (mstate * yield_result) :=
  if running_current s then
    let m := mgr s in
    let s := with_fstate s (current_fiber m) FIBER_STATE_WAITING in
    fiber_manager_yield now created (with_mgr s (Manager (maintenance_fiber m) (current_fiber m) (old_fiber m)
      (thread_fiber m) (to_schedule m) (fifo, node) (mpsc_to_push m) (mutex_to_unlock m) (spinlock_to_unlock m)
      (set_wait_location m) (set_wait_value m) (done_fiber m) (yield_count m)))
  else None.

(** [fiber_manager_set_and_wait]. *)
Definition manager_set_and_wait (now : Z * Z) (created location value : Z) (s : mstate)
    : option (mstate * yield_result) :=
  if running_current s && negb (Z.eqb location NULL) && negb (Z.eqb value NULL) then
    let m := mgr s in
    let s := with_mgr s (Manager (maintenance_fiber m) (current_fiber m) (old_fiber m)
      (thread_fiber m) (to_schedule m) (mpmc_to_push m) (mpsc_to_push m) (mutex_to_unlock m) (spinlock_to_unlock m)
      location value (done_fiber m) (yield_count m)) in
    fiber_manager_yield now created (with_fstate s (current_fiber m) FIBER_STATE_WAITING)
  else None.

(** [fiber_manager_wake_from_mpmc_queue]: [pops] are the results of
    [mpmc_fifo_trypop] ([None]: empty); the waked fibers and the number the loop
    counted. *)
Fixpoint wake_mpmc_loop (pops : list (option Z)) (count wake_count : Z) : option (list Z * Z) :=
  match pops with
  | [] => None
  | p :: pops =>
      let '(woken, count, wake_count) :=
        match p with
        | Some f => ([f], i32 (count - 1), i32 (wake_count + 1))
        | None => ([], count, wake_count)
        end in
      if Z.ltb wake_count count
      then r ← wake_mpmc_loop pops count wake_count; Some (woken ++ r.1, r.2)
      else Some (woken, wake_count)
  end.
Definition fiber_manager_wake_from_mpmc_queue (pops : list (option Z)) (count : Z) : option (list Z * Z) :=
  wake_mpmc_loop pops count 0.

(** [fiber_do_real_sleep]: the calls of [usleep]; one second at a time. *)
Definition fiber_do_real_sleep (seconds useconds : Z) : list Z :=
  replicate (Z.to_nat seconds) 1000000 ++ (if Z.eqb useconds 0 then [] else [useconds]).

(** ** Maintenance *)

Definition unless_null {A} (p : Z) (l : list A) : list A := if Z.eqb p NULL then [] else l.

(** What is pending in a manager, in the order in which it is done. *)
Definition pending_acts (m : manager) : list mact :=
  unless_null (done_fiber m) [ADestroy (done_fiber m)] ++
  unless_null (to_schedule m) [ASchedule (to_schedule m)] ++
  unless_null (mpmc_to_push m).1 [APushMpmc (mpmc_to_push m).1 (mpmc_to_push m).2] ++
  unless_null (mpsc_to_push m).1 [APushMpsc (mpsc_to_push m).1 (mpsc_to_push m).2] ++
  unless_null (mutex_to_unlock m) [AUnlockMutex (mutex_to_unlock m)] ++
  unless_null (spinlock_to_unlock m) [AUnlockSpin (spinlock_to_unlock m)] ++
  unless_null (set_wait_location m) [AStore (set_wait_location m) (set_wait_value m)].

(** The states that [fiber_destroy] and the scheduling assert. *)
Definition pending_ok (s : mstate) : Prop :=
  (done_fiber (mgr s) <> NULL -> state_of s (done_fiber (mgr s)) = FIBER_STATE_DONE) /\
  (to_schedule (mgr s) <> NULL -> state_of s (to_schedule (mgr s)) = FIBER_STATE_READY).

Lemma state_of_fstate s f v g : state_of (with_fstate s f v) g = if decide (f = g) then v else state_of s g.
Proof. unfold state_of. simpl. rewrite lookup_insert. by case_decide. Qed.

(** The state of the fiber that left, after the maintenance. *)
Definition saved_state (st : Z) : Z :=
  if Z.eqb st FIBER_STATE_SAVING_STATE_TO_WAIT then FIBER_STATE_WAITING else st.

Lemma maintenance_spec s : fs_ok (sched s) -> pending_ok s ->
  exists s', fiber_manager_do_maintenance s = Some s' /\
    acts s' = acts s ++ pending_acts (mgr s) /\ pending_acts (mgr s') = [] /\
    current_fiber (mgr s') = current_fiber (mgr s) /\ lock_using s' = lock_using s /\
    fs_ok (sched s') /\ fs_fibers (sched s') ≡ₚ unless_null (to_schedule (mgr s)) [to_schedule (mgr s)] ++ fs_fibers (sched s) /\
    (forall f, state_of s' f = if decide (f = old_fiber (mgr s)) then saved_state (state_of s f) else state_of s f).
Proof.
  intros Hok [Hd Ht]. unfold fiber_manager_do_maintenance.
  set (s1 := if Z.eqb (state_of s (old_fiber (mgr s))) _ then _ else _).
  assert (sched s1 = sched s /\ acts s1 = acts s /\ lock_using s1 = lock_using s /\
    forall f, state_of s1 f = if decide (f = old_fiber (mgr s)) then saved_state (state_of s f) else state_of s f)
    as (A1 & A2 & A3 & A4).
  { unfold s1, saved_state. destruct (Z.eqb_spec (state_of s (old_fiber (mgr s))) FIBER_STATE_SAVING_STATE_TO_WAIT) as [E|E].
    - split_and!; try done. intros f. rewrite state_of_fstate. destruct (decide (f = old_fiber (mgr s))) as [->|].
      + by rewrite decide_True, E.
      + by rewrite decide_False by congruence.
    - split_and!; try done. intros f. case_decide; [subst f; by rewrite (proj2 (Z.eqb_neq _ _) E)|done]. }
  assert (forall f v, v <> FIBER_STATE_SAVING_STATE_TO_WAIT -> v <> FIBER_STATE_WAITING -> state_of s f = v -> state_of s1 f = v) as Hst.
  { intros f v Hv Hv2 Hf. rewrite A4. unfold saved_state. rewrite Hf. case_decide; [|done]. by rewrite (proj2 (Z.eqb_neq _ _) Hv). }
  set (m := mgr s) in *.
  assert (exists s2, (if Z.eqb (done_fiber m) NULL then Some s1
    else if Z.eqb (state_of s1 (done_fiber m)) FIBER_STATE_DONE then Some (act s1 (ADestroy (done_fiber m))) else None) = Some s2 /\
    sched s2 = sched s1 /\ fst_of s2 = fst_of s1 /\ lock_using s2 = lock_using s1 /\
    acts s2 = acts s1 ++ unless_null (done_fiber m) [ADestroy (done_fiber m)]) as (s2 & -> & B1 & B2 & B3 & B4).
  { unfold unless_null. destruct (Z.eqb_spec (done_fiber m) NULL) as [E|E].
    - exists s1. split_and!; try done. by rewrite app_nil_r.
    - rewrite (Hst _ FIBER_STATE_DONE) by (done || by apply Hd). by eexists. }
  cbn [mbind option_bind].
  assert (exists s3, (if Z.eqb (to_schedule m) NULL then Some s2
    else if Z.eqb (state_of s2 (to_schedule m)) FIBER_STATE_READY then fiber_manager_schedule s2 (to_schedule m) else None) = Some s3 /\
    fs_ok (sched s3) /\ fs_fibers (sched s3) ≡ₚ unless_null (to_schedule m) [to_schedule m] ++ fs_fibers (sched s) /\
    fst_of s3 = fst_of s1 /\ lock_using s3 = lock_using s1 /\
    acts s3 = acts s2 ++ unless_null (to_schedule m) [ASchedule (to_schedule m)]) as (s3 & -> & C0 & C1 & C2 & C3 & C4).
  { unfold unless_null. destruct (Z.eqb_spec (to_schedule m) NULL) as [E|E].
    - exists s2. split_and!; try done; [by rewrite B1, A1|by rewrite B1, A1|by rewrite app_nil_r].
    - assert (state_of s2 (to_schedule m) = FIBER_STATE_READY) as ->.
      { unfold state_of. rewrite B2. fold (state_of s1 (to_schedule m)). by apply Hst; [..|by apply Ht]. }
      cbn [Z.eqb]. unfold fiber_manager_schedule. rewrite B1, A1.
      destruct (fs_schedule_ok (sched s) (to_schedule m) Hok) as (x & -> & Hx & Hp). cbn [mbind option_bind].
      eexists. split; [reflexivity|]. simpl. split_and!; try done; congruence. }
  cbn [mbind option_bind]. eexists. split; [reflexivity|]. cbn [acts mgr sched lock_using with_mgr].
  unfold pending_acts, unless_null in *. fold m.
  destruct (Z.eqb_spec (mpmc_to_push m).1 NULL) as [E1|E1], (Z.eqb_spec (mpsc_to_push m).1 NULL) as [E2|E2],
    (Z.eqb_spec (mutex_to_unlock m) NULL), (Z.eqb_spec (spinlock_to_unlock m) NULL), (Z.eqb_spec (set_wait_location m) NULL);
    cbn -[state_of]; rewrite ?E1, ?E2, ?app_nil_r; cbn -[state_of];
    (split; [rewrite C4, B4, A2; by rewrite <- ?app_assoc|]);
    (split; [done|]); (split; [done|]); (split; [congruence|]); (split; [done|]); (split; [done|]);
    intros f; rewrite <- A4; unfold state_of; cbn; by rewrite C2.
Qed.

(** ** Switching *)

(** Between operations nothing is pending but what the current fiber just asked
    for: it is not itself waiting to be scheduled, and a fiber to destroy is done. *)
Record can_switch (s : mstate) (old new : Z) : Prop := {
  cs_ok : fs_ok (sched s);
  cs_old : old <> NULL;
  cs_new : old <> new;
  cs_to_schedule : to_schedule (mgr s) = NULL;
  cs_done : done_fiber (mgr s) <> NULL ->
    state_of s (done_fiber (mgr s)) = FIBER_STATE_DONE /\ done_fiber (mgr s) <> new
}.

Definition was_running (s : mstate) (f : Z) : list Z :=
  if Z.eqb (state_of s f) FIBER_STATE_RUNNING then [f] else [].

(** The state in which a fiber is left by a switch. *)
Definition left_state (st : Z) : Z :=
  if Z.eqb st FIBER_STATE_RUNNING then FIBER_STATE_READY else saved_state st.

Lemma switch_spec s old new : can_switch s old new ->
  exists s', fiber_manager_switch_to s old new = Some s' /\
    acts s' = acts s ++ ASwap old new :: pending_acts (mgr (switch_prepare s old new)) /\
    pending_acts (mgr s') = [] /\ current_fiber (mgr s') = new /\ lock_using s' = lock_using s /\ fs_ok (sched s') /\
    fs_fibers (sched s') ≡ₚ was_running s old ++ fs_fibers (sched s) /\
    state_of s' new = FIBER_STATE_RUNNING /\ state_of s' old = left_state (state_of s old) /\
    (forall f, f <> old -> f <> new -> state_of s' f = state_of s f).
Proof.
  intros [Hok Hold Hne Hts Hdone]. unfold fiber_manager_switch_to.
  set (p := act (switch_prepare s old new) (ASwap old new)).
  assert (forall f, state_of p f = if decide (f = new) then FIBER_STATE_RUNNING
    else if decide (f = old) then (if Z.eqb (state_of s old) FIBER_STATE_RUNNING then FIBER_STATE_READY else state_of s old)
    else state_of s f) as Hst.
  { intros f. change (state_of p f) with (state_of (switch_prepare s old new) f). unfold switch_prepare.
    rewrite state_of_fstate. destruct (decide (f = new)) as [->|Hfn]; [by rewrite decide_True|].
    rewrite decide_False by congruence.
    destruct (Z.eqb (state_of s old) FIBER_STATE_RUNNING) eqn:Er.
    - change (state_of (with_fstate s old FIBER_STATE_READY) f = if decide (f = old) then FIBER_STATE_READY else state_of s f).
      rewrite state_of_fstate. repeat case_decide; congruence.
    - change (state_of s f = if decide (f = old) then state_of s old else state_of s f). case_decide; congruence. }
  assert (sched p = sched s /\ lock_using p = lock_using s /\ mgr p = mgr (switch_prepare s old new) /\
    to_schedule (mgr p) = (if Z.eqb (state_of s old) FIBER_STATE_RUNNING then old else NULL) /\
    done_fiber (mgr p) = done_fiber (mgr s) /\ current_fiber (mgr p) = new /\ old_fiber (mgr p) = old /\
    acts p = acts s ++ [ASwap old new]) as (P1 & P2 & P3 & P4 & P5 & P6 & P7 & P8).
  { unfold p, switch_prepare. destruct (Z.eqb (state_of s old) FIBER_STATE_RUNNING); cbn; split_and!; done. }
  destruct (maintenance_spec p) as (s' & E & M1 & M2 & M3 & M4 & M5 & M6 & M7).
  { by rewrite P1. }
  { split.
    - rewrite P5. intros Hd. destruct (Hdone Hd) as [Hds Hdn]. rewrite Hst, decide_False by done.
      case_decide as Hdo; [|done]. rewrite <- Hdo, Hds. done.
    - rewrite P4. destruct (Z.eqb_spec (state_of s old) FIBER_STATE_RUNNING) as [Er|Er]; [|done].
      intros _. by rewrite Hst, decide_False, decide_True by done. }
  exists s'. split; [exact E|].
  split; [rewrite M1, P8, P3; by rewrite <- app_assoc|]. split; [exact M2|]. split; [by rewrite M3|].
  split; [congruence|]. split; [exact M5|]. split; [|split; [|split]].
  - rewrite M6, P4, P1. unfold was_running, unless_null.
    destruct (Z.eqb (state_of s old) FIBER_STATE_RUNNING); [by rewrite (proj2 (Z.eqb_neq _ _) Hold)|done].
  - rewrite M7, P7, decide_False by done. by rewrite Hst, decide_True.
  - rewrite M7, P7, decide_True by done. rewrite Hst, decide_False, decide_True by done. unfold left_state.
    by destruct (Z.eqb (state_of s old) FIBER_STATE_RUNNING).
  - intros f Hf1 Hf2. rewrite M7, P7, decide_False by done. by rewrite Hst, !decide_False.
Qed.

(** What [fiber_manager_yield] requires of the state it is called in. *)
Record can_yield (s : mstate) : Prop := {
  cy_ok : fs_ok (sched s);
  cy_current : current_fiber (mgr s) <> NULL;
  cy_to_schedule : to_schedule (mgr s) = NULL;
  cy_done : done_fiber (mgr s) <> NULL -> done_fiber (mgr s) = current_fiber (mgr s) /\
    state_of s (current_fiber (mgr s)) = FIBER_STATE_DONE
}.

(** The actions pending apart from scheduling and destroying. *)
Definition wait_acts (m : manager) : list mact :=
  unless_null (mpmc_to_push m).1 [APushMpmc (mpmc_to_push m).1 (mpmc_to_push m).2] ++
  unless_null (mpsc_to_push m).1 [APushMpsc (mpsc_to_push m).1 (mpsc_to_push m).2] ++
  unless_null (mutex_to_unlock m) [AUnlockMutex (mutex_to_unlock m)] ++
  unless_null (spinlock_to_unlock m) [AUnlockSpin (spinlock_to_unlock m)] ++
  unless_null (set_wait_location m) [AStore (set_wait_location m) (set_wait_value m)].

Lemma prepare_pending s old new : old <> NULL -> to_schedule (mgr s) = NULL ->
  pending_acts (mgr (switch_prepare s old new)) =
  unless_null (done_fiber (mgr s)) [ADestroy (done_fiber (mgr s))] ++ (ASchedule <$> was_running s old) ++ wait_acts (mgr s).
Proof.
  intros Ho Ht. unfold pending_acts, switch_prepare, wait_acts, was_running.
  destruct (Z.eqb (state_of s old) FIBER_STATE_RUNNING); cbn -[unless_null].
  - unfold unless_null at 2. by rewrite (proj2 (Z.eqb_neq _ _) Ho).
  - rewrite Ht. done.
Qed.

(** The effect of a switch from the current fiber to [new], in scheduler [x]. *)
Definition switched (s s' : mstate) (x : S) (new : Z) : Prop :=
  let c := current_fiber (mgr s) in
  acts s' = acts s ++ ASwap c new :: unless_null (done_fiber (mgr s)) [ADestroy c] ++
    (ASchedule <$> was_running s c) ++ wait_acts (mgr s) /\
  pending_acts (mgr s') = [] /\ current_fiber (mgr s') = new /\ fs_ok (sched s') /\
  fs_fibers (sched s') ≡ₚ was_running s c ++ fs_fibers x /\
  state_of s' new = FIBER_STATE_RUNNING /\ state_of s' c = left_state (state_of s c) /\
  (forall f, f <> c -> f <> new -> state_of s' f = state_of s f).

Lemma switch_from s r x new : can_yield s -> fs_ok x -> new <> current_fiber (mgr s) ->
  sched r = x -> fst_of r = fst_of s -> acts r = acts s ->
  (exists mf yc, mgr r = Manager mf (current_fiber (mgr s)) (old_fiber (mgr s)) (thread_fiber (mgr s)) (to_schedule (mgr s))
    (mpmc_to_push (mgr s)) (mpsc_to_push (mgr s)) (mutex_to_unlock (mgr s)) (spinlock_to_unlock (mgr s))
    (set_wait_location (mgr s)) (set_wait_value (mgr s)) (done_fiber (mgr s)) yc) ->
  exists s', fiber_manager_switch_to r (current_fiber (mgr s)) new = Some s' /\ switched s s' x new /\ lock_using s' = lock_using r.
Proof.
  intros [Y1 Y2 Y3 Y4] Hx Hne R1 R2 R3 (mf & yc & R4).
  assert (forall f, state_of r f = state_of s f) as Hst by (intros f; unfold state_of; by rewrite R2).
  assert (can_switch r (current_fiber (mgr s)) new) as Hcs.
  { split; [by rewrite R1|done|congruence|by rewrite R4|]. rewrite R4. cbn. intros Hd. destruct (Y4 Hd) as [E1 E2].
    rewrite Hst, E1. split; [done|congruence]. }
  destruct (switch_spec r _ _ Hcs) as (s' & E & S1 & S2 & S3 & S4 & S5 & S6 & S7 & S8 & S9).
  exists s'. split; [exact E|]. split; [|done]. unfold switched.
  rewrite prepare_pending in S1 by (done || by rewrite R4).
  assert (was_running r (current_fiber (mgr s)) = was_running s (current_fiber (mgr s))) as Hwr by (unfold was_running; by rewrite Hst).
  rewrite Hwr, R4, R3 in S1. cbn -[unless_null] in S1. rewrite Hwr, R1 in S6. rewrite Hst in S8.
  split; [|split_and!; try done; intros f F1 F2; by rewrite S9].
  rewrite S1. unfold wait_acts. cbn -[unless_null]. do 2 f_equal. f_equal.
  unfold unless_null. destruct (Z.eqb_spec (done_fiber (mgr s)) NULL) as [|Hd]; [done|]. by destruct (Y4 Hd) as [-> _].
Qed.

Lemma yield_switch_spec now created s x f :
  can_yield s -> fs_next (state_of s) (sched s) = Some (x, Some f) -> f <> current_fiber (mgr s) ->
  time_lt (default (0, 0) (banned_until s !! f)) now = true -> lock_using s <> 1 ->
  exists s', fiber_manager_yield now created s = Some (s', YSwitched f) /\ switched s s' x f /\
    fs_fibers (sched s) ≡ₚ f :: fs_fibers x.
Proof.
  intros Hy Hn Hf Hb Hl. destruct (fs_next_ok (state_of s) (sched s) (cy_ok _ Hy)) as (x' & r & E & Hx & Hp & _).
  rewrite Hn in E. injection E as <- <-. cbn in Hp.
  unfold fiber_manager_yield. cbn -[fs_next fiber_manager_switch_to time_lt].
  change (state_of (with_mgr s _)) with (state_of s). rewrite Hn. cbn -[fiber_manager_switch_to time_lt].
  rewrite Hb. unfold is_lock_using. cbn -[fiber_manager_switch_to]. rewrite (proj2 (Z.eqb_neq _ 1)) by done. cbn [negb].
  set (r := set_lock_status _).
  destruct (switch_from s r x f) as (s' & -> & Hsw & _); try done.
  { by eexists _, _. }
  by exists s'.
Qed.


(** Nothing to switch to.  A fiber that waits, saves its state or is done
    leaves the thread to the maintenance fiber, with the same guarantees; a fiber
    that is still running goes on, and the queues keep their fibers. *)
Theorem yield_without_fiber now created s x :
  can_yield s -> fs_next (state_of s) (sched s) = Some (x, None) ->
  let c := current_fiber (mgr s) in
  let target := if Z.eqb (maintenance_fiber (mgr s)) NULL then created else maintenance_fiber (mgr s) in
  if decide (state_of s c = FIBER_STATE_WAITING \/ state_of s c = FIBER_STATE_DONE \/
             state_of s c = FIBER_STATE_SAVING_STATE_TO_WAIT)
  then target <> c -> exists s', fiber_manager_yield now created s = Some (s', YMaintenance) /\ switched s s' x target /\
    fs_fibers (sched s') ≡ₚ fs_fibers (sched s)
  else exists s', fiber_manager_yield now created s = Some (s', YStayed) /\ current_fiber (mgr s') = c /\
    fs_fibers (sched s') ≡ₚ fs_fibers (sched s) /\ (forall g, state_of s' g = state_of s g).
Proof.
  intros Hy Hn c target. destruct (fs_next_ok (state_of s) (sched s) (cy_ok _ Hy)) as (x' & r & E & Hx & Hp & _).
  rewrite Hn in E. injection E as <- <-. cbn in Hp.
  unfold fiber_manager_yield. cbn -[fs_next fiber_manager_switch_to try_steal].
  change (state_of (with_mgr s _)) with (state_of s). rewrite Hn. cbn -[fiber_manager_switch_to try_steal].
  fold c. assert (Z.eqb (state_of s c) FIBER_STATE_WAITING || Z.eqb (state_of s c) FIBER_STATE_DONE ||
    Z.eqb (state_of s c) FIBER_STATE_SAVING_STATE_TO_WAIT = bool_decide (state_of s c = FIBER_STATE_WAITING \/
      state_of s c = FIBER_STATE_DONE \/ state_of s c = FIBER_STATE_SAVING_STATE_TO_WAIT)) as ->.
  { apply eq_true_iff_eq. rewrite bool_decide_eq_true, !orb_true_iff, !Z.eqb_eq. tauto. }
  case_decide as Hst.
  - intros Hne. rewrite bool_decide_true by done. fold target. set (r := with_mgr _ _).
    destruct (switch_from s r x target) as (s' & E & Hsw & _); try done.
    { by eexists _, _. }
    fold c in E. rewrite E. exists s'. split; [done|]. split; [done|].
    destruct Hsw as (_ & _ & _ & _ & S5 & _). rewrite S5, Hp. unfold was_running. fold c.
    by destruct Hst as [Hs|[Hs|Hs]]; rewrite Hs.
  - rewrite bool_decide_false by done. unfold try_steal. cbn -[Z.land]. destruct (Z.eqb (Z.land _ 1023) 0).
    + destruct (fs_balance_ok x Hx) as (x2 & -> & _ & Hp2). cbn. eexists. split; [reflexivity|]. cbn.
      split_and!; try done. by rewrite Hp2, Hp.
    + eexists. split; [reflexivity|]. cbn. split_and!; done.
Qed.

Lemma schedule_lock s f s' : fiber_manager_schedule s f = Some s' -> lock_using s' = lock_using s.
Proof. unfold fiber_manager_schedule. destruct (fs_schedule (sched s) f); [|done]. by intros [= <-]. Qed.

Lemma maintenance_lock s s' : fiber_manager_do_maintenance s = Some s' -> lock_using s' = lock_using s.
Proof.
  unfold fiber_manager_do_maintenance. set (s1 := if Z.eqb (state_of s _) _ then _ else _).
  assert (lock_using s1 = lock_using s) as <- by (unfold s1; by case_match). clearbody s1.
  set (o2 := if Z.eqb (done_fiber (mgr s)) NULL then Some s1 else _).
  assert (forall s2, o2 = Some s2 -> lock_using s2 = lock_using s1) as H2
    by (unfold o2; intros s2; repeat case_match; intros; by simplify_eq).
  destruct o2 as [s2|]; [|done]. rewrite <- (H2 s2 eq_refl). clear H2. cbn [mbind option_bind].
  set (o3 := if Z.eqb (to_schedule (mgr s)) NULL then Some s2 else _).
  assert (forall s3, o3 = Some s3 -> lock_using s3 = lock_using s2) as H3
    by (unfold o3; intros s3; repeat case_match; intros E; simplify_eq; [done|by eapply schedule_lock]).
  destruct o3 as [s3|]; [|done]. rewrite <- (H3 s3 eq_refl). clear H3. cbn [mbind option_bind].
  intros [= <-]. cbn [with_mgr lock_using]. by repeat (case_match; cbn [act lock_using]).
Qed.

Lemma switch_lock s old new s' : fiber_manager_switch_to s old new = Some s' -> lock_using s' = lock_using s.
Proof. intros E. rewrite (maintenance_lock _ _ E). unfold switch_prepare. by case_match. Qed.

(** The scheduler lock stays taken.  Every yield that switches to a fiber sets
    the lock and nothing clears it; from then on (and for a banned fiber in any
    case) a yield that finds a fiber takes it out of the scheduler, schedules the
    calling fiber instead, which goes on running, and returns: the fiber found is
    in no queue any more and is never run. *)
Theorem yield_drops_fiber now created s x f :
  fs_ok (sched s) -> fs_next (state_of s) (sched s) = Some (x, Some f) ->
  lock_using s = 1 \/ time_lt (default (0, 0) (banned_until s !! f)) now = false ->
  (exists s', fiber_manager_yield now created s = Some (s', YStayed) /\
    current_fiber (mgr s') = current_fiber (mgr s) /\ lock_using s' = lock_using s /\
    (exists b, acts s' = acts s ++ ASchedule (current_fiber (mgr s)) :: b /\ Forall (fun a => a = ABalance) b) /\
    f :: fs_fibers (sched s') ≡ₚ current_fiber (mgr s) :: fs_fibers (sched s)) /\
  (forall now' created' s0 s1 f0, fiber_manager_yield now' created' s0 = Some (s1, YSwitched f0) -> lock_using s1 = 1).
Proof.
  intros Hok Hn Hl. split.
  - destruct (fs_next_ok (state_of s) (sched s) Hok) as (x' & r & E & Hx & Hp & _).
    rewrite Hn in E. injection E as <- <-. cbn in Hp.
    unfold fiber_manager_yield. cbn -[fs_next fiber_manager_switch_to time_lt try_steal].
    change (state_of (with_mgr s _)) with (state_of s). rewrite Hn. cbn -[fiber_manager_switch_to time_lt try_steal].
    assert (time_lt (default (0, 0) (banned_until s !! f)) now && negb (Z.eqb (lock_using s) 1) = false) as Hcond.
    { destruct Hl as [Hl|Hl]; [rewrite Hl; apply andb_false_r|by rewrite Hl]. }
    unfold is_lock_using. cbn -[time_lt try_steal]. rewrite Hcond. unfold fiber_manager_schedule. cbn -[try_steal].
    destruct (fs_schedule_ok x (current_fiber (mgr s)) Hx) as (x1 & -> & Hx1 & Hp1). cbn -[try_steal].
    assert (f :: fs_fibers x1 ≡ₚ current_fiber (mgr s) :: fs_fibers (sched s)) as Hp2
      by (rewrite Hp1, Hp; apply perm_swap).
    unfold try_steal. cbn -[Z.land]. destruct (Z.eqb (Z.land _ 1023) 0).
    + destruct (fs_balance_ok x1 Hx1) as (x2 & -> & _ & Hp3). cbn. eexists. split; [reflexivity|]. cbn.
      split_and!; try done; [|by rewrite Hp3]. exists [ABalance]. rewrite <- app_assoc. split; [done|by apply Forall_singleton].
    + eexists. split; [reflexivity|]. cbn. split_and!; try done. by exists [].
  - clear. intros now' created' s0 s1 f0. unfold fiber_manager_yield. cbn -[fs_next fiber_manager_switch_to time_lt try_steal].
    destruct (fs_next _ _) as [[x0 [g|]]|]; [| |done]; cbn -[fiber_manager_switch_to time_lt try_steal].
    + destruct (_ && _).
      * destruct (fiber_manager_switch_to _ _ _) as [s2|] eqn:E; [|done]. intros [= <- _].
        by rewrite (switch_lock _ _ _ _ E).
      * destruct (fiber_manager_schedule _ _); [|done]. cbn -[try_steal]. by destruct (try_steal _).
    + destruct (_ || _); [by destruct (fiber_manager_switch_to _ _ _)|by destruct (try_steal _)].
Qed.

(** ** Waiting *)

(** Nothing is pending and the current fiber runs. *)
Record at_rest (s : mstate) : Prop := {
  ar_ok : fs_ok (sched s);
  ar_current : current_fiber (mgr s) <> NULL;
  ar_running : state_of s (current_fiber (mgr s)) = FIBER_STATE_RUNNING;
  ar_pending : pending_acts (mgr s) = []
}.

Lemma pending_nil m : pending_acts m = [] ->
  done_fiber m = NULL /\ to_schedule m = NULL /\ (mpmc_to_push m).1 = NULL /\ (mpsc_to_push m).1 = NULL /\
  mutex_to_unlock m = NULL /\ spinlock_to_unlock m = NULL /\ set_wait_location m = NULL.
Proof.
  unfold pending_acts, unless_null. intros Hp. repeat apply app_eq_nil in Hp as [? Hp].
  repeat case_match; try done; rewrite ?Z.eqb_eq in *; split_and!; done.
Qed.


End manager.

(** ** Waking and sleeping *)

Lemma wake_mpmc_counts : forall fs rest count wake_count, 0 <= wake_count -> 0 < count - wake_count < 2 ^ 31 ->
  count < 2 ^ 31 -> wake_count < 2 ^ 31 - 1 ->
  2 * Z.of_nat (length fs) >= count - wake_count -> 2 * Z.of_nat (length fs) <= count - wake_count + 1 ->
  wake_mpmc_loop ((Some <$> fs) ++ rest) count wake_count = Some (fs, wake_count + Z.of_nat (length fs)).
Proof.
  induction fs as [|f fs IH]; intros rest count wc H0 H1 H2 H3 Hlo Hhi; [cbn in *; lia|].
  cbn [fmap list_fmap app wake_mpmc_loop length] in *.
  rewrite !i32_small by lia. destruct (Z.ltb_spec (wc + 1) (count - 1)) as [Hlt|Hge].
  - rewrite (IH rest (count - 1) (wc + 1)) by lia. cbn. do 2 f_equal. lia.
  - destruct fs as [|g fs]; [cbn; by replace (wc + 1) with (wc + 1) by lia|cbn in *; lia].
Qed.

(** Waking from a queue.  With a count of 0 one attempt is made.  With a
    positive count the loop compares the fibers woken with a count it lowers at
    every one of them: with enough fibers queued it stops at half the number
    asked for, rounded up. *)
Theorem wake_mpmc_half count fs rest f :
  0 < count < 2 ^ 31 -> Z.of_nat (length fs) = (count + 1) / 2 ->
  fiber_manager_wake_from_mpmc_queue ((Some <$> fs) ++ rest) count = Some (fs, (count + 1) / 2) /\
  fiber_manager_wake_from_mpmc_queue [Some f] 0 = Some ([f], 1) /\
  fiber_manager_wake_from_mpmc_queue [None] 0 = Some ([], 0).
Proof.
  intros Hc Hl. split; [|done]. unfold fiber_manager_wake_from_mpmc_queue. rewrite <- Hl.
  rewrite wake_mpmc_counts; [done|lia|lia|lia|lia|Z.to_euclidean_division_equations; lia..].
Qed.

(** The real sleep sleeps the whole time. *)
Lemma real_sleep_total seconds useconds : 0 <= seconds -> 0 <= useconds ->
  foldr Z.add 0 (fiber_do_real_sleep seconds useconds) = seconds * 1000000 + useconds.
Proof.
  intros Hs Hu. unfold fiber_do_real_sleep.
  assert (forall k l, foldr Z.add 0 (replicate k 1000000 ++ l) = Z.of_nat k * 1000000 + foldr Z.add 0 l) as E
    by (induction k as [|k IH]; intros l; cbn [replicate app foldr]; [lia|rewrite IH; lia]).
  rewrite E, Z2Nat.id by done. destruct (Z.eqb_spec useconds 0); cbn [foldr]; lia.
Qed.

(** ** Examples *)

(** One kernel thread running fiber 8, with fiber 16 in its queue. *)
Definition mgr_queue : schedulers := Schedulers [[16]; []] [Scheduler 0 1 0 0 0].
Definition mgr_demo (lock : Z) : mstate (S := schedulers) :=
  MState (Manager NULL 8 NULL 8 NULL (NULL, NULL) (NULL, NULL) NULL NULL NULL NULL NULL 0)
    (list_to_map [(8, FIBER_STATE_RUNNING); (16, FIBER_STATE_READY)]) mgr_queue ∅ lock [].

#[local] Existing Instance wsd_scheduler.
#[local] Instance demo_scheduler : FiberScheduler schedulers := wsd_scheduler 0 [].

Lemma mgr_queue_ok : fs_ok mgr_queue.
Proof.
  split; [|by eexists]. split; [done|]. intros i x Hi. destruct i; simplify_eq/=. split; [done|]. by left.
Qed.

Lemma mgr_demo_yield lock : can_yield (mgr_demo lock).
Proof. split; [exact mgr_queue_ok|discriminate|reflexivity|]. intros Hd. by destruct Hd. Qed.


Lemma yield_drops_fiber_witness :
  (exists s', fiber_manager_yield (10, 0) 24 (mgr_demo 1) = Some (s', YStayed) /\
    current_fiber (mgr s') = 8 /\ lock_using s' = 1 /\
    (exists b, acts s' = [] ++ ASchedule 8 :: b /\ Forall (fun a => a = ABalance) b) /\
    16 :: fs_fibers (sched s') ≡ₚ 8 :: fs_fibers mgr_queue) /\
  (forall now' created' (s0 s1 : mstate (S := schedulers)) f0,
    fiber_manager_yield now' created' s0 = Some (s1, YSwitched f0) -> lock_using s1 = 1).
Proof.
  apply (yield_drops_fiber (10, 0) 24 (mgr_demo 1) (Schedulers [[]; []] [Scheduler 0 1 0 0 0]) 16).
  - apply mgr_queue_ok.
  - vm_compute. reflexivity.
  - left. reflexivity.
Defined.

(** The same with an empty queue. *)
Definition mgr_alone : mstate (S := schedulers) :=
  with_sched (mgr_demo 0) (Schedulers [[]; []] [Scheduler 0 1 0 0 0]).

Lemma yield_without_fiber_witness :
  exists s', fiber_manager_yield (10, 0) 24 mgr_alone = Some (s', YStayed) /\ current_fiber (mgr s') = 8 /\
    fs_fibers (sched s') ≡ₚ fs_fibers (sched mgr_alone) /\ (forall g, state_of s' g = state_of mgr_alone g).
Proof.
  apply (yield_without_fiber (10, 0) 24 mgr_alone (Schedulers [[]; []] [Scheduler 1 0 0 0 0])).
  - split; [|discriminate|reflexivity|].
    + split; [|by eexists]. split; [done|]. intros i x Hi. destruct i; simplify_eq/=. split; [done|]. by left.
    + intros Hd. by destruct Hd.
  - vm_compute. reflexivity.
Defined.


Lemma wake_mpmc_half_witness :
  fiber_manager_wake_from_mpmc_queue ((Some <$> [8]) ++ [Some 16]) 2 = Some ([8], 1) /\
  fiber_manager_wake_from_mpmc_queue [Some 8] 0 = Some ([8], 1) /\
  fiber_manager_wake_from_mpmc_queue [None] 0 = Some ([], 0).
Proof. apply (wake_mpmc_half 2 [8] [Some 16] 8); [lia|reflexivity]. Defined.
