(* ===== verification/MpmcQueue.v ===== *)
(** * The queue of waiters of the semaphore

    [fiber_manager_wait_in_mpmc_queue] and [fiber_manager_wake_from_mpmc_queue]
    keep sleeping fibers in the queue of [mpmc_fifo.h].  This file shows that
    the operations of [MpmcFifo], run without interference, implement the
    interface [WaitQueue]; that interference does not change what they do is
    [MpmcFifo.mpmc_fifo_order].  A node comes from the allocator for every wait
    ([fiber_manager_get_mpmc_node]) and is retired by the pop. *)

From S2P Require Import Prelude MpscFifo MpmcFifo WaitQueue.

(** [pq_push f]: the locals of a push that is not linked yet; the allocator
    hands out the addresses from [pq_fresh] on.  Fiber [f] is the pointer
    [f + 1]. *)
Record mpmc_queue := PQueue {
  pq_heap : gmap Z node;
  pq_next : gmap Z Z;
  pq_fifo : mpsc_fifo;
  pq_retired : list Z;
  pq_push : gmap nat (Z * Z);
  pq_fresh : Z
}.

Definition fiber_ptr (f : nat) : Z := Z.of_nat f + 1.

Fixpoint iter_pc (k : nat) (step : mpmc_shared -> mpmc_pc -> option (mpmc_shared * mpmc_pc * list fifo_ev))
    (s : mpmc_shared) (pc : mpmc_pc) : option (mpmc_shared * mpmc_pc) :=
  match k with
  | O => Some (s, pc)
  | S k => '(s, pc, _) ← step s pc; iter_pc k step s pc
  end.

Definition as_shared (q : mpmc_queue) : mpmc_shared :=
  PShared (pq_heap q) (pq_next q) (pq_fifo q) [(NULL, NULL)] (pq_retired q) ∅.

(** The push up to and including the exchange of the tail. *)
Definition mpmc_wait_xchg (f : nat) (q : mpmc_queue) : option mpmc_queue :=
  let n := pq_fresh q in
  let s := PShared (<[n:=Node (fiber_ptr f) NULL]> (pq_heap q)) (pq_next q) (pq_fifo q) [(NULL, NULL)] (pq_retired q) ∅ in
  '(s, pc) ← iter_pc 6 (mpmc_fifo_push 0 false) s (PPushInit n);
  match pc with
  | PPushLink tail n => Some (PQueue (p_heap s) (p_next s) (p_fifo s) (p_retired s) (<[f:=(tail, n)]> (pq_push q)) (pq_fresh q + 1))
  | _ => None
  end.

(** Its end: [tail->prev = new_node]. *)
Definition mpmc_wait_link (f : nat) (q : mpmc_queue) : option mpmc_queue :=
  p ← pq_push q !! f;
  '(s, _) ← iter_pc 2 (mpmc_fifo_push 0 false) (as_shared q) (PPushLink p.1 p.2);
  Some (PQueue (p_heap s) (p_next s) (p_fifo s) (p_retired s) (delete f (pq_push q)) (pq_fresh q)).

(** The pop, which returns the fiber and retires the old head. *)
Definition mpmc_wake_trypop (q : mpmc_queue) : option (option nat * mpmc_queue) :=
  '(s, pc) ← iter_pc 4 (mpmc_fifo_trypop 0 false) (as_shared q) PPopHead;
  match pc with
  | PPopEmpty => Some (None, q)
  | _ =>
      '(s, pc) ← iter_pc 6 (mpmc_fifo_trypop 0 false) s pc;
      match pc with
      | PPopFree hd ret =>
          '(s, _) ← iter_pc 1 (mpmc_fifo_trypop 0 false) s pc;
          Some (Some (Z.to_nat (ret - 1)), PQueue (p_heap s) (p_next s) (p_fifo s) (p_retired s) (pq_push q) (pq_fresh q))
      | _ => None
      end
  end.

Definition mpmc_queue_init (n : nat) : mpmc_queue :=
  let '(h, nx, f) := mpmc_fifo_init ∅ ∅ 1 in PQueue h nx f [] ∅ 2.

(** The nodes [mpmc_fifo_destroy] hands to the hazard pointers. *)
Definition mpmc_queue_destroy (q : mpmc_queue) : option (list Z) :=
  mpmc_fifo_destroy (size (pq_heap q) + 2) (pq_heap q) (f_head (pq_fifo q)).

(** ** The representation invariant *)

Record mpmc_qrepr (n : nat) (q : mpmc_queue) (l : list (nat * bool)) (chain : list Z) : Prop := {
  qq_chain : chain_inv (pq_heap q) (pq_fifo q) (map_to_list (pq_push q)).*2 chain;
  qq_len : length chain = S (length l);
  qq_fibers : NoDup (l.*1);
  qq_data : forall (i f : nat) (b : bool), l !! i = Some (f, b) ->
    exists a, chain !! S i = Some a /\ load_data (pq_heap q) a = Some (fiber_ptr f);
  qq_flag : forall (i f : nat) (b : bool), l !! i = Some (f, b) ->
    pq_push q !! f = if b then None else link_at chain i;
  qq_idle : forall (f : nat), f ∉ l.*1 -> pq_push q !! f = None;
  qq_alloc : forall (a : Z), a ∈ chain -> 1 <= a < pq_fresh q /\ is_Some (pq_heap q !! a);
  qq_fresh : 1 <= pq_fresh q;
  qq_retired : forall (a : Z), a ∈ pq_retired q -> a < pq_fresh q /\ a ∉ chain
}.

Lemma mpmc_wait_xchg_eq f q : mpmc_wait_xchg f q = Some (PQueue
  (<[pq_fresh q:=Node (fiber_ptr f) NULL]> (pq_heap q)) (<[pq_fresh q:=f_tail (pq_fifo q)]> (pq_next q))
  (Fifo (f_head (pq_fifo q)) (pq_fresh q)) (pq_retired q)
  (<[f:=(f_tail (pq_fifo q), pq_fresh q)]> (pq_push q)) (pq_fresh q + 1)).
Proof.
  unfold mpmc_wait_xchg. simpl. unfold store_next. rewrite lookup_insert_eq. simpl.
  rewrite insert_insert_eq, decide_True by done. simpl. rewrite lookup_insert_eq. simpl.
  rewrite Z.eqb_refl. simpl. unfold load_data. by rewrite lookup_insert_eq.
Qed.

Section qrepr.
Context {n : nat} {q : mpmc_queue} {l : list (nat * bool)} {chain : list Z}.
Hypothesis HR : mpmc_qrepr n q l chain.

Lemma qrepr_link i : (i < length l)%nat -> is_Some (link_at chain i).
Proof using HR.
  intros Hi. pose proof (qq_len _ _ _ _ HR).
  destruct (lookup_lt_is_Some_2 chain i) as [p Hp]; [lia|].
  destruct (lookup_lt_is_Some_2 chain (S i)) as [a Ha]; [lia|]. exists (p, a). by apply link_at_Some.
Qed.

Lemma qrepr_pend i f b p a : l !! i = Some (f, b) -> link_at chain i = Some (p, a) ->
  (p, a) ∈ (map_to_list (pq_push q)).*2 <-> b = false.
Proof using HR.
  intros Hi Hp. rewrite mem_values. split.
  - intros [g Hg]. destruct (decide (g ∈ l.*1)) as [Hin|Hn]; [|by rewrite (qq_idle _ _ _ _ HR) in Hg].
    apply list_elem_of_fmap in Hin as ([g' c] & -> & [j Hj]%list_elem_of_lookup_1). simpl in Hg.
    rewrite (qq_flag _ _ _ _ HR _ _ _ Hj) in Hg. destruct c; [done|].
    apply link_at_Some in Hp as [Hp _]. apply link_at_Some in Hg as [Hg _].
    assert (i = j) as -> by (eapply NoDup_lookup; [apply (ch_nd _ _ _ _ (qq_chain _ _ _ _ HR))|done..]).
    congruence.
  - intros ->. exists f. by rewrite (qq_flag _ _ _ _ HR _ _ _ Hi).
Qed.

Lemma qrepr_push f : (f ∉ l.*1) ->
  exists q', mpmc_wait_xchg f q = Some q' /\ mpmc_qrepr n q' (l ++ [(f, false)]) (chain ++ [pq_fresh q]).
Proof using HR.
  intros Hfl. pose proof (qq_chain _ _ _ _ HR) as Hch. pose proof (qq_len _ _ _ _ HR) as Hlen.
  assert (pq_fresh q ∉ chain) as Hfresh by (intros [? _]%(qq_alloc _ _ _ _ HR); lia).
  pose proof (qq_fresh _ _ _ _ HR) as Hf1.
  eexists. split; [apply mpmc_wait_xchg_eq|].
  set (h2 := <[pq_fresh q:=Node (fiber_ptr f) NULL]> (pq_heap q)).
  assert (forall b, b ∈ chain -> load_next h2 b = load_next (pq_heap q) b /\
    load_data h2 b = load_data (pq_heap q) b) as Hsame.
  { intros b Hb. apply load_insert_other. by intros ->. }
  assert (chain !! length l = Some (f_tail (pq_fifo q))) as Htl.
  { pose proof (ch_last _ _ _ _ Hch) as Hl. by rewrite last_lookup, Hlen in Hl. }
  pose proof (qq_idle _ _ _ _ HR _ Hfl) as Hidle.
  split; cbn [pq_heap pq_next pq_fifo pq_retired pq_push pq_fresh].
  - eapply chain_perm; [symmetry; by apply values_insert|].
    apply chain_xchg; [|done|unfold NULL; lia|unfold h2, load_next; by rewrite lookup_insert_eq].
    eapply chain_heap; [|done]. intros b Hb. by apply Hsame.
  - rewrite !length_app, Hlen. simpl. lia.
  - rewrite fmap_app. simpl. apply NoDup_app. split_and!; [apply HR| |apply NoDup_singleton].
    intros x Hx ->%list_elem_of_singleton. done.
  - intros i g b [Hi|[Hi Hg]]%lookup_app_Some.
    + destruct (qq_data _ _ _ _ HR _ _ _ Hi) as (c & Hc & Hd). exists c.
      rewrite lookup_app_l by (by eapply lookup_lt_Some). split; [done|].
      by rewrite (proj2 (Hsame c (list_elem_of_lookup_2 _ _ _ Hc))).
    + apply list_lookup_singleton_Some in Hg as [Hz ?]. simplify_eq. exists (pq_fresh q).
      rewrite lookup_app_r by lia. replace (S i - length chain)%nat with 0%nat by lia. split; [done|].
      unfold h2, load_data. by rewrite lookup_insert_eq.
  - intros i g b [Hi|[Hi Hg]]%lookup_app_Some.
    + assert (g <> f) as Hne.
      { intros ->. apply Hfl, list_elem_of_fmap. exists (f, b). split; [done|]. by eapply list_elem_of_lookup_2. }
      rewrite lookup_insert_ne by done. rewrite link_at_app by (apply lookup_lt_Some in Hi; lia).
      by apply (qq_flag _ _ _ _ HR).
    + apply list_lookup_singleton_Some in Hg as [Hz ?]. simplify_eq. rewrite lookup_insert_eq.
      symmetry. apply link_at_Some. rewrite lookup_app_l, lookup_app_r by lia.
      replace i with (length l) by lia. by rewrite Hlen, Nat.sub_diag.
  - intros g Hg. rewrite fmap_app in Hg. rewrite lookup_insert_ne by set_solver. apply (qq_idle _ _ _ _ HR). set_solver.
  - intros a [Ha| ->%list_elem_of_singleton]%elem_of_app.
    + destruct (qq_alloc _ _ _ _ HR a Ha) as [? ?]. split; [lia|]. unfold h2. rewrite lookup_insert. case_decide; eauto.
    + split; [lia|]. unfold h2. rewrite lookup_insert_eq. eauto.
  - lia.
  - intros a Ha. destruct (qq_retired _ _ _ _ HR _ Ha) as [H1 H2]. split; [lia|].
    intros [?|E%list_elem_of_singleton]%elem_of_app; [done|lia].
Qed.

End qrepr.

Lemma qrepr_empty n q l chain : mpmc_qrepr n q l chain -> (forall f, head l <> Some (f, true)) -> mpmc_wake_trypop q = Some (None, q).
Proof.
  intros HR Hh. pose proof (qq_chain _ _ _ _ HR) as Hch. pose proof (qq_len _ _ _ _ HR) as Hlen.
  pose proof (ch_head _ _ _ _ Hch) as Hhd.
  assert (load_next (pq_heap q) (f_head (pq_fifo q)) = Some NULL) as Hnx.
  { destruct l as [|[f b] l'].
    - destruct chain as [|c0 [|c1 rest]]; simpl in *; try lia. injection Hhd as <-.
      pose proof (ch_last _ _ _ _ Hch) as Hl. simpl in Hl. injection Hl as ->. apply Hch.
    - destruct b; [by destruct (Hh f)|].
      destruct chain as [|c0 [|c1 rest]]; simpl in Hlen, Hhd; [lia|lia|]. injection Hhd as <-.
      pose proof (qrepr_pend HR 0 f false c0 c1 eq_refl eq_refl) as Hnp.
      destruct (ch_link _ _ _ _ Hch 0%nat _ _ eq_refl eq_refl) as [[_ ?]|[? _]]; [naive_solver|done]. }
  unfold mpmc_wake_trypop. simpl. rewrite decide_True by done. simpl. by rewrite Hnx.
Qed.

Lemma qrepr_linked n q l1 l2 chain f : mpmc_qrepr n q (l1 ++ (f, false) :: l2) chain ->
  exists q', mpmc_wait_link f q = Some q' /\ mpmc_qrepr n q' (l1 ++ (f, true) :: l2) chain.
Proof.
  intros HR. set (l := l1 ++ (f, false) :: l2) in *.
  assert (l !! length l1 = Some (f, false)) as Hi by (unfold l; by rewrite lookup_app_r, Nat.sub_diag by lia).
  assert ((l1 ++ (f, true) :: l2).*1 = l.*1) as Hfst by (unfold l; by rewrite !fmap_app).
  pose proof (relinked_lookup l1 l2 f (qq_fibers _ _ _ _ HR)) as Hcases. fold l in Hcases.
  destruct (qrepr_link HR (length l1)) as [[p a] Hpa]; [by eapply lookup_lt_Some|].
  pose proof (qq_flag _ _ _ _ HR _ _ _ Hi) as Hp. simpl in Hp. rewrite Hpa in Hp.
  apply link_at_Some in Hpa as [Hcp Hca].
  destruct (qq_alloc _ _ _ _ HR p) as [_ [nd Hnd]]; [by eapply list_elem_of_lookup_2|].
  assert (store_next (pq_heap q) p a = Some (<[p:=Node (nd_data nd) a]> (pq_heap q))) as Hst.
  { unfold store_next. by rewrite Hnd. }
  exists (PQueue (<[p:=Node (nd_data nd) a]> (pq_heap q)) (pq_next q) (pq_fifo q) (pq_retired q)
    (delete f (pq_push q)) (pq_fresh q)).
  split; [unfold mpmc_wait_link; rewrite Hp; simpl; by rewrite Hst|].
  split; cbn [pq_heap pq_next pq_fifo pq_retired pq_push pq_fresh]; rewrite ?Hfst; try (by apply HR).
  - eapply chain_store_link; [|exact Hst]. eapply chain_perm; [by apply values_delete|apply HR].
  - rewrite (qq_len _ _ _ _ HR). unfold l. by rewrite !length_app.
  - intros i g b Hg. assert (exists b', l !! i = Some (g, b')) as [b' Hg'].
    { destruct (Hcases _ _ _ Hg) as [(-> & -> & ->)|[_ ?]]; eauto. }
    destruct (qq_data _ _ _ _ HR _ _ _ Hg') as (c & Hc & Hd). exists c. split; [done|].
    by rewrite (store_next_data _ _ _ _ c Hst).
  - intros i g b Hg. destruct (Hcases _ _ _ Hg) as [(-> & -> & ->)|[Hne Hg']]; [apply lookup_delete_eq|].
    rewrite lookup_delete_ne by done. by apply (qq_flag _ _ _ _ HR).
  - intros g Hg. rewrite lookup_delete_ne; [by apply HR|]. intros ->. apply Hg.
    apply list_elem_of_fmap. exists (g, false). split; [done|]. by eapply list_elem_of_lookup_2.
  - intros b Hb. destruct (qq_alloc _ _ _ _ HR b Hb) as [? ?]. split; [done|]. by apply (store_next_dom _ _ _ _ _ Hst).
  - apply (qq_fresh _ _ _ _ HR).
Qed.

Lemma qrepr_pop n q l chain f : mpmc_qrepr n q ((f, true) :: l) chain ->
  exists q' chain', mpmc_wake_trypop q = Some (Some f, q') /\ mpmc_qrepr n q' l chain'.
Proof.
  intros HR. pose proof (qq_chain _ _ _ _ HR) as Hch. pose proof (qq_len _ _ _ _ HR) as Hlen.
  pose proof (ch_head _ _ _ _ Hch) as Hh.
  destruct chain as [|c0 [|c1 rest]]; simpl in Hlen, Hh; [lia|lia|]. injection Hh as Hh.
  pose proof (qrepr_pend HR 0 f true c0 c1 eq_refl eq_refl) as Hnp.
  assert (load_next (pq_heap q) c0 = Some c1) as Hnx.
  { destruct (ch_link _ _ _ _ Hch 0%nat _ _ eq_refl eq_refl) as [[? _]|[_ ?]]; [done|naive_solver]. }
  destruct (qq_data _ _ _ _ HR 0%nat f true eq_refl) as (c & [= <-] & Hd).
  assert (c1 <> NULL) as Hc1 by (intros ->; apply (ch_null _ _ _ _ Hch); set_solver).
  destruct (chain_pop _ _ _ _ c0 c1 Hch Hh Hnx Hc1) as (rest' & [= <-] & Hch').
  exists (PQueue (pq_heap q) (pq_next q) (Fifo c1 (f_tail (pq_fifo q))) (c0 :: pq_retired q) (pq_push q) (pq_fresh q)), (c1 :: rest).
  pose proof (qq_fibers _ _ _ _ HR) as Hfnd. simpl in Hfnd. apply NoDup_cons in Hfnd as [Hfl Hfnd].
  split.
  { unfold mpmc_wake_trypop. simpl. rewrite decide_True by done. simpl. rewrite <- Hh, Hnx. simpl.
    rewrite decide_False by done. simpl. rewrite Hh, decide_True by done. simpl. rewrite Hd. simpl.
    rewrite Z.eqb_refl. simpl. unfold fiber_ptr. do 3 f_equal. lia. }
  split; cbn [pq_heap pq_next pq_fifo pq_retired pq_push pq_fresh]; try done.
  - simpl in *. lia.
  - intros i g b Hi. apply (qq_data _ _ _ _ HR (S i) g b Hi).
  - intros i g b Hi. apply (qq_flag _ _ _ _ HR (S i) g b Hi).
  - intros g Hg. destruct (decide (g = f)) as [->|Hne]; [apply (qq_flag _ _ _ _ HR 0%nat f true eq_refl)|].
    apply (qq_idle _ _ _ _ HR). simpl. set_solver.
  - intros a Ha. apply (qq_alloc _ _ _ _ HR). by right.
  - apply (qq_fresh _ _ _ _ HR).
  - intros a [->|Ha]%elem_of_cons.
    + split; [apply (qq_alloc _ _ _ _ HR); by left|]. pose proof (ch_nd _ _ _ _ Hch) as Hnd. by apply NoDup_cons in Hnd as [? _].
    + destruct (qq_retired _ _ _ _ HR _ Ha) as [H1 H2]. set_solver.
Qed.

Lemma mpmc_queue_init_repr n : mpmc_qrepr n (mpmc_queue_init n) [] [1].
Proof.
  split; simpl; try done; try apply NoDup_nil_2.
  - split; simpl; try done.
    + apply NoDup_singleton.
    + by intros ?%list_elem_of_singleton.
    + intros a b Hab. by apply elem_of_nil in Hab.
    + apply NoDup_nil_2.
  - intros a ->%list_elem_of_singleton. split; [lia|]. by eexists.
  - by intros a ?%elem_of_nil.
Qed.

Lemma mpmc_queue_destroy_repr n q chain : mpmc_qrepr n q [] chain ->
  exists dummy, mpmc_queue_destroy q = Some [dummy] /\ dummy ∉ pq_retired q.
Proof.
  intros HR. pose proof (qq_chain _ _ _ _ HR) as Hch. pose proof (qq_len _ _ _ _ HR) as Hlen.
  destruct chain as [|x [|]]; simpl in Hlen; try lia. exists x. split.
  - apply (mpmc_destroy_chain [x] _ _ _ (f_tail (pq_fifo q))); try apply Hch; [|simpl; lia].
    intros [|i] a b Ha Hb; simplify_eq/=.
  - intros Hr. destruct (qq_retired _ _ _ _ HR _ Hr) as [_ Hn]. set_solver.
Qed.

#[export] Instance mpmc_wait_queue : WaitQueue mpmc_queue.
Proof.
  refine (Build_WaitQueue _ mpmc_queue_init mpmc_wait_xchg mpmc_wait_link mpmc_wake_trypop
    mpmc_queue_destroy pq_retired (fun n q l => exists chain, mpmc_qrepr n q l chain) _ _ _ _ _ _).
  - intros n. exists [1]. apply mpmc_queue_init_repr.
  - intros n q l f [chain HR] Hf Hfl. destruct (qrepr_push HR f Hfl) as (q' & E & HR'). eauto.
  - intros n q l1 l2 f [chain HR]. destruct (qrepr_linked _ _ _ _ _ _ HR) as (q' & E & HR'). eauto.
  - intros n q l f [chain HR]. destruct (qrepr_pop _ _ _ _ _ HR) as (q' & chain' & E & HR'). eauto.
  - intros n q l [chain HR] Hh. by eapply qrepr_empty.
  - intros n q [chain HR]. by eapply mpmc_queue_destroy_repr.
Defined.
