(* ===== verification/Lifo.v ===== *)
(** * The lock-free LIFO with a version counter ([include/mpmc_lifo.h])

    The head pointer and a counter are swapped together by a double-width
    compare-and-swap, and every successful swap increments the counter: a pop
    whose snapshot is stale fails even when the head has come back to the same
    node with another successor.  Nodes stay allocated (a pop may still read the
    [next] of a node that another thread has popped), and their owners may write
    to them as they like. *)

From S2P Require Import Prelude MpscFifo.

(** ** Linked stacks of nodes *)

(** The nodes from [hd] to NULL, top first. *)
Fixpoint stack_at (h : gmap Z node) (hd : Z) (st : list Z) : Prop :=
  match st with
  | [] => hd = NULL
  | n :: st => hd = n /\ n <> NULL /\ exists nx, load_next h n = Some nx /\ stack_at h nx st
  end.

Lemma stack_at_heap h h' hd st : (forall a, a ∈ st -> load_next h' a = load_next h a) ->
  stack_at h hd st -> stack_at h' hd st.
Proof.
  revert hd. induction st as [|n st IH]; intros hd Hs; simpl; [done|].
  intros (-> & Hn & nx & Hnx & Hst). split; [done|]. split; [done|]. exists nx.
  rewrite Hs by (by left). split; [done|]. apply IH; [|done]. intros a Ha. apply Hs. by right.
Qed.

Lemma stack_at_top h hd st : stack_at h hd st -> hd <> NULL -> exists st', st = hd :: st'.
Proof. destruct st as [|n st]; simpl; [done|]. intros (-> & _) _. by exists st. Qed.

Lemma stack_at_nonempty h st : stack_at h NULL st -> st = [].
Proof. destruct st as [|n st]; simpl; [done|]. naive_solver. Qed.

(** ** State *)

(** [l_owned]: the nodes the clients own, never read by the operations. *)
Record lifo_shared := LShared {
  l_heap : gmap Z node;
  l_counter : Z;
  l_head : Z;
  l_owned : gset Z
}.

Inductive lifo_pc :=
| LIdle
| LPushCounter (new_node : Z)
| LPushHead (new_node counter : Z)
| LPushNext (new_node counter head : Z)      (* node->next = snapshot.data.head *)
| LPushCas (new_node counter head : Z)
| LPopCounter
| LPopHead (counter : Z)
| LPopNext (counter head : Z)            (* read snapshot.data.head->next *)
| LPopCas (counter head next : Z).

Inductive lifo_choice := LCallPush (new_node : Z) | LCallPop | LGo | LScribble (n : Z) (contents : node).

Inductive stack_ev := EvPush (n : Z) | EvPop (n : Z) | EvEmpty.

(** ** Operations *)

Definition mpmc_lifo_init (h : gmap Z node) (owned : gset Z) : lifo_shared := LShared h 0 NULL owned.

(** [compare_and_swap2] on the pair. *)
Definition compare_and_swap2 (s : lifo_shared) (counter head new_head : Z) : option lifo_shared :=
  if Z.eqb (l_counter s) counter && Z.eqb (l_head s) head
  then Some (LShared (l_heap s) (u64 (counter + 1)) new_head (l_owned s)) else None.

Definition mpmc_lifo_push (s : lifo_shared) (pc : lifo_pc) : option (lifo_shared * lifo_pc * list stack_ev) :=
  match pc with
  | LPushCounter n => Some (s, LPushHead n (l_counter s), [])
  | LPushHead n ctr => Some (s, LPushNext n ctr (l_head s), [])
  | LPushNext n ctr hd =>
      h ← store_next (l_heap s) n hd; Some (LShared h (l_counter s) (l_head s) (l_owned s), LPushCas n ctr hd, [])
  | LPushCas n ctr hd =>
      match compare_and_swap2 s ctr hd n with
      | Some s' => Some (s', LIdle, [EvPush n])
      | None => Some (s, LPushCounter n, [])
      end
  | _ => None
  end.

Definition mpmc_lifo_pop (s : lifo_shared) (pc : lifo_pc) : option (lifo_shared * lifo_pc * list stack_ev) :=
  match pc with
  | LPopCounter => Some (s, LPopHead (l_counter s), [])
  | LPopHead ctr =>
      if Z.eqb (l_head s) NULL then Some (s, LIdle, [EvEmpty]) else Some (s, LPopNext ctr (l_head s), [])
  | LPopNext ctr hd => nx ← load_next (l_heap s) hd; Some (s, LPopCas ctr hd nx, [])
  | LPopCas ctr hd nx =>
      match compare_and_swap2 s ctr hd nx with
      | Some s' => Some (LShared (l_heap s') (l_counter s') (l_head s') ({[hd]} ∪ l_owned s'), LIdle, [EvPop hd])
      | None => Some (s, LPopCounter, [])
      end
  | _ => None
  end.

(** [mpmc_lifo_destroy]: frees the nodes from the head on. *)
Fixpoint mpmc_lifo_destroy (fuel : nat) (h : gmap Z node) (hd : Z) : option (gmap Z node) :=
  match fuel with
  | O => None
  | S fuel => if Z.eqb hd NULL then Some h else nx ← load_next h hd; mpmc_lifo_destroy fuel (delete hd h) nx
  end.

Definition lifo_tstep (t : nat) (ch : lifo_choice) (s : lifo_shared) (pc : lifo_pc)
    : option (lifo_shared * lifo_pc * list stack_ev) :=
  match ch, pc with
  | LCallPush n, LIdle =>
      if decide (n ∈ l_owned s)
      then Some (LShared (l_heap s) (l_counter s) (l_head s) (l_owned s ∖ {[n]}), LPushCounter n, []) else None
  | LCallPop, LIdle => Some (s, LPopCounter, [])
  | LScribble n nd, LIdle =>
      if decide (n ∈ l_owned s)
      then Some (LShared (<[n:=nd]> (l_heap s)) (l_counter s) (l_head s) (l_owned s), LIdle, []) else None
  | LGo, (LPushCounter _ | LPushHead _ _ | LPushNext _ _ _ | LPushCas _ _ _) => mpmc_lifo_push s pc
  | LGo, (LPopCounter | LPopHead _ | LPopNext _ _ | LPopCas _ _ _) => mpmc_lifo_pop s pc
  | _, _ => None
  end.

Definition lifo_conf := conf lifo_shared lifo_pc.
Definition lifo_step := conf_step lifo_tstep.

(** [m] nodes, all owned by the clients, and [n] threads. *)
Definition lifo_init (m n : nat) : lifo_conf :=
  let own : gset Z := list_to_set (seqZ 1 (Z.of_nat m)) in
  Conf (mpmc_lifo_init (gset_to_gmap (Node 0 NULL) own) own) (replicate n LIdle).

Definition stack_spec (e : stack_ev) (st : list Z) : option (list Z) :=
  match e, st with
  | EvPush n, _ => Some (n :: st)
  | EvPop n, x :: st => if Z.eqb n x then Some st else None
  | EvEmpty, [] => Some []
  | _, _ => None
  end.

(** ** Invariant *)

Definition l_private (pc : lifo_pc) : option Z :=
  match pc with LPushCounter n | LPushHead n _ | LPushNext n _ _ | LPushCas n _ _ => Some n | _ => None end.

Definition l_nodes (c : lifo_conf) (st : list Z) : list Z :=
  st ++ omap l_private (threads c) ++ elements (l_owned (shared c)).

(** What a snapshot is worth: its counter is not newer than the current one,
    and if both halves are current, what was read after it is current too. *)
Definition lifo_ok (s : lifo_shared) (k : Z) (pc : lifo_pc) : Prop :=
  match pc with
  | LPushHead _ ctr | LPopHead ctr | LPushNext _ ctr _ => 0 <= ctr <= k
  | LPushCas n ctr hd => 0 <= ctr <= k /\ load_next (l_heap s) n = Some hd
  | LPopNext ctr hd => 0 <= ctr <= k /\ hd <> NULL /\ is_Some (l_heap s !! hd)
  | LPopCas ctr hd nx =>
      0 <= ctr <= k /\ hd <> NULL /\
      (ctr = k -> hd = l_head s -> load_next (l_heap s) hd = Some nx)
  | _ => True
  end.

Record lifo_rel (k : Z) (c : lifo_conf) (st : list Z) : Prop := {
  lr_stack : stack_at (l_heap (shared c)) (l_head (shared c)) st;
  lr_count : 0 <= l_counter (shared c) <= k;
  lr_nd : NoDup (l_nodes c st);
  lr_null : NULL ∉ l_nodes c st;
  lr_alloc : forall a, a ∈ l_nodes c st -> is_Some (l_heap (shared c) !! a);
  lr_ok : forall t pc, threads c !! t = Some pc -> lifo_ok (shared c) (l_counter (shared c)) pc
}.

(** ** Preservation *)

Lemma lifo_rel_step k c st t pc s' pc' st' :
  lifo_rel k c st -> threads c !! t = Some pc ->
  stack_at (l_heap s') (l_head s') st' -> 0 <= l_counter s' <= k + 1 ->
  l_nodes (Conf s' (<[t:=pc']> (threads c))) st' ≡ₚ l_nodes c st ->
  (forall a, is_Some (l_heap (shared c) !! a) -> is_Some (l_heap s' !! a)) ->
  lifo_ok s' (l_counter s') pc' ->
  (forall i p, i <> t -> threads c !! i = Some p -> lifo_ok (shared c) (l_counter (shared c)) p ->
    lifo_ok s' (l_counter s') p) ->
  lifo_rel (k + 1) (Conf s' (<[t:=pc']> (threads c))) st'.
Proof.
  intros HR Ht Hst Hc Hn Hd Hok Hoks. split; cbn [shared threads]; auto; rewrite ?Hn.
  - apply HR.
  - apply HR.
  - intros a. rewrite Hn. intros Ha. by apply Hd, (lr_alloc _ _ _ HR).
  - intros i p Hi. apply lookup_insert_cases in Hi as [(-> & ->)|(Hne & Hi)]; [done|].
    apply (Hoks i p Hne Hi). by apply (lr_ok _ _ _ HR i).
Qed.

(** The heap changes at one node outside the stack. *)
Lemma lifo_ok_heap s h x p st : stack_at (l_heap s) (l_head s) st -> x ∉ st -> l_private p <> Some x ->
  (forall a, a <> x -> load_next h a = load_next (l_heap s) a) ->
  (forall a, is_Some (l_heap s !! a) -> is_Some (h !! a)) ->
  lifo_ok s (l_counter s) p ->
  forall o, lifo_ok (LShared h (l_counter s) (l_head s) o) (l_counter s) p.
Proof.
  intros Hst Hx Hp Hh Hd Hok o. destruct p; simpl in *; try done.
  - destruct Hok as [? Hl]. split; [done|]. rewrite Hh; [done|congruence].
  - naive_solver.
  - destruct Hok as (? & Hn & Hl). split_and!; try lia; try done. intros E1 E2. rewrite Hh; [by apply Hl|].
    intros ->. subst. destruct (stack_at_top _ _ _ Hst Hn) as [st' ->]. set_solver.
Qed.

(** A successful swap makes every other snapshot stale. *)
Lemma lifo_ok_swap s hd o p : lifo_ok s (l_counter s) p ->
  lifo_ok (LShared (l_heap s) (l_counter s + 1) hd o) (l_counter s + 1) p.
Proof. intros Hok. destruct p; simpl in *; try done; try lia; destruct_and?; split_and!; try lia; done. Qed.

Section lifo_steps.
Context {k : Z} {c : lifo_conf} {st : list Z} (t : nat).
Hypothesis HR : lifo_rel k c st.

Lemma private_in pc n : threads c !! t = Some pc -> l_private pc = Some n -> n ∈ omap l_private (threads c).
Proof. intros Ht Hn. apply list_elem_of_omap. exists pc. split; [by eapply list_elem_of_lookup_2|done]. Qed.

Lemma private_out pc n : threads c !! t = Some pc -> l_private pc = Some n ->
  (n ∉ st) /\ is_Some (l_heap (shared c) !! n) /\ n <> NULL.
Proof using HR.
  intros Ht Hn. pose proof (private_in _ _ Ht Hn) as Hin. pose proof (lr_nd _ _ _ HR) as Hnd. unfold l_nodes in Hnd.
  apply NoDup_app in Hnd as (_ & Hd & _). assert (n ∈ l_nodes c st) as Ha by (unfold l_nodes; set_solver).
  split_and!; [intros Hs; apply (Hd n Hs); set_solver|by apply HR|]. intros ->. by apply (lr_null _ _ _ HR).
Qed.

(** A step that only moves the program point. *)
Lemma lifo_local pc pc' : threads c !! t = Some pc -> l_private pc' = l_private pc ->
  lifo_ok (shared c) (l_counter (shared c)) pc' ->
  lifo_rel (k + 1) (Conf (shared c) (<[t:=pc']> (threads c))) st.
Proof using HR.
  intros Ht Hp Hok. pose proof (lr_count _ _ _ HR). eapply lifo_rel_step; eauto; try apply HR; try lia.
  unfold l_nodes. cbn [shared threads]. by rewrite (omap_insert_same l_private _ _ _ _ Ht Hp).
Qed.

Lemma lifo_push_next n ctr hd h : threads c !! t = Some (LPushNext n ctr hd) ->
  store_next (l_heap (shared c)) n hd = Some h ->
  lifo_rel (k + 1) (Conf (LShared h (l_counter (shared c)) (l_head (shared c)) (l_owned (shared c)))
    (<[t:=LPushCas n ctr hd]> (threads c))) st.
Proof using HR.
  intros Ht Hs. pose proof (lr_count _ _ _ HR). destruct (private_out _ n Ht eq_refl) as (Hns & _ & _).
  pose proof (lr_ok _ _ _ HR _ _ Ht) as Hok. simpl in Hok.
  eapply lifo_rel_step; [exact HR|exact Ht|..]; simpl; try lia.
  - eapply stack_at_heap; [|apply HR]. intros a Ha. apply (store_next_other _ _ _ _ _ Hs). by intros ->.
  - unfold l_nodes. cbn [shared threads l_owned]. by rewrite (omap_insert_same l_private _ _ _ (LPushCas n ctr hd) Ht eq_refl).
  - intros a. apply (store_next_dom _ _ _ _ _ Hs).
  - split; [lia|]. by apply (store_next_same _ _ _ _ Hs).
  - intros i p Hi Hp Ho. eapply lifo_ok_heap; [apply HR|exact Hns| | | |exact Ho].
    + intros E. apply Hi. eapply (omap_NoDup_inj l_private (threads c) i t p _ n); [|done|done|done|done].
      pose proof (lr_nd _ _ _ HR) as Hnd. unfold l_nodes in Hnd. apply NoDup_app in Hnd as (_ & _ & Hnd). by apply NoDup_app in Hnd as (? & _).
    + intros a Ha. by apply (store_next_other _ _ _ _ _ Hs).
    + intros a. apply (store_next_dom _ _ _ _ _ Hs).
Qed.

Lemma lifo_push_cas n ctr hd s' : k + 1 < 2 ^ 64 -> threads c !! t = Some (LPushCas n ctr hd) ->
  compare_and_swap2 (shared c) ctr hd n = Some s' ->
  lifo_rel (k + 1) (Conf s' (<[t:=LIdle]> (threads c))) (n :: st).
Proof using HR.
  intros Hk Ht Hs. pose proof (lr_count _ _ _ HR) as Hc. destruct (private_out _ n Ht eq_refl) as (Hns & _ & Hn0).
  destruct (lr_ok _ _ _ HR _ _ Ht) as [_ Hnx]. unfold compare_and_swap2 in Hs.
  destruct (Z.eqb_spec (l_counter (shared c)) ctr) as [E1|]; [|done].
  destruct (Z.eqb_spec (l_head (shared c)) hd) as [E2|]; [|done]. simpl in Hs. simplify_eq.
  rewrite u64_small by lia. eapply lifo_rel_step; [exact HR|exact Ht|..]; simpl; try lia.
  - split; [done|]. split; [done|]. exists (l_head (shared c)). split; [done|apply HR].
  - unfold l_nodes. cbn [shared threads l_owned].
    rewrite (omap_insert_del l_private _ _ _ LIdle n Ht eq_refl eq_refl). simpl. by rewrite <- Permutation_middle.
  - done.
  - intros i p Hi Hp Ho. by apply lifo_ok_swap.
Qed.

Lemma lifo_pop_cas ctr hd nx s' : k + 1 < 2 ^ 64 -> threads c !! t = Some (LPopCas ctr hd nx) ->
  compare_and_swap2 (shared c) ctr hd nx = Some s' ->
  exists st', st = hd :: st' /\ lifo_rel (k + 1) (Conf (LShared (l_heap s') (l_counter s') (l_head s') ({[hd]} ∪ l_owned s'))
    (<[t:=LIdle]> (threads c))) st'.
Proof using HR.
  intros Hk Ht Hs. pose proof (lr_count _ _ _ HR) as Hc. destruct (lr_ok _ _ _ HR _ _ Ht) as (_ & Hn & Hnx).
  unfold compare_and_swap2 in Hs. destruct (Z.eqb_spec (l_counter (shared c)) ctr) as [E1|]; [|done].
  destruct (Z.eqb_spec (l_head (shared c)) hd) as [E2|]; [|done]. simpl in Hs. simplify_eq.
  specialize (Hnx eq_refl eq_refl). pose proof (lr_stack _ _ _ HR) as Hst.
  destruct (stack_at_top _ _ _ Hst Hn) as [st' Est]. exists st'. split; [done|].
  rewrite Est in Hst. destruct Hst as (_ & _ & nx' & Hnx' & Hst). rewrite Hnx in Hnx'. injection Hnx' as <-.
  pose proof (lr_nd _ _ _ HR) as Hnd. unfold l_nodes in Hnd. rewrite Est in Hnd. simpl in Hnd.
  apply NoDup_cons in Hnd as [Hout _].
  rewrite u64_small by lia. eapply lifo_rel_step; [exact HR|exact Ht|..]; simpl; try lia; try done.
  - unfold l_nodes. cbn [shared threads l_owned]. rewrite Est, (omap_insert_same l_private _ _ _ LIdle Ht eq_refl).
    rewrite elements_disj_union by set_solver. rewrite elements_singleton. simpl.
    rewrite !app_assoc. by rewrite <- Permutation_middle.
  - intros i p Hi Hp Ho. by apply lifo_ok_swap.
Qed.

End lifo_steps.

Lemma lifo_simulation k lbl c c' evs st : k + 1 < 2 ^ 64 ->
  lifo_rel k c st -> lifo_step lbl c = Some (c', evs) ->
  exists st', spec_run stack_spec evs st = Some st' /\ lifo_rel (k + 1) c' st'.
Proof.
  destruct lbl as [t ch]. intros Hk HR Hstep.
  apply conf_step_inv in Hstep as (pc & s' & pc' & Ht & Hs & ->).
  pose proof (lr_ok _ _ _ HR _ _ Ht) as Hok. pose proof (lr_count _ _ _ HR) as Hc.
  pose proof (lr_stack _ _ _ HR) as Hst.
  assert (forall n, n ∈ l_owned (shared c) -> (n ∉ st) /\ forall i p, threads c !! i = Some p -> l_private p <> Some n) as Hown.
  { intros n Hn. pose proof (lr_nd _ _ _ HR) as Hnd. unfold l_nodes in Hnd. apply NoDup_app in Hnd as (_ & H1 & Hnd).
    apply NoDup_app in Hnd as (_ & H2 & _). split; [intros Hx; apply (H1 n Hx); set_solver|].
    intros i p Hi E. apply (H2 n); [|by apply elem_of_elements]. apply list_elem_of_omap.
    exists p. split; [by eapply list_elem_of_lookup_2|done]. }
  destruct ch as [n| | |n nd], pc; try discriminate Hs; cbn [lifo_tstep mpmc_lifo_push mpmc_lifo_pop] in Hs; simpl in Hok.
  - case_decide as Hn; simplify_eq. exists st. split; [done|].
    eapply lifo_rel_step; [exact HR|exact Ht|..]; simpl; try done; try lia.
    unfold l_nodes. cbn [shared threads l_owned]. rewrite (omap_insert_add l_private _ _ _ (LPushCounter n) n Ht eq_refl eq_refl).
    assert (elements (l_owned (shared c)) ≡ₚ n :: elements (l_owned (shared c) ∖ {[n]})) as E.
    { rewrite <- (elements_union_singleton (l_owned (shared c) ∖ {[n]}) n) by set_solver. f_equiv.
      rewrite <- union_difference_singleton by done. done. }
    rewrite E. simpl. by rewrite Permutation_middle.
  - simplify_eq. exists st. split; [done|]. by eapply lifo_local.
  - simplify_eq. exists st. split; [done|]. eapply lifo_local; try done. simpl. lia.
  - simplify_eq. exists st. split; [done|]. by eapply lifo_local.
  - destruct (store_next _ _ _) as [h|] eqn:E; simplify_eq/=. exists st. split; [done|]. by eapply lifo_push_next.
  - destruct (compare_and_swap2 _ _ _ _) as [s1|] eqn:E; simplify_eq.
    + exists (new_node :: st). split; [done|]. by eapply lifo_push_cas.
    + exists st. split; [done|]. by eapply lifo_local.
  - simplify_eq. exists st. split; [done|]. eapply lifo_local; try done. simpl. lia.
  - destruct (Z.eqb_spec (l_head (shared c)) NULL) as [E|E]; simplify_eq; exists st.
    + rewrite E in Hst. apply stack_at_nonempty in Hst as ->. split; [done|]. by eapply lifo_local.
    + split; [done|]. eapply lifo_local; try done. simpl. split_and!; [lia..|done|].
      destruct (stack_at_top _ _ _ Hst E) as [st' ->]. apply (lr_alloc _ _ _ HR). unfold l_nodes. set_solver.
  - destruct (load_next _ head) as [nx|] eqn:E; simplify_eq/=. exists st. split; [done|].
    eapply lifo_local; try done. simpl. naive_solver.
  - destruct (compare_and_swap2 _ _ _ _) as [s1|] eqn:E; simplify_eq.
    + destruct (lifo_pop_cas t HR _ _ _ _ Hk Ht E) as (st' & -> & HR'). exists st'. split; [|done].
      simpl. by rewrite Z.eqb_refl.
    + exists st. split; [done|]. by eapply lifo_local.
  - case_decide as Hn; simplify_eq. exists st. split; [done|]. destruct (Hown n Hn) as [Hns Hnp].
    assert (forall a, is_Some (l_heap (shared c) !! a) -> is_Some (<[n:=nd]> (l_heap (shared c)) !! a)) as Hdom.
    { intros a Ha. rewrite lookup_insert. case_decide; eauto. }
    assert (forall a, a <> n -> load_next (<[n:=nd]> (l_heap (shared c))) a = load_next (l_heap (shared c)) a) as Hsame.
    { intros a Ha. unfold load_next. by rewrite lookup_insert_ne. }
    eapply lifo_rel_step; [exact HR|exact Ht|..]; simpl; try done; try lia.
    + eapply stack_at_heap; [|exact Hst]. intros a Ha. apply Hsame. by intros ->.
    + unfold l_nodes. cbn [shared threads l_owned]. by rewrite (omap_insert_same l_private _ _ _ LIdle Ht eq_refl).
    + intros i p Hi Hp Ho. eapply lifo_ok_heap; [exact Hst|exact Hns|by eapply Hnp|done|done|done].
Qed.

Lemma lifo_init_rel m n : lifo_rel 0 (lifo_init m n) [].
Proof.
  assert (omap l_private (replicate n LIdle) = []) as Hom by (induction n as [|k IH]; [done|by csimpl]).
  assert (l_nodes (lifo_init m n) [] ≡ₚ seqZ 1 (Z.of_nat m)) as Hn.
  { unfold l_nodes, lifo_init. simpl. rewrite Hom. simpl. by rewrite elements_list_to_set by apply NoDup_seqZ. }
  split; rewrite ?Hn; try done; simpl.
  - apply NoDup_seqZ.
  - intros H%elem_of_seqZ. unfold NULL in H. lia.
  - intros a. rewrite Hn. intros Ha. exists (Node 0 NULL). apply lookup_gset_to_gmap_Some. split; [|done].
    by apply elem_of_list_to_set.
  - by intros t pc [-> _]%lookup_replicate.
Qed.

Lemma lifo_run_rel m n ls c evs : Z.of_nat (length ls) < 2 ^ 64 ->
  run lifo_step ls (lifo_init m n) = Some (c, evs) ->
  exists k st, spec_run stack_spec evs [] = Some st /\ lifo_rel k c st.
Proof.
  intros Hb Hrun.
  destruct (run_simulation lifo_step stack_spec (2 ^ 64) lifo_rel)
    with (ls := ls) (n := 0) (s := lifo_init m n) (s' := c) (evs := evs) (a := @nil Z)
    as (st & Hs & HR); eauto using lifo_init_rel.
  intros k l s s' e a Hk HR Hs. by apply (lifo_simulation k l s s' e a).
Qed.

(** ** Properties *)

(** C26: Last in, first out, without ABA.  In every interleaving of pushes and
    pops, with popped nodes rewritten and pushed again at will, the pushes and
    pops are those of a sequential stack of nodes, and an empty answer means an
    empty stack.  The bound keeps the 64-bit counter from wrapping around. *)
Theorem lifo_refines_stack m n ls c evs : Z.of_nat (length ls) < 2 ^ 64 ->
  run lifo_step ls (lifo_init m n) = Some (c, evs) ->
  exists st, spec_run stack_spec evs [] = Some st.
Proof. intros Hb Hrun. destruct (lifo_run_rel _ _ _ _ _ Hb Hrun) as (k & st & Hs & _). by exists st. Qed.

(** No operation gets stuck: every access goes to an allocated node. *)
Theorem lifo_no_fault m n ls c evs t pc : Z.of_nat (length ls) < 2 ^ 64 ->
  run lifo_step ls (lifo_init m n) = Some (c, evs) -> threads c !! t = Some pc -> pc <> LIdle ->
  exists c' e, lifo_step (t, LGo) c = Some (c', e).
Proof.
  intros Hb Hrun Ht Hne. destruct (lifo_run_rel _ _ _ _ _ Hb Hrun) as (k & st & _ & HR).
  pose proof (lr_ok _ _ _ HR _ _ Ht) as Hok.
  assert (exists s' pc' e, lifo_tstep t LGo (shared c) pc = Some (s', pc', e)) as (s' & pc' & e & Hs).
  { destruct pc; try done; simpl in *; eauto.
    - destruct (private_out t HR _ new_node Ht eq_refl) as (_ & [nd Hnd] & _). unfold store_next. rewrite Hnd. simpl. eauto.
    - destruct (compare_and_swap2 _ _ _ _); eauto.
    - destruct (Z.eqb _ _); eauto.
    - destruct Hok as (_ & _ & [nd Hnd]). unfold load_next. rewrite Hnd. simpl. eauto.
    - destruct (compare_and_swap2 _ _ _ _); eauto. }
  exists (Conf s' (<[t:=pc']> (threads c))), e. unfold lifo_step, conf_step; cbn [fst snd]. by rewrite Ht, Hs.
Qed.

(** Freeing a stack: the loop ends after one iteration per node and frees
    exactly the nodes of the stack. *)
Lemma lifo_destroy_frees st : forall h hd fuel, stack_at h hd st -> NoDup st -> (length st < fuel)%nat ->
  exists h', mpmc_lifo_destroy fuel h hd = Some h' /\
    forall a, h' !! a = if decide (a ∈ st) then None else h !! a.
Proof.
  induction st as [|n st IH]; intros h hd fuel Hst Hnd Hf; (destruct fuel as [|fuel]; [simpl in Hf; lia|]); simpl.
  - simpl in Hst. subst. exists h. split; [done|]. done.
  - destruct Hst as (-> & Hn & nx & Hnx & Hst). apply NoDup_cons in Hnd as [Hout Hnd].
    rewrite (proj2 (Z.eqb_neq _ _)) by done. rewrite Hnx. simpl.
    destruct (IH (delete n h) nx fuel) as (h' & Hh & Ha); [|done|simpl in Hf; lia|].
    + eapply stack_at_heap; [|exact Hst]. intros a Hin. unfold load_next. rewrite lookup_delete_ne; [done|]. by intros ->.
    + exists h'. split; [done|]. intros a. rewrite Ha, lookup_delete.
      destruct (decide (n = a)), (decide (a ∈ st)), (decide (a ∈ n :: st)); try done; set_solver.
Qed.

(** Thread 1 reads the head 1 and its successor 2; meanwhile thread 0 pops both
    nodes and pushes node 1 again; the swap of thread 1 fails. *)
Definition lifo_demo : list (nat * lifo_choice) :=
  let push n := (0%nat, LCallPush n) :: replicate 4 (0%nat, LGo) in
  let pop := (0%nat, LCallPop) :: replicate 4 (0%nat, LGo) in
  push 2 ++ push 1 ++ (1%nat, LCallPop) :: replicate 3 (1%nat, LGo) ++ pop ++ pop ++
  (0%nat, LScribble 1 (Node 7 3)) :: push 1 ++ [(1%nat, LGo)].

Lemma lifo_refines_stack_witness : exists st,
  spec_run stack_spec [EvPush 2; EvPush 1; EvPop 1; EvPop 2; EvPush 1] [] = Some st.
Proof.
  refine (lifo_refines_stack 2 2 lifo_demo _ [EvPush 2; EvPush 1; EvPop 1; EvPop 2; EvPush 1] _ _).
  - vm_compute. reflexivity.
  - vm_compute. reflexivity.
Defined.

Lemma lifo_no_fault_witness : exists c : lifo_conf, run lifo_step (take 14 lifo_demo) (lifo_init 2 2) =
    Some (c, [EvPush 2; EvPush 1]) /\ exists c' e, lifo_step (1%nat, LGo) c = Some (c', e).
Proof.
  eexists. split; [vm_compute; reflexivity|].
  eapply (lifo_no_fault 2 2 (take 14 lifo_demo) _ [EvPush 2; EvPush 1] 1); [|vm_compute; reflexivity|reflexivity|discriminate].
  vm_compute. reflexivity.
Defined.
