(* ===== verification/MpmcStack.v ===== *)
(** * The lock-free stack that is flushed whole ([include/mpmc_stack.h])

    Any thread pushes with a compare-and-swap on the head; a consumer takes the
    whole stack with one exchange, newest node first, or oldest first after
    reversing the links, and walks it.  Nobody pops a single node, so the head
    needs no counter. *)

From S2P Require Import Prelude MpscFifo Lifo.

(** ** State *)

(** [k_owned]: the nodes the clients own, never read by the operations. *)
Record stack_shared := SkShared { k_heap : gmap Z node; k_head : Z; k_owned : gset Z }.

(** [tries]: of [mpmc_stack_push_timeout]; [None] in [mpmc_stack_push]. *)
Inductive stack_pc :=
| TIdle
| TLoad (n : Z) (tries : option Z)
| TNext (n head : Z) (tries : option Z)      (* n->next = head *)
| TCas (n head : Z) (tries : option Z)
| TFlush (fifo : bool)
| TReverse (head : Z)                        (* mpmc_stack_reverse of the flushed nodes *)
| TWalk (head : Z).                          (* the caller has the flushed nodes *)

Inductive stack_choice := TCallPush (n : Z) (tries : option Z) | TCallFlush (fifo : bool) | TGo | TSpurious.

(** [EvGot]: the caller of a flush takes the next node; [EvEnd]: it has reached
    the end of the list. *)
Inductive flush_ev := EvPushed (n : Z) | EvRetry (n : Z) | EvFlush (t : nat) (fifo : bool) | EvGot (t : nat) (n : Z) | EvEnd (t : nat).

(** ** Operations *)

Definition mpmc_stack_init (h : gmap Z node) (owned : gset Z) : stack_shared := SkShared h NULL owned.

(** The shared part of both pushes: [mpmc_stack_push] tries for ever,
    [mpmc_stack_push_timeout] counts its attempts down, in a [size_t]. *)
Definition mpmc_stack_push (spurious : bool) (s : stack_shared) (pc : stack_pc)
    : option (stack_shared * stack_pc * list flush_ev) :=
  match pc with
  | TLoad n tries => Some (s, TNext n (k_head s) tries, [])
  | TNext n head tries =>
      h ← store_next (k_heap s) n head; Some (SkShared h (k_head s) (k_owned s), TCas n head tries, [])
  | TCas n head tries =>
      if Z.eqb (k_head s) head && negb spurious then Some (SkShared (k_heap s) n (k_owned s), TIdle, [EvPushed n])
      else
        match tries with
        | None => Some (s, TNext n (k_head s) None, [])
        | Some k =>
            let k := u64 (k - 1) in
            if Z.ltb 0 k then Some (s, TNext n (k_head s) (Some k), [])
            else Some (SkShared (k_heap s) (k_head s) ({[n]} ∪ k_owned s), TIdle, [EvRetry n]) (* MPMC_RETRY *)
        end
  | _ => None
  end.

(** On a list of nodes that only the caller can reach. *)
Fixpoint mpmc_stack_reverse (fuel : nat) (h : gmap Z node) (head fifo : Z) : option (gmap Z node * Z) :=
  match fuel with
  | O => None
  | S fuel =>
      if Z.eqb head NULL then Some (h, fifo)
      else next ← load_next h head; h ← store_next h head fifo; mpmc_stack_reverse fuel h next head
  end.

(** [mpmc_stack_lifo_flush], and [mpmc_stack_fifo_flush] when [fifo]. *)
Definition mpmc_stack_lifo_flush (t : nat) (s : stack_shared) (pc : stack_pc)
    : option (stack_shared * stack_pc * list flush_ev) :=
  match pc with
  | TFlush fifo =>
      Some (SkShared (k_heap s) NULL (k_owned s), if fifo then TReverse (k_head s) else TWalk (k_head s), [EvFlush t fifo])
  | TReverse head =>
      '(h, fifo) ← mpmc_stack_reverse (S (size (k_heap s))) (k_heap s) head NULL;
      Some (SkShared h (k_head s) (k_owned s), TWalk fifo, [])
  | _ => None
  end.

(** The caller of a flush takes node after node. *)
Definition stack_walk (t : nat) (s : stack_shared) (head : Z) : option (stack_shared * stack_pc * list flush_ev) :=
  if Z.eqb head NULL then Some (s, TIdle, [EvEnd t])
  else next ← load_next (k_heap s) head; Some (SkShared (k_heap s) (k_head s) ({[head]} ∪ k_owned s), TWalk next, [EvGot t head]).

Definition stack_tstep (t : nat) (ch : stack_choice) (s : stack_shared) (pc : stack_pc)
    : option (stack_shared * stack_pc * list flush_ev) :=
  match ch, pc with
  | TCallPush n tries, TIdle =>
      if decide (n ∈ k_owned s) then Some (SkShared (k_heap s) (k_head s) (k_owned s ∖ {[n]}), TLoad n tries, []) else None
  | TCallFlush fifo, TIdle => Some (s, TFlush fifo, [])
  | TGo, (TLoad _ _ | TNext _ _ _ | TCas _ _ _) => mpmc_stack_push false s pc
  | TSpurious, TCas _ _ _ => mpmc_stack_push true s pc
  | TGo, (TFlush _ | TReverse _) => mpmc_stack_lifo_flush t s pc
  | TGo, TWalk head => stack_walk t s head
  | _, _ => None
  end.

Definition stack_conf := conf stack_shared stack_pc.
Definition stack_step := conf_step stack_tstep.
Definition stack_init (m n : nat) : stack_conf :=
  let own : gset Z := list_to_set (seqZ 1 (Z.of_nat m)) in
  Conf (mpmc_stack_init (gset_to_gmap (Node 0 NULL) own) own) (replicate n TIdle).

(** The stack, and what each thread has flushed and not looked at yet. *)
Definition flush_spec (e : flush_ev) (a : list Z * list (list Z)) : option (list Z * list (list Z)) :=
  let '(st, outs) := a in
  match e with
  | EvPushed n => Some (n :: st, outs)
  | EvRetry _ => Some a
  | EvFlush t fifo =>
      if decide (outs !! t = Some []) then Some ([], <[t:=if fifo then reverse st else st]> outs) else None
  | EvGot t n =>
      match outs !! t with
      | Some (x :: out) => if Z.eqb n x then Some (st, <[t:=out]> outs) else None
      | _ => None
      end
  | EvEnd t => if decide (outs !! t = Some []) then Some a else None
  end.

(** ** Reversal *)

Lemma stack_at_alloc h hd st : stack_at h hd st -> forall a, a ∈ st -> is_Some (h !! a).
Proof.
  revert hd. induction st as [|n st IH]; intros hd Hs a Ha; [set_solver|].
  destruct Hs as (-> & _ & nx & Hnx & Hs). apply elem_of_cons in Ha as [->|Ha]; [|by eapply IH].
  unfold load_next in Hnx. destruct (h !! n); [eauto|done].
Qed.

Lemma stack_at_length h hd st : NoDup st -> stack_at h hd st -> (length st <= size h)%nat.
Proof.
  intros Hnd Hs. rewrite <- (size_list_to_set (C := gset Z) st) by done. rewrite <- size_dom. apply subseteq_size.
  intros a Ha%elem_of_list_to_set. by apply elem_of_dom, (stack_at_alloc _ _ _ Hs).
Qed.

(** The loop ends within one iteration per node, links the nodes the other way
    round and touches no other node. *)
Lemma stack_reverse_spec a : forall h head fifo b fuel, NoDup (a ++ b) -> stack_at h head a -> stack_at h fifo b ->
  (length a < fuel)%nat ->
  exists h' hd, mpmc_stack_reverse fuel h head fifo = Some (h', hd) /\ stack_at h' hd (reverse a ++ b) /\
    (forall x, x ∉ a -> load_next h' x = load_next h x) /\ (forall x, is_Some (h' !! x) <-> is_Some (h !! x)).
Proof.
  induction a as [|n a IH]; intros h head fifo b fuel Hnd Ha Hb Hf; (destruct fuel as [|fuel]; [simpl in Hf; lia|]); simpl.
  - simpl in Ha. subst. exists h, fifo. done.
  - destruct Ha as (-> & Hn & next & Hnx & Ha). rewrite (proj2 (Z.eqb_neq _ _)) by done. rewrite Hnx. simpl.
    simpl in Hnd. apply NoDup_cons in Hnd as [Hout Hnd]. rewrite not_elem_of_app in Hout. destruct Hout as [Hna Hnb].
    assert (exists h1, store_next h n fifo = Some h1) as [h1 Es].
    { unfold store_next. unfold load_next in Hnx. destruct (h !! n); [simpl; eauto|done]. }
    rewrite Es. simpl.
    assert (forall x, x <> n -> load_next h1 x = load_next h x) as Hs by (intros; by eapply store_next_other).
    destruct (IH h1 next n (n :: b) fuel) as (h' & hd & Hr & Hst & Ho & Hd).
    + rewrite <- Permutation_middle. constructor; [set_solver|done].
    + eapply stack_at_heap; [|exact Ha]. intros x Hx. apply Hs. by intros ->.
    + split; [done|]. split; [done|]. exists fifo. split; [by eapply store_next_same|].
      eapply stack_at_heap; [|exact Hb]. intros x Hx. apply Hs. by intros ->.
    + simpl in Hf. lia.
    + exists h', hd. split; [done|]. rewrite reverse_cons, <- app_assoc. split; [done|]. split.
      * intros x Hx. rewrite Ho by set_solver. apply Hs. set_solver.
      * intros x. rewrite Hd. by eapply store_next_dom.
Qed.

(** ** Invariant *)

Definition k_private (pc : stack_pc) : option Z :=
  match pc with TLoad n _ | TNext n _ _ | TCas n _ _ => Some n | _ => None end.

Definition k_nodes (c : stack_conf) (a : list Z * list (list Z)) : list Z :=
  a.1 ++ omap k_private (threads c) ++ concat a.2 ++ elements (k_owned (shared c)).

(** [out]: what the thread has flushed and not taken. *)
Definition stack_ok (h : gmap Z node) (pc : stack_pc) (out : list Z) : Prop :=
  match pc with
  | TReverse head => stack_at h head (reverse out)
  | TWalk head => stack_at h head out
  | TCas n head _ => out = [] /\ load_next h n = Some head
  | _ => out = []
  end.

Record stack_rel (c : stack_conf) (a : list Z * list (list Z)) : Prop := {
  sk_stack : stack_at (k_heap (shared c)) (k_head (shared c)) a.1;
  sk_nd : NoDup (k_nodes c a);
  sk_null : NULL ∉ k_nodes c a;
  sk_alloc : forall x, x ∈ k_nodes c a -> is_Some (k_heap (shared c) !! x);
  sk_len : length a.2 = length (threads c);
  sk_ok : forall t pc out, threads c !! t = Some pc -> a.2 !! t = Some out -> stack_ok (k_heap (shared c)) pc out
}.

(** ** Preservation *)

Lemma stack_rel_step c a t pc s' pc' st' out out' : stack_rel c a -> threads c !! t = Some pc -> a.2 !! t = Some out ->
  stack_at (k_heap s') (k_head s') st' ->
  k_nodes (Conf s' (<[t:=pc']> (threads c))) (st', <[t:=out']> a.2) ≡ₚ k_nodes c a ->
  (forall x, is_Some (k_heap (shared c) !! x) -> is_Some (k_heap s' !! x)) ->
  stack_ok (k_heap s') pc' out' ->
  (forall i p o, i <> t -> threads c !! i = Some p -> a.2 !! i = Some o ->
     stack_ok (k_heap (shared c)) p o -> stack_ok (k_heap s') p o) ->
  stack_rel (Conf s' (<[t:=pc']> (threads c))) (st', <[t:=out']> a.2).
Proof.
  intros HR Ht Ho Hst Hn Hd Hok Hoks. split; cbn [shared threads fst snd]; rewrite ?Hn; try apply HR; auto.
  - intros x. rewrite Hn. intros Hx. by apply Hd, (sk_alloc _ _ HR).
  - rewrite !length_insert. apply HR.
  - intros i p o Hi Hio. apply lookup_insert_cases in Hi as [(-> & ->)|(Hne & Hi)].
    + rewrite list_lookup_insert_eq in Hio by (by eapply lookup_lt_Some). by simplify_eq.
    + rewrite list_lookup_insert_ne in Hio by done. apply (Hoks i p o); auto. by eapply (sk_ok _ _ HR).
Qed.

(** A step that leaves the abstract state alone. *)
Lemma stack_rel_same c a t pc s' pc' out : stack_rel c a -> threads c !! t = Some pc -> a.2 !! t = Some out ->
  stack_at (k_heap s') (k_head s') a.1 ->
  omap k_private (<[t:=pc']> (threads c)) ++ elements (k_owned s') ≡ₚ omap k_private (threads c) ++ elements (k_owned (shared c)) ->
  (forall x, is_Some (k_heap (shared c) !! x) -> is_Some (k_heap s' !! x)) ->
  stack_ok (k_heap s') pc' out ->
  (forall i p o, i <> t -> threads c !! i = Some p -> a.2 !! i = Some o ->
     stack_ok (k_heap (shared c)) p o -> stack_ok (k_heap s') p o) ->
  stack_rel (Conf s' (<[t:=pc']> (threads c))) a.
Proof.
  intros HR Ht Ho Hst Hn Hd Hok Hoks.
  assert (stack_rel (Conf s' (<[t:=pc']> (threads c))) (a.1, <[t:=out]> a.2)) as Hrel.
  { apply (stack_rel_step c a t pc s' pc' a.1 out out); auto. unfold k_nodes. cbn [shared threads fst snd]. rewrite (list_insert_id a.2) by done. f_equiv.
    by rewrite !(Permutation_app_swap_app _ (concat a.2)), Hn. }
  rewrite (list_insert_id a.2) in Hrel by done. by destruct a.
Qed.

Section stack_steps.
Context {c : stack_conf} {a : list Z * list (list Z)} (t : nat).
Hypothesis HR : stack_rel c a.

Lemma stack_out_of pc : threads c !! t = Some pc -> exists out, a.2 !! t = Some out /\ stack_ok (k_heap (shared c)) pc out.
Proof using HR.
  intros Ht. destruct (lookup_lt_is_Some_2 a.2 t) as [out Ho].
  - rewrite (sk_len _ _ HR). by eapply lookup_lt_Some.
  - exists out. split; [done|]. by eapply (sk_ok _ _ HR).
Qed.

(** Three disjoint places: the stack, the nodes of the threads, the clients. *)
Lemma stack_disjoint : NoDup a.1 /\ NoDup (omap k_private (threads c)) /\ NoDup (concat a.2) /\
  (forall x, x ∈ omap k_private (threads c) -> (x ∉ a.1) /\ (x ∉ concat a.2)) /\
  (forall x, x ∈ concat a.2 -> x ∉ a.1).
Proof using HR.
  pose proof (sk_nd _ _ HR) as Hnd. unfold k_nodes in Hnd. rewrite !NoDup_app in Hnd.
  destruct Hnd as (H1 & H2 & H3 & H4 & H5 & H6 & H7). split_and!; auto.
  - intros x Hx. split; [intros Hy; apply (H2 x Hy); set_solver|intros Hy; apply (H4 x Hx); set_solver].
  - intros x Hx Hy. apply (H2 x Hy). set_solver.
Qed.

Lemma flushed_in i out x : a.2 !! i = Some out -> x ∈ out -> x ∈ concat a.2.
Proof. intros Hi Hx. apply list_elem_of_In, in_concat. exists out. split; apply list_elem_of_In; [by eapply list_elem_of_lookup_2|done]. Qed.

(** Writing the [next] field of nodes that thread [t] alone can reach. *)
Lemma stack_ok_heap h' i p o : (forall x, (x ∈ omap k_private (threads c) -> forall pc, threads c !! t = Some pc -> k_private pc <> Some x) ->
    (forall out, a.2 !! t = Some out -> x ∉ out) -> load_next h' x = load_next (k_heap (shared c)) x) ->
  i <> t -> threads c !! i = Some p -> a.2 !! i = Some o -> stack_ok (k_heap (shared c)) p o -> stack_ok h' p o.
Proof using HR.
  intros Hsame Hne Hp Ho Hok. destruct stack_disjoint as (_ & Hnp & Hnc & Hd1 & Hd2).
  assert (forall x, x ∈ o -> load_next h' x = load_next (k_heap (shared c)) x) as Hout.
  { intros x Hx. pose proof (flushed_in _ _ _ Ho Hx) as Hxc. apply Hsame.
    - intros Hpr. by destruct (Hd1 x Hpr) as [_ []].
    - intros out Hot Hxo. apply Hne. by eapply concat_NoDup_inj. }
  destruct p; simpl in *; try done.
  - destruct Hok as [? Hl]. split; [done|]. rewrite Hsame; [done| |].
    + intros _ pc Hpc E. apply Hne. by eapply (omap_NoDup_inj k_private (threads c) i t).
    + intros out Hot Hx. assert (n ∈ omap k_private (threads c)) as Hin.
      { apply list_elem_of_omap. eexists. by split; [eapply list_elem_of_lookup_2|]. }
      destruct (Hd1 n Hin) as [_ Hc]. by apply Hc, (flushed_in _ _ _ Hot).
  - eapply stack_at_heap; [|exact Hok]. intros x Hx. apply Hout. set_solver.
  - by eapply stack_at_heap.
Qed.

(** A step that touches no node and none of the lists. *)
Lemma stack_local pc pc' s' : threads c !! t = Some pc -> k_private pc' = k_private pc ->
  k_heap s' = k_heap (shared c) -> k_head s' = k_head (shared c) -> k_owned s' = k_owned (shared c) ->
  (forall out, stack_ok (k_heap (shared c)) pc out -> stack_ok (k_heap (shared c)) pc' out) ->
  stack_rel (Conf s' (<[t:=pc']> (threads c))) a.
Proof using HR.
  intros Ht Hp E1 E2 E3 Hok. destruct (stack_out_of _ Ht) as (out & Ho & Hout).
  eapply stack_rel_same; [exact HR|exact Ht|exact Ho|..]; rewrite ?E1, ?E2; auto.
  - apply HR.
  - by rewrite E3, (omap_insert_same k_private _ _ _ pc' Ht Hp).
Qed.

Lemma stack_store n head tries h : threads c !! t = Some (TNext n head tries) -> store_next (k_heap (shared c)) n head = Some h ->
  stack_rel (Conf (SkShared h (k_head (shared c)) (k_owned (shared c))) (<[t:=TCas n head tries]> (threads c))) a.
Proof using HR.
  intros Ht Hs. destruct (stack_out_of _ Ht) as (out & Ho & Hout). simpl in Hout. subst out.
  destruct stack_disjoint as (_ & Hnp & _ & Hd1 & _).
  assert (n ∈ omap k_private (threads c)) as Hin by (apply list_elem_of_omap; eexists; by split; [eapply list_elem_of_lookup_2|]).
  eapply stack_rel_same; [exact HR|exact Ht|exact Ho|..]; simpl.
  - eapply stack_at_heap; [|apply HR]. intros x Hx. eapply store_next_other; [exact Hs|]. intros ->. by destruct (Hd1 n Hin) as [[] _].
  - by rewrite (omap_insert_same k_private _ _ _ (TCas n head tries) Ht eq_refl).
  - intros x. by eapply store_next_dom.
  - split; [done|]. by eapply store_next_same.
  - intros i p o Hne Hp Hio. apply (stack_ok_heap h i p o); try done. intros x Hx _.
    eapply store_next_other; [exact Hs|]. intros ->. by apply (Hx Hin _ Ht).
Qed.

(** The exchange of a push. *)
Lemma stack_pushed n tries : threads c !! t = Some (TCas n (k_head (shared c)) tries) ->
  stack_rel (Conf (SkShared (k_heap (shared c)) n (k_owned (shared c))) (<[t:=TIdle]> (threads c))) (n :: a.1, a.2).
Proof using HR.
  intros Ht. destruct (stack_out_of _ Ht) as (out & Ho & Hout & Hnx). subst out.
  assert (n ∈ k_nodes c a) as Hin.
  { unfold k_nodes. rewrite !elem_of_app. right. left. apply list_elem_of_omap. eexists. by split; [eapply list_elem_of_lookup_2|]. }
  rewrite <- (list_insert_id a.2 t []) by done. eapply stack_rel_step; [exact HR|exact Ht|exact Ho|..]; simpl; try done.
  - split; [done|]. split; [|exists (k_head (shared c)); split; [done|apply HR]]. intros ->. by apply (sk_null _ _ HR).
  - unfold k_nodes. cbn [shared threads fst snd k_owned]. rewrite (list_insert_id a.2) by done.
    rewrite (omap_insert_del k_private _ _ _ TIdle n Ht eq_refl eq_refl). simpl. by rewrite <- Permutation_middle.
Qed.

(** A node goes from the caller to a push, and back when the push gives up. *)
Lemma stack_call n tries : threads c !! t = Some TIdle -> n ∈ k_owned (shared c) ->
  stack_rel (Conf (SkShared (k_heap (shared c)) (k_head (shared c)) (k_owned (shared c) ∖ {[n]})) (<[t:=TLoad n tries]> (threads c))) a.
Proof using HR.
  intros Ht Hn. destruct (stack_out_of _ Ht) as (out & Ho & Hout). simpl in Hout. subst out.
  eapply stack_rel_same; [exact HR|exact Ht|exact Ho|..]; simpl; try done; [apply HR|].
  rewrite (omap_insert_add k_private _ _ _ (TLoad n tries) n Ht eq_refl eq_refl).
  rewrite (elements_take _ _ Hn). simpl. by rewrite <- Permutation_middle.
Qed.

Lemma stack_retry n head k : threads c !! t = Some (TCas n head k) ->
  stack_rel (Conf (SkShared (k_heap (shared c)) (k_head (shared c)) ({[n]} ∪ k_owned (shared c))) (<[t:=TIdle]> (threads c))) a.
Proof using HR.
  intros Ht. destruct (stack_out_of _ Ht) as (out & Ho & Hout & _). subst out.
  eapply stack_rel_same; [exact HR|exact Ht|exact Ho|..]; simpl; try done; [apply HR|].
  pose proof (sk_nd _ _ HR) as Hnd. unfold k_nodes in Hnd.
  pose proof (omap_insert_del k_private _ _ _ TIdle n Ht eq_refl eq_refl) as Hperm. rewrite Hperm in *.
  simpl in *. rewrite <- Permutation_middle in Hnd. apply NoDup_cons in Hnd as [Hout _].
  rewrite elements_union_singleton by set_solver. by rewrite <- !Permutation_middle.
Qed.

Lemma stack_failed n head tries s' pc' evs : threads c !! t = Some (TCas n head tries) ->
  match tries with
  | None => Some (shared c, TNext n (k_head (shared c)) None, [])
  | Some k =>
      let k := u64 (k - 1) in
      if Z.ltb 0 k then Some (shared c, TNext n (k_head (shared c)) (Some k), [])
      else Some (SkShared (k_heap (shared c)) (k_head (shared c)) ({[n]} ∪ k_owned (shared c)), TIdle, [EvRetry n])
  end = Some (s', pc', evs) ->
  exists a', spec_run flush_spec evs a = Some a' /\ stack_rel (Conf s' (<[t:=pc']> (threads c))) a'.
Proof using HR.
  intros Ht Hs. exists a. assert (forall o, stack_ok (k_heap (shared c)) (TCas n head tries) o -> o = []) as Ho by (by intros o []).
  destruct tries as [k|]; [cbn zeta in Hs; destruct (Z.ltb 0 (u64 (k - 1)))|]; injection Hs as <- <- <-.
  - split; [done|]. by eapply stack_local.
  - split; [by destruct a|]. by eapply stack_retry.
  - split; [done|]. by eapply stack_local.
Qed.

(** Taking the whole stack. *)
Lemma stack_flush (fifo : bool) : threads c !! t = Some (TFlush fifo) ->
  a.2 !! t = Some [] /\
  stack_rel (Conf (SkShared (k_heap (shared c)) NULL (k_owned (shared c)))
    (<[t:=if fifo then TReverse (k_head (shared c)) else TWalk (k_head (shared c))]> (threads c)))
    ([], <[t:=if fifo then reverse a.1 else a.1]> a.2).
Proof using HR.
  intros Ht. destruct (stack_out_of _ Ht) as (out & Ho & Hout). simpl in Hout. subst out. split; [done|].
  eapply stack_rel_step; [exact HR|exact Ht|exact Ho|..]; simpl; try done.
  - unfold k_nodes. cbn [shared threads fst snd k_owned]. rewrite (omap_insert_same k_private _ _ _ _ Ht) by (by destruct fifo).
    pose proof (concat_insert a.2 t [] (if fifo then reverse a.1 else a.1) Ho) as Hc. simpl in Hc. rewrite Hc. simpl.
    assert ((if fifo then reverse a.1 else a.1) ≡ₚ a.1) as -> by (destruct fifo; [apply reverse_Permutation|done]).
    rewrite !app_assoc. f_equiv. f_equiv. apply Permutation_app_comm.
  - destruct fifo; simpl; rewrite ?reverse_involutive; apply HR.
Qed.

Lemma stack_reversed head : threads c !! t = Some (TReverse head) ->
  exists h hd, mpmc_stack_reverse (S (size (k_heap (shared c)))) (k_heap (shared c)) head NULL = Some (h, hd) /\
    stack_rel (Conf (SkShared h (k_head (shared c)) (k_owned (shared c))) (<[t:=TWalk hd]> (threads c))) a.
Proof using HR.
  intros Ht. destruct (stack_out_of _ Ht) as (out & Ho & Hout). simpl in Hout.
  destruct stack_disjoint as (_ & _ & Hnc & Hd1 & Hd2).
  assert (NoDup out) as Hnd.
  { destruct (insert_split a.2 t out Ho) as (rest & E & _). apply list_elem_of_lookup_2 in Ho.
    apply list_elem_of_split in Ho as (l1 & l2 & El). rewrite El, concat_app, concat_cons in Hnc.
    apply NoDup_app in Hnc as (_ & _ & Hnc). by apply NoDup_app in Hnc as (? & _). }
  assert (NoDup (reverse out)) as Hndr by (by rewrite reverse_Permutation).
  destruct (stack_reverse_spec (reverse out) (k_heap (shared c)) head NULL [] (S (size (k_heap (shared c)))))
    as (h & hd & Hr & Hst & Hoth & Hdom); [by rewrite app_nil_r|done|done| |].
  { pose proof (stack_at_length _ _ _ Hndr Hout). lia. }
  exists h, hd. split; [done|]. rewrite app_nil_r, reverse_involutive in Hst.
  eapply stack_rel_same; [exact HR|exact Ht|exact Ho|..]; simpl; auto.
  - eapply stack_at_heap; [|apply HR]. intros x Hx. apply Hoth. rewrite elem_of_reverse. intros Hxo.
    by apply (Hd2 x); [eapply flushed_in|].
  - by rewrite (omap_insert_same k_private _ _ _ (TWalk hd) Ht eq_refl).
  - intros x. by rewrite Hdom.
  - intros i p o Hne Hp Hio. apply (stack_ok_heap h i p o); try done. intros x _ Hx. apply Hoth. rewrite elem_of_reverse. by apply Hx.
Qed.

Lemma stack_walked head s' pc' evs : threads c !! t = Some (TWalk head) -> stack_walk t (shared c) head = Some (s', pc', evs) ->
  exists a', spec_run flush_spec evs a = Some a' /\ stack_rel (Conf s' (<[t:=pc']> (threads c))) a'.
Proof using HR.
  intros Ht Hs. destruct (stack_out_of _ Ht) as (out & Ho & Hout). simpl in Hout. unfold stack_walk in Hs.
  destruct (Z.eqb_spec head NULL) as [->|Hne].
  - injection Hs as <- <- <-. apply stack_at_nonempty in Hout as ->. exists a. split.
    + destruct a as [st outs]. simpl in *. by rewrite decide_True.
    + eapply stack_local; try done. intros o Hst. simpl in Hst. by apply stack_at_nonempty in Hst.
  - destruct out as [|x out]; simpl in Hout; [done|]. destruct Hout as (-> & _ & next & Hnx & Hout). rewrite Hnx in Hs. simpl in Hs.
    injection Hs as <- <- <-. exists (a.1, <[t:=out]> a.2). split.
    + destruct a as [st outs]. simpl in *. by rewrite Ho, Z.eqb_refl.
    + assert (concat a.2 ≡ₚ x :: concat (<[t:=out]> a.2)) as Hperm.
      { pose proof (concat_insert a.2 t (x :: out) out Ho) as Hc. simpl in Hc. rewrite Permutation_middle in Hc.
        by apply Permutation_app_inv_l in Hc. }
      pose proof (sk_nd _ _ HR) as Hnd. unfold k_nodes in Hnd. rewrite Hperm in Hnd. simpl in Hnd.
      rewrite <- !Permutation_middle in Hnd. apply NoDup_cons in Hnd as [Hx _].
      eapply stack_rel_step; [exact HR|exact Ht|exact Ho|..]; simpl; try done; [apply HR|].
      unfold k_nodes. cbn [shared threads fst snd k_owned]. rewrite (omap_insert_same k_private _ _ _ (TWalk next) Ht eq_refl).
      rewrite Hperm, elements_union_singleton by set_solver. simpl. by rewrite <- !Permutation_middle.
Qed.
End stack_steps.

Lemma stack_simulation lbl c c' evs a : stack_rel c a -> stack_step lbl c = Some (c', evs) ->
  exists a', spec_run flush_spec evs a = Some a' /\ stack_rel c' a'.
Proof.
  destruct lbl as [t ch]. intros HR Hstep. apply conf_step_inv in Hstep as (pc & s' & pc' & Ht & Hs & ->).
  destruct ch as [n tries|fifo| |], pc; try discriminate Hs; cbn [stack_tstep mpmc_stack_push mpmc_stack_lifo_flush] in Hs.
  - case_decide; [|done]. injection Hs as <- <- <-. exists a. split; [done|]. by apply stack_call.
  - injection Hs as <- <- <-. exists a. split; [done|]. by eapply stack_local.
  - injection Hs as <- <- <-. exists a. split; [done|]. by eapply stack_local.
  - destruct (store_next _ _ _) as [h|] eqn:E; [|done]. injection Hs as <- <- <-. exists a. split; [done|]. by eapply stack_store.
  - rewrite andb_true_r in Hs. destruct (Z.eqb_spec (k_head (shared c)) head) as [<-|_].
    + injection Hs as <- <- <-. exists (n :: a.1, a.2). split; [by destruct a|]. by eapply stack_pushed.
    + eapply stack_failed; eauto.
  - injection Hs as <- <- <-. destruct (stack_flush t HR _ Ht) as [Ho Hrel]. eexists. split; [|exact Hrel].
    destruct a as [st outs]. simpl in *. by rewrite decide_True.
  - destruct (stack_reversed t HR _ Ht) as (h & hd & E & Hrel). rewrite E in Hs. injection Hs as <- <- <-. by exists a.
  - by eapply stack_walked.
  - rewrite andb_false_r in Hs. by eapply stack_failed.
Qed.

Lemma stack_init_rel m n : stack_rel (stack_init m n) ([], replicate n []).
Proof.
  assert (concat (replicate n ([] : list Z)) = []) as Hc by (induction n as [|k IH]; [done|by simpl]).
  assert (k_nodes (stack_init m n) ([], replicate n []) ≡ₚ seqZ 1 (Z.of_nat m)) as Hn.
  { unfold k_nodes, stack_init. simpl. rewrite omap_replicate_None, Hc by done. simpl.
    by rewrite elements_list_to_set by apply NoDup_seqZ. }
  split; rewrite ?Hn; try done; simpl.
  - apply NoDup_seqZ.
  - intros H%elem_of_seqZ. unfold NULL in H. lia.
  - intros a. rewrite Hn. intros Ha. exists (Node 0 NULL). apply lookup_gset_to_gmap_Some. split; [|done].
    by apply elem_of_list_to_set.
  - by rewrite !length_replicate.
  - by intros t pc out [-> _]%lookup_replicate [-> _]%lookup_replicate.
Qed.

Lemma stack_run_rel m n ls c evs : run stack_step ls (stack_init m n) = Some (c, evs) ->
  exists a, spec_run flush_spec evs ([], replicate n []) = Some a /\ stack_rel c a.
Proof.
  intros Hrun.
  destruct (run_simulation stack_step flush_spec (Z.of_nat (length ls) + 1) (fun _ => stack_rel))
    with (ls := ls) (n := 0) (s := stack_init m n) (s' := c) (evs := evs) (a := ([] : list Z, replicate n ([] : list Z)))
    as (a & Hs & HR); eauto using stack_init_rel; [|lia].
  intros k l s1 s2 e a _ HR Hs. by apply (stack_simulation l s1 s2).
Qed.

(** ** Properties *)

(** Everything pushed is flushed once, in order.  In every interleaving of
    pushes (with or without a limit of attempts, spurious failures included) and
    flushes, the nodes that the caller of a flush walks through are exactly those
    pushed since the previous flush: from the newest to the oldest after
    [mpmc_stack_lifo_flush], from the oldest to the newest after
    [mpmc_stack_fifo_flush].  Nothing is lost, duplicated or handed to two
    callers. *)
Theorem stack_flush_order m n ls c evs : run stack_step ls (stack_init m n) = Some (c, evs) ->
  exists st outs, spec_run flush_spec evs ([], replicate n []) = Some (st, outs) /\ NoDup (st ++ concat outs).
Proof.
  intros Hrun. destruct (stack_run_rel _ _ _ _ _ Hrun) as ([st outs] & Hs & HR). exists st, outs. split; [done|].
  pose proof (stack_disjoint HR) as (H1 & _ & H2 & _ & H3). apply NoDup_app. split_and!; [done| |done].
  intros x Hx Hy. by apply (H3 x).
Qed.

(** No operation gets stuck: every node it follows is allocated, and reversing a
    flushed list ends. *)
Theorem stack_no_fault m n ls c evs t pc : run stack_step ls (stack_init m n) = Some (c, evs) ->
  threads c !! t = Some pc -> pc <> TIdle -> exists c' e, stack_step (t, TGo) c = Some (c', e).
Proof.
  intros Hrun Ht Hne. destruct (stack_run_rel _ _ _ _ _ Hrun) as (a & _ & HR).
  destruct (stack_out_of t HR _ Ht) as (out & Ho & Hok).
  assert (exists s' pc' e, stack_tstep t TGo (shared c) pc = Some (s', pc', e)) as (s' & pc' & e & Hs).
  { destruct pc as [| |n1 hd1 tr1|n1 hd1 tr1| |hd1|hd1]; try done;
      cbn [stack_tstep mpmc_stack_push mpmc_stack_lifo_flush stack_ok] in *; eauto.
    - assert (is_Some (k_heap (shared c) !! n1)) as [nd Hnd].
      { apply (sk_alloc _ _ HR). unfold k_nodes. rewrite !elem_of_app. right. left. apply list_elem_of_omap.
        eexists. by split; [eapply list_elem_of_lookup_2|]. }
      unfold store_next. rewrite Hnd. simpl. eauto.
    - destruct (_ && _); [eauto|]. destruct tr1 as [k|]; [|eauto]. destruct (Z.ltb _ _); eauto.
    - destruct (stack_reversed t HR _ Ht) as (h & hd & E & _). rewrite E. simpl. eauto.
    - unfold stack_walk. destruct (Z.eqb_spec hd1 NULL) as [->|Hn0]; [eauto|].
      destruct (stack_at_top _ _ _ Hok Hn0) as [st' ->]. destruct Hok as (_ & _ & nx & Hnx & _). rewrite Hnx. simpl. eauto. }
  exists (Conf s' (<[t:=pc']> (threads c))), e. unfold stack_step, conf_step; cbn [fst snd]. by rewrite Ht, Hs.
Qed.

(** The limit of attempts: a failed attempt with one try left gives up, but with
    no try at all the counter wraps and the push keeps trying. *)
Lemma push_timeout_last s n head : k_head s <> head ->
  mpmc_stack_push false s (TCas n head (Some 1)) = Some (SkShared (k_heap s) (k_head s) ({[n]} ∪ k_owned s), TIdle, [EvRetry n]) /\
  mpmc_stack_push false s (TCas n head (Some 0)) = Some (s, TNext n (k_head s) (Some (2 ^ 64 - 1)), []).
Proof. intros Hne. unfold mpmc_stack_push. by rewrite (proj2 (Z.eqb_neq _ _)) by done. Qed.

(** ** Runs *)

(** Thread 1's first attempt fails against thread 0's; thread 2 flushes in
    order while thread 0 pushes again. *)
Definition stack_demo : list (nat * stack_choice) :=
  let go t k := replicate k (t, TGo) in
  [(0%nat, TCallPush 1 None)] ++ go 0%nat 2%nat ++ [(1%nat, TCallPush 2 (Some 3))] ++ go 1%nat 2%nat ++ go 0%nat 1%nat ++ go 1%nat 3%nat ++
  [(2%nat, TCallFlush true)] ++ go 2%nat 1%nat ++ [(0%nat, TCallPush 3 None)] ++ go 0%nat 3%nat ++ go 2%nat 4%nat.

Lemma stack_flush_order_witness : exists st outs,
  spec_run flush_spec [EvPushed 1; EvPushed 2; EvFlush 2 true; EvPushed 3; EvGot 2 1; EvGot 2 2; EvEnd 2] ([], replicate 3 []) =
    Some (st, outs) /\ NoDup (st ++ concat outs).
Proof. eapply (stack_flush_order 3 3 stack_demo). vm_compute. reflexivity. Defined.

Lemma stack_no_fault_witness : exists c : stack_conf, run stack_step (take 13 stack_demo) (stack_init 3 3) =
    Some (c, [EvPushed 1; EvPushed 2; EvFlush 2 true]) /\ exists c' e, stack_step (2%nat, TGo) c = Some (c', e).
Proof.
  eexists. split; [vm_compute; reflexivity|].
  eapply (stack_no_fault 3 3 (take 13 stack_demo)); [vm_compute; reflexivity|reflexivity|discriminate].
Defined.
