(* ===== verification/DistFifo.v ===== *)
(** * The distinguished FIFO ([include/dist_fifo.h])

    One distinguished thread at a time pushes, without synchronisation; any
    thread pops by swapping the head pointer together with a counter, in one
    double-width compare-and-swap.  The node returned is the old dummy with the
    data of its successor.  As the source assumes, nodes stay allocated: a pop
    may read a node that was popped meanwhile, and only the counter tells. *)

From S2P Require Import Prelude RingBuffer MpscFifo Lifo.

(** ** State *)

(** [dist_fifo_t]; [d_owned]: the nodes of the callers; [d_pusher]: the thread
    inside a push.  The operations read neither. *)
Record dist_shared := DShared {
  d_heap : gmap Z node;
  d_counter : Z;
  d_head : Z;
  d_tail : Z;
  d_owned : gset Z;
  d_pusher : option nat
}.

Inductive dist_pc :=
| DIdle
| DPushTail (new_node : Z)
| DPushNext (new_node tail : Z)              (* new_node->next = NULL *)
| DPushLink (new_node tail : Z)              (* tail->next = new_node *)
| DPushStore (new_node : Z)                  (* fifo->tail = new_node *)
| DPopCounter
| DPopNode (counter : Z)
| DPopNext (counter node : Z)
| DPopData (counter node next : Z)
| DPopCas (counter node next data : Z)
| DPopStore (node data : Z).                 (* prev_head->data = data *)

(** [DScribble]: a caller writes to a node it owns; its [next] field stays NULL
    or a node. *)
Inductive dist_choice := DCallPush (new_node : Z) | DCallPop | DGo | DScribble (n : Z) (contents : node).

Inductive dist_ev := EvDPush (data : Z) | EvDPop (data : Z) | EvDEmpty | EvDRetry.

(** ** Operations *)

(** [fresh]: the node that [calloc] returns. *)
Definition dist_fifo_init (h : gmap Z node) (owned : gset Z) (fresh : option Z) : option dist_shared :=
  match fresh with
  | Some d => Some (DShared (<[d:=Node 0 NULL]> h) 0 d d owned None)
  | None => None (* returns 0 *)
  end.

Fixpoint dist_fifo_destroy (fuel : nat) (h : gmap Z node) (hd : Z) : option (gmap Z node) :=
  match fuel with
  | O => None
  | S fuel => if Z.eqb hd NULL then Some h else nx ← load_next h hd; dist_fifo_destroy fuel (delete hd h) nx
  end.

Definition set_heap (s : dist_shared) (h : gmap Z node) : dist_shared :=
  DShared h (d_counter s) (d_head s) (d_tail s) (d_owned s) (d_pusher s).

Definition dist_fifo_push (s : dist_shared) (pc : dist_pc) : option (dist_shared * dist_pc * list dist_ev) :=
  match pc with
  | DPushTail n => Some (s, DPushNext n (d_tail s), [])
  | DPushNext n tail => h ← store_next (d_heap s) n NULL; Some (set_heap s h, DPushLink n tail, [])
  | DPushLink n tail =>
      h ← store_next (d_heap s) tail n; data ← load_data (d_heap s) n; Some (set_heap s h, DPushStore n, [EvDPush data])
  | DPushStore n => Some (DShared (d_heap s) (d_counter s) (d_head s) n (d_owned s) None, DIdle, [])
  | _ => None
  end.

Definition dist_fifo_trypop (s : dist_shared) (pc : dist_pc) : option (dist_shared * dist_pc * list dist_ev) :=
  match pc with
  | DPopCounter => Some (s, DPopNode (d_counter s), [])
  | DPopNode ctr => Some (s, DPopNext ctr (d_head s), [])
  | DPopNext ctr node =>
      next ← load_next (d_heap s) node;
      if Z.eqb next NULL then Some (s, DIdle, [EvDEmpty]) else Some (s, DPopData ctr node next, [])
  | DPopData ctr node next => data ← load_data (d_heap s) next; Some (s, DPopCas ctr node next data, [])
  | DPopCas ctr node next data =>
      if Z.eqb (d_counter s) ctr && Z.eqb (d_head s) node
      then Some (DShared (d_heap s) (u64 (ctr + 1)) next (d_tail s) (d_owned s) (d_pusher s), DPopStore node data, [EvDPop data])
      else Some (s, DIdle, [EvDRetry])
  | DPopStore node data =>
      h ← store_data (d_heap s) node data;
      Some (DShared h (d_counter s) (d_head s) (d_tail s) ({[node]} ∪ d_owned s) (d_pusher s), DIdle, [])
  | _ => None
  end.

Definition dist_tstep (t : nat) (ch : dist_choice) (s : dist_shared) (pc : dist_pc)
    : option (dist_shared * dist_pc * list dist_ev) :=
  match ch, pc with
  | DCallPush n, DIdle =>
      if decide (n ∈ d_owned s /\ d_pusher s = None)
      then Some (DShared (d_heap s) (d_counter s) (d_head s) (d_tail s) (d_owned s ∖ {[n]}) (Some t), DPushTail n, []) else None
  | DCallPop, DIdle => Some (s, DPopCounter, [])
  | DScribble n nd, DIdle =>
      if decide (n ∈ d_owned s /\ (nd_next nd = NULL \/ is_Some (d_heap s !! nd_next nd)))
      then Some (set_heap s (<[n:=nd]> (d_heap s)), DIdle, []) else None
  | DGo, (DPushTail _ | DPushNext _ _ | DPushLink _ _ | DPushStore _) => dist_fifo_push s pc
  | DGo, (DPopCounter | DPopNode _ | DPopNext _ _ | DPopData _ _ _ | DPopCas _ _ _ _ | DPopStore _ _) => dist_fifo_trypop s pc
  | _, _ => None
  end.

Definition dist_conf := conf dist_shared dist_pc.
Definition dist_step := conf_step dist_tstep.

(** [m] nodes of the callers; the dummy is node [m + 1]. *)
Definition dist_init (m n : nat) : dist_conf :=
  let own : gset Z := list_to_set (seqZ 1 (Z.of_nat m)) in
  Conf (default (DShared ∅ 0 NULL NULL ∅ None)
          (dist_fifo_init (gset_to_gmap (Node 0 NULL) own) own (Some (Z.of_nat m + 1)))) (replicate n DIdle).

(** A FIFO queue of data; [EvDEmpty] and [EvDRetry] are the subject of their own
    theorems. *)
Definition dist_spec (e : dist_ev) (q : list Z) : option (list Z) :=
  match e, q with
  | EvDPush d, _ => Some (q ++ [d])
  | EvDPop d, x :: q => if Z.eqb d x then Some q else None
  | EvDPop _, [] => None
  | _, _ => Some q
  end.

(** ** Invariant *)

Definition d_private (pc : dist_pc) : option Z :=
  match pc with DPushTail n | DPushNext n _ | DPushLink n _ | DPopStore n _ => Some n | _ => None end.
Definition d_pushing (pc : dist_pc) : bool :=
  match pc with DPushTail _ | DPushNext _ _ | DPushLink _ _ | DPushStore _ => true | _ => false end.

(** [rest]: the nodes behind the dummy. *)
Definition d_nodes (c : dist_conf) (rest : list Z) : list Z :=
  d_head (shared c) :: rest ++ omap d_private (threads c) ++ elements (d_owned (shared c)).

(** The snapshot of a pop holds as long as the counter has not moved. *)
Definition dist_ok (s : dist_shared) (rest : list Z) (pc : dist_pc) : Prop :=
  match pc with
  | DPushTail _ => last (d_head s :: rest) = Some (d_tail s)
  | DPushNext _ tl => last (d_head s :: rest) = Some tl
  | DPushLink n tl => last (d_head s :: rest) = Some tl /\ load_next (d_heap s) n = Some NULL
  | DPushStore n => last (d_head s :: rest) = Some n
  | DPopNode ctr => ctr <= d_counter s
  | DPopNext ctr node => ctr <= d_counter s /\ is_Some (d_heap s !! node) /\ (ctr = d_counter s -> node = d_head s)
  | DPopData ctr node next =>
      ctr <= d_counter s /\ next <> NULL /\ is_Some (d_heap s !! next) /\
      (ctr = d_counter s -> node = d_head s /\ load_next (d_heap s) node = Some next)
  | DPopCas ctr node next data =>
      ctr <= d_counter s /\ next <> NULL /\
      (ctr = d_counter s -> node = d_head s /\ load_next (d_heap s) node = Some next /\ load_data (d_heap s) next = Some data)
  | _ => True
  end.

Record dist_rel (k : Z) (c : dist_conf) (q rest : list Z) : Prop := {
  dr_chain : stack_at (d_heap (shared c)) (d_head (shared c)) (d_head (shared c) :: rest);
  dr_data : Forall2 (fun a d => load_data (d_heap (shared c)) a = Some d) rest q;
  dr_count : 0 <= d_counter (shared c) <= k;
  dr_nd : NoDup (d_nodes c rest);
  dr_null : NULL ∉ d_nodes c rest;
  dr_alloc : forall a, a ∈ d_nodes c rest -> is_Some (d_heap (shared c) !! a);
  dr_closed : forall a nx, load_next (d_heap (shared c)) a = Some nx -> nx = NULL \/ is_Some (d_heap (shared c) !! nx);
  dr_pusher : forall t pc, threads c !! t = Some pc -> d_pushing pc = true -> d_pusher (shared c) = Some t;
  dr_tail : d_pusher (shared c) = None -> last (d_head (shared c) :: rest) = Some (d_tail (shared c));
  dr_ok : forall t pc, threads c !! t = Some pc -> dist_ok (shared c) rest pc
}.

(** ** Chains *)

Lemma chain_next h hd rest nx : stack_at h hd (hd :: rest) -> load_next h hd = Some nx ->
  (nx = NULL /\ rest = []) \/ (nx <> NULL /\ exists rest', rest = nx :: rest' /\ stack_at h nx rest).
Proof.
  intros (_ & Hn & nx' & Hnx & Hst) E. rewrite E in Hnx. injection Hnx as <-. destruct rest as [|a rest]; simpl in Hst; [by left|].
  right. destruct Hst as (-> & Ha & Hst). split; [done|]. exists rest. by repeat split.
Qed.

Lemma data_at_heap h h' rest q : (forall a, a ∈ rest -> load_data h' a = load_data h a) ->
  Forall2 (fun a d => load_data h a = Some d) rest q -> Forall2 (fun a d => load_data h' a = Some d) rest q.
Proof. intros Hs Hf. induction Hf as [|a d rest q Hd Hf IH]; constructor; [rewrite Hs by left; done|]. apply IH. intros b Hb. apply Hs. by right. Qed.

(** Linking a node behind the last one. *)
Lemma stack_at_snoc st : forall h h' hd tl n, stack_at h hd st -> NoDup st -> last st = Some tl -> n <> NULL -> n ∉ st ->
  load_next h n = Some NULL -> store_next h tl n = Some h' -> stack_at h' hd (st ++ [n]).
Proof.
  induction st as [|a st IH]; intros h h' hd tl n Hst Hnd Hl Hn Hout Hnx Hs; [done|].
  destruct Hst as (-> & Ha & nx & Hnxa & Hst). apply NoDup_cons in Hnd as [Hna Hnd]. apply not_elem_of_cons in Hout as [Hne Hout].
  split; [done|]. split; [done|]. destruct st as [|b st].
  - simpl in Hl. injection Hl as ->. exists n. split; [by eapply store_next_same|]. split; [done|]. split; [done|]. exists NULL.
    split; [|done]. by rewrite (store_next_other _ _ _ _ _ Hs) by done.
  - exists nx. assert (tl ∈ b :: st) as Htl by (rewrite last_cons_cons in Hl; by apply last_Some_elem_of).
    rewrite (store_next_other _ _ _ _ _ Hs) by (by intros ->). split; [done|]. by eapply IH.
Qed.

(** ** Preservation *)

Lemma dist_rel_step k c q rest t pc s' pc' q' rest' : dist_rel k c q rest -> threads c !! t = Some pc ->
  stack_at (d_heap s') (d_head s') (d_head s' :: rest') -> Forall2 (fun a d => load_data (d_heap s') a = Some d) rest' q' ->
  0 <= d_counter s' <= k + 1 ->
  d_nodes (Conf s' (<[t:=pc']> (threads c))) rest' ≡ₚ d_nodes c rest ->
  (forall a, is_Some (d_heap (shared c) !! a) -> is_Some (d_heap s' !! a)) ->
  (forall a nx, load_next (d_heap s') a = Some nx -> nx = NULL \/ is_Some (d_heap s' !! nx)) ->
  (d_pushing pc' = true -> d_pusher s' = Some t) -> (forall i, i <> t -> d_pusher (shared c) = Some i -> d_pusher s' = Some i) ->
  (d_pusher s' = None -> last (d_head s' :: rest') = Some (d_tail s')) ->
  dist_ok s' rest' pc' ->
  (forall i p, i <> t -> threads c !! i = Some p -> dist_ok (shared c) rest p -> dist_ok s' rest' p) ->
  dist_rel (k + 1) (Conf s' (<[t:=pc']> (threads c))) q' rest'.
Proof.
  intros HR Ht H1 H2 H3 Hn Hd H4 Hp1 Hp2 H5 Hok Hoks. split; cbn [shared threads]; auto; rewrite ?Hn; try apply HR.
  - intros a. rewrite Hn. intros Ha. by apply Hd, (dr_alloc _ _ _ _ HR).
  - intros i p Hi Hp. apply lookup_insert_cases in Hi as [(-> & ->)|(Hne & Hi)]; [auto|]. apply Hp2; [done|].
    by apply (dr_pusher _ _ _ _ HR i p).
  - intros i p Hi. apply lookup_insert_cases in Hi as [(-> & ->)|(Hne & Hi)]; [done|].
    apply (Hoks i p Hne Hi). by apply (dr_ok _ _ _ _ HR i).
Qed.

(** The heap changes at one node outside the chain and not of thread [p]. *)
Lemma dist_ok_heap s h x rest p : stack_at (d_heap s) (d_head s) (d_head s :: rest) -> (x ∉ d_head s :: rest) -> d_private p <> Some x ->
  (forall a, a <> x -> load_next h a = load_next (d_heap s) a) -> (forall a, a <> x -> load_data h a = load_data (d_heap s) a) ->
  (forall a, is_Some (d_heap s !! a) -> is_Some (h !! a)) ->
  dist_ok s rest p -> forall o pu, dist_ok (DShared h (d_counter s) (d_head s) (d_tail s) o pu) rest p.
Proof.
  intros Hst Hx Hp Hnx Hdt Hd Hok o pu. apply not_elem_of_cons in Hx as [Hxh Hxr]. destruct p; simpl in *; try done.
  - destruct Hok as [Hl Hn]. split; [done|]. rewrite Hnx; [done|congruence].
  - destruct Hok as (? & ? & ?). auto.
  - destruct Hok as (? & ? & ? & Hc). split_and!; auto. intros E. destruct (Hc E) as [-> Hl]. split; [done|]. by rewrite Hnx.
  - destruct Hok as (? & Hne & Hc). split_and!; auto. intros E. destruct (Hc E) as (-> & Hl & Hdd). split; [done|].
    destruct (chain_next _ _ _ _ Hst Hl) as [[? _]|(_ & rest' & -> & _)]; [done|].
    rewrite Hnx, Hdt by (done || set_solver). done.
Qed.

(** A successful swap makes the snapshots of all other pops stale. *)
Lemma dist_ok_swap s nx rest p : rest <> [] -> dist_ok s rest p -> head rest = Some nx ->
  dist_ok (DShared (d_heap s) (d_counter s + 1) nx (d_tail s) (d_owned s) (d_pusher s)) (tail rest) p.
Proof.
  intros Hr Hok Hhd. destruct rest as [|a rest]; [done|]. simpl in Hhd. injection Hhd as ->.
  destruct p; simpl in *; try done; try lia; destruct_and?; split_and!; try lia; done.
Qed.

Section dist_steps.
Context {k : Z} {c : dist_conf} {q rest : list Z} (t : nat).
Hypothesis HR : dist_rel k c q rest.

Lemma d_private_in pc n : threads c !! t = Some pc -> d_private pc = Some n ->
  (n ∉ d_head (shared c) :: rest) /\ is_Some (d_heap (shared c) !! n) /\ n <> NULL /\
  forall i p, i <> t -> threads c !! i = Some p -> d_private p <> Some n.
Proof using HR.
  intros Ht Hn. assert (n ∈ omap d_private (threads c)) as Hin.
  { apply list_elem_of_omap. exists pc. split; [by eapply list_elem_of_lookup_2|done]. }
  pose proof (dr_nd _ _ _ _ HR) as Hnd. unfold d_nodes in Hnd. rewrite app_comm_cons in Hnd.
  apply NoDup_app in Hnd as (_ & Hd & Hnd). apply NoDup_app in Hnd as (Hnd & _).
  assert (n ∈ d_nodes c rest) as Ha by (unfold d_nodes; set_solver).
  split_and!; [intros Hs; apply (Hd n Hs); set_solver|by apply (dr_alloc _ _ _ _ HR)|intros ->; by apply (dr_null _ _ _ _ HR)|].
  intros i p Hne Hi E. apply Hne. by eapply (omap_NoDup_inj d_private (threads c) i t).
Qed.

(** A step that only moves the program point. *)
Lemma dist_local pc pc' : threads c !! t = Some pc -> d_private pc' = d_private pc -> d_pushing pc' = d_pushing pc ->
  dist_ok (shared c) rest pc' -> dist_rel (k + 1) (Conf (shared c) (<[t:=pc']> (threads c))) q rest.
Proof using HR.
  intros Ht Hp Hpu Hok. pose proof (dr_count _ _ _ _ HR). eapply dist_rel_step;
    [exact HR|exact Ht|apply HR|apply HR|lia| |auto|apply HR| |auto|apply HR|done|auto].
  - unfold d_nodes. cbn [shared threads]. by rewrite (omap_insert_same d_private _ _ _ _ Ht Hp).
  - rewrite Hpu. by apply (dr_pusher _ _ _ _ HR).
Qed.

(** A write to a node that the thread or its caller owns. *)
Lemma dist_write pc pc' h x o : threads c !! t = Some pc -> (x ∉ d_head (shared c) :: rest) ->
  (forall i p, i <> t -> threads c !! i = Some p -> d_private p <> Some x) ->
  (forall a, a <> x -> load_next h a = load_next (d_heap (shared c)) a) -> (forall a, a <> x -> load_data h a = load_data (d_heap (shared c)) a) ->
  (forall a, is_Some (d_heap (shared c) !! a) -> is_Some (h !! a)) ->
  (forall nx, load_next h x = Some nx -> nx = NULL \/ is_Some (d_heap (shared c) !! nx)) ->
  omap d_private (<[t:=pc']> (threads c)) ++ elements o ≡ₚ omap d_private (threads c) ++ elements (d_owned (shared c)) ->
  d_pushing pc' = d_pushing pc ->
  dist_ok (DShared h (d_counter (shared c)) (d_head (shared c)) (d_tail (shared c)) o (d_pusher (shared c))) rest pc' ->
  dist_rel (k + 1) (Conf (DShared h (d_counter (shared c)) (d_head (shared c)) (d_tail (shared c)) o (d_pusher (shared c)))
    (<[t:=pc']> (threads c))) q rest.
Proof using HR.
  intros Ht Hx Hpr Hnx Hdt Hd Hcl Hperm Hpu Hok. pose proof (dr_count _ _ _ _ HR).
  eapply dist_rel_step; [exact HR|exact Ht|..|apply HR|done|]; cbn [d_heap d_head d_counter d_tail d_owned d_pusher]; auto; try lia.
  - apply (stack_at_heap (d_heap (shared c))); [|apply HR]. intros a Ha. apply Hnx. by intros ->.
  - eapply data_at_heap; [|apply (dr_data _ _ _ _ HR)]. intros a Ha. apply Hdt. set_solver.
  - unfold d_nodes. cbn [shared threads d_head d_owned]. by rewrite Hperm.
  - intros a nx Ha. destruct (decide (a = x)) as [->|Hne]; [destruct (Hcl _ Ha); auto|]. rewrite Hnx in Ha by done.
    destruct (dr_closed _ _ _ _ HR _ _ Ha); auto.
  - rewrite Hpu. by apply (dr_pusher _ _ _ _ HR).
  - intros i p Hne Hi Ho. eapply dist_ok_heap; eauto. apply HR.
Qed.

Lemma dist_push_next n tl h : threads c !! t = Some (DPushNext n tl) -> store_next (d_heap (shared c)) n NULL = Some h ->
  dist_rel (k + 1) (Conf (set_heap (shared c) h) (<[t:=DPushLink n tl]> (threads c))) q rest.
Proof using HR.
  intros Ht Hs. destruct (d_private_in _ n Ht eq_refl) as (Hx & _ & _ & Hpr). pose proof (dr_ok _ _ _ _ HR _ _ Ht) as Hok. simpl in Hok.
  eapply (dist_write _ (DPushLink n tl) h n); [exact Ht|exact Hx|exact Hpr|..].
  - intros a Ha. by apply (store_next_other _ _ _ _ _ Hs).
  - intros a _. by apply (store_next_data _ _ _ _ _ Hs).
  - intros a. apply (store_next_dom _ _ _ _ _ Hs).
  - intros nx. rewrite (store_next_same _ _ _ _ Hs). intros [= <-]. by left.
  - by rewrite (omap_insert_same d_private _ _ _ (DPushLink n tl) Ht eq_refl).
  - done.
  - simpl. split; [done|]. by apply (store_next_same _ _ _ _ Hs).
Qed.

(** The link: the node becomes visible, with its data. *)
Lemma dist_push_link n tl h d : threads c !! t = Some (DPushLink n tl) -> store_next (d_heap (shared c)) tl n = Some h ->
  load_data (d_heap (shared c)) n = Some d ->
  dist_rel (k + 1) (Conf (set_heap (shared c) h) (<[t:=DPushStore n]> (threads c))) (q ++ [d]) (rest ++ [n]).
Proof using HR.
  intros Ht Hs Hd. destruct (d_private_in _ n Ht eq_refl) as (Hx & Hal & Hn0 & Hpr).
  destruct (dr_ok _ _ _ _ HR _ _ Ht) as [Hl Hnx]. pose proof (dr_count _ _ _ _ HR) as Hc.
  pose proof (dr_pusher _ _ _ _ HR _ _ Ht eq_refl) as Hpu.
  assert (NoDup (d_head (shared c) :: rest)) as Hnd.
  { pose proof (dr_nd _ _ _ _ HR) as Hnd. unfold d_nodes in Hnd. rewrite app_comm_cons in Hnd. by apply NoDup_app in Hnd as (? & _). }
  eapply dist_rel_step; [exact HR|exact Ht|..]; unfold set_heap; cbn [d_heap d_head d_counter d_tail d_owned d_pusher]; try lia; try done.
  - rewrite app_comm_cons. by eapply stack_at_snoc; eauto; apply HR.
  - apply Forall2_app; [|constructor; [by rewrite (store_next_data _ _ _ _ _ Hs)|constructor]].
    eapply data_at_heap; [|apply (dr_data _ _ _ _ HR)]. intros a _. by apply (store_next_data _ _ _ _ _ Hs).
  - unfold d_nodes. cbn [shared threads d_head d_owned]. rewrite (omap_insert_del d_private _ _ _ (DPushStore n) n Ht eq_refl eq_refl).
    by rewrite <- app_assoc.
  - intros a. apply (store_next_dom _ _ _ _ _ Hs).
  - intros a nx Ha. rewrite !(store_next_dom _ _ _ _ nx Hs). destruct (decide (a = tl)) as [->|Hne].
    + rewrite (store_next_same _ _ _ _ Hs) in Ha. injection Ha as <-. auto.
    + rewrite (store_next_other _ _ _ _ _ Hs) in Ha by done. by apply (dr_closed _ _ _ _ HR a).
  - congruence.
  - simpl. by rewrite app_comm_cons, last_snoc.
  - intros i p Hne Hi Ho. assert (d_pushing p = false) as Hnp.
    { destruct (d_pushing p) eqn:E; [|done]. pose proof (dr_pusher _ _ _ _ HR _ _ Hi E). congruence. }
    assert (forall nx, nx <> NULL -> load_next (d_heap (shared c)) (d_head (shared c)) = Some nx ->
      load_next h (d_head (shared c)) = Some nx) as Hhead.
    { intros nx Hne0 Hh. destruct (chain_next _ _ _ _ (dr_chain _ _ _ _ HR) Hh) as [[? _]|(_ & rest' & Er & _)]; [done|].
      rewrite (store_next_other _ _ _ _ _ Hs); [done|]. intros E. rewrite Er, last_cons_cons in Hl.
      apply last_Some_elem_of in Hl. apply NoDup_cons in Hnd as [Hout _]. apply Hout. by rewrite Er, E. }
    destruct p; try discriminate Hnp; simpl in *; try done.
    + destruct Ho as (? & ? & ?). rewrite (store_next_dom _ _ _ _ _ Hs). auto.
    + destruct Ho as (? & ? & ? & Hcc). rewrite (store_next_dom _ _ _ _ _ Hs). split_and!; auto. intros E.
      destruct (Hcc E) as [-> ?]. auto.
    + destruct Ho as (? & ? & Hcc). rewrite (store_next_data _ _ _ _ _ Hs). split_and!; auto. intros E. destruct (Hcc E) as (-> & ? & ?). auto.
Qed.

Lemma dist_push_store n : threads c !! t = Some (DPushStore n) ->
  dist_rel (k + 1) (Conf (DShared (d_heap (shared c)) (d_counter (shared c)) (d_head (shared c)) n (d_owned (shared c)) None)
    (<[t:=DIdle]> (threads c))) q rest.
Proof using HR.
  intros Ht. pose proof (dr_ok _ _ _ _ HR _ _ Ht) as Hl. simpl in Hl. pose proof (dr_count _ _ _ _ HR).
  pose proof (dr_pusher _ _ _ _ HR _ _ Ht eq_refl) as Hpu.
  eapply dist_rel_step; [exact HR|exact Ht|..]; cbn [d_heap d_head d_counter d_tail d_owned d_pusher]; try apply HR; try lia; try done.
  - unfold d_nodes. cbn [shared threads d_head d_owned]. by rewrite (omap_insert_same d_private _ _ _ DIdle Ht eq_refl).
  - intros i Hne. congruence.
  - intros i p Hne Hi Ho. assert (d_pushing p = false) as Hnp.
    { destruct (d_pushing p) eqn:E; [|done]. pose proof (dr_pusher _ _ _ _ HR _ _ Hi E). congruence. }
    by destruct p.
Qed.

Lemma dist_call_push n : threads c !! t = Some DIdle -> n ∈ d_owned (shared c) -> d_pusher (shared c) = None ->
  dist_rel (k + 1) (Conf (DShared (d_heap (shared c)) (d_counter (shared c)) (d_head (shared c)) (d_tail (shared c))
    (d_owned (shared c) ∖ {[n]}) (Some t)) (<[t:=DPushTail n]> (threads c))) q rest.
Proof using HR.
  intros Ht Hn Hpu. pose proof (dr_count _ _ _ _ HR). pose proof (dr_tail _ _ _ _ HR Hpu) as Htl.
  eapply dist_rel_step; [exact HR|exact Ht|..]; cbn [d_heap d_head d_counter d_tail d_owned d_pusher]; try apply HR; try lia; try done.
  - unfold d_nodes. cbn [shared threads d_head d_owned]. rewrite (omap_insert_add d_private _ _ _ (DPushTail n) n Ht eq_refl eq_refl).
    rewrite (elements_take _ _ Hn). simpl. by rewrite <- !Permutation_middle.
  - intros i Hne. congruence.
Qed.

(** The swap takes the successor's data; the old dummy is the popper's. *)
Lemma dist_pop_swap ctr nd nx d : k + 1 < 2 ^ 64 -> threads c !! t = Some (DPopCas ctr nd nx d) ->
  d_counter (shared c) = ctr -> d_head (shared c) = nd ->
  exists q' rest', q = d :: q' /\ rest = nx :: rest' /\
  dist_rel (k + 1) (Conf (DShared (d_heap (shared c)) (u64 (ctr + 1)) nx (d_tail (shared c)) (d_owned (shared c)) (d_pusher (shared c)))
    (<[t:=DPopStore nd d]> (threads c))) q' rest'.
Proof using HR.
  intros Hk Ht <- <-. destruct (dr_ok _ _ _ _ HR _ _ Ht) as (_ & Hne & Hcc). destruct (Hcc eq_refl) as (_ & Hl & Hd).
  pose proof (dr_count _ _ _ _ HR) as Hc. destruct (chain_next _ _ _ _ (dr_chain _ _ _ _ HR) Hl) as [[? _]|(_ & rest' & Er & Hst)]; [done|].
  pose proof (dr_data _ _ _ _ HR) as Hf. rewrite Er in Hf. apply Forall2_cons_inv_l in Hf as (d' & q' & Hd' & Hf & ->).
  rewrite Hd in Hd'. injection Hd' as <-. exists q', rest'. split; [done|]. split; [done|]. rewrite u64_small by lia.
  eapply dist_rel_step; [exact HR|exact Ht|..]; cbn [d_heap d_head d_counter d_tail d_owned d_pusher]; try lia; try done.
  - by rewrite <- Er.
  - unfold d_nodes. cbn [shared threads d_head d_owned]. rewrite Er.
    rewrite (omap_insert_add d_private _ _ _ (DPopStore (d_head (shared c)) d) (d_head (shared c)) Ht eq_refl eq_refl).
    simpl. rewrite <- !Permutation_middle. apply Permutation_swap.
  - apply HR.
  - intros Hpu. pose proof (dr_tail _ _ _ _ HR Hpu) as Htl. rewrite Er, last_cons_cons in Htl. done.
  - intros i p Hni Hi Ho. pose proof (dist_ok_swap (shared c) nx rest p) as Hsw. rewrite Er in Hsw, Ho. by apply Hsw.
Qed.

Lemma dist_pop_store nd d h : threads c !! t = Some (DPopStore nd d) -> store_data (d_heap (shared c)) nd d = Some h ->
  dist_rel (k + 1) (Conf (DShared h (d_counter (shared c)) (d_head (shared c)) (d_tail (shared c)) ({[nd]} ∪ d_owned (shared c)) (d_pusher (shared c)))
    (<[t:=DIdle]> (threads c))) q rest.
Proof using HR.
  intros Ht Hs. destruct (d_private_in _ nd Ht eq_refl) as (Hx & _ & _ & Hpr).
  assert (nd ∉ d_owned (shared c)) as Hno.
  { pose proof (dr_nd _ _ _ _ HR) as Hnd. unfold d_nodes in Hnd. apply NoDup_cons in Hnd as [_ Hnd].
    apply NoDup_app in Hnd as (_ & _ & Hnd). apply NoDup_app in Hnd as (_ & Hd & _). intros Hin.
    apply (Hd nd); [|by apply elem_of_elements]. apply list_elem_of_omap. eexists. by split; [eapply list_elem_of_lookup_2|]. }
  eapply (dist_write _ DIdle h nd); [exact Ht|exact Hx|exact Hpr|..]; try done.
  - intros a _. by apply (store_data_next _ _ _ _ _ Hs).
  - intros a Ha. by apply (store_data_other _ _ _ _ _ Hs).
  - intros a. apply (store_data_dom _ _ _ _ _ Hs).
  - intros nx. rewrite (store_data_next _ _ _ _ _ Hs). apply (dr_closed _ _ _ _ HR).
  - rewrite (omap_insert_del d_private _ _ _ DIdle nd Ht eq_refl eq_refl), elements_union_singleton by done. simpl.
    by rewrite <- Permutation_middle.
Qed.

Lemma dist_scribble n nd : threads c !! t = Some DIdle -> n ∈ d_owned (shared c) ->
  nd_next nd = NULL \/ is_Some (d_heap (shared c) !! nd_next nd) ->
  dist_rel (k + 1) (Conf (set_heap (shared c) (<[n:=nd]> (d_heap (shared c)))) (<[t:=DIdle]> (threads c))) q rest.
Proof using HR.
  intros Ht Hn Hnd. pose proof (dr_nd _ _ _ _ HR) as Hnd'. unfold d_nodes in Hnd'. rewrite app_comm_cons in Hnd'.
  apply NoDup_app in Hnd' as (_ & H1 & Hnd'). apply NoDup_app in Hnd' as (_ & H2 & _).
  eapply (dist_write _ DIdle _ n); [exact Ht| | |..]; try done.
  - intros Hx. apply (H1 n Hx). set_solver.
  - intros i p _ Hi E. apply (H2 n); [|by apply elem_of_elements]. apply list_elem_of_omap. exists p. by split; [eapply list_elem_of_lookup_2|].
  - intros a Ha. unfold load_next. by rewrite lookup_insert_ne.
  - intros a Ha. unfold load_data. by rewrite lookup_insert_ne.
  - intros a Ha. rewrite lookup_insert. case_decide; eauto.
  - intros nx. unfold load_next. rewrite lookup_insert_eq. simpl. by intros [= <-].
  - by rewrite (omap_insert_same d_private _ _ _ DIdle Ht eq_refl).
Qed.
End dist_steps.

Lemma dist_push_step k c q rest t pc s' pc' evs : dist_rel k c q rest -> threads c !! t = Some pc ->
  dist_fifo_push (shared c) pc = Some (s', pc', evs) ->
  exists q' rest', spec_run dist_spec evs q = Some q' /\ dist_rel (k + 1) (Conf s' (<[t:=pc']> (threads c))) q' rest'.
Proof.
  intros HR Ht Hs. pose proof (dr_ok _ _ _ _ HR _ _ Ht) as Hok.
  destruct pc as [|n|n tl|n tl|n| | | | | |]; try discriminate Hs; cbn [dist_fifo_push] in Hs; simpl in Hok.
  - injection Hs as <- <- <-. exists q, rest. split; [done|]. by eapply dist_local.
  - destruct (store_next _ _ _) as [h|] eqn:E; [|done]. injection Hs as <- <- <-. exists q, rest. split; [done|]. by eapply dist_push_next.
  - destruct (store_next _ _ _) as [h|] eqn:E; [|done]. simpl in Hs. destruct (load_data _ n) as [d|] eqn:Ed; [|done].
    injection Hs as <- <- <-. exists (q ++ [d]), (rest ++ [n]). split; [done|]. by eapply dist_push_link.
  - injection Hs as <- <- <-. exists q, rest. split; [done|]. by eapply dist_push_store.
Qed.

Lemma dist_pop_step k c q rest t pc s' pc' evs : k + 1 < 2 ^ 64 -> dist_rel k c q rest -> threads c !! t = Some pc ->
  dist_fifo_trypop (shared c) pc = Some (s', pc', evs) ->
  exists q' rest', spec_run dist_spec evs q = Some q' /\ dist_rel (k + 1) (Conf s' (<[t:=pc']> (threads c))) q' rest'.
Proof.
  intros Hk HR Ht Hs. pose proof (dr_ok _ _ _ _ HR _ _ Ht) as Hok.
  destruct pc as [| | | | | |ctr|ctr nd|ctr nd nx|ctr nd nx d|nd d]; try discriminate Hs; cbn [dist_fifo_trypop] in Hs; simpl in Hok.
  - injection Hs as <- <- <-. exists q, rest. split; [done|]. eapply dist_local; try done. simpl. lia.
  - injection Hs as <- <- <-. exists q, rest. split; [done|]. eapply dist_local; try done. simpl. split_and!; try done.
    apply (dr_alloc _ _ _ _ HR). unfold d_nodes. left.
  - destruct (load_next _ nd) as [nx|] eqn:E; [|done]. simpl in Hs. exists q, rest.
    destruct (Z.eqb_spec nx NULL) as [->|Hne]; injection Hs as <- <- <-; (split; [by destruct q|]); eapply dist_local; try done.
    destruct Hok as (? & ? & Hc). simpl. split_and!; try done.
    + by destruct (dr_closed _ _ _ _ HR _ _ E).
    + intros E'. by split; [apply Hc|].
  - destruct (load_data _ nx) as [d|] eqn:E; [|done]. injection Hs as <- <- <-. exists q, rest. split; [done|]. eapply dist_local; try done.
    destruct Hok as (? & ? & ? & Hc). simpl. split_and!; try done. intros E'. destruct (Hc E'). done.
  - destruct (Z.eqb_spec (d_counter (shared c)) ctr) as [E1|]; [destruct (Z.eqb_spec (d_head (shared c)) nd) as [E2|]|];
      injection Hs as <- <- <-; [|exists q, rest; (split; [by destruct q|]); by eapply dist_local..].
    destruct (dist_pop_swap t HR _ _ _ _ Hk Ht E1 E2) as (q' & rest' & -> & -> & Hrel). exists q', rest'. split; [|done].
    simpl. by rewrite Z.eqb_refl.
  - destruct (store_data _ _ _) as [h|] eqn:E; [|done]. injection Hs as <- <- <-. exists q, rest. split; [done|]. by eapply dist_pop_store.
Qed.

Lemma dist_simulation k lbl c c' evs q rest : k + 1 < 2 ^ 64 -> dist_rel k c q rest -> dist_step lbl c = Some (c', evs) ->
  exists q' rest', spec_run dist_spec evs q = Some q' /\ dist_rel (k + 1) c' q' rest'.
Proof.
  destruct lbl as [t ch]. intros Hk HR Hstep. apply conf_step_inv in Hstep as (pc & s' & pc' & Ht & Hs & ->).
  destruct ch as [n| | |n nd], pc; try discriminate Hs; cbn [dist_tstep] in Hs;
    try (by eapply dist_push_step); try (by eapply dist_pop_step); exists q, rest.
  - case_decide as Hd; [|done]. destruct Hd as [Hn Hp]. injection Hs as <- <- <-. split; [done|]. by eapply dist_call_push.
  - injection Hs as <- <- <-. split; [done|]. by eapply dist_local.
  - case_decide as Hd; [|done]. destruct Hd as [Hn Hp]. injection Hs as <- <- <-. split; [done|]. by eapply dist_scribble.
Qed.

Lemma dist_init_rel m n : dist_rel 0 (dist_init m n) [] [].
Proof.
  set (D := Z.of_nat m + 1). assert (omap d_private (replicate n DIdle) = []) as Hom by (by apply omap_replicate_None).
  assert (d_nodes (dist_init m n) [] ≡ₚ D :: seqZ 1 (Z.of_nat m)) as Hn.
  { unfold d_nodes, dist_init. simpl. rewrite Hom. simpl. by rewrite elements_list_to_set by apply NoDup_seqZ. }
  assert (forall a, a ∈ D :: seqZ 1 (Z.of_nat m) <-> d_heap (shared (dist_init m n)) !! a = Some (Node 0 NULL)) as Hh.
  { intros a. simpl. rewrite lookup_insert, elem_of_cons. fold D. case_decide; [naive_solver|].
    rewrite lookup_gset_to_gmap_Some, elem_of_list_to_set. naive_solver. }
  assert (forall a nd, d_heap (shared (dist_init m n)) !! a = Some nd -> nd = Node 0 NULL) as Hall.
  { intros a nd. simpl. rewrite lookup_insert. case_decide; [congruence|]. rewrite lookup_gset_to_gmap_Some. naive_solver. }
  split; rewrite ?Hn; try (simpl; lia); try done.
  - simpl. split; [done|]. split; [unfold NULL; lia|]. exists NULL. split; [|done]. unfold load_next. by rewrite lookup_insert_eq.
  - constructor; [|apply NoDup_seqZ]. rewrite elem_of_seqZ. unfold D. lia.
  - rewrite elem_of_cons, elem_of_seqZ. unfold D, NULL. lia.
  - intros a. rewrite Hn. intros Ha%Hh. eauto.
  - intros a nx Ha. left. unfold load_next in Ha. destruct (_ !! a) as [nd|] eqn:E; [|done]. apply Hall in E as ->. by injection Ha.
  - by intros t pc [-> _]%lookup_replicate.
  - by intros t pc [-> _]%lookup_replicate.
Qed.

Lemma dist_run_rel m n ls c evs : Z.of_nat (length ls) < 2 ^ 64 -> run dist_step ls (dist_init m n) = Some (c, evs) ->
  exists k q rest, spec_run dist_spec evs [] = Some q /\ dist_rel k c q rest.
Proof.
  intros Hb Hrun.
  destruct (run_simulation dist_step dist_spec (2 ^ 64) (fun k c q => exists rest, dist_rel k c q rest))
    with (ls := ls) (n := 0) (s := dist_init m n) (s' := c) (evs := evs) (a := @nil Z)
    as (q & Hq & rest & HR); eauto using dist_init_rel.
  intros k l s s' e a Hk (rest & HR) Hs. destruct (dist_simulation k l s s' e a rest Hk HR Hs) as (q' & rest' & ? & ?). eauto.
Qed.

(** ** Properties *)

(** C27: First in, first out.  In every interleaving of the pushes of the
    distinguished thread (one push at a time) with the pops of any threads, with
    popped nodes rewritten and pushed again at will, data come out in the order
    in which they were pushed, each once.  The bound keeps the 64-bit counter from
    wrapping around. *)
Theorem dist_fifo_order m n ls c evs : Z.of_nat (length ls) < 2 ^ 64 ->
  run dist_step ls (dist_init m n) = Some (c, evs) ->
  exists q, spec_run dist_spec evs [] = Some q.
Proof. intros Hb Hrun. destruct (dist_run_rel _ _ _ _ _ Hb Hrun) as (k & q & rest & Hs & _). by exists q. Qed.

(** No operation gets stuck: every access goes to an allocated node. *)
Theorem dist_no_fault m n ls c evs t pc : Z.of_nat (length ls) < 2 ^ 64 ->
  run dist_step ls (dist_init m n) = Some (c, evs) -> threads c !! t = Some pc -> pc <> DIdle ->
  exists c' e, dist_step (t, DGo) c = Some (c', e).
Proof.
  intros Hb Hrun Ht Hne. destruct (dist_run_rel _ _ _ _ _ Hb Hrun) as (k & q & rest & _ & HR).
  pose proof (dr_ok _ _ _ _ HR _ _ Ht) as Hok.
  assert (forall x, d_private pc = Some x -> is_Some (d_heap (shared c) !! x)) as Hpr
    by (intros x Hx; by destruct (d_private_in t HR _ x Ht Hx) as (_ & ? & _)).
  assert (exists s' pc' e, dist_tstep t DGo (shared c) pc = Some (s', pc', e)) as (s' & pc' & e & Hs).
  { destruct pc; try done; simpl in *; eauto.
    - destruct (Hpr _ eq_refl) as [nd Hnd]. unfold store_next. rewrite Hnd. simpl. eauto.
    - destruct Hok as [Hl _]. destruct (Hpr _ eq_refl) as [nd Hnd].
      assert (is_Some (d_heap (shared c) !! tail)) as [x Hx].
      { apply (dr_alloc _ _ _ _ HR). unfold d_nodes. rewrite app_comm_cons, elem_of_app. left. by apply last_Some_elem_of. }
      unfold store_next, load_data. rewrite Hx, Hnd. simpl. eauto.
    - destruct Hok as (_ & [x Hx] & _). unfold load_next. rewrite Hx. simpl. destruct (Z.eqb _ _); eauto.
    - destruct Hok as (_ & _ & [x Hx] & _). unfold load_data. rewrite Hx. simpl. eauto.
    - destruct (_ && _); eauto.
    - destruct (Hpr _ eq_refl) as [x Hx]. unfold store_data. rewrite Hx. simpl. eauto. }
  exists (Conf s' (<[t:=pc']> (threads c))), e. unfold dist_step, conf_step; cbn [fst snd]. by rewrite Ht, Hs.
Qed.

(** What a failed pop means.  A pop answers [DIST_FIFO_RETRY] only if another
    pop has taken an element since it read the counter, so that some pop makes
    progress; and it answers [DIST_FIFO_EMPTY] only if the queue is empty or,
    again, another pop has succeeded meanwhile. *)
Theorem dist_failed_pop_means m n ls c evs t c' e q : Z.of_nat (length ls) < 2 ^ 64 ->
  run dist_step ls (dist_init m n) = Some (c, evs) -> spec_run dist_spec evs [] = Some q ->
  dist_step (t, DGo) c = Some (c', [e]) ->
  (e = EvDRetry -> exists ctr nd nx d, threads c !! t = Some (DPopCas ctr nd nx d) /\ ctr < d_counter (shared c)) /\
  (e = EvDEmpty -> exists ctr nd, threads c !! t = Some (DPopNext ctr nd) /\ (ctr < d_counter (shared c) \/ q = [])).
Proof.
  intros Hb Hrun Hq Hs. destruct (dist_run_rel _ _ _ _ _ Hb Hrun) as (k & q' & rest & Hq' & HR).
  rewrite Hq in Hq'. injection Hq' as <-. apply conf_step_inv in Hs as (pc & s' & pc' & Ht & Hs & _).
  pose proof (dr_ok _ _ _ _ HR _ _ Ht) as Hok. rewrite Ht.
  split; intros ->; destruct pc as [|n1|n1 tl|n1 tl|n1| |ctr|ctr nd|ctr nd nx|ctr nd nx d|nd d]; try discriminate Hs;
    cbn [dist_tstep dist_fifo_push dist_fifo_trypop] in Hs; simpl in Hok; repeat case_match; simplify_eq/=;
    repeat match type of Hs with context [?f ?a ?b ≫= _] => destruct (f a b) eqn:?; simplify_eq/= end; repeat case_match; simplify_eq/=.
  - destruct Hok as (Hle & _ & Hc). eexists _, _, _, _. split; [done|]. destruct (decide (ctr = d_counter (shared c))) as [->|]; [|lia].
    destruct (Hc eq_refl) as (-> & _). by rewrite !Z.eqb_refl in *.
  - destruct Hok as (Hle & _ & Hc). eexists _, _. split; [done|]. destruct (decide (ctr = d_counter (shared c))) as [->|]; [|left; lia].
    right. rewrite (Hc eq_refl) in *. match goal with H : (_ =? NULL) = true |- _ => apply Z.eqb_eq in H as -> end.
    destruct (chain_next _ _ _ NULL (dr_chain _ _ _ _ HR)) as [[_ ->]|[? _]]; [done| |done].
    by pose proof (Forall2_length _ _ _ (dr_data _ _ _ _ HR)) as ?%symmetry%nil_length_inv.
Qed.

(** Destruction of an idle queue: the loop ends and frees exactly the dummy and
    the nodes behind it. *)
Lemma dist_destroy_is_lifo fuel : forall h hd, dist_fifo_destroy fuel h hd = mpmc_lifo_destroy fuel h hd.
Proof. induction fuel as [|fuel IH]; intros h hd; simpl; [done|]. destruct (Z.eqb _ _); [done|]. destruct (load_next h hd); [apply IH|done]. Qed.

Theorem dist_destroy_frees m n ls c evs q fuel : Z.of_nat (length ls) < 2 ^ 64 ->
  run dist_step ls (dist_init m n) = Some (c, evs) -> spec_run dist_spec evs [] = Some q -> (S (length q) < fuel)%nat ->
  exists h' freed, dist_fifo_destroy fuel (d_heap (shared c)) (d_head (shared c)) = Some h' /\ length freed = S (length q) /\
    forall a, h' !! a = if decide (a ∈ freed) then None else d_heap (shared c) !! a.
Proof.
  intros Hb Hrun Hq Hf. destruct (dist_run_rel _ _ _ _ _ Hb Hrun) as (k & q' & rest & Hq' & HR).
  rewrite Hq in Hq'. injection Hq' as <-. pose proof (Forall2_length _ _ _ (dr_data _ _ _ _ HR)) as Hlen.
  destruct (lifo_destroy_frees (d_head (shared c) :: rest) (d_heap (shared c)) (d_head (shared c)) fuel) as (h' & Hd & Ha).
  - apply HR.
  - pose proof (dr_nd _ _ _ _ HR) as Hnd. unfold d_nodes in Hnd. rewrite app_comm_cons in Hnd. by apply NoDup_app in Hnd as (? & _).
  - simpl. lia.
  - exists h', (d_head (shared c) :: rest). rewrite dist_destroy_is_lifo. split; [done|]. split; [simpl; lia|done].
Qed.

(** ** Runs *)

Definition dgo (t k : nat) : list (nat * dist_choice) := replicate k (t, DGo).
Definition dpush (t : nat) (n data : Z) : list (nat * dist_choice) := [(t, DScribble n (Node data NULL)); (t, DCallPush n)] ++ dgo t 4.
Definition dpop (t : nat) : list (nat * dist_choice) := (t, DCallPop) :: dgo t 6.

(** Thread 1 has read the dummy, node 4; thread 0 pops it and pushes it again, as
    the last node, before thread 1 looks at its successor. *)
Definition dist_demo_prefix : list (nat * dist_choice) :=
  dpush 0 1 71 ++ dpush 0 2 72 ++ (1%nat, DCallPop) :: dgo 1 2 ++ dpop 0 ++ dpush 0 4 73.
Definition dist_demo : list (nat * dist_choice) := dist_demo_prefix ++ dgo 1 1 ++ dpop 1.

Lemma dist_fifo_order_witness : exists q,
  spec_run dist_spec [EvDPush 71; EvDPush 72; EvDPop 71; EvDPush 73; EvDEmpty; EvDPop 72] [] = Some q.
Proof. eapply (dist_fifo_order 3 2 dist_demo); vm_compute; reflexivity. Defined.

Lemma dist_failed_pop_means_witness : exists c : dist_conf,
  run dist_step dist_demo_prefix (dist_init 3 2) = Some (c, [EvDPush 71; EvDPush 72; EvDPop 71; EvDPush 73]) /\
  exists ctr nd, threads c !! 1%nat = Some (DPopNext ctr nd) /\ (ctr < d_counter (shared c) \/ [72; 73] = []).
Proof.
  eexists. split; [vm_compute; reflexivity|].
  eapply (dist_failed_pop_means 3 2 dist_demo_prefix _ [EvDPush 71; EvDPush 72; EvDPop 71; EvDPush 73] 1 _ EvDEmpty [72; 73]);
    vm_compute; reflexivity.
Defined.

Lemma dist_no_fault_witness : exists c : dist_conf,
  run dist_step dist_demo_prefix (dist_init 3 2) = Some (c, [EvDPush 71; EvDPush 72; EvDPop 71; EvDPush 73]) /\
  exists c' e, dist_step (1%nat, DGo) c = Some (c', e).
Proof.
  eexists. split; [vm_compute; reflexivity|].
  eapply (dist_no_fault 3 2 dist_demo_prefix); [vm_compute; reflexivity|vm_compute; reflexivity|reflexivity|discriminate].
Defined.

(** The empty answer of that run comes although the queue has not been empty
    since before the pop began. *)
Example dist_spurious_empty : exists c c' q, run dist_step dist_demo_prefix (dist_init 3 2) = Some (c, [EvDPush 71; EvDPush 72; EvDPop 71; EvDPush 73]) /\
  spec_run dist_spec [EvDPush 71; EvDPush 72; EvDPop 71; EvDPush 73] [] = Some q /\ q = [72; 73] /\
  dist_step (1%nat, DGo) c = Some (c', [EvDEmpty]).
Proof. eexists _, _, [72; 73]. split; [vm_compute; reflexivity|]. split; [reflexivity|]. split; [reflexivity|]. vm_compute. reflexivity. Qed.
