(* ===== verification/SchedulerDist.v ===== *)
(** * The scheduler over distinguished FIFOs ([src/fiber_scheduler_dist.c])

    An alternative to [SchedulerWsd]: each kernel thread has one FIFO that it
    alone pushes to and that any thread pops.  A FIFO is the list of its fibers,
    oldest first, as [DistFifo.dist_fifo_order] shows; a pop that loses against
    another thread is an input of the loops, which names the winner: the fiber
    has gone to the winner's FIFO. *)

From S2P Require Import Prelude DistFifo.

(** ** State *)

(** [fiber_schedulers]: the FIFOs and, per scheduler, [steal_count] and
    [failed_steal_count]; [ds_node]: the fibers whose [mpsc_fifo_node] is there
    (a fiber in a FIFO has lent it). *)
Record dist_scheds := DistScheds { ds_queues : list (list Z); ds_stats : list (Z * Z); ds_node : gset Z }.

Definition dist_scheduler_init (num_threads : nat) (fibers : gset Z) : option dist_scheds :=
  if decide (0 < num_threads)%nat
  then Some (DistScheds (replicate num_threads []) (replicate num_threads (0, 0)) fibers) else None (* the assert *).

Definition dist_queue (s : dist_scheds) (i : nat) : list Z := default [] (ds_queues s !! i).
Definition dist_set_queue (s : dist_scheds) (i : nat) (q : list Z) : dist_scheds :=
  DistScheds (<[i:=q]> (ds_queues s)) (ds_stats s) (ds_node s).
Definition dist_count (s : dist_scheds) (i : nat) (stolen failed : Z) : dist_scheds :=
  DistScheds (ds_queues s) (alter (fun c => (u64 (c.1 + stolen), u64 (c.2 + failed))) i (ds_stats s)) (ds_node s).

(** Another thread [j] has popped the oldest fiber of queue [i]. *)
Definition dist_beaten (s : dist_scheds) (i j : nat) : dist_scheds :=
  match dist_queue s i, ds_queues s !! j with
  | f :: q, Some _ => let s' := dist_set_queue s i q in dist_set_queue s' j (dist_queue s' j ++ [f])
  | _, _ => s
  end.

(** ** Operations *)

Definition dist_scheduler_schedule (s : dist_scheds) (i : nat) (the_fiber : Z) : option dist_scheds :=
  if decide (the_fiber ∈ ds_node s)
  then Some (DistScheds (ds_queues s) (ds_stats s) (ds_node s ∖ {[the_fiber]})) ≫= fun s =>
       q ← ds_queues s !! i; Some (dist_set_queue s i (q ++ [the_fiber]))
  else None (* assert(node) *).

(** What a round of the loop of [fiber_scheduler_next] meets: another thread was
    faster, or these fibers are saving their state. *)
Inductive dist_obs := ObsRetry (winner : nat) | ObsSaving (saving : gset Z).

(** [None]: still in the loop when the observations end. *)
Fixpoint dist_scheduler_next (obs : list dist_obs) (s : dist_scheds) (i : nat) : option (dist_scheds * option Z) :=
  match obs with
  | [] => None
  | ObsRetry j :: obs => dist_scheduler_next obs (dist_beaten s i j) i
  | ObsSaving saving :: obs =>
      match dist_queue s i with
      | [] => Some (s, None)
      | new_fiber :: q =>
          if decide (new_fiber ∈ saving) then dist_scheduler_next obs (dist_set_queue s i (q ++ [new_fiber])) i
          else Some (DistScheds (<[i:=q]> (ds_queues s)) (ds_stats s) ({[new_fiber]} ∪ ds_node s), Some new_fiber)
      end
  end.

(** The inner loop of [fiber_scheduler_load_balance]: up to [max_steal] fibers
    from the queue of [r] to that of [i]. *)
Fixpoint dist_steal (max_steal : nat) (beaten : list (option nat)) (i r : nat) (s : dist_scheds)
    : nat * list (option nat) * dist_scheds :=
  match max_steal with
  | O => (O, beaten, s)
  | S max =>
      match head beaten with
      | Some (Some j) => (S max, tail beaten, dist_count (dist_beaten s r j) i 0 1) (* DIST_FIFO_RETRY *)
      | _ =>
          match dist_queue s r with
          | [] => (S max, tail beaten, dist_count s i 0 1)                          (* DIST_FIFO_EMPTY *)
          | stolen :: q =>
              let s := dist_set_queue s r q in
              let s := dist_set_queue s i (dist_queue s i ++ [stolen]) in
              dist_steal max (tail beaten) i r (dist_count s i 1 0)
          end
      end
  end.

(** The queues visited: [i % mod] for [i] from [id + 1] to [end - 1]. *)
Definition dist_victims (n id : nat) : list nat := (fun i => i mod n)%nat <$> seq (S id) (n - 1).

Fixpoint dist_balance_loop (max_steal : nat) (beaten : list (option nat)) (i : nat) (victims : list nat) (s : dist_scheds) : dist_scheds :=
  match victims with
  | [] => s
  | r :: victims =>
      let '(max, beaten, s) := dist_steal max_steal beaten i r s in dist_balance_loop max beaten i victims s
  end.

Definition dist_scheduler_load_balance (beaten : list (option nat)) (s : dist_scheds) (i : nat) : dist_scheds :=
  dist_balance_loop 16 beaten i (dist_victims (length (ds_queues s)) i) s.

Definition dist_scheduler_stats (s : dist_scheds) (i : nat) (steal_count failed_steal_count : Z) : Z * Z :=
  let c := default (0, 0) (ds_stats s !! i) in (u64 (steal_count + c.1), u64 (failed_steal_count + c.2)).

(** ** Every fiber is in one place *)

Definition fibers_of (s : dist_scheds) : list Z := concat (ds_queues s).

Lemma dist_queue_lookup s i q : ds_queues s !! i = Some q -> dist_queue s i = q.
Proof. unfold dist_queue. by intros ->. Qed.

Lemma fibers_set s i q q' : ds_queues s !! i = Some q -> q ++ fibers_of (dist_set_queue s i q') ≡ₚ q' ++ fibers_of s.
Proof. apply concat_insert. Qed.

(** Moving the oldest fiber of [i] to the end of [j]. *)
Lemma fibers_move s i j f q : dist_queue s i = f :: q -> (j < length (ds_queues s))%nat ->
  fibers_of (dist_set_queue (dist_set_queue s i q) j (dist_queue (dist_set_queue s i q) j ++ [f])) ≡ₚ fibers_of s.
Proof.
  intros Hq Hj. unfold dist_queue in Hq at 1. destruct (ds_queues s !! i) as [q0|] eqn:Ei; simpl in Hq; [subst q0|done].
  pose proof (fibers_set s i (f :: q) q Ei) as H1. set (s1 := dist_set_queue s i q) in *.
  destruct (lookup_lt_is_Some_2 (ds_queues s1) j) as [qj Ej]; [simpl; by rewrite length_insert|].
  rewrite (dist_queue_lookup _ _ _ Ej). pose proof (fibers_set s1 j qj (qj ++ [f]) Ej) as H2.
  rewrite <- app_assoc in H2. apply Permutation_app_inv_l in H2. rewrite H2. simpl in *.
  rewrite Permutation_middle in H1. by apply Permutation_app_inv_l in H1.
Qed.

Lemma fibers_beaten s i j : fibers_of (dist_beaten s i j) ≡ₚ fibers_of s.
Proof.
  unfold dist_beaten. destruct (dist_queue s i) as [|f q] eqn:Eq; [done|]. destruct (ds_queues s !! j) as [qj|] eqn:Ej; [|done].
  apply fibers_move; [done|]. by eapply lookup_lt_Some.
Qed.

Lemma length_beaten s i j : length (ds_queues (dist_beaten s i j)) = length (ds_queues s).
Proof. unfold dist_beaten. destruct (dist_queue s i); [done|]. destruct (ds_queues s !! j); [|done]. simpl. by rewrite !length_insert. Qed.

Lemma dist_queue_set_eq s i q : (i < length (ds_queues s))%nat -> dist_queue (dist_set_queue s i q) i = q.
Proof. intros Hi. unfold dist_queue. simpl. by rewrite list_lookup_insert_eq. Qed.

Lemma dist_queue_set_ne s i j q : i <> j -> dist_queue (dist_set_queue s i q) j = dist_queue s j.
Proof. intros Hne. unfold dist_queue. simpl. by rewrite list_lookup_insert_ne. Qed.

Lemma dist_queue_valid s i f q : dist_queue s i = f :: q -> ds_queues s !! i = Some (f :: q).
Proof. unfold dist_queue. by destruct (ds_queues s !! i) as [q0|]; [intros <-|]. Qed.

(** ** Choosing a fiber *)

Lemma next_conserves obs : forall s i s' out, dist_scheduler_next obs s i = Some (s', out) ->
  option_list out ++ fibers_of s' ≡ₚ fibers_of s /\ (out = None -> dist_queue s' i = []).
Proof.
  induction obs as [|[j|saving] obs IH]; intros s i s' out Hn; simpl in Hn; [done| |].
  - apply IH in Hn as [Hp He]. by rewrite Hp, fibers_beaten.
  - destruct (dist_queue s i) as [|f q] eqn:Eq; [by injection Hn as <- <-|]. pose proof (dist_queue_valid _ _ _ _ Eq) as Ei.
    case_decide.
    + apply IH in Hn as [Hp He]. split; [|done]. rewrite Hp. pose proof (fibers_set s i (f :: q) (q ++ [f]) Ei) as H1.
      apply (Permutation_app_inv_l (f :: q)). rewrite H1. by rewrite <- Permutation_cons_append.
    + injection Hn as <- <-. split; [|done]. pose proof (fibers_set s i (f :: q) q Ei) as H1. simpl in *.
      rewrite Permutation_middle in H1. by apply Permutation_app_inv_l in H1.
Qed.

Lemma next_rotates saving a : forall k s i f b, (i < length (ds_queues s))%nat -> dist_queue s i = a ++ f :: b ->
  (forall x, x ∈ a -> x ∈ saving) -> (f ∉ saving) -> (length a < k)%nat ->
  exists s', dist_scheduler_next (replicate k (ObsSaving saving)) s i = Some (s', Some f) /\ dist_queue s' i = b ++ a /\
    ds_node s' = {[f]} ∪ ds_node s.
Proof.
  induction a as [|x a IH]; intros k s i f b Hi Hq Ha Hf Hk; (destruct k as [|k]; [simpl in Hk; lia|]); simpl; rewrite Hq; simpl.
  - rewrite decide_False by done. eexists. split; [done|]. rewrite app_nil_r. split; [|done].
    unfold dist_queue. simpl. by rewrite list_lookup_insert_eq.
  - rewrite decide_True by (apply Ha; left). destruct (IH k (dist_set_queue s i ((a ++ f :: b) ++ [x])) i f (b ++ [x])) as (s' & Hn & Hq' & Hnd).
    + simpl. by rewrite length_insert.
    + rewrite dist_queue_set_eq by done. by rewrite <- app_assoc.
    + intros y Hy. apply Ha. by right.
    + done.
    + simpl in Hk. lia.
    + exists s'. rewrite <- app_assoc in Hq'. done.
Qed.

(** ** Stealing *)

Lemma steal_conserves max : forall beaten i r s m b s', (i < length (ds_queues s))%nat ->
  dist_steal max beaten i r s = (m, b, s') ->
  fibers_of s' ≡ₚ fibers_of s /\ length (ds_queues s') = length (ds_queues s) /\ (m <= max)%nat.
Proof.
  induction max as [|max IH]; intros beaten i r s m b s' Hi Hs; simpl in Hs; [by simplify_eq|].
  destruct (head beaten) as [[j|]|].
  1: injection Hs as <- <- <-; split_and!; [apply fibers_beaten|apply length_beaten|lia].
  all: destruct (dist_queue s r) as [|f q] eqn:Eq; [by injection Hs as <- <- <-|];
    apply IH in Hs as (Hp & Hl & Hm); [|simpl; by rewrite !length_insert];
    split_and!; [rewrite Hp; by apply fibers_move|rewrite Hl; simpl; by rewrite !length_insert|lia].
Qed.

Lemma balance_conserves victims : forall max beaten i s, (i < length (ds_queues s))%nat ->
  fibers_of (dist_balance_loop max beaten i victims s) ≡ₚ fibers_of s.
Proof.
  induction victims as [|r victims IH]; intros max beaten i s Hi; simpl; [done|].
  destruct (dist_steal max beaten i r s) as [[m b] s'] eqn:E. apply steal_conserves in E as (Hp & Hl & _); [|done].
  rewrite IH by (by rewrite Hl). done.
Qed.

(** Undisturbed, a victim loses its oldest fibers to the end of the queue. *)
Lemma dist_steal_takes max : forall i r s, (i < length (ds_queues s))%nat -> (r < length (ds_queues s))%nat -> i <> r ->
  exists s', dist_steal max [] i r s = ((max - length (dist_queue s r))%nat, [], s') /\
    dist_queue s' i = dist_queue s i ++ take max (dist_queue s r) /\ length (ds_queues s') = length (ds_queues s) /\
    dist_queue s' r = drop max (dist_queue s r) /\ (forall j, j <> i -> j <> r -> dist_queue s' j = dist_queue s j).
Proof.
  induction max as [|max IH]; intros i r s Hi Hr Hne; simpl.
  - exists s. rewrite take_0, app_nil_r. done.
  - destruct (dist_queue s r) as [|f q] eqn:Eq; simpl.
    + eexists. split; [done|]. rewrite app_nil_r. done.
    + set (s1 := dist_set_queue s r q). set (s2 := dist_set_queue s1 i (dist_queue s1 i ++ [f])).
      assert (dist_queue s2 i = dist_queue s i ++ [f] /\ dist_queue s2 r = q) as [E1 E2].
      { unfold s2. rewrite dist_queue_set_eq by (simpl; by rewrite length_insert). rewrite (dist_queue_set_ne s1 i r) by done.
        unfold s1. rewrite dist_queue_set_ne, dist_queue_set_eq by done. done. }
      destruct (IH i r (dist_count s2 i 1 0)) as (s' & Hs & Hqi & Hl & Hqr & Hoth); [simpl; by rewrite !length_insert..|done|].
      change (dist_queue (dist_count s2 i 1 0)) with (dist_queue s2) in *. exists s'. rewrite E2 in *. split; [done|].
      split; [rewrite Hqi, E1, <- app_assoc; done|]. split; [rewrite Hl; simpl; by rewrite !length_insert|]. split; [done|].
      intros j Hj1 Hj2. rewrite Hoth by done. unfold s2, s1. by rewrite !dist_queue_set_ne by done.
Qed.

Lemma balance_takes victims : forall max i s, (i < length (ds_queues s))%nat -> NoDup victims -> (i ∉ victims) ->
  (forall r, r ∈ victims -> (r < length (ds_queues s))%nat) ->
  dist_queue (dist_balance_loop max [] i victims s) i = dist_queue s i ++ take max (concat (dist_queue s <$> victims)).
Proof.
  induction victims as [|r victims IH]; intros max i s Hi Hnd Hni Hr; simpl; [by rewrite take_nil, app_nil_r|].
  apply NoDup_cons in Hnd as [Hrv Hnd]. apply not_elem_of_cons in Hni as [Hne Hni].
  destruct (dist_steal_takes max i r s Hi ltac:(apply Hr; left) Hne) as (s' & -> & Hqi & Hl & Hqr & Hoth).
  rewrite IH; [|by rewrite Hl|done|done|intros x Hx; rewrite Hl; apply Hr; by right].
  rewrite Hqi, <- app_assoc, take_app. do 2 f_equal. f_equal. f_equal. apply list_fmap_ext. intros k x Hx.
  apply list_elem_of_lookup_2 in Hx. apply Hoth; by intros ->.
Qed.

(** The victims are the other schedulers, each once, the next one first. *)
Lemma victims_spec n i : (i < n)%nat -> NoDup (dist_victims n i) /\ (forall r, r ∈ dist_victims n i <-> (r < n)%nat /\ r <> i).
Proof.
  intros Hi. unfold dist_victims.
  assert (forall x, (S i <= x < i + n)%nat -> (x mod n)%nat = if decide (x < n)%nat then x else (x - n)%nat) as Hmod.
  { intros x Hx. case_decide; [by apply Nat.mod_small|]. rewrite <- (Nat.mod_small (x - n) n) by lia.
    replace x with (x - n + 1 * n)%nat at 1 by lia. by rewrite Nat.Div0.mod_add. }
  split.
  - apply NoDup_fmap_2_strong; [|apply NoDup_seq]. intros x y Hx%elem_of_seq Hy%elem_of_seq E.
    rewrite !Hmod in E by lia. repeat case_decide; lia.
  - intros r. rewrite list_elem_of_fmap. split.
    + intros (x & -> & Hx%elem_of_seq). rewrite Hmod by lia. case_decide; lia.
    + intros [Hr Hne]. exists (if decide (i < r)%nat then r else r + n)%nat. split; [|apply elem_of_seq; case_decide; lia].
      rewrite Hmod by (case_decide; lia). repeat case_decide; lia.
Qed.

(** ** Properties *)

(** No fiber is lost or run twice, whatever other threads steal meanwhile:
    after [fiber_scheduler_next] the fibers in the queues and the one returned
    are those that were in the queues, and it returns nothing only with an empty
    queue; after [fiber_scheduler_load_balance] the queues hold the same
    fibers. *)
Theorem dist_scheduler_conserves obs beaten s i s' out : (i < length (ds_queues s))%nat ->
  dist_scheduler_next obs s i = Some (s', out) ->
  option_list out ++ concat (ds_queues s') ≡ₚ concat (ds_queues s) /\ (out = None -> dist_queue s' i = []) /\
  concat (ds_queues (dist_scheduler_load_balance beaten s i)) ≡ₚ concat (ds_queues s).
Proof.
  intros Hi Hn. destruct (next_conserves _ _ _ _ _ Hn) as [H1 H2]. split; [done|]. split; [done|]. by apply balance_conserves.
Qed.

(** What the scheduler chooses.  Undisturbed, [fiber_scheduler_next] returns
    the oldest fiber that is not saving its state and puts those before it at the
    end of the queue; [fiber_scheduler_load_balance] appends to the thread's own
    queue the oldest fibers of the other queues, beginning with the next thread,
    sixteen at most. *)
Theorem dist_scheduler_picks saving s i a f b k : (i < length (ds_queues s))%nat ->
  dist_queue s i = a ++ f :: b -> (forall x, x ∈ a -> x ∈ saving) -> (f ∉ saving) -> (length a < k)%nat ->
  (exists s', dist_scheduler_next (replicate k (ObsSaving saving)) s i = Some (s', Some f) /\ dist_queue s' i = b ++ a) /\
  dist_queue (dist_scheduler_load_balance [] s i) i =
    dist_queue s i ++ take 16 (concat (dist_queue s <$> dist_victims (length (ds_queues s)) i)) /\
  (forall r, r ∈ dist_victims (length (ds_queues s)) i <-> (r < length (ds_queues s))%nat /\ r <> i).
Proof.
  intros Hi Hq Ha Hf Hk. destruct (victims_spec _ _ Hi) as [Hnd Hv].
  split; [destruct (next_rotates saving a k s i f b) as (s' & H1 & H2 & _); eauto|]. split; [|done].
  apply balance_takes; [done|done|rewrite Hv; tauto|]. intros r. rewrite Hv. tauto.
Qed.

(** [fiber_scheduler_next] does not return while every fiber of its queue is
    saving its state: it pops and pushes them round and round. *)
Theorem dist_scheduler_spins saving s i k : dist_queue s i <> [] -> (forall x, x ∈ dist_queue s i -> x ∈ saving) ->
  dist_scheduler_next (replicate k (ObsSaving saving)) s i = None.
Proof.
  revert s. induction k as [|k IH]; intros s Hne Hall; simpl; [done|]. destruct (dist_queue s i) as [|f q] eqn:Eq; [done|].
  rewrite decide_True by (apply Hall; left). pose proof (lookup_lt_Some _ _ _ (dist_queue_valid _ _ _ _ Eq)) as Hi.
  apply IH; rewrite dist_queue_set_eq by done; [by destruct q|]. intros x Hx. apply Hall. set_solver.
Qed.

(** Scheduling and choosing: a fiber scheduled on an empty queue comes back with
    its node. *)
Theorem dist_schedule_then_next s i f s1 : ds_queues s !! i = Some [] -> dist_scheduler_schedule s i f = Some s1 ->
  exists s2, dist_scheduler_next [ObsSaving ∅] s1 i = Some (s2, Some f) /\ dist_queue s2 i = [] /\ ds_node s2 = ds_node s.
Proof.
  intros Hq Hs. unfold dist_scheduler_schedule in Hs. case_decide as Hf; [|done]. simpl in Hs. rewrite Hq in Hs. simpl in Hs.
  injection Hs as <-. apply lookup_lt_Some in Hq as Hi.
  destruct (next_rotates ∅ [] 1 (dist_set_queue (DistScheds (ds_queues s) (ds_stats s) (ds_node s ∖ {[f]})) i [f]) i f [])
    as (s2 & H1 & H2 & H3); [simpl; by rewrite length_insert|by apply dist_queue_set_eq|set_solver|set_solver|simpl; lia|].
  exists s2. split; [done|]. split; [done|]. rewrite H3. simpl. by rewrite <- union_difference_singleton_L.
Qed.

(** ** Runs *)

Definition dist_demo_scheds : dist_scheds := DistScheds [[7; 8; 9]; [4]; [5; 6]] (replicate 3 (0, 0)) ∅.

Lemma dist_scheduler_conserves_witness : exists s',
  dist_scheduler_next [ObsRetry 2; ObsSaving {[8]}; ObsSaving {[8]}] dist_demo_scheds 0 = Some (s', Some 9) /\
  [9] ++ concat (ds_queues s') ≡ₚ [7; 8; 9; 4; 5; 6].
Proof.
  eexists. split; [vm_compute; reflexivity|].
  refine (proj1 (dist_scheduler_conserves [ObsRetry 2; ObsSaving {[8]}; ObsSaving {[8]}] [] dist_demo_scheds 0 _ (Some 9) _ _)).
  - simpl. lia.
  - vm_compute. reflexivity.
Defined.

Lemma dist_scheduler_picks_witness : (exists s', dist_scheduler_next (replicate 2 (ObsSaving {[7]})) dist_demo_scheds 0 = Some (s', Some 8) /\
    dist_queue s' 0 = [9; 7]) /\ dist_queue (dist_scheduler_load_balance [] dist_demo_scheds 0) 0 = [7; 8; 9; 4; 5; 6].
Proof.
  destruct (dist_scheduler_picks {[7]} dist_demo_scheds 0 [7] 8 [9] 2) as (H1 & H2 & _);
    [simpl; lia|reflexivity|set_solver|set_solver|simpl; lia|]. split; [exact H1|exact H2].
Defined.

Lemma dist_scheduler_spins_witness : dist_scheduler_next (replicate 5 (ObsSaving {[4]})) dist_demo_scheds 1 = None.
Proof. apply (dist_scheduler_spins {[4]} dist_demo_scheds 1 5); [discriminate|]. intros x Hx. simpl in Hx. set_solver. Defined.
