(* ===== verification/Semaphore.v ===== *)
(** * The semaphore ([src/fiber_semaphore.c], [include/fiber_semaphore.h])

    The counter is the number of permits; when it is negative, it counts the
    fibers that wait.  A post that finds it negative pops a waiter and hands the
    permit to it, and only then increments the counter, so that in between the
    counter also counts the posts that have not caught up.  The queue of waiters
    is any [WaitQueue]; [MpmcQueue] provides the one of [mpmc_fifo.h]. *)

From S2P Require Import Prelude MpscFifo WaitQueue MpmcQueue Manager.

Section semaphore.
Context {Q : Type} `{WaitQueue Q}.

(** ** State *)

(** [fiber_semaphore_t], and the fibers the scheduler has been given. *)
Record sem_shared := SShared { s_counter : Z; s_waiters : Q; s_ready : list nat }.

Inductive sem_pc :=
| SIdle
| SWait (w : wait_pc)           (* in fiber_manager_wait_in_mpmc_queue *)
| STry                          (* trywait: before the load *)
| STryCas (counter : Z)
| SPost                         (* post_internal: before the load *)
| SPop                          (* in fiber_manager_wake_from_mpmc_queue *)
| SAdd                          (* before the increment after a wake-up *)
| SPostCas (prev_counter : Z)
| SYield.                       (* post: in the final fiber_yield *)

Inductive sem_choice := SCallWait | SCallTrywait | SCallPost | SGo (spurious : bool).

(** A permit taken, a permit given, a failed trywait. *)
Inductive sem_ev := EvTake (t : nat) | EvGive (t : nat) | EvRefused (t : nat).

(** ** Operations *)

Definition fiber_semaphore_init (n : nat) (value : Z) : sem_shared := SShared value (wq_init n) [].

(** The counter it leaves, and the nodes it retires. *)
Definition fiber_semaphore_destroy (s : sem_shared) : option (Z * list Z) :=
  retired ← wq_destroy (s_waiters s); Some (0, retired).

Definition fiber_semaphore_wait (t : nat) (s : sem_shared) (pc : sem_pc)
    : option (sem_shared * sem_pc * list sem_ev) :=
  match pc with
  | SIdle =>
      let val := i32 (s_counter s - 1) in
      let s' := SShared val (s_waiters s) (s_ready s) in
      if Z.leb 0 val then Some (s', SIdle, [EvTake t]) else Some (s', SWait WPush, [])
  | SWait WParked =>
      if decide (t ∈ s_ready s)
      then Some (SShared (s_counter s) (s_waiters s) (take_ready t (s_ready s)), SIdle, [])
      else None
  | SWait WPush => q ← wq_xchg t (s_waiters s); Some (SShared (s_counter s) q (s_ready s), SWait WLink, [])
  | SWait WLink => q ← wq_link t (s_waiters s); Some (SShared (s_counter s) q (s_ready s), SWait WParked, [])
  | _ => None
  end.

Definition fiber_semaphore_trywait (spurious : bool) (t : nat) (s : sem_shared) (pc : sem_pc)
    : option (sem_shared * sem_pc * list sem_ev) :=
  match pc with
  | STry =>
      if Z.ltb 0 (s_counter s) then Some (s, STryCas (s_counter s), []) else Some (s, SIdle, [EvRefused t])
  | STryCas counter =>
      if negb spurious && Z.eqb (s_counter s) counter
      then Some (SShared (i32 (counter - 1)) (s_waiters s) (s_ready s), SIdle, [EvTake t])
      else Some (s, STry, [])
  | _ => None
  end.

(** [fiber_semaphore_post_internal]; the wake-up is tried once ([count] is 0). *)
Definition fiber_semaphore_post_internal (spurious : bool) (t : nat) (s : sem_shared) (pc : sem_pc)
    : option (sem_shared * sem_pc * list sem_ev) :=
  match pc with
  | SPost => if Z.ltb (s_counter s) 0 then Some (s, SPop, []) else Some (s, SPostCas (s_counter s), [])
  | SPop =>
      '(out, q) ← wq_trypop (s_waiters s);
      '(woken, wake_count) ← fiber_manager_wake_from_mpmc_queue [Z.of_nat <$> out] 0;
      let s' := SShared (s_counter s) q (s_ready s ++ (Z.to_nat <$> woken)) in
      if negb (Z.eqb wake_count 0) then Some (s', SAdd, EvGive t :: (EvTake <$> (Z.to_nat <$> woken)))
      else Some (s', SPost, [])
  | SAdd => Some (SShared (i32 (s_counter s + 1)) (s_waiters s) (s_ready s), SYield, [])
  | SPostCas prev_counter =>
      if negb spurious && Z.eqb (s_counter s) prev_counter
      then Some (SShared (i32 (prev_counter + 1)) (s_waiters s) (s_ready s), SIdle, [EvGive t])
      else Some (s, SPost, [])
  | _ => None
  end.

(** [fiber_semaphore_post]: yields if a fiber was woken. *)
Definition fiber_semaphore_post (spurious : bool) (t : nat) (s : sem_shared) (pc : sem_pc)
    : option (sem_shared * sem_pc * list sem_ev) :=
  match pc with
  | SYield => Some (s, SIdle, [])
  | _ => fiber_semaphore_post_internal spurious t s pc
  end.

Definition fiber_semaphore_getvalue (s : sem_shared) : Z := s_counter s.

Definition sem_tstep (t : nat) (ch : sem_choice) (s : sem_shared) (pc : sem_pc)
    : option (sem_shared * sem_pc * list sem_ev) :=
  match ch, pc with
  | SCallWait, SIdle => fiber_semaphore_wait t s pc
  | SCallTrywait, SIdle => Some (s, STry, [])
  | SCallPost, SIdle => Some (s, SPost, [])
  | SGo _, SWait _ => fiber_semaphore_wait t s pc
  | SGo sp, (STry | STryCas _) => fiber_semaphore_trywait sp t s pc
  | SGo sp, (SPost | SPop | SAdd | SPostCas _ | SYield) => fiber_semaphore_post sp t s pc
  | _, _ => None
  end.

Definition sem_conf := conf sem_shared sem_pc.
Definition sem_step := conf_step sem_tstep.
Definition sem_init (n : nat) (value : Z) : sem_conf :=
  Conf (fiber_semaphore_init n value) (replicate n SIdle).

(** ** The abstract semaphore: a number of permits *)

Definition sem_spec (e : sem_ev) (v : Z) : option Z :=
  match e with
  | EvTake _ => if Z.ltb 0 v then Some (v - 1) else None
  | EvGive _ => Some (v + 1)
  | EvRefused _ => if Z.eqb v 0 then Some v else None
  end.

(** ** Invariant *)

Definition sem_wait_of (pc : sem_pc) : option wait_pc := match pc with SWait w => Some w | _ => None end.
Definition sem_waits (ths : list sem_pc) (t : nat) : option wait_pc := pc ← ths !! t; sem_wait_of pc.
Definition waiting (pc : sem_pc) : nat := match pc with SWait _ => 1 | _ => 0 end.
Definition adding (pc : sem_pc) : nat := match pc with SAdd => 1 | _ => 0 end.

(** Waiters that nobody has woken yet, and posts that have not counted theirs. *)
Definition debt (ths : list sem_pc) (ready : list nat) : Z :=
  Z.of_nat (sum_list_with waiting ths) + Z.of_nat (sum_list_with adding ths) - Z.of_nat (length ready).

Record sem_rel (n : nat) (c : sem_conf) (v : Z) (l : list (nat * bool)) : Prop := {
  sr_len : length (threads c) = n;
  sr_repr : wq_repr n (s_waiters (shared c)) l;
  sr_wq : wq_inv l (s_ready (shared c)) (sem_waits (threads c));
  sr_count : s_counter (shared c) = v - debt (threads c) (s_ready (shared c));
  sr_pos : 0 <= v;
  sr_excl : v = 0 \/ debt (threads c) (s_ready (shared c)) = 0;
  sr_cas : forall t k, threads c !! t = Some (SPostCas k) -> 0 <= k;
  sr_try : forall t k, threads c !! t = Some (STryCas k) -> 0 < k
}.

Lemma sem_waits_insert ths t pc pc' : ths !! t = Some pc ->
  upd_at t (sem_wait_of pc') (sem_waits ths) (sem_waits (<[t:=pc']> ths)).
Proof.
  intros Ht. unfold sem_waits. split.
  - by rewrite list_lookup_insert_eq by (by eapply lookup_lt_Some).
  - intros i Hi. by rewrite list_lookup_insert_ne.
Qed.

(** The woken fibers are waiting. *)
Lemma sem_ready_le n c v l : sem_rel n c v l ->
  (length (s_ready (shared c)) <= sum_list_with waiting (threads c))%nat.
Proof.
  intros HR. pose proof (sr_wq _ _ _ _ HR) as Hq. apply sum_covers.
  - pose proof (wqi_nd _ _ _ Hq) as Hn. by apply NoDup_app in Hn as (_ & _ & ?).
  - intros i Hi. assert (sem_waits (threads c) i = Some WParked) as Hw by (apply (wqi_park _ _ _ Hq); auto).
    unfold sem_waits in Hw. destruct (threads c !! i) as [pc|]; [|done]. exists pc. split; [done|].
    destruct pc; simplify_eq/=. lia.
Qed.

Lemma debt_bounds n c v l : sem_rel n c v l ->
  0 <= debt (threads c) (s_ready (shared c)) <= Z.of_nat n.
Proof.
  intros HR. pose proof (sem_ready_le _ _ _ _ HR) as Hr. unfold debt. split; [lia|].
  rewrite <- (sr_len _ _ _ _ HR).
  assert (sum_list_with waiting (threads c) + sum_list_with adding (threads c) <= length (threads c))%nat; [|lia].
  clear. induction (threads c) as [|p ths IH]; simpl; [lia|]. destruct p; simpl; lia.
Qed.

Lemma debt_insert ths t pc pc' r r' : ths !! t = Some pc ->
  debt (<[t:=pc']> ths) r' = debt ths r + Z.of_nat (waiting pc' + adding pc') - Z.of_nat (waiting pc + adding pc)
    - Z.of_nat (length r') + Z.of_nat (length r).
Proof.
  intros Ht. unfold debt.
  pose proof (sum_list_with_insert waiting ths t pc pc' Ht). pose proof (sum_list_with_insert adding ths t pc pc' Ht). lia.
Qed.

(** ** Preservation *)

Lemma sem_rel_step n c v l t pc s' pc' v' l' :
  sem_rel n c v l -> threads c !! t = Some pc ->
  wq_repr n (s_waiters s') l' -> wq_inv l' (s_ready s') (sem_waits (<[t:=pc']> (threads c))) ->
  s_counter s' = v' - debt (<[t:=pc']> (threads c)) (s_ready s') -> 0 <= v' ->
  v' = 0 \/ debt (<[t:=pc']> (threads c)) (s_ready s') = 0 ->
  (forall k, pc' = SPostCas k -> 0 <= k) -> (forall k, pc' = STryCas k -> 0 < k) ->
  sem_rel n (Conf s' (<[t:=pc']> (threads c))) v' l'.
Proof.
  intros HR Ht Hq Hw Hc Hv He H1 H2. split; cbn [shared threads]; auto.
  - rewrite length_insert. apply HR.
  - intros i k Hi. apply lookup_insert_cases in Hi as [(_ & Hi)|(_ & Hi)]; [by apply H1|by eapply (sr_cas _ _ _ _ HR)].
  - intros i k Hi. apply lookup_insert_cases in Hi as [(_ & Hi)|(_ & Hi)]; [by apply H2|by eapply (sr_try _ _ _ _ HR)].
Qed.

(** A step that moves a fiber between program points outside the queue. *)
Lemma sem_rel_local n c v l t pc ctr pc' v' :
  sem_rel n c v l -> threads c !! t = Some pc ->
  sem_wait_of pc = None -> sem_wait_of pc' = None \/ sem_wait_of pc' = Some WPush ->
  let d := debt (<[t:=pc']> (threads c)) (s_ready (shared c)) in
  ctr = v' - d -> 0 <= v' -> v' = 0 \/ d = 0 ->
  (forall k, pc' = SPostCas k -> 0 <= k) -> (forall k, pc' = STryCas k -> 0 < k) ->
  sem_rel n (Conf (SShared ctr (s_waiters (shared c)) (s_ready (shared c))) (<[t:=pc']> (threads c))) v' l.
Proof.
  intros HR Ht Hw Hw' d Hc Hv He H1 H2. eapply sem_rel_step; eauto; [apply HR|].
  eapply wqi_other; [apply HR| |exact Hw'|by eapply sem_waits_insert]. left. unfold sem_waits. by rewrite Ht.
Qed.

Lemma sem_wait_call n c v l t s' pc' evs : Z.of_nat n < 2 ^ 31 -> v < 2 ^ 31 ->
  sem_rel n c v l -> threads c !! t = Some SIdle ->
  fiber_semaphore_wait t (shared c) SIdle = Some (s', pc', evs) ->
  exists v', spec_run sem_spec evs v = Some v' /\ v' <= v /\ sem_rel n (Conf s' (<[t:=pc']> (threads c))) v' l.
Proof.
  intros Hn Hv HR Ht Hs. pose proof (debt_bounds _ _ _ _ HR) as Hd. pose proof (sr_count _ _ _ _ HR) as Hc.
  pose proof (sr_pos _ _ _ _ HR). pose proof (sr_excl _ _ _ _ HR) as He.
  assert (i32 (s_counter (shared c) - 1) = s_counter (shared c) - 1) as Ei.
  { apply i32_small. enough (debt (threads c) (s_ready (shared c)) < 2 ^ 31) by lia. lia. }
  pose proof (fun p => debt_insert (threads c) t SIdle p (s_ready (shared c)) (s_ready (shared c)) Ht) as Hx.
  simpl in Hs. rewrite Ei in Hs. destruct (Z.leb_spec 0 (s_counter (shared c) - 1)); simplify_eq/=.
  - exists (v - 1). simpl. rewrite (proj2 (Z.ltb_lt 0 v)) by lia. split; [done|]. split; [lia|].
    eapply sem_rel_local; eauto; try done; try (rewrite (Hx SIdle); simpl); lia.
  - exists v. split; [done|]. split; [lia|].
    eapply sem_rel_local; eauto; try done; rewrite (Hx (SWait WPush)); simpl; lia.
Qed.

Lemma sem_wait_go n c v l t w s' pc' evs :
  sem_rel n c v l -> threads c !! t = Some (SWait w) ->
  fiber_semaphore_wait t (shared c) (SWait w) = Some (s', pc', evs) ->
  exists l', spec_run sem_spec evs v = Some v /\ sem_rel n (Conf s' (<[t:=pc']> (threads c))) v l'.
Proof.
  intros HR Ht Hs. pose proof (sr_count _ _ _ _ HR) as Hc. pose proof (sr_pos _ _ _ _ HR).
  pose proof (sr_excl _ _ _ _ HR) as He. pose proof (sr_wq _ _ _ _ HR) as Hq.
  assert (t < n)%nat as Htn by (rewrite <- (sr_len _ _ _ _ HR); by eapply lookup_lt_Some).
  assert (sem_waits (threads c) t = Some w) as Hw by (unfold sem_waits; by rewrite Ht).
  pose proof (fun p r => debt_insert (threads c) t (SWait w) p (s_ready (shared c)) r Ht) as Hx. simpl in Hx.
  destruct w; simpl in Hs.
  - destruct (wqi_absent _ _ _ _ Hq (or_intror Hw)) as [Hl _].
    destruct (wq_xchg_spec n _ l t (sr_repr _ _ _ _ HR) Htn Hl) as (q' & E & Hr'). rewrite E in Hs. simplify_eq/=.
    exists (l ++ [(t, false)]). split; [done|].
    eapply sem_rel_step; eauto; simpl; try done; [|rewrite Hx; simpl; lia..].
    by eapply wqi_push; [exact Hq|exact Hw|eapply (sem_waits_insert _ _ _ (SWait WLink))].
  - destruct (wqi_linked _ _ _ _ Hq _ Hw (sem_waits_insert _ _ _ (SWait WParked) Ht)) as (l1 & l2 & El & Hq').
    pose proof (sr_repr _ _ _ _ HR) as Hr. rewrite El in Hr.
    destruct (wq_link_spec n _ l1 l2 t Hr) as (q' & E & Hr'). rewrite E in Hs. simplify_eq/=.
    eexists. split; [done|]. eapply sem_rel_step; eauto; simpl; try done; rewrite Hx; simpl; lia.
  - case_decide as Hin; simplify_eq/=. exists l. split; [done|].
    assert (length (s_ready (shared c)) = S (length (take_ready t (s_ready (shared c))))) as Hlen.
    { apply take_ready_length; [|done]. pose proof (wqi_nd _ _ _ Hq) as Hnd. by apply NoDup_app in Hnd as (_ & _ & ?). }
    destruct (wqi_resume _ _ _ t Hq _ Hin (sem_waits_insert _ _ _ SIdle Ht)) as [_ Hq'].
    eapply sem_rel_step; eauto; simpl; try done; [apply HR|rewrite Hx; simpl; lia..].
Qed.

(** One attempt to wake a fiber. *)
Lemma wake_once out : fiber_manager_wake_from_mpmc_queue [Z.of_nat <$> out] 0 =
  Some (match out with Some g => [Z.of_nat g] | None => [] end, match out with Some _ => 1 | None => 0 end).
Proof. by destruct out. Qed.

Lemma sem_pop n c v l t sp s' pc' evs :
  sem_rel n c v l -> threads c !! t = Some SPop ->
  fiber_semaphore_post_internal sp t (shared c) SPop = Some (s', pc', evs) ->
  exists l', spec_run sem_spec evs v = Some v /\ sem_rel n (Conf s' (<[t:=pc']> (threads c))) v l'.
Proof.
  intros HR Ht Hs. pose proof (sr_count _ _ _ _ HR) as Hc. pose proof (sr_pos _ _ _ _ HR).
  pose proof (sr_excl _ _ _ _ HR) as He. pose proof (sr_wq _ _ _ _ HR) as Hq.
  pose proof (fun p r => debt_insert (threads c) t SPop p (s_ready (shared c)) r Ht) as Hx. simpl in Hx.
  assert (forall l', (forall f, head l <> Some (f, true)) -> l' = l -> exists l',
    spec_run sem_spec evs v = Some v /\ sem_rel n (Conf s' (<[t:=pc']> (threads c))) v l') as Hnone.
  { intros _ Hh _. cbn [fiber_semaphore_post_internal] in Hs.
    rewrite (wq_pop_empty n _ l (sr_repr _ _ _ _ HR) Hh) in Hs. cbn [mbind option_bind] in Hs.
    rewrite wake_once in Hs. cbn in Hs. rewrite app_nil_r in Hs. simplify_eq. exists l. split; [done|].
    eapply sem_rel_local; eauto; try done; try (by left); rewrite (Hx SPost); simpl; lia. }
  destruct l as [|[g [|]] l']; [by apply (Hnone []) | |by apply (Hnone ((g, false) :: l'))].
  destruct (wq_pop_spec n _ _ _ (sr_repr _ _ _ _ HR)) as (q' & E & Hq').
  cbn [fiber_semaphore_post_internal] in Hs. rewrite E in Hs. cbn [mbind option_bind] in Hs.
  rewrite wake_once in Hs. cbn in Hs. rewrite Nat2Z.id in Hs. simplify_eq. exists l'. split.
  { simpl. rewrite (proj2 (Z.ltb_lt _ _)) by lia. f_equal. lia. }
  eapply sem_rel_step; eauto; simpl; try done; try (rewrite Hx, length_app; simpl; lia).
  eapply wqi_other; [by apply wqi_pop| | |by eapply sem_waits_insert]; left; [|done].
  unfold sem_waits. by rewrite Ht.
Qed.

Lemma sem_simulation n k V lbl c c' evs v l :
  Z.of_nat n < 2 ^ 31 -> k + 1 < 2 ^ 31 - V -> sem_rel n c v l -> v <= V + k ->
  sem_step lbl c = Some (c', evs) ->
  exists v' l', spec_run sem_spec evs v = Some v' /\ sem_rel n c' v' l' /\ v' <= V + (k + 1).
Proof.
  destruct lbl as [t ch]. intros Hn Hk HR Hvk Hstep.
  apply conf_step_inv in Hstep as (pc & s' & pc' & Ht & Hs & ->).
  pose proof (sr_count _ _ _ _ HR) as Hc. pose proof (sr_pos _ _ _ _ HR) as Hv.
  pose proof (sr_excl _ _ _ _ HR) as He. pose proof (debt_bounds _ _ _ _ HR) as Hd.
  pose proof (fun p => debt_insert (threads c) t pc p (s_ready (shared c)) (s_ready (shared c)) Ht) as Hx.
  assert (forall p, adding pc = 0%nat -> adding p = 0%nat -> waiting pc = 0%nat -> waiting p = 0%nat ->
    debt (<[t:=p]> (threads c)) (s_ready (shared c)) = debt (threads c) (s_ready (shared c))) as Hsame.
  { intros p H1 H2 H3 H4. rewrite Hx, H1, H2, H3, H4. lia. }
  assert (SShared (s_counter (shared c)) (s_waiters (shared c)) (s_ready (shared c)) = shared c) as Es
    by (by destruct (shared c)).
  assert (forall p, adding pc = 0%nat -> adding p = 0%nat -> waiting pc = 0%nat -> waiting p = 0%nat ->
    (forall k, p = SPostCas k -> 0 <= k) -> (forall k, p = STryCas k -> 0 < k) ->
    sem_rel n (Conf (shared c) (<[t:=p]> (threads c))) v l) as Hmove.
  { intros p H1 H2 H3 H4 H5 H6. rewrite <- Es.
    eapply sem_rel_local; eauto; try (rewrite Hsame by done; lia); destruct pc, p; simpl in *; first [done|lia|by left]. }
  destruct ch, pc; try discriminate Hs; cbn [sem_tstep fiber_semaphore_post] in Hs.
  - destruct (sem_wait_call n c v l t _ _ _ Hn ltac:(lia) HR Ht Hs) as (v' & H1 & H2 & H3).
    exists v', l. split_and!; [done|done|lia].
  - simplify_eq. exists v, l. split_and!; [done|by apply Hmove|lia].
  - simplify_eq. exists v, l. split_and!; [done|by apply Hmove|lia].
  - destruct (sem_wait_go n c v l t w _ _ _ HR Ht Hs) as (l' & H1 & H2). exists v, l'. split_and!; [done|done|lia].
  - simpl in Hs. destruct (Z.ltb_spec 0 (s_counter (shared c))); simplify_eq; exists v, l.
    + split_and!; [done| |lia]. apply Hmove; try done. by intros k0 [= <-].
    + split_and!; [|by apply Hmove|lia]. simpl. by rewrite (proj2 (Z.eqb_eq v 0)) by lia.
  - simpl in Hs. destruct (negb spurious && Z.eqb (s_counter (shared c)) counter) eqn:E.
    + apply andb_prop in E as [_ E%Z.eqb_eq]. pose proof (sr_try _ _ _ _ HR _ _ Ht). simplify_eq.
      exists (v - 1), l. simpl. rewrite (proj2 (Z.ltb_lt 0 v)) by lia. split_and!; [done| |lia].
      rewrite i32_small by lia.
      eapply sem_rel_local; eauto; try done; try (by left); rewrite ?Hsame by done; lia.
    + simplify_eq. exists v, l. split_and!; [done|by apply Hmove|lia].
  - simpl in Hs. destruct (Z.ltb_spec (s_counter (shared c)) 0); simplify_eq; exists v, l.
    + split_and!; [done|by apply Hmove|lia].
    + split_and!; [done| |lia]. apply Hmove; try done. by intros k0 [= <-].
  - destruct (sem_pop n c v l t _ _ _ _ HR Ht Hs) as (l' & H1 & H2). exists v, l'. split_and!; [done|done|lia].
  - simpl in Hs. simplify_eq. exists v, l. split_and!; [done| |lia].
    pose proof (sum_list_with_lookup adding _ _ _ Ht) as La. simpl in La.
    pose proof (sem_ready_le _ _ _ _ HR) as Hle.
    assert (1 <= debt (threads c) (s_ready (shared c))) as Hd1 by (unfold debt; lia).
    rewrite i32_small by lia.
    eapply sem_rel_local; eauto; try done; try (by left); rewrite ?Hx; simpl; lia.
  - simpl in Hs. destruct (negb spurious && Z.eqb (s_counter (shared c)) prev_counter) eqn:E.
    + apply andb_prop in E as [_ E%Z.eqb_eq]. pose proof (sr_cas _ _ _ _ HR _ _ Ht). simplify_eq.
      exists (v + 1), l. split_and!; [done| |lia]. rewrite i32_small by lia.
      eapply sem_rel_local; eauto; try done; try (by left); rewrite ?Hsame by done; lia.
    + simplify_eq. exists v, l. split_and!; [done|by apply Hmove|lia].
  - simplify_eq. exists v, l. split_and!; [done|by apply Hmove|lia].
Qed.

Lemma sem_init_rel n value : 0 <= value -> sem_rel n (sem_init n value) value [].
Proof.
  intros Hv. assert (forall f, f SIdle = 0%nat -> sum_list_with f (replicate n SIdle) = 0%nat) as Hz.
  { intros f Hf. induction n as [|k IH]; [done|]. simpl. lia. }
  unfold sem_init, fiber_semaphore_init. split; simpl; unfold debt; rewrite ?Hz by done; simpl; try lia.
  - apply length_replicate.
  - apply wq_init_spec.
  - apply wq_inv_init. intros t. unfold sem_waits.
    destruct (replicate n SIdle !! t) eqn:E; [|done]. by apply lookup_replicate in E as [-> _].
  - by intros t k [? _]%lookup_replicate.
  - by intros t k [? _]%lookup_replicate.
Qed.

Lemma sem_run_rel n value ls c evs : Z.of_nat n < 2 ^ 31 -> 0 <= value ->
  value + Z.of_nat (length ls) < 2 ^ 31 -> run sem_step ls (sem_init n value) = Some (c, evs) ->
  exists v l, spec_run sem_spec evs value = Some v /\ sem_rel n c v l.
Proof.
  intros Hn Hv Hb Hrun.
  destruct (run_simulation sem_step sem_spec (2 ^ 31 - value)
    (fun k c v => exists l, sem_rel n c v l /\ v <= value + k))
    with (ls := ls) (n := 0) (s := sem_init n value) (s' := c) (evs := evs) (a := value)
    as (v & Hs & l & HR & _); eauto using sem_init_rel.
  - intros k lbl s s' e a Hk (l & HR & Ha) Hs.
    destruct (sem_simulation n k value lbl s s' e a l Hn Hk HR Ha Hs) as (v' & l' & ? & ? & ?). eauto.
  - lia.
  - exists []. split; [by apply sem_init_rel|lia].
Qed.

(** ** Properties *)


(** No fiber waits while there are permits.  A fiber that waits and has not
    been woken does so with the counter negative; a fiber that has been woken is
    with the scheduler and returns when it runs. *)
Theorem semaphore_waits_only_when_empty n value ls c evs t w :
  Z.of_nat n < 2 ^ 31 -> 0 <= value -> value + Z.of_nat (length ls) < 2 ^ 31 ->
  run sem_step ls (sem_init n value) = Some (c, evs) -> threads c !! t = Some (SWait w) ->
  if decide (t ∈ s_ready (shared c))
  then exists c', sem_step (t, SGo false) c = Some (c', []) /\ threads c' !! t = Some SIdle
  else fiber_semaphore_getvalue (shared c) < 0.
Proof.
  intros Hn Hv Hb Hrun Ht. destruct (sem_run_rel _ _ _ _ _ Hn Hv Hb Hrun) as (v & l & Hs & HR).
  pose proof (sr_wq _ _ _ _ HR) as Hq. case_decide as Hin.
  - assert (w = WParked) as ->.
    { pose proof (proj1 (wqi_park _ _ _ Hq t) (or_intror Hin)) as Hw. unfold sem_waits in Hw. rewrite Ht in Hw. by simplify_eq/=. }
    eexists. unfold sem_step, conf_step; simpl. rewrite Ht. simpl. rewrite decide_True by done. split; [done|].
    simpl. apply list_lookup_insert_eq. by eapply lookup_lt_Some.
  - unfold fiber_semaphore_getvalue. rewrite (sr_count _ _ _ _ HR).
    pose proof (sr_excl _ _ _ _ HR). pose proof (sr_pos _ _ _ _ HR).
    enough (1 <= debt (threads c) (s_ready (shared c))) by lia. unfold debt.
    enough (length (t :: s_ready (shared c)) <= sum_list_with waiting (threads c))%nat by (simpl in *; lia).
    apply sum_covers.
    + constructor; [done|]. pose proof (wqi_nd _ _ _ Hq) as Hnd. by apply NoDup_app in Hnd as (_ & _ & ?).
    + intros i [->|Hi]%elem_of_cons; [by exists (SWait w)|].
      assert (sem_waits (threads c) i = Some WParked) as Hw by (apply (wqi_park _ _ _ Hq); auto).
      unfold sem_waits in Hw. destruct (threads c !! i) as [pc|]; [|done]. exists pc. split; [done|].
      destruct pc; simplify_eq/=. lia.
Qed.

(** Some other fiber that a post depends on can move. *)
Definition post_helped (c : sem_conf) (sp : bool) : Prop :=
  exists u p c' e, threads c !! u = Some p /\ (p = SAdd \/ p = SWait WPush \/ p = SWait WLink) /\
    sem_step (u, SGo sp) c = Some (c', e) /\ c' <> c.

Lemma helps_step c sp u p s' pc' e : threads c !! u = Some p -> (p = SAdd \/ p = SWait WPush \/ p = SWait WLink) ->
  sem_tstep u (SGo sp) (shared c) p = Some (s', pc', e) -> pc' <> p -> post_helped c sp.
Proof.
  intros Hu Hp E Hne. exists u, p, (Conf s' (<[u:=pc']> (threads c))), e. split_and!; [done|done| |].
  - unfold sem_step, conf_step. cbn [fst snd]. by rewrite Hu, E.
  - by eapply conf_changed.
Qed.

Lemma sem_link_helps n c v l g sp : sem_rel n c v ((g, false) :: l) -> post_helped c sp.
Proof.
  intros HR. assert (sem_waits (threads c) g = Some WLink) as Hw by (apply (wqi_link _ _ _ (sr_wq _ _ _ _ HR)); left).
  unfold sem_waits in Hw. destruct (threads c !! g) as [[|w| | | | | | |]|] eqn:Hu; simplify_eq/=.
  destruct (wq_link_spec n _ [] l g (sr_repr _ _ _ _ HR)) as (q' & E & _).
  eapply (helps_step c sp g (SWait WLink)); [done|by auto|simpl; rewrite E; reflexivity|done].
Qed.

(** A post does not spin for nothing.  When a post is in its inner loop (it
    saw a negative counter) and its attempt to pop a waiter fails, then the
    counter is no longer negative, or another fiber is inside a push that it
    can continue, or another post is about to increment the counter. *)
Theorem semaphore_post_progress n value ls c evs t sp c' :
  Z.of_nat n < 2 ^ 31 -> 0 <= value -> value + Z.of_nat (length ls) < 2 ^ 31 ->
  run sem_step ls (sem_init n value) = Some (c, evs) ->
  threads c !! t = Some SPop -> sem_step (t, SGo sp) c = Some (c', []) ->
  0 <= fiber_semaphore_getvalue (shared c) \/
  post_helped c sp.
Proof.
  intros Hn Hv Hb Hrun Ht Hstep. destruct (sem_run_rel _ _ _ _ _ Hn Hv Hb Hrun) as (v & l & Hs & HR).
  unfold fiber_semaphore_getvalue. destruct (Z.leb_spec 0 (s_counter (shared c))) as [|Hneg]; [by left|right].
  pose proof (sr_wq _ _ _ _ HR) as Hq. pose proof (sr_repr _ _ _ _ HR) as Hr.
  destruct l as [|[g [|]] l'].
  - destruct (decide (0 < sum_list_with adding (threads c))%nat) as [Ha|Ha].
    + apply sum_list_with_pos in Ha as (u & p & Hu & Hp). destruct p; simpl in Hp; try lia.
      eapply (helps_step c sp u SAdd); [done|by auto|reflexivity|done].
    + assert (length (s_ready (shared c)) < sum_list_with waiting (threads c))%nat as Hlt.
      { pose proof (sr_count _ _ _ _ HR). pose proof (sr_pos _ _ _ _ HR). unfold debt in *. lia. }
      destruct (sum_pigeonhole waiting (threads c) (s_ready (shared c))) as (u & p & Hu & Hp & Hnr);
        [intros []; simpl; lia|done|].
      destruct p as [|w| | | | | | |]; simpl in Hp; try lia.
      assert (sem_waits (threads c) u = Some w) as Hw by (unfold sem_waits; by rewrite Hu).
      destruct w.
      * assert (u < n)%nat as Hun by (rewrite <- (sr_len _ _ _ _ HR); by eapply lookup_lt_Some).
        destruct (wq_xchg_spec n _ [] u Hr Hun) as (q' & E & _); [set_solver|].
        eapply (helps_step c sp u (SWait WPush)); [done|by auto|simpl; rewrite E; reflexivity|done].
      * apply (wqi_link _ _ _ Hq) in Hw. set_solver.
      * apply (wqi_park _ _ _ Hq) in Hw. set_solver.
  - destruct (wq_pop_spec n _ _ _ Hr) as (q' & E & _). unfold sem_step, conf_step in Hstep. simpl in Hstep.
    rewrite Ht in Hstep. cbn [sem_tstep fiber_semaphore_post fiber_semaphore_post_internal] in Hstep.
    rewrite E in Hstep. cbn [mbind option_bind] in Hstep. rewrite wake_once in Hstep. cbn in Hstep. done.
  - by apply (sem_link_helps n c v l' g).
Qed.

(** Destruction.  When every fiber is outside the semaphore, destroying it
    retires one node, the dummy of its queue, which was not retired before. *)
Theorem semaphore_destroy_retires n value ls c evs :
  Z.of_nat n < 2 ^ 31 -> 0 <= value -> value + Z.of_nat (length ls) < 2 ^ 31 ->
  run sem_step ls (sem_init n value) = Some (c, evs) -> (forall t pc, threads c !! t = Some pc -> pc = SIdle) ->
  exists dummy, fiber_semaphore_destroy (shared c) = Some (0, [dummy]) /\ dummy ∉ wq_kept (s_waiters (shared c)).
Proof.
  intros Hn Hv Hb Hrun Hid. destruct (sem_run_rel _ _ _ _ _ Hn Hv Hb Hrun) as (v & l & _ & HR).
  destruct (wqi_nobody _ _ _ (sr_wq _ _ _ _ HR)) as [-> _].
  { intros t. unfold sem_waits. destruct (threads c !! t) eqn:E; [|done]. by rewrite (Hid _ _ E). }
  destruct (wq_destroy_spec _ _ (sr_repr _ _ _ _ HR)) as (x & E & Hx). exists x. unfold fiber_semaphore_destroy. by rewrite E.
Qed.

End semaphore.

(** ** Runs over the queue of [mpmc_fifo.h] *)

(** One permit: fiber 0 takes it, fiber 1 waits, fiber 2 is refused. *)
Definition sem_demo_wait : list (nat * sem_choice) :=
  [(0, SCallWait); (1, SCallWait); (1, SGo false); (1, SGo false); (2, SCallTrywait); (2, SGo false)]%nat.

(** Fiber 0 posts and hands the permit to fiber 1. *)
Definition sem_demo : list (nat * sem_choice) :=
  sem_demo_wait ++ [(0, SCallPost); (0, SGo false); (0, SGo false); (1, SGo false); (0, SGo false)]%nat.


Lemma semaphore_waits_only_when_empty_witness :
  exists c : sem_conf (Q := mpmc_queue),
    run sem_step sem_demo_wait (sem_init 3 1) = Some (c, [EvTake 0; EvRefused 2]%nat) /\
    if decide (1%nat ∈ s_ready (shared c))
    then exists c', sem_step (1%nat, SGo false) c = Some (c', []) /\ threads c' !! 1%nat = Some SIdle
    else fiber_semaphore_getvalue (shared c) < 0.
Proof.
  eexists. split; [vm_compute; reflexivity|].
  eapply (semaphore_waits_only_when_empty 3 1 sem_demo_wait _ [EvTake 0; EvRefused 2]%nat 1 WParked);
    [lia|lia|simpl; lia| |reflexivity]. vm_compute. reflexivity.
Defined.

(** Fiber 1 has counted itself but not queued itself when fiber 0 posts. *)
Definition sem_demo_race : list (nat * sem_choice) :=
  [(0, SCallWait); (1, SCallWait); (0, SCallPost); (0, SGo false)]%nat.

Lemma semaphore_post_progress_witness :
  exists c : sem_conf (Q := mpmc_queue),
    run sem_step sem_demo_race (sem_init 3 1) = Some (c, [EvTake 0%nat]) /\
    (0 <= fiber_semaphore_getvalue (shared c) \/ post_helped c false).
Proof.
  eexists. split; [vm_compute; reflexivity|].
  eapply (semaphore_post_progress 3 1 sem_demo_race _ [EvTake 0%nat] 0 false);
    [lia|lia|simpl; lia| |reflexivity|]; vm_compute; reflexivity.
Defined.
