(* ===== verification/Signal.v ===== *)
(** * Signals with one waiter ([include/fiber_signal.h], [fiber_signal_t])

    [waiter] is empty, raised, or the fiber that waits.  The waiter announces
    itself before it sleeps, so a raise may find it while it is still on its
    stack; the raiser spins until the maintenance of the next fiber has written
    [FIBER_SIGNAL_READY_TO_WAKE] to the waiter's [scratch].  Fiber 0 is the only
    one that waits; every fiber may raise. *)

From S2P Require Import Prelude MpscFifo SchedulerWsd.

(** ** State *)

Inductive sig_word := NoWaiter | Raised | Waiter (f : nat).

#[export] Instance sig_word_eq_dec : EqDecision sig_word.
Proof. solve_decision. Defined.

(** [sg_scratch], [sg_state]: fields of the waiting fiber ([true] is
    [FIBER_SIGNAL_READY_TO_WAKE]); [sg_ready]: it is with the scheduler. *)
Record sig_shared := SigShared {
  sg_waiter : sig_word;
  sg_scratch : bool;
  sg_state : Z;
  sg_ready : bool
}.

Inductive sig_pc :=
| GIdle
| GClear                 (* wait: this_fiber->scratch = NULL *)
| GCas                   (* compare-and-swap of the waiter *)
| GState                 (* state = FIBER_STATE_WAITING, then the yield *)
| GPublish               (* the maintenance sets scratch *)
| GParked                (* in fiber_manager_yield *)
| GWoke                  (* this_fiber->scratch = NULL *)
| GReset                 (* s->waiter = FIBER_SIGNAL_NO_WAITER *)
| GRaise                 (* raise: exchange of the waiter *)
| GStore (old : nat)     (* s->waiter = FIBER_SIGNAL_NO_WAITER *)
| GSpin (old : nat)      (* while old->scratch is not set *)
| GWake (old : nat).     (* old->state = READY, schedule *)

Inductive sig_choice := GCallWait | GCallRaise | GGo.

(** A wait returns; a raise takes effect. *)
Inductive sig_ev := EvReturn | EvRaise (t : nat).

(** ** Operations *)

Definition fiber_signal_init : sig_shared := SigShared NoWaiter false FIBER_STATE_RUNNING false.

Definition fiber_signal_wait (t : nat) (s : sig_shared) (pc : sig_pc)
    : option (sig_shared * sig_pc * list sig_ev) :=
  let '(SigShared w sc st r) := s in
  match pc with
  | GClear => Some (SigShared w false st r, GCas, [])
  | GCas =>
      if decide (w = NoWaiter) then Some (SigShared (Waiter t) sc st r, GState, [])
      else Some (s, GReset, [])
  | GState =>
      if Z.eqb st FIBER_STATE_RUNNING then Some (SigShared w sc FIBER_STATE_WAITING r, GPublish, []) else None
  | GPublish => Some (SigShared w true st r, GParked, [])
  | GParked => if r then Some (SigShared w sc FIBER_STATE_RUNNING false, GWoke, []) else None
  | GWoke => Some (SigShared w false st r, GReset, [])
  | GReset => Some (SigShared NoWaiter sc st r, GIdle, [EvReturn])
  | _ => None
  end.

(** The spin is a step that leaves the thread where it is. *)
Definition fiber_signal_raise (t : nat) (s : sig_shared) (pc : sig_pc)
    : option (sig_shared * sig_pc * list sig_ev) :=
  let '(SigShared w sc st r) := s in
  match pc with
  | GRaise =>
      Some (SigShared Raised sc st r,
            match w with Waiter old => GStore old | _ => GIdle end, [EvRaise t])
  | GStore old => Some (SigShared NoWaiter sc st r, GSpin old, [])
  | GSpin old => Some (s, if sc then GWake old else GSpin old, [])
  | GWake old => Some (SigShared w sc FIBER_STATE_READY true, GIdle, [])
  | _ => None
  end.

Definition sig_tstep (t : nat) (ch : sig_choice) (s : sig_shared) (pc : sig_pc)
    : option (sig_shared * sig_pc * list sig_ev) :=
  match ch, pc with
  | GCallWait, GIdle => if decide (t = 0%nat) then Some (s, GClear, []) else None
  | GCallRaise, GIdle => Some (s, GRaise, [])
  | GGo, (GClear | GCas | GState | GPublish | GParked | GWoke | GReset) => fiber_signal_wait t s pc
  | GGo, (GRaise | GStore _ | GSpin _ | GWake _) => fiber_signal_raise t s pc
  | _, _ => None
  end.

Definition sig_conf := conf sig_shared sig_pc.
Definition sig_step := conf_step sig_tstep.
Definition sig_init (n : nat) : sig_conf := Conf fiber_signal_init (replicate n GIdle).

(** ** The abstract signal: raised since the last wait returned? *)

Definition sig_spec (e : sig_ev) (raised : bool) : option bool :=
  match e with
  | EvRaise _ => Some true
  | EvReturn => if raised then Some false else None
  end.

(** ** Invariant *)

(** A raiser that has taken the waiter out of the word. *)
Definition taking (pc : sig_pc) : nat := match pc with GStore _ | GSpin _ | GWake _ => 1 | _ => 0 end.
Definition asleep (pc : sig_pc) : bool := match pc with GState | GPublish | GParked => true | _ => false end.

Definition vacant (w : sig_word) : Prop := match w with Waiter _ => False | _ => True end.

(** While the waiter sleeps: nobody raised; or one raiser has taken it; or it is
    with the scheduler, which needs it [parked]. *)
Definition sleep_phase (w : sig_word) (r raised : bool) (k : nat) (parked : bool) : Prop :=
  (w = Waiter 0 /\ k = 0%nat /\ r = false /\ raised = false) \/
  (vacant w /\ k = 1%nat /\ r = false /\ raised = true) \/
  (parked = true /\ vacant w /\ k = 0%nat /\ r = true /\ raised = true).

(** The state of the word, of the waiter's fields and of the raisers, by what
    the waiter is doing.  [k] counts the raisers that have taken it. *)
Definition sig_phase (pc : sig_pc) (s : sig_shared) (raised : bool) (k : nat) : Prop :=
  let '(SigShared w sc st r) := s in
  match pc with
  | GState => sc = false /\ st = FIBER_STATE_RUNNING /\ sleep_phase w r raised k false
  | GPublish => sc = false /\ sleep_phase w r raised k false
  | GParked => sc = true /\ sleep_phase w r raised k true
  | GWoke => st = FIBER_STATE_RUNNING /\ vacant w /\ k = 0%nat /\ r = false /\ raised = true
  | GReset => st = FIBER_STATE_RUNNING /\ vacant w /\ k = 0%nat /\ r = false /\ raised = true
  | GCas => sc = false /\ st = FIBER_STATE_RUNNING /\ k = 0%nat /\ r = false /\ w = (if raised then Raised else NoWaiter)
  | _ => st = FIBER_STATE_RUNNING /\ k = 0%nat /\ r = false /\ w = (if raised then Raised else NoWaiter)
  end.

Definition raiser_ok (s : sig_shared) (t : nat) (pc : sig_pc) : Prop :=
  match pc with
  | GIdle | GRaise => True
  | GStore old | GSpin old => t <> 0%nat /\ old = 0%nat
  | GWake old => t <> 0%nat /\ old = 0%nat /\ sg_scratch s = true
  | _ => t = 0%nat
  end.

Record sig_rel (c : sig_conf) (raised : bool) : Prop := {
  sg_phase : exists pc0, threads c !! 0%nat = Some pc0 /\
    sig_phase pc0 (shared c) raised (sum_list_with taking (threads c));
  sg_ok : forall t pc, threads c !! t = Some pc -> raiser_ok (shared c) t pc
}.

Ltac sig_done :=
  (split; [reflexivity|]); simpl in *; unfold sleep_phase, vacant in *; split_and!; naive_solver lia.

(** The waiter takes a step. *)
Lemma sig_waiter_step pc s raised k s' pc' evs :
  sig_phase pc s raised k -> fiber_signal_wait 0 s pc = Some (s', pc', evs) ->
  exists raised', spec_run sig_spec evs raised = Some raised' /\ sig_phase pc' s' raised' k /\
    taking pc = 0%nat /\ taking pc' = 0%nat /\ raiser_ok s' 0 pc' /\
    (sg_scratch s = true -> (1 <= k)%nat -> sg_scratch s' = true).
Proof.
  destruct s as [w sc st r]. destruct pc; simpl; try done; intros Hp Hs.
  - simplify_eq. exists raised. sig_done.
  - destruct Hp as (-> & -> & -> & -> & ->). destruct raised;
      [rewrite decide_False in Hs by done|rewrite decide_True in Hs by done]; simplify_eq; eexists;
      sig_done.
  - destruct Hp as (-> & -> & Hc). rewrite Z.eqb_refl in Hs. simplify_eq. exists raised. sig_done.
  - simplify_eq. exists raised. destruct Hp as (-> & Hc). sig_done.
  - destruct r; simplify_eq. exists raised. destruct Hp as (-> & Hc). sig_done.
  - simplify_eq. exists raised. sig_done.
  - simplify_eq. destruct Hp as (-> & Hw & -> & -> & ->). exists false. sig_done.
Qed.

(** A raiser other than the waiter takes a step. *)
Lemma sig_raiser_step t pc pc0 s raised k s' pc' evs : t <> 0%nat ->
  sig_phase pc0 s raised k -> raiser_ok s t pc -> (taking pc <= k)%nat ->
  fiber_signal_raise t s pc = Some (s', pc', evs) ->
  exists raised', spec_run sig_spec evs raised = Some raised' /\
    sig_phase pc0 s' raised' (k + taking pc' - taking pc) /\ raiser_ok s' t pc' /\
    sg_scratch s' = sg_scratch s.
Proof.
  intros Ht. destruct s as [w sc st r]. destruct pc; simpl; try done; intros Hp Hok Hk Hs.
  - exists true. simplify_eq. split; [done|]. unfold sleep_phase, vacant in *.
    destruct w as [| |f], pc0; simpl in *; unfold sleep_phase, vacant in *; destruct raised;
      split_and!; naive_solver lia.
  - simplify_eq. destruct Hok as [_ ->]. exists raised. split; [done|].
    destruct pc0; simpl in *; unfold sleep_phase, vacant in *; destruct_and?; destruct_or?; destruct_and?; subst; try lia; split_and!; try done; try lia; naive_solver lia.
  - simplify_eq. destruct Hok as [_ ->]. exists raised. split; [done|].
    replace (k + taking (if sc then GWake 0 else GSpin 0) - 1)%nat with k by (destruct sc; simpl; lia).
    split_and!; [done| |done]. by destruct sc.
  - simplify_eq. destruct Hok as (_ & -> & ->). exists raised. split; [done|].
    destruct pc0; simpl in *; unfold sleep_phase, vacant in *; destruct_and?; destruct_or?; destruct_and?; subst; try lia; try done; split_and!; try done; try lia; naive_solver lia.
Qed.

Lemma sig_simulation lbl c c' evs raised :
  sig_rel c raised -> sig_step lbl c = Some (c', evs) ->
  exists raised', spec_run sig_spec evs raised = Some raised' /\ sig_rel c' raised'.
Proof.
  destruct lbl as [t ch]. intros [(pc0 & H0 & Hp) Hok] Hstep.
  apply conf_step_inv in Hstep as (pc & s' & pc' & Ht & Hs & ->).
  pose proof (sum_list_with_insert taking (threads c) t pc pc' Ht) as Hsum.
  pose proof (sum_list_with_lookup taking _ _ _ Ht) as Hle. pose proof (Hok _ _ Ht) as Hot.
  assert (forall raised', taking pc = taking pc' -> t = 0%nat -> raiser_ok s' 0 pc' ->
    sig_phase pc' s' raised' (sum_list_with taking (threads c)) ->
    (sg_scratch (shared c) = true -> (1 <= sum_list_with taking (threads c))%nat -> sg_scratch s' = true) ->
    sig_rel (Conf s' (<[t:=pc']> (threads c))) raised') as Hzero.
  { intros raised' Hk -> Hr Hp' Hsc. split; cbn [shared threads].
    - exists pc'. rewrite list_lookup_insert_eq by (by eapply lookup_lt_Some). split; [done|].
      replace (sum_list_with taking (<[0%nat:=pc']> (threads c))) with (sum_list_with taking (threads c)) by lia. done.
    - intros i p Hi. apply lookup_insert_cases in Hi as [(-> & ->)|(Hne & Hi)]; [done|].
      pose proof (Hok _ _ Hi) as Ho. pose proof (sum_list_with_lookup taking _ _ _ Hi) as Hli.
      destruct p; simpl in *; naive_solver lia. }
  destruct (decide (t = 0%nat)) as [->|Hne].
  - rewrite H0 in Ht. injection Ht as ->. destruct ch, pc; simpl in Hs; simplify_eq.
    all: try (case_decide; simplify_eq; exists raised; split; [done|]; apply Hzero; try done; by destruct (shared c)).
    all: try (exists raised; split; [done|]; apply Hzero; try done; by destruct (shared c)).
    all: try (destruct (sig_waiter_step _ _ _ _ _ _ _ Hp Hs) as (raised' & H1 & H2 & H3 & H4 & H5 & H6);
      exists raised'; split; [done|]; apply Hzero; try done; by rewrite H3, H4).
    + destruct (shared c) as [w sc st r]. simpl in Hp. destruct Hp as (-> & Hk & -> & Hw).
      exists true. destruct raised; simplify_eq/=; (split; [done|]); by apply Hzero.
    + by destruct Hot.
    + by destruct Hot.
    + by destruct Hot.
  - assert (forall raised', sig_phase pc0 s' raised' (sum_list_with taking (<[t:=pc']> (threads c))) ->
      raiser_ok s' t pc' -> sg_scratch s' = sg_scratch (shared c) ->
      sig_rel (Conf s' (<[t:=pc']> (threads c))) raised') as Hother.
    { intros raised' Hp' Hr Hsc. split; cbn [shared threads].
      - exists pc0. by rewrite list_lookup_insert_ne.
      - intros i p Hi. apply lookup_insert_cases in Hi as [(-> & ->)|(Hni & Hi)]; [done|].
        pose proof (Hok _ _ Hi) as Ho. destruct p; simpl in *; rewrite ?Hsc; done. }
    destruct ch, pc; simpl in Hs, Hot; simplify_eq.
    all: try (case_decide; [done|done]).
    1: exists raised; split; [done|]; apply Hother; try done; simpl in *; by replace (sum_list_with taking (<[t:=GRaise]> (threads c))) with (sum_list_with taking (threads c)) by lia.
    all: destruct (sig_raiser_step t _ pc0 _ _ _ _ _ _ Hne Hp (Hok _ _ Ht) Hle Hs) as (raised' & H1 & H2 & H3 & H4);
      exists raised'; (split; [done|]); apply Hother; try done;
      match type of H2 with sig_phase _ _ _ ?k =>
        replace (sum_list_with taking (<[t:=pc']> (threads c))) with k by (simpl in *; lia) end; done.
Qed.

Lemma sig_init_rel n : (0 < n)%nat -> sig_rel (sig_init n) false.
Proof.
  intros Hn. split; cbn [sig_init shared threads].
  - exists GIdle. split; [by apply lookup_replicate_2|]. unfold fiber_signal_init. simpl. split_and!; try done.
    clear Hn. induction n as [|n IH]; [done|]. simpl. lia.
  - by intros t pc [-> _]%lookup_replicate.
Qed.

Lemma sig_run_rel n ls c evs : (0 < n)%nat -> run sig_step ls (sig_init n) = Some (c, evs) ->
  exists raised, spec_run sig_spec evs false = Some raised /\ sig_rel c raised.
Proof.
  intros Hn Hrun.
  destruct (run_simulation sig_step sig_spec (Z.of_nat (length ls) + 1) (fun _ c r => sig_rel c r))
    with (ls := ls) (n := 0) (s := sig_init n) (s' := c) (evs := evs) (a := false)
    as (r & Hr & HR); eauto using sig_init_rel; [|lia].
  intros k l s s' e a _ HR Hs. by eapply sig_simulation.
Qed.

(** ** Properties *)

(** A signal is a flag.  In every interleaving of one waiter with any number
    of raisers, a wait returns only if the signal was raised since the last
    wait returned, and between waits the word says exactly whether it was: a
    raise is never lost and never counted twice. *)
Theorem signal_refines_flag n ls c evs : (0 < n)%nat ->
  run sig_step ls (sig_init n) = Some (c, evs) ->
  exists raised, spec_run sig_spec evs false = Some raised /\
    (threads c !! 0%nat = Some GIdle -> sg_waiter (shared c) = if raised then Raised else NoWaiter).
Proof.
  intros Hn Hrun. destruct (sig_run_rel _ _ _ _ Hn Hrun) as (raised & Hs & HR).
  exists raised. split; [done|]. intros H0. destruct (sg_phase _ _ HR) as (pc0 & H0' & Hp).
  rewrite H0 in H0'. injection H0' as <-. destruct (shared c). by destruct Hp as (_ & _ & _ & ?).
Qed.

Lemma sig_go c u p s' pc' e : threads c !! u = Some p -> sig_tstep u GGo (shared c) p = Some (s', pc', e) ->
  pc' <> p -> exists c' e, sig_step (u, GGo) c = Some (c', e) /\ c' <> c.
Proof.
  intros Hu Hs Hne. exists (Conf s' (<[u:=pc']> (threads c))), e. split; [|by eapply conf_changed].
  unfold sig_step, conf_step. cbn [fst snd]. by rewrite Hu, Hs.
Qed.

(** The raiser that has taken the waiter can move, unless the waiter is still
    leaving its stack. *)
Lemma sig_taker_moves c raised : sig_rel c raised -> (0 < sum_list_with taking (threads c))%nat ->
  exists u p, threads c !! u = Some p /\ taking p = 1%nat /\
    (sg_scratch (shared c) = true \/ (exists old, p = GStore old) ->
      exists c' e, sig_step (u, GGo) c = Some (c', e) /\ c' <> c).
Proof.
  intros HR Hk. apply sum_list_with_pos in Hk as (u & p & Hu & Hp). exists u, p. split; [done|].
  destruct c as [[w sc st r] ths]. cbn [threads shared sg_scratch] in *.
  destruct p; simpl in Hp; try lia; (split; [done|]); intros Hsc.
  - by eapply sig_go.
  - destruct Hsc as [->|[? ?]]; [|done]. by eapply sig_go.
  - by eapply sig_go.
Qed.

(** No lost wake-up.  A waiter that is asleep (it announced itself) sleeps
    with the signal not raised and itself in the word; if the signal was raised
    since its last return, some fiber can take a step that changes the state:
    the waiter, which still has to leave its stack or is scheduled, or the
    raiser that took it out of the word. *)
Theorem signal_no_lost_wakeup n ls c evs pc0 : (0 < n)%nat ->
  run sig_step ls (sig_init n) = Some (c, evs) ->
  threads c !! 0%nat = Some pc0 -> asleep pc0 = true ->
  (spec_run sig_spec evs false = Some false /\ sg_waiter (shared c) = Waiter 0) \/
  (spec_run sig_spec evs false = Some true /\
   exists u p c' e, threads c !! u = Some p /\ (u = 0%nat \/ taking p = 1%nat) /\
     sig_step (u, GGo) c = Some (c', e) /\ c' <> c).
Proof.
  intros Hn Hrun H0 Ha. destruct (sig_run_rel _ _ _ _ Hn Hrun) as (raised & Hs & HR).
  destruct (sg_phase _ _ HR) as (p0 & H0' & Hp). rewrite H0 in H0'. injection H0' as <-.
  assert (sleep_phase (sg_waiter (shared c)) (sg_ready (shared c)) raised (sum_list_with taking (threads c))
    (bool_decide (sg_scratch (shared c) = true))) as Hsl.
  { destruct (shared c) as [w sc st r]. destruct pc0; simpl in *; try done; destruct_and?; subst; done. }
  destruct Hsl as [(Hw & _ & _ & ->)|[(Hw & Hk & _ & ->)|(Hb & Hw & _ & Hr & ->)]]; [by left|right|right].
  - split; [done|]. destruct pc0; try done.
    + destruct (shared c) as [w sc st r] eqn:Es. destruct Hp as (_ & -> & _).
      destruct (sig_go c 0 GState (SigShared w sc FIBER_STATE_WAITING r) GPublish [] H0) as (c' & e & ? & ?);
        [by rewrite Es|done|]. exists 0%nat, GState, c', e. auto.
    + destruct (shared c) as [w sc st r] eqn:Es.
      destruct (sig_go c 0 GPublish (SigShared w true st r) GParked [] H0) as (c' & e & ? & ?);
        [by rewrite Es|done|]. exists 0%nat, GPublish, c', e. auto.
    + destruct (sig_taker_moves c true HR ltac:(lia)) as (u & p & Hu & Ht & Hgo).
      destruct Hgo as (c' & e & ? & ?); [left; destruct (shared c); by destruct Hp as [-> _]|].
      exists u, p, c', e. auto.
  - split; [done|]. apply bool_decide_eq_true in Hb. destruct (shared c) as [w sc st r] eqn:Es. simpl in *.
    subst. destruct pc0; simpl in Hp; destruct_and?; try done.
    destruct (sig_go c 0 GParked (SigShared w true FIBER_STATE_RUNNING false) GWoke [] H0) as (c' & e & ? & ?);
      [by rewrite Es|done|]. exists 0%nat, GParked, c', e. auto.
Qed.

(** Fiber 1 raises while fiber 0 is still on its stack; fiber 2 raises again
    before fiber 0 returns. *)
Definition sig_demo_race : list (nat * sig_choice) :=
  [(0, GCallWait); (0, GGo); (0, GGo); (1, GCallRaise); (1, GGo); (1, GGo); (1, GGo); (2, GCallRaise); (2, GGo)]%nat.
Definition sig_demo : list (nat * sig_choice) :=
  sig_demo_race ++ [(0, GGo); (0, GGo); (1, GGo); (1, GGo); (0, GGo); (0, GGo); (0, GGo)]%nat.

Lemma signal_refines_flag_witness : exists raised,
  spec_run sig_spec [EvRaise 1; EvRaise 2; EvReturn]%nat false = Some raised /\
  (Some GIdle = Some GIdle -> NoWaiter = if raised then Raised else NoWaiter).
Proof.
  refine (signal_refines_flag 3 sig_demo (Conf (SigShared NoWaiter false FIBER_STATE_RUNNING false) [GIdle; GIdle; GIdle])
    [EvRaise 1; EvRaise 2; EvReturn]%nat _ _); [lia|]. vm_compute. reflexivity.
Defined.

Lemma signal_no_lost_wakeup_witness : exists c : sig_conf,
  run sig_step sig_demo_race (sig_init 3) = Some (c, [EvRaise 1; EvRaise 2]%nat) /\
  ((spec_run sig_spec [EvRaise 1; EvRaise 2]%nat false = Some false /\ sg_waiter (shared c) = Waiter 0) \/
   (spec_run sig_spec [EvRaise 1; EvRaise 2]%nat false = Some true /\
    exists u p c' e, threads c !! u = Some p /\ (u = 0%nat \/ taking p = 1%nat) /\
      sig_step (u, GGo) c = Some (c', e) /\ c' <> c)).
Proof.
  eexists. split; [vm_compute; reflexivity|].
  eapply (signal_no_lost_wakeup 3 sig_demo_race _ _ GState); [lia|vm_compute; reflexivity|reflexivity|reflexivity].
Defined.
