(* ===== verification/MultiSignal.v ===== *)
(** * Signals with many waiters ([include/fiber_signal.h],
    [fiber_multi_signal_t])

    A counter and a head pointer are swapped together, as in [Lifo]; the head is
    NULL, [FIBER_MULTI_SIGNAL_RAISED], or the top of a stack of waiting fibers
    linked through their nodes.  A raise pops one waiter or, when there is none,
    leaves the signal raised for the next fiber that waits.  Fibers are not
    destroyed while the signal is in use: a raise may read the node of a fiber
    that another raise has just woken. *)

From S2P Require Import Prelude MpscFifo Lifo SchedulerWsd.

(** ** State *)

Definition RAISED : Z := -1.

(** The node a fiber was created with. *)
Definition node_of (f : nat) : Z := Z.of_nat f + 1.

(** The fields of [fiber_t] in play ([true] is [FIBER_SIGNAL_READY_TO_WAKE]). *)
Record ms_fiber := MsFiber { fb_scratch : bool; fb_state : Z; fb_node : Z }.

(** [ms_ready]: the fibers that are with the scheduler. *)
Record ms_shared := MsShared {
  ms_heap : gmap Z node;
  ms_counter : Z;
  ms_head : Z;
  ms_fibers : list ms_fiber;
  ms_ready : list nat
}.

Inductive ms_pc :=
| SgIdle
| SgClear                               (* wait: clear scratch, set node->data *)
| SgCounter
| SgHead (counter : Z)
| SgPassCas (counter : Z)               (* raised -> no waiter *)
| SgNext (counter head : Z)             (* node->next = snapshot.data.head *)
| SgPushCas (counter head : Z)
| SgState                               (* state = FIBER_STATE_WAITING, then the yield *)
| SgPublish                             (* the maintenance sets scratch *)
| SgParked
| SgWoke                                (* scratch = NULL *)
| RsCounter (strict : bool)             (* raise, raise_strict *)
| RsHead (strict : bool) (counter : Z)
| RsSetCas (counter head : Z)           (* no waiter -> raised *)
| RsNext (strict : bool) (counter head : Z)
| RsPopCas (strict : bool) (counter head next : Z)
| RsData (head : Z)                     (* to_wake = head->data; its node *)
| RsSpin (to_wake : nat)
| RsWake (to_wake : nat).               (* state = READY, schedule *)

Inductive ms_choice := MsCallWait | MsCallRaise (strict : bool) | MsGo.

(** A wait consumes a raise; a fiber goes to sleep; a raise is left for later;
    a raise takes a sleeping fiber. *)
Inductive ms_ev := EvPass (t : nat) | EvSleep (t : nat) | EvSet (t : nat) | EvWakeUp (t f : nat).

#[export] Instance ms_pc_eq_dec : EqDecision ms_pc.
Proof. solve_decision. Defined.

(** ** Operations *)

Definition fiber_multi_signal_init (h : gmap Z node) (fs : list ms_fiber) : ms_shared := MsShared h 0 NULL fs [].

Definition ms_cas2 (s : ms_shared) (counter head new_head : Z) : option ms_shared :=
  if Z.eqb (ms_counter s) counter && Z.eqb (ms_head s) head
  then Some (MsShared (ms_heap s) (u64 (counter + 1)) new_head (ms_fibers s) (ms_ready s)) else None.

Definition with_heap (s : ms_shared) (h : gmap Z node) : ms_shared :=
  MsShared h (ms_counter s) (ms_head s) (ms_fibers s) (ms_ready s).
Definition with_fiber (s : ms_shared) (f : nat) (g : ms_fiber -> ms_fiber) : ms_shared :=
  MsShared (ms_heap s) (ms_counter s) (ms_head s) (alter g f (ms_fibers s)) (ms_ready s).
Definition with_ready (s : ms_shared) (r : list nat) : ms_shared :=
  MsShared (ms_heap s) (ms_counter s) (ms_head s) (ms_fibers s) r.

Definition set_scratch (b : bool) (x : ms_fiber) : ms_fiber := MsFiber b (fb_state x) (fb_node x).
Definition set_state (v : Z) (x : ms_fiber) : ms_fiber := MsFiber (fb_scratch x) v (fb_node x).
Definition set_node (v : Z) (x : ms_fiber) : ms_fiber := MsFiber (fb_scratch x) (fb_state x) v.

Definition fiber_multi_signal_wait (t : nat) (s : ms_shared) (pc : ms_pc)
    : option (ms_shared * ms_pc * list ms_ev) :=
  this_fiber ← ms_fibers s !! t;
  let node := fb_node this_fiber in
  match pc with
  | SgClear =>
      h ← store_data (ms_heap s) node (Z.of_nat t);
      Some (with_heap (with_fiber s t (set_scratch false)) h, SgCounter, [])
  | SgCounter => Some (s, SgHead (ms_counter s), [])
  | SgHead ctr =>
      if Z.eqb (ms_head s) RAISED then Some (s, SgPassCas ctr, []) else Some (s, SgNext ctr (ms_head s), [])
  | SgPassCas ctr =>
      match ms_cas2 s ctr RAISED NULL with
      | Some s' => Some (s', SgIdle, [EvPass t])
      | None => Some (s, SgCounter, [])
      end
  | SgNext ctr hd => h ← store_next (ms_heap s) node hd; Some (with_heap s h, SgPushCas ctr hd, [])
  | SgPushCas ctr hd =>
      match ms_cas2 s ctr hd node with
      | Some s' => Some (s', SgState, [EvSleep t])
      | None => Some (s, SgCounter, [])
      end
  | SgState =>
      if Z.eqb (fb_state this_fiber) FIBER_STATE_RUNNING
      then Some (with_fiber s t (set_state FIBER_STATE_WAITING), SgPublish, []) else None
  | SgPublish => Some (with_fiber s t (set_scratch true), SgParked, [])
  | SgParked =>
      if decide (t ∈ ms_ready s)
      then Some (with_ready (with_fiber s t (set_state FIBER_STATE_RUNNING)) (filter (fun x => x <> t) (ms_ready s)), SgWoke, [])
      else None
  | SgWoke => Some (with_fiber s t (set_scratch false), SgIdle, [])
  | _ => None
  end.

(** [fiber_multi_signal_raise] and [fiber_multi_signal_raise_strict], which
    loops while there is no waiter. *)
Definition fiber_multi_signal_raise (t : nat) (s : ms_shared) (pc : ms_pc)
    : option (ms_shared * ms_pc * list ms_ev) :=
  match pc with
  | RsCounter b => Some (s, RsHead b (ms_counter s), [])
  | RsHead b ctr =>
      if Z.eqb (ms_head s) NULL || Z.eqb (ms_head s) RAISED
      then Some (s, if (b : bool) then RsCounter b else RsSetCas ctr (ms_head s), [])
      else Some (s, RsNext b ctr (ms_head s), [])
  | RsSetCas ctr hd =>
      match ms_cas2 s ctr hd RAISED with
      | Some s' => Some (s', SgIdle, [EvSet t])
      | None => Some (s, RsCounter false, [])
      end
  | RsNext b ctr hd => nx ← load_next (ms_heap s) hd; Some (s, RsPopCas b ctr hd nx, [])
  | RsPopCas b ctr hd nx =>
      match ms_cas2 s ctr hd nx with
      | Some s' => d ← load_data (ms_heap s) hd; Some (s', RsData hd, [EvWakeUp t (Z.to_nat d)])
      | None => Some (s, RsCounter b, [])
      end
  | RsData hd =>
      d ← load_data (ms_heap s) hd;
      let to_wake := Z.to_nat d in
      Some (with_fiber s to_wake (set_node hd), RsSpin to_wake, [])
  | RsSpin to_wake =>
      x ← ms_fibers s !! to_wake; Some (s, if fb_scratch x then RsWake to_wake else RsSpin to_wake, [])
  | RsWake to_wake =>
      Some (with_ready (with_fiber s to_wake (set_state FIBER_STATE_READY)) (ms_ready s ++ [to_wake]), SgIdle, [])
  | _ => None
  end.

Definition ms_tstep (t : nat) (ch : ms_choice) (s : ms_shared) (pc : ms_pc)
    : option (ms_shared * ms_pc * list ms_ev) :=
  match ch, pc with
  | MsCallWait, SgIdle => Some (s, SgClear, [])
  | MsCallRaise b, SgIdle => Some (s, RsCounter b, [])
  | MsGo, (RsCounter _ | RsHead _ _ | RsSetCas _ _ | RsNext _ _ _ | RsPopCas _ _ _ _ | RsData _ | RsSpin _ | RsWake _) =>
      fiber_multi_signal_raise t s pc
  | MsGo, SgIdle => None
  | MsGo, _ => fiber_multi_signal_wait t s pc
  | _, _ => None
  end.

Definition ms_conf := conf ms_shared ms_pc.
Definition ms_step := conf_step ms_tstep.
Definition ms_init (n : nat) : ms_conf :=
  Conf (fiber_multi_signal_init
          (list_to_map ((fun f => (node_of f, Node 0 NULL)) <$> seq 0 n))
          ((fun f => MsFiber false FIBER_STATE_RUNNING (node_of f)) <$> seq 0 n))
       (replicate n SgIdle).

(** ** The abstract signal: raised, or a stack of sleeping fibers *)

Definition ms_spec (e : ms_ev) (a : bool * list nat) : option (bool * list nat) :=
  match e, a with
  | EvPass _, (true, []) => Some (false, [])
  | EvSleep t, (false, ws) => Some (false, t :: ws)
  | EvSet _, (_, []) => Some (true, [])
  | EvWakeUp _ f, (false, x :: ws) => if decide (f = x) then Some (false, ws) else None
  | _, _ => None
  end.

(** ** Invariant *)

Definition ms_asleep (pc : ms_pc) : bool := match pc with SgState | SgPublish | SgParked => true | _ => false end.

(** The fiber a raise has taken and not scheduled yet. *)
Definition ms_taking (pc : ms_pc) : option nat :=
  match pc with RsData hd => Some (Z.to_nat (hd - 1)) | RsSpin f | RsWake f => Some f | _ => None end.

Definition gone (c : ms_conf) : list nat := omap ms_taking (threads c) ++ ms_ready (shared c).

Definition ms_word (s : ms_shared) (a : bool * list nat) : Prop :=
  if a.1 then ms_head s = RAISED /\ a.2 = [] else stack_at (ms_heap s) (ms_head s) (node_of <$> a.2).

(** What a fiber's program point says of the shared state. *)
Definition ms_ok (n : nat) (s : ms_shared) (t : nat) (pc : ms_pc) : Prop :=
  match pc with
  | SgHead ctr | RsHead _ ctr | SgPassCas ctr => 0 <= ctr <= ms_counter s
  | SgNext ctr hd => 0 <= ctr <= ms_counter s /\ hd <> RAISED
  | RsSetCas ctr hd => 0 <= ctr <= ms_counter s /\ (hd = NULL \/ hd = RAISED)
  | SgPushCas ctr hd => 0 <= ctr <= ms_counter s /\ hd <> RAISED /\ load_next (ms_heap s) (node_of t) = Some hd
  | RsNext _ ctr hd => 0 <= ctr <= ms_counter s /\ hd <> NULL /\ hd <> RAISED /\ exists f, hd = node_of f /\ (f < n)%nat
  | RsPopCas _ ctr hd nx =>
      0 <= ctr <= ms_counter s /\ hd <> NULL /\ hd <> RAISED /\
      (ctr = ms_counter s -> hd = ms_head s -> load_next (ms_heap s) hd = Some nx)
  | RsData hd => exists f, hd = node_of f /\ load_data (ms_heap s) hd = Some (Z.of_nat f)
  | RsWake f => fb_scratch <$> ms_fibers s !! f = Some true
  | _ => True
  end.

(** The fields of fiber [t], by its program point; the node of a fiber that
    waits names it. *)
Definition ms_own (s : ms_shared) (t : nat) (pc : ms_pc) (x : ms_fiber) : Prop :=
  fb_node x = node_of t /\
  match pc with
  | SgState => fb_scratch x = false /\ fb_state x = FIBER_STATE_RUNNING /\ load_data (ms_heap s) (node_of t) = Some (Z.of_nat t)
  | SgPublish => fb_scratch x = false /\ load_data (ms_heap s) (node_of t) = Some (Z.of_nat t)
  | SgParked => fb_scratch x = true /\ load_data (ms_heap s) (node_of t) = Some (Z.of_nat t)
  | SgWoke => fb_state x = FIBER_STATE_RUNNING
  | SgIdle | SgClear => fb_state x = FIBER_STATE_RUNNING
  | SgCounter | SgHead _ | SgPassCas _ | SgNext _ _ | SgPushCas _ _ =>
      fb_scratch x = false /\ fb_state x = FIBER_STATE_RUNNING /\ load_data (ms_heap s) (node_of t) = Some (Z.of_nat t)
  | _ => fb_state x = FIBER_STATE_RUNNING
  end.

Record ms_rel (k : Z) (n : nat) (c : ms_conf) (a : bool * list nat) : Prop := {
  mz_len : length (threads c) = n /\ length (ms_fibers (shared c)) = n;
  mz_word : ms_word (shared c) a;
  mz_count : 0 <= ms_counter (shared c) <= k;
  mz_nd : NoDup (a.2 ++ gone c);
  mz_asleep : forall f, f ∈ a.2 ++ gone c <-> exists pc, threads c !! f = Some pc /\ ms_asleep pc = true;
  mz_ready : forall f, f ∈ ms_ready (shared c) -> threads c !! f = Some SgParked;
  mz_alloc : forall f, (f < n)%nat -> is_Some (ms_heap (shared c) !! node_of f);
  mz_ok : forall t pc, threads c !! t = Some pc -> ms_ok n (shared c) t pc;
  mz_own : forall t pc x, threads c !! t = Some pc -> ms_fibers (shared c) !! t = Some x -> ms_own (shared c) t pc x
}.

(** ** Preservation *)

Lemma ms_rel_step k n c a t pc s' pc' a' :
  ms_rel k n c a -> threads c !! t = Some pc ->
  let c' := Conf s' (<[t:=pc']> (threads c)) in
  length (ms_fibers s') = n -> ms_word s' a' -> 0 <= ms_counter s' <= k + 1 ->
  NoDup (a'.2 ++ gone c') ->
  (forall f, f ∈ a'.2 ++ gone c' <-> if decide (f = t) then ms_asleep pc' = true else f ∈ a.2 ++ gone c) ->
  (forall f, f ∈ ms_ready s' -> if decide (f = t) then pc' = SgParked else threads c !! f = Some SgParked) ->
  (forall f, is_Some (ms_heap (shared c) !! node_of f) -> is_Some (ms_heap s' !! node_of f)) ->
  ms_ok n s' t pc' -> (forall x, ms_fibers s' !! t = Some x -> ms_own s' t pc' x) ->
  (forall i p, i <> t -> threads c !! i = Some p -> ms_ok n (shared c) i p -> ms_ok n s' i p) ->
  (forall i p x x', i <> t -> threads c !! i = Some p -> ms_fibers (shared c) !! i = Some x ->
    ms_fibers s' !! i = Some x' -> ms_own (shared c) i p x -> ms_own s' i p x') ->
  ms_rel (k + 1) n c' a'.
Proof.
  intros HR Ht c' Hl Hw Hc Hnd Has Hrd Hal Hok Hown Hoks Howns. subst c'. split; cbn [shared threads]; auto.
  - rewrite length_insert. split; [apply HR|done].
  - intros f. rewrite Has. case_decide as E.
    + subst. rewrite list_lookup_insert_eq by (by eapply lookup_lt_Some). split; [eauto|]. by intros (p & [= <-] & ?).
    + rewrite list_lookup_insert_ne by done. apply (mz_asleep _ _ _ _ HR).
  - intros f Hf. specialize (Hrd f Hf). case_decide as E.
    + subst. by rewrite list_lookup_insert_eq by (by eapply lookup_lt_Some).
    + by rewrite list_lookup_insert_ne.
  - intros f Hf. by apply Hal, (mz_alloc _ _ _ _ HR).
  - intros i p Hi. apply lookup_insert_cases in Hi as [(-> & ->)|(Hne & Hi)]; [done|].
    apply (Hoks i p Hne Hi). by apply (mz_ok _ _ _ _ HR).
  - intros i p x Hi Hx. apply lookup_insert_cases in Hi as [(-> & ->)|(Hne & Hi)]; [by apply Hown|].
    destruct (lookup_lt_is_Some_2 (ms_fibers (shared c)) i) as [x0 Hx0].
    { rewrite (proj2 (mz_len _ _ _ _ HR)), <- Hl. by eapply lookup_lt_Some. }
    eapply Howns; [exact Hne|exact Hi|exact Hx0|exact Hx|]. by apply (mz_own _ _ _ _ HR).
Qed.

Section ms_facts.
Context {k : Z} {n : nat} {c : ms_conf} {a : bool * list nat} (t : nat) {pc : ms_pc}.
Hypothesis HR : ms_rel k n c a.
Hypothesis Ht : threads c !! t = Some pc.

Lemma awake_out : ms_asleep pc = false -> (t ∉ a.2) /\ (t ∉ gone c).
Proof using HR Ht.
  intros Ha. assert (t ∉ a.2 ++ gone c) as Hx.
  { intros (p & Hp & Hs)%(mz_asleep _ _ _ _ HR). congruence. }
  set_solver.
Qed.

Lemma fiber_at : exists x, ms_fibers (shared c) !! t = Some x /\ ms_own (shared c) t pc x.
Proof using HR Ht.
  destruct (lookup_lt_is_Some_2 (ms_fibers (shared c)) t) as [x Hx].
  { rewrite (proj2 (mz_len _ _ _ _ HR)), <- (proj1 (mz_len _ _ _ _ HR)). by eapply lookup_lt_Some. }
  exists x. split; [done|]. by apply (mz_own _ _ _ _ HR).
Qed.

Lemma gone_insert pc' : ms_taking pc' = ms_taking pc ->
  gone (Conf (shared c) (<[t:=pc']> (threads c))) ≡ₚ gone c.
Proof using Ht. intros E. unfold gone. cbn [shared threads]. by rewrite (omap_insert_same ms_taking _ _ _ _ Ht E). Qed.

(** Moving between program points outside the sleep. *)
Lemma ms_local pc' : ms_asleep pc = false -> ms_asleep pc' = false -> ms_taking pc' = ms_taking pc ->
  ms_ok n (shared c) t pc' -> (forall x, ms_own (shared c) t pc x -> ms_own (shared c) t pc' x) ->
  ms_rel (k + 1) n (Conf (shared c) (<[t:=pc']> (threads c))) a.
Proof using HR Ht.
  intros Ha Ha' Hk Hok Hown. pose proof (mz_count _ _ _ _ HR). destruct (awake_out Ha) as [H1 H2].
  pose proof (gone_insert pc' Hk) as Hg.
  eapply ms_rel_step; [exact HR|exact Ht|..]; eauto; try apply HR; try lia.
  - rewrite Hg. apply HR.
  - intros f. rewrite Hg, Ha'. case_decide; [subst; set_solver|done].
  - intros f Hf. case_decide; [|by apply HR]. subst. destruct H2. unfold gone. set_solver.
  - intros x Hx. apply Hown. by apply (mz_own _ _ _ _ HR).
  - intros i p x x' _ _ E1 E2. by simplify_eq.
Qed.

(** Writing to the node of a fiber that is awake. *)
Lemma ms_own_heap pc' h fs : ms_asleep pc = false -> ms_asleep pc' = false ->
  ms_taking pc = None -> ms_taking pc' = None ->
  (forall x, x <> node_of t -> load_next h x = load_next (ms_heap (shared c)) x /\
                               load_data h x = load_data (ms_heap (shared c)) x) ->
  (forall f, is_Some (ms_heap (shared c) !! node_of f) -> is_Some (h !! node_of f)) ->
  length fs = n -> (forall i, i <> t -> fs !! i = ms_fibers (shared c) !! i) ->
  let s' := MsShared h (ms_counter (shared c)) (ms_head (shared c)) fs (ms_ready (shared c)) in
  ms_ok n s' t pc' -> (forall x, fs !! t = Some x -> ms_own s' t pc' x) ->
  ms_rel (k + 1) n (Conf s' (<[t:=pc']> (threads c))) a.
Proof using HR Ht.
  intros Ha Ha' Hk Hk' Hh Hal Hl Hfs s' Hok Hown. pose proof (mz_count _ _ _ _ HR). destruct (awake_out Ha) as [H1 H2].
  assert (gone (Conf s' (<[t:=pc']> (threads c))) ≡ₚ gone c) as Hg by (apply gone_insert; congruence).
  assert (forall f, node_of f = node_of t -> f = t) as Hinj by (unfold node_of; lia).
  eapply ms_rel_step; [exact HR|exact Ht|..]; eauto; simpl; try lia.
  - pose proof (mz_word _ _ _ _ HR) as Hw. unfold ms_word in *. simpl. destruct a as [[] ws]; [done|]. simpl in *.
    eapply stack_at_heap; [|exact Hw]. intros x (f & -> & Hf)%list_elem_of_fmap. apply Hh. by intros ->%Hinj.
  - rewrite Hg. apply HR.
  - intros f. rewrite Hg, Ha'. case_decide; [subst; set_solver|done].
  - intros f Hf. case_decide; [|by apply HR]. subst. destruct H2. unfold gone. set_solver.
  - intros i p Hi Hp Ho. destruct p; simpl in *; auto.
    + assert (node_of i <> node_of t) as Hit by (by intros ?%Hinj). by rewrite (proj1 (Hh _ Hit)).
    + destruct Ho as (? & ? & ? & Hx). split_and!; auto; try lia. intros E1 E2.
      destruct (decide (head = node_of t)) as [->|Hne]; [|rewrite (proj1 (Hh _ Hne)); auto].
      exfalso. pose proof (mz_word _ _ _ _ HR) as Hw. unfold ms_word in Hw. destruct a as [[] ws]; simpl in *; [destruct Hw as [Hw _]; unfold node_of, RAISED in *; lia|].
      rewrite <- E2 in Hw. destruct ws as [|w ws]; simpl in Hw; [done|]. destruct Hw as [E _]. symmetry in E. apply Hinj in E as ->. set_solver.
    + destruct Ho as (f & -> & Hd). exists f. split; [done|].
      assert (node_of f <> node_of t) as Hft; [|by rewrite (proj2 (Hh _ Hft))]. intros ->%Hinj. apply H2. unfold gone. apply elem_of_app. left. apply list_elem_of_omap.
      eexists. split; [by eapply list_elem_of_lookup_2|]. simpl. f_equal. unfold node_of. lia.
    + destruct (decide (to_wake = t)) as [->|Hne]; [|by rewrite Hfs].
      exfalso. apply H2. unfold gone. apply elem_of_app. left. apply list_elem_of_omap.
      eexists. split; [by eapply list_elem_of_lookup_2|done].
  - intros i p x x' Hi Hp Hx Hx' Ho. rewrite Hfs in Hx' by done. simplify_eq.
    assert (load_data h (node_of i) = load_data (ms_heap (shared c)) (node_of i)) as E by (apply Hh; by intros ?%Hinj).
    unfold ms_own in *. simpl. rewrite E. done.
Qed.

(** A successful swap: every other snapshot becomes stale. *)
Lemma ms_swap pc' hd a' :
  let s' := MsShared (ms_heap (shared c)) (ms_counter (shared c) + 1) hd (ms_fibers (shared c)) (ms_ready (shared c)) in
  let c' := Conf s' (<[t:=pc']> (threads c)) in
  ms_word s' a' -> NoDup (a'.2 ++ gone c') ->
  (forall f, f ∈ a'.2 ++ gone c' <-> if decide (f = t) then ms_asleep pc' = true else f ∈ a.2 ++ gone c) ->
  ms_asleep pc = false -> ms_ok n s' t pc' -> (forall x, ms_own s' t pc x -> ms_own s' t pc' x) ->
  ms_rel (k + 1) n c' a'.
Proof using HR Ht.
  intros s' c' Hw Hnd Has Ha Hok Hown. pose proof (mz_count _ _ _ _ HR) as Hc. destruct (awake_out Ha) as [_ H2].
  eapply ms_rel_step; [exact HR|exact Ht|..]; eauto; simpl; try lia.
  - apply HR.
  - intros f Hf. case_decide; [|by apply HR]. subst. destruct H2. unfold gone. set_solver.
  - intros x Hx. apply Hown. by apply (mz_own _ _ _ _ HR).
  - intros i p Hi Hp Ho. destruct p; simpl in *; try done; destruct_and?; split_and?; try lia; try done.
  - intros i p x x' Hi Hp Hx Hx' Ho. by simplify_eq.
Qed.

(** Changing fields of fibers and the run queue. *)
Lemma ms_field pc' fs rd :
  let s' := MsShared (ms_heap (shared c)) (ms_counter (shared c)) (ms_head (shared c)) fs rd in
  let c' := Conf s' (<[t:=pc']> (threads c)) in
  length fs = n -> NoDup (a.2 ++ gone c') ->
  (forall f, f ∈ a.2 ++ gone c' <-> if decide (f = t) then ms_asleep pc' = true else f ∈ a.2 ++ gone c) ->
  (forall f, f ∈ rd -> if decide (f = t) then pc' = SgParked else threads c !! f = Some SgParked) ->
  ms_ok n s' t pc' -> (forall x, fs !! t = Some x -> ms_own s' t pc' x) ->
  (forall f, f ∈ gone c -> fb_scratch <$> ms_fibers (shared c) !! f = Some true -> fb_scratch <$> fs !! f = Some true) ->
  (forall i p x x', i <> t -> threads c !! i = Some p -> ms_fibers (shared c) !! i = Some x ->
    fs !! i = Some x' -> ms_own (shared c) i p x -> ms_own (shared c) i p x') ->
  ms_rel (k + 1) n c' a.
Proof using HR Ht.
  intros s' c' Hl Hnd Has Hrd Hok Hown Hscr Howns. pose proof (mz_count _ _ _ _ HR) as Hc.
  eapply ms_rel_step; [exact HR|exact Ht|..]; eauto; simpl; try lia.
  - apply HR.
  - intros i p Hi Hp Ho. destruct p; simpl in *; try done. apply Hscr; [|done].
    unfold gone. apply elem_of_app. left. apply list_elem_of_omap.
    eexists. split; [by eapply list_elem_of_lookup_2|done].
Qed.

End ms_facts.

Lemma alter_fiber g t (fs : list ms_fiber) x : fs !! t = Some x ->
  length (alter g t fs) = length fs /\ alter g t fs !! t = Some (g x) /\ (forall i, i <> t -> alter g t fs !! i = fs !! i).
Proof.
  intros Hx. split; [apply length_alter|]. split; [by rewrite list_lookup_alter_eq, Hx|].
  intros i Hi. by apply list_lookup_alter_ne.
Qed.

(** The word when it is not raised, and the fiber on top. *)
Lemma ms_word_head s a : ms_word s a ->
  (ms_head s = RAISED -> a = (true, [])) /\ (ms_head s = NULL -> a = (false, [])) /\
  (ms_head s <> RAISED -> ms_head s <> NULL -> exists f ws, a = (false, f :: ws) /\ ms_head s = node_of f).
Proof.
  destruct a as [[] ws]; unfold ms_word; simpl.
  - intros [-> ->]. split_and!; done.
  - intros Hs. destruct ws as [|f ws]; simpl in Hs.
    + rewrite Hs. split_and!; done.
    + destruct Hs as (-> & _). split_and!; [unfold node_of, RAISED; lia|unfold node_of, NULL; lia|eauto].
Qed.

Lemma ms_cas2_Some s ctr hd new s' : ms_cas2 s ctr hd new = Some s' -> 0 <= ms_counter s -> ms_counter s + 1 < 2 ^ 64 ->
  ctr = ms_counter s /\ hd = ms_head s /\ s' = MsShared (ms_heap s) (ms_counter s + 1) new (ms_fibers s) (ms_ready s).
Proof.
  unfold ms_cas2. destruct (Z.eqb_spec (ms_counter s) ctr) as [<-|]; [|done].
  destruct (Z.eqb_spec (ms_head s) hd) as [<-|]; [|done]. simpl. intros [= <-] H1 H2. by rewrite u64_small by lia.
Qed.

(** The steps of the waiting loop. *)
Lemma ms_wait_loop_step k n c a t pc s' pc' evs : ms_asleep pc = false -> pc <> SgWoke -> k + 1 < 2 ^ 64 -> ms_rel k n c a ->
  threads c !! t = Some pc -> fiber_multi_signal_wait t (shared c) pc = Some (s', pc', evs) ->
  exists a', spec_run ms_spec evs a = Some a' /\ ms_rel (k + 1) n (Conf s' (<[t:=pc']> (threads c))) a'.
Proof.
  intros Hna Hnw Hk HR Ht Hs. pose proof (mz_count _ _ _ _ HR) as Hc. pose proof (mz_ok _ _ _ _ HR _ _ Ht) as Hok.
  destruct (fiber_at t HR Ht) as (x & Hx & [Hxn Hown]). pose proof (mz_word _ _ _ _ HR) as Hw.
  destruct (ms_word_head _ _ Hw) as (Hw1 & Hw2 & Hw3). pose proof (proj2 (mz_len _ _ _ _ HR)) as Hlen.
  assert (forall s1 pc', ms_ready s1 = ms_ready (shared c) -> ms_taking pc' = ms_taking pc ->
    gone (Conf s1 (<[t:=pc']> (threads c))) ≡ₚ gone c) as Hg.
  { intros s1 pc1 E1 E2. rewrite <- (gone_insert t Ht pc1 E2). unfold gone. simpl. by rewrite E1. }
  unfold fiber_multi_signal_wait, with_heap, with_fiber, with_ready in Hs.
  cbn [ms_heap ms_counter ms_head ms_fibers ms_ready] in Hs. rewrite Hx in Hs. cbn [mbind option_bind] in Hs. rewrite Hxn in Hs.
  destruct pc; try discriminate Hs; try discriminate Hna; try done; simpl in Hok, Hown.
  - (* SgClear *)
    destruct (store_data _ _ _) as [h|] eqn:Eh; simplify_eq/=. exists a. split; [done|].
    destruct (alter_fiber (set_scratch false) t _ _ Hx) as (L1 & L2 & L3).
    eapply (ms_own_heap t HR Ht SgCounter); try done; try congruence.
    + intros y Hy. by rewrite (store_data_next _ _ _ _ y Eh), (store_data_other _ _ _ _ y Eh).
    + intros f. apply (store_data_dom _ _ _ _ _ Eh).
    + intros y. rewrite L2. intros [= <-]. split; [done|]. simpl. split_and!; [done|done|]. by apply (store_data_same _ _ _ _ Eh).
  - simplify_eq. exists a. split; [done|]. eapply (ms_local t HR Ht); try done. simpl. lia.
  - destruct (Z.eqb_spec (ms_head (shared c)) RAISED); simplify_eq; exists a; (split; [done|]); by eapply (ms_local t HR Ht).
  - destruct (ms_cas2 _ _ _ _) as [s1|] eqn:E; simplify_eq.
    + apply ms_cas2_Some in E as (-> & E & ->); [|lia..]. specialize (Hw1 (eq_sym E)). subst a.
      exists (false, []). split; [done|]. eapply (ms_swap t HR Ht SgIdle NULL (false, [])); simpl; try done.
      * rewrite Hg by done. apply (mz_nd _ _ _ _ HR).
      * intros f. rewrite Hg by done. case_decide; [|done]. subst. destruct (awake_out t HR Ht eq_refl). naive_solver.
      * intros y [? ?]. split; naive_solver.
    + exists a. split; [done|]. eapply (ms_local t HR Ht); try done.
  - destruct (store_next _ _ _) as [h|] eqn:Eh; simplify_eq/=. exists a. split; [done|].
    eapply (ms_own_heap t HR Ht (SgPushCas counter head)); try done.
    + intros y Hy. by rewrite (store_next_data _ _ _ _ y Eh), (store_next_other _ _ _ _ y Eh).
    + intros f. apply (store_next_dom _ _ _ _ _ Eh).
    + simpl. split_and!; [lia..|naive_solver|]. by apply (store_next_same _ _ _ _ Eh).
    + intros y Hy. simplify_eq. split; [done|]. simpl. rewrite (store_next_data _ _ _ _ _ Eh). done.
  - destruct (ms_cas2 _ _ _ _) as [s1|] eqn:E; simplify_eq.
    + apply ms_cas2_Some in E as (-> & -> & ->); [|lia..]. destruct Hok as (_ & Hnr & Hnx).
      destruct a as [[] ws]; [by destruct Hw as [? _]|].
      exists (false, t :: ws). split; [done|]. destruct (awake_out t HR Ht eq_refl) as [O1 O2].
      eapply (ms_swap t HR Ht SgState (node_of t) (false, t :: ws)); simpl; try done.
      * split; [done|]. split; [unfold node_of, NULL; lia|]. exists (ms_head (shared c)). split; [done|apply Hw].
      * rewrite Hg by done. constructor; [simpl in *; set_solver|apply (mz_nd _ _ _ _ HR)].
      * intros f. rewrite Hg by done. case_decide; set_solver.
    + exists a. split; [done|]. eapply (ms_local t HR Ht); try done.
Qed.

(** The steps of the sleep. *)
Lemma ms_sleep_step k n c a t pc s' pc' evs : ms_asleep pc = true \/ pc = SgWoke -> ms_rel k n c a ->
  threads c !! t = Some pc -> fiber_multi_signal_wait t (shared c) pc = Some (s', pc', evs) ->
  exists a', spec_run ms_spec evs a = Some a' /\ ms_rel (k + 1) n (Conf s' (<[t:=pc']> (threads c))) a'.
Proof.
  intros Hsl HR Ht Hs. pose proof (mz_count _ _ _ _ HR) as Hc. pose proof (mz_ok _ _ _ _ HR _ _ Ht) as Hok.
  destruct (fiber_at t HR Ht) as (x & Hx & [Hxn Hown]). pose proof (mz_word _ _ _ _ HR) as Hw.
  destruct (ms_word_head _ _ Hw) as (Hw1 & Hw2 & Hw3). pose proof (proj2 (mz_len _ _ _ _ HR)) as Hlen.
  assert (forall s1 pc', ms_ready s1 = ms_ready (shared c) -> ms_taking pc' = ms_taking pc ->
    gone (Conf s1 (<[t:=pc']> (threads c))) ≡ₚ gone c) as Hg.
  { intros s1 pc1 E1 E2. rewrite <- (gone_insert t Ht pc1 E2). unfold gone. simpl. by rewrite E1. }
  unfold fiber_multi_signal_wait, with_heap, with_fiber, with_ready in Hs.
  cbn [ms_heap ms_counter ms_head ms_fibers ms_ready] in Hs. rewrite Hx in Hs. cbn [mbind option_bind] in Hs. rewrite Hxn in Hs.
  destruct pc; try discriminate Hs; try (by destruct Hsl); simpl in Hok, Hown.
  - destruct Hown as (W1 & W2 & W3). rewrite W2, Z.eqb_refl in Hs. simplify_eq. exists a. split; [done|].
    destruct (alter_fiber (set_state FIBER_STATE_WAITING) t _ _ Hx) as (L1 & L2 & L3).
    eapply (ms_field t HR Ht SgPublish); try done; try congruence.
    + rewrite Hg by done. apply HR.
    + intros f. rewrite Hg by done. case_decide; [|done]. subst. split; [done|]. intros _. apply (mz_asleep _ _ _ _ HR). eauto.
    + intros f Hf. pose proof (mz_ready _ _ _ _ HR f Hf). case_decide; [subst; congruence|done].
    + intros y. rewrite L2. intros [= <-]. done.
    + intros f _ Hf. destruct (decide (f = t)) as [->|Hne]; [|by rewrite L3]. rewrite L2. by rewrite Hx in Hf.
    + intros i p y y' Hi Hp Hy. rewrite L3 by done. intros. by simplify_eq.
  - simplify_eq. exists a. split; [done|].
    destruct (alter_fiber (set_scratch true) t _ _ Hx) as (L1 & L2 & L3).
    eapply (ms_field t HR Ht SgParked); try done; try congruence.
    + rewrite Hg by done. apply HR.
    + intros f. rewrite Hg by done. case_decide; [|done]. subst. split; [done|]. intros _. apply (mz_asleep _ _ _ _ HR). eauto.
    + intros f Hf. pose proof (mz_ready _ _ _ _ HR f Hf). case_decide; [done|done].
    + intros y. rewrite L2. intros [= <-]. by destruct Hown.
    + intros f _ Hf. destruct (decide (f = t)) as [->|Hne]; [|by rewrite L3]. by rewrite L2.
    + intros i p y y' Hi Hp Hy. rewrite L3 by done. intros. by simplify_eq.
  - case_decide as Hin; simplify_eq. exists a. split; [done|].
    destruct (alter_fiber (set_state FIBER_STATE_RUNNING) t _ _ Hx) as (L1 & L2 & L3).
    assert (gone c ≡ₚ t :: (omap ms_taking (threads c) ++ filter (fun x => x <> t) (ms_ready (shared c)))) as Hgt.
    { pose proof (mz_nd _ _ _ _ HR) as Hnd. apply NoDup_app in Hnd as (_ & _ & Hnd). unfold gone in *.
      apply NoDup_app in Hnd as (_ & _ & Hnd). rewrite Permutation_middle. f_equiv.
      apply NoDup_Permutation; [done|constructor; [|by apply NoDup_filter]|].
      - rewrite list_elem_of_filter. naive_solver.
      - intros y. rewrite elem_of_cons, list_elem_of_filter. destruct (decide (y = t)); naive_solver. }
    assert (gone (Conf (MsShared (ms_heap (shared c)) (ms_counter (shared c)) (ms_head (shared c))
      (alter (set_state FIBER_STATE_RUNNING) t (ms_fibers (shared c))) (filter (fun x => x <> t) (ms_ready (shared c))))
      (<[t:=SgWoke]> (threads c))) ≡ₚ omap ms_taking (threads c) ++ filter (fun x => x <> t) (ms_ready (shared c))) as Hg'.
    { unfold gone. simpl. by rewrite (omap_insert_same ms_taking _ _ _ SgWoke Ht eq_refl). }
    pose proof (mz_nd _ _ _ _ HR) as Hnd. rewrite Hgt, <- Permutation_middle in Hnd. apply NoDup_cons in Hnd as [Hout Hnd].
    eapply (ms_field t HR Ht SgWoke); try done; try congruence.
    + by rewrite Hg'.
    + intros f. rewrite Hg'. case_decide as E; [subst; split; done|].
      rewrite Hgt, !elem_of_app, elem_of_cons, elem_of_app. naive_solver.
    + intros f [Hne Hf]%list_elem_of_filter. case_decide; [done|]. by apply HR.
    + intros y. rewrite L2. by intros [= <-].
    + intros f _ Hf. destruct (decide (f = t)) as [->|Hne]; [|by rewrite L3]. rewrite L2. by rewrite Hx in Hf.
    + intros i p y y' Hi Hp Hy. rewrite L3 by done. intros. by simplify_eq.
  - simplify_eq. exists a. split; [done|]. destruct (awake_out t HR Ht eq_refl) as [O1 O2].
    destruct (alter_fiber (set_scratch false) t _ _ Hx) as (L1 & L2 & L3).
    eapply (ms_field t HR Ht SgIdle); try done; try congruence.
    + rewrite Hg by done. apply HR.
    + intros f. rewrite Hg by done. case_decide; [|done]. subst. set_solver.
    + intros f Hf. case_decide; [|by apply HR]. subst. unfold gone in O2. set_solver.
    + intros y. rewrite L2. by intros [= <-].
    + intros f Hf. rewrite L3; [done|]. by intros ->.
    + intros i p y y' Hi Hp Hy. rewrite L3 by done. intros. by simplify_eq.
Qed.

Lemma ms_wait_step k n c a t pc s' pc' evs : k + 1 < 2 ^ 64 -> ms_rel k n c a ->
  threads c !! t = Some pc -> fiber_multi_signal_wait t (shared c) pc = Some (s', pc', evs) ->
  exists a', spec_run ms_spec evs a = Some a' /\ ms_rel (k + 1) n (Conf s' (<[t:=pc']> (threads c))) a'.
Proof.
  intros Hk HR Ht Hs. destruct (ms_asleep pc) eqn:E; [by eapply (ms_sleep_step _ _ _ _ _ pc); eauto|].
  destruct (decide (pc = SgWoke)) as [Ew|Ew]; [by eapply (ms_sleep_step _ _ _ _ _ pc); eauto|]. by eapply ms_wait_loop_step.
Qed.

(** A raise that takes the fiber on top of the stack. *)
Lemma ms_pop_step k n c a t strict ctr hd nx s' pc' evs : k + 1 < 2 ^ 64 -> ms_rel k n c a ->
  threads c !! t = Some (RsPopCas strict ctr hd nx) ->
  fiber_multi_signal_raise t (shared c) (RsPopCas strict ctr hd nx) = Some (s', pc', evs) ->
  exists a', spec_run ms_spec evs a = Some a' /\ ms_rel (k + 1) n (Conf s' (<[t:=pc']> (threads c))) a'.
Proof.
  intros Hk HR Ht Hs. pose proof (mz_count _ _ _ _ HR) as Hc. pose proof (mz_ok _ _ _ _ HR _ _ Ht) as Hok.
  pose proof (mz_word _ _ _ _ HR) as Hw. destruct (ms_word_head _ _ Hw) as (_ & _ & Hw3).
  simpl in Hok. cbn [fiber_multi_signal_raise] in Hs. destruct (ms_cas2 _ _ _ _) as [s1|] eqn:E; simplify_eq.
  2: { exists a. split; [done|]. by eapply (ms_local t HR Ht). }
  apply ms_cas2_Some in E as (-> & -> & ->); [|lia..]. destruct Hok as (_ & H0 & H1 & Hnx).
  specialize (Hnx eq_refl eq_refl). destruct (Hw3 H1 H0) as (f & ws & -> & Ehd).
  destruct (proj1 (mz_asleep _ _ _ _ HR f)) as (p & Hp & Hpa); [simpl; set_solver|].
  assert (load_data (ms_heap (shared c)) (ms_head (shared c)) = Some (Z.of_nat f)) as Hd.
  { destruct (fiber_at f HR Hp) as (x & _ & [_ Ho]). rewrite Ehd. destruct p; try discriminate Hpa; naive_solver. }
  rewrite Hd in Hs. simpl in Hs. simplify_eq. rewrite Nat2Z.id.
  exists (false, ws). split; [simpl; by rewrite decide_True|].
  assert (gone (Conf (MsShared (ms_heap (shared c)) (ms_counter (shared c) + 1) nx (ms_fibers (shared c)) (ms_ready (shared c)))
    (<[t:=RsData (ms_head (shared c))]> (threads c))) ≡ₚ f :: gone c) as Hg.
  { unfold gone. simpl. rewrite (omap_insert_add ms_taking _ _ _ (RsData (ms_head (shared c))) f Ht eq_refl); [done|].
    simpl. f_equal. rewrite Ehd. unfold node_of. lia. }
  eapply (ms_swap t HR Ht (RsData (ms_head (shared c))) nx (false, ws)); simpl; try done.
  - unfold ms_word in Hw. simpl in Hw. destruct Hw as (_ & _ & nx' & Hnx' & Hw). rewrite <- Ehd, Hnx in Hnx'. by simplify_eq.
  - rewrite Hg, <- Permutation_middle. apply (mz_nd _ _ _ _ HR).
  - intros g. rewrite Hg, <- Permutation_middle. case_decide; [|done]. subst g.
    destruct (awake_out t HR Ht eq_refl) as [O1 O2]. simpl in O1.
    assert (t <> f) by (intros ->; rewrite Hp in Ht; simplify_eq; done). set_solver.
  - eauto.
Qed.

Lemma taking_gone c t pc f : threads c !! t = Some pc -> ms_taking pc = Some f -> f ∈ gone c.
Proof.
  intros Ht Hf. unfold gone. apply elem_of_app. left. apply list_elem_of_omap. eexists.
  by split; [eapply list_elem_of_lookup_2|].
Qed.

(** A raise reads whom it took; writing the fiber's node back changes nothing. *)
Lemma ms_data_step k n c a t hd s' pc' evs : ms_rel k n c a -> threads c !! t = Some (RsData hd) ->
  fiber_multi_signal_raise t (shared c) (RsData hd) = Some (s', pc', evs) ->
  exists a', spec_run ms_spec evs a = Some a' /\ ms_rel (k + 1) n (Conf s' (<[t:=pc']> (threads c))) a'.
Proof.
  intros HR Ht Hs. pose proof (mz_ok _ _ _ _ HR _ _ Ht) as Hok. simpl in Hok. cbn [fiber_multi_signal_raise] in Hs.
  destruct Hok as (f & -> & Hd). rewrite Hd in Hs. simpl in Hs. simplify_eq. rewrite Nat2Z.id.
  exists a. split; [done|].
  assert (f ∈ gone c) as Hfg by (eapply taking_gone; [exact Ht|]; simpl; f_equal; unfold node_of; lia).
  destruct (proj1 (mz_asleep _ _ _ _ HR f)) as (p & Hp & _); [set_solver|].
  destruct (fiber_at f HR Hp) as (x & Hx & [Hxn _]).
  assert (with_fiber (shared c) f (set_node (node_of f)) = shared c) as ->.
  { unfold with_fiber. destruct (shared c) as [h ct hd fs rd]. simpl in *. f_equal.
    apply list_eq. intros i. destruct (decide (i = f)) as [->|Hne]; [|by apply list_lookup_alter_ne].
    rewrite list_lookup_alter_eq, Hx. simpl. f_equal. destruct x. unfold set_node. simpl in *. by rewrite Hxn. }
  eapply (ms_local t HR Ht); try done. simpl. f_equal. unfold node_of. lia.
Qed.

(** A raise hands the fiber it took, by then parked, to the scheduler. *)
Lemma ms_wake_step k n c a t f s' pc' evs : ms_rel k n c a -> threads c !! t = Some (RsWake f) ->
  fiber_multi_signal_raise t (shared c) (RsWake f) = Some (s', pc', evs) ->
  exists a', spec_run ms_spec evs a = Some a' /\ ms_rel (k + 1) n (Conf s' (<[t:=pc']> (threads c))) a'.
Proof.
  intros HR Ht Hs. pose proof (mz_ok _ _ _ _ HR _ _ Ht) as Hok. simpl in Hok. cbn [fiber_multi_signal_raise] in Hs.
  unfold with_ready, with_fiber in Hs. simpl in Hs. simplify_eq. exists a. split; [done|].
  assert (gone c ≡ₚ gone (Conf (MsShared (ms_heap (shared c)) (ms_counter (shared c)) (ms_head (shared c))
    (alter (set_state FIBER_STATE_READY) f (ms_fibers (shared c))) (ms_ready (shared c) ++ [f]))
    (<[t:=SgIdle]> (threads c)))) as Hg.
  { unfold gone. simpl. rewrite (omap_insert_del ms_taking _ _ _ SgIdle f Ht eq_refl eq_refl).
    by rewrite app_assoc, <- Permutation_cons_append. }
  pose proof (taking_gone _ _ _ f Ht eq_refl) as Hfg.
  destruct (proj1 (mz_asleep _ _ _ _ HR f)) as (p & Hp & Hpa); [set_solver|].
  destruct (fiber_at f HR Hp) as (x & Hx & [Hxn Ho]). rewrite Hx in Hok. simpl in Hok. injection Hok as Hok.
  assert (p = SgParked) as -> by (destruct p; try discriminate Hpa; destruct_and? Ho; congruence).
  destruct (alter_fiber (set_state FIBER_STATE_READY) f _ _ Hx) as (L1 & L2 & L3).
  assert (t <> f) as Hne by (intros ->; congruence).
  destruct (awake_out t HR Ht eq_refl) as [O1 O2].
  eapply (ms_field t HR Ht SgIdle); try done.
  - rewrite L1. apply HR.
  - rewrite <- Hg. apply HR.
  - intros g. rewrite <- Hg. case_decide; [|done]. subst. set_solver.
  - intros g [Hf| ->%list_elem_of_singleton]%elem_of_app; [|by rewrite decide_False].
    case_decide; [subst; unfold gone in O2; set_solver|by apply HR].
  - intros y. rewrite L3 by done. intros Hy. apply (mz_own _ _ _ _ HR t _ y Ht Hy).
  - intros g _ Hf. destruct (decide (g = f)) as [->|Hnf]; [|by rewrite L3]. rewrite L2. by rewrite Hx in Hf.
  - intros i p y y' Hi Hpi Hy Hy' Hoy. destruct (decide (i = f)) as [->|Hnf]; [|rewrite L3 in Hy' by done; by simplify_eq].
    rewrite L2 in Hy'. rewrite Hp in Hpi. by simplify_eq.
Qed.

Lemma ms_raise_step k n c a t pc s' pc' evs : k + 1 < 2 ^ 64 -> ms_rel k n c a ->
  threads c !! t = Some pc -> fiber_multi_signal_raise t (shared c) pc = Some (s', pc', evs) ->
  exists a', spec_run ms_spec evs a = Some a' /\ ms_rel (k + 1) n (Conf s' (<[t:=pc']> (threads c))) a'.
Proof.
  intros Hk HR Ht Hs. pose proof (mz_count _ _ _ _ HR) as Hc. pose proof (mz_ok _ _ _ _ HR _ _ Ht) as Hok.
  pose proof (mz_word _ _ _ _ HR) as Hw. destruct (ms_word_head _ _ Hw) as (Hw1 & Hw2 & Hw3).
  destruct pc; try discriminate Hs; simpl in Hok;
    [..|by eapply ms_pop_step|by eapply ms_data_step| |by eapply ms_wake_step]; cbn [fiber_multi_signal_raise] in Hs.
  - simplify_eq. exists a. split; [done|]. eapply (ms_local t HR Ht); try done. simpl. lia.
  - destruct (Z.eqb_spec (ms_head (shared c)) NULL) as [E0|E0]; [|destruct (Z.eqb_spec (ms_head (shared c)) RAISED) as [E1|E1]];
      simpl in Hs; simplify_eq; exists a; (split; [done|]).
    + destruct strict; eapply (ms_local t HR Ht); try done. simpl. auto.
    + destruct strict; eapply (ms_local t HR Ht); try done. simpl. auto.
    + eapply (ms_local t HR Ht); try done. simpl. split_and!; [lia..|done|done|].
      destruct (Hw3 E1 E0) as (f & ws & -> & ->). exists f. split; [done|].
      destruct (proj1 (mz_asleep _ _ _ _ HR f)) as (p & Hp & _); [simpl; set_solver|].
      rewrite <- (proj1 (mz_len _ _ _ _ HR)). by eapply lookup_lt_Some.
  - destruct (ms_cas2 _ _ _ _) as [s1|] eqn:E; simplify_eq; [|exists a; split; [done|]; by eapply (ms_local t HR Ht)].
    apply ms_cas2_Some in E as (-> & -> & ->); [|lia..].
    assert (exists b, a = (b, [])) as [b ->] by (destruct Hok as (_ & [E|E]); eauto).
    exists (true, []). split; [done|]. eapply (ms_swap t HR Ht SgIdle RAISED (true, [])); simpl; try done.
    + unfold gone. simpl. rewrite (omap_insert_same ms_taking _ _ _ SgIdle Ht eq_refl). apply (mz_nd _ _ _ _ HR).
    + intros f. unfold gone. simpl. rewrite (omap_insert_same ms_taking _ _ _ SgIdle Ht eq_refl). case_decide; [|done].
      subst. destruct (awake_out t HR Ht eq_refl). unfold gone in *. naive_solver.
  - destruct (load_next _ _) as [nx|] eqn:E; simplify_eq/=. exists a. split; [done|].
    eapply (ms_local t HR Ht); try done. simpl. naive_solver.
  - destruct (ms_fibers (shared c) !! to_wake) as [x|] eqn:Ex; simplify_eq/=. exists a. split; [done|].
    destruct (fb_scratch x) eqn:Esc; eapply (ms_local t HR Ht); try done. simpl. by rewrite Ex, <- Esc.
Qed.

Lemma ms_simulation k n lbl c c' evs a : k + 1 < 2 ^ 64 -> ms_rel k n c a -> ms_step lbl c = Some (c', evs) ->
  exists a', spec_run ms_spec evs a = Some a' /\ ms_rel (k + 1) n c' a'.
Proof.
  destruct lbl as [t ch]. intros Hk HR Hstep. apply conf_step_inv in Hstep as (pc & s' & pc' & Ht & Hs & ->).
  destruct ch, pc; simpl in Hs; try discriminate Hs.
  1-2: simplify_eq; exists a; (split; [done|]); by eapply (ms_local t HR Ht).
  all: first [by eapply ms_wait_step | by eapply ms_raise_step].
Qed.

Lemma ms_heap_init n f : (f < n)%nat ->
  (list_to_map ((fun f => (node_of f, Node 0 NULL)) <$> seq 0 n) : gmap Z node) !! node_of f = Some (Node 0 NULL).
Proof.
  intros Hf. apply elem_of_list_to_map_1.
  - rewrite <- list_fmap_compose. apply NoDup_fmap_2; [intros x y; unfold compose, node_of; simpl; lia|apply NoDup_seq].
  - apply list_elem_of_fmap. exists f. split; [done|]. apply elem_of_seq. lia.
Qed.

Lemma ms_init_rel n : ms_rel 0 n (ms_init n) (false, []).
Proof.
  assert (forall l, omap ms_taking (replicate l SgIdle) = []) as Ho by (by induction l).
  split; cbn [ms_init shared threads fiber_multi_signal_init ms_fibers ms_counter ms_ready ms_heap]; try done.
  - by rewrite length_fmap, length_seq, length_replicate.
  - unfold gone. simpl. rewrite Ho. constructor.
  - intros f. unfold gone. simpl. rewrite Ho. split; [by intros ?%elem_of_nil|].
    by intros (p & [-> _]%lookup_replicate & ?).
  - by intros f ?%elem_of_nil.
  - intros f Hf. rewrite ms_heap_init by done. eauto.
  - by intros t pc [-> _]%lookup_replicate.
  - intros t pc x [-> Hl]%lookup_replicate. rewrite list_lookup_fmap, lookup_seq_lt by done. by intros [= <-].
Qed.

Lemma ms_run_rel n ls c evs : Z.of_nat (length ls) < 2 ^ 64 -> run ms_step ls (ms_init n) = Some (c, evs) ->
  exists k a, spec_run ms_spec evs (false, []) = Some a /\ ms_rel k n c a.
Proof.
  intros Hb Hrun.
  destruct (run_simulation ms_step ms_spec (2 ^ 64) (fun k c a => ms_rel k n c a))
    with (ls := ls) (n := 0) (s := ms_init n) (s' := c) (evs := evs) (a := (false, []) : bool * list nat)
    as (a & Ha & HR); eauto using ms_init_rel.
  intros k l s s' e a Hk HR Hs. eapply ms_simulation; eauto.
Qed.

(** ** Progress *)

Lemma ms_go c u p s' pc' e : threads c !! u = Some p -> ms_tstep u MsGo (shared c) p = Some (s', pc', e) ->
  ms_step (u, MsGo) c = Some (Conf s' (<[u:=pc']> (threads c)), e).
Proof. intros Hu Hs. unfold ms_step, conf_step. cbn [fst snd]. by rewrite Hu, Hs. Qed.

(** No step faults: every pointer followed is a node, no assertion fails. *)
Lemma ms_can_step k n c a t pc : ms_rel k n c a -> threads c !! t = Some pc -> pc <> SgIdle -> pc <> SgParked ->
  exists s' pc' e, ms_tstep t MsGo (shared c) pc = Some (s', pc', e).
Proof.
  intros HR Ht Hi Hp. pose proof (mz_ok _ _ _ _ HR _ _ Ht) as Hok.
  destruct (fiber_at t HR Ht) as (x & Hx & [Hxn Hown]).
  assert ((t < n)%nat) as Hlt by (rewrite <- (proj1 (mz_len _ _ _ _ HR)); by eapply lookup_lt_Some).
  destruct (mz_alloc _ _ _ _ HR t Hlt) as [nd Hnd].
  destruct pc; try done; simpl in Hok; unfold ms_tstep, fiber_multi_signal_wait, fiber_multi_signal_raise;
    rewrite ?Hx; cbn [mbind option_bind]; rewrite ?Hxn; try case_match; try (by do 3 eexists).
  - unfold store_data. rewrite Hnd. by do 3 eexists.
  - unfold store_next. rewrite Hnd. by do 3 eexists.
  - destruct Hown as (_ & Hst & _). by rewrite Hst in *.
  - destruct Hok as (_ & _ & _ & f & -> & Hf). destruct (mz_alloc _ _ _ _ HR f Hf) as [nf Hnf].
    unfold load_next. rewrite Hnf. by do 3 eexists.
  - unfold ms_cas2 in *. case_match eqn:E; simplify_eq. apply andb_prop in E as [_ E%Z.eqb_eq].
    destruct Hok as (_ & H0 & H1 & _). destruct (ms_word_head _ _ (mz_word _ _ _ _ HR)) as (_ & _ & Hw3).
    rewrite E in Hw3. destruct (Hw3 H1 H0) as (f & ws & -> & ->).
    destruct (proj1 (mz_asleep _ _ _ _ HR f)) as (p & Hpf & Hpa); [simpl; set_solver|].
    destruct (mz_alloc _ _ _ _ HR f) as [nf Hnf]; [rewrite <- (proj1 (mz_len _ _ _ _ HR)); by eapply lookup_lt_Some|].
    unfold load_data. rewrite Hnf. by do 3 eexists.
  - destruct Hok as (f & -> & ->). by do 3 eexists.
  - destruct (proj1 (mz_asleep _ _ _ _ HR to_wake)) as (p & Hpf & _).
    { apply elem_of_app. right. by eapply taking_gone. }
    destruct (fiber_at to_wake HR Hpf) as (y & -> & _). by do 3 eexists.
Qed.

(** A fiber that a raise took is woken: it, the taker, or the scheduler moves. *)
Lemma ms_gone_moves k n c a f pc : ms_rel k n c a -> threads c !! f = Some pc -> ms_asleep pc = true -> f ∈ gone c ->
  exists u p c' e, threads c !! u = Some p /\ (u = f \/ ms_taking p = Some f) /\
    ms_step (u, MsGo) c = Some (c', e) /\ c' <> c.
Proof.
  intros HR Hf Ha Hg. destruct (fiber_at f HR Hf) as (x & Hx & [Hxn Hown]).
  assert (forall u p s' pc' e, threads c !! u = Some p -> u = f \/ ms_taking p = Some f ->
    ms_tstep u MsGo (shared c) p = Some (s', pc', e) -> pc' <> p ->
    exists u p c' e, threads c !! u = Some p /\ (u = f \/ ms_taking p = Some f) /\
      ms_step (u, MsGo) c = Some (c', e) /\ c' <> c) as Hmove.
  { intros u p s' pc' e Hu Hd Hs Hne. exists u, p, (Conf s' (<[u:=pc']> (threads c))), e.
    split_and!; [done..|by apply ms_go with p|by eapply conf_changed]. }
  destruct pc; try discriminate Ha; simpl in Hown.
  1-2: destruct (ms_can_step _ _ _ _ _ _ HR Hf) as (s' & pc' & e & Hs); [done..|].
  1-2: apply (Hmove _ _ _ _ _ Hf (or_introl eq_refl) Hs); unfold ms_tstep, fiber_multi_signal_wait in Hs;
    rewrite Hx in Hs; simpl in Hs; try case_match; by simplify_eq.
  unfold gone in Hg. apply elem_of_app in Hg as [Hg|Hg].
  - apply list_elem_of_omap in Hg as (p & [u Hu]%list_elem_of_lookup & Hp).
    destruct (ms_can_step _ _ _ _ _ _ HR Hu) as (s' & pc' & e & Hs); [by intros ->..|].
    apply (Hmove _ _ _ _ _ Hu (or_intror Hp) Hs). destruct p; try discriminate Hp; cbn [ms_tstep fiber_multi_signal_raise] in Hs; simpl in Hp.
    + apply bind_Some in Hs as (d & _ & Hs). by simplify_eq.
    + simplify_eq. rewrite Hx in Hs. simpl in Hs. destruct Hown as [Hsc _]. rewrite Hsc in Hs. by simplify_eq.
    + by simplify_eq.
  - eapply (Hmove _ _ _ SgWoke _ Hf (or_introl eq_refl)); [|done].
    unfold ms_tstep, fiber_multi_signal_wait. rewrite Hx. simpl. by rewrite decide_True.
Qed.

(** ** Properties *)


(** No lost wake-up.  A fiber that went to sleep on a multi-signal either
    is still among the sleepers, the signal not being raised, or was taken by
    exactly one raise, and then a step that changes the state is enabled: the
    sleeper's own (it is leaving its stack, or is scheduled) or that of the
    raise that took it. *)
Theorem multi_signal_no_lost_wakeup n ls c evs f pc : Z.of_nat (length ls) < 2 ^ 64 ->
  run ms_step ls (ms_init n) = Some (c, evs) -> threads c !! f = Some pc -> ms_asleep pc = true ->
  exists raised sleepers, spec_run ms_spec evs (false, []) = Some (raised, sleepers) /\ NoDup (sleepers ++ gone c) /\
    ((f ∈ sleepers /\ raised = false) \/
     (f ∈ gone c /\ exists u p c' e, threads c !! u = Some p /\ (u = f \/ ms_taking p = Some f) /\
        ms_step (u, MsGo) c = Some (c', e) /\ c' <> c)).
Proof.
  intros Hb Hrun Hf Ha. destruct (ms_run_rel _ _ _ _ Hb Hrun) as (k & [raised ws] & Hs & HR).
  exists raised, ws. split; [done|]. split; [apply (mz_nd _ _ _ _ HR)|].
  assert (f ∈ ws ++ gone c) as [Hw|Hg]%elem_of_app by (apply (mz_asleep _ _ _ _ HR); eauto).
  - left. split; [done|]. pose proof (mz_word _ _ _ _ HR) as Hword. destruct raised; [|done].
    destruct Hword as [_ E]. simpl in E. subst. by apply elem_of_nil in Hw.
  - right. split; [done|]. by eapply ms_gone_moves.
Qed.

(** The signal never faults: in every reachable state a fiber inside a wait
    or a raise can take its next step (the nodes it follows are allocated, the
    state assertion before the sleep holds, the fiber it wakes exists), unless
    it is parked and nobody has scheduled it. *)
Theorem multi_signal_no_fault n ls c evs t pc : Z.of_nat (length ls) < 2 ^ 64 ->
  run ms_step ls (ms_init n) = Some (c, evs) -> threads c !! t = Some pc -> pc <> SgIdle -> pc <> SgParked ->
  exists c' e, ms_step (t, MsGo) c = Some (c', e).
Proof.
  intros Hb Hrun Ht Hi Hp. destruct (ms_run_rel _ _ _ _ Hb Hrun) as (k & a & _ & HR).
  destruct (ms_can_step _ _ _ _ _ _ HR Ht Hi Hp) as (s' & pc' & e & Hs). do 2 eexists. by apply ms_go with pc.
Qed.

(** Fibers 0 and 1 sleep, fiber 2 takes fiber 1 before it has left its stack,
    fiber 1 then parks, is woken and returns; fiber 2 raises again. *)
Definition ms_demo_take : list (nat * ms_choice) :=
  [(0%nat, MsCallWait)] ++ replicate 7 (0%nat, MsGo) ++ [(1%nat, MsCallWait)] ++ replicate 5 (1%nat, MsGo) ++
  [(2%nat, MsCallRaise false)] ++ replicate 6 (2%nat, MsGo).
Definition ms_demo : list (nat * ms_choice) :=
  ms_demo_take ++ replicate 2 (1%nat, MsGo) ++ replicate 2 (2%nat, MsGo) ++ replicate 2 (1%nat, MsGo) ++
  [(2%nat, MsCallRaise true)] ++ replicate 7 (2%nat, MsGo) ++ [(1%nat, MsCallRaise false)] ++ replicate 3 (1%nat, MsGo).


Lemma multi_signal_no_lost_wakeup_witness : exists (c : ms_conf) raised sleepers,
  run ms_step ms_demo_take (ms_init 3) = Some (c, [EvSleep 0; EvSleep 1; EvWakeUp 2 1]%nat) /\
  spec_run ms_spec [EvSleep 0; EvSleep 1; EvWakeUp 2 1]%nat (false, []) = Some (raised, sleepers) /\
  NoDup (sleepers ++ gone c) /\
  ((1%nat ∈ sleepers /\ raised = false) \/
   (1%nat ∈ gone c /\ exists u p c' e, threads c !! u = Some p /\ (u = 1%nat \/ ms_taking p = Some 1%nat) /\
      ms_step (u, MsGo) c = Some (c', e) /\ c' <> c)).
Proof.
  edestruct (multi_signal_no_lost_wakeup 3 ms_demo_take) as (r & ws & H);
    [vm_compute; reflexivity|vm_compute; reflexivity|by instantiate (2 := 1%nat)|reflexivity|].
  eexists _, r, ws. split; [vm_compute; reflexivity|exact H].
Defined.

Lemma multi_signal_no_fault_witness : exists c : ms_conf,
  run ms_step ms_demo_take (ms_init 3) = Some (c, [EvSleep 0; EvSleep 1; EvWakeUp 2 1]%nat) /\
  exists c' e, ms_step (2%nat, MsGo) c = Some (c', e).
Proof.
  eexists. split; [vm_compute; reflexivity|].
  eapply (multi_signal_no_fault 3 ms_demo_take _ [EvSleep 0; EvSleep 1; EvWakeUp 2 1]%nat 2 (RsSpin 1));
    [vm_compute; reflexivity|vm_compute; reflexivity|reflexivity|discriminate|discriminate].
Defined.
