(* ===== verification/Barrier.v ===== *)
(** * The barrier ([src/fiber_barrier.c], [include/fiber_barrier.h])

    A fiber that arrives increments the counter; the one that completes a round
    of [count] arrivals wakes [count - 1] fibers from the queue, the others wait
    in it.  The queue is popped in the order of the pushes, not of the arrivals,
    so with three fibers or more a fiber of the next round can take the place of
    a slow one: what holds in general is the number of fibers released, and the
    barrier property itself for two fibers. *)

From S2P Require Import Prelude MpscFifo WaitQueue.

Section barrier.
Context {Q : Type} `{WaitQueue Q}.

(** ** State *)

(** [fiber_barrier_t], and the fibers the scheduler has been given. *)
Record bar_shared := BShared { b_count : Z; b_counter : Z; b_waiters : Q; b_ready : list nat }.

Inductive bar_pc :=
| BIdle
| BWait (w : wait_pc)           (* in fiber_manager_wait_in_mpsc_queue *)
| BWake (wake_count : Z).       (* in fiber_manager_wake_from_mpsc_queue *)

#[export] Instance bar_pc_eq_dec : EqDecision bar_pc.
Proof. solve_decision. Defined.

Inductive bar_choice := BCall | BGo.

(** An arrival (was it the last one of its round?), a wake-up, a return. *)
Inductive bar_ev := EvArrive (t : nat) (serial : bool) | EvRelease (t : nat) | EvLeave (t : nat).

#[export] Instance bar_ev_eq_dec : EqDecision bar_ev.
Proof. solve_decision. Defined.

(** ** Operations *)

Definition fiber_barrier_init (n : nat) (count : Z) : option bar_shared :=
  if Z.ltb 0 count then Some (BShared count 0 (wq_init n) []) else None.

(** The nodes it frees. *)
Definition fiber_barrier_destroy (s : bar_shared) : option (list Z) := wq_destroy (b_waiters s).

Definition fiber_barrier_wait (t : nat) (s : bar_shared) (pc : bar_pc)
    : option (bar_shared * bar_pc * list bar_ev) :=
  match pc with
  | BIdle =>
      let new_value := u64 (b_counter s + 1) in
      let s' := BShared (b_count s) new_value (b_waiters s) (b_ready s) in
      if Z.eqb (new_value mod b_count s) 0
      then Some (s', BWake 0, [EvArrive t true]) else Some (s', BWait WPush, [EvArrive t false])
  | BWait WParked =>
      if decide (t ∈ b_ready s)
      then Some (BShared (b_count s) (b_counter s) (b_waiters s) (take_ready t (b_ready s)), BIdle, [EvLeave t])
      else None
  | BWait w =>
      r ← fiber_manager_wait_in_mpsc_queue t w (b_waiters s);
      Some (BShared (b_count s) (b_counter s) r.1 (b_ready s), BWait r.2, [])
  | BWake wake_count =>
      '(q, ready, again) ← fiber_manager_wake_from_mpsc_queue (i32 (b_count s - 1)) wake_count (b_waiters s) (b_ready s);
      let s' := BShared (b_count s) (b_counter s) q ready in
      let evs := EvRelease <$> drop (length (b_ready s)) ready in
      match again with
      | Some wake_count => Some (s', BWake wake_count, evs)
      | None => Some (s', BIdle, evs ++ [EvLeave t])
      end
  end.

Definition bar_tstep (t : nat) (ch : bar_choice) (s : bar_shared) (pc : bar_pc)
    : option (bar_shared * bar_pc * list bar_ev) :=
  match ch, pc with
  | BCall, BIdle => fiber_barrier_wait t s pc
  | BGo, (BWait _ | BWake _) => fiber_barrier_wait t s pc
  | _, _ => None
  end.

Definition bar_conf := conf bar_shared bar_pc.
Definition bar_step := conf_step bar_tstep.
Definition bar_init (n : nat) (count : Z) : bar_conf := Conf (BShared count 0 (wq_init n) []) (replicate n BIdle).

(** ** The abstract barrier: arrivals, and wake-ups owed to completed rounds *)

Definition bar_spec (count : Z) (e : bar_ev) (a : Z * Z) : option (Z * Z) :=
  let '(arrived, owed) := a in
  match e with
  | EvArrive _ serial =>
      if bool_decide (serial = Z.eqb ((arrived + 1) mod count) 0)
      then Some (arrived + 1, if serial then owed + (count - 1) else owed) else None
  | EvRelease _ => if Z.ltb 0 owed then Some (arrived, owed - 1) else None
  | EvLeave _ => Some a
  end.

(** ** Invariant *)

Definition bar_wait_of (pc : bar_pc) : option wait_pc := match pc with BWait w => Some w | _ => None end.
Definition bar_waits (ths : list bar_pc) (t : nat) : option wait_pc := pc ← ths !! t; bar_wait_of pc.
Definition b_waiting (pc : bar_pc) : nat := match pc with BWait _ => 1 | _ => 0 end.
Definition b_waking (pc : bar_pc) : nat := match pc with BWake _ => 1 | _ => 0 end.
Definition b_owes (count : Z) (pc : bar_pc) : nat := match pc with BWake k => Z.to_nat (count - 1 - k) | _ => 0 end.

Record bar_rel (n : nat) (count : Z) (c : bar_conf) (a : Z * Z) (l : list (nat * bool)) : Prop := {
  br_len : length (threads c) = n;
  br_count : b_count (shared c) = count;
  br_repr : wq_repr n (b_waiters (shared c)) l;
  br_wq : wq_inv l (b_ready (shared c)) (bar_waits (threads c));
  br_counter : b_counter (shared c) = a.1 /\ 0 <= a.1;
  br_owed : a.2 = Z.of_nat (sum_list_with (b_owes count) (threads c));
  br_balance : Z.of_nat (sum_list_with b_waiting (threads c)) - Z.of_nat (length (b_ready (shared c))) =
    a.2 + a.1 mod count;
  br_single : (sum_list_with b_waking (threads c) <= 1)%nat;
  br_wakes : forall t k, threads c !! t = Some (BWake k) -> 0 <= k /\ (k < count - 1 \/ count = 1)
}.

Lemma bar_waits_insert ths t pc pc' : ths !! t = Some pc ->
  upd_at t (bar_wait_of pc') (bar_waits ths) (bar_waits (<[t:=pc']> ths)).
Proof.
  intros Ht. unfold bar_waits. split.
  - by rewrite list_lookup_insert_eq by (by eapply lookup_lt_Some).
  - intros i Hi. by rewrite list_lookup_insert_ne.
Qed.

(** Waiting and waking fibers are distinct. *)
Lemma bar_crowd ths : (sum_list_with b_waiting ths + sum_list_with b_waking ths <= length ths)%nat.
Proof. induction ths as [|p ths IH]; simpl; [lia|]. destruct p; simpl; lia. Qed.

Lemma owes_waking count ths : (forall t k, ths !! t = Some (BWake k) -> 0 <= k /\ (k < count - 1 \/ count = 1)) ->
  0 < count -> count <> 1 -> (sum_list_with b_waking ths <= sum_list_with (b_owes count) ths)%nat.
Proof.
  intros Hk H0 H1. induction ths as [|p ths IH]; simpl; [lia|].
  specialize (IH (fun t k Ht => Hk (S t) k Ht)). pose proof (Hk 0%nat) as Hp. destruct p; simpl in *; try lia.
  specialize (Hp _ eq_refl). lia.
Qed.

(** ** Preservation *)

Lemma bar_rel_step n count c a l t pc s' pc' a' l' : bar_rel n count c a l -> threads c !! t = Some pc ->
  b_count s' = count ->
  wq_repr n (b_waiters s') l' -> wq_inv l' (b_ready s') (bar_waits (<[t:=pc']> (threads c))) ->
  b_counter s' = a'.1 -> 0 <= a'.1 ->
  a'.2 - a.2 = Z.of_nat (b_owes count pc') - Z.of_nat (b_owes count pc) ->
  Z.of_nat (b_waiting pc') - Z.of_nat (b_waiting pc) - Z.of_nat (length (b_ready s')) +
    Z.of_nat (length (b_ready (shared c))) = (a'.2 - a.2) + (a'.1 mod count - a.1 mod count) ->
  (b_waking pc' <= b_waking pc \/ sum_list_with b_waking (threads c) = 0)%nat ->
  (forall k, pc' = BWake k -> 0 <= k /\ (k < count - 1 \/ count = 1)) ->
  bar_rel n count (Conf s' (<[t:=pc']> (threads c))) a' l'.
Proof.
  intros HR Ht Hc Hq Hw Hk Hk0 Ho Hb Hs Hwk.
  pose proof (sum_list_with_insert b_waiting (threads c) t pc pc' Ht) as S1.
  pose proof (sum_list_with_insert b_waking (threads c) t pc pc' Ht) as S2.
  pose proof (sum_list_with_insert (b_owes count) (threads c) t pc pc' Ht) as S3.
  pose proof (br_owed _ _ _ _ _ HR). pose proof (br_balance _ _ _ _ _ HR). pose proof (br_single _ _ _ _ _ HR).
  split; cbn [shared threads]; auto; try lia.
  - rewrite length_insert. apply HR.
  - assert (b_waking pc' <= 1)%nat by (destruct pc'; simpl; lia). lia.
  - intros i k Hi. apply lookup_insert_cases in Hi as [(_ & Hi)|(_ & Hi)]; [by apply Hwk|by eapply (br_wakes _ _ _ _ _ HR)].
Qed.

(** An arrival; the last one of a round finds no other fiber waking. *)
Lemma bar_arrive n count c a l t s' pc' evs : (1 <= n)%nat /\ Z.of_nat n <= count < 2 ^ 31 ->
  bar_rel n count c a l -> threads c !! t = Some BIdle -> a.1 + 1 < 2 ^ 64 ->
  fiber_barrier_wait t (shared c) BIdle = Some (s', pc', evs) ->
  exists a' l', spec_run (bar_spec count) evs a = Some a' /\ a'.1 <= a.1 + 1 /\
    bar_rel n count (Conf s' (<[t:=pc']> (threads c))) a' l'.
Proof.
  intros Hn HR Ht Hb Hs. destruct a as [arr ow]. simpl in Hb. destruct (br_counter _ _ _ _ _ HR) as [Hc H0]. simpl in Hc, H0.
  pose proof (br_count _ _ _ _ _ HR) as Hcnt. pose proof (br_owed _ _ _ _ _ HR) as Ho. simpl in Ho.
  pose proof (br_balance _ _ _ _ _ HR) as Hbal. simpl in Hbal. pose proof (bar_crowd (threads c)) as Hcr.
  cbn [fiber_barrier_wait] in Hs. rewrite Hc, Hcnt, u64_small in Hs by lia.
  assert (wq_inv l (b_ready (shared c)) (bar_waits (<[t:=pc']> (threads c)))) as Hwq.
  { eapply (wqi_other _ _ _ t (br_wq _ _ _ _ _ HR)); [| |by eapply bar_waits_insert].
    - left. unfold bar_waits. by rewrite Ht.
    - destruct (Z.eqb _ 0); simplify_eq; auto. }
  assert (arr mod count + 1 < count \/ (arr + 1) mod count = 0) as Hmod.
  { pose proof (Z.mod_pos_bound arr count). destruct (Z.eq_dec (arr mod count + 1) count) as [E|]; [right|lia].
    rewrite <- Zplus_mod_idemp_l, E. apply Z.mod_same. lia. }
  assert (arr mod count + 1 < count -> (arr + 1) mod count = arr mod count + 1) as Hmod'.
  { intros Hlt. rewrite <- Zplus_mod_idemp_l. apply Z.mod_small. pose proof (Z.mod_pos_bound arr count). lia. }
  pose proof (Z.mod_pos_bound arr count) as Hmb.
  destruct (Z.eqb_spec ((arr + 1) mod count) 0) as [E|E]; injection Hs as <- <- <-.
  - assert (arr mod count = count - 1) as Em by lia.
    exists (arr + 1, ow + (count - 1)), l. simpl. rewrite (bool_decide_eq_true_2 _) by (by rewrite E).
    split_and!; [done|lia|]. eapply bar_rel_step; simpl; [exact HR|exact Ht|done|apply HR|exact Hwq|done|simpl; lia|simpl; lia|simpl; rewrite E; lia| |intros k [= <-]; lia].
    right. pose proof (sum_list_with_insert b_waking (threads c) t _ BIdle Ht) as S2.
    assert (ow = 0) as Hz.
    { assert (sum_list_with b_waiting (threads c) < n)%nat; [|lia].
      rewrite <- (br_len _ _ _ _ _ HR). pose proof (sum_list_with_insert b_waiting (threads c) t _ (BWake 0) Ht) as S1.
      pose proof (sum_list_with_insert b_waking (threads c) t _ (BWake 0) Ht) as S3.
      pose proof (bar_crowd (<[t:=BWake 0]> (threads c))) as C2. rewrite length_insert in C2. simpl in *. lia. }
    destruct (Z.eq_dec count 1) as [->|Hc1].
    + assert (n = 1%nat) as -> by lia. pose proof (br_len _ _ _ _ _ HR) as Hl.
      destruct (threads c) as [|p [|]]; simpl in Hl; try lia. destruct t; simpl in Ht; simplify_eq. done.
    + pose proof (owes_waking count (threads c) (br_wakes _ _ _ _ _ HR)). lia.
  - exists (arr + 1, ow), l. simpl. rewrite (bool_decide_eq_true_2 _) by (by rewrite (proj2 (Z.eqb_neq _ _) E)).
    split_and!; [done|lia|]. eapply bar_rel_step; simpl; [exact HR|exact Ht|done|apply HR|exact Hwq|done|simpl; lia|simpl; lia| |by left|done].
    simpl. rewrite Hmod' by lia. lia.
Qed.

Lemma bar_wait_go n count c a l t w s' pc' evs : bar_rel n count c a l -> threads c !! t = Some (BWait w) ->
  fiber_barrier_wait t (shared c) (BWait w) = Some (s', pc', evs) ->
  exists l', spec_run (bar_spec count) evs a = Some a /\ bar_rel n count (Conf s' (<[t:=pc']> (threads c))) a l'.
Proof.
  intros HR Ht Hs. destruct (br_counter _ _ _ _ _ HR) as [Hc H0]. pose proof (br_count _ _ _ _ _ HR) as Hcnt.
  pose proof (br_wq _ _ _ _ _ HR) as Hq. destruct a as [arr ow]. simpl in Hc, H0.
  assert (t < n)%nat as Htn by (rewrite <- (br_len _ _ _ _ _ HR); by eapply lookup_lt_Some).
  assert (bar_waits (threads c) t = Some w) as Hw by (unfold bar_waits; by rewrite Ht).
  destruct w; cbn [fiber_barrier_wait fiber_manager_wait_in_mpsc_queue] in Hs.
  - destruct (wqi_absent _ _ _ _ Hq (or_intror Hw)) as [Hl _].
    destruct (wq_xchg_spec n _ l t (br_repr _ _ _ _ _ HR) Htn Hl) as (q' & E & Hr'). rewrite E in Hs.
    injection Hs as <- <- <-. exists (l ++ [(t, false)]). split; [done|].
    eapply bar_rel_step; [exact HR|exact Ht|done|exact Hr'| |done|done|simpl; lia|simpl; lia|by left|done].
    by eapply wqi_push; [exact Hq|exact Hw|eapply (bar_waits_insert _ _ _ (BWait WLink))].
  - destruct (wqi_linked _ _ _ _ Hq _ Hw (bar_waits_insert _ _ _ (BWait WParked) Ht)) as (l1 & l2 & El & Hq').
    pose proof (br_repr _ _ _ _ _ HR) as Hr. rewrite El in Hr.
    destruct (wq_link_spec n _ l1 l2 t Hr) as (q' & E & Hr'). rewrite E in Hs.
    injection Hs as <- <- <-. eexists. split; [done|].
    eapply bar_rel_step; [exact HR|exact Ht|done|exact Hr'|exact Hq'|done|done|simpl; lia|simpl; lia|by left|done].
  - case_decide as Hin; [|done]. injection Hs as <- <- <-. exists l. split; [done|].
    assert (length (b_ready (shared c)) = S (length (take_ready t (b_ready (shared c))))) as Hlen.
    { apply take_ready_length; [|done]. pose proof (wqi_nd _ _ _ Hq) as Hnd. by apply NoDup_app in Hnd as (_ & _ & ?). }
    destruct (wqi_resume _ _ _ t Hq _ Hin (bar_waits_insert _ _ _ BIdle Ht)) as [_ Hq'].
    eapply bar_rel_step; [exact HR|exact Ht|done|apply HR|exact Hq'|done|done|simpl; lia|simpl; lia|by left|done].
Qed.

Lemma bar_wake_go n count c a l t k s' pc' evs : (1 <= n)%nat /\ Z.of_nat n <= count < 2 ^ 31 ->
  bar_rel n count c a l -> threads c !! t = Some (BWake k) ->
  fiber_barrier_wait t (shared c) (BWake k) = Some (s', pc', evs) ->
  exists a' l', spec_run (bar_spec count) evs a = Some a' /\ a'.1 = a.1 /\
    bar_rel n count (Conf s' (<[t:=pc']> (threads c))) a' l'.
Proof.
  intros Hn HR Ht Hs. destruct (br_counter _ _ _ _ _ HR) as [Hc H0]. pose proof (br_count _ _ _ _ _ HR) as Hcnt.
  pose proof (br_wq _ _ _ _ _ HR) as Hq. destruct a as [arr ow]. simpl in Hc, H0.
  pose proof (br_owed _ _ _ _ _ HR) as Ho. simpl in Ho. destruct (br_wakes _ _ _ _ _ HR _ _ Ht) as [Hk Hk'].
  pose proof (sum_list_with_lookup (b_owes count) _ _ _ Ht) as Hle. cbn [b_owes] in Hle.
  assert (forall pc0 ready ll, wq_inv ll ready (bar_waits (threads c)) -> bar_wait_of pc0 = None ->
    wq_inv ll ready (bar_waits (<[t:=pc0]> (threads c)))) as Hmove.
  { intros pc0 ready ll Hi Hp. eapply (wqi_other _ _ _ t Hi); [| |by eapply bar_waits_insert]; left; [|done].
    unfold bar_waits. by rewrite Ht. }
  cbn [fiber_barrier_wait fiber_manager_wake_from_mpsc_queue] in Hs. rewrite Hcnt, i32_small in Hs by lia.
  unfold fiber_manager_wake_from_mpsc_queue in Hs.
  assert ((exists g l', l = (g, true) :: l') \/ forall f, head l <> Some (f, true)) as [(g & l' & ->)|Hno]
    by (destruct l as [|[g []] l']; simpl; eauto; right; naive_solver).
  - destruct (wq_pop_spec n _ _ _ (br_repr _ _ _ _ _ HR)) as (q' & E & Hq'). rewrite E in Hs.
    cbn [mbind option_bind] in Hs. rewrite drop_app_length in Hs. simpl in Hs.
    assert (count <> 1) as Hc1.
    { intros ->. assert (bar_waits (threads c) g = Some WParked) as Hg by (apply (wqi_park _ _ _ Hq); left; left).
      unfold bar_waits in Hg. destruct (threads c !! g) as [pg|] eqn:Eg; [|done].
      pose proof (lookup_lt_Some _ _ _ Ht). pose proof (lookup_lt_Some _ _ _ Eg). pose proof (br_len _ _ _ _ _ HR).
      assert (g = t) as -> by lia. rewrite Ht in Eg. by simplify_eq. }
    exists (arr, ow - 1), l'. destruct (Z.ltb_spec (k + 1) (count - 1)); injection Hs as <- <- <-.
    + simpl. rewrite (proj2 (Z.ltb_lt 0 ow)) by lia. split_and!; [done..|].
      eapply bar_rel_step; [exact HR|exact Ht|done|exact Hq'|apply Hmove; [by apply wqi_pop|done]|done|done|simpl; lia|
        simpl; rewrite length_app; simpl; lia|by left|intros ? [= <-]; lia].
    + simpl. rewrite (proj2 (Z.ltb_lt 0 ow)) by lia. split_and!; [done..|].
      eapply bar_rel_step; [exact HR|exact Ht|done|exact Hq'|apply Hmove; [by apply wqi_pop|done]|done|done|simpl; lia|
        simpl; rewrite length_app; simpl; lia|by left; simpl; lia|done].
  - rewrite (wq_pop_empty n _ l (br_repr _ _ _ _ _ HR)) in Hs by done.
    cbn [mbind option_bind] in Hs. rewrite drop_all in Hs. simpl in Hs. exists (arr, ow), l.
    destruct (Z.ltb_spec k (count - 1)); injection Hs as <- <- <-; (split_and!; [done..|]).
    + eapply bar_rel_step; [exact HR|exact Ht|done|apply HR|by apply Hmove|done|done|simpl; lia|simpl; lia|by left|].
      by intros ? [= <-].
    + eapply bar_rel_step; [exact HR|exact Ht|done|apply HR|by apply Hmove|done|done|simpl; lia|simpl; lia|by left; simpl; lia|done].
Qed.

Lemma bar_simulation n count k lbl c c' evs a l : (1 <= n)%nat /\ Z.of_nat n <= count < 2 ^ 31 ->
  k + 1 < 2 ^ 64 -> bar_rel n count c a l -> a.1 <= k -> bar_step lbl c = Some (c', evs) ->
  exists a' l', spec_run (bar_spec count) evs a = Some a' /\ bar_rel n count c' a' l' /\ a'.1 <= k + 1.
Proof.
  destruct lbl as [t ch]. intros Hn Hk HR Ha Hstep. apply conf_step_inv in Hstep as (pc & s' & pc' & Ht & Hs & ->).
  destruct ch, pc; simpl in Hs; try discriminate Hs.
  - edestruct bar_arrive as (a' & l' & ? & ? & ?); [exact Hn|exact HR|exact Ht|lia|exact Hs|]. exists a', l'. split_and!; [done..|lia].
  - destruct (bar_wait_go _ _ _ _ _ _ _ _ _ _ HR Ht Hs) as (l' & ? & ?). exists a, l'. split_and!; [done..|lia].
  - destruct (bar_wake_go _ _ _ _ _ _ _ _ _ _ Hn HR Ht Hs) as (a' & l' & ? & ? & ?). exists a', l'. split_and!; [done..|lia].
Qed.

Lemma bar_init_rel n count : 0 < count -> bar_rel n count (bar_init n count) (0, 0) [].
Proof.
  intros Hc. assert (forall f, f BIdle = 0%nat -> sum_list_with f (replicate n BIdle) = 0%nat) as Hz.
  { intros f Hf. induction n as [|k IH]; [done|]. simpl. lia. }
  unfold bar_init. split; simpl; rewrite ?Hz by done; simpl; try lia; try done.
  - apply length_replicate.
  - apply wq_init_spec.
  - apply wq_inv_init. intros t. unfold bar_waits.
    destruct (replicate n BIdle !! t) eqn:E; [|done]. by apply lookup_replicate in E as [-> _].
  - by intros t k [? _]%lookup_replicate.
Qed.

Lemma bar_run_rel n count ls c evs : (1 <= n)%nat /\ Z.of_nat n <= count < 2 ^ 31 -> Z.of_nat (length ls) < 2 ^ 64 ->
  run bar_step ls (bar_init n count) = Some (c, evs) ->
  exists a l, spec_run (bar_spec count) evs (0, 0) = Some a /\ bar_rel n count c a l.
Proof.
  intros Hn Hb Hrun.
  destruct (run_simulation bar_step (bar_spec count) (2 ^ 64) (fun k c a => exists l, bar_rel n count c a l /\ a.1 <= k))
    with (ls := ls) (n := 0) (s := bar_init n count) (s' := c) (evs := evs) (a := (0, 0))
    as (a & Hs & l & HR & _); eauto.
  - intros k lbl s s' e a Hk (l & HR & Ha) Hs.
    destruct (bar_simulation n count k lbl s s' e a l Hn Hk HR Ha Hs) as (a' & l' & ? & ? & ?). eauto.
  - exists []. split; [apply bar_init_rel; lia|done].
Qed.

(** ** The barrier property

    Every fiber's arrivals and returns; a fiber may return from its wait only
    when all the fibers have arrived as often as it has. *)
Definition rounds_spec (e : bar_ev) (r : list (Z * Z)) : option (list (Z * Z)) :=
  match e with
  | EvArrive t _ => Some (alter (fun x => (x.1 + 1, x.2)) t r)
  | EvRelease _ => Some r
  | EvLeave t =>
      x ← r !! t;
      if forallb (fun y => Z.leb (x.2 + 1) y.1) r then Some (<[t:=(x.1, x.2 + 1)]> r) else None
  end.

Definition inside (pc : bar_pc) : Z := match pc with BIdle => 0 | _ => 1 end.

(** Two fibers: how many more arrivals the first has, by where they are. *)
Definition two_ok (p0 p1 : bar_pc) (ready : list nat) (d : Z) : Prop :=
  match p0, p1 with
  | BIdle, BIdle => d = 0
  | BWait _, BIdle => d = if decide (0%nat ∈ ready) then 0 else 1
  | BIdle, BWait _ => d = if decide (1%nat ∈ ready) then 0 else -1
  | BWait _, BWait _ => (0%nat ∈ ready /\ (1%nat ∉ ready) /\ d = -1) \/ (1%nat ∈ ready /\ (0%nat ∉ ready) /\ d = 1)
  | BWake k, BWait _ | BWait _, BWake k => k = 0 /\ ready = [] /\ d = 0
  | _, _ => False
  end.

Definition two_rel (c : bar_conf) (r : list (Z * Z)) : Prop :=
  exists p0 p1 a0 a1, threads c = [p0; p1] /\ r = [(a0, a0 - inside p0); (a1, a1 - inside p1)] /\
    b_counter (shared c) = a0 + a1 /\ two_ok p0 p1 (b_ready (shared c)) (a0 - a1).

Lemma two_eq (a b c d a' b' c' d' : Z) : a = a' -> b = b' -> c = c' -> d = d' -> [(a, b); (c, d)] = [(a', b'); (c', d')].
Proof. congruence. Qed.

(** Whom the waking fiber pops: the other one. *)
Lemma two_pop c a l t k : bar_rel 2 2 c a l -> threads c !! t = Some (BWake k) ->
  wq_trypop (b_waiters (shared c)) = Some (None, b_waiters (shared c)) \/
  exists g q w, wq_trypop (b_waiters (shared c)) = Some (Some g, q) /\ threads c !! g = Some (BWait w) /\ g <> t.
Proof.
  intros HR Ht. pose proof (br_wq _ _ _ _ _ HR) as Hq. destruct l as [|[g []] l].
  1,3: left; eapply wq_pop_empty; [apply HR|naive_solver].
  right. destruct (wq_pop_spec _ _ _ _ (br_repr _ _ _ _ _ HR)) as (q & E & _).
  assert (bar_waits (threads c) g = Some WParked) as Hg by (apply (wqi_park _ _ _ Hq); left; left).
  unfold bar_waits in Hg. destruct (threads c !! g) as [pg|] eqn:Eg; [|done].
  destruct pg as [|w|]; simplify_eq/=. exists g, q, WParked. split_and!; [done..|]. intros ->. congruence.
Qed.

(** The woken fibers are waiting. *)
Lemma bar_ready_waits n count c a l x : bar_rel n count c a l -> x ∈ b_ready (shared c) ->
  threads c !! x = Some (BWait WParked).
Proof.
  intros HR Hx. assert (bar_waits (threads c) x = Some WParked) as Hw by (apply (wqi_park _ _ _ (br_wq _ _ _ _ _ HR)); auto).
  unfold bar_waits in Hw. destruct (threads c !! x) as [[]|]; by simplify_eq/=.
Qed.

Lemma two_arrive c r a l t s' pc' evs : two_rel c r -> bar_rel 2 2 c a l -> b_counter (shared c) < 2 ^ 64 - 1 ->
  threads c !! t = Some BIdle -> fiber_barrier_wait t (shared c) BIdle = Some (s', pc', evs) ->
  exists r', spec_run rounds_spec evs r = Some r' /\ two_rel (Conf s' (<[t:=pc']> (threads c))) r'.
Proof.
  intros (p0 & p1 & a0 & a1 & Eth & -> & Ec & Hok) HR Hb Ht Hs. pose proof (fun x => bar_ready_waits _ _ _ _ _ x HR) as Hrd.
  destruct (br_counter _ _ _ _ _ HR) as [E0 H0]. rewrite <- E0 in H0. pose proof (br_count _ _ _ _ _ HR) as H2. rewrite Eth in *.
  cbn [fiber_barrier_wait] in Hs. rewrite H2, u64_small, Ec in Hs by lia.
  assert (t = 0 \/ t = 1)%nat as Ht' by (apply lookup_lt_Some in Ht; simpl in Ht; lia).
  assert (forall x b, x = 2 * b -> Z.eqb ((x + 1) mod 2) 0 = false) as Hev.
  { intros x b ->. apply Z.eqb_neq. rewrite <- Zplus_mod_idemp_l, Z.mul_comm, Z.mod_mul by lia. done. }
  assert (forall x b, x = 2 * b - 1 -> Z.eqb ((x + 1) mod 2) 0 = true) as Hod.
  { intros x b ->. apply Z.eqb_eq. replace (2 * b - 1 + 1) with (b * 2) by lia. apply Z.mod_mul. lia. }
  assert (t ∉ b_ready (shared c)) as Hout by (intros Hx%Hrd; congruence).
  assert (forall x, x ∈ b_ready (shared c) -> x = 0 \/ x = 1)%nat as H01.
  { intros x Hx%Hrd%lookup_lt_Some. simpl in Hx. lia. }
  assert ((0%nat ∉ b_ready (shared c)) -> (1%nat ∉ b_ready (shared c)) -> b_ready (shared c) = []) as Hnil.
  { intros N0 N1. destruct (b_ready (shared c)) as [|x rd]; [done|]. destruct (H01 x) as [-> | ->]; set_solver. }
  destruct Ht' as [-> | ->]; simplify_eq/=.
  - destruct p1 as [|w|k]; simpl in Hok; [|case_decide|done].
    + rewrite (Hev _ a1) in Hs by lia. simplify_eq. eexists. split; [done|].
      exists (BWait WPush), BIdle, (a0 + 1), a1. simpl. rewrite decide_False by done. split_and!; [done|apply two_eq; simpl; lia|lia|lia].
    + rewrite (Hev _ a1) in Hs by lia. simplify_eq. eexists. split; [done|].
      exists (BWait WPush), (BWait w), (a0 + 1), a1. simpl. split_and!; [done|apply two_eq; simpl; lia|lia|right; split_and!; [done..|lia]].
    + rewrite (Hod _ a1) in Hs by lia. simplify_eq. eexists. split; [done|].
      exists (BWake 0), (BWait w), (a0 + 1), a1. simpl. split_and!; [done|apply two_eq; simpl; lia|lia|done|by apply Hnil|lia].
  - destruct p0 as [|w|k]; simpl in Hok; [|case_decide|done].
    + rewrite (Hev _ a1) in Hs by lia. simplify_eq. eexists. split; [done|].
      exists BIdle, (BWait WPush), a0, (a1 + 1). simpl. rewrite decide_False by done. split_and!; [done|apply two_eq; simpl; lia|lia|lia].
    + rewrite (Hev _ a1) in Hs by lia. simplify_eq. eexists. split; [done|].
      exists (BWait w), (BWait WPush), a0, (a1 + 1). simpl. split_and!; [done|apply two_eq; simpl; lia|lia|left; split_and!; [done..|lia]].
    + rewrite (Hod _ (a1 + 1)) in Hs by lia. simplify_eq. eexists. split; [done|].
      exists (BWait w), (BWake 0), a0, (a1 + 1). simpl. split_and!; [done|apply two_eq; simpl; lia|lia|done|by apply Hnil|lia].
Qed.

Lemma two_leave r t x p0 p1 a0 a1 : r = [(a0, a0 - inside p0); (a1, a1 - inside p1)] -> r !! t = Some x ->
  x.2 + 1 <= a0 -> x.2 + 1 <= a1 -> spec_run rounds_spec [EvLeave t] r = Some (<[t:=(x.1, x.2 + 1)]> r).
Proof.
  intros -> Hx H0 H1. cbn [spec_run rounds_spec]. rewrite Hx. simpl.
  by rewrite (proj2 (Z.leb_le _ _) H0), (proj2 (Z.leb_le _ _) H1).
Qed.

(** A woken fiber returns. *)
Lemma two_resume c r t s' pc' evs : two_rel c r -> threads c !! t = Some (BWait WParked) ->
  fiber_barrier_wait t (shared c) (BWait WParked) = Some (s', pc', evs) ->
  exists r', spec_run rounds_spec evs r = Some r' /\ two_rel (Conf s' (<[t:=pc']> (threads c))) r'.
Proof.
  intros (p0 & p1 & a0 & a1 & Eth & -> & Ec & Hok) Ht Hs. rewrite Eth in *.
  assert (t = 0 \/ t = 1)%nat as Ht' by (apply lookup_lt_Some in Ht; simpl in Ht; lia).
  assert (forall i x, i ∈ take_ready x (b_ready (shared c)) <-> i <> x /\ i ∈ b_ready (shared c)) as Htk.
  { intros i x. unfold take_ready. by rewrite list_elem_of_filter. }
  cbn [fiber_barrier_wait] in Hs. case_decide as Hin; [|done]. injection Hs as <- <- <-.
  destruct Ht' as [-> | ->]; simplify_eq/=.
  - destruct p1 as [|w|k]; simpl in Hok; [rewrite decide_True in Hok by done| |destruct Hok as (_ & Er & _); rewrite Er in Hin; by apply elem_of_nil in Hin].
    + eexists. split; [refine (two_leave _ 0 _ (BWait WParked) BIdle a0 a1 eq_refl eq_refl _ _); simpl; lia|].
      exists BIdle, BIdle, a0, a1. split_and!; [done|apply two_eq; simpl; lia|done|done].
    + assert ((1%nat ∉ b_ready (shared c)) /\ a0 - a1 = -1) as [? ?] by naive_solver.
      eexists. split; [refine (two_leave _ 0 _ (BWait WParked) (BWait w) a0 a1 eq_refl eq_refl _ _); simpl; lia|].
      exists BIdle, (BWait w), a0, a1. simpl. rewrite decide_False by (rewrite Htk; naive_solver).
      split_and!; [done|apply two_eq; simpl; lia|done|done].
  - destruct p0 as [|w|k]; simpl in Hok; [rewrite decide_True in Hok by done| |destruct Hok as (_ & Er & _); rewrite Er in Hin; by apply elem_of_nil in Hin].
    + eexists. split; [refine (two_leave _ 1 _ BIdle (BWait WParked) a0 a1 eq_refl eq_refl _ _); simpl; lia|].
      exists BIdle, BIdle, a0, a1. split_and!; [done|apply two_eq; simpl; lia|done|done].
    + assert ((0%nat ∉ b_ready (shared c)) /\ a0 - a1 = 1) as [? ?] by naive_solver.
      eexists. split; [refine (two_leave _ 1 _ (BWait w) (BWait WParked) a0 a1 eq_refl eq_refl _ _); simpl; lia|].
      exists (BWait w), BIdle, a0, a1. simpl. rewrite decide_False by (rewrite Htk; naive_solver).
      split_and!; [done|apply two_eq; simpl; lia|done|done].
Qed.

(** The waking fiber finds the other one, and both rounds are complete. *)
Lemma two_wake c r a l t k s' pc' evs : two_rel c r -> bar_rel 2 2 c a l ->
  threads c !! t = Some (BWake k) -> fiber_barrier_wait t (shared c) (BWake k) = Some (s', pc', evs) ->
  exists r', spec_run rounds_spec evs r = Some r' /\ two_rel (Conf s' (<[t:=pc']> (threads c))) r'.
Proof.
  intros (p0 & p1 & a0 & a1 & Eth & -> & Ec & Hok) HR Ht Hs. pose proof (two_pop c a l t k HR Ht) as Hpop.
  pose proof (br_count _ _ _ _ _ HR) as H2. rewrite Eth in *.
  assert (t = 0 \/ t = 1)%nat as Ht' by (apply lookup_lt_Some in Ht; simpl in Ht; lia).
  assert (k = 0 /\ b_ready (shared c) = [] /\ a0 = a1) as (-> & Hr & <-).
  { destruct Ht' as [-> | ->]; simplify_eq/=; [destruct p1|destruct p0]; simpl in Hok; try done;
      (destruct Hok as (? & ? & ?); split_and!; [done|done|lia]). }
  cbn [fiber_barrier_wait] in Hs. unfold fiber_manager_wake_from_mpsc_queue in Hs. rewrite H2, Hr in Hs.
  destruct Hpop as [E|(g & q & w0 & E & Hg & Hgt)]; rewrite E in Hs; cbn in Hs; injection Hs as <- <- <-.
  - eexists. split; [done|]. rewrite list_insert_id by done.
    exists p0, p1, a0, a0. split_and!; try done. cbn [b_ready shared]. by rewrite Hr in Hok.
  - destruct Ht' as [-> | ->]; simplify_eq/=; destruct g as [|[|g]]; simplify_eq/=.
    + eexists. split; [refine (two_leave _ 0 _ (BWake 0) (BWait w0) a0 a0 eq_refl eq_refl _ _); simpl; lia|].
      exists BIdle, (BWait w0), a0, a0. split_and!; [done|apply two_eq; simpl; lia|done|simpl; lia].
    + eexists. split; [refine (two_leave _ 1 _ (BWait w0) (BWake 0) a0 a0 eq_refl eq_refl _ _); simpl; lia|].
      exists (BWait w0), BIdle, a0, a0. split_and!; [done|apply two_eq; simpl; lia|done|simpl; lia].
Qed.

Lemma two_simulation k lbl c c' evs r : k + 1 < 2 ^ 64 ->
  two_rel c r /\ (exists a l, bar_rel 2 2 c a l /\ a.1 <= k) -> bar_step lbl c = Some (c', evs) ->
  exists r', spec_run rounds_spec evs r = Some r' /\ two_rel c' r' /\ exists a l, bar_rel 2 2 c' a l /\ a.1 <= k + 1.
Proof.
  intros Hk (H2 & a & l & HR & Ha) Hstep.
  destruct (bar_simulation 2 2 k lbl c c' evs a l ltac:(lia) Hk HR Ha Hstep) as (a' & l' & _ & HR' & Ha').
  enough (exists r', spec_run rounds_spec evs r = Some r' /\ two_rel c' r') as (r' & ? & ?) by eauto 10.
  destruct lbl as [t ch]. apply conf_step_inv in Hstep as (pc & s' & pc' & Ht & Hs & ->).
  pose proof (proj1 (br_counter _ _ _ _ _ HR)) as Hc.
  destruct ch, pc as [|w|]; simpl in Hs; try discriminate Hs.
  - eapply two_arrive; eauto. lia.
  - destruct (decide (w = WParked)) as [->|Hw]; [by eapply two_resume|].
    assert (exists q w', s' = BShared (b_count (shared c)) (b_counter (shared c)) q (b_ready (shared c)) /\ pc' = BWait w' /\ evs = [])
      as (q & w' & -> & -> & ->).
    { destruct w; [| |done]; cbn [fiber_barrier_wait] in Hs; apply bind_Some in Hs as ([q w'] & _ & [= <- <- <-]); eauto. }
    exists r. split; [done|]. destruct H2 as (p0 & p1 & a0 & a1 & Eth & -> & Ec & Hok). rewrite Eth in *.
    destruct t as [|[|t]]; simplify_eq/=; [exists (BWait w'), p1, a0, a1|exists p0, (BWait w'), a0, a1]; done.
  - by eapply two_wake.
Qed.

(** ** Properties *)


(** Two fibers that use a barrier of two never get ahead of each other:
    a fiber returns from its [k]-th wait only after the other one has arrived
    for the [k]-th time. *)
Theorem barrier_two_fibers ls c evs : Z.of_nat (length ls) < 2 ^ 64 ->
  run bar_step ls (bar_init 2 2) = Some (c, evs) ->
  is_Some (spec_run rounds_spec evs [(0, 0); (0, 0)]).
Proof.
  intros Hb Hrun.
  destruct (run_simulation bar_step rounds_spec (2 ^ 64)
    (fun k c r => two_rel c r /\ exists a l, bar_rel 2 2 c a l /\ a.1 <= k))
    with (ls := ls) (n := 0) (s := bar_init 2 2) (s' := c) (evs := evs) (a := [(0, 0); (0, 0)])
    as (r & Hs & _); eauto.
  - intros k lbl s s' e a Hk HR Hs. by eapply two_simulation.
  - split; [by exists BIdle, BIdle, 0, 0|]. exists (0, 0), []. split; [by apply bar_init_rel|done].
Qed.
(** A fiber in the middle of a push can move. *)
Lemma bar_push_moves n count c a l u w : bar_rel n count c a l -> threads c !! u = Some (BWait w) -> w <> WParked ->
  exists c' e, bar_step (u, BGo) c = Some (c', e) /\ c' <> c.
Proof.
  intros HR Hu Hw. pose proof (br_wq _ _ _ _ _ HR) as Hq. pose proof (br_repr _ _ _ _ _ HR) as Hr.
  assert (bar_waits (threads c) u = Some w) as Hwt by (unfold bar_waits; by rewrite Hu).
  assert (u < n)%nat as Hun by (rewrite <- (br_len _ _ _ _ _ HR); by eapply lookup_lt_Some).
  unfold bar_step, conf_step. cbn [fst snd]. rewrite Hu. cbn [mbind option_bind bar_tstep fiber_barrier_wait fiber_manager_wait_in_mpsc_queue].
  destruct w; [| |done].
  - destruct (wqi_absent _ _ _ _ Hq (or_intror Hwt)) as [Hl _].
    destruct (wq_xchg_spec n _ l u Hr Hun Hl) as (q' & E & _). simpl. rewrite E. do 2 eexists. split; [done|]. by eapply conf_changed.
  - apply (wqi_link _ _ _ Hq), list_elem_of_split in Hwt as (l1 & l2 & El). rewrite El in Hr.
    destruct (wq_link_spec n _ l1 l2 u Hr) as (q' & E & _). simpl. rewrite E. do 2 eexists. split; [done|]. by eapply conf_changed.
Qed.

(** A fiber that wakes, with all the waiters in the queue, moves on. *)
Lemma bar_waker_moves n c arr ow l u k : (1 <= n)%nat -> Z.of_nat n < 2 ^ 31 ->
  bar_rel n (Z.of_nat n) c (arr, ow) l -> b_ready (shared c) = [] -> threads c !! u = Some (BWake k) ->
  (forall v w, threads c !! v = Some (BWait w) -> w = WParked) ->
  exists c' e, bar_step (u, BGo) c = Some (c', e) /\ c' <> c.
Proof.
  intros H1 Hn HR Er Hu Hpk. pose proof (br_wq _ _ _ _ _ HR) as Hq. rewrite Er in Hq.
  pose proof (br_balance _ _ _ _ _ HR) as Hbal. rewrite Er in Hbal. simpl in Hbal.
  destruct (br_wakes _ _ _ _ _ HR _ _ Hu) as [Hk Hk'].
  unfold bar_step, conf_step. cbn [fst snd]. rewrite Hu.
  cbn [mbind option_bind bar_tstep fiber_barrier_wait]. unfold fiber_manager_wake_from_mpsc_queue.
  rewrite (br_count _ _ _ _ _ HR), i32_small by lia. destruct l as [|[g b] l].
  - rewrite (wq_pop_empty n _ [] (br_repr _ _ _ _ _ HR)) by done. simpl.
    destruct (Z.ltb_spec k (Z.of_nat n - 1)); [|do 2 eexists; split; [done|by eapply conf_changed]].
    exfalso. pose proof (sum_list_with_lookup (b_owes (Z.of_nat n)) _ _ _ Hu) as Hle. simpl in Hle.
    pose proof (br_owed _ _ _ _ _ HR) as Ho. simpl in Ho. pose proof (Z.mod_pos_bound arr (Z.of_nat n)).
    assert (0 < sum_list_with b_waiting (threads c))%nat as (v & pv & Hv & Hpv)%sum_list_with_pos by lia.
    destruct pv as [|w|]; simpl in Hpv; try lia. pose proof (Hpk _ _ Hv) as ->.
    assert (bar_waits (threads c) v = Some WParked) as Hwv by (unfold bar_waits; by rewrite Hv).
    apply (wqi_park _ _ _ Hq) in Hwv. rewrite !elem_of_nil in Hwv. naive_solver.
  - destruct b.
    + destruct (wq_pop_spec _ _ _ _ (br_repr _ _ _ _ _ HR)) as (q & E & _). rewrite E. simpl.
      destruct (Z.ltb_spec (k + 1) (Z.of_nat n - 1)); do 2 eexists; (split; [done|]); eapply conf_changed; try done.
      intros [= ?]. lia.
    + assert (bar_waits (threads c) g = Some WLink) as Hg by (apply (wqi_link _ _ _ Hq); left).
      unfold bar_waits in Hg. destruct (threads c !! g) as [[|w|]|] eqn:Eg; simplify_eq/=. by pose proof (Hpk _ _ Eg).
Qed.

(** Not all the fibers can be waiting with nobody woken and nobody waking. *)
Lemma bar_not_all_waiting n c arr ow l : (1 <= n)%nat -> bar_rel n (Z.of_nat n) c (arr, ow) l ->
  b_ready (shared c) = [] -> (forall t pc, threads c !! t = Some pc -> pc <> BIdle) ->
  (0 < sum_list_with b_waking (threads c))%nat.
Proof.
  intros H1 HR Er Hin. destruct (decide (sum_list_with b_waking (threads c) = 0)%nat) as [Hz|Hz]; [|lia]. exfalso.
  pose proof (br_balance _ _ _ _ _ HR) as Hbal. rewrite Er in Hbal. simpl in Hbal.
  assert (sum_list_with b_waiting (threads c) = n) as Hall.
  { rewrite <- (br_len _ _ _ _ _ HR). clear -Hin Hz. induction (threads c) as [|p ths IH]; [done|]. simpl in *.
    pose proof (Hin 0%nat p eq_refl). rewrite IH; [destruct p; simpl in *; try done; lia|intros t pc Ht; by apply (Hin (S t))|lia]. }
  assert (ow = 0) as ->.
  { rewrite (br_owed _ _ _ _ _ HR : ow = _). clear -Hz. induction (threads c) as [|p ths IH]; [done|]. simpl in *.
    destruct p; simpl in *; lia. }
  pose proof (Z.mod_pos_bound arr (Z.of_nat n)). lia.
Qed.

(** No deadlock.  When exactly [count] fibers use the barrier and all of them
    are inside [fiber_barrier_wait], some fiber can take a step that changes the
    state: a waiter that is still entering the queue or has been woken, or the
    fiber that completed the round. *)
Theorem barrier_no_deadlock n ls c evs : (1 <= n)%nat -> Z.of_nat n < 2 ^ 31 -> Z.of_nat (length ls) < 2 ^ 64 ->
  run bar_step ls (bar_init n (Z.of_nat n)) = Some (c, evs) ->
  (forall t pc, threads c !! t = Some pc -> pc <> BIdle) ->
  exists u c' e, bar_step (u, BGo) c = Some (c', e) /\ c' <> c.
Proof.
  intros H1 Hn Hb Hrun Hin.
  destruct (bar_run_rel n (Z.of_nat n) ls c evs) as ([arr ow] & l & _ & HR); [lia|done|done|].
  destruct (b_ready (shared c)) as [|u rd] eqn:Er.
  2: { assert (u ∈ b_ready (shared c)) as Hu by (rewrite Er; by left). pose proof (bar_ready_waits _ _ _ _ _ u HR Hu) as Hp.
    exists u. unfold bar_step, conf_step. cbn [fst snd]. rewrite Hp. simpl. rewrite decide_True by done.
    do 2 eexists. split; [done|]. by eapply conf_changed. }
  destruct (decide (Exists (fun p => p = BWait WPush \/ p = BWait WLink) (threads c))) as [Hex|Hno].
  { apply Exists_exists in Hex as (p & [u Hu]%list_elem_of_lookup & Hp). exists u.
    destruct Hp as [-> | ->]; by eapply bar_push_moves. }
  pose proof (bar_not_all_waiting _ _ _ _ _ H1 HR Er Hin) as (u & p & Hu & Hp)%sum_list_with_pos.
  destruct p as [| |k]; simpl in Hp; try lia. exists u. apply (bar_waker_moves n c arr ow l u k); try done.
  intros v w Hv. destruct w; [| |done]; destruct Hno; apply Exists_exists; eexists; (split; [by eapply list_elem_of_lookup_2|auto]).
Qed.

(** Destruction.  When every fiber is outside the barrier, destroying it frees
    one node, the dummy of its queue, and none that a fiber still has. *)
Theorem barrier_destroy_frees n count ls c evs : (1 <= n)%nat -> Z.of_nat n <= count < 2 ^ 31 ->
  Z.of_nat (length ls) < 2 ^ 64 -> run bar_step ls (bar_init n count) = Some (c, evs) ->
  (forall t pc, threads c !! t = Some pc -> pc = BIdle) ->
  exists dummy, fiber_barrier_destroy (shared c) = Some [dummy] /\ dummy ∉ wq_kept (b_waiters (shared c)).
Proof.
  intros H1 Hn Hb Hrun Hid. destruct (bar_run_rel _ _ _ _ _ (conj H1 Hn) Hb Hrun) as (a & l & _ & HR).
  destruct (wqi_nobody _ _ _ (br_wq _ _ _ _ _ HR)) as [-> _].
  { intros t. unfold bar_waits. destruct (threads c !! t) eqn:E; [|done]. by rewrite (Hid _ _ E). }
  apply (wq_destroy_spec _ _ (br_repr _ _ _ _ _ HR)).
Qed.

End barrier.

(** ** Runs over the queue of [mpsc_fifo.h] *)

Definition go (t k : nat) : list (nat * bar_choice) := replicate k (t, BGo).

(** Two fibers: 0 arrives and parks, 1 completes the round and wakes it. *)
Definition bar_demo : list (nat * bar_choice) :=
  [(0%nat, BCall)] ++ go 0 2 ++ [(1%nat, BCall)] ++ go 1 1 ++ go 0 1.

(** Three fibers: 0 has arrived but not queued itself; 1 waits; 2 completes the
    round and wakes 1, which arrives again; 2 takes it a second time. *)
Definition bar_overtake : list (nat * bar_choice) :=
  [(0%nat, BCall); (1%nat, BCall)] ++ go 1 2 ++ [(2%nat, BCall)] ++ go 2 1 ++ go 1 1 ++
  [(1%nat, BCall)] ++ go 1 2 ++ go 2 1 ++ go 1 1.

(** The barrier does not hold back three fibers: in a run of three fibers on
    a barrier of three, one returns from its second wait while the others have
    arrived once only, since a fiber that is slow to enter the queue is overtaken
    by a fiber of the next round. *)
Theorem barrier_overtaken : exists (c : bar_conf (Q := mpsc_queue)) evs,
  run bar_step bar_overtake (bar_init 3 3) = Some (c, evs) /\
  length (filter (fun e => e = EvLeave 1%nat) evs) = 2%nat /\
  b_counter (shared c) = 4 /\
  spec_run rounds_spec evs (replicate 3 (0, 0)) = None.
Proof. do 2 eexists. split_and!; vm_compute; reflexivity. Qed.


Lemma barrier_two_fibers_witness :
  is_Some (spec_run rounds_spec [EvArrive 0 false; EvArrive 1 true; EvRelease 0; EvLeave 1; EvLeave 0]%nat [(0, 0); (0, 0)]).
Proof.
  eapply (barrier_two_fibers (Q := mpsc_queue) bar_demo); [vm_compute; reflexivity|vm_compute; reflexivity].
Defined.

(** Both fibers are inside when the second has just arrived. *)
Lemma barrier_no_deadlock_witness : exists c : bar_conf (Q := mpsc_queue),
  run bar_step [(0%nat, BCall); (1%nat, BCall)] (bar_init 2 2) = Some (c, [EvArrive 0 false; EvArrive 1 true]%nat) /\
  exists u c' e, bar_step (u, BGo) c = Some (c', e) /\ c' <> c.
Proof.
  eexists. split; [vm_compute; reflexivity|].
  eapply (barrier_no_deadlock 2 [(0%nat, BCall); (1%nat, BCall)]);
    [lia|lia|vm_compute; reflexivity|vm_compute; reflexivity|].
  intros [|[|t]] pc Ht; simpl in Ht; [| |discriminate Ht]; injection Ht as <-; discriminate.
Defined.

Lemma barrier_destroy_frees_witness : exists (c : bar_conf (Q := mpsc_queue)) evs dummy,
  run bar_step bar_demo (bar_init 2 2) = Some (c, evs) /\
  fiber_barrier_destroy (shared c) = Some [dummy] /\ dummy ∉ wq_kept (b_waiters (shared c)).
Proof.
  edestruct (barrier_destroy_frees (Q := mpsc_queue) 2 2 bar_demo) as (x & H);
    [lia|lia|vm_compute; reflexivity|vm_compute; reflexivity| |do 2 eexists; exists x; split; [vm_compute; reflexivity|exact H]].
  intros [|[|t]] pc Ht; simpl in Ht; [| |discriminate Ht]; injection Ht as <-; reflexivity.
Defined.
