(* ===== verification/Cond.v ===== *)
(** * Condition variables ([src/fiber_cond.c], [include/fiber_cond.h])

    A wait counts itself, queues itself and gives the caller's mutex up after the
    switch; a signal or a broadcast, under the internal mutex, takes waiters off
    the count and pops that many fibers from the queue.  The two mutexes are the
    abstract locks that [Mutex] shows [fiber_mutex] to refine; the queue is any
    [WaitQueue].  Fibers call wait with the mutex held and signal or broadcast
    with or without it. *)

From S2P Require Import Prelude MpscFifo WaitQueue.

Section cond.
Context {Q : Type} `{WaitQueue Q}.

(** ** State *)

(** [fiber_cond_t], the holder of the caller's mutex, and the run queue. *)
Record cond_shared := CShared {
  cv_mutex : option nat;
  cv_count : Z;
  cv_waiters : Q;
  cv_internal : option nat;
  cv_ready : list nat
}.

(** [held]: the caller of signal or broadcast holds the mutex. *)
Inductive cond_pc :=
| CIdle
| CHeld
| CCount                                        (* wait: before the increment *)
| CWait (w : wait_pc)                           (* in the queue, or entering it *)
| CRelease                                      (* the maintenance is to unlock the mutex *)
| CRelock                                       (* woken: fiber_mutex_lock *)
| CSigLock (held : bool)                        (* signal: before the internal mutex *)
| CSub (held : bool)
| CAdd (held : bool)
| CBcLock (held : bool)                         (* broadcast: likewise *)
| CXchg (held : bool)
| CWake (held : bool) (count wake_count : Z)    (* in fiber_manager_wake_from_mpsc_queue *)
| CUnlock (held : bool).                        (* before the unlock of the internal mutex *)

#[export] Instance cond_pc_eq_dec : EqDecision cond_pc.
Proof. solve_decision. Defined.

Inductive cond_choice := CallLock | CallUnlock | CallWait | CallSignal | CallBroadcast | CGo.

Inductive cond_ev := EvWait (t : nat) | EvSignal (t : nat) | EvBroadcast (t : nat) | EvWoken (f : nat).

(** ** Operations *)

Definition fiber_cond_init (n : nat) : cond_shared := CShared None 0 (wq_init n) None [].

Definition set_mutex (s : cond_shared) (m : option nat) : cond_shared :=
  CShared m (cv_count s) (cv_waiters s) (cv_internal s) (cv_ready s).
Definition set_count (s : cond_shared) (v : Z) : cond_shared :=
  CShared (cv_mutex s) v (cv_waiters s) (cv_internal s) (cv_ready s).
Definition set_internal (s : cond_shared) (m : option nat) : cond_shared :=
  CShared (cv_mutex s) (cv_count s) (cv_waiters s) m (cv_ready s).
Definition set_queue (s : cond_shared) (q : Q) (r : list nat) : cond_shared :=
  CShared (cv_mutex s) (cv_count s) q (cv_internal s) r.

(** The program point a signal or broadcast returns to. *)
Definition back (held : bool) : cond_pc := if held then CHeld else CIdle.

(** Loading the program point after an abstract lock or unlock. *)
Definition take_lock (m : option nat) (t : nat) : option (option nat) := if decide (m = None) then Some (Some t) else None.
Definition give_lock (m : option nat) (t : nat) : option (option nat) := if decide (m = Some t) then Some None else None.

Definition fiber_cond_wait (t : nat) (s : cond_shared) (pc : cond_pc)
    : option (cond_shared * cond_pc * list cond_ev) :=
  match pc with
  | CCount => Some (set_count s (i64 (cv_count s + 1)), CWait WPush, [EvWait t])
  | CWait WParked =>
      if decide (t ∈ cv_ready s)
      then Some (set_queue s (cv_waiters s) (take_ready t (cv_ready s)), CRelock, []) else None
  | CWait w =>
      '(q, w') ← fiber_manager_wait_in_mpsc_queue t w (cv_waiters s);
      Some (set_queue s q (cv_ready s), if decide (w' = WParked) then CRelease else CWait w', [])
  | CRelease => m ← give_lock (cv_mutex s) t; Some (set_mutex s m, CWait WParked, [])
  | CRelock => m ← take_lock (cv_mutex s) t; Some (set_mutex s m, CHeld, [])
  | _ => None
  end.

(** The loop of [fiber_manager_wake_from_mpsc_queue] and the unlock that follow
    in both functions. *)
Definition cond_wake (t : nat) (s : cond_shared) (pc : cond_pc)
    : option (cond_shared * cond_pc * list cond_ev) :=
  match pc with
  | CWake b count wake_count =>
      '(q, ready, again) ← fiber_manager_wake_from_mpsc_queue (i32 count) wake_count (cv_waiters s) (cv_ready s);
      Some (set_queue s q ready, match again with Some wc => CWake b count wc | None => CUnlock b end,
            EvWoken <$> drop (length (cv_ready s)) ready)
  | CUnlock b => m ← give_lock (cv_internal s) t; Some (set_internal s m, back b, [])
  | _ => None
  end.

Definition fiber_cond_signal (t : nat) (s : cond_shared) (pc : cond_pc)
    : option (cond_shared * cond_pc * list cond_ev) :=
  match pc with
  | CSigLock b => m ← take_lock (cv_internal s) t; Some (set_internal s m, CSub b, [])
  | CSub b =>
      let new_val := i64 (cv_count s - 1) in
      Some (set_count s new_val, if Z.leb 0 new_val then CWake b 1 0 else CAdd b, [EvSignal t])
  | CAdd b =>
      let new_val := i64 (cv_count s + 1) in
      if Z.leb 0 new_val then Some (set_count s new_val, CUnlock b, []) else None
  | _ => cond_wake t s pc
  end.

Definition fiber_cond_broadcast (t : nat) (s : cond_shared) (pc : cond_pc)
    : option (cond_shared * cond_pc * list cond_ev) :=
  match pc with
  | CBcLock b => m ← take_lock (cv_internal s) t; Some (set_internal s m, CXchg b, [])
  | CXchg b =>
      let original := cv_count s in
      Some (set_count s 0, if Z.eqb original 0 then CUnlock b else CWake b original 0, [EvBroadcast t])
  | _ => cond_wake t s pc
  end.

Definition fiber_cond_destroy (s : cond_shared) : option (list Z) := wq_destroy (cv_waiters s).

Definition cond_tstep (t : nat) (ch : cond_choice) (s : cond_shared) (pc : cond_pc)
    : option (cond_shared * cond_pc * list cond_ev) :=
  match ch, pc with
  | CallLock, CIdle => m ← take_lock (cv_mutex s) t; Some (set_mutex s m, CHeld, [])
  | CallUnlock, CHeld => m ← give_lock (cv_mutex s) t; Some (set_mutex s m, CIdle, [])
  | CallWait, CHeld => Some (s, CCount, [])
  | CallSignal, CIdle => Some (s, CSigLock false, [])
  | CallSignal, CHeld => Some (s, CSigLock true, [])
  | CallBroadcast, CIdle => Some (s, CBcLock false, [])
  | CallBroadcast, CHeld => Some (s, CBcLock true, [])
  | CGo, (CCount | CWait _ | CRelease | CRelock) => fiber_cond_wait t s pc
  | CGo, (CSigLock _ | CSub _ | CAdd _) => fiber_cond_signal t s pc
  | CGo, (CBcLock _ | CXchg _ | CWake _ _ _ | CUnlock _) => fiber_cond_broadcast t s pc
  | _, _ => None
  end.

Definition cond_conf := conf cond_shared cond_pc.
Definition cond_step := conf_step cond_tstep.
Definition cond_init (n : nat) : cond_conf := Conf (fiber_cond_init n) (replicate n CIdle).

(** ** The abstract condition variable

    The fibers that were signalled and are still to be woken, and the fibers
    that wait, both oldest first. *)
Definition cond_spec (e : cond_ev) (a : list nat * list nat) : option (list nat * list nat) :=
  let '(claimed, waiting) := a in
  match e with
  | EvWait t => Some (claimed, waiting ++ [t])
  | EvSignal _ => match waiting with [] => Some a | x :: rest => Some (claimed ++ [x], rest) end
  | EvBroadcast _ => Some (claimed ++ waiting, [])
  | EvWoken f => match claimed with x :: rest => if decide (f = x) then Some (rest, waiting) else None | [] => None end
  end.

(** ** Invariant *)

Definition cond_wait_of (pc : cond_pc) : option wait_pc :=
  match pc with CWait w => Some w | CRelease => Some WParked | _ => None end.
Definition cond_waits (ths : list cond_pc) (t : nat) : option wait_pc := pc ← ths !! t; cond_wait_of pc.

(** Holding the caller's mutex; holding the internal one. *)
Definition has_mutex (pc : cond_pc) : bool :=
  match pc with
  | CHeld | CCount | CWait WPush | CWait WLink | CRelease => true
  | CSigLock b | CSub b | CAdd b | CBcLock b | CXchg b | CWake b _ _ | CUnlock b => b
  | _ => false
  end.
Definition has_internal (pc : cond_pc) : bool :=
  match pc with CSub _ | CAdd _ | CXchg _ | CWake _ _ _ | CUnlock _ => true | _ => false end.

(** Counted but not yet in the queue; waiters claimed; a decrement to undo. *)
Definition entering (pc : cond_pc) : bool := bool_decide (pc = CWait WPush).
Definition c_owes (pc : cond_pc) : nat := match pc with CWake _ count k => Z.to_nat (count - k) | _ => 0 end.
Definition c_undo (pc : cond_pc) : nat := match pc with CAdd _ => 1 | _ => 0 end.

Definition entrant (c : cond_conf) : list nat :=
  match cv_mutex (shared c) with
  | Some t => match threads c !! t with Some pc => if entering pc then [t] else [] | None => [] end
  | None => []
  end.

Record cond_rel (n : nat) (c : cond_conf) (a : list nat * list nat) (l : list (nat * bool)) : Prop := {
  cr_len : length (threads c) = n;
  cr_repr : wq_repr n (cv_waiters (shared c)) l;
  cr_wq : wq_inv l (cv_ready (shared c)) (cond_waits (threads c));
  cr_mutex : forall t pc, threads c !! t = Some pc -> has_mutex pc = true <-> cv_mutex (shared c) = Some t;
  cr_internal : forall t pc, threads c !! t = Some pc -> has_internal pc = true <-> cv_internal (shared c) = Some t;
  cr_fibers : a.1 ++ a.2 = l.*1 ++ entrant c;
  cr_count : cv_count (shared c) = Z.of_nat (length a.2) - Z.of_nat (sum_list_with c_undo (threads c));
  cr_owed : length a.1 = sum_list_with c_owes (threads c);
  cr_wakes : forall t b count k, threads c !! t = Some (CWake b count k) -> 0 <= k < count /\ count <= Z.of_nat n
}.
Lemma cond_waits_insert ths t pc pc' : ths !! t = Some pc ->
  upd_at t (cond_wait_of pc') (cond_waits ths) (cond_waits (<[t:=pc']> ths)).
Proof.
  intros Ht. unfold cond_waits. split.
  - by rewrite list_lookup_insert_eq by (by eapply lookup_lt_Some).
  - intros i Hi. by rewrite list_lookup_insert_ne.
Qed.

(** The waiting fibers are distinct and waiting. *)
Lemma cond_fibers_wait n c a l : cond_rel n c a l ->
  NoDup (a.1 ++ a.2) /\ forall t, t ∈ a.1 ++ a.2 -> exists w, cond_waits (threads c) t = Some w.
Proof.
  intros HR. rewrite (cr_fibers _ _ _ _ HR). pose proof (cr_wq _ _ _ _ HR) as Hq.
  assert (forall t, t ∈ entrant c -> cond_waits (threads c) t = Some WPush) as Hen.
  { intros t Ht. unfold entrant in Ht. destruct (cv_mutex (shared c)) as [u|]; [|by apply elem_of_nil in Ht].
    destruct (threads c !! u) as [pc|] eqn:Eu; [|by apply elem_of_nil in Ht].
    destruct (entering pc) eqn:E; [|by apply elem_of_nil in Ht]. apply list_elem_of_singleton in Ht as ->.
    unfold entering in E. apply bool_decide_eq_true in E. subst. unfold cond_waits. by rewrite Eu. }
  split.
  - apply NoDup_app. split_and!.
    + pose proof (wqi_nd _ _ _ Hq) as Hn. by apply NoDup_app in Hn as (? & _).
    + intros t H1 H2%Hen. by destruct (wqi_absent _ _ _ _ Hq (or_intror H2)).
    + unfold entrant. destruct (cv_mutex (shared c)); [|constructor]. case_match; [|constructor].
      case_match; [apply NoDup_singleton|constructor].
  - intros t [Ht|Ht%Hen]%elem_of_app; [|eauto]. apply elem_fst in Ht as [Ht|Ht].
    + apply (wqi_link _ _ _ Hq) in Ht. eauto.
    + assert (cond_waits (threads c) t = Some WParked) by (apply (wqi_park _ _ _ Hq); auto). eauto.
Qed.

(** Only the holder of the internal mutex has work on the count and the queue. *)
Lemma cond_internal_only n c a l t pc : cond_rel n c a l -> threads c !! t = Some pc -> has_internal pc = true ->
  sum_list_with c_undo (threads c) = c_undo pc /\ length a.1 = c_owes pc.
Proof.
  intros HR Ht Hi. rewrite (cr_owed _ _ _ _ HR). apply (cr_internal _ _ _ _ HR _ _ Ht) in Hi.
  split; apply (sum_single _ _ t); try done; intros i y Hy Hne; pose proof (cr_internal _ _ _ _ HR _ _ Hy) as Hx;
    destruct y; simpl in *; try done; destruct Hx as [Hx _]; specialize (Hx eq_refl); congruence.
Qed.

Lemma cond_undo_le n c a l : cond_rel n c a l -> (sum_list_with c_undo (threads c) <= 1)%nat.
Proof.
  intros HR. destruct (decide (0 < sum_list_with c_undo (threads c))%nat) as [(t & pc & Ht & Hp)%sum_list_with_pos|]; [|lia].
  destruct pc; simpl in Hp; try lia. by rewrite (proj1 (cond_internal_only _ _ _ _ _ _ HR Ht eq_refl)).
Qed.

(** The count is between -1 and the number of fibers. *)
Lemma cond_count_bounds n c a l : cond_rel n c a l ->
  (length a.1 + length a.2 <= n)%nat /\ - 1 <= cv_count (shared c) <= Z.of_nat n.
Proof.
  intros HR. pose proof (cond_undo_le _ _ _ _ HR) as Hu. pose proof (cr_count _ _ _ _ HR) as Hc.
  destruct (cond_fibers_wait _ _ _ _ HR) as [Hnd Hw].
  assert (length a.1 + length a.2 <= n)%nat as Hle; [|lia].
  rewrite <- length_app, <- (cr_len _ _ _ _ HR). etrans; [|apply (sum_list_with_le_length (fun _ => 1%nat)); lia].
  apply sum_covers; [done|]. intros t [w Ht]%Hw. unfold cond_waits in Ht.
  destruct (threads c !! t) as [pc|]; [|done]. eauto.
Qed.

(** ** Preservation *)

(** What a step of fiber [t] does to a lock: nothing, an acquisition, a release. *)
Definition lock_upd (t : nat) (h h' : bool) (m m' : option nat) : Prop :=
  (h = h' /\ m' = m) \/ (h = false /\ h' = true /\ m = None /\ m' = Some t) \/ (h = true /\ h' = false /\ m' = None).

Lemma lock_upd_ok (has : cond_pc -> bool) (ths : list cond_pc) t pc pc' m m' : ths !! t = Some pc ->
  (forall i p, ths !! i = Some p -> has p = true <-> m = Some i) -> lock_upd t (has pc) (has pc') m m' ->
  forall i p, <[t:=pc']> ths !! i = Some p -> has p = true <-> m' = Some i.
Proof.
  intros Ht Hm Hu i p Hi. pose proof (Hm _ _ Ht) as Hmt.
  apply lookup_insert_cases in Hi as [(-> & ->)|(Hne & Hi)].
  - destruct Hu as [(<- & ->)|[(E & -> & -> & ->)|(E & -> & ->)]]; [done|done|by split].
  - pose proof (Hm _ _ Hi) as Hmi. destruct Hu as [(_ & ->)|[(E & E' & -> & ->)|(E & E' & ->)]]; [done| |].
    + split; [intros Hp; by apply Hmi in Hp|congruence].
    + split; [intros Hp; apply Hmi in Hp; apply Hmt in E; congruence|done].
Qed.

Lemma entrant_in c t : (forall i p, threads c !! i = Some p -> has_mutex p = true <-> cv_mutex (shared c) = Some i) ->
  threads c !! t = Some (CWait WPush) -> entrant c = [t].
Proof. intros Hm Ht. unfold entrant. by rewrite (proj1 (Hm _ _ Ht) eq_refl), Ht. Qed.

Lemma entrant_out c s' t pc pc' : threads c !! t = Some pc ->
  (forall i p, threads c !! i = Some p -> has_mutex p = true <-> cv_mutex (shared c) = Some i) ->
  lock_upd t (has_mutex pc) (has_mutex pc') (cv_mutex (shared c)) (cv_mutex s') ->
  entering pc' = false -> entrant (Conf s' (<[t:=pc']> (threads c))) = if entering pc then [] else entrant c.
Proof.
  intros Ht Hm Hu He'. pose proof (Hm _ _ Ht) as Hmt. unfold entrant. cbn [shared threads].
  assert (<[t:=pc']> (threads c) !! t = Some pc') as Htt by (apply list_lookup_insert_eq; by eapply lookup_lt_Some).
  assert (entering pc = true -> pc = CWait WPush) as Hen by (unfold entering; by intros ?%bool_decide_eq_true).
  destruct Hu as [(Eh & ->)|[(Eh & _ & E0 & ->)|(Eh & _ & ->)]].
  - destruct (cv_mutex (shared c)) as [u|] eqn:Em; [|by destruct (entering pc)].
    destruct (decide (u = t)) as [->|Hne].
    + rewrite Htt, He', Ht. by destruct (entering pc).
    + rewrite list_lookup_insert_ne by done. destruct (entering pc) eqn:E; [|done].
      rewrite (Hen eq_refl) in *. assert (Some u = Some t) by (by apply Hmt). congruence.
  - rewrite E0, Htt, He'. by destruct (entering pc).
  - apply Hmt in Eh. rewrite Eh, Ht. by destruct (entering pc).
Qed.

Lemma cond_rel_step n c a l t pc s' pc' a' l' : cond_rel n c a l -> threads c !! t = Some pc ->
  wq_repr n (cv_waiters s') l' -> wq_inv l' (cv_ready s') (cond_waits (<[t:=pc']> (threads c))) ->
  lock_upd t (has_mutex pc) (has_mutex pc') (cv_mutex (shared c)) (cv_mutex s') ->
  lock_upd t (has_internal pc) (has_internal pc') (cv_internal (shared c)) (cv_internal s') ->
  a'.1 ++ a'.2 = l'.*1 ++ entrant (Conf s' (<[t:=pc']> (threads c))) ->
  cv_count s' - cv_count (shared c) = Z.of_nat (length a'.2) - Z.of_nat (length a.2) -
    Z.of_nat (c_undo pc') + Z.of_nat (c_undo pc) ->
  (length a'.1 + c_owes pc = length a.1 + c_owes pc')%nat ->
  (forall b count k, pc' = CWake b count k -> 0 <= k < count /\ count <= Z.of_nat n) ->
  cond_rel n (Conf s' (<[t:=pc']> (threads c))) a' l'.
Proof.
  intros HR Ht Hq Hw Hm Hi Hf Hc Ho Hk.
  pose proof (sum_list_with_insert c_undo (threads c) t pc pc' Ht) as S1.
  pose proof (sum_list_with_insert c_owes (threads c) t pc pc' Ht) as S2.
  pose proof (cr_count _ _ _ _ HR). pose proof (cr_owed _ _ _ _ HR).
  split; cbn [shared threads]; auto; try lia.
  - rewrite length_insert. apply HR.
  - by eapply lock_upd_ok; [|apply HR|].
  - by eapply lock_upd_ok; [|apply HR|].
  - intros i b count k Hx. apply lookup_insert_cases in Hx as [(_ & Hx)|(_ & Hx)]; [by eapply Hk|by eapply (cr_wakes _ _ _ _ HR)].
Qed.

(** A step that moves between program points outside the queue. *)
Lemma cond_local n c a l t pc pc' m i :
  cond_rel n c a l -> threads c !! t = Some pc -> cond_wait_of pc = None -> cond_wait_of pc' = None ->
  lock_upd t (has_mutex pc) (has_mutex pc') (cv_mutex (shared c)) m ->
  lock_upd t (has_internal pc) (has_internal pc') (cv_internal (shared c)) i ->
  c_undo pc = c_undo pc' -> c_owes pc = c_owes pc' -> (forall b count k, pc' <> CWake b count k) ->
  cond_rel n (Conf (CShared m (cv_count (shared c)) (cv_waiters (shared c)) i (cv_ready (shared c))) (<[t:=pc']> (threads c))) a l.
Proof.
  intros HR Ht Hw Hw' Hm Hi Hu Ho Hk.
  assert (entering pc = false /\ entering pc' = false) as [He He'].
  { unfold entering. split; apply bool_decide_eq_false; intros ->; done. }
  eapply cond_rel_step; simpl; eauto; try lia; try apply HR.
  - eapply (wqi_other _ _ _ t (cr_wq _ _ _ _ HR)); [| |by eapply cond_waits_insert]; left; [|done].
    unfold cond_waits. by rewrite Ht.
  - erewrite (entrant_out c _ t pc pc'); [|done|apply HR|exact Hm|done]. rewrite He. apply HR.
  - intros b count k E. by destruct (Hk b count k).
Qed.

Lemma acquire_upd m t m' : take_lock m t = Some m' -> lock_upd t false true m m'.
Proof. unfold take_lock. case_decide; [|done]. intros [= <-]. right. left. done. Qed.
Lemma release_upd m t m' : give_lock m t = Some m' -> lock_upd t true false m m'.
Proof. unfold give_lock. case_decide; [|done]. intros [= <-]. right. right. done. Qed.
Lemma keep_upd t h m : lock_upd t h h m m.
Proof. by left. Qed.
Hint Resolve acquire_upd release_upd keep_upd : core.

Lemma cond_wait_step n c a l t pc s' pc' evs : Z.of_nat n < 2 ^ 31 -> cond_rel n c a l -> threads c !! t = Some pc ->
  fiber_cond_wait t (shared c) pc = Some (s', pc', evs) ->
  exists a' l', spec_run cond_spec evs a = Some a' /\ cond_rel n (Conf s' (<[t:=pc']> (threads c))) a' l'.
Proof.
  intros Hn HR Ht Hs. pose proof (cr_wq _ _ _ _ HR) as Hq. pose proof (cr_mutex _ _ _ _ HR) as Hm.
  assert (t < n)%nat as Htn by (rewrite <- (cr_len _ _ _ _ HR); by eapply lookup_lt_Some).
  pose proof (cr_fibers _ _ _ _ HR) as Hf. destruct a as [C W]. simpl in Hf.
  destruct pc; try discriminate Hs; cbn [fiber_cond_wait] in Hs.
  - (* the count *)
    injection Hs as <- <- <-.
    assert (i64 (cv_count (shared c) + 1) = cv_count (shared c) + 1) as Ei.
    { pose proof (cond_count_bounds n c (C, W) l HR). apply i64_small. lia. }
    rewrite Ei. exists (C, W ++ [t]), l. split; [done|].
    assert (lock_upd t true true (cv_mutex (shared c)) (cv_mutex (shared c))) as Hu by auto.
    eapply cond_rel_step; [exact HR|exact Ht|apply HR| |exact Hu|apply keep_upd| |simpl; rewrite length_app; simpl; lia|simpl; lia|done].
    + eapply (wqi_other _ _ _ t Hq); [| |by eapply (cond_waits_insert _ _ _ (CWait WPush))]; [left|by right].
      unfold cond_waits. by rewrite Ht.
    + rewrite (entrant_in _ t).
      * simpl. rewrite app_assoc, Hf. f_equal. unfold entrant. rewrite (proj1 (Hm _ _ Ht) eq_refl), Ht. simpl. by rewrite app_nil_r.
      * eapply lock_upd_ok; [exact Ht|exact Hm|exact Hu].
      * simpl. apply list_lookup_insert_eq. by eapply lookup_lt_Some.
  - (* the queue *)
    assert (cond_waits (threads c) t = Some w) as Hw by (unfold cond_waits; by rewrite Ht).
    destruct w; cbn [fiber_manager_wait_in_mpsc_queue] in Hs.
    + destruct (wqi_absent _ _ _ _ Hq (or_intror Hw)) as [Hl _].
      destruct (wq_xchg_spec n _ l t (cr_repr _ _ _ _ HR) Htn Hl) as (q' & E & Hr'). rewrite E in Hs. simpl in Hs.
      injection Hs as <- <- <-. exists (C, W), (l ++ [(t, false)]). split; [done|].
      eapply cond_rel_step; [exact HR|exact Ht|exact Hr'| |apply keep_upd|apply keep_upd| |simpl; lia|simpl; lia|done].
      * by eapply wqi_push; [exact Hq|exact Hw|eapply (cond_waits_insert _ _ _ (CWait WLink))].
      * erewrite entrant_out; [|exact Ht|exact Hm|apply keep_upd|done]. simpl.
        rewrite fmap_app, app_nil_r. simpl. rewrite Hf. by rewrite (entrant_in c t Hm Ht).
    + destruct (wqi_linked _ _ _ _ Hq _ Hw (cond_waits_insert _ _ _ CRelease Ht)) as (l1 & l2 & El & Hq').
      pose proof (cr_repr _ _ _ _ HR) as Hr. rewrite El in Hr.
      destruct (wq_link_spec n _ l1 l2 t Hr) as (q' & E & Hr'). rewrite E in Hs. simpl in Hs.
      injection Hs as <- <- <-. exists (C, W). eexists. split; [done|].
      eapply cond_rel_step; [exact HR|exact Ht|exact Hr'|exact Hq'|apply keep_upd|apply keep_upd| |simpl; lia|simpl; lia|done].
      erewrite entrant_out; [|exact Ht|exact Hm|apply keep_upd|done]. simpl. rewrite Hf, El, !fmap_app. done.
    + case_decide as Hin; [|done]. injection Hs as <- <- <-. exists (C, W), l. split; [done|].
      destruct (wqi_resume _ _ _ t Hq _ Hin (cond_waits_insert _ _ _ CRelock Ht)) as [_ Hq'].
      eapply cond_rel_step; [exact HR|exact Ht|apply HR|exact Hq'|apply keep_upd|apply keep_upd| |simpl; lia|simpl; lia|done].
      by erewrite entrant_out; [|exact Ht|exact Hm|apply keep_upd|done].
  - (* the unlock by the maintenance *)
    destruct (give_lock _ _) as [m|] eqn:E; [|done]. injection Hs as <- <- <-. exists (C, W), l. split; [done|].
    eapply cond_rel_step; [exact HR|exact Ht|apply HR| |by apply release_upd in E|apply keep_upd| |simpl; lia|simpl; lia|done].
    + eapply wqi_ext; [exact Hq|]. intros i. destruct (cond_waits_insert _ t _ (CWait WParked) Ht) as [E1 E2].
      destruct (decide (i = t)) as [->|]; [rewrite E1|by apply E2]. unfold cond_waits. by rewrite Ht.
    + by erewrite entrant_out; [|exact Ht|exact Hm|by apply release_upd in E|done].
  - destruct (take_lock _ _) as [m|] eqn:E; [|done]. injection Hs as <- <- <-. exists (C, W), l. split; [done|].
    apply (cond_local n c (C, W) l t CRelock); auto; try done.
Qed.

(** A step on the count alone, under the internal mutex. *)
Lemma cond_counted n c a l t pc pc' v a' : cond_rel n c a l -> threads c !! t = Some pc ->
  cond_wait_of pc = None -> cond_wait_of pc' = None -> has_mutex pc' = has_mutex pc -> has_internal pc' = has_internal pc ->
  a'.1 ++ a'.2 = a.1 ++ a.2 ->
  v - cv_count (shared c) = Z.of_nat (length a'.2) - Z.of_nat (length a.2) - Z.of_nat (c_undo pc') + Z.of_nat (c_undo pc) ->
  (length a'.1 + c_owes pc = length a.1 + c_owes pc')%nat ->
  (forall b count k, pc' = CWake b count k -> 0 <= k < count /\ count <= Z.of_nat n) ->
  cond_rel n (Conf (set_count (shared c) v) (<[t:=pc']> (threads c))) a' l.
Proof.
  intros HR Ht Hw Hw' Hm Hi Ha Hv Ho Hk.
  assert (entering pc = false /\ entering pc' = false) as [He He'].
  { unfold entering. split; apply bool_decide_eq_false; intros ->; done. }
  assert (lock_upd t (has_mutex pc) (has_mutex pc') (cv_mutex (shared c)) (cv_mutex (set_count (shared c) v))) as Hu by (left; simpl; by rewrite Hm).
  eapply cond_rel_step; [exact HR|exact Ht|apply HR| |exact Hu|left; simpl; by rewrite Hi| |done|done|done].
  - eapply (wqi_other _ _ _ t (cr_wq _ _ _ _ HR)); [| |by eapply cond_waits_insert]; left; [|done].
    unfold cond_waits. by rewrite Ht.
  - rewrite (entrant_out c _ t pc pc' Ht (cr_mutex _ _ _ _ HR) Hu He'), He, Ha. apply HR.
Qed.

Lemma cond_wake_step n c a l t b count k s' pc' evs : Z.of_nat n < 2 ^ 31 -> cond_rel n c a l ->
  threads c !! t = Some (CWake b count k) -> cond_wake t (shared c) (CWake b count k) = Some (s', pc', evs) ->
  exists a' l', spec_run cond_spec evs a = Some a' /\ cond_rel n (Conf s' (<[t:=pc']> (threads c))) a' l'.
Proof.
  intros Hn HR Ht Hs. pose proof (cr_wq _ _ _ _ HR) as Hq. destruct (cr_wakes _ _ _ _ HR _ _ _ _ Ht) as [Hk Hc].
  destruct (cond_internal_only _ _ _ _ _ _ HR Ht eq_refl) as [_ Ho]. cbn [c_owes] in Ho.
  pose proof (cr_fibers _ _ _ _ HR) as Hf. destruct a as [C W]. cbn [fst snd] in *.
  assert (forall pc0 ready ll, wq_inv ll ready (cond_waits (threads c)) -> cond_wait_of pc0 = None ->
    wq_inv ll ready (cond_waits (<[t:=pc0]> (threads c)))) as Hmove.
  { intros pc0 ready ll Hi Hp. eapply (wqi_other _ _ _ t Hi); [| |by eapply cond_waits_insert]; left; [|done].
    unfold cond_waits. by rewrite Ht. }
  assert (forall pc0 s0, has_mutex pc0 = b -> entering pc0 = false -> cv_mutex s0 = cv_mutex (shared c) ->
    entrant (Conf s0 (<[t:=pc0]> (threads c))) = entrant c) as Hen.
  { intros pc0 s0 Hm He E. rewrite (entrant_out c s0 t (CWake b count k) pc0 Ht (cr_mutex _ _ _ _ HR)); [done| |done].
    left. simpl. by rewrite Hm, E. }
  cbn [cond_wake] in Hs. unfold fiber_manager_wake_from_mpsc_queue in Hs. rewrite i32_small in Hs by lia.
  assert ((exists g l', l = (g, true) :: l') \/ forall f, head l <> Some (f, true)) as [(g & l' & ->)|Hno]
    by (destruct l as [|[g []] l']; simpl; eauto; right; naive_solver).
  - destruct (wq_pop_spec n _ _ _ (cr_repr _ _ _ _ HR)) as (q' & E & Hq'). rewrite E in Hs.
    cbn [mbind option_bind] in Hs. rewrite drop_app_length in Hs. simpl in Hs.
    destruct C as [|x C]; simpl in Ho; [lia|]. injection Hf as -> Hf.
    exists (C, W), l'. injection Hs as <- <- <-. split; [simpl; by rewrite decide_True|].
    eapply cond_rel_step; [exact HR|exact Ht|exact Hq'|apply Hmove; [by apply wqi_pop|by destruct (Z.ltb _ _)]| | | | | |].
    + left. simpl. by destruct (Z.ltb _ _).
    + left. simpl. by destruct (Z.ltb _ _).
    + rewrite Hen; [done|by destruct (Z.ltb _ _)..|done].
    + simpl. destruct (Z.ltb _ _); simpl; lia.
    + simpl. destruct (Z.ltb_spec (k + 1) count); simpl; lia.
    + intros b0 c0 k0 E0. destruct (Z.ltb_spec (k + 1) count); simplify_eq. lia.
  - rewrite (wq_pop_empty n _ l (cr_repr _ _ _ _ HR)) in Hs by done.
    cbn [mbind option_bind] in Hs. rewrite drop_all, (proj2 (Z.ltb_lt k count)) in Hs by lia. simpl in Hs.
    injection Hs as <- <- <-. exists (C, W), l. split; [done|].
    eapply cond_rel_step; [exact HR|exact Ht|apply HR|by apply Hmove|apply keep_upd|apply keep_upd| |simpl; lia|simpl; lia|].
    + by rewrite Hen.
    + intros b0 c0 k0 [= <- <- <-]. lia.
Qed.

Lemma cond_simulation n lbl c c' evs a l : Z.of_nat n < 2 ^ 31 -> cond_rel n c a l -> cond_step lbl c = Some (c', evs) ->
  exists a' l', spec_run cond_spec evs a = Some a' /\ cond_rel n c' a' l'.
Proof.
  destruct lbl as [t ch]. intros Hn HR Hstep. apply conf_step_inv in Hstep as (pc & s' & pc' & Ht & Hs & ->).
  assert (Es : CShared (cv_mutex (shared c)) (cv_count (shared c)) (cv_waiters (shared c)) (cv_internal (shared c)) (cv_ready (shared c)) = shared c)
    by (by destruct (shared c)).
  pose proof (cond_count_bounds _ _ _ _ HR) as [Hlen Hcb]. pose proof (cr_count _ _ _ _ HR) as Hc.
  destruct ch, pc; cbn [cond_tstep] in Hs; try discriminate Hs; try (by eapply cond_wait_step).
  3-7: injection Hs as <- <- <-; exists a, l; (split; [done|]); rewrite <- Es at 1; by eapply cond_local; eauto.
  - destruct (take_lock _ _) as [m|] eqn:E; [|done]. injection Hs as <- <- <-. exists a, l. split; [done|].
    by eapply cond_local; eauto.
  - destruct (give_lock _ _) as [m|] eqn:E; [|done]. injection Hs as <- <- <-. exists a, l. split; [done|].
    by eapply cond_local; eauto.
  - cbn [fiber_cond_signal] in Hs. destruct (take_lock _ _) as [m|] eqn:E; [|done]. injection Hs as <- <- <-.
    exists a, l. split; [done|]. by eapply cond_local; eauto.
  - cbn [fiber_cond_signal] in Hs. destruct a as [C W]. destruct (cond_internal_only _ _ _ _ _ _ HR Ht eq_refl) as [Hu Ho].
    simpl in *. rewrite i64_small in Hs by lia. injection Hs as <- <- <-. destruct W as [|x W].
    + exists (C, []), l. split; [done|]. simpl in *. rewrite (proj2 (Z.leb_gt _ _)) by lia. eapply cond_counted; eauto; simpl; try done; lia.
    + exists (C ++ [x], W), l. split; [done|]. simpl in *. rewrite (proj2 (Z.leb_le _ _)) by lia.
      eapply cond_counted; eauto; simpl; try done; try lia.
      * by rewrite <- app_assoc.
      * rewrite length_app. simpl. lia.
      * intros ? ? ? [= <- <- <-]. lia.
  - cbn [fiber_cond_signal] in Hs. destruct (cond_internal_only _ _ _ _ _ _ HR Ht eq_refl) as [Hu Ho]. simpl in Hu.
    rewrite i64_small in Hs by lia. destruct (Z.leb _ _); [|done]. injection Hs as <- <- <-.
    exists a, l. split; [done|]. eapply cond_counted; eauto; simpl; try done; lia.
  - cbn [fiber_cond_broadcast] in Hs. destruct (take_lock _ _) as [m|] eqn:E; [|done]. injection Hs as <- <- <-.
    exists a, l. split; [done|]. by eapply cond_local; eauto.
  - cbn [fiber_cond_broadcast] in Hs. destruct a as [C W]. destruct (cond_internal_only _ _ _ _ _ _ HR Ht eq_refl) as [Hu Ho].
    simpl in *. injection Hs as <- <- <-. exists (C ++ W, []), l. split; [done|].
    destruct (Z.eqb_spec (cv_count (shared c)) 0) as [E|E].
    + eapply cond_counted; eauto; simpl; try done; rewrite ?app_nil_r, ?length_app; simpl; try done; lia.
    + eapply cond_counted; eauto; simpl; try done; rewrite ?app_nil_r, ?length_app; simpl; try done; try lia.
      intros ? ? ? [= <- <- <-]. lia.
  - by eapply cond_wake_step.
  - cbn [fiber_cond_broadcast cond_wake] in Hs. destruct (give_lock _ _) as [m|] eqn:E; [|done]. injection Hs as <- <- <-.
    exists a, l. split; [done|]. eapply cond_local; eauto; destruct held; simpl; try done; by apply release_upd.
Qed.

Lemma cond_init_rel n : cond_rel n (cond_init n) ([], []) [].
Proof.
  assert (forall f : cond_pc -> nat, f CIdle = 0%nat -> sum_list_with f (replicate n CIdle) = 0%nat) as Hz.
  { intros f Hf. induction n as [|k IH]; [done|]. simpl. lia. }
  unfold cond_init, fiber_cond_init. split; simpl; rewrite ?Hz by done; try done.
  - apply length_replicate.
  - apply wq_init_spec.
  - apply wq_inv_init. intros t. unfold cond_waits.
    destruct (replicate n CIdle !! t) eqn:E; [|done]. by apply lookup_replicate in E as [-> _].
  - by intros t pc [-> _]%lookup_replicate.
  - by intros t pc [-> _]%lookup_replicate.
  - by intros t b count k [? _]%lookup_replicate.
Qed.

Lemma cond_run_rel n ls c evs : Z.of_nat n < 2 ^ 31 -> run cond_step ls (cond_init n) = Some (c, evs) ->
  exists a l, spec_run cond_spec evs ([], []) = Some a /\ cond_rel n c a l.
Proof.
  intros Hn Hrun.
  destruct (run_simulation cond_step cond_spec (Z.of_nat (length ls) + 1) (fun _ c a => exists l, cond_rel n c a l))
    with (ls := ls) (n := 0) (s := cond_init n) (s' := c) (evs := evs) (a := ([], []) : list nat * list nat)
    as (a & Hs & l & HR); eauto.
  - intros k lbl s s' e a _ (l & HR) Hs. destruct (cond_simulation n lbl s s' e a l Hn HR Hs) as (a' & l' & ? & ?). eauto.
  - lia.
  - exists []. apply cond_init_rel.
Qed.

(** ** Properties *)


Lemma cond_go c u p s' pc' e : threads c !! u = Some p -> cond_tstep u CGo (shared c) p = Some (s', pc', e) -> pc' <> p ->
  exists c', cond_step (u, CGo) c = Some (c', e) /\ c' <> c.
Proof.
  intros Hu Hs Hne. eexists. split; [|by eapply conf_changed].
  unfold cond_step, conf_step. cbn [fst snd]. by rewrite Hu, Hs.
Qed.

(** A signal delivers.  A fiber in the wake-up loop of a signal or a
    broadcast either wakes a fiber with its next step, or the fiber it waits for
    is on its way into the queue and can take its next step. *)
Theorem cond_wake_progress n ls c evs t b count k : Z.of_nat n < 2 ^ 31 ->
  run cond_step ls (cond_init n) = Some (c, evs) -> threads c !! t = Some (CWake b count k) ->
  (exists c' f, cond_step (t, CGo) c = Some (c', [EvWoken f])) \/
  (exists u c', (threads c !! u = Some (CWait WPush) \/ threads c !! u = Some (CWait WLink)) /\
     cond_step (u, CGo) c = Some (c', []) /\ c' <> c).
Proof.
  intros Hn Hrun Ht. destruct (cond_run_rel _ _ _ _ Hn Hrun) as ([C W] & l & _ & HR).
  pose proof (cr_wq _ _ _ _ HR) as Hq. pose proof (cr_repr _ _ _ _ HR) as Hr. destruct l as [|[g []] l].
  - right. destruct (cond_internal_only _ _ _ _ _ _ HR Ht eq_refl) as [_ Ho]. destruct (cr_wakes _ _ _ _ HR _ _ _ _ Ht) as [Hk _].
    pose proof (cr_fibers _ _ _ _ HR) as Hf. simpl in Ho, Hf. destruct C as [|u C]; simpl in Ho; [lia|].
    assert (u ∈ entrant c) as Hu by (rewrite <- Hf; by left). unfold entrant in Hu.
    destruct (cv_mutex (shared c)) as [v|]; [|by apply elem_of_nil in Hu].
    destruct (threads c !! v) as [pc|] eqn:Ev; [|by apply elem_of_nil in Hu].
    destruct (entering pc) eqn:E; [|by apply elem_of_nil in Hu]. unfold entering in E. apply bool_decide_eq_true in E. subst.
    exists v. destruct (wq_xchg_spec n _ [] v Hr) as (q' & Ex & _); [rewrite <- (cr_len _ _ _ _ HR); by eapply lookup_lt_Some|set_solver|].
    edestruct (cond_go c v (CWait WPush)) as (c' & Hs & Hne); [exact Ev|simpl; rewrite Ex; reflexivity|done|]. exists c'. auto.
  - left. destruct (wq_pop_spec n _ _ _ Hr) as (q' & E & _). eexists _, g. unfold cond_step, conf_step. cbn [fst snd]. rewrite Ht.
    cbn [mbind option_bind cond_tstep fiber_cond_broadcast cond_wake]. unfold fiber_manager_wake_from_mpsc_queue.
    rewrite E. cbn [mbind option_bind]. by rewrite drop_app_length.
  - right. assert (cond_waits (threads c) g = Some WLink) as Hg by (apply (wqi_link _ _ _ Hq); left).
    unfold cond_waits in Hg. destruct (threads c !! g) as [pc|] eqn:Eg; [|done].
    assert (pc = CWait WLink) as -> by (destruct pc; simplify_eq/=; congruence). exists g.
    destruct (wq_link_spec n _ [] l g Hr) as (q' & Ex & _).
    edestruct (cond_go c g (CWait WLink)) as (c' & Hs & Hne); [exact Eg|simpl; rewrite Ex; reflexivity|done|]. exists c'. auto.
Qed.

(** No assertion fails: a signal that found no waiter can give its decrement
    back. *)
Lemma cond_add_asserts n ls c evs t b : Z.of_nat n < 2 ^ 31 ->
  run cond_step ls (cond_init n) = Some (c, evs) -> threads c !! t = Some (CAdd b) ->
  exists c', cond_step (t, CGo) c = Some (c', []).
Proof.
  intros Hn Hrun Ht. destruct (cond_run_rel _ _ _ _ Hn Hrun) as (a & l & _ & HR).
  destruct (cond_internal_only _ _ _ _ _ _ HR Ht eq_refl) as [Hu _]. pose proof (cr_count _ _ _ _ HR) as Hc. simpl in Hu.
  pose proof (cond_count_bounds _ _ _ _ HR). eexists. unfold cond_step, conf_step. cbn [fst snd]. rewrite Ht. simpl.
  rewrite i64_small by lia. by rewrite (proj2 (Z.leb_le _ _)) by lia.
Qed.

End cond.

(** ** Runs over the queue of [mpsc_fifo.h] *)

Definition cgo (t k : nat) : list (nat * cond_choice) := replicate k (t, CGo).

(** Fibers 0 and 1 wait; fiber 2 signals while 1 is still entering the queue,
    then broadcasts. *)
Definition cond_demo_race : list (nat * cond_choice) :=
  [(0%nat, CallLock); (0%nat, CallWait)] ++ cgo 0 4 ++ [(1%nat, CallLock); (1%nat, CallWait)] ++ cgo 1 1 ++
  [(2%nat, CallSignal)] ++ cgo 2 4 ++ [(2%nat, CallBroadcast)] ++ cgo 2 2.
Definition cond_demo : list (nat * cond_choice) := cond_demo_race ++ cgo 1 3 ++ cgo 2 2 ++ cgo 0 2.


Lemma cond_wake_progress_witness : exists c : cond_conf (Q := mpsc_queue),
  run cond_step cond_demo_race (cond_init 3) =
    Some (c, [EvWait 0; EvWait 1; EvSignal 2; EvWoken 0; EvBroadcast 2]%nat) /\
  ((exists c' f, cond_step (2%nat, CGo) c = Some (c', [EvWoken f])) \/
   (exists u c', (threads c !! u = Some (CWait WPush) \/ threads c !! u = Some (CWait WLink)) /\
      cond_step (u, CGo) c = Some (c', []) /\ c' <> c)).
Proof.
  eexists. split; [vm_compute; reflexivity|].
  eapply (cond_wake_progress 3 cond_demo_race _ [EvWait 0; EvWait 1; EvSignal 2; EvWoken 0; EvBroadcast 2]%nat 2 false 1 0);
    [lia|vm_compute; reflexivity|reflexivity].
Defined.
