(* ===== verification/Channel.v ===== *)
(** * Channels ([include/fiber_channel.h])

    The bounded channel is a ring buffer with many senders and one receiver: a
    sender claims a position by a compare-and-swap on [high] and writes the cell
    afterwards; the receiver empties the cell before it advances [low], and
    sleeps on the signal when it finds nothing.  The signal is the flag that
    [Signal] shows [fiber_signal_t] to be: a raise sets it, a wait takes it. *)

From S2P Require Import Prelude RingBuffer.

(** ** Allocation *)

(** [sizeof(fiber_bounded_channel_t)]: two padded counters, an [mpsc_fifo_t]
    (a padded pointer and a pointer), a pointer and two 32-bit fields. *)
Definition sizeof_fiber_bounded_channel : Z := 64 + 64 + (64 + 8) + 8 + 4 + 4.

(** The [uint32_t required_size] passed to [calloc]. *)
Definition channel_required_size (power_of_2_size : Z) : Z :=
  let size := u32 (Z.shiftl 1 power_of_2_size) in
  u32 (sizeof_fiber_bounded_channel + size * sizeof_ptr).

(** ** State *)

(** [high], [low], [size], [power_of_2_mod] and [buffer] are those of a [ring];
    no signal means that the receiver spins. *)
Record bchan := BChan { bc_ring : ring Z; bc_signal : option bool }.

(** [blk]: receive, which retries, or try_receive. *)
Inductive chan_pc :=
| KIdle
| KSendLow (message : Z)
| KSendHigh (message low : Z)
| KSendRead (message low high : Z)
| KSendCas (message low high : Z)
| KStore (message high : Z)                   (* position claimed *)
| KRaise (high : Z)                           (* message written *)
| KRecvHigh (blk : bool)
| KRecvLow (blk : bool) (high : Z)
| KRecvRead (blk : bool) (high low : Z)
| KClear (low ret : Z)
| KAdvance (low ret : Z)
| KSleep.                                     (* in fiber_signal_wait *)

Inductive chan_choice := KCallSend (message : Z) | KCallReceive (blk : bool) | KGo | KSpurious.

(** ** Operations *)

Definition fiber_bounded_channel_create (power_of_2_size : Z) (signal : option bool) : option bchan :=
  if decide (0 < power_of_2_size < 32) then
    let size := u32 (Z.shiftl 1 power_of_2_size) in
    Some (BChan (Ring 0 0 size (u32 (size - 1))
      (replicate (cells_in (channel_required_size power_of_2_size) sizeof_fiber_bounded_channel) None)) signal)
  else None (* the assert *).

Definition set_ring (s : bchan) (r : ring Z) : bchan := BChan r (bc_signal s).

Definition fiber_bounded_channel_send (spurious : bool) (s : bchan) (pc : chan_pc)
    : option (bchan * chan_pc * list (queue_ev Z)) :=
  let r := bc_ring s in
  match pc with
  | KSendLow m => Some (s, KSendHigh m (low r), [])
  | KSendHigh m l => Some (s, KSendRead m l (high r), [])
  | KSendRead m l h =>
      let index := Z.land h (power_of_2_mod r) in
      match slot r index with
      | None => if Z.ltb (u64 (h - l)) (rb_size r) then Some (s, KSendCas m l h, []) else Some (s, KSendLow m, [])
      | Some _ => Some (s, KSendLow m, [])
      end
  | KSendCas m l h =>
      if negb spurious && Z.eqb (high r) h
      then Some (set_ring s (Ring (u64 (h + 1)) (low r) (rb_size r) (power_of_2_mod r) (buffer r)), KStore m h, [Enq m])
      else Some (s, KSendLow m, [])
  | KStore m h =>
      let index := Z.land h (power_of_2_mod r) in
      Some (set_ring s (set_slot r index (Some m)), match bc_signal s with Some _ => KRaise h | None => KIdle end, [])
  | KRaise _ => Some (BChan r (Some true), KIdle, [])
  | _ => None
  end.

(** [fiber_bounded_channel_receive], and [fiber_bounded_channel_try_receive]
    when not [blk]. *)
Definition fiber_bounded_channel_receive (s : bchan) (pc : chan_pc)
    : option (bchan * chan_pc * list (queue_ev Z)) :=
  let r := bc_ring s in
  match pc with
  | KRecvHigh b => Some (s, KRecvLow b (high r), [])
  | KRecvLow b h => Some (s, KRecvRead b h (low r), [])
  | KRecvRead b h l =>
      let nothing := if b then match bc_signal s with Some _ => KSleep | None => KRecvHigh b end else KIdle in
      match slot r (Z.land l (power_of_2_mod r)) with
      | Some ret => if Z.ltb l h then Some (s, KClear l ret, []) else Some (s, nothing, [])
      | None => Some (s, nothing, [])
      end
  | KClear l ret =>
      Some (set_ring s (set_slot r (Z.land l (power_of_2_mod r)) None), KAdvance l ret, [Deq ret])
  | KAdvance l ret =>
      Some (set_ring s (Ring (high r) (u64 (l + 1)) (rb_size r) (power_of_2_mod r) (buffer r)), KIdle, [])
  | KSleep =>
      match bc_signal s with Some true => Some (BChan r (Some false), KRecvHigh true, []) | _ => None end
  | _ => None
  end.

(** Fiber 0 is the receiver; a message is not NULL. *)
Definition chan_tstep (t : nat) (ch : chan_choice) (s : bchan) (pc : chan_pc)
    : option (bchan * chan_pc * list (queue_ev Z)) :=
  match ch, pc with
  | KCallSend m, KIdle => if decide (m = 0) then None else Some (s, KSendLow m, [])
  | KCallReceive b, KIdle => if decide (t = 0%nat) then Some (s, KRecvHigh b, []) else None
  | KGo, (KSendLow _ | KSendHigh _ _ | KSendRead _ _ _ | KSendCas _ _ _ | KStore _ _ | KRaise _) =>
      fiber_bounded_channel_send false s pc
  | KSpurious, KSendCas _ _ _ => fiber_bounded_channel_send true s pc
  | KGo, (KRecvHigh _ | KRecvLow _ _ | KRecvRead _ _ _ | KClear _ _ | KAdvance _ _ | KSleep) =>
      fiber_bounded_channel_receive s pc
  | _, _ => None
  end.

Definition chan_conf := conf bchan chan_pc.
Definition chan_step := conf_step chan_tstep.
Definition chan_init (p : Z) (signal : option bool) (n : nat) : option chan_conf :=
  s ← fiber_bounded_channel_create p signal; Some (Conf s (replicate n KIdle)).

(** ** Invariant *)

Section chan_proof.
Variable p : Z.
Hypothesis Hp : 0 < p < 29.

Abbreviation N := (2 ^ p).

Implicit Types (r : ring Z) (pc : chan_pc) (c : chan_conf).

Definition k_ticket pc : option (Z * Z) := match pc with KStore m h => Some (h, m) | _ => None end.

(** The ring with [low] where it will be: the receiver has taken the message
    and not advanced yet. *)
Definition advanced r (pc0 : option chan_pc) : ring Z :=
  match pc0 with
  | Some (KAdvance l _) => Ring (high r) (low r + 1) (rb_size r) (power_of_2_mod r) (buffer r)
  | _ => r
  end.

(** A sender that holds position [k] and has not raised the signal. *)
Definition k_active (ths : list chan_pc) (k : Z) : Prop :=
  exists t pc, ths !! t = Some pc /\ ((exists m, pc = KStore m k) \/ pc = KRaise k).

(** The receiver on its way to sleep: the oldest message is known to it, or its
    sender will raise the signal. *)
Definition k_wakes (c : chan_conf) pc : Prop :=
  let r := bc_ring (shared c) in
  bc_signal (shared c) = Some false ->
  match pc with
  | KRecvLow _ h => low r < h \/ low r = high r \/ k_active (threads c) (low r)
  | KRecvRead _ h _ => low r < h \/ low r = high r \/ k_active (threads c) (low r)
  | KSleep => low r = high r \/ k_active (threads c) (low r)
  | _ => True
  end.

Definition k_receives pc : bool :=
  match pc with KRecvHigh _ | KRecvLow _ _ | KRecvRead _ _ _ | KClear _ _ | KAdvance _ _ | KSleep => true | _ => false end.

Definition chan_ok r pc : Prop :=
  match pc with
  | KSendHigh _ l => 0 <= l <= low r
  | KSendRead _ l h => 0 <= l <= low r /\ l <= h <= high r
  | KSendCas _ l h => 0 <= l <= low r /\ l <= h <= high r /\ h - l < N /\ (h = high r -> cell p r h = None)
  | KRecvLow _ h => h <= high r
  | KRecvRead _ h l => h <= high r /\ l = low r
  | KClear l ret => l = low r /\ l < high r /\ cell p r l = Some ret
  | KAdvance l _ => l = low r
  | _ => True
  end.

Record chan_rel (n : Z) (c : chan_conf) (q : list Z) : Prop := {
  kr_core : ring_core p (advanced (bc_ring (shared c)) (threads c !! 0%nat)) (omap k_ticket (threads c)) [] q;
  kr_n : high (bc_ring (shared c)) <= n;
  kr_ok : forall t pc, threads c !! t = Some pc -> chan_ok (bc_ring (shared c)) pc;
  kr_one : forall t pc, threads c !! t = Some pc -> k_receives pc = true -> t = 0%nat;
  kr_low : 0 <= low (bc_ring (shared c));
  kr_wakes : forall t pc, threads c !! t = Some pc -> k_wakes c pc
}.

Lemma k_wakes_sender c pc : k_receives pc = false -> k_wakes c pc.
Proof. by destruct pc. Qed.

Lemma k_wakes_mono c s' ths' pc :
  (bc_signal s' = Some false -> bc_signal (shared c) = Some false) -> low (bc_ring s') = low (bc_ring (shared c)) ->
  (high (bc_ring s') = high (bc_ring (shared c)) \/ k_active ths' (high (bc_ring (shared c)))) ->
  (forall k, k_active (threads c) k -> bc_signal s' = Some false -> k_active ths' k) ->
  k_wakes c pc -> k_wakes (Conf s' ths') pc.
Proof.
  intros Hs Hl Hh Ha Hw Hf. specialize (Hw (Hs Hf)). cbn [shared threads] in *. rewrite Hl.
  assert (low (bc_ring (shared c)) = high (bc_ring (shared c)) ->
    low (bc_ring (shared c)) = high (bc_ring s') \/ k_active ths' (low (bc_ring (shared c)))) as Heq.
  { intros E. destruct Hh as [->|Hh]; [by left|right; by rewrite E]. }
  destruct pc; try done; destruct Hw as [Hw|Hw]; naive_solver.
Qed.

(** Moving between points that are not claims keeps the claims. *)
Lemma k_active_insert (ths : list chan_pc) t pc pc' k : ths !! t = Some pc ->
  (forall m, pc = KStore m k -> (exists m', pc' = KStore m' k) \/ pc' = KRaise k) -> (pc = KRaise k -> pc' = KRaise k) ->
  k_active ths k -> k_active (<[t:=pc']> ths) k.
Proof.
  intros Ht H1 H2 (i & x & Hi & Hx). destruct (decide (i = t)) as [->|Hne].
  - rewrite Ht in Hi. injection Hi as <-. exists t, pc'.
    rewrite list_lookup_insert_eq by (by eapply lookup_lt_Some). split; [done|]. naive_solver.
  - exists i, x. by rewrite list_lookup_insert_ne.
Qed.

Lemma chan_rel_step n c q t pc s' pc' q' : chan_rel n c q -> threads c !! t = Some pc ->
  let ths' := <[t:=pc']> (threads c) in
  ring_core p (advanced (bc_ring s') (ths' !! 0%nat)) (omap k_ticket ths') [] q' ->
  high (bc_ring s') <= n + 1 -> 0 <= low (bc_ring s') -> chan_ok (bc_ring s') pc' ->
  (k_receives pc' = true -> t = 0%nat) ->
  (forall i x, i <> t -> threads c !! i = Some x -> chan_ok (bc_ring (shared c)) x -> chan_ok (bc_ring s') x) ->
  k_wakes (Conf s' ths') pc' ->
  (forall i x, i <> t -> threads c !! i = Some x -> k_wakes c x -> k_wakes (Conf s' ths') x) ->
  chan_rel (n + 1) (Conf s' ths') q'.
Proof.
  intros HR Ht ths' Hc Hn Hl Hok H1 Hoks Hw Hws. split; cbn [shared threads]; auto.
  - intros i x Hi. apply lookup_insert_cases in Hi as [(-> & ->)|(Hne & Hi)]; [done|]. apply (Hoks i x Hne Hi), (kr_ok _ _ _ HR _ _ Hi).
  - intros i x Hi Hx. apply lookup_insert_cases in Hi as [(-> & ->)|(Hne & Hi)]; [by apply H1|]. by apply (kr_one _ _ _ HR _ _ Hi).
  - intros i x Hi. apply lookup_insert_cases in Hi as [(-> & ->)|(Hne & Hi)]; [done|]. apply (Hws i x Hne Hi), (kr_wakes _ _ _ HR _ _ Hi).
Qed.

(** Where the receiver is, when another fiber or the receiver itself moves. *)
Definition advances pc : bool := match pc with KAdvance _ _ => true | _ => false end.

Lemma advanced_same r (ths : list chan_pc) t pc pc' : ths !! t = Some pc -> advances pc = false -> advances pc' = false ->
  advanced r (<[t:=pc']> ths !! 0%nat) = advanced r (ths !! 0%nat).
Proof.
  intros Ht H1 H2. destruct (decide (t = 0%nat)) as [->|Hne]; [|by rewrite list_lookup_insert_ne by done].
  rewrite list_lookup_insert_eq by (by eapply lookup_lt_Some). rewrite Ht. destruct pc, pc'; done.
Qed.

(** A step that changes neither the ring nor the signal. *)
Lemma chan_local n c q t pc pc' : chan_rel n c q -> threads c !! t = Some pc ->
  k_ticket pc = None -> k_ticket pc' = None -> (forall k, pc <> KRaise k) -> advances pc = false -> advances pc' = false ->
  chan_ok (bc_ring (shared c)) pc' -> (k_receives pc' = true -> t = 0%nat) ->
  k_wakes (Conf (shared c) (<[t:=pc']> (threads c))) pc' ->
  chan_rel (n + 1) (Conf (shared c) (<[t:=pc']> (threads c))) q.
Proof.
  intros HR Ht H1 H2 Hr H3 H4 Hok Hone Hw. pose proof (kr_n _ _ _ HR).
  eapply chan_rel_step; eauto; try lia; [|apply HR|].
  - rewrite (advanced_same _ _ _ _ _ Ht H3 H4). eapply core_perm; [|done|apply HR].
    symmetry. eapply omap_insert_same; [exact Ht|congruence].
  - intros i x Hne Hi. apply k_wakes_mono; auto. intros k Hk _. eapply k_active_insert; eauto.
    + intros m ->. done.
    + intros ->. by destruct (Hr k).
Qed.

(** The counters, and how the advanced ring differs. *)
Lemma chan_counters n c q : chan_rel n c q ->
  let r := bc_ring (shared c) in let v := advanced r (threads c !! 0%nat) in
  ring_wf p r /\ 0 <= low r <= low v /\ low v <= high r /\ high v = high r /\ (forall k, cell p v k = cell p r k).
Proof.
  intros HR. simpl. pose proof (kr_core _ _ _ HR) as Hc. pose proof (core_wf _ _ _ _ _ Hc) as [W1 W2 W3].
  pose proof (core_range _ _ _ _ _ Hc) as Hx. pose proof (kr_low _ _ _ HR) as Hy. pose proof (kr_n _ _ _ HR).
  destruct (threads c !! 0%nat) as [[]|]; simpl in *; split_and!; try lia; try done; by split.
Qed.

Lemma chan_cas_step n c q t m l : n + 1 < 2 ^ 64 -> chan_rel n c q ->
  threads c !! t = Some (KSendCas m l (high (bc_ring (shared c)))) ->
  let r := bc_ring (shared c) in
  Z.of_nat (length q) < N /\
  chan_rel (n + 1) (Conf (set_ring (shared c) (Ring (high r + 1) (low r) (rb_size r) (power_of_2_mod r) (buffer r)))
    (<[t:=KStore m (high r)]> (threads c))) (q ++ [m]).
Proof.
  intros Hb HR Ht r. pose proof (kr_core _ _ _ HR) as Hc. pose proof (kr_ok _ _ _ HR _ _ Ht) as (Hl & Hh & Hd & Hcell).
  destruct (chan_counters _ _ _ HR) as (Hw & Hlow & Hlh & Hhi & Hcells). cbn zeta in Hw, Hlow, Hlh, Hhi, Hcells. fold r in Hw, Hlow, Hlh, Hhi, Hcells, Hc.
  fold r in Hl, Hh, Hd, Hcell, Ht.
  pose proof (core_len _ _ _ _ _ Hc) as Hlen. pose proof (kr_n _ _ _ HR) as Hn. fold r in Hn. split; [lia|].
  assert (advanced (Ring (high r + 1) (low r) (rb_size r) (power_of_2_mod r) (buffer r)) (<[t:=KStore m (high r)]> (threads c) !! 0%nat) =
    let v := advanced r (threads c !! 0%nat) in Ring (high v + 1) (low v) (rb_size v) (power_of_2_mod v) (buffer v)) as Ea.
  { rewrite (advanced_same _ _ _ _ _ Ht) by done. destruct (threads c !! 0%nat) as [[]|]; done. }
  eapply chan_rel_step; [exact HR|exact Ht| |simpl; lia|simpl; lia|done|done| | |].
  - cbn [bc_ring set_ring]. rewrite Ea. simpl. rewrite Hhi.
    eapply core_perm; [symmetry; eapply (omap_insert_add k_ticket _ _ _ (KStore m (high r))); [exact Ht|done|done]|done|].
    rewrite <- Hhi. apply core_push_cas; [done|done|rewrite Hhi, Hcells; by apply Hcell|lia].
  - intros i x Hne Hi Hx. destruct x; simpl in *; try done; fold r in Hx; intuition lia.
  - done.
  - intros i x Hne Hi. apply k_wakes_mono; simpl; auto.
    + right. exists t, (KStore m (high r)). rewrite list_lookup_insert_eq by (by eapply lookup_lt_Some). eauto.
    + intros k Hk _. eapply k_active_insert; eauto; done.
Qed.

Lemma chan_store_step n c q t m h : chan_rel n c q -> threads c !! t = Some (KStore m h) ->
  let pc' := match bc_signal (shared c) with Some _ => KRaise h | None => KIdle end in
  chan_rel (n + 1) (Conf (set_ring (shared c) (set_slot (bc_ring (shared c)) (h mod N) (Some m))) (<[t:=pc']> (threads c))) q.
Proof.
  intros HR Ht pc'. set (r := bc_ring (shared c)). pose proof (kr_core _ _ _ HR) as Hc.
  destruct (chan_counters _ _ _ HR) as (Hw & Hlow & Hlh & Hhi & Hcells). cbn zeta in Hw, Hlow, Hlh, Hhi, Hcells. fold r in Hw, Hlow, Hlh, Hhi, Hcells, Hc.
  assert (k_ticket pc' = None /\ advances pc' = false /\ k_receives pc' = false /\ chan_ok (set_slot r (h mod N) (Some m)) pc') as (E1 & E2 & E3 & E4).
  { unfold pc'. by destruct (bc_signal (shared c)). }
  pose proof (omap_insert_del k_ticket _ _ _ pc' _ Ht eq_refl E1) as Hdel.
  assert (ring_core p (advanced r (threads c !! 0%nat)) ((h, m) :: omap k_ticket (<[t:=pc']> (threads c))) [] q) as Hc'
    by (eapply core_perm; [exact Hdel|done|exact Hc]).
  pose proof (core_pt _ _ _ _ _ Hc' h m ltac:(left)) as Hh. rewrite Hhi in Hh.
  pose proof (core_range _ _ _ _ _ Hc') as Hrg. rewrite Hhi in Hrg. pose proof (N_pos p Hp) as HN. pose proof (kr_n _ _ _ HR) as Hn. fold r in Hn.
  eapply chan_rel_step; [exact HR|exact Ht| |simpl; lia|simpl; lia|done|by rewrite E3| | |].
  - cbn [bc_ring set_ring]. fold r. rewrite (advanced_same _ _ _ _ _ Ht) by done.
    replace (advanced (set_slot r (h mod N) (Some m)) (threads c !! 0%nat))
      with (set_slot (advanced r (threads c !! 0%nat)) (h mod N) (Some m)) by (destruct (threads c !! 0%nat) as [[]|]; done).
    by apply core_push_write.
  - intros i x Hne Hi Hx. cbn [bc_ring set_ring]. fold r. fold r in Hx. destruct x; simpl in *; try done.
    + destruct Hx as (H1 & H2 & H3 & H4). split_and!; try lia. intros ->. rewrite cell_near by (done || lia). auto.
    + destruct Hx as (-> & H2 & H3). split_and!; try done. rewrite cell_near; [done|done| |].
      * intros ->. destruct (lookup_lt_is_Some_2 q 0%nat) as [y Hy].
        { pose proof (core_len _ _ _ _ _ Hc'). pose proof (kr_one _ _ _ HR _ _ Hi eq_refl) as ->. rewrite Hi in *. simpl in *. lia. }
        pose proof (kr_one _ _ _ HR _ _ Hi eq_refl) as ->. rewrite Hi in Hc'. simpl in Hc'.
        destruct (core_in _ _ _ _ _ Hc' (low r) y) as [[_ Hno]|[Hno _]]; [lia|by rewrite Z.sub_diag| |congruence].
        destruct (Hno m). left.
      * pose proof (kr_one _ _ _ HR _ _ Hi eq_refl) as ->. rewrite Hi in *. simpl in *. lia.
  - by apply k_wakes_sender.
  - intros i x Hne Hi. apply k_wakes_mono; simpl; auto. intros k Hk Hf. eapply k_active_insert; eauto; [|done].
    intros m' [= <- <-]. right. unfold pc'. by rewrite Hf.
Qed.

Lemma chan_send_step sp n c q t pc s' pc' evs : n + 1 < 2 ^ 64 -> chan_rel n c q -> threads c !! t = Some pc ->
  fiber_bounded_channel_send sp (shared c) pc = Some (s', pc', evs) ->
  exists q', spec_run (queue_spec N) evs q = Some q' /\ chan_rel (n + 1) (Conf s' (<[t:=pc']> (threads c))) q'.
Proof.
  intros Hb HR Ht Hs. pose proof (kr_ok _ _ _ HR _ _ Ht) as Hok. pose proof (kr_n _ _ _ HR) as Hn.
  destruct (chan_counters _ _ _ HR) as (Hw & Hlow & Hlh & Hhi & Hcells). cbn zeta in Hw, Hlow, Hlh, Hhi, Hcells.
  destruct pc; try discriminate Hs; simpl in Hok; cbn [fiber_bounded_channel_send] in Hs.
  - simplify_eq. exists q. split; [done|]. eapply chan_local; eauto; simpl; try done; lia.
  - simplify_eq. exists q. split; [done|]. eapply chan_local; eauto; simpl; try done; lia.
  - rewrite (land_cell p Hp) in Hs by done. destruct (cell p (bc_ring (shared c)) high) eqn:Ec.
    + simplify_eq. exists q. split; [done|]. by eapply chan_local.
    + rewrite u64_small, (wf_size _ _ Hw) in Hs by lia.
      destruct (Z.ltb_spec (high - low) N); simplify_eq; exists q; (split; [done|]); eapply chan_local; eauto; try done.
      simpl. split_and!; try lia. done.
  - destruct (negb sp && _) eqn:E.
    + apply andb_prop in E as [_ E%Z.eqb_eq]. subst high. simplify_eq. rewrite u64_small by lia.
      destruct (chan_cas_step _ _ _ _ _ _ Hb HR Ht) as [Hlen Hrel].
      exists (q ++ [message]). split; [simpl; by rewrite decide_True by lia|exact Hrel].
    + simplify_eq. exists q. split; [done|]. by eapply chan_local.
  - simplify_eq. exists q. split; [done|]. rewrite (wf_mod _ _ Hw), land_pow2_mod by lia.
    by apply (chan_store_step n c q t message high).
  - simplify_eq. exists q. split; [done|].
    eapply chan_rel_step; [exact HR|exact Ht| |simpl; lia|simpl; lia|done|done|by intros|done|].
    + simpl. rewrite (advanced_same _ _ _ _ _ Ht) by done. eapply core_perm; [|done|apply HR].
      symmetry. by eapply omap_insert_same.
    + intros i x Hne Hi. by apply k_wakes_mono; simpl; auto.
Qed.

(** The receiver takes the oldest message, then advances. *)
Lemma chan_clear_step n c q l ret : chan_rel n c q -> threads c !! 0%nat = Some (KClear l ret) ->
  exists q', q = ret :: q' /\
    chan_rel (n + 1) (Conf (set_ring (shared c) (set_slot (bc_ring (shared c)) (l mod N) None)) (<[0%nat:=KAdvance l ret]> (threads c))) q'.
Proof.
  intros HR Ht. set (r := bc_ring (shared c)). pose proof (kr_core _ _ _ HR) as Hc. pose proof (kr_ok _ _ _ HR _ _ Ht) as (-> & Hlh & Hcell).
  rewrite Ht in Hc. simpl in Hc. fold r in Hc, Hlh, Hcell, Ht. pose proof (kr_n _ _ _ HR) as Hn. fold r in Hn.
  pose proof (kr_low _ _ _ HR) as Hlow. fold r in Hlow. pose proof (N_pos p Hp) as HN.
  destruct (core_pop_cas p Hp r _ _ _ ret Hc Hcell Hlh) as (q' & -> & Hc'). exists q'. split; [done|].
  eapply chan_rel_step; [exact HR|exact Ht| |simpl; fold r; lia|simpl; fold r; lia|done|done| |done|].
  - cbn [bc_ring set_ring]. fold r. rewrite list_lookup_insert_eq by (by eapply lookup_lt_Some). simpl.
    eapply core_perm; [symmetry; by eapply (omap_insert_same k_ticket _ _ _ (KAdvance (low r) ret))|done|].
    apply (core_pop_clear p Hp) in Hc'. exact Hc'.
  - intros i x Hne Hi Hx. cbn [bc_ring set_ring]. fold r. fold r in Hx.
    assert (k_receives x = false) as Hnr by (destruct (k_receives x) eqn:E; [by apply (kr_one _ _ _ HR _ _ Hi) in E|done]).
    destruct x; simpl in *; try done. destruct Hx as (H1 & H2 & H3 & H4). split_and!; try lia. intros ->.
    rewrite cell_near by (done || lia). auto.
  - intros i x Hne Hi _. apply k_wakes_sender. destruct (k_receives x) eqn:E; [by apply (kr_one _ _ _ HR _ _ Hi) in E|done].
Qed.

Lemma chan_advance_step n c q l ret : n + 1 < 2 ^ 64 -> chan_rel n c q -> threads c !! 0%nat = Some (KAdvance l ret) ->
  let r := bc_ring (shared c) in
  chan_rel (n + 1) (Conf (set_ring (shared c) (Ring (high r) (u64 (l + 1)) (rb_size r) (power_of_2_mod r) (buffer r)))
    (<[0%nat:=KIdle]> (threads c))) q.
Proof.
  intros Hb HR Ht r. pose proof (kr_core _ _ _ HR) as Hc. pose proof (kr_ok _ _ _ HR _ _ Ht) as E. simpl in E. fold r in E. subst l.
  rewrite Ht in Hc. simpl in Hc. fold r in Hc. pose proof (core_range _ _ _ _ _ Hc) as Hr. simpl in Hr.
  pose proof (kr_n _ _ _ HR) as Hn. fold r in Hn. pose proof (kr_low _ _ _ HR) as Hlow. fold r in Hlow. rewrite u64_small by lia.
  eapply chan_rel_step; [exact HR|exact Ht| |simpl; lia|simpl; lia|done|done| |done|].
  - cbn [bc_ring set_ring]. rewrite list_lookup_insert_eq by (by eapply lookup_lt_Some). simpl.
    eapply core_perm; [symmetry; by eapply (omap_insert_same k_ticket _ _ _ KIdle)|done|exact Hc].
  - intros i x Hne Hi Hx. cbn [bc_ring set_ring]. fold r in Hx.
    assert (k_receives x = false) as Hnr by (destruct (k_receives x) eqn:E; [by apply (kr_one _ _ _ HR _ _ Hi) in E|done]).
    destruct x; simpl in *; try done; intuition lia.
  - intros i x Hne Hi _. apply k_wakes_sender. destruct (k_receives x) eqn:E; [by apply (kr_one _ _ _ HR _ _ Hi) in E|done].
Qed.

(** The cell of the oldest message is empty: its sender has yet to write it. *)
Lemma empty_cell_active n c q : chan_rel n c q -> advances (default KIdle (threads c !! 0%nat)) = false ->
  let r := bc_ring (shared c) in cell p r (low r) = None -> low r = high r \/ k_active (threads c) (low r).
Proof.
  intros HR Hadv r Hcell. pose proof (kr_core _ _ _ HR) as Hc.
  assert (advanced (bc_ring (shared c)) (threads c !! 0%nat) = r) as E by (destruct (threads c !! 0%nat) as [[]|]; done).
  rewrite E in Hc. pose proof (core_range _ _ _ _ _ Hc) as Hr. destruct (decide (low r = high r)) as [|Hne]; [by left|right].
  pose proof (core_len _ _ _ _ _ Hc) as Hlen.
  destruct (lookup_lt_is_Some_2 q 0%nat) as [y Hy]; [lia|].
  destruct (core_in _ _ _ _ _ Hc (low r) y) as [[H1 _]|[_ Hin]]; [lia|by rewrite Z.sub_diag|congruence|].
  apply list_elem_of_omap in Hin as (pc & [t Ht]%list_elem_of_lookup & Hpc). exists t, pc. split; [done|].
  destruct pc; simplify_eq/=. eauto.
Qed.

Lemma chan_receive_step n c q t pc s' pc' evs : n + 1 < 2 ^ 64 -> chan_rel n c q -> threads c !! t = Some pc ->
  fiber_bounded_channel_receive (shared c) pc = Some (s', pc', evs) ->
  exists q', spec_run (queue_spec N) evs q = Some q' /\ chan_rel (n + 1) (Conf s' (<[t:=pc']> (threads c))) q'.
Proof.
  intros Hb HR Ht Hs. pose proof (kr_ok _ _ _ HR _ _ Ht) as Hok. pose proof (kr_n _ _ _ HR) as Hn.
  assert (t = 0%nat) as -> by (apply (kr_one _ _ _ HR _ _ Ht); by destruct pc).
  destruct (chan_counters _ _ _ HR) as (Hw & Hlow & Hlh & Hhi & Hcells). cbn zeta in Hw, Hlow, Hlh, Hhi, Hcells.
  pose proof (kr_wakes _ _ _ HR _ _ Ht) as Hwk. rewrite Ht in *.
  assert (forall pc0 k, k_ticket pc = None -> (forall h, pc <> KRaise h) -> k_active (threads c) k -> k_active (<[0%nat:=pc0]> (threads c)) k) as Hact.
  { intros pc0 k H1 H2. apply (k_active_insert _ _ pc); [done|by intros m ->|intros ->; by destruct (H2 k)]. }
  destruct pc; try discriminate Hs; simpl in Hok; cbn [fiber_bounded_channel_receive] in Hs.
  - simplify_eq. exists q. split; [done|]. eapply chan_local; eauto; try done; [simpl; lia|].
    unfold k_wakes. cbn [shared threads]. intros _. simpl in Hlh.
    destruct (decide (low (bc_ring (shared c)) = high (bc_ring (shared c)))); [by right; left|left; lia].
  - simplify_eq. exists q. split; [done|]. eapply chan_local; eauto; try done. intros Hf. specialize (Hwk Hf). simpl in *. naive_solver.
  - destruct Hok as [Hh ->]. rewrite (land_cell p Hp) in Hs by done.
    assert (forall b, (cell p (bc_ring (shared c)) (low (bc_ring (shared c))) = None \/ high <= low (bc_ring (shared c))) ->
      let pc0 := if b : bool then match bc_signal (shared c) with Some _ => KSleep | None => KRecvHigh b end else KIdle in
      chan_rel (n + 1) (Conf (shared c) (<[0%nat:=pc0]> (threads c))) q) as Hnothing.
    { intros b Hno pc0. eapply chan_local; eauto; unfold pc0; try (by destruct b, (bc_signal (shared c))).
      destruct b, (bc_signal (shared c)) eqn:Esig; try done. intros Hf. specialize (Hwk Hf). simpl in *.
      destruct Hno as [Hno|Hno].
      - destruct (empty_cell_active _ _ _ HR) as [?|?]; [by rewrite Ht|done|by left|right; by apply Hact].
      - destruct Hwk as [?|[?|?]]; [lia|by left|right; by apply Hact]. }
    destruct (cell p (bc_ring (shared c)) (low (bc_ring (shared c)))) as [ret|] eqn:Ec.
    + destruct (Z.ltb_spec (low (bc_ring (shared c))) high); simplify_eq; exists q; (split; [done|]).
      * eapply chan_local; eauto; try done. simpl. split_and!; [done|lia|done].
      * apply (Hnothing blk). right. lia.
    + simplify_eq. exists q. split; [done|]. apply (Hnothing blk). by left.
  - simplify_eq. rewrite (wf_mod _ _ Hw), land_pow2_mod by lia.
    destruct (chan_clear_step _ _ _ _ _ HR Ht) as (q' & -> & Hrel). exists q'. split; [simpl; by rewrite decide_True|done].
  - simplify_eq. exists q. split; [done|]. by apply (chan_advance_step n c q _ ret).
  - destruct (bc_signal (shared c)) as [[]|] eqn:Esig; simplify_eq. exists q. split; [done|].
    eapply chan_rel_step; [exact HR|exact Ht| |simpl; lia|simpl; lia|done|done|by intros|done|].
    + simpl. rewrite (advanced_same _ _ _ _ _ Ht) by done. eapply core_perm; [|done|apply HR].
      symmetry. by eapply omap_insert_same.
    + intros i x Hne Hi _. apply k_wakes_sender. destruct (k_receives x) eqn:E; [by apply (kr_one _ _ _ HR _ _ Hi) in E|done].
Qed.

Lemma chan_simulation n lbl c c' evs q : n + 1 < 2 ^ 64 -> chan_rel n c q -> chan_step lbl c = Some (c', evs) ->
  exists q', spec_run (queue_spec N) evs q = Some q' /\ chan_rel (n + 1) c' q'.
Proof.
  destruct lbl as [t ch]. intros Hb HR Hstep. apply conf_step_inv in Hstep as (pc & s' & pc' & Ht & Hs & ->).
  destruct ch, pc; cbn [chan_tstep] in Hs; try discriminate Hs;
    first [ by eapply (chan_send_step false) | by eapply (chan_send_step true) | by eapply chan_receive_step | idtac ].
  - case_decide; simplify_eq. exists q. split; [done|]. by eapply chan_local.
  - case_decide; simplify_eq. exists q. split; [done|]. by eapply chan_local.
Qed.

Lemma chan_init_rel signal n c : chan_init p signal n = Some c -> chan_rel 0 c [].
Proof.
  unfold chan_init, fiber_bounded_channel_create, channel_required_size. rewrite decide_True by lia.
  rewrite required_size_fits, cells_in_fits by done. intros [= <-].
  assert (ring_init p n = Some (Conf (Ring 0 0 (u32 (Z.shiftl 1 p)) (u32 (u32 (Z.shiftl 1 p) - 1))
    (replicate (Z.to_nat (2 ^ p)) (@None Z))) (replicate n RIdle))) as Hr.
  { unfold ring_init, lockfree_ring_buffer_create, ring_required_size. rewrite decide_True by lia.
    by rewrite required_size_fits, cells_in_fits by done. }
  apply (ring_init_rel p Hp) in Hr as [Hc _ _]. cbn [shared threads] in Hc.
  rewrite !omap_replicate_None in Hc by done.
  split; cbn [shared threads bc_ring]; try (simpl; lia); try (by intros t pc [-> _]%lookup_replicate).
  rewrite omap_replicate_None by done. destruct n; done.
Qed.

Lemma chan_run_rel signal n ls c0 c evs : chan_init p signal n = Some c0 -> Z.of_nat (length ls) < 2 ^ 64 ->
  run chan_step ls c0 = Some (c, evs) ->
  exists q, spec_run (queue_spec N) evs [] = Some q /\ chan_rel (Z.of_nat (length ls)) c q.
Proof.
  intros Hi Hl Hrun.
  destruct (run_simulation chan_step (queue_spec (A := Z) N) (2 ^ 64) chan_rel)
    with (ls := ls) (n := 0) (s := c0) (s' := c) (evs := evs) (a := @nil Z)
    as (q & Hq & HR); eauto using chan_init_rel.
  intros. by eapply chan_simulation.
Qed.
End chan_proof.

(** ** Properties *)

(** C18: The bounded channel is a FIFO queue of its capacity.  In every
    interleaving of any number of senders with the receiver (with or without a
    signal, spurious failures included, fewer than 2^64 steps, at most 2^28
    messages, beyond which the allocation wraps), messages are
    received in the order in which their senders claimed a position, each once,
    and a send claims a position only when fewer than [size] messages are in the
    channel: none is lost or overwritten. *)
Theorem bounded_channel_fifo p signal n ls c0 c evs : 0 < p < 29 ->
  chan_init p signal n = Some c0 -> Z.of_nat (length ls) < 2 ^ 64 -> run chan_step ls c0 = Some (c, evs) ->
  exists q, spec_run (queue_spec (2 ^ p)) evs [] = Some q /\ Z.of_nat (length q) <= 2 ^ p.
Proof.
  intros Hp Hi Hl Hrun. destruct (chan_run_rel p Hp signal n ls c0 c evs Hi Hl Hrun) as (q & Hq & HR).
  exists q. split; [done|]. pose proof (kr_core _ _ _ _ HR) as Hc.
  pose proof (core_len _ _ _ _ _ Hc). pose proof (core_range _ _ _ _ _ Hc). lia.
Qed.

(** The receiver does not sleep through a message.  When it is asleep on the
    signal, the signal is not raised and a message is in the channel, then the
    sender of the oldest message is between claiming its position and raising
    the signal, and it can take its next step. *)
Theorem bounded_channel_no_lost_wakeup p n ls c0 c evs q : 0 < p < 29 ->
  chan_init p (Some false) n = Some c0 -> Z.of_nat (length ls) < 2 ^ 64 -> run chan_step ls c0 = Some (c, evs) ->
  spec_run (queue_spec (2 ^ p)) evs [] = Some q -> q <> [] ->
  threads c !! 0%nat = Some KSleep -> bc_signal (shared c) = Some false ->
  exists t pc c', threads c !! t = Some pc /\
    ((exists m, pc = KStore m (low (bc_ring (shared c)))) \/ pc = KRaise (low (bc_ring (shared c)))) /\
    chan_step (t, KGo) c = Some (c', []).
Proof.
  intros Hp Hi Hl Hrun Hq Hne Ht Hsig. destruct (chan_run_rel p Hp _ n ls c0 c evs Hi Hl Hrun) as (q' & Hq' & HR).
  rewrite Hq in Hq'. injection Hq' as <-. pose proof (kr_core _ _ _ _ HR) as Hc. rewrite Ht in Hc. simpl in Hc.
  pose proof (core_len _ _ _ _ _ Hc) as Hlen.
  destruct (kr_wakes _ _ _ _ HR _ _ Ht Hsig) as [E|(t & pc & Hpc & Hcl)].
  - destruct q; [done|]. simpl in Hlen. lia.
  - exists t, pc. unfold chan_step, conf_step. cbn [fst snd]. rewrite Hpc.
    destruct Hcl as [[m ->] | ->]; eexists; (split; [done|]); split; [by eauto|reflexivity|by eauto|reflexivity].
Qed.

(** Two messages cross a channel of two; the receiver sleeps while the first
    sender has claimed its position but not written it. *)
Definition chan_demo_sleep : list (nat * chan_choice) :=
  [(1%nat, KCallSend 70)] ++ replicate 4 (1%nat, KGo) ++ [(0%nat, KCallReceive true)] ++ replicate 3 (0%nat, KGo).
Definition chan_demo : list (nat * chan_choice) :=
  chan_demo_sleep ++ replicate 2 (1%nat, KGo) ++ [(2%nat, KCallSend 71)] ++ replicate 6 (2%nat, KGo) ++ replicate 6 (0%nat, KGo).

Lemma bounded_channel_fifo_witness : exists q,
  spec_run (queue_spec 2) [Enq 70; Enq 71; Deq 70] [] = Some q /\ Z.of_nat (length q) <= 2.
Proof.
  eapply (bounded_channel_fifo 1 (Some false) 3 chan_demo); [lia|vm_compute; reflexivity|vm_compute; reflexivity|].
  vm_compute. reflexivity.
Defined.

Lemma bounded_channel_no_lost_wakeup_witness : exists c0 c,
  chan_init 1 (Some false) 3 = Some c0 /\ run chan_step chan_demo_sleep c0 = Some (c, [Enq 70]) /\
  exists t pc c', threads c !! t = Some pc /\
    ((exists m, pc = KStore m (low (bc_ring (shared c)))) \/ pc = KRaise (low (bc_ring (shared c)))) /\
    chan_step (t, KGo) c = Some (c', []).
Proof.
  do 2 eexists. split; [vm_compute; reflexivity|]. split; [vm_compute; reflexivity|].
  eapply (bounded_channel_no_lost_wakeup 1 3 chan_demo_sleep _ _ [Enq 70] [70]);
    [lia|vm_compute; reflexivity|vm_compute; reflexivity|vm_compute; reflexivity|vm_compute; reflexivity|discriminate
    |reflexivity|reflexivity].
Defined.

(** The size passed to [calloc] wraps: for a channel of 2^29 messages or
    more, [required_size] has no room for any of them. *)
Theorem channel_required_size_wraps p : 0 < p < 32 ->
  channel_required_size p =
    if decide (p <= 28) then sizeof_fiber_bounded_channel + 2 ^ p * sizeof_ptr else sizeof_fiber_bounded_channel.
Proof.
  intros Hp. case_decide as Hle.
  - apply required_size_fits; [lia|done].
  - assert (p = 29 \/ p = 30 \/ p = 31) as [-> | [-> | ->]] by lia; vm_compute; reflexivity.
Qed.

Lemma channel_required_size_wraps_witness : channel_required_size 30 = sizeof_fiber_bounded_channel.
Proof. exact (channel_required_size_wraps 30 ltac:(lia)). Defined.
