(* ===== verification/UnboundedChannel.v ===== *)
(** * Unbounded channels ([include/fiber_channel.h])

    A queue of message nodes and a signal: a send pushes the node and raises the
    signal, the receiver pops and sleeps on the signal when it finds nothing.
    The queue is any [WaitQueue], with messages in the place of fibers;
    [fiber_unbounded_channel] uses the multi-producer one and
    [fiber_unbounded_sp_channel] the single-producer one, which has the same
    laws.  The signal is the flag of [Signal]. *)

From S2P Require Import Prelude RingBuffer MpscFifo SpscFifo WaitQueue ItemQueue.

(** ** The single-producer queue of messages *)

(** The push of [spsc_fifo.h] up to the write of the tail, and its link. *)
Definition spsc_msg_push (m : nat) (q : mpsc_queue) : option mpsc_queue :=
  n ← mq_node q !! m;
  h ← store_data (mq_heap q) n (Z.of_nat m);
  r1 ← spsc_fifo_push (SpShared (MShared h (mq_fifo q) ∅ None) None) (SpPushInit n);
  r2 ← spsc_fifo_push r1.1.1 r1.1.2;
  r3 ← spsc_fifo_push r2.1.1 r2.1.2;
  match r3.1.2 with
  | SpPushLink prev n => Some (MQueue (m_heap (sp_fifo r3.1.1)) (m_fifo (sp_fifo r3.1.1))
      (delete m (mq_node q)) (<[m:=(prev, n)]> (mq_push q)))
  | _ => None
  end.

Definition spsc_msg_link (m : nat) (q : mpsc_queue) : option mpsc_queue :=
  p ← mq_push q !! m;
  r ← spsc_fifo_push (SpShared (MShared (mq_heap q) (mq_fifo q) ∅ None) None) (SpPushLink p.1 p.2);
  Some (MQueue (m_heap (sp_fifo r.1.1)) (m_fifo (sp_fifo r.1.1)) (mq_node q) (delete m (mq_push q))).

(** The whole pop, by the one receiver. *)
Definition spsc_msg_trypop (q : mpsc_queue) : option (option nat * mpsc_queue) :=
  let s0 := SpShared (MShared (mq_heap q) (mq_fifo q) ∅ None) None in
  r1 ← spsc_fifo_trypop s0 SpPopHead;
  r2 ← spsc_fifo_trypop r1.1.1 r1.1.2;
  match r2.1.2 with
  | SpPopDone _ => Some (None, q)
  | pc =>
      r3 ← spsc_fifo_trypop r2.1.1 pc;
      r4 ← spsc_fifo_trypop r3.1.1 r3.1.2;
      r5 ← spsc_fifo_trypop r4.1.1 r4.1.2;
      match r5.1.2 with
      | SpPopDone out =>
          d ← load_data (m_heap (sp_fifo r5.1.1)) out;
          Some (Some (Z.to_nat d), MQueue (m_heap (sp_fifo r5.1.1)) (m_fifo (sp_fifo r5.1.1))
                 (<[Z.to_nat d:=out]> (mq_node q)) (mq_push q))
      | _ => None
      end
  end.

(** Run without interference, they compute what the multi-producer ones do. *)
Lemma spsc_msg_push_eq m q : spsc_msg_push m q = mpsc_wait_xchg m q.
Proof.
  unfold spsc_msg_push, mpsc_wait_xchg. destruct (mq_node q !! m) as [n|]; [|done]. simpl.
  destruct (store_data _ _ _) as [h|]; [|done]. simpl. destruct (store_next _ _ _) as [h'|]; [|done]. simpl.
  by destruct (load_data _ _).
Qed.

Lemma spsc_msg_link_eq m q : spsc_msg_link m q = mpsc_wait_link m q.
Proof.
  unfold spsc_msg_link, mpsc_wait_link. destruct (mq_push q !! m) as [p|]; [|done]. simpl.
  by destruct (store_next _ _ _).
Qed.

Lemma spsc_msg_trypop_eq q : spsc_msg_trypop q = mpsc_wake_trypop q.
Proof.
  unfold spsc_msg_trypop, mpsc_wake_trypop. simpl. destruct (load_next _ _) as [x|]; [|done]. simpl.
  case_decide; [done|]. simpl. destruct (load_data _ _) as [d|]; [|done]. simpl. by destruct (store_data _ _ _).
Qed.

Definition spsc_msg_queue : WaitQueue mpsc_queue.
Proof.
  refine (Build_WaitQueue _ mpsc_queue_init spsc_msg_push spsc_msg_link spsc_msg_trypop
    mpsc_queue_destroy mpsc_queue_kept mpsc_queue_repr (@wq_init_spec _ mpsc_wait_queue) _ _ _ _ (@wq_destroy_spec _ mpsc_wait_queue)).
  - intros n q l f. rewrite spsc_msg_push_eq. apply (@wq_xchg_spec _ mpsc_wait_queue).
  - intros n q l1 l2 f. rewrite spsc_msg_link_eq. apply (@wq_link_spec _ mpsc_wait_queue).
  - intros n q l f. rewrite spsc_msg_trypop_eq. apply (@wq_pop_spec _ mpsc_wait_queue).
  - intros n q l. rewrite spsc_msg_trypop_eq. apply (@wq_pop_empty _ mpsc_wait_queue).
Defined.

Section uchan.
Context {Q : Type} `{WaitQueue Q}.

(** ** State *)

(** [uc_owned]: the messages in the hands of the callers, never read by the
    operations. *)
Record uchan := UChan { uc_queue : Q; uc_signal : option bool; uc_owned : gset nat }.

Inductive uchan_pc :=
| UIdle
| UPush (message : nat)          (* the push, up to the exchange of the tail *)
| ULink (message : nat)          (* the end of the push *)
| URaise (message : nat)
| UPop (blk : bool)              (* receive, try_receive *)
| USleep.                        (* in fiber_signal_wait *)

Inductive uchan_choice := UCallSend (message : nat) | UCallReceive (blk : bool) | UGo.

(** ** Operations *)

Definition fiber_unbounded_channel_init (n : nat) (signal : option bool) : uchan :=
  UChan (wq_init n) signal (set_seq 0 n).

Definition fiber_unbounded_channel_send (s : uchan) (pc : uchan_pc)
    : option (uchan * uchan_pc * list (queue_ev nat)) :=
  match pc with
  | UPush m => q ← wq_xchg m (uc_queue s); Some (UChan q (uc_signal s) (uc_owned s), ULink m, [Enq m])
  | ULink m =>
      q ← wq_link m (uc_queue s);
      Some (UChan q (uc_signal s) (uc_owned s), match uc_signal s with Some _ => URaise m | None => UIdle end, [])
  | URaise _ => Some (UChan (uc_queue s) (Some true) (uc_owned s), UIdle, [])
  | _ => None
  end.

(** [fiber_unbounded_channel_receive], and [fiber_unbounded_channel_try_receive]
    when not [blk]. *)
Definition fiber_unbounded_channel_receive (s : uchan) (pc : uchan_pc)
    : option (uchan * uchan_pc * list (queue_ev nat)) :=
  match pc with
  | UPop b =>
      '(out, q) ← wq_trypop (uc_queue s);
      match out with
      | Some m => Some (UChan q (uc_signal s) ({[m]} ∪ uc_owned s), UIdle, [Deq m])
      | None => Some (UChan q (uc_signal s) (uc_owned s),
                      if b then match uc_signal s with Some _ => USleep | None => UPop b end else UIdle, [])
      end
  | USleep =>
      match uc_signal s with Some true => Some (UChan (uc_queue s) (Some false) (uc_owned s), UPop true, []) | _ => None end
  | _ => None
  end.

(** Fiber 0 is the receiver; a sender owns the message it sends. *)
Definition uchan_tstep (t : nat) (ch : uchan_choice) (s : uchan) (pc : uchan_pc)
    : option (uchan * uchan_pc * list (queue_ev nat)) :=
  match ch, pc with
  | UCallSend m, UIdle =>
      if decide (m ∈ uc_owned s) then Some (UChan (uc_queue s) (uc_signal s) (uc_owned s ∖ {[m]}), UPush m, []) else None
  | UCallReceive b, UIdle => if decide (t = 0%nat) then Some (s, UPop b, []) else None
  | UGo, (UPush _ | ULink _ | URaise _) => fiber_unbounded_channel_send s pc
  | UGo, (UPop _ | USleep) => fiber_unbounded_channel_receive s pc
  | _, _ => None
  end.

Definition uchan_conf := conf uchan uchan_pc.
Definition uchan_step := conf_step uchan_tstep.
Definition uchan_init (m : nat) (signal : option bool) (n : nat) : uchan_conf :=
  Conf (fiber_unbounded_channel_init m signal) (replicate n UIdle).

(** An unbounded queue of messages. *)
Definition msg_spec (e : queue_ev nat) (q : list nat) : option (list nat) :=
  match e, q with
  | Enq m, q => Some (q ++ [m])
  | Deq m, x :: q => if decide (m = x) then Some q else None
  | Deq _, [] => None
  end.

(** ** Invariant *)

Definition u_pushing (pc : uchan_pc) : option nat := match pc with UPush m => Some m | _ => None end.
Definition u_linking (pc : uchan_pc) : option nat := match pc with ULink m => Some m | _ => None end.

(** A sender of [m] that has pushed it and not raised the signal. *)
Definition u_active (ths : list uchan_pc) (m : nat) : Prop := exists t, ths !! t = Some (ULink m) \/ ths !! t = Some (URaise m).

Record uchan_rel (nm : nat) (c : uchan_conf) (q : list nat) (l : list (nat * bool)) : Prop := {
  ur_items : items nm (uc_queue (shared c)) l (omap u_pushing (threads c)) (omap u_linking (threads c)) (uc_owned (shared c));
  ur_queue : q = l.*1;
  ur_one : forall t, (threads c !! t = Some USleep \/ exists b, threads c !! t = Some (UPop b)) -> t = 0%nat;
  ur_wakes : threads c !! 0%nat = Some USleep -> uc_signal (shared c) = Some false ->
    forall m, head q = Some m -> u_active (threads c) m
}.

Lemma u_active_insert (ths : list uchan_pc) t pc pc' m : ths !! t = Some pc ->
  (pc = ULink m -> pc' = URaise m) -> (pc <> URaise m) -> u_active ths m -> u_active (<[t:=pc']> ths) m.
Proof.
  intros Ht H1 H2 [i Hi]. exists i. destruct (decide (i = t)) as [->|Hne]; [|by rewrite list_lookup_insert_ne].
  rewrite list_lookup_insert_eq by (by eapply lookup_lt_Some). rewrite Ht in Hi.
  destruct Hi as [[= Hi]|[= Hi]]; [right; by rewrite H1|by destruct H2].
Qed.

(** ** Preservation *)

Lemma uchan_rel_step nm c q l t pc s' pc' q' l' : uchan_rel nm c q l -> threads c !! t = Some pc ->
  let ths' := <[t:=pc']> (threads c) in
  items nm (uc_queue s') l' (omap u_pushing ths') (omap u_linking ths') (uc_owned s') -> q' = l'.*1 ->
  ((pc' = USleep \/ exists b, pc' = UPop b) -> t = 0%nat) ->
  (ths' !! 0%nat = Some USleep -> uc_signal s' = Some false -> forall m, head q' = Some m -> u_active ths' m) ->
  uchan_rel nm (Conf s' ths') q' l'.
Proof.
  intros HR Ht ths' H1 H2 H3 H4. split; cbn [shared threads]; auto.
  intros i Hi. destruct (decide (i = t)) as [->|Hne].
  - unfold ths' in Hi. rewrite list_lookup_insert_eq in Hi by (by eapply lookup_lt_Some). naive_solver.
  - unfold ths' in Hi. rewrite list_lookup_insert_ne in Hi by done. by apply (ur_one _ _ _ _ HR).
Qed.

(** The receiver's wake-up when some fiber other than it, or awake, moves. *)
Lemma u_wakes_insert nm c q l t pc pc' m : uchan_rel nm c q l -> threads c !! t = Some pc -> pc' <> USleep ->
  (pc = ULink m -> pc' = URaise m) -> pc <> URaise m ->
  <[t:=pc']> (threads c) !! 0%nat = Some USleep -> uc_signal (shared c) = Some false -> head q = Some m ->
  u_active (<[t:=pc']> (threads c)) m.
Proof.
  intros HR Ht Hp H1 H2 H0 Hf Hm. apply (u_active_insert _ _ _ _ _ Ht); [done|done|]. apply (ur_wakes _ _ _ _ HR); [|done|done].
  apply lookup_insert_cases in H0 as [(_ & E)|(_ & H0)]; congruence.
Qed.

(** The two lists of pushers when neither changes. *)
Lemma u_lists_same ths t pc pc' nm q l (own : gset nat) : ths !! t = Some pc ->
  u_pushing pc' = u_pushing pc -> u_linking pc' = u_linking pc ->
  items nm q l (omap u_pushing ths) (omap u_linking ths) own ->
  items nm q l (omap u_pushing (<[t:=pc']> ths)) (omap u_linking (<[t:=pc']> ths)) own.
Proof.
  intros Ht E1 E2 Hi. by rewrite (omap_insert_same u_pushing _ _ _ pc' Ht E1), (omap_insert_same u_linking _ _ _ pc' Ht E2).
Qed.

Lemma uchan_push_step nm c q l t m s' pc' evs : uchan_rel nm c q l -> threads c !! t = Some (UPush m) ->
  fiber_unbounded_channel_send (shared c) (UPush m) = Some (s', pc', evs) ->
  exists q' l', spec_run msg_spec evs q = Some q' /\ uchan_rel nm (Conf s' (<[t:=pc']> (threads c))) q' l'.
Proof.
  intros HR Ht Hs. pose proof (ur_items _ _ _ _ HR) as Hit. pose proof (ur_queue _ _ _ _ HR) as Eq.
  cbn [fiber_unbounded_channel_send] in Hs.
  rewrite (omap_insert_del u_pushing _ _ _ (ULink m) m Ht eq_refl eq_refl) in Hit.
  destruct (items_xchg _ _ _ _ _ _ _ Hit) as (q1 & E & Hit'). rewrite E in Hs. injection Hs as <- <- <-.
  rewrite <- (omap_insert_add u_linking _ _ _ (ULink m) m Ht eq_refl eq_refl) in Hit'.
  exists (q ++ [m]), (l ++ [(m, false)]). split; [done|].
  eapply uchan_rel_step; [exact HR|exact Ht|exact Hit'|by rewrite fmap_app, Eq|naive_solver|].
  intros H0 Hf x Hx. destruct q as [|y q].
  - simpl in Hx. simplify_eq. exists t. left. apply list_lookup_insert_eq. by eapply lookup_lt_Some.
  - simpl in Hx. injection Hx as <-. by eapply (u_wakes_insert _ _ _ _ _ _ _ y HR Ht).
Qed.

Lemma uchan_link_step nm c q l t m s' pc' evs : uchan_rel nm c q l -> threads c !! t = Some (ULink m) ->
  fiber_unbounded_channel_send (shared c) (ULink m) = Some (s', pc', evs) ->
  exists q' l', spec_run msg_spec evs q = Some q' /\ uchan_rel nm (Conf s' (<[t:=pc']> (threads c))) q' l'.
Proof.
  intros HR Ht Hs. pose proof (ur_items _ _ _ _ HR) as Hit. pose proof (ur_queue _ _ _ _ HR) as Eq.
  cbn [fiber_unbounded_channel_send] in Hs. set (pc1 := match uc_signal (shared c) with Some _ => URaise m | None => UIdle end) in *.
  assert (u_linking pc1 = None /\ u_pushing pc1 = None) as [P1 P2] by (unfold pc1; by destruct (uc_signal (shared c))).
  rewrite (omap_insert_del u_linking _ _ _ pc1 m Ht eq_refl P1) in Hit.
  destruct (items_link _ _ _ _ _ _ _ Hit) as (q1 & l1 & E & Hl & Hit'). rewrite E in Hs. injection Hs as <- <- <-.
  rewrite <- (omap_insert_same u_pushing _ _ _ pc1 Ht P2) in Hit'.
  exists q, l1. split; [done|]. eapply uchan_rel_step; [exact HR|exact Ht|exact Hit'|by rewrite Hl| |]; cbn [uc_signal].
  - unfold pc1. destruct (uc_signal (shared c)); naive_solver.
  - intros H0 Hf x Hx. eapply (u_wakes_insert _ _ _ _ _ _ _ x HR Ht); try done.
    + unfold pc1. by rewrite Hf.
    + intros [= <-]. unfold pc1. by rewrite Hf.
Qed.

Lemma uchan_raise_step nm c q l t m : uchan_rel nm c q l -> threads c !! t = Some (URaise m) ->
  uchan_rel nm (Conf (UChan (uc_queue (shared c)) (Some true) (uc_owned (shared c))) (<[t:=UIdle]> (threads c))) q l.
Proof.
  intros HR Ht. eapply uchan_rel_step; [exact HR|exact Ht| |apply HR|naive_solver|done].
  eapply u_lists_same; [exact Ht|done|done|apply HR].
Qed.

Lemma uchan_pop_step nm c q l b s' pc' evs : uchan_rel nm c q l -> threads c !! 0%nat = Some (UPop b) ->
  fiber_unbounded_channel_receive (shared c) (UPop b) = Some (s', pc', evs) ->
  exists q' l', spec_run msg_spec evs q = Some q' /\ uchan_rel nm (Conf s' (<[0%nat:=pc']> (threads c))) q' l'.
Proof.
  intros HR Ht Hs. pose proof (ur_items _ _ _ _ HR) as Hit. pose proof (ur_queue _ _ _ _ HR) as Eq.
  cbn [fiber_unbounded_channel_receive] in Hs.
  destruct (items_pop _ _ _ _ _ _ Hit) as [(m & l' & q1 & -> & E & Hm & Hit')|[E Hhd]]; rewrite E in Hs; simpl in Hs; injection Hs as <- <- <-.
  - exists (l'.*1), l'. split; [subst; simpl; by rewrite decide_True|].
    eapply uchan_rel_step; [exact HR|exact Ht| |done|naive_solver|].
    + eapply u_lists_same; [exact Ht|done|done|exact Hit'].
    + intros H0. rewrite list_lookup_insert_eq in H0 by (by eapply lookup_lt_Some). done.
  - set (pc1 := if b then _ else _). exists q, l. split; [done|].
    assert (u_pushing pc1 = None /\ u_linking pc1 = None) as (P1 & P2) by (unfold pc1; by destruct b, (uc_signal (shared c))).
    eapply uchan_rel_step; [exact HR|exact Ht| |done|done|].
    + eapply u_lists_same; [exact Ht|done|done|exact Hit].
    + intros _ _ m Hm. apply (u_active_insert _ _ _ _ _ Ht); [done|done|]. subst q. apply Hhd in Hm.
      apply list_elem_of_omap in Hm as (p & [u Hu]%list_elem_of_lookup & Hp). exists u. left. destruct p; simplify_eq/=. done.
Qed.

Lemma uchan_simulation nm lbl c c' evs q l : uchan_rel nm c q l -> uchan_step lbl c = Some (c', evs) ->
  exists q' l', spec_run msg_spec evs q = Some q' /\ uchan_rel nm c' q' l'.
Proof.
  destruct lbl as [t ch]. intros HR Hstep. apply conf_step_inv in Hstep as (pc & s' & pc' & Ht & Hs & ->).
  pose proof (ur_items _ _ _ _ HR) as Hit.
  destruct ch as [m|b|], pc as [|m1|m1|m1|b1|]; cbn [uchan_tstep] in Hs; try discriminate Hs.
  - case_decide as Hm; [|done]. injection Hs as <- <- <-. exists q, l. split; [done|].
    apply (items_call _ _ _ _ _ _ m) in Hit; [|done].
    rewrite <- (omap_insert_add u_pushing _ _ _ (UPush m) m Ht eq_refl eq_refl),
      <- (omap_insert_same u_linking _ _ _ (UPush m) Ht eq_refl) in Hit.
    eapply uchan_rel_step; [exact HR|exact Ht|exact Hit|apply HR|naive_solver|].
    intros H0 Hf x Hx. by eapply (u_wakes_insert _ _ _ _ _ _ _ x HR Ht).
  - case_decide as H0; [|done]. injection Hs as <- <- <-. exists q, l. split; [done|].
    eapply uchan_rel_step; [exact HR|exact Ht|by eapply u_lists_same|apply HR|done|].
    intros E Hf x Hx. by eapply (u_wakes_insert _ _ _ _ _ _ _ x HR Ht).
  - by eapply uchan_push_step.
  - by eapply uchan_link_step.
  - injection Hs as <- <- <-. exists q, l. split; [done|]. by eapply uchan_raise_step.
  - assert (t = 0%nat) as -> by (apply (ur_one _ _ _ _ HR); eauto). by eapply uchan_pop_step.
  - assert (t = 0%nat) as -> by (apply (ur_one _ _ _ _ HR); eauto). cbn [fiber_unbounded_channel_receive] in Hs.
    destruct (uc_signal (shared c)) as [[]|] eqn:Es; try discriminate Hs. injection Hs as <- <- <-. exists q, l. split; [done|].
    eapply uchan_rel_step; [exact HR|exact Ht|by eapply u_lists_same|apply HR|done|].
    intros H0. rewrite list_lookup_insert_eq in H0 by (by eapply lookup_lt_Some). done.
Qed.

Lemma uchan_init_rel nm signal n : uchan_rel nm (uchan_init nm signal n) [] [].
Proof.
  split; cbn; try done.
  - rewrite !omap_replicate_None by done. apply items_init.
  - by intros t [[? _]%lookup_replicate|[b [? _]%lookup_replicate]].
Qed.

Lemma uchan_run_rel nm signal n ls c evs : run uchan_step ls (uchan_init nm signal n) = Some (c, evs) ->
  exists q l, spec_run msg_spec evs [] = Some q /\ uchan_rel nm c q l.
Proof.
  intros Hrun.
  destruct (run_simulation uchan_step msg_spec (Z.of_nat (length ls) + 1) (fun _ c q => exists l, uchan_rel nm c q l))
    with (ls := ls) (n := 0) (s := uchan_init nm signal n) (s' := c) (evs := evs) (a := @nil nat)
    as (q & Hq & l & HR); eauto.
  - intros k lbl s s' e a _ (l & HR) Hs. destruct (uchan_simulation nm lbl s s' e a l HR Hs) as (q' & l' & ? & ?). eauto.
  - lia.
  - exists []. apply uchan_init_rel.
Qed.

(** What both channels promise: see the properties below. *)
Lemma uchan_delivers nm signal n ls c evs : run uchan_step ls (uchan_init nm signal n) = Some (c, evs) ->
  exists q, spec_run msg_spec evs [] = Some q /\ NoDup q /\
    (threads c !! 0%nat = Some USleep -> uc_signal (shared c) = Some false -> forall m, head q = Some m ->
     exists t c', (threads c !! t = Some (ULink m) \/ threads c !! t = Some (URaise m)) /\ uchan_step (t, UGo) c = Some (c', [])).
Proof.
  intros Hrun. destruct (uchan_run_rel _ _ _ _ _ _ Hrun) as (q & l & Hq & HR). exists q. split; [done|].
  pose proof (ur_items _ _ _ _ HR) as Hit. pose proof (it_where _ _ _ _ _ _ Hit) as Hnd. apply NoDup_app in Hnd as [Hnd _].
  split; [by rewrite (ur_queue _ _ _ _ HR)|]. intros H0 Hf m Hm. destruct (ur_wakes _ _ _ _ HR H0 Hf m Hm) as (t & Ht). exists t.
  unfold uchan_step, conf_step. cbn [fst snd]. destruct Ht as [Ht|Ht]; rewrite Ht; cbn [mbind option_bind uchan_tstep fiber_unbounded_channel_send].
  - rewrite (omap_insert_del u_linking _ _ _ UIdle m Ht eq_refl eq_refl) in Hit.
    destruct (items_link _ _ _ _ _ _ _ Hit) as (q1 & _ & E & _). rewrite E. simpl. eauto.
  - eauto.
Qed.
End uchan.

(** ** The single-producer channel *)

(** Fiber 1 is the only sender. *)
Definition fiber_unbounded_sp_channel_init : nat -> option bool -> uchan := fiber_unbounded_channel_init (H := spsc_msg_queue).
Definition fiber_unbounded_sp_channel_send : uchan -> uchan_pc -> option (uchan * uchan_pc * list (queue_ev nat)) :=
  fiber_unbounded_channel_send (H := spsc_msg_queue).
Definition fiber_unbounded_sp_channel_receive : uchan -> uchan_pc -> option (uchan * uchan_pc * list (queue_ev nat)) :=
  fiber_unbounded_channel_receive (H := spsc_msg_queue).

Definition sp_tstep (t : nat) (ch : uchan_choice) (s : uchan) (pc : uchan_pc)
    : option (uchan * uchan_pc * list (queue_ev nat)) :=
  match ch, pc with
  | UCallSend m, UIdle =>
      if decide (t = 1%nat /\ m ∈ uc_owned s) then Some (UChan (uc_queue s) (uc_signal s) (uc_owned s ∖ {[m]}), UPush m, []) else None
  | UCallReceive b, UIdle => if decide (t = 0%nat) then Some (s, UPop b, []) else None
  | UGo, (UPush _ | ULink _ | URaise _) => fiber_unbounded_sp_channel_send s pc
  | UGo, (UPop _ | USleep) => fiber_unbounded_sp_channel_receive s pc
  | _, _ => None
  end.

Definition sp_step := conf_step sp_tstep.
Definition sp_init (m : nat) (signal : option bool) (n : nat) : uchan_conf :=
  Conf (fiber_unbounded_sp_channel_init m signal) (replicate n UIdle).

(** Its runs are runs of the channel over the single-producer queue. *)
Lemma sp_step_uchan lbl c x : sp_step lbl c = Some x -> uchan_step (H := spsc_msg_queue) lbl c = Some x.
Proof.
  destruct lbl as [t ch]. unfold sp_step, uchan_step, conf_step. cbn [fst snd].
  destruct (threads c !! t) as [pc|]; [|done]. simpl. destruct ch, pc; simpl; try done.
  case_decide as E; [|done]. by rewrite decide_True by apply E.
Qed.

Lemma sp_run_uchan ls : forall c x, run sp_step ls c = Some x -> run (uchan_step (H := spsc_msg_queue)) ls c = Some x.
Proof.
  induction ls as [|l ls IH]; intros c [c' evs] Hr; [done|].
  apply run_cons_inv in Hr as (c1 & e1 & e2 & Hs & Hr & ->). simpl. rewrite (sp_step_uchan _ _ _ Hs). simpl.
  by rewrite (IH _ _ Hr).
Qed.

(** ** Properties *)

(** An unbounded channel neither loses messages nor sleeps through them.  In
    every interleaving of senders with the receiver, messages are received in
    the order of the pushes, each once; and when the receiver is asleep on the
    signal, which is not raised, and a message is in the queue, the sender of
    the oldest message has not raised the signal yet and can take its next
    step. *)
Theorem unbounded_channel_delivers nm signal n ls c evs :
  run (uchan_step (H := mpsc_wait_queue)) ls (uchan_init nm signal n) = Some (c, evs) ->
  exists q, spec_run msg_spec evs [] = Some q /\ NoDup q /\
    (threads c !! 0%nat = Some USleep -> uc_signal (shared c) = Some false -> forall m, head q = Some m ->
     exists t c', (threads c !! t = Some (ULink m) \/ threads c !! t = Some (URaise m)) /\ uchan_step (H := mpsc_wait_queue) (t, UGo) c = Some (c', [])).
Proof. apply uchan_delivers. Qed.

(** The same of the channel with a single producer. *)
Theorem sp_channel_delivers nm signal n ls c evs : run sp_step ls (sp_init nm signal n) = Some (c, evs) ->
  exists q, spec_run msg_spec evs [] = Some q /\ NoDup q /\
    (threads c !! 0%nat = Some USleep -> uc_signal (shared c) = Some false -> forall m, head q = Some m ->
     exists t c', (threads c !! t = Some (ULink m) \/ threads c !! t = Some (URaise m)) /\ sp_step (t, UGo) c = Some (c', [])).
Proof.
  intros Hr%sp_run_uchan. destruct (uchan_delivers (H := spsc_msg_queue) _ _ _ _ _ _ Hr) as (q & Hq & Hnd & Hw).
  exists q. split; [done|]. split; [done|]. intros H0 Hf m Hm. destruct (Hw H0 Hf m Hm) as (t & c' & Ht & Hs).
  exists t, c'. split; [done|]. unfold sp_step, uchan_step, conf_step in *. cbn [fst snd] in *. by destruct Ht as [Ht|Ht]; rewrite Ht in *.
Qed.

(** ** Runs *)

(** Fiber 1 has pushed message 3 but not linked it when the receiver looks. *)
Definition uchan_demo_sleep : list (nat * uchan_choice) :=
  [(1, UCallSend 3); (1, UGo); (0, UCallReceive true); (0, UGo)]%nat.

Lemma unbounded_channel_delivers_witness : exists c q,
  run (uchan_step (H := mpsc_wait_queue)) uchan_demo_sleep (uchan_init 4 (Some false) 3) = Some (c, [Enq 3%nat]) /\
  spec_run msg_spec [Enq 3%nat] [] = Some q /\ NoDup q /\
  (threads c !! 0%nat = Some USleep -> uc_signal (shared c) = Some false -> forall m, head q = Some m ->
   exists t c', (threads c !! t = Some (ULink m) \/ threads c !! t = Some (URaise m)) /\
     uchan_step (H := mpsc_wait_queue) (t, UGo) c = Some (c', [])).
Proof.
  edestruct (unbounded_channel_delivers 4 (Some false) 3 uchan_demo_sleep) as (q & H); [vm_compute; reflexivity|].
  eexists _, q. split; [vm_compute; reflexivity|exact H].
Defined.

Lemma sp_channel_delivers_witness : exists q,
  spec_run msg_spec [Enq 3%nat; Enq 1%nat; Deq 3%nat] [] = Some q /\ NoDup q.
Proof.
  edestruct (sp_channel_delivers 4 (Some false) 2
    [(1, UCallSend 3); (1, UGo); (0, UCallReceive true); (0, UGo); (1, UGo); (1, UGo); (1, UCallSend 1); (1, UGo); (0, UGo); (0, UGo)]%nat)
    as (q & Hq & Hnd & _); [vm_compute; reflexivity|]. by exists q.
Defined.
