(* ===== verification/WorkQueue.v ===== *)
(** * The work queue ([src/work_queue.c])

    Whoever pushes the first item becomes the worker and takes items until the
    queue answers that it is empty.  [in_count] counts the items accepted,
    [out_count] those the worker has taken since it last subtracted them; a
    push that makes [in_count] one is told to start working.  The items are in
    an [mpsc_fifo]. *)

From S2P Require Import Prelude RingBuffer MpscFifo WaitQueue ItemQueue.

Section work.
Context {Q : Type} `{WaitQueue Q}.

(** ** State *)

(** [w_owned]: the items in the hands of the callers, never read. *)
Record work_shared := WkShared { w_fifo : Q; w_in : Z; w_out : Z; w_owned : gset nat }.

(** [start]: the push returns [WORK_QUEUE_START_WORKING]. *)
Inductive work_pc :=
| WIdle
| WCount (item : nat)                       (* __sync_add_and_fetch *)
| WPushing (item : nat) (start : bool)      (* mpsc_fifo_push *)
| WLinking (item : nat) (start : bool)
| WWorking                                  (* the worker, between two calls of get_work *)
| WTrypop
| WTaken (item : nat)                       (* out_count += 1 *)
| WCheck                                    (* out_count == in_count *)
| WReset                                    (* out_count = 0 *)
| WSub (old_out_count : Z).

Inductive work_choice := WCallPush (item : nat) | WCallGet | WGo.

(** [EvAccept]: a push is counted, and told to work or not; [EvNoWork]: get_work
    returns [WORK_QUEUE_EMPTY]. *)
Inductive work_ev :=
| EvAccept (t : nat) (start : bool)
| EvQueued (item : nat)
| EvTaken (t item : nat)
| EvNoWork (t : nat).

(** ** Operations *)

Definition work_queue_init (n : nat) : work_shared := WkShared (wq_init n) 0 0 (set_seq 0 n).

Definition work_queue_destroy (s : work_shared) : option (list Z) := wq_destroy (w_fifo s).

Definition set_fifo (s : work_shared) (q : Q) : work_shared := WkShared q (w_in s) (w_out s) (w_owned s).
Definition set_in (s : work_shared) (v : Z) : work_shared := WkShared (w_fifo s) v (w_out s) (w_owned s).
Definition set_out (s : work_shared) (v : Z) : work_shared := WkShared (w_fifo s) (w_in s) v (w_owned s).

Definition work_queue_push (t : nat) (s : work_shared) (pc : work_pc) : option (work_shared * work_pc * list work_ev) :=
  match pc with
  | WCount item =>
      let in_count := i64 (w_in s + 1) in
      Some (set_in s in_count, WPushing item (Z.eqb in_count 1), [EvAccept t (Z.eqb in_count 1)])
  | WPushing item start => q ← wq_xchg item (w_fifo s); Some (set_fifo s q, WLinking item start, [EvQueued item])
  | WLinking item start => q ← wq_link item (w_fifo s); Some (set_fifo s q, if start then WWorking else WIdle, [])
  | _ => None
  end.

Definition work_queue_get_work (t : nat) (s : work_shared) (pc : work_pc) : option (work_shared * work_pc * list work_ev) :=
  match pc with
  | WTrypop =>
      '(out, q) ← wq_trypop (w_fifo s);
      match out with
      | Some item => Some (WkShared q (w_in s) (w_out s) ({[item]} ∪ w_owned s), WTaken item, [EvTaken t item])
      | None => Some (set_fifo s q, WCheck, [])
      end
  | WTaken _ => Some (set_out s (i64 (w_out s + 1)), WWorking, []) (* WORK_QUEUE_MORE_WORK *)
  | WCheck => Some (s, if Z.eqb (w_out s) (w_in s) then WReset else WTrypop, [])
  | WReset => Some (set_out s 0, WSub (w_out s), [])
  | WSub old_out_count =>
      let new_in_count := i64 (w_in s - old_out_count) in
      if Z.eqb new_in_count 0 then Some (set_in s new_in_count, WIdle, [EvNoWork t]) (* WORK_QUEUE_EMPTY *)
      else Some (set_in s new_in_count, WTrypop, [])
  | _ => None
  end.

(** A caller pushes an item it owns; only a thread told to work calls get_work. *)
Definition work_tstep (t : nat) (ch : work_choice) (s : work_shared) (pc : work_pc) : option (work_shared * work_pc * list work_ev) :=
  match ch, pc with
  | WCallPush item, WIdle =>
      if decide (item ∈ w_owned s) then Some (WkShared (w_fifo s) (w_in s) (w_out s) (w_owned s ∖ {[item]}), WCount item, []) else None
  | WCallGet, WWorking => Some (s, WTrypop, [])
  | WGo, (WCount _ | WPushing _ _ | WLinking _ _) => work_queue_push t s pc
  | WGo, (WTrypop | WTaken _ | WCheck | WReset | WSub _) => work_queue_get_work t s pc
  | _, _ => None
  end.

Definition work_conf := conf work_shared work_pc.
Definition work_step := conf_step work_tstep.
Definition work_init (m n : nat) : work_conf := Conf (work_queue_init m) (replicate n WIdle).

(** ** Specification *)

(** The worker, the number of items accepted and not taken, and those that are
    in the queue.  A push is told to work exactly when nobody works, the worker
    alone takes items, oldest first, and it is told that there is no more work
    exactly when every accepted item has been taken. *)
Definition work_spec (e : work_ev) (a : option nat * Z * list nat) : option (option nat * Z * list nat) :=
  let '(worker, pending, q) := a in
  match e with
  | EvAccept t start =>
      if Bool.eqb start (bool_decide (worker = None))
      then Some (if start then Some t else worker, pending + 1, q) else None
  | EvQueued item => if Z.ltb (Z.of_nat (length q)) pending then Some (worker, pending, q ++ [item]) else None
  | EvTaken t item =>
      match q with
      | x :: q => if decide (item = x /\ worker = Some t) then Some (worker, pending - 1, q) else None
      | [] => None
      end
  | EvNoWork t => if decide (worker = Some t /\ pending = 0) then Some (None, pending, q) else None
  end.

(** ** Invariant *)

Definition w_pushing (pc : work_pc) : option nat := match pc with WCount i | WPushing i _ => Some i | _ => None end.
Definition w_linking (pc : work_pc) : option nat := match pc with WLinking i _ => Some i | _ => None end.
Definition w_accepted (pc : work_pc) : nat := match pc with WPushing _ _ => 1 | _ => 0 end.
Definition w_working (pc : work_pc) : bool :=
  match pc with WIdle | WCount _ => false | WPushing _ b | WLinking _ b => b | _ => true end.

(** What the worker has taken and [w_out] does not show. *)
Definition w_debt (pc : work_pc) : Z := match pc with WTaken _ => 1 | WSub old => old | _ => 0 end.

Record work_rel (nm : nat) (k : Z) (c : work_conf) (a : option nat * Z * list nat) (l : list (nat * bool)) : Prop := {
  wk_items : items nm (w_fifo (shared c)) l (omap w_pushing (threads c)) (omap w_linking (threads c)) (w_owned (shared c));
  wk_queue : a.2 = l.*1;
  wk_pending : a.1.2 = Z.of_nat (length l + sum_list_with w_accepted (threads c));
  wk_worker : forall t pc, threads c !! t = Some pc -> w_working pc = true <-> a.1.1 = Some t;
  wk_counts : match a.1.1 with
    | Some t => exists pc, threads c !! t = Some pc /\ w_in (shared c) = a.1.2 + w_out (shared c) + w_debt pc /\
        0 <= w_out (shared c) /\ 1 <= w_in (shared c) /\ 0 <= w_debt pc /\
        (forall old, pc = WSub old -> w_out (shared c) = 0)
    | None => w_in (shared c) = 0 /\ w_out (shared c) = 0 /\ a.1.2 = 0
    end;
  wk_bound : w_in (shared c) <= k
}.

(** ** Preservation *)

Lemma work_rel_step nm k c a l t pc s' pc' a' l' : work_rel nm k c a l -> threads c !! t = Some pc ->
  let ths' := <[t:=pc']> (threads c) in
  items nm (w_fifo s') l' (omap w_pushing ths') (omap w_linking ths') (w_owned s') ->
  a'.2 = l'.*1 -> a'.1.2 = Z.of_nat (length l' + sum_list_with w_accepted ths') ->
  (w_working pc' = true <-> a'.1.1 = Some t) -> (forall i, i <> t -> a'.1.1 = Some i <-> a.1.1 = Some i) ->
  match a'.1.1 with
  | Some u => exists p, ths' !! u = Some p /\ w_in s' = a'.1.2 + w_out s' + w_debt p /\
      0 <= w_out s' /\ 1 <= w_in s' /\ 0 <= w_debt p /\ (forall old, p = WSub old -> w_out s' = 0)
  | None => w_in s' = 0 /\ w_out s' = 0 /\ a'.1.2 = 0
  end ->
  w_in s' <= k + 1 -> work_rel nm (k + 1) (Conf s' ths') a' l'.
Proof.
  intros HR Ht ths' H1 H2 H3 H4 H5 H6 H7. split; cbn [shared threads]; auto.
  intros i p Hi. apply lookup_insert_cases in Hi as [(-> & ->)|(Hne & Hi)]; [done|].
  rewrite H5 by done. by apply (wk_worker _ _ _ _ _ HR).
Qed.

(** A step of a thread that leaves the counters alone, of the worker or not. *)
Lemma work_quiet nm k c a l t pc s' pc' q' l' : work_rel nm k c a l -> threads c !! t = Some pc ->
  let ths' := <[t:=pc']> (threads c) in
  items nm (w_fifo s') l' (omap w_pushing ths') (omap w_linking ths') (w_owned s') ->
  q' = l'.*1 -> (length l' + w_accepted pc' = length l + w_accepted pc)%nat -> w_working pc' = w_working pc ->
  w_debt pc = 0 -> w_debt pc' = 0 -> (forall old, pc' <> WSub old) -> w_in s' = w_in (shared c) -> w_out s' = w_out (shared c) ->
  work_rel nm (k + 1) (Conf s' ths') (a.1.1, a.1.2, q') l'.
Proof.
  intros HR Ht ths' Hit Hq Hlen Hw Hd Hd' Hsub Ei Eo. pose proof (wk_bound _ _ _ _ _ HR). pose proof (wk_pending _ _ _ _ _ HR) as Hp.
  pose proof (wk_counts _ _ _ _ _ HR) as Hc. pose proof (wk_worker _ _ _ _ _ HR _ _ Ht) as Hwt.
  pose proof (sum_list_with_insert w_accepted _ _ _ pc' Ht).
  eapply work_rel_step; [exact HR|exact Ht|exact Hit|..]; simpl; try done; try lia; [by rewrite Hw|].
  rewrite Ei, Eo. destruct (a.1.1) as [u|]; [|done]. destruct Hc as (p & Hu & Hc). destruct (decide (u = t)) as [->|Hne].
  - rewrite Ht in Hu. injection Hu as <-. exists pc'. unfold ths'. rewrite list_lookup_insert_eq by (by eapply lookup_lt_Some).
    split; [done|]. destruct Hc as (? & ? & ? & ? & ?). split_and!; try lia. intros old E. by destruct (Hsub old).
  - exists p. unfold ths'. by rewrite list_lookup_insert_ne by done.
Qed.

(** A step of the worker that leaves the queue alone. *)
Lemma work_worker nm k c a l t pc s' pc' : work_rel nm k c a l -> threads c !! t = Some pc ->
  w_working pc = true -> w_working pc' = true -> w_pushing pc' = w_pushing pc -> w_linking pc' = w_linking pc ->
  w_accepted pc' = w_accepted pc -> w_fifo s' = w_fifo (shared c) -> w_owned s' = w_owned (shared c) ->
  (w_in (shared c) = a.1.2 + w_out (shared c) + w_debt pc -> w_in s' = a.1.2 + w_out s' + w_debt pc') ->
  0 <= w_out s' -> 1 <= w_in s' <= k + 1 -> 0 <= w_debt pc' -> (forall old, pc' = WSub old -> w_out s' = 0) ->
  work_rel nm (k + 1) (Conf s' (<[t:=pc']> (threads c))) a l.
Proof.
  intros HR Ht Hw Hw' E1 E2 E3 E4 E5 Hin H0 H1 Hd Hs. pose proof (wk_pending _ _ _ _ _ HR) as Hp.
  pose proof (proj1 (wk_worker _ _ _ _ _ HR _ _ Ht) Hw) as Hwt. pose proof (wk_counts _ _ _ _ _ HR) as Hc.
  pose proof (sum_list_with_insert w_accepted _ _ _ pc' Ht).
  rewrite Hwt in Hc. destruct Hc as (p & Hu & Hc & _). rewrite Ht in Hu. injection Hu as <-.
  eapply work_rel_step; [exact HR|exact Ht|..]; rewrite ?Hwt; try done; try lia; [|apply HR|].
  - rewrite E4, E5, (omap_insert_same w_pushing _ _ _ pc' Ht E1), (omap_insert_same w_linking _ _ _ pc' Ht E2). apply HR.
  - exists pc'. rewrite list_lookup_insert_eq by (by eapply lookup_lt_Some). split_and!; auto; lia.
Qed.

Lemma work_count_step nm k c a l t item : k + 1 < 2 ^ 63 -> work_rel nm k c a l -> threads c !! t = Some (WCount item) ->
  let b := Z.eqb (i64 (w_in (shared c) + 1)) 1 in
  exists a', work_spec (EvAccept t b) a = Some a' /\
    work_rel nm (k + 1) (Conf (set_in (shared c) (i64 (w_in (shared c) + 1))) (<[t:=WPushing item b]> (threads c))) a' l.
Proof.
  intros Hk HR Ht b. pose proof (wk_bound _ _ _ _ _ HR) as Hb. pose proof (wk_pending _ _ _ _ _ HR) as Hp.
  pose proof (wk_worker _ _ _ _ _ HR _ _ Ht) as Hwt. simpl in Hwt. pose proof (wk_counts _ _ _ _ _ HR) as Hc.
  pose proof (sum_list_with_insert w_accepted _ _ _ (WPushing item b) Ht) as Hsum. simpl in Hsum.
  assert (items nm (w_fifo (shared c)) l (omap w_pushing (<[t:=WPushing item b]> (threads c)))
    (omap w_linking (<[t:=WPushing item b]> (threads c))) (w_owned (shared c))) as Hit.
  { rewrite (omap_insert_same w_pushing _ _ _ (WPushing item b) Ht eq_refl), (omap_insert_same w_linking _ _ _ (WPushing item b) Ht eq_refl).
    apply HR. }
  assert (0 <= w_in (shared c)) as H0 by (destruct (a.1.1); [destruct Hc as (? & ? & ? & ?)|]; lia).
  assert (b = Z.eqb (w_in (shared c) + 1) 1) as Eb0 by (unfold b; by rewrite i64_small by lia).
  clearbody b. rewrite i64_small by lia. destruct a as [[[u|] pending] q]; cbn [fst snd] in *.
  - destruct Hc as (p & Hu & Hin & Ho & H1 & Hd & Hs). assert (b = false) as Eb by (rewrite Eb0; apply Z.eqb_neq; lia).
    assert (u <> t) as Hne by (intros ->; discriminate (proj2 Hwt eq_refl)).
    exists (Some u, pending + 1, q). rewrite Eb in *. split; [done|].
    eapply work_rel_step; [exact HR|exact Ht|exact Hit|..]; simpl; try done; try lia; [apply HR|].
    exists p. rewrite list_lookup_insert_ne by done. split_and!; auto; lia.
  - destruct Hc as (Hin & Ho & H1). assert (b = true) as Eb by (rewrite Eb0; apply Z.eqb_eq; lia).
    exists (Some t, pending + 1, q). rewrite Eb in *. split; [done|].
    eapply work_rel_step; [exact HR|exact Ht|exact Hit|..]; simpl; try done; try lia; [apply HR|intros i Hi; split; congruence|].
    exists (WPushing item true). rewrite list_lookup_insert_eq by (by eapply lookup_lt_Some). split_and!; auto; simpl; lia.
Qed.

Lemma work_push_step nm k c a l t pc s' pc' evs : k + 1 < 2 ^ 63 -> work_rel nm k c a l -> threads c !! t = Some pc ->
  work_queue_push t (shared c) pc = Some (s', pc', evs) ->
  exists a' l', spec_run work_spec evs a = Some a' /\ work_rel nm (k + 1) (Conf s' (<[t:=pc']> (threads c))) a' l'.
Proof.
  intros Hk HR Ht Hs. pose proof (wk_items _ _ _ _ _ HR) as Hit. pose proof (wk_queue _ _ _ _ _ HR) as Eq.
  destruct pc as [|item|item b|item b| | | | | |]; try discriminate Hs; cbn [work_queue_push] in Hs.
  - injection Hs as <- <- <-. destruct (work_count_step _ _ _ _ _ _ _ Hk HR Ht) as (a' & Ha & Hrel). exists a', l.
    split; [|done]. cbn [spec_run]. by rewrite Ha.
  - rewrite (omap_insert_del w_pushing _ _ _ (WLinking item b) item Ht eq_refl eq_refl) in Hit.
    destruct (items_xchg _ _ _ _ _ _ _ Hit) as (q1 & E & Hit'). rewrite E in Hs. injection Hs as <- <- <-.
    rewrite <- (omap_insert_add w_linking _ _ _ (WLinking item b) item Ht eq_refl eq_refl) in Hit'.
    pose proof (wk_pending _ _ _ _ _ HR) as Hp. pose proof (sum_list_with_lookup w_accepted _ _ _ Ht) as Hacc. simpl in Hacc.
    exists (a.1.1, a.1.2, a.2 ++ [item]), (l ++ [(item, false)]). split.
    + destruct a as [[w pending] q]. cbn [fst snd] in *. simpl. subst q. rewrite length_fmap, (proj2 (Z.ltb_lt _ _)) by lia. done.
    + eapply work_quiet; [exact HR|exact Ht|exact Hit'|..]; simpl; try done; [by rewrite fmap_app, Eq|rewrite length_app; simpl; lia].
  - set (pc1 := if b then WWorking else WIdle) in *.
    assert (w_linking pc1 = None /\ w_pushing pc1 = None /\ w_accepted pc1 = 0%nat /\ w_working pc1 = b /\ w_debt pc1 = 0 /\
      forall old, pc1 <> WSub old) as (P1 & P2 & P3 & P4 & P5 & P6) by (unfold pc1; by destruct b).
    rewrite (omap_insert_del w_linking _ _ _ pc1 item Ht eq_refl P1) in Hit.
    destruct (items_link _ _ _ _ _ _ _ Hit) as (q1 & l1 & E & Hl & Hit'). rewrite E in Hs. injection Hs as <- <- <-.
    rewrite <- (omap_insert_same w_pushing _ _ _ pc1 Ht P2) in Hit'.
    exists (a.1.1, a.1.2, a.2), l1. split; [by destruct a as [[] ?]|].
    eapply work_quiet; [exact HR|exact Ht|exact Hit'|..]; simpl; try done; [by rewrite Hl|].
    rewrite P3. rewrite <- (length_fmap fst l1), <- (length_fmap fst l), Hl. done.
Qed.

(** What holds of the worker's counters. *)
Lemma work_counts_of nm k c a l t pc : work_rel nm k c a l -> threads c !! t = Some pc -> w_working pc = true ->
  a.1.1 = Some t /\ w_in (shared c) = a.1.2 + w_out (shared c) + w_debt pc /\ 0 <= w_out (shared c) /\
  1 <= w_in (shared c) <= k /\ 0 <= a.1.2 /\ 0 <= w_debt pc /\ (forall old, pc = WSub old -> w_out (shared c) = 0).
Proof.
  intros HR Ht Hw. pose proof (wk_counts _ _ _ _ _ HR) as Hc. pose proof (wk_bound _ _ _ _ _ HR). pose proof (wk_pending _ _ _ _ _ HR).
  pose proof (proj1 (wk_worker _ _ _ _ _ HR _ _ Ht) Hw) as E. rewrite E in Hc. destruct Hc as (p & Hp & Hc).
  rewrite Ht in Hp. injection Hp as <-. destruct Hc as (? & ? & ? & ? & ?). split_and!; auto; lia.
Qed.

Lemma work_trypop_step nm k c a l t s' pc' evs : work_rel nm k c a l -> threads c !! t = Some WTrypop ->
  work_queue_get_work t (shared c) WTrypop = Some (s', pc', evs) ->
  exists a' l', spec_run work_spec evs a = Some a' /\ work_rel nm (k + 1) (Conf s' (<[t:=pc']> (threads c))) a' l'.
Proof.
  intros HR Ht Hs. pose proof (wk_items _ _ _ _ _ HR) as Hit. pose proof (wk_queue _ _ _ _ _ HR) as Eq.
  destruct (work_counts_of _ _ _ _ _ _ _ HR Ht eq_refl) as (Hw & Hin & Ho & Hi & Hp0 & _). pose proof (wk_pending _ _ _ _ _ HR) as Hp.
  cbn [work_queue_get_work] in Hs.
  destruct (items_pop _ _ _ _ _ _ Hit) as [(m & l' & q1 & -> & E & _ & Hit')|[E _]]; rewrite E in Hs; simpl in Hs; injection Hs as <- <- <-.
  - rewrite <- (omap_insert_same w_pushing _ _ _ (WTaken m) Ht eq_refl), <- (omap_insert_same w_linking _ _ _ (WTaken m) Ht eq_refl) in Hit'.
    pose proof (sum_list_with_insert w_accepted _ _ _ (WTaken m) Ht) as Hsum. simpl in Hsum.
    exists (a.1.1, a.1.2 - 1, l'.*1), l'. split.
    + destruct a as [[w pending] q]. cbn [fst snd] in *. subst. simpl. by rewrite decide_True.
    + eapply work_rel_step; [exact HR|exact Ht|exact Hit'|..]; rewrite ?Hw; simpl; try done; [simpl in Hp; lia| |lia].
      exists (WTaken m). rewrite list_lookup_insert_eq by (by eapply lookup_lt_Some). split_and!; simpl in *; (lia || done).
  - exists (a.1.1, a.1.2, a.2), l. split; [by destruct a as [[] ?]|].
    eapply work_quiet; [exact HR|exact Ht| |exact Eq|done..].
    rewrite (omap_insert_same w_pushing _ _ _ WCheck Ht eq_refl), (omap_insert_same w_linking _ _ _ WCheck Ht eq_refl). apply HR.
Qed.

(** The subtraction: what is left are the items that are pending. *)
Lemma work_sub_step nm k c a l t old s' pc' evs : k + 1 < 2 ^ 63 -> work_rel nm k c a l -> threads c !! t = Some (WSub old) ->
  work_queue_get_work t (shared c) (WSub old) = Some (s', pc', evs) ->
  exists a' l', spec_run work_spec evs a = Some a' /\ work_rel nm (k + 1) (Conf s' (<[t:=pc']> (threads c))) a' l'.
Proof.
  intros Hk HR Ht Hs. destruct (work_counts_of _ _ _ _ _ _ _ HR Ht eq_refl) as (Hw & Hin & Ho & Hi & Hp0 & Hd & Hz).
  specialize (Hz old eq_refl). simpl in Hin, Hd. cbn [work_queue_get_work] in Hs. rewrite i64_small in Hs by lia.
  assert (w_in (shared c) - old = a.1.2) as Esub by lia. rewrite Esub in Hs.
  destruct (Z.eqb_spec a.1.2 0) as [E0|Hne]; injection Hs as <- <- <-.
  - exists (None, a.1.2, a.2), l. split.
    + destruct a as [[w pending] q]. cbn [fst snd] in *. subst. simpl. by rewrite decide_True.
    + pose proof (sum_list_with_insert w_accepted _ _ _ WIdle Ht) as Hsum. simpl in Hsum. pose proof (wk_pending _ _ _ _ _ HR).
      eapply work_rel_step; [exact HR|exact Ht|..]; simpl; try done; try lia; [|apply HR|rewrite Hw; intros i Hni; split; congruence].
      rewrite (omap_insert_same w_pushing _ _ _ WIdle Ht eq_refl), (omap_insert_same w_linking _ _ _ WIdle Ht eq_refl). apply HR.
  - exists a, l. split; [done|]. eapply work_worker; [exact HR|exact Ht|..]; simpl; try done; lia.
Qed.

Lemma work_get_step nm k c a l t pc s' pc' evs : k + 1 < 2 ^ 63 -> work_rel nm k c a l -> threads c !! t = Some pc ->
  work_queue_get_work t (shared c) pc = Some (s', pc', evs) ->
  exists a' l', spec_run work_spec evs a = Some a' /\ work_rel nm (k + 1) (Conf s' (<[t:=pc']> (threads c))) a' l'.
Proof.
  intros Hk HR Ht Hs.
  destruct pc as [| | | | | |item| | |old]; try discriminate Hs; [by eapply work_trypop_step|..|by eapply work_sub_step];
    destruct (work_counts_of _ _ _ _ _ _ _ HR Ht eq_refl) as (Hw & Hin & Ho & Hi & Hp0 & Hd & _);
    cbn [work_queue_get_work] in Hs; simpl in Hin, Hd; injection Hs as <- <- <-; exists a, l; (split; [done|]).
  - rewrite i64_small by lia. eapply work_worker; [exact HR|exact Ht|..]; simpl; try done; lia.
  - destruct (Z.eqb _ _); (eapply work_worker; [exact HR|exact Ht|..]; simpl; try done; lia).
  - eapply work_worker; [exact HR|exact Ht|..]; simpl; try done; lia.
Qed.

Lemma work_simulation nm k lbl c c' evs a l : k + 1 < 2 ^ 63 -> work_rel nm k c a l -> work_step lbl c = Some (c', evs) ->
  exists a' l', spec_run work_spec evs a = Some a' /\ work_rel nm (k + 1) c' a' l'.
Proof.
  destruct lbl as [t ch]. intros Hk HR Hstep. apply conf_step_inv in Hstep as (pc & s' & pc' & Ht & Hs & ->).
  destruct ch as [item| |], pc; cbn [work_tstep] in Hs; try discriminate Hs; try (by eapply work_push_step); try (by eapply work_get_step).
  - case_decide as Hm; [|done]. injection Hs as <- <- <-. exists (a.1.1, a.1.2, a.2), l. split; [by destruct a as [[] ?]|].
    pose proof (items_call _ _ _ _ _ _ item (wk_items _ _ _ _ _ HR) Hm) as Hit.
    rewrite <- (omap_insert_add w_pushing _ _ _ (WCount item) item Ht eq_refl eq_refl),
      <- (omap_insert_same w_linking _ _ _ (WCount item) Ht eq_refl) in Hit.
    eapply work_quiet; [exact HR|exact Ht|exact Hit|apply HR|done..].
  - injection Hs as <- <- <-. exists a, l. split; [done|].
    destruct (work_counts_of _ _ _ _ _ _ _ HR Ht eq_refl) as (Hw & Hin & Ho & Hi & Hp0 & Hd & _). simpl in Hin.
    eapply work_worker; [exact HR|exact Ht|..]; simpl; try done; lia.
Qed.

Lemma work_init_rel nm n : work_rel nm 0 (work_init nm n) (None, 0, []) [].
Proof.
  split; cbn; try done.
  - rewrite !omap_replicate_None by done. apply items_init.
  - induction n; done.
  - by intros t pc [-> _]%lookup_replicate.
Qed.

Lemma work_run_rel nm n ls c evs : Z.of_nat (length ls) < 2 ^ 63 -> run work_step ls (work_init nm n) = Some (c, evs) ->
  exists a l, spec_run work_spec evs (None, 0, []) = Some a /\ work_rel nm (Z.of_nat (length ls)) c a l.
Proof.
  intros Hb Hrun.
  destruct (run_simulation work_step work_spec (2 ^ 63) (fun k c a => exists l, work_rel nm k c a l))
    with (ls := ls) (n := 0) (s := work_init nm n) (s' := c) (evs := evs) (a := (None : option nat, 0, @nil nat))
    as (a & Ha & l & HR); eauto using work_init_rel.
  intros k lbl s1 s2 e a Hk (l & HR) Hs. destruct (work_simulation nm k lbl s1 s2 e a l Hk HR Hs) as (a' & l' & ? & ?). eauto.
Qed.

(** ** Properties *)

(** One worker at a time, and no work left behind.  In every interleaving of
    pushes with the calls of the worker: a push is told to start working exactly
    when nobody works; only the worker takes items, oldest first, each once; and
    it is told that there is no more work only when every item accepted so far
    has been taken, so that an item is never left in the queue without a worker. *)
Theorem work_queue_one_worker nm n ls c evs : Z.of_nat (length ls) < 2 ^ 63 ->
  run work_step ls (work_init nm n) = Some (c, evs) ->
  exists worker pending q, spec_run work_spec evs (None, 0, []) = Some (worker, pending, q) /\
    (forall t pc, threads c !! t = Some pc -> w_working pc = true <-> worker = Some t) /\
    (worker = None -> pending = 0 /\ q = []).
Proof.
  intros Hb Hrun. destruct (work_run_rel _ _ _ _ _ Hb Hrun) as ([[w pending] q] & l & Ha & HR). exists w, pending, q.
  split; [done|]. split; [apply (wk_worker _ _ _ _ _ HR)|]. intros ->. pose proof (wk_counts _ _ _ _ _ HR) as (_ & _ & E).
  pose proof (wk_pending _ _ _ _ _ HR) as Hp. pose proof (wk_queue _ _ _ _ _ HR) as Hq. simpl in *. split; [done|].
  destruct l; [done|]. simpl in Hp. lia.
Qed.

(** The worker does not wait in vain.  When get_work is looking for an item
    and does not get one although items are pending, some thread is inside a push
    of its item and can take its next step. *)
Theorem work_queue_progress nm n ls c evs t : Z.of_nat (length ls) < 2 ^ 63 ->
  run work_step ls (work_init nm n) = Some (c, evs) -> threads c !! t = Some WTrypop ->
  (exists c' item, work_step (t, WGo) c = Some (c', [EvTaken t item])) \/
  (exists c', work_step (t, WGo) c = Some (c', []) /\ forall a, spec_run work_spec evs (None, 0, []) = Some a -> a.1.2 <> 0 ->
    exists u item start d e, (threads c !! u = Some (WPushing item start) \/ threads c !! u = Some (WLinking item start)) /\
      work_step (u, WGo) c = Some (d, e)).
Proof.
  intros Hb Hrun Ht. destruct (work_run_rel _ _ _ _ _ Hb Hrun) as (a & l & Ha & HR). pose proof (wk_items _ _ _ _ _ HR) as Hit.
  unfold work_step, conf_step. cbn [fst snd]. rewrite Ht. cbn [mbind option_bind work_tstep work_queue_get_work].
  destruct (items_pop _ _ _ _ _ _ Hit) as [(m & l' & q1 & _ & E & _)|[E Hhd]]; rewrite E; cbn; [left; eauto|right].
  eexists. split; [done|]. intros a' Ha' Hne. rewrite Ha in Ha'. injection Ha' as <-.
  pose proof (wk_pending _ _ _ _ _ HR) as Hp. destruct l as [|[m b] l].
  - simpl in Hp. assert (0 < sum_list_with w_accepted (threads c))%nat as (u & p & Hu & Hpos)%sum_list_with_pos by lia.
    destruct p as [| |item b| | | | | | |]; simpl in Hpos; try lia. pose proof Hit as Hit2.
    rewrite (omap_insert_del w_pushing _ _ _ WIdle item Hu eq_refl eq_refl) in Hit2.
    destruct (items_xchg _ _ _ _ _ _ _ Hit2) as (q1 & E1 & _).
    exists u, item, b. rewrite Hu. cbn. rewrite E1. simpl. eauto 10.
  - specialize (Hhd m eq_refl). apply list_elem_of_omap in Hhd as (p & [u Hu]%list_elem_of_lookup & Hm).
    destruct p as [| | |item b'| | | | | |]; simplify_eq/=. pose proof Hit as Hit2.
    rewrite (omap_insert_del w_linking _ _ _ WIdle m Hu eq_refl eq_refl) in Hit2.
    destruct (items_link _ _ _ _ _ _ _ Hit2) as (q1 & l1 & E1 & _).
    exists u, m, b'. rewrite Hu. cbn. rewrite E1. simpl. eauto 10.
Qed.
End work.

(** ** Runs *)

(** Thread 1 pushes while thread 0 is about to find the queue empty. *)
Definition work_demo_race : list (nat * work_choice) :=
  let go t k := replicate k (t, WGo) in
  [(0%nat, WCallPush 3)] ++ go 0%nat 3%nat ++ [(0%nat, WCallGet)] ++ go 0%nat 2%nat ++ [(0%nat, WCallGet)] ++ go 0%nat 3%nat ++
  [(1%nat, WCallPush 5)] ++ go 1%nat 1%nat ++ go 0%nat 1%nat.
Definition work_demo : list (nat * work_choice) :=
  let go t k := replicate k (t, WGo) in
  work_demo_race ++ go 1%nat 2%nat ++ go 0%nat 2%nat ++ [(0%nat, WCallGet)] ++ go 0%nat 4%nat.

Lemma work_queue_one_worker_witness : exists worker pending q,
  spec_run work_spec [EvAccept 0 true; EvQueued 3; EvTaken 0 3; EvAccept 1 false; EvQueued 5; EvTaken 0 5; EvNoWork 0] (None, 0, []) =
    Some (worker, pending, q) /\ (worker = None -> pending = 0 /\ q = []).
Proof.
  edestruct (work_queue_one_worker (H := mpsc_wait_queue) 6 2 work_demo) as (w & pending & q & H1 & _ & H2);
    [vm_compute; reflexivity|vm_compute; reflexivity|]. by exists w, pending, q.
Defined.

Lemma work_queue_progress_witness : exists c : work_conf (Q := mpsc_queue), threads c !! 0%nat = Some WTrypop /\
  ((exists c' item, work_step (H := mpsc_wait_queue) (0%nat, WGo) c = Some (c', [EvTaken 0 item])) \/
   exists c', work_step (H := mpsc_wait_queue) (0%nat, WGo) c = Some (c', [])).
Proof.
  eexists. split; cycle 1.
  - edestruct (work_queue_progress (H := mpsc_wait_queue) 6 2 work_demo_race) with (t := 0%nat) as [H1|(c' & H2 & _)];
      [vm_compute; reflexivity|vm_compute; reflexivity|reflexivity|left; exact H1|right; exists c'; exact H2].
  - reflexivity.
Defined.
