(* ===== verification/MultiChannel.v ===== *)
(** * The bounded channel with many receivers ([include/fiber_multi_channel.h])

    A ring buffer under a mutex; fibers that find it full or empty go on one
    list of waiters, linked through [fiber_t.scratch], and every completed send
    or receive wakes the fiber on top.  The mutex is the abstract lock that
    [Mutex] shows [fiber_mutex] to be; a waiter's lock is released after it has
    left its stack.  Senders and receivers share the list, so a wake-up can go to
    a fiber that cannot use it. *)

From S2P Require Import Prelude RingBuffer.

(** ** State *)

(** [fiber_multi_channel_t], the [scratch] fields of the fibers and the run
    queue.  A cell holds a pointer, 0 being NULL. *)
Record mchan := MChan {
  mc_high : Z;
  mc_low : Z;
  mc_size : Z;
  mc_mod : Z;
  mc_buffer : list Z;
  mc_lock : option nat;
  mc_waiters : option nat;
  mc_scratch : gmap nat (option nat);
  mc_ready : list nat
}.

(** [want]: a message to send, or a receive. *)
Inductive mchan_pc :=
| QIdle
| QLock (want : option Z)            (* fiber_mutex_lock *)
| QCheck (want : option Z)           (* locked: is there room, is there a message *)
| QRelease (want : option Z)         (* asleep, the maintenance is to unlock *)
| QAsleep (want : option Z)
| QWake                              (* fiber_multi_channel_internal_wake *)
| QUnlock.

#[export] Instance mchan_pc_eq_dec : EqDecision mchan_pc.
Proof. solve_decision. Defined.

Inductive mchan_choice := QCallSend (message : Z) | QCallReceive | QGo.

(** ** Operations *)

(** The assert lets 31 through, but [1 << 31] overflows [int]: the size it gives is
    beyond what [calloc] can return. *)
Definition fiber_multi_channel_create (power_of_2_size : Z) : option mchan :=
  if decide (0 < power_of_2_size < 31) then
    let size := u32 (Z.shiftl 1 power_of_2_size) in
    Some (MChan 0 0 size (u32 (size - 1)) (replicate (Z.to_nat size) 0) None None ∅ [])
  else None.

Definition set_ring_part (s : mchan) (hi lo : Z) (b : list Z) : mchan :=
  MChan hi lo (mc_size s) (mc_mod s) b (mc_lock s) (mc_waiters s) (mc_scratch s) (mc_ready s).
Definition set_lock (s : mchan) (l : option nat) : mchan :=
  MChan (mc_high s) (mc_low s) (mc_size s) (mc_mod s) (mc_buffer s) l (mc_waiters s) (mc_scratch s) (mc_ready s).
Definition set_waiters (s : mchan) (w : option nat) (sc : gmap nat (option nat)) (r : list nat) : mchan :=
  MChan (mc_high s) (mc_low s) (mc_size s) (mc_mod s) (mc_buffer s) (mc_lock s) w sc r.

(** Up to the yield. *)
Definition fiber_multi_channel_internal_wait (t : nat) (s : mchan) : mchan :=
  set_waiters s (Some t) (<[t:=mc_waiters s]> (mc_scratch s)) (mc_ready s).

Definition fiber_multi_channel_internal_wake (s : mchan) : option mchan :=
  match mc_waiters s with
  | Some to_wake =>
      next ← mc_scratch s !! to_wake;
      Some (set_waiters s next (<[to_wake:=None]> (mc_scratch s)) (mc_ready s ++ [to_wake]))
  | None => Some s
  end.

Definition unlock (t : nat) (s : mchan) : option mchan :=
  if decide (mc_lock s = Some t) then Some (set_lock s None) else None.

(** [fiber_multi_channel_send] when [want] is a message,
    [fiber_multi_channel_receive] otherwise. *)
Definition fiber_multi_channel_send (t : nat) (s : mchan) (pc : mchan_pc)
    : option (mchan * mchan_pc * list (queue_ev Z)) :=
  match pc with
  | QCheck (Some message) =>
      if Z.ltb (u64 (mc_high s - mc_low s)) (mc_size s) then
        let index := u32 (Z.land (mc_high s) (mc_mod s)) in
        Some (set_ring_part s (u64 (mc_high s + 1)) (mc_low s) (<[Z.to_nat index:=message]> (mc_buffer s)), QWake, [Enq message])
      else Some (fiber_multi_channel_internal_wait t s, QRelease (Some message), [])
  | _ => None
  end.

Definition fiber_multi_channel_receive (t : nat) (s : mchan) (pc : mchan_pc)
    : option (mchan * mchan_pc * list (queue_ev Z)) :=
  match pc with
  | QCheck None =>
      if Z.ltb (mc_low s) (mc_high s) then
        let index := u32 (Z.land (mc_low s) (mc_mod s)) in
        ret ← mc_buffer s !! Z.to_nat index;
        Some (set_ring_part s (mc_high s) (u64 (mc_low s + 1)) (<[Z.to_nat index:=0]> (mc_buffer s)), QWake, [Deq ret])
      else Some (fiber_multi_channel_internal_wait t s, QRelease None, [])
  | _ => None
  end.

(** The steps both share: the lock, the sleep, the wake-up, the unlock. *)
Definition mchan_tstep (t : nat) (ch : mchan_choice) (s : mchan) (pc : mchan_pc)
    : option (mchan * mchan_pc * list (queue_ev Z)) :=
  match ch, pc with
  | QCallSend m, QIdle => Some (s, QLock (Some m), [])
  | QCallReceive, QIdle => Some (s, QLock None, [])
  | QGo, QLock w => if decide (mc_lock s = None) then Some (set_lock s (Some t), QCheck w, []) else None
  | QGo, QCheck (Some m) => fiber_multi_channel_send t s pc
  | QGo, QCheck None => fiber_multi_channel_receive t s pc
  | QGo, QRelease w => s' ← unlock t s; Some (s', QAsleep w, [])
  | QGo, QAsleep w =>
      if decide (t ∈ mc_ready s)
      then Some (set_waiters s (mc_waiters s) (mc_scratch s) (filter (fun x => x <> t) (mc_ready s)), QLock w, []) else None
  | QGo, QWake => s' ← fiber_multi_channel_internal_wake s; Some (s', QUnlock, [])
  | QGo, QUnlock => s' ← unlock t s; Some (s', QIdle, [])
  | _, _ => None
  end.

Definition mchan_conf := conf mchan mchan_pc.
Definition mchan_step := conf_step mchan_tstep.
Definition mchan_init (p : Z) (n : nat) : option mchan_conf :=
  s ← fiber_multi_channel_create p; Some (Conf s (replicate n QIdle)).

(** ** Invariant *)

(** The list of waiters, through the [scratch] fields. *)
Fixpoint waiters_at (sc : gmap nat (option nat)) (hd : option nat) (ws : list nat) : Prop :=
  match ws with
  | [] => hd = None
  | w :: ws => hd = Some w /\ exists next, sc !! w = Some next /\ waiters_at sc next ws
  end.

Definition has_lock (pc : mchan_pc) : bool :=
  match pc with QCheck _ | QRelease _ | QWake | QUnlock => true | _ => false end.
Definition m_asleep (pc : mchan_pc) : bool := match pc with QRelease _ | QAsleep _ => true | _ => false end.

Section mchan_proof.
Variable p : Z.
Hypothesis Hp : 0 < p < 32.

Abbreviation N := (2 ^ p).

Record mchan_ring (s : mchan) (q : list Z) : Prop := {
  mg_size : mc_size s = N;
  mg_mod : mc_mod s = N - 1;
  mg_len : Z.of_nat (length (mc_buffer s)) = N;
  mg_range : 0 <= mc_low s <= mc_high s /\ mc_high s <= mc_low s + N;
  mg_qlen : Z.of_nat (length q) = mc_high s - mc_low s;
  mg_cells : forall i v, q !! i = Some v -> mc_buffer s !! Z.to_nat ((mc_low s + Z.of_nat i) mod N) = Some v
}.

Record mchan_rel (n : Z) (c : mchan_conf) (q : list Z) (ws : list nat) : Prop := {
  mh_ring : mchan_ring (shared c) q;
  mh_n : mc_high (shared c) <= n;
  mh_lock : forall t pc, threads c !! t = Some pc -> has_lock pc = true <-> mc_lock (shared c) = Some t;
  mh_list : waiters_at (mc_scratch (shared c)) (mc_waiters (shared c)) ws;
  mh_nd : NoDup (ws ++ mc_ready (shared c));
  mh_asleep : forall t, t ∈ ws ++ mc_ready (shared c) <-> exists pc, threads c !! t = Some pc /\ m_asleep pc = true;
  mh_ready : forall t, t ∈ mc_ready (shared c) -> exists w, threads c !! t = Some (QAsleep w)
}.

(** ** The list of waiters *)

Lemma waiters_at_other sc hd ws t x : t ∉ ws -> waiters_at sc hd ws -> waiters_at (<[t:=x]> sc) hd ws.
Proof.
  revert hd. induction ws as [|w ws IH]; intros hd Ht Hw; [done|]. apply not_elem_of_cons in Ht as [H1 H2].
  destruct Hw as (-> & next & Hn & Hw). split; [done|]. exists next. rewrite lookup_insert_ne by done. auto.
Qed.

(** ** Preservation *)

Lemma mchan_rel_step n c q ws t pc s' pc' q' ws' : mchan_rel n c q ws -> threads c !! t = Some pc ->
  mchan_ring s' q' -> mc_high s' <= n + 1 ->
  ((has_lock pc = has_lock pc' /\ mc_lock s' = mc_lock (shared c)) \/
   (has_lock pc = false /\ has_lock pc' = true /\ mc_lock (shared c) = None /\ mc_lock s' = Some t) \/
   (has_lock pc = true /\ has_lock pc' = false /\ mc_lock s' = None)) ->
  waiters_at (mc_scratch s') (mc_waiters s') ws' -> NoDup (ws' ++ mc_ready s') ->
  (forall i, i ∈ ws' ++ mc_ready s' <-> if decide (i = t) then m_asleep pc' = true else i ∈ ws ++ mc_ready (shared c)) ->
  (forall i, i ∈ mc_ready s' -> exists w, <[t:=pc']> (threads c) !! i = Some (QAsleep w)) ->
  mchan_rel (n + 1) (Conf s' (<[t:=pc']> (threads c))) q' ws'.
Proof.
  intros HR Ht Hg Hn Hlk Hl Hnd Has Hrd. split; cbn [shared threads]; auto.
  - intros i x Hi. pose proof (mh_lock _ _ _ _ HR _ _ Ht) as Hmt. apply lookup_insert_cases in Hi as [(-> & ->)|(Hne & Hi)].
    + destruct Hlk as [(<- & ->)|[(E & -> & E0 & ->)|(E & -> & ->)]]; [done|done|by split].
    + pose proof (mh_lock _ _ _ _ HR _ _ Hi) as Hmi. destruct Hlk as [(_ & ->)|[(E & E' & E0 & ->)|(E & E' & ->)]]; [done| |].
      * rewrite E0 in Hmi. split; [intros Hx; by apply Hmi in Hx|congruence].
      * split; [intros Hx; apply Hmi in Hx; apply Hmt in E; congruence|done].
  - intros i. rewrite Has. case_decide as E.
    + subst. rewrite list_lookup_insert_eq by (by eapply lookup_lt_Some). split; [eauto|]. by intros (x & [= <-] & ?).
    + rewrite list_lookup_insert_ne by done. apply (mh_asleep _ _ _ _ HR).
Qed.

(** Without the lock or with it, a fiber that is awake is on no list. *)
Lemma m_awake_out n c q ws t pc : mchan_rel n c q ws -> threads c !! t = Some pc -> m_asleep pc = false ->
  (t ∉ ws) /\ (t ∉ mc_ready (shared c)).
Proof.
  intros HR Ht Ha. assert (t ∉ ws ++ mc_ready (shared c)) as Hx; [|set_solver].
  intros (x & Hx & Hs)%(mh_asleep _ _ _ _ HR). congruence.
Qed.

Lemma m_ready_insert n c q ws t pc pc' : mchan_rel n c q ws -> threads c !! t = Some pc -> m_asleep pc = false ->
  forall i, i ∈ mc_ready (shared c) -> exists w, <[t:=pc']> (threads c) !! i = Some (QAsleep w).
Proof.
  intros HR Ht Ha i Hi. destruct (m_awake_out _ _ _ _ _ _ HR Ht Ha) as [_ H2].
  rewrite list_lookup_insert_ne by (by intros ->). by apply (mh_ready _ _ _ _ HR).
Qed.

(** A step that leaves the lists alone. *)
Lemma mchan_local n c q ws t pc s' pc' q' : mchan_rel n c q ws -> threads c !! t = Some pc ->
  m_asleep pc = false -> m_asleep pc' = false -> mchan_ring s' q' -> mc_high s' <= n + 1 ->
  ((has_lock pc = has_lock pc' /\ mc_lock s' = mc_lock (shared c)) \/
   (has_lock pc = false /\ has_lock pc' = true /\ mc_lock (shared c) = None /\ mc_lock s' = Some t) \/
   (has_lock pc = true /\ has_lock pc' = false /\ mc_lock s' = None)) ->
  mc_waiters s' = mc_waiters (shared c) -> mc_scratch s' = mc_scratch (shared c) -> mc_ready s' = mc_ready (shared c) ->
  mchan_rel (n + 1) (Conf s' (<[t:=pc']> (threads c))) q' ws.
Proof.
  intros HR Ht Ha Ha' Hg Hn Hlk E1 E2 E3. destruct (m_awake_out _ _ _ _ _ _ HR Ht Ha) as [H1 H2].
  eapply mchan_rel_step; eauto; rewrite ?E1, ?E2, ?E3; try apply HR.
  - intros i. case_decide; [|done]. subst. rewrite Ha'. set_solver.
  - by eapply m_ready_insert.
Qed.

Lemma mchan_ring_same s s' q : mchan_ring s q -> mc_high s' = mc_high s -> mc_low s' = mc_low s -> mc_size s' = mc_size s ->
  mc_mod s' = mc_mod s -> mc_buffer s' = mc_buffer s -> mchan_ring s' q.
Proof. intros [H1 H2 H3 H4 H5 H6] E1 E2 E3 E4 E5. split; rewrite ?E1, ?E2, ?E3, ?E4, ?E5; done. Qed.

(** Going to sleep, with the lock held. *)
Lemma mchan_sleep n c q ws t want : mchan_rel n c q ws -> threads c !! t = Some (QCheck want) ->
  mchan_rel (n + 1) (Conf (fiber_multi_channel_internal_wait t (shared c)) (<[t:=QRelease want]> (threads c))) q (t :: ws).
Proof.
  intros HR Ht. destruct (m_awake_out _ _ _ _ _ _ HR Ht eq_refl) as [H1 H2]. pose proof (mh_n _ _ _ _ HR).
  eapply mchan_rel_step; [exact HR|exact Ht| |simpl; lia|by left| | | |].
  - eapply mchan_ring_same; [apply HR|done..].
  - simpl. split; [done|]. exists (mc_waiters (shared c)). rewrite lookup_insert_eq. split; [done|].
    apply waiters_at_other; [done|apply HR].
  - simpl. constructor; [set_solver|apply HR].
  - simpl. intros i. rewrite elem_of_cons. case_decide; [naive_solver|]. naive_solver.
  - simpl. by eapply m_ready_insert.
Qed.

(** Waking the fiber on top: it has left its stack, since the lock is held. *)
Lemma mchan_wake n c q ws t s' : mchan_rel n c q ws -> threads c !! t = Some QWake ->
  fiber_multi_channel_internal_wake (shared c) = Some s' ->
  exists ws', mchan_rel (n + 1) (Conf s' (<[t:=QUnlock]> (threads c))) q ws'.
Proof.
  intros HR Ht Hs. pose proof (mh_n _ _ _ _ HR). pose proof (mh_list _ _ _ _ HR) as Hl. pose proof (mh_nd _ _ _ _ HR) as Hnd.
  destruct (m_awake_out _ _ _ _ _ _ HR Ht eq_refl) as [H1 H2].
  unfold fiber_multi_channel_internal_wake in Hs. destruct ws as [|w ws]; simpl in Hl.
  - rewrite Hl in Hs. simplify_eq. exists []. eapply mchan_local; eauto; [apply HR|lia].
  - destruct Hl as (E & next & Hn & Hl). rewrite E, Hn in Hs. simpl in Hs. simplify_eq. exists ws.
    simpl in Hnd. apply NoDup_cons in Hnd as [Hw Hnd].
    assert (ws ++ mc_ready (shared c) ++ [w] ≡ₚ w :: ws ++ mc_ready (shared c)) as Hperm
      by (by rewrite app_assoc, <- Permutation_cons_append).
    eapply mchan_rel_step; [exact HR|exact Ht| |simpl; lia|by left| | | |]; simpl.
    + eapply mchan_ring_same; [apply HR|done..].
    + apply waiters_at_other; [set_solver|done].
    + rewrite Hperm. by constructor.
    + intros i. rewrite Hperm. case_decide; [|done]. subst. set_solver.
    + intros i [Hi| ->%list_elem_of_singleton]%elem_of_app; [by eapply m_ready_insert|].
      assert (w <> t) as Hne by set_solver. rewrite list_lookup_insert_ne by done.
      destruct (proj1 (mh_asleep _ _ _ _ HR w)) as (x & Hx & Ha); [left|].
      destruct x; try discriminate Ha; [|eauto]. exfalso.
      pose proof (proj1 (mh_lock _ _ _ _ HR _ _ Hx) eq_refl). pose proof (proj1 (mh_lock _ _ _ _ HR _ _ Ht) eq_refl). congruence.
Qed.

Lemma N_bounds : 2 <= N < 2 ^ 32.
Proof using Hp.
  split; [change 2 with (2 ^ 1) at 1; apply Z.pow_le_mono_r; lia|apply Z.pow_lt_mono_r; lia].
Qed.

Lemma mchan_index s q k : mchan_ring s q -> u32 (Z.land k (mc_mod s)) = k mod N /\ (Z.to_nat (k mod N) < length (mc_buffer s))%nat.
Proof using Hp.
  intros Hg. pose proof N_bounds as HN. pose proof (Z.mod_pos_bound k N ltac:(lia)).
  rewrite (mg_mod _ _ Hg), land_pow2_mod, u32_small by lia. split; [done|]. pose proof (mg_len _ _ Hg). lia.
Qed.

(** Writing the cell of [high] and emptying the cell of [low]. *)
Lemma mchan_ring_push s q m : mchan_ring s q -> mc_high s - mc_low s < N ->
  mchan_ring (set_ring_part s (mc_high s + 1) (mc_low s) (<[Z.to_nat (mc_high s mod N):=m]> (mc_buffer s))) (q ++ [m]).
Proof using Hp.
  intros Hg Hroom. pose proof N_bounds as HN. destruct (mchan_index s q (mc_high s) Hg) as [_ Hix].
  destruct Hg as [H1 H2 H3 H4 H5 H6]. split; simpl; auto; try lia.
  - by rewrite length_insert.
  - rewrite length_app. simpl. lia.
  - intros i v [Hi|[Hi Hv]]%lookup_app_Some.
    + rewrite list_lookup_insert_ne; [by apply H6|]. intros E. apply lookup_lt_Some in Hi.
      pose proof (Z.mod_pos_bound (mc_high s) N ltac:(lia)). pose proof (Z.mod_pos_bound (mc_low s + Z.of_nat i) N ltac:(lia)).
      assert (mc_high s = mc_low s + Z.of_nat i); [|lia]. apply (mod_inj_near N); lia.
    + apply list_lookup_singleton_Some in Hv as [Hz <-].
      replace (mc_low s + Z.of_nat i) with (mc_high s) by lia. by apply list_lookup_insert_eq.
Qed.

Lemma mchan_ring_pop s q : mchan_ring s q -> mc_low s < mc_high s ->
  exists v q', q = v :: q' /\ mc_buffer s !! Z.to_nat (mc_low s mod N) = Some v /\
    mchan_ring (set_ring_part s (mc_high s) (mc_low s + 1) (<[Z.to_nat (mc_low s mod N):=0]> (mc_buffer s))) q'.
Proof using Hp.
  intros Hg Hlt. pose proof N_bounds as HN. destruct Hg as [H1 H2 H3 H4 H5 H6].
  destruct q as [|v q]; [simpl in H5; lia|]. exists v, q. split; [done|]. split.
  - rewrite <- (H6 0%nat v eq_refl). do 2 f_equal. f_equal. lia.
  - split; simpl in *; auto; try lia.
    + by rewrite length_insert.
    + intros i w Hi. rewrite list_lookup_insert_ne.
      * replace (mc_low s + 1 + Z.of_nat i) with (mc_low s + Z.of_nat (S i)) by lia. by apply H6.
      * intros E. apply lookup_lt_Some in Hi.
        pose proof (Z.mod_pos_bound (mc_low s) N ltac:(lia)). pose proof (Z.mod_pos_bound (mc_low s + 1 + Z.of_nat i) N ltac:(lia)).
        assert (mc_low s = mc_low s + 1 + Z.of_nat i); [|lia]. apply (mod_inj_near N); lia.
Qed.

Lemma mchan_check_step n c q ws t want s' pc' evs : n + 1 < 2 ^ 64 -> mchan_rel n c q ws ->
  threads c !! t = Some (QCheck want) -> mchan_tstep t QGo (shared c) (QCheck want) = Some (s', pc', evs) ->
  exists q' ws', spec_run (queue_spec N) evs q = Some q' /\ mchan_rel (n + 1) (Conf s' (<[t:=pc']> (threads c))) q' ws'.
Proof using Hp.
  intros Hb HR Ht Hs. pose proof (mh_ring _ _ _ _ HR) as Hg. pose proof (mh_n _ _ _ _ HR) as Hn. pose proof N_bounds as HN.
  pose proof (mg_range _ _ Hg) as Hr. pose proof (mg_qlen _ _ Hg) as Hq. destruct want as [m|];
    cbn [mchan_tstep fiber_multi_channel_send fiber_multi_channel_receive] in Hs.
  - rewrite (proj1 (mchan_index _ _ (mc_high (shared c)) Hg)), (mg_size _ _ Hg), u64_small in Hs by lia.
    destruct (Z.ltb_spec (mc_high (shared c) - mc_low (shared c)) N).
    + simplify_eq. exists (q ++ [m]), ws. split; [simpl; by rewrite decide_True by lia|]. rewrite u64_small by lia.
      eapply mchan_local; eauto; [by apply mchan_ring_push|simpl; lia].
    + simplify_eq. exists q, (t :: ws). split; [done|]. by apply mchan_sleep.
  - rewrite (proj1 (mchan_index _ _ (mc_low (shared c)) Hg)) in Hs.
    destruct (Z.ltb_spec (mc_low (shared c)) (mc_high (shared c))) as [Hlt|Hge].
    + destruct (mchan_ring_pop _ _ Hg Hlt) as (v & q' & -> & Ev & Hg'). rewrite Ev in Hs. simpl in Hs. simplify_eq.
      exists q', ws. split; [simpl; by rewrite decide_True|]. rewrite u64_small by lia.
      eapply mchan_local; eauto; simpl; lia.
    + simplify_eq. exists q, (t :: ws). split; [done|]. by apply mchan_sleep.
Qed.

(** The scheduler runs a woken fiber; the maintenance unlocks for a sleeper. *)
Lemma mchan_asleep_step n c q ws t pc s' pc' evs : mchan_rel n c q ws -> threads c !! t = Some pc -> m_asleep pc = true ->
  mchan_tstep t QGo (shared c) pc = Some (s', pc', evs) ->
  evs = [] /\ mchan_rel (n + 1) (Conf s' (<[t:=pc']> (threads c))) q ws.
Proof.
  intros HR Ht Ha Hs. pose proof (mh_n _ _ _ _ HR) as Hn. pose proof (mh_nd _ _ _ _ HR) as Hnd.
  destruct pc as [| | |want|want| |]; try discriminate Ha; cbn [mchan_tstep] in Hs.
  - unfold unlock in Hs. case_decide as El; [|done]. simpl in Hs. simplify_eq. split; [done|].
    assert (t ∈ ws ++ mc_ready (shared c)) as Hin by (apply (mh_asleep _ _ _ _ HR); eauto).
    eapply mchan_rel_step; [exact HR|exact Ht| |simpl; lia|right; right; done|apply HR|done| |].
    + eapply mchan_ring_same; [apply HR|done..].
    + simpl. intros i. case_decide; [subst; done|done].
    + simpl. intros i Hi. destruct (decide (i = t)) as [->|Hne].
      * destruct (mh_ready _ _ _ _ HR _ Hi) as [w Hw]. congruence.
      * rewrite list_lookup_insert_ne by done. by apply (mh_ready _ _ _ _ HR).
  - case_decide as Hin; [|done]. simplify_eq. split; [done|].
    apply NoDup_app in Hnd as (N1 & N2 & N3).
    eapply mchan_rel_step; [exact HR|exact Ht| |simpl; lia|by left|apply HR| | |]; simpl.
    + eapply mchan_ring_same; [apply HR|done..].
    + apply NoDup_app. split_and!; [done| |by apply NoDup_filter]. intros x Hx [_ Hy]%list_elem_of_filter. by apply (N2 x).
    + intros i. rewrite !elem_of_app, list_elem_of_filter. case_decide as E; [|rewrite elem_of_app; tauto]. subst.
      split; [|done]. intros [Hx|[? _]]; [by destruct (N2 t Hx)|done].
    + intros i [Hne Hi]%list_elem_of_filter. rewrite list_lookup_insert_ne by done. by apply (mh_ready _ _ _ _ HR).
Qed.

Lemma mchan_simulation n lbl c c' evs q ws : n + 1 < 2 ^ 64 -> mchan_rel n c q ws -> mchan_step lbl c = Some (c', evs) ->
  exists q' ws', spec_run (queue_spec N) evs q = Some q' /\ mchan_rel (n + 1) c' q' ws'.
Proof using Hp.
  destruct lbl as [t ch]. intros Hb HR Hstep. apply conf_step_inv in Hstep as (pc & s' & pc' & Ht & Hs & ->).
  pose proof (mh_n _ _ _ _ HR) as Hn. pose proof (mh_ring _ _ _ _ HR) as Hg.
  destruct ch, pc; try discriminate Hs; try (by eapply mchan_check_step);
    try (destruct (mchan_asleep_step _ _ _ _ _ _ _ _ _ HR Ht eq_refl Hs) as [-> Hrel]; by exists q, ws).
  - simpl in Hs. simplify_eq. exists q, ws. split; [done|]. eapply mchan_local; eauto; lia.
  - simpl in Hs. simplify_eq. exists q, ws. split; [done|]. eapply mchan_local; eauto; lia.
  - simpl in Hs. case_decide; simplify_eq. exists q, ws. split; [done|].
    eapply mchan_local; [exact HR|exact Ht|done|done|eapply mchan_ring_same; [exact Hg|done..]|simpl; lia|right; left; done|done..].
  - cbn [mchan_tstep] in Hs. destruct (fiber_multi_channel_internal_wake (shared c)) as [s1|] eqn:E; [|done].
    simpl in Hs. simplify_eq. destruct (mchan_wake _ _ _ _ _ _ HR Ht E) as (ws' & Hrel). by exists q, ws'.
  - simpl in Hs. unfold unlock in Hs. case_decide; [|done]. simpl in Hs. simplify_eq. exists q, ws. split; [done|].
    eapply mchan_local; [exact HR|exact Ht|done|done|eapply mchan_ring_same; [exact Hg|done..]|simpl; lia|right; right; done|done..].
Qed.

Lemma mchan_init_rel n c0 : mchan_init p n = Some c0 -> mchan_rel 0 c0 [] [].
Proof using Hp.
  unfold mchan_init, fiber_multi_channel_create. intros H. case_decide as Hp'; [|done]. simpl in H. injection H as <-.
  pose proof N_bounds as HN. rewrite Z.shiftl_1_l, !u32_small by (rewrite ?u32_small; lia).
  assert (forall t pc, replicate n QIdle !! t = Some pc -> pc = QIdle) as Hidle by (intros t pc []%lookup_replicate; done).
  split; simpl; auto; try lia.
  - split; simpl; auto; try lia; [rewrite length_replicate; lia|done].
  - intros t pc ->%Hidle. done.
  - constructor.
  - intros t. split; [set_solver|]. intros (pc & ->%Hidle & ?). done.
  - set_solver.
Qed.

Lemma mchan_run_rel n ls c0 c evs : mchan_init p n = Some c0 -> Z.of_nat (length ls) < 2 ^ 64 ->
  run mchan_step ls c0 = Some (c, evs) ->
  exists q ws, spec_run (queue_spec N) evs [] = Some q /\ mchan_rel (Z.of_nat (length ls)) c q ws.
Proof using Hp.
  intros Hi Hl Hrun.
  destruct (run_simulation mchan_step (queue_spec (A := Z) N) (2 ^ 64) (fun n c q => exists ws, mchan_rel n c q ws))
    with (ls := ls) (n := 0) (s := c0) (s' := c) (evs := evs) (a := @nil Z)
    as (q & Hq & ws & HR); eauto using mchan_init_rel.
  intros k l c1 c2 e q [= Hk] [ws HR] Hs. destruct (mchan_simulation k l c1 c2 e q ws) as (q' & ws' & ? & ?); eauto.
Qed.
End mchan_proof.

(** ** Properties *)


Definition qgo (t k : nat) : list (nat * mchan_choice) := replicate k (t, QGo).
Definition receives (t k : nat) : list (nat * mchan_choice) := (t, QCallReceive) :: qgo t k.
Definition sends (t : nat) (m : Z) (k : nat) : list (nat * mchan_choice) := (t, QCallSend m) :: qgo t k.

(** Three receivers sleep in a channel of two, four senders come. *)
Definition mchan_demo : list (nat * mchan_choice) :=
  receives 0 3 ++ receives 2 3 ++ receives 1 3 ++ sends 5 71 4 ++ sends 5 72 4 ++ sends 3 75 3 ++ sends 4 74 3 ++
  qgo 1 5 ++ sends 5 73 4 ++ qgo 3 4 ++ qgo 4 4 ++ qgo 2 5 ++ qgo 4 5 ++ qgo 3 4.


