(* ===== verification/Context.v ===== *)
(** * Machine contexts ([src/fiber_context.c], x86-64 fast switching)

    Memory is a finite map of cells, one per pointer-sized object; an access
    outside its domain faults.  A fiber's stack is a range of fresh cells, and
    [fiber_context_swap] is its instruction sequence, run by an interpreter for
    the instructions it uses.  The C library's [malloc], [mmap] and [mprotect]
    are inputs: what they return. *)

From S2P Require Import Prelude MpscFifo.

Definition FAULT_MAP_FAILED : Z := 2 ^ 64 - 1.
Definition CTX_EINVAL : Z := 22.
Definition PAGE_SIZE : Z := 4096.

Abbreviation memory := (gmap Z Z).

Definition load (m : memory) (a : Z) : option Z := m !! a.
Definition store (m : memory) (a v : Z) : option memory :=
  match m !! a with Some _ => Some (<[a:=v]> m) | None => None end.

(** The cells of a fresh zeroed block of [count] words at [base]. *)
Definition block (base : Z) (count : nat) : memory :=
  list_to_map ((fun i => (base + 8 * Z.of_nat i, 0)) <$> seq 0 count).

(** ** Stacks *)

Inductive stack_strategy := FIBER_STACK_MALLOC | FIBER_STACK_MMAP.

(** [fiberPageSize] after its initialisation. *)
Definition fiberPageSize : Z := PAGE_SIZE - 50.

Definition fiber_round_to_page_size (size : Z) : Z :=
  let numPages := u64 (size / fiberPageSize + 1) in
  let numPagesAfterMin := if Z.leb 2 numPages then numPages else 2 in
  u64 (fiberPageSize * numPagesAfterMin).

(** The addresses of the fields of a [fiber_context_t]. *)
Definition ctx_stack (c : Z) : Z := c.
Definition ctx_stack_size (c : Z) : Z := c + 8.
Definition ctx_stack_pointer (c : Z) : Z := c + 16.
Definition is_thread (c : Z) : Z := c + 28.

(** The bytes [mmap] really maps: whole pages. *)
Definition page_up (len : Z) : Z := (len + (PAGE_SIZE - 1)) / PAGE_SIZE * PAGE_SIZE.

(** What the allocator answers: an address, and whether [mprotect] fails. *)
Record alloc_answer := AllocAnswer { alloc_ptr : Z; mprotect_ret : Z }.

(** [fiber_context_alloc_stack]: result and memory.  The page protected by
    [mprotect] is not part of the memory. *)
Definition fiber_context_alloc_stack (strategy : stack_strategy) (ans : alloc_answer)
    (m : memory) (context stack_size : Z) : option (Z * memory) :=
  match strategy with
  | FIBER_STACK_MALLOC =>
      let p := alloc_ptr ans in
      let m := if Z.eqb p NULL then m else block p (Z.to_nat (stack_size / 8)) ∪ m in
      m ← store m (ctx_stack context) p;
      m ← store m (ctx_stack_size context) stack_size;
      Some (if Z.eqb p NULL then 0 else 1, m)
  | FIBER_STACK_MMAP =>
      let size := fiber_round_to_page_size stack_size in
      m ← store m (ctx_stack_size context) size;
      let p := alloc_ptr ans in
      if Z.eqb p FAULT_MAP_FAILED then
        m ← store m (ctx_stack context) p; Some (0, m)
      else
        let pages := block (p + PAGE_SIZE) (Z.to_nat ((page_up size - PAGE_SIZE) / 8)) in
        if negb (Z.eqb (mprotect_ret ans) 0) then m ← store m (ctx_stack context) p; Some (0, m)
        else m ← store (pages ∪ m) (ctx_stack context) p; Some (if Z.eqb p NULL then 0 else 1, m)
  end.

(** Unmapping a block. *)
Definition unblock (base : Z) (count : nat) (m : memory) : memory :=
  m ∖ block base count.

Definition fiber_free_stack (strategy : stack_strategy) (m : memory) (context : Z) : option memory :=
  p ← load m (ctx_stack context);
  size ← load m (ctx_stack_size context);
  match strategy with
  | FIBER_STACK_MALLOC => Some (unblock p (Z.to_nat (size / 8)) m)
  | FIBER_STACK_MMAP => Some (unblock (p + PAGE_SIZE) (Z.to_nat ((page_up size - PAGE_SIZE) / 8)) m)
  end.

(** ** Contexts *)

(** [*--context->ctx_stack_pointer = v]. *)
Definition push_ctx (m : memory) (context v : Z) : option memory :=
  sp ← load m (ctx_stack_pointer context);
  m ← store m (ctx_stack_pointer context) (u64 (sp - 8));
  store m (u64 (sp - 8)) v.

Fixpoint push_all (m : memory) (context : Z) (vs : list Z) : option memory :=
  match vs with
  | [] => Some m
  | v :: vs => m ← push_ctx m context v; push_all m context vs
  end.

(** [fiber_context_init]: the result, [errno] if it is set, and the memory. *)
Definition fiber_context_init (strategy : stack_strategy) (ans : alloc_answer) (m : memory)
    (context stack_size run_function param : Z) : option (Z * option Z * memory) :=
  if Z.eqb context NULL || Z.eqb stack_size 0 || Z.eqb run_function NULL then
    Some (FIBER_ERROR, Some CTX_EINVAL, m)
  else
    '(ok, m) ← fiber_context_alloc_stack strategy ans m context stack_size;
    if Z.eqb ok 0 then Some (FIBER_ERROR, None, m)
    else
      p ← load m (ctx_stack context);
      size ← load m (ctx_stack_size context);
      let sp := u64 (p + size - 8) in
      let sp := Z.land sp (2 ^ 64 - 16) in
      m ← store m (ctx_stack_pointer context) (u64 (sp - 8));
      m ← push_all m context [param; NULL; run_function; 0; 0; 0; 0; 0; 0];
      sp ← load m (ctx_stack_pointer context);
      if negb (Z.eqb (Z.land sp 15) 0) then None
      else m ← store m (is_thread context) 0; Some (FIBER_SUCCESS, None, m).

Definition fiber_context_init_from_thread (m : memory) (context : Z) : option (Z * option Z * memory) :=
  if Z.eqb context NULL then Some (FIBER_ERROR, Some CTX_EINVAL, m)
  else
    m ← store m (ctx_stack context) 0;
    m ← store m (ctx_stack_size context) 0;
    m ← store m (ctx_stack_pointer context) 0;
    m ← store m (is_thread context) 1;
    Some (FIBER_SUCCESS, None, m).

Definition fiber_context_destroy (strategy : stack_strategy) (m : memory) (context : Z) : option memory :=
  if Z.eqb context NULL then Some m
  else
    t ← load m (is_thread context);
    if Z.eqb t 0 then fiber_free_stack strategy m context else Some m.

(** ** The switch *)

Inductive reg := RAX | RCX | RDX | RDI | RSI | RSP | RBP | RBX | R12 | R13 | R14 | R15.
#[global] Instance reg_eq_dec : EqDecision reg.
Proof. solve_decision. Defined.

Record machine := Machine { regs : reg -> Z; mem : memory; rip : Z }.

Definition upd (r : reg -> Z) (d : reg) (v : Z) : reg -> Z := fun x => if decide (x = d) then v else r x.

Inductive instr :=
| Leaq_label (d : reg)                  (* leaq 0f(%rip), d *)
| Movq_load (off : Z) (b d : reg)       (* movq off(b), d *)
| Movq_store (s b : reg)                (* movq s, (b) *)
| Movq (s d : reg)
| Pushq (s : reg)
| Popq (d : reg)
| Addq (imm : Z) (d : reg)
| Jmpq (s : reg).

Definition exec1 (label : Z) (i : instr) (x : machine) : option machine :=
  let r := regs x in
  match i with
  | Leaq_label d => Some (Machine (upd r d label) (mem x) (rip x))
  | Movq_load off b d => v ← load (mem x) (u64 (r b + off)); Some (Machine (upd r d v) (mem x) (rip x))
  | Movq_store s b => m ← store (mem x) (r b) (r s); Some (Machine r m (rip x))
  | Movq s d => Some (Machine (upd r d (r s)) (mem x) (rip x))
  | Pushq s =>
      let sp := u64 (r RSP - 8) in
      m ← store (mem x) sp (r s); Some (Machine (upd r RSP sp) m (rip x))
  | Popq d => v ← load (mem x) (r RSP); Some (Machine (upd (upd r RSP (u64 (r RSP + 8))) d v) (mem x) (rip x))
  | Addq imm d => Some (Machine (upd r d (u64 (r d + imm))) (mem x) (rip x))
  | Jmpq s => Some (Machine r (mem x) (r s))
  end.

Fixpoint exec (label : Z) (code : list instr) (x : machine) : option machine :=
  match code with
  | [] => Some x
  | i :: code => x ← exec1 label i x; exec label code x
  end.

(** The assembly, with [%[from]] in [rdi] and [%[to]] in [rsi]. *)
Definition swap_asm : list instr :=
  [Leaq_label RAX; Movq_load 48 RSI RCX;
   Pushq RAX; Pushq RBP; Pushq RBX; Pushq R12; Pushq R13; Pushq R14; Pushq R15;
   Movq_store RSP RDI; Movq RSI RSP;
   Popq R15; Popq R14; Popq R13; Popq R12; Popq RBX; Popq RBP;
   Movq_load 64 RSI RDI; Addq 8 RSP; Jmpq RCX].

(** [fiber_context_swap]; [label] is the address of the label [0:]. *)
Definition fiber_context_swap (label : Z) (x : machine) (from_context to_context : Z) : option machine :=
  if Z.eqb from_context NULL || Z.eqb to_context NULL then None
  else
    to_sp ← load (mem x) (ctx_stack_pointer to_context);
    exec label swap_asm (Machine (upd (upd (regs x) RDI (ctx_stack_pointer from_context)) RSI to_sp) (mem x) (rip x)).

(** ** Memory lemmas *)

Lemma store_mapped m a v : is_Some (m !! a) -> store m a v = Some (<[a:=v]> m).
Proof. intros [y Hy]. unfold store. by rewrite Hy. Qed.

(** The words of [vs] pushed below address [top], the first one highest. *)
Fixpoint pushed (m : memory) (top : Z) (vs : list Z) : memory :=
  match vs with
  | [] => m
  | v :: vs => pushed (<[top - 8:=v]> m) (top - 8) vs
  end.

(** The [n] words below [top]. *)
Definition words_below (top : Z) (n : nat) (a : Z) : Prop :=
  exists i, (i < n)%nat /\ a = top - 8 * (Z.of_nat i + 1).

Lemma words_below_S top n a : words_below top (S n) a <-> a = top - 8 \/ words_below (top - 8) n a.
Proof.
  split.
  - intros ([|i] & Hi & ->); [left; lia|right]. exists i. split; [lia|]. lia.
  - intros [->|(i & Hi & ->)]; [exists O; split; [lia|lia]|exists (S i); split; [lia|lia]].
Qed.

Lemma pushed_outside vs : forall m top a, ~ words_below top (length vs) a -> pushed m top vs !! a = m !! a.
Proof.
  induction vs as [|v vs IH]; intros m top a Ha; [done|]. cbn [pushed length] in *. rewrite words_below_S in Ha.
  rewrite IH by tauto. apply lookup_insert_ne. intros <-. tauto.
Qed.

Lemma pushed_inside vs : forall m top i v, vs !! i = Some v ->
  pushed m top vs !! (top - 8 * (Z.of_nat i + 1)) = Some v.
Proof.
  induction vs as [|v0 vs IH]; intros m top [|i] v Hi; simplify_eq/=.
  - rewrite pushed_outside; [replace (top - 8 * (0 + 1)) with (top - 8) by lia; apply lookup_insert_eq|].
    intros (j & Hj & Ej). lia.
  - replace (top - 8 * (Z.of_nat (S i) + 1)) with (top - 8 - 8 * (Z.of_nat i + 1)) by lia. by apply IH.
Qed.

Lemma pushed_mapped vs : forall m top a, is_Some (m !! a) -> is_Some (pushed m top vs !! a).
Proof.
  induction vs as [|v vs IH]; intros m top a Ha; [done|]. apply IH. rewrite lookup_insert. case_decide; eauto.
Qed.

Lemma pushed_insert vs : forall m top a v, ~ words_below top (length vs) a ->
  pushed (<[a:=v]> m) top vs = <[a:=v]> (pushed m top vs).
Proof.
  induction vs as [|x vs IH]; intros m top a v Ha; [done|]. cbn [pushed length] in *. rewrite words_below_S in Ha.
  rewrite insert_insert_ne by (intros E; apply Ha; by left). apply IH. tauto.
Qed.

(** ** Running pushes and pops *)

Lemma exec_app label c1 : forall c2 x,
  exec label (c1 ++ c2) x = match exec label c1 x with Some x' => exec label c2 x' | None => None end.
Proof.
  induction c1 as [|i c1 IH]; intros c2 x; [done|]. cbn. destruct (exec1 label i x); [apply IH|done].
Qed.

Lemma upd_same r d v : upd r d v d = v.
Proof. unfold upd. by rewrite decide_True. Qed.
Lemma upd_other r d v x : x <> d -> upd r d v x = r x.
Proof. intros H. unfold upd. by rewrite decide_False. Qed.

Lemma exec_pushes label : forall rs x top, Forall (fun r => r <> RSP) rs ->
  regs x RSP = top -> 8 * Z.of_nat (length rs) <= top < 2 ^ 64 ->
  (forall a, words_below top (length rs) a -> is_Some (mem x !! a)) ->
  exists x', exec label (Pushq <$> rs) x = Some x' /\
    regs x' RSP = top - 8 * Z.of_nat (length rs) /\ (forall r, r <> RSP -> regs x' r = regs x r) /\
    mem x' = pushed (mem x) top (regs x <$> rs) /\ rip x' = rip x.
Proof.
  induction rs as [|r rs IH]; intros x top Hrs Hsp Hlt Hm.
  { exists x. cbn. split_and!; try done. lia. }
  apply Forall_cons in Hrs as [Hr Hrs]. cbn [length] in *.
  assert (u64 (regs x RSP - 8) = top - 8) as Esp by (rewrite Hsp; apply u64_small; lia).
  assert (exec1 label (Pushq r) x =
    Some (Machine (upd (regs x) RSP (top - 8)) (<[top - 8:=regs x r]> (mem x)) (rip x))) as E1.
  { cbn [exec1]. rewrite Esp. rewrite store_mapped by (apply Hm; exists O; split; [lia|lia]). done. }
  rewrite fmap_cons. cbn [exec]. rewrite E1. cbn [mbind option_bind].
  edestruct (IH (Machine (upd (regs x) RSP (top - 8)) (<[top - 8:=regs x r]> (mem x)) (rip x)) (top - 8))
    as (x' & E & H1 & H2 & H3 & H4); [done|apply upd_same|lia| |].
  { intros a Ha. cbn [mem]. rewrite lookup_insert. case_decide; [eauto|]. apply Hm. apply words_below_S. by right. }
  exists x'. split; [done|]. split_and!; [rewrite H1; lia| | |done].
  - intros r' Hr'. rewrite H2 by done. by apply upd_other.
  - rewrite H3. cbn [mem regs fmap list_fmap pushed]. f_equal. apply list_fmap_ext.
    intros i r' Hi. apply upd_other. rewrite Forall_forall in Hrs. eapply Hrs, list_elem_of_lookup_2, Hi.
Qed.

Lemma exec_pops label : forall ds x sp, NoDup ds -> Forall (fun r => r <> RSP) ds ->
  regs x RSP = sp -> 0 <= sp -> sp + 8 * Z.of_nat (length ds) < 2 ^ 64 ->
  (forall i, (i < length ds)%nat -> is_Some (mem x !! (sp + 8 * Z.of_nat i))) ->
  exists x', exec label (Popq <$> ds) x = Some x' /\
    regs x' RSP = sp + 8 * Z.of_nat (length ds) /\ mem x' = mem x /\ rip x' = rip x /\
    (forall r, r <> RSP -> r ∉ ds -> regs x' r = regs x r) /\
    (forall i d, ds !! i = Some d -> mem x !! (sp + 8 * Z.of_nat i) = Some (regs x' d)).
Proof.
  induction ds as [|d ds IH]; intros x sp Hnd Hrs Hsp H0 Hlt Hm.
  { exists x. cbn. split_and!; try done. lia. }
  apply Forall_cons in Hrs as [Hd Hrs]. apply NoDup_cons in Hnd as [Hdn Hnd]. cbn [length] in *.
  destruct (Hm O ltac:(lia)) as [v Hv]. replace (sp + 8 * Z.of_nat 0) with sp in Hv by lia.
  set (x1 := Machine (upd (upd (regs x) RSP (sp + 8)) d v) (mem x) (rip x)).
  assert (exec1 label (Popq d) x = Some x1) as E1.
  { cbn [exec1]. unfold load. rewrite Hsp, Hv. cbn [mbind option_bind]. by rewrite u64_small by lia. }
  rewrite fmap_cons. cbn [exec]. rewrite E1. cbn [mbind option_bind].
  destruct (IH x1 (sp + 8)) as (x' & E & H1 & H2 & H3 & H4 & H5); [done|done| |lia|lia| |].
  { unfold x1. cbn. rewrite upd_other by done. apply upd_same. }
  { intros i Hi. replace (sp + 8 + 8 * Z.of_nat i) with (sp + 8 * Z.of_nat (S i)) by lia. apply Hm. lia. }
  exists x'. split; [done|]. split_and!; [rewrite H1; lia|done|done| |].
  - intros r Hr Hin. apply not_elem_of_cons in Hin as [Hne Hin]. rewrite H4 by done. unfold x1. cbn.
    by rewrite !upd_other.
  - intros [|i] d' Hi; cbn in Hi.
    + injection Hi as <-. replace (sp + 8 * Z.of_nat 0) with sp by lia. rewrite H4 by done. unfold x1. cbn. by rewrite upd_same.
    + replace (sp + 8 * Z.of_nat (S i)) with (sp + 8 + 8 * Z.of_nat i) by lia. by apply H5.
Qed.

(** ** What a switch does *)

Definition callee_saved : list reg := [R15; R14; R13; R12; RBX; RBP].

(** A context suspended at [sp]: the callee-saved registers [r], the address
    [resume] at which it continues and the word [arg] loaded into [rdi]. *)
Definition frame (m : memory) (sp : Z) (r : reg -> Z) (resume arg : Z) : Prop :=
  (forall i d, callee_saved !! i = Some d -> m !! (sp + 8 * Z.of_nat i) = Some (r d)) /\
  m !! (sp + 48) = Some resume /\ m !! (sp + 64) = Some arg.

(** The running context can be suspended in [from]: there are seven free words
    below its stack pointer, apart from the context itself. *)
Definition can_suspend (x : machine) (from_context : Z) : Prop :=
  from_context <> NULL /\ 56 <= regs x RSP < 2 ^ 64 - 16 /\
  (forall a, words_below (regs x RSP) 7 a -> is_Some (mem x !! a)) /\
  is_Some (mem x !! ctx_stack_pointer from_context) /\
  ~ words_below (regs x RSP) 7 (ctx_stack_pointer from_context).

(** The memory after suspending it; [label] is where it continues. *)
Definition suspended (label : Z) (x : machine) (from_context : Z) : memory :=
  <[ctx_stack_pointer from_context:=regs x RSP - 56]>
    (pushed (mem x) (regs x RSP) (label :: (regs x <$> reverse callee_saved))).

(** The words of the frame at [sp] are apart from those written when [x] is
    suspended in [from]. *)
Definition apart (x : machine) (from_context sp : Z) : Prop :=
  forall a, sp <= a <= sp + 64 -> ~ words_below (regs x RSP) 7 a /\ a <> ctx_stack_pointer from_context.

Lemma suspended_other label x from a :
  ~ words_below (regs x RSP) 7 a -> a <> ctx_stack_pointer from -> suspended label x from !! a = mem x !! a.
Proof.
  intros H1 H2. unfold suspended. rewrite lookup_insert_ne by congruence. by apply pushed_outside.
Qed.

Lemma frame_suspended label x from sp r resume arg : apart x from sp ->
  frame (mem x) sp r resume arg -> frame (suspended label x from) sp r resume arg.
Proof.
  intros Hap (F1 & F2 & F3). assert (forall a, sp <= a <= sp + 64 -> suspended label x from !! a = mem x !! a) as E.
  { intros a Ha. destruct (Hap a Ha). by apply suspended_other. }
  split_and!; [|rewrite E by lia; done|rewrite E by lia; done].
  intros i d Hi. rewrite E; [by apply F1|]. apply lookup_lt_Some in Hi. cbn in Hi. lia.
Qed.

(** The state right after the stack was switched. *)
Lemma swap_first_half label x from to_sp r resume arg :
  can_suspend x from -> frame (mem x) to_sp r resume arg -> 0 <= to_sp < 2 ^ 64 - 72 ->
  exists x1, exec label ([Leaq_label RAX; Movq_load 48 RSI RCX] ++
      (Pushq <$> [RAX; RBP; RBX; R12; R13; R14; R15]) ++ [Movq_store RSP RDI; Movq RSI RSP])
      (Machine (upd (upd (regs x) RDI (ctx_stack_pointer from)) RSI to_sp) (mem x) (rip x)) = Some x1 /\
    regs x1 RSP = to_sp /\ regs x1 RSI = to_sp /\ regs x1 RCX = resume /\ mem x1 = suspended label x from.
Proof.
  intros (Hf & Hsp & Hm & Hctx & Hap) (F1 & F2 & F3) Hto. rewrite exec_app.
  set (x0 := Machine (upd (upd (upd (upd (regs x) RDI (ctx_stack_pointer from)) RSI to_sp) RAX label) RCX resume) (mem x) (rip x)).
  assert (exec label [Leaq_label RAX; Movq_load 48 RSI RCX]
    (Machine (upd (upd (regs x) RDI (ctx_stack_pointer from)) RSI to_sp) (mem x) (rip x)) = Some x0) as ->.
  { cbn [exec exec1 regs mem rip mbind option_bind]. rewrite (upd_other _ RAX) by done. rewrite upd_same.
    unfold load. rewrite u64_small by lia. by rewrite F2. }
  rewrite exec_app.
  destruct (exec_pushes label [RAX; RBP; RBX; R12; R13; R14; R15] x0 (regs x RSP)) as (x1 & -> & H1 & H2 & H3 & H4).
  { by repeat constructor. }
  { reflexivity. }
  { cbn. lia. }
  { exact Hm. }
  cbn [length] in H1. replace (regs x RSP - 8 * Z.of_nat 7) with (regs x RSP - 56) in H1 by lia.
  assert (mem x1 = pushed (mem x) (regs x RSP) (label :: (regs x <$> reverse callee_saved))) as Hmem by (rewrite H3; reflexivity).
  cbn [exec exec1]. rewrite (H2 RDI) by done. change (regs x0 RDI) with (ctx_stack_pointer from).
  rewrite store_mapped by (rewrite Hmem; by apply pushed_mapped). cbn [mbind option_bind].
  eexists. split; [reflexivity|]. cbn [regs mem].
  rewrite upd_same, upd_other, (upd_other _ _ _ RCX), (H2 RSI), (H2 RCX) by done.
  split_and!; try reflexivity. unfold suspended. by rewrite H1, Hmem.
Qed.

Lemma swap_spec label x from to to_sp r resume arg :
  can_suspend x from -> to <> NULL -> mem x !! ctx_stack_pointer to = Some to_sp ->
  frame (mem x) to_sp r resume arg -> 0 <= to_sp < 2 ^ 64 - 72 -> apart x from to_sp ->
  exists x', fiber_context_swap label x from to = Some x' /\
    (forall d, d ∈ callee_saved -> regs x' d = r d) /\ regs x' RSP = to_sp + 56 /\
    regs x' RDI = arg /\ rip x' = resume /\ mem x' = suspended label x from.
Proof.
  intros Hs Hto Hsp Hfr Hr Hap. unfold fiber_context_swap, load.
  rewrite (proj2 (Z.eqb_neq from NULL)), (proj2 (Z.eqb_neq to NULL)), Hsp by (done || apply Hs).
  cbn [orb mbind option_bind].
  change swap_asm with (([Leaq_label RAX; Movq_load 48 RSI RCX] ++
      (Pushq <$> [RAX; RBP; RBX; R12; R13; R14; R15]) ++ [Movq_store RSP RDI; Movq RSI RSP]) ++
      (Popq <$> callee_saved) ++ [Movq_load 64 RSI RDI; Addq 8 RSP; Jmpq RCX]).
  rewrite exec_app. destruct (swap_first_half label x from to_sp r resume arg Hs Hfr Hr) as (x1 & -> & A1 & A2 & A3 & A4).
  pose proof (frame_suspended label x from to_sp r resume arg Hap Hfr) as (F1 & F2 & F3). rewrite <- A4 in F1, F2, F3.
  rewrite exec_app.
  destruct (exec_pops label callee_saved x1 to_sp) as (x2 & -> & B1 & B2 & B3 & B4 & B5);
    [by apply (bool_decide_unpack (NoDup callee_saved))|by repeat constructor|done|lia|cbn; lia| |].
  { intros i Hi. destruct (lookup_lt_is_Some_2 callee_saved i Hi) as [d Hd]. rewrite (F1 i d Hd). by eexists. }
  assert (forall s, s <> RSP -> s ∉ callee_saved -> regs x2 s = regs x1 s) as Hk by exact B4.
  assert (regs x2 RSI = to_sp /\ regs x2 RCX = resume) as [C1 C2].
  { rewrite !Hk, A2, A3 by (done || (unfold callee_saved; set_solver)). done. }
  cbn [length callee_saved] in B1. cbn [exec exec1]. unfold load. rewrite C1, u64_small, B2, F3 by lia.
  cbn [mbind option_bind regs mem rip]. eexists. split; [reflexivity|]. cbn [regs mem rip].
  split_and!.
  - intros d Hd. rewrite !upd_other by (intros ->; unfold callee_saved in Hd; set_solver).
    destruct (list_elem_of_lookup_1 _ _ Hd) as [i Hi]. specialize (F1 i d Hi). rewrite (B5 i d Hi) in F1. congruence.
  - rewrite upd_same, upd_other, B1 by done. rewrite u64_small by lia. lia.
  - rewrite upd_other by done. by rewrite upd_same.
  - by rewrite !upd_other.
  - done.
Qed.

(** Suspending leaves a frame behind. *)
Lemma suspended_frame label x from : can_suspend x from ->
  is_Some (mem x !! (regs x RSP + 8)) -> ctx_stack_pointer from <> regs x RSP + 8 ->
  exists arg, frame (suspended label x from) (regs x RSP - 56) (regs x) label arg /\
    suspended label x from !! ctx_stack_pointer from = Some (regs x RSP - 56).
Proof.
  intros (Hf & Hsp & Hm & Hctx & Hap) [arg Harg] Hne. exists arg.
  assert (forall i v, (label :: (regs x <$> reverse callee_saved)) !! i = Some v ->
    suspended label x from !! (regs x RSP - 8 * (Z.of_nat i + 1)) = Some v) as Hin.
  { intros i v Hi. unfold suspended. rewrite lookup_insert_ne.
    - by apply pushed_inside.
    - intros E. apply Hap. exists i. split; [by apply lookup_lt_Some in Hi|done]. }
  split; [|unfold suspended; apply lookup_insert_eq]. split_and!.
  - intros i d Hi. pose proof (lookup_lt_Some _ _ _ Hi) as Hlt. cbn in Hlt.
    replace (regs x RSP - 56 + 8 * Z.of_nat i) with (regs x RSP - 8 * (Z.of_nat (6 - i) + 1)) by lia. apply Hin.
    destruct i as [|[|[|[|[|[|i]]]]]]; cbn in Hi; simplify_eq; reflexivity || lia.
  - replace (regs x RSP - 56 + 48) with (regs x RSP - 8 * (Z.of_nat 0 + 1)) by lia. by apply Hin.
  - replace (regs x RSP - 56 + 64) with (regs x RSP + 8) by lia. rewrite suspended_other; [done| |done].
    intros (i & Hi & E). lia.
Qed.

(** C12: Switching away and back.  A context that switches away is continued by
    any later switch to it, from any context and on any thread, right after its
    own switch, with its stack pointer and all callee-saved registers as they
    were, provided its stack was left alone; the first switch continues the
    other context with the registers, the argument and the address saved
    there. *)
Theorem swap_roundtrip label x a b b_sp r resume arg :
  can_suspend x a -> is_Some (mem x !! (regs x RSP + 8)) -> ctx_stack_pointer a <> regs x RSP + 8 ->
  b <> NULL -> mem x !! ctx_stack_pointer b = Some b_sp -> frame (mem x) b_sp r resume arg ->
  0 <= b_sp < 2 ^ 64 - 72 -> apart x a b_sp ->
  exists x', fiber_context_swap label x a b = Some x' /\
    rip x' = resume /\ regs x' RDI = arg /\ regs x' RSP = b_sp + 56 /\
    (forall d, d ∈ callee_saved -> regs x' d = r d) /\
    forall y c label',
      (forall w, regs x RSP - 56 <= w <= regs x RSP + 8 \/ w = ctx_stack_pointer a -> mem y !! w = mem x' !! w) ->
      can_suspend y c -> apart y c (regs x RSP - 56) ->
      exists z, fiber_context_swap label' y c a = Some z /\ rip z = label /\ regs z RSP = regs x RSP /\
        (forall d, d ∈ callee_saved -> regs z d = regs x d).
Proof.
  intros Hs Harg Hne Hb Hbsp Hfr Hr Hap.
  destruct (swap_spec label x a b b_sp r resume arg) as (x' & E & H1 & H2 & H3 & H4 & H5); [done..|].
  exists x'. split_and!; [done|done|done|done|done|]. intros y c label' Hag Hcs Hap'.
  destruct (suspended_frame label x a Hs Harg Hne) as (arg' & (F1 & F2 & F3) & Hctx). rewrite <- H5 in F1, F2, F3, Hctx.
  assert (frame (mem y) (regs x RSP - 56) (regs x) label arg') as Hfy.
  { split_and!.
    - intros i d Hi. rewrite Hag; [by apply F1|]. apply lookup_lt_Some in Hi. cbn in Hi. lia.
    - rewrite Hag by lia. done.
    - rewrite Hag by lia. done. }
  destruct Hs as (Ha & Hsp & _).
  destruct (swap_spec label' y c a (regs x RSP - 56) (regs x) label arg') as (z & Ez & Z1 & Z2 & _ & Z4 & _);
    [done|done| |done|lia|done|].
  { rewrite Hag by (by right). done. }
  exists z. split_and!; [done|done|rewrite Z2; lia|done].
Qed.

(** ** New contexts *)

Lemma block_lookup base : forall n a v, block base n !! a = Some v <->
  v = 0 /\ exists i, (i < n)%nat /\ a = base + 8 * Z.of_nat i.
Proof.
  intros n a v. unfold block.
  assert (NoDup ((fun i => (base + 8 * Z.of_nat i, 0)) <$> seq 0 n).*1) as Hnd.
  { rewrite <- list_fmap_compose. apply NoDup_fmap_2_strong; [|apply NoDup_seq]. cbn. intros. lia. }
  rewrite <- elem_of_list_to_map by done. rewrite list_elem_of_fmap. split.
  - intros (i & [= -> ->] & Hi). apply elem_of_seq in Hi. split; [done|]. exists i. split; [lia|done].
  - intros (-> & i & Hi & ->). exists i. split; [done|]. apply elem_of_seq. lia.
Qed.

Lemma block_none base n a : block base n !! a = None <-> forall i, (i < n)%nat -> a <> base + 8 * Z.of_nat i.
Proof.
  split.
  - intros H i Hi ->. assert (block base n !! (base + 8 * Z.of_nat i) = Some 0) as E by (apply block_lookup; eauto). congruence.
  - intros H. destruct (block base n !! a) as [v|] eqn:E; [|done]. apply block_lookup in E as (-> & i & Hi & ->).
    by destruct (H i Hi).
Qed.

Lemma align16 a : 0 <= a < 2 ^ 64 -> Z.land a (2 ^ 64 - 16) = a / 16 * 16.
Proof.
  intros Ha. replace (2 ^ 64 - 16) with (Z.land (Z.ones 64) (Z.lnot (Z.ones 4))) by reflexivity.
  rewrite Z.land_assoc, Z.land_ones, Z.mod_small by lia.
  rewrite <- Z.ldiff_land, Z.ldiff_ones_r, Z.shiftr_div_pow2, Z.shiftl_mul_pow2 by lia. done.
Qed.

Lemma push_all_spec c : forall vs m top, m !! ctx_stack_pointer c = Some top ->
  8 * Z.of_nat (length vs) <= top < 2 ^ 64 ->
  (forall a, words_below top (length vs) a -> is_Some (m !! a) /\ a <> ctx_stack_pointer c) ->
  push_all m c vs = Some (<[ctx_stack_pointer c:=top - 8 * Z.of_nat (length vs)]> (pushed m top vs)).
Proof.
  induction vs as [|v vs IH]; intros m top Hc Htop Hm.
  { cbn [push_all pushed length]. replace (top - 8 * Z.of_nat 0) with top by lia. by rewrite insert_id by exact Hc. }
  cbn [push_all length] in *. unfold push_ctx, load. rewrite Hc. cbn [mbind option_bind].
  rewrite !u64_small by lia. rewrite store_mapped by (by eexists). cbn [mbind option_bind].
  destruct (Hm (top - 8)) as [Hma Hne]; [apply words_below_S; by left|].
  rewrite store_mapped by (rewrite lookup_insert_ne by congruence; done). cbn [mbind option_bind].
  assert (~ words_below top (length (v :: vs)) (ctx_stack_pointer c)) as Hnw.
  { intros Hw. by destruct (Hm _ Hw). }
  rewrite (IH _ (top - 8)).
  - f_equal. cbn [pushed]. rewrite insert_insert_ne by congruence. rewrite pushed_insert.
    + rewrite insert_insert_eq. f_equal. lia.
    + intros Hw. apply Hnw. apply words_below_S. by right.
  - rewrite lookup_insert_ne by congruence. apply lookup_insert_eq.
  - lia.
  - intros a Ha. destruct (Hm a) as [Hsa Hna]; [apply words_below_S; by right|]. split; [|done].
    rewrite lookup_insert. case_decide; [eauto|]. by rewrite lookup_insert_ne by congruence.
Qed.

(** The part of a stack a fiber can use: its base and its words; and the size
    recorded in the context. *)
Definition stack_size_of (strategy : stack_strategy) (stack_size : Z) : Z :=
  match strategy with
  | FIBER_STACK_MALLOC => stack_size
  | FIBER_STACK_MMAP => fiber_round_to_page_size stack_size
  end.
Definition stack_base (strategy : stack_strategy) (p : Z) : Z :=
  match strategy with FIBER_STACK_MALLOC => p | FIBER_STACK_MMAP => p + PAGE_SIZE end.
Definition stack_words (strategy : stack_strategy) (stack_size : Z) : nat :=
  match strategy with
  | FIBER_STACK_MALLOC => Z.to_nat (stack_size / 8)
  | FIBER_STACK_MMAP => Z.to_nat ((page_up (fiber_round_to_page_size stack_size) - PAGE_SIZE) / 8)
  end.

(** What [malloc], [mmap] and [mprotect] promise when they succeed: an aligned,
    fresh block. *)
Record alloc_ok (strategy : stack_strategy) (ans : alloc_answer) (m : memory) (stack_size : Z) : Prop := {
  ao_ptr : 0 < alloc_ptr ans < 2 ^ 47;
  ao_align : alloc_ptr ans mod (match strategy with FIBER_STACK_MALLOC => 16 | FIBER_STACK_MMAP => PAGE_SIZE end) = 0;
  ao_mprotect : mprotect_ret ans = 0;
  ao_fresh : forall i, (i < stack_words strategy stack_size)%nat ->
    m !! (stack_base strategy (alloc_ptr ans) + 8 * Z.of_nat i) = None
}.

(** The fields of a [fiber_context_t] at [c] are memory. *)
Definition context_mapped (m : memory) (c : Z) : Prop :=
  c <> NULL /\ is_Some (m !! ctx_stack c) /\ is_Some (m !! ctx_stack_size c) /\
  is_Some (m !! ctx_stack_pointer c) /\ is_Some (m !! is_thread c).

Definition stack_block (strategy : stack_strategy) (p stack_size : Z) : memory :=
  block (stack_base strategy p) (stack_words strategy stack_size).

Lemma fresh_apart strategy ans m stack_size a : alloc_ok strategy ans m stack_size ->
  is_Some (m !! a) -> stack_block strategy (alloc_ptr ans) stack_size !! a = None.
Proof.
  intros Hok [v Hv]. apply block_none. intros i Hi ->. rewrite (ao_fresh _ _ _ _ Hok i Hi) in Hv. done.
Qed.

Lemma fields_apart c : ctx_stack c <> ctx_stack_size c /\ ctx_stack c <> ctx_stack_pointer c /\
  ctx_stack c <> is_thread c /\ ctx_stack_size c <> ctx_stack_pointer c /\ ctx_stack_size c <> is_thread c /\
  ctx_stack_pointer c <> is_thread c.
Proof. unfold ctx_stack, ctx_stack_size, ctx_stack_pointer, is_thread. lia. Qed.

Lemma alloc_spec strategy ans m c stack_size :
  alloc_ok strategy ans m stack_size -> context_mapped m c ->
  exists m1, fiber_context_alloc_stack strategy ans m c stack_size = Some (1, m1) /\
    m1 !! ctx_stack c = Some (alloc_ptr ans) /\ m1 !! ctx_stack_size c = Some (stack_size_of strategy stack_size) /\
    (forall a, a <> ctx_stack c -> a <> ctx_stack_size c ->
      m1 !! a = (stack_block strategy (alloc_ptr ans) stack_size ∪ m) !! a).
Proof.
  intros Hok (Hc & Hm1 & Hm2 & Hm3 & Hm4). pose proof Hok as [Hp Hal Hmp Hfr].
  destruct (fields_apart c) as (N1 & _). pose proof (fresh_apart _ _ _ _ _ Hok Hm1) as B1.
  pose proof (fresh_apart _ _ _ _ _ Hok Hm2) as B2.
  assert (alloc_ptr ans <> NULL) as Hn by (unfold NULL; lia).
  unfold fiber_context_alloc_stack. destruct strategy; cbn [stack_size_of stack_base stack_words stack_block] in *.
  - rewrite (proj2 (Z.eqb_neq _ _) Hn).
    rewrite store_mapped by (rewrite lookup_union_r by done; done). cbn [mbind option_bind].
    rewrite store_mapped by (rewrite lookup_insert_ne by done; rewrite lookup_union_r by done; done).
    cbn [mbind option_bind]. eexists. split; [reflexivity|]. split_and!.
    + rewrite lookup_insert_ne by done. apply lookup_insert_eq.
    + apply lookup_insert_eq.
    + intros a H1 H2. by rewrite !lookup_insert_ne by done.
  - rewrite store_mapped by done. cbn [mbind option_bind].
    rewrite (proj2 (Z.eqb_neq _ FAULT_MAP_FAILED)) by (unfold FAULT_MAP_FAILED; lia).
    rewrite Hmp. cbn [Z.eqb negb]. rewrite (proj2 (Z.eqb_neq _ _) Hn).
    rewrite store_mapped by (rewrite lookup_union_r by done; rewrite lookup_insert_ne by done; done).
    cbn [mbind option_bind]. eexists. split; [reflexivity|]. split_and!.
    + apply lookup_insert_eq.
    + rewrite lookup_insert_ne by done. rewrite lookup_union_r by done. apply lookup_insert_eq.
    + intros a H1 H2. rewrite lookup_insert_ne by done. unfold stack_block. cbn [stack_base stack_words].
      rewrite !lookup_union. by rewrite lookup_insert_ne by done.
Qed.

(** Rounding to pages. *)
Lemma round_spec size : 0 <= size < 2 ^ 63 ->
  let r := fiber_round_to_page_size size in
  size < r /\ 2 * fiberPageSize <= r /\ r <= size + 2 * fiberPageSize /\ (r = 2 * fiberPageSize \/ r <= size + fiberPageSize).
Proof.
  intros Hs r. unfold r, fiber_round_to_page_size, fiberPageSize, PAGE_SIZE.
  change (4096 - 50) with 4046. rewrite (u64_small (size / 4046 + 1)) by (Z.to_euclidean_division_equations; lia).
  destruct (Z.leb_spec 2 (size / 4046 + 1)); rewrite u64_small; Z.to_euclidean_division_equations; lia.
Qed.

(** The block reaches from its base to the end of the stack. *)
Lemma stack_extent strategy ans m stack_size : alloc_ok strategy ans m stack_size ->
  103 <= stack_size < 2 ^ 46 ->
  let p := alloc_ptr ans in
  let size := stack_size_of strategy stack_size in
  let lo := stack_base strategy p in
  lo mod 16 = 0 /\ 0 < lo /\ lo + 103 <= p + size /\ p + size - 8 < lo + 8 * Z.of_nat (stack_words strategy stack_size) /\
  p + size < 2 ^ 48.
Proof.
  intros [Hp Hal _ _] Hs. destruct strategy; cbn [stack_size_of stack_base stack_words].
  - rewrite Z2Nat.id by (apply Z.div_pos; lia). Z.to_euclidean_division_equations. lia.
  - destruct (round_spec stack_size) as (R1 & R2 & R3 & _); [lia|].
    set (r := fiber_round_to_page_size stack_size) in *. unfold fiberPageSize, PAGE_SIZE in *.
    assert (r <= page_up r) as Hup by (unfold page_up, PAGE_SIZE; Z.to_euclidean_division_equations; lia).
    rewrite Z2Nat.id by (apply Z.div_pos; unfold PAGE_SIZE; lia).
    Z.to_euclidean_division_equations. lia.
Qed.

Definition initial_words (run_function param : Z) : list Z :=
  [param; NULL; run_function; 0; 0; 0; 0; 0; 0].

(** The words a new stack starts with lie in its block. *)
Lemma initial_words_fit strategy ans m stack_size : alloc_ok strategy ans m stack_size ->
  103 <= stack_size < 2 ^ 46 ->
  let top := (alloc_ptr ans + stack_size_of strategy stack_size - 8) / 16 * 16 in
  0 <= alloc_ptr ans + stack_size_of strategy stack_size - 8 < 2 ^ 64 /\ 80 <= top < 2 ^ 48 /\
  stack_base strategy (alloc_ptr ans) <= top - 80 /\
  (forall a, words_below (top - 8) 9 a -> stack_block strategy (alloc_ptr ans) stack_size !! a = Some 0).
Proof.
  intros Hok Hs top. destruct (stack_extent _ _ _ _ Hok Hs) as (E1 & E2 & E3 & E4 & E5).
  assert (top mod 16 = 0 /\ alloc_ptr ans + stack_size_of strategy stack_size - 24 < top <=
    alloc_ptr ans + stack_size_of strategy stack_size - 8) as [T1 T2]
    by (unfold top; Z.to_euclidean_division_equations; lia).
  split_and!; try lia. intros a (i & Hi & ->). apply block_lookup. split; [done|].
  exists (Z.to_nat ((top - 8 - 8 * (Z.of_nat i + 1) - stack_base strategy (alloc_ptr ans)) / 8)).
  rewrite Z2Nat.id by (apply Z.div_pos; lia).
  assert ((top - 8 - 8 * (Z.of_nat i + 1) - stack_base strategy (alloc_ptr ans)) mod 8 = 0) as Hmod
    by (Z.to_euclidean_division_equations; lia).
  split; Z.to_euclidean_division_equations; lia.
Qed.

Lemma init_spec strategy ans m c stack_size f param :
  alloc_ok strategy ans m stack_size -> context_mapped m c -> f <> NULL -> 103 <= stack_size < 2 ^ 46 ->
  let p := alloc_ptr ans in
  let sp := (p + stack_size_of strategy stack_size - 8) / 16 * 16 - 80 in
  exists m1, fiber_context_init strategy ans m c stack_size f param =
      Some (FIBER_SUCCESS, None,
        <[is_thread c:=0]> (<[ctx_stack_pointer c:=sp]> (pushed m1 (sp + 72) (initial_words f param)))) /\
    m1 !! ctx_stack c = Some p /\ m1 !! ctx_stack_size c = Some (stack_size_of strategy stack_size) /\
    (forall a, a <> ctx_stack c -> a <> ctx_stack_size c ->
      m1 !! a = (stack_block strategy p stack_size ∪ m) !! a).
Proof.
  intros Hok Hc Hf Hs p sp. destruct (alloc_spec _ _ _ _ _ Hok Hc) as (m1 & Ea & A1 & A2 & A3).
  destruct (initial_words_fit _ _ _ _ Hok Hs) as (W0 & W1 & W2 & W3). destruct (fields_apart c) as (_ & N2 & _ & N4 & _ & N6).
  pose proof Hc as (Hc0 & M1 & M2 & M3 & M4). fold p in W0, W1, W2, W3, A1, A3.
  exists m1. split; [|done]. unfold fiber_context_init.
  rewrite (proj2 (Z.eqb_neq c NULL)), (proj2 (Z.eqb_neq f NULL)), (proj2 (Z.eqb_neq stack_size 0)) by (done || lia).
  cbn [orb]. rewrite Ea. cbn [mbind option_bind Z.eqb]. unfold load. rewrite A1, A2. cbn [mbind option_bind].
  rewrite (u64_small (p + _ - 8)), align16 by lia. set (top := (p + _ - 8) / 16 * 16) in *.
  assert (is_Some (m1 !! ctx_stack_pointer c)) as M3'.
  { rewrite A3 by congruence. rewrite lookup_union_r by (by eapply fresh_apart). done. }
  rewrite store_mapped by done. cbn [mbind option_bind]. rewrite u64_small by lia.
  rewrite (push_all_spec c _ _ (top - 8)); [|apply lookup_insert_eq|cbn; lia|].
  2:{ intros a Ha. specialize (W3 a Ha). assert (is_Some (m !! a) -> False) as Hno.
      { intros Hsome. pose proof (fresh_apart _ _ _ _ _ Hok Hsome) as E. fold p in E. congruence. }
      assert (a <> ctx_stack_pointer c /\ a <> ctx_stack c /\ a <> ctx_stack_size c) as (? & ? & ?)
        by (split_and!; intros ->; by apply Hno).
      split; [|done]. rewrite lookup_insert_ne by congruence. rewrite A3 by done. rewrite lookup_union. rewrite W3.
      destruct (m !! a); by eexists. }
  cbn [mbind option_bind length]. rewrite pushed_insert.
  2:{ intros Hw. specialize (W3 _ Hw). pose proof (fresh_apart _ _ _ _ _ Hok M3) as E. fold p in E. congruence. }
  rewrite insert_insert_eq, lookup_insert_eq. cbn [mbind option_bind].
  replace (top - 8 - 8 * Z.of_nat 9) with sp by (unfold sp; fold top; lia).
  replace (top - 8) with (sp + 72) by (unfold sp; fold top; lia).
  assert (Z.land sp 15 = 0) as ->.
  { change 15 with (2 ^ 4 - 1). rewrite land_pow2_mod by lia. unfold sp, top. Z.to_euclidean_division_equations. lia. }
  cbn [Z.eqb negb]. rewrite store_mapped; [done|].
  rewrite lookup_insert_ne by done. apply pushed_mapped. rewrite A3.
  - rewrite lookup_union_r by (by eapply fresh_apart). done.
  - destruct (fields_apart c) as (_ & _ & ? & _). congruence.
  - destruct (fields_apart c) as (_ & _ & _ & _ & ? & _). congruence.
Qed.

(** New contexts.  [fiber_context_init] succeeds on a fresh block and
    prepares a stack inside it; the first switch to the context, from any
    context, enters the given function with the given parameter in [rdi], the
    stack aligned as the ABI wants at a function's entry and a null return
    address on it. *)
Theorem new_context_starts strategy ans m c stack_size f param :
  alloc_ok strategy ans m stack_size -> context_mapped m c -> f <> NULL -> 103 <= stack_size < 2 ^ 46 ->
  exists m' sp, fiber_context_init strategy ans m c stack_size f param = Some (FIBER_SUCCESS, None, m') /\
    m' !! ctx_stack_pointer c = Some sp /\ m' !! is_thread c = Some 0 /\
    stack_base strategy (alloc_ptr ans) <= sp /\ sp + 72 < alloc_ptr ans + stack_size_of strategy stack_size /\
    forall label x from,
      (forall a, sp <= a <= sp + 64 \/ a = ctx_stack_pointer c -> mem x !! a = m' !! a) ->
      can_suspend x from -> apart x from sp ->
      exists x', fiber_context_swap label x from c = Some x' /\ rip x' = f /\ regs x' RDI = param /\
        regs x' RSP = sp + 56 /\ (regs x' RSP + 8) mod 16 = 0 /\ mem x' !! regs x' RSP = Some NULL.
Proof.
  intros Hok Hc Hf Hs. destruct (init_spec strategy ans m c stack_size f param Hok Hc Hf Hs) as (m1 & -> & I1 & I2 & I3).
  destruct (initial_words_fit _ _ _ _ Hok Hs) as (W0 & W1 & W2 & W3). destruct (fields_apart c) as (_ & _ & _ & _ & _ & N6).
  set (top := (alloc_ptr ans + stack_size_of strategy stack_size - 8) / 16 * 16) in *. set (sp := top - 80) in *.
  set (m' := <[is_thread c:=0]> _). exists m', sp. pose proof Hc as (Hc0 & M1 & M2 & M3 & M4).
  assert (forall i v, initial_words f param !! i = Some v -> m' !! (sp + 64 - 8 * Z.of_nat i) = Some v) as Hw.
  { intros i v Hi. pose proof (lookup_lt_Some _ _ _ Hi) as Hlt. cbn in Hlt.
    assert (stack_block strategy (alloc_ptr ans) stack_size !! (sp + 64 - 8 * Z.of_nat i) = Some 0) as Hb.
    { apply W3. exists i. split; [done|]. unfold sp. lia. }
    assert (forall a, is_Some (m !! a) -> a <> sp + 64 - 8 * Z.of_nat i) as Hne.
    { intros a Ha ->. by rewrite (fresh_apart _ _ _ _ _ Hok Ha) in Hb. }
    unfold m'. rewrite !lookup_insert_ne by (by apply Hne).
    replace (sp + 64 - 8 * Z.of_nat i) with (sp + 72 - 8 * (Z.of_nat i + 1)) by lia. by apply pushed_inside. }
  assert (m' !! ctx_stack_pointer c = Some sp) as Hcp.
  { unfold m'. rewrite lookup_insert_ne by congruence. apply lookup_insert_eq. }
  split_and!; [done|done|apply lookup_insert_eq|unfold sp; lia| |].
  { assert (top <= alloc_ptr ans + stack_size_of strategy stack_size - 8) by (unfold top; Z.to_euclidean_division_equations; lia). unfold sp. lia. }
  intros label x from Hag Hcs Hap.
  assert (frame (mem x) sp (fun _ => 0) f param) as Hfr.
  { split_and!.
    - intros i d Hi. pose proof (lookup_lt_Some _ _ _ Hi) as Hlt. cbn in Hlt. rewrite Hag by lia.
      replace (sp + 8 * Z.of_nat i) with (sp + 64 - 8 * Z.of_nat (8 - i)) by lia. apply Hw.
      destruct i as [|[|[|[|[|[|i]]]]]]; reflexivity || lia.
    - rewrite Hag by lia. replace (sp + 48) with (sp + 64 - 8 * Z.of_nat 2) by lia. by apply Hw.
    - rewrite Hag by lia. replace (sp + 64) with (sp + 64 - 8 * Z.of_nat 0) by lia. by apply Hw. }
  destruct (swap_spec label x from c sp (fun _ => 0) f param) as (x' & E & S1 & S2 & S3 & S4 & S5);
    [done|done|rewrite Hag by (by right); done|done|unfold sp; lia|done|].
  exists x'. split_and!; [done|done|done|done| |].
  - rewrite S2. unfold sp, top. Z.to_euclidean_division_equations. lia.
  - rewrite S2, S5. destruct (Hap (sp + 56)) as [? ?]; [lia|]. rewrite suspended_other by done. rewrite Hag by lia.
    replace (sp + 56) with (sp + 64 - 8 * Z.of_nat 1) by lia. by apply Hw.
Qed.

Lemma dom_pushed vs : forall m top, (forall a, words_below top (length vs) a -> is_Some (m !! a)) ->
  dom (pushed m top vs) = dom m.
Proof.
  induction vs as [|v vs IH]; intros m top Hm; [done|]. cbn [pushed length] in *.
  rewrite IH.
  - apply dom_insert_lookup_L, Hm, words_below_S. by left.
  - intros a Ha. rewrite lookup_insert. case_decide; [by eexists|]. apply Hm, words_below_S. by right.
Qed.

(** Initialising a context adds its stack to the memory, and nothing else. *)
Lemma init_dom strategy ans m c stack_size f param m' :
  alloc_ok strategy ans m stack_size -> context_mapped m c -> f <> NULL -> 103 <= stack_size < 2 ^ 46 ->
  fiber_context_init strategy ans m c stack_size f param = Some (FIBER_SUCCESS, None, m') ->
  dom m' = dom (stack_block strategy (alloc_ptr ans) stack_size) ∪ dom m /\
  m' !! ctx_stack c = Some (alloc_ptr ans) /\
  m' !! ctx_stack_size c = Some (stack_size_of strategy stack_size) /\ m' !! is_thread c = Some 0.
Proof.
  intros Hok Hc Hf Hs E. destruct (init_spec strategy ans m c stack_size f param Hok Hc Hf Hs) as (m1 & E' & I1 & I2 & I3).
  rewrite E' in E. apply (inj Some), (f_equal snd) in E. cbn [snd] in E. subst m'. destruct (initial_words_fit _ _ _ _ Hok Hs) as (_ & _ & _ & W3).
  destruct (fields_apart c) as (N1 & N2 & N3 & N4 & N5 & N6). pose proof Hc as (Hc0 & M1 & M2 & M3 & M4).
  set (top := (alloc_ptr ans + stack_size_of strategy stack_size - 8) / 16 * 16) in *.
  replace (top - 80 + 72) with (top - 8) by lia.
  assert (forall a, is_Some (m !! a) -> ~ words_below (top - 8) (length (initial_words f param)) a) as Hnw.
  { intros a Ha Hw. specialize (W3 a Hw). by rewrite (fresh_apart _ _ _ _ _ Hok Ha) in W3. }
  assert (forall a, is_Some (m !! a) -> is_Some (m1 !! a)) as Hsub.
  { intros a Ha. destruct (decide (a = ctx_stack c)) as [->|]; [by rewrite I1; eexists|].
    destruct (decide (a = ctx_stack_size c)) as [->|]; [by rewrite I2; eexists|].
    rewrite I3, lookup_union_r by (done || by eapply fresh_apart). done. }
  assert (dom (pushed m1 (top - 8) (initial_words f param)) = dom m1) as Hdw.
  { apply dom_pushed. intros a Hw.
    assert (stack_block strategy (alloc_ptr ans) stack_size !! a = Some 0) as Hb by (by apply W3).
    rewrite I3 by (intros ->; by rewrite (fresh_apart _ _ _ _ _ Hok) in Hb by done).
    rewrite lookup_union, Hb. destruct (m !! a); by eexists. }
  assert (forall a, is_Some (m !! a) -> pushed m1 (top - 8) (initial_words f param) !! a = m1 !! a) as Hout
    by (intros a Ha; by apply pushed_outside, Hnw).
  clear Hnw W3. remember (pushed m1 (top - 8) (initial_words f param)) as w eqn:Ew. clear Ew E'.
  split_and!.
  - rewrite (dom_insert_lookup_L _ (is_thread c)) by (rewrite lookup_insert_ne, Hout by done; by apply Hsub).
    rewrite dom_insert_lookup_L by (rewrite Hout by done; by apply Hsub). rewrite Hdw, <- dom_union_L.
    apply set_eq. intros a. rewrite !elem_of_dom.
    destruct (decide (a = ctx_stack c)) as [->|]; [rewrite I1, lookup_union_r by (by eapply fresh_apart); split; [done|by eexists]|].
    destruct (decide (a = ctx_stack_size c)) as [->|]; [rewrite I2, lookup_union_r by (by eapply fresh_apart); split; [done|by eexists]|].
    by rewrite I3.
  - rewrite !lookup_insert_ne, Hout by congruence. done.
  - rewrite !lookup_insert_ne, Hout by congruence. done.
  - apply lookup_insert_eq.
Qed.

Lemma thread_context_spec strategy m c : context_mapped m c ->
  exists m4, fiber_context_init_from_thread m c = Some (FIBER_SUCCESS, None, m4) /\
    fiber_context_destroy strategy m4 c = Some m4.
Proof.
  intros (Hc0 & M1 & M2 & M3 & M4). destruct (fields_apart c) as (N1 & N2 & N3 & N4 & N5 & N6).
  unfold fiber_context_init_from_thread, fiber_context_destroy, load. rewrite (proj2 (Z.eqb_neq c NULL)) by done.
  rewrite store_mapped by done. cbn [mbind option_bind].
  rewrite store_mapped by (rewrite lookup_insert_ne by congruence; done). cbn [mbind option_bind].
  rewrite store_mapped by (rewrite !lookup_insert_ne by congruence; done). cbn [mbind option_bind].
  rewrite store_mapped by (rewrite !lookup_insert_ne by congruence; done). cbn [mbind option_bind].
  eexists. split; [reflexivity|]. by rewrite lookup_insert_eq.
Qed.

(** No leaks.  Destroying a context frees exactly the stack its
    initialisation allocated, whatever the fiber wrote to memory in between;
    destroying the context of a thread frees nothing. *)
Theorem context_destroy_frees strategy ans m c stack_size f param :
  alloc_ok strategy ans m stack_size -> context_mapped m c -> f <> NULL -> 103 <= stack_size < 2 ^ 46 ->
  exists m', fiber_context_init strategy ans m c stack_size f param = Some (FIBER_SUCCESS, None, m') /\
    (forall m2, dom m2 = dom m' -> (forall a, a = ctx_stack c \/ a = ctx_stack_size c \/ a = is_thread c -> m2 !! a = m' !! a) ->
      exists m3, fiber_context_destroy strategy m2 c = Some m3 /\ dom m3 = dom m) /\
    exists m4, fiber_context_init_from_thread m c = Some (FIBER_SUCCESS, None, m4) /\
      fiber_context_destroy strategy m4 c = Some m4.
Proof.
  intros Hok Hc Hf Hs. destruct (init_spec strategy ans m c stack_size f param Hok Hc Hf Hs) as (m1 & E & _).
  eexists. split; [exact E|]. destruct (init_dom _ _ _ _ _ _ _ _ Hok Hc Hf Hs E) as (Hdom & D1 & D2 & D3).
  split; [|by apply thread_context_spec]. intros m2 Hd2 Hag. pose proof Hc as (Hc0 & _).
  unfold fiber_context_destroy, fiber_free_stack, load. rewrite (proj2 (Z.eqb_neq c NULL)) by done.
  rewrite (Hag (is_thread c)), D3, (Hag (ctx_stack c)), D1, (Hag (ctx_stack_size c)), D2 by auto. cbn [mbind option_bind Z.eqb].
  assert (exists m3, unblock (stack_base strategy (alloc_ptr ans)) (stack_words strategy stack_size) m2 = m3 /\ dom m3 = dom m)
    as (m3 & <- & Hd3).
  { eexists. split; [reflexivity|]. unfold unblock. rewrite dom_difference_L, Hd2, Hdom. unfold stack_block.
    apply set_eq. intros a. rewrite elem_of_difference, elem_of_union.
    split; [tauto|]. intros Ha. split; [by right|]. intros Hb. rewrite elem_of_dom in Ha, Hb.
    destruct Hb as [v Hb]. pose proof (fresh_apart _ _ _ _ _ Hok Ha) as Hn. unfold stack_block in Hn. congruence. }
  eexists. split; [|exact Hd3]. by destruct strategy.
Qed.

(** Stack sizes.  The rounded size exceeds the requested one and leaves two
    reduced pages at least; with the first page protected, what the fiber can use
    falls short of the request by less than a page, and for some requests it
    does fall short: one page is reserved out of the request, not on top of it. *)
Theorem stack_rounding size :
  0 <= size < 2 ^ 63 ->
  let usable := fiber_round_to_page_size size - PAGE_SIZE in
  size < fiber_round_to_page_size size /\ 2 * fiberPageSize <= fiber_round_to_page_size size /\
  size - PAGE_SIZE < usable /\ 3996 <= usable /\
  fiber_round_to_page_size 102400 - PAGE_SIZE < 102400.
Proof.
  intros Hs usable. destruct (round_spec size Hs) as (R1 & R2 & R3 & _). unfold usable, fiberPageSize, PAGE_SIZE in *.
  split_and!; try lia. vm_compute. reflexivity.
Qed.

Lemma stack_rounding_witness :
  1024 < fiber_round_to_page_size 1024 /\ 2 * fiberPageSize <= fiber_round_to_page_size 1024 /\
  1024 - PAGE_SIZE < fiber_round_to_page_size 1024 - PAGE_SIZE /\ 3996 <= fiber_round_to_page_size 1024 - PAGE_SIZE /\
  fiber_round_to_page_size 102400 - PAGE_SIZE < 102400.
Proof. apply (stack_rounding 1024). lia. Defined.

(** Errors.  A NULL context, a size of 0 and a NULL function are refused with
    [EINVAL] and touch no memory; when no stack can be had the initialisation
    fails and leaves no stack behind. *)
Theorem init_errors strategy ans m c stack_size f param :
  (c = NULL \/ stack_size = 0 \/ f = NULL ->
    fiber_context_init strategy ans m c stack_size f param = Some (FIBER_ERROR, Some CTX_EINVAL, m)) /\
  (context_mapped m c -> stack_size <> 0 -> f <> NULL ->
    match strategy with
    | FIBER_STACK_MALLOC => alloc_ptr ans = NULL
    | FIBER_STACK_MMAP => alloc_ptr ans = FAULT_MAP_FAILED \/ mprotect_ret ans <> 0
    end ->
    exists m', fiber_context_init strategy ans m c stack_size f param = Some (FIBER_ERROR, None, m') /\ dom m' = dom m).
Proof.
  unfold fiber_context_init. split.
  - intros H. assert (Z.eqb c NULL || Z.eqb stack_size 0 || Z.eqb f NULL = true) as ->; [|done].
    rewrite !orb_true_iff, !Z.eqb_eq. tauto.
  - intros (Hc & M1 & M2 & _) Hs Hf Hfail. destruct (fields_apart c) as (N1 & _).
    rewrite (proj2 (Z.eqb_neq c NULL)), (proj2 (Z.eqb_neq stack_size 0)), (proj2 (Z.eqb_neq f NULL)) by done.
    cbn [orb]. unfold fiber_context_alloc_stack. destruct strategy.
    + rewrite Hfail. cbn [Z.eqb NULL]. rewrite store_mapped by done. cbn [mbind option_bind].
      rewrite store_mapped by (rewrite lookup_insert_ne by done; done). cbn.
      eexists. split; [reflexivity|]. rewrite !dom_insert_lookup_L; [done|done|by rewrite lookup_insert_ne].
    + rewrite store_mapped by done. cbn [mbind option_bind].
      assert (store (<[ctx_stack_size c:=fiber_round_to_page_size stack_size]> m) (ctx_stack c) (alloc_ptr ans) =
        Some (<[ctx_stack c:=alloc_ptr ans]> (<[ctx_stack_size c:=fiber_round_to_page_size stack_size]> m))) as E
        by (apply store_mapped; by rewrite lookup_insert_ne).
      assert (dom (<[ctx_stack c:=alloc_ptr ans]> (<[ctx_stack_size c:=fiber_round_to_page_size stack_size]> m)) = dom m) as D
        by (rewrite !dom_insert_lookup_L; [done|done|by rewrite lookup_insert_ne]).
      destruct (Z.eqb_spec (alloc_ptr ans) FAULT_MAP_FAILED) as [Ep|Ep].
      * rewrite E. cbn [mbind option_bind Z.eqb]. by eexists.
      * destruct Hfail as [?|Hmp]; [done|]. rewrite (proj2 (Z.eqb_neq _ 0) Hmp). cbn [negb].
        rewrite E. cbn [mbind option_bind Z.eqb]. by eexists.
Qed.

(** ** Examples *)

(** A context structure at 64 and a thread's stack of 32 words at 4096. *)
Definition ctx_demo : memory :=
  list_to_map [(64, 0); (72, 0); (80, 0); (92, 0)] ∪ block 4096 32.
Definition ctx_answer : alloc_answer := AllocAnswer (2 ^ 20) 0.

Lemma ctx_demo_mapped : context_mapped ctx_demo 64.
Proof. split; [done|]. split_and!; eexists; reflexivity. Qed.

Lemma ctx_demo_alloc : alloc_ok FIBER_STACK_MMAP ctx_answer ctx_demo 1024.
Proof.
  split; [cbn; lia|reflexivity|reflexivity|]. intros i Hi. cbn [stack_base ctx_answer alloc_ptr].
  unfold ctx_demo. apply lookup_union_None_2.
  - apply not_elem_of_list_to_map_1. unfold PAGE_SIZE. cbn. set_unfold. lia.
  - apply block_none. intros j Hj. unfold PAGE_SIZE. lia.
Qed.

Lemma new_context_starts_witness :
  exists m' sp, fiber_context_init FIBER_STACK_MMAP ctx_answer ctx_demo 64 1024 500 7 = Some (FIBER_SUCCESS, None, m') /\
    m' !! ctx_stack_pointer 64 = Some sp /\ m' !! is_thread 64 = Some 0 /\
    stack_base FIBER_STACK_MMAP (2 ^ 20) <= sp /\ sp + 72 < 2 ^ 20 + stack_size_of FIBER_STACK_MMAP 1024 /\
    forall label x from,
      (forall a, sp <= a <= sp + 64 \/ a = ctx_stack_pointer 64 -> mem x !! a = m' !! a) ->
      can_suspend x from -> apart x from sp ->
      exists x', fiber_context_swap label x from 64 = Some x' /\ rip x' = 500 /\ regs x' RDI = 7 /\
        regs x' RSP = sp + 56 /\ (regs x' RSP + 8) mod 16 = 0 /\ mem x' !! regs x' RSP = Some NULL.
Proof.
  apply (new_context_starts FIBER_STACK_MMAP ctx_answer ctx_demo 64 1024 500 7).
  - exact ctx_demo_alloc.
  - exact ctx_demo_mapped.
  - discriminate.
  - lia.
Defined.

Lemma context_destroy_frees_witness :
  exists m', fiber_context_init FIBER_STACK_MMAP ctx_answer ctx_demo 64 1024 500 7 = Some (FIBER_SUCCESS, None, m') /\
    (forall m2, dom m2 = dom m' -> (forall a, a = ctx_stack 64 \/ a = ctx_stack_size 64 \/ a = is_thread 64 -> m2 !! a = m' !! a) ->
      exists m3, fiber_context_destroy FIBER_STACK_MMAP m2 64 = Some m3 /\ dom m3 = dom ctx_demo) /\
    exists m4, fiber_context_init_from_thread ctx_demo 64 = Some (FIBER_SUCCESS, None, m4) /\
      fiber_context_destroy FIBER_STACK_MMAP m4 64 = Some m4.
Proof.
  apply (context_destroy_frees FIBER_STACK_MMAP ctx_answer ctx_demo 64 1024 500 7).
  - exact ctx_demo_alloc.
  - exact ctx_demo_mapped.
  - discriminate.
  - lia.
Defined.

Lemma init_errors_witness :
  fiber_context_init FIBER_STACK_MALLOC ctx_answer ctx_demo 64 0 500 7 = Some (FIBER_ERROR, Some CTX_EINVAL, ctx_demo).
Proof. apply (init_errors FIBER_STACK_MALLOC ctx_answer ctx_demo 64 0 500 7). right. left. reflexivity. Defined.

(** A thread running on its stack at 4096, with context 64, and a second context
    at 128 suspended at 4096 + 8 * 2. *)
Definition swap_demo : machine :=
  Machine (fun r => if decide (r = RSP) then 4304 else if decide (r = RBX) then 11 else 0)
    (list_to_map [(80, 0); (144, 4112); (4160, 900)] ∪ block 4096 32) 1000.

Lemma swap_demo_suspend : can_suspend swap_demo 64.
Proof.
  split_and!; [done|vm_compute; discriminate|vm_compute; reflexivity| |by eexists|].
  - intros a (i & Hi & ->). destruct i as [|[|[|[|[|[|[|i]]]]]]]; [eexists; reflexivity..|lia].
  - intros (i & Hi & E). change (regs swap_demo RSP) with 4304 in E. unfold ctx_stack_pointer in E. lia.
Qed.

Lemma swap_roundtrip_witness :
  exists x', fiber_context_swap 1064 swap_demo 64 128 = Some x' /\
    rip x' = 900 /\ regs x' RDI = 0 /\ regs x' RSP = 4112 + 56 /\
    (forall d, d ∈ callee_saved -> regs x' d = 0) /\
    forall y c label',
      (forall w, 4304 - 56 <= w <= 4304 + 8 \/ w = ctx_stack_pointer 64 -> mem y !! w = mem x' !! w) ->
      can_suspend y c -> apart y c (4304 - 56) ->
      exists z, fiber_context_swap label' y c 64 = Some z /\ rip z = 1064 /\ regs z RSP = 4304 /\
        (forall d, d ∈ callee_saved -> regs z d = regs swap_demo d).
Proof.
  apply (swap_roundtrip 1064 swap_demo 64 128 4112 (fun _ => 0) 900 0).
  - exact swap_demo_suspend.
  - eexists. reflexivity.
  - discriminate.
  - discriminate.
  - reflexivity.
  - split; [|split; reflexivity]. intros i d Hi. destruct i as [|[|[|[|[|[|i]]]]]]; [reflexivity..|discriminate Hi].
  - lia.
  - intros a Ha. split; [intros (i & Hi & E); change (regs swap_demo RSP) with 4304 in E; lia|]. unfold ctx_stack_pointer. lia.
Defined.
