(* ===== verification/Fiber.v ===== *)
(** * Fibers: creation, completion, joining and detaching ([src/fiber.c])

    A fiber that returns from its function ([fiber_mark_completed]) and the fiber
    that joins or detaches it meet through [detach_state], exchanged atomically,
    and [join_info], through which the one that came first is woken by the other.
    Waiting is [fiber_manager_set_and_wait]: the pointer is published by the
    maintenance of the next fiber, when the waiting one has left its stack; the
    waker spins in [fiber_manager_clear_or_wait] until it is there. *)

From S2P Require Import Prelude MpscFifo SchedulerWsd Context.

Definition FIBER_DETACH_NONE : Z := 0.
Definition FIBER_DETACH_WAIT_FOR_JOINER : Z := 1.
Definition FIBER_DETACH_WAIT_TO_JOIN : Z := 2.
Definition FIBER_DETACH_DETACHED : Z := 3.

(** ** State *)

(** Fiber 0 is the one that completes; the others join or detach it.  [join_info]
    is NULL or a fiber; [f_state] and [f_result] are the fields of each fiber;
    [run_queue] holds the fibers given to the scheduler. *)
Record join_shared := JShared {
  detach_state : Z;
  join_info : option nat;
  f_state : list Z;
  f_result : list Z;
  run_queue : list nat
}.

Definition set_detach (s : join_shared) (d : Z) : join_shared :=
  JShared d (join_info s) (f_state s) (f_result s) (run_queue s).
Definition set_join_info (s : join_shared) (j : option nat) : join_shared :=
  JShared (detach_state s) j (f_state s) (f_result s) (run_queue s).
Definition set_fstate (s : join_shared) (t : nat) (v : Z) : join_shared :=
  JShared (detach_state s) (join_info s) (<[t:=v]> (f_state s)) (f_result s) (run_queue s).
Definition set_fresult (s : join_shared) (t : nat) (v : Z) : join_shared :=
  JShared (detach_state s) (join_info s) (f_state s) (<[t:=v]> (f_result s)) (run_queue s).
Definition set_queue_j (s : join_shared) (l : list nat) : join_shared :=
  JShared (detach_state s) (join_info s) (f_state s) (f_result s) l.
Definition result_of (s : join_shared) (t : nat) : Z := default NULL (f_result s !! t).

(** Where a call to [fiber_manager_set_and_wait] stands. *)
Inductive wait_phase := PStart | PPublish | PParked.

(** What remains to be done after [fiber_manager_clear_or_wait]. *)
Inductive waker := KCompleted | KJoin (v : Z) | KTryjoin (v : Z) | KDetach.

Inductive join_pc :=
| JIdle
| MStore (r : Z) | MCheck | MXchg | MFinish | JDone       (* fiber_mark_completed *)
| JCheck | JXchg                                          (* fiber_join *)
| TCheck | TRead | TXchg                                  (* fiber_tryjoin *)
| JRead (try : bool)                                      (* *result = f->result *)
| DXchg                                                   (* fiber_detach *)
| Wait (p : wait_phase)                                   (* fiber_manager_set_and_wait *)
| Clear (k : waker)                                       (* fiber_manager_clear_or_wait *)
| Wake (k : waker) (to_schedule : nat)
| JOver.                                                  (* joined or detached: the fiber is gone *)

#[global] Instance wait_phase_eq_dec : EqDecision wait_phase.
Proof. solve_decision. Defined.
#[global] Instance waker_eq_dec : EqDecision waker.
Proof. solve_decision. Defined.
#[global] Instance join_pc_eq_dec : EqDecision join_pc.
Proof. solve_decision. Defined.

Inductive join_ev :=
| EvFinish (r : Z)
| EvCommit (t : nat)            (* this call will join or detach the fiber *)
| EvJoined (t : nat) (v : Z)
| EvDetached (t : nat)
| EvRefused (t : nat)
| EvCompleted.

Inductive join_choice := CFinish (r : Z) | CJoin | CTryjoin | CDetach | CGo.

Definition join_step : Type := option (join_shared * join_pc * list join_ev).

(** ** Waiting and waking *)

(** [fiber_manager_set_and_wait]: the state, the publication by the maintenance
    of the fiber switched to, and the switch back, which makes the fiber run. *)
Definition fiber_manager_set_and_wait (t : nat) (p : wait_phase) (s : join_shared)
    : option (join_shared * option wait_phase) :=
  match p with
  | PStart => Some (set_fstate s t FIBER_STATE_WAITING, Some PPublish)
  | PPublish => Some (set_join_info s (Some t), Some PParked)
  | PParked =>
      if decide (t ∈ run_queue s)
      then Some (set_fstate (set_queue_j s (filter (fun x => x <> t) (run_queue s))) t FIBER_STATE_RUNNING, None)
      else None
  end.

(** One attempt of the loop of [fiber_manager_clear_or_wait]; on a failure the
    fiber yields and tries again. *)
Definition fiber_manager_clear_or_wait (s : join_shared) : join_shared * option nat :=
  (set_join_info s None, join_info s).

(** The statements that make [to_schedule] run. *)
Definition wake_up (s : join_shared) (to_schedule : nat) : join_shared :=
  let s := set_fstate s to_schedule FIBER_STATE_READY in
  set_queue_j s (run_queue s ++ [to_schedule]).

(** ** Operations *)

Definition fiber_mark_completed (t : nat) (s : join_shared) (pc : join_pc) : join_step :=
  match pc with
  | MStore r => Some (set_fresult s t r, MCheck, [])
  | MCheck =>
      if Z.eqb (detach_state s) FIBER_DETACH_DETACHED then Some (s, MFinish, []) else Some (s, MXchg, [])
  | MXchg =>
      let old_state := detach_state s in
      let s' := set_detach s FIBER_DETACH_WAIT_FOR_JOINER in
      if Z.eqb old_state FIBER_DETACH_NONE then Some (s', Wait PStart, [])
      else if Z.eqb old_state FIBER_DETACH_WAIT_TO_JOIN then Some (s', Clear KCompleted, [])
      else Some (s', MFinish, [])
  | Wait p =>
      '(s', next) ← fiber_manager_set_and_wait t p s;
      Some (s', match next with Some p => Wait p | None => MFinish end, [])
  | Clear KCompleted =>
      match fiber_manager_clear_or_wait s with
      | (s', Some to_schedule) => Some (s', Wake KCompleted to_schedule, [])
      | (s', None) => Some (s', Clear KCompleted, [])
      end
  | Wake KCompleted to_schedule =>
      Some (wake_up (set_fresult s to_schedule (result_of s t)) to_schedule, MFinish, [])
  | MFinish => Some (set_fstate s t FIBER_STATE_DONE, JDone, [EvCompleted])
  | _ => None
  end.

(** The waking side of [fiber_join], [fiber_tryjoin] and [fiber_detach]. *)
Definition release (k : waker) (t : nat) (s : join_shared) (pc : join_pc) : join_step :=
  match pc with
  | Clear _ =>
      match fiber_manager_clear_or_wait s with
      | (s', Some to_schedule) => Some (s', Wake k to_schedule, [])
      | (s', None) => Some (s', Clear k, [])
      end
  | Wake _ to_schedule =>
      Some (wake_up s to_schedule, JOver,
            [match k with KJoin v | KTryjoin v => EvJoined t v | _ => EvDetached t end])
  | _ => None
  end.

Definition fiber_join (t : nat) (s : join_shared) (pc : join_pc) : join_step :=
  match pc with
  | JCheck =>
      if Z.eqb (detach_state s) FIBER_DETACH_DETACHED then Some (s, JIdle, [EvRefused t])
      else Some (s, JXchg, [])
  | JXchg =>
      let old_state := detach_state s in
      let s' := set_detach s FIBER_DETACH_WAIT_TO_JOIN in
      if Z.eqb old_state FIBER_DETACH_NONE then Some (s', Wait PStart, [EvCommit t])
      else if Z.eqb old_state FIBER_DETACH_WAIT_FOR_JOINER then Some (s', JRead false, [EvCommit t])
      else Some (s', JIdle, [EvRefused t])
  | Wait p =>
      '(s', next) ← fiber_manager_set_and_wait t p s;
      match next with
      | Some p => Some (s', Wait p, [])
      | None => Some (set_fresult s' t NULL, JOver, [EvJoined t (result_of s' t)])
      end
  | JRead false => Some (s, Clear (KJoin (result_of s 0)), [])
  | Clear (KJoin v) | Wake (KJoin v) _ => release (KJoin v) t s pc
  | _ => None
  end.

Definition fiber_tryjoin (t : nat) (s : join_shared) (pc : join_pc) : join_step :=
  match pc with
  | TCheck =>
      if Z.eqb (detach_state s) FIBER_DETACH_DETACHED then Some (s, JIdle, [EvRefused t]) else Some (s, TRead, [])
  | TRead =>
      if Z.eqb (detach_state s) FIBER_DETACH_WAIT_FOR_JOINER then Some (s, TXchg, [])
      else Some (s, JIdle, [EvRefused t])
  | TXchg =>
      let old_state := detach_state s in
      let s' := set_detach s FIBER_DETACH_WAIT_TO_JOIN in
      if Z.eqb old_state FIBER_DETACH_WAIT_FOR_JOINER then Some (s', JRead true, [EvCommit t])
      else Some (s', JIdle, [EvRefused t])
  | JRead true => Some (s, Clear (KTryjoin (result_of s 0)), [])
  | Clear (KTryjoin v) | Wake (KTryjoin v) _ => release (KTryjoin v) t s pc
  | _ => None
  end.

Definition fiber_detach (t : nat) (s : join_shared) (pc : join_pc) : join_step :=
  match pc with
  | DXchg =>
      let old_state := detach_state s in
      let s' := set_detach s FIBER_DETACH_DETACHED in
      if Z.eqb old_state FIBER_DETACH_WAIT_FOR_JOINER || Z.eqb old_state FIBER_DETACH_WAIT_TO_JOIN
      then Some (s', Clear KDetach, [EvCommit t])
      else if Z.eqb old_state FIBER_DETACH_DETACHED then Some (s', JIdle, [EvRefused t])
      else Some (s', JOver, [EvCommit t; EvDetached t])
  | Clear KDetach | Wake KDetach _ => release KDetach t s pc
  | _ => None
  end.

(** Fiber 0 completes; the others call the three operations, one at a time and
    none after one that succeeded. *)
Definition join_tstep (t : nat) (ch : join_choice) (s : join_shared) (pc : join_pc) : join_step :=
  match pc, ch with
  | JIdle, CFinish r => if decide (t = 0%nat) then Some (s, MStore r, [EvFinish r]) else None
  | JIdle, CJoin => if decide (t = 0%nat) then None else Some (s, JCheck, [])
  | JIdle, CTryjoin => if decide (t = 0%nat) then None else Some (s, TCheck, [])
  | JIdle, CDetach => if decide (t = 0%nat) then None else Some (s, DXchg, [])
  | JIdle, CGo => None
  | _, CGo =>
      if decide (t = 0%nat) then fiber_mark_completed t s pc
      else match pc with
           | JCheck | JXchg | Wait _ | JRead false | Clear (KJoin _) | Wake (KJoin _) _ => fiber_join t s pc
           | TCheck | TRead | TXchg | JRead true | Clear (KTryjoin _) | Wake (KTryjoin _) _ => fiber_tryjoin t s pc
           | DXchg | Clear KDetach | Wake KDetach _ => fiber_detach t s pc
           | _ => None
           end
  | _, _ => None
  end.

(** [n] fibers, all running, none detached. *)
Definition join_init (n : nat) : conf join_shared join_pc :=
  Conf (JShared FIBER_DETACH_NONE None (replicate n FIBER_STATE_RUNNING) (replicate n NULL) []) (replicate n JIdle).

(** ** What joining promises *)

(** The result given at completion; whether a call has claimed the fiber, whether
    that call has returned, whether the fiber is done. *)
Record join_abs := JAbs { ja_value : option Z; ja_claimed : bool; ja_joined : bool; ja_completed : bool }.

(** A fiber completes once, is claimed by one call, is done only after it was
    claimed, and a join returns the value it completed with. *)
Definition join_spec (e : join_ev) (a : join_abs) : option join_abs :=
  match e with
  | EvFinish r =>
      match ja_value a with None => Some (JAbs (Some r) (ja_claimed a) (ja_joined a) (ja_completed a)) | Some _ => None end
  | EvCommit _ => if ja_claimed a then None else Some (JAbs (ja_value a) true (ja_joined a) (ja_completed a))
  | EvJoined _ v =>
      if ja_claimed a && negb (ja_joined a) && bool_decide (ja_value a = Some v)
      then Some (JAbs (ja_value a) true true (ja_completed a)) else None
  | EvDetached _ =>
      if ja_claimed a && negb (ja_joined a) then Some (JAbs (ja_value a) true true (ja_completed a)) else None
  | EvRefused _ => Some a
  | EvCompleted =>
      if ja_claimed a && negb (ja_completed a) && bool_decide (is_Some (ja_value a))
      then Some (JAbs (ja_value a) (ja_claimed a) (ja_joined a) true) else None
  end.

(** [join_info] while fiber [t] waits in phase [p]. *)
Definition published (t : nat) (p : wait_phase) : option nat :=
  match p with PParked => Some t | _ => None end.

Definition carries (k : waker) (v : Z) : Prop :=
  match k with KCompleted => False | KJoin x | KTryjoin x => x = v | KDetach => True end.

(** How the two fibers stand to each other. *)
Definition join_phase (s : join_shared) (pc0 pc1 : join_pc) (claimed joined : bool) : Prop :=
  match pc0, pc1 with
  | (JIdle | MStore _ | MCheck | MXchg), (JIdle | JCheck | JXchg | TCheck | TRead | DXchg) =>
      detach_state s = FIBER_DETACH_NONE /\ join_info s = None /\ run_queue s = [] /\ claimed = false /\ joined = false
  | (JIdle | MStore _ | MCheck | MXchg), Wait p =>
      detach_state s = FIBER_DETACH_WAIT_TO_JOIN /\ join_info s = published 1 p /\ run_queue s = [] /\
      claimed = true /\ joined = false
  | (JIdle | MStore _ | MCheck | MXchg), JOver =>
      detach_state s = FIBER_DETACH_DETACHED /\ join_info s = None /\ run_queue s = [] /\ claimed = true /\ joined = true
  | Wait p, (JIdle | JCheck | JXchg | TCheck | TRead | TXchg | DXchg) =>
      detach_state s = FIBER_DETACH_WAIT_FOR_JOINER /\ join_info s = published 0 p /\ run_queue s = [] /\
      claimed = false /\ joined = false
  | Wait p, JRead _ => join_info s = published 0 p /\ run_queue s = [] /\ claimed = true /\ joined = false
  | Wait p, Clear k =>
      join_info s = published 0 p /\ run_queue s = [] /\ claimed = true /\ joined = false /\ carries k (result_of s 0)
  | Wait p, Wake k w =>
      p = PParked /\ w = 0%nat /\ join_info s = None /\ run_queue s = [] /\ claimed = true /\ joined = false /\
      carries k (result_of s 0)
  | Wait p, JOver => p = PParked /\ join_info s = None /\ run_queue s = [0%nat] /\ claimed = true /\ joined = true
  | Clear KCompleted, Wait p => join_info s = published 1 p /\ run_queue s = [] /\ claimed = true /\ joined = false
  | Wake KCompleted w, Wait p =>
      p = PParked /\ w = 1%nat /\ join_info s = None /\ run_queue s = [] /\ claimed = true /\ joined = false
  | (MFinish | JDone), Wait p =>
      p = PParked /\ join_info s = None /\ run_queue s = [1%nat] /\ result_of s 1 = result_of s 0 /\
      claimed = true /\ joined = false
  | (MFinish | JDone), JOver => join_info s = None /\ run_queue s = [] /\ claimed = true /\ joined = true
  | _, _ => False
  end.

Definition join_value (s : join_shared) (pc0 : join_pc) : option Z :=
  match pc0 with JIdle => None | MStore r => Some r | _ => Some (result_of s 0) end.

Record join_rel (c : conf join_shared join_pc) (pc0 pc1 : join_pc) (a : join_abs) : Prop := {
  jr_threads : threads c = [pc0; pc1];
  jr_results : length (f_result (shared c)) = 2%nat;
  jr_phase : join_phase (shared c) pc0 pc1 (ja_claimed a) (ja_joined a);
  jr_value : ja_value a = join_value (shared c) pc0;
  jr_completed : ja_completed a = bool_decide (pc0 = JDone)
}.

Lemma result_set_same s t v : (t < length (f_result s))%nat -> result_of (set_fresult s t v) t = v.
Proof. intros H. unfold result_of. simpl. by rewrite list_lookup_insert_eq. Qed.
Lemma result_set_other s t u v : t <> u -> result_of (set_fresult s t v) u = result_of s u.
Proof. intros H. unfold result_of. simpl. by rewrite list_lookup_insert_ne. Qed.

(** [join_open] makes the shared state of two fibers explicit; [join_close]
    answers a step with the events it emits. *)
Ltac join_open :=
  match goal with H : join_rel ?c _ _ ?a |- _ =>
    destruct H as [H1 H2 H3 H4 H5]; destruct c as [[d ji fs rs q] ts], a as [v cl jo co];
    destruct rs as [|r0 [|r1 [|? ?]]]; try discriminate H2; cbn in H1, H3, H4, H5; subst ts v co
  end.
Ltac join_split :=
  repeat match goal with H : _ /\ _ |- _ => destruct H end; subst.
Ltac join_close :=
  eexists; (split; [cbn; rewrite ?bool_decide_true by done; reflexivity|]); split; cbn; try done; split_and?; try done.

(** The steps of the completing fiber. *)
Lemma target_step c pc0 pc1 a s' pc' evs : join_rel c pc0 pc1 a ->
  fiber_mark_completed 0 (shared c) pc0 = Some (s', pc', evs) ->
  exists a', spec_run join_spec evs a = Some a' /\ join_rel (Conf s' [pc'; pc1]) pc' pc1 a'.
Proof.
  intros Hrel Hstep. join_open. cbn [shared] in Hstep.
  destruct pc0 as [|r| | | | | | | | | | | |p|k|k w|]; try done;
    [| | | |destruct p|destruct k; try done|destruct k; try done];
    destruct pc1; cbn in H3; try done; join_split; cbn in Hstep; case_step Hstep; try (by join_close).
  destruct p; simplify_eq/=; by join_close.
Qed.

(** The steps of the fiber that joins or detaches. *)
Lemma caller_step c pc0 pc1 a ch s' pc' evs : join_rel c pc0 pc1 a ->
  join_tstep 1 ch (shared c) pc1 = Some (s', pc', evs) ->
  exists a', spec_run join_spec evs a = Some a' /\ join_rel (Conf s' [pc0; pc']) pc0 pc' a'.
Proof.
  intros Hrel Hstep. join_open. cbn [shared] in Hstep.
  destruct pc1 as [|r| | | | | | | | | |tr| |p|k|k w|], ch; try done; cbn in Hstep;
    try (injection Hstep as <- <- <-; by (destruct pc0; join_close)).
  all: try (destruct tr). all: try (destruct k).  all: try (destruct p).
  all: destruct pc0 as [|r'| | | | | | | | | | | |p'|[]|[] w'|]; cbn in H3; try done; join_split; cbn in Hstep; case_step Hstep; try (by join_close).
  all: try (destruct p'; simplify_eq/=; by join_close).
  all: by join_close.
Qed.

Lemma join_simulation lbl c c' evs a pc0 pc1 : join_rel c pc0 pc1 a ->
  conf_step join_tstep lbl c = Some (c', evs) ->
  exists a' pc0' pc1', spec_run join_spec evs a = Some a' /\ join_rel c' pc0' pc1' a'.
Proof.
  destruct lbl as [t ch]. intros Hrel (l & s' & l' & Ht & Hs & ->)%conf_step_inv.
  pose proof Hrel as [Hth _ _ _ _]. rewrite Hth in Ht |- *. destruct t as [|[|t]]; simplify_eq/=.
  - destruct (decide (l = JIdle)) as [->|Hne].
    + assert (exists r, (s', l', evs) = (shared c, MStore r, [EvFinish r])) as [r [= -> -> ->]].
      { destruct ch; cbn in Hs; try done; rewrite decide_True in Hs by done; simplify_eq. by eexists. }
      clear Hs. join_open. destruct pc1; cbn in H3; try done; join_split.
      all: by eexists _, _, _; split; [reflexivity|split].
    + assert (fiber_mark_completed 0 (shared c) l = Some (s', l', evs)) as Hm
        by (destruct l, ch; try done; cbn in Hs; by rewrite decide_True in Hs by done).
      destruct (target_step _ _ _ _ _ _ _ Hrel Hm) as (a' & E & R). by eexists a', _, _.
  - destruct (caller_step _ _ _ _ _ _ _ _ Hrel Hs) as (a' & E & R). by eexists a', _, _.
Qed.

Definition join_abs_init : join_abs := JAbs None false false false.

Lemma join_init_rel : join_rel (join_init 2) JIdle JIdle join_abs_init.
Proof. by split. Qed.

Lemma join_run_rel ls c evs : run (conf_step join_tstep) ls (join_init 2) = Some (c, evs) ->
  exists a pc0 pc1, spec_run join_spec evs join_abs_init = Some a /\ join_rel c pc0 pc1 a.
Proof.
  intros Hrun.
  destruct (run_simulation (conf_step join_tstep) join_spec (Z.of_nat (length ls) + 1)
    (fun _ c a => exists pc0 pc1, join_rel c pc0 pc1 a)) with (ls := ls) (n := 0) (s := join_init 2)
    (s' := c) (evs := evs) (a := join_abs_init) as (a & E & pc0 & pc1 & R); [|lia| |done|].
  - intros n l s s' e a _ (pc0 & pc1 & R) Hs. destruct (join_simulation _ _ _ _ _ _ _ R Hs) as (a' & p0 & p1 & E & R').
    eauto.
  - eexists _, _. apply join_init_rel.
  - eauto 10.
Qed.



(** ** Progress *)

(** A bound on the steps a call still makes, apart from repeated attempts. *)
Definition join_pot (pc : join_pc) : nat :=
  match pc with
  | JIdle | JOver | JDone => 0
  | MFinish => 1
  | Wake _ _ | Wait PParked => 2
  | Clear _ | Wait PPublish => 3
  | JRead _ | Wait PStart | DXchg => 4
  | MXchg | JXchg | TXchg => 5
  | MCheck | JCheck | TRead => 6
  | MStore _ | TCheck => 7
  end%nat.
Definition join_work (c : conf join_shared join_pc) : nat := sum_list_with join_pot (threads c).

(** Nobody can move on: the fiber has not been told to finish and the other is
    idle, waits for it or has detached it; or the fiber waits to be joined; or
    all is over. *)
Definition join_rests (pc0 pc1 : join_pc) : Prop :=
  match pc0, pc1 with
  | JIdle, (JIdle | JOver | Wait PParked) | Wait PParked, JIdle | JDone, JOver => True
  | _, _ => False
  end.

Lemma join_tstep_pot t ch s pc s' pc' evs : ch = CGo -> join_tstep t ch s pc = Some (s', pc', evs) ->
  (join_pot pc' < join_pot pc)%nat \/ (exists k, pc = Clear k /\ pc' = pc /\ s' = s /\ join_info s = None).
Proof.
  intros -> Hs. destruct pc as [|r| | | | | | | | | |tr| |p|k|k w|]; cbn in Hs; try done; case_decide; cbn in Hs; try done.
  all: try (destruct tr). all: try (destruct k). all: try (destruct p).
  all: case_step Hs; try (left; cbn; lia).
  all: right; eexists; (split; [reflexivity|]); split_and!; try done; destruct s; simpl in *; by subst.
Qed.

Lemma join_can_move c t pc s' pc' evs : threads c !! t = Some pc -> join_tstep t CGo (shared c) pc = Some (s', pc', evs) ->
  (join_pot pc' < join_pot pc)%nat ->
  exists c' evs, conf_step join_tstep (t, CGo) c = Some (c', evs) /\ (join_work c' < join_work c)%nat.
Proof.
  intros Ht Hs Hp. eexists _, evs. split; [unfold conf_step; cbn; by rewrite Ht, Hs|].
  unfold join_work. simpl. pose proof (sum_list_with_insert join_pot (threads c) t pc pc' Ht). lia.
Qed.



(** Joining twice.  A second join that comes while the fiber is completing for
    the first one is not refused: [fiber_mark_completed] has stored
    [FIBER_DETACH_WAIT_FOR_JOINER], so the second joiner takes the pointer to the
    first and wakes it.  The first join then returns NULL instead of the result,
    and the completing fiber looks for a joiner that is gone: it never ends. *)
Theorem double_join_breaks :
  exists ls c evs, run (conf_step join_tstep) ls (join_init 3) = Some (c, evs) /\
    EvFinish 7 ∈ evs /\ EvJoined 2 7 ∈ evs /\ EvJoined 1 NULL ∈ evs /\
    threads c = [Clear KCompleted; JOver; JOver] /\
    forall ls' c' evs', run (conf_step join_tstep) ls' c = Some (c', evs') -> c' = c /\ evs' = [].
Proof.
  exists [(1%nat, CJoin); (1%nat, CGo); (1%nat, CGo); (1%nat, CGo); (1%nat, CGo);
    (0%nat, CFinish 7); (0%nat, CGo); (0%nat, CGo); (0%nat, CGo);
    (2%nat, CJoin); (2%nat, CGo); (2%nat, CGo); (2%nat, CGo); (2%nat, CGo); (2%nat, CGo); (1%nat, CGo)],
    (Conf (JShared 2 None [1; 1; 1] [7; 0; 0] []) [Clear KCompleted; JOver; JOver]),
    [EvCommit 1; EvFinish 7; EvCommit 2; EvJoined 2 7; EvJoined 1 NULL].
  split; [vm_compute; reflexivity|]. split_and!; [set_solver..|done|].
  induction ls' as [|[t ch] ls' IH]; intros c' evs' Hr; [by simplify_eq/=|].
  apply run_cons_inv in Hr as (c1 & e1 & e2 & Hs & Hr & ->).
  assert (c1 = Conf (JShared 2 None [1; 1; 1] [7; 0; 0] []) [Clear KCompleted; JOver; JOver] /\ e1 = []) as [-> ->].
  { destruct t as [|[|[|t]]], ch; vm_compute in Hs; by simplify_eq. }
  destruct (IH _ _ Hr) as [-> ->]. done.
Qed.

(** The completing fiber looks for a waiting fiber that will never be there, while
    fiber 1 calls what it likes. *)
Record abandoned (c : conf join_shared join_pc) : Prop := {
  ab_threads : exists pc1, threads c = [Clear KCompleted; pc1; JOver] /\
    match pc1 with JIdle | JCheck | JXchg | TCheck | TRead | TXchg | JRead _ | DXchg | Clear _ => True | _ => False end;
  ab_info : join_info (shared c) = None;
  ab_state : detach_state (shared c) ∈ [FIBER_DETACH_WAIT_FOR_JOINER; FIBER_DETACH_WAIT_TO_JOIN; FIBER_DETACH_DETACHED]
}.

Lemma abandoned_step lbl c c' e : abandoned c -> conf_step join_tstep lbl c = Some (c', e) -> abandoned c' /\ EvCompleted ∉ e.
Proof.
  intros [(pc1 & Hth & Hpc) Hi Hd] Hs. destruct lbl as [t ch]. apply conf_step_inv in Hs as (l & s' & l' & Ht & Hs & ->).
  destruct c as [[d ji fs fr rq] ths]. cbn in *. subst ths ji. destruct t as [|[|[|t]]]; cbn in Ht; simplify_eq; [| |by destruct ch].
  - destruct ch; cbn in Hs; try done. case_decide; simplify_eq. split; [|by apply not_elem_of_nil]. split; cbn; [|done|done]. eauto.
  - set_unfold in Hd. destruct Hd as [-> | [-> | [-> | []]]], ch, l as [|r'| | | | | | | | | |tr| |p|k|k w|]; cbn in Hs; try done; try (destruct tr); try (destruct k); cbn in Hs; case_step Hs.
    all: split; [split; cbn; [eexists; split; [reflexivity|done]|done|set_solver]|set_solver].
Qed.

(** Joining while another fiber detaches.  A join that has found the fiber not
    detached, and is overtaken by a detach that succeeds, is refused, but has
    replaced [FIBER_DETACH_DETACHED] by [FIBER_DETACH_WAIT_TO_JOIN]: the detached
    fiber completes as if a joiner were waiting, and never ends. *)
Theorem join_undoes_detach :
  exists ls c evs, run (conf_step join_tstep) ls (join_init 3) = Some (c, evs) /\
    EvDetached 2 ∈ evs /\ EvRefused 1 ∈ evs /\ EvFinish 7 ∈ evs /\
    forall ls' c' evs', run (conf_step join_tstep) ls' c = Some (c', evs') ->
      threads c' !! 0%nat = Some (Clear KCompleted) /\ EvCompleted ∉ evs'.
Proof.
  exists [(1%nat, CJoin); (1%nat, CGo); (2%nat, CDetach); (2%nat, CGo); (1%nat, CGo); (0%nat, CFinish 7); (0%nat, CGo); (0%nat, CGo); (0%nat, CGo)],
    (Conf (JShared FIBER_DETACH_WAIT_FOR_JOINER None [1; 1; 1] [7; 0; 0] []) [Clear KCompleted; JIdle; JOver]),
    [EvCommit 2; EvDetached 2; EvRefused 1; EvFinish 7].
  split; [vm_compute; reflexivity|]. split_and!; [set_solver..|].
  assert (forall ls' c c' evs', abandoned c -> run (conf_step join_tstep) ls' c = Some (c', evs') ->
    threads c' !! 0%nat = Some (Clear KCompleted) /\ EvCompleted ∉ evs') as Hforever.
  { induction ls' as [|lbl ls' IH]; intros c c' evs' Hab Hr.
    - simplify_eq/=. destruct (ab_threads _ Hab) as (pc1 & -> & _). split; [done|set_solver].
    - apply run_cons_inv in Hr as (c1 & e1 & e2 & Hs & Hr & ->). destruct (abandoned_step _ _ _ _ Hab Hs) as [Hab1 He1].
      destruct (IH _ _ _ Hab1 Hr) as [? ?]. split; [done|set_solver]. }
  intros ls' c' evs' Hr. eapply Hforever; [|exact Hr]. split; cbn; [by exists JIdle|done|left].
Qed.

(** ** Creation *)

(** [lock_stats_t], times as seconds and microseconds. *)
Record lock_stats := LockStats { banned_until : Z * Z; slice_size : Z * Z }.

(** The fields of [fiber_t] that are set at creation. *)
Record fiber_t := FiberT {
  fb_state : Z; fb_run_function : Z; fb_param : Z; fb_id : Z; fb_result : Z;
  fb_mpsc_fifo_node : Z; fb_detach_state : Z; fb_join_info : Z; fb_stats : lock_stats
}.

(** What a creation leaves: the returned pointer, [errno] if it is set, the
    object, and the blocks that stay allocated. *)
Record creation := Creation { cr_ret : Z; cr_errno : option Z; cr_fiber : option fiber_t; cr_live : list Z }.

Definition ENOMEM : Z := 12.

(** [fiber_create_no_sched]: [a_fiber], [a_node] and [a_stats] are what [calloc]
    returns, [ctx] what [fiber_context_init] returns.  [None]: NULL is
    dereferenced. *)
Definition fiber_create_no_sched (a_fiber a_node a_stats ctx run_function param : Z) : option creation :=
  if Z.eqb a_fiber NULL then Some (Creation NULL (Some ENOMEM) None [])
  else if Z.eqb a_node NULL then Some (Creation NULL (Some ENOMEM) None [])
  else if Z.eqb a_stats NULL then None
  else
    let f := FiberT FIBER_STATE_READY run_function param (u64 (0 + 1)) NULL a_node FIBER_DETACH_NONE NULL
               (LockStats (0, 0) (0, 2)) in
    if Z.eqb ctx FIBER_SUCCESS then Some (Creation a_fiber None (Some f) [a_fiber; a_node; a_stats])
    else Some (Creation NULL None None [a_node; a_stats]).

Definition fiber_create_from_thread (a_fiber a_node a_stats ctx : Z) : option creation :=
  if Z.eqb a_fiber NULL then Some (Creation NULL (Some ENOMEM) None [])
  else if Z.eqb a_node NULL then Some (Creation NULL (Some ENOMEM) None [])
  else if Z.eqb a_stats NULL then None
  else
    let f := FiberT FIBER_STATE_RUNNING NULL NULL 1 NULL a_node FIBER_DETACH_NONE NULL (LockStats (0, 0) (0, 2)) in
    if Z.eqb ctx FIBER_SUCCESS then Some (Creation a_fiber None (Some f) [a_fiber; a_node; a_stats])
    else Some (Creation NULL None None [a_node; a_stats]).

(** [fiber_create]: a fiber that was created is scheduled. *)
Definition fiber_create (a_fiber a_node a_stats ctx run_function param : Z) (queue : list Z)
    : option (creation * list Z) :=
  c ← fiber_create_no_sched a_fiber a_node a_stats ctx run_function param;
  Some (c, if Z.eqb (cr_ret c) NULL then queue else queue ++ [cr_ret c]).

(** [set_lock_stats]; a NULL argument leaves the field. *)
Definition set_lock_stats (st : lock_stats) (banned slice : option (Z * Z)) : lock_stats :=
  LockStats (default (banned_until st) banned) (default (slice_size st) slice).

(** Creating fibers.  A fiber is returned only when everything was allocated; it
    is then ready, joinable and scheduled once.  When an early allocation fails
    nothing stays allocated; when the context cannot be made the queue node and
    the statistics stay behind; when the statistics cannot be allocated the
    function dereferences NULL. *)
Theorem create_outcomes a_fiber a_node a_stats ctx run_function param queue :
  fiber_create a_fiber a_node a_stats ctx run_function param queue =
  if decide (a_fiber = NULL \/ a_node = NULL) then Some (Creation NULL (Some ENOMEM) None [], queue)
  else if decide (a_stats = NULL) then None
  else if decide (ctx = FIBER_SUCCESS) then
    Some (Creation a_fiber None
      (Some (FiberT FIBER_STATE_READY run_function param 1 NULL a_node FIBER_DETACH_NONE NULL (LockStats (0, 0) (0, 2))))
      [a_fiber; a_node; a_stats], queue ++ [a_fiber])
  else Some (Creation NULL None None [a_node; a_stats], queue).
Proof.
  unfold fiber_create, fiber_create_no_sched.
  destruct (Z.eqb_spec a_fiber NULL) as [E1|E1]; [by rewrite decide_True by auto|].
  destruct (Z.eqb_spec a_node NULL) as [E2|E2]; [by rewrite decide_True by auto|].
  rewrite decide_False by tauto. destruct (Z.eqb_spec a_stats NULL); case_decide; try done.
  destruct (Z.eqb_spec ctx FIBER_SUCCESS); case_decide; try done. cbn. by rewrite (proj2 (Z.eqb_neq _ _) E1).
Qed.
