(* ===== verification/Event.v ===== *)
(** * The event system ([src/fiber_event_native.c], [include/fiber_event.h], Linux)

    Sleeping fibers wait in a binary search tree of lists keyed by the timer
    count at which they wake; fibers waiting for a descriptor are chained
    through their [scratch] fields.  The kernel is outside: what [epoll_wait] and
    the timer descriptor return is an input, and the calls of [epoll_ctl] are
    recorded in the order they are made.  The spin locks make each operation
    atomic. *)

From S2P Require Import Prelude MpscFifo SchedulerWsd.

Definition EPOLLIN : Z := 1.
Definition EPOLLOUT : Z := 4.
Definition EPOLLONESHOT : Z := 2 ^ 30.
Definition FIBER_POLL_IN : Z := 1.
Definition FIBER_POLL_OUT : Z := 2.
Definition FIBER_TIME_RESOLUTION_MS : Z := 5.
Definition FIBER_EVENT_NOTINIT : Z := -1.

(** ** The tree of sleepers *)

(** [waiter_el_t]: a tree node with the list through [next] that it heads. *)
Inductive waiter_tree :=
| WLeaf
| WNode (left : waiter_tree) (wake_time : Z) (waiter : Z) (next : list Z) (right : waiter_tree).

(** [waiter_insert]; on an equal key the node goes second in the list. *)
Fixpoint waiter_insert (tree : waiter_tree) (wake_time waiter : Z) : waiter_tree :=
  match tree with
  | WLeaf => WNode WLeaf wake_time waiter [] WLeaf
  | WNode l t w next r =>
      if Z.ltb wake_time t then WNode (waiter_insert l wake_time waiter) t w next r
      else if Z.eqb wake_time t then WNode l t w (waiter :: next) r
      else WNode l t w next (waiter_insert r wake_time waiter)
  end.

(** [waiter_remove_less_than]: the leftmost node, if it is due. *)
Fixpoint waiter_remove_less_than (tree : waiter_tree) (wake_time : Z)
    : waiter_tree * option (Z * list Z) :=
  match tree with
  | WLeaf => (WLeaf, None)
  | WNode WLeaf t w next r => if Z.ltb t wake_time then (r, Some (t, w :: next)) else (tree, None)
  | WNode l t w next r =>
      let '(l', ret) := waiter_remove_less_than l wake_time in (WNode l' t w next r, ret)
  end.

(** ** State *)

(** [fd_wait_info_t]; [fd_waiters] is the first waiting fiber. *)
Record fd_wait_info := FdInfo { fd_events : Z; fd_added : Z; fd_waiters : Z }.

Inductive epoll_call := EpollAdd (fd events : Z) | EpollMod (fd events : Z) | EpollDel (fd : Z).

(** The fibers' [state] and [scratch] fields are maps from fiber addresses;
    [ev_ready] are the fibers given to the scheduler. *)
Record ev_state := EvState {
  event_open : bool;                    (* event_fd >= 0 *)
  wait_info : list fd_wait_info;        (* max_fd entries *)
  timer_trigger_count : Z;
  sleepers : waiter_tree;
  fstate : gmap Z Z;
  scratch : gmap Z Z;
  ev_ready : list Z;
  epoll_log : list epoll_call
}.

Definition set_info (s : ev_state) (fd : nat) (i : fd_wait_info) : ev_state :=
  EvState (event_open s) (<[fd:=i]> (wait_info s)) (timer_trigger_count s) (sleepers s)
          (fstate s) (scratch s) (ev_ready s) (epoll_log s).
Definition set_state (s : ev_state) (f st : Z) : ev_state :=
  EvState (event_open s) (wait_info s) (timer_trigger_count s) (sleepers s)
          (<[f:=st]> (fstate s)) (scratch s) (ev_ready s) (epoll_log s).
Definition set_scratch (s : ev_state) (f v : Z) : ev_state :=
  EvState (event_open s) (wait_info s) (timer_trigger_count s) (sleepers s)
          (fstate s) (<[f:=v]> (scratch s)) (ev_ready s) (epoll_log s).
Definition schedule (s : ev_state) (f : Z) : ev_state :=
  EvState (event_open s) (wait_info s) (timer_trigger_count s) (sleepers s)
          (fstate s) (scratch s) (ev_ready s ++ [f]) (epoll_log s).
Definition epoll_ctl (s : ev_state) (c : epoll_call) : ev_state :=
  EvState (event_open s) (wait_info s) (timer_trigger_count s) (sleepers s)
          (fstate s) (scratch s) (ev_ready s) (epoll_log s ++ [c]).
Definition set_sleepers (s : ev_state) (count : Z) (t : waiter_tree) : ev_state :=
  EvState (event_open s) (wait_info s) count t
          (fstate s) (scratch s) (ev_ready s) (epoll_log s).

Definition scratch_of (s : ev_state) (f : Z) : Z := default NULL (scratch s !! f).

(** [fiber_event_init], with the hard limit [getrlimit] reports ([None]: it
    fails).  A second initialisation is refused; [max_fd] is an [int], and the
    allocation of a negative number of entries fails its assertion. *)
Definition fiber_event_init (s : ev_state) (rlim_max : option Z) : option (Z * ev_state) :=
  if event_open s then Some (FIBER_ERROR, s)
  else
    match rlim_max with
    | None => Some (FIBER_ERROR, s)
    | Some rlim_max =>
        let max_fd := i32 rlim_max in
        if Z.ltb max_fd 0 then None
        else Some (FIBER_SUCCESS,
          EvState true (replicate (Z.to_nat max_fd) (FdInfo 0 0 NULL)) (timer_trigger_count s) (sleepers s)
                  (fstate s) (scratch s) (ev_ready s) (epoll_log s))
    end.

Definition fiber_event_shutdown (s : ev_state) : ev_state :=
  if event_open s
  then EvState false [] (timer_trigger_count s) (sleepers s) (fstate s) (scratch s) (ev_ready s) (epoll_log s)
  else s.

(** ** Waking *)

(** The loop of [fiber_event_wake_waiters] on descriptor [fd]; [fuel] bounds the
    length of the chain. *)
Fixpoint fiber_event_wake_waiters (fuel : nat) (s : ev_state) (fd : nat) (result : Z) : option ev_state :=
  match fuel with
  | O => None
  | S fuel =>
      info ← wait_info s !! fd;
      if Z.eqb (fd_waiters info) NULL then Some s
      else
        let to_schedule := fd_waiters info in
        let s := set_info s fd (FdInfo (fd_events info) (fd_added info) (scratch_of s to_schedule)) in
        let s := set_scratch s to_schedule NULL in
        let s := set_state s to_schedule FIBER_STATE_READY in
        let s := set_scratch s to_schedule result in
        fiber_event_wake_waiters fuel (schedule s to_schedule) fd result
  end.

(** The inner loop of [fiber_event_wake_sleepers]: the list of one tree node. *)
Fixpoint wake_list (s : ev_state) (l : list Z) : ev_state :=
  match l with
  | [] => s
  | to_schedule :: next => wake_list (schedule (set_state s to_schedule FIBER_STATE_READY) to_schedule) next
  end.

Fixpoint wake_sleepers_loop (fuel : nat) (s : ev_state) : option ev_state :=
  match fuel with
  | O => None
  | S fuel =>
      match waiter_remove_less_than (sleepers s) (timer_trigger_count s) with
      | (_, None) => Some s
      | (t', Some (_, l)) => wake_sleepers_loop fuel (wake_list (set_sleepers s (timer_trigger_count s) t') l)
      end
  end.

Fixpoint tree_size (t : waiter_tree) : nat :=
  match t with WLeaf => 0 | WNode l _ _ _ r => S (tree_size l + tree_size r) end.

(** Each iteration of the outer loop removes a tree node. *)
Definition fiber_event_wake_sleepers (s : ev_state) (trigger_count : Z) : option ev_state :=
  wake_sleepers_loop (S (tree_size (sleepers s)))
    (set_sleepers s (u64 (timer_trigger_count s + trigger_count)) (sleepers s)).

(** ** Polling *)

(** What [epoll_wait] reports for one entry: the timer, with the count the read
    of the timer descriptor returned ([None]: it would block), or the events of a
    descriptor. *)
Inductive epoll_event := EvTimer (timer_count : option Z) | EvFd (fd : nat) (events : Z).

(** One iteration of the loop of [fiber_poll_events_internal]. *)
Definition poll_one (s : ev_state) (e : epoll_event) : option ev_state :=
  match e with
  | EvTimer None => Some s
  | EvTimer (Some n) => fiber_event_wake_sleepers s n
  | EvFd fd events =>
      info ← wait_info s !! fd;
      let rest := Z.land (Z.land (fd_events info) (Z.lnot events)) (Z.lor EPOLLIN EPOLLOUT) in
      let s := set_info s fd (FdInfo rest (fd_added info) (fd_waiters info)) in
      let s := if Z.eqb rest 0 then s else epoll_ctl s (EpollMod (Z.of_nat fd) (Z.lor EPOLLONESHOT rest)) in
      fiber_event_wake_waiters (S (size (scratch s))) s fd 0
  end.

Fixpoint fiber_poll_events_internal (s : ev_state) (events : list epoll_event) : option ev_state :=
  match events with
  | [] => Some s
  | e :: events => s' ← poll_one s e; fiber_poll_events_internal s' events
  end.

(** [epoll_wait] returned [events] ([None]: interrupted). *)
Definition fiber_poll_events (s : ev_state) (wait : option (list epoll_event)) : option (Z * ev_state) :=
  if event_open s then
    match wait with
    | None => Some (0, s)
    | Some events =>
        s' ← fiber_poll_events_internal s events; Some (Z.of_nat (length events), s')
    end
  else Some (FIBER_EVENT_NOTINIT, s).

(** ** Waiting *)

(** [fiber_wait_for_event] up to its yield. *)
Definition fiber_wait_for_event (s : ev_state) (this_fiber : Z) (fd : nat) (events : Z) : option ev_state :=
  info ← wait_info s !! fd;
  let ev := if Z.eqb (Z.land events FIBER_POLL_IN) 0 then fd_events info else Z.lor (fd_events info) EPOLLIN in
  let ev := if Z.eqb (Z.land events FIBER_POLL_OUT) 0 then ev else Z.lor ev EPOLLOUT in
  let e := Z.lor EPOLLONESHOT ev in
  let s := if Z.eqb (fd_added info) 0 then epoll_ctl s (EpollAdd (Z.of_nat fd) e)
           else epoll_ctl s (EpollMod (Z.of_nat fd) e) in
  let s := set_scratch s this_fiber (fd_waiters info) in
  let s := set_info s fd (FdInfo ev 1 this_fiber) in
  Some (set_state s this_fiber FIBER_STATE_WAITING).

(** Its result, once the fiber runs again. *)
Definition fiber_wait_for_event_result (s : ev_state) (this_fiber : Z) : Z :=
  if Z.eqb (scratch_of s this_fiber) NULL then FIBER_SUCCESS else FIBER_ERROR.

(** [uint32_t] arithmetic, widened afterwards. *)
Definition sleep_ms (seconds useconds : Z) : Z := u32 (u32 (u32 (seconds * 1000) + useconds / 1000) + 1).

(** [fiber_sleep] up to its yield; before [fiber_event_init] the thread itself
    sleeps. *)
Definition fiber_sleep (s : ev_state) (this_fiber seconds useconds : Z) : ev_state :=
  if event_open s then
    let wake_time := u64 (timer_trigger_count s + sleep_ms seconds useconds) in
    set_state (set_sleepers s (timer_trigger_count s) (waiter_insert (sleepers s) wake_time this_fiber))
              this_fiber FIBER_STATE_WAITING
  else s.

Definition fiber_fd_closed (s : ev_state) (fd : nat) : option ev_state :=
  if event_open s then
    info ← wait_info s !! fd;
    let s := if negb (Z.eqb (fd_events info) 0) || negb (Z.eqb (fd_added info) 0)
             then set_info (epoll_ctl s (EpollDel (Z.of_nat fd))) fd (FdInfo 0 0 (fd_waiters info))
             else s in
    fiber_event_wake_waiters (S (size (scratch s))) s fd (-1)
  else Some s.

(** ** The tree is a search tree *)

(** The sleepers in tree order. *)
Fixpoint tree_list (t : waiter_tree) : list (Z * Z) :=
  match t with
  | WLeaf => []
  | WNode l t w next r => tree_list l ++ ((fun x => (t, x)) <$> w :: next) ++ tree_list r
  end.

Fixpoint bst (t : waiter_tree) : Prop :=
  match t with
  | WLeaf => True
  | WNode l t _ _ r => bst l /\ bst r /\
      Forall (fun e => e.1 < t) (tree_list l) /\ Forall (fun e => t < e.1) (tree_list r)
  end.

Lemma insert_list t k w : tree_list (waiter_insert t k w) ≡ₚ (k, w) :: tree_list t.
Proof.
  induction t as [|l IHl t w0 next r IHr]; simpl; [done|].
  destruct (Z.ltb_spec k t); [|destruct (Z.eqb_spec k t) as [->|]]; simpl.
  - by rewrite IHl.
  - rewrite (perm_swap (t, w) (t, w0)). by rewrite <- Permutation_middle.
  - rewrite IHr. rewrite (Permutation_middle (tree_list l)). apply Permutation_app_head.
    rewrite <- Permutation_middle. apply perm_swap.
Qed.

Lemma insert_bst t k w : bst t -> bst (waiter_insert t k w).
Proof.
  induction t as [|l IHl t w0 next r IHr]; simpl; [done|]. intros (Hl & Hr & Fl & Fr).
  destruct (Z.ltb_spec k t); [|destruct (Z.eqb_spec k t) as [->|]]; simpl; split_and!; auto;
    rewrite insert_list; constructor; simpl; auto; lia.
Qed.

(** The node removed is the front of the tree order; none is removed exactly
    when nothing is due. *)
Lemma remove_spec t k : bst t ->
  let '(t', ret) := waiter_remove_less_than t k in
  bst t' /\
  match ret with
  | Some (wt, ws) => wt < k /\ tree_list t = ((fun x => (wt, x)) <$> ws) ++ tree_list t' /\
      (tree_size t' < tree_size t)%nat
  | None => t' = t /\ Forall (fun e => k <= e.1) (tree_list t)
  end.
Proof.
  induction t as [|l IHl t w next r IHr]; simpl; [done|]. intros (Hl & Hr & Fl & Fr).
  destruct l as [|ll lt lw lnext lr].
  - destruct (Z.ltb_spec t k).
    + split_and!; [done|done|done|simpl; lia].
    + split; [by simpl|]. split; [done|]. constructor; [simpl; lia|]. apply Forall_app. split.
      * apply Forall_fmap, Forall_forall. simpl. lia.
      * eapply Forall_impl; [exact Fr|]. simpl. intros. lia.
  - specialize (IHl Hl). destruct (waiter_remove_less_than (WNode ll lt lw lnext lr) k) as [l' ret].
    destruct IHl as [Hb IH]. destruct ret as [[wt ws]|].
    + destruct IH as (Hlt & El & Hsz).
      assert (Forall (fun e => e.1 < t) (tree_list l')) as Fl'.
      { change (Forall (fun e => e.1 < t) (tree_list (WNode ll lt lw lnext lr))) in Fl.
        rewrite El in Fl. by apply Forall_app in Fl as [_ ?]. }
      split; [simpl; auto|]. split_and!; [done| |simpl in *; lia].
      change (tree_list (WNode ll lt lw lnext lr) ++ ((fun x => (t, x)) <$> w :: next) ++ tree_list r =
        ((fun x => (wt, x)) <$> ws) ++ tree_list (WNode l' t w next r)).
      rewrite El. by rewrite <- app_assoc.
    + destruct IH as (-> & Hall). split; [simpl; auto|]. split; [done|].
      change (Forall (fun e => k <= e.1) (tree_list (WNode ll lt lw lnext lr) ++ ((fun x => (t, x)) <$> w :: next) ++ tree_list r)).
      assert (k <= t) as Hkt.
      { assert (exists e, e ∈ tree_list (WNode ll lt lw lnext lr)) as [e He].
        { exists (lt, lw). simpl. set_solver. }
        rewrite Forall_forall in Hall, Fl. specialize (Hall _ He). specialize (Fl _ He). lia. }
      apply Forall_app. split; [done|]. apply Forall_app. split.
      * apply Forall_fmap, Forall_forall. simpl. lia.
      * eapply Forall_impl; [exact Fr|]. simpl. intros. lia.
Qed.

Lemma const_sorted (k : Z) (l : list Z) : Forall (fun x => x = k) l -> StronglySorted Z.le l.
Proof.
  induction 1 as [|x l -> Hl IH]; constructor; [done|].
  eapply Forall_impl; [exact Hl|]. simpl. intros. lia.
Qed.

Lemma tree_list_sorted t : bst t -> StronglySorted Z.le (tree_list t).*1.
Proof.
  induction t as [|l IHl t w next r IHr]; cbn [tree_list bst]; [constructor|]. intros (Hl & Hr & Fl & Fr).
  rewrite !fmap_app. set (mid := ((fun x => (t, x)) <$> w :: next).*1).
  assert (Forall (fun x => x = t) mid) as Hmid by (apply Forall_fmap, Forall_fmap, Forall_forall; done).
  rewrite Forall_forall in Fl, Fr. rewrite Forall_forall in Hmid.
  assert (forall x, x ∈ (tree_list l).*1 -> x < t) as Kl by (intros x (e & -> & He)%list_elem_of_fmap; by apply Fl).
  assert (forall x, x ∈ (tree_list r).*1 -> t < x) as Kr by (intros x (e & -> & He)%list_elem_of_fmap; by apply Fr).
  apply StronglySorted_app_2; [|by apply IHl|apply StronglySorted_app_2; [| |by apply IHr]].
  - intros x y Hx [Hy|Hy]%elem_of_app; specialize (Kl _ Hx); [rewrite (Hmid _ Hy)|specialize (Kr _ Hy)]; lia.
  - intros x y Hx Hy. rewrite (Hmid _ Hx). specialize (Kr _ Hy). lia.
  - eapply const_sorted, Forall_forall, Hmid.
Qed.

Lemma filter_sorted_fst (P : Z * Z -> Prop) `{!forall e, Decision (P e)} (l : list (Z * Z)) :
  StronglySorted Z.le l.*1 -> StronglySorted Z.le (filter P l).*1.
Proof.
  induction l as [|e l IH]; intros Hs; [constructor|].
  change (StronglySorted Z.le (e.1 :: l.*1)) in Hs. apply StronglySorted_inv in Hs as [Hs Hall].
  destruct (decide (P e)) as [Hp|Hp]; [rewrite filter_cons_True by done|rewrite filter_cons_False by done; by apply IH].
  change (StronglySorted Z.le (e.1 :: (filter P l).*1)). constructor; [by apply IH|].
  apply Forall_forall. intros x (e' & -> & [_ He']%list_elem_of_filter)%list_elem_of_fmap.
  rewrite Forall_forall in Hall. apply Hall. by apply list_elem_of_fmap_2.
Qed.

(** ** Waking sleepers *)

Lemma wake_list_spec l : forall s,
  let s' := wake_list s l in
  ev_ready s' = ev_ready s ++ l /\ sleepers s' = sleepers s /\
  timer_trigger_count s' = timer_trigger_count s /\ scratch s' = scratch s /\ wait_info s' = wait_info s /\
  forall f, fstate s' !! f = if decide (f ∈ l) then Some FIBER_STATE_READY else fstate s !! f.
Proof.
  induction l as [|x l IH]; intros s; cbn [wake_list].
  - split; [by rewrite app_nil_r|]. do 4 (split; [done|]). intros f. by rewrite decide_False by apply not_elem_of_nil.
  - destruct (IH (schedule (set_state s x FIBER_STATE_READY) x)) as (H1 & H2 & H3 & H4 & H5 & H6).
    split_and!; try done.
    + rewrite H1. simpl. by rewrite <- app_assoc.
    + intros f. rewrite H6. simpl. rewrite lookup_insert.
      destruct (decide (f ∈ l)), (decide (x = f)), (decide (f ∈ x :: l)); try done; set_solver.
Qed.

Definition due (c : Z) (t : waiter_tree) : list Z := (filter (fun e => e.1 < c) (tree_list t)).*2.

Lemma due_remove c t wt ws t' : wt < c -> tree_list t = ((fun x => (wt, x)) <$> ws) ++ tree_list t' ->
  due c t = ws ++ due c t' /\
  filter (fun e => c <= e.1) (tree_list t) = filter (fun e => c <= e.1) (tree_list t').
Proof.
  intros Hlt E. unfold due. rewrite E, !filter_app, fmap_app.
  assert (forall e, e ∈ (fun x => (wt, x)) <$> ws -> e.1 = wt) as Hk by (by intros e (x & -> & _)%list_elem_of_fmap).
  rewrite (filter_all (fun e => e.1 < c)) by (intros e He; rewrite (Hk e He); done).
  rewrite (filter_none (fun e => c <= e.1)) by (intros e He; rewrite (Hk e He); lia).
  split; [|done]. f_equal. rewrite <- list_fmap_compose. apply list_fmap_id.
Qed.

Lemma due_none c t : Forall (fun e => c <= e.1) (tree_list t) ->
  due c t = [] /\ filter (fun e => c <= e.1) (tree_list t) = tree_list t.
Proof.
  rewrite Forall_forall. intros H. unfold due.
  rewrite filter_none by (intros e He; specialize (H e He); lia). by rewrite filter_all.
Qed.

Lemma wake_sleepers_loop_spec : forall fuel s, bst (sleepers s) -> (tree_size (sleepers s) < fuel)%nat ->
  exists s', wake_sleepers_loop fuel s = Some s' /\ bst (sleepers s') /\
    ev_ready s' = ev_ready s ++ due (timer_trigger_count s) (sleepers s) /\
    tree_list (sleepers s') = filter (fun e => timer_trigger_count s <= e.1) (tree_list (sleepers s)) /\
    timer_trigger_count s' = timer_trigger_count s /\ scratch s' = scratch s /\ wait_info s' = wait_info s /\
    forall f, fstate s' !! f = if decide (f ∈ due (timer_trigger_count s) (sleepers s))
                               then Some FIBER_STATE_READY else fstate s !! f.
Proof.
  induction fuel as [|fuel IH]; intros s Hb Hf; [lia|]. cbn [wake_sleepers_loop].
  pose proof (remove_spec (sleepers s) (timer_trigger_count s) Hb) as Hrem.
  destruct (waiter_remove_less_than (sleepers s) (timer_trigger_count s)) as [t' [[wt ws]|]].
  - destruct Hrem as (Hb' & Hlt & El & Hsz).
    destruct (wake_list_spec ws (set_sleepers s (timer_trigger_count s) t')) as (W1 & W2 & W3 & W4 & W5 & W6).
    set (s1 := wake_list _ ws) in *. cbn [set_sleepers ev_ready sleepers timer_trigger_count scratch wait_info fstate] in *.
    destruct (IH s1) as (s' & E & I1 & I2 & I3 & I4 & I5 & I6 & I7); [by rewrite W2|rewrite W2; lia|].
    destruct (due_remove _ _ _ _ _ Hlt El) as [Hdue Hfil].
    rewrite W2, W3 in *. exists s'. split_and!; try done.
    + rewrite I2, W1, Hdue. by rewrite <- app_assoc.
    + by rewrite I3, Hfil.
    + congruence.
    + congruence.
    + intros f. rewrite I7, W6, Hdue.
      destruct (decide (f ∈ due (timer_trigger_count s) t')), (decide (f ∈ ws)),
        (decide (f ∈ ws ++ due (timer_trigger_count s) t')); try done; set_solver.
  - destruct Hrem as (_ & _ & Hall). destruct (due_none _ _ Hall) as [Hdue Hfil].
    exists s. rewrite Hdue, Hfil, app_nil_r. do 7 (split; [done|]).
    intros f. by rewrite decide_False by apply not_elem_of_nil.
Qed.

(** ** Properties *)


Definition ev_demo : ev_state :=
  EvState true (replicate 4 (FdInfo 0 0 NULL)) 10 (WNode WLeaf 12 64 [] WLeaf) ∅ ∅ [] [].


(** Sleeping.  [fiber_sleep] keeps the tree a search tree, and the fiber is
    woken by the first poll that sees strictly more than [sleep_ms] further
    timer ticks, not before; a tick is [FIBER_TIME_RESOLUTION_MS] = 5
    milliseconds, so a sleep lasts at least five times the milliseconds asked
    for. *)
Theorem sleep_wakes_after s f seconds useconds k :
  event_open s = true -> bst (sleepers s) -> f ∉ (tree_list (sleepers s)).*2 ->
  0 <= seconds -> 0 <= useconds -> seconds * 1000 + useconds / 1000 + 1 < 2 ^ 32 ->
  0 <= timer_trigger_count s -> 0 <= k -> timer_trigger_count s + k < 2 ^ 63 ->
  let s1 := fiber_sleep s f seconds useconds in
  bst (sleepers s1) /\
  exists s2, fiber_event_wake_sleepers s1 k = Some s2 /\
    (f ∈ drop (length (ev_ready s)) (ev_ready s2) <->
     FIBER_TIME_RESOLUTION_MS * (seconds * 1000 + useconds / 1000 + 1) < FIBER_TIME_RESOLUTION_MS * k).
Proof.
  intros Ho Hb Hf Hs Hu Hms Hc Hk Hlim s1.
  assert (sleep_ms seconds useconds = seconds * 1000 + useconds / 1000 + 1) as Hsm.
  { assert (0 <= useconds / 1000) by (apply Z.div_pos; lia). unfold sleep_ms.
    rewrite (u32_small (seconds * 1000)) by lia. rewrite (u32_small (seconds * 1000 + _)) by lia.
    by rewrite u32_small by lia. }
  assert (s1 = set_state (set_sleepers s (timer_trigger_count s) (waiter_insert (sleepers s)
    (timer_trigger_count s + sleep_ms seconds useconds) f)) f FIBER_STATE_WAITING) as Es.
  { unfold s1, fiber_sleep. rewrite Ho. do 3 f_equal. apply u64_small. rewrite Hsm.
    assert (0 <= useconds / 1000) by (apply Z.div_pos; lia). lia. }
  assert (bst (sleepers s1)) as Hb1 by (rewrite Es; simpl; by apply insert_bst).
  split; [done|]. unfold fiber_event_wake_sleepers.
  assert (timer_trigger_count s1 = timer_trigger_count s) as Ht by (by rewrite Es).
  rewrite Ht, u64_small by lia. set (c := timer_trigger_count s + k).
  destruct (wake_sleepers_loop_spec (S (tree_size (sleepers s1))) (set_sleepers s1 c (sleepers s1)))
    as (s2 & E & _ & I2 & _); [done|simpl; lia|].
  exists s2. split; [exact E|]. cbn [set_sleepers ev_ready sleepers timer_trigger_count] in I2.
  assert (ev_ready s1 = ev_ready s) as Er by (by rewrite Es). rewrite I2, Er, drop_app_length.
  unfold due. rewrite Es. cbn [set_state set_sleepers sleepers]. rewrite list_elem_of_fmap.
  unfold FIBER_TIME_RESOLUTION_MS. rewrite Hsm. split.
  - intros ([t w] & -> & [Hlt Hin]%list_elem_of_filter). simpl in *. rewrite insert_list in Hin.
    apply elem_of_cons in Hin as [[= ->]|Hin]; [unfold c in *; lia|].
    destruct Hf. by apply (list_elem_of_fmap_2 snd) in Hin.
  - intros Hlt. exists (timer_trigger_count s + (seconds * 1000 + useconds / 1000 + 1), f). split; [done|].
    apply list_elem_of_filter. simpl. split; [unfold c; lia|]. rewrite insert_list. left.
Qed.

Lemma sleep_wakes_after_witness :
  let s1 := fiber_sleep ev_demo 80 0 2000 in
  bst (sleepers s1) /\
  exists s2, fiber_event_wake_sleepers s1 4 = Some s2 /\
    (80 ∈ drop 0 (ev_ready s2) <-> 5 * (0 * 1000 + 2000 / 1000 + 1) < 5 * 4).
Proof.
  apply (sleep_wakes_after ev_demo 80 0 2000 4).
  - reflexivity.
  - simpl. split_and!; constructor.
  - intros H. apply list_elem_of_singleton in H. discriminate H.
  - lia.
  - lia.
  - vm_compute. reflexivity.
  - simpl. lia.
  - lia.
  - simpl. lia.
Defined.

(** Overflow.  The sleep time is computed in 32 bits: from 4294968 seconds on
    the product wraps, and such a sleep of more than 49 days lasts 705 ticks. *)
Theorem sleep_ms_wraps seconds useconds :
  0 <= seconds < 2 ^ 32 -> 0 <= useconds < 2 ^ 32 ->
  (seconds * 1000 + useconds / 1000 + 1 < 2 ^ 32 ->
    sleep_ms seconds useconds = seconds * 1000 + useconds / 1000 + 1) /\
  (2 ^ 32 <= seconds * 1000 + useconds / 1000 + 1 ->
    sleep_ms seconds useconds < seconds * 1000 + useconds / 1000 + 1) /\
  sleep_ms 4294968 0 = 705.
Proof.
  intros Hs Hu. assert (0 <= useconds / 1000) by (apply Z.div_pos; lia).
  assert (sleep_ms seconds useconds = u32 (seconds * 1000 + useconds / 1000 + 1)) as E.
  { unfold sleep_ms, u32. rewrite Zplus_mod_idemp_l. by rewrite <- Z.add_assoc, Zplus_mod_idemp_l, Z.add_assoc. }
  rewrite E. split_and!; [|intros; pose proof (u32_range (seconds * 1000 + useconds / 1000 + 1)); lia|done].
  intros. apply u32_small. lia.
Qed.

Lemma sleep_ms_wraps_witness :
  (5000000 * 1000 + 0 / 1000 + 1 < 2 ^ 32 -> sleep_ms 5000000 0 = 5000000 * 1000 + 0 / 1000 + 1) /\
  (2 ^ 32 <= 5000000 * 1000 + 0 / 1000 + 1 -> sleep_ms 5000000 0 < 5000000 * 1000 + 0 / 1000 + 1) /\
  sleep_ms 4294968 0 = 705.
Proof. apply (sleep_ms_wraps 5000000 0); lia. Defined.

(** ** Waiting for descriptors *)

(** The chain of waiters of a descriptor, through the [scratch] fields. *)
Fixpoint waiters_chain (sc : gmap Z Z) (w : Z) (l : list Z) : Prop :=
  match l with
  | [] => w = NULL
  | x :: l => w = x /\ x <> NULL /\ exists nx, sc !! x = Some nx /\ waiters_chain sc nx l
  end.

Lemma chain_frame sc w l x v : waiters_chain sc w l -> x ∉ l -> waiters_chain (<[x:=v]> sc) w l.
Proof.
  revert w. induction l as [|y l IH]; intros w; simpl; [done|].
  intros (-> & Hy & nx & Hnx & Hc) [Hne Hni]%not_elem_of_cons. split_and!; [done|done|].
  exists nx. rewrite lookup_insert_ne by congruence. split; [done|]. by apply IH.
Qed.

Lemma chain_size sc w l : waiters_chain sc w l -> NoDup l -> (length l <= size sc)%nat.
Proof.
  intros Hc Hnd. assert (forall x, x ∈ l -> x ∈ dom sc) as Hin.
  { revert w Hc. clear Hnd. induction l as [|y l IH]; intros w Hc x Hx; [by apply elem_of_nil in Hx|].
    destruct Hc as (-> & _ & nx & Hnx & Hc). apply elem_of_cons in Hx as [->|Hx].
    - by apply elem_of_dom.
    - by eapply IH. }
  apply NoDup_length_size; [done|]. intros x Hx. by apply elem_of_dom, Hin.
Qed.

(** One chain per descriptor; a fiber waits in at most one. *)
Record ev_inv (s : ev_state) (ls : list (list Z)) : Prop := {
  ei_len : length ls = length (wait_info s);
  ei_chain : forall fd info l, wait_info s !! fd = Some info -> ls !! fd = Some l ->
    waiters_chain (scratch s) (fd_waiters info) l;
  ei_nodup : NoDup (concat ls)
}.

Lemma concat_insert_perm (ls : list (list Z)) i l : ls !! i = Some l ->
  exists rest, concat ls ≡ₚ l ++ rest /\ forall l', concat (<[i:=l']> ls) ≡ₚ l' ++ rest.
Proof.
  intros Hi. destruct (insert_split _ _ _ Hi) as (r & Hr & Hins). exists (concat r). split.
  - by rewrite Hr.
  - intros l'. by rewrite (Hins l').
Qed.

Lemma elem_concat (ls : list (list Z)) i l x : ls !! i = Some l -> x ∈ l -> x ∈ concat ls.
Proof. intros Hi Hx. destruct (concat_insert_perm _ _ _ Hi) as (rest & -> & _). apply elem_of_app. by left. Qed.

(** Waking a descriptor's waiters, with any result. *)
Lemma wake_waiters_spec fd result : forall fuel s info l,
  wait_info s !! fd = Some info -> waiters_chain (scratch s) (fd_waiters info) l -> NoDup l ->
  (length l < fuel)%nat ->
  exists s', fiber_event_wake_waiters fuel s fd result = Some s' /\
    wait_info s' = <[fd:=FdInfo (fd_events info) (fd_added info) NULL]> (wait_info s) /\
    ev_ready s' = ev_ready s ++ l /\ epoll_log s' = epoll_log s /\
    (forall f, scratch s' !! f = if decide (f ∈ l) then Some result else scratch s !! f) /\
    (forall f, fstate s' !! f = if decide (f ∈ l) then Some FIBER_STATE_READY else fstate s !! f).
Proof.
  induction fuel as [|fuel IH]; intros s info l Hi Hc Hnd Hf; [lia|]. cbn [fiber_event_wake_waiters].
  rewrite Hi. cbn [mbind option_bind]. destruct l as [|x l]; simpl in Hc.
  - rewrite Hc. rewrite Z.eqb_refl. exists s. split; [done|].
    split. { rewrite list_insert_id; [done|]. rewrite Hi. f_equal. destruct info. simpl in Hc. by subst. }
    split; [by rewrite app_nil_r|]. split; [done|]. split.
    + intros f. by rewrite decide_False by apply not_elem_of_nil.
    + intros f. by rewrite decide_False by apply not_elem_of_nil.
  - destruct Hc as (Hw & Hx & nx & Hnx & Hc). rewrite Hw, (proj2 (Z.eqb_neq _ _) Hx).
    apply NoDup_cons in Hnd as [Hxl Hnd]. unfold scratch_of. rewrite Hnx. cbn [default].
    set (s1 := schedule _ x).
    destruct (IH s1 (FdInfo (fd_events info) (fd_added info) nx) l) as (s' & E & I1 & I2 & I3 & I4 & I5).
    { unfold s1. simpl. apply list_lookup_insert_eq. by eapply lookup_lt_Some. }
    { unfold s1. simpl. by do 2 (apply chain_frame; [|done]). }
    { done. }
    { simpl in Hf. lia. }
    exists s'. split; [exact E|]. unfold s1 in I1, I2, I3, I4. simpl in I1, I2, I3, I4.
    split; [by rewrite I1, list_insert_insert_eq|]. split; [rewrite I2; by rewrite <- app_assoc|]. split; [done|].
    split.
    + intros f. rewrite I4, !lookup_insert.
      destruct (decide (f ∈ l)), (decide (x = f)), (decide (f ∈ x :: l)); try done; set_solver.
    + intros f. rewrite I5. simpl. rewrite lookup_insert.
      destruct (decide (f ∈ l)), (decide (x = f)), (decide (f ∈ x :: l)); try done; set_solver.
Qed.

(** Waking one descriptor keeps the other chains. *)
Lemma wake_inv s s0 ls fd info l result s' :
  ev_inv s ls -> scratch s0 = scratch s ->
  wait_info s0 = <[fd:=info]> (wait_info s) -> (exists info0, wait_info s !! fd = Some info0) -> ls !! fd = Some l ->
  wait_info s' = <[fd:=FdInfo (fd_events info) (fd_added info) NULL]> (wait_info s0) ->
  (forall f, scratch s' !! f = if decide (f ∈ l) then Some result else scratch s0 !! f) ->
  ev_inv s' (<[fd:=[]]> ls).
Proof.
  intros [H1 H2 H3] Esc Ewi [info0 Hi] Hl Hwi Hsc.
  destruct (concat_insert_perm _ _ _ Hl) as (rest & Hp & Hins). rewrite Hp in H3.
  apply NoDup_app in H3 as (_ & Hdis & Hrest).
  rewrite Ewi, list_insert_insert_eq in Hwi. split.
  - rewrite Hwi. by rewrite !length_insert.
  - intros k ik lk. rewrite Hwi. intros [[-> ->]|[Hne Hk]]%lookup_insert_cases Hlk.
    + rewrite list_lookup_insert_eq in Hlk by (by eapply lookup_lt_Some). injection Hlk as <-. done.
    + rewrite list_lookup_insert_ne in Hlk by done.
      assert (forall x, x ∈ lk -> x ∉ l) as Hni.
      { intros x Hx Hxl. apply (Hdis _ Hxl).
        assert (<[fd:=[]]> ls !! k = Some lk) as Hk2 by (by rewrite list_lookup_insert_ne).
        pose proof (elem_concat _ _ _ _ Hk2 Hx) as Hc. rewrite (Hins []) in Hc. done. }
      specialize (H2 _ _ _ Hk Hlk). rewrite Esc in Hsc. clear -H2 Hni Hsc.
      revert H2. generalize (fd_waiters ik) as w. induction lk as [|y lk IH]; intros w; simpl; [done|].
      intros (-> & Hy & nx & Hnx & Hc). split_and!; [done|done|]. exists nx.
      rewrite Hsc, decide_False by (apply Hni; left). split; [done|]. apply IH; [|done].
      intros x Hx. apply Hni. by right.
  - by rewrite (Hins []).
Qed.

(** A ready descriptor.  When [epoll] reports events for a descriptor, every
    fiber waiting on it is made ready and its wait returns success; no other
    fiber is touched; the events not reported stay wanted and are re-armed,
    once, if there are any. *)
Theorem fd_event_wakes s ls fd info l events :
  ev_inv s ls -> wait_info s !! fd = Some info -> ls !! fd = Some l ->
  let rest := Z.land (Z.land (fd_events info) (Z.lnot events)) (Z.lor EPOLLIN EPOLLOUT) in
  exists s', poll_one s (EvFd fd events) = Some s' /\ ev_inv s' (<[fd:=[]]> ls) /\
    ev_ready s' = ev_ready s ++ l /\
    wait_info s' !! fd = Some (FdInfo rest (fd_added info) NULL) /\
    epoll_log s' = epoll_log s ++
      (if decide (rest = 0) then [] else [EpollMod (Z.of_nat fd) (Z.lor EPOLLONESHOT rest)]) /\
    (forall f, f ∈ l -> fstate s' !! f = Some FIBER_STATE_READY /\
      fiber_wait_for_event_result s' f = FIBER_SUCCESS) /\
    (forall f, f ∉ l -> fstate s' !! f = fstate s !! f /\ scratch s' !! f = scratch s !! f).
Proof.
  intros HI Hi Hl rest. pose proof (ei_chain _ _ HI _ _ _ Hi Hl) as Hc.
  assert (NoDup l) as Hnd.
  { pose proof (ei_nodup _ _ HI) as Hnd. destruct (concat_insert_perm _ _ _ Hl) as (r & Hp & _).
    rewrite Hp in Hnd. by apply NoDup_app in Hnd as (? & _). }
  cbn [poll_one]. rewrite Hi. cbn [mbind option_bind]. fold rest.
  set (s0 := if Z.eqb rest 0 then _ else _).
  assert (scratch s0 = scratch s /\ fstate s0 = fstate s /\ ev_ready s0 = ev_ready s /\
    wait_info s0 = <[fd:=FdInfo rest (fd_added info) (fd_waiters info)]> (wait_info s) /\
    epoll_log s0 = epoll_log s ++ (if decide (rest = 0) then [] else [EpollMod (Z.of_nat fd) (Z.lor EPOLLONESHOT rest)]))
    as (A1 & A2 & A3 & A4 & A5).
  { unfold s0. destruct (Z.eqb_spec rest 0); case_decide; try done; simpl; by rewrite app_nil_r. }
  assert (fd < length (wait_info s))%nat as Hlt by (by eapply lookup_lt_Some).
  destruct (wake_waiters_spec fd 0 (S (size (scratch s0))) s0 (FdInfo rest (fd_added info) (fd_waiters info)) l)
    as (s' & E & I1 & I2 & I3 & I4 & I5).
  { rewrite A4. by apply list_lookup_insert_eq. }
  { by rewrite A1. }
  { done. }
  { rewrite A1. pose proof (chain_size _ _ _ Hc Hnd). lia. }
  exists s'. split; [exact E|]. split; [|split_and!].
  - eapply (wake_inv s s0); eauto.
  - by rewrite I2, A3.
  - rewrite I1. apply list_lookup_insert_eq. rewrite A4, length_insert. done.
  - by rewrite I3, A5.
  - intros f Hf. rewrite I5, decide_True by done. split; [done|].
    unfold fiber_wait_for_event_result, scratch_of. by rewrite I4, decide_True.
  - intros f Hf. rewrite I5, I4, !decide_False, A1, A2 by done. done.
Qed.

Lemma wake_waiters_open fd result : forall fuel s s',
  fiber_event_wake_waiters fuel s fd result = Some s' -> event_open s' = event_open s.
Proof.
  induction fuel as [|fuel IH]; intros s s' H; [done|]. cbn [fiber_event_wake_waiters] in H.
  destruct (wait_info s !! fd); [|done]. simpl in H. case_match; [by simplify_eq|]. by rewrite (IH _ _ H).
Qed.

Lemma fd_closed_spec s ls fd info l :
  event_open s = true -> ev_inv s ls -> wait_info s !! fd = Some info -> ls !! fd = Some l ->
  exists s', fiber_fd_closed s fd = Some s' /\ ev_inv s' (<[fd:=[]]> ls) /\
    ev_ready s' = ev_ready s ++ l /\ wait_info s' !! fd = Some (FdInfo 0 0 NULL) /\
    epoll_log s' = epoll_log s ++
      (if decide (fd_events info = 0 /\ fd_added info = 0) then [] else [EpollDel (Z.of_nat fd)]) /\
    (forall f, f ∈ l -> fstate s' !! f = Some FIBER_STATE_READY /\
      fiber_wait_for_event_result s' f = FIBER_ERROR) /\
    event_open s' = true.
Proof.
  intros Ho HI Hi Hl. pose proof (ei_chain _ _ HI _ _ _ Hi Hl) as Hc.
  assert (NoDup l) as Hnd.
  { pose proof (ei_nodup _ _ HI) as Hnd. destruct (concat_insert_perm _ _ _ Hl) as (r & Hp & _).
    rewrite Hp in Hnd. by apply NoDup_app in Hnd as (? & _). }
  unfold fiber_fd_closed. rewrite Ho, Hi. cbn [mbind option_bind].
  set (s0 := if _ || _ then _ else _).
  assert (fd < length (wait_info s))%nat as Hlt by (by eapply lookup_lt_Some).
  assert (scratch s0 = scratch s /\ ev_ready s0 = ev_ready s /\
    wait_info s0 = <[fd:=FdInfo 0 0 (fd_waiters info)]> (wait_info s) /\
    epoll_log s0 = epoll_log s ++ (if decide (fd_events info = 0 /\ fd_added info = 0) then [] else [EpollDel (Z.of_nat fd)]))
    as (A1 & A3 & A4 & A5).
  { unfold s0. destruct (Z.eqb_spec (fd_events info) 0) as [E1|E1], (Z.eqb_spec (fd_added info) 0) as [E2|E2];
      case_decide as Hd; try lia; simpl; rewrite ?app_nil_r; try done.
    split_and!; try done. symmetry. apply list_insert_id. rewrite Hi. destruct info; simpl in *; by subst. }
  destruct (wake_waiters_spec fd (-1) (S (size (scratch s0))) s0 (FdInfo 0 0 (fd_waiters info)) l)
    as (s' & E & I1 & I2 & I3 & I4 & I5).
  { rewrite A4. by apply list_lookup_insert_eq. }
  { by rewrite A1. }
  { done. }
  { rewrite A1. pose proof (chain_size _ _ _ Hc Hnd). lia. }
  exists s'. split; [exact E|]. split; [|split_and!].
  - eapply (wake_inv s s0); eauto.
  - by rewrite I2, A3.
  - rewrite I1. apply list_lookup_insert_eq. rewrite A4, length_insert. done.
  - by rewrite I3, A5.
  - intros f Hf. rewrite I5, decide_True by done. split; [done|].
    unfold fiber_wait_for_event_result, scratch_of. by rewrite I4, decide_True.
  - rewrite (wake_waiters_open _ _ _ _ _ E). unfold s0. by destruct (_ || _).
Qed.

(** A closed descriptor.  Closing a descriptor removes it from [epoll] if it
    was registered, forgets its state, and every fiber waiting on it is made
    ready with an error as the result of its wait. *)
Theorem fd_closed_fails_waiters s ls fd info l :
  event_open s = true -> ev_inv s ls -> wait_info s !! fd = Some info -> ls !! fd = Some l ->
  exists s', fiber_fd_closed s fd = Some s' /\ ev_inv s' (<[fd:=[]]> ls) /\
    ev_ready s' = ev_ready s ++ l /\ wait_info s' !! fd = Some (FdInfo 0 0 NULL) /\
    epoll_log s' = epoll_log s ++
      (if decide (fd_events info = 0 /\ fd_added info = 0) then [] else [EpollDel (Z.of_nat fd)]) /\
    (forall f, f ∈ l -> fstate s' !! f = Some FIBER_STATE_READY /\
      fiber_wait_for_event_result s' f = FIBER_ERROR).
Proof.
  intros Ho HI Hi Hl. destruct (fd_closed_spec s ls fd info l Ho HI Hi Hl) as (s' & H1 & H2 & H3 & H4 & H5 & H6 & _).
  by exists s'.
Qed.

(** Waiting for a descriptor.  A fiber that waits nowhere joins the
    descriptor's chain, its interest is added to the wanted events, and [epoll]
    is told: by an addition the first time, by a modification afterwards. *)
Theorem wait_registers s ls fd info l f events :
  ev_inv s ls -> wait_info s !! fd = Some info -> ls !! fd = Some l -> f ∉ concat ls -> f <> NULL ->
  exists s' ev, fiber_wait_for_event s f fd events = Some s' /\ ev_inv s' (<[fd:=f :: l]> ls) /\
    wait_info s' !! fd = Some (FdInfo ev 1 f) /\ fstate s' !! f = Some FIBER_STATE_WAITING /\
    ev = Z.lor (fd_events info) (Z.lor (if Z.testbit events 0 then EPOLLIN else 0)
                                       (if Z.testbit events 1 then EPOLLOUT else 0)) /\
    epoll_log s' = epoll_log s ++
      [if decide (fd_added info = 0) then EpollAdd (Z.of_nat fd) (Z.lor EPOLLONESHOT ev)
       else EpollMod (Z.of_nat fd) (Z.lor EPOLLONESHOT ev)].
Proof.
  intros [H1 H2 H3] Hi Hl Hf Hf0. unfold fiber_wait_for_event. rewrite Hi. cbn [mbind option_bind].
  set (ev := if Z.eqb (Z.land events FIBER_POLL_OUT) 0 then _ else _).
  assert (fd < length (wait_info s))%nat as Hlt by (by eapply lookup_lt_Some).
  destruct (concat_insert_perm _ _ _ Hl) as (rest & Hp & Hins).
  eexists _, ev. split; [reflexivity|]. split_and!.
  - split; cbn.
    + destruct (Z.eqb (fd_added info) 0); cbn; by rewrite !length_insert.
    + assert (forall k ik lk, wait_info s !! k = Some ik -> ls !! k = Some lk ->
        waiters_chain (<[f:=fd_waiters info]> (scratch s)) (fd_waiters ik) lk) as Hfr.
      { intros k ik lk Hk Hlk. apply chain_frame; [by eapply H2|]. intros Hx. apply Hf. by eapply elem_concat. }
      assert (forall b : bool, scratch (if b then epoll_ctl s (EpollAdd (Z.of_nat fd) (Z.lor EPOLLONESHOT ev))
        else epoll_ctl s (EpollMod (Z.of_nat fd) (Z.lor EPOLLONESHOT ev))) = scratch s /\
        wait_info (if b then epoll_ctl s (EpollAdd (Z.of_nat fd) (Z.lor EPOLLONESHOT ev))
        else epoll_ctl s (EpollMod (Z.of_nat fd) (Z.lor EPOLLONESHOT ev))) = wait_info s) as Hb by (by intros []).
      destruct (Hb (Z.eqb (fd_added info) 0)) as [-> ->].
      intros k ik lk [[-> ->]|[Hne Hk]]%lookup_insert_cases Hlk.
      * rewrite list_lookup_insert_eq in Hlk by lia. injection Hlk as <-. cbn. split_and!; [done|done|].
        exists (fd_waiters info). rewrite lookup_insert_eq. split; [done|]. by eapply Hfr.
      * rewrite list_lookup_insert_ne in Hlk by done. by eapply Hfr.
    + rewrite (Hins (f :: l)). simpl. constructor; [by rewrite <- Hp|by rewrite <- Hp].
  - cbn. apply list_lookup_insert_eq. by destruct (Z.eqb (fd_added info) 0).
  - cbn. apply lookup_insert_eq.
  - unfold ev, FIBER_POLL_IN, FIBER_POLL_OUT.
    assert (forall i, 0 <= i -> Z.eqb (Z.land events (2 ^ i)) 0 = negb (Z.testbit events i)) as Hbit.
    { intros i Hi0. destruct (Z.testbit events i) eqn:E; simpl.
      - apply Z.eqb_neq. intros Hz. apply (f_equal (fun z => Z.testbit z i)) in Hz.
        rewrite Z.land_spec, E, Z.pow2_bits_true, Z.bits_0 in Hz by done. done.
      - apply Z.eqb_eq. apply Z.bits_inj'. intros j Hj. rewrite Z.land_spec, Z.bits_0.
        destruct (Z.eqb_spec i j) as [->|Hne]; [by rewrite E|]. rewrite Z.pow2_bits_false by lia. apply andb_false_r. }
    pose proof (Hbit 0 ltac:(lia)) as B0. pose proof (Hbit 1 ltac:(lia)) as B1.
    change (2 ^ 0) with 1 in B0. change (2 ^ 1) with 2 in B1. rewrite B0, B1.
    destruct (Z.testbit events 0), (Z.testbit events 1); cbn [negb]; by rewrite ?Z.lor_0_r, ?Z.lor_0_l, ?Z.lor_assoc.
  - cbn. destruct (Z.eqb_spec (fd_added info) 0); case_decide; done.
Qed.

(** Fibers 64 and 72 wait on descriptor 3 to read and to write. *)
Definition ev_wait_demo : ev_state :=
  EvState true (<[3%nat:=FdInfo 5 1 72]> (replicate 4 (FdInfo 0 0 NULL))) 10 WLeaf
    (list_to_map [(64, FIBER_STATE_WAITING); (72, FIBER_STATE_WAITING)])
    (list_to_map [(64, NULL); (72, 64)]) [] [].

Lemma ev_wait_demo_inv : ev_inv ev_wait_demo [[]; []; []; [72; 64]].
Proof.
  split; [done| |].
  - intros fd info l Hi Hl. destruct fd as [|[|[|[|fd]]]]; simplify_eq/=; try done.
    split_and!; [done|done|]. exists 64. split; [reflexivity|]. split_and!; [done|done|].
    exists NULL. split; [reflexivity|done].
  - simpl. apply NoDup_cons. split; [|apply NoDup_singleton]. intros H. by apply list_elem_of_singleton in H.
Qed.

Lemma fd_event_wakes_witness :
  exists s', poll_one ev_wait_demo (EvFd 3 EPOLLIN) = Some s' /\ ev_inv s' [[]; []; []; []] /\
    ev_ready s' = [] ++ [72; 64] /\ wait_info s' !! 3%nat = Some (FdInfo 4 1 NULL) /\
    epoll_log s' = [] ++ [EpollMod 3 (Z.lor EPOLLONESHOT 4)] /\
    (forall f, f ∈ [72; 64] -> fstate s' !! f = Some FIBER_STATE_READY /\
      fiber_wait_for_event_result s' f = FIBER_SUCCESS) /\
    (forall f, f ∉ [72; 64] -> fstate s' !! f = fstate ev_wait_demo !! f /\
      scratch s' !! f = scratch ev_wait_demo !! f).
Proof.
  apply (fd_event_wakes ev_wait_demo [[]; []; []; [72; 64]] 3 (FdInfo 5 1 72) [72; 64] EPOLLIN).
  - exact ev_wait_demo_inv.
  - reflexivity.
  - reflexivity.
Defined.

Lemma fd_closed_fails_waiters_witness :
  exists s', fiber_fd_closed ev_wait_demo 3 = Some s' /\ ev_inv s' [[]; []; []; []] /\
    ev_ready s' = [] ++ [72; 64] /\ wait_info s' !! 3%nat = Some (FdInfo 0 0 NULL) /\
    epoll_log s' = [] ++ [EpollDel 3] /\
    (forall f, f ∈ [72; 64] -> fstate s' !! f = Some FIBER_STATE_READY /\
      fiber_wait_for_event_result s' f = FIBER_ERROR).
Proof.
  apply (fd_closed_fails_waiters ev_wait_demo [[]; []; []; [72; 64]] 3 (FdInfo 5 1 72) [72; 64]).
  - reflexivity.
  - exact ev_wait_demo_inv.
  - reflexivity.
  - reflexivity.
Defined.

Lemma wait_registers_witness :
  exists s' ev, fiber_wait_for_event ev_wait_demo 80 1 FIBER_POLL_IN = Some s' /\
    ev_inv s' [[]; [80]; []; [72; 64]] /\ wait_info s' !! 1%nat = Some (FdInfo ev 1 80) /\
    fstate s' !! 80 = Some FIBER_STATE_WAITING /\ ev = Z.lor 0 (Z.lor EPOLLIN 0) /\
    epoll_log s' = [] ++ [EpollAdd 1 (Z.lor EPOLLONESHOT ev)].
Proof.
  apply (wait_registers ev_wait_demo [[]; []; []; [72; 64]] 1 (FdInfo 0 0 NULL) [] 80 FIBER_POLL_IN).
  - exact ev_wait_demo_inv.
  - reflexivity.
  - reflexivity.
  - simpl. intros H. apply elem_of_cons in H as [H|H]; [discriminate H|].
    apply list_elem_of_singleton in H. discriminate H.
  - discriminate.
Defined.
