(* ===== verification/EventEv.v ===== *)
(** * The event system over libev ([src/fiber_event_ev.c])

    The alternative to [Event]: one libev loop under a spin lock.  A fiber that
    waits starts a watcher and goes to sleep, and the maintenance of its thread
    releases the lock; a poll runs the loop, whose callbacks stop the watchers
    that fired and schedule their fibers.  libev is the class [LibEv]; the lock
    is the abstract lock that [Spinlock] shows [fiber_spinlock] to be. *)

From S2P Require Import Prelude.

(** ** libev *)

(** A watcher lives on the stack of the fiber that waits, so fibers name
    watchers. *)
Inductive watcher := EvIo (fd poll_events : Z) | EvTimer (seconds useconds : Z).

(** What the module relies on: a new loop has no active watcher, starting and
    stopping change the active watchers, and (see [ev_run] below) callbacks are
    called for active watchers only. *)
Class LibEv (L : Type) := {
  ev_loop_new : L;
  ev_start : nat -> watcher -> L -> L;          (* ev_io_start, ev_timer_start *)
  ev_stop : nat -> L -> L;                      (* ev_io_stop, ev_timer_stop *)
  ev_active : L -> gset nat;
  ev_active_new : ev_active ev_loop_new = ∅;
  ev_active_start f w l : ev_active (ev_start f w l) = {[f]} ∪ ev_active l;
  ev_active_stop f l : ev_active (ev_stop f l) = ev_active l ∖ {[f]}
}.

Section ev.
Context {L : Type} `{LibEv L}.

(** ** State *)

Definition FIBER_EVENT_NOTINIT : Z := -1.
Definition FIBER_EVENT_TRYAGAIN : Z := -2.
Definition FIBER_POLL_IN : Z := 1.
Definition FIBER_POLL_OUT : Z := 2.
Definition EV_READ : Z := 1.
Definition EV_WRITE : Z := 2.

(** The variables of the module, the watchers of the fibers, and which fibers
    run and which are scheduled. *)
Record ev_shared := EvShared {
  fiber_loop : option L;
  loop_lock : option nat;
  num_events_triggered : Z;
  active_threads : Z;
  ev_watchers : gmap nat watcher;
  ev_running : gset nat;
  ev_ready : list nat
}.

(** [blk]: the blocking poll. *)
Inductive ev_pc :=
| VIdle
| VInitLock | VInitCount | VInitLoop
| VShutLock | VShutDestroy
| VUnlock                                     (* unlock and return *)
| VPollCheck | VPollTry | VPollAgain
| VBlkCheck | VBlkSub | VBlkSleep | VBlkLock | VBlkAgain
| VRun (blk : bool)                           (* ev_run *)
| VCallbacks (blk : bool) (fired : list nat)
| VPollUnlock (blk : bool)                    (* local_copy, unlock *)
| VBlkAdd (result : Z)
| VSleepCheck (f : nat) (seconds useconds : Z)
| VLock (f : nat) (w : watcher)
| VStart (f : nat) (w : watcher)
| VMaintain.                                  (* the maintenance unlocks for the sleeper *)

Inductive ev_choice :=
| CInit | CShutdown | CPoll | CPollBlocking
| CWait (f : nat) (fd events : Z) | CSleep (f : nat) (seconds useconds : Z)
| CResume                                     (* the scheduler runs a ready fiber *)
| CFire (fired : list nat)                    (* the watchers that ev_run finds pending *)
| CGo.

(** [EvPolls]: a poll is about to run the loop; [EvPolled]: it has read the
    number of events; [EvReturn]: a poll returns. *)
Inductive ev_ev := EvAsleep (f : nat) | EvWoken (f : nat) | EvPolls (t : nat) | EvPolled (t : nat) (count : Z) | EvReturn (t : nat) (result : Z).

(** ** Operations *)

Definition set_loop (s : ev_shared) (l : option L) : ev_shared :=
  EvShared l (loop_lock s) (num_events_triggered s) (active_threads s) (ev_watchers s) (ev_running s) (ev_ready s).
Definition set_lock (s : ev_shared) (k : option nat) : ev_shared :=
  EvShared (fiber_loop s) k (num_events_triggered s) (active_threads s) (ev_watchers s) (ev_running s) (ev_ready s).
Definition set_num (s : ev_shared) (n : Z) : ev_shared :=
  EvShared (fiber_loop s) (loop_lock s) n (active_threads s) (ev_watchers s) (ev_running s) (ev_ready s).
Definition set_active (s : ev_shared) (n : Z) : ev_shared :=
  EvShared (fiber_loop s) (loop_lock s) (num_events_triggered s) n (ev_watchers s) (ev_running s) (ev_ready s).

Definition lock (t : nat) (s : ev_shared) : option ev_shared :=
  if decide (loop_lock s = None) then Some (set_lock s (Some t)) else None.
Definition unlock (t : nat) (s : ev_shared) : option ev_shared :=
  if decide (loop_lock s = Some t) then Some (set_lock s None) else None.

(** [kthreads]: [fiber_manager_get_kernel_thread_count()]. *)
Definition fiber_event_init_ev (kthreads : Z) (t : nat) (s : ev_shared) (pc : ev_pc) : option (ev_shared * ev_pc * list ev_ev) :=
  match pc with
  | VInitLock => s' ← lock t s; Some (s', VInitCount, [])
  | VInitCount => Some (set_active s kthreads, VInitLoop, [])
  | VInitLoop => Some (set_loop s (Some ev_loop_new), VUnlock, [])
  | _ => None
  end.

Definition fiber_event_shutdown_ev (t : nat) (s : ev_shared) (pc : ev_pc) : option (ev_shared * ev_pc * list ev_ev) :=
  match pc with
  | VShutLock => s' ← lock t s; Some (s', VShutDestroy, [])
  | VShutDestroy => Some (set_loop s None, VUnlock, [])
  | _ => None
  end.

(** [ev_io_stop] or [ev_timer_stop], the state, [fiber_manager_schedule], the
    count. *)
Definition fd_ready (s : ev_shared) (the_fiber : nat) : option ev_shared :=
  l ← fiber_loop s;
  Some (EvShared (Some (ev_stop the_fiber l)) (loop_lock s) (i32 (num_events_triggered s + 1)) (active_threads s)
    (delete the_fiber (ev_watchers s)) (ev_running s) (ev_ready s ++ [the_fiber])).

Definition timer_trigger (s : ev_shared) (the_fiber : nat) : option ev_shared := fd_ready s the_fiber.

(** [ev_run]: [fired] are the pending watchers, each active. *)
Definition ev_run (s : ev_shared) (blk : bool) (fired : list nat) : option (ev_shared * ev_pc * list ev_ev) :=
  l ← fiber_loop s;
  if decide (NoDup fired /\ Forall (fun f => f ∈ ev_active l) fired) then Some (s, VCallbacks blk fired, []) else None.

Definition run_callback (s : ev_shared) (blk : bool) (fired : list nat) : option (ev_shared * ev_pc * list ev_ev) :=
  match fired with
  | [] => Some (s, VPollUnlock blk, [])
  | f :: fired =>
      w ← ev_watchers s !! f;
      s' ← match w with EvIo _ _ => fd_ready s f | EvTimer _ _ => timer_trigger s f end;
      Some (s', VCallbacks blk fired, [EvWoken f])
  end.

Definition fiber_poll_events_ev (t : nat) (s : ev_shared) (pc : ev_pc) : option (ev_shared * ev_pc * list ev_ev) :=
  match pc with
  | VPollCheck =>
      match fiber_loop s with
      | None => Some (s, VIdle, [EvReturn t FIBER_EVENT_NOTINIT])
      | Some _ => Some (s, VPollTry, [])
      end
  | VPollTry =>
      match lock t s with
      | None => Some (s, VIdle, [EvReturn t FIBER_EVENT_TRYAGAIN])
      | Some s' => Some (s', VPollAgain, [])
      end
  | VPollAgain =>
      match fiber_loop s with
      | None => s' ← unlock t s; Some (s', VIdle, [EvReturn t FIBER_EVENT_NOTINIT])
      | Some _ => Some (set_num s 0, VRun false, [EvPolls t])
      end
  | VPollUnlock false => s' ← unlock t s; Some (s', VIdle, [EvPolled t (num_events_triggered s); EvReturn t (num_events_triggered s)])
  | _ => None
  end.

Definition fiber_poll_events_blocking_ev (t : nat) (s : ev_shared) (pc : ev_pc) : option (ev_shared * ev_pc * list ev_ev) :=
  match pc with
  | VBlkCheck =>
      match fiber_loop s with
      | None => Some (s, VIdle, [EvReturn t 0])              (* fiber_do_real_sleep *)
      | Some _ => Some (s, VBlkSub, [])
      end
  | VBlkSub =>
      let local_count := i32 (active_threads s - 1) in
      if Z.ltb local_count 0 then None                        (* assert(local_count >= 0) *)
      else if Z.ltb 0 local_count then Some (set_active s local_count, VBlkSleep, [])
      else Some (set_active s local_count, VBlkLock, [])
  | VBlkSleep => Some (set_active s (i32 (active_threads s + 1)), VIdle, [EvReturn t 0])
  | VBlkLock => s' ← lock t s; Some (s', VBlkAgain, [])
  | VBlkAgain =>
      match fiber_loop s with
      | None => s' ← unlock t (set_active s (i32 (active_threads s + 1))); Some (s', VIdle, [EvReturn t 0])
      | Some _ => Some (set_num s 0, VRun true, [EvPolls t])
      end
  | VPollUnlock true => s' ← unlock t s; Some (s', VBlkAdd (num_events_triggered s), [EvPolled t (num_events_triggered s)])
  | VBlkAdd result => Some (set_active s (i32 (active_threads s + 1)), VIdle, [EvReturn t result])
  | _ => None
  end.

Definition poll_events_of (events : Z) : Z :=
  Z.lor (if Z.eqb (Z.land events FIBER_POLL_IN) 0 then 0 else EV_READ) (if Z.eqb (Z.land events FIBER_POLL_OUT) 0 then 0 else EV_WRITE).

(** The common part of [fiber_wait_for_event] and [fiber_sleep]. *)
Definition start_watcher (t : nat) (s : ev_shared) (pc : ev_pc) : option (ev_shared * ev_pc * list ev_ev) :=
  match pc with
  | VLock f w => s' ← lock t s; Some (s', VStart f w, [])
  | VStart f w =>
      l ← fiber_loop s;
      Some (EvShared (Some (ev_start f w l)) (loop_lock s) (num_events_triggered s) (active_threads s)
        (<[f:=w]> (ev_watchers s)) (ev_running s) (ev_ready s), VMaintain, [EvAsleep f])
  | VMaintain => s' ← unlock t s; Some (s', VIdle, [])
  | _ => None
  end.

(** The fiber [f] runs on thread [t] until it sleeps. *)
Definition fiber_wait_for_event_ev (f : nat) (fd events : Z) (s : ev_shared) : option (ev_shared * ev_pc * list ev_ev) :=
  if decide (f ∈ ev_running s) then
    Some (EvShared (fiber_loop s) (loop_lock s) (num_events_triggered s) (active_threads s) (ev_watchers s) (ev_running s ∖ {[f]}) (ev_ready s),
          VLock f (EvIo fd (poll_events_of events)), [])
  else None.

Definition fiber_sleep_ev (f : nat) (seconds useconds : Z) (s : ev_shared) (pc : ev_pc) : option (ev_shared * ev_pc * list ev_ev) :=
  match pc with
  | VIdle =>
      if decide (f ∈ ev_running s) then
        Some (EvShared (fiber_loop s) (loop_lock s) (num_events_triggered s) (active_threads s) (ev_watchers s) (ev_running s ∖ {[f]}) (ev_ready s),
              VSleepCheck f seconds useconds, [])
      else None
  | VSleepCheck f seconds useconds =>
      match fiber_loop s with
      | None =>                                               (* fiber_do_real_sleep *)
          Some (EvShared (fiber_loop s) (loop_lock s) (num_events_triggered s) (active_threads s) (ev_watchers s) ({[f]} ∪ ev_running s) (ev_ready s),
                VIdle, [])
      | Some _ => Some (s, VLock f (EvTimer seconds useconds), [])
      end
  | _ => None
  end.

Definition resume (s : ev_shared) : option (ev_shared * ev_pc * list ev_ev) :=
  match ev_ready s with
  | f :: r => Some (EvShared (fiber_loop s) (loop_lock s) (num_events_triggered s) (active_threads s) (ev_watchers s) ({[f]} ∪ ev_running s) r, VIdle, [])
  | [] => None
  end.

Definition ev_tstep (kthreads : Z) (t : nat) (ch : ev_choice) (s : ev_shared) (pc : ev_pc) : option (ev_shared * ev_pc * list ev_ev) :=
  match ch, pc with
  | CInit, VIdle => Some (s, VInitLock, [])
  | CShutdown, VIdle => Some (s, VShutLock, [])
  | CPoll, VIdle => Some (s, VPollCheck, [])
  | CPollBlocking, VIdle => Some (s, VBlkCheck, [])
  | CWait f fd events, VIdle => fiber_wait_for_event_ev f fd events s
  | CSleep f sec usec, VIdle => fiber_sleep_ev f sec usec s pc
  | CResume, VIdle => resume s
  | CFire fired, VRun blk => ev_run s blk fired
  | CGo, VCallbacks blk fired => run_callback s blk fired
  | CGo, (VInitLock | VInitCount | VInitLoop) => fiber_event_init_ev kthreads t s pc
  | CGo, (VShutLock | VShutDestroy) => fiber_event_shutdown_ev t s pc
  | CGo, VUnlock => s' ← unlock t s; Some (s', VIdle, [])
  | CGo, (VPollCheck | VPollTry | VPollAgain | VPollUnlock false) => fiber_poll_events_ev t s pc
  | CGo, (VBlkCheck | VBlkSub | VBlkSleep | VBlkLock | VBlkAgain | VPollUnlock true | VBlkAdd _) => fiber_poll_events_blocking_ev t s pc
  | CGo, VSleepCheck f sec usec => fiber_sleep_ev f sec usec s pc
  | CGo, (VLock _ _ | VStart _ _ | VMaintain) => start_watcher t s pc
  | _, _ => None
  end.

Definition ev_conf := conf ev_shared ev_pc.
Definition ev_step (kthreads : Z) := conf_step (ev_tstep kthreads).

(** After [fiber_event_init]: [fibers] fibers, all running, and [n] threads. *)
Definition ev_started (kthreads : Z) (fibers n : nat) : ev_conf :=
  Conf (EvShared (Some ev_loop_new) None 0 kthreads ∅ (set_seq 0 fibers) []) (replicate n VIdle).

(** The event system is initialised once. *)
Definition ev_step1 (kthreads : Z) (lbl : nat * ev_choice) (c : ev_conf) : option (ev_conf * list ev_ev) :=
  match lbl.2 with CInit => None | _ => ev_step kthreads lbl c end.

(** ** Specification *)

(** The sleeping fibers, and the wake-ups of the poll under way: a fiber is woken
    only when it sleeps, and once; a poll counts its own wake-ups. *)
Definition ev_spec (e : ev_ev) (a : gset nat * Z) : option (gset nat * Z) :=
  match e with
  | EvAsleep f => if decide (f ∈ a.1) then None else Some ({[f]} ∪ a.1, a.2)
  | EvWoken f => if decide (f ∈ a.1) then Some (a.1 ∖ {[f]}, a.2 + 1) else None
  | EvPolls _ => Some (a.1, 0)
  | EvPolled _ n => if decide (n = a.2) then Some a else None
  | EvReturn _ _ => Some a
  end.

(** ** Invariant *)

Definition v_locked (pc : ev_pc) : bool :=
  match pc with
  | VInitCount | VInitLoop | VShutDestroy | VUnlock | VPollAgain | VBlkAgain | VRun _ | VCallbacks _ _ | VPollUnlock _
  | VStart _ _ | VMaintain => true
  | _ => false
  end.

(** Between the decrement and the increment of [active_threads]. *)
Definition v_blocking (pc : ev_pc) : nat :=
  match pc with
  | VBlkSleep | VBlkLock | VBlkAgain | VRun true | VCallbacks true _ | VPollUnlock true | VBlkAdd _ => 1
  | _ => 0
  end.

Definition v_fiber (pc : ev_pc) : option nat :=
  match pc with VSleepCheck f _ _ | VLock f _ | VStart f _ => Some f | _ => None end.

Definition v_init (pc : ev_pc) : bool := match pc with VInitLock | VInitCount | VInitLoop => true | _ => false end.

(** Where the fibers are. *)
Definition ev_places (s : ev_shared) (ths : list ev_pc) : list nat :=
  elements (dom (ev_watchers s)) ++ elements (ev_running s) ++ ev_ready s ++ omap v_fiber ths.

Definition ev_ok (nf : nat) (s : ev_shared) (cnt : Z) (pc : ev_pc) : Prop :=
  match pc with
  | VRun _ => is_Some (fiber_loop s) /\ num_events_triggered s = 0 /\ cnt = 0
  | VCallbacks _ fired =>
      is_Some (fiber_loop s) /\ NoDup fired /\ (forall f, f ∈ fired -> f ∈ dom (ev_watchers s)) /\
      num_events_triggered s = cnt /\ 0 <= cnt /\ cnt + Z.of_nat (length fired) <= Z.of_nat nf
  | VPollUnlock _ => num_events_triggered s = cnt
  | _ => v_init pc = false
  end.

Record ev_rel (kthreads : Z) (nf : nat) (c : ev_conf) (a : gset nat * Z) : Prop := {
  er_lock : forall t pc, threads c !! t = Some pc -> v_locked pc = true <-> loop_lock (shared c) = Some t;
  er_sleep : a.1 = dom (ev_watchers (shared c));
  er_active : forall l, fiber_loop (shared c) = Some l -> ev_active l = a.1;
  er_count : active_threads (shared c) + Z.of_nat (sum_list_with v_blocking (threads c)) = kthreads;
  er_nd : NoDup (ev_places (shared c) (threads c));
  er_below : forall f, f ∈ ev_places (shared c) (threads c) -> (f < nf)%nat;
  er_ok : forall t pc, threads c !! t = Some pc -> ev_ok nf (shared c) a.2 pc
}.
(** ** Preservation *)

Section ev_proof.
Variables (kthreads : Z) (nf : nat).
Hypothesis Hnf : Z.of_nat nf < 2 ^ 31.
Hypothesis Hk : kthreads < 2 ^ 31.

(** The lock is kept, taken or released. *)
Definition v_lock_moves (t : nat) (pc pc' : ev_pc) (l l' : option nat) : Prop :=
  (v_locked pc = v_locked pc' /\ l' = l) \/
  (v_locked pc = false /\ v_locked pc' = true /\ l = None /\ l' = Some t) \/
  (v_locked pc = true /\ v_locked pc' = false /\ l' = None).

Lemma ev_rel_step c a t pc s' pc' a' : ev_rel kthreads nf c a -> threads c !! t = Some pc ->
  v_lock_moves t pc pc' (loop_lock (shared c)) (loop_lock s') ->
  a'.1 = dom (ev_watchers s') -> (forall l, fiber_loop s' = Some l -> ev_active l = a'.1) ->
  active_threads s' + Z.of_nat (v_blocking pc') = active_threads (shared c) + Z.of_nat (v_blocking pc) ->
  ev_places s' (<[t:=pc']> (threads c)) ≡ₚ ev_places (shared c) (threads c) ->
  ev_ok nf s' a'.2 pc' ->
  (v_locked pc = true \/ v_locked pc' = true \/
   (fiber_loop s' = fiber_loop (shared c) /\ ev_watchers s' = ev_watchers (shared c) /\
    num_events_triggered s' = num_events_triggered (shared c) /\ a'.2 = a.2)) ->
  ev_rel kthreads nf (Conf s' (<[t:=pc']> (threads c))) a'.
Proof.
  intros HR Ht Hlk Hs Hac Hct Hpl Hok Hoth. pose proof (er_lock _ _ _ _ HR _ _ Ht) as Hmt.
  split; cbn [shared threads]; auto; rewrite ?Hpl; try apply HR.
  - intros i x Hi. apply lookup_insert_cases in Hi as [(-> & ->)|(Hne & Hi)].
    + destruct Hlk as [(<- & ->)|[(E & -> & E0 & ->)|(E & -> & ->)]]; [done|done|by split].
    + pose proof (er_lock _ _ _ _ HR _ _ Hi) as Hmi. destruct Hlk as [(_ & ->)|[(E & E' & E0 & ->)|(E & E' & ->)]]; [done| |].
      * rewrite E0 in Hmi. split; [intros Hx; by apply Hmi in Hx|congruence].
      * split; [intros Hx; apply Hmi in Hx; apply Hmt in E; congruence|done].
  - pose proof (sum_list_with_insert v_blocking _ _ _ pc' Ht). pose proof (er_count _ _ _ _ HR). lia.
  - intros f. rewrite Hpl. apply HR.
  - intros i x Hi. apply lookup_insert_cases in Hi as [(-> & ->)|(Hne & Hi)]; [done|].
    pose proof (er_ok _ _ _ _ HR _ _ Hi) as Hox. pose proof (er_lock _ _ _ _ HR _ _ Hi) as Hmi.
    assert (v_locked x = true -> fiber_loop s' = fiber_loop (shared c) /\ ev_watchers s' = ev_watchers (shared c) /\
      num_events_triggered s' = num_events_triggered (shared c) /\ a'.2 = a.2) as Hsame.
    { intros Hx. apply Hmi in Hx. destruct Hoth as [E|[E|E]]; [apply Hmt in E; congruence| |done].
      destruct Hlk as [(E1 & _)|[(_ & _ & E0 & _)|(_ & E1 & _)]]; [|congruence|congruence]. rewrite <- E1 in E. apply Hmt in E. congruence. }
    destruct x; simpl in *; try done; destruct (Hsame eq_refl) as (E1 & E2 & E3 & E4); by rewrite ?E1, ?E2, ?E3, ?E4.
Qed.

(** A step that moves the lock, the program point or the count of threads. *)
Lemma ev_local c a t pc s' pc' : ev_rel kthreads nf c a -> threads c !! t = Some pc ->
  v_lock_moves t pc pc' (loop_lock (shared c)) (loop_lock s') ->
  fiber_loop s' = fiber_loop (shared c) -> ev_watchers s' = ev_watchers (shared c) -> ev_running s' = ev_running (shared c) ->
  ev_ready s' = ev_ready (shared c) -> num_events_triggered s' = num_events_triggered (shared c) ->
  active_threads s' + Z.of_nat (v_blocking pc') = active_threads (shared c) + Z.of_nat (v_blocking pc) ->
  v_fiber pc' = v_fiber pc -> ev_ok nf s' a.2 pc' -> ev_rel kthreads nf (Conf s' (<[t:=pc']> (threads c))) a.
Proof.
  intros HR Ht Hlk E1 E2 E3 E4 E5 Hct Hf Hok.
  eapply ev_rel_step; [exact HR|exact Ht|exact Hlk|rewrite E2; apply HR|rewrite E1; apply HR|exact Hct| |exact Hok|by right; right].
  unfold ev_places. rewrite E2, E3, E4. by rewrite (omap_insert_same v_fiber _ _ _ pc' Ht Hf).
Qed.

Lemma lock_inv t (s s' : ev_shared) : lock t s = Some s' -> loop_lock s = None /\ s' = set_lock s (Some t).
Proof. unfold lock. case_decide; [|done]. by intros [= <-]. Qed.
Lemma unlock_inv t (s s' : ev_shared) : unlock t s = Some s' -> loop_lock s = Some t /\ s' = set_lock s None.
Proof. unfold unlock. case_decide; [|done]. by intros [= <-]. Qed.

(** The fibers fit in an [int]. *)
Lemma ev_asleep_few c a (fired : list nat) : ev_rel kthreads nf c a -> NoDup fired -> (forall f, f ∈ fired -> f ∈ dom (ev_watchers (shared c))) ->
  (length fired <= nf)%nat.
Proof.
  intros HR Hnd Hin. rewrite <- (size_list_to_set (C := gset nat) fired) by done.
  etrans; [apply (subseteq_size _ (set_seq 0 nf : gset nat))|by rewrite size_set_seq].
  intros f Hf%elem_of_list_to_set%Hin. apply elem_of_set_seq. split; [lia|]. apply (er_below _ _ _ _ HR).
  unfold ev_places. rewrite elem_of_app. left. by apply elem_of_elements.
Qed.

Lemma ev_callback_step c a t blk f fired s' pc' evs : ev_rel kthreads nf c a -> threads c !! t = Some (VCallbacks blk (f :: fired)) ->
  run_callback (shared c) blk (f :: fired) = Some (s', pc', evs) ->
  exists a', spec_run ev_spec evs a = Some a' /\ ev_rel kthreads nf (Conf s' (<[t:=pc']> (threads c))) a'.
Proof using Hnf.
  intros HR Ht Hs. destruct (er_ok _ _ _ _ HR _ _ Ht) as ([l Hl] & Hnd & Hin & Hnum & H0 & Hle). simpl in Hle.
  apply NoDup_cons in Hnd as [Hfn Hnd]. pose proof (Hin f ltac:(left)) as Hfd. pose proof (er_sleep _ _ _ _ HR) as Hsl.
  cbn [run_callback] in Hs. apply elem_of_dom in Hfd as Hw. destruct Hw as [w Hw]. rewrite Hw in Hs. simpl in Hs.
  assert (match w with EvIo _ _ => fd_ready (shared c) f | EvTimer _ _ => timer_trigger (shared c) f end = fd_ready (shared c) f) as E by (by destruct w).
  rewrite E in Hs. unfold fd_ready in Hs. rewrite Hl in Hs. simpl in Hs. injection Hs as <- <- <-.
  exists (a.1 ∖ {[f]}, a.2 + 1). split; [simpl; by rewrite decide_True by (by rewrite Hsl)|].
  rewrite i32_small by lia. eapply ev_rel_step; [exact HR|exact Ht|by left|..]; simpl.
  - by rewrite dom_delete_L, Hsl.
  - intros l' [= <-]. rewrite ev_active_stop. by rewrite (er_active _ _ _ _ HR _ Hl).
  - by destruct blk.
  - unfold ev_places. cbn [ev_watchers ev_running ev_ready]. rewrite dom_delete_L, (omap_insert_same v_fiber _ _ _ (VCallbacks blk fired) Ht eq_refl).
    rewrite (elements_take _ _ Hfd). simpl. rewrite (Permutation_app_comm _ [f]). simpl. by rewrite <- !Permutation_middle.
  - split_and!; eauto; try lia. intros x Hx. rewrite dom_delete_L, elem_of_difference, elem_of_singleton.
    split; [apply Hin; by right|by intros ->].
  - auto.
Qed.

(** Closing the steps that [ev_local] covers. *)
Ltac ev_quiet HR Ht :=
  eapply ev_local; [exact HR|exact Ht|first [by left|by right; left|by right; right]|done..|simpl; lia|done|done].

Lemma ev_poll_step c a t pc s' pc' evs : ev_rel kthreads nf c a -> threads c !! t = Some pc -> (forall b, pc <> VRun b) ->
  fiber_poll_events_ev t (shared c) pc = Some (s', pc', evs) ->
  exists a', spec_run ev_spec evs a = Some a' /\ ev_rel kthreads nf (Conf s' (<[t:=pc']> (threads c))) a'.
Proof.
  intros HR Ht _ Hs. pose proof (er_ok _ _ _ _ HR _ _ Ht) as Hok. pose proof (er_lock _ _ _ _ HR _ _ Ht) as Hlk.
  destruct pc as [| | | | | | | | | | | | | | | | |[]| | | | |]; try discriminate Hs; cbn [fiber_poll_events_ev] in Hs; simpl in Hok, Hlk.
  - destruct (fiber_loop (shared c)) as [l|]; injection Hs as <- <- <-; exists a; (split; [done|]); ev_quiet HR Ht.
  - destruct (lock t (shared c)) as [s1|] eqn:E.
    + apply lock_inv in E as [E ->]. injection Hs as <- <- <-. exists a. split; [done|]. ev_quiet HR Ht.
    + injection Hs as <- <- <-. exists a. split; [done|]. ev_quiet HR Ht.
  - destruct (fiber_loop (shared c)) as [l|] eqn:El.
    + injection Hs as <- <- <-. exists (a.1, 0). split; [done|].
      eapply ev_rel_step; [exact HR|exact Ht|by left|apply HR|apply HR|simpl; lia| |simpl; eauto|by left].
      unfold ev_places. simpl. by rewrite (omap_insert_same v_fiber _ _ _ (VRun false) Ht eq_refl).
    + destruct (unlock t (shared c)) as [s1|] eqn:E; [|done]. apply unlock_inv in E as [E ->]. injection Hs as <- <- <-.
      exists a. split; [done|]. ev_quiet HR Ht.
  - destruct (unlock t (shared c)) as [s1|] eqn:E; [|done]. apply unlock_inv in E as [E ->]. injection Hs as <- <- <-.
    exists a. split; [simpl; by rewrite decide_True|]. ev_quiet HR Ht.
Qed.

Lemma ev_blocking_step c a t pc s' pc' evs : (length (threads c) <= Z.to_nat kthreads)%nat -> ev_rel kthreads nf c a -> threads c !! t = Some pc ->
  fiber_poll_events_blocking_ev t (shared c) pc = Some (s', pc', evs) ->
  exists a', spec_run ev_spec evs a = Some a' /\ ev_rel kthreads nf (Conf s' (<[t:=pc']> (threads c))) a'.
Proof using Hk.
  intros Hlen HR Ht Hs. pose proof (er_ok _ _ _ _ HR _ _ Ht) as Hok. pose proof (er_count _ _ _ _ HR) as Hct.
  assert (sum_list_with v_blocking (threads c) <= length (threads c))%nat as Hsum
    by (apply sum_list_with_le_length; intros []; simpl; try lia; by destruct blk; simpl; lia).
  assert (forall x, v_blocking pc = 1%nat -> 0 <= x < kthreads -> i32 (x + 1) = x + 1) as Hadd by (intros; apply i32_small; lia).
  pose proof (sum_list_with_lookup v_blocking _ _ _ Ht) as Hone. pose proof (lookup_lt_Some _ _ _ Ht) as Htl.
  destruct pc as [| | | | | | | | | | | | | | | | |[]| | | | |]; try discriminate Hs; cbn [fiber_poll_events_blocking_ev] in Hs; simpl in Hok, Hone.
  - destruct (fiber_loop (shared c)) as [l|]; injection Hs as <- <- <-; exists a; (split; [done|]); ev_quiet HR Ht.
  - rewrite i32_small in Hs by lia. destruct (Z.ltb_spec (active_threads (shared c) - 1) 0); [done|].
    destruct (Z.ltb_spec 0 (active_threads (shared c) - 1)); injection Hs as <- <- <-; exists a; (split; [done|]); ev_quiet HR Ht.
  - injection Hs as <- <- <-. rewrite Hadd by (done || lia). exists a. split; [done|]. ev_quiet HR Ht.
  - destruct (lock t (shared c)) as [s1|] eqn:E; [|done]. apply lock_inv in E as [E ->]. injection Hs as <- <- <-.
    exists a. split; [done|]. ev_quiet HR Ht.
  - destruct (fiber_loop (shared c)) as [l|] eqn:El.
    + injection Hs as <- <- <-. exists (a.1, 0). split; [done|].
      eapply ev_rel_step; [exact HR|exact Ht|by left|apply HR|apply HR|simpl; lia| |simpl; eauto|by left].
      unfold ev_places. simpl. by rewrite (omap_insert_same v_fiber _ _ _ (VRun true) Ht eq_refl).
    + destruct (unlock t _) as [s1|] eqn:E; [|done]. apply unlock_inv in E as [E ->]. injection Hs as <- <- <-.
      rewrite Hadd by (done || lia). exists a. split; [done|]. ev_quiet HR Ht.
  - destruct (unlock t (shared c)) as [s1|] eqn:E; [|done]. apply unlock_inv in E as [E ->]. injection Hs as <- <- <-.
    exists a. split; [simpl; by rewrite decide_True|]. ev_quiet HR Ht.
  - injection Hs as <- <- <-. rewrite Hadd by (done || lia). exists a. split; [done|]. ev_quiet HR Ht.
Qed.

Lemma ev_watcher_step c a t pc s' pc' evs : ev_rel kthreads nf c a -> threads c !! t = Some pc ->
  start_watcher t (shared c) pc = Some (s', pc', evs) ->
  exists a', spec_run ev_spec evs a = Some a' /\ ev_rel kthreads nf (Conf s' (<[t:=pc']> (threads c))) a'.
Proof.
  intros HR Ht Hs. destruct pc as [| | | | | | | | | | | | | | | | | | | |f w|f w|]; try discriminate Hs; cbn [start_watcher] in Hs.
  - destruct (lock t (shared c)) as [s1|] eqn:E; [|done]. apply lock_inv in E as [E ->]. injection Hs as <- <- <-.
    exists a. split; [done|]. ev_quiet HR Ht.
  - destruct (fiber_loop (shared c)) as [l|] eqn:El; [|done]. simpl in Hs. injection Hs as <- <- <-.
    pose proof (er_sleep _ _ _ _ HR) as Hsl. pose proof (er_nd _ _ _ _ HR) as Hnd. unfold ev_places in Hnd.
    assert (f ∈ omap v_fiber (threads c)) as Hin by (apply list_elem_of_omap; eexists; by split; [eapply list_elem_of_lookup_2|]).
    apply NoDup_app in Hnd as (_ & Hd & _).
    assert (f ∉ dom (ev_watchers (shared c))) as Hfn by (intros Hf%elem_of_elements; apply (Hd f Hf); rewrite !elem_of_app; auto).
    exists ({[f]} ∪ a.1, a.2). split; [simpl; by rewrite decide_False by (by rewrite Hsl)|].
    eapply ev_rel_step; [exact HR|exact Ht|by left|..]; simpl; try done.
    + by rewrite dom_insert_L, Hsl.
    + intros l' [= <-]. rewrite ev_active_start. by rewrite (er_active _ _ _ _ HR _ El).
    + unfold ev_places. cbn [ev_watchers ev_running ev_ready]. rewrite dom_insert_L, elements_union_singleton by done.
      rewrite (omap_insert_del v_fiber _ _ _ VMaintain f Ht eq_refl eq_refl). simpl. by rewrite <- !Permutation_middle.
    + by left.
  - destruct (unlock t (shared c)) as [s1|] eqn:E; [|done]. apply unlock_inv in E as [E ->]. injection Hs as <- <- <-.
    exists a. split; [done|]. ev_quiet HR Ht.
Qed.

(** A running fiber enters a wait, and a ready fiber, or one that has slept
    without the loop, runs again. *)
Lemma ev_enter c a t f pc' : ev_rel kthreads nf c a -> threads c !! t = Some VIdle -> f ∈ ev_running (shared c) ->
  v_fiber pc' = Some f -> v_locked pc' = false -> v_blocking pc' = 0%nat -> ev_ok nf (shared c) a.2 pc' -> v_init pc' = false ->
  (forall s', ev_ok nf s' a.2 pc') ->
  ev_rel kthreads nf (Conf (EvShared (fiber_loop (shared c)) (loop_lock (shared c)) (num_events_triggered (shared c)) (active_threads (shared c))
    (ev_watchers (shared c)) (ev_running (shared c) ∖ {[f]}) (ev_ready (shared c))) (<[t:=pc']> (threads c))) a.
Proof.
  intros HR Ht Hf Hp Hl Hb _ _ Hok. eapply ev_rel_step; [exact HR|exact Ht|left; split; [by rewrite Hl|done]|apply HR|apply HR| | |apply Hok|by right; right].
  - simpl. lia.
  - unfold ev_places. cbn [ev_watchers ev_running ev_ready]. rewrite (omap_insert_add v_fiber _ _ _ pc' f Ht eq_refl Hp).
    rewrite (elements_take _ _ Hf). simpl. by rewrite <- !Permutation_middle.
Qed.

Lemma ev_resumed c a t pc f r : ev_rel kthreads nf c a -> threads c !! t = Some pc -> v_locked pc = false -> v_blocking pc = 0%nat ->
  (ev_ready (shared c) = f :: r /\ v_fiber pc = None \/ ev_ready (shared c) = r /\ v_fiber pc = Some f) ->
  ev_rel kthreads nf (Conf (EvShared (fiber_loop (shared c)) (loop_lock (shared c)) (num_events_triggered (shared c)) (active_threads (shared c))
    (ev_watchers (shared c)) ({[f]} ∪ ev_running (shared c)) r) (<[t:=VIdle]> (threads c))) a.
Proof.
  intros HR Ht Hl Hb Hc. assert (ev_places (shared c) (threads c) ≡ₚ
    f :: elements (dom (ev_watchers (shared c))) ++ elements (ev_running (shared c)) ++ r ++ omap v_fiber (<[t:=VIdle]> (threads c))) as Hp.
  { unfold ev_places. destruct Hc as [(-> & E)|(-> & E)].
    - rewrite (omap_insert_same v_fiber _ _ _ VIdle Ht) by done. simpl. by rewrite <- !Permutation_middle.
    - rewrite (omap_insert_del v_fiber _ _ _ VIdle f Ht E eq_refl). by rewrite <- !Permutation_middle. }
  pose proof (er_nd _ _ _ _ HR) as Hnd. rewrite Hp in Hnd. apply NoDup_cons in Hnd as [Hout _].
  eapply ev_rel_step; [exact HR|exact Ht|left; split; [by rewrite Hl|done]|apply HR|apply HR|simpl; lia| |done|by right; right].
  rewrite Hp. unfold ev_places. cbn [ev_watchers ev_running ev_ready].
  rewrite elements_union_singleton by set_solver. simpl. by rewrite <- !Permutation_middle.
Qed.

Lemma ev_run_step c a t blk fired s' pc' evs : ev_rel kthreads nf c a -> threads c !! t = Some (VRun blk) ->
  ev_run (shared c) blk fired = Some (s', pc', evs) ->
  evs = [] /\ ev_rel kthreads nf (Conf s' (<[t:=pc']> (threads c))) a.
Proof.
  intros HR Ht Hs. destruct (er_ok _ _ _ _ HR _ _ Ht) as ([l Hl] & Hn & H0). unfold ev_run in Hs. rewrite Hl in Hs. simpl in Hs.
  case_decide as Hd; [|done]. destruct Hd as [Hnd Hall]. injection Hs as <- <- <-. split; [done|].
  rewrite (er_active _ _ _ _ HR _ Hl), (er_sleep _ _ _ _ HR), Forall_forall in Hall.
  pose proof (ev_asleep_few c a fired HR Hnd Hall).
  eapply ev_local; [exact HR|exact Ht|by left|done..|by destruct blk|done|]. simpl. split_and!; eauto; lia.
Qed.

Lemma ev_simulation lbl c c' evs a : (length (threads c) <= Z.to_nat kthreads)%nat -> ev_rel kthreads nf c a ->
  ev_step1 kthreads lbl c = Some (c', evs) ->
  exists a', spec_run ev_spec evs a = Some a' /\ ev_rel kthreads nf c' a'.
Proof using Hk Hnf.
  destruct lbl as [t ch]. intros Hlen HR Hstep. unfold ev_step1 in Hstep. cbn [snd] in Hstep.
  assert (ch <> CInit /\ ev_step kthreads (t, ch) c = Some (c', evs)) as [Hni Hst] by (by destruct ch). clear Hstep.
  apply conf_step_inv in Hst as (pc & s' & pc' & Ht & Hs & ->). pose proof (er_ok _ _ _ _ HR _ _ Ht) as Hok.
  destruct ch as [| | | |f fd ev|f sec usec| |fired|]; try done.
  - destruct pc; try discriminate Hs. injection Hs as <- <- <-. exists a. split; [done|]. ev_quiet HR Ht.
  - destruct pc; try discriminate Hs. injection Hs as <- <- <-. exists a. split; [done|]. ev_quiet HR Ht.
  - destruct pc; try discriminate Hs. injection Hs as <- <- <-. exists a. split; [done|]. ev_quiet HR Ht.
  - destruct pc; try discriminate Hs. cbn [ev_tstep] in Hs. unfold fiber_wait_for_event_ev in Hs. case_decide; [|done]. injection Hs as <- <- <-.
    exists a. split; [done|]. by apply ev_enter.
  - destruct pc; try discriminate Hs. cbn [ev_tstep fiber_sleep_ev] in Hs. case_decide; [|done]. injection Hs as <- <- <-.
    exists a. split; [done|]. by apply ev_enter.
  - destruct pc; try discriminate Hs. cbn [ev_tstep] in Hs. unfold resume in Hs. destruct (ev_ready (shared c)) as [|f r] eqn:E; [done|].
    injection Hs as <- <- <-. exists a. split; [done|]. eapply ev_resumed; eauto.
  - destruct pc; try discriminate Hs. cbn [ev_tstep] in Hs. destruct (ev_run_step _ _ _ _ _ _ _ _ HR Ht Hs) as [-> Hrel]. by exists a.
  - destruct pc as [| | | | | | | | | | | | | | |blk|blk fired|[]|r|f sec usec|f w|f w|]; try discriminate Hs; cbn [ev_tstep] in Hs; try discriminate Hok;
      try (by eapply ev_poll_step); try (by eapply ev_blocking_step); try (by eapply ev_watcher_step).
    + cbn [fiber_event_shutdown_ev] in Hs. destruct (lock t (shared c)) as [s1|] eqn:E; [|done]. apply lock_inv in E as [E ->]. injection Hs as <- <- <-.
      exists a. split; [done|]. ev_quiet HR Ht.
    + injection Hs as <- <- <-. exists a. split; [done|].
      eapply ev_rel_step; [exact HR|exact Ht|by left|apply HR|done|simpl; lia| |done|by left].
      unfold ev_places. simpl. by rewrite (omap_insert_same v_fiber _ _ _ VUnlock Ht eq_refl).
    + destruct (unlock t (shared c)) as [s1|] eqn:E; [|done]. apply unlock_inv in E as [E ->]. injection Hs as <- <- <-.
      exists a. split; [done|]. ev_quiet HR Ht.
    + destruct fired as [|f fired]; [|by eapply ev_callback_step]. injection Hs as <- <- <-. exists a. split; [done|].
      destruct Hok as (_ & _ & _ & Hn & _). eapply ev_local; [exact HR|exact Ht|by left|done..|by destruct blk|done|done].
    + cbn [fiber_sleep_ev] in Hs. destruct (fiber_loop (shared c)) as [l|] eqn:El; injection Hs as <- <- <-; exists a; (split; [done|]).
      * ev_quiet HR Ht.
      * rewrite <- El. eapply ev_resumed; eauto.
Qed.

Lemma ev_started_rel n : ev_rel kthreads nf (ev_started kthreads nf n) (∅, 0).
Proof.
  assert (ev_places (shared (ev_started kthreads nf n)) (threads (ev_started kthreads nf n)) = elements (set_seq 0 nf : gset nat)) as Hp.
  { unfold ev_places. simpl. rewrite dom_empty_L, elements_empty, (omap_replicate_None v_fiber n VIdle eq_refl). simpl. by rewrite app_nil_r. }
  split; rewrite ?Hp; simpl.
  - by intros t pc [-> _]%lookup_replicate.
  - by rewrite dom_empty_L.
  - intros l [= <-]. apply ev_active_new.
  - assert (forall k, sum_list_with v_blocking (replicate k VIdle) = 0%nat) as -> by (intros k; induction k; done). lia.
  - apply NoDup_elements.
  - intros f Hf%elem_of_elements%elem_of_set_seq. lia.
  - by intros t pc [-> _]%lookup_replicate.
Qed.

Lemma ev_step1_length lbl c c' evs : ev_step1 kthreads lbl c = Some (c', evs) -> length (threads c') = length (threads c).
Proof. unfold ev_step1. intros Hs. destruct lbl as [t ch]. simpl in Hs. destruct ch; try done; by eapply conf_step_length. Qed.

Lemma ev_run_rel n ls c evs : (n <= Z.to_nat kthreads)%nat -> run (ev_step1 kthreads) ls (ev_started kthreads nf n) = Some (c, evs) ->
  exists a, spec_run ev_spec evs (∅, 0) = Some a /\ ev_rel kthreads nf c a /\ length (threads c) = n.
Proof using Hk Hnf.
  intros Hn Hrun.
  destruct (run_simulation (ev_step1 kthreads) ev_spec (Z.of_nat (length ls) + 1) (fun _ c a => ev_rel kthreads nf c a /\ length (threads c) = n))
    with (ls := ls) (n := 0) (s := ev_started kthreads nf n) (s' := c) (evs := evs) (a := (∅ : gset nat, 0))
    as (a & Ha & HR); eauto.
  - intros k l s1 s2 e a _ [HR Hl] Hs. destruct (ev_simulation l s1 s2 e a) as (a' & ? & ?); [by rewrite Hl|done|done|].
    exists a'. split; [done|]. split; [done|]. by rewrite (ev_step1_length _ _ _ _ Hs).
  - lia.
  - split; [apply ev_started_rel|simpl; by rewrite length_replicate].
Qed.
End ev_proof.

(** ** Properties *)

(** Wake-ups are exact.  In every interleaving of waits, sleeps, polls of both
    kinds and a shutdown, by at most as many threads as the module was told of, a
    fiber is woken only while it sleeps and once per sleep, every poll returns the
    number of fibers it has woken itself, and the sleeping fibers are exactly
    those with an active watcher, as long as there is a loop. *)
Theorem ev_wakes_exactly kthreads nf n ls c evs : Z.of_nat nf < 2 ^ 31 -> kthreads < 2 ^ 31 -> (n <= Z.to_nat kthreads)%nat ->
  run (ev_step1 kthreads) ls (ev_started kthreads nf n) = Some (c, evs) ->
  exists sleeping count, spec_run ev_spec evs (∅, 0) = Some (sleeping, count) /\ sleeping = dom (ev_watchers (shared c)) /\
    forall l, fiber_loop (shared c) = Some l -> ev_active l = sleeping.
Proof.
  intros Hnf Hk Hn Hrun. destruct (ev_run_rel kthreads nf Hnf Hk n ls c evs Hn Hrun) as ([sl cnt] & Ha & HR & _). exists sl, cnt.
  split; [done|]. split; [apply HR|]. apply (er_active _ _ _ _ HR).
Qed.

(** C37: The assertion of the blocking poll holds: when a thread is about to
    decrement [active_threads], the result is not negative, and the counter is
    always the number of threads minus those inside a blocking poll. *)
Theorem ev_active_threads_bounds kthreads nf n ls c evs : Z.of_nat nf < 2 ^ 31 -> kthreads < 2 ^ 31 -> (n <= Z.to_nat kthreads)%nat ->
  run (ev_step1 kthreads) ls (ev_started kthreads nf n) = Some (c, evs) ->
  active_threads (shared c) = kthreads - Z.of_nat (sum_list_with v_blocking (threads c)) /\
  forall t, threads c !! t = Some VBlkSub -> exists c', ev_step1 kthreads (t, CGo) c = Some (c', []).
Proof.
  intros Hnf Hk Hn Hrun. destruct (ev_run_rel kthreads nf Hnf Hk n ls c evs Hn Hrun) as (a & Ha & HR & Hlen).
  pose proof (er_count _ _ _ _ HR) as Hct. split; [lia|]. intros t Ht.
  assert (sum_list_with v_blocking (<[t:=VBlkSleep]> (threads c)) <= length (<[t:=VBlkSleep]> (threads c)))%nat as Hsum
    by (apply sum_list_with_le_length; intros []; simpl; try lia; by destruct blk; simpl; lia).
  rewrite length_insert in Hsum. pose proof (sum_list_with_insert v_blocking _ _ _ VBlkSleep Ht) as Hins. simpl in Hins.
  unfold ev_step1, ev_step, conf_step. cbn [fst snd]. rewrite Ht. cbn. pose proof (lookup_lt_Some _ _ _ Ht).
  rewrite i32_small by lia. rewrite (proj2 (Z.ltb_ge _ _)) by lia. destruct (Z.ltb _ _); simpl; eauto.
Qed.

End ev.

(** ** An implementation of the interface, and runs *)

#[export] Instance ev_table : LibEv (gmap nat watcher).
Proof.
  refine {| ev_loop_new := ∅; ev_start f w l := <[f:=w]> l; ev_stop f l := delete f l; ev_active l := dom l |}.
  - by rewrite dom_empty_L.
  - intros. by rewrite dom_insert_L.
  - intros. by rewrite dom_delete_L.
Defined.

Definition vgo (t k : nat) : list (nat * ev_choice) := replicate k (t, CGo).

(** Two fibers go to sleep; thread 1 sleeps in a blocking poll, thread 0, the last
    active one, runs the loop and wakes one of them. *)
Definition ev_demo : list (nat * ev_choice) :=
  [(0%nat, CWait 2 5 FIBER_POLL_IN)] ++ vgo 0 3 ++ [(0%nat, CSleep 1 3 0)] ++ vgo 0 4 ++
  [(1%nat, CPollBlocking)] ++ vgo 1 2 ++ [(0%nat, CPollBlocking)] ++ vgo 0 4 ++ [(0%nat, CFire [2%nat])].
Definition ev_demo_end : list (nat * ev_choice) := vgo 0 4 ++ vgo 1 1 ++ [(0%nat, CResume)].

Lemma ev_wakes_exactly_witness : exists sleeping count,
  spec_run ev_spec [EvAsleep 2; EvAsleep 1; EvPolls 0; EvWoken 2; EvPolled 0 1; EvReturn 0 1; EvReturn 1 0] (∅, 0) = Some (sleeping, count).
Proof.
  edestruct (ev_wakes_exactly 2 3 2 (ev_demo ++ ev_demo_end)) as (sl & cnt & Hs & _);
    [vm_compute; reflexivity|vm_compute; reflexivity|vm_compute; lia|vm_compute; reflexivity|]. by exists sl, cnt.
Defined.

Lemma ev_active_threads_bounds_witness : exists c : ev_conf (L := gmap nat watcher),
  run (ev_step1 2) ev_demo (ev_started 2 3 2) = Some (c, [EvAsleep 2; EvAsleep 1; EvPolls 0]) /\
  active_threads (shared c) = 2 - Z.of_nat (sum_list_with v_blocking (threads c)).
Proof.
  eexists. split; [vm_compute; reflexivity|].
  refine (proj1 (ev_active_threads_bounds 2 3 2 ev_demo _ [EvAsleep 2; EvAsleep 1; EvPolls 0] _ _ _ _));
    [vm_compute; reflexivity|vm_compute; reflexivity|vm_compute; lia|vm_compute; reflexivity].
Defined.

(** A blocking poll does lock out other threads.  The poll is meant for the
    last active thread, but a thread that slept counts itself active again while
    the poll is still blocked: here thread 1 is back, runs a fiber, and cannot
    register its wait, since the lock is held until the loop returns. *)
Theorem ev_blocking_locks_out : exists (c : ev_conf (L := gmap nat watcher)) ls evs,
  run (ev_step1 2) ls (ev_started 2 3 2) = Some (c, evs) /\
  threads c = [VRun true; VLock 0 (EvIo 6 EV_READ)] /\ active_threads (shared c) = 1 /\ ev_step1 2 (1%nat, CGo) c = None.
Proof.
  eexists _, ([(1%nat, CPollBlocking)] ++ vgo 1 2 ++ [(0%nat, CPollBlocking)] ++ vgo 0 4 ++ vgo 1 1 ++ [(1%nat, CWait 0 6 FIBER_POLL_IN)]), _.
  split; [vm_compute; reflexivity|]. split; [reflexivity|]. split; [reflexivity|]. vm_compute. reflexivity.
Qed.
