(* ===== verification/Io.v ===== *)
(** * The system call shims ([src/fiber_io.c])

    The library replaces the blocking calls of the C library: a descriptor it
    created is put in non-blocking mode, and a call that would block suspends the
    calling fiber instead of its thread.  A shim is a computation over the
    module's variables; what the kernel and the other fibers do is a list of
    answers consumed in order: a system call returns a value, and a fiber that
    was suspended finds the variables as the others left them, possibly on
    another thread.  A failed assertion, a call through a NULL function pointer
    and an access outside the table of descriptors are [Crash]. *)

From S2P Require Import Prelude MpscFifo SchedulerWsd Event.

(** ** Constants (Linux) *)

Definition IO_FLAG_BLOCKING : Z := 1.
Definition IO_FLAG_WAITABLE : Z := 2.
Definition EAGAIN : Z := 11.
Definition EWOULDBLOCK : Z := 11.
Definition EINVAL : Z := 22.
Definition EINPROGRESS : Z := 115.
Definition F_SETFL : Z := 4.
Definition O_NONBLOCK : Z := 2048.
Definition O_NDELAY : Z := 2048.
Definition MSG_DONTWAIT : Z := 64.
Definition FIONBIO : Z := 21537.

(** ** State *)

(** The functions of the C library that the module looks up. *)
Inductive shim :=
| sh_pipe | sh_read | sh_readv | sh_write | sh_writev | sh_socket | sh_socketpair
| sh_connect | sh_accept | sh_send | sh_sendto | sh_sendmsg | sh_recv | sh_recvfrom
| sh_recvmsg | sh_close | sh_fcntl | sh_ioctl | sh_sleep | sh_usleep | sh_nanosleep.

#[global] Instance shim_eq_dec : EqDecision shim.
Proof. solve_decision. Defined.

(** The static variables of the module, the thread-local ones of the current
    thread ([thread_locked], [errno], whether it has a manager) and the state of
    the event system. *)
Record io_state := IoState {
  fd_info : option (list Z);            (* flags_; None: NULL *)
  max_fd : Z;
  fibershim : list shim;                (* the pointers that are not NULL *)
  thread_locked : Z;
  errno : Z;
  has_manager : bool;
  ev : ev_state
}.

(** What the outside does next. *)
Inductive answer :=
| Sys (ret err : Z) (out : list Z)      (* a system call returns, with its out parameters *)
| Resume (s : io_state).                (* the suspended fiber runs again *)

Inductive action :=
| ACall (f : shim) (args : list Z)
| ASetsockopt (fd : Z)
| AGetsockopt (fd : Z)
| AWait (fd events : Z)
| AFiberSleep (seconds useconds : Z)
| ARealSleep (seconds useconds : Z)
| AFdClosed (fd : Z).

Record world := World { io : io_state; answers : list answer; trace : list action }.

(** ** The monad of the shims *)

Inductive outcome (A : Type) :=
| Done (a : A) (w : world)
| Crash
| NoAnswer.
Arguments Done {A} a w.
Arguments Crash {A}.
Arguments NoAnswer {A}.

Definition IO (A : Type) : Type := world -> outcome A.

#[global] Instance io_ret : MRet IO := fun A a w => Done a w.
#[global] Instance io_bind : MBind IO := fun A B k m w =>
  match m w with Done a w' => k a w' | Crash => Crash | NoAnswer => NoAnswer end.

Definition crash {A} : IO A := fun _ => Crash.
Definition get : IO io_state := fun w => Done (io w) w.
Definition put (s : io_state) : IO unit := fun w => Done tt (World s (answers w) (trace w)).
Definition record_action (a : action) : IO unit :=
  fun w => Done tt (World (io w) (answers w) (trace w ++ [a])).
Definition assert_c (b : bool) : IO unit := if b then mret tt else crash.

(** A system call returns; [errno] is set when it failed. *)
Definition set_errno (s : io_state) (e : Z) : io_state :=
  IoState (fd_info s) (max_fd s) (fibershim s) (thread_locked s) e (has_manager s) (ev s).
Definition set_ev (s : io_state) (e : ev_state) : io_state :=
  IoState (fd_info s) (max_fd s) (fibershim s) (thread_locked s) (errno s) (has_manager s) e.
Definition set_fd_info (s : io_state) (t : option (list Z)) : io_state :=
  IoState t (max_fd s) (fibershim s) (thread_locked s) (errno s) (has_manager s) (ev s).
Definition set_shims (s : io_state) (l : list shim) : io_state :=
  IoState (fd_info s) (max_fd s) l (thread_locked s) (errno s) (has_manager s) (ev s).
Definition set_locked (s : io_state) (v : Z) : io_state :=
  IoState (fd_info s) (max_fd s) (fibershim s) v (errno s) (has_manager s) (ev s).

Definition sys (a : action) : IO (Z * list Z) := fun w =>
  match answers w with
  | Sys ret err out :: rest =>
      Done (ret, out) (World (if Z.ltb ret 0 then set_errno (io w) err else io w) rest (trace w ++ [a]))
  | _ => NoAnswer
  end.

(** The suspended fiber runs again. *)
Definition resume : IO unit := fun w =>
  match answers w with
  | Resume s :: rest => Done tt (World s rest (trace w))
  | _ => NoAnswer
  end.
Definition no_answer {A} : IO A := fun _ => NoAnswer.
(** The number of answers left, to bound a loop. *)
Definition answers_left : IO nat := fun w => Done (length (answers w)) w.

(** [if (!fibershim_f) fibershim_f = dlsym(...)]. *)
Definition resolve (f : shim) : IO unit :=
  s ← get;
  if bool_decide (f ∈ fibershim s) then mret tt else put (set_shims s (f :: fibershim s)).

(** A call through [fibershim_f]. *)
Definition call (f : shim) (args : list Z) : IO (Z * list Z) :=
  s ← get;
  if bool_decide (f ∈ fibershim s) then sys (ACall f args) else crash.

(** The accesses [fd_info[fd].flags_]. *)
Definition read_flags (fd : Z) : IO Z :=
  s ← get;
  match fd_info s with
  | Some t => if Z.ltb fd 0 then crash
              else match t !! Z.to_nat fd with Some v => mret v | None => crash end
  | None => crash
  end.
Definition write_flags (fd v : Z) : IO unit :=
  s ← get;
  match fd_info s with
  | Some t => if Z.ltb fd 0 || Z.leb (Z.of_nat (length t)) fd then crash
              else put (set_fd_info s (Some (<[Z.to_nat fd:=v]> t)))
  | None => crash
  end.
Definition atomic_fetch_or (fd m : Z) : IO unit := v ← read_flags fd; write_flags fd (u8 (Z.lor v m)).
Definition atomic_fetch_and (fd m : Z) : IO unit := v ← read_flags fd; write_flags fd (u8 (Z.land v m)).

(** The comparison [fd < max_fd] is unsigned. *)
Definition fd_in_table (s : io_state) (fd : Z) : bool := Z.ltb (u64 fd) (max_fd s).

Section shims.
(** The fiber that makes the calls. *)
Variable this_fiber : Z.

(** ** Calls of the event system *)

(** [fiber_wait_for_event]: its bounds are asserted; the fiber is suspended. *)
Definition wait_for_event (fd events : Z) : IO Z :=
  s ← get;
  if Z.ltb fd 0 then crash
  else match fiber_wait_for_event (ev s) this_fiber (Z.to_nat fd) events with
       | None => crash
       | Some e =>
           put (set_ev s e);; record_action (AWait fd events);; resume;;
           s' ← get;
           mret (fiber_wait_for_event_result (ev s') this_fiber)
       end.

Definition sleep_fiber (seconds useconds : Z) : IO unit :=
  s ← get;
  let seconds := u32 seconds in
  let useconds := u32 useconds in
  if event_open (ev s) then
    put (set_ev s (fiber_sleep (ev s) this_fiber seconds useconds));;
    record_action (AFiberSleep seconds useconds);;
    resume
  else record_action (ARealSleep seconds useconds).

Definition fd_closed (fd : Z) : IO unit :=
  s ← get;
  record_action (AFdClosed fd);;
  if event_open (ev s) then
    if Z.ltb fd 0 then crash
    else match fiber_fd_closed (ev s) (Z.to_nat fd) with
         | None => crash
         | Some e => put (set_ev s e)
         end
  else mret tt.

(** ** The shims *)

(** [fiber_io_init], with the hard limit [getrlimit] reports ([None]: it fails);
    an allocation is assumed to succeed. *)
Definition fiber_io_init (rlim_max : option nat) : IO Z :=
  s ← get;
  put (set_shims s ([sh_pipe; sh_read; sh_readv; sh_write; sh_writev; sh_socket; sh_socketpair;
    sh_connect; sh_accept; sh_send; sh_sendto; sh_sendmsg; sh_recv; sh_recvfrom; sh_recvmsg; sh_close]
    ++ fibershim s));;
  match fd_info s, rlim_max with
  | Some _, _ => mret FIBER_ERROR
  | None, None => mret FIBER_ERROR
  | None, Some n =>
      s ← get;
      put (IoState (Some (replicate n 0)) (Z.of_nat n) (fibershim s) (thread_locked s) (errno s) (has_manager s) (ev s));;
      mret FIBER_SUCCESS
  end.

Definition fiber_io_shutdown : IO unit := s ← get; put (set_fd_info s None).

Definition fiber_io_lock_thread : IO Z := s ← get; put (set_locked s 1);; mret FIBER_SUCCESS.
Definition fiber_io_unlock_thread : IO Z := s ← get; put (set_locked s 0);; mret FIBER_SUCCESS.

Definition should_block (fd : Z) : IO bool :=
  assert_c (Z.leb 0 fd);;
  s ← get;
  if negb (Z.eqb (thread_locked s) 0) then mret false
  else if bool_decide (fd_info s = None) then mret false
  else if fd_in_table s fd then
    v ← read_flags fd;
    mret (negb (Z.eqb (Z.land v (Z.lor IO_FLAG_BLOCKING IO_FLAG_WAITABLE)) 0))
  else mret false.

(** [... && should_block(fd)] after a test of the call's own flags. *)
Definition may_block (wait : bool) (fd : Z) : IO bool := if wait then should_block fd else mret false.

(** The flags of a descriptor the library manages: set, then checked. *)
Definition mark_managed (fd : Z) : IO unit :=
  s ← get;
  assert_c (fd_in_table s fd);;
  atomic_fetch_or fd (Z.lor IO_FLAG_BLOCKING IO_FLAG_WAITABLE);;
  v ← read_flags fd;
  assert_c (negb (Z.eqb (Z.land v IO_FLAG_BLOCKING) 0));;
  v ← read_flags fd;
  assert_c (negb (Z.eqb (Z.land v IO_FLAG_WAITABLE) 0)).

Definition setup_socket (sock : Z) : IO Z :=
  s ← get;
  if negb (Z.eqb (thread_locked s) 0) then mret 0
  else
    mark_managed sock;;
    resolve sh_fcntl;;
    r ← call sh_fcntl [sock; F_SETFL; O_NONBLOCK];
    if Z.ltb r.1 0 then mret r.1
    else r ← sys (ASetsockopt sock); mret r.1.

Definition close (fd : Z) : IO Z :=
  resolve sh_close;;
  fd_closed fd;;
  s ← get;
  (if negb (bool_decide (fd_info s = None)) && fd_in_table s fd then write_flags fd 0 else mret tt);;
  r ← call sh_close [fd];
  mret r.1.

Definition socket (domain type protocol : Z) : IO Z :=
  resolve sh_socket;;
  r ← call sh_socket [domain; type; protocol];
  let sock := r.1 in
  if Z.ltb sock 0 then mret sock
  else
    r ← setup_socket sock;
    if Z.ltb r 0 then close sock;; mret (-1) else mret sock.

Definition out_fd (out : list Z) (i : nat) : IO Z :=
  match out !! i with Some fd => mret fd | None => no_answer end.

(** Returns the result and the two descriptors. *)
Definition socketpair (domain type protocol : Z) : IO (Z * list Z) :=
  resolve sh_socketpair;;
  r ← call sh_socketpair [domain; type; protocol];
  if Z.eqb r.1 0 then
    sv0 ← out_fd r.2 0; sv1 ← out_fd r.2 1;
    a ← setup_socket sv0;
    failed ← (if negb (Z.eqb a 0) then mret true
              else b ← setup_socket sv1; mret (negb (Z.eqb b 0)));
    if (failed : bool) then close sv0;; close sv1;; mret (-1, r.2) else mret r
  else mret r.

Definition would_block (e : Z) : bool := Z.eqb e EWOULDBLOCK || Z.eqb e EAGAIN.

(** [ret < 0 && (errno == EWOULDBLOCK || errno == EAGAIN) && ... should_block(fd)] *)
Definition blocked (wait : bool) (fd ret : Z) : IO bool :=
  s ← get;
  if Z.ltb ret 0 && would_block (errno s) then may_block wait fd else mret false.

Definition accept (sockfd addr addrlen : Z) : IO Z :=
  resolve sh_accept;;
  r ← call sh_accept [sockfd; addr; addrlen];
  b ← blocked true sockfd r.1;
  w ← (if (b : bool) then wait_for_event sockfd FIBER_POLL_IN else mret FIBER_SUCCESS);
  if Z.eqb w 0 then mret (-1)
  else
    sock ← (if (b : bool) then r ← call sh_accept [sockfd; addr; addrlen]; mret r.1 else mret r.1);
    if Z.ltb 0 sock then
      r ← setup_socket sock;
      if Z.ltb r 0 then close sock;; mret (-1) else mret sock
    else mret sock.

(** The [do ... while] loop of [read], [readv], [recv], [recvfrom] and
    [recvmsg]; [ret] is an [int] there.  Every iteration uses an answer. *)
Fixpoint wait_then_call (fuel : nat) (wait : bool) (fd : Z) (f : shim) (args : list Z) : IO Z :=
  match fuel with
  | O => no_answer
  | S fuel =>
      b ← may_block wait fd;
      w ← (if (b : bool) then wait_for_event fd FIBER_POLL_IN else mret FIBER_SUCCESS);
      if Z.eqb w 0 then mret (-1)
      else
        r ← call f args;
        let ret := i32 r.1 in
        again ← blocked wait fd ret;
        if (again : bool) then wait_then_call fuel wait fd f args else mret ret
  end.

Definition reads (wait : bool) (fd : Z) (f : shim) (args : list Z) : IO Z :=
  n ← answers_left; wait_then_call (S n) wait fd f args.

Definition dontwait (flags : Z) : bool := negb (Z.eqb (Z.land flags MSG_DONTWAIT) 0).

Definition read (fd buf count : Z) : IO Z :=
  resolve sh_read;; reads true fd sh_read [fd; buf; count].
Definition readv (fd iov iovcnt : Z) : IO Z :=
  resolve sh_readv;; reads true fd sh_readv [fd; iov; iovcnt].
Definition recv (fd buf len flags : Z) : IO Z :=
  resolve sh_recv;; reads (negb (dontwait flags)) fd sh_recv [fd; buf; len; flags].
Definition recvfrom (sockfd buf len flags src_addr addrlen : Z) : IO Z :=
  resolve sh_recvfrom;;
  reads (negb (dontwait flags)) sockfd sh_recvfrom [sockfd; buf; len; flags; src_addr; addrlen].
Definition recvmsg (sockfd msg flags : Z) : IO Z :=
  resolve sh_recvmsg;; reads (negb (dontwait flags)) sockfd sh_recvmsg [sockfd; msg; flags].

(** The [while] loop of [write], [writev], [send], [sendto] and [sendmsg], after
    the first call returned [ret]; [conv] is the conversion to the type of
    [ret]. *)
Fixpoint wait_and_retry (fuel : nat) (conv : Z -> Z) (wait : bool) (fd : Z) (f : shim) (args : list Z)
    (ret : Z) : IO Z :=
  match fuel with
  | O => no_answer
  | S fuel =>
      again ← blocked wait fd ret;
      if (again : bool) then
        w ← wait_for_event fd FIBER_POLL_OUT;
        if Z.eqb w 0 then mret (-1)
        else r ← call f args; wait_and_retry fuel conv wait fd f args (conv r.1)
      else mret ret
  end.

Definition writes (conv : Z -> Z) (wait : bool) (fd : Z) (f : shim) (args : list Z) : IO Z :=
  r ← call f args;
  n ← answers_left; wait_and_retry (S n) conv wait fd f args (conv r.1).

Definition write (fd buf count : Z) : IO Z :=
  resolve sh_write;; writes i32 true fd sh_write [fd; buf; count].
Definition writev (fd iov iovcnt : Z) : IO Z :=
  resolve sh_writev;; writes i32 true fd sh_writev [fd; iov; iovcnt].
Definition send (sockfd buf len flags : Z) : IO Z :=
  resolve sh_send;; writes i64 (negb (dontwait flags)) sockfd sh_send [sockfd; buf; len; flags].
Definition sendto (sockfd buf len flags dest_addr addrlen : Z) : IO Z :=
  resolve sh_sendto;;
  writes i64 (negb (dontwait flags)) sockfd sh_sendto [sockfd; buf; len; flags; dest_addr; addrlen].
Definition sendmsg (sockfd msg flags : Z) : IO Z :=
  resolve sh_sendmsg;; writes i64 (negb (dontwait flags)) sockfd sh_sendmsg [sockfd; msg; flags].

Definition connect (sockfd addr addrlen : Z) : IO Z :=
  resolve sh_connect;;
  r ← call sh_connect [sockfd; addr; addrlen];
  s ← get;
  b ← (if Z.ltb r.1 0 && Z.eqb (errno s) EINPROGRESS then should_block sockfd else mret false);
  if (b : bool) then
    w ← wait_for_event sockfd FIBER_POLL_OUT;
    if Z.eqb w 0 then mret (-1)
    else
      r ← sys (AGetsockopt sockfd);
      if negb (Z.eqb r.1 0) then mret (-1)
      else
        so_error ← out_fd r.2 0;
        if negb (Z.eqb so_error 0) then s ← get; put (set_errno s so_error);; mret (-1)
        else mret 0
  else mret r.1.

(** The three sleeping calls; each returns 0 however the real call ends. *)
Definition fiber_context_p (s : io_state) : bool := Z.eqb (thread_locked s) 0 && has_manager s.

Definition sleep (seconds : Z) : IO Z :=
  s ← get;
  if fiber_context_p s then sleep_fiber seconds 0;; mret 0
  else resolve sh_sleep;; call sh_sleep [seconds];; mret 0.
Definition usleep (useconds : Z) : IO Z :=
  s ← get;
  if fiber_context_p s then sleep_fiber (useconds / 1000000) (useconds mod 1000000);; mret 0
  else resolve sh_usleep;; call sh_usleep [useconds];; mret 0.
(** Returns what is written to [*rmtp], if it is not NULL. *)
Definition nanosleep (tv_sec tv_nsec : Z) (rmtp : Z) : IO (Z * option (Z * Z)) :=
  s ← get;
  if fiber_context_p s then
    sleep_fiber tv_sec (Z.quot tv_nsec 1000 + 1);;
    mret (0, if Z.eqb rmtp NULL then None else Some (0, 0))
  else resolve sh_nanosleep;; call sh_nanosleep [tv_sec; tv_nsec; rmtp];; mret (0, None).

Definition pipe : IO (Z * list Z) :=
  resolve sh_pipe;;
  r ← call sh_pipe [];
  s ← get;
  if Z.eqb r.1 0 && negb (bool_decide (fd_info s = None)) && Z.eqb (thread_locked s) 0 then
    resolve sh_fcntl;;
    fd0 ← out_fd r.2 0; fd1 ← out_fd r.2 1;
    a ← call sh_fcntl [fd0; F_SETFL; O_NONBLOCK];
    if Z.ltb a.1 0 then close fd0;; close fd1;; mret (a.1, r.2)
    else
      b ← call sh_fcntl [fd1; F_SETFL; O_NONBLOCK];
      if Z.ltb b.1 0 then close fd0;; close fd1;; mret (b.1, r.2)
      else mark_managed fd0;; mark_managed fd1;; mret (b.1, r.2)
  else mret r.

Definition fcntl (fd cmd val : Z) : IO Z :=
  s ← get;
  if Z.eqb (thread_locked s) 0 && Z.eqb cmd F_SETFL && (Z.eqb val O_NONBLOCK || Z.eqb val O_NDELAY) then
    assert_c (fd_in_table s fd);;
    atomic_fetch_and fd (Z.lnot IO_FLAG_BLOCKING);;
    v ← read_flags fd;
    assert_c (Z.eqb (Z.land v IO_FLAG_BLOCKING) 0);;
    mret 0
  else
    let val := if Z.eqb (thread_locked s) 0 && Z.eqb cmd F_SETFL then Z.lor val O_NONBLOCK else val in
    resolve sh_fcntl;;
    r ← call sh_fcntl [fd; cmd; val];
    mret r.1.

(** [val] is the pointer, [pointee] the [int] it points to. *)
Definition ioctl (d request val pointee : Z) : IO Z :=
  s ← get;
  if Z.eqb (thread_locked s) 0 && Z.eqb request FIONBIO then
    if Z.eqb val NULL then put (set_errno s EINVAL);; mret (-1)
    else
      assert_c (fd_in_table s d);;
      (if negb (Z.eqb pointee 0) then
         atomic_fetch_and d (Z.lnot IO_FLAG_BLOCKING);;
         v ← read_flags d; assert_c (Z.eqb (Z.land v IO_FLAG_BLOCKING) 0)
       else
         atomic_fetch_or d IO_FLAG_BLOCKING;;
         v ← read_flags d; assert_c (negb (Z.eqb (Z.land v IO_FLAG_BLOCKING) 0)));;
      mret 0
  else
    resolve sh_ioctl;;
    r ← call sh_ioctl [d; request; val];
    mret r.1.

(** ** All calls *)

Inductive io_op :=
| OLock | OUnlock
| OSocket (domain type protocol : Z) | OSocketpair (domain type protocol : Z)
| OAccept (sockfd addr addrlen : Z) | OConnect (sockfd addr addrlen : Z)
| ORead (fd buf count : Z) | OReadv (fd iov iovcnt : Z) | ORecv (fd buf len flags : Z)
| ORecvfrom (sockfd buf len flags src_addr addrlen : Z) | ORecvmsg (sockfd msg flags : Z)
| OWrite (fd buf count : Z) | OWritev (fd iov iovcnt : Z) | OSend (sockfd buf len flags : Z)
| OSendto (sockfd buf len flags dest_addr addrlen : Z) | OSendmsg (sockfd msg flags : Z)
| OSleep (seconds : Z) | OUsleep (useconds : Z) | ONanosleep (tv_sec tv_nsec rmtp : Z)
| OPipe | OFcntl (fd cmd val : Z) | OIoctl (d request val pointee : Z) | OClose (fd : Z).

(** The result of a call; the out parameters are dropped. *)
Definition io_exec (op : io_op) : IO Z :=
  match op with
  | OLock => fiber_io_lock_thread
  | OUnlock => fiber_io_unlock_thread
  | OSocket d t p => socket d t p
  | OSocketpair d t p => r ← socketpair d t p; mret r.1
  | OAccept s a l => accept s a l
  | OConnect s a l => connect s a l
  | ORead fd b c => read fd b c
  | OReadv fd v c => readv fd v c
  | ORecv fd b l f => recv fd b l f
  | ORecvfrom s b l f a al => recvfrom s b l f a al
  | ORecvmsg s m f => recvmsg s m f
  | OWrite fd b c => write fd b c
  | OWritev fd v c => writev fd v c
  | OSend s b l f => send s b l f
  | OSendto s b l f a al => sendto s b l f a al
  | OSendmsg s m f => sendmsg s m f
  | OSleep s => sleep s
  | OUsleep u => usleep u
  | ONanosleep s ns rm => r ← nanosleep s ns rm; mret r.1
  | OPipe => r ← pipe; mret r.1
  | OFcntl fd c v => fcntl fd c v
  | OIoctl d r v x => ioctl d r v x
  | OClose fd => close fd
  end.

(** The five input and the five output calls, with the function behind them, the
    descriptor, the arguments and whether they may wait. *)
Definition reader (op : io_op) : option (shim * Z * list Z * bool) :=
  match op with
  | ORead fd b c => Some (sh_read, fd, [fd; b; c], true)
  | OReadv fd v c => Some (sh_readv, fd, [fd; v; c], true)
  | ORecv fd b l f => Some (sh_recv, fd, [fd; b; l; f], negb (dontwait f))
  | ORecvfrom s b l f a al => Some (sh_recvfrom, s, [s; b; l; f; a; al], negb (dontwait f))
  | ORecvmsg s m f => Some (sh_recvmsg, s, [s; m; f], negb (dontwait f))
  | _ => None
  end.
Definition writer (op : io_op) : option (shim * Z * list Z * bool) :=
  match op with
  | OWrite fd b c => Some (sh_write, fd, [fd; b; c], true)
  | OWritev fd v c => Some (sh_writev, fd, [fd; v; c], true)
  | OSend s b l f => Some (sh_send, s, [s; b; l; f], negb (dontwait f))
  | OSendto s b l f a al => Some (sh_sendto, s, [s; b; l; f; a; al], negb (dontwait f))
  | OSendmsg s m f => Some (sh_sendmsg, s, [s; m; f], negb (dontwait f))
  | _ => None
  end.

End shims.

(** ** Running the primitives *)

Lemma bind_done {A B} (m : IO A) (k : A -> IO B) w a w' : m w = Done a w' -> (x ← m; k x) w = k a w'.
Proof. unfold mbind, io_bind. by intros ->. Qed.

Lemma resolve_done f w :
  exists w', resolve f w = Done tt w' /\ f ∈ fibershim (io w') /\ answers w' = answers w /\ trace w' = trace w /\
    fibershim (io w) ⊆ fibershim (io w') /\
    io w' = set_shims (io w) (fibershim (io w')).
Proof.
  unfold resolve. rewrite (bind_done get _ w (io w) w) by done. case_bool_decide as Hf.
  - exists w. split_and!; try done. by destruct (io w).
  - eexists. split; [done|]. simpl. split_and!; try done; set_solver.
Qed.

Lemma call_done f args w r e out rest :
  f ∈ fibershim (io w) -> answers w = Sys r e out :: rest ->
  call f args w = Done (r, out)
    (World (if Z.ltb r 0 then set_errno (io w) e else io w) rest (trace w ++ [ACall f args])).
Proof.
  intros Hf Ha. unfold call. rewrite (bind_done get _ w (io w) w) by done.
  rewrite bool_decide_true by done. unfold sys. by rewrite Ha.
Qed.

(** A descriptor for which a call suspends the fiber. *)
Definition managed (fd : Z) (s : io_state) : Prop :=
  thread_locked s = 0 /\ 0 <= fd < 2 ^ 31 /\ fd < max_fd s /\
  exists t v, fd_info s = Some t /\ t !! Z.to_nat fd = Some v /\
    Z.land v (Z.lor IO_FLAG_BLOCKING IO_FLAG_WAITABLE) <> 0.

Lemma should_block_managed fd w : managed fd (io w) -> should_block fd w = Done true w.
Proof.
  intros (Hl & Hfd & Hm & t & v & Ht & Hv & Hf). unfold should_block, assert_c.
  rewrite (proj2 (Z.leb_le 0 fd)) by lia. rewrite (bind_done _ _ w tt w) by done.
  rewrite (bind_done get _ w (io w) w) by done. rewrite Hl. simpl.
  rewrite bool_decide_false by (by rewrite Ht). unfold fd_in_table. rewrite u64_small by lia.
  rewrite (proj2 (Z.ltb_lt fd (max_fd (io w)))) by done.
  rewrite (bind_done (read_flags fd) _ w v w).
  { rewrite (proj2 (Z.eqb_neq _ 0)) by done. done. }
  unfold read_flags. rewrite (bind_done get _ w (io w) w) by done. rewrite Ht.
  rewrite (proj2 (Z.ltb_ge fd 0)) by lia. by rewrite Hv.
Qed.

Section blocking.
Variable this_fiber : Z.

(** A fiber that makes call [f] on [fd] now is suspended if it would block. *)
Definition suspendable (f : shim) (fd : Z) (s : io_state) : Prop :=
  f ∈ fibershim s /\ managed fd s /\ is_Some (wait_info (ev s) !! Z.to_nat fd).

Definition woken (result : Z) (s : io_state) : Prop := fiber_wait_for_event_result (ev s) this_fiber = result.

Lemma suspendable_errno f fd s e : suspendable f fd s -> suspendable f fd (set_errno s e).
Proof. by destruct s. Qed.

Lemma wait_done f fd events w s rest : suspendable f fd (io w) -> answers w = Resume s :: rest ->
  wait_for_event this_fiber fd events w =
  Done (fiber_wait_for_event_result (ev s) this_fiber) (World s rest (trace w ++ [AWait fd events])).
Proof.
  intros (_ & (_ & Hfd & _) & [i Hi]) Ha. unfold wait_for_event. rewrite (bind_done get _ w (io w) w) by done.
  rewrite (proj2 (Z.ltb_ge fd 0)) by lia. unfold fiber_wait_for_event. rewrite Hi. simpl.
  unfold mbind, io_bind, put, record_action, resume, get, mret, io_ret. simpl. by rewrite Ha.
Qed.

Lemma blocked_again fd w ret e : managed fd (io w) -> ret < 0 -> errno (io w) = e -> would_block e = true ->
  blocked true fd ret w = Done true w.
Proof.
  intros Hm Hr <- He. unfold blocked. rewrite (bind_done get _ w (io w) w) by done.
  rewrite (proj2 (Z.ltb_lt ret 0)), He by done. by apply should_block_managed.
Qed.

Lemma blocked_not wait fd w ret : 0 <= ret \/ would_block (errno (io w)) = false ->
  blocked wait fd ret w = Done false w.
Proof.
  intros H. unfold blocked. rewrite (bind_done get _ w (io w) w) by done.
  destruct (Z.ltb_spec ret 0); [|done]. destruct H as [H|H]; [lia|by rewrite H].
Qed.

Lemma bind_if {A} (m : IO bool) (m1 m2 : IO A) w (b : bool) : m w = Done b w ->
  (again ← m; if (again : bool) then m1 else m2) w = (if b then m1 w else m2 w).
Proof. intros H. rewrite (bind_done _ _ _ _ _ H). by destruct b. Qed.

(** The outcome of one call settles it: data, end of file, or an error other
    than "would block". *)
Definition settles (r e : Z) : Prop := 0 <= r \/ (r < 0 /\ would_block e = false).

(** How a suspended call ends: the descriptor is ready and the call settles, or
    the descriptor was closed meanwhile. *)
Inductive ending (f : shim) (fd poll : Z) (args : list Z) : list answer -> Z -> list action -> Prop :=
| EndReady s r e out : suspendable f fd s -> woken FIBER_SUCCESS s -> settles r e ->
    ending f fd poll args [Resume s; Sys r e out] r [AWait fd poll; ACall f args]
| EndClosed s : woken FIBER_ERROR s -> ending f fd poll args [Resume s] (-1) [AWait fd poll].

(** Rounds in which the descriptor was reported ready but the call would still
    block: another fiber was faster. *)
Definition rounds_script (rounds : list io_state) : list answer :=
  s ← rounds; [Resume s; Sys (-1) EAGAIN []].

Lemma wait_then_call_round fuel fd f args w s r e out rest :
  suspendable f fd (io w) -> suspendable f fd s -> woken FIBER_SUCCESS s -> - 2 ^ 31 <= r < 2 ^ 31 ->
  answers w = Resume s :: Sys r e out :: rest ->
  let s' := if Z.ltb r 0 then set_errno s e else s in
  wait_then_call this_fiber (S fuel) true fd f args w =
  (again ← blocked true fd r; if (again : bool) then wait_then_call this_fiber fuel true fd f args else mret r)
    (World s' rest (trace w ++ [AWait fd FIBER_POLL_IN; ACall f args])).
Proof.
  intros Hw Hs Hwk Hr Ha s'. cbn [wait_then_call]. unfold may_block.
  rewrite (bind_done _ _ w true w) by apply should_block_managed, Hw.
  rewrite (bind_done _ _ _ _ _ (wait_done f fd FIBER_POLL_IN w s _ Hw Ha)). rewrite Hwk. simpl.
  erewrite bind_done; [|eapply call_done; [apply Hs|reflexivity]]. cbn [fst].
  rewrite i32_small by lia. cbn [io trace]. by rewrite <- app_assoc.
Qed.

Lemma read_loop fd f args : forall rounds fuel w tail,
  suspendable f fd (io w) -> Forall (fun s => suspendable f fd s /\ woken FIBER_SUCCESS s) rounds ->
  answers w = rounds_script rounds ++ tail ->
  exists w1, suspendable f fd (io w1) /\ answers w1 = tail /\
    trace w1 = trace w ++ concat (replicate (length rounds) [AWait fd FIBER_POLL_IN; ACall f args]) /\
    wait_then_call this_fiber (length rounds + fuel) true fd f args w = wait_then_call this_fiber fuel true fd f args w1.
Proof.
  induction rounds as [|s rounds IH]; intros fuel w tail Hw Hall Ha.
  { exists w. simpl. by rewrite app_nil_r. }
  apply Forall_cons in Hall as [[Hs Hwk] Hall]. simpl in Ha.
  edestruct (IH fuel (World (set_errno s EAGAIN) (rounds_script rounds ++ tail)
    (trace w ++ [AWait fd FIBER_POLL_IN; ACall f args])) tail) as (w1 & H1 & H2 & H3 & H4);
    [by apply suspendable_errno|done|done|].
  exists w1. split_and!; [done|done|rewrite H3; simpl; by rewrite <- app_assoc|].
  cbn [length Nat.add].
  rewrite (wait_then_call_round _ fd f args w s (-1) EAGAIN [] (rounds_script rounds ++ tail)) by (assumption || lia).
  cbn [Z.ltb Z.compare]. rewrite <- H4.
  apply (bind_if _ _ _ _ true). eapply blocked_again; [|lia|reflexivity|reflexivity].
  apply (suspendable_errno f fd s EAGAIN Hs).
Qed.

Lemma read_ending fd f args fuel w tail res acts rest :
  suspendable f fd (io w) -> ending f fd FIBER_POLL_IN args tail res acts -> - 2 ^ 31 <= res < 2 ^ 31 ->
  answers w = tail ++ rest ->
  exists w', wait_then_call this_fiber (S fuel) true fd f args w = Done res w' /\
    answers w' = rest /\ trace w' = trace w ++ acts.
Proof.
  intros Hw [s r e out Hs Hwk Hset|s Hwk] Hr Ha.
  - rewrite (wait_then_call_round _ fd f args w s r e out rest) by (assumption || lia).
    eexists. split; [apply (bind_if _ _ _ _ false), blocked_not|done].
    destruct Hset as [|[Hneg He]]; [by left|right].
    by rewrite (proj2 (Z.ltb_lt r 0)).
  - cbn [wait_then_call]. unfold may_block.
    rewrite (bind_done _ _ w true w) by apply should_block_managed, Hw.
    rewrite (bind_done _ _ _ _ _ (wait_done f fd FIBER_POLL_IN w s _ Hw Ha)). rewrite Hwk. simpl.
    eexists. split; [reflexivity|done].
Qed.

Lemma rounds_script_length rounds : length (rounds_script rounds) = (2 * length rounds)%nat.
Proof. induction rounds as [|s rounds IH]; [done|]. simpl. rewrite IH. lia. Qed.

Definition int_conv (conv : Z -> Z) : Prop := forall r, - 2 ^ 31 <= r < 2 ^ 31 -> conv r = r.

Lemma wait_and_retry_round fuel conv fd f args w s ret r e out rest :
  suspendable f fd (io w) -> ret < 0 -> errno (io w) = EAGAIN ->
  suspendable f fd s -> woken FIBER_SUCCESS s -> int_conv conv -> - 2 ^ 31 <= r < 2 ^ 31 ->
  answers w = Resume s :: Sys r e out :: rest ->
  let s' := if Z.ltb r 0 then set_errno s e else s in
  wait_and_retry this_fiber (S fuel) conv true fd f args ret w =
  wait_and_retry this_fiber fuel conv true fd f args r
    (World s' rest (trace w ++ [AWait fd FIBER_POLL_OUT; ACall f args])).
Proof.
  intros Hw Hret He Hs Hwk Hconv Hr Ha s'. cbn [wait_and_retry].
  rewrite (bind_if _ _ _ _ true) by (eapply blocked_again; [apply Hw|done|done|done]).
  rewrite (bind_done _ _ _ _ _ (wait_done f fd FIBER_POLL_OUT w s _ Hw Ha)). rewrite Hwk. simpl.
  erewrite bind_done; [|eapply call_done; [apply Hs|reflexivity]]. cbn [fst].
  rewrite Hconv by lia. cbn [io trace]. by rewrite <- app_assoc.
Qed.

Lemma write_loop conv fd f args : forall rounds fuel w tail, int_conv conv ->
  suspendable f fd (io w) -> errno (io w) = EAGAIN ->
  Forall (fun s => suspendable f fd s /\ woken FIBER_SUCCESS s) rounds ->
  answers w = rounds_script rounds ++ tail ->
  exists w1, suspendable f fd (io w1) /\ errno (io w1) = EAGAIN /\ answers w1 = tail /\
    trace w1 = trace w ++ concat (replicate (length rounds) [AWait fd FIBER_POLL_OUT; ACall f args]) /\
    wait_and_retry this_fiber (length rounds + fuel) conv true fd f args (-1) w =
    wait_and_retry this_fiber fuel conv true fd f args (-1) w1.
Proof.
  induction rounds as [|s rounds IH]; intros fuel w tail Hconv Hw He Hall Ha.
  { exists w. simpl. by rewrite app_nil_r. }
  apply Forall_cons in Hall as [[Hs Hwk] Hall]. simpl in Ha.
  edestruct (IH fuel (World (set_errno s EAGAIN) (rounds_script rounds ++ tail)
    (trace w ++ [AWait fd FIBER_POLL_OUT; ACall f args])) tail) as (w1 & H1 & H2 & H3 & H4 & H5);
    [done|by apply suspendable_errno|done|done|done|].
  exists w1. split_and!; [done|done|done|rewrite H4; simpl; by rewrite <- app_assoc|].
  cbn [length Nat.add].
  rewrite (wait_and_retry_round _ conv fd f args w s (-1) (-1) EAGAIN [] (rounds_script rounds ++ tail))
    by (assumption || lia).
  by rewrite <- H5.
Qed.

Lemma write_settled fuel conv wait fd f args ret w : 0 <= ret \/ would_block (errno (io w)) = false ->
  wait_and_retry this_fiber (S fuel) conv wait fd f args ret w = Done ret w.
Proof. intros H. cbn [wait_and_retry]. by rewrite (bind_if _ _ _ _ false) by (by apply blocked_not). Qed.

Lemma write_ending conv fd f args fuel w tail res acts rest : int_conv conv ->
  suspendable f fd (io w) -> errno (io w) = EAGAIN ->
  ending f fd FIBER_POLL_OUT args tail res acts -> - 2 ^ 31 <= res < 2 ^ 31 ->
  answers w = tail ++ rest ->
  exists w', wait_and_retry this_fiber (S (S fuel)) conv true fd f args (-1) w = Done res w' /\
    answers w' = rest /\ trace w' = trace w ++ acts.
Proof.
  intros Hconv Hw He [s r e out Hs Hwk Hset|s Hwk] Hr Ha.
  - rewrite (wait_and_retry_round _ conv fd f args w s (-1) r e out rest) by (assumption || lia).
    eexists. split; [apply write_settled|done]. destruct Hset as [|[Hneg Hw']]; [by left|right].
    by rewrite (proj2 (Z.ltb_lt r 0)).
  - cbn [wait_and_retry].
    rewrite (bind_if _ _ _ _ true) by (eapply blocked_again; [apply Hw|lia|exact He|done]).
    rewrite (bind_done _ _ _ _ _ (wait_done f fd FIBER_POLL_OUT w s _ Hw Ha)). rewrite Hwk. simpl.
    eexists. split; [reflexivity|done].
Qed.

End blocking.

(** ** The readers and writers *)

Lemma reader_exec this_fiber op f fd args wait w : reader op = Some (f, fd, args, wait) ->
  io_exec this_fiber op w = (resolve f;; reads this_fiber wait fd f args) w.
Proof. by destruct op; intros [= <- <- <- <-]. Qed.

Lemma writer_exec this_fiber op f fd args wait w : writer op = Some (f, fd, args, wait) ->
  exists conv, int_conv conv /\
    io_exec this_fiber op w = (resolve f;; writes this_fiber conv wait fd f args) w.
Proof.
  destruct op; intros [= <- <- <- <-]; (exists i32 + exists i64); split; try reflexivity;
    intros r Hr; (apply i32_small + apply i64_small); lia.
Qed.

Lemma managed_shims fd s l : managed fd (set_shims s l) <-> managed fd s.
Proof. by destruct s. Qed.

(** C35: Blocking input.  On a descriptor the library manages, each of [read],
    [readv], [recv], [recvfrom] and [recvmsg] suspends its fiber until the
    descriptor is ready and repeats that as long as the call would block,
    however often and whatever the other fibers do meanwhile; it returns what
    the first call that settles returns, or -1 when the descriptor was closed;
    "would block" is never reported to the caller. *)
Theorem reads_block_until_ready this_fiber op f fd args w rounds tail res acts rest :
  reader op = Some (f, fd, args, true) ->
  managed fd (io w) -> is_Some (wait_info (ev (io w)) !! Z.to_nat fd) ->
  Forall (fun s => suspendable f fd s /\ woken this_fiber FIBER_SUCCESS s) rounds ->
  ending this_fiber f fd FIBER_POLL_IN args tail res acts -> - 2 ^ 31 <= res < 2 ^ 31 ->
  answers w = rounds_script rounds ++ tail ++ rest ->
  exists w', io_exec this_fiber op w = Done res w' /\ answers w' = rest /\
    trace w' = trace w ++
      concat (replicate (length rounds) [AWait fd FIBER_POLL_IN; ACall f args]) ++ acts.
Proof.
  intros Hop Hm Hi Hall Hend Hr Ha. rewrite (reader_exec _ _ _ _ _ _ _ Hop).
  destruct (resolve_done f w) as (w0 & E0 & Hf & A0 & T0 & _ & Hio). rewrite (bind_done _ _ _ _ _ E0).
  assert (suspendable f fd (io w0)) as Hs0.
  { rewrite Hio. split; [done|]. by rewrite managed_shims. }
  unfold reads. rewrite (bind_done answers_left _ w0 (length (answers w0)) w0) by done.
  assert (exists fuel, S (length (answers w0)) = (length rounds + S fuel)%nat) as [fuel ->].
  { exists (length (answers w0) - length rounds)%nat. rewrite A0, Ha, length_app, rounds_script_length. lia. }
  destruct (read_loop this_fiber fd f args rounds (S fuel) w0 (tail ++ rest)) as (w1 & H1 & H2 & H3 & ->);
    [done|done|by rewrite A0|].
  destruct (read_ending this_fiber fd f args fuel w1 tail res acts rest) as (w' & E & A & T); [done..|].
  exists w'. split_and!; [done|done|]. by rewrite T, H3, T0, <- app_assoc.
Qed.

(** Descriptor 3 is managed; fiber 80 makes the calls. *)
Definition io_demo : io_state :=
  IoState (Some [0; 0; 0; 3]) 4
    [sh_pipe; sh_read; sh_readv; sh_write; sh_writev; sh_socket; sh_socketpair; sh_connect; sh_accept;
     sh_send; sh_sendto; sh_sendmsg; sh_recv; sh_recvfrom; sh_recvmsg; sh_close] 0 0 true ev_wait_demo.
Definition io_demo_closed : io_state := set_ev io_demo (set_scratch (ev io_demo) 80 (-1)).

Lemma io_demo_managed : managed 3 io_demo.
Proof. split_and!; [done|lia|lia|done|]. by exists [0; 0; 0; 3], 3. Qed.
Lemma io_demo_suspendable f : f ∈ fibershim io_demo -> suspendable f 3 io_demo.
Proof. intros Hf. split; [done|]. split; [apply io_demo_managed|by eexists]. Qed.

Definition read_world : world :=
  World io_demo [Resume io_demo; Sys (-1) EAGAIN []; Resume io_demo; Sys 42 0 []] [].

Lemma reads_block_until_ready_witness :
  exists w', io_exec 80 (ORead 3 4096 100) read_world = Done 42 w' /\
    answers w' = [] /\
    trace w' = [] ++ concat (replicate 1 [AWait 3 FIBER_POLL_IN; ACall sh_read [3; 4096; 100]]) ++
      [AWait 3 FIBER_POLL_IN; ACall sh_read [3; 4096; 100]].
Proof.
  apply (reads_block_until_ready 80 (ORead 3 4096 100) sh_read 3 [3; 4096; 100] read_world [io_demo]
    [Resume io_demo; Sys 42 0 []] 42 [AWait 3 FIBER_POLL_IN; ACall sh_read [3; 4096; 100]] []).
  - reflexivity.
  - exact io_demo_managed.
  - simpl. by eexists.
  - apply Forall_singleton. split; [apply io_demo_suspendable; by do 1 right; left|reflexivity].
  - constructor; [apply io_demo_suspendable; by do 1 right; left|reflexivity|left; lia].
  - lia.
  - reflexivity.
Defined.

(** Blocking output.  [write], [writev], [send], [sendto] and [sendmsg] try
    first: a call that settles returns at once, without suspending the fiber;
    otherwise the fiber waits until the descriptor is writable and repeats the
    same call until it settles, or returns -1 when the descriptor was closed. *)
Theorem writes_block_until_ready this_fiber op f fd args w rest :
  writer op = Some (f, fd, args, true) ->
  (forall r e out, settles r e -> - 2 ^ 31 <= r < 2 ^ 31 -> answers w = Sys r e out :: rest ->
    exists w', io_exec this_fiber op w = Done r w' /\ answers w' = rest /\ trace w' = trace w ++ [ACall f args]) /\
  (forall rounds tail res acts,
    managed fd (io w) -> is_Some (wait_info (ev (io w)) !! Z.to_nat fd) ->
    Forall (fun s => suspendable f fd s /\ woken this_fiber FIBER_SUCCESS s) rounds ->
    ending this_fiber f fd FIBER_POLL_OUT args tail res acts -> - 2 ^ 31 <= res < 2 ^ 31 ->
    answers w = Sys (-1) EAGAIN [] :: rounds_script rounds ++ tail ++ rest ->
    exists w', io_exec this_fiber op w = Done res w' /\ answers w' = rest /\
      trace w' = trace w ++ [ACall f args] ++
        concat (replicate (length rounds) [AWait fd FIBER_POLL_OUT; ACall f args]) ++ acts).
Proof.
  intros Hop. destruct (writer_exec this_fiber op f fd args true w Hop) as (conv & Hconv & ->).
  destruct (resolve_done f w) as (w0 & E0 & Hf & A0 & T0 & _ & Hio). rewrite (bind_done _ _ _ _ _ E0).
  unfold writes. split.
  - intros r e out Hset Hr Ha. rewrite <- A0 in Ha.
    rewrite (bind_done _ _ _ _ _ (call_done f args w0 r e out rest Hf Ha)). cbn [fst]. rewrite Hconv by lia.
    set (w1 := World _ rest _). rewrite (bind_done answers_left _ w1 (length (answers w1)) w1) by done.
    exists w1. split; [apply write_settled|]; [|split; [done|by rewrite <- T0]].
    destruct Hset as [|[Hneg He]]; [by left|right]. unfold w1. by rewrite (proj2 (Z.ltb_lt r 0)).
  - intros rounds tail res acts Hm Hi Hall Hend Hr Ha. rewrite <- A0 in Ha.
    rewrite (bind_done _ _ _ _ _ (call_done f args w0 _ _ _ _ Hf Ha)). cbn [fst]. rewrite Hconv by lia.
    set (w1 := World _ _ _). rewrite (bind_done answers_left _ w1 (length (answers w1)) w1) by done.
    assert (suspendable f fd (io w1)) as Hs1.
    { simpl. apply suspendable_errno. rewrite Hio. split; [done|]. by rewrite managed_shims. }
    assert (exists fuel, S (length (answers w1)) = (length rounds + S (S fuel))%nat) as [fuel ->].
    { exists (length (answers w1) - 1 - length rounds)%nat. simpl.
      rewrite length_app, rounds_script_length, length_app. destruct Hend; simpl; lia. }
    destruct (write_loop this_fiber conv fd f args rounds (S (S fuel)) w1 (tail ++ rest))
      as (w2 & H1 & H2 & H3 & H4 & ->); [done..|].
    destruct (write_ending this_fiber conv fd f args fuel w2 tail res acts rest) as (w' & E & A & T); [done..|].
    exists w'. split_and!; [done|done|]. rewrite T, H4. simpl. by rewrite <- T0, <- !app_assoc.
Qed.

Definition write_world : world :=
  World io_demo [Sys (-1) EAGAIN []; Resume io_demo; Sys (-1) EAGAIN []; Resume io_demo_closed] [].

Lemma writes_block_until_ready_witness :
  exists w', io_exec 80 (OSend 3 4096 100 0) write_world = Done (-1) w' /\ answers w' = [] /\
    trace w' = [] ++ [ACall sh_send [3; 4096; 100; 0]] ++
      concat (replicate 1 [AWait 3 FIBER_POLL_OUT; ACall sh_send [3; 4096; 100; 0]]) ++ [AWait 3 FIBER_POLL_OUT].
Proof.
  destruct (writes_block_until_ready 80 (OSend 3 4096 100 0) sh_send 3 [3; 4096; 100; 0] write_world [])
    as [_ H]; [reflexivity|].
  apply (H [io_demo] [Resume io_demo_closed] (-1) [AWait 3 FIBER_POLL_OUT]).
  - exact io_demo_managed.
  - simpl. by eexists.
  - apply Forall_singleton. split; [apply io_demo_suspendable; by do 9 right; left|reflexivity].
  - constructor. reflexivity.
  - lia.
  - reflexivity.
Defined.

(** A descriptor for which calls go straight to the kernel. *)
Definition unmanaged (fd : Z) (s : io_state) : Prop :=
  0 <= fd < 2 ^ 31 /\
  (thread_locked s <> 0 \/ fd_info s = None \/ max_fd s <= fd \/
   exists t v, fd_info s = Some t /\ t !! Z.to_nat fd = Some v /\
     Z.land v (Z.lor IO_FLAG_BLOCKING IO_FLAG_WAITABLE) = 0).

Lemma should_block_unmanaged fd w : unmanaged fd (io w) -> should_block fd w = Done false w.
Proof.
  intros [Hfd H]. unfold should_block, assert_c. rewrite (proj2 (Z.leb_le 0 fd)) by lia.
  rewrite (bind_done _ _ w tt w), (bind_done get _ w (io w) w) by done.
  destruct (Z.eqb_spec (thread_locked (io w)) 0) as [H0|Hl]; simpl; [|done].
  case_bool_decide as Ht; [done|]. unfold fd_in_table. rewrite u64_small by lia.
  destruct (Z.ltb_spec fd (max_fd (io w))); [|done].
  destruct H as [?|[?|[?|(t & v & Ht' & Hv & Hz)]]]; [done|done|lia|].
  rewrite (bind_done (read_flags fd) _ w v w); [by rewrite Hz|].
  unfold read_flags. rewrite (bind_done get _ w (io w) w) by done. rewrite Ht'.
  rewrite (proj2 (Z.ltb_ge fd 0)) by lia. by rewrite Hv.
Qed.

Lemma may_block_not wait fd w : wait = false \/ unmanaged fd (io w) -> may_block wait fd w = Done false w.
Proof. intros [Hw|Hu]; [by subst|]. destruct wait; [by apply should_block_unmanaged|done]. Qed.

Lemma blocked_not' wait fd ret w : wait = false \/ unmanaged fd (io w) -> blocked wait fd ret w = Done false w.
Proof.
  intros H. unfold blocked. rewrite (bind_done get _ w (io w) w) by done.
  destruct (_ && _); [by apply may_block_not|done].
Qed.

Lemma unmanaged_errno fd s e : unmanaged fd (set_errno s e) <-> unmanaged fd s.
Proof. by destruct s. Qed.
Lemma unmanaged_shims fd s l : unmanaged fd (set_shims s l) <-> unmanaged fd s.
Proof. by destruct s. Qed.

(** Pass-through.  With [MSG_DONTWAIT], and on a descriptor the library does
    not manage or in a thread that locked itself out, each input and output call
    makes exactly one system call and returns its result: a real "would block"
    reaches the caller, and no fiber is ever suspended. *)
Theorem nonblocking_passes_through this_fiber op f fd args wait w r e out rest :
  reader op = Some (f, fd, args, wait) \/ writer op = Some (f, fd, args, wait) ->
  wait = false \/ unmanaged fd (io w) -> - 2 ^ 31 <= r < 2 ^ 31 ->
  answers w = Sys r e out :: rest ->
  exists w', io_exec this_fiber op w = Done r w' /\ answers w' = rest /\
    trace w' = trace w ++ [ACall f args] /\ (r < 0 -> errno (io w') = e).
Proof.
  intros Hop Hu Hr Ha. destruct (resolve_done f w) as (w0 & E0 & Hf & A0 & T0 & _ & Hio).
  assert (wait = false \/ unmanaged fd (io w0)) as Hu0.
  { destruct Hu as [|Hu]; [by left|right]. rewrite Hio. by apply unmanaged_shims. }
  rewrite <- A0 in Ha. pose proof (call_done f args w0 r e out rest Hf Ha) as Hc.
  set (w1 := World _ rest _) in Hc.
  assert (wait = false \/ unmanaged fd (io w1)) as Hu1.
  { destruct Hu0 as [|Hu0]; [by left|right]. simpl. destruct (Z.ltb r 0); [by apply unmanaged_errno|done]. }
  exists w1. split; [|unfold w1; simpl; rewrite T0; split_and!; [done|done|]].
  - destruct Hop as [Hop|Hop].
    + rewrite (reader_exec _ _ _ _ _ _ _ Hop), (bind_done _ _ _ _ _ E0). unfold reads.
      rewrite (bind_done answers_left _ w0 (length (answers w0)) w0) by done. cbn [wait_then_call].
      rewrite (bind_done _ _ w0 false w0) by (by apply may_block_not).
      rewrite (bind_done _ _ w0 FIBER_SUCCESS w0) by done. simpl.
      rewrite (bind_done _ _ _ _ _ Hc). cbn [fst]. rewrite i32_small by lia.
      by rewrite (bind_if _ _ _ _ false) by (by apply blocked_not').
    + destruct (writer_exec this_fiber op f fd args wait w Hop) as (conv & Hconv & ->).
      rewrite (bind_done _ _ _ _ _ E0). unfold writes. rewrite (bind_done _ _ _ _ _ Hc). cbn [fst].
      rewrite Hconv by lia. rewrite (bind_done answers_left _ w1 (length (answers w1)) w1) by done.
      cbn [wait_and_retry]. by rewrite (bind_if _ _ _ _ false) by (by apply blocked_not').
  - intros Hneg. simpl. by rewrite (proj2 (Z.ltb_lt r 0)).
Qed.

Lemma nonblocking_passes_through_witness :
  exists w', io_exec 80 (ORecv 3 4096 100 MSG_DONTWAIT) (World io_demo [Sys (-1) EAGAIN []] []) = Done (-1) w' /\
    answers w' = [] /\ trace w' = [] ++ [ACall sh_recv [3; 4096; 100; MSG_DONTWAIT]] /\
    (-1 < 0 -> errno (io w') = EAGAIN).
Proof.
  apply (nonblocking_passes_through 80 (ORecv 3 4096 100 MSG_DONTWAIT) sh_recv 3 [3; 4096; 100; MSG_DONTWAIT]
    false (World io_demo [Sys (-1) EAGAIN []] []) (-1) EAGAIN [] []).
  - left. reflexivity.
  - left. reflexivity.
  - lia.
  - reflexivity.
Defined.

(** ** The flags of descriptors *)

(** Descriptor [fd] has flags [v] in the table [t]. *)
Definition has_flags (s : io_state) (fd : Z) (t : list Z) (v : Z) : Prop :=
  fd_info s = Some t /\ 0 <= fd < 2 ^ 31 /\ fd < max_fd s /\ t !! Z.to_nat fd = Some v /\ 0 <= v < 4.

Lemma flag_cases v : 0 <= v < 4 -> v = 0 \/ v = 1 \/ v = 2 \/ v = 3.
Proof. lia. Qed.

Definition with_flags (w : world) (t : list Z) (fd v : Z) : world :=
  World (set_fd_info (io w) (Some (<[Z.to_nat fd:=v]> t))) (answers w) (trace w).

Lemma has_flags_with w t fd v v' : has_flags (io w) fd t v -> 0 <= v' < 4 ->
  has_flags (io (with_flags w t fd v')) fd (<[Z.to_nat fd:=v']> t) v'.
Proof.
  intros (H1 & H2 & H3 & H4 & H5) Hv'. split_and!; try done; try apply H2; try lia.
  apply list_lookup_insert_eq. by eapply lookup_lt_Some.
Qed.

Lemma in_table_done w fd t v : has_flags (io w) fd t v -> fd_in_table (io w) fd = true.
Proof. intros (_ & Hfd & Hlt & _). unfold fd_in_table. rewrite u64_small by lia. by apply Z.ltb_lt. Qed.

Lemma read_flags_done w fd t v : has_flags (io w) fd t v -> read_flags fd w = Done v w.
Proof.
  intros (Ht & Hfd & _ & Hv & _). unfold read_flags. rewrite (bind_done get _ w (io w) w) by done.
  rewrite Ht, (proj2 (Z.ltb_ge fd 0)) by lia. by rewrite Hv.
Qed.

Lemma write_flags_done w fd t v v' : has_flags (io w) fd t v -> write_flags fd v' w = Done tt (with_flags w t fd v').
Proof.
  intros (Ht & Hfd & _ & Hv & _). unfold write_flags. rewrite (bind_done get _ w (io w) w) by done.
  apply lookup_lt_Some in Hv.
  rewrite Ht, (proj2 (Z.ltb_ge fd 0)), (proj2 (Z.leb_gt (Z.of_nat (length t)) fd)) by lia. done.
Qed.

Lemma fetch_or_done w fd t v m : has_flags (io w) fd t v ->
  atomic_fetch_or fd m w = Done tt (with_flags w t fd (u8 (Z.lor v m))).
Proof.
  intros H. unfold atomic_fetch_or. rewrite (bind_done _ _ _ _ _ (read_flags_done _ _ _ _ H)).
  by eapply write_flags_done.
Qed.
Lemma fetch_and_done w fd t v m : has_flags (io w) fd t v ->
  atomic_fetch_and fd m w = Done tt (with_flags w t fd (u8 (Z.land v m))).
Proof.
  intros H. unfold atomic_fetch_and. rewrite (bind_done _ _ _ _ _ (read_flags_done _ _ _ _ H)).
  by eapply write_flags_done.
Qed.

Lemma mark_managed_done w fd t v : has_flags (io w) fd t v -> mark_managed fd w = Done tt (with_flags w t fd 3).
Proof.
  intros H. unfold mark_managed. rewrite (bind_done get _ w (io w) w) by done.
  rewrite (in_table_done _ _ _ _ H), (bind_done _ _ w tt w) by done.
  rewrite (bind_done _ _ _ _ _ (fetch_or_done _ _ _ _ _ H)).
  replace (u8 (Z.lor v (Z.lor IO_FLAG_BLOCKING IO_FLAG_WAITABLE))) with 3
    by (destruct H as (_ & _ & _ & _ & Hv); by destruct (flag_cases v Hv) as [?|[?|[?|?]]]; subst).
  pose proof (has_flags_with w t fd v 3 H ltac:(lia)) as H3.
  rewrite (bind_done _ _ _ _ _ (read_flags_done _ _ _ _ H3)). cbn -[with_flags read_flags].
  rewrite (bind_done _ _ (with_flags w t fd 3) tt (with_flags w t fd 3)) by done.
  by rewrite (bind_done _ _ _ _ _ (read_flags_done _ _ _ _ H3)).
Qed.

Lemma flags_managed s fd t v : has_flags s fd t v -> thread_locked s = 0 -> v <> 0 -> managed fd s.
Proof.
  intros (Ht & Hfd & Hlt & Hv & Hr) Hl Hv0. split_and!; [done|lia|lia|lia|]. exists t, v. split_and!; [done|done|].
  by destruct (flag_cases v Hr) as [?|[?|[?|?]]]; subst.
Qed.

(** The non-blocking mode a program asks for.  For a descriptor the library
    made (both flags set), [fcntl(fd, F_SETFL, O_NONBLOCK)] and a non-zero
    [FIONBIO] return success, make no system call and clear [IO_FLAG_BLOCKING];
    but [should_block] accepts either flag, so input and output calls on the
    descriptor still suspend the fiber. *)
Theorem nonblocking_mode_ignored this_fiber w fd t op :
  op = OFcntl fd F_SETFL O_NONBLOCK \/ (exists val pointee, op = OIoctl fd FIONBIO val pointee /\ val <> NULL /\ pointee <> 0) ->
  has_flags (io w) fd t 3 -> thread_locked (io w) = 0 ->
  exists w', io_exec this_fiber op w = Done 0 w' /\ trace w' = trace w /\ answers w' = answers w /\
    has_flags (io w') fd (<[Z.to_nat fd:=IO_FLAG_WAITABLE]> t) IO_FLAG_WAITABLE /\
    should_block fd w' = Done true w'.
Proof.
  intros Hop Hf Hl. pose proof (has_flags_with w t fd 3 2 Hf ltac:(lia)) as H2.
  exists (with_flags w t fd 2). split; [|split_and!; try done].
  - destruct Hop as [->|(val & pointee & -> & Hval & Hp)]; cbn [io_exec]; unfold fcntl, ioctl.
    + rewrite (bind_done get _ w (io w) w) by done. rewrite Hl. cbn -[with_flags read_flags atomic_fetch_and fd_in_table].
      rewrite (in_table_done _ _ _ _ Hf), (bind_done _ _ w tt w) by done.
      rewrite (bind_done _ _ _ _ _ (fetch_and_done _ _ _ _ _ Hf)).
      by rewrite (bind_done _ _ _ _ _ (read_flags_done _ _ _ _ H2)).
    + rewrite (bind_done get _ w (io w) w) by done. rewrite Hl. cbn -[with_flags read_flags atomic_fetch_and fd_in_table].
      rewrite (proj2 (Z.eqb_neq val NULL)), (in_table_done _ _ _ _ Hf), (bind_done _ _ w tt w) by done.
      rewrite (proj2 (Z.eqb_neq pointee 0)) by done. cbn [negb].
      rewrite (bind_done _ _ w tt (with_flags w t fd 2)); [done|].
      rewrite (bind_done _ _ _ _ _ (fetch_and_done _ _ _ _ _ Hf)).
      by rewrite (bind_done _ _ _ _ _ (read_flags_done _ _ _ _ H2)).
  - apply should_block_managed. by eapply (flags_managed _ _ _ 2); [exact H2| |].
Qed.

Lemma nonblocking_mode_ignored_witness :
  exists w', io_exec 80 (OFcntl 3 F_SETFL O_NONBLOCK) (World io_demo [] []) = Done 0 w' /\
    trace w' = [] /\ answers w' = [] /\ has_flags (io w') 3 [0; 0; 0; 2] 2 /\ should_block 3 w' = Done true w'.
Proof.
  apply (nonblocking_mode_ignored 80 (World io_demo [] []) 3 [0; 0; 0; 3]).
  - left. reflexivity.
  - split_and!; simpl; reflexivity || lia.
  - reflexivity.
Defined.

(** ** Safety of all calls *)

Definition base_shims : list shim :=
  [sh_pipe; sh_read; sh_readv; sh_write; sh_writev; sh_socket; sh_socketpair; sh_connect; sh_accept;
   sh_send; sh_sendto; sh_sendmsg; sh_recv; sh_recvfrom; sh_recvmsg; sh_close].

(** The state after [fiber_io_init] and [fiber_event_init] with [n] descriptors. *)
Record io_wf (n : nat) (s : io_state) : Prop := {
  iw_table : exists t, fd_info s = Some t /\ length t = n /\ Forall (fun v => 0 <= v < 4) t;
  iw_max : max_fd s = Z.of_nat n;
  iw_small : Z.of_nat n <= 2 ^ 31;
  iw_shims : base_shims ⊆ fibershim s;
  iw_open : event_open (ev s) = true;
  iw_events : length (wait_info (ev s)) = n;
  iw_chains : exists ls, ev_inv (ev s) ls
}.

Definition in_range (n : nat) (fd : Z) : Prop := 0 <= fd < Z.of_nat n.

Lemma wf_flags n s fd : io_wf n s -> in_range n fd -> exists t v, has_flags s fd t v.
Proof.
  intros [(t & Ht & Hlen & Hall) Hm Hn _ _ _ _] [Hlo Hhi].
  destruct (lookup_lt_is_Some_2 t (Z.to_nat fd)) as [v Hv]; [lia|].
  rewrite Forall_forall in Hall. exists t, v. split_and!; try done; try lia; eapply Hall, list_elem_of_lookup_2, Hv.
Qed.

Lemma wf_set_errno n s e : io_wf n s -> io_wf n (set_errno s e).
Proof. intros []. by split. Qed.
Lemma wf_set_locked n s v : io_wf n s -> io_wf n (set_locked s v).
Proof. intros []. by split. Qed.
Lemma wf_set_shims n s l : io_wf n s -> fibershim s ⊆ l -> io_wf n (set_shims s l).
Proof. intros [] Hl. split; try done. simpl. by etransitivity. Qed.
Lemma wf_insert n s fd t v v' : io_wf n s -> has_flags s fd t v -> 0 <= v' < 4 ->
  io_wf n (set_fd_info s (Some (<[Z.to_nat fd:=v']> t))).
Proof.
  intros [(t' & Ht & Hlen & Hall) ? ? ? ? ? ?] (Ht' & _) Hv'. simplify_eq. split; try done. simpl.
  eexists. split_and!; [done|by rewrite length_insert|by apply Forall_insert].
Qed.

Lemma wf_fd_closed n s fd : io_wf n s -> in_range n fd ->
  exists e, fiber_fd_closed (ev s) (Z.to_nat fd) = Some e /\ io_wf n (set_ev s e).
Proof.
  intros [Ht Hm Hn Hs Ho He [ls Hls]] [Hlo Hhi].
  destruct (lookup_lt_is_Some_2 (wait_info (ev s)) (Z.to_nat fd)) as [i Hi]; [lia|].
  destruct (lookup_lt_is_Some_2 ls (Z.to_nat fd)) as [l Hl]; [rewrite (ei_len _ _ Hls); lia|].
  destruct (fd_closed_spec _ _ _ _ _ Ho Hls Hi Hl) as (e & E & Hinv & _ & _ & _ & _ & Hopen).
  exists e. split; [done|]. split; try done; simpl; [|by eexists].
  by rewrite <- (ei_len _ _ Hinv), length_insert, (ei_len _ _ Hls).
Qed.

Section safety.
Variable (n : nat) (this_fiber : Z) (Ans : answer -> Prop).
Hypothesis Ans_resume : forall s, Ans (Resume s) -> io_wf n s.

(** Between steps: the state is well formed, the pointers in [L] are resolved. *)
Definition Inv (L : list shim) (w : world) : Prop :=
  io_wf n (io w) /\ Forall Ans (answers w) /\ L ⊆ fibershim (io w).

Definition triple {A} (P : world -> Prop) (m : IO A) (Q : A -> world -> Prop) : Prop :=
  forall w, P w -> match m w with Done a w' => Q a w' | Crash => False | NoAnswer => True end.

Lemma t_bind {A B} P (m : IO A) (k : A -> IO B) Q R :
  triple P m Q -> (forall a, triple (Q a) (k a) R) -> triple P (x ← m; k x) R.
Proof.
  intros Hm Hk w Hw. unfold mbind, io_bind. specialize (Hm w Hw). destruct (m w) as [a w'| |]; try done.
  by apply Hk.
Qed.
Lemma t_ret {A} (Q : A -> world -> Prop) a : triple (Q a) (mret a) Q.
Proof. by intros w Hw. Qed.
Lemma t_fact {A} (phi : Prop) P (m : IO A) Q :
  (phi -> triple P m Q) -> triple (fun w => P w /\ phi) m Q.
Proof. intros H w [Hw Hp]. by apply H. Qed.
Lemma t_get {A} P (k : io_state -> IO A) Q :
  (forall s, triple (fun w => P w /\ s = io w) (k s) Q) -> triple P (s ← get; k s) Q.
Proof. intros H. eapply t_bind; [|exact H]. by intros w Hw. Qed.

Lemma Inv_weaken L L' w : Inv L w -> L' ⊆ L -> Inv L' w.
Proof. intros (H1 & H2 & H3) HL. split_and!; [done|done|]. by etransitivity. Qed.

(** [t_drop] forgets the state a [get] returned. *)
Lemma t_drop {A} P (s : io_state) (m : IO A) Q : triple P m Q -> triple (fun w => P w /\ s = io w) m Q.
Proof. intros H w [Hw _]. by apply H. Qed.

Lemma t_resolve L f : triple (Inv L) (resolve f) (fun _ => Inv (f :: L)).
Proof.
  intros w (H1 & H2 & H3). destruct (resolve_done f w) as (w' & -> & Hf & A & _ & Hsub & Hio).
  split_and!; [|by rewrite A|set_solver]. rewrite Hio. apply wf_set_shims; [done|]. by simpl.
Qed.

Lemma t_sys L a : triple (Inv L) (sys a) (fun r w => Inv L w /\ exists e, Ans (Sys r.1 e r.2)).
Proof.
  intros w (H1 & H2 & H3). unfold sys. destruct (answers w) as [|[r e out|s] rest]; try done.
  apply Forall_cons in H2 as [Ha H2]. split; [|by exists e].
  destruct (Z.ltb r 0); (split_and!; [|done|done]); [by apply wf_set_errno|done].
Qed.

Lemma t_call L f args : f ∈ base_shims ++ L ->
  triple (Inv L) (call f args) (fun r w => Inv L w /\ exists e, Ans (Sys r.1 e r.2)).
Proof.
  intros Hf. unfold call. apply t_get. intros s w [Hw ->].
  assert (f ∈ fibershim (io w)) as Hin.
  { destruct Hw as (H1 & _ & H3). apply elem_of_app in Hf as [Hf|Hf]; [by apply (iw_shims _ _ H1)|by apply H3]. }
  rewrite bool_decide_true by done. by apply t_sys.
Qed.

Lemma t_write_flags L fd v : in_range n fd -> 0 <= v < 4 ->
  triple (Inv L) (write_flags fd v) (fun _ => Inv L).
Proof.
  intros Hfd Hv w (H1 & H2 & H3). destruct (wf_flags _ _ _ H1 Hfd) as (t & v0 & Hf).
  rewrite (write_flags_done _ _ _ _ _ Hf). split_and!; [|done|done]. by eapply wf_insert.
Qed.

Lemma t_read_flags L fd : in_range n fd ->
  triple (Inv L) (read_flags fd) (fun v w => Inv L w /\ 0 <= v < 4).
Proof.
  intros Hfd w Hw. destruct (wf_flags _ _ _ (proj1 Hw) Hfd) as (t & v & Hf).
  rewrite (read_flags_done _ _ _ _ Hf). split; [done|]. apply Hf.
Qed.

Lemma t_mark_managed L fd : in_range n fd -> triple (Inv L) (mark_managed fd) (fun _ => Inv L).
Proof.
  intros Hfd w (H1 & H2 & H3). destruct (wf_flags _ _ _ H1 Hfd) as (t & v & Hf).
  rewrite (mark_managed_done _ _ _ _ Hf). split_and!; [|done|done]. by eapply wf_insert; [| |lia].
Qed.

Lemma t_should_block L fd : 0 <= fd < 2 ^ 31 -> triple (Inv L) (should_block fd) (fun _ => Inv L).
Proof.
  intros Hfd. unfold should_block, assert_c. rewrite (proj2 (Z.leb_le 0 fd)) by lia.
  eapply t_bind; [apply (t_ret (fun _ => Inv L))|intros ?; cbn beta]. apply t_get. intros s w [Hw ->].
  destruct (negb _); [done|]. case_bool_decide; [done|]. destruct (fd_in_table (io w) fd) eqn:E; [|done].
  assert (in_range n fd) as Hr.
  { unfold fd_in_table in E. rewrite u64_small in E by lia. apply Z.ltb_lt in E.
    destruct Hw as (H1 & _). rewrite (iw_max _ _ H1) in E. unfold in_range. lia. }
  pose proof (t_read_flags L fd Hr w Hw) as Ht. unfold mbind, io_bind.
  destruct (read_flags fd w); try done. by destruct Ht.
Qed.

Lemma t_wait L fd events : in_range n fd ->
  triple (Inv L) (wait_for_event this_fiber fd events) (fun _ => Inv []).
Proof.
  intros Hfd w (H1 & H2 & _). unfold wait_for_event. rewrite (bind_done get _ w (io w) w) by done.
  destruct (lookup_lt_is_Some_2 (wait_info (ev (io w))) (Z.to_nat fd)) as [i Hi].
  { rewrite (iw_events _ _ H1). unfold in_range in Hfd. lia. }
  rewrite (proj2 (Z.ltb_ge fd 0)) by (unfold in_range in Hfd; lia).
  unfold fiber_wait_for_event. rewrite Hi. cbn [mbind option_bind].
  unfold mbind, io_bind, put, record_action, resume, get, mret, io_ret. cbn [io answers trace].
  destruct (answers w) as [|[|s] rest]; try done. apply Forall_cons in H2 as [Ha H2].
  split_and!; [by apply Ans_resume|done|apply list_subseteq_nil].
Qed.

Lemma t_sleep_fiber L seconds useconds :
  triple (Inv L) (sleep_fiber this_fiber seconds useconds) (fun _ => Inv []).
Proof.
  intros w (H1 & H2 & _). unfold sleep_fiber. rewrite (bind_done get _ w (io w) w) by done.
  rewrite (iw_open _ _ H1). unfold mbind, io_bind, put, record_action, resume. cbn [io answers trace].
  destruct (answers w) as [|[|s] rest]; try done. apply Forall_cons in H2 as [Ha H2].
  split_and!; [by apply Ans_resume|done|apply list_subseteq_nil].
Qed.

Lemma t_fd_closed L fd : in_range n fd -> triple (Inv L) (fd_closed fd) (fun _ => Inv L).
Proof.
  intros Hfd w (H1 & H2 & H3). unfold fd_closed. rewrite (bind_done get _ w (io w) w) by done.
  destruct (wf_fd_closed n (io w) fd H1 Hfd) as (e & E & Hwf).
  rewrite (iw_open _ _ H1), (proj2 (Z.ltb_ge fd 0)), E by (unfold in_range in Hfd; lia).
  split_and!; [exact Hwf|done|done].
Qed.

(** A bind whose first part keeps the invariant, and which ignores its result. *)
Lemma t_seq {A B} P L (m : IO A) (k : IO B) Q :
  triple P m (fun _ => Inv L) -> triple (Inv L) k Q -> triple P (m;; k) Q.
Proof. intros Hm Hk. eapply t_bind; [exact Hm|]. by intros ?. Qed.

Lemma t_ret_inv {A} L (a : A) : triple (Inv L) (mret a) (fun _ => Inv []).
Proof. intros w Hw. eapply Inv_weaken; [exact Hw|apply list_subseteq_nil]. Qed.

Lemma t_call_ret L f args : f ∈ base_shims ++ L ->
  triple (Inv L) (r ← call f args; mret r.1) (fun _ => Inv []).
Proof. intros Hf. eapply t_bind; [by apply t_call|]. intros r. apply t_fact. intros _. apply t_ret_inv. Qed.

Lemma base_in L f : f ∈ base_shims -> f ∈ base_shims ++ L.
Proof. intros. apply elem_of_app. by left. Qed.
Lemma head_in L f : f ∈ base_shims ++ f :: L.
Proof. apply elem_of_app. right. left. Qed.

Lemma t_close L fd : in_range n fd -> triple (Inv L) (close fd) (fun _ => Inv []).
Proof.
  intros Hfd. unfold close. eapply t_seq; [apply t_resolve|]. eapply t_seq; [by apply t_fd_closed|].
  apply t_get. intros s. apply t_drop. eapply t_seq.
  { destruct (_ && _); [by apply t_write_flags|by intros w Hw]. }
  apply t_call_ret, head_in.
Qed.

Lemma t_setup_socket L sock : in_range n sock -> triple (Inv L) (setup_socket sock) (fun _ => Inv []).
Proof.
  intros Hfd. unfold setup_socket. apply t_get. intros s. apply t_drop.
  destruct (negb _); [apply t_ret_inv|]. eapply t_seq; [by apply t_mark_managed|]. eapply t_seq; [apply t_resolve|].
  eapply t_bind; [apply t_call, head_in|]. intros r. apply t_fact. intros _.
  destruct (Z.ltb r.1 0); [apply t_ret_inv|]. eapply t_bind; [apply t_sys|]. intros r'. apply t_fact. intros _. apply t_ret_inv.
Qed.

Lemma t_may_block L wait fd : in_range n fd -> Z.of_nat n <= 2 ^ 31 ->
  triple (Inv L) (may_block wait fd) (fun _ => Inv L).
Proof.
  intros Hfd Hn. unfold may_block. destruct wait; [|by intros w Hw]. apply t_should_block. unfold in_range in Hfd. lia.
Qed.

Lemma t_blocked L wait fd ret : in_range n fd -> Z.of_nat n <= 2 ^ 31 ->
  triple (Inv L) (blocked wait fd ret) (fun _ => Inv L).
Proof.
  intros Hfd Hn. unfold blocked. apply t_get. intros s. apply t_drop.
  destruct (_ && _); [by apply t_may_block|by intros w Hw].
Qed.

Hypothesis n_small : Z.of_nat n <= 2 ^ 31.

Lemma t_wait_then_call wait fd f args : in_range n fd -> f ∈ base_shims ->
  forall fuel L, triple (Inv L) (wait_then_call this_fiber fuel wait fd f args) (fun _ => Inv []).
Proof.
  intros Hfd Hf. induction fuel as [|fuel IH]; intros L; [by intros w Hw|]. cbn [wait_then_call].
  eapply t_bind; [by apply t_may_block|]. intros b. cbn beta.
  eapply (t_bind _ _ _ (fun _ => Inv [])).
  { destruct b; [by apply t_wait|apply t_ret_inv]. }
  intros x. cbn beta. destruct (Z.eqb x 0); [apply t_ret_inv|].
  eapply t_bind; [by apply t_call, base_in|]. intros r. apply t_fact. intros _.
  eapply t_bind; [by apply t_blocked|]. intros []; [apply IH|apply t_ret_inv].
Qed.

Lemma t_wait_and_retry conv wait fd f args : in_range n fd -> f ∈ base_shims ->
  forall fuel L ret, triple (Inv L) (wait_and_retry this_fiber fuel conv wait fd f args ret) (fun _ => Inv []).
Proof.
  intros Hfd Hf. induction fuel as [|fuel IH]; intros L ret; [by intros w Hw|]. cbn [wait_and_retry].
  eapply t_bind; [by apply t_blocked|]. intros []; [|apply t_ret_inv].
  eapply t_bind; [by apply t_wait|]. intros x. cbn beta. destruct (Z.eqb x 0); [apply t_ret_inv|].
  eapply t_bind; [by apply t_call, base_in|]. intros r. apply t_fact. intros _. apply IH.
Qed.

Lemma t_reads wait fd f args : in_range n fd -> f ∈ base_shims ->
  triple (Inv []) (resolve f;; reads this_fiber wait fd f args) (fun _ => Inv []).
Proof.
  intros Hfd Hf. eapply t_seq; [apply t_resolve|]. unfold reads.
  eapply (t_bind _ _ _ (fun _ => Inv [f])); [by intros w Hw|]. intros k. by apply t_wait_then_call.
Qed.

Lemma t_writes conv wait fd f args : in_range n fd -> f ∈ base_shims ->
  triple (Inv []) (resolve f;; writes this_fiber conv wait fd f args) (fun _ => Inv []).
Proof.
  intros Hfd Hf. eapply t_seq; [apply t_resolve|]. unfold writes.
  eapply t_bind; [by apply t_call, base_in|]. intros r. apply t_fact. intros _.
  eapply (t_bind _ _ _ (fun _ => Inv [f])); [by intros w Hw|]. intros k. by apply t_wait_and_retry.
Qed.

(** A new descriptor: set up, or closed again. *)
Lemma t_setup_or_close L sock : in_range n sock ->
  triple (Inv L) (r ← setup_socket sock; if Z.ltb r 0 then close sock;; mret (-1) else mret sock) (fun _ => Inv []).
Proof.
  intros Hs. eapply t_bind; [by apply t_setup_socket|]. intros r. cbn beta.
  destruct (Z.ltb r 0); [|apply t_ret_inv]. eapply t_seq; [by apply t_close|apply t_ret_inv].
Qed.

Lemma t_socket d t p : (forall r e out, Ans (Sys r e out) -> r < Z.of_nat n) ->
  triple (Inv []) (socket d t p) (fun _ => Inv []).
Proof.
  intros HA. unfold socket. eapply t_seq; [apply t_resolve|].
  eapply t_bind; [apply t_call, head_in|]. intros r. apply t_fact. intros [e He].
  destruct (Z.ltb_spec r.1 0); [apply t_ret_inv|]. apply t_setup_or_close. split; [done|by eapply HA].
Qed.

Lemma t_accept sockfd a l : in_range n sockfd -> (forall r e out, Ans (Sys r e out) -> r < Z.of_nat n) ->
  triple (Inv []) (accept this_fiber sockfd a l) (fun _ => Inv []).
Proof.
  intros Hfd HA. unfold accept. eapply t_seq; [apply t_resolve|].
  eapply t_bind; [apply t_call, head_in|]. intros r. apply t_fact. intros [e He].
  eapply t_bind; [by apply t_blocked|]. intros b. cbn beta.
  eapply (t_bind _ _ _ (fun _ => Inv [])); [destruct b; [by apply t_wait|apply t_ret_inv]|].
  intros x. cbn beta. destruct (Z.eqb x 0); [apply t_ret_inv|].
  eapply (t_bind _ _ _ (fun sock w => Inv [] w /\ sock < Z.of_nat n)).
  { destruct b.
    - eapply t_bind; [apply t_call, base_in; unfold base_shims; by do 8 right; left|].
      intros r'. intros w [Hw [e' He']]. split; [done|by eapply HA].
    - intros w Hw. split; [done|by eapply HA]. }
  intros sock. apply t_fact. intros Hs. destruct (Z.ltb_spec 0 sock); [|apply t_ret_inv].
  apply t_setup_or_close. split; [lia|done].
Qed.

Lemma t_connect sockfd a l : in_range n sockfd ->
  triple (Inv []) (connect this_fiber sockfd a l) (fun _ => Inv []).
Proof.
  intros Hfd. unfold connect. eapply t_seq; [apply t_resolve|].
  eapply t_bind; [apply t_call, head_in|]. intros r. apply t_fact. intros _.
  apply t_get. intros s. apply t_drop. eapply (t_bind _ _ _ (fun _ => Inv [sh_connect])).
  { destruct (_ && _); [|by intros w Hw]. apply t_should_block. unfold in_range in Hfd. lia. }
  intros []; [|apply t_ret_inv]. eapply t_bind; [by apply t_wait|]. intros x. cbn beta.
  destruct (Z.eqb x 0); [apply t_ret_inv|]. eapply t_bind; [apply t_sys|]. intros r'. apply t_fact. intros _.
  destruct (negb _); [apply t_ret_inv|]. unfold out_fd. destruct (r'.2 !! 0%nat) as [so|]; [|by intros w Hw].
  eapply (t_bind _ _ _ (fun _ => Inv [])); [by intros w Hw|]. intros so'. cbn beta. destruct (negb _); [|apply t_ret_inv].
  intros w (H1 & H2 & H3). split_and!; [by apply wf_set_errno|done|done].
Qed.

(** The kernel reports descriptors of the process in out parameters. *)
Lemma t_out_fd {A} L (r : Z * list Z) i (k : Z -> IO A) Q :
  Forall (in_range n) r.2 -> (forall fd, in_range n fd -> triple (Inv L) (k fd) Q) ->
  triple (Inv L) (fd ← out_fd r.2 i; k fd) Q.
Proof.
  intros Hr Hk. unfold out_fd. destruct (r.2 !! i) as [fd|] eqn:E; [|by intros w Hw].
  eapply (t_bind _ _ _ (fun a w => Inv L w /\ in_range n a)).
  - intros w Hw. split; [done|]. rewrite Forall_forall in Hr. by eapply Hr, list_elem_of_lookup_2.
  - intros a. apply t_fact. apply Hk.
Qed.

Lemma t_close_both {A} L fd0 fd1 (a : A) : in_range n fd0 -> in_range n fd1 ->
  triple (Inv L) (close fd0;; close fd1;; mret a) (fun _ => Inv []).
Proof.
  intros H0 H1. eapply t_seq; [by apply t_close|]. eapply t_seq; [by apply t_close|]. apply t_ret_inv.
Qed.

Lemma t_socketpair d t p : (forall r e out, Ans (Sys r e out) -> Forall (in_range n) out) ->
  triple (Inv []) (socketpair d t p) (fun _ => Inv []).
Proof.
  intros HA. unfold socketpair. eapply t_seq; [apply t_resolve|].
  eapply t_bind; [apply t_call, head_in|]. intros r. apply t_fact. intros [e He].
  destruct (Z.eqb r.1 0); [|apply t_ret_inv].
  apply t_out_fd; [by eapply HA|intros fd0 H0]. apply t_out_fd; [by eapply HA|intros fd1 H1].
  eapply t_bind; [by apply t_setup_socket|]. intros x. cbn beta.
  eapply (t_bind _ _ _ (fun _ => Inv [])).
  { destruct (negb _); [apply t_ret_inv|]. eapply t_bind; [by apply t_setup_socket|]. intros y. apply t_ret_inv. }
  intros []; [by apply t_close_both|apply t_ret_inv].
Qed.

Lemma t_pipe : (forall r e out, Ans (Sys r e out) -> Forall (in_range n) out) ->
  triple (Inv []) pipe (fun _ => Inv []).
Proof.
  intros HA. unfold pipe. eapply t_seq; [apply t_resolve|].
  eapply t_bind; [apply t_call, head_in|]. intros r. apply t_fact. intros [e He].
  apply t_get. intros s. apply t_drop. destruct (_ && _); [|apply t_ret_inv].
  eapply t_seq; [apply t_resolve|].
  apply t_out_fd; [by eapply HA|intros fd0 H0]. apply t_out_fd; [by eapply HA|intros fd1 H1].
  eapply t_bind; [apply t_call, head_in|]. intros x. apply t_fact. intros _.
  destruct (Z.ltb _ 0); [by apply t_close_both|].
  eapply t_bind; [apply t_call, head_in|]. intros y. apply t_fact. intros _.
  destruct (Z.ltb _ 0); [by apply t_close_both|].
  eapply t_seq; [by apply t_mark_managed|]. eapply t_seq; [by apply t_mark_managed|]. apply t_ret_inv.
Qed.

(** A call to the real function whose result is dropped. *)
Lemma t_real {A} L f args (a : A) : triple (Inv L) (resolve f;; call f args;; mret a) (fun _ => Inv []).
Proof.
  eapply t_seq; [apply t_resolve|]. eapply t_bind; [apply t_call, head_in|]. intros r. apply t_fact. intros _.
  apply t_ret_inv.
Qed.

Lemma t_sleeps seconds useconds f args {A} (a b : A) :
  triple (Inv []) (s ← get; if fiber_context_p s then sleep_fiber this_fiber seconds useconds;; mret a
                            else resolve f;; call f args;; mret b) (fun _ => Inv []).
Proof.
  apply t_get. intros s. apply t_drop. destruct (fiber_context_p s); [|apply t_real].
  eapply t_seq; [apply t_sleep_fiber|apply t_ret_inv].
Qed.

(** Setting or clearing a flag, with the assertions around it. *)
Lemma t_set_flag fd b : in_range n fd ->
  triple (Inv [])
    (if (b : bool) then atomic_fetch_and fd (Z.lnot IO_FLAG_BLOCKING);;
                        v ← read_flags fd; assert_c (Z.eqb (Z.land v IO_FLAG_BLOCKING) 0)
     else atomic_fetch_or fd IO_FLAG_BLOCKING;;
          v ← read_flags fd; assert_c (negb (Z.eqb (Z.land v IO_FLAG_BLOCKING) 0))) (fun _ => Inv []).
Proof.
  intros Hfd w (H1 & H2 & H3). destruct (wf_flags _ _ _ H1 Hfd) as (t & v & Hf).
  destruct b.
  - rewrite (bind_done _ _ _ _ _ (fetch_and_done _ _ _ _ _ Hf)). set (v' := u8 _).
    assert (v' = 0 \/ v' = 2) as Hv'.
    { unfold v'. destruct Hf as (_ & _ & _ & _ & Hv). destruct (flag_cases v Hv) as [?|[?|[?|?]]]; subst; auto. }
    rewrite (bind_done _ _ _ _ _ (read_flags_done _ _ _ _ (has_flags_with w t fd v v' Hf ltac:(lia)))).
    assert (Z.eqb (Z.land v' IO_FLAG_BLOCKING) 0 = true) as -> by (by destruct Hv' as [Ev|Ev]; rewrite Ev).
    split_and!; [|done|done]. by eapply wf_insert; [| |lia].
  - rewrite (bind_done _ _ _ _ _ (fetch_or_done _ _ _ _ _ Hf)). set (v' := u8 _).
    assert (v' = 1 \/ v' = 3) as Hv'.
    { unfold v'. destruct Hf as (_ & _ & _ & _ & Hv). destruct (flag_cases v Hv) as [?|[?|[?|?]]]; subst; auto. }
    rewrite (bind_done _ _ _ _ _ (read_flags_done _ _ _ _ (has_flags_with w t fd v v' Hf ltac:(lia)))).
    assert (Z.eqb (Z.land v' IO_FLAG_BLOCKING) 0 = false) as -> by (by destruct Hv' as [Ev|Ev]; rewrite Ev).
    split_and!; [|done|done]. by eapply wf_insert; [| |lia].
Qed.

Lemma t_in_table {A} s fd (k : IO A) Q : in_range n fd -> triple (Inv []) k Q ->
  triple (fun w => Inv [] w /\ s = io w) (assert_c (fd_in_table s fd);; k) Q.
Proof.
  intros Hfd Hk w [Hw ->]. destruct (wf_flags _ _ _ (proj1 Hw) Hfd) as (t & v & Hf).
  rewrite (in_table_done _ _ _ _ Hf). rewrite (bind_done _ _ w tt w) by done. by apply Hk.
Qed.

Lemma t_fcntl fd cmd val : in_range n fd -> triple (Inv []) (fcntl fd cmd val) (fun _ => Inv []).
Proof.
  intros Hfd. unfold fcntl. apply t_get. intros s. destruct (_ && _).
  - apply t_in_table; [done|]. intros w Hw.
    pose proof (t_set_flag fd true Hfd w Hw) as Ht. revert Ht. unfold mbind, io_bind.
    destruct (atomic_fetch_and _ _ w) as [[] w1| |]; try done.
    destruct (read_flags fd w1) as [v w2| |]; try done. by destruct (assert_c _ w2).
  - apply t_drop. eapply t_seq; [apply t_resolve|]. apply t_call_ret, head_in.
Qed.

Lemma t_ioctl d request val pointee : in_range n d -> triple (Inv []) (ioctl d request val pointee) (fun _ => Inv []).
Proof.
  intros Hfd. unfold ioctl. apply t_get. intros s. destruct (_ && _).
  - destruct (Z.eqb val NULL).
    + intros w [(H1 & H2 & H3) ->]. split_and!; [by apply wf_set_errno|done|done].
    + apply t_in_table; [done|]. eapply t_seq; [apply t_set_flag; exact Hfd|]. apply t_ret_inv.
  - apply t_drop. eapply t_seq; [apply t_resolve|]. apply t_call_ret, head_in.
Qed.

Lemma t_lock v (a : Z) : triple (Inv []) (s ← get; put (set_locked s v);; mret a) (fun _ => Inv []).
Proof.
  apply t_get. intros s w [(H1 & H2 & H3) ->]. split_and!; [by apply wf_set_locked|done|done].
Qed.

End safety.

(** The descriptor a call works on is one of the process. *)
Definition op_ok (n : nat) (op : io_op) : Prop :=
  match op with
  | OAccept fd _ _ | OConnect fd _ _ | ORead fd _ _ | OReadv fd _ _ | ORecv fd _ _ _
  | ORecvfrom fd _ _ _ _ _ | ORecvmsg fd _ _ | OWrite fd _ _ | OWritev fd _ _ | OSend fd _ _ _
  | OSendto fd _ _ _ _ _ | OSendmsg fd _ _ | OFcntl fd _ _ | OIoctl fd _ _ _ | OClose fd => in_range n fd
  | _ => True
  end.

(** New descriptors are below the limit; other fibers keep the state well
    formed. *)
Definition answer_ok (n : nat) (op : io_op) (a : answer) : Prop :=
  match a with
  | Resume s => io_wf n s
  | Sys r _ out =>
      match op with
      | OSocket _ _ _ | OAccept _ _ _ => r < Z.of_nat n
      | OPipe | OSocketpair _ _ _ => Forall (in_range n) out
      | _ => True
      end
  end.


Lemma io_demo_wf : io_wf 4 io_demo.
Proof.
  split; try done.
  - eexists. split_and!; [done|done|]. repeat (constructor; [lia|]). constructor.
  - eexists. exact ev_wait_demo_inv.
Qed.


(** ** New connections *)

(** A blocking [accept] waits once.  If no connection is pending the fiber
    waits for one and calls again; whatever that second call reports is the
    result, "would block" included (another fiber may have taken the
    connection), and descriptor 0 is returned without being set up. *)
Theorem accept_retries_once this_fiber sockfd a l w s r e out rest :
  managed sockfd (io w) -> is_Some (wait_info (ev (io w)) !! Z.to_nat sockfd) ->
  sh_accept ∈ fibershim s -> woken this_fiber FIBER_SUCCESS s -> r <= 0 ->
  answers w = Sys (-1) EAGAIN [] :: Resume s :: Sys r e out :: rest ->
  exists w', io_exec this_fiber (OAccept sockfd a l) w = Done r w' /\ answers w' = rest /\
    trace w' = trace w ++ [ACall sh_accept [sockfd; a; l]; AWait sockfd FIBER_POLL_IN; ACall sh_accept [sockfd; a; l]] /\
    fd_info (io w') = fd_info s /\ (r < 0 -> errno (io w') = e).
Proof.
  intros Hm Hi Hs Hwk Hr Ha. cbn [io_exec]. unfold accept.
  destruct (resolve_done sh_accept w) as (w0 & E0 & Hf & A0 & T0 & _ & Hio). rewrite (bind_done _ _ _ _ _ E0).
  rewrite <- A0 in Ha. rewrite (bind_done _ _ _ _ _ (call_done _ _ w0 _ _ _ _ Hf Ha)). cbn [fst Z.ltb Z.compare].
  set (w1 := World _ _ _).
  assert (suspendable sh_accept sockfd (io w1)) as Hs1.
  { simpl. apply suspendable_errno. rewrite Hio. split; [done|]. by rewrite managed_shims. }
  rewrite (bind_done _ _ w1 true w1) by (eapply blocked_again; [apply Hs1|lia|reflexivity|reflexivity]).
  rewrite (bind_done _ _ _ _ _ (wait_done this_fiber sh_accept sockfd FIBER_POLL_IN w1 s _ Hs1 eq_refl)).
  rewrite Hwk. cbn [Z.eqb FIBER_SUCCESS]. set (w2 := World s _ _).
  rewrite (bind_done _ _ w2 r (World (if Z.ltb r 0 then set_errno s e else s) rest (trace w2 ++ [ACall sh_accept [sockfd; a; l]]))).
  2:{ by rewrite (bind_done _ _ _ _ _ (call_done _ _ w2 _ _ _ _ Hs eq_refl)). }
  rewrite (proj2 (Z.ltb_ge 0 r)) by lia. eexists. split; [reflexivity|]. split_and!; [done| | |].
  - simpl. rewrite T0. by rewrite <- !app_assoc.
  - simpl. by destruct (Z.ltb r 0).
  - intros Hneg. simpl. by rewrite (proj2 (Z.ltb_lt r 0)).
Qed.

Definition accept_world : world := World io_demo [Sys (-1) EAGAIN []; Resume io_demo; Sys (-1) EAGAIN []] [].

Lemma accept_retries_once_witness :
  exists w', io_exec 80 (OAccept 3 0 0) accept_world = Done (-1) w' /\ answers w' = [] /\
    trace w' = [] ++ [ACall sh_accept [3; 0; 0]; AWait 3 FIBER_POLL_IN; ACall sh_accept [3; 0; 0]] /\
    fd_info (io w') = fd_info io_demo /\ (-1 < 0 -> errno (io w') = EAGAIN).
Proof.
  apply (accept_retries_once 80 3 0 0 accept_world io_demo (-1) EAGAIN [] []).
  - exact io_demo_managed.
  - simpl. by eexists.
  - by do 8 right; left.
  - reflexivity.
  - lia.
  - reflexivity.
Defined.

(** Setting up a new socket: its flags, then its mode, then its options. *)
Lemma setup_socket_done w sock t v r1 e1 out1 rest :
  has_flags (io w) sock t v -> thread_locked (io w) = 0 -> answers w = Sys r1 e1 out1 :: rest ->
  exists w1, answers w1 = rest /\
    trace w1 = trace w ++ [ACall sh_fcntl [sock; F_SETFL; O_NONBLOCK]] /\
    fd_info (io w1) = Some (<[Z.to_nat sock:=3]> t) /\ max_fd (io w1) = max_fd (io w) /\
    thread_locked (io w1) = 0 /\ ev (io w1) = ev (io w) /\
    setup_socket sock w = (if Z.ltb r1 0 then mret r1 else r ← sys (ASetsockopt sock); mret r.1) w1.
Proof.
  intros Hf Hl Ha. unfold setup_socket. rewrite (bind_done get _ w (io w) w) by done. rewrite Hl. cbn [Z.eqb negb].
  rewrite (bind_done _ _ _ _ _ (mark_managed_done _ _ _ _ Hf)). set (w1 := with_flags w t sock 3).
  destruct (resolve_done sh_fcntl w1) as (w2 & E2 & Hin & A2 & T2 & _ & Hio). rewrite (bind_done _ _ _ _ _ E2).
  assert (answers w2 = Sys r1 e1 out1 :: rest) as Ha2 by (by rewrite A2).
  rewrite (bind_done _ _ _ _ _ (call_done _ _ w2 _ _ _ _ Hin Ha2)). cbn [fst].
  eexists. split; [|split; [|split; [|split; [|split; [|split; [|reflexivity]]]]]]; cbn [io answers trace];
    [done|by rewrite T2| | | |]; destruct (Z.ltb r1 0); cbn; by rewrite Hio.
Qed.

(** Closing a descriptor of the table: its waiters are woken, its flags cleared. *)
Lemma close_done w fd t v evc r e out rest :
  has_flags (io w) fd t v -> event_open (ev (io w)) = true ->
  fiber_fd_closed (ev (io w)) (Z.to_nat fd) = Some evc -> 0 <= r -> answers w = Sys r e out :: rest ->
  exists w', close fd w = Done r w' /\ answers w' = rest /\
    trace w' = trace w ++ [AFdClosed fd; ACall sh_close [fd]] /\ unmanaged fd (io w').
Proof.
  intros Hf Ho Ec Hr Ha.
  destruct (resolve_done sh_close w) as (w3 & E3 & Hin3 & A3 & T3 & _ & Hio3).
  set (w4 := World (set_ev (io w3) evc) (answers w3) (trace w3 ++ [AFdClosed fd])).
  set (w5 := with_flags w4 t fd 0).
  assert (has_flags (io w4) fd t v) as Hf4 by (unfold w4; cbn [io]; by rewrite Hio3).
  assert (answers w5 = Sys r e out :: rest) as A5 by (unfold w5, w4; cbn; by rewrite A3).
  assert (ev (io w3) = ev (io w)) as Hev by (by rewrite Hio3).
  exists (World (io w5) rest (trace w5 ++ [ACall sh_close [fd]])). split_and!; [|done| |].
  - unfold close. rewrite (bind_done _ _ _ _ _ E3). rewrite (bind_done _ _ w3 tt w4).
    2:{ unfold fd_closed. rewrite (bind_done get _ w3 (io w3) w3) by done.
        unfold mbind, io_bind, record_action. destruct Hf as (_ & Hfd & _).
        by rewrite Hev, Ho, (proj2 (Z.ltb_ge fd 0)), Ec by lia. }
    rewrite (bind_done get _ w4 (io w4) w4) by done.
    rewrite (in_table_done _ _ _ _ Hf4), bool_decide_false by (destruct Hf4 as (-> & _); done). cbn [negb andb].
    rewrite (bind_done _ _ _ _ _ (write_flags_done _ _ _ _ 0 Hf4)).
    rewrite (bind_done _ _ _ _ _ (call_done sh_close [fd] w5 r e out rest Hin3 A5)).
    by rewrite (proj2 (Z.ltb_ge r 0)).
  - unfold w5, w4. cbn. rewrite T3. by rewrite <- !app_assoc.
  - pose proof (has_flags_with w4 _ fd v 0 Hf4 ltac:(lia)) as (H1 & H2 & H3 & H4 & _).
    split; [done|]. right. right. right. by eexists _, 0.
Qed.

(** New sockets are managed.  [socket] in a fiber returns the kernel's
    descriptor, marked in the table and put in non-blocking mode, so that calls
    on it suspend the fiber; when the mode cannot be set the descriptor is closed
    again, its flags are cleared and -1 is returned. *)
Theorem socket_managed n this_fiber domain type protocol w sock e0 out0 r1 e1 out1 r2 e2 out2 rest :
  io_wf n (io w) -> thread_locked (io w) = 0 -> in_range n sock -> 0 <= r2 ->
  answers w = Sys sock e0 out0 :: Sys r1 e1 out1 :: Sys r2 e2 out2 :: rest ->
  let calls := [ACall sh_socket [domain; type; protocol]; ACall sh_fcntl [sock; F_SETFL; O_NONBLOCK]] in
  exists w', answers w' = rest /\
    (0 <= r1 -> io_exec this_fiber (OSocket domain type protocol) w = Done sock w' /\
       managed sock (io w') /\ trace w' = trace w ++ calls ++ [ASetsockopt sock]) /\
    (r1 < 0 -> io_exec this_fiber (OSocket domain type protocol) w = Done (-1) w' /\
       unmanaged sock (io w') /\ trace w' = trace w ++ calls ++ [AFdClosed sock; ACall sh_close [sock]]).
Proof.
  intros Hwf Hl Hr Hr2 Ha calls. cbn [io_exec]. unfold socket.
  destruct (resolve_done sh_socket w) as (w0 & E0 & Hin & A0 & T0 & Hsub & Hio). rewrite (bind_done _ _ _ _ _ E0).
  rewrite <- A0 in Ha. rewrite (bind_done _ _ _ _ _ (call_done _ _ w0 _ _ _ _ Hin Ha)). cbn [fst].
  rewrite (proj2 (Z.ltb_ge sock 0)) by (unfold in_range in Hr; lia). set (w1 := World (io w0) _ _).
  assert (io_wf n (io w0)) as Hwf0 by (rewrite Hio; by apply wf_set_shims).
  destruct (wf_flags _ _ _ Hwf0 Hr) as (t & v & Hf).
  destruct (setup_socket_done w1 sock t v r1 e1 out1 (Sys r2 e2 out2 :: rest)) as
    (w2 & A2 & T2 & F2 & M2 & L2 & V2 & Es); [done|simpl; by rewrite Hio|done|].
  assert (has_flags (io w2) sock (<[Z.to_nat sock:=3]> t) 3) as Hf2.
  { destruct Hf as (Ht & Hs & Hlt & Hv & Hv4). split_and!; try done; try lia; try apply Hs.
    - rewrite M2. apply Hlt.
    - apply list_lookup_insert_eq. by eapply lookup_lt_Some. }
  destruct (Z.ltb_spec r1 0) as [Hneg|Hpos].
  - destruct (wf_fd_closed n (io w0) sock Hwf0 Hr) as (evc & Ec & _).
    destruct (close_done w2 sock (<[Z.to_nat sock:=3]> t) 3 evc r2 e2 out2 rest) as (w' & E' & A' & T' & U');
      [done|rewrite V2; apply (iw_open _ _ Hwf0)|by rewrite V2|done|done|].
    exists w'. split; [done|]. split; [lia|]. intros _. split_and!; [|done|].
    + rewrite (bind_done _ _ w1 r1 w2) by (by rewrite Es). rewrite (proj2 (Z.ltb_lt r1 0)) by done.
      by rewrite (bind_done _ _ _ _ _ E').
    + rewrite T', T2. unfold w1, calls. cbn. rewrite T0. by rewrite <- !app_assoc.
  - eexists. split; [|split; [intros _; split; [|split]|lia]].
    2:{ rewrite (bind_done _ _ w1 r2 (World (io w2) rest (trace w2 ++ [ASetsockopt sock]))).
        - rewrite (proj2 (Z.ltb_ge r2 0)) by done. reflexivity.
        - rewrite Es. unfold mbind, io_bind, sys. rewrite A2. by rewrite (proj2 (Z.ltb_ge r2 0)). }
    + done.
    + by eapply flags_managed; [exact Hf2| |].
    + cbn. rewrite T2. unfold w1, calls. cbn. rewrite T0. by rewrite <- !app_assoc.
Qed.

Definition socket_world : world := World io_demo [Sys 1 0 []; Sys 0 0 []; Sys 0 0 []] [].

Lemma socket_managed_witness :
  let calls := [ACall sh_socket [2; 1; 0]; ACall sh_fcntl [1; F_SETFL; O_NONBLOCK]] in
  exists w', answers w' = [] /\
    (0 <= 0 -> io_exec 80 (OSocket 2 1 0) socket_world = Done 1 w' /\
       managed 1 (io w') /\ trace w' = [] ++ calls ++ [ASetsockopt 1]) /\
    (0 < 0 -> io_exec 80 (OSocket 2 1 0) socket_world = Done (-1) w' /\
       unmanaged 1 (io w') /\ trace w' = [] ++ calls ++ [AFdClosed 1; ACall sh_close [1]]).
Proof.
  apply (socket_managed 4 80 2 1 0 socket_world 1 0 [] 0 0 [] 0 0 [] []).
  - exact io_demo_wf.
  - reflexivity.
  - split; lia.
  - lia.
  - reflexivity.
Defined.

(** ** Connecting and sleeping *)

(** A blocking [connect].  While the connection is being made the fiber
    waits; then the error of the socket decides: 0 if there is none, -1 with
    that error in [errno] otherwise. *)
Theorem connect_reports this_fiber sockfd a l w s r2 e2 so_error rest :
  managed sockfd (io w) -> is_Some (wait_info (ev (io w)) !! Z.to_nat sockfd) ->
  woken this_fiber FIBER_SUCCESS s ->
  answers w = Sys (-1) EINPROGRESS [] :: Resume s :: Sys r2 e2 [so_error] :: rest ->
  exists w', answers w' = rest /\
    trace w' = trace w ++ [ACall sh_connect [sockfd; a; l]; AWait sockfd FIBER_POLL_OUT; AGetsockopt sockfd] /\
    io_exec this_fiber (OConnect sockfd a l) w = Done (if decide (r2 = 0 /\ so_error = 0) then 0 else -1) w' /\
    (r2 = 0 -> so_error <> 0 -> errno (io w') = so_error) /\ (r2 < 0 -> errno (io w') = e2).
Proof.
  intros Hm Hi Hwk Ha. cbn [io_exec]. unfold connect.
  destruct (resolve_done sh_connect w) as (w0 & E0 & Hf & A0 & T0 & _ & Hio). rewrite (bind_done _ _ _ _ _ E0).
  rewrite <- A0 in Ha. rewrite (bind_done _ _ _ _ _ (call_done _ _ w0 _ _ _ _ Hf Ha)). cbn [fst Z.ltb Z.compare].
  set (w1 := World _ _ _).
  assert (suspendable sh_connect sockfd (io w1)) as Hs1.
  { simpl. apply suspendable_errno. rewrite Hio. split; [done|]. by rewrite managed_shims. }
  rewrite (bind_done get _ w1 (io w1) w1) by done. change (errno (io w1)) with EINPROGRESS.
  rewrite Z.eqb_refl. cbn [andb]. rewrite (bind_done _ _ w1 true w1) by apply should_block_managed, Hs1.
  rewrite (bind_done _ _ _ _ _ (wait_done this_fiber sh_connect sockfd FIBER_POLL_OUT w1 s _ Hs1 eq_refl)).
  rewrite Hwk. cbn [Z.eqb FIBER_SUCCESS]. set (w2 := World s _ _).
  set (w3 := World (if Z.ltb r2 0 then set_errno s e2 else s) rest (trace w2 ++ [AGetsockopt sockfd])).
  rewrite (bind_done _ _ w2 (r2, [so_error]) w3) by done. cbn [fst snd].
  assert (trace w3 = trace w ++ [ACall sh_connect [sockfd; a; l]; AWait sockfd FIBER_POLL_OUT; AGetsockopt sockfd]) as T3.
  { unfold w3, w2, w1. cbn. rewrite T0. by rewrite <- !app_assoc. }
  destruct (Z.eqb_spec r2 0) as [->|Hr2]; cbn [negb].
  - rewrite (bind_done (out_fd [so_error] 0) _ w3 so_error w3) by done.
    destruct (Z.eqb_spec so_error 0) as [->|Hso]; cbn [negb]; eexists; (split; [|split; [|split; [|split]]]);
      try (by rewrite decide_True); try (by rewrite decide_False by tauto); done.
  - eexists. split; [|split; [exact T3|split; [rewrite decide_False by tauto; reflexivity|split; [done|]]]]; [done|].
    intros Hneg. cbn. by rewrite (proj2 (Z.ltb_lt r2 0)).
Qed.

Definition connect_world : world := World io_demo [Sys (-1) EINPROGRESS []; Resume io_demo; Sys 0 0 [111]] [].

Lemma connect_reports_witness :
  exists w', answers w' = [] /\
    trace w' = [] ++ [ACall sh_connect [3; 0; 0]; AWait 3 FIBER_POLL_OUT; AGetsockopt 3] /\
    io_exec 80 (OConnect 3 0 0) connect_world = Done (-1) w' /\
    (0 = 0 -> 111 <> 0 -> errno (io w') = 111) /\ (0 < 0 -> errno (io w') = 0).
Proof.
  apply (connect_reports 80 3 0 0 connect_world io_demo 0 0 111 []).
  - exact io_demo_managed.
  - simpl. by eexists.
  - reflexivity.
  - reflexivity.
Defined.

(** The time a sleeping call asks for, in nanoseconds. *)
Definition requested_ns (op : io_op) : option Z :=
  match op with
  | OSleep s => if decide (0 <= s < 2 ^ 32) then Some (s * 1000000000) else None
  | OUsleep u => if decide (0 <= u < 2 ^ 32) then Some (u * 1000) else None
  | ONanosleep s ns _ =>
      if decide (0 <= s < 2 ^ 32 /\ 0 <= ns < 1000000000) then Some (s * 1000000000 + ns) else None
  | _ => None
  end.

Lemma sleep_ms_covers sec us : 0 <= sec -> 0 <= us -> sec * 1000 + us / 1000 + 1 < 2 ^ 32 ->
  (sec * 1000000 + us) * 1000 < sleep_ms sec us * 1000000 <= (sec * 1000000 + us) * 1000 + 1000000.
Proof. intros Hs Hu Hlt. unfold sleep_ms, u32. Z.to_euclidean_division_equations. lia. Qed.

Lemma sleep_fiber_done this_fiber sec us w s rest : event_open (ev (io w)) = true ->
  answers w = Resume s :: rest ->
  sleep_fiber this_fiber sec us w = Done tt (World s rest (trace w ++ [AFiberSleep (u32 sec) (u32 us)])).
Proof.
  intros Ho Ha. unfold sleep_fiber. rewrite (bind_done get _ w (io w) w) by done. rewrite Ho.
  unfold mbind, io_bind, put, record_action, resume. cbn [io answers trace]. by rewrite Ha.
Qed.

(** Sleeping.  In a fiber, [sleep], [usleep] and [nanosleep] suspend the
    fiber for at least the time asked for and less than three milliseconds
    longer, in the units of [fiber_sleep], and return 0. *)
Theorem sleeps_cover this_fiber op ns w s rest :
  requested_ns op = Some ns -> ns < (2 ^ 32 - 2) * 1000000 -> fiber_context_p (io w) = true ->
  event_open (ev (io w)) = true -> answers w = Resume s :: rest ->
  exists sec us, ns < sleep_ms sec us * 1000000 < ns + 3000000 /\
    io_exec this_fiber op w = Done 0 (World s rest (trace w ++ [AFiberSleep sec us])).
Proof.
  intros Hop Hns Hc Ho Ha.
  destruct op; try done; cbn [requested_ns] in Hop; case_decide as Hrange; simplify_eq; cbn [io_exec].
  - exists seconds, 0. pose proof (sleep_ms_covers seconds 0 ltac:(lia) ltac:(lia)
      ltac:(Z.to_euclidean_division_equations; lia)).
    split; [lia|]. unfold sleep. rewrite (bind_done get _ w (io w) w) by done. rewrite Hc.
    rewrite (bind_done _ _ _ _ _ (sleep_fiber_done this_fiber seconds 0 w s rest Ho Ha)).
    by rewrite !u32_small by lia.
  - assert (0 <= useconds / 1000000 /\ 0 <= useconds mod 1000000 < 1000000 /\
      useconds = useconds / 1000000 * 1000000 + useconds mod 1000000) as (Hd & Hmd & Heq)
      by (Z.to_euclidean_division_equations; lia).
    exists (useconds / 1000000), (useconds mod 1000000).
    pose proof (sleep_ms_covers (useconds / 1000000) (useconds mod 1000000) Hd ltac:(lia)
      ltac:(Z.to_euclidean_division_equations; lia)).
    split; [lia|]. unfold usleep. rewrite (bind_done get _ w (io w) w) by done. rewrite Hc.
    rewrite (bind_done _ _ _ _ _ (sleep_fiber_done this_fiber _ _ w s rest Ho Ha)).
    by rewrite !u32_small by lia.
  - exists tv_sec, (Z.quot tv_nsec 1000 + 1).
    assert (0 <= Z.quot tv_nsec 1000 < 1000000 /\ Z.quot tv_nsec 1000 * 1000 <= tv_nsec < Z.quot tv_nsec 1000 * 1000 + 1000)
      as [Hq1 Hq2] by (Z.to_euclidean_division_equations; lia).
    pose proof (sleep_ms_covers tv_sec (Z.quot tv_nsec 1000 + 1) ltac:(lia) ltac:(lia)
      ltac:(Z.to_euclidean_division_equations; lia)).
    split; [lia|]. unfold nanosleep.
    assert (forall {A B} (m : IO A) (f : A -> B) a w1, m w = Done a w1 -> (r ← m; mret (f r)) w = Done (f a) w1) as Hmap
      by (intros A B m f a w1 E; by rewrite (bind_done _ _ _ _ _ E)).
    erewrite (Hmap _ _ _ fst); [|rewrite (bind_done get _ w (io w) w) by done; rewrite Hc;
      by rewrite (bind_done _ _ _ _ _ (sleep_fiber_done this_fiber _ _ w s rest Ho Ha))].
    cbn [fst]. by rewrite !u32_small by lia.
Qed.

Lemma sleeps_cover_witness :
  exists sec us, 2500000 < sleep_ms sec us * 1000000 < 2500000 + 3000000 /\
    io_exec 80 (OUsleep 2500) (World io_demo [Resume io_demo] []) =
    Done 0 (World io_demo [] ([] ++ [AFiberSleep sec us])).
Proof.
  apply (sleeps_cover 80 (OUsleep 2500) 2500000 (World io_demo [Resume io_demo] []) io_demo []).
  - reflexivity.
  - lia.
  - reflexivity.
  - reflexivity.
  - reflexivity.
Defined.
