(* ===== verification/NodePool.v ===== *)
(** * The pool of queue nodes ([src/fiber_manager.c])

    [fiber_manager_get_mpmc_node] hands out the nodes of the multi-consumer
    queues, [fiber_manager_return_mpmc_node] and the reclamation callback
    [fiber_manager_return_mpmc_node_internal] take them back.  Free nodes are kept
    in a ring buffer of 2^10 cells, which the first caller creates and installs by
    compare-and-swap; when it is empty a node is allocated, when it is full a node
    is freed.  The operations of the ring buffer run at the granularity of
    [RingBuffer], so everything interleaves. *)

From S2P Require Import Prelude RingBuffer MpscFifo.

(** ** State *)

(** The part of [mpmc_fifo_node_t] that the pool writes; the rest belongs to the
    queues. *)
Record pool_node := PoolNode { gc_data : Z; gc_function : Z }.
#[global] Instance pool_node_eq_dec : EqDecision pool_node.
Proof. solve_decision. Defined.

(** The address of [fiber_manager_return_mpmc_node_internal]. *)
Definition RETURN_NODE_INTERNAL : Z := 1.

(** [free_mpmc_nodes] is NULL or the address of a ring; [pool_used]: the nodes
    that callers hold, never read by the operations. *)
Record pool_shared := PShared {
  free_mpmc_nodes : Z;
  pool_rings : gmap Z (ring Z);
  pool_heap : gmap Z pool_node;
  pool_used : gset Z
}.

Inductive pool_pc :=
| PlIdle
| PlGetLoad                                      (* load fiber_free_mpmc_nodes *)
| PlGetCreate                                    (* lockfree_ring_buffer_create(10) *)
| PlGetCas (new_nodes : Z)
| PlGetDestroy (new_nodes : Z)                   (* lost the race *)
| PlGetReload
| PlGetPop (free_nodes : Z) (rpc : ring_pc Z)    (* lockfree_ring_buffer_trypop *)
| PlGetMalloc
| PlGetInit (ret : Z)                            (* the two hazard fields *)
| PlGetReturn (ret : Z)
| PlPutLoad (node : Z)
| PlPutPush (free_nodes node : Z) (rpc : ring_pc Z)
| PlPutFree (node : Z).

(** [PlFresh]: the address that [calloc] or [malloc] returns ([None]: no memory);
    [PlSpurious]: a weak compare-and-swap fails. *)
Inductive pool_choice := PlCallGet | PlCallPut (node : Z) | PlGo | PlSpurious | PlFresh (a : option Z) (garbage : pool_node).

Inductive pool_ev := EvGet (n : Z) | EvPut (n : Z).

Definition set_rings (s : pool_shared) (m : gmap Z (ring Z)) : pool_shared :=
  PShared (free_mpmc_nodes s) m (pool_heap s) (pool_used s).
Definition set_pool_heap (s : pool_shared) (h : gmap Z pool_node) : pool_shared :=
  PShared (free_mpmc_nodes s) (pool_rings s) h (pool_used s).

(** ** Operations *)

(** How a call to the ring buffer proceeds: [call] is the operation called. *)
Definition ring_label (ch : pool_choice) (call : ring_choice Z) (rpc : ring_pc Z) : ring_choice Z :=
  match rpc, ch with RIdle, _ => call | _, PlSpurious => RSpurious | _, _ => RGo end.

(** One step inside the ring at address [a]; the assertion [rb] of its operations
    fails when there is none. *)
Definition in_ring (t : nat) (ch : pool_choice) (call : ring_choice Z) (s : pool_shared) (a : Z) (rpc : ring_pc Z)
    : option (pool_shared * ring_pc Z) :=
  r ← pool_rings s !! a;
  '(r', rpc', _) ← ring_tstep t (ring_label ch call rpc) r rpc;
  Some (set_rings s (<[a:=r']> (pool_rings s)), rpc').

(** [lockfree_ring_buffer_destroy] is [free]. *)
Definition lockfree_ring_buffer_destroy (s : pool_shared) (a : Z) : option pool_shared :=
  if decide (a = NULL) then Some s
  else match pool_rings s !! a with Some _ => Some (set_rings s (delete a (pool_rings s))) | None => None end.

Definition fiber_manager_return_mpmc_node_internal (t : nat) (ch : pool_choice) (s : pool_shared) (pc : pool_pc)
    : option (pool_shared * pool_pc * list pool_ev) :=
  match pc with
  | PlPutLoad n =>
      if decide (free_mpmc_nodes s = NULL) then Some (s, PlPutFree n, [])
      else Some (s, PlPutPush (free_mpmc_nodes s) n RIdle, [])
  | PlPutPush a n (RPushDone ok) => Some (s, if ok : bool then PlIdle else PlPutFree n, [])
  | PlPutPush a n rpc =>
      '(s', rpc') ← in_ring t ch (RCallTryPush n) s a rpc; Some (s', PlPutPush a n rpc', [])
  | PlPutFree n =>
      match pool_heap s !! n with
      | Some _ => Some (set_pool_heap s (delete n (pool_heap s)), PlIdle, [])
      | None => None
      end
  | _ => None
  end.

(** The caller hands its node over. *)
Definition fiber_manager_return_mpmc_node (s : pool_shared) (n : Z) : option (pool_shared * pool_pc * list pool_ev) :=
  if decide (n ∈ pool_used s)
  then Some (PShared (free_mpmc_nodes s) (pool_rings s) (pool_heap s) (pool_used s ∖ {[n]}), PlPutLoad n, [EvPut n])
  else None.

Definition fiber_manager_get_mpmc_node (t : nat) (ch : pool_choice) (s : pool_shared) (pc : pool_pc)
    : option (pool_shared * pool_pc * list pool_ev) :=
  match pc with
  | PlGetLoad =>
      if decide (free_mpmc_nodes s = NULL) then Some (s, PlGetCreate, [])
      else Some (s, PlGetPop (free_mpmc_nodes s) RIdle, [])
  | PlGetCreate =>
      match ch with
      | PlFresh None _ => Some (s, PlGetCas NULL, [])
      | PlFresh (Some a) _ =>
          if decide (a <> NULL /\ pool_rings s !! a = None)
          then r ← lockfree_ring_buffer_create 10; Some (set_rings s (<[a:=r]> (pool_rings s)), PlGetCas a, [])
          else None
      | _ => None
      end
  | PlGetCas new_nodes =>
      if decide (free_mpmc_nodes s = NULL)
      then Some (PShared new_nodes (pool_rings s) (pool_heap s) (pool_used s), PlGetPop new_nodes RIdle, [])
      else Some (s, PlGetDestroy new_nodes, [])
  | PlGetDestroy new_nodes => s' ← lockfree_ring_buffer_destroy s new_nodes; Some (s', PlGetReload, [])
  | PlGetReload => if decide (free_mpmc_nodes s = NULL) then None else Some (s, PlGetPop (free_mpmc_nodes s) RIdle, [])
  | PlGetPop _ (RPopDone (Some n)) => Some (s, PlGetReturn n, [])
  | PlGetPop _ (RPopDone None) => Some (s, PlGetMalloc, [])
  | PlGetPop a rpc => '(s', rpc') ← in_ring t ch RCallTryPop s a rpc; Some (s', PlGetPop a rpc', [])
  | PlGetMalloc =>
      match ch with
      | PlFresh (Some a) garbage =>
          if decide (a <> NULL /\ pool_heap s !! a = None)
          then Some (set_pool_heap s (<[a:=garbage]> (pool_heap s)), PlGetInit a, []) else None
      | _ => None (* assert(ret) *)
      end
  | PlGetInit n => Some (set_pool_heap s (<[n:=PoolNode NULL RETURN_NODE_INTERNAL]> (pool_heap s)), PlGetReturn n, [])
  | PlGetReturn n =>
      Some (PShared (free_mpmc_nodes s) (pool_rings s) (pool_heap s) ({[n]} ∪ pool_used s), PlIdle, [EvGet n])
  | _ => None
  end.

Definition pool_tstep (t : nat) (ch : pool_choice) (s : pool_shared) (pc : pool_pc)
    : option (pool_shared * pool_pc * list pool_ev) :=
  match pc, ch with
  | PlIdle, PlCallGet => Some (s, PlGetLoad, [])
  | PlIdle, PlCallPut n => fiber_manager_return_mpmc_node s n
  | PlIdle, _ | _, (PlCallGet | PlCallPut _) => None
  | (PlPutLoad _ | PlPutPush _ _ _ | PlPutFree _), _ => fiber_manager_return_mpmc_node_internal t ch s pc
  | _, _ => fiber_manager_get_mpmc_node t ch s pc
  end.

Definition pool_conf := conf pool_shared pool_pc.
Definition pool_step := conf_step pool_tstep.
Definition pool_init (n : nat) : pool_conf := Conf (PShared NULL ∅ ∅ ∅) (replicate n PlIdle).

(** The part of [fiber_shutdown] that disposes of the pool. *)
Definition pool_shutdown (s : pool_shared) : option pool_shared :=
  s' ← lockfree_ring_buffer_destroy s (free_mpmc_nodes s);
  Some (PShared NULL (pool_rings s') (pool_heap s') (pool_used s')).

(** What the pool promises: a node is not handed out while somebody holds it. *)
Definition pool_spec (e : pool_ev) (used : gset Z) : option (gset Z) :=
  match e with
  | EvGet n => if decide (n <> NULL /\ n ∉ used) then Some ({[n]} ∪ used) else None
  | EvPut n => if decide (n ∈ used) then Some (used ∖ {[n]}) else None
  end.

(** ** Invariant *)

(** Where a thread stands in the ring. *)
Definition rpc_of (pc : pool_pc) : ring_pc Z :=
  match pc with PlGetPop _ rpc | PlPutPush _ _ rpc => rpc | _ => RIdle end.

(** The node a thread holds that is neither used nor in the ring. *)
Definition pop_private (rpc : ring_pc Z) : option Z := match rpc with RPopClear _ v => Some v | RPopDone o => o | _ => None end.
Definition push_private (n : Z) (rpc : ring_pc Z) : option Z :=
  match rpc with RPushWrite _ _ | RPushDone true => None | _ => Some n end.
Definition pl_private (pc : pool_pc) : option Z :=
  match pc with
  | PlGetPop _ rpc => pop_private rpc
  | PlPutPush _ n rpc => push_private n rpc
  | PlGetInit n | PlGetReturn n | PlPutLoad n | PlPutFree n => Some n
  | _ => None
  end.

(** The ring a thread has created and not installed. *)
Definition pl_ring (pc : pool_pc) : option Z :=
  match pc with PlGetCas a | PlGetDestroy a => if decide (a = NULL) then None else Some a | _ => None end.

Definition rpc_pushes (n : Z) (rpc : ring_pc Z) : Prop :=
  match rpc with
  | RIdle | RPushDone _ => True
  | RPushLow b v | RPushHigh b v _ | RPushRead b v _ _ | RPushCas b v _ _ => b = false /\ v = n
  | RPushWrite v _ => v = n
  | _ => False
  end.
Definition rpc_pops (rpc : ring_pc Z) : Prop :=
  match rpc with
  | RIdle | RPopDone _ | RPopClear _ _ => True
  | RPopHigh b | RPopLow b _ | RPopRead b _ _ | RPopCas b _ _ _ => b = false
  | _ => False
  end.

(** What a thread knows about the installed ring. *)
Definition pool_ok (f : Z) (pc : pool_pc) : Prop :=
  match pc with
  | PlGetDestroy _ | PlGetReload => f <> NULL
  | PlGetPop a rpc => rpc_pops rpc /\ ((a = f /\ a <> NULL) \/ (a = NULL /\ rpc = RIdle))
  | PlPutPush a n rpc => rpc_pushes n rpc /\ a = f /\ a <> NULL
  | _ => True
  end.

Definition node_places (c : pool_conf) (q : list Z) : list Z :=
  q ++ omap pl_private (threads c) ++ elements (pool_used (shared c)).
Definition installed (f : Z) : list Z := if decide (f = NULL) then [] else [f].
Definition ring_places (c : pool_conf) : list Z := installed (free_mpmc_nodes (shared c)) ++ omap pl_ring (threads c).

(** Every node is in one place: the ring ([q]), a thread, a caller; every ring is
    installed or the private one of a thread. *)
Record pool_rel (k : Z) (c : pool_conf) (used : gset Z) (q : list Z) : Prop := {
  pr_used : pool_used (shared c) = used;
  pr_nd : NoDup (node_places c q);
  pr_null : NULL ∉ node_places c q;
  pr_heap : forall a, is_Some (pool_heap (shared c) !! a) <-> a ∈ node_places c q;
  pr_gc : forall a nd, pool_heap (shared c) !! a = Some nd ->
    nd = PoolNode NULL RETURN_NODE_INTERNAL \/ exists t, threads c !! t = Some (PlGetInit a);
  pr_ring : if decide (free_mpmc_nodes (shared c) = NULL)
    then q = [] /\ forall t pc, threads c !! t = Some pc -> rpc_of pc = RIdle
    else exists r, pool_rings (shared c) !! free_mpmc_nodes (shared c) = Some r /\
      ring_rel 10 k (Conf r (rpc_of <$> threads c)) q;
  pr_rnd : NoDup (ring_places c);
  pr_rings : forall a, is_Some (pool_rings (shared c) !! a) <-> a ∈ ring_places c;
  pr_new : forall a, a ∈ omap pl_ring (threads c) -> pool_rings (shared c) !! a = lockfree_ring_buffer_create 10;
  pr_ok : forall t pc, threads c !! t = Some pc -> pool_ok (free_mpmc_nodes (shared c)) pc
}.

Lemma ten_ok : 0 < 10 < 29.
Proof. lia. Qed.

Lemma ring_rel_mono p k k' (c : ring_conf Z) q : k <= k' -> ring_rel p k c q -> ring_rel p k' c q.
Proof. intros Hk [H1 H2 H3]. split; [done|lia|done]. Qed.

(** A thread that moves inside or outside the ring without touching it. *)
Lemma ring_rel_idle k (r : ring Z) ths t pc pc' q : ring_rel 10 k (Conf r (rpc_of <$> ths)) q -> ths !! t = Some pc ->
  push_ticket (rpc_of pc') = push_ticket (rpc_of pc) -> pop_ticket (rpc_of pc') = pop_ticket (rpc_of pc) ->
  ring_ok 10 r (rpc_of pc') -> ring_rel 10 (k + 1) (Conf r (rpc_of <$> <[t:=pc']> ths)) q.
Proof.
  intros HR Ht H1 H2 H3. rewrite list_fmap_insert.
  refine (rel_local 10 k (Conf r (rpc_of <$> ths)) q t (rpc_of pc) (rpc_of pc') HR _ H1 H2 H3). cbn [threads].
  by rewrite list_lookup_fmap, Ht.
Qed.

Section pool_steps.
Context {k : Z} {c : pool_conf} {used : gset Z} {q : list Z} (t : nat) (pc : pool_pc).
Hypotheses (HR : pool_rel k c used q) (Ht : threads c !! t = Some pc).

(** What a step has to show when the ring in place does not change. *)
Lemma pool_rel_step s' pc' used' :
  pool_used s' = used' -> free_mpmc_nodes s' = free_mpmc_nodes (shared c) ->
  pool_rings s' !! free_mpmc_nodes s' = pool_rings (shared c) !! free_mpmc_nodes (shared c) ->
  NoDup (node_places (Conf s' (<[t:=pc']> (threads c))) q) ->
  (NULL ∉ node_places (Conf s' (<[t:=pc']> (threads c))) q) ->
  (forall a, is_Some (pool_heap s' !! a) <-> a ∈ node_places (Conf s' (<[t:=pc']> (threads c))) q) ->
  (forall a nd, pool_heap s' !! a = Some nd -> nd = PoolNode NULL RETURN_NODE_INTERNAL \/ pc' = PlGetInit a \/
     (pool_heap (shared c) !! a = Some nd /\ pc <> PlGetInit a)) ->
  (forall a, is_Some (pool_rings s' !! a) <-> a ∈ ring_places (Conf s' (<[t:=pc']> (threads c)))) ->
  NoDup (ring_places (Conf s' (<[t:=pc']> (threads c)))) ->
  (forall a, a ∈ omap pl_ring (<[t:=pc']> (threads c)) -> pool_rings s' !! a = lockfree_ring_buffer_create 10) ->
  push_ticket (rpc_of pc') = push_ticket (rpc_of pc) -> pop_ticket (rpc_of pc') = pop_ticket (rpc_of pc) ->
  (free_mpmc_nodes s' <> NULL -> forall r, ring_ok 10 r (rpc_of pc')) -> (free_mpmc_nodes s' = NULL -> rpc_of pc' = RIdle) ->
  pool_ok (free_mpmc_nodes s') pc' ->
  pool_rel (k + 1) (Conf s' (<[t:=pc']> (threads c))) used' q.
Proof using HR Ht.
  intros Hu Hf Hr Hnd Hnull Hh Hgc Hrings Hrnd Hnew Hpt Hct Hrok Hidle Hok. split; cbn [shared threads]; auto.
  - intros a nd Ha. destruct (Hgc a nd Ha) as [?|[->|[Ha' Hne]]]; [by left|right|].
    + exists t. apply list_lookup_insert_eq. by eapply lookup_lt_Some.
    + destruct (pr_gc _ _ _ _ HR a nd Ha') as [?|[i Hi]]; [by left|]. right. exists i.
      rewrite list_lookup_insert_ne; [done|]. intros <-. rewrite Ht in Hi. by injection Hi as ->.
  - pose proof (pr_ring _ _ _ _ HR) as Hring. rewrite Hf in *. case_decide as E.
    + destruct Hring as [-> Hi]. split; [done|]. intros i p Hp. apply lookup_insert_cases in Hp as [(-> & ->)|(Hne & Hp)]; [auto|by eapply Hi].
    + destruct Hring as (r & Hr' & HRr). exists r. split; [by rewrite Hr|]. eapply ring_rel_idle; eauto.
  - intros i p Hp. apply lookup_insert_cases in Hp as [(-> & ->)|(Hne & Hp)]; [done|]. rewrite Hf. by apply (pr_ok _ _ _ _ HR i).
Qed.

(** A step that moves the thread and at most hands its node to the caller or
    takes it from there. *)
Lemma pool_local pc' u : omap pl_private (<[t:=pc']> (threads c)) ++ elements u ≡ₚ omap pl_private (threads c) ++ elements (pool_used (shared c)) ->
  pl_ring pc' = pl_ring pc -> push_ticket (rpc_of pc') = push_ticket (rpc_of pc) ->
  pop_ticket (rpc_of pc') = pop_ticket (rpc_of pc) -> rpc_of pc' = RIdle -> pc <> PlGetInit (default NULL (pl_private pc)) ->
  pool_ok (free_mpmc_nodes (shared c)) pc' ->
  pool_rel (k + 1) (Conf (PShared (free_mpmc_nodes (shared c)) (pool_rings (shared c)) (pool_heap (shared c)) u) (<[t:=pc']> (threads c))) u q.
Proof using HR Ht.
  intros Hpl Hrg Hpt Hct Hidle Hni Hok. pose proof (omap_insert_same pl_ring _ _ _ _ Ht Hrg) as Hrp.
  assert (node_places (Conf (PShared (free_mpmc_nodes (shared c)) (pool_rings (shared c)) (pool_heap (shared c)) u)
    (<[t:=pc']> (threads c))) q ≡ₚ node_places c q) as Hn by (unfold node_places; cbn [shared threads pool_used]; by rewrite Hpl).
  assert (ring_places (Conf (PShared (free_mpmc_nodes (shared c)) (pool_rings (shared c)) (pool_heap (shared c)) u)
    (<[t:=pc']> (threads c))) ≡ₚ ring_places c) as Hg by (unfold ring_places; cbn [shared threads free_mpmc_nodes]; by rewrite Hrp).
  apply pool_rel_step; cbn [pool_used free_mpmc_nodes pool_rings pool_heap]; auto; rewrite ?Hn, ?Hg; try apply HR.
  - intros a. rewrite Hn. apply HR.
  - intros a nd Ha. right. right. split; [done|]. intros ->. by apply Hni.
  - intros a. rewrite Hg. apply HR.
  - intros a. rewrite Hrp. apply HR.
  - intros _ r. by rewrite Hidle.
Qed.

(** A step inside the installed ring. *)
Lemma pool_in_ring ch call s' rpc' pc' : 0 < k + 1 < 2 ^ 64 -> free_mpmc_nodes (shared c) <> NULL ->
  in_ring t ch call (shared c) (free_mpmc_nodes (shared c)) (rpc_of pc) = Some (s', rpc') ->
  rpc_of pc' = rpc' -> pl_ring pc = None -> pl_ring pc' = None -> pc <> PlGetInit (default NULL (pl_private pc)) ->
  pool_ok (free_mpmc_nodes (shared c)) pc' ->
  (forall r r' evs q', ring_tstep t (ring_label ch call (rpc_of pc)) r (rpc_of pc) = Some (r', rpc', evs) ->
     spec_run (queue_spec (2 ^ 10)) evs q = Some q' ->
     q' ++ omap pl_private (<[t:=pc']> (threads c)) ≡ₚ q ++ omap pl_private (threads c)) ->
  exists q', pool_rel (k + 1) (Conf s' (<[t:=pc']> (threads c))) used q'.
Proof using HR Ht.
  intros Hb Hf Hin Hrpc Hr1 Hr2 Hni Hok Hpl. unfold in_ring in Hin. pose proof (pr_ring _ _ _ _ HR) as Hring.
  rewrite decide_False in Hring by done. destruct Hring as (r & Hr & HRr). rewrite Hr in Hin. simpl in Hin.
  destruct (ring_tstep _ _ _ _) as [[[r' rpc''] evs]|] eqn:Hs; [|done]. simpl in Hin. injection Hin as <- <-.
  destruct (ring_simulation 10 ten_ok k (t, ring_label ch call (rpc_of pc)) (Conf r (rpc_of <$> threads c))
    (Conf r' (<[t:=rpc'']> (rpc_of <$> threads c))) evs q) as (q' & Hq & HR'); [lia|done| |].
  { unfold ring_step, conf_step. cbn [fst snd threads shared]. by rewrite list_lookup_fmap, Ht; cbn [fmap option_fmap option_map]; rewrite Hs. }
  exists q'. specialize (Hpl _ _ _ _ Hs Hq). pose proof (omap_insert_same pl_ring _ _ _ pc' Ht ltac:(congruence)) as Hrp.
  assert (node_places (Conf (set_rings (shared c) (<[free_mpmc_nodes (shared c):=r']> (pool_rings (shared c)))) (<[t:=pc']> (threads c))) q'
    ≡ₚ node_places c q) as Hn by (unfold node_places; cbn [shared threads set_rings pool_used]; by rewrite !app_assoc, Hpl).
  assert (ring_places (Conf (set_rings (shared c) (<[free_mpmc_nodes (shared c):=r']> (pool_rings (shared c)))) (<[t:=pc']> (threads c)))
    ≡ₚ ring_places c) as Hg.
  { unfold ring_places. cbn [shared threads set_rings free_mpmc_nodes]. by rewrite Hrp. }
  split; cbn [shared threads set_rings pool_used pool_heap free_mpmc_nodes pool_rings]; rewrite ?Hn, ?Hg; try apply HR.
  - intros a. rewrite Hn. apply HR.
  - intros a nd Ha. destruct (pr_gc _ _ _ _ HR a nd Ha) as [?|[i Hi]]; [by left|]. right. exists i.
    rewrite list_lookup_insert_ne; [done|]. intros <-. rewrite Ht in Hi. injection Hi as ->. by apply Hni.
  - rewrite decide_False by done. exists r'. rewrite lookup_insert_eq. split; [done|]. by rewrite list_fmap_insert, Hrpc.
  - intros a. rewrite Hg, <- (pr_rings _ _ _ _ HR a).
    destruct (decide (a = free_mpmc_nodes (shared c))) as [->|]; [rewrite lookup_insert_eq, Hr|by rewrite lookup_insert_ne].
    split; by eexists.
  - intros a. rewrite Hrp. intros Ha. pose proof (pr_rnd _ _ _ _ HR) as Hnd. unfold ring_places, installed in Hnd. rewrite decide_False in Hnd by done.
    apply NoDup_cons in Hnd as [Hnd _]. rewrite lookup_insert_ne by (intros <-; done). by apply (pr_new _ _ _ _ HR).
  - intros i p Hp. apply lookup_insert_cases in Hp as [(-> & ->)|(Hne & Hp)]; [done|]. by apply (pr_ok _ _ _ _ HR i).
Qed.
End pool_steps.

(** What the ring operations do with the node. *)
Lemma ring_step_push t ch n (r : ring Z) rpc r' rpc' evs : rpc_pushes n rpc -> (forall ok, rpc <> RPushDone ok) ->
  ring_tstep t (ring_label ch (RCallTryPush n) rpc) r rpc = Some (r', rpc', evs) ->
  rpc_pushes n rpc' /\
  ((evs = [] /\ push_private n rpc' = push_private n rpc) \/ (evs = [Enq n] /\ push_private n rpc = Some n /\ push_private n rpc' = None)).
Proof.
  intros Hp Hnd Hs. destruct rpc as [|b v|b v l|b v l h|b v l h|v h|ok|b|b h|b h l|b h l v|l v|o]; try done;
    destruct ch; cbn [ring_label ring_tstep lockfree_ring_buffer_trypush rpc_pushes] in *; try discriminate Hs;
    destruct_and?; subst; repeat case_match; simplify_eq; simpl; auto.
Qed.

Lemma ring_step_pop t ch (r : ring Z) rpc r' rpc' evs : rpc_pops rpc -> (forall o, rpc <> RPopDone o) ->
  ring_tstep t (ring_label ch RCallTryPop rpc) r rpc = Some (r', rpc', evs) ->
  rpc_pops rpc' /\
  ((evs = [] /\ pop_private rpc' = pop_private rpc) \/ exists n, evs = [Deq n] /\ pop_private rpc = None /\ pop_private rpc' = Some n).
Proof.
  intros Hp Hnd Hs. destruct rpc as [|b v|b v l|b v l h|b v l h|v h|ok|b|b h|b h l|b h l v|l v|o]; try done;
    destruct ch; cbn [ring_label ring_tstep lockfree_ring_buffer_trypop rpc_pops] in *; try discriminate Hs;
    subst; repeat case_match; simplify_eq; simpl; eauto 8.
Qed.

(** ** Preservation *)

Section pool_cases.
Context {k : Z} {c : pool_conf} {used : gset Z} {q : list Z} (t : nat).
Hypotheses (Hb : 0 < k + 1 < 2 ^ 64) (HR : pool_rel k c used q).

Definition pool_goal (s' : pool_shared) (pc' : pool_pc) (evs : list pool_ev) : Prop :=
  exists used' q', spec_run pool_spec evs used = Some used' /\ pool_rel (k + 1) (Conf s' (<[t:=pc']> (threads c))) used' q'.

(** A step that changes nothing but the program point. *)
Lemma pool_moves pc pc' : threads c !! t = Some pc -> pl_private pc' = pl_private pc -> pl_ring pc' = pl_ring pc ->
  rpc_of pc' = RIdle -> push_ticket (rpc_of pc) = None -> pop_ticket (rpc_of pc) = None ->
  pc <> PlGetInit (default NULL (pl_private pc)) -> pool_ok (free_mpmc_nodes (shared c)) pc' -> pool_goal (shared c) pc' [].
Proof using HR.
  intros Ht Hp Hr Hi H1 H2 Hni Hok. exists used, q. split; [done|]. rewrite <- (pr_used _ _ _ _ HR).
  destruct (shared c) as [f m h u] eqn:E. cbn [pool_used free_mpmc_nodes] in *.
  pose proof (pool_local t pc HR Ht pc' u) as Hl. rewrite E in Hl. cbn [pool_used free_mpmc_nodes pool_rings pool_heap] in Hl.
  apply Hl; auto; [|by rewrite Hi|by rewrite Hi]. by rewrite (omap_insert_same pl_private _ _ _ _ Ht Hp).
Qed.

(** A node or a ring leaves the heap. *)
Lemma pool_free_node pc n : threads c !! t = Some pc -> pl_private pc = Some n -> pl_ring pc = None -> rpc_of pc = RIdle ->
  pc <> PlGetInit n -> pool_goal (set_pool_heap (shared c) (delete n (pool_heap (shared c)))) PlIdle [].
Proof using Hb HR.
  intros Ht Hp Hr Hrpc Hni0. exists used, q. split; [done|].
  pose proof (omap_insert_del pl_private _ _ _ PlIdle n Ht Hp eq_refl) as Hdel.
  pose proof (omap_insert_same pl_ring _ _ _ PlIdle Ht (eq_sym Hr)) as Hrp.
  assert (node_places c q ≡ₚ n :: node_places (Conf (set_pool_heap (shared c) (delete n (pool_heap (shared c)))) (<[t:=PlIdle]> (threads c))) q) as Hn.
  { unfold node_places. cbn [shared threads set_pool_heap pool_used]. rewrite Hdel. simpl. by rewrite <- Permutation_middle. }
  pose proof (pr_nd _ _ _ _ HR) as Hnd. pose proof (pr_null _ _ _ _ HR) as Hnull. rewrite Hn in Hnd, Hnull.
  apply NoDup_cons in Hnd as [Hni Hnd].
  eapply (pool_rel_step t); eauto; cbn [set_pool_heap pool_used free_mpmc_nodes pool_rings pool_heap]; rewrite ?Hrpc; try apply HR; try done.
  - set_solver.
  - intros a. destruct (decide (a = n)) as [->|Hne].
    + rewrite lookup_delete_eq. split; [by intros []|done].
    + rewrite lookup_delete_ne by done. rewrite (pr_heap _ _ _ _ HR a), Hn. set_solver.
  - intros a nd' Ha. apply lookup_delete_Some in Ha as [? Ha]. right. right. split; [done|]. intros ->. by injection Hp as ->.
  - intros a. unfold ring_places. cbn [shared threads free_mpmc_nodes set_pool_heap]. rewrite Hrp. apply HR.
  - unfold ring_places. cbn [shared threads free_mpmc_nodes set_pool_heap]. rewrite Hrp. apply HR.
  - intros b. rewrite Hrp. apply HR.
Qed.

Lemma put_in_ring ch n rpc s1 rpc1 : threads c !! t = Some (PlPutPush (free_mpmc_nodes (shared c)) n rpc) ->
  (forall ok, rpc <> RPushDone ok) -> in_ring t ch (RCallTryPush n) (shared c) (free_mpmc_nodes (shared c)) rpc = Some (s1, rpc1) ->
  pool_goal s1 (PlPutPush (free_mpmc_nodes (shared c)) n rpc1) [].
Proof using Hb HR.
  intros Ht Hnd Hin. destruct (pr_ok _ _ _ _ HR _ _ Ht) as (Hp & _ & Hnn).
  assert (rpc_pushes n rpc1) as Hp1.
  { unfold in_ring in Hin. destruct (pool_rings _ !! _) as [r|]; [|done]. simpl in Hin.
    destruct (ring_tstep _ _ _ _) as [[[r' rpc2] e]|] eqn:Hs; [|done]. simpl in Hin. injection Hin as <- <-.
    by destruct (ring_step_push _ _ _ _ _ _ _ _ Hp Hnd Hs) as [? _]. }
  destruct (pool_in_ring t _ HR Ht ch (RCallTryPush n) s1 rpc1 (PlPutPush (free_mpmc_nodes (shared c)) n rpc1)) as [q' Hq']; auto.
  { simpl. auto. }
  { intros r r' evs q' Hs Hq. cbn [rpc_of] in Hs. destruct (ring_step_push _ _ _ _ _ _ _ _ Hp Hnd Hs) as [_ [[-> E]|(-> & E1 & E2)]].
    - injection Hq as <-. by rewrite (omap_insert_same pl_private _ _ _ (PlPutPush _ n rpc1) Ht E).
    - simpl in Hq. case_decide; [|done]. injection Hq as <-.
      by rewrite (omap_insert_del pl_private _ _ _ (PlPutPush (free_mpmc_nodes (shared c)) n rpc1) _ Ht E1 E2), <- app_assoc. }
  by exists used, q'.
Qed.

Lemma get_in_ring ch rpc s1 rpc1 : threads c !! t = Some (PlGetPop (free_mpmc_nodes (shared c)) rpc) ->
  free_mpmc_nodes (shared c) <> NULL -> rpc_pops rpc ->
  (forall o, rpc <> RPopDone o) -> in_ring t ch RCallTryPop (shared c) (free_mpmc_nodes (shared c)) rpc = Some (s1, rpc1) ->
  pool_goal s1 (PlGetPop (free_mpmc_nodes (shared c)) rpc1) [].
Proof using Hb HR.
  intros Ht Hnn Hp Hnd Hin.
  assert (rpc_pops rpc1) as Hp1.
  { unfold in_ring in Hin. destruct (pool_rings _ !! _) as [r|]; [|done]. simpl in Hin.
    destruct (ring_tstep _ _ _ _) as [[[r' rpc2] e]|] eqn:Hs; [|done]. simpl in Hin. injection Hin as <- <-.
    by destruct (ring_step_pop _ _ _ _ _ _ _ Hp Hnd Hs) as [? _]. }
  destruct (pool_in_ring t _ HR Ht ch RCallTryPop s1 rpc1 (PlGetPop (free_mpmc_nodes (shared c)) rpc1)) as [q' Hq']; auto.
  { simpl. auto. }
  { intros r r' evs q' Hs Hq. cbn [rpc_of] in Hs. destruct (ring_step_pop _ _ _ _ _ _ _ Hp Hnd Hs) as [_ [[-> E]|(n & -> & E1 & E2)]].
    - injection Hq as <-. by rewrite (omap_insert_same pl_private _ _ _ (PlGetPop _ rpc1) Ht E).
    - simpl in Hq. destruct q as [|x q0]; [done|]. case_decide; [|done]. injection Hq as <-. subst.
      rewrite (omap_insert_add pl_private _ _ _ (PlGetPop (free_mpmc_nodes (shared c)) rpc1) _ Ht E1 E2). by rewrite <- Permutation_middle. }
  by exists used, q'.
Qed.

Lemma put_simulation ch pc s' pc' evs : threads c !! t = Some pc ->
  fiber_manager_return_mpmc_node_internal t ch (shared c) pc = Some (s', pc', evs) -> pool_goal s' pc' evs.
Proof using Hb HR.
  intros Ht Hs. pose proof (pr_ok _ _ _ _ HR _ _ Ht) as Hok.
  destruct pc as [| | |a|a| |a rpc| |n|n|n|a n rpc|n]; try discriminate Hs.
  - cbn [fiber_manager_return_mpmc_node_internal] in Hs. case_decide as E; injection Hs as <- <- <-; eapply pool_moves; eauto.
    simpl. auto.
  - destruct Hok as (Hp & -> & Hnn).
    assert ((exists ok, rpc = RPushDone ok) \/ forall ok, rpc <> RPushDone ok) as [[ok ->]|Hnd] by (destruct rpc; eauto).
    + cbn [fiber_manager_return_mpmc_node_internal] in Hs. injection Hs as <- <- <-. by destruct ok; eapply pool_moves; eauto.
    + assert (('(s1, rpc1) ← in_ring t ch (RCallTryPush n) (shared c) (free_mpmc_nodes (shared c)) rpc;
        Some (s1, PlPutPush (free_mpmc_nodes (shared c)) n rpc1, @nil pool_ev)) = Some (s', pc', evs)) as Hs'
        by (destruct rpc; try exact Hs; by destruct (Hnd ok)).
      clear Hs. destruct (in_ring _ _ _ _ _ _) as [[s1 rpc1]|] eqn:Hin; [|done]. simpl in Hs'. injection Hs' as <- <- <-.
      by eapply put_in_ring.
  - cbn [fiber_manager_return_mpmc_node_internal] in Hs. destruct (pool_heap (shared c) !! n) as [nd|] eqn:E; [|done].
    injection Hs as <- <- <-. by eapply pool_free_node.
Qed.

(** A node is allocated, or initialised. *)
Lemma pool_malloc a nd : threads c !! t = Some PlGetMalloc -> a <> NULL -> pool_heap (shared c) !! a = None ->
  pool_goal (set_pool_heap (shared c) (<[a:=nd]> (pool_heap (shared c)))) (PlGetInit a) [].
Proof using Hb HR.
  intros Ht Hnn Ha. exists used, q. split; [done|].
  pose proof (omap_insert_add pl_private _ _ _ (PlGetInit a) a Ht eq_refl eq_refl) as Hadd.
  pose proof (omap_insert_same pl_ring _ _ _ (PlGetInit a) Ht eq_refl) as Hrp.
  assert (node_places (Conf (set_pool_heap (shared c) (<[a:=nd]> (pool_heap (shared c)))) (<[t:=PlGetInit a]> (threads c))) q ≡ₚ a :: node_places c q) as Hn.
  { unfold node_places. cbn [shared threads set_pool_heap pool_used]. rewrite Hadd. simpl. by rewrite <- Permutation_middle. }
  assert (a ∉ node_places c q) as Hna by (intros Hin; apply (pr_heap _ _ _ _ HR) in Hin as [? E]; congruence).
  eapply (pool_rel_step t); eauto; cbn [set_pool_heap pool_used free_mpmc_nodes pool_rings pool_heap]; rewrite ?Hn; try apply HR; try done.
  - apply NoDup_cons. split; [done|apply HR].
  - apply not_elem_of_cons. split; [done|apply HR].
  - intros b. rewrite Hn, elem_of_cons, <- (pr_heap _ _ _ _ HR b).
    destruct (decide (b = a)) as [->|Hne]; [rewrite lookup_insert_eq; split; [auto|by eexists]|rewrite lookup_insert_ne by done].
    split; [auto|by intros [?|?]].
  - intros b nd' Hb'. destruct (decide (b = a)) as [->|Hne]; [auto|]. rewrite lookup_insert_ne in Hb' by done. auto.
  - intros b. unfold ring_places. cbn [shared threads free_mpmc_nodes set_pool_heap]. rewrite Hrp. apply HR.
  - unfold ring_places. cbn [shared threads free_mpmc_nodes set_pool_heap]. rewrite Hrp. apply HR.
  - intros b. rewrite Hrp. apply HR.
Qed.

Lemma pool_inits n : threads c !! t = Some (PlGetInit n) ->
  pool_goal (set_pool_heap (shared c) (<[n:=PoolNode NULL RETURN_NODE_INTERNAL]> (pool_heap (shared c)))) (PlGetReturn n) [].
Proof using Hb HR.
  intros Ht. exists used, q. split; [done|].
  pose proof (omap_insert_same pl_private _ _ _ (PlGetReturn n) Ht eq_refl) as Hpp.
  pose proof (omap_insert_same pl_ring _ _ _ (PlGetReturn n) Ht eq_refl) as Hrp.
  assert (node_places (Conf (set_pool_heap (shared c) (<[n:=PoolNode NULL RETURN_NODE_INTERNAL]> (pool_heap (shared c))))
    (<[t:=PlGetReturn n]> (threads c))) q ≡ₚ node_places c q) as Hn
    by (unfold node_places; cbn [shared threads set_pool_heap pool_used]; by rewrite Hpp).
  assert (n ∈ node_places c q) as Hin.
  { unfold node_places. rewrite !elem_of_app. right. left. apply list_elem_of_omap. exists (PlGetInit n).
    split; [by eapply list_elem_of_lookup_2|done]. }
  eapply (pool_rel_step t); eauto; cbn [set_pool_heap pool_used free_mpmc_nodes pool_rings pool_heap]; rewrite ?Hn; try apply HR; try done.
  - intros b. rewrite Hn. destruct (decide (b = n)) as [->|Hne]; [rewrite lookup_insert_eq; split; [auto|by eexists]|].
    rewrite lookup_insert_ne by done. apply HR.
  - intros b nd' Hb'. destruct (decide (b = n)) as [->|Hne]; [rewrite lookup_insert_eq in Hb'; left; congruence|].
    rewrite lookup_insert_ne in Hb' by done. right. right. split; [done|congruence].
  - intros b. unfold ring_places. cbn [shared threads free_mpmc_nodes set_pool_heap]. rewrite Hrp. apply HR.
  - unfold ring_places. cbn [shared threads free_mpmc_nodes set_pool_heap]. rewrite Hrp. apply HR.
  - intros b. rewrite Hrp. apply HR.
Qed.
(** A ring is created, and destroyed by a thread that lost the race. *)
Lemma pool_creates a r : threads c !! t = Some PlGetCreate -> a <> NULL -> pool_rings (shared c) !! a = None ->
  lockfree_ring_buffer_create 10 = Some r -> pool_goal (set_rings (shared c) (<[a:=r]> (pool_rings (shared c)))) (PlGetCas a) [].
Proof using Hb HR.
  intros Ht Hnn Ha Hr. exists used, q. split; [done|].
  pose proof (omap_insert_same pl_private _ _ _ (PlGetCas a) Ht eq_refl) as Hpp.
  pose proof (omap_insert_add pl_ring _ _ _ (PlGetCas a) a Ht eq_refl ltac:(simpl; by rewrite decide_False)) as Hrp.
  assert (node_places (Conf (set_rings (shared c) (<[a:=r]> (pool_rings (shared c)))) (<[t:=PlGetCas a]> (threads c))) q ≡ₚ node_places c q) as Hn
    by (unfold node_places; cbn [shared threads set_rings pool_used]; by rewrite Hpp).
  assert (ring_places (Conf (set_rings (shared c) (<[a:=r]> (pool_rings (shared c)))) (<[t:=PlGetCas a]> (threads c))) ≡ₚ a :: ring_places c) as Hg.
  { unfold ring_places. cbn [shared threads set_rings free_mpmc_nodes]. rewrite Hrp. by rewrite <- Permutation_middle. }
  assert (a ∉ ring_places c) as Hna by (intros Hin; apply (pr_rings _ _ _ _ HR) in Hin as [? E]; congruence).
  eapply (pool_rel_step t); eauto; cbn [set_rings pool_used free_mpmc_nodes pool_rings pool_heap]; rewrite ?Hn, ?Hg; try apply HR; try done.
  - apply lookup_insert_ne. intros ->. destruct (decide (free_mpmc_nodes (shared c) = NULL)) as [E|E]; [congruence|].
    apply Hna. unfold ring_places, installed. rewrite decide_False by done. left.
  - intros b. rewrite Hn. apply HR.
  - intros b. rewrite Hg, elem_of_cons, <- (pr_rings _ _ _ _ HR b).
    destruct (decide (b = a)) as [->|Hne]; [rewrite lookup_insert_eq; split; [auto|by eexists]|rewrite lookup_insert_ne by done].
    split; [auto|by intros [?|?]].
  - apply NoDup_cons. split; [done|apply HR].
  - intros b. rewrite Hrp. intros [->|Hin]%elem_of_cons; [by rewrite lookup_insert_eq|].
    rewrite lookup_insert_ne; [by apply (pr_new _ _ _ _ HR)|]. intros ->. apply Hna. unfold ring_places. set_solver.
Qed.

Lemma pool_destroys a s' : threads c !! t = Some (PlGetDestroy a) -> lockfree_ring_buffer_destroy (shared c) a = Some s' ->
  pool_goal s' PlGetReload [].
Proof using Hb HR.
  intros Ht Hs. pose proof (pr_ok _ _ _ _ HR _ _ Ht) as Hf. simpl in Hf. unfold lockfree_ring_buffer_destroy in Hs.
  case_decide as Ea; [injection Hs as <-; subst; by eapply pool_moves|]. destruct (pool_rings (shared c) !! a) as [r|] eqn:E; [|done].
  injection Hs as <-. exists used, q. split; [done|].
  pose proof (omap_insert_same pl_private _ _ _ PlGetReload Ht eq_refl) as Hpp.
  pose proof (omap_insert_del pl_ring _ _ _ PlGetReload a Ht ltac:(simpl; by rewrite decide_False) eq_refl) as Hrp.
  assert (node_places (Conf (set_rings (shared c) (delete a (pool_rings (shared c)))) (<[t:=PlGetReload]> (threads c))) q ≡ₚ node_places c q) as Hn
    by (unfold node_places; cbn [shared threads set_rings pool_used]; by rewrite Hpp).
  assert (ring_places c ≡ₚ a :: ring_places (Conf (set_rings (shared c) (delete a (pool_rings (shared c)))) (<[t:=PlGetReload]> (threads c)))) as Hg.
  { unfold ring_places. cbn [shared threads set_rings free_mpmc_nodes]. rewrite Hrp. by rewrite <- Permutation_middle. }
  pose proof (pr_rnd _ _ _ _ HR) as Hnd. rewrite Hg in Hnd. apply NoDup_cons in Hnd as [Hna Hnd].
  eapply (pool_rel_step t); eauto; cbn [set_rings pool_used free_mpmc_nodes pool_rings pool_heap]; rewrite ?Hn; try apply HR; try done.
  - apply lookup_delete_ne. intros ->. apply Hna. unfold ring_places, installed. cbn [shared free_mpmc_nodes set_rings]. rewrite decide_False by done. left.
  - intros b. rewrite Hn. apply HR.
  - intros b. destruct (decide (b = a)) as [->|Hne].
    + rewrite lookup_delete_eq. split; [by intros []|done].
    + rewrite lookup_delete_ne by done. rewrite (pr_rings _ _ _ _ HR b), Hg. set_solver.
  - intros b Hin. assert (a <> b) as Hne by (intros ->; apply Hna; unfold ring_places; cbn [shared threads]; set_solver).
    rewrite lookup_delete_ne by done. apply (pr_new _ _ _ _ HR). rewrite Hrp. by right.
Qed.
(** The compare-and-swap that installs a ring. *)
Lemma pool_installs a : threads c !! t = Some (PlGetCas a) -> free_mpmc_nodes (shared c) = NULL -> a <> NULL ->
  pool_goal (PShared a (pool_rings (shared c)) (pool_heap (shared c)) (pool_used (shared c))) (PlGetPop a RIdle) [].
Proof using Hb HR.
  intros Ht Hf Ha. exists used, q. split; [done|]. pose proof (pr_ring _ _ _ _ HR) as Hring. rewrite Hf in Hring. destruct Hring as [-> Hidle].
  pose proof (omap_insert_same pl_private _ _ _ (PlGetPop a RIdle) Ht eq_refl) as Hpp.
  pose proof (omap_insert_del pl_ring _ _ _ (PlGetPop a RIdle) a Ht ltac:(simpl; by rewrite decide_False) eq_refl) as Hrp.
  set (c' := Conf (PShared a (pool_rings (shared c)) (pool_heap (shared c)) (pool_used (shared c))) (<[t:=PlGetPop a RIdle]> (threads c))).
  assert (node_places c' [] ≡ₚ node_places c []) as Hn by (unfold node_places; subst c'; cbn [shared threads pool_used]; by rewrite Hpp).
  assert (ring_places c' ≡ₚ ring_places c) as Hg.
  { unfold ring_places, installed. subst c'. cbn [shared threads free_mpmc_nodes]. rewrite Hf, Hrp, decide_False by done. done. }
  assert (forall x, x ∈ omap pl_ring (<[t:=PlGetPop a RIdle]> (threads c)) -> pool_rings (shared c) !! x = lockfree_ring_buffer_create 10) as Hnew.
  { intros x Hx. apply (pr_new _ _ _ _ HR). rewrite Hrp. by right. }
  split; subst c'; cbn [shared threads pool_used pool_heap pool_rings free_mpmc_nodes] in *; rewrite ?Hn, ?Hg; try apply HR.
  - intros x. rewrite Hn. apply HR.
  - intros x nd Hx. destruct (pr_gc _ _ _ _ HR x nd Hx) as [?|[i Hi]]; [by left|]. right. exists i.
    rewrite list_lookup_insert_ne; [done|]. intros <-. congruence.
  - rewrite decide_False by done. destruct (@lockfree_ring_buffer_create Z 10) as [r|] eqn:Hr; [|done]. exists r.
    split; [rewrite <- Hr; apply (pr_new _ _ _ _ HR); rewrite Hrp; left|].
    assert (ring_init 10 (length (threads c)) = Some (Conf r (rpc_of <$> <[t:=PlGetPop a RIdle]> (threads c)))) as Hi.
    { unfold ring_init. rewrite Hr. simpl. do 2 f_equal. rewrite list_fmap_insert. apply replicate_as_Forall.
      rewrite length_insert, length_fmap. split; [done|]. apply Forall_insert; [|done]. rewrite Forall_fmap. apply Forall_lookup. intros i p Hp. symmetry. by eapply Hidle. }
    apply (ring_init_rel 10 ten_ok) in Hi. pose proof (rel_n _ _ _ _ Hi). eapply ring_rel_mono; [|exact Hi]. lia.
  - intros x. rewrite Hg. apply HR.
  - done.
  - intros i p Hp. apply lookup_insert_cases in Hp as [(-> & ->)|(Hne & Hp)]; [simpl; auto|].
    pose proof (pr_ok _ _ _ _ HR i p Hp) as Hok. pose proof (Hidle i p Hp) as Hi. rewrite Hf in Hok.
    clear - Hok Hi Ha. destruct p; simpl in *; try done; destruct_and?; try done. split; [done|]. right. naive_solver.
Qed.
Lemma pool_no_null_ring : ~ is_Some (pool_rings (shared c) !! NULL).
Proof using HR.
  intros Hin%(pr_rings _ _ _ _ HR). unfold ring_places, installed in Hin. apply elem_of_app in Hin as [Hin|Hin].
  - case_decide; [by apply elem_of_nil in Hin|]. by apply list_elem_of_singleton in Hin.
  - apply list_elem_of_omap in Hin as (pc & _ & Hpc). destruct pc; simpl in Hpc; try done; case_decide; by simplify_eq.
Qed.

(** A node goes to a caller, and comes back. *)
Lemma pool_hands_out n : threads c !! t = Some (PlGetReturn n) ->
  pool_goal (PShared (free_mpmc_nodes (shared c)) (pool_rings (shared c)) (pool_heap (shared c)) ({[n]} ∪ pool_used (shared c))) PlIdle [EvGet n].
Proof using Hb HR.
  intros Ht. pose proof (omap_insert_del pl_private _ _ _ PlIdle n Ht eq_refl eq_refl) as Hdel.
  pose proof (pr_nd _ _ _ _ HR) as Hnd. pose proof (pr_null _ _ _ _ HR) as Hnull. unfold node_places in Hnd, Hnull.
  rewrite Hdel in Hnd, Hnull. apply NoDup_app in Hnd as (_ & _ & Hnd). simpl in Hnd. apply NoDup_cons in Hnd as [Hnin _].
  assert (n ∉ pool_used (shared c)) as Hu by (rewrite <- elem_of_elements; set_solver). exists ({[n]} ∪ pool_used (shared c)), q. split.
  - simpl. rewrite <- (pr_used _ _ _ _ HR). rewrite decide_True; [done|]. split; [|done]. intros ->. set_solver.
  - eapply pool_local; try done. rewrite Hdel, elements_union_singleton by done. simpl. by rewrite <- Permutation_middle.
Qed.

Lemma pool_takes_back n s' pc' evs : threads c !! t = Some PlIdle ->
  fiber_manager_return_mpmc_node (shared c) n = Some (s', pc', evs) -> pool_goal s' pc' evs.
Proof using Hb HR.
  intros Ht Hs. unfold fiber_manager_return_mpmc_node in Hs. case_decide as Hn; [|done]. injection Hs as <- <- <-.
  exists (pool_used (shared c) ∖ {[n]}), q. split.
  - simpl. rewrite <- (pr_used _ _ _ _ HR). by rewrite decide_True.
  - eapply pool_local; try done. rewrite (omap_insert_add pl_private _ _ _ (PlPutLoad n) n Ht) by done.
    rewrite (elements_take (pool_used (shared c)) n Hn). simpl. by rewrite <- Permutation_middle.
Qed.

Lemma get_simulation ch pc s' pc' evs : threads c !! t = Some pc ->
  fiber_manager_get_mpmc_node t ch (shared c) pc = Some (s', pc', evs) -> pool_goal s' pc' evs.
Proof using Hb HR.
  intros Ht Hs. pose proof (pr_ok _ _ _ _ HR _ _ Ht) as Hok.
  destruct pc as [| | |a|a| |a rpc| |n|n|n|a n rpc|n]; try discriminate Hs.
  - cbn [fiber_manager_get_mpmc_node] in Hs. case_decide as E; injection Hs as <- <- <-; eapply pool_moves; eauto. simpl. auto.
  - cbn [fiber_manager_get_mpmc_node] in Hs. destruct ch as [| | | |[a|] g]; try discriminate Hs; [|injection Hs as <- <- <-; by eapply pool_moves].
    case_decide as E; [|done]. destruct E as [E1 E2]. destruct (lockfree_ring_buffer_create 10) as [r|] eqn:Hr; [|done].
    simpl in Hs. injection Hs as <- <- <-. by apply pool_creates.
  - cbn [fiber_manager_get_mpmc_node] in Hs. case_decide as E; injection Hs as <- <- <-; [|by eapply pool_moves].
    destruct (decide (a = NULL)) as [->|Ha]; [|by apply pool_installs].
    rewrite <- E at 1. destruct (shared c) eqn:Es; cbn [free_mpmc_nodes pool_rings pool_heap pool_used]. rewrite <- Es.
    eapply pool_moves; eauto. simpl. auto.
  - cbn [fiber_manager_get_mpmc_node] in Hs. destruct (lockfree_ring_buffer_destroy _ _) as [s1|] eqn:E; [|done].
    simpl in Hs. injection Hs as <- <- <-. by eapply pool_destroys.
  - cbn [fiber_manager_get_mpmc_node] in Hs. case_decide as E; [done|]. injection Hs as <- <- <-. eapply pool_moves; eauto. simpl. auto.
  - destruct Hok as (Hp & Ha).
    assert ((exists o, rpc = RPopDone o) \/ forall o, rpc <> RPopDone o) as [[o ->]|Hnd] by (destruct rpc; eauto).
    { cbn [fiber_manager_get_mpmc_node] in Hs. destruct o as [n|]; injection Hs as <- <- <-; by eapply pool_moves. }
    assert (('(s1, rpc1) ← in_ring t ch RCallTryPop (shared c) a rpc; Some (s1, PlGetPop a rpc1, @nil pool_ev)) = Some (s', pc', evs)) as Hs'
      by (destruct rpc as [| | | | | | | | | | | |o]; try exact Hs; by destruct (Hnd o)).
    clear Hs. destruct (in_ring _ _ _ _ _ _) as [[s1 rpc1]|] eqn:Hin; [|done]. simpl in Hs'. injection Hs' as <- <- <-.
    destruct Ha as [[-> Hnn]|[-> ->]]; [by eapply get_in_ring|]. unfold in_ring in Hin.
    destruct (pool_rings (shared c) !! NULL) as [r|] eqn:E; [|done]. destruct (pool_no_null_ring). by exists r.
  - cbn [fiber_manager_get_mpmc_node] in Hs. destruct ch as [| | | |[a|] g]; try discriminate Hs.
    case_decide as E; [|done]. destruct E. injection Hs as <- <- <-. by apply pool_malloc.
  - cbn [fiber_manager_get_mpmc_node] in Hs. injection Hs as <- <- <-. by apply pool_inits.
  - cbn [fiber_manager_get_mpmc_node] in Hs. injection Hs as <- <- <-. by apply pool_hands_out.
Qed.
End pool_cases.

Definition pool_R (k : Z) (c : pool_conf) (used : gset Z) : Prop := 0 <= k /\ exists q, pool_rel k c used q.

Lemma pool_simulation k lbl c c' evs used : k + 1 < 2 ^ 64 -> pool_R k c used -> pool_step lbl c = Some (c', evs) ->
  exists used', spec_run pool_spec evs used = Some used' /\ pool_R (k + 1) c' used'.
Proof.
  intros Hb [Hk [q HR]] Hs. destruct lbl as [t ch]. apply conf_step_inv in Hs as (pc & s' & pc' & Ht & Hs & ->).
  assert (@pool_goal k c used t s' pc' evs) as (used' & q' & Hsp & HR').
  { destruct pc; destruct ch as [|nd| | |o g] eqn:Ech; try discriminate Hs;
      first [ eapply (get_simulation t) with (ch := ch); [lia|exact HR|exact Ht|by rewrite Ech]
            | eapply (put_simulation t) with (ch := ch); [lia|exact HR|exact Ht|by rewrite Ech] | idtac ].
    - simpl in Hs. injection Hs as <- <- <-. by eapply pool_moves.
    - simpl in Hs. eapply pool_takes_back; [lia|exact HR|exact Ht|exact Hs]. }
  exists used'. split; [done|]. split; [lia|]. by exists q'.
Qed.

Lemma pool_init_R n : pool_R 0 (pool_init n) ∅.
Proof.
  split; [done|]. exists []. assert (forall B (f : pool_pc -> option B), f PlIdle = None -> omap f (replicate n PlIdle) = []) as Hom
    by (intros; by apply omap_replicate_None).
  split; unfold node_places, ring_places, pool_init; cbn [shared threads pool_used pool_heap pool_rings free_mpmc_nodes];
    rewrite ?Hom by done; try done.
  - apply NoDup_nil_2.
  - by apply not_elem_of_nil.
  - intros a. rewrite lookup_empty. split; [by intros []|by intros ?%elem_of_nil].
  - rewrite decide_True by done. split; [done|]. by intros t pc [-> _]%lookup_replicate.
  - apply NoDup_nil_2.
  - intros a. rewrite lookup_empty. split; [by intros []|by intros ?%elem_of_nil].
  - by intros a ?%elem_of_nil.
  - by intros t pc [-> _]%lookup_replicate.
Qed.

Lemma pool_run_rel n ls c evs : Z.of_nat (length ls) < 2 ^ 64 -> run pool_step ls (pool_init n) = Some (c, evs) ->
  exists used q, spec_run pool_spec evs ∅ = Some used /\ pool_rel (Z.of_nat (length ls)) c used q.
Proof.
  intros Hb Hrun. destruct (run_simulation pool_step pool_spec (2 ^ 64) pool_R) with (ls := ls) (n := 0) (s := pool_init n)
    (s' := c) (evs := evs) (a := (∅ : gset Z)) as (used & Hs & _ & q & HR); eauto using pool_init_R.
  intros. by eapply pool_simulation.
Qed.

(** ** Properties *)

(** The pool never shares a node.  In every interleaving of any number of
    threads that take nodes and give them back (the race to create the ring,
    weak compare-and-swap failures and failed allocations included; the bound keeps
    the 64-bit tickets of the ring from wrapping around), a node is handed out only
    while nobody holds it, and it is not NULL. *)
Theorem pool_never_shares n ls c evs : Z.of_nat (length ls) < 2 ^ 64 ->
  run pool_step ls (pool_init n) = Some (c, evs) ->
  exists used, spec_run pool_spec evs ∅ = Some used.
Proof. intros Hb Hrun. destruct (pool_run_rel _ _ _ _ Hb Hrun) as (used & q & Hs & _). by exists used. Qed.

Lemma pool_cache_bound k c used q : pool_rel k c used q -> (length q <= 1024)%nat.
Proof.
  intros HR. pose proof (pr_ring _ _ _ _ HR) as Hring. case_decide; [destruct Hring as [-> _]; simpl; lia|].
  destruct Hring as (r & _ & HRr). pose proof (core_len _ _ _ _ _ (rel_core _ _ _ _ HRr)). pose proof (core_range _ _ _ _ _ (rel_core _ _ _ _ HRr)).
  change (2 ^ 10) with 1024 in *. lia.
Qed.

(** C24: No node and no ring is lost.  At every moment the allocated nodes are,
    without repetition, those in use, those a thread is moving and those cached in
    the ring, at most 1024; the nodes in use have the reclamation callback that
    brings them back to the pool; and there is at most one ring beside the private
    ones of threads that are still trying to install theirs. *)
Theorem pool_accounts n ls c evs used : Z.of_nat (length ls) < 2 ^ 64 ->
  run pool_step ls (pool_init n) = Some (c, evs) -> spec_run pool_spec evs ∅ = Some used ->
  exists cached, (length cached <= 1024)%nat /\
    NoDup (cached ++ omap pl_private (threads c) ++ elements used) /\
    (forall a, is_Some (pool_heap (shared c) !! a) <-> a ∈ cached ++ omap pl_private (threads c) ++ elements used) /\
    (forall a, a ∈ used -> pool_heap (shared c) !! a = Some (PoolNode NULL RETURN_NODE_INTERNAL)) /\
    NoDup (installed (free_mpmc_nodes (shared c)) ++ omap pl_ring (threads c)) /\
    (forall a, is_Some (pool_rings (shared c) !! a) <-> a ∈ installed (free_mpmc_nodes (shared c)) ++ omap pl_ring (threads c)).
Proof.
  intros Hb Hrun Hs. destruct (pool_run_rel _ _ _ _ Hb Hrun) as (u & q & Hs' & HR). rewrite Hs in Hs'. injection Hs' as <-.
  exists q. rewrite <- (pr_used _ _ _ _ HR). split_and!; try apply HR; [by eapply pool_cache_bound|].
  intros a Ha. assert (a ∈ node_places c q) as Hin by (unfold node_places; rewrite !elem_of_app, elem_of_elements; auto).
  pose proof Hin as Hin'. apply (pr_heap _ _ _ _ HR) in Hin as [nd Hnd]. destruct (pr_gc _ _ _ _ HR a nd Hnd) as [->|[t Ht]]; [done|].
  pose proof (pr_nd _ _ _ _ HR) as Hdup. unfold node_places in Hdup. apply NoDup_app in Hdup as (_ & _ & Hdup).
  apply NoDup_app in Hdup as (_ & Hdup & _). destruct (Hdup a); [|by apply elem_of_elements].
  apply list_elem_of_omap. exists (PlGetInit a). split; [by eapply list_elem_of_lookup_2|done].
Qed.

(** No operation gets stuck: every pointer followed leads to an allocated block,
    and the assertion after the lost race holds.  The exception is a failed
    [calloc] of the ring, which the assertion of [lockfree_ring_buffer_trypop]
    catches. *)
Theorem pool_no_fault n ls c evs t pc : Z.of_nat (length ls) < 2 ^ 64 ->
  run pool_step ls (pool_init n) = Some (c, evs) -> threads c !! t = Some pc -> pc <> PlIdle ->
  pc = PlGetPop NULL RIdle \/ exists ch c' e, pool_step (t, ch) c = Some (c', e).
Proof.
  intros Hb Hrun Ht Hne. destruct (pool_run_rel _ _ _ _ Hb Hrun) as (u & q & _ & HR). pose proof (pr_ok _ _ _ _ HR _ _ Ht) as Hok.
  assert (forall a, a = free_mpmc_nodes (shared c) -> a <> NULL -> is_Some (pool_rings (shared c) !! a)) as Hin.
  { intros a -> Ha. apply (pr_rings _ _ _ _ HR). unfold ring_places, installed. rewrite decide_False by done. left. }
  assert (pc = PlGetPop NULL RIdle \/ exists ch x, pool_tstep t ch (shared c) pc = Some x) as [->|(ch & [[s' pc'] e] & Hs)]; [| by left |].
  2: { right. exists ch, (Conf s' (<[t:=pc']> (threads c))), e. unfold pool_step, conf_step. cbn [fst snd]. by rewrite Ht, Hs. }
  destruct pc as [| | |a|a| |a rpc| |n1|n1|n1|a n1 rpc|n1]; try done; cbn [pool_ok] in Hok.
  - right. exists PlGo. cbn [pool_tstep fiber_manager_get_mpmc_node]. case_decide; eauto.
  - right. exists (PlFresh None (PoolNode 0 0)). eauto.
  - right. exists PlGo. cbn [pool_tstep fiber_manager_get_mpmc_node]. case_decide; eauto.
  - right. exists PlGo. cbn [pool_tstep fiber_manager_get_mpmc_node]. unfold lockfree_ring_buffer_destroy. case_decide as E; [eauto|].
    assert (is_Some (pool_rings (shared c) !! a)) as [r ->]; [|eauto]. apply (pr_rings _ _ _ _ HR). unfold ring_places. apply elem_of_app. right.
    apply list_elem_of_omap. exists (PlGetDestroy a). split; [by eapply list_elem_of_lookup_2|]. simpl. by rewrite decide_False.
  - right. exists PlGo. cbn [pool_tstep fiber_manager_get_mpmc_node]. rewrite decide_False by done. eauto.
  - destruct Hok as [Hp [[Ha Hnn]|[-> ->]]]; [|by left]. right. destruct (Hin a Ha Hnn) as [r Hr]. exists PlGo.
    cbn [pool_tstep fiber_manager_get_mpmc_node]. unfold in_ring. rewrite Hr.
    destruct rpc as [| | | | | | |b|b h|b h l|b h l v|l v|[v|]]; try done; cbn -[Z.land]; repeat case_match; simplify_eq; eauto.
  - right. exists (PlFresh (Some (fresh ({[NULL]} ∪ dom (pool_heap (shared c))))) (PoolNode 0 0)). cbn [pool_tstep fiber_manager_get_mpmc_node].
    pose proof (is_fresh ({[NULL]} ∪ dom (pool_heap (shared c)))) as Hf. rewrite decide_True; [eauto|].
    apply not_elem_of_union in Hf as [H1 H2]. split; [set_solver|by apply not_elem_of_dom].
  - right. exists PlGo. cbn [pool_tstep fiber_manager_get_mpmc_node]. eauto.
  - right. exists PlGo. cbn [pool_tstep fiber_manager_get_mpmc_node]. eauto.
  - right. exists PlGo. cbn [pool_tstep fiber_manager_return_mpmc_node_internal]. case_decide; eauto.
  - destruct Hok as (Hp & Ha & Hnn). right. destruct (Hin a Ha Hnn) as [r Hr]. exists PlGo.
    cbn [pool_tstep fiber_manager_return_mpmc_node_internal]. unfold in_ring. rewrite Hr.
    destruct rpc as [|b v|b v l|b v l h|b v l h|v h|ok|b|b h|b h l|b h l v|l v|o]; try done; cbn -[Z.land]; repeat case_match; simplify_eq; eauto.
  - right. exists PlGo. cbn [pool_tstep fiber_manager_return_mpmc_node_internal].
    assert (is_Some (pool_heap (shared c) !! n1)) as [nd ->]; [|eauto]. apply (pr_heap _ _ _ _ HR). unfold node_places. rewrite !elem_of_app. right. left.
    apply list_elem_of_omap. exists (PlPutFree n1). split; [by eapply list_elem_of_lookup_2|done].
Qed.

(** What [fiber_shutdown] does with the pool: it frees the ring and forgets it, so
    with all threads idle no ring is left; the nodes cached in the ring are not
    freed. *)
Theorem pool_shutdown_leaks n ls c evs used : Z.of_nat (length ls) < 2 ^ 64 ->
  run pool_step ls (pool_init n) = Some (c, evs) -> spec_run pool_spec evs ∅ = Some used ->
  (forall t pc, threads c !! t = Some pc -> pc = PlIdle) ->
  exists s' cached, pool_shutdown (shared c) = Some s' /\ free_mpmc_nodes s' = NULL /\ pool_rings s' = ∅ /\
    pool_heap s' = pool_heap (shared c) /\ NoDup (cached ++ elements used) /\
    forall a, is_Some (pool_heap s' !! a) <-> a ∈ cached ++ elements used.
Proof.
  intros Hb Hrun Hs Hidle. destruct (pool_run_rel _ _ _ _ Hb Hrun) as (u & q & Hs' & HR). rewrite Hs in Hs'. injection Hs' as <-.
  assert (forall B (f : pool_pc -> option B), f PlIdle = None -> omap f (threads c) = []) as Hom.
  { intros B f E. clear - Hidle E. induction (threads c) as [|p l IH]; [done|]. csimpl. rewrite (Hidle 0%nat p eq_refl), E.
    apply IH. intros t pc Hpc. by apply (Hidle (S t)). }
  pose proof (pr_rings _ _ _ _ HR) as Hr. unfold ring_places in Hr. rewrite (Hom _ pl_ring eq_refl), app_nil_r in Hr. unfold installed in Hr.
  pose proof (pr_nd _ _ _ _ HR) as Hnd. pose proof (pr_heap _ _ _ _ HR) as Hh. unfold node_places in Hnd, Hh.
  rewrite (Hom _ pl_private eq_refl), (pr_used _ _ _ _ HR) in Hnd, Hh. simpl in Hnd, Hh.
  exists (PShared NULL ∅ (pool_heap (shared c)) (pool_used (shared c))), q. split_and!; try done.
  unfold pool_shutdown, lockfree_ring_buffer_destroy. case_decide as E.
  - simpl. repeat f_equal. apply map_empty. intros a. apply eq_None_not_Some. rewrite Hr. apply not_elem_of_nil.
  - assert (is_Some (pool_rings (shared c) !! free_mpmc_nodes (shared c))) as [r Hfr] by (apply Hr; left). rewrite Hfr. simpl. repeat f_equal.
    apply map_empty. intros a. destruct (decide (a = free_mpmc_nodes (shared c))) as [->|Hne]; [by rewrite lookup_delete_eq|].
    rewrite lookup_delete_ne by done. apply eq_None_not_Some. rewrite Hr. by intros ?%list_elem_of_singleton.
Qed.

(** ** Runs *)

Definition pgo (t k : nat) : list (nat * pool_choice) := replicate k (t, PlGo).
Definition no_node : pool_node := PoolNode 7 7.
(** Threads 0 and 1 both create a ring; thread 0 installs its one, thread 1
    destroys the other; both find the ring empty and allocate; thread 0 returns its
    node and thread 1 gets it. *)
Definition pool_race : list (nat * pool_choice) :=
  [(0%nat, PlCallGet); (1%nat, PlCallGet); (0%nat, PlGo); (1%nat, PlGo);
   (0%nat, PlFresh (Some 100) no_node); (1%nat, PlFresh (Some 200) no_node)] ++
  pgo 0 6 ++ [(0%nat, PlFresh (Some 11) no_node)] ++ pgo 0 2 ++ pgo 1 8 ++ [(1%nat, PlFresh (Some 12) no_node)] ++ pgo 1 2 ++
  (0%nat, PlCallPut 11) :: pgo 0 8 ++ (1%nat, PlCallGet) :: pgo 1 9.

Lemma pool_never_shares_witness : exists used, spec_run pool_spec [EvGet 11; EvGet 12; EvPut 11; EvGet 11] ∅ = Some used.
Proof. eapply (pool_never_shares 2 pool_race); vm_compute; reflexivity. Defined.

Lemma pool_accounts_witness : exists (c : pool_conf) (cached : list Z),
  run pool_step pool_race (pool_init 2) = Some (c, [EvGet 11; EvGet 12; EvPut 11; EvGet 11]) /\ (length cached <= 1024)%nat /\
  NoDup (installed (free_mpmc_nodes (shared c)) ++ omap pl_ring (threads c)).
Proof.
  destruct (run pool_step pool_race (pool_init 2)) as [[c evs]|] eqn:E; [|by vm_compute in E].
  assert (evs = [EvGet 11; EvGet 12; EvPut 11; EvGet 11]) as -> by (vm_compute in E; congruence).
  destruct (pool_accounts 2 pool_race c [EvGet 11; EvGet 12; EvPut 11; EvGet 11] ({[11]} ∪ ({[12]} ∪ {[11]}) ∖ {[11]})) as (cached & H1 & _ & _ & _ & H2 & _);
    [vm_compute; reflexivity|exact E|vm_compute; reflexivity|].
  exists c, cached. split; [reflexivity|]. split; [exact H1|exact H2].
Defined.

(** Thread 0 takes a node, gives it back and the program shuts down: the node is
    still allocated, and neither a caller nor a ring has it. *)
Definition pool_once : list (nat * pool_choice) :=
  [(0%nat, PlCallGet); (0%nat, PlGo); (0%nat, PlFresh (Some 100) no_node)] ++ pgo 0 6 ++
  [(0%nat, PlFresh (Some 11) no_node)] ++ pgo 0 2 ++ (0%nat, PlCallPut 11) :: pgo 0 8.

Lemma pool_shutdown_leaks_witness : exists (c : pool_conf) (s' : pool_shared),
  run pool_step pool_once (pool_init 1) = Some (c, [EvGet 11; EvPut 11]) /\ pool_shutdown (shared c) = Some s' /\
  pool_rings s' = ∅ /\ pool_heap s' = {[11 := PoolNode NULL RETURN_NODE_INTERNAL]}.
Proof.
  destruct (run pool_step pool_once (pool_init 1)) as [[c evs]|] eqn:E; [|by vm_compute in E].
  assert (evs = [EvGet 11; EvPut 11] /\ threads c = [PlIdle] /\ pool_heap (shared c) = {[11 := PoolNode NULL RETURN_NODE_INTERNAL]})
    as (-> & Hth & Hh) by (vm_compute in E; injection E as <- <-; done).
  destruct (pool_shutdown_leaks 1 pool_once c [EvGet 11; EvPut 11] (({[11]} ∪ ∅) ∖ {[11]})) as (s' & cached & H1 & _ & H2 & H3 & _);
    [vm_compute; reflexivity|exact E|vm_compute; reflexivity| |].
  { intros [|t] pc; rewrite Hth; [by intros [= <-]|done]. }
  exists c, s'. split; [reflexivity|]. split; [exact H1|]. split; [exact H2|]. rewrite H3. exact Hh.
Defined.
