(* ===== verification/ManagerLoop.v ===== *)
(** * The idle loop of a kernel thread and the end of the maintenance fiber
      ([src/fiber_manager.c])

    [fiber_manager_thread_func] is what a kernel thread runs when no fiber does:
    balance the load, switch to the next fiber, else poll for events or sleep.  On
    the first thread it runs in a maintenance fiber of its own, which
    [fiber_shutdown] completes from the main fiber; the two hand the processor to
    each other through [fiber_manager_set_and_wait] and the last loop of the
    function.  The steps are those of [Manager]. *)

From S2P Require Import Prelude MpscFifo Wsd SchedulerWsd Manager Fiber Event.

Section loop.
Context {S : Type} `{FiberScheduler S}.

(** ** State *)

Inductive idle_act :=
| IPoll (num_events : Z)                      (* fiber_poll_events *)
| IPollBlocking (seconds useconds : Z)        (* fiber_poll_events_blocking *)
| ISleep (usleeps : list Z).                  (* fiber_do_real_sleep *)

(** The manager of the thread, the two flags, the [detach_state] of the fibers,
    and what the thread did while idle. *)
Record loop_state := LoopState {
  lp_m : mstate (S := S);
  fiber_shutting_down : bool;
  should_check_events : bool;
  detach_of : gmap Z Z;
  lp_idle : list idle_act
}.

Definition lp_with (s : loop_state) (m : mstate) : loop_state :=
  LoopState m (fiber_shutting_down s) (should_check_events s) (detach_of s) (lp_idle s).
Definition lp_act (s : loop_state) (l : list idle_act) : loop_state :=
  LoopState (lp_m s) (fiber_shutting_down s) (should_check_events s) (detach_of s) (lp_idle s ++ l).

Definition set_maintenance (m : manager) (f : Z) : manager :=
  Manager f (current_fiber m) (old_fiber m) (thread_fiber m) (to_schedule m) (mpmc_to_push m) (mpsc_to_push m)
    (mutex_to_unlock m) (spinlock_to_unlock m) (set_wait_location m) (set_wait_value m) (done_fiber m) (yield_count m).

(** ** [fiber_manager_thread_func] *)

(** Up to the loop. *)
Definition thread_func_enter (s : loop_state) : loop_state :=
  let m := mgr (lp_m s) in
  if Z.eqb (maintenance_fiber m) NULL
  then LoopState (with_mgr (lp_m s) (set_maintenance m (thread_fiber m))) (fiber_shutting_down s) true (detach_of s) (lp_idle s)
  else s.

Inductive loop_result := LSwitched (f : Z) | LIdle | LExit.

(** One iteration; [num_events] is what [fiber_poll_events] returns. *)
Definition thread_func_iteration (num_events : Z) (s : loop_state) : option (loop_state * loop_result) :=
  if fiber_shutting_down s then Some (s, LExit)
  else
    x ← fs_balance (sched (lp_m s));
    let m := act (with_sched (lp_m s) x) ABalance in
    '(x, next) ← fs_next (state_of m) (sched m);
    let m := with_sched m x in
    match next with
    | Some new_fiber =>
        let maint := maintenance_fiber (mgr m) in
        m ← fiber_manager_switch_to (with_fstate m maint FIBER_STATE_SAVING_STATE_TO_WAIT) maint new_fiber;
        Some (lp_with s m, LSwitched new_fiber)
    | None =>
        let s := lp_with s m in
        if should_check_events s
        then Some (lp_act s (IPoll num_events ::
               if Z.eqb num_events 0 then [IPollBlocking 0 (FIBER_TIME_RESOLUTION_MS * 1000)] else []), LIdle)
        else Some (lp_act s [ISleep (fiber_do_real_sleep 0 10000)], LIdle)
    end.

(** The field [join_info] of a fiber. *)
Definition join_info_at (f : Z) : Z := f + 88.

(** [fiber_mark_completed] in the fiber that calls it: it is done; it waits, the
    result of the yield being given; or a joiner has to be woken, the case that
    [Fiber] treats. *)
Inductive completion := CDone | CWaits (r : yield_result) | CJoiner.

Definition mark_completed (now : Z * Z) (created the_fiber : Z) (s : loop_state) : option (loop_state * completion) :=
  let old_state := default FIBER_DETACH_NONE (detach_of s !! the_fiber) in
  if Z.eqb old_state FIBER_DETACH_DETACHED then Some (lp_with s (with_fstate (lp_m s) the_fiber FIBER_STATE_DONE), CDone)
  else
    let s := LoopState (lp_m s) (fiber_shutting_down s) (should_check_events s)
               (<[the_fiber:=FIBER_DETACH_WAIT_FOR_JOINER]> (detach_of s)) (lp_idle s) in
    if Z.eqb old_state FIBER_DETACH_NONE then
      '(m, r) ← manager_set_and_wait now created (join_info_at the_fiber) the_fiber (lp_m s);
      Some (lp_with s m, CWaits r)
    else if Z.eqb old_state FIBER_DETACH_WAIT_TO_JOIN then Some (s, CJoiner)
    else Some (lp_with s (with_fstate (lp_m s) the_fiber FIBER_STATE_DONE), CDone).

(** What the function does after the loop, up to its first switch: the thread
    ends, or the maintenance fiber hands over. *)
Inductive exit_result := XReturns | XSwitched (f : Z) | XSpins.

Definition thread_func_exit (now : Z * Z) (created : Z) (on_first_thread : bool) (s : loop_state)
    : option (loop_state * exit_result) :=
  let maint := maintenance_fiber (mgr (lp_m s)) in
  '(s, r) ← mark_completed now created maint s;
  match r with
  | CDone =>
      if Z.eqb maint (thread_fiber (mgr (lp_m s))) then Some (s, XReturns)
      else if on_first_thread then
        m ← fiber_manager_switch_to (lp_m s) maint (thread_fiber (mgr (lp_m s)));
        Some (lp_with s m, XSwitched (thread_fiber (mgr (lp_m s))))
      else
        '(x, next) ← fs_next (state_of (lp_m s)) (sched (lp_m s));
        let m := with_sched (lp_m s) x in
        match next with
        | Some f =>
            if Z.eqb f maint then Some (lp_with s m, XSpins)
            else m ← fiber_manager_switch_to m maint f; Some (lp_with s m, XSwitched f)
        | None => Some (lp_with s m, XSpins)
        end
  | _ => None
  end.

(** ** [fiber_shutdown], lines 310 to 314, on the first thread

    With no other fiber to run, the wait of the main fiber inside
    [fiber_mark_completed] switches to the maintenance fiber, which leaves its loop
    and switches back; the main fiber then finishes the call. *)
Definition complete_maintenance (now : Z * Z) (created : Z) (s : loop_state) : option loop_state :=
  let maint := maintenance_fiber (mgr (lp_m s)) in
  if Z.eqb maint NULL then Some s
  else
    '(s, r) ← mark_completed now created maint s;
    s ← match r with
        | CDone => Some s
        | CWaits YMaintenance =>
            '(s, l) ← thread_func_iteration 0 s;
            match l with
            | LExit =>
                '(s, _) ← thread_func_exit now created true s;
                '(m, y) ← fiber_manager_yield now created (lp_m s);      (* the loop of fiber_manager_yield *)
                match y with
                | YStayed => Some (lp_with s (with_fstate m maint FIBER_STATE_DONE))
                | _ => None
                end
            | _ => None
            end
        | _ => None
        end;
    (* fiber_destroy *)
    if Z.eqb (state_of (lp_m s) maint) FIBER_STATE_DONE then Some (lp_with s (act (lp_m s) (ADestroy maint))) else None.

(** ** The idle loop *)

(** The maintenance fiber runs on its thread, nothing is pending and it is not in
    the scheduler. *)
Record in_loop (s : loop_state) : Prop := {
  il_ok : fs_ok (sched (lp_m s));
  il_maint : maintenance_fiber (mgr (lp_m s)) <> NULL;
  il_current : current_fiber (mgr (lp_m s)) = maintenance_fiber (mgr (lp_m s));
  il_pending : pending_acts (mgr (lp_m s)) = [];
  il_out : maintenance_fiber (mgr (lp_m s)) ∉ fs_fibers (sched (lp_m s))
}.

(** What an iteration that finds nothing to run does. *)
Definition idle_acts (check_events : bool) (num_events : Z) : list idle_act :=
  if check_events then IPoll num_events :: if Z.eqb num_events 0 then [IPollBlocking 0 5000] else [] else [ISleep [10000]].

(** The idle loop.  It goes on as long as the program is not shutting down.  An
    iteration switches to the fiber that the scheduler returns: that fiber runs,
    no fiber is lost, and the maintenance fiber is left waiting, with its context
    saved, and is not scheduled.  If there is none,
    no fiber changes and the thread polls for events, blocking for at most 5 ms when there are none; a thread that must
    not look at events sleeps for 10 ms. *)
Theorem idle_loop_iteration s num_events : in_loop s ->
  (fiber_shutting_down s = true -> thread_func_iteration num_events s = Some (s, LExit)) /\
  (fiber_shutting_down s = false -> exists s' r, thread_func_iteration num_events s = Some (s', r) /\
    match r with
    | LSwitched f => fs_fibers (sched (lp_m s)) ≡ₚ f :: fs_fibers (sched (lp_m s')) /\ current_fiber (mgr (lp_m s')) = f /\
        state_of (lp_m s') f = FIBER_STATE_RUNNING /\ state_of (lp_m s') (maintenance_fiber (mgr (lp_m s))) = FIBER_STATE_WAITING /\
        acts (lp_m s') = acts (lp_m s) ++ [ABalance; ASwap (maintenance_fiber (mgr (lp_m s))) f] /\ lp_idle s' = lp_idle s
    | LIdle => fs_fibers (sched (lp_m s')) ≡ₚ fs_fibers (sched (lp_m s)) /\ mgr (lp_m s') = mgr (lp_m s) /\
        (forall g, state_of (lp_m s') g = state_of (lp_m s) g) /\ lp_idle s' = lp_idle s ++ idle_acts (should_check_events s) num_events
    | LExit => False
    end).
Proof.
  intros [Hok Hm Hc Hp Hout]. split; [unfold thread_func_iteration; by intros ->|]. intros Hs. unfold thread_func_iteration. rewrite Hs.
  destruct (fs_balance_ok _ Hok) as (x & -> & Hx & Hpx). cbn [mbind option_bind].
  destruct (fs_next_ok (state_of (act (with_sched (lp_m s) x) ABalance)) x Hx) as (y & r & E & Hy & Hpy & Hsv).
  cbn [sched act with_sched] in *. rewrite E. cbn [mbind option_bind]. destruct r as [f|].
  - pose proof (pending_nil _ Hp) as (N1 & N2 & N3 & N4 & N5 & N6 & N7). cbn [mgr with_sched act] in *.
    set (old := maintenance_fiber (mgr (lp_m s))) in *. simpl in Hpy.
    set (m1 := with_fstate _ old FIBER_STATE_SAVING_STATE_TO_WAIT).
    assert (old <> f) as Hne by (intros ->; apply Hout; rewrite <- Hpx, Hpy; left).
    assert (can_switch m1 old f) as Hcs by (split; unfold m1; cbn; auto; by intros []).
    destruct (switch_spec m1 old f Hcs) as (m2 & -> & S1 & _ & S3 & _ & _ & S6 & S7 & S8 & _). cbn [mbind option_bind].
    eexists _, _. split; [reflexivity|]. cbn [lp_m lp_with lp_idle].
    assert (state_of m1 old = FIBER_STATE_SAVING_STATE_TO_WAIT) as Hst by (unfold m1; by rewrite state_of_fstate, decide_True).
    rewrite S8, Hst, S3, S7. unfold was_running in S6. rewrite Hst in S6. simpl in S6. split_and!; try done.
    + by rewrite <- Hpx, Hpy, S6.
    + rewrite S1, prepare_pending by (done || exact N2). unfold was_running, wait_acts, unless_null. rewrite Hst. unfold m1. cbn.
      by rewrite N1, N3, N4, N5, N6, N7, <- app_assoc.
  - simpl in Hpy. unfold idle_acts. cbn [should_check_events lp_with]. destruct (should_check_events s);
      eexists _, _; (split; [reflexivity|]); cbn [lp_m lp_act lp_with sched mgr lp_idle act with_sched]; by rewrite <- Hpx, Hpy.
Qed.

(** ** Shutdown *)

(** No operation of a manager changes its two own fibers. *)
Lemma maintenance_keeps m m' : fiber_manager_do_maintenance m = Some m' ->
  maintenance_fiber (mgr m') = maintenance_fiber (mgr m) /\ thread_fiber (mgr m') = thread_fiber (mgr m).
Proof.
  unfold fiber_manager_do_maintenance. intros E.
  destruct (if Z.eqb (done_fiber (mgr m)) NULL then _ else _) as [m1|]; [|done]. cbn [mbind option_bind] in E.
  destruct (if Z.eqb (to_schedule (mgr m)) NULL then _ else _) as [m2|]; [|done]. cbn [mbind option_bind] in E. by injection E as <-.
Qed.

Lemma switch_keeps m old new m' : fiber_manager_switch_to m old new = Some m' ->
  maintenance_fiber (mgr m') = maintenance_fiber (mgr m) /\ thread_fiber (mgr m') = thread_fiber (mgr m).
Proof.
  intros E%maintenance_keeps. destruct E as [-> ->]. unfold switch_prepare. by destruct (Z.eqb _ _).
Qed.

Lemma schedule_keeps m f m' : fiber_manager_schedule m f = Some m' -> mgr m' = mgr m.
Proof. unfold fiber_manager_schedule. destruct (fs_schedule _ _); cbn; [|done]. by intros [= <-]. Qed.

Lemma steal_keeps m m' : try_steal m = Some m' -> mgr m' = mgr m.
Proof. unfold try_steal. case_match; [|by intros [= <-]]. destruct (fs_balance _); cbn; [|done]. by intros [= <-]. Qed.

Lemma yield_keeps now created m m' r : maintenance_fiber (mgr m) <> NULL -> fiber_manager_yield now created m = Some (m', r) ->
  maintenance_fiber (mgr m') = maintenance_fiber (mgr m) /\ thread_fiber (mgr m') = thread_fiber (mgr m).
Proof.
  intros Hm. unfold fiber_manager_yield. cbn -[fs_next fiber_manager_switch_to fiber_manager_schedule try_steal time_lt].
  rewrite (proj2 (Z.eqb_neq _ _) Hm). intros E. destruct (fs_next _ _) as [[x [f|]]|]; cbn [mbind option_bind] in E; [| |done].
  - destruct (_ && _).
    + destruct (fiber_manager_switch_to _ _ _) as [m1|] eqn:E1; cbn [mbind option_bind] in E; [|done]. injection E as <- <-.
      by apply switch_keeps in E1.
    + destruct (fiber_manager_schedule _ _) as [m1|] eqn:E1; cbn [mbind option_bind] in E; [|done]. apply schedule_keeps in E1.
      destruct (try_steal _) as [m2|] eqn:E2; cbn [mbind option_bind] in E; [|done]. apply steal_keeps in E2.
      injection E as <- <-. by rewrite E2, E1.
  - destruct (_ || _).
    + destruct (fiber_manager_switch_to _ _ _) as [m1|] eqn:E1; cbn [mbind option_bind] in E; [|done]. injection E as <- <-.
      by apply switch_keeps in E1.
    + destruct (try_steal _) as [m2|] eqn:E2; cbn [mbind option_bind] in E; [|done]. apply steal_keeps in E2.
      injection E as <- <-. by rewrite E2.
Qed.

(** An empty scheduler returns no fiber and stays empty. *)
Lemma next_empty state x : fs_ok x -> fs_fibers x = [] -> exists y, fs_next state x = Some (y, None) /\ fs_ok y /\ fs_fibers y = [].
Proof.
  intros Hx He. destruct (fs_next_ok state x Hx) as (y & r & E & Hy & Hp & _). rewrite He in Hp.
  apply Permutation_nil in Hp. destruct r as [f|]; [done|]. simpl in Hp. by exists y.
Qed.

(** A running fiber that yields with nobody to run comes back at once. *)
Lemma yield_alone now created m : fs_ok (sched m) -> fs_fibers (sched m) = [] ->
  state_of m (current_fiber (mgr m)) = FIBER_STATE_RUNNING ->
  exists m' b, fiber_manager_yield now created m = Some (m', YStayed) /\ current_fiber (mgr m') = current_fiber (mgr m) /\
    fs_ok (sched m') /\ fs_fibers (sched m') = [] /\ (forall g, state_of m' g = state_of m g) /\
    acts m' = acts m ++ b /\ Forall (eq ABalance) b.
Proof.
  intros Hok He Hst. destruct (next_empty (state_of m) (sched m) Hok He) as (y & E & Hy & Hye).
  unfold fiber_manager_yield. cbn -[fs_next try_steal]. change (state_of (with_mgr m _)) with (state_of m). rewrite E, Hst.
  cbn -[try_steal]. unfold try_steal. cbn -[Z.land]. destruct (Z.eqb (Z.land _ 1023) 0).
  - destruct (fs_balance_ok y Hy) as (z & -> & Hz & Hp). cbn. rewrite Hye in Hp. symmetry in Hp. apply Permutation_nil in Hp.
    eexists _, [ABalance]. split; [reflexivity|]. cbn. split_and!; try done. by constructor.
  - eexists _, []. split; [reflexivity|]. cbn. rewrite app_nil_r. split_and!; done.
Qed.

(** The main fiber, running on the first thread with nothing pending and no other
    fiber to run, and a maintenance fiber that was never joined or detached. *)
Record can_complete (s : loop_state) : Prop := {
  cc_ok : fs_ok (sched (lp_m s));
  cc_main : current_fiber (mgr (lp_m s)) = thread_fiber (mgr (lp_m s)) /\ thread_fiber (mgr (lp_m s)) <> NULL;
  cc_running : state_of (lp_m s) (thread_fiber (mgr (lp_m s))) = FIBER_STATE_RUNNING;
  cc_pending : pending_acts (mgr (lp_m s)) = [];
  cc_maint : 0 < maintenance_fiber (mgr (lp_m s)) /\ maintenance_fiber (mgr (lp_m s)) <> thread_fiber (mgr (lp_m s));
  cc_detach : default FIBER_DETACH_NONE (detach_of s !! maintenance_fiber (mgr (lp_m s))) = FIBER_DETACH_NONE;
  cc_empty : fs_fibers (sched (lp_m s)) = [];
  cc_shutdown : fiber_shutting_down s = true
}.

(** The main fiber waits: the maintenance fiber runs. *)
Lemma complete_waits now created s : can_complete s -> let maint := maintenance_fiber (mgr (lp_m s)) in
  exists m, mark_completed now created maint s =
    Some (LoopState m true (should_check_events s) (<[maint:=FIBER_DETACH_WAIT_FOR_JOINER]> (detach_of s)) (lp_idle s), CWaits YMaintenance) /\
    fs_ok (sched m) /\ fs_fibers (sched m) = [] /\ current_fiber (mgr m) = maint /\ maintenance_fiber (mgr m) = maint /\
    thread_fiber (mgr m) = thread_fiber (mgr (lp_m s)) /\ pending_acts (mgr m) = [] /\
    acts m = acts (lp_m s) ++ [ASwap (thread_fiber (mgr (lp_m s))) maint; AStore (join_info_at maint) maint].
Proof.
  intros [Hok [Hc Hnn] Hr Hp [Hm Hne] Hd He Hsd] maint. fold maint in Hm, Hne, Hd. unfold mark_completed. rewrite Hd.
  change (Z.eqb FIBER_DETACH_NONE FIBER_DETACH_DETACHED) with false. change (Z.eqb FIBER_DETACH_NONE FIBER_DETACH_NONE) with true. cbv iota.
  pose proof (pending_nil _ Hp) as (N1 & N2 & N3 & N4 & N5 & N6 & N7).
  unfold manager_set_and_wait. cbn [lp_m lp_with]. unfold running_current. rewrite Hc, Hr.
  rewrite (proj2 (Z.eqb_neq (join_info_at maint) NULL)) by (unfold join_info_at, NULL; lia).
  rewrite (proj2 (Z.eqb_neq maint NULL)) by (unfold NULL; lia). cbn [andb negb Z.eqb FIBER_STATE_RUNNING Pos.eqb].
  set (m0 := with_fstate _ _ _).
  assert (can_yield m0) as Hy by (split; unfold m0; cbn; [done|congruence|done|by rewrite N1; intros []]).
  destruct (next_empty (state_of m0) (sched m0) Hok He) as (y & E & Hy1 & Hy2).
  pose proof (yield_without_fiber now created m0 y Hy E) as Hyf. cbn zeta in Hyf.
  assert (state_of m0 (current_fiber (mgr m0)) = FIBER_STATE_WAITING) as Hw.
  { unfold m0. rewrite state_of_fstate. by rewrite decide_True by (cbn; congruence). }
  rewrite decide_True in Hyf by auto. change (maintenance_fiber (mgr m0)) with maint in Hyf.
  rewrite (proj2 (Z.eqb_neq maint NULL)) in Hyf by (unfold NULL; lia).
  destruct Hyf as (m & Em & (A1 & A2 & A3 & A4 & A5 & _) & _); [unfold m0; cbn; congruence|].
  rewrite Em. cbn [mbind option_bind]. rewrite Hsd. exists m. split; [done|].
  assert (maintenance_fiber (mgr m0) <> NULL) as Hmn by (change (maint <> NULL); unfold NULL; lia).
  destruct (yield_keeps _ _ _ _ _ Hmn Em) as [K1 K2]. split_and!; try done.
  - apply Permutation_nil. rewrite A5, Hy2. unfold was_running. by rewrite Hw.
  - rewrite A1. unfold was_running, wait_acts, unless_null. rewrite Hw. unfold m0. cbn -[maint].
    rewrite N1, N3, N4, N5, N6, (proj2 (Z.eqb_neq (join_info_at maint) NULL)) by (unfold join_info_at, NULL; lia). done.
Qed.

(** The maintenance fiber leaves its loop and gives the thread back. *)
Lemma complete_hands_back now created m ce dt idle : fs_ok (sched m) -> fs_fibers (sched m) = [] ->
  current_fiber (mgr m) = maintenance_fiber (mgr m) -> maintenance_fiber (mgr m) <> NULL ->
  maintenance_fiber (mgr m) <> thread_fiber (mgr m) -> pending_acts (mgr m) = [] ->
  dt !! maintenance_fiber (mgr m) = Some FIBER_DETACH_WAIT_FOR_JOINER ->
  exists m', thread_func_exit now created true (LoopState m true ce dt idle) =
    Some (LoopState m' true ce (<[maintenance_fiber (mgr m):=FIBER_DETACH_WAIT_FOR_JOINER]> dt) idle, XSwitched (thread_fiber (mgr m))) /\
    fs_ok (sched m') /\ fs_fibers (sched m') = [] /\ current_fiber (mgr m') = thread_fiber (mgr m) /\ pending_acts (mgr m') = [] /\
    state_of m' (thread_fiber (mgr m)) = FIBER_STATE_RUNNING /\ maintenance_fiber (mgr m') = maintenance_fiber (mgr m) /\
    thread_fiber (mgr m') = thread_fiber (mgr m) /\
    acts m' = acts m ++ [ASwap (maintenance_fiber (mgr m)) (thread_fiber (mgr m))].
Proof.
  intros Hok He Hc Hm Hne Hp Hd. pose proof (pending_nil _ Hp) as (N1 & N2 & N3 & N4 & N5 & N6 & N7).
  unfold thread_func_exit, mark_completed. cbn [lp_m detach_of]. rewrite Hd. cbn [mbind option_bind default from_option id Z.eqb FIBER_DETACH_WAIT_FOR_JOINER FIBER_DETACH_DETACHED FIBER_DETACH_NONE FIBER_DETACH_WAIT_TO_JOIN Pos.eqb lp_m lp_with].
  set (m1 := with_fstate m _ FIBER_STATE_DONE). change (mgr m1) with (mgr m). rewrite (proj2 (Z.eqb_neq _ _) Hne).
  assert (state_of m1 (maintenance_fiber (mgr m)) = FIBER_STATE_DONE) as Hst by (unfold m1; by rewrite state_of_fstate, decide_True).
  assert (can_switch m1 (maintenance_fiber (mgr m)) (thread_fiber (mgr m))) as Hcs by (split; unfold m1; cbn; auto; by rewrite N1; intros []).
  destruct (switch_spec m1 _ _ Hcs) as (m2 & E & S1 & S2 & S3 & _ & S5 & S6 & S7 & _ & _). rewrite E. cbn [mbind option_bind].
  exists m2. split; [done|]. apply switch_keeps in E as [K1 K2]. split_and!; try done.
  - apply Permutation_nil. rewrite S6. unfold was_running. rewrite Hst. unfold m1. cbn. by rewrite He.
  - rewrite S1, prepare_pending by (done || exact N2). unfold was_running, wait_acts, unless_null. rewrite Hst. unfold m1. cbn.
    by rewrite N1, N3, N4, N5, N6, N7.
Qed.

(** Completing the maintenance fiber at shutdown.  The main fiber calls
    [fiber_mark_completed] on a fiber that nobody will ever join.  Its wait ends
    all the same: with no other fiber to run, it switches to the maintenance
    fiber, which sees that the program is shutting down, completes itself and
    switches back.  The main fiber runs again, both calls to
    [fiber_mark_completed] have returned, and the maintenance fiber is destroyed in
    the state that [fiber_destroy] asserts, off its stack. *)
Theorem shutdown_completes_maintenance now created s : can_complete s ->
  let maint := maintenance_fiber (mgr (lp_m s)) in let main := thread_fiber (mgr (lp_m s)) in
  exists s' b, complete_maintenance now created s = Some s' /\ current_fiber (mgr (lp_m s')) = main /\
    state_of (lp_m s') main = FIBER_STATE_RUNNING /\ state_of (lp_m s') maint = FIBER_STATE_DONE /\
    fs_fibers (sched (lp_m s')) = [] /\ Forall (eq ABalance) b /\
    acts (lp_m s') = acts (lp_m s) ++ [ASwap main maint; AStore (join_info_at maint) maint; ASwap maint main] ++ b ++ [ADestroy maint].
Proof.
  intros Hcc maint main. destruct (complete_waits now created s Hcc) as (m & E & M1 & M2 & M3 & M4 & M5 & M6 & M7).
  fold maint in E, M3, M4, M7. fold main in M5, M7. pose proof (cc_maint _ Hcc) as [Hpos Hne]. fold maint in Hpos, Hne. fold main in Hne.
  unfold complete_maintenance. fold maint. rewrite (proj2 (Z.eqb_neq maint NULL)) by (unfold NULL; lia). rewrite E. cbn [mbind option_bind].
  unfold thread_func_iteration at 1. cbn [fiber_shutting_down mbind option_bind].
  destruct (complete_hands_back now created m (should_check_events s) (<[maint:=FIBER_DETACH_WAIT_FOR_JOINER]> (detach_of s)) (lp_idle s))
    as (m2 & E2 & K1 & K2 & K3 & K4 & K5 & K6 & K7 & K8); rewrite ?M4, ?M5; try done; [unfold NULL; lia|by rewrite lookup_insert_eq|].
  rewrite M4, M5 in *. rewrite E2. cbn [mbind option_bind lp_m].
  destruct (yield_alone now created m2) as (m3 & b & E3 & Y1 & Y2 & Y3 & Y4 & Y5 & Y6); [done|done|by rewrite K3|].
  rewrite E3. cbn [mbind option_bind lp_m lp_with]. rewrite state_of_fstate, decide_True by done. cbn [Z.eqb FIBER_STATE_DONE Pos.eqb].
  eexists _, b. split; [reflexivity|]. cbn [lp_m lp_with]. split_and!.
  - cbn. by rewrite Y1.
  - change (state_of (act ?x ?a) ?f) with (state_of x f). rewrite state_of_fstate, decide_False by done. by rewrite Y4.
  - change (state_of (act ?x ?a) ?f) with (state_of x f). by rewrite state_of_fstate, decide_True.
  - done.
  - done.
  - cbn. rewrite Y5, K8, M7. by rewrite <- !app_assoc.
Qed.

End loop.

(** ** Examples *)

#[local] Instance loop_scheduler : FiberScheduler schedulers := wsd_scheduler 0 [].

(** The main fiber 8 on the first thread, its maintenance fiber 32, and a queue. *)
Definition loop_mgr (current : Z) (queue : list Z) : mstate (S := schedulers) :=
  MState (Manager 32 current 8 8 NULL (NULL, NULL) (NULL, NULL) NULL NULL NULL NULL NULL 6)
    (list_to_map [(8, FIBER_STATE_RUNNING); (16, FIBER_STATE_READY); (32, FIBER_STATE_WAITING)])
    (Schedulers [queue; []] [Scheduler 0 1 0 0 0]) ∅ 0 [].

Lemma loop_sched_ok queue : fs_ok (Schedulers [queue; []] [Scheduler 0 1 0 0 0]).
Proof. split; [|by eexists]. split; [done|]. intros i x Hi. destruct i; simplify_eq/=. split; [done|]. by left. Qed.

Lemma shutdown_completes_maintenance_witness : exists s' b,
  complete_maintenance (10, 0) 40 (LoopState (loop_mgr 8 []) true true ∅ []) = Some s' /\ current_fiber (mgr (lp_m s')) = 8 /\
  state_of (lp_m s') 8 = FIBER_STATE_RUNNING /\ state_of (lp_m s') 32 = FIBER_STATE_DONE /\ fs_fibers (sched (lp_m s')) = [] /\
  Forall (eq ABalance) b /\ acts (lp_m s') = [] ++ [ASwap 8 32; AStore 120 32; ASwap 32 8] ++ b ++ [ADestroy 32].
Proof.
  apply (shutdown_completes_maintenance (10, 0) 40 (LoopState (loop_mgr 8 []) true true ∅ [])).
  split; try reflexivity; try (split; [reflexivity|discriminate]). apply loop_sched_ok.
Defined.

Lemma idle_loop_iteration_witness : exists s' r,
  thread_func_iteration 0 (LoopState (loop_mgr 32 [16]) false true ∅ []) = Some (s', r) /\ r = LSwitched 16 /\
  fs_fibers (sched (loop_mgr 32 [16])) ≡ₚ 16 :: fs_fibers (sched (lp_m s')) /\ state_of (lp_m s') 32 = FIBER_STATE_WAITING.
Proof.
  destruct (idle_loop_iteration (LoopState (loop_mgr 32 [16]) false true ∅ []) 0) as [_ Hi].
  { split; try reflexivity; [apply loop_sched_ok|discriminate|]. vm_compute. intros Hx. by repeat apply elem_of_cons in Hx as [?|Hx]; try apply elem_of_nil in Hx. }
  destruct (Hi eq_refl) as (s' & r & E & Hr). exists s', r. vm_compute in E. injection E as <- <-. destruct Hr as (H1 & _ & _ & H2 & _).
  split; [reflexivity|]. split; [reflexivity|]. split; [exact H1|exact H2].
Defined.
