(* ===== verification/ManagerLife.v ===== *)
(** * Start-up, shutdown and statistics of the fiber manager
      ([src/fiber_manager.c])

    [fiber_manager_init] allocates one manager per kernel thread, each with a fiber
    for the thread itself, and starts the threads; [fiber_shutdown] joins them and
    frees everything.  The model keeps the heap blocks, the static variables and
    the calls to other parts of the system, in a state monad in which a failed
    assertion, a fault or a double free has no result. *)

From S2P Require Import Prelude MpscFifo Wsd SchedulerWsd Manager Fiber.

Definition FIBER_MANAGER_STATE_NONE : Z := 0.
Definition FIBER_MANAGER_STATE_STARTED : Z := 1.
Definition FIBER_MANAGER_STATE_ERROR : Z := 2.
Definition EINVAL : Z := 22.

(** ** State *)

(** A fiber on the heap: its node, statistics and stack are blocks of their own;
    the fiber of a thread has no stack. *)
Record lf_fiber := LfFiber { lf_state : Z; lf_detach : Z; lf_node : Z; lf_stats : Z; lf_stack : Z }.

(** The counters of a manager. *)
Record counters := Counters {
  c_yield : Z; c_spin : Z; c_signal_spin : Z; c_multi_signal_spin : Z; c_wake_mpsc_spin : Z; c_wake_mpmc_spin : Z;
  c_poll : Z; c_event_wait : Z; c_lock_contention : Z
}.
Definition no_counts : counters := Counters 0 0 0 0 0 0 0 0 0.

Record lf_manager := LfManager {
  lm_maintenance_fiber : Z;
  lm_current_fiber : Z;
  lm_thread_fiber : Z;
  lm_scheduler : nat;               (* the scheduler of this thread *)
  lm_id : Z;
  lm_counts : counters
}.

(** Calls that leave this file. *)
Inductive life_call :=
| CThreadCreate (i : nat) (manager : Z) | CThreadJoin (thread : Z) | CYield | CUsleep (us : Z)
| CIoInit | CEventInit | CRingDestroy | CHazardDestroy | CIoShutdown | CEventShutdown | CWakeJoiner (f : Z).

(** [blocks]: the allocated heap blocks.  The arrays [fiber_manager_threads] and
    [fiber_managers] are a block and its contents. *)
Record life := Life {
  blocks : gset Z;
  fibers_at : gmap Z lf_fiber;
  managers_at : gmap Z lf_manager;
  fiber_manager_state : Z;
  fiber_manager_num_threads : Z;
  fiber_manager_threads : Z * list Z;
  fiber_managers : Z * list Z;
  fiber_the_manager : Z;
  lf_shutting_down : bool;
  lf_check_events : bool;
  this_thread : Z;
  lf_errno : Z;
  lf_lock_using : Z;
  fiber_schedulers : option schedulers;
  lf_calls : list life_call
}.

(** At the start of the program. *)
Definition life_init : life :=
  Life ∅ ∅ ∅ FIBER_MANAGER_STATE_NONE 0 (NULL, []) (NULL, []) NULL false true NULL 0 0 None [].

(** ** The monad *)

Definition lm (A : Type) : Type := life -> option (A * life).
#[global] Instance lm_ret : MRet lm := fun A a s => Some (a, s).
#[global] Instance lm_bind : MBind lm := fun A B f m s => match m s with Some (a, s') => f a s' | None => None end.

Definition gets {A} (f : life -> A) : lm A := fun s => Some (f s, s).
Definition modify (f : life -> life) : lm unit := fun s => Some (tt, f s).
Definition assert_ (b : bool) : lm unit := fun s => if b then Some (tt, s) else None.
Definition of_option {A} (o : option A) : lm A := fun s => match o with Some a => Some (a, s) | None => None end.

Definition set_blocks (b : gset Z) (s : life) : life :=
  Life b (fibers_at s) (managers_at s) (fiber_manager_state s) (fiber_manager_num_threads s) (fiber_manager_threads s) (fiber_managers s)
    (fiber_the_manager s) (lf_shutting_down s) (lf_check_events s) (this_thread s) (lf_errno s) (lf_lock_using s) (fiber_schedulers s) (lf_calls s).
Definition set_fibers (m : gmap Z lf_fiber) (s : life) : life :=
  Life (blocks s) m (managers_at s) (fiber_manager_state s) (fiber_manager_num_threads s) (fiber_manager_threads s) (fiber_managers s)
    (fiber_the_manager s) (lf_shutting_down s) (lf_check_events s) (this_thread s) (lf_errno s) (lf_lock_using s) (fiber_schedulers s) (lf_calls s).
Definition set_managers (m : gmap Z lf_manager) (s : life) : life :=
  Life (blocks s) (fibers_at s) m (fiber_manager_state s) (fiber_manager_num_threads s) (fiber_manager_threads s) (fiber_managers s)
    (fiber_the_manager s) (lf_shutting_down s) (lf_check_events s) (this_thread s) (lf_errno s) (lf_lock_using s) (fiber_schedulers s) (lf_calls s).
Definition set_state (v : Z) (s : life) : life :=
  Life (blocks s) (fibers_at s) (managers_at s) v (fiber_manager_num_threads s) (fiber_manager_threads s) (fiber_managers s)
    (fiber_the_manager s) (lf_shutting_down s) (lf_check_events s) (this_thread s) (lf_errno s) (lf_lock_using s) (fiber_schedulers s) (lf_calls s).
Definition set_threads (n : Z) (a : Z * list Z) (s : life) : life :=
  Life (blocks s) (fibers_at s) (managers_at s) (fiber_manager_state s) n a (fiber_managers s)
    (fiber_the_manager s) (lf_shutting_down s) (lf_check_events s) (this_thread s) (lf_errno s) (lf_lock_using s) (fiber_schedulers s) (lf_calls s).
Definition set_array (a : Z * list Z) (s : life) : life :=
  Life (blocks s) (fibers_at s) (managers_at s) (fiber_manager_state s) (fiber_manager_num_threads s) (fiber_manager_threads s) a
    (fiber_the_manager s) (lf_shutting_down s) (lf_check_events s) (this_thread s) (lf_errno s) (lf_lock_using s) (fiber_schedulers s) (lf_calls s).
Definition set_the_manager (m : Z) (s : life) : life :=
  Life (blocks s) (fibers_at s) (managers_at s) (fiber_manager_state s) (fiber_manager_num_threads s) (fiber_manager_threads s) (fiber_managers s)
    m (lf_shutting_down s) (lf_check_events s) (this_thread s) (lf_errno s) (lf_lock_using s) (fiber_schedulers s) (lf_calls s).
Definition set_flags (down check : bool) (thread lock : Z) (s : life) : life :=
  Life (blocks s) (fibers_at s) (managers_at s) (fiber_manager_state s) (fiber_manager_num_threads s) (fiber_manager_threads s) (fiber_managers s)
    (fiber_the_manager s) down check thread (lf_errno s) lock (fiber_schedulers s) (lf_calls s).
Definition set_errno (e : Z) (s : life) : life :=
  Life (blocks s) (fibers_at s) (managers_at s) (fiber_manager_state s) (fiber_manager_num_threads s) (fiber_manager_threads s) (fiber_managers s)
    (fiber_the_manager s) (lf_shutting_down s) (lf_check_events s) (this_thread s) e (lf_lock_using s) (fiber_schedulers s) (lf_calls s).
Definition set_schedulers (x : option schedulers) (s : life) : life :=
  Life (blocks s) (fibers_at s) (managers_at s) (fiber_manager_state s) (fiber_manager_num_threads s) (fiber_manager_threads s) (fiber_managers s)
    (fiber_the_manager s) (lf_shutting_down s) (lf_check_events s) (this_thread s) (lf_errno s) (lf_lock_using s) x (lf_calls s).
Definition call (l : list life_call) (s : life) : life :=
  Life (blocks s) (fibers_at s) (managers_at s) (fiber_manager_state s) (fiber_manager_num_threads s) (fiber_manager_threads s) (fiber_managers s)
    (fiber_the_manager s) (lf_shutting_down s) (lf_check_events s) (this_thread s) (lf_errno s) (lf_lock_using s) (fiber_schedulers s) (lf_calls s ++ l).

(** [a] is what the allocator returns, a block that is not in use; [None] when it
    is. *)
Definition calloc (a : Z) : lm Z := fun s =>
  if decide (a = NULL) then Some (NULL, s)
  else if decide (a ∈ blocks s) then None else Some (a, set_blocks ({[a]} ∪ blocks s) s).
Definition free (a : Z) : lm unit := fun s =>
  if decide (a = NULL) then Some (tt, s)
  else if decide (a ∈ blocks s) then Some (tt, set_blocks (blocks s ∖ {[a]}) s) else None.
Fixpoint calloc_all (l : list Z) : lm unit := match l with [] => mret tt | a :: l => calloc a ≫= fun _ => calloc_all l end.

(** ** Fibers and managers *)

(** [fiber_context_destroy] frees the stack of a fiber that is not a thread's. *)
Definition fiber_destroy (f : Z) : lm unit :=
  if decide (f = NULL) then mret tt
  else
    m ← gets fibers_at;
    x ← of_option (m !! f);
    assert_ (Z.eqb (lf_state x) FIBER_STATE_DONE);;
    free (lf_stack x);;
    free (lf_node x);;
    free f;;
    modify (set_fibers (delete f m)).

(** The blocks that the allocator returns for a manager; what
    [fiber_context_init_from_thread] returns. *)
Inductive part := PManager | PFiber | PNode | PStats.
#[global] Instance part_eq_dec : EqDecision part.
Proof. solve_decision. Defined.
Record create_answers := CreateAnswers { ans : part -> Z; ans_ctx : Z }.

(** [fiber_create_from_thread], with its effect on the heap. *)
Definition create_from_thread (a : create_answers) : lm Z :=
  c ← of_option (fiber_create_from_thread (ans a PFiber) (ans a PNode) (ans a PStats) (ans_ctx a));
  calloc_all (cr_live c);;
  match cr_fiber c with
  | Some f =>
      m ← gets fibers_at;
      modify (set_fibers (<[cr_ret c:=LfFiber (fb_state f) (fb_detach_state f) (fb_mpsc_fifo_node f) (ans a PStats) NULL]> m))
  | None => mret tt
  end;;
  match cr_errno c with Some e => modify (set_errno e) | None => mret tt end;;
  mret (cr_ret c).

(** [fiber_detach] of a fiber that no other fiber knows. *)
Definition detach (f : Z) : lm Z :=
  if decide (f = NULL) then mret FIBER_ERROR
  else
    m ← gets fibers_at;
    x ← of_option (m !! f);
    modify (set_fibers (<[f:=LfFiber (lf_state x) FIBER_DETACH_DETACHED (lf_node x) (lf_stats x) (lf_stack x)]> m));;
    if Z.eqb (lf_detach x) FIBER_DETACH_WAIT_FOR_JOINER || Z.eqb (lf_detach x) FIBER_DETACH_WAIT_TO_JOIN
    then modify (call [CWakeJoiner f]);; mret FIBER_SUCCESS
    else mret (if Z.eqb (lf_detach x) FIBER_DETACH_DETACHED then FIBER_ERROR else FIBER_SUCCESS).

Definition fiber_manager_create (a : create_answers) (scheduler : nat) : lm Z :=
  manager ← calloc (ans a PManager);
  if decide (manager = NULL) then modify (set_errno ENOMEM);; mret NULL
  else
    thread_fiber ← create_from_thread a;
    detach thread_fiber;;
    m ← gets managers_at;
    modify (set_managers (<[manager:=LfManager NULL thread_fiber thread_fiber scheduler 0 no_counts]> m));;
    if decide (thread_fiber = NULL)
    then fiber_destroy thread_fiber;; free manager;; m ← gets managers_at; modify (set_managers (delete manager m));; mret NULL
    else mret manager.

Definition fiber_manager_destroy (manager : Z) : lm unit :=
  m ← gets managers_at;
  x ← of_option (m !! manager);
  fiber_destroy (lm_thread_fiber x);;
  free manager;;
  modify (set_managers (delete manager m)).

(** ** Start-up *)

(** What the environment answers: the blocks of the two arrays and of each
    manager, whether the schedulers could be allocated, the thread identifiers, the
    results of [pthread_create], and those of the initialisation of the two other
    parts. *)
Record life_env := LifeEnv {
  e_threads : Z;
  e_managers : Z;
  e_create : nat -> create_answers;
  e_sched : bool;
  e_self : Z;
  e_thread : nat -> Z;
  e_pthread_create : nat -> Z;
  e_io_init : Z;
  e_event_init : Z
}.

(** [fiber_scheduler_init] with its assertions; it returns 1. *)
Definition scheduler_init (e : life_env) (num_threads : nat) : lm Z :=
  assert_ (negb (Nat.eqb num_threads 0));;
  x ← gets fiber_schedulers;
  assert_ (bool_decide (x = None));;
  assert_ (e_sched e);;
  modify (set_schedulers (Some (fiber_scheduler_init num_threads)));;
  mret 1.

(** [fiber_scheduler_for_thread]: the scheduler, by its index. *)
Definition fiber_scheduler_for_thread (i : nat) : lm nat :=
  x ← gets fiber_schedulers;
  y ← of_option x;
  assert_ (Nat.ltb i (length (scheds y)));;
  mret i.

(** [fiber_managers[i] = v]; out of the block there is no result. *)
Definition store_manager (i : nat) (v : Z) : lm unit :=
  a ← gets fiber_managers;
  assert_ (negb (Z.eqb a.1 NULL) && Nat.ltb i (length a.2));;
  modify (set_array (a.1, <[i:=v]> a.2)).
Definition store_thread (i : nat) (v : Z) : lm unit :=
  n ← gets fiber_manager_num_threads;
  a ← gets fiber_manager_threads;
  assert_ (negb (Z.eqb a.1 NULL) && Nat.ltb i (length a.2));;
  modify (set_threads n (a.1, <[i:=v]> a.2)).

Definition set_manager_id (manager id : Z) : lm unit :=
  m ← gets managers_at;
  x ← of_option (m !! manager);
  modify (set_managers (<[manager:=LfManager (lm_maintenance_fiber x) (lm_current_fiber x) (lm_thread_fiber x) (lm_scheduler x) id (lm_counts x)]> m)).

(** The loop that creates the managers of the other threads, from [i] on. *)
Fixpoint create_managers (e : life_env) (i todo : nat) : lm unit :=
  match todo with
  | O => mret tt
  | S todo =>
      k ← fiber_scheduler_for_thread i;
      new_manager ← fiber_manager_create (e_create e i) k;
      assert_ (negb (Z.eqb new_manager NULL));;
      set_manager_id new_manager (Z.of_nat i);;
      store_manager i new_manager;;
      create_managers e (S i) todo
  end.

(** The loop that starts the threads; a failure aborts the program. *)
Fixpoint start_threads (e : life_env) (i todo : nat) : lm unit :=
  match todo with
  | O => mret tt
  | S todo =>
      a ← gets fiber_managers;
      m ← of_option (a.2 !! i);
      assert_ (Z.eqb (e_pthread_create e i) 0);;
      modify (call [CThreadCreate i m]);;
      store_thread i (e_thread e i);;
      start_threads e (S i) todo
  end.

Definition fiber_manager_init (e : life_env) (num_threads : nat) : lm Z :=
  modify (fun s => set_flags false true (e_self e) (-1) s);;      (* init_scheduler_lock_data and the three flags *)
  st ← gets fiber_manager_state;
  if decide (st <> FIBER_MANAGER_STATE_NONE) then modify (set_errno EINVAL);; mret FIBER_ERROR
  else
    sched_ret ← scheduler_init e num_threads;
    if decide (sched_ret = 0) then mret FIBER_ERROR
    else
      a ← gets fiber_manager_threads;
      assert_ (Z.eqb a.1 NULL);;
      thr ← calloc (e_threads e);
      assert_ (negb (Z.eqb thr NULL));;
      modify (set_threads (i32 (Z.of_nat num_threads)) (thr, replicate num_threads 0));;
      b ← gets fiber_managers;
      assert_ (Z.eqb b.1 NULL);;
      mgrs ← calloc (e_managers e);
      assert_ (negb (Z.eqb mgrs NULL));;
      modify (set_array (mgrs, replicate num_threads NULL));;
      k ← fiber_scheduler_for_thread 0;
      main_manager ← fiber_manager_create (e_create e 0%nat) k;
      assert_ (negb (Z.eqb main_manager NULL));;
      modify (set_the_manager main_manager);;
      store_manager 0 main_manager;;
      store_thread 0 (e_self e);;
      modify (set_state FIBER_MANAGER_STATE_STARTED);;
      create_managers e 1 (num_threads - 1);;
      store_thread 0 (e_self e);;
      start_threads e 1 (num_threads - 1);;
      modify (call [CIoInit]);;
      if decide (e_io_init e = 0) then mret FIBER_ERROR
      else
        modify (call [CEventInit]);;
        mret (if decide (e_event_init e = 0) then FIBER_ERROR else FIBER_SUCCESS).

(** ** Shutdown *)

(** [fiber_mark_completed], as the caller sees it when it returns: the fiber is
    done (how the wait of an undetached fiber ends is [ManagerLoop]'s subject). *)
Definition mark_done (f : Z) : lm unit :=
  m ← gets fibers_at;
  x ← of_option (m !! f);
  modify (set_fibers (<[f:=LfFiber FIBER_STATE_DONE
    (if Z.eqb (lf_detach x) FIBER_DETACH_DETACHED then lf_detach x else FIBER_DETACH_WAIT_FOR_JOINER)
    (lf_node x) (lf_stats x) (lf_stack x)]> m)).

(** What the thread of a manager has done when [pthread_join] returns: it made its
    own fiber the maintenance fiber when it started, and completed it at the end of
    [fiber_manager_thread_func]. *)
Definition thread_ended (manager : Z) : lm unit :=
  m ← gets managers_at;
  x ← of_option (m !! manager);
  let maint := if Z.eqb (lm_maintenance_fiber x) NULL then lm_thread_fiber x else lm_maintenance_fiber x in
  modify (set_managers (<[manager:=LfManager maint (lm_current_fiber x) (lm_thread_fiber x) (lm_scheduler x) (lm_id x) (lm_counts x)]> m));;
  mark_done maint.

Fixpoint join_threads (i todo : nat) : lm unit :=
  match todo with
  | O => mret tt
  | S todo =>
      a ← gets fiber_managers;
      m ← of_option (a.2 !! i);
      thread_ended m;;
      b ← gets fiber_manager_threads;
      t ← of_option (b.2 !! i);
      modify (call [CThreadJoin t]);;
      join_threads (S i) todo
  end.

Fixpoint destroy_managers (i todo : nat) : lm unit :=
  match todo with
  | O => mret tt
  | S todo =>
      a ← gets fiber_managers;
      m ← of_option (a.2 !! i);
      fiber_manager_destroy m;;
      destroy_managers (S i) todo
  end.

(** The first loop: the fiber yields until it runs on the first thread; [places]
    are the threads on which it finds itself. *)
Fixpoint reach_first_thread (places : list Z) : lm unit :=
  match places with
  | [] => fun _ => None
  | p :: places =>
      b ← gets fiber_manager_threads;
      t ← of_option (b.2 !! 0%nat);
      s ← gets id;
      modify (set_flags (lf_shutting_down s) (lf_check_events s) p (lf_lock_using s));;
      if Z.eqb p t then mret tt
      else
        modify (set_flags (lf_shutting_down s) false p (lf_lock_using s));;
        modify (call [CYield; CUsleep 1000]);;
        reach_first_thread places
  end.

Definition fiber_shutdown (places : list Z) : lm unit :=
  reach_first_thread places;;
  s ← gets id;
  modify (set_flags true (lf_check_events s) (this_thread s) (lf_lock_using s));;
  n ← gets fiber_manager_num_threads;
  join_threads 1 (Z.to_nat n - 1);;
  a ← gets fiber_managers;
  m0 ← of_option (a.2 !! 0%nat);
  ms ← gets managers_at;
  x0 ← of_option (ms !! m0);
  (if Z.eqb (lm_maintenance_fiber x0) NULL then mret tt
   else mark_done (lm_maintenance_fiber x0);; fiber_destroy (lm_maintenance_fiber x0));;
  mark_done (lm_thread_fiber x0);;
  destroy_managers 0 (Z.to_nat n);;
  free a.1;;
  modify (set_array (NULL, []));;
  b ← gets fiber_manager_threads;
  free b.1;;
  n ← gets fiber_manager_num_threads;
  modify (set_threads n (NULL, []));;
  modify (call [CRingDestroy; CHazardDestroy; CIoShutdown; CEventShutdown]).

(** ** Small functions *)

(** [fiber_load_symbol]: what [dlsym] finds after this library, else anywhere. *)
Definition fiber_load_symbol (next anywhere : Z) : option Z :=
  let ret := if Z.eqb next NULL then anywhere else next in
  if Z.eqb ret NULL then None else Some ret.

(** [fiber_manager_get_hazard_record]: the field [mpmc_hptr] and the record that
    [hazard_pointer_thread_record_create_and_push] would return; the result, the
    field afterwards and whether a record was created. *)
Definition fiber_manager_get_hazard_record (mpmc_hptr created : Z) : Z * Z * bool :=
  if Z.eqb mpmc_hptr NULL then (created, created, true) else (mpmc_hptr, mpmc_hptr, false).

(** Every call after the first returns the same record and creates none. *)
Lemma hazard_record_once mpmc_hptr created later : created <> NULL ->
  let '(r, field, _) := fiber_manager_get_hazard_record mpmc_hptr created in
  fiber_manager_get_hazard_record field later = (r, r, false) /\ r = field.
Proof.
  intros Hc. unfold fiber_manager_get_hazard_record. destruct (Z.eqb_spec mpmc_hptr NULL) as [E|E].
  - by rewrite (proj2 (Z.eqb_neq _ _) Hc).
  - by rewrite (proj2 (Z.eqb_neq _ _) E).
Qed.

(** ** Statistics *)

Record stats := Stats { st_counts : counters; st_steal : Z; st_failed_steal : Z }.
Definition no_stats : stats := Stats no_counts 0 0.

Definition add_counts (a b : counters) : counters :=
  Counters (u64 (c_yield a + c_yield b)) (u64 (c_spin a + c_spin b)) (u64 (c_signal_spin a + c_signal_spin b))
    (u64 (c_multi_signal_spin a + c_multi_signal_spin b)) (u64 (c_wake_mpsc_spin a + c_wake_mpsc_spin b))
    (u64 (c_wake_mpmc_spin a + c_wake_mpmc_spin b)) (u64 (c_poll a + c_poll b)) (u64 (c_event_wait a + c_event_wait b))
    (u64 (c_lock_contention a + c_lock_contention b)).

Definition fiber_manager_stats (s : life) (manager : Z) (out : stats) : option stats :=
  x ← managers_at s !! manager;
  y ← fiber_schedulers s;
  '(steal, failed) ← fiber_scheduler_stats y (lm_scheduler x) (st_steal out, st_failed_steal out);
  Some (Stats (add_counts (st_counts out) (lm_counts x)) steal failed).

(** [None]: a manager that is not there. *)
Fixpoint stats_loop (s : life) (l : list Z) (out : stats) : option stats :=
  match l with
  | [] => Some out
  | m :: l => out ← fiber_manager_stats s m out; stats_loop s l out
  end.
Definition fiber_manager_all_stats (s : life) (out : stats) : option stats :=
  let out := no_stats in                       (* memset *)
  if Z.eqb (fiber_managers s).1 NULL then Some out
  else stats_loop s (take (Z.to_nat (fiber_manager_num_threads s)) (fiber_managers s).2) out.

(** ** Running the monad *)

Lemma bind_run {A B} (m : lm A) (f : A -> lm B) s a s' : m s = Some (a, s') -> (m ≫= f) s = f a s'.
Proof. intros E. unfold mbind, lm_bind. by rewrite E. Qed.

Lemma calloc_run a s : a <> NULL -> a ∉ blocks s -> calloc a s = Some (a, set_blocks ({[a]} ∪ blocks s) s).
Proof. intros Ha Hb. unfold calloc. by rewrite decide_False, decide_False. Qed.

Lemma free_run a s : a <> NULL -> a ∈ blocks s -> free a s = Some (tt, set_blocks (blocks s ∖ {[a]}) s).
Proof. intros Ha Hb. unfold free. by rewrite decide_False, decide_True. Qed.

Lemma assert_run b s : b = true -> assert_ b s = Some (tt, s).
Proof. by intros ->. Qed.

(** [mrun] performs the steps of a block whose results are known. *)
Ltac mrun := repeat first
  [ erewrite bind_run by reflexivity
  | erewrite bind_run by (apply assert_run; solve [done | rewrite ?bool_decide_true, ?negb_true_iff, ?Z.eqb_neq, ?Z.eqb_eq; done])
  | progress cbv beta ].

(** ** Creating a manager *)

(** The state after a successful creation. *)
Definition created (a : create_answers) (k : nat) (s : life) : life :=
  set_managers (<[ans a PManager:=LfManager NULL (ans a PFiber) (ans a PFiber) k 0 no_counts]> (managers_at s))
    (set_fibers (<[ans a PFiber:=LfFiber FIBER_STATE_RUNNING FIBER_DETACH_DETACHED (ans a PNode) (ans a PStats) NULL]> (fibers_at s))
      (set_blocks ({[ans a PStats]} ∪ ({[ans a PNode]} ∪ ({[ans a PFiber]} ∪ ({[ans a PManager]} ∪ blocks s)))) s)).

Lemma create_run a k s : (forall p, ans a p <> NULL /\ ans a p ∉ blocks s) -> (forall p q, ans a p = ans a q -> p = q) ->
  ans_ctx a = FIBER_SUCCESS -> fiber_manager_create a k s = Some (ans a PManager, created a k s).
Proof.
  intros Ha Hinj Hctx. unfold fiber_manager_create.
  rewrite (bind_run _ _ _ _ _ (calloc_run _ _ (proj1 (Ha PManager)) (proj2 (Ha PManager)))).
  rewrite decide_False by apply Ha. unfold create_from_thread, fiber_create_from_thread.
  rewrite !(proj2 (Z.eqb_neq _ _) (proj1 (Ha _))), Hctx. cbn [Z.eqb FIBER_SUCCESS Pos.eqb].
  assert (forall p q, p <> q -> ans a p <> ans a q) as Hne by (intros p q Hpq E; by apply Hpq, Hinj).
  set (s1 := set_blocks _ s).
  assert (calloc_all [ans a PFiber; ans a PNode; ans a PStats] s1 =
    Some (tt, set_blocks ({[ans a PStats]} ∪ ({[ans a PNode]} ∪ ({[ans a PFiber]} ∪ ({[ans a PManager]} ∪ blocks s)))) s)) as Hc.
  { unfold calloc_all, s1. assert (forall p q, p <> q -> ans a p ∉ ({[ans a q]} : gset Z)) as Hs by (intros p q Hpq ?%elem_of_singleton; by apply (Hne p q)).
    rewrite (bind_run _ _ _ (ans a PFiber) (set_blocks ({[ans a PFiber]} ∪ ({[ans a PManager]} ∪ blocks s)) s)).
    2: { rewrite calloc_run; [reflexivity|apply Ha|]. cbn. rewrite not_elem_of_union. split; [by apply Hs|apply Ha]. }
    rewrite (bind_run _ _ _ (ans a PNode) (set_blocks ({[ans a PNode]} ∪ ({[ans a PFiber]} ∪ ({[ans a PManager]} ∪ blocks s))) s)).
    2: { rewrite calloc_run; [reflexivity|apply Ha|]. cbn. rewrite !not_elem_of_union. split_and!; [by apply Hs|by apply Hs|apply Ha]. }
    rewrite (bind_run _ _ _ (ans a PStats) (set_blocks ({[ans a PStats]} ∪ ({[ans a PNode]} ∪ ({[ans a PFiber]} ∪ ({[ans a PManager]} ∪ blocks s)))) s)); [done|].
    rewrite calloc_run; [reflexivity|apply Ha|]. cbn. rewrite !not_elem_of_union. split_and!; [by apply Hs|by apply Hs|by apply Hs|apply Ha]. }
  cbn [of_option cr_live cr_fiber cr_errno cr_ret]. 
  unfold mbind, lm_bind at 1. unfold lm_bind. cbn [of_option cr_live cr_fiber cr_errno cr_ret]. rewrite Hc.
  unfold gets, modify, mret, lm_ret. cbn -[decide FIBER_DETACH_NONE]. unfold detach. rewrite decide_False by apply Ha.
  unfold mbind, lm_bind, gets, of_option. cbn [fibers_at set_fibers]. rewrite lookup_insert_eq. cbn. rewrite decide_False by apply Ha.
  unfold created. rewrite insert_insert_eq. done.
Qed.

(** Without a fiber for the thread the manager is freed again. *)
Lemma create_undone a k s s1 : ans a PManager <> NULL -> ans a PManager ∉ blocks s ->
  create_from_thread a (set_blocks ({[ans a PManager]} ∪ blocks s) s) = Some (NULL, s1) ->
  ans a PManager ∈ blocks s1 -> managers_at s1 !! ans a PManager = None ->
  fiber_manager_create a k s = Some (NULL, set_blocks (blocks s1 ∖ {[ans a PManager]}) s1).
Proof.
  intros E Hb Hc Hin Hm. unfold fiber_manager_create. rewrite (bind_run _ _ _ _ _ (calloc_run _ _ E Hb)), decide_False by done.
  rewrite (bind_run _ _ _ _ _ Hc). rewrite (bind_run (detach NULL) _ s1 FIBER_ERROR s1) by done.
  rewrite (bind_run _ _ s1 (managers_at s1) s1) by done. erewrite bind_run by reflexivity. rewrite decide_True by done.
  rewrite (bind_run (fiber_destroy NULL) _ _ tt _ eq_refl). erewrite bind_run by (by rewrite free_run).
  erewrite bind_run by reflexivity. erewrite bind_run by reflexivity. cbn [managers_at set_managers set_blocks]. unfold mret, lm_ret. do 2 f_equal.
  rewrite delete_insert_eq, delete_id by done. by destruct s1.
Qed.

(** Creating a manager, on every branch.  When memory runs out early nothing stays
    allocated and NULL is returned; when the context of the thread cannot be set up
    the queue node and the statistics of the fiber stay allocated; when the
    statistics cannot be allocated the program faults.  Otherwise the manager has
    a running, detached fiber of its own and the blocks are exactly its four. *)
Theorem manager_create_outcomes a k s : (forall p, ans a p ∉ blocks s) ->
  (forall p q, ans a p = ans a q -> ans a p = NULL \/ p = q) -> managers_at s !! ans a PManager = None ->
  fiber_manager_create a k s =
  if decide (ans a PManager = NULL) then Some (NULL, set_errno ENOMEM s)
  else if decide (ans a PFiber = NULL \/ ans a PNode = NULL) then Some (NULL, set_errno ENOMEM s)
  else if decide (ans a PStats = NULL) then None
  else if decide (ans_ctx a = FIBER_SUCCESS) then Some (ans a PManager, created a k s)
  else Some (NULL, set_blocks ({[ans a PStats]} ∪ ({[ans a PNode]} ∪ blocks s)) s).
Proof.
  intros Hb Hinj Hm. destruct (decide (ans a PManager = NULL)) as [E|E].
  { unfold fiber_manager_create, calloc, mbind, lm_bind. by rewrite decide_True. }
  assert (forall b : gset Z, ans a PManager ∉ b -> ({[ans a PManager]} ∪ b) ∖ {[ans a PManager]} = b) as Hback by set_solver.
  destruct (decide (ans a PFiber = NULL \/ ans a PNode = NULL)) as [En|En].
  { rewrite (create_undone a k s (set_errno ENOMEM (set_blocks ({[ans a PManager]} ∪ blocks s) s)));
      [|done|done| |cbn; set_solver|done]; [cbn; rewrite Hback by done; by destruct s|]. unfold create_from_thread, fiber_create_from_thread.
    destruct (Z.eqb_spec (ans a PFiber) NULL) as [E1|E1]; [done|]. by destruct En as [?|En]; [|rewrite En, Z.eqb_refl]. }
  apply Decidable.not_or in En as [E1 E2]. destruct (decide (ans a PStats = NULL)) as [E3|E3].
  { unfold fiber_manager_create. rewrite (bind_run _ _ _ _ _ (calloc_run _ _ E (Hb _))), decide_False by done.
    unfold create_from_thread, fiber_create_from_thread. by rewrite (proj2 (Z.eqb_neq _ _) E1), (proj2 (Z.eqb_neq _ _) E2), E3. }
  assert (forall p, ans a p <> NULL) as Hnn by (by intros []).
  assert (forall p q, p <> q -> ans a p <> ans a q) as Hne by (intros p q Hpq Epq; destruct (Hinj p q Epq) as [?|?]; [by apply (Hnn p)|done]).
  destruct (decide (ans_ctx a = FIBER_SUCCESS)) as [Ec|Ec].
  { apply create_run; [by intros p|intros p q Epq; by destruct (Hinj p q Epq) as [?%Hnn|]|done]. }
  pose proof (Hne PNode PManager ltac:(done)). pose proof (Hne PStats PManager ltac:(done)). pose proof (Hne PStats PNode ltac:(done)).
  rewrite (create_undone a k s (set_blocks ({[ans a PStats]} ∪ ({[ans a PNode]} ∪ ({[ans a PManager]} ∪ blocks s))) s));
    [|done|done| |cbn; set_solver|done].
  { pose proof (Hb PManager). cbn [blocks set_blocks].
    by replace (({[ans a PStats]} ∪ ({[ans a PNode]} ∪ ({[ans a PManager]} ∪ blocks s))) ∖ {[ans a PManager]})
      with ({[ans a PStats]} ∪ ({[ans a PNode]} ∪ blocks s)) by set_solver. }
  unfold create_from_thread, fiber_create_from_thread.
  rewrite (proj2 (Z.eqb_neq _ _) E1), (proj2 (Z.eqb_neq _ _) E2), (proj2 (Z.eqb_neq _ _) E3), (proj2 (Z.eqb_neq _ _) Ec).
  erewrite bind_run by reflexivity. cbn [cr_live cr_fiber cr_errno cr_ret calloc_all]. unfold mbind at 1, lm_bind at 1.
  erewrite (bind_run (calloc (ans a PNode))) by (apply calloc_run; [done|cbn; pose proof (Hb PNode); set_solver]).
  erewrite (bind_run (calloc (ans a PStats))) by (apply calloc_run; [done|cbn; pose proof (Hb PStats); set_solver]). done.
Qed.

(** ** Start-up *)

Definition pt (e : life_env) (i : nat) (p : part) : Z := ans (e_create e i) p.

(** An environment in which nothing fails: the allocator returns distinct blocks,
    the threads start, the two other parts initialise. *)
Record good_env (e : life_env) (n : nat) : Prop := {
  ge_n : (0 < n)%nat /\ Z.of_nat n < 2 ^ 31;
  ge_arrays : e_threads e <> NULL /\ e_managers e <> NULL /\ e_threads e <> e_managers e;
  ge_null : forall i p, (i < n)%nat -> pt e i p <> NULL /\ pt e i p <> e_threads e /\ pt e i p <> e_managers e;
  ge_inj : forall i j p q, (i < n)%nat -> (j < n)%nat -> pt e i p = pt e j q -> i = j /\ p = q;
  ge_ctx : forall i, (i < n)%nat -> ans_ctx (e_create e i) = FIBER_SUCCESS;
  ge_sched : e_sched e = true;
  ge_pthread : forall i, (0 < i < n)%nat -> e_pthread_create e i = 0;
  ge_inits : e_io_init e <> 0 /\ e_event_init e <> 0
}.

(** The manager of thread [i], and its fiber, as they are created. *)
Definition new_manager (e : life_env) (i : nat) : lf_manager :=
  LfManager NULL (pt e i PFiber) (pt e i PFiber) i (Z.of_nat i) no_counts.
Definition new_fiber (e : life_env) (i : nat) : lf_fiber :=
  LfFiber FIBER_STATE_RUNNING FIBER_DETACH_DETACHED (pt e i PNode) (pt e i PStats) NULL.

(** The first [i] managers exist. *)
Record built (e : life_env) (n i : nat) (s : life) : Prop := {
  bl_blocks : forall x, x ∈ blocks s <-> x = e_threads e \/ x = e_managers e \/ exists j p, (j < i)%nat /\ x = pt e j p;
  bl_managers : forall j, (j < i)%nat -> managers_at s !! pt e j PManager = Some (new_manager e j);
  bl_fibers : forall j, (j < i)%nat -> fibers_at s !! pt e j PFiber = Some (new_fiber e j);
  bl_array : fiber_managers s = (e_managers e, ((fun j => pt e j PManager) <$> seq 0 i) ++ replicate (n - i) NULL);
  bl_sched : fiber_schedulers s = Some (fiber_scheduler_init n)
}.

(** What the loops over the managers leave alone. *)
Record frame (s s' : life) : Prop := {
  fr_state : fiber_manager_state s' = fiber_manager_state s;
  fr_num : fiber_manager_num_threads s' = fiber_manager_num_threads s;
  fr_threads : fiber_manager_threads s' = fiber_manager_threads s;
  fr_down : lf_shutting_down s' = lf_shutting_down s;
  fr_calls : lf_calls s' = lf_calls s
}.
Lemma frame_trans a b c : frame a b -> frame b c -> frame a c.
Proof. intros [] []. split; congruence. Qed.

Lemma scheds_length n : length (scheds (fiber_scheduler_init n)) = n.
Proof. unfold fiber_scheduler_init. cbn. by rewrite length_fmap, length_seq. Qed.

Lemma array_extend e n i : (i < n)%nat ->
  <[i:=pt e i PManager]> (((fun j => pt e j PManager) <$> seq 0 i) ++ replicate (n - i) NULL) =
  ((fun j => pt e j PManager) <$> seq 0 (S i)) ++ replicate (n - S i) NULL.
Proof.
  intros Hi. rewrite insert_app_r_alt by (rewrite length_fmap, length_seq; lia). rewrite length_fmap, length_seq, Nat.sub_diag.
  replace (n - i)%nat with (S (n - S i)) by lia. cbn [replicate insert list_insert]. rewrite seq_S, fmap_app, <- app_assoc. done.
Qed.

Section start.
Context {e : life_env} {n : nat}.
Hypothesis Hg : good_env e n.

(** One manager more; the main one gets no identifier, which is 0 already. *)
Lemma built_create i s : built e n i s -> (i < n)%nat -> exists s',
  fiber_manager_create (e_create e i) i s = Some (pt e i PManager, s') /\ frame s s' /\ fiber_managers s' = fiber_managers s /\
  built e n (S i) (set_array (e_managers e, <[i:=pt e i PManager]> (fiber_managers s').2)
    (set_managers (<[pt e i PManager:=new_manager e i]> (managers_at s')) s')) /\
  managers_at s' !! pt e i PManager = Some (LfManager NULL (pt e i PFiber) (pt e i PFiber) i 0 no_counts).
Proof using Hg.
  intros [B1 B2 B3 B4 B5] Hi. exists (created (e_create e i) i s).
  assert (forall p, pt e i p ∉ blocks s) as Hnb.
  { intros p Hin. apply B1 in Hin as [E|[E|(j & q & Hj & E)]]; [by destruct (ge_null _ _ Hg i p Hi) as (_ & ? & _)|by destruct (ge_null _ _ Hg i p Hi) as (_ & _ & ?)|].
    apply (ge_inj _ _ Hg) in E as [-> _]; lia. }
  rewrite create_run; [|intros p; split; [by apply (ge_null _ _ Hg)|apply Hnb]| |by apply (ge_ctx _ _ Hg)].
  2: { intros p q E. by destruct (ge_inj _ _ Hg i i p q Hi Hi E). }
  split; [done|]. split; [done|]. split; [done|]. split; [|cbn; by rewrite lookup_insert_eq].
  assert (forall j p q, (j < i)%nat -> pt e i p <> pt e j q) as Hne by (intros j p q Hj E; apply (ge_inj _ _ Hg) in E as [-> _]; lia).
  split; cbn [blocks managers_at fibers_at fiber_managers fiber_schedulers set_array set_managers created set_fibers set_blocks].
  - intros x. rewrite !elem_of_union, !elem_of_singleton, B1. split.
    + assert (forall p, exists j q, (j < S i)%nat /\ pt e i p = pt e j q) as Hex by (intros p; exists i, p; split; [lia|done]).
      intros [->|[->|[->|[->|[->|[->|(j & p & Hj & ->)]]]]]]; auto; right; right; try apply Hex. exists j, p. split; [lia|done].
    + intros [->|[->|(j & p & Hj & ->)]]; auto 10. destruct (decide (j = i)) as [->|]; [destruct p; auto|].
      do 6 right. exists j, p. split; [lia|done].
  - intros j Hj. rewrite insert_insert_eq. destruct (decide (j = i)) as [->|]; [by rewrite lookup_insert_eq|].
    rewrite lookup_insert_ne by (apply Hne; lia). apply B2. lia.
  - intros j Hj. destruct (decide (j = i)) as [->|]; [by rewrite lookup_insert_eq|].
    rewrite lookup_insert_ne by (apply Hne; lia). apply B3. lia.
  - rewrite B4. cbn [snd]. by rewrite array_extend.
  - done.
Qed.
Lemma scheduler_for_run i s : built e n i s -> (i < n)%nat -> fiber_scheduler_for_thread i s = Some (i, s).
Proof using Hg.
  intros HB Hi. unfold fiber_scheduler_for_thread. rewrite (bind_run _ _ s (Some (fiber_scheduler_init n)) s) by (unfold gets; by rewrite (bl_sched _ _ _ _ HB)).
  rewrite (bind_run _ _ s (fiber_scheduler_init n) s) by done. rewrite (bind_run _ _ s tt s); [done|]. apply assert_run.
  rewrite scheds_length. by apply Nat.ltb_lt.
Qed.

Lemma store_manager_run i v s a : fiber_managers s = (a, (fiber_managers s).2) -> a <> NULL -> (i < length (fiber_managers s).2)%nat ->
  store_manager i v s = Some (tt, set_array (a, <[i:=v]> (fiber_managers s).2) s).
Proof using.
  intros E Ha Hi. unfold store_manager. rewrite (bind_run _ _ s (fiber_managers s) s) by done. rewrite E. cbn [fst snd].
  rewrite (bind_run _ _ s tt s); [done|]. apply assert_run. rewrite (proj2 (Z.eqb_neq _ _) Ha). by apply Nat.ltb_lt.
Qed.

Lemma create_managers_run todo : forall i s, built e n i s -> (i + todo = n)%nat ->
  exists s', create_managers e i todo s = Some (tt, s') /\ built e n n s' /\ frame s s'.
Proof using Hg.
  induction todo as [|todo IH]; intros i s HB Hi; cbn [create_managers].
  { exists s. replace i with n in HB by lia. done. }
  rewrite (bind_run _ _ _ _ _ (scheduler_for_run i s HB ltac:(lia))).
  destruct (built_create i s HB ltac:(lia)) as (s1 & E1 & F1 & A1 & HB1 & M1). rewrite (bind_run _ _ _ _ _ E1).
  rewrite (bind_run _ _ s1 tt s1).
  2: { apply assert_run. apply negb_true_iff, Z.eqb_neq. apply (ge_null _ _ Hg). lia. }
  rewrite (bind_run _ _ s1 tt (set_managers (<[pt e i PManager:=new_manager e i]> (managers_at s1)) s1)).
  2: { unfold set_manager_id. erewrite bind_run by reflexivity. erewrite bind_run by (rewrite M1; reflexivity). done. }
  set (s2 := set_managers _ s1).
  rewrite (bind_run _ _ s2 tt (set_array (e_managers e, <[i:=pt e i PManager]> (fiber_managers s1).2) s2)).
  2: { change (fiber_managers s1) with (fiber_managers s2). assert (fiber_managers s2 = fiber_managers s) as A2 by exact A1.
       apply store_manager_run; [|apply (ge_arrays _ _ Hg)|]; rewrite A2, (bl_array _ _ _ _ HB); [done|].
       cbn [snd]. rewrite length_app, length_fmap, length_seq, length_replicate. lia. }
  destruct (IH (S i) _ HB1 ltac:(lia)) as (s3 & E3 & HB3 & F3). exists s3. split; [exact E3|]. split; [done|].
  eapply frame_trans; [exact F1|]. by destruct F3.
Qed.

Lemma start_threads_run todo : forall i s l, built e n n s -> (0 < i)%nat -> (i + todo = n)%nat ->
  fiber_manager_threads s = (e_threads e, l) -> length l = n ->
  exists s' l', start_threads e i todo s = Some (tt, s') /\ built e n n s' /\ fiber_manager_state s' = fiber_manager_state s /\
    fiber_manager_num_threads s' = fiber_manager_num_threads s /\ lf_shutting_down s' = lf_shutting_down s /\
    lf_calls s' = lf_calls s ++ ((fun j => CThreadCreate j (pt e j PManager)) <$> seq i todo) /\
    fiber_manager_threads s' = (e_threads e, l') /\ length l' = n /\
    forall j, l' !! j = if decide (i <= j < n)%nat then Some (e_thread e j) else l !! j.
Proof using Hg.
  induction todo as [|todo IH]; intros i s l HB Hi Hn Ht Hl; cbn [start_threads].
  { exists s, l. rewrite app_nil_r. split_and!; try done. intros j. rewrite decide_False by lia. done. }
  rewrite (bind_run _ _ s (fiber_managers s) s) by done. rewrite (bl_array _ _ _ _ HB). cbn [snd].
  rewrite (bind_run _ _ s (pt e i PManager) s).
  2: { rewrite lookup_app_l by (rewrite length_fmap, length_seq; lia). rewrite list_lookup_fmap, lookup_seq_lt by lia. done. }
  rewrite (bind_run _ _ s tt s) by (apply assert_run; rewrite (ge_pthread _ _ Hg) by lia; done).
  rewrite (bind_run _ _ s tt (call [CThreadCreate i (pt e i PManager)] s)) by done. set (s1 := call _ s).
  rewrite (bind_run _ _ s1 tt (set_threads (fiber_manager_num_threads s) (e_threads e, <[i:=e_thread e i]> l) s1)).
  2: { unfold store_thread. erewrite bind_run by reflexivity. rewrite (bind_run _ _ s1 (e_threads e, l) s1) by (unfold gets; cbn; by rewrite Ht).
       rewrite (bind_run _ _ s1 tt s1); [done|]. apply assert_run. cbn [fst snd]. rewrite (proj2 (Z.eqb_neq _ _)) by apply (ge_arrays _ _ Hg).
       apply Nat.ltb_lt. lia. }
  set (s2 := set_threads _ _ s1). assert (built e n n s2) as HB2 by (destruct HB; by split).
  destruct (IH (S i) s2 (<[i:=e_thread e i]> l) HB2 ltac:(lia) ltac:(lia) eq_refl ltac:(by rewrite length_insert))
    as (s' & l' & E & HB' & R1 & R2 & R3 & R4 & R5 & R6 & R7).
  exists s', l'. split_and!; try done.
  - rewrite R4. cbn. by rewrite <- app_assoc.
  - intros j. rewrite R7. destruct (decide (j = i)) as [->|].
    + rewrite decide_False, decide_True by lia. rewrite list_lookup_insert_eq by lia. done.
    + rewrite list_lookup_insert_ne by done. by destruct (decide (S i <= j < n)%nat), (decide (i <= j < n)%nat); try lia.
Qed.
(** The arrays are allocated and empty. *)
Lemma built_zero s : blocks s = {[e_managers e]} ∪ ({[e_threads e]} ∪ ∅) -> fiber_managers s = (e_managers e, replicate n NULL) ->
  fiber_schedulers s = Some (fiber_scheduler_init n) -> built e n 0 s.
Proof using.
  intros H1 H2 H3. split; try (intros; lia); [|by rewrite H2, Nat.sub_0_r|done].
  intros x. rewrite H1, !elem_of_union, !elem_of_singleton. split; [intros [->|[->|?%elem_of_empty]]; auto; done|].
  intros [->|[->|(j & p & Hj & _)]]; auto; lia.
Qed.

(** The rest of [fiber_manager_init], after the allocation of the arrays and after
    the manager of the main thread. *)
Definition init_others : lm Z :=
  create_managers e 1 (n - 1);; store_thread 0 (e_self e);; start_threads e 1 (n - 1);; modify (call [CIoInit]);;
  (if decide (e_io_init e = 0) then mret FIBER_ERROR
   else modify (call [CEventInit]);; mret (if decide (e_event_init e = 0) then FIBER_ERROR else FIBER_SUCCESS)).
Definition init_main : lm Z :=
  k ← fiber_scheduler_for_thread 0;
  main_manager ← fiber_manager_create (e_create e 0%nat) k;
  assert_ (negb (Z.eqb main_manager NULL));;
  modify (set_the_manager main_manager);;
  store_manager 0 main_manager;;
  store_thread 0 (e_self e);;
  modify (set_state FIBER_MANAGER_STATE_STARTED);;
  init_others.

Lemma init_arrays_run s0 : fiber_manager_state s0 = FIBER_MANAGER_STATE_NONE -> fiber_schedulers s0 = None -> blocks s0 = ∅ ->
  fiber_manager_threads s0 = (NULL, []) -> fiber_managers s0 = (NULL, []) ->
  exists s, fiber_manager_init e n s0 = init_main s /\ built e n 0 s /\ fiber_manager_num_threads s = Z.of_nat n /\
    fiber_manager_threads s = (e_threads e, replicate n 0) /\ lf_shutting_down s = false /\ lf_calls s = lf_calls s0.
Proof using Hg.
  intros Z1 Z2 Z3 Z4 Z5. pose proof (ge_n _ _ Hg) as [Hn Hn2]. destruct (ge_arrays _ _ Hg) as (A1 & A2 & A3).
  unfold fiber_manager_init. erewrite bind_run by reflexivity. set (s1 := set_flags _ _ _ _ s0).
  rewrite (bind_run _ _ s1 FIBER_MANAGER_STATE_NONE s1) by (unfold gets; cbn; by rewrite Z1). rewrite decide_False by (intros []; done).
  set (s2 := set_schedulers (Some (fiber_scheduler_init n)) s1).
  rewrite (bind_run _ _ s1 1 s2).
  2: { unfold scheduler_init. rewrite (bind_run _ _ s1 tt s1) by (apply assert_run; by rewrite (proj2 (Nat.eqb_neq n 0)) by lia).
       rewrite (bind_run _ _ s1 None s1) by (unfold gets; cbn; by rewrite Z2). rewrite (bind_run _ _ s1 tt s1) by (by apply assert_run).
       rewrite (bind_run _ _ s1 tt s1) by (apply assert_run, (ge_sched _ _ Hg)). done. }
  rewrite decide_False by done. rewrite (bind_run _ _ s2 (NULL, []) s2) by (unfold gets; cbn; by rewrite Z4).
  rewrite (bind_run _ _ s2 tt s2) by done. assert (blocks s2 = ∅) as Hb2 by exact Z3.
  rewrite (bind_run _ _ _ _ _ (calloc_run (e_threads e) s2 A1 ltac:(rewrite Hb2; set_solver))). set (s3 := set_blocks _ s2).
  rewrite (bind_run _ _ s3 tt s3) by (apply assert_run; by rewrite (proj2 (Z.eqb_neq _ _) A1)).
  erewrite bind_run by reflexivity. set (s4 := set_threads _ _ s3).
  rewrite (bind_run _ _ s4 (NULL, []) s4) by (unfold gets; cbn; by rewrite Z5). rewrite (bind_run _ _ s4 tt s4) by done.
  assert (blocks s4 = {[e_threads e]} ∪ ∅) as Hb4 by (unfold s4, s3; cbn; by rewrite Z3).
  rewrite (bind_run _ _ _ _ _ (calloc_run (e_managers e) s4 A2 ltac:(rewrite Hb4; set_solver))). set (s5 := set_blocks _ s4).
  rewrite (bind_run _ _ s5 tt s5) by (apply assert_run; by rewrite (proj2 (Z.eqb_neq _ _) A2)).
  erewrite bind_run by reflexivity. eexists. split; [reflexivity|]. split_and!; try done; [|cbn; apply i32_small; lia].
  apply built_zero; [unfold s5; cbn; by rewrite Z3|done|done].
Qed.

Lemma store_first_run s l : fiber_manager_threads s = (e_threads e, l) -> length l = n ->
  store_thread 0 (e_self e) s = Some (tt, set_threads (fiber_manager_num_threads s) (e_threads e, <[0%nat:=e_self e]> l) s).
Proof using Hg.
  intros Ht Hl. unfold store_thread. erewrite bind_run by reflexivity. rewrite (bind_run _ _ s (e_threads e, l) s) by (unfold gets; by rewrite Ht).
  cbn [fst snd]. rewrite (bind_run _ _ s tt s); [done|]. apply assert_run. rewrite (proj2 (Z.eqb_neq _ _)) by apply (ge_arrays _ _ Hg).
  apply Nat.ltb_lt. rewrite Hl. apply (ge_n _ _ Hg).
Qed.

Lemma init_main_run s : built e n 0 s -> fiber_manager_threads s = (e_threads e, replicate n 0) ->
  exists s', init_main s = init_others s' /\ built e n 1 s' /\ fiber_manager_state s' = FIBER_MANAGER_STATE_STARTED /\
    fiber_manager_num_threads s' = fiber_manager_num_threads s /\
    fiber_manager_threads s' = (e_threads e, <[0%nat:=e_self e]> (replicate n 0)) /\ lf_shutting_down s' = lf_shutting_down s /\
    lf_calls s' = lf_calls s.
Proof using Hg.
  intros HB Ht. pose proof (ge_n _ _ Hg) as [Hn _]. destruct (ge_arrays _ _ Hg) as (_ & A2 & _). unfold init_main.
  rewrite (bind_run _ _ _ _ _ (scheduler_for_run 0 s HB Hn)).
  destruct (built_create 0 s HB Hn) as (s1 & E1 & F1 & G1 & HB1 & M1). rewrite (bind_run _ _ _ _ _ E1).
  rewrite (bind_run _ _ s1 tt s1) by (apply assert_run, negb_true_iff, Z.eqb_neq, (ge_null _ _ Hg); lia).
  erewrite bind_run by reflexivity. set (s2 := set_the_manager _ s1).
  assert (fiber_managers s2 = (e_managers e, replicate n NULL)) as G2 by (unfold s2; cbn; by rewrite G1, (bl_array _ _ _ _ HB), Nat.sub_0_r).
  rewrite (bind_run _ _ _ _ _ (store_manager_run 0 (pt e 0 PManager) s2 (e_managers e) ltac:(by rewrite G2) A2
    ltac:(rewrite G2; cbn; rewrite length_replicate; lia))). set (s3 := set_array _ s2).
  rewrite (bind_run _ _ _ _ _ (store_first_run s3 (replicate n 0) ltac:(unfold s3, s2; cbn; by rewrite (fr_threads _ _ F1)) ltac:(apply length_replicate))).
  erewrite bind_run by reflexivity. eexists. split; [reflexivity|]. destruct F1 as [F1 F2 F3 F4 F5].
  change (LfManager NULL _ _ 0 0 no_counts) with (new_manager e 0) in M1. rewrite insert_id in HB1 by done. split_and!; try done.
  destruct HB1 as [B1 B2 B3 B4 B5]. split; try done.
Qed.

(** All of [fiber_manager_init]. *)
Lemma init_starts_lemma : exists s lt, fiber_manager_init e n life_init = Some (FIBER_SUCCESS, s) /\ built e n n s /\
  fiber_manager_state s = FIBER_MANAGER_STATE_STARTED /\ fiber_manager_num_threads s = Z.of_nat n /\ lf_shutting_down s = false /\
  fiber_manager_threads s = (e_threads e, lt) /\
  (forall j, (j < n)%nat -> lt !! j = Some (if decide (j = 0%nat) then e_self e else e_thread e j)) /\
  lf_calls s = ((fun j => CThreadCreate j (pt e j PManager)) <$> seq 1 (n - 1)) ++ [CIoInit; CEventInit].
Proof using Hg.
  pose proof (ge_n _ _ Hg) as [Hn _]. destruct (init_arrays_run life_init) as (s1 & -> & HB1 & N1 & T1 & D1 & C1); [done..|].
  destruct (init_main_run s1 HB1 T1) as (s2 & -> & HB2 & S2 & N2 & T2 & D2 & C2). unfold init_others.
  destruct (create_managers_run (n - 1) 1 s2 HB2 ltac:(lia)) as (s3 & E3 & HB3 & [F1 F2 F3 F4 F5]). rewrite (bind_run _ _ _ _ _ E3).
  rewrite (bind_run _ _ _ _ _ (store_first_run s3 _ ltac:(rewrite F3; exact T2) ltac:(by rewrite length_insert, length_replicate))).
  set (s4 := set_threads _ _ s3). assert (built e n n s4) as HB4 by (by destruct HB3).
  destruct (start_threads_run (n - 1) 1 s4 (<[0%nat:=e_self e]> (<[0%nat:=e_self e]> (replicate n 0))) HB4 ltac:(lia) ltac:(lia) eq_refl
    ltac:(by rewrite !length_insert, length_replicate)) as (s5 & lt & E5 & HB5 & R1 & R2 & R3 & R4 & R5 & R6 & R7).
  rewrite (bind_run _ _ _ _ _ E5). erewrite bind_run by reflexivity. destruct (ge_inits _ _ Hg) as [I1 I2].
  rewrite decide_False by done. erewrite bind_run by reflexivity. rewrite decide_False by done. eexists _, lt. split; [reflexivity|].
  split; [by destruct HB5|]. cbn. split_and!.
  - by rewrite R1; cbn; rewrite F1.
  - by rewrite R2; cbn; rewrite F2, N2.
  - by rewrite R3; cbn; rewrite F4, D2.
  - done.
  - intros j Hj. rewrite R7. destruct (decide (j = 0%nat)) as [->|].
    + rewrite decide_False by lia. rewrite list_lookup_insert_eq; [done|]. by rewrite length_insert, length_replicate.
    + by rewrite decide_True by lia.
  - rewrite R4. cbn. rewrite F5, C2, C1. by rewrite <- !app_assoc.
Qed.
End start.

(** The manager cannot be started twice: the second call fails with [EINVAL].  But
    before the test it has already marked the scheduler lock as unused and
    cancelled a shutdown in progress. *)
Theorem init_refused e n s : fiber_manager_state s <> FIBER_MANAGER_STATE_NONE ->
  exists s', fiber_manager_init e n s = Some (FIBER_ERROR, s') /\ lf_errno s' = EINVAL /\
    lf_lock_using s' = -1 /\ lf_shutting_down s' = false /\ blocks s' = blocks s /\ lf_calls s' = lf_calls s.
Proof.
  intros Hs. unfold fiber_manager_init. erewrite bind_run by reflexivity. erewrite bind_run by reflexivity. cbv beta.
  rewrite decide_True by done. by eexists.
Qed.

(** ** Shutdown *)

(** A system that runs.  [extra]: the blocks beside those of the managers and
    their fibers; [gone]: the managers already destroyed, of which only the fiber's
    statistics are left; [ended]: the fibers that are done. *)
Record running (e : life_env) (n : nat) (extra : gset Z) (gone ended : nat -> Prop) (s : life) : Prop := {
  rn_blocks : forall x, x ∈ blocks s <-> x = e_threads e \/ x = e_managers e \/ x ∈ extra \/
    exists j p, (j < n)%nat /\ x = pt e j p /\ (gone j -> p = PStats);
  rn_managers : forall j, (j < n)%nat -> ~ gone j -> exists m, managers_at s !! pt e j PManager = Some m /\
    lm_thread_fiber m = pt e j PFiber /\ ((0 < j)%nat -> lm_maintenance_fiber m = NULL \/ lm_maintenance_fiber m = pt e j PFiber);
  rn_fibers : forall j, (j < n)%nat -> ~ gone j -> exists f, fibers_at s !! pt e j PFiber = Some f /\
    lf_node f = pt e j PNode /\ lf_stack f = NULL /\ (ended j -> lf_state f = FIBER_STATE_DONE);
  rn_array : fiber_managers s = (e_managers e, (fun j => pt e j PManager) <$> seq 0 n);
  rn_threads : exists lt, fiber_manager_threads s = (e_threads e, lt) /\
    forall j, (j < n)%nat -> lt !! j = Some (if decide (j = 0%nat) then e_self e else e_thread e j)
}.

(** What the steps of the shutdown leave alone. *)
Definition same_started (s s' : life) : Prop :=
  fiber_manager_state s' = fiber_manager_state s /\ fiber_manager_num_threads s' = fiber_manager_num_threads s /\
  fiber_schedulers s' = fiber_schedulers s.

Section shutdown.
Context {e : life_env} {n : nat}.
Hypothesis Hg : good_env e n.

Lemma pt_ne i j p q : (i < n)%nat -> (j < n)%nat -> i <> j \/ p <> q -> pt e i p <> pt e j q.
Proof using Hg. intros Hi Hj Hne E. destruct (ge_inj _ _ Hg i j p q Hi Hj E) as [-> ->]. by destruct Hne. Qed.

Lemma array_lookup extra gone ended s i : running e n extra gone ended s -> (i < n)%nat ->
  (fiber_managers s).2 !! i = Some (pt e i PManager).
Proof using. intros HR Hi. rewrite (rn_array _ _ _ _ _ _ HR). cbn. by rewrite list_lookup_fmap, lookup_seq_lt by lia. Qed.

(** The fiber of thread [i] is done. *)
Lemma mark_done_run extra gone ended s i : running e n extra gone ended s -> (i < n)%nat -> ~ gone i ->
  exists s', mark_done (pt e i PFiber) s = Some (tt, s') /\ running e n extra gone (fun j => j = i \/ ended j) s' /\
    same_started s s' /\ lf_calls s' = lf_calls s /\ managers_at s' = managers_at s /\
    (forall f, f <> pt e i PFiber -> fibers_at s' !! f = fibers_at s !! f).
Proof using Hg.
  intros HR Hi Hgo. destruct (rn_fibers _ _ _ _ _ _ HR i Hi Hgo) as (f & Hf & Hnd & Hst & _). unfold mark_done. erewrite bind_run by reflexivity.
  erewrite bind_run by (rewrite Hf; reflexivity). eexists. split; [reflexivity|].
  split; [|split; [done|]; split; [done|]; split; [done|]; intros g Hgne; cbn; by rewrite lookup_insert_ne].
  destruct HR as [R1 R2 R3 R4 R5]. split; try done. intros j Hj Hgj. cbn. destruct (decide (j = i)) as [->|Hne].
  - rewrite lookup_insert_eq. eexists. split; [reflexivity|]. done.
  - rewrite lookup_insert_ne by (apply pt_ne; auto). destruct (R3 j Hj Hgj) as (g & G1 & G2 & G3 & G4). exists g. split_and!; auto.
    intros [?|?]; auto. done.
Qed.

Lemma join_threads_run extra todo : forall i ended s, running e n extra (fun _ => False) ended s -> (0 < i)%nat -> (i + todo = n)%nat ->
  exists s', join_threads i todo s = Some (tt, s') /\ running e n extra (fun _ => False) (fun j => (i <= j)%nat \/ ended j) s' /\
    same_started s s' /\ lf_calls s' = lf_calls s ++ ((fun j => CThreadJoin (e_thread e j)) <$> seq i todo) /\
    managers_at s' !! pt e 0 PManager = managers_at s !! pt e 0 PManager /\
    (forall f, (forall j, (j < n)%nat -> f <> pt e j PFiber) -> fibers_at s' !! f = fibers_at s !! f).
Proof using Hg.
  induction todo as [|todo IH]; intros i ended s HR Hi Hn; cbn [join_threads].
  { exists s. rewrite app_nil_r. split_and!; try done. destruct HR as [R1 R2 R3 R4 R5]. split; try done.
    intros j Hj Hgj. destruct (R3 j Hj Hgj) as (f & F1 & F2 & F3 & F4). exists f. split_and!; try done. intros [?|?]; [lia|auto]. }
  erewrite bind_run by reflexivity. erewrite bind_run by (rewrite (array_lookup _ _ _ _ i HR) by lia; reflexivity).
  destruct (rn_managers _ _ _ _ _ _ HR i ltac:(lia) ltac:(tauto)) as (m & Hm & Hth & Hmt).
  assert ((if Z.eqb (lm_maintenance_fiber m) NULL then lm_thread_fiber m else lm_maintenance_fiber m) = pt e i PFiber) as Emt.
  { destruct (Z.eqb_spec (lm_maintenance_fiber m) NULL) as [|Hne]; [done|]. by destruct (Hmt Hi). }
  set (s1 := set_managers (<[pt e i PManager:=LfManager (pt e i PFiber) (lm_current_fiber m) (lm_thread_fiber m) (lm_scheduler m) (lm_id m) (lm_counts m)]> (managers_at s)) s).
  assert (running e n extra (fun _ => False) ended s1) as HR1.
  { destruct HR as [R1 R2 R3 R4 R5]. split; try done. intros j Hj Hgj. unfold s1. cbn. destruct (decide (j = i)) as [->|].
    - rewrite lookup_insert_eq. eexists. split; [reflexivity|]. auto.
    - rewrite lookup_insert_ne by (apply pt_ne; auto; lia). by apply R2. }
  destruct (mark_done_run _ _ _ s1 i HR1 ltac:(lia) ltac:(tauto)) as (s2 & E2 & HR2 & S2 & C2 & M2 & X2).
  rewrite (bind_run _ _ s tt s2).
  2: { unfold thread_ended. erewrite bind_run by reflexivity. erewrite bind_run by (rewrite Hm; reflexivity). rewrite Emt. erewrite bind_run by reflexivity. exact E2. }
  destruct (rn_threads _ _ _ _ _ _ HR2) as (lt & Hlt & Hltj). erewrite bind_run by (unfold gets; rewrite Hlt; reflexivity).
  erewrite bind_run by (cbn [snd]; rewrite (Hltj i), decide_False by lia; reflexivity). erewrite bind_run by reflexivity.
  destruct (IH (S i) (fun j => j = i \/ ended j) (call [CThreadJoin (e_thread e i)] s2) ltac:(by destruct HR2) ltac:(lia) ltac:(lia)) as (s3 & E3 & HR3 & S3 & C3 & M3 & X3).
  exists s3. split; [exact E3|]. split; [|split; [|split; [|split]]].
  - destruct HR3 as [R1 R2 R3 R4 R5]. split; try done. intros j Hj Hgj. destruct (R3 j Hj Hgj) as (f & F1 & F2 & F3 & F4).
    exists f. split_and!; try done. intros [?|?]; apply F4; [destruct (decide (j = i)); [auto|left; lia]|auto].
  - destruct S2 as (? & ? & ?), S3 as (? & ? & ?). unfold same_started in *. cbn in *. split_and!; congruence.
  - rewrite C3. cbn. rewrite C2. by rewrite <- app_assoc.
  - rewrite M3. cbn. rewrite M2. unfold s1. cbn. apply lookup_insert_ne. apply pt_ne; auto; [lia|apply (ge_n _ _ Hg)|left; lia].
  - intros f Hf. rewrite X3 by done. cbn. rewrite X2; [done|]. apply Hf. lia.
Qed.
Lemma destroy_manager_run extra gone ended s i : running e n extra gone ended s -> (forall j p, (j < n)%nat -> pt e j p ∉ extra) ->
  (i < n)%nat -> ~ gone i -> ended i ->
  exists s', fiber_manager_destroy (pt e i PManager) s = Some (tt, s') /\ running e n extra (fun j => j = i \/ gone j) ended s' /\
    same_started s s' /\ lf_calls s' = lf_calls s.
Proof using Hg.
  intros HR Hx Hi Hgo Hen. destruct (rn_managers _ _ _ _ _ _ HR i Hi Hgo) as (m & Hm & Hth & _).
  destruct (rn_fibers _ _ _ _ _ _ HR i Hi Hgo) as (f & Hf & Hnd & Hst & Hdn). specialize (Hdn Hen).
  assert (forall p, p <> PStats -> pt e i p ∈ blocks s) as Hin by (intros p Hp; apply (rn_blocks _ _ _ _ _ _ HR); right; right; right; exists i, p; tauto).
  assert (forall p, pt e i p <> NULL) as Hnn by (intros p; by apply (ge_null _ _ Hg)).
  unfold fiber_manager_destroy. erewrite bind_run by reflexivity. erewrite bind_run by (rewrite Hm; reflexivity).
  set (b1 := blocks s ∖ {[pt e i PNode]} ∖ {[pt e i PFiber]}).
  rewrite (bind_run _ _ s tt (set_fibers (delete (pt e i PFiber) (fibers_at s)) (set_blocks b1 s))).
  2: { rewrite Hth. unfold fiber_destroy. rewrite decide_False by apply Hnn. erewrite bind_run by reflexivity. erewrite bind_run by (rewrite Hf; reflexivity).
       erewrite bind_run by (apply assert_run; by rewrite Hdn). rewrite Hst, Hnd. rewrite (bind_run (free NULL) _ s tt s) by done.
       rewrite (bind_run _ _ _ _ _ (free_run (pt e i PNode) s (Hnn _) (Hin PNode ltac:(done)))).
       erewrite bind_run by (apply free_run; [apply Hnn|]; cbn; apply elem_of_difference; split; [by apply Hin|];
         apply not_elem_of_singleton, pt_ne; auto). done. }
  erewrite bind_run by (apply free_run; [apply Hnn|]; cbn; unfold b1; rewrite !elem_of_difference, !not_elem_of_singleton;
    split_and!; [by apply Hin|apply pt_ne; auto|apply pt_ne; auto]).
  eexists. split; [reflexivity|]. split; [|done]. destruct HR as [R1 R2 R3 R4 R5]. split; try done.
  - intros x. cbn. unfold b1. rewrite !elem_of_difference, !not_elem_of_singleton, R1. split.
    + intros [[[[->|[->|[?|(j & p & Hj & -> & Hp)]]] H1] H2] H3]; auto. right. right. right. exists j, p. split_and!; try done.
      intros [->|?]; [|auto]. by destruct p.
    + assert (forall x, (x ∈ extra \/ x = e_threads e \/ x = e_managers e) -> forall p, x <> pt e i p) as Hout.
      { intros y Hy p ->. destruct (ge_null _ _ Hg i p Hi) as (? & ? & ?). destruct Hy as [Hy|[?|?]]; [by apply (Hx i p Hi)|done|done]. }
      intros [->|[->|[?|(j & p & Hj & -> & Hp)]]]; [split_and!; auto 10..|].
      split_and!; [right; right; right; exists j, p; tauto|..]; apply pt_ne; auto;
        (destruct (decide (j = i)) as [->|]; [right; by rewrite Hp by auto|by left]).
  - intros j Hj Hgj. cbn. rewrite lookup_delete_ne by (apply pt_ne; auto). apply R2; tauto.
  - intros j Hj Hgj. cbn. rewrite lookup_delete_ne by (apply pt_ne; auto). apply R3; tauto.
Qed.

Lemma destroy_managers_run extra ended todo : forall i s, running e n extra (fun j => j < i)%nat ended s ->
  (forall j p, (j < n)%nat -> pt e j p ∉ extra) -> (forall j, (j < n)%nat -> ended j) -> (i + todo = n)%nat ->
  exists s', destroy_managers i todo s = Some (tt, s') /\ running e n extra (fun j => j < n)%nat ended s' /\
    same_started s s' /\ lf_calls s' = lf_calls s.
Proof using Hg.
  induction todo as [|todo IH]; intros i s HR Hx Hen Hn; cbn [destroy_managers].
  { exists s. replace i with n in HR by lia. done. }
  erewrite bind_run by reflexivity. erewrite bind_run by (rewrite (array_lookup _ _ _ _ i HR) by lia; reflexivity).
  destruct (destroy_manager_run _ _ _ s i HR Hx ltac:(lia) ltac:(cbv beta; lia) ltac:(apply Hen; lia)) as (s1 & E1 & HR1 & S1 & C1).
  rewrite (bind_run _ _ _ _ _ E1). destruct (IH (S i) s1) as (s2 & E2 & HR2 & S2 & C2); [|done|done|lia|].
  { destruct HR1 as [R1 R2 R3 R4 R5]. split; try done.
    - intros x. rewrite R1. split; (intros [->|[->|[?|(j & p & Hj & -> & Hp)]]]; auto; right; right; right; exists j, p; split_and!; try done;
        intros ?; apply Hp; cbv beta in *; lia).
    - intros j Hj Hgj. apply R2; cbv beta in *; lia.
    - intros j Hj Hgj. apply R3; cbv beta in *; lia. }
  exists s2. split; [exact E2|]. split; [done|]. destruct S1 as (? & ? & ?), S2 as (? & ? & ?). unfold same_started. split_and!; congruence.
Qed.

(** The main fiber moves to the first thread. *)
Lemma reach_run extra gone ended l s : running e n extra gone ended s -> Forall (fun p => p <> e_self e) l ->
  exists s', reach_first_thread (l ++ [e_self e]) s = Some (tt, s') /\ running e n extra gone ended s' /\ same_started s s' /\
    managers_at s' = managers_at s /\ fibers_at s' = fibers_at s /\
    lf_calls s' = lf_calls s ++ concat (replicate (length l) [CYield; CUsleep 1000]).
Proof using Hg.
  intros HR Hl. revert s HR. induction Hl as [|p l Hp Hl IH]; intros s HR; cbn [reach_first_thread app].
  - destruct (rn_threads _ _ _ _ _ _ HR) as (lt & Hlt & Hj). erewrite bind_run by (unfold gets; rewrite Hlt; reflexivity).
    erewrite bind_run by (cbn [snd]; rewrite (Hj 0%nat), decide_True by (done || apply (ge_n _ _ Hg)); reflexivity).
    erewrite bind_run by reflexivity. erewrite bind_run by reflexivity. rewrite Z.eqb_refl. eexists. split; [reflexivity|].
    split; [by destruct HR|]. cbn. rewrite app_nil_r. done.
  - destruct (rn_threads _ _ _ _ _ _ HR) as (lt & Hlt & Hj). erewrite bind_run by (unfold gets; rewrite Hlt; reflexivity).
    erewrite bind_run by (cbn [snd]; rewrite (Hj 0%nat), decide_True by (done || apply (ge_n _ _ Hg)); reflexivity).
    erewrite bind_run by reflexivity. erewrite bind_run by reflexivity. rewrite (proj2 (Z.eqb_neq _ _) Hp).
    erewrite bind_run by reflexivity. erewrite bind_run by reflexivity.
    match goal with |- context [reach_first_thread _ ?x] => destruct (IH x) as (s' & E & HR' & S & M & F & C) end; [by destruct HR|].
    exists s'. split; [exact E|]. split; [done|]. split; [done|]. split; [done|]. split; [done|]. rewrite C. cbn. by rewrite <- app_assoc.
Qed.

(** The maintenance fiber that the first thread may have created meanwhile. *)
Record maint := Maint { mt_fiber : Z; mt_node : Z; mt_stats : Z; mt_stack : Z }.
Definition maint_list (x : maint) : list Z := [mt_fiber x; mt_node x; mt_stack x; mt_stats x].
Definition maint_blocks (o : option maint) : gset Z := match o with Some x => list_to_set (maint_list x) | None => ∅ end.
Definition maint_left (o : option maint) : gset Z := match o with Some x => {[mt_stats x]} | None => ∅ end.

Definition has_maint (o : option maint) (s : life) : Prop :=
  exists m, managers_at s !! pt e 0 PManager = Some m /\
  match o with
  | None => lm_maintenance_fiber m = NULL
  | Some x => lm_maintenance_fiber m = mt_fiber x /\ NoDup (maint_list x) /\
      (forall a, a ∈ maint_list x -> a <> NULL /\ a <> e_threads e /\ a <> e_managers e /\ forall j p, (j < n)%nat -> a <> pt e j p) /\
      exists f, fibers_at s !! mt_fiber x = Some f /\ lf_node f = mt_node x /\ lf_stack f = mt_stack x
  end.

(** Lines 310 to 314. *)
Lemma maint_destroyed o ended s m : running e n (maint_blocks o) (fun _ => False) ended s -> has_maint o s ->
  managers_at s !! pt e 0 PManager = Some m ->
  exists s', (if Z.eqb (lm_maintenance_fiber m) NULL then mret tt
    else mark_done (lm_maintenance_fiber m);; fiber_destroy (lm_maintenance_fiber m)) s = Some (tt, s') /\
    running e n (maint_left o) (fun _ => False) ended s' /\ same_started s s' /\ lf_calls s' = lf_calls s.
Proof using Hg.
  intros HR (m' & Hm' & Ho) Hm. rewrite Hm in Hm'. injection Hm' as <-. destruct o as [x|].
  2: { rewrite Ho. exists s. split; [done|]. by split_and!. }
  destruct Ho as (Emf & Hnd & Hout & f & Hf & Hfn & Hfs). rewrite Emf.
  assert (forall a, a ∈ maint_list x -> a <> NULL) as Hnn by (intros a Ha; by apply Hout).
  rewrite (proj2 (Z.eqb_neq _ _)) by (apply Hnn; left). unfold mark_done.
  set (s1 := set_fibers (<[mt_fiber x:=LfFiber FIBER_STATE_DONE (if Z.eqb (lf_detach f) FIBER_DETACH_DETACHED then lf_detach f else FIBER_DETACH_WAIT_FOR_JOINER)
    (lf_node f) (lf_stats f) (lf_stack f)]> (fibers_at s)) s).
  rewrite (bind_run _ _ s tt s1) by (unfold mbind, lm_bind, gets, of_option; by rewrite Hf).
  assert (forall a, a ∈ maint_list x -> a ∈ blocks s1) as Hin.
  { intros a Ha. apply (rn_blocks _ _ _ _ _ _ HR). right. right. left. cbn [maint_blocks]. by apply elem_of_list_to_set. }
  unfold maint_list in *. apply NoDup_cons in Hnd as [N1 Hnd]. apply NoDup_cons in Hnd as [N2 Hnd]. apply NoDup_cons in Hnd as [N3 _].
  unfold fiber_destroy. rewrite decide_False by (apply Hnn; left). erewrite bind_run by reflexivity.
  erewrite bind_run by (unfold s1; cbn; rewrite lookup_insert_eq; reflexivity). erewrite bind_run by (by apply assert_run).
  cbn [lf_stack lf_node]. rewrite Hfs, Hfn.
  erewrite bind_run by (apply free_run; [apply Hnn|apply Hin]; set_solver).
  erewrite bind_run by (apply free_run; [apply Hnn; set_solver|]; cbn; pose proof (Hin (mt_node x) ltac:(set_solver)); set_solver).
  erewrite bind_run by (apply free_run; [apply Hnn; set_solver|]; cbn; pose proof (Hin (mt_fiber x) ltac:(set_solver)); set_solver).
  eexists. split; [reflexivity|]. split; [|done]. destruct HR as [R1 R2 R3 R4 R5]. split; try done.
  - intros a. cbn. rewrite !elem_of_difference, !not_elem_of_singleton, R1. cbn [maint_blocks maint_left]. split.
    + intros [[[[->|[->|[Ha|(j & p & Hj & -> & Hp)]]] H1] H2] H3]; auto; [|right; right; right; by exists j, p]. right. right. left. set_solver.
    + assert (forall b, b ∈ [mt_fiber x; mt_node x; mt_stack x] -> b ∈ maint_list x) as Hsub by (unfold maint_list; set_solver).
      intros Ha. assert (forall b, b ∈ [mt_fiber x; mt_node x; mt_stack x] -> a <> b) as Hne.
      { intros b Hb ->. destruct (Hout b (Hsub b Hb)) as (_ & O1 & O2 & O3).
        destruct Ha as [?|[?|[Ha|(j & p & Hj & ? & _)]]]; [done|done| |by apply (O3 j p)]. apply elem_of_singleton in Ha as ->. set_solver. }
      split_and!; [|apply Hne; set_solver..]. destruct Ha as [?|[?|[Ha|?]]]; auto. right. right. left. unfold maint_list. set_solver.
  - intros j Hj Hgj. cbn. destruct (R3 j Hj Hgj) as (g & G1 & G2). exists g. split; [|done].
    assert (mt_fiber x <> pt e j PFiber) by (apply Hout; [left|done]). rewrite lookup_delete_ne by done. by rewrite lookup_insert_ne.
Qed.

(** All of [fiber_shutdown]. *)
Lemma shutdown_frees_lemma o l s : running e n (maint_blocks o) (fun _ => False) (fun _ => False) s -> has_maint o s ->
  fiber_manager_num_threads s = Z.of_nat n -> Forall (fun p => p <> e_self e) l ->
  exists s', fiber_shutdown (l ++ [e_self e]) s = Some (tt, s') /\
    (forall x, x ∈ blocks s' <-> x ∈ maint_left o \/ exists j, (j < n)%nat /\ x = pt e j PStats) /\
    fiber_managers s' = (NULL, []) /\ fiber_manager_threads s' = (NULL, []) /\
    fiber_manager_state s' = fiber_manager_state s /\ fiber_schedulers s' = fiber_schedulers s /\
    lf_calls s' = lf_calls s ++ concat (replicate (length l) [CYield; CUsleep 1000]) ++
      ((fun j => CThreadJoin (e_thread e j)) <$> seq 1 (n - 1)) ++ [CRingDestroy; CHazardDestroy; CIoShutdown; CEventShutdown].
Proof using Hg.
  intros HR Hmt Hnum Hl. pose proof (ge_n _ _ Hg) as [Hn _]. unfold fiber_shutdown.
  destruct (reach_run _ _ _ l s HR Hl) as (s1 & E1 & HR1 & S1 & M1 & F1 & C1). rewrite (bind_run _ _ _ _ _ E1).
  erewrite bind_run by reflexivity. erewrite bind_run by reflexivity. set (s2 := set_flags _ _ _ _ s1).
  assert (running e n (maint_blocks o) (fun _ => False) (fun _ => False) s2) as HR2 by (by destruct HR1).
  destruct S1 as (S1a & S1b & S1c). erewrite bind_run by (unfold gets; cbn; rewrite S1b, Hnum; reflexivity). rewrite Nat2Z.id.
  destruct (join_threads_run _ (n - 1) 1 _ s2 HR2 ltac:(lia) ltac:(lia)) as (s3 & E3 & HR3 & (S3a & S3b & S3c) & C3 & M3 & X3).
  rewrite (bind_run _ _ _ _ _ E3). erewrite bind_run by reflexivity.
  erewrite bind_run by (rewrite (array_lookup _ _ _ _ 0 HR3 Hn); reflexivity). erewrite bind_run by reflexivity.
  destruct (rn_managers _ _ _ _ _ _ HR3 0%nat Hn ltac:(tauto)) as (m & Hm & Hth & _). erewrite bind_run by (rewrite Hm; reflexivity).
  assert (has_maint o s3) as Hmt3.
  { destruct Hmt as (m' & Hm' & Ho). exists m'. rewrite M3. cbn. rewrite M1. split; [done|]. destruct o as [x|]; [|done].
    destruct Ho as (O1 & O2 & O3 & f & Hf & O4). split_and!; try done. exists f. split; [|done]. rewrite X3; [cbn; by rewrite F1|].
    intros j Hj. apply O3; [left|done]. }
  destruct (maint_destroyed o _ s3 m HR3 Hmt3 Hm) as (s4 & E4 & HR4 & (S4a & S4b & S4c) & C4). rewrite (bind_run _ _ _ _ _ E4).
  rewrite Hth. destruct (mark_done_run _ _ _ s4 0 HR4 Hn ltac:(tauto)) as (s5 & E5 & HR5 & (S5a & S5b & S5c) & C5 & _ & _).
  rewrite (bind_run _ _ _ _ _ E5).
  assert (forall j p, (j < n)%nat -> pt e j p ∉ maint_left o) as Hx.
  { intros j p Hj. destruct o as [x|]; [|set_solver]. destruct Hmt as (m' & _ & _ & _ & Hout & _). cbn. rewrite elem_of_singleton.
    intros Ep. destruct (Hout (mt_stats x)) as (_ & _ & _ & Hne); [unfold maint_list; set_solver|]. by apply (Hne j p). }
  destruct (destroy_managers_run (maint_left o) (fun j => j = 0%nat \/ (1 <= j)%nat \/ False) n 0 s5) as (s6 & E6 & HR6 & (S6a & S6b & S6c) & C6); try done.
  { destruct HR5 as [R1 R2 R3 R4 R5]. split; try done.
    - intros y. rewrite R1. split; (intros [->|[->|[?|(j & p & Hj & -> & Hp)]]]; auto; right; right; right; exists j, p; split_and!; try done; lia).
    - intros j Hj _. apply R2; tauto.
    - intros j Hj _. apply R3; tauto. }
  { intros j _. cbv beta. lia. }
  rewrite (bind_run _ _ _ _ _ E6). rewrite (rn_array _ _ _ _ _ _ HR3). cbn [fst]. destruct (ge_arrays _ _ Hg) as (A1 & A2 & A3).
  erewrite bind_run by (apply free_run; [done|]; apply (rn_blocks _ _ _ _ _ _ HR6); auto). erewrite bind_run by reflexivity.
  destruct (rn_threads _ _ _ _ _ _ HR6) as (lt & Hlt & _). erewrite bind_run by (unfold gets; cbn; rewrite Hlt; reflexivity). cbn [fst].
  erewrite bind_run by (apply free_run; [done|]; cbn; rewrite elem_of_difference, not_elem_of_singleton; split; [apply (rn_blocks _ _ _ _ _ _ HR6); auto|done]).
  erewrite bind_run by reflexivity. erewrite bind_run by reflexivity. eexists. split; [reflexivity|]. cbn. split_and!; try done.
  - intros y. rewrite !elem_of_difference, !not_elem_of_singleton, (rn_blocks _ _ _ _ _ _ HR6). split.
    + intros [[[?|[?|[?|(j & p & Hj & -> & Hp)]]] H1] H2]; try done; [by left|]. right. exists j. by rewrite Hp.
    + intros Hy. assert (y <> e_threads e /\ y <> e_managers e) as [Y1 Y2].
      { destruct Hy as [Hy|(j & Hj & ->)]; [|by destruct (ge_null _ _ Hg j PStats Hj) as (_ & ? & ?)]. destruct o as [x|]; [|set_solver].
        destruct Hmt as (m' & _ & _ & _ & Hout & _). cbn in Hy. apply elem_of_singleton in Hy as ->. by destruct (Hout (mt_stats x)) as (_ & ? & ? & _); [unfold maint_list; set_solver|]. }
      split_and!; try done. destruct Hy as [?|(j & Hj & ->)]; auto. right. right. right. by exists j, PStats.
  - rewrite S6a, S5a, S4a, S3a. exact S1a.
  - rewrite S6c, S5c, S4c, S3c. exact S1c.
  - rewrite C6, C5, C4, C3. cbn. rewrite C1. by rewrite <- !app_assoc.
Qed.
End shutdown.

(** A system just started is a running one. *)
Lemma built_running e n s lt : good_env e n -> built e n n s -> fiber_manager_threads s = (e_threads e, lt) ->
  (forall j, (j < n)%nat -> lt !! j = Some (if decide (j = 0%nat) then e_self e else e_thread e j)) ->
  running e n (maint_blocks None) (fun _ => False) (fun _ => False) s /\ @has_maint e n None s.
Proof.
  intros Hg [B1 B2 B3 B4 B5] Ht Hlt. split.
  - split.
    + intros x. rewrite B1. split; [intros [->|[->|(j & p & Hj & ->)]]; auto; right; right; right; by exists j, p|].
      intros [->|[->|[?%elem_of_empty|(j & p & Hj & -> & _)]]]; auto; [done|]. right. right. by exists j, p.
    + intros j Hj _. eexists. split; [by apply B2|]. auto.
    + intros j Hj _. eexists. split; [by apply B3|]. done.
    + rewrite B4, Nat.sub_diag. cbn. by rewrite app_nil_r.
    + by exists lt.
  - exists (new_manager e 0). split; [|done]. apply B2, (ge_n _ _ Hg).
Qed.



(** The manager cannot be started again after a shutdown: its state is still
    STARTED. *)
Theorem no_restart e n : good_env e n -> exists s s' s'',
  fiber_manager_init e n life_init = Some (FIBER_SUCCESS, s) /\ fiber_shutdown [e_self e] s = Some (tt, s') /\
  fiber_manager_init e n s' = Some (FIBER_ERROR, s'') /\ lf_errno s'' = EINVAL.
Proof.
  intros Hg. destruct (init_starts_lemma Hg) as (s & lt & E & HB & St & Num & _ & Ht & Hlt & _).
  destruct (built_running e n s lt Hg HB Ht Hlt) as [HR Hm].
  destruct (shutdown_frees_lemma Hg None [] s HR Hm Num) as (s' & E' & _ & _ & _ & St' & _); [constructor|]. cbn [app] in E'.
  destruct (init_refused e n s') as (s'' & E'' & Her & _); [rewrite St', St; done|]. by exists s, s', s''.
Qed.

(** ** Statistics *)

(** What one counter of all managers adds up to. *)
Definition total (f : lf_manager -> Z) (ms : list lf_manager) : Z := foldr (fun m acc => f m + acc) 0 ms.

Lemma u64_add_l a b : u64 (u64 a + b) = u64 (a + b).
Proof. unfold u64. by rewrite Zplus_mod_idemp_l. Qed.

Definition all_counters : list (counters -> Z) :=
  [c_yield; c_spin; c_signal_spin; c_multi_signal_spin; c_wake_mpsc_spin; c_wake_mpmc_spin; c_poll; c_event_wait; c_lock_contention].

Lemma add_counts_each a b : Forall (fun f => f (add_counts a b) = u64 (f a + f b)) all_counters.
Proof. by repeat constructor. Qed.

(** [st] is [out] plus what the managers [ms] counted. *)
Record stats_added (y : schedulers) (ms : list lf_manager) (out st : stats) : Prop := {
  sa_counters : Forall (fun f => u64 (f (st_counts st)) = u64 (f (st_counts out) + total (fun m => f (lm_counts m)) ms)) all_counters;
  sa_steal : u64 (st_steal st) = u64 (st_steal out + total (fun m => from_option steal_count 0 (scheds y !! lm_scheduler m)) ms);
  sa_failed : u64 (st_failed_steal st) = u64 (st_failed_steal out + total (fun m => from_option failed_steal_count 0 (scheds y !! lm_scheduler m)) ms)
}.

Lemma stats_loop_sum s y : fiber_schedulers s = Some y -> forall l ms out,
  Forall2 (fun a m => managers_at s !! a = Some m /\ is_Some (scheds y !! lm_scheduler m)) l ms ->
  exists st, stats_loop s l out = Some st /\ stats_added y ms out st.
Proof.
  intros Hy l ms out Hf. revert out. induction Hf as [|a m l ms [Ha [x Hx]] Hf IH]; intros out; cbn [stats_loop total foldr].
  { exists out. split; [done|]. split; cbn; rewrite ?Z.add_0_r; try done. apply Forall_forall. intros f _. by rewrite Z.add_0_r. }
  unfold fiber_manager_stats, fiber_scheduler_stats. rewrite Ha. cbn [mbind option_bind]. rewrite Hy. cbn [mbind option_bind]. rewrite Hx.
  cbn [mbind option_bind fst snd].
  edestruct IH as (st & E & [I1 I2 I3]). exists st. split; [exact E|]. cbn in I1, I2, I3.
  split; cbn [total foldr]; rewrite ?Hx; cbn [from_option].
  - rewrite Forall_forall in *. intros f Hfin. rewrite (I1 f Hfin).
    pose proof (add_counts_each (st_counts out) (lm_counts m)) as Hadd. rewrite Forall_forall in Hadd. rewrite (Hadd f Hfin).
    rewrite u64_add_l, <- Z.add_assoc. done.
  - by rewrite I2, u64_add_l, <- Z.add_assoc.
  - by rewrite I3, u64_add_l, <- Z.add_assoc.
Qed.

(** Statistics.  [fiber_manager_all_stats] returns, for every counter, the sum
    over all managers modulo 2^64, whatever the caller's structure held before. *)
Theorem all_stats_sum s y ms out : fiber_schedulers s = Some y -> (fiber_managers s).1 <> NULL ->
  fiber_manager_num_threads s = Z.of_nat (length (fiber_managers s).2) ->
  Forall2 (fun a m => managers_at s !! a = Some m /\ is_Some (scheds y !! lm_scheduler m)) (fiber_managers s).2 ms ->
  exists st, fiber_manager_all_stats s out = Some st /\ stats_added y ms no_stats st.
Proof.
  intros Hy Hn Hl Hf. unfold fiber_manager_all_stats. rewrite (proj2 (Z.eqb_neq _ _) Hn), Hl, Nat2Z.id, take_ge by done.
  exact (stats_loop_sum s y Hy _ ms no_stats Hf).
Qed.

(** ** Examples *)

Definition demo_env : life_env :=
  LifeEnv 1000 2000 (fun i => CreateAnswers (fun p => 10000 + 4 * Z.of_nat i + match p with PManager => 0 | PFiber => 1 | PNode => 2 | PStats => 3 end) FIBER_SUCCESS)
    true 77 (fun i => 77 + Z.of_nat i) (fun _ => 0) 1 1.

Lemma demo_env_good : good_env demo_env 3.
Proof.
  split; try done.
  - split; [lia|done].
  - intros i p Hi. unfold pt. cbn. unfold NULL. destruct p; split_and!; lia.
  - intros i j p q Hi Hj. unfold pt. cbn. destruct p, q; intros E; split; try lia; done.
Qed.


(** Three threads and a maintenance fiber on the first one, which [fiber_shutdown]
    is called two yields away from. *)
Definition demo_maint : maint := Maint 5000 5001 5002 5003.
Definition demo_running : life :=
  let s := match fiber_manager_init demo_env 3 life_init with Some (_, s) => s | None => life_init end in
  set_blocks (list_to_set (maint_list demo_maint) ∪ blocks s)
    (set_managers (<[10000:=LfManager 5000 10001 10001 0 0 no_counts]> (managers_at s))
      (set_fibers (<[5000:=LfFiber FIBER_STATE_WAITING FIBER_DETACH_NONE 5001 5002 5003]> (fibers_at s)) s)).

Lemma demo_is_running : running demo_env 3 (maint_blocks (Some demo_maint)) (fun _ => False) (fun _ => False) demo_running /\
  @has_maint demo_env 3 (Some demo_maint) demo_running /\ fiber_manager_num_threads demo_running = 3.
Proof.
  destruct (init_starts_lemma demo_env_good) as (s & lt & E & HB & _ & Num & _ & Ht & Hlt & _).
  destruct (built_running demo_env 3 s lt demo_env_good HB Ht Hlt) as [[R1 R2 R3 R4 R5] _].
  unfold demo_running. rewrite E. cbv zeta iota beta. split_and!; [|exists (LfManager 5000 10001 10001 0 0 no_counts); split; [exact (lookup_insert_eq _ _ _)|]|exact Num].
  - split; cbn [blocks managers_at fibers_at set_blocks set_managers set_fibers]; [| | |exact R4|exact R5].
    + intros x. rewrite elem_of_union, R1. cbn [maint_blocks]. clear. set_solver.
    + intros j Hj _. destruct (decide (j = 0%nat)) as [->|Hne]; [exists (LfManager 5000 10001 10001 0 0 no_counts); split; [exact (lookup_insert_eq _ _ _)|]; split; [reflexivity|lia]|].
      destruct (R2 j Hj ltac:(tauto)) as (m & Hm & Hr). exists m. split; [|exact Hr]. rewrite lookup_insert_ne; [exact Hm|]. unfold pt. cbn. lia.
    + intros j Hj _. destruct (R3 j Hj ltac:(tauto)) as (f & Hf & Hr). exists f. split; [|exact Hr]. rewrite lookup_insert_ne; [exact Hf|]. unfold pt. cbn. lia.
  - split; [reflexivity|]. split; [apply (bool_decide_eq_true_1 _); vm_compute; reflexivity|].
    split; [|exists (LfFiber FIBER_STATE_WAITING FIBER_DETACH_NONE 5001 5002 5003)].
    2: { split; [unfold demo_maint; cbn [fibers_at set_blocks set_managers set_fibers mt_fiber]; apply lookup_insert_eq|]. split; reflexivity. }
    intros a Ha. unfold maint_list, demo_maint in Ha. cbn in Ha. unfold NULL.
    assert (5000 <= a <= 5003) as Hr by (rewrite !elem_of_cons in Ha; destruct Ha as [->|[->|[->|[->|?%elem_of_nil]]]]; lia || done).
    cbn. split_and!; try lia. intros j p Hj. unfold pt. cbn. destruct p; lia.
Qed.


Lemma all_stats_sum_witness : exists st, fiber_manager_all_stats
  (Life ∅ ∅ (<[1:=LfManager NULL 0 0 0 0 (Counters 5 0 0 0 0 0 7 0 0)]> (<[2:=LfManager NULL 0 0 1 1 (Counters 6 0 0 0 0 0 1 0 0)]> ∅)) 1 2
    (NULL, []) (9, [1; 2]) NULL false true NULL 0 0 (Some (fiber_scheduler_init 2)) []) (Stats (Counters 99 0 0 0 0 0 0 0 0) 3 3) = Some st /\
  stats_added (fiber_scheduler_init 2) [LfManager NULL 0 0 0 0 (Counters 5 0 0 0 0 0 7 0 0); LfManager NULL 0 0 1 1 (Counters 6 0 0 0 0 0 1 0 0)] no_stats st.
Proof.
  apply all_stats_sum; [reflexivity|discriminate|reflexivity|]. repeat constructor; by eexists.
Defined.

Lemma manager_create_outcomes_witness : fiber_manager_create (CreateAnswers (fun p => match p with PManager => 10 | PFiber => 20 | PNode => 30 | PStats => 40 end) FIBER_ERROR) 0 life_init =
  Some (NULL, set_blocks ({[40]} ∪ ({[30]} ∪ ∅)) life_init).
Proof.
  refine (manager_create_outcomes (CreateAnswers (fun p => match p with PManager => 10 | PFiber => 20 | PNode => 30 | PStats => 40 end) FIBER_ERROR) 0 life_init _ _ _).
  - intros p. cbn. set_solver.
  - intros [] []; cbn; intros E; try discriminate E; auto.
  - reflexivity.
Defined.

Lemma no_restart_witness : exists s s' s'', fiber_manager_init demo_env 3 life_init = Some (FIBER_SUCCESS, s) /\
  fiber_shutdown [77] s = Some (tt, s') /\ fiber_manager_init demo_env 3 s' = Some (FIBER_ERROR, s'') /\ lf_errno s'' = EINVAL.
Proof. exact (no_restart demo_env 3 demo_env_good). Defined.
