(* ===== verification/CppFifo.v ===== *)
(** * The C++ queue template ([cpp/lockfree_fifo.hpp])

    [lockfree::fifo] combines a producer side (one producer, or many, which
    exchange the tail) with a consumer side (one consumer, or many, which swap the
    head together with a tag).  Unlike the C queues it owns its nodes: a push
    allocates one and a pop deallocates the old dummy.  With many consumers a pop
    may therefore read a node that another one has freed; in the model such a read
    returns any value at all, and freed addresses are allocated again.  One program
    point per shared access; the two sides are chosen by [traits]. *)

From S2P Require Import Prelude MpscFifo.

(** ** Traits *)

Inductive concurrency := CSingle | CMultiple.
Record fifo_traits := FifoTraits { producer : concurrency; consumer : concurrency }.
#[global] Instance concurrency_eq_dec : EqDecision concurrency.
Proof. solve_decision. Defined.

(** ** Wait strategies *)

(** [wait_strategy::spin<Count, NextStrategy>]: the new counter and whether the
    next strategy was called. *)
Definition spin_start (Count : Z) : Z := Count.
Definition spin_wait (Count counter : Z) : Z * bool :=
  let counter := u64 (counter - 1) in
  if Z.eqb counter 0 then (Count, true) else (counter, false).

(** The default of both strategies of a pop. *)
Definition SPIN_COUNT : Z := 128.

(** ** State *)

(** The queue; [cf_pusher] and [cf_popper]: the thread inside a push or a pop when
    that side is single, never read by the operations. *)
Record cf_shared := CfShared {
  cf_heap : gmap Z node;
  cf_fifo : mpsc_fifo;                  (* head.value and tail *)
  cf_tag : Z;                           (* head.tag *)
  cf_pusher : option nat;
  cf_popper : option nat
}.

(** [w]: the counters of [backoff] and [waitStrategy] in a pop. *)
Inductive cf_pc :=
| CfIdle
| CfAlloc (value : Z)                           (* alloc_node *)
| CfPushTail (newNode : Z)                      (* one producer: load tail *)
| CfPushStore (newNode oldTail : Z)             (* tail = newNode *)
| CfPushXchg (newNode : Z)                      (* many: tail.exchange *)
| CfPushLink (newNode oldTail : Z)              (* oldTail->next.store *)
| CfPopHead (w : Z * Z)                         (* one consumer: load head *)
| CfPopNext (w : Z * Z) (oldHead : Z)
| CfPopMove (w : Z * Z) (oldHead oldHeadNext : Z)          (* head = oldHeadNext *)
| CfPopData (w : Z * Z) (oldHead oldHeadNext : Z)          (* dest = move(oldHeadNext->data) *)
| CfTag (w : Z * Z)                             (* many: tag.load *)
| CfVal (w : Z * Z) (t : Z)
| CfNext (w : Z * Z) (t oldHead : Z)
| CfData (w : Z * Z) (t oldHead oldHeadNext : Z)
| CfCas (w : Z * Z) (t oldHead oldHeadNext dest : Z)
| CfFree (oldHead dest : Z).                    (* destroy and deallocate *)

(** [CfFresh a]: the allocator returns [a]; [CfGarbage g]: a read of freed memory
    yields [g]. *)
Inductive cf_choice := CfCallPush (value : Z) | CfCallPop | CfGo | CfFresh (a : Z) | CfGarbage (g : Z).

Inductive cf_ev := EvCPush (v : Z) | EvCPop (v : Z) | EvCEmpty | EvCFailure.

(** A read of [l] through [load]; of freed memory only where the code allows for
    it. *)
Definition wild (load : gmap Z node -> Z -> option Z) (ch : cf_choice) (h : gmap Z node) (l : Z) : option Z :=
  match h !! l with
  | Some _ => load h l
  | None => match ch with CfGarbage g => Some g | _ => None end
  end.

Section fifo.
Variable traits : fifo_traits.

(** ** Producers *)

(** The constructor [fifo_node(data)]. *)
Definition fifo_node (data : Z) : node := Node data NULL.

(** [push]: [try_push] always returns true, so the backoff loop runs once. *)
Definition cf_push (ch : cf_choice) (s : cf_shared) (pc : cf_pc) : option (cf_shared * cf_pc * list cf_ev) :=
  let '(CfShared h f tag pu po) := s in
  match pc with
  | CfAlloc v =>
      match ch with
      | CfFresh a =>
          if decide (a <> NULL /\ h !! a = None)
          then Some (CfShared (<[a:=fifo_node v]> h) f tag pu po,
                     match producer traits with CSingle => CfPushTail a | CMultiple => CfPushXchg a end, [])
          else None
      | _ => None
      end
  | CfPushTail n => Some (s, CfPushStore n (f_tail f), [])
  | CfPushStore n old => v ← load_data h n; Some (CfShared h (Fifo (f_head f) n) tag pu po, CfPushLink n old, [EvCPush v])
  | CfPushXchg n => v ← load_data h n; Some (CfShared h (Fifo (f_head f) n) tag pu po, CfPushLink n (f_tail f), [EvCPush v])
  | CfPushLink n old => h' ← store_next h old n; Some (CfShared h' f tag None po, CfIdle, [])
  | _ => None
  end.

(** ** Consumers *)

(** The next attempt of [pop] after an empty queue or a failed swap. *)
Definition pop_first (w : Z * Z) : cf_pc := match consumer traits with CSingle => CfPopHead w | CMultiple => CfTag w end.
Definition after_empty (w : Z * Z) : cf_pc := pop_first (w.1, (spin_wait SPIN_COUNT w.2).1).
Definition after_failure (w : Z * Z) : cf_pc := pop_first ((spin_wait SPIN_COUNT w.1).1, w.2).

(** [try_pop] of one consumer, in the loop of [pop]. *)
Definition cf_pop_single (s : cf_shared) (pc : cf_pc) : option (cf_shared * cf_pc * list cf_ev) :=
  let '(CfShared h f tag pu po) := s in
  match pc with
  | CfPopHead w => Some (s, CfPopNext w (f_head f), [])
  | CfPopNext w hd =>
      nx ← load_next h hd;
      if decide (nx = NULL) then Some (s, after_empty w, [EvCEmpty]) else Some (s, CfPopMove w hd nx, [])
  | CfPopMove w hd nx => Some (CfShared h (Fifo nx (f_tail f)) tag pu po, CfPopData w hd nx, [])
  | CfPopData w hd nx => d ← load_data h nx; Some (s, CfFree hd d, [EvCPop d])
  | _ => None
  end.

(** [tagged_pointer::compare_and_swap] on the tag and the pointer. *)
Definition tagged_compare_and_swap (p original : Z * Z) (updated : Z) : option (Z * Z) :=
  if decide (p = original) then Some (u64 (original.1 + 1), updated) else None.

(** [try_pop] of many consumers: [tagged_pointer::snapshot], the reads, and
    [tagged_pointer::compare_and_swap]. *)
Definition cf_pop_multiple (ch : cf_choice) (s : cf_shared) (pc : cf_pc) : option (cf_shared * cf_pc * list cf_ev) :=
  let '(CfShared h f tag pu po) := s in
  match pc with
  | CfTag w => Some (s, CfVal w tag, [])
  | CfVal w t => Some (s, CfNext w t (f_head f), [])
  | CfNext w t hd =>
      nx ← wild load_next ch h hd;
      if decide (nx = NULL) then Some (s, after_empty w, [EvCEmpty]) else Some (s, CfData w t hd nx, [])
  | CfData w t hd nx => d ← wild load_data ch h nx; Some (s, CfCas w t hd nx d, [])
  | CfCas w t hd nx d =>
      match tagged_compare_and_swap (tag, f_head f) (t, hd) nx with
      | Some (tag', hd') => Some (CfShared h (Fifo hd' (f_tail f)) tag' pu po, CfFree hd d, [EvCPop d])
      | None => Some (s, after_failure w, [EvCFailure])
      end
  | _ => None
  end.

(** [allocator.destroy] and [allocator.deallocate], and the return of [pop]. *)
Definition cf_deallocate (s : cf_shared) (pc : cf_pc) : option (cf_shared * cf_pc * list cf_ev) :=
  let '(CfShared h f tag pu po) := s in
  match pc with
  | CfFree hd d => match h !! hd with Some _ => Some (CfShared (delete hd h) f tag pu None, CfIdle, []) | None => None end
  | _ => None
  end.

Definition cf_tstep (t : nat) (ch : cf_choice) (s : cf_shared) (pc : cf_pc) : option (cf_shared * cf_pc * list cf_ev) :=
  let '(CfShared h f tag pu po) := s in
  match pc, ch with
  | CfIdle, CfCallPush v =>
      if decide (producer traits = CSingle /\ pu <> None) then None else Some (CfShared h f tag (Some t) po, CfAlloc v, [])
  | CfIdle, CfCallPop =>
      if decide (consumer traits = CSingle /\ po <> None) then None
      else Some (CfShared h f tag pu (Some t), pop_first (spin_start SPIN_COUNT, spin_start SPIN_COUNT), [])
  | CfIdle, _ | _, (CfCallPush _ | CfCallPop) => None
  | (CfAlloc _ | CfPushTail _ | CfPushStore _ _ | CfPushXchg _ | CfPushLink _ _), _ => cf_push ch s pc
  | (CfPopHead _ | CfPopNext _ _ | CfPopMove _ _ _ | CfPopData _ _ _), _ => cf_pop_single s pc
  | (CfTag _ | CfVal _ _ | CfNext _ _ _ | CfData _ _ _ _ | CfCas _ _ _ _ _), _ => cf_pop_multiple ch s pc
  | CfFree _ _, _ => cf_deallocate s pc
  end.

Definition cf_conf := conf cf_shared cf_pc.
Definition cf_step := conf_step cf_tstep.

(** The constructor of [fifo]: the dummy, node 1 here, is head and tail. *)
Definition cf_init (n : nat) : cf_conf :=
  Conf (CfShared (<[1:=fifo_node 0]> ∅) (Fifo 1 1) 0 None None) (replicate n CfIdle).
End fifo.

(** A FIFO queue of values. *)
Definition cf_spec (e : cf_ev) (q : list Z) : option (list Z) :=
  match e, q with
  | EvCPush v, _ => Some (q ++ [v])
  | EvCPop v, x :: q => if decide (v = x) then Some q else None
  | EvCPop _, [] => None
  | _, _ => Some q
  end.

Lemma cf_spec_pop v q : spec_run cf_spec [EvCPop v] (v :: q) = Some q.
Proof. cbn [spec_run cf_spec]. by rewrite decide_True. Qed.

(** ** Invariant *)

Definition cf_private (pc : cf_pc) : option Z :=
  match pc with CfPushTail n | CfPushStore n _ | CfPushXchg n | CfFree n _ => Some n | _ => None end.
Definition cf_pending (pc : cf_pc) : option (Z * Z) := match pc with CfPushLink n old => Some (old, n) | _ => None end.
(** The dummy that a single consumer has left but not finished with. *)
Definition cf_leaving (pc : cf_pc) : option Z := match pc with CfPopData _ hd _ => Some hd | _ => None end.

Definition cf_pushing (pc : cf_pc) : bool :=
  match pc with CfAlloc _ | CfPushTail _ | CfPushStore _ _ | CfPushXchg _ | CfPushLink _ _ => true | _ => false end.
Definition cf_popping (pc : cf_pc) : bool :=
  match pc with
  | CfPopHead _ | CfPopNext _ _ | CfPopMove _ _ _ | CfPopData _ _ _ | CfTag _ | CfVal _ _ | CfNext _ _ _ | CfData _ _ _ _ | CfCas _ _ _ _ _
  | CfFree _ _ => true
  | _ => false
  end.

(** What a thread's locals promise; a snapshot counts as long as the tag has not
    moved. *)
Definition cf_ok (tr : fifo_traits) (s : cf_shared) (pc : cf_pc) : Prop :=
  match pc with
  | CfPushTail n => producer tr = CSingle /\ load_next (cf_heap s) n = Some NULL
  | CfPushStore n old => producer tr = CSingle /\ load_next (cf_heap s) n = Some NULL /\ old = f_tail (cf_fifo s)
  | CfPushXchg n => producer tr = CMultiple /\ load_next (cf_heap s) n = Some NULL
  | CfPopHead _ => consumer tr = CSingle
  | CfPopNext _ hd => consumer tr = CSingle /\ hd = f_head (cf_fifo s)
  | CfPopMove _ hd nx => consumer tr = CSingle /\ hd = f_head (cf_fifo s) /\ load_next (cf_heap s) hd = Some nx /\ nx <> NULL
  | CfPopData _ hd nx => consumer tr = CSingle /\ nx = f_head (cf_fifo s) /\ load_next (cf_heap s) hd = Some nx /\ nx <> NULL
  | CfTag _ => consumer tr = CMultiple
  | CfVal _ t => consumer tr = CMultiple /\ t <= cf_tag s
  | CfNext _ t hd => consumer tr = CMultiple /\ t <= cf_tag s /\ (t = cf_tag s -> hd = f_head (cf_fifo s))
  | CfData _ t hd nx => consumer tr = CMultiple /\ t <= cf_tag s /\
      (t = cf_tag s -> hd = f_head (cf_fifo s) /\ load_next (cf_heap s) hd = Some nx /\ nx <> NULL)
  | CfCas _ t hd nx d => consumer tr = CMultiple /\ t <= cf_tag s /\
      (t = cf_tag s -> hd = f_head (cf_fifo s) /\ load_next (cf_heap s) hd = Some nx /\ nx <> NULL /\ load_data (cf_heap s) nx = Some d)
  | _ => True
  end.

Definition cf_places (c : cf_conf) (chain : list Z) : list Z := chain ++ omap cf_private (threads c).

(** [chain] starts at [vh]: the head, or the dummy that the single consumer is
    about to leave. *)
Record cf_rel (tr : fifo_traits) (k : Z) (c : cf_conf) (q : list Z) (vh : Z) (chain : list Z) : Prop := {
  cr_chain : chain_inv (cf_heap (shared c)) (Fifo vh (f_tail (cf_fifo (shared c)))) (omap cf_pending (threads c)) chain;
  cr_data : Forall2 (fun a d => load_data (cf_heap (shared c)) a = Some d) (tail chain) q;
  cr_nd : NoDup (cf_places c chain);
  cr_heap : forall a, is_Some (cf_heap (shared c) !! a) <-> a ∈ cf_places c chain;
  cr_null : NULL ∉ cf_places c chain;
  cr_vh : vh = match omap cf_leaving (threads c) with [] => f_head (cf_fifo (shared c)) | hd :: _ => hd end;
  cr_tag : 0 <= cf_tag (shared c) <= k;
  cr_pusher : producer tr = CSingle -> forall t pc, threads c !! t = Some pc -> cf_pushing pc = true -> cf_pusher (shared c) = Some t;
  cr_popper : consumer tr = CSingle -> forall t pc, threads c !! t = Some pc -> cf_popping pc = true -> cf_popper (shared c) = Some t;
  cr_ok : forall t pc, threads c !! t = Some pc -> cf_ok tr (shared c) pc
}.

(** Threads other than [t] contribute nothing to an image. *)
Lemma load_next_alloc h a nx : load_next h a = Some nx -> is_Some (h !! a).
Proof. unfold load_next. destruct (h !! a); [by eexists|done]. Qed.

Section cf_steps.
Context (tr : fifo_traits) {k : Z} {c : cf_conf} {q : list Z} {vh : Z} {chain : list Z} (t : nat) (pc : cf_pc).
Hypotheses (HR : cf_rel tr k c q vh chain) (Ht : threads c !! t = Some pc).

Lemma cf_rel_step s' pc' q' vh' chain' :
  chain_inv (cf_heap s') (Fifo vh' (f_tail (cf_fifo s'))) (omap cf_pending (<[t:=pc']> (threads c))) chain' ->
  Forall2 (fun a d => load_data (cf_heap s') a = Some d) (tail chain') q' ->
  NoDup (cf_places (Conf s' (<[t:=pc']> (threads c))) chain') ->
  (forall a, is_Some (cf_heap s' !! a) <-> a ∈ cf_places (Conf s' (<[t:=pc']> (threads c))) chain') ->
  (NULL ∉ cf_places (Conf s' (<[t:=pc']> (threads c))) chain') ->
  vh' = match omap cf_leaving (<[t:=pc']> (threads c)) with [] => f_head (cf_fifo s') | hd :: _ => hd end ->
  0 <= cf_tag s' <= k + 1 ->
  (producer tr = CSingle -> (cf_pushing pc' = true -> cf_pusher s' = Some t) /\ (cf_pushing pc = true \/ cf_pusher s' = cf_pusher (shared c) \/ cf_pusher (shared c) = None)) ->
  (consumer tr = CSingle -> (cf_popping pc' = true -> cf_popper s' = Some t) /\ (cf_popping pc = true \/ cf_popper s' = cf_popper (shared c) \/ cf_popper (shared c) = None)) ->
  cf_ok tr s' pc' -> (forall i p, i <> t -> threads c !! i = Some p -> cf_ok tr (shared c) p -> cf_ok tr s' p) ->
  cf_rel tr (k + 1) (Conf s' (<[t:=pc']> (threads c))) q' vh' chain'.
Proof using HR Ht.
  intros H1 H2 H3 H4 H5 H6 H7 Hpu Hpo Hok Hoks. split; auto.
  - intros Hs i p Hi Hp. destruct (Hpu Hs) as [P1 P2]. cbn [shared threads] in *. apply lookup_insert_cases in Hi as [(-> & ->)|(Hne & Hi)]; [auto|].
    pose proof (cr_pusher _ _ _ _ _ _ HR Hs i p Hi Hp) as E. destruct P2 as [P|[->|P]]; [|done|congruence].
    pose proof (cr_pusher _ _ _ _ _ _ HR Hs t pc Ht P). congruence.
  - intros Hs i p Hi Hp. destruct (Hpo Hs) as [P1 P2]. cbn [shared threads] in *. apply lookup_insert_cases in Hi as [(-> & ->)|(Hne & Hi)]; [auto|].
    pose proof (cr_popper _ _ _ _ _ _ HR Hs i p Hi Hp) as E. destruct P2 as [P|[->|P]]; [|done|congruence].
    pose proof (cr_popper _ _ _ _ _ _ HR Hs t pc Ht P). congruence.
  - intros i p Hi. cbn [shared threads] in *. apply lookup_insert_cases in Hi as [(-> & ->)|(Hne & Hi)]; [done|].
    apply (Hoks i p Hne Hi). by apply (cr_ok _ _ _ _ _ _ HR i).
Qed.

(** A step that moves the program point only. *)
Lemma cf_local s' pc' : cf_heap s' = cf_heap (shared c) -> cf_fifo s' = cf_fifo (shared c) -> cf_tag s' = cf_tag (shared c) ->
  cf_private pc' = cf_private pc -> cf_pending pc' = cf_pending pc -> cf_leaving pc = None -> cf_leaving pc' = None ->
  (producer tr = CSingle -> (cf_pushing pc' = true -> cf_pusher s' = Some t) /\ (cf_pushing pc = true \/ cf_pusher s' = cf_pusher (shared c) \/ cf_pusher (shared c) = None)) ->
  (consumer tr = CSingle -> (cf_popping pc' = true -> cf_popper s' = Some t) /\ (cf_popping pc = true \/ cf_popper s' = cf_popper (shared c) \/ cf_popper (shared c) = None)) ->
  cf_ok tr s' pc' -> cf_rel tr (k + 1) (Conf s' (<[t:=pc']> (threads c))) q vh chain.
Proof using HR Ht.
  intros Eh Ef Et E1 E2 E3 E4 Hpu Hpo Hok. pose proof (cr_tag _ _ _ _ _ _ HR).
  assert (cf_places (Conf s' (<[t:=pc']> (threads c))) chain ≡ₚ cf_places c chain) as Hpl.
  { unfold cf_places. cbn [threads]. by rewrite (omap_insert_same cf_private _ _ _ _ Ht E1). }
  apply cf_rel_step; auto; rewrite ?Eh, ?Ef, ?Et, ?Hpl; try apply HR; try lia.
  - eapply chain_perm; [|apply HR]. symmetry. by apply (omap_insert_same cf_pending _ _ _ _ Ht).
  - intros a. rewrite Hpl. apply HR.
  - rewrite (cr_vh _ _ _ _ _ _ HR). by rewrite (omap_none_same cf_leaving _ _ _ _ Ht).
  - intros i p Hne Hp. destruct p; cbn [cf_ok]; by rewrite ?Eh, ?Ef, ?Et.
Qed.

(** Facts about the chain. *)
Lemma cf_head_in : vh ∈ chain.
Proof using HR. eapply list_elem_of_lookup_2. exact (ch_head _ _ _ _ (cr_chain _ _ _ _ _ _ HR)). Qed.

Lemma cf_leaving_is i w hd nx : consumer tr = CSingle -> threads c !! i = Some (CfPopData w hd nx) -> vh = hd.
Proof using HR.
  intros Hs Hi. rewrite (cr_vh _ _ _ _ _ _ HR). rewrite (omap_none_but cf_leaving _ _ _ Hi); [done|].
  intros j p Hne Hj. destruct p; try done. pose proof (cr_popper _ _ _ _ _ _ HR Hs i _ Hi eq_refl). 
  pose proof (cr_popper _ _ _ _ _ _ HR Hs j _ Hj eq_refl). congruence.
Qed.

(** Without a single consumer at that point the chain starts at the head. *)
Lemma cf_vh_head : (forall i p, threads c !! i = Some p -> cf_leaving p = None) -> vh = f_head (cf_fifo (shared c)).
Proof using HR.
  intros Hn. rewrite (cr_vh _ _ _ _ _ _ HR). assert (omap cf_leaving (threads c) = []) as ->; [|done].
  clear - Hn. revert Hn. induction (threads c) as [|a l IH]; intros Hn; [done|]. csimpl. rewrite (Hn 0%nat a eq_refl). apply IH.
  intros i p Hi. by apply (Hn (S i)).
Qed.

Lemma cf_multi_vh : consumer tr = CMultiple -> vh = f_head (cf_fifo (shared c)).
Proof using HR.
  intros Hm. apply cf_vh_head. intros i p Hi. destruct p; try done. pose proof (cr_ok _ _ _ _ _ _ HR i _ Hi) as [? _]. congruence.
Qed.

Lemma cf_next_in nx : load_next (cf_heap (shared c)) vh = Some nx -> nx <> NULL -> exists rest, chain = vh :: nx :: rest /\
  chain_inv (cf_heap (shared c)) (Fifo nx (f_tail (cf_fifo (shared c)))) (omap cf_pending (threads c)) (nx :: rest).
Proof using HR. intros Hnx Hn. exact (chain_pop _ _ _ _ _ _ (cr_chain _ _ _ _ _ _ HR) eq_refl Hnx Hn). Qed.

(** A private node is outside the chain and belongs to one thread. *)
Lemma cf_private_out n : cf_private pc = Some n -> (n ∉ chain) /\ is_Some (cf_heap (shared c) !! n) /\ n <> NULL /\
  forall i p, i <> t -> threads c !! i = Some p -> cf_private p <> Some n.
Proof using HR Ht.
  intros Hn. assert (n ∈ omap cf_private (threads c)) as Hin.
  { apply list_elem_of_omap. exists pc. split; [by eapply list_elem_of_lookup_2|done]. }
  pose proof (cr_nd _ _ _ _ _ _ HR) as Hnd. unfold cf_places in Hnd. apply NoDup_app in Hnd as (_ & Hd & Hnd).
  assert (n ∈ cf_places c chain) as Ha by (unfold cf_places; set_solver).
  split_and!; [intros Hs; by apply (Hd n Hs)|by apply (cr_heap _ _ _ _ _ _ HR)|intros ->; by apply (cr_null _ _ _ _ _ _ HR)|].
  intros i p Hne Hi E. apply Hne. by eapply (omap_NoDup_inj cf_private (threads c) i t).
Qed.

(** Other threads are not disturbed by a change of the heap outside what they
    rely on. *)
Lemma cf_ok_stable s' i p : cf_fifo s' = cf_fifo (shared c) -> cf_tag s' = cf_tag (shared c) ->
  (forall x v, x ∈ chain -> load_next (cf_heap (shared c)) x = Some v -> v <> NULL -> load_next (cf_heap s') x = Some v) ->
  (forall x, x ∈ chain -> load_data (cf_heap s') x = load_data (cf_heap (shared c)) x) ->
  (forall x, cf_private p = Some x -> load_next (cf_heap s') x = load_next (cf_heap (shared c)) x) ->
  threads c !! i = Some p -> cf_ok tr (shared c) p -> cf_ok tr s' p.
Proof using HR.
  clear t pc Ht. intros Ef Et Hnx Hdt Hpr Hi Hok.
  assert (forall x v, x ∈ chain -> load_next (cf_heap (shared c)) x = Some v -> v <> NULL -> x = vh -> v ∈ chain) as Hin.
  { intros x v _ Hv Hn ->. destruct (cf_next_in v Hv Hn) as (rest & -> & _). set_solver. }
  destruct p; cbn [cf_ok cf_private] in *; rewrite ?Ef, ?Et; try done; rewrite ?Hpr by done; try done.
  - destruct Hok as (Hs & -> & Hl & Hn). split_and!; try done. apply Hnx; [|done|done].
    rewrite <- (cf_vh_head); [apply cf_head_in|]. intros j p Hj. destruct p; try done.
    pose proof (cr_popper _ _ _ _ _ _ HR Hs i _ Hi eq_refl). pose proof (cr_popper _ _ _ _ _ _ HR Hs j _ Hj eq_refl).
    assert (i = j) as -> by congruence. congruence.
  - destruct Hok as (Hs & -> & Hl & Hn). split_and!; try done. apply Hnx; [|done|done].
    rewrite <- (cf_leaving_is i _ _ _ Hs Hi). apply cf_head_in.
  - destruct Hok as (Hm & Hle & Hc). split_and!; try done. intros E. destruct (Hc E) as (-> & Hl & Hn). split_and!; try done.
    rewrite <- (cf_multi_vh Hm) in *. apply Hnx; [apply cf_head_in|done|done].
  - destruct Hok as (Hm & Hle & Hc). split_and!; try done. intros E. destruct (Hc E) as (-> & Hl & Hn & Hd).
    rewrite <- (cf_multi_vh Hm) in *. split_and!; try done; [apply Hnx; [apply cf_head_in|done|done]|].
    rewrite Hdt; [done|]. eapply Hin; eauto using cf_head_in.
Qed.
End cf_steps.

(** ** Preservation *)

Lemma data_same h h' l q : (forall a, a ∈ l -> load_data h' a = load_data h a) ->
  Forall2 (fun a d => load_data h a = Some d) l q -> Forall2 (fun a d => load_data h' a = Some d) l q.
Proof. intros Hs Hf. induction Hf as [|a d l q Hd Hf IH]; constructor; [rewrite Hs by left; done|]. apply IH. intros b Hb. apply Hs. by right. Qed.

Lemma tail_subset {A} (l : list A) x : x ∈ tail l -> x ∈ l.
Proof. destruct l; [done|]. by right. Qed.

Section cf_moves.
Context (tr : fifo_traits) {k : Z} {c : cf_conf} {q : list Z} {vh : Z} {chain : list Z} (t : nat).
Hypotheses (HR : cf_rel tr k c q vh chain).

(** A node is allocated. *)
Lemma cf_alloc v a : threads c !! t = Some (CfAlloc v) -> a <> NULL -> cf_heap (shared c) !! a = None ->
  let s := shared c in
  cf_rel tr (k + 1) (Conf (CfShared (<[a:=fifo_node v]> (cf_heap s)) (cf_fifo s) (cf_tag s) (cf_pusher s) (cf_popper s))
    (<[t:=match producer tr with CSingle => CfPushTail a | CMultiple => CfPushXchg a end]> (threads c))) q vh chain.
Proof using HR.
  intros Ht Hnn Ha s. subst s. set (pc' := match producer tr with CSingle => _ | CMultiple => _ end).
  assert (cf_private pc' = Some a /\ cf_pending pc' = None /\ cf_leaving pc' = None /\ cf_pushing pc' = true /\ cf_popping pc' = false) as (P1 & P2 & P3 & P4 & P5)
    by (unfold pc'; by destruct (producer tr)).
  assert (a ∉ cf_places c chain) as Hna by (intros Hin; apply (cr_heap _ _ _ _ _ _ HR) in Hin as [? E]; congruence).
  assert (a ∉ chain) as Hnc by (unfold cf_places in Hna; set_solver).
  assert (forall x, x <> a -> load_next (<[a:=fifo_node v]> (cf_heap (shared c))) x = load_next (cf_heap (shared c)) x /\ load_data (<[a:=fifo_node v]> (cf_heap (shared c))) x = load_data (cf_heap (shared c)) x) as Hsame
    by (intros x Hx; unfold load_next, load_data; by rewrite !lookup_insert_ne by done).
  set (s' := CfShared _ _ _ _ _).
  assert (cf_places (Conf s' (<[t:=pc']> (threads c))) chain ≡ₚ a :: cf_places c chain) as Hpl.
  { unfold cf_places. cbn [threads]. rewrite (omap_insert_add cf_private _ _ _ _ _ Ht eq_refl P1). by rewrite <- Permutation_middle. }
  pose proof (cr_tag _ _ _ _ _ _ HR). eapply cf_rel_step; eauto; rewrite ?Hpl; cbn [s' cf_heap cf_fifo cf_tag cf_pusher cf_popper].
  - eapply chain_perm; [symmetry; by apply (omap_insert_same cf_pending _ _ _ _ Ht)|]. eapply chain_heap; [|apply HR].
    intros x Hx. apply Hsame. by intros ->.
  - eapply data_same; [|apply HR]. intros x Hx. apply Hsame. intros ->. by apply Hnc, tail_subset.
  - apply NoDup_cons. split; [done|apply HR].
  - intros x. rewrite Hpl, elem_of_cons, <- (cr_heap _ _ _ _ _ _ HR x). unfold s'. cbn [cf_heap].
    destruct (decide (x = a)) as [->|]; [rewrite lookup_insert_eq; split; [auto|by eexists]|rewrite lookup_insert_ne by done]. split; [auto|by intros [?|?]].
  - apply not_elem_of_cons. split; [done|apply HR].
  - rewrite (cr_vh _ _ _ _ _ _ HR). by rewrite (omap_none_same cf_leaving _ _ _ _ Ht).
  - unfold s'. cbn. lia.
  - intros Hs. split; [|by left]. intros _. by apply (cr_pusher _ _ _ _ _ _ HR Hs t _ Ht).
  - intros Hs. rewrite P5. split; [done|]. auto.
  - unfold pc', s'. destruct (producer tr) eqn:Ep; cbn; unfold load_next; by rewrite lookup_insert_eq.
  - intros i p Hne Hi. apply (cf_ok_stable tr HR s' i p); auto.
    + intros x w Hx Hw _. unfold s'. cbn. destruct (Hsame x) as [-> _]; [by intros ->|done].
    + intros x Hx. unfold s'. cbn. apply Hsame. by intros ->.
    + intros x Hx. unfold s'. cbn. apply Hsame. intros ->. apply Hna. unfold cf_places. rewrite elem_of_app. right.
      apply list_elem_of_omap. exists p. split; [by eapply list_elem_of_lookup_2|done].
Qed.

(** The tail moves to the new node. *)
Lemma cf_swing pc n v : threads c !! t = Some pc -> pc = CfPushStore n (f_tail (cf_fifo (shared c))) \/ pc = CfPushXchg n ->
  load_data (cf_heap (shared c)) n = Some v ->
  cf_rel tr (k + 1) (Conf (CfShared (cf_heap (shared c)) (Fifo (f_head (cf_fifo (shared c))) n) (cf_tag (shared c)) (cf_pusher (shared c)) (cf_popper (shared c)))
    (<[t:=CfPushLink n (f_tail (cf_fifo (shared c)))]> (threads c))) (q ++ [v]) vh (chain ++ [n]).
Proof using HR.
  intros Ht Hpc Hv. pose proof (cr_ok _ _ _ _ _ _ HR _ _ Ht) as Hok.
  assert (cf_private pc = Some n /\ cf_pending pc = None /\ cf_leaving pc = None /\ cf_pushing pc = true) as (P1 & P2 & P3 & P4) by (by destruct Hpc as [-> | ->]).
  destruct (cf_private_out tr t pc HR Ht n P1) as (Hnc & _ & Hnn & _).
  assert (load_next (cf_heap (shared c)) n = Some NULL) as Hnx by (destruct Hpc as [-> | ->]; apply Hok).
  set (pc' := CfPushLink n _). set (s' := CfShared _ _ _ _ _).
  assert (cf_places (Conf s' (<[t:=pc']> (threads c))) (chain ++ [n]) ≡ₚ cf_places c chain) as Hpl.
  { unfold cf_places. cbn [threads]. rewrite (omap_insert_del cf_private _ _ _ pc' _ Ht P1 eq_refl). by rewrite <- app_assoc. }
  pose proof (cr_chain _ _ _ _ _ _ HR) as Hch. pose proof (cr_tag _ _ _ _ _ _ HR).
  eapply cf_rel_step; eauto; rewrite ?Hpl; try apply HR; unfold s'; cbn [cf_heap cf_fifo cf_tag cf_pusher cf_popper f_tail f_head].
  - eapply chain_perm; [symmetry; by apply (omap_insert_add cf_pending _ _ _ pc' _ Ht P2 eq_refl)|].
    exact (chain_xchg _ _ _ _ n Hch Hnc Hnn Hnx).
  - pose proof (ch_head _ _ _ _ Hch) as Hh. pose proof (cr_data _ _ _ _ _ _ HR) as Hd. destruct chain as [|a l]; [done|].
    apply Forall2_app; [exact Hd|by constructor].
  - intros x. rewrite Hpl. apply HR.
  - rewrite (cr_vh _ _ _ _ _ _ HR). by rewrite (omap_none_same cf_leaving _ _ _ _ Ht).
  - lia.
  - intros Hs. split; [|by left]. intros _. by apply (cr_pusher _ _ _ _ _ _ HR Hs t _ Ht).
  - intros Hs. split; [done|]. auto.
  - done.
  - intros i p Hne Hi Hp. destruct p; try exact Hp. exfalso. destruct Hp as (Hs & _).
    destruct Hpc as [-> | ->]; [|destruct Hok; congruence].
    pose proof (cr_pusher _ _ _ _ _ _ HR Hs i _ Hi eq_refl). pose proof (cr_pusher _ _ _ _ _ _ HR Hs t _ Ht eq_refl). congruence.
Qed.

(** The predecessor is linked. *)
Lemma cf_link n old h' : threads c !! t = Some (CfPushLink n old) -> store_next (cf_heap (shared c)) old n = Some h' ->
  cf_rel tr (k + 1) (Conf (CfShared h' (cf_fifo (shared c)) (cf_tag (shared c)) None (cf_popper (shared c))) (<[t:=CfIdle]> (threads c))) q vh chain.
Proof using HR.
  intros Ht Hs. pose proof (omap_insert_del cf_pending _ _ _ CfIdle _ Ht eq_refl eq_refl) as Hpend.
  assert (chain_inv (cf_heap (shared c)) (Fifo vh (f_tail (cf_fifo (shared c)))) ((old, n) :: omap cf_pending (<[t:=CfIdle]> (threads c))) chain) as Hch
    by (eapply chain_perm; [exact Hpend|apply HR]).
  destruct (ch_pend _ _ _ _ Hch old n ltac:(left)) as (i0 & Hi0 & Hi1).
  assert (old ∈ chain) as Hold by (by eapply list_elem_of_lookup_2).
  assert (load_next (cf_heap (shared c)) old = Some NULL) as Hnull.
  { destruct (ch_link _ _ _ _ Hch i0 old n Hi0 Hi1) as [[_ Hno]|[? _]]; [|done]. destruct Hno. left. }
  set (s' := CfShared _ _ _ _ _).
  assert (cf_places (Conf s' (<[t:=CfIdle]> (threads c))) chain ≡ₚ cf_places c chain) as Hpl.
  { unfold cf_places. cbn [threads]. by rewrite (omap_insert_same cf_private _ _ _ CfIdle Ht). }
  pose proof (cr_tag _ _ _ _ _ _ HR).
  eapply cf_rel_step; eauto; rewrite ?Hpl; try apply HR; unfold s'; cbn [cf_heap cf_fifo cf_tag cf_pusher cf_popper].
  - by eapply chain_store_link.
  - eapply data_same; [|apply HR]. intros x _. by rewrite (store_next_data _ _ _ _ _ Hs).
  - intros x. rewrite Hpl, (store_next_dom _ _ _ _ _ Hs). apply HR.
  - rewrite (cr_vh _ _ _ _ _ _ HR). by rewrite (omap_none_same cf_leaving _ _ _ _ Ht).
  - lia.
  - intros _. split; [done|by left].
  - intros _. split; [done|auto].
  - done.
  - intros i p Hne Hi. apply (cf_ok_stable tr HR s' i p); auto; unfold s'; cbn [cf_heap].
    + intros x w Hx Hw Hwn. rewrite (store_next_other _ _ _ _ _ Hs); [done|]. intros ->. congruence.
    + intros x _. by rewrite (store_next_data _ _ _ _ _ Hs).
    + intros x Hx. apply (store_next_other _ _ _ _ _ Hs). intros ->.
      by destruct (cf_private_out tr i p HR Hi old Hx) as (Hout & _).
Qed.

(** In a step of the single consumer no other thread pops. *)
Lemma cf_alone pc : consumer tr = CSingle -> threads c !! t = Some pc -> cf_popping pc = true ->
  forall i p, i <> t -> threads c !! i = Some p -> cf_popping p = false.
Proof using HR.
  intros Hs Ht Hpc i p Hne Hi. destruct (cf_popping p) eqn:E; [|done].
  pose proof (cr_popper _ _ _ _ _ _ HR Hs i _ Hi E). pose proof (cr_popper _ _ _ _ _ _ HR Hs t _ Ht Hpc). congruence.
Qed.

Lemma cf_leaving_popping p : cf_popping p = false -> cf_leaving p = None.
Proof using. by destruct p. Qed.

Lemma cf_single_vh pc : consumer tr = CSingle -> threads c !! t = Some pc -> cf_popping pc = true -> cf_leaving pc = None ->
  vh = f_head (cf_fifo (shared c)).
Proof using HR.
  intros Hs Ht Hp Hl. apply (cf_vh_head tr HR). intros i p Hi. destruct (decide (i = t)) as [->|Hne]; [rewrite Ht in Hi; by injection Hi as <-|].
  by apply cf_leaving_popping, (cf_alone _ Hs Ht Hp i).
Qed.

(** The single consumer moves the head. *)
Lemma cf_move w hd nx : threads c !! t = Some (CfPopMove w hd nx) ->
  cf_rel tr (k + 1) (Conf (CfShared (cf_heap (shared c)) (Fifo nx (f_tail (cf_fifo (shared c)))) (cf_tag (shared c)) (cf_pusher (shared c)) (cf_popper (shared c)))
    (<[t:=CfPopData w hd nx]> (threads c))) q vh chain.
Proof using HR.
  intros Ht. destruct (cr_ok _ _ _ _ _ _ HR _ _ Ht) as (Hs & -> & Hl & Hn). pose proof (cf_alone _ Hs Ht eq_refl) as Halone.
  pose proof (cf_single_vh _ Hs Ht eq_refl eq_refl) as Evh.
  set (s' := CfShared _ _ _ _ _). set (pc' := CfPopData _ _ _).
  assert (cf_places (Conf s' (<[t:=pc']> (threads c))) chain ≡ₚ cf_places c chain) as Hpl.
  { unfold cf_places. cbn [threads]. by rewrite (omap_insert_same cf_private _ _ _ pc' Ht). }
  pose proof (cr_tag _ _ _ _ _ _ HR). pose proof (lookup_lt_Some _ _ _ Ht) as Hlt.
  eapply cf_rel_step; eauto; rewrite ?Hpl; try apply HR; unfold s'; cbn [cf_heap cf_fifo cf_tag cf_pusher cf_popper f_tail f_head].
  - eapply chain_perm; [symmetry; by apply (omap_insert_same cf_pending _ _ _ pc' Ht)|apply HR].
  - intros x. rewrite Hpl. apply HR.
  - rewrite (omap_none_but cf_leaving _ t pc'); [done|by rewrite list_lookup_insert_eq|].
    intros i p Hne Hi. rewrite list_lookup_insert_ne in Hi by done. by apply cf_leaving_popping, (Halone i).
  - lia.
  - intros _. split; [done|auto].
  - intros _. split; [|by left]. intros _. by apply (cr_popper _ _ _ _ _ _ HR Hs t _ Ht).
  - done.
  - intros i p Hne Hi Hp. specialize (Halone i p Hne Hi). destruct p; try exact Hp; discriminate Halone.
Qed.

(** The old dummy leaves the chain: the single consumer has read the data, or one
    of many has swapped the head. *)
Lemma cf_unlink pc s' hd nx d : threads c !! t = Some pc -> cf_private pc = None -> cf_pending pc = None -> cf_popping pc = true ->
  vh = hd -> load_next (cf_heap (shared c)) hd = Some nx -> nx <> NULL -> load_data (cf_heap (shared c)) nx = Some d ->
  cf_heap s' = cf_heap (shared c) -> cf_fifo s' = Fifo nx (f_tail (cf_fifo (shared c))) -> cf_pusher s' = cf_pusher (shared c) ->
  cf_popper s' = cf_popper (shared c) -> 0 <= cf_tag s' <= k + 1 ->
  (forall i p, i <> t -> threads c !! i = Some p -> cf_leaving p = None) ->
  (forall i p, i <> t -> threads c !! i = Some p -> cf_ok tr (shared c) p -> cf_ok tr s' p) ->
  exists q' chain', q = d :: q' /\ cf_rel tr (k + 1) (Conf s' (<[t:=CfFree hd d]> (threads c))) q' nx chain'.
Proof using HR.
  intros Ht P1 P2 P3 -> Hl Hn Hd Eh Ef Epu Epo Htag Hlv Hoks.
  destruct (cf_next_in tr HR nx Hl Hn) as (rest & Ec & Hch). pose proof (cr_data _ _ _ _ _ _ HR) as Hdata. rewrite Ec in Hdata. cbn [tail] in Hdata.
  inversion Hdata as [|? d' ? q' Hd' Hq']; subst. assert (d' = d) as -> by congruence. exists q', (nx :: rest). split; [done|].
  assert (cf_places (Conf s' (<[t:=CfFree hd d]> (threads c))) (nx :: rest) ≡ₚ cf_places c (hd :: nx :: rest)) as Hpl.
  { unfold cf_places. cbn [threads]. rewrite (omap_insert_add cf_private _ _ _ (CfFree hd d) hd Ht P1 eq_refl). cbn [app].
    by rewrite <- Permutation_middle, Permutation_swap. }
  eapply cf_rel_step; eauto; rewrite ?Hpl, ?Eh, ?Ef, ?Epu, ?Epo; try apply HR.
  - cbn [f_tail]. eapply chain_perm; [symmetry; by apply (omap_insert_same cf_pending _ _ _ (CfFree hd d) Ht)|exact Hch].
  - exact Hq'.
  - intros x. rewrite Hpl. apply HR.
  - rewrite (omap_none_but cf_leaving _ t (CfFree hd d)); [done| |].
    + apply list_lookup_insert_eq. by eapply lookup_lt_Some.
    + intros i p Hne Hi. rewrite list_lookup_insert_ne in Hi by done. by eapply Hlv.
  - intros _. split; [done|auto].
  - intros Hs. split; [|auto]. intros _. by apply (cr_popper _ _ _ _ _ _ HR Hs t _ Ht).
  - done.
Qed.

(** The old dummy is freed. *)
Lemma cf_frees hd d nd : threads c !! t = Some (CfFree hd d) -> cf_heap (shared c) !! hd = Some nd ->
  cf_rel tr (k + 1) (Conf (CfShared (delete hd (cf_heap (shared c))) (cf_fifo (shared c)) (cf_tag (shared c)) (cf_pusher (shared c)) None)
    (<[t:=CfIdle]> (threads c))) q vh chain.
Proof using HR.
  intros Ht Hnd. destruct (cf_private_out tr t _ HR Ht hd eq_refl) as (Hnc & _ & _ & Hoth).
  assert (forall x, x <> hd -> load_next (delete hd (cf_heap (shared c))) x = load_next (cf_heap (shared c)) x /\
    load_data (delete hd (cf_heap (shared c))) x = load_data (cf_heap (shared c)) x) as Hsame
    by (intros x Hx; unfold load_next, load_data; by rewrite !lookup_delete_ne by done).
  set (s' := CfShared _ _ _ _ _).
  assert (cf_places c chain ≡ₚ hd :: cf_places (Conf s' (<[t:=CfIdle]> (threads c))) chain) as Hpl.
  { unfold cf_places. cbn [threads]. rewrite (omap_insert_del cf_private _ _ _ CfIdle _ Ht eq_refl eq_refl). by rewrite <- Permutation_middle. }
  pose proof (cr_nd _ _ _ _ _ _ HR) as Hdup. rewrite Hpl in Hdup. apply NoDup_cons in Hdup as [Hout Hdup].
  pose proof (cr_null _ _ _ _ _ _ HR) as Hnull. rewrite Hpl in Hnull. pose proof (cr_tag _ _ _ _ _ _ HR).
  eapply cf_rel_step; eauto; unfold s'; cbn [cf_heap cf_fifo cf_tag cf_pusher cf_popper].
  - eapply chain_perm; [symmetry; by apply (omap_insert_same cf_pending _ _ _ CfIdle Ht)|]. eapply chain_heap; [|apply HR].
    intros x Hx. apply Hsame. by intros ->.
  - eapply data_same; [|apply HR]. intros x Hx. apply Hsame. intros ->. by apply Hnc, tail_subset.
  - intros x. destruct (decide (x = hd)) as [->|Hne].
    + rewrite lookup_delete_eq. split; [by intros []|done].
    + rewrite lookup_delete_ne by done. rewrite (cr_heap _ _ _ _ _ _ HR x), Hpl, elem_of_cons. split; [by intros [?|?]|auto].
  - set_solver.
  - rewrite (cr_vh _ _ _ _ _ _ HR). by rewrite (omap_none_same cf_leaving _ _ _ _ Ht).
  - lia.
  - intros _. split; [done|auto].
  - intros _. split; [done|by left].
  - done.
  - intros i p Hne Hi. apply (cf_ok_stable tr HR s' i p); auto; unfold s'; cbn [cf_heap].
    + intros x w Hx Hw _. destruct (Hsame x) as [-> _]; [by intros ->|done].
    + intros x Hx. apply Hsame. by intros ->.
    + intros x Hx. apply Hsame. intros ->. by apply (Hoth i p).
Qed.

Definition cf_goal (s' : cf_shared) (pc' : cf_pc) (evs : list cf_ev) : Prop :=
  exists q' vh' chain', spec_run cf_spec evs q = Some q' /\ cf_rel tr (k + 1) (Conf s' (<[t:=pc']> (threads c))) q' vh' chain'.

(** A step that moves the program point, with events that do not count. *)
Lemma cf_moves_on pc pc' evs : threads c !! t = Some pc -> cf_private pc' = cf_private pc -> cf_pending pc' = cf_pending pc ->
  cf_leaving pc = None -> cf_leaving pc' = None -> (cf_pushing pc' = true -> cf_pushing pc = true) -> (cf_popping pc' = true -> cf_popping pc = true) ->
  spec_run cf_spec evs q = Some q -> cf_ok tr (shared c) pc' -> cf_goal (shared c) pc' evs.
Proof using HR.
  intros Ht E1 E2 E3 E4 E5 E6 Hev Hok. exists q, vh, chain. split; [done|].
  eapply cf_local; eauto; intros Hs; (split; [|auto]); intros Hp.
  - by apply (cr_pusher _ _ _ _ _ _ HR Hs t _ Ht), E5.
  - by apply (cr_popper _ _ _ _ _ _ HR Hs t _ Ht), E6.
Qed.

Lemma pop_first_facts w : cf_private (pop_first tr w) = None /\ cf_pending (pop_first tr w) = None /\ cf_leaving (pop_first tr w) = None /\
  cf_pushing (pop_first tr w) = false /\ cf_popping (pop_first tr w) = true /\ forall s, cf_ok tr s (pop_first tr w).
Proof using. unfold pop_first. by destruct (consumer tr) eqn:E. Qed.

(** Back to the start of an attempt. *)
Lemma cf_again pc w evs : threads c !! t = Some pc -> cf_private pc = None -> cf_pending pc = None -> cf_leaving pc = None ->
  cf_popping pc = true -> spec_run cf_spec evs q = Some q -> cf_goal (shared c) (pop_first tr w) evs.
Proof using HR.
  intros Ht E1 E2 E3 E4 Hev. destruct (pop_first_facts w) as (F1 & F2 & F3 & F4 & F5 & F6).
  eapply cf_moves_on; eauto; try congruence.
Qed.

Lemma cf_push_sim ch pc s' pc' evs : threads c !! t = Some pc -> cf_push tr ch (shared c) pc = Some (s', pc', evs) -> cf_goal s' pc' evs.
Proof using HR.
  intros Ht Hs. pose proof (cr_ok _ _ _ _ _ _ HR _ _ Ht) as Hok. unfold cf_push in Hs. destruct (shared c) as [h f tag pu po] eqn:Es.
  destruct pc as [|v|n|n old|n|n old| | | | | | | | | |]; try discriminate Hs; cbn [cf_ok cf_heap cf_fifo] in Hok.
  - destruct ch as [| | |a|]; try discriminate Hs. case_decide as Hd; [|done]. destruct Hd as [Hn Ha]. injection Hs as <- <- <-.
    exists q, vh, chain. split; [done|]. pose proof (cf_alloc v a Ht Hn) as H. rewrite Es in H. exact (H Ha).
  - injection Hs as <- <- <-. rewrite <- Es. eapply cf_moves_on; eauto; rewrite ?Es; try done. split_and!; try done; apply Hok.
  - destruct (load_data h n) as [v|] eqn:Ev; [|done]. injection Hs as <- <- <-. destruct Hok as (Hsg & Hl & ->).
    exists (q ++ [v]), vh, (chain ++ [n]). split; [done|]. pose proof (cf_swing _ n v Ht) as H. rewrite Es in H. apply H; auto.
  - destruct (load_data h n) as [v|] eqn:Ev; [|done]. injection Hs as <- <- <-.
    exists (q ++ [v]), vh, (chain ++ [n]). split; [done|]. pose proof (cf_swing _ n v Ht) as H. rewrite Es in H. apply H; auto.
  - destruct (store_next h old n) as [h'|] eqn:Eh; [|done]. injection Hs as <- <- <-.
    exists q, vh, chain. split; [done|]. pose proof (cf_link n old h' Ht) as H. rewrite Es in H. exact (H Eh).
Qed.

Lemma cf_pop_single_sim pc s' pc' evs : threads c !! t = Some pc -> cf_pop_single tr (shared c) pc = Some (s', pc', evs) -> cf_goal s' pc' evs.
Proof using HR.
  intros Ht Hs. pose proof (cr_ok _ _ _ _ _ _ HR _ _ Ht) as Hok. unfold cf_pop_single in Hs. destruct (shared c) as [h f tag pu po] eqn:Es.
  destruct pc as [| | | | | |w|w hd|w hd nx|w hd nx| | | | | |]; try discriminate Hs; cbn [cf_ok cf_heap cf_fifo] in Hok.
  - injection Hs as <- <- <-. rewrite <- Es. eapply cf_moves_on; eauto; rewrite ?Es; done.
  - destruct Hok as (Hsg & ->). destruct (load_next h (f_head f)) as [nx|] eqn:En; [|done]. simpl in Hs.
    case_decide as Hd; injection Hs as <- <- <-; rewrite <- Es; [by eapply cf_again|].
    eapply cf_moves_on; eauto; rewrite ?Es; done.
  - injection Hs as <- <- <-. exists q, vh, chain. split; [done|]. pose proof (cf_move _ _ _ Ht) as H. rewrite Es in H. exact H.
  - destruct Hok as (Hsg & -> & Hl & Hn). destruct (load_data h (f_head f)) as [d|] eqn:Ed; [|done]. injection Hs as <- <- <-.
    pose proof (cf_alone _ Hsg Ht eq_refl) as Halone. pose proof (cr_tag _ _ _ _ _ _ HR). rewrite Es in *.
    destruct (cf_unlink _ (shared c) hd (f_head f) d Ht) as (q' & chain' & Eq & Hrel); rewrite ?Es; try done.
    + by eapply cf_leaving_is.
    + by destruct f.
    + cbn in *. lia.
    + intros i p Hne Hi. by apply cf_leaving_popping, (Halone i).
    + exists q', (f_head f), chain'. split; [rewrite Eq; apply cf_spec_pop|]. rewrite <- Es. exact Hrel.
Qed.

(** The swap of the head and the tag: every snapshot that others hold is stale
    from now on. *)
Lemma cf_swap w hd nx d : k + 1 < 2 ^ 64 -> threads c !! t = Some (CfCas w (cf_tag (shared c)) hd nx d) ->
  cf_goal (CfShared (cf_heap (shared c)) (Fifo nx (f_tail (cf_fifo (shared c)))) (u64 (cf_tag (shared c) + 1)) (cf_pusher (shared c)) (cf_popper (shared c)))
    (CfFree hd d) [EvCPop d].
Proof using HR.
  intros Hk Ht. destruct (cr_ok _ _ _ _ _ _ HR _ _ Ht) as (Hm & _ & Hc). destruct (Hc eq_refl) as (-> & Hl & Hn & Hd).
  pose proof (cf_multi_vh tr HR Hm) as Hvh. pose proof (cr_tag _ _ _ _ _ _ HR) as Htag.
  assert (u64 (cf_tag (shared c) + 1) = cf_tag (shared c) + 1) as -> by (apply Z.mod_small; lia).
  destruct (cf_unlink _ (CfShared (cf_heap (shared c)) (Fifo nx (f_tail (cf_fifo (shared c)))) (cf_tag (shared c) + 1) (cf_pusher (shared c)) (cf_popper (shared c)))
    (f_head (cf_fifo (shared c))) nx d Ht) as (q' & chain' & Eq & Hrel); try done.
  - cbn. lia.
  - intros i p Hne Hi. destruct p; try done. destruct (cr_ok _ _ _ _ _ _ HR _ _ Hi). congruence.
  - intros i p Hne Hi Hp. destruct p; cbn [cf_ok cf_heap cf_fifo cf_tag f_tail f_head] in *; try done; try (destruct Hp; congruence);
      destruct_and? Hp; split_and?; try done; try lia.
  - exists q', nx, chain'. split; [rewrite Eq; apply cf_spec_pop|done].
Qed.

Lemma cf_pop_multiple_sim ch pc s' pc' evs : k + 1 < 2 ^ 64 -> threads c !! t = Some pc ->
  cf_pop_multiple tr ch (shared c) pc = Some (s', pc', evs) -> cf_goal s' pc' evs.
Proof using HR.
  intros Hk Ht Hs. pose proof (cr_ok _ _ _ _ _ _ HR _ _ Ht) as Hok. unfold cf_pop_multiple in Hs. destruct (shared c) as [h f tag pu po] eqn:Es.
  destruct pc as [| | | | | | | | | |w|w tg|w tg hd|w tg hd nx|w tg hd nx d|]; try discriminate Hs; cbn [cf_ok cf_heap cf_fifo cf_tag] in Hok.
  - injection Hs as <- <- <-. rewrite <- Es. eapply cf_moves_on; eauto; rewrite ?Es; done.
  - injection Hs as <- <- <-. rewrite <- Es. eapply cf_moves_on; eauto; rewrite ?Es; try done. by destruct Hok.
  - destruct (wild _ _ _ _) as [nx|] eqn:Ew; [|done]. simpl in Hs. case_decide as Hd; injection Hs as <- <- <-; rewrite <- Es; [by eapply cf_again|].
    destruct Hok as (Hm & Hle & Hc). eapply cf_moves_on; eauto; rewrite ?Es; try done. split_and!; try done. intros ->. cbn [cf_heap cf_fifo cf_tag] in *.
    specialize (Hc eq_refl) as ->. split_and!; try done. pose proof (cf_multi_vh tr HR Hm) as Hvh. rewrite Es in Hvh. cbn in Hvh.
    destruct (cr_heap _ _ _ _ _ _ HR (f_head f)) as [_ Hal]. rewrite Es in Hal. cbn in Hal.
    destruct Hal as [nd Hnd]; [unfold cf_places; rewrite <- Hvh; apply elem_of_app; left; apply (cf_head_in tr HR)|].
    unfold wild in Ew. by rewrite Hnd in Ew.
  - destruct (wild _ _ _ _) as [d|] eqn:Ew; [|done]. injection Hs as <- <- <-. rewrite <- Es.
    destruct Hok as (Hm & Hle & Hc). eapply cf_moves_on; eauto; rewrite ?Es; try done. split_and!; try done. intros ->. cbn [cf_heap cf_fifo cf_tag] in *.
    destruct (Hc eq_refl) as (-> & Hl & Hn). split_and!; try done. pose proof (cf_multi_vh tr HR Hm) as Hvh.
    destruct (cf_next_in tr HR nx) as (rest & Hch & _); rewrite ?Hvh, ?Es; try done.
    destruct (cr_heap _ _ _ _ _ _ HR nx) as [_ Hal]. rewrite Es in Hal. cbn in Hal.
    destruct Hal as [nd Hnd]; [unfold cf_places; rewrite Hch; set_solver|]. unfold wild in Ew. by rewrite Hnd in Ew.
  - unfold tagged_compare_and_swap in Hs. case_decide as Hd; injection Hs as <- <- <-; [|rewrite <- Es; by eapply cf_again].
    injection Hd as <- <-. pose proof (cf_swap w (f_head f) nx d Hk) as H. rewrite Es in H. exact (H Ht).
Qed.

Lemma cf_deallocate_sim pc s' pc' evs : threads c !! t = Some pc -> cf_deallocate (shared c) pc = Some (s', pc', evs) -> cf_goal s' pc' evs.
Proof using HR.
  intros Ht Hs. unfold cf_deallocate in Hs. destruct (shared c) as [h f tag pu po] eqn:Es. destruct pc; try discriminate Hs.
  destruct (h !! oldHead) as [nd|] eqn:E; [|done]. injection Hs as <- <- <-. exists q, vh, chain. split; [done|].
  pose proof (cf_frees oldHead dest nd Ht) as H. rewrite Es in H. exact (H E).
Qed.

Lemma cf_call_sim ch s' pc' evs : threads c !! t = Some CfIdle -> cf_tstep tr t ch (shared c) CfIdle = Some (s', pc', evs) -> cf_goal s' pc' evs.
Proof using HR.
  intros Ht Hs. unfold cf_tstep in Hs. destruct (shared c) as [h f tag pu po] eqn:Es. destruct ch; try discriminate Hs.
  - case_decide as Hd; [done|]. injection Hs as <- <- <-. exists q, vh, chain. split; [done|].
    eapply cf_local; eauto; rewrite ?Es; try done; intros Hsg; (split; [done|]); cbn; [|auto].
    right. right. destruct pu; [|done]. exfalso. by apply Hd.
  - case_decide as Hd; [done|]. injection Hs as <- <- <-. exists q, vh, chain. split; [done|].
    destruct (pop_first_facts (spin_start SPIN_COUNT, spin_start SPIN_COUNT)) as (F1 & F2 & F3 & F4 & F5 & F6).
    eapply cf_local; eauto; rewrite ?Es, ?F1, ?F2, ?F4; try done; intros Hsg; (split; [done|]); cbn; [auto|].
    right. right. destruct po; [|done]. exfalso. by apply Hd.
Qed.
End cf_moves.

Lemma cf_simulation tr k lbl c c' evs q vh chain : k + 1 < 2 ^ 64 -> cf_rel tr k c q vh chain -> cf_step tr lbl c = Some (c', evs) ->
  exists q' vh' chain', spec_run cf_spec evs q = Some q' /\ cf_rel tr (k + 1) c' q' vh' chain'.
Proof.
  destruct lbl as [t ch]. intros Hk HR Hstep. apply conf_step_inv in Hstep as (pc & s' & pc' & Ht & Hs & ->).
  destruct (decide (cf_pushing pc = true)) as [Hpu|Hpu].
  - eapply (cf_push_sim tr t HR ch pc); [done|]. unfold cf_tstep in Hs. destruct (shared c), pc, ch; try discriminate Hpu; try discriminate Hs; exact Hs.
  - destruct pc as [| | | | | | | | | | | | | | |]; try (destruct (Hpu eq_refl)).
    1: by eapply cf_call_sim.
    all: unfold cf_tstep in Hs; destruct (shared c) eqn:Es; rewrite <- Es in Hs; destruct ch; try discriminate Hs;
      first [by eapply (cf_pop_single_sim tr t HR)|by eapply (cf_pop_multiple_sim tr t HR)|by eapply (cf_deallocate_sim tr t HR)].
Qed.

Lemma cf_init_rel tr n : cf_rel tr 0 (cf_init n) [] 1 [1].
Proof.
  assert (cf_places (cf_init n) [1] = [1]) as Hp by (unfold cf_places; cbn [cf_init threads]; by rewrite omap_replicate_None).
  split; rewrite ?Hp; cbn [cf_init shared threads cf_heap cf_fifo cf_tag f_tail f_head]; try done.
  - rewrite omap_replicate_None by done. split; try done; try (unfold NULL; set_solver); try constructor; try constructor; try set_solver.
  - by constructor; [set_solver|constructor].
  - intros a. rewrite lookup_insert, list_elem_of_singleton. case_decide as E; [subst; split; [done|by eexists]|].
    rewrite lookup_empty. split; [by intros []|congruence].
  - unfold NULL. set_solver.
  - by rewrite omap_replicate_None.
  - by intros _ t pc [-> _]%lookup_replicate.
  - by intros _ t pc [-> _]%lookup_replicate.
  - by intros t pc [-> _]%lookup_replicate.
Qed.

Lemma cf_run_rel tr n ls c evs : Z.of_nat (length ls) < 2 ^ 64 -> run (cf_step tr) ls (cf_init n) = Some (c, evs) ->
  exists k q vh chain, spec_run cf_spec evs [] = Some q /\ cf_rel tr k c q vh chain.
Proof.
  intros Hb Hrun.
  destruct (run_simulation (cf_step tr) cf_spec (2 ^ 64) (fun k c q => exists vh chain, cf_rel tr k c q vh chain))
    with (ls := ls) (n := 0) (s := cf_init n) (s' := c) (evs := evs) (a := @nil Z)
    as (q & Hq & vh & chain & HR); eauto 10 using cf_init_rel.
  intros k l s s' e a Hk (vh & chain & HR) Hs. destruct (cf_simulation tr k l s s' e a vh chain Hk HR Hs) as (q' & vh' & chain' & ? & ?). eauto.
Qed.

(** ** Properties *)

(** C13: First in, first out, for each of the four combinations of producers and
    consumers.  In every interleaving values come out in the order in which the
    pushes swung the tail, each once, although with many consumers a pop may read
    freed memory, which yields anything, and freed nodes are allocated again: a pop
    that read too late fails to swap head and tag.  The bound keeps the 64-bit tag
    from wrapping around. *)
Theorem cpp_fifo_order tr n ls c evs : Z.of_nat (length ls) < 2 ^ 64 ->
  run (cf_step tr) ls (cf_init n) = Some (c, evs) -> exists q, spec_run cf_spec evs [] = Some q.
Proof. intros Hb Hrun. destruct (cf_run_rel _ _ _ _ _ Hb Hrun) as (k & q & vh & chain & Hs & _). by exists q. Qed.

(** No node leaks and none is freed twice.  When no operation is under way,
    the allocated nodes are one dummy and one node per value in the queue, and the
    head has just these behind it. *)
Theorem cpp_fifo_no_leak tr n ls c evs q : Z.of_nat (length ls) < 2 ^ 64 ->
  run (cf_step tr) ls (cf_init n) = Some (c, evs) -> spec_run cf_spec evs [] = Some q ->
  (forall t pc, threads c !! t = Some pc -> pc = CfIdle) ->
  size (cf_heap (shared c)) = S (length q) /\
  exists rest, (forall a, is_Some (cf_heap (shared c) !! a) <-> a ∈ f_head (cf_fifo (shared c)) :: rest) /\
    Forall2 (fun a d => load_data (cf_heap (shared c)) a = Some d) rest q.
Proof.
  intros Hb Hrun Hq Hidle. destruct (cf_run_rel _ _ _ _ _ Hb Hrun) as (k & q' & vh & chain & Hq' & HR).
  rewrite Hq in Hq'. injection Hq' as <-.
  assert (cf_places c chain = chain) as Hp.
  { unfold cf_places. rewrite omap_all_none, app_nil_r; [done|]. by intros i x ->%Hidle. }
  pose proof (cr_nd _ _ _ _ _ _ HR) as Hnd. pose proof (cr_heap _ _ _ _ _ _ HR) as Hh. pose proof (cr_data _ _ _ _ _ _ HR) as Hd.
  rewrite Hp in Hnd. setoid_rewrite Hp in Hh. pose proof (ch_head _ _ _ _ (cr_chain _ _ _ _ _ _ HR)) as H0.
  pose proof (cf_vh_head tr HR ltac:(by intros i p ->%Hidle)) as Hvh. destruct chain as [|a rest]; [done|]. injection H0 as ->.
  rewrite (NoDup_size _ _ Hnd Hh). cbn [f_head tail] in *. rewrite <- Hvh. split; [|by exists rest]. cbn [length]. by rewrite (Forall2_length _ _ _ Hd).
Qed.

(** A pop that reads freed memory next. *)
Definition cf_stale (tr : fifo_traits) (s : cf_shared) (pc : cf_pc) : Prop :=
  consumer tr = CMultiple /\ exists w tg hd, tg < cf_tag s /\
    ((pc = CfNext w tg hd /\ cf_heap s !! hd = None) \/ exists nx, pc = CfData w tg hd nx /\ cf_heap s !! nx = None).

Lemma load_next_some h a nd : h !! a = Some nd -> load_next h a = Some (nd_next nd).
Proof. unfold load_next. by intros ->. Qed.
Lemma load_data_some h a nd : h !! a = Some nd -> load_data h a = Some (nd_data nd).
Proof. unfold load_data. by intros ->. Qed.

Lemma cf_alloced tr k c q vh chain a : cf_rel tr k c q vh chain -> a ∈ cf_places c chain -> exists nd, cf_heap (shared c) !! a = Some nd.
Proof. intros HR Ha. apply (cr_heap _ _ _ _ _ _ HR) in Ha as [nd ?]. by exists nd. Qed.

Lemma cf_next_alloced tr k c q vh chain nx : cf_rel tr k c q vh chain -> load_next (cf_heap (shared c)) vh = Some nx -> nx <> NULL ->
  exists nd, cf_heap (shared c) !! nx = Some nd.
Proof. intros HR Hl Hn. destruct (cf_next_in tr HR nx Hl Hn) as (rest & Ec & _). eapply cf_alloced; [done|]. unfold cf_places. rewrite Ec. set_solver. Qed.

Ltac cf_go := left; eexists _, _, _; split; [done|set_solver].

Lemma cf_can_go tr k c q vh chain t pc : cf_rel tr k c q vh chain -> threads c !! t = Some pc -> pc <> CfIdle -> (forall v, pc <> CfAlloc v) ->
  (exists s' pc' e, cf_tstep tr t CfGo (shared c) pc = Some (s', pc', e) /\
    (EvCFailure ∈ e -> exists w tg hd nx d, pc = CfCas w tg hd nx d /\ tg < cf_tag (shared c))) \/ cf_stale tr (shared c) pc.
Proof.
  intros HR Ht Hne Hna. pose proof (cr_ok _ _ _ _ _ _ HR _ _ Ht) as Hok.
  assert (forall x, cf_private pc = Some x -> exists nd, cf_heap (shared c) !! x = Some nd) as Hpr
    by (intros x Hx; by destruct (cf_private_out tr t pc HR Ht x Hx) as (_ & [nd ?] & _); exists nd).
  assert (exists nd, cf_heap (shared c) !! vh = Some nd) as Hvh
    by (eapply cf_alloced; [done|]; unfold cf_places; apply elem_of_app; left; apply (cf_head_in tr HR)).
  destruct (shared c) as [h f tag pu po] eqn:Es.
  destruct pc as [|v|n|n old|n|n old|w|w hd|w hd nx|w hd nx|w|w tg|w tg hd|w tg hd nx|w tg hd nx d|hd d]; try done;
    cbn [cf_tstep cf_push cf_pop_single cf_pop_multiple cf_deallocate cf_ok cf_heap cf_fifo cf_tag cf_private] in *.
  - by destruct (Hna v).
  - cf_go.
  - destruct (Hpr n eq_refl) as [nd Hnd]. rewrite (load_data_some _ _ _ Hnd). cf_go.
  - destruct (Hpr n eq_refl) as [nd Hnd]. rewrite (load_data_some _ _ _ Hnd). cf_go.
  - destruct (ch_pend _ _ _ _ (cr_chain _ _ _ _ _ _ HR) old n) as (i & Hi & _).
    { apply list_elem_of_omap. eexists. by split; [eapply list_elem_of_lookup_2|]. }
    destruct (cf_alloced _ _ _ _ _ _ old HR) as [nd Hnd]; [unfold cf_places; apply elem_of_app; left; by eapply list_elem_of_lookup_2|].
    rewrite Es in Hnd. cbn in Hnd. unfold store_next. rewrite Hnd. cf_go.
  - cf_go.
  - destruct Hok as (Hs & ->). pose proof (cf_single_vh tr t HR _ Hs Ht eq_refl eq_refl) as E. rewrite Es in E. cbn in E. subst vh.
    destruct Hvh as [nd Hnd]. rewrite (load_next_some _ _ _ Hnd). cbn. case_decide; cf_go.
  - cf_go.
  - destruct Hok as (Hs & -> & Hl & Hn). pose proof (cf_leaving_is tr HR t w hd (f_head f) Hs Ht) as ->.
    destruct (cf_next_alloced _ _ _ _ _ _ (f_head f) HR) as [nd Hnd]; rewrite ?Es; try done. rewrite Es in Hnd. cbn in Hnd. rewrite (load_data_some _ _ _ Hnd). cf_go.
  - cf_go.
  - cf_go.
  - destruct Hok as (Hm & Hle & Hc). unfold wild. destruct (h !! hd) as [nd|] eqn:Eh.
    + rewrite (load_next_some _ _ _ Eh). cbn. case_decide; cf_go.
    + right. split; [done|]. exists w, tg, hd. split; [|by left]. cbn. destruct (decide (tg = tag)) as [->|]; [|lia].
      rewrite (Hc eq_refl) in Eh. pose proof (cf_multi_vh tr HR Hm) as E. rewrite Es in E. cbn in E. subst vh.
      destruct Hvh as [? ?]. congruence.
  - destruct Hok as (Hm & Hle & Hc). unfold wild. destruct (h !! nx) as [nd|] eqn:Eh.
    + rewrite (load_data_some _ _ _ Eh). cf_go.
    + right. split; [done|]. exists w, tg, hd. split; [|right; by exists nx]. cbn. destruct (decide (tg = tag)) as [->|]; [|lia].
      destruct (Hc eq_refl) as (-> & Hl & Hn). pose proof (cf_multi_vh tr HR Hm) as E.
      destruct (cf_next_alloced _ _ _ _ _ _ nx HR) as [nd Hnd]; rewrite ?E, ?Es; try done. rewrite Es in Hnd. cbn in Hnd. congruence.
  - destruct Hok as (Hm & Hle & Hc). unfold tagged_compare_and_swap. case_decide as Hd; [cf_go|]. left. eexists _, _, _. split; [done|]. intros _. exists w, tg, hd, nx, d.
    split; [done|]. destruct (decide (tg = tag)) as [->|]; [|lia]. destruct Hd. f_equal. symmetry. by apply Hc.
  - destruct (Hpr hd eq_refl) as [nd Hnd]. rewrite Hnd. cf_go.
Qed.

(** Accesses to freed memory.  A push, a pop of a single consumer and every
    deallocation only touch allocated nodes; a read of freed memory can only occur
    in a pop of many consumers whose snapshot is stale, because another pop has
    succeeded since.  Nothing else blocks, and a failed swap means the same. *)
Theorem cpp_fifo_memory tr n ls c evs t pc : Z.of_nat (length ls) < 2 ^ 64 ->
  run (cf_step tr) ls (cf_init n) = Some (c, evs) -> threads c !! t = Some pc -> pc <> CfIdle -> (forall v, pc <> CfAlloc v) ->
  (exists c' e, cf_step tr (t, CfGo) c = Some (c', e) /\
     (EvCFailure ∈ e -> exists w tg hd nx d, pc = CfCas w tg hd nx d /\ tg < cf_tag (shared c))) \/
  (consumer tr = CMultiple /\ exists w tg hd, tg < cf_tag (shared c) /\
     ((pc = CfNext w tg hd /\ cf_heap (shared c) !! hd = None) \/ exists nx, pc = CfData w tg hd nx /\ cf_heap (shared c) !! nx = None)).
Proof.
  intros Hb Hrun Ht Hne Hna. destruct (cf_run_rel _ _ _ _ _ Hb Hrun) as (k & q & vh & chain & _ & HR).
  assert ((exists s' pc' e, cf_tstep tr t CfGo (shared c) pc = Some (s', pc', e) /\
    (EvCFailure ∈ e -> exists w tg hd nx d, pc = CfCas w tg hd nx d /\ tg < cf_tag (shared c))) \/ cf_stale tr (shared c) pc)
    as [(s' & pc' & e & Hs & Hf)|(Hm & w & tg & hd & H)]; [by eapply cf_can_go| |right; split; [done|]; by exists w, tg, hd].
  left. exists (Conf s' (<[t:=pc']> (threads c))), e. split; [|done]. unfold cf_step, conf_step; cbn [fst snd]. by rewrite Ht, Hs.
Qed.

(** [m] calls of [wait] on a counter: the final counter and the calls of the next
    strategy. *)
Fixpoint spin_waits (Count : Z) (m : nat) (counter : Z) : Z * nat :=
  match m with
  | O => (counter, O)
  | S m => let '(counter, b) := spin_wait Count counter in let '(counter, calls) := spin_waits Count m counter in
           (counter, (calls + if b then 1 else 0)%nat)
  end.

Lemma spin_waits_from Count m : 0 < Count < 2 ^ 64 -> forall counter, 0 < counter <= Count ->
  Z.of_nat (spin_waits Count m counter).2 = (Z.of_nat m + (Count - counter)) / Count.
Proof.
  intros HC. induction m as [|m IH]; intros counter Hc; cbn [spin_waits].
  - symmetry. apply Z.div_small. lia.
  - unfold spin_wait. assert (u64 (counter - 1) = counter - 1) as -> by (apply Z.mod_small; lia).
    destruct (Z.eqb_spec (counter - 1) 0) as [E|E].
    + specialize (IH Count ltac:(lia)). destruct (spin_waits Count m Count) as [c' calls]. cbn [snd] in *. assert (counter = 1) as -> by lia.
      replace (Z.of_nat (S m) + (Count - 1)) with (Z.of_nat m + (Count - Count) + 1 * Count) by lia. rewrite Z.div_add by lia. lia.
    + specialize (IH (counter - 1) ltac:(lia)). destruct (spin_waits Count m (counter - 1)) as [c' calls]. cbn [snd] in *.
      replace (Z.of_nat (S m) + (Count - counter)) with (Z.of_nat m + (Count - (counter - 1))) by lia. lia.
Qed.

(** A spinning strategy calls the next one at every [Count]-th wait. *)
Theorem spin_calls_next Count m : 0 < Count < 2 ^ 64 ->
  Z.of_nat (spin_waits Count m (spin_start Count)).2 = Z.of_nat m / Count.
Proof. intros HC. unfold spin_start. rewrite spin_waits_from by lia. f_equal. lia. Qed.

Lemma spin_calls_next_witness : Z.of_nat (spin_waits SPIN_COUNT 300 (spin_start SPIN_COUNT)).2 = 2.
Proof. exact (spin_calls_next SPIN_COUNT 300 ltac:(unfold SPIN_COUNT; lia)). Defined.

(** ** Runs *)

Definition cf_go_n (t k : nat) : list (nat * cf_choice) := replicate k (t, CfGo).
Definition mpush (t : nat) (v a : Z) : list (nat * cf_choice) := [(t, CfCallPush v); (t, CfFresh a)] ++ cf_go_n t 2.
Definition mpop (t : nat) : list (nat * cf_choice) := (t, CfCallPop) :: cf_go_n t 6.
Definition mpmc : fifo_traits := FifoTraits CMultiple CMultiple.
Definition spsc : fifo_traits := FifoTraits CSingle CSingle.

(** Thread 1 has a snapshot of the dummy 1, which thread 0 pops and frees; thread 1
    then reads 99 where its successor was, and fails; the address is allocated
    again before its next attempt. *)
Definition cf_demo_prefix : list (nat * cf_choice) :=
  mpush 0 71 10 ++ mpush 0 72 11 ++ (1%nat, CfCallPop) :: cf_go_n 1 2 ++ mpop 0.
Definition cf_demo : list (nat * cf_choice) :=
  cf_demo_prefix ++ [(1%nat, CfGarbage 99); (1%nat, CfGarbage 0)] ++ cf_go_n 1 1 ++ mpush 2 73 1 ++ cf_go_n 1 6.
Definition cf_demo_evs : list cf_ev := [EvCPush 71; EvCPush 72; EvCPop 71; EvCFailure; EvCPush 73; EvCPop 72].

Lemma cpp_fifo_order_witness : exists q, spec_run cf_spec cf_demo_evs [] = Some q.
Proof. eapply (cpp_fifo_order mpmc 3 cf_demo); vm_compute; reflexivity. Defined.

Lemma cpp_fifo_no_leak_witness : exists c : cf_conf, run (cf_step mpmc) cf_demo (cf_init 3) = Some (c, cf_demo_evs) /\
  size (cf_heap (shared c)) = 2%nat /\
  exists rest, (forall a, is_Some (cf_heap (shared c) !! a) <-> a ∈ f_head (cf_fifo (shared c)) :: rest) /\
    Forall2 (fun a d => load_data (cf_heap (shared c)) a = Some d) rest [73].
Proof.
  eexists. split; [vm_compute; reflexivity|]. eapply (cpp_fifo_no_leak mpmc 3 cf_demo _ cf_demo_evs [73]); try (vm_compute; reflexivity).
  intros [|[|[|t]]] pc; vm_compute; congruence.
Defined.

(** A pop dereferences a pointer read from freed memory: thread 1 has read 99 in
    the freed dummy and is about to read the data of a node there. *)
Lemma cpp_fifo_memory_witness : exists c : cf_conf,
  run (cf_step mpmc) (cf_demo_prefix ++ [(1%nat, CfGarbage 99)]) (cf_init 3) = Some (c, [EvCPush 71; EvCPush 72; EvCPop 71]) /\
  threads c !! 1%nat = Some (CfData (128, 128) 0 1 99) /\ cf_heap (shared c) !! 99 = None /\
  ((exists c' e, cf_step mpmc (1%nat, CfGo) c = Some (c', e) /\
     (EvCFailure ∈ e -> exists w tg hd nx d, CfData (128, 128) 0 1 99 = CfCas w tg hd nx d /\ tg < cf_tag (shared c))) \/
   (consumer mpmc = CMultiple /\ exists w tg hd, tg < cf_tag (shared c) /\
     ((CfData (128, 128) 0 1 99 = CfNext w tg hd /\ cf_heap (shared c) !! hd = None) \/
      exists nx, CfData (128, 128) 0 1 99 = CfData w tg hd nx /\ cf_heap (shared c) !! nx = None))).
Proof.
  eexists. split; [vm_compute; reflexivity|]. split; [vm_compute; reflexivity|]. split; [vm_compute; reflexivity|].
  eapply (cpp_fifo_memory mpmc 3 (cf_demo_prefix ++ [(1%nat, CfGarbage 99)])); try (vm_compute; reflexivity); discriminate.
Defined.

(** One producer and one consumer at the same time. *)
Example spsc_run : exists c : cf_conf,
  run (cf_step spsc) ([(0%nat, CfCallPush 5); (0%nat, CfFresh 10)] ++ cf_go_n 0 1 ++ (1%nat, CfCallPop) :: cf_go_n 1 2 ++ cf_go_n 0 2 ++ cf_go_n 1 5) (cf_init 2) =
    Some (c, [EvCEmpty; EvCPush 5; EvCPop 5]) /\ dom (cf_heap (shared c)) = {[10]}.
Proof. eexists. split; vm_compute; reflexivity. Qed.
