(* ===== verification/CppChannel.v ===== *)
(** * Event channels of the C++ binding ([cpp/channel.hpp])

    An event lives inside an [event_wrapper], which is also a message node of the
    unbounded channels.  The queues hand nodes on: the node that comes out with an
    event is the one the previous event was in, so an event and the wrapper it
    points to part company as soon as it has been received.  The model keeps one
    heap of blocks with both parts, a list of channels, the signal they share, and
    the receiving fiber (fiber 0) on one channel or on a [ChannelSelector].

    A push is cut at the exchange of the tail and at the link; a pop, by the one
    receiver, is one step.  The class [EventQueue] is the interface of the two
    channel templates to their queue. *)

From S2P Require Import Prelude MpscFifo SpscFifo.

(** ** Queues of messages *)

(** The pop as a function: the node, or NULL. *)
Definition pop_ref (h : gmap Z node) (f : mpsc_fifo) : option (Z * gmap Z node * mpsc_fifo) :=
  nx ← load_next h (f_head f);
  if decide (nx = NULL) then Some (NULL, h, f)
  else d ← load_data h nx; h' ← store_data h (f_head f) d; Some (f_head f, h', Fifo nx (f_tail f)).

Definition xchg_ref (h : gmap Z node) (f : mpsc_fifo) (n : Z) : option (gmap Z node * mpsc_fifo * Z) :=
  h' ← store_next h n NULL; Some (h', Fifo (f_head f) n, f_tail f).

Class EventQueue := {
  eq_xchg : gmap Z node -> mpsc_fifo -> Z -> option (gmap Z node * mpsc_fifo * Z);
  eq_link : gmap Z node -> mpsc_fifo -> Z -> Z -> option (gmap Z node);
  eq_trypop : gmap Z node -> mpsc_fifo -> option (Z * gmap Z node * mpsc_fifo);
  eq_may_send : nat -> nat -> bool;           (* fiber, channel *)
  eq_xchg_law h f n : eq_xchg h f n = xchg_ref h f n;
  eq_link_law h f p n : eq_link h f p n = store_next h p n;
  eq_trypop_law h f : eq_trypop h f = pop_ref h f
}.

(** [UnboundedMultiProducerChannel]: over [mpsc_fifo.h]. *)
Definition mp_xchg (h : gmap Z node) (f : mpsc_fifo) (n : Z) : option (gmap Z node * mpsc_fifo * Z) :=
  r1 ← mpsc_fifo_push (MShared h f ∅ None) (MPushInit n);
  r2 ← mpsc_fifo_push r1.1.1 r1.1.2;
  match r2.1.2 with MPushLink prev _ => Some (m_heap r2.1.1, m_fifo r2.1.1, prev) | _ => None end.
Definition mp_link (h : gmap Z node) (f : mpsc_fifo) (prev n : Z) : option (gmap Z node) :=
  r ← mpsc_fifo_push (MShared h f ∅ None) (MPushLink prev n); Some (m_heap r.1.1).
Definition mp_trypop (h : gmap Z node) (f : mpsc_fifo) : option (Z * gmap Z node * mpsc_fifo) :=
  r1 ← mpsc_fifo_trypop (MShared h f ∅ None) MPopHead;
  r2 ← mpsc_fifo_trypop r1.1.1 r1.1.2;
  match r2.1.2 with
  | MPopDone out => Some (out, h, f)
  | pc =>
      r3 ← mpsc_fifo_trypop r2.1.1 pc; r4 ← mpsc_fifo_trypop r3.1.1 r3.1.2; r5 ← mpsc_fifo_trypop r4.1.1 r4.1.2;
      match r5.1.2 with MPopDone out => Some (out, m_heap r5.1.1, m_fifo r5.1.1) | _ => None end
  end.

Definition UnboundedMultiProducerChannel : EventQueue.
Proof.
  refine (Build_EventQueue mp_xchg mp_link mp_trypop (fun _ _ => true) _ _ _).
  - intros h f n. unfold mp_xchg, xchg_ref. cbn. destruct (store_next h n NULL) as [h'|] eqn:E; [|done]. cbn.
    apply store_next_Some in E as (x & Hx & ->). unfold load_data. by rewrite lookup_insert_eq.
  - intros h f p n. unfold mp_link. cbn. by destruct (store_next h p n).
  - intros h f. unfold mp_trypop, pop_ref. cbn. destruct (load_next h (f_head f)) as [nx|]; [|done]. cbn. case_decide; [by subst|]. cbn.
    destruct (load_data h nx); [|done]. cbn. by destruct (store_data h (f_head f) _).
Defined.

(** [UnboundedSingleProducerChannel]: over [spsc_fifo.h]; fiber [S i] sends on
    channel [i]. *)
Definition sp_xchg (h : gmap Z node) (f : mpsc_fifo) (n : Z) : option (gmap Z node * mpsc_fifo * Z) :=
  r1 ← spsc_fifo_push (SpShared (MShared h f ∅ None) None) (SpPushInit n);
  r2 ← spsc_fifo_push r1.1.1 r1.1.2;
  r3 ← spsc_fifo_push r2.1.1 r2.1.2;
  match r3.1.2 with SpPushLink prev _ => Some (m_heap (sp_fifo r3.1.1), m_fifo (sp_fifo r3.1.1), prev) | _ => None end.
Definition sp_link (h : gmap Z node) (f : mpsc_fifo) (prev n : Z) : option (gmap Z node) :=
  r ← spsc_fifo_push (SpShared (MShared h f ∅ None) None) (SpPushLink prev n); Some (m_heap (sp_fifo r.1.1)).
Definition sp_trypop (h : gmap Z node) (f : mpsc_fifo) : option (Z * gmap Z node * mpsc_fifo) :=
  r1 ← spsc_fifo_trypop (SpShared (MShared h f ∅ None) None) SpPopHead;
  r2 ← spsc_fifo_trypop r1.1.1 r1.1.2;
  match r2.1.2 with
  | SpPopDone out => Some (out, h, f)
  | pc =>
      r3 ← spsc_fifo_trypop r2.1.1 pc; r4 ← spsc_fifo_trypop r3.1.1 r3.1.2; r5 ← spsc_fifo_trypop r4.1.1 r4.1.2;
      match r5.1.2 with SpPopDone out => Some (out, m_heap (sp_fifo r5.1.1), m_fifo (sp_fifo r5.1.1)) | _ => None end
  end.

Definition UnboundedSingleProducerChannel : EventQueue.
Proof.
  refine (Build_EventQueue sp_xchg sp_link sp_trypop (fun t i => Nat.eqb t (S i)) _ _ _).
  - intros h f n. unfold sp_xchg, xchg_ref. cbn. destruct (store_next h n NULL) as [h'|] eqn:E; [|done]. cbn.
    apply store_next_Some in E as (x & Hx & ->). unfold load_data. by rewrite lookup_insert_eq.
  - intros h f p n. unfold sp_link. cbn. by destruct (store_next h p n).
  - intros h f. unfold sp_trypop, pop_ref. cbn. destruct (load_next h (f_head f)) as [nx|]; [|done]. cbn. case_decide; [by subst|]. cbn.
    destruct (load_data h nx); [|done]. cbn. by destruct (store_data h (f_head f) _).
Defined.

(** ** State *)

(** An event; its address is that of the wrapper it was constructed in. *)
Record event := Event { ev_type : Z; ev_wrapper : Z; ev_payload : Z }.

(** [ec_heap]: the node part of every block; [ec_events]: the event part.  Three
    fields are never read by the operations: [ec_held], the events in the hands of
    the callers, [ec_live], those not freed, and [ec_received], the live ones that
    have been received. *)
Record ec_shared := EC {
  ec_heap : gmap Z node;
  ec_events : gmap Z event;
  ec_chans : list mpsc_fifo;
  ec_signal : option bool;
  ec_held : gset Z;
  ec_live : gset Z;
  ec_received : gset Z
}.

(** [sel]: a [ChannelSelector] at channel [i], or channel [i] alone; [blk]:
    [receive] or [tryReceive]. *)
Inductive ec_pc :=
| EcIdle
| EcSend (i : nat) (e : Z)
| EcLink (i : nat) (e prev w : Z)
| EcRaise
| EcTry (sel blk : bool) (i : nat)
| EcWait (sel : bool) (i : nat).

Inductive ec_choice :=
| EcAllocEvent (type a : Z) | EcFreeEvent (e : Z) | EcSetPayload (e p : Z) | EcCallSend (i : nat) (e : Z)
| EcCallReceive (sel blk : bool) (i : nat) | EcGo.

Inductive ec_ev := EvSend (i : nat) (e type payload : Z) | EvReceived (i : nat) (e type payload : Z) | EvNone.

(** What callers are held to.  [Careful]: an event is freed only when no other
    live event lives in the wrapper it has.  [Prompt]: an event that has been
    received is freed before the next receive, and not sent again.  [Careless]:
    nothing. *)
Inductive client := Careless | Careful | Prompt.
#[global] Instance client_eq_dec : EqDecision client.
Proof. solve_decision. Defined.

Section channel.
Context `{EventQueue} (cl : client).

(** ** Events *)

(** [allocEvent], at the address [a] that [malloc] returns. *)
Definition allocEvent (type a : Z) (s : ec_shared) : option ec_shared :=
  let '(EC h evs cs sg held live rc) := s in
  if decide (a <> NULL /\ h !! a = None)
  then Some (EC (<[a:=Node a NULL]> h) (<[a:=Event type a 0]> evs) cs sg ({[a]} ∪ held) ({[a]} ∪ live) rc)
  else None.

Definition freeEvent (e : Z) (s : ec_shared) : option ec_shared :=
  let '(EC h evs cs sg held live rc) := s in
  ev ← evs !! e; _ ← h !! ev_wrapper ev;
  Some (EC (delete (ev_wrapper ev) h) (delete (ev_wrapper ev) evs) cs sg (held ∖ {[e]}) (live ∖ {[e]}) (rc ∖ {[e]})).

Definition setPayload (e p : Z) (s : ec_shared) : option ec_shared :=
  let '(EC h evs cs sg held live rc) := s in
  ev ← evs !! e; Some (EC h (<[e:=Event (ev_type ev) (ev_wrapper ev) p]> evs) cs sg held live rc).

(** ** Channels *)

Definition channel_send (s : ec_shared) (pc : ec_pc) : option (ec_shared * ec_pc * list ec_ev) :=
  let '(EC h evs cs sg held live rc) := s in
  match pc with
  | EcSend i e =>
      ev ← evs !! e; f ← cs !! i;
      r ← eq_xchg h f (ev_wrapper ev);
      Some (EC r.1.1 evs (<[i:=r.1.2]> cs) sg held live rc, EcLink i e r.2 (ev_wrapper ev), [EvSend i e (ev_type ev) (ev_payload ev)])
  | EcLink i e prev w =>
      f ← cs !! i; h' ← eq_link h f prev w;
      Some (EC h' evs cs sg held live rc, match sg with Some _ => EcRaise | None => EcIdle end, [])
  | EcRaise => Some (EC h evs cs (Some true) held live rc, EcIdle, [])
  | _ => None
  end.

(** [tryReceive] of channel [i]: the event, with the new state, or nothing. *)
Definition tryReceive (s : ec_shared) (i : nat) : option (ec_shared * option (Z * event)) :=
  let '(EC h evs cs sg held live rc) := s in
  f ← cs !! i;
  r ← eq_trypop h f;
  if decide (r.1.1 = NULL) then Some (s, None)
  else e ← load_data r.1.2 r.1.1;
       ev ← evs !! e;
       let ev' := Event (ev_type ev) r.1.1 (ev_payload ev) in
       Some (EC r.1.2 (<[e:=ev']> evs) (<[i:=r.2]> cs) sg ({[e]} ∪ held) live ({[e]} ∪ rc), Some (e, ev')).

(** [receive] and [tryReceive] of a channel, and of a [ChannelSelector]. *)
Definition receive (s : ec_shared) (pc : ec_pc) : option (ec_shared * ec_pc * list ec_ev) :=
  match pc with
  | EcTry sel blk i =>
      '(s', r) ← tryReceive s i;
      match r with
      | Some (e, ev) => Some (s', EcIdle, [EvReceived i e (ev_type ev) (ev_payload ev)])
      | None =>
          if decide (sel = true /\ S i < length (ec_chans s))%nat then Some (s', EcTry sel blk (S i), [])
          else if blk then Some (s', match ec_signal s with Some _ => EcWait sel i | None => EcTry sel blk (if sel then 0%nat else i) end, [])
          else Some (s', EcIdle, [EvNone])
      end
  | EcWait sel i =>
      match ec_signal s with
      | Some true => Some (EC (ec_heap s) (ec_events s) (ec_chans s) (Some false) (ec_held s) (ec_live s) (ec_received s),
                           EcTry sel true (if sel then 0%nat else i), [])
      | _ => None
      end
  | _ => None
  end.

(** The constructor of a channel: [std::runtime_error] when [calloc] of the dummy
    fails. *)
Definition channel_construct (dummy : option Z) (s : ec_shared) : option ec_shared :=
  let '(EC h evs cs sg held live rc) := s in
  match dummy with
  | Some a => let '(h', f) := mpsc_fifo_init h a in Some (EC h' evs (cs ++ [f]) sg held live rc)
  | None => None
  end.

(** The destructor of channel [i]: its nodes are freed, with the events in them. *)
Definition channel_destroy (fuel : nat) (i : nat) (s : ec_shared) : option (gmap Z node * gmap Z event) :=
  f ← ec_chans s !! i;
  h ← mpsc_fifo_destroy fuel (ec_heap s) (f_head f);
  Some (h, filter (fun x => is_Some (h !! x.1)) (ec_events s)).

Definition may_free (s : ec_shared) (e : Z) : bool :=
  match cl, ec_events s !! e with Careful, Some ev => bool_decide (ev_wrapper ev ∉ ec_live s ∖ {[e]}) | _, _ => true end.
Definition may_send (s : ec_shared) (e : Z) : bool := match cl with Prompt => bool_decide (e ∉ ec_received s) | _ => true end.
Definition may_receive (s : ec_shared) : bool := match cl with Prompt => bool_decide (ec_received s = ∅) | _ => true end.

Definition drop_held (e : Z) (s : ec_shared) : ec_shared :=
  EC (ec_heap s) (ec_events s) (ec_chans s) (ec_signal s) (ec_held s ∖ {[e]}) (ec_live s) (ec_received s).

(** Fiber 0 is the receiver; callers use events they hold. *)
Definition ec_tstep (t : nat) (ch : ec_choice) (s : ec_shared) (pc : ec_pc) : option (ec_shared * ec_pc * list ec_ev) :=
  match ch, pc with
  | EcAllocEvent ty a, EcIdle => s' ← allocEvent ty a s; Some (s', EcIdle, [])
  | EcFreeEvent e, EcIdle => if decide (e ∈ ec_held s /\ may_free s e = true) then s' ← freeEvent e s; Some (s', EcIdle, []) else None
  | EcSetPayload e p, EcIdle => if decide (e ∈ ec_held s) then s' ← setPayload e p s; Some (s', EcIdle, []) else None
  | EcCallSend i e, EcIdle =>
      if decide (e ∈ ec_held s /\ (i < length (ec_chans s))%nat /\ eq_may_send t i = true /\ may_send s e = true)
      then Some (drop_held e s, EcSend i e, []) else None
  | EcCallReceive sel blk i, EcIdle =>
      if decide (t = 0%nat /\ (i < length (ec_chans s))%nat /\ (sel = true -> i = 0%nat) /\ may_receive s = true)
      then Some (s, EcTry sel blk i, []) else None
  | EcGo, (EcSend _ _ | EcLink _ _ _ _ | EcRaise) => channel_send s pc
  | EcGo, (EcTry _ _ _ | EcWait _ _) => receive s pc
  | _, _ => None
  end.

Definition ec_conf := conf ec_shared ec_pc.
Definition ec_step := conf_step ec_tstep.

(** [k] channels, whose constructors allocated the dummies [1..k], and one signal
    or none. *)
Definition ec_init (k : nat) (signal : option bool) (n : nat) : ec_conf :=
  Conf (EC (list_to_map ((fun a => (a, Node 0 NULL)) <$> seqZ 1 (Z.of_nat k))) ∅ ((fun a => Fifo a a) <$> seqZ 1 (Z.of_nat k)) signal ∅ ∅ ∅)
    (replicate n EcIdle).
End channel.

(** The constructor of [ChannelSelector]: nothing for no channels, or for a NULL
    channel. *)
Definition ChannelSelector (channels : option (list (option nat))) : option (list nat) :=
  match channels with
  | None | Some [] => None
  | Some cs => if forallb (fun c => match c with Some _ => true | None => false end) cs then Some (omap id cs) else None
  end.

(** One queue of events per channel, with what they carry. *)
Definition ec_spec (x : ec_ev) (qs : list (list (Z * Z * Z))) : option (list (list (Z * Z * Z))) :=
  match x with
  | EvSend i e ty p => q ← qs !! i; Some (<[i:=q ++ [(e, ty, p)]]> qs)
  | EvReceived i e ty p =>
      q ← qs !! i;
      match q with y :: q' => if decide (y = (e, ty, p)) then Some (<[i:=q']> qs) else None | [] => None end
  | EvNone => Some qs
  end.

Arguments ec_conf : clear implicits.

(** ** Invariant of the memory *)

Definition ev_ids (qs : list (list (Z * Z * Z))) : list Z := (concat qs).*1.*1.
Definition wr (evs : gmap Z event) (e : Z) : Z := match evs !! e with Some ev => ev_wrapper ev | None => NULL end.

(** [owned]: events outside the queues; [chains]: the nodes of each channel, the
    dummy first.  The wrappers of the events outside and the nodes inside are all
    the blocks there are, and every live event still has its block. *)
Record em_ok (h : gmap Z node) (evs : gmap Z event) (cs : list mpsc_fifo) (owned : list Z) (pend : nat -> list (Z * Z))
    (live : gset Z) (qs : list (list (Z * Z * Z))) (chains : list (list Z)) : Prop := {
  em_len : length chains = length cs /\ length qs = length cs;
  em_chain : forall i f ch, cs !! i = Some f -> chains !! i = Some ch -> chain_inv h f (pend i) ch;
  em_data : forall i ch q, chains !! i = Some ch -> qs !! i = Some q -> Forall2 (fun a x => load_data h a = Some x.1.1) (tail ch) q;
  em_nd : NoDup (concat chains ++ (wr evs <$> owned));
  em_heap : forall a, is_Some (h !! a) <-> a ∈ concat chains ++ (wr evs <$> owned);
  em_null : NULL ∉ concat chains ++ (wr evs <$> owned);
  em_live : elements live ≡ₚ owned ++ ev_ids qs;
  em_event : forall e, e ∈ live -> is_Some (evs !! e);
  em_block : forall a, is_Some (evs !! a) -> is_Some (h !! a);
  em_own : forall e, e ∈ owned -> load_data h (wr evs e) = Some e;
  em_content : forall x, x ∈ concat qs -> exists w, evs !! x.1.1 = Some (Event x.1.2 w x.2)
}.

Lemma em_perm h evs cs owned owned' pend pend' live qs chains : owned ≡ₚ owned' -> (forall i, pend i ≡ₚ pend' i) ->
  em_ok h evs cs owned pend live qs chains -> em_ok h evs cs owned' pend' live qs chains.
Proof.
  intros Ho Hp [H1 H2 H3 H4 H5 H6 H7 H8 H9 H10 H11]. split; auto; try setoid_rewrite <- Ho; auto.
  intros i f ch Hf Hch. eapply chain_perm; [apply Hp|]. eauto.
Qed.

Lemma elem_of_concat_lookup {A} (ls : list (list A)) i l x : ls !! i = Some l -> x ∈ l -> x ∈ concat ls.
Proof. intros Hi Hx. apply list_elem_of_In, in_concat. exists l. split; apply list_elem_of_In; [by eapply list_elem_of_lookup_2|done]. Qed.

Lemma wr_ext evs evs' (owned : list Z) : (forall e, e ∈ owned -> evs' !! e = evs !! e) -> wr evs' <$> owned = wr evs <$> owned.
Proof. intros He. apply list_fmap_ext. intros i e Hi. unfold wr. rewrite He; [done|]. by eapply list_elem_of_lookup_2. Qed.

Section memory.
Context {h : gmap Z node} {evs : gmap Z event} {cs : list mpsc_fifo} {owned : list Z} {pend : nat -> list (Z * Z)}
  {live : gset Z} {qs : list (list (Z * Z * Z))} {chains : list (list Z)}.
Hypothesis HM : em_ok h evs cs owned pend live qs chains.

Lemma em_owned_live e : e ∈ owned -> e ∈ live.
Proof using HM. intros He. apply elem_of_elements. rewrite (em_live _ _ _ _ _ _ _ _ HM). apply elem_of_app. by left. Qed.

Lemma em_queued_live i q x : qs !! i = Some q -> x ∈ q -> x.1.1 ∈ live.
Proof using HM.
  intros Hi Hx. apply elem_of_elements. rewrite (em_live _ _ _ _ _ _ _ _ HM). apply elem_of_app. right. unfold ev_ids.
  do 2 apply list_elem_of_fmap_2. by eapply elem_of_concat_lookup.
Qed.

Lemma em_chain_of i f : cs !! i = Some f -> exists ch q, chains !! i = Some ch /\ qs !! i = Some q.
Proof using HM.
  intros Hf. destruct (em_len _ _ _ _ _ _ _ _ HM) as [H1 H2]. pose proof (lookup_lt_Some _ _ _ Hf).
  destruct (lookup_lt_is_Some_2 chains i ltac:(lia)) as [ch Hch]. destruct (lookup_lt_is_Some_2 qs i ltac:(lia)) as [q Hq]. eauto.
Qed.

Lemma em_private e : e ∈ owned -> (wr evs e ∉ concat chains) /\ is_Some (h !! wr evs e) /\ wr evs e <> NULL.
Proof using HM.
  intros He. assert (wr evs e ∈ wr evs <$> owned) as Hin by (by apply list_elem_of_fmap_2).
  pose proof (em_nd _ _ _ _ _ _ _ _ HM) as Hnd. apply NoDup_app in Hnd as (_ & Hd & _).
  assert (wr evs e ∈ concat chains ++ (wr evs <$> owned)) as Ha by set_solver.
  split_and!; [intros Hc; by apply (Hd _ Hc)|by apply (em_heap _ _ _ _ _ _ _ _ HM)|intros E; rewrite E in Ha; by apply (em_null _ _ _ _ _ _ _ _ HM)].
Qed.

Lemma em_in_chain i ch a : chains !! i = Some ch -> a ∈ ch -> a ∈ concat chains /\ is_Some (h !! a).
Proof using HM.
  intros Hi Ha. pose proof (elem_of_concat_lookup _ _ _ _ Hi Ha) as Hc. split; [done|]. apply (em_heap _ _ _ _ _ _ _ _ HM). set_solver.
Qed.

(** A write to the link of a block outside every chain, or to the data of one
    that carries no event, disturbs nothing. *)
Lemma em_links h' : (forall a, a ∈ concat chains -> load_next h' a = load_next h a) ->
  forall i f ch, cs !! i = Some f -> chains !! i = Some ch -> chain_inv h' f (pend i) ch.
Proof using HM.
  intros Hs i f ch Hf Hch. eapply chain_heap; [|by apply (em_chain _ _ _ _ _ _ _ _ HM i f)]. intros a Ha. apply Hs.
  by eapply elem_of_concat_lookup.
Qed.

Lemma em_datas h' : (forall a, a ∈ concat chains -> load_data h' a = load_data h a) ->
  forall i ch q, chains !! i = Some ch -> qs !! i = Some q -> Forall2 (fun a x => load_data h' a = Some x.1.1) (tail ch) q.
Proof using HM.
  intros Hs i ch q Hch Hq. eapply Forall2_elem_impl; [|by apply (em_data _ _ _ _ _ _ _ _ HM i ch q)].
  intros a x Ha E. cbv beta in *. rewrite Hs; [done|]. eapply elem_of_concat_lookup; [done|]. by destruct ch; [|right].
Qed.

(** [allocEvent]. *)
Lemma em_alloc ty a : a <> NULL -> h !! a = None ->
  em_ok (<[a:=Node a NULL]> h) (<[a:=Event ty a 0]> evs) cs (a :: owned) pend ({[a]} ∪ live) qs chains.
Proof using HM.
  intros Hn Ha. assert (evs !! a = None) as Hae.
  { destruct (evs !! a) eqn:E; [|done]. destruct (em_block _ _ _ _ _ _ _ _ HM a) as [? ?]; [by eexists|congruence]. }
  assert (a ∉ live) as Hal by (intros Hin; destruct (em_event _ _ _ _ _ _ _ _ HM a Hin); congruence).
  assert (forall e, e ∈ live -> e <> a) as Hne by (by intros e He ->).
  assert (a ∉ concat chains ++ (wr evs <$> owned)) as Hna by (intros Hin; apply (em_heap _ _ _ _ _ _ _ _ HM) in Hin as [? ?]; congruence).
  assert (forall x, x <> a -> load_next (<[a:=Node a NULL]> h) x = load_next h x /\ load_data (<[a:=Node a NULL]> h) x = load_data h x) as Hs
    by (intros x Hx; unfold load_next, load_data; by rewrite !lookup_insert_ne by done).
  assert (wr (<[a:=Event ty a 0]> evs) <$> a :: owned = a :: (wr evs <$> owned)) as Hwr.
  { rewrite fmap_cons. f_equal; [unfold wr; by rewrite lookup_insert_eq|]. apply wr_ext. intros e He. rewrite lookup_insert_ne; [done|].
    intros E. by apply (Hne e), eq_sym; [apply em_owned_live|]. }
  split; rewrite ?Hwr.
  - apply HM.
  - apply em_links. intros x Hx. apply Hs. intros ->. apply Hna. set_solver.
  - apply em_datas. intros x Hx. apply Hs. intros ->. apply Hna. set_solver.
  - rewrite <- Permutation_middle. apply NoDup_cons. split; [done|apply HM].
  - intros x. rewrite <- Permutation_middle, elem_of_cons, <- (em_heap _ _ _ _ _ _ _ _ HM x).
    destruct (decide (x = a)) as [->|]; [rewrite lookup_insert_eq; split; [auto|by eexists]|rewrite lookup_insert_ne by done]. split; [auto|by intros [?|?]].
  - rewrite <- Permutation_middle, not_elem_of_cons. split; [done|apply HM].
  - rewrite elements_union_singleton by done. by rewrite (em_live _ _ _ _ _ _ _ _ HM).
  - intros e. rewrite lookup_insert. case_decide; [by eexists|]. intros [He|He]%elem_of_union; [set_solver|by apply HM].
  - intros x. rewrite !lookup_insert. case_decide; [by eexists|]. apply HM.
  - intros e He. destruct (decide (e = a)) as [->|Hea].
    + unfold wr. rewrite lookup_insert_eq. unfold load_data. cbn. by rewrite lookup_insert_eq.
    + apply elem_of_cons in He as [?|He]; [done|]. unfold wr. rewrite lookup_insert_ne by done. fold (wr evs e).
      destruct (Hs (wr evs e)) as [_ ->]; [|by apply HM]. intros E. apply Hna. rewrite <- E. apply elem_of_app. right. by apply list_elem_of_fmap_2.
  - intros x Hx. destruct (em_content _ _ _ _ _ _ _ _ HM x Hx) as [w Hw]. exists w. rewrite lookup_insert_ne; [done|]. intros ->. congruence.
Qed.

(** [freeEvent], when nothing else lives in the wrapper. *)
Lemma em_free e owned' : owned ≡ₚ e :: owned' -> wr evs e ∉ live ∖ {[e]} ->
  em_ok (delete (wr evs e) h) (delete (wr evs e) evs) cs owned' pend (live ∖ {[e]}) qs chains.
Proof using HM.
  intros Ho Hw. assert (e ∈ owned) as He by (rewrite Ho; left). destruct (em_private e He) as (Hpc & _ & _).
  pose proof (em_owned_live e He) as Hel. set (w := wr evs e) in *.
  assert (elements (live ∖ {[e]}) ≡ₚ owned' ++ ev_ids qs) as Hlive.
  { apply (Permutation_cons_inv (a := e)). rewrite <- (elements_take _ _ Hel), (em_live _ _ _ _ _ _ _ _ HM), Ho. done. }
  assert (forall x, x ∈ owned' ++ ev_ids qs -> x <> w) as Hxw.
  { intros x Hx ->. apply Hw. apply elem_of_elements. by rewrite Hlive. }
  assert (wr (delete w evs) <$> owned' = wr evs <$> owned') as Hwr.
  { apply wr_ext. intros x Hx. rewrite lookup_delete_ne; [done|]. intros E. apply (Hxw x); [set_solver|done]. }
  assert (concat chains ++ (wr evs <$> owned) ≡ₚ w :: (concat chains ++ (wr evs <$> owned'))) as Hpl by (rewrite Ho; cbn; by rewrite <- Permutation_middle).
  pose proof (em_nd _ _ _ _ _ _ _ _ HM) as Hnd. rewrite Hpl in Hnd. apply NoDup_cons in Hnd as [Hout Hnd].
  assert (forall x, x <> w -> load_next (delete w h) x = load_next h x /\ load_data (delete w h) x = load_data h x) as Hs
    by (intros x Hx; unfold load_next, load_data; by rewrite !lookup_delete_ne by done).
  split; rewrite ?Hwr; auto.
  - apply HM.
  - apply em_links. intros x Hx. apply Hs. by intros ->.
  - apply em_datas. intros x Hx. apply Hs. by intros ->.
  - intros x. destruct (decide (x = w)) as [->|Hne]; [rewrite lookup_delete_eq; split; [by intros []|done]|].
    rewrite lookup_delete_ne by done. rewrite (em_heap _ _ _ _ _ _ _ _ HM x), Hpl, elem_of_cons. split; [by intros [?|?]|auto].
  - pose proof (em_null _ _ _ _ _ _ _ _ HM) as Hnull. rewrite Hpl in Hnull. set_solver.
  - intros x Hx. rewrite lookup_delete_ne; [apply HM; set_solver|]. intros E. apply Hw. by rewrite E.
  - intros x. destruct (decide (x = w)) as [->|Hne]; [rewrite lookup_delete_eq; by intros []|]. rewrite !lookup_delete_ne by done. apply HM.
  - intros x Hx. assert (x <> w) by (apply Hxw; set_solver). unfold wr. rewrite lookup_delete_ne by done. fold (wr evs x).
    destruct (Hs (wr evs x)) as [_ ->]; [|apply HM; rewrite Ho; by right]. intros E. apply Hout. rewrite <- E. apply elem_of_app. right. by apply list_elem_of_fmap_2.
  - intros x Hx. destruct (em_content _ _ _ _ _ _ _ _ HM x Hx) as [w' Hw']. exists w'. rewrite lookup_delete_ne; [done|]. intros E.
    apply (Hxw (x.1.1)); [|done]. apply elem_of_app. right. unfold ev_ids. by do 2 apply list_elem_of_fmap_2.
Qed.

(** [setPayload] by the holder. *)
Lemma em_payload e ev p : e ∈ owned -> evs !! e = Some ev ->
  em_ok h (<[e:=Event (ev_type ev) (ev_wrapper ev) p]> evs) cs owned pend live qs chains.
Proof using HM.
  intros He Hev. set (evs' := <[e:=_]> evs). assert (forall x, wr evs' x = wr evs x) as Hw.
  { intros x. unfold wr, evs'. rewrite lookup_insert. case_decide; [subst; by rewrite Hev|done]. }
  assert (wr evs' <$> owned = wr evs <$> owned) as Hwr by (apply list_fmap_ext; auto).
  split; rewrite ?Hwr; try apply HM.
  - intros x Hx. unfold evs'. rewrite lookup_insert. case_decide; [by eexists|by apply HM].
  - intros x. unfold evs'. rewrite lookup_insert. case_decide; [subst|apply HM]. intros _. apply (em_block _ _ _ _ _ _ _ _ HM). by exists ev.
  - intros x Hx. rewrite Hw. by apply HM.
  - intros x Hx. destruct (em_content _ _ _ _ _ _ _ _ HM x Hx) as [w Hx']. exists w. unfold evs'. rewrite lookup_insert_ne; [done|]. intros ->.
    pose proof (NoDup_elements live) as Hnd. rewrite (em_live _ _ _ _ _ _ _ _ HM) in Hnd. apply NoDup_app in Hnd as (_ & Hd & _).
    apply (Hd _ He). unfold ev_ids. by do 2 apply list_elem_of_fmap_2.
Qed.

(** The first half of a push. *)
Lemma em_xchg i f ch q e ev owned' h' : owned ≡ₚ e :: owned' -> evs !! e = Some ev -> cs !! i = Some f -> chains !! i = Some ch -> qs !! i = Some q ->
  store_next h (ev_wrapper ev) NULL = Some h' ->
  em_ok h' evs (<[i:=Fifo (f_head f) (ev_wrapper ev)]> cs) owned'
    (fun j => if decide (j = i) then (f_tail f, ev_wrapper ev) :: pend i else pend j) live
    (<[i:=q ++ [(e, ev_type ev, ev_payload ev)]]> qs) (<[i:=ch ++ [ev_wrapper ev]]> chains).
Proof using HM.
  intros Ho Hev Hf Hch Hq Hs. set (w := ev_wrapper ev) in *. assert (e ∈ owned) as He by (rewrite Ho; left).
  assert (wr evs e = w) as Ew by (unfold wr; by rewrite Hev). destruct (em_private e He) as (Hpc & _ & Hnn). rewrite Ew in Hpc, Hnn.
  assert (concat (<[i:=ch ++ [w]]> chains) ≡ₚ w :: concat chains) as Hcc by (apply (concat_insert_cons _ _ ch); [done|by rewrite Permutation_app_comm]).
  assert (concat (<[i:=q ++ [(e, ev_type ev, ev_payload ev)]]> qs) ≡ₚ (e, ev_type ev, ev_payload ev) :: concat qs) as Hqq
    by (apply (concat_insert_cons _ _ q); [done|by rewrite Permutation_app_comm]).
  assert (concat (<[i:=ch ++ [w]]> chains) ++ (wr evs <$> owned') ≡ₚ concat chains ++ (wr evs <$> owned)) as Hpl
    by (rewrite Hcc, Ho; cbn; rewrite Ew; by rewrite <- Permutation_middle).
  assert (forall x, x ∈ concat chains -> load_next h' x = load_next h x) as Hnx by (intros x Hx; apply (store_next_other _ _ _ _ _ Hs); by intros ->).
  split; rewrite ?Hpl; try apply HM.
  - rewrite !length_insert. apply HM.
  - intros j f' ch' Hf' Hch'. apply list_lookup_insert_Some in Hf' as [(<- & <- & _)|(Hne & Hf')].
    + rewrite list_lookup_insert_eq in Hch' by (by eapply lookup_lt_Some). injection Hch' as <-. rewrite decide_True by done.
      apply chain_xchg; [exact (em_links h' Hnx i f ch Hf Hch)| |done|by eapply store_next_same].
      intros Hin. by apply Hpc, (elem_of_concat_lookup _ _ _ _ Hch).
    + rewrite list_lookup_insert_ne in Hch' by done. rewrite decide_False by done. by eapply em_links.
  - intros j ch' q' Hch' Hq'. apply list_lookup_insert_Some in Hch' as [(<- & <- & _)|(Hne & Hch')].
    + rewrite list_lookup_insert_eq in Hq' by (by eapply lookup_lt_Some). injection Hq' as <-.
      pose proof (ch_head _ _ _ _ (em_chain _ _ _ _ _ _ _ _ HM i f ch Hf Hch)) as H0.
      pose proof (em_datas h' ltac:(intros; by apply (store_next_data _ _ _ _ _ Hs)) i ch q Hch Hq) as Hd. destruct ch as [|a ch]; [done|].
      apply Forall2_app; [exact Hd|]. constructor; [|constructor]. cbv beta. rewrite (store_next_data _ _ _ _ _ Hs), <- Ew. exact (em_own _ _ _ _ _ _ _ _ HM e He).
    + rewrite list_lookup_insert_ne in Hq' by done. eapply em_datas; eauto. intros; by apply (store_next_data _ _ _ _ _ Hs).
  - intros a. rewrite Hpl, (store_next_dom _ _ _ _ _ Hs). apply HM.
  - rewrite (em_live _ _ _ _ _ _ _ _ HM), Ho. unfold ev_ids. rewrite Hqq. cbn. by rewrite <- Permutation_middle.
  - intros a Ha. rewrite (store_next_dom _ _ _ _ _ Hs). by apply (em_block _ _ _ _ _ _ _ _ HM).
  - intros x Hx. rewrite (store_next_data _ _ _ _ _ Hs). apply (em_own _ _ _ _ _ _ _ _ HM). rewrite Ho. by right.
  - intros x. rewrite Hqq. intros [->|Hx]%elem_of_cons; [exists w; cbn; by destruct ev|by apply (em_content _ _ _ _ _ _ _ _ HM)].
Qed.

(** The second half. *)
Lemma em_link i f ch prev w pend' h' : pend i ≡ₚ (prev, w) :: pend' -> cs !! i = Some f -> chains !! i = Some ch ->
  store_next h prev w = Some h' ->
  em_ok h' evs cs owned (fun j => if decide (j = i) then pend' else pend j) live qs chains.
Proof using HM.
  intros Hp Hf Hch Hs. pose proof (chain_perm _ _ _ _ _ Hp (em_chain _ _ _ _ _ _ _ _ HM i f ch Hf Hch)) as Hc.
  destruct (ch_pend _ _ _ _ Hc prev w ltac:(left)) as (k & Hk & _). apply list_elem_of_lookup_2 in Hk.
  split; try apply HM.
  - intros j f' ch' Hf' Hch'. case_decide as Hj; [subst j; simplify_eq; by eapply chain_store_link|].
    eapply chain_heap; [|by apply (em_chain _ _ _ _ _ _ _ _ HM j f')]. intros a Ha. apply (store_next_other _ _ _ _ _ Hs). intros ->.
    pose proof (em_nd _ _ _ _ _ _ _ _ HM) as Hnd. apply NoDup_app in Hnd as (Hnd & _). by apply Hj, (concat_NoDup_inj _ _ _ _ _ prev Hnd Hch' Hch).
  - apply em_datas. intros; by apply (store_next_data _ _ _ _ _ Hs).
  - intros a. rewrite (store_next_dom _ _ _ _ _ Hs). apply HM.
  - intros a Ha. rewrite (store_next_dom _ _ _ _ _ Hs). by apply (em_block _ _ _ _ _ _ _ _ HM).
  - intros x Hx. rewrite (store_next_data _ _ _ _ _ Hs). by apply (em_own _ _ _ _ _ _ _ _ HM).
Qed.

(** A pop: the node that comes out is the old dummy, and becomes the wrapper of
    the event. *)
Lemma em_pop i f nx d h' : cs !! i = Some f -> load_next h (f_head f) = Some nx -> nx <> NULL -> load_data h nx = Some d ->
  store_data h (f_head f) d = Some h' -> exists ch ev q,
    chains !! i = Some (f_head f :: ch) /\ evs !! d = Some ev /\ qs !! i = Some ((d, ev_type ev, ev_payload ev) :: q) /\
    load_data h' (f_head f) = Some d /\ (d ∉ owned) /\
    em_ok h' (<[d:=Event (ev_type ev) (f_head f) (ev_payload ev)]> evs) (<[i:=Fifo nx (f_tail f)]> cs) (d :: owned) pend live
      (<[i:=q]> qs) (<[i:=ch]> chains).
Proof using HM.
  intros Hf Hl Hn Hd Hs. destruct (em_chain_of i f Hf) as (ch0 & q0 & Hch & Hq).
  destruct (chain_pop _ _ _ _ _ _ (em_chain _ _ _ _ _ _ _ _ HM i f ch0 Hf Hch) eq_refl Hl Hn) as (rest & -> & Hc).
  pose proof (em_data _ _ _ _ _ _ _ _ HM i _ _ Hch Hq) as Hdata. cbn [tail] in Hdata. inversion Hdata as [|? [[d' ty] p] ? q Hd' Hq']; subst.
  cbn in Hd'. assert (d' = d) as -> by congruence.
  destruct (em_content _ _ _ _ _ _ _ _ HM (d, ty, p)) as [w Hw]; [eapply elem_of_concat_lookup; [done|left]|]. cbn in Hw.
  exists (nx :: rest), (Event ty w p), q. cbn [ev_type ev_payload].
  pose proof (concat_insert_tail _ _ _ _ Hch) as Hcc. pose proof (concat_insert_tail _ _ _ _ Hq) as Hqq.
  pose proof (NoDup_elements live) as Hnl. rewrite (em_live _ _ _ _ _ _ _ _ HM) in Hnl. unfold ev_ids in Hnl. rewrite Hqq in Hnl. cbn in Hnl.
  rewrite <- Permutation_middle in Hnl. apply NoDup_cons in Hnl as [Hnew Hnl]. fold (ev_ids (<[i:=q]> qs)) in Hnew, Hnl.
  set (evs' := <[d:=Event ty (f_head f) p]> evs).
  assert (wr evs' <$> d :: owned = f_head f :: (wr evs <$> owned)) as Hwr.
  { rewrite fmap_cons. f_equal; [unfold wr, evs'; by rewrite lookup_insert_eq|]. apply wr_ext. intros e He. unfold evs'. rewrite lookup_insert_ne; [done|]. set_solver. }
  assert (concat (<[i:=nx :: rest]> chains) ++ (f_head f :: (wr evs <$> owned)) ≡ₚ concat chains ++ (wr evs <$> owned)) as Hpl
    by (rewrite Hcc, <- Permutation_middle; done).
  pose proof (em_nd _ _ _ _ _ _ _ _ HM) as Hnd. rewrite Hcc in Hnd. cbn in Hnd. apply NoDup_cons in Hnd as [Hhd Hnd].
  split_and!; try done; [by eapply store_data_same|set_solver|].
  split; rewrite ?Hwr; rewrite ?Hpl; try apply HM.
  - rewrite !length_insert. apply HM.
  - intros j f' ch' Hf' Hch'. apply list_lookup_insert_Some in Hf' as [(<- & <- & _)|(Hne & Hf')].
    + rewrite list_lookup_insert_eq in Hch' by (by eapply lookup_lt_Some). injection Hch' as <-.
      eapply chain_heap; [|exact Hc]. intros a _. by apply (store_data_next _ _ _ _ _ Hs).
    + rewrite list_lookup_insert_ne in Hch' by done. eapply em_links; eauto. intros a _. by apply (store_data_next _ _ _ _ _ Hs).
  - intros j ch' q' Hch' Hq''. eapply Forall2_elem_impl with (P := fun a x => load_data h a = Some x.1.1).
    + intros a x Ha Hx. cbv beta in *. rewrite (store_data_other _ _ _ _ _ Hs); [done|]. intros ->. apply Hhd. apply elem_of_app. left.
      eapply elem_of_concat_lookup; [exact Hch'|]. by destruct ch'; [|right].
    + apply list_lookup_insert_Some in Hch' as [(<- & <- & _)|(Hne & Hch')].
      * rewrite list_lookup_insert_eq in Hq'' by (by eapply lookup_lt_Some). by injection Hq'' as <-.
      * rewrite list_lookup_insert_ne in Hq'' by done. by apply (em_data _ _ _ _ _ _ _ _ HM j).
  - intros a. rewrite Hpl, (store_data_dom _ _ _ _ _ Hs). apply HM.
  - rewrite (em_live _ _ _ _ _ _ _ _ HM). unfold ev_ids. rewrite Hqq. cbn. by rewrite <- Permutation_middle.
  - intros x Hx. unfold evs'. rewrite lookup_insert. case_decide; [by eexists|by apply HM].
  - intros a. rewrite (store_data_dom _ _ _ _ _ Hs). unfold evs'. rewrite lookup_insert. case_decide; [subst a|apply HM]. intros _.
    apply (em_block _ _ _ _ _ _ _ _ HM). by eexists.
  - intros x Hx. unfold wr, evs'. rewrite lookup_insert. case_decide as E; [subst x; cbn; by eapply store_data_same|]. fold (wr evs x).
    apply elem_of_cons in Hx as [?|Hx]; [by subst|]. rewrite (store_data_other _ _ _ _ _ Hs); [by apply (em_own _ _ _ _ _ _ _ _ HM)|].
    intros E'. apply Hhd. rewrite <- E'. apply elem_of_app. right. by apply list_elem_of_fmap_2.
  - intros x Hx. assert (x.1.1 <> d) as Hxd.
    { intros E. apply Hnew. apply elem_of_app. right. rewrite <- E. unfold ev_ids. by do 2 apply list_elem_of_fmap_2. }
    unfold evs'. rewrite lookup_insert_ne by congruence. apply (em_content _ _ _ _ _ _ _ _ HM). rewrite Hqq. by right.
Qed.
End memory.

(** ** Invariant of the whole *)

Definition ec_sending (pc : ec_pc) : option Z := match pc with EcSend _ e => Some e | _ => None end.
Definition ec_pending (i : nat) (pc : ec_pc) : option (Z * Z) :=
  match pc with EcLink j _ prev w => if decide (j = i) then Some (prev, w) else None | _ => None end.
Definition ec_owned (s : ec_shared) (ths : list ec_pc) : list Z := elements (ec_held s) ++ omap ec_sending ths.

Definition ec_receiving (pc : ec_pc) : bool := match pc with EcTry _ _ _ | EcWait _ _ => true | _ => false end.
(** In a send, after the push has shown in the queue. *)
Definition ec_busy (pc : ec_pc) : bool := match pc with EcLink _ _ _ _ | EcRaise => true | _ => false end.
Definition ec_active (ths : list ec_pc) : Prop := exists t pc, ths !! t = Some pc /\ ec_busy pc = true.

(** The channels a receive has found empty since it last slept. *)
Definition ec_scanned (pc : ec_pc) (j : nat) : bool :=
  match pc with EcTry true _ i => Nat.ltb j i | EcWait true _ => true | EcWait false i => Nat.eqb j i | _ => false end.

Definition ec_index (pc : ec_pc) (len : nat) : Prop :=
  match pc with EcSend i _ | EcLink i _ _ _ | EcTry _ _ i | EcWait _ i => (i < len)%nat | _ => True end.

Definition ec_wakes (sg : option bool) (ths : list ec_pc) (qs : list (list (Z * Z * Z))) : Prop :=
  is_Some sg -> forall pc j q, ths !! 0%nat = Some pc -> ec_scanned pc j = true -> qs !! j = Some q -> q = [] \/ sg = Some true \/ ec_active ths.

Record ec_rel (c : ec_conf) (qs : list (list (Z * Z * Z))) (chains : list (list Z)) : Prop := {
  er_mem : em_ok (ec_heap (shared c)) (ec_events (shared c)) (ec_chans (shared c)) (ec_owned (shared c) (threads c))
    (fun i => omap (ec_pending i) (threads c)) (ec_live (shared c)) qs chains;
  er_one : forall t pc, threads c !! t = Some pc -> ec_receiving pc = true -> t = 0%nat;
  er_index : forall t pc, threads c !! t = Some pc -> ec_index pc (length (ec_chans (shared c)));
  er_wakes : ec_wakes (ec_signal (shared c)) (threads c) qs
}.

Lemma ec_active_insert ths t pc pc' : ths !! t = Some pc -> ec_busy pc' = true \/ (ec_busy pc = false /\ ec_active ths) -> ec_active (<[t:=pc']> ths).
Proof.
  intros Ht [Hb|[Hb (u & p & Hu & Hp)]]; [exists t, pc'; split; [|done]; apply list_lookup_insert_eq; by eapply lookup_lt_Some|].
  exists u, p. split; [|done]. rewrite list_lookup_insert_ne; [done|]. intros ->. congruence.
Qed.

Lemma ec_wakes_quiet sg ths qs t pc pc' : ec_wakes sg ths qs -> ths !! t = Some pc -> ec_busy pc = false ->
  (forall j, ec_scanned pc' j = true -> ec_scanned pc j = true) -> ec_wakes sg (<[t:=pc']> ths) qs.
Proof.
  intros HW Ht Hb Hsc Hsg p j q Hp Hj Hq. assert (exists p', ths !! 0%nat = Some p' /\ ec_scanned p' j = true) as (p' & H0 & Hj').
  { apply lookup_insert_cases in Hp as [[<- ->]|[Hne Hp]]; eauto. }
  destruct (HW Hsg p' j q H0 Hj' Hq) as [?|[?|Ha]]; auto. right. right. eapply ec_active_insert; eauto.
Qed.

Lemma ec_wakes_busy sg ths qs t pc pc' : ths !! t = Some pc -> ec_busy pc' = true -> ec_wakes sg (<[t:=pc']> ths) qs.
Proof. intros Ht Hb _ p j q _ _ _. right. right. eapply ec_active_insert; eauto. Qed.

Lemma ec_wakes_restart sg ths qs pc' : (forall j, ec_scanned pc' j = false) -> (0 < length ths)%nat -> ec_wakes sg (<[0%nat:=pc']> ths) qs.
Proof. intros Hs Hl _ p j q Hp Hj _. rewrite list_lookup_insert_eq in Hp by done. injection Hp as <-. by rewrite Hs in Hj. Qed.

Lemma ec_pend_same_at ths t pc pc' i : ths !! t = Some pc -> ec_pending i pc' = ec_pending i pc ->
  omap (ec_pending i) (<[t:=pc']> ths) ≡ₚ omap (ec_pending i) ths.
Proof. intros Ht E. by apply (omap_insert_same (ec_pending i) _ _ _ _ Ht). Qed.

Section ec_steps.
Context {c : ec_conf} {qs : list (list (Z * Z * Z))} {chains : list (list Z)} (t : nat) (pc : ec_pc).
Hypotheses (HR : ec_rel c qs chains) (Ht : threads c !! t = Some pc).

Lemma ec_rel_step s' pc' qs' chains' :
  em_ok (ec_heap s') (ec_events s') (ec_chans s') (ec_owned s' (<[t:=pc']> (threads c))) (fun i => omap (ec_pending i) (<[t:=pc']> (threads c)))
    (ec_live s') qs' chains' ->
  length (ec_chans s') = length (ec_chans (shared c)) -> (ec_receiving pc' = true -> t = 0%nat) ->
  ec_index pc' (length (ec_chans (shared c))) -> ec_wakes (ec_signal s') (<[t:=pc']> (threads c)) qs' ->
  ec_rel (Conf s' (<[t:=pc']> (threads c))) qs' chains'.
Proof using HR Ht.
  intros Hm Hlen Hrc Hix Hw. split; cbn [shared threads]; auto.
  - intros u p Hu Hp. apply lookup_insert_cases in Hu as [[<- ->]|[Hne Hu]]; [auto|]. by eapply (er_one _ _ _ HR).
  - intros u p Hu. rewrite Hlen. apply lookup_insert_cases in Hu as [[<- ->]|[Hne Hu]]; [auto|]. by eapply (er_index _ _ _ HR).
Qed.

(** Steps that change who owns what, not the queues. *)
Lemma ec_owned_same s' pc' : ec_held s' = ec_held (shared c) -> ec_sending pc' = ec_sending pc ->
  ec_owned s' (<[t:=pc']> (threads c)) ≡ₚ ec_owned (shared c) (threads c).
Proof using Ht. intros E1 E2. unfold ec_owned. by rewrite E1, (omap_insert_same ec_sending _ _ _ _ Ht E2). Qed.

(** A step that moves the program point only. *)
Lemma ec_moves pc' : ec_sending pc' = ec_sending pc -> (forall i, ec_pending i pc' = ec_pending i pc) ->
  (ec_receiving pc' = true -> t = 0%nat) -> ec_index pc' (length (ec_chans (shared c))) -> ec_wakes (ec_signal (shared c)) (<[t:=pc']> (threads c)) qs ->
  ec_rel (Conf (shared c) (<[t:=pc']> (threads c))) qs chains.
Proof using HR Ht.
  intros E1 E2 H1 H2 H3. apply ec_rel_step; auto. eapply em_perm; [symmetry; by apply ec_owned_same|intros i; symmetry; by eapply ec_pend_same_at|apply HR].
Qed.
End ec_steps.

(** What a step does to the queues and to the relation. *)
Definition ec_goal (c : ec_conf) (t : nat) (qs : list (list (Z * Z * Z))) (s' : ec_shared) (pc' : ec_pc) (evs : list ec_ev) : Prop :=
  exists qs' chains', spec_run ec_spec evs qs = Some qs' /\ ec_rel (Conf s' (<[t:=pc']> (threads c))) qs' chains'.

Section ec_sims.
Context `{EventQueue}.
Implicit Types (h : gmap Z node) (evs : gmap Z event) (cs : list mpsc_fifo) (held live rc : gset Z) (ths : list ec_pc)
  (qs : list (list (Z * Z * Z))) (chains : list (list Z)).

Lemma ec_alloc_sim s ths qs chains t ty a s' : ec_rel (Conf s ths) qs chains -> ths !! t = Some EcIdle ->
  allocEvent ty a s = Some s' -> ec_goal (Conf s ths) t qs s' EcIdle [].
Proof.
  intros HR Ht Hs. destruct s as [h evs cs sg held live rc]. cbn in Hs. case_decide as Hd; [|done]. destruct Hd as [Hn Ha].
  injection Hs as <-. exists qs, chains. split; [done|]. pose proof (er_mem _ _ _ HR) as HM. cbn in HM.
  assert (a ∉ held) as Hh.
  { intros Hin. assert (a ∈ live) as Hl by (apply (em_owned_live HM); apply elem_of_app; left; by apply elem_of_elements).
    destruct (em_block _ _ _ _ _ _ _ _ HM a (em_event _ _ _ _ _ _ _ _ HM a Hl)) as [? ?]. congruence. }
  eapply (ec_rel_step t EcIdle HR Ht); try done; cbn.
  - eapply em_perm; [| |exact (em_alloc HM ty a Hn Ha)]; [|intros i; symmetry; by eapply ec_pend_same_at].
    unfold ec_owned. cbn. rewrite elements_union_singleton by done. cbn. by rewrite (omap_insert_same ec_sending _ _ _ _ Ht).
  - by eapply ec_wakes_quiet; [apply HR|..].
Qed.

Lemma ec_owned_drop held ths e : e ∈ held -> elements held ++ omap ec_sending ths ≡ₚ e :: (elements (held ∖ {[e]}) ++ omap ec_sending ths).
Proof. intros He. by rewrite (elements_take _ _ He). Qed.

Lemma ec_free_sim s ths qs chains t e s' : ec_rel (Conf s ths) qs chains -> ths !! t = Some EcIdle -> e ∈ ec_held s ->
  wr (ec_events s) e ∉ ec_live s ∖ {[e]} -> freeEvent e s = Some s' -> ec_goal (Conf s ths) t qs s' EcIdle [].
Proof.
  intros HR Ht He Hw Hs. destruct s as [h evs cs sg held live rc]. cbn in Hs, Hw, He. destruct (evs !! e) as [ev|] eqn:Ev; [|done]. cbn in Hs.
  destruct (h !! ev_wrapper ev); [|done]. injection Hs as <-. exists qs, chains. split; [done|]. pose proof (er_mem _ _ _ HR) as HM. cbn in HM.
  assert (wr evs e = ev_wrapper ev) as Ew by (unfold wr; by rewrite Ev).
  eapply (ec_rel_step t EcIdle HR Ht); try done; cbn.
  - rewrite <- Ew. eapply em_perm; [| |exact (em_free HM e _ (ec_owned_drop held ths e He) Hw)].
    + unfold ec_owned. cbn. by rewrite (omap_insert_same ec_sending _ _ _ _ Ht).
    + intros i; symmetry; by eapply ec_pend_same_at.
  - by eapply ec_wakes_quiet; [apply HR|..].
Qed.

Lemma ec_payload_sim s ths qs chains t e p s' : ec_rel (Conf s ths) qs chains -> ths !! t = Some EcIdle -> e ∈ ec_held s ->
  setPayload e p s = Some s' -> ec_goal (Conf s ths) t qs s' EcIdle [].
Proof.
  intros HR Ht He Hs. destruct s as [h evs cs sg held live rc]. cbn in Hs, He. destruct (evs !! e) as [ev|] eqn:Ev; [|done]. injection Hs as <-.
  exists qs, chains. split; [done|]. pose proof (er_mem _ _ _ HR) as HM. cbn in HM. eapply (ec_rel_step t EcIdle HR Ht); try done; cbn.
  - eapply em_perm; [| |eapply (em_payload HM e ev p); [|exact Ev]].
    + symmetry. by apply (ec_owned_same (c := Conf (EC h evs cs sg held live rc) ths) t EcIdle Ht).
    + intros i; symmetry; by eapply ec_pend_same_at.
    + apply elem_of_app. left. by apply elem_of_elements.
  - by eapply ec_wakes_quiet; [apply HR|..].
Qed.

Lemma ec_call_send_sim s ths qs chains t i e : ec_rel (Conf s ths) qs chains -> ths !! t = Some EcIdle -> e ∈ ec_held s -> (i < length (ec_chans s))%nat ->
  ec_goal (Conf s ths) t qs (drop_held e s) (EcSend i e) [].
Proof.
  intros HR Ht He Hi. exists qs, chains. split; [done|]. pose proof (er_mem _ _ _ HR) as HM. cbn in HM. eapply (ec_rel_step t EcIdle HR Ht); try done.
  - eapply em_perm; [| |exact HM]; [|intros j; symmetry; by eapply ec_pend_same_at].
    unfold ec_owned. cbn. rewrite (ec_owned_drop _ _ _ He), (omap_insert_add ec_sending _ _ _ (EcSend i e) e Ht eq_refl eq_refl). by rewrite <- Permutation_middle.
  - by eapply ec_wakes_quiet; [apply HR|..].
Qed.

Lemma ec_send_sim s ths qs chains t pc s' pc' (es : list ec_ev) : ec_rel (Conf s ths) qs chains -> ths !! t = Some pc ->
  channel_send s pc = Some (s', pc', es) -> ec_goal (Conf s ths) t qs s' pc' es.
Proof.
  intros HR Ht Hs. pose proof (er_mem _ _ _ HR) as HM. pose proof (er_index _ _ _ HR t pc Ht) as Hix.
  destruct s as [h evs0 cs sg held live rc], pc as [|i e|i e prev w| | |]; try discriminate Hs; cbn in Hs, HM, Hix.
  - destruct (evs0 !! e) as [ev|] eqn:Ev; [|done]. cbn in Hs. destruct (cs !! i) as [f|] eqn:Ef; [|done]. cbn in Hs.
    rewrite eq_xchg_law in Hs. unfold xchg_ref in Hs. destruct (store_next h (ev_wrapper ev) NULL) as [h'|] eqn:Eh; [|done]. injection Hs as <- <- <-. cbn.
    destruct (em_chain_of HM i f Ef) as (ch & q & Hch & Hq).
    exists (<[i:=q ++ [(e, ev_type ev, ev_payload ev)]]> qs), (<[i:=ch ++ [ev_wrapper ev]]> chains). split; [cbn; by rewrite Hq|].
    pose proof (omap_insert_del ec_sending _ _ _ (EcLink i e (f_tail f) (ev_wrapper ev)) _ Ht eq_refl eq_refl) as Hsd.
    eapply (ec_rel_step t _ HR Ht); cbn; try done; [|by rewrite length_insert|by eapply ec_wakes_busy].
    eapply em_perm; [| |eapply (em_xchg HM i f ch q e ev); try done].
    2: { intros j. cbn. case_decide as Hj.
      - subst j. symmetry. eapply (omap_insert_add (ec_pending i)); [exact Ht|done|]. cbn. by rewrite decide_True.
      - symmetry. apply (ec_pend_same_at ths t _ _ j Ht). cbn. by rewrite decide_False by congruence. }
    + reflexivity.
    + unfold ec_owned. cbn. by rewrite Hsd, <- Permutation_middle.
  - destruct (cs !! i) as [f|] eqn:Ef; [|done]. cbn in Hs. rewrite eq_link_law in Hs. destruct (store_next h prev w) as [h'|] eqn:Eh; [|done].
    injection Hs as <- <- <-. exists qs, chains. split; [done|]. destruct (em_chain_of HM i f Ef) as (ch & q & Hch & Hq).
    set (pc' := match sg with Some _ => EcRaise | None => EcIdle end).
    assert (ec_sending pc' = None /\ (forall j, ec_pending j pc' = None) /\ ec_receiving pc' = false /\ ec_index pc' (length cs)) as (P1 & P2 & P3 & P4)
      by (unfold pc'; by destruct sg).
    eapply (ec_rel_step t _ HR Ht); cbn; try done; [|by rewrite P3|].
    + eapply em_perm; [| |eapply (em_link HM i f ch prev w); try done].
      * symmetry. by apply (ec_owned_same (c := Conf (EC h evs0 cs sg held live rc) ths) t (EcLink i e prev w) Ht).
      * intros j. cbn. case_decide as Hj; [subst j; reflexivity|]. symmetry. apply (ec_pend_same_at ths t _ _ j Ht). cbn. by rewrite P2, decide_False by congruence.
      * eapply (omap_insert_del (ec_pending i)); [exact Ht|cbn; by rewrite decide_True|done].
    + unfold pc'. destruct sg as [b|]; [by eapply ec_wakes_busy|by intros []].
  - injection Hs as <- <- <-. exists qs, chains. split; [done|]. eapply (ec_rel_step t _ HR Ht); cbn; try done.
    + eapply em_perm; [symmetry; by apply (ec_owned_same (c := Conf (EC h evs0 cs sg held live rc) ths) t EcRaise Ht)|
        intros i; symmetry; by eapply ec_pend_same_at|exact HM].
    + intros _ p j q _ _ _. auto.
Qed.

(** What [tryReceive] does: nothing, when the channel is empty or a sender has not
    finished its push; or it takes the first event. *)
Lemma ec_try_cases s ths qs chains i s' r : ec_rel (Conf s ths) qs chains -> tryReceive s i = Some (s', r) ->
  (r = None /\ s' = s /\ (qs !! i = Some [] \/ ec_active ths)) \/
  (exists e ev q ch, r = Some (e, ev) /\ qs !! i = Some ((e, ev_type ev, ev_payload ev) :: q) /\ (e ∉ ec_owned s ths) /\
    chains !! i = Some (ev_wrapper ev :: ch) /\
    ec_held s' = {[e]} ∪ ec_held s /\ ec_received s' = {[e]} ∪ ec_received s /\ ec_signal s' = ec_signal s /\ length (ec_chans s') = length (ec_chans s) /\
    ec_live s' = ec_live s /\ ec_events s' = <[e:=ev]> (ec_events s) /\
    em_ok (ec_heap s') (ec_events s') (ec_chans s') (e :: ec_owned s ths) (fun j => omap (ec_pending j) ths) (ec_live s') (<[i:=q]> qs) (<[i:=ch]> chains)).
Proof.
  intros HR Hs. pose proof (er_mem _ _ _ HR) as HM. destruct s as [h evs cs sg held live rc]. cbn in Hs, HM.
  destruct (cs !! i) as [f|] eqn:Ef; [|done]. cbn in Hs. rewrite eq_trypop_law in Hs. unfold pop_ref in Hs.
  destruct (em_chain_of HM i f Ef) as (ch & q & Hch & Hq). pose proof (em_chain _ _ _ _ _ _ _ _ HM i f ch Ef Hch) as Hc.
  destruct (load_next h (f_head f)) as [nx|] eqn:El; [|done]. cbn in Hs. case_decide as Hn.
  - subst nx. cbn in Hs. injection Hs as <- <-. left. split_and!; try done. pose proof (em_data _ _ _ _ _ _ _ _ HM i ch q Hch Hq) as Hd.
    pose proof (ch_head _ _ _ _ Hc) as H0. destruct ch as [|a [|b ch]]; [done|left; by inversion Hd; subst|]. injection H0 as ->. right.
    destruct (ch_link _ _ _ _ Hc 0%nat _ _ eq_refl eq_refl) as [[E _]|[_ Hp]].
    + rewrite El in E. injection E as <-. pose proof (ch_null _ _ _ _ Hc). set_solver.
    + apply list_elem_of_omap in Hp as (pc & Hpc & E). apply list_elem_of_lookup in Hpc as [u Hu]. exists u, pc. split; [done|]. by destruct pc.
  - destruct (load_data h nx) as [d|] eqn:Ed; [|done]. cbn in Hs. destruct (store_data h (f_head f) d) as [h'|] eqn:Eh; [|done]. cbn in Hs.
    destruct (em_pop HM i f nx d h' Ef El Hn Ed Eh) as (ch' & ev & q' & Hch' & Hev & Hq' & Hld & Hno & HM').
    rewrite decide_False in Hs.
    2: { intros E. destruct (em_in_chain HM i _ _ Hch' (list_elem_of_here _ _)) as [Hin _]. apply (em_null _ _ _ _ _ _ _ _ HM). rewrite <- E. set_solver. }
    rewrite Hld in Hs. cbn in Hs. rewrite Hev in Hs. injection Hs as <- <-. right.
    exists d, (Event (ev_type ev) (f_head f) (ev_payload ev)), q', ch'. cbn. split_and!; try done. by rewrite length_insert.
Qed.

Lemma ec_received_spec i e ev q qs : qs !! i = Some ((e, ev_type ev, ev_payload ev) :: q) ->
  spec_run ec_spec [EvReceived i e (ev_type ev) (ev_payload ev)] qs = Some (<[i:=q]> qs).
Proof. intros Hq. cbn [spec_run ec_spec]. rewrite Hq. cbn [mbind option_bind]. by rewrite decide_True. Qed.

(** After a failed attempt on channel [i]. *)
Lemma ec_scan_wakes s ths qs chains sel blk i : ec_rel (Conf s ths) qs chains -> ths !! 0%nat = Some (EcTry sel blk i) ->
  qs !! i = Some [] \/ ec_active ths ->
  forall pc', (forall j, ec_scanned pc' j = true -> (j < length (ec_chans s))%nat -> (sel = true /\ j < i)%nat \/ j = i) ->
    ec_wakes (ec_signal s) (<[0%nat:=pc']> ths) qs.
Proof.
  intros HR Ht Hq pc' Hsc Hsg p' j q' Hp' Hj Hq'. rewrite list_lookup_insert_eq in Hp' by (by eapply lookup_lt_Some). injection Hp' as <-.
  assert (j < length (ec_chans s))%nat as Hlt
    by (destruct (em_len _ _ _ _ _ _ _ _ (er_mem _ _ _ HR)) as [_ E]; cbn in E; rewrite <- E; by eapply lookup_lt_Some).
  destruct (Hsc j Hj Hlt) as [[-> Hji]| ->].
  - destruct (er_wakes _ _ _ HR Hsg _ j q' Ht ltac:(cbn; by apply Nat.ltb_lt) Hq') as [?|[?|?]]; auto. right. right. eapply ec_active_insert; eauto.
  - destruct Hq as [Hq|Ha]; [left; congruence|]. right. right. eapply ec_active_insert; eauto.
Qed.

Lemma ec_receive_sim s ths qs chains t pc s' pc' (es : list ec_ev) : ec_rel (Conf s ths) qs chains -> ths !! t = Some pc ->
  receive s pc = Some (s', pc', es) -> ec_goal (Conf s ths) t qs s' pc' es.
Proof.
  intros HR Ht Hs. pose proof (er_index _ _ _ HR t pc Ht) as Hix.
  destruct pc as [| | | |sel blk i|sel i]; try discriminate Hs; assert (t = 0%nat) as -> by (by apply (er_one _ _ _ HR t _ Ht)).
  - cbn in Hs. destruct (tryReceive s i) as [[s1 r]|] eqn:Er; [|done]. cbn in Hs, Hix.
    destruct (ec_try_cases _ _ _ _ _ _ _ HR Er) as [(-> & -> & Hq)|(e & ev & q & ch & -> & Hq & Hno & Hch & E1 & E2 & E3 & E4 & E5 & E6 & HM)].
    + pose proof (ec_scan_wakes _ _ _ _ _ _ _ HR Ht Hq) as Hscan.
      destruct (decide (sel = true /\ (S i < length (ec_chans s))%nat)) as [[-> Hlt]|Hd].
      * injection Hs as <- <- <-. exists qs, chains. split; [done|]. eapply (ec_moves 0 _ HR Ht); try done.
        apply Hscan. intros j Hj _. cbn [ec_scanned] in Hj. apply Nat.ltb_lt in Hj. destruct (decide (j = i)); [auto|left; split; [done|lia]].
      * destruct blk; [|injection Hs as <- <- <-; exists qs, chains; split; [done|]; eapply (ec_moves 0 _ HR Ht); try done;
          by apply ec_wakes_restart; [|eapply lookup_lt_Some]].
        destruct (ec_signal s) as [b|] eqn:Esg; injection Hs as <- <- <-; exists qs, chains; (split; [done|]); eapply (ec_moves 0 _ HR Ht); try done.
        -- cbn [shared]. rewrite Esg. apply Hscan. intros j Hj Hlt. destruct sel; cbn in Hj; [|right; by apply Nat.eqb_eq].
           destruct (decide (j = i)); [auto|left; split; [done|]]. assert (~ (S i < length (ec_chans s))%nat) by tauto. lia.
        -- cbn. destruct sel; [lia|done].
        -- apply ec_wakes_restart; [|by eapply lookup_lt_Some]. intros j. by destruct sel.
    + injection Hs as <- <- <-. exists (<[i:=q]> qs), (<[i:=ch]> chains). split; [by apply ec_received_spec|].
      eapply (ec_rel_step 0 _ HR Ht); try done; [|by apply ec_wakes_restart; [|eapply lookup_lt_Some]].
      eapply em_perm; [| |exact HM]; [|intros j; symmetry; by eapply ec_pend_same_at].
      unfold ec_owned in *. rewrite E1, elements_union_singleton by set_solver. cbn. by rewrite (omap_insert_same ec_sending _ _ _ _ Ht).
  - cbn in Hs. destruct s as [h evs cs sg held live rc]. cbn in Hs, Hix. destruct sg as [[|]|]; try done. injection Hs as <- <- <-. exists qs, chains. split; [done|].
    eapply (ec_rel_step 0 _ HR Ht); try done; cbn.
    + eapply em_perm; [symmetry; by apply (ec_owned_same (c := Conf (EC h evs cs (Some true) held live rc) ths) 0 _ Ht)|
        intros j; symmetry; by eapply ec_pend_same_at|apply (er_mem _ _ _ HR)].
    + destruct sel; [lia|done].
    + apply ec_wakes_restart; [|by eapply lookup_lt_Some]. intros j. by destruct sel.
Qed.

Lemma ec_simulation lbl c c' es qs chains : ec_rel c qs chains -> ec_step Careful lbl c = Some (c', es) ->
  exists qs' chains', spec_run ec_spec es qs = Some qs' /\ ec_rel c' qs' chains'.
Proof.
  destruct lbl as [t ch]. destruct c as [s ths]. intros HR Hstep. apply conf_step_inv in Hstep as (pc & s' & pc' & Ht & Hs & ->). cbn [shared threads] in *.
  destruct ch as [ty a|e|e p|i e|sel blk i|], pc; try discriminate Hs; cbn [ec_tstep] in Hs;
    try (by eapply ec_send_sim); try (by eapply ec_receive_sim).
  - destruct (allocEvent ty a s) as [s1|] eqn:E; [|done]. injection Hs as <- <- <-. by eapply ec_alloc_sim.
  - case_decide as Hd; [|done]. destruct Hd as [He Hf]. destruct (freeEvent e s) as [s1|] eqn:E; [|done]. injection Hs as <- <- <-.
    eapply ec_free_sim; eauto. unfold may_free in Hf. unfold wr. destruct (ec_events s !! e) as [ev|] eqn:Ev; [by apply bool_decide_eq_true in Hf|].
    destruct s. cbn in *. by rewrite Ev in E.
  - case_decide as Hd; [|done]. destruct (setPayload e p s) as [s1|] eqn:E; [|done]. injection Hs as <- <- <-. by eapply ec_payload_sim.
  - case_decide as Hd; [|done]. destruct Hd as (He & Hi & _). injection Hs as <- <- <-. by eapply ec_call_send_sim.
  - case_decide as Hd; [|done]. destruct Hd as (-> & Hi & Hsel & _). injection Hs as <- <- <-. exists qs, chains. split; [done|].
    eapply (ec_moves 0 _ HR Ht); try done. apply ec_wakes_restart; [|by eapply lookup_lt_Some]. intros j. destruct sel; [|done].
    by rewrite (Hsel eq_refl).
Qed.

Lemma seqZ_fifos (k : nat) i f : ((fun a => Fifo a a) <$> seqZ 1 (Z.of_nat k)) !! i = Some f -> f = Fifo (1 + Z.of_nat i) (1 + Z.of_nat i).
Proof. rewrite list_lookup_fmap. intros (a & Ha & ->)%fmap_Some. by apply lookup_seqZ in Ha as [-> _]. Qed.

Lemma concat_singletons (l : list Z) : concat ((fun a => [a]) <$> l) = l.
Proof. induction l as [|a l IH]; [done|]. cbn. by rewrite IH. Qed.

Lemma concat_nils {A} (k : nat) : concat (replicate k (@nil A)) = [].
Proof. induction k as [|k IH]; [done|]. cbn. by rewrite IH. Qed.

Lemma init_heap (k : nat) a nd : (list_to_map ((fun a => (a, Node 0 NULL)) <$> seqZ 1 (Z.of_nat k)) : gmap Z node) !! a = Some nd <->
  a ∈ seqZ 1 (Z.of_nat k) /\ nd = Node 0 NULL.
Proof.
  rewrite <- elem_of_list_to_map.
  - rewrite list_elem_of_fmap. split; [intros (x & [= -> ->] & ?); done|intros [? ->]; by exists a].
  - rewrite <- list_fmap_compose. cbn. rewrite list_fmap_id. apply NoDup_seqZ.
Qed.

Lemma ec_init_rel k signal n : ec_rel (ec_init k signal n) (replicate k []) ((fun a => [a]) <$> seqZ 1 (Z.of_nat k)).
Proof.
  assert (ec_owned (shared (ec_init k signal n)) (replicate n EcIdle) = []) as Ho by (unfold ec_owned; cbn; by rewrite omap_replicate_None).
  split; cbn [ec_init shared threads ec_heap ec_events ec_chans ec_live ec_signal];
    try (by intros t pc [-> _]%lookup_replicate); [|intros _ pc j q [-> _]%lookup_replicate; done].
  unfold ec_init in Ho. cbn in Ho. rewrite Ho. split; rewrite ?concat_singletons, ?app_nil_r; cbn [fmap list_fmap].
  - by rewrite !length_fmap, length_seqZ, length_replicate, Nat2Z.id.
  - intros i f ch ->%seqZ_fifos. rewrite list_lookup_fmap. intros (a & Ha & ->)%fmap_Some. apply lookup_seqZ in Ha as [-> Hlt].
    rewrite omap_replicate_None by done. split; cbn; try done; try set_solver.
    + apply NoDup_singleton.
    + unfold NULL. rewrite list_elem_of_singleton. lia.
    + unfold load_next. destruct (_ !! _) as [nd|] eqn:E; [by apply init_heap in E as [_ ->]|]. exfalso.
      assert (1 + Z.of_nat i ∈ seqZ 1 (Z.of_nat k)) as Hin by (apply elem_of_seqZ; lia).
      rewrite (proj2 (init_heap k _ (Node 0 NULL)) (conj Hin eq_refl)) in E. done.
    + apply NoDup_nil_2.
  - intros i ch q. rewrite list_lookup_fmap. intros (a & _ & ->)%fmap_Some [-> _]%lookup_replicate. cbn. constructor.
  - apply NoDup_seqZ.
  - intros a. split; [intros [nd Hnd]; by apply init_heap in Hnd as [? _]|]. intros Ha. eexists. by apply init_heap.
  - rewrite elem_of_seqZ. unfold NULL. lia.
  - unfold ev_ids. by rewrite concat_nils.
  - set_solver.
  - intros a [? ?]. done.
  - set_solver.
  - rewrite concat_nils. set_solver.
Qed.

(** ** Prompt clients *)

(** A block carries its own event, or is the wrapper of the one received event. *)
Record ec_prompt (c : ec_conf) : Prop := {
  pr_data : forall a d, load_data (ec_heap (shared c)) a = Some d ->
    d = NULL \/ a = d \/ (d ∈ ec_received (shared c) /\ wr (ec_events (shared c)) d = a);
  pr_held : ec_received (shared c) ⊆ ec_held (shared c);
  pr_one : forall e e', e ∈ ec_received (shared c) -> e' ∈ ec_received (shared c) -> e = e';
  pr_receiving : forall pc, threads c !! 0%nat = Some pc -> ec_receiving pc = true -> ec_received (shared c) = ∅
}.

Lemma ec_live_not_null c qs chains e : ec_rel c qs chains -> e ∈ ec_live (shared c) -> e <> NULL.
Proof.
  intros HR He ->. pose proof (er_mem _ _ _ HR) as HM. apply (em_null _ _ _ _ _ _ _ _ HM), (em_heap _ _ _ _ _ _ _ _ HM).
  by apply (em_block _ _ _ _ _ _ _ _ HM), (em_event _ _ _ _ _ _ _ _ HM).
Qed.

Lemma wr_inj h evs cs owned pend live qs chains e e' : em_ok h evs cs owned pend live qs chains -> e ∈ owned -> e' ∈ owned -> wr evs e = wr evs e' -> e = e'.
Proof.
  intros HM He He' E. pose proof (em_own _ _ _ _ _ _ _ _ HM e He) as H1. pose proof (em_own _ _ _ _ _ _ _ _ HM e' He') as H2. congruence.
Qed.

(** So nothing else lives in the wrapper of an event that is freed. *)
Lemma ec_prompt_free c qs chains e : ec_rel c qs chains -> ec_prompt c -> e ∈ ec_held (shared c) ->
  wr (ec_events (shared c)) e ∉ ec_live (shared c) ∖ {[e]}.
Proof.
  intros HR HP He [Hw Hne]%elem_of_difference. rewrite elem_of_singleton in Hne. pose proof (er_mem _ _ _ HR) as HM.
  assert (forall x, x ∈ ec_held (shared c) -> x ∈ ec_owned (shared c) (threads c)) as Hown by (intros x Hx; apply elem_of_app; left; by apply elem_of_elements).
  assert (forall x, x ∈ ec_owned (shared c) (threads c) -> x ∉ ec_received (shared c) -> wr (ec_events (shared c)) x = x) as Hself.
  { intros x Hx Hr. destruct (pr_data _ HP _ _ (em_own _ _ _ _ _ _ _ _ HM x Hx)) as [->|[?|[? _]]]; try done.
    by destruct (ec_live_not_null _ _ _ _ HR (em_owned_live HM _ Hx)). }
  set (w := wr (ec_events (shared c)) e) in *.
  assert (e ∈ ec_received (shared c)) as Her by (destruct (decide (e ∈ ec_received (shared c))); [done|]; destruct Hne; by apply Hself; [apply Hown|]).
  assert (w ∉ ec_received (shared c)) as Hwr by (intros Hin; by apply Hne, (pr_one _ HP)).
  pose proof Hw as Hl. apply elem_of_elements in Hl. rewrite (em_live _ _ _ _ _ _ _ _ HM) in Hl. apply elem_of_app in Hl as [Hl|Hl].
  - apply Hne. by eapply wr_inj; [exact HM|exact Hl|by apply Hown|]; rewrite (Hself w Hl Hwr).
  - apply list_elem_of_fmap in Hl as ([x p] & Ew & Hl). apply list_elem_of_fmap in Hl as ([[d ty] p'] & Ex & Hl).
    assert (d = w) as -> by (cbn in Ew, Ex; congruence).
    apply list_elem_of_In, in_concat in Hl as (q & Hq & Hx). apply list_elem_of_In in Hq, Hx. apply list_elem_of_lookup in Hq as [i Hi].
    destruct (lookup_lt_is_Some_2 chains i) as [ch Hch]; [destruct (em_len _ _ _ _ _ _ _ _ HM) as [-> <-]; by eapply lookup_lt_Some|].
    pose proof (em_data _ _ _ _ _ _ _ _ HM i ch q Hch Hi) as Hd. apply list_elem_of_lookup in Hx as [m Hm].
    destruct (Forall2_lookup_r _ _ _ _ _ Hd Hm) as (a & Ha & Had). cbn in Had.
    destruct (pr_data _ HP _ _ Had) as [E|[Ea|[? _]]]; [|destruct (em_private HM e (Hown e He)) as (Hout & _)|done].
    + by destruct (ec_live_not_null _ _ _ _ HR Hw).
    + apply Hout. fold w. rewrite <- Ea. eapply elem_of_concat_lookup; [exact Hch|]. apply list_elem_of_lookup_2 in Ha. by destruct ch; [|right].
Qed.

(** A step of another kind keeps the data of the blocks and the received events. *)
Lemma ec_prompt_keep c s' t pc pc' : ec_prompt c -> threads c !! t = Some pc ->
  (forall a, load_data (ec_heap s') a = load_data (ec_heap (shared c)) a) ->
  (forall e, wr (ec_events s') e = wr (ec_events (shared c)) e) -> ec_received s' = ec_received (shared c) -> ec_received (shared c) ⊆ ec_held s' ->
  (ec_receiving pc' = true -> ec_receiving pc = true \/ ec_received (shared c) = ∅) -> ec_prompt (Conf s' (<[t:=pc']> (threads c))).
Proof.
  intros HP Ht Hd Hw Hr Hh Hrc. split; cbn [shared threads]; rewrite ?Hr; auto.
  - intros a d. rewrite Hd, Hw. apply HP.
  - apply HP.
  - intros p Hp Hrp. apply lookup_insert_cases in Hp as [[<- ->]|[Hne Hp]]; [|by eapply (pr_receiving _ HP)].
    destruct (Hrc Hrp) as [?|?]; [by eapply (pr_receiving _ HP)|done].
Qed.

Lemma ec_prompt_alloc s ths qs chains t ty a s' : ec_rel (Conf s ths) qs chains -> ec_prompt (Conf s ths) -> ths !! t = Some EcIdle ->
  allocEvent ty a s = Some s' -> ec_prompt (Conf s' (<[t:=EcIdle]> ths)).
Proof.
  intros HR HP Ht Hs. rewrite (list_insert_id ths t EcIdle Ht). destruct HP as [H1 H2 H3 H4]. pose proof (er_mem _ _ _ HR) as HM.
  destruct s as [h evs cs sg held live rc]. cbn in *. case_decide as Hd; [|done]. destruct Hd as [Hn Ha]. injection Hs as <-.
  split; cbn; auto; [|set_solver]. intros x d. unfold load_data at 1. rewrite lookup_insert. case_decide as Hx; cbn; [intros [= <-]; auto|].
  intros Hl. destruct (H1 x d Hl) as [?|[?|[Hr Hw]]]; auto. right. right. split; [done|]. unfold wr. rewrite lookup_insert_ne; [done|]. intros ->.
  assert (d ∈ live) as Hdl by (apply (em_owned_live HM); apply elem_of_app; left; apply elem_of_elements; by apply H2).
  destruct (em_block _ _ _ _ _ _ _ _ HM d (em_event _ _ _ _ _ _ _ _ HM d Hdl)) as [? ?]. congruence.
Qed.

Lemma ec_prompt_freed s ths qs chains t e s' : ec_rel (Conf s ths) qs chains -> ec_prompt (Conf s ths) -> ths !! t = Some EcIdle ->
  e ∈ ec_held s -> freeEvent e s = Some s' -> ec_prompt (Conf s' (<[t:=EcIdle]> ths)).
Proof.
  intros HR HP Ht He Hs. rewrite (list_insert_id ths t EcIdle Ht). pose proof (ec_prompt_free _ _ _ e HR HP He) as Hw.
  destruct HP as [H1 H2 H3 H4]. pose proof (er_mem _ _ _ HR) as HM.
  destruct s as [h evs cs sg held live rc]. cbn in *. destruct (evs !! e) as [ev|] eqn:Ev; [|done]. cbn in Hs. destruct (h !! ev_wrapper ev); [|done]. injection Hs as <-.
  assert (wr evs e = ev_wrapper ev) as Ew by (unfold wr; by rewrite Ev). rewrite Ew in Hw. set (w := ev_wrapper ev) in *.
  split; cbn; [|set_solver|set_solver|].
  - intros a d. unfold load_data at 1. destruct (decide (a = w)) as [->|Hne]; [by rewrite lookup_delete_eq|]. rewrite lookup_delete_ne by done. intros Hl.
    destruct (H1 a d Hl) as [?|[?|[Hr Hwd]]]; auto. right. right. assert (d <> e) as Hde by (intros ->; congruence). split; [set_solver|].
    unfold wr. rewrite lookup_delete_ne; [done|]. intros E. apply Hw. rewrite E. apply elem_of_difference. split; [|set_solver].
    apply (em_owned_live HM). apply elem_of_app. left. apply elem_of_elements. by apply H2.
  - intros p Hp Hrp. rewrite (H4 p Hp Hrp). set_solver.
Qed.

Lemma ec_prompt_received s ths qs chains t sel blk i s' r : ec_rel (Conf s ths) qs chains -> ec_prompt (Conf s ths) -> ths !! t = Some (EcTry sel blk i) ->
  tryReceive s i = Some (s', Some r) -> ec_prompt (Conf s' (<[t:=EcIdle]> ths)).
Proof.
  intros HR HP Ht Hs. assert (t = 0%nat) as -> by (by apply (er_one _ _ _ HR t _ Ht)). pose proof (pr_receiving _ HP _ Ht eq_refl) as Hr0.
  destruct HP as [H1 H2 H3 H4]. destruct s as [h evs cs sg held live rc]. cbn in *. subst rc.
  destruct (cs !! i) as [f|]; [|done]. cbn in Hs. rewrite eq_trypop_law in Hs. unfold pop_ref in Hs.
  destruct (load_next h (f_head f)) as [nx|]; [|done]. cbn in Hs. case_decide; [done|]. destruct (load_data h nx) as [d|] eqn:Ed; [|done]. cbn in Hs.
  destruct (store_data h (f_head f) d) as [h'|] eqn:Eh; [|done]. cbn in Hs. case_decide; [done|]. rewrite (store_data_same _ _ _ _ Eh) in Hs. cbn in Hs.
  destruct (evs !! d) as [ev|]; [|done]. injection Hs as <- <-. split; cbn; [|set_solver|set_solver|].
  - intros a x Hl. destruct (decide (a = f_head f)) as [->|Hne].
    + rewrite (store_data_same _ _ _ _ Eh) in Hl. injection Hl as <-. right. right. split; [set_solver|]. unfold wr. by rewrite lookup_insert_eq.
    + rewrite (store_data_other _ _ _ _ _ Eh Hne) in Hl. destruct (H1 a x Hl) as [?|[?|[? _]]]; auto.
  - intros p. rewrite list_lookup_insert_eq by (by eapply lookup_lt_Some). by intros [= <-].
Qed.

(** A prompt client is careful. *)
Lemma ec_prompt_step lbl c c' es qs chains : ec_rel c qs chains -> ec_prompt c -> ec_step Prompt lbl c = Some (c', es) ->
  ec_step Careful lbl c = Some (c', es) /\ ec_prompt c'.
Proof.
  destruct lbl as [t ch], c as [s ths]. intros HR HP Hstep. unfold ec_step in *. pose proof Hstep as Hstep'.
  apply conf_step_inv in Hstep as (pc & s' & pc' & Ht & Hs & ->). unfold conf_step in *. cbn [fst snd shared threads] in *. rewrite Ht in *.
  assert (ec_tstep Careful t ch s pc = Some (s', pc', es) /\ ec_prompt (Conf s' (<[t:=pc']> ths))) as [E ?]; [|by rewrite E].
  clear Hstep'. destruct ch as [ty a|e|e p|i e|sel blk i|], pc; try discriminate Hs; cbn [ec_tstep] in *.
  - split; [done|]. destruct (allocEvent ty a s) as [s1|] eqn:E; [|done]. injection Hs as <- <- <-. by eapply ec_prompt_alloc.
  - case_decide as Hd; [|done]. destruct Hd as [He _]. rewrite decide_True.
    + split; [done|]. destruct (freeEvent e s) as [s1|] eqn:E; [|done]. injection Hs as <- <- <-. by eapply ec_prompt_freed.
    + split; [done|]. pose proof (ec_prompt_free _ _ _ e HR HP He) as Hw. unfold may_free, wr in *. cbn in Hw.
      destruct (ec_events s !! e); [by apply bool_decide_eq_true|done].
  - split; [done|]. case_decide as He; [|done]. destruct s as [h evs cs sg held live rc]. cbn in Hs. destruct (evs !! e) as [ev|] eqn:Ev; [|done].
    injection Hs as <- <- <-. apply (ec_prompt_keep _ _ t _ _ HP Ht); auto; cbn; [|apply HP]. intros x. unfold wr. rewrite lookup_insert. case_decide; [subst; by rewrite Ev|done].
  - case_decide as Hd; [|done]. destruct Hd as (He & Hi & Hm & Hr%bool_decide_eq_true). rewrite decide_True by done. split; [done|]. injection Hs as <- <- <-.
    apply (ec_prompt_keep _ _ t _ _ HP Ht); auto; cbn; try done. pose proof (pr_held _ HP) as Hh. cbn in Hh. set_solver.
  - case_decide as Hd; [|done]. destruct Hd as (-> & Hi & Hsel & Hr%bool_decide_eq_true). rewrite decide_True by done. split; [done|]. injection Hs as <- <- <-.
    apply (ec_prompt_keep _ _ 0%nat _ _ HP Ht); auto; apply HP.
  - split; [done|]. destruct s as [h evs cs sg held live rc]. cbn in Hs. destruct (evs !! e) as [ev|] eqn:Ev; [|done]. cbn in Hs. destruct (cs !! i); [|done].
    cbn in Hs. rewrite eq_xchg_law in Hs. unfold xchg_ref in Hs. destruct (store_next h _ _) as [h'|] eqn:Eh; [|done]. injection Hs as <- <- <-.
    apply (ec_prompt_keep _ _ t _ _ HP Ht); auto; cbn; try apply HP; try done. intros a. by rewrite (store_next_data _ _ _ _ _ Eh).
  - split; [done|]. destruct s as [h evs cs sg held live rc]. cbn in Hs. destruct (cs !! i); [|done]. cbn in Hs. rewrite eq_link_law in Hs.
    destruct (store_next h _ _) as [h'|] eqn:Eh; [|done]. injection Hs as <- <- <-.
    apply (ec_prompt_keep _ _ t _ _ HP Ht); auto; cbn; try apply HP; [|by destruct sg]. intros a. by rewrite (store_next_data _ _ _ _ _ Eh).
  - split; [done|]. destruct s as [h evs cs sg held live rc]. injection Hs as <- <- <-. apply (ec_prompt_keep _ _ t _ _ HP Ht); auto; cbn; try apply HP; done.
  - split; [done|]. cbn in Hs. destruct (tryReceive s i) as [[s1 r]|] eqn:Er; [|done]. cbn in Hs. destruct r as [[e ev]|].
    + injection Hs as <- <- <-. by eapply ec_prompt_received.
    + destruct (ec_try_cases _ _ _ _ _ _ _ HR Er) as [(_ & -> & _)|(? & ? & ? & ? & ? & _)]; [|done].
      repeat case_match; injection Hs as <- <- <-; (apply (ec_prompt_keep _ _ t _ _ HP Ht); auto; apply HP).
  - split; [done|]. destruct s as [h evs cs sg held live rc]. cbn in Hs. destruct sg as [[|]|]; try done. injection Hs as <- <- <-.
    apply (ec_prompt_keep _ _ t _ _ HP Ht); auto; cbn; try apply HP; auto.
Qed.

Lemma ec_init_prompt k signal n : ec_prompt (ec_init k signal n).
Proof.
  split; cbn; try set_solver. intros a d Hl. unfold load_data in Hl. destruct (_ !! a) as [nd|] eqn:E; [|done]. apply init_heap in E as [_ ->]. injection Hl as <-. by left.
Qed.

Lemma ec_prompt_run ls : forall c c' es qs chains, ec_rel c qs chains -> ec_prompt c -> run (ec_step Prompt) ls c = Some (c', es) ->
  run (ec_step Careful) ls c = Some (c', es) /\ ec_prompt c'.
Proof.
  induction ls as [|l ls IH]; intros c c' es qs chains HR HP Hrun; [cbn in Hrun; by simplify_eq|].
  apply run_cons_inv in Hrun as (c1 & e1 & e2 & Hs & Hr & ->). destruct (ec_prompt_step _ _ _ _ _ _ HR HP Hs) as [Hc HP1].
  destruct (ec_simulation _ _ _ _ _ _ HR Hc) as (qs1 & chains1 & _ & HR1). destruct (IH _ _ _ _ _ HR1 HP1 Hr) as [Hr' HP'].
  split; [|done]. cbn. by rewrite Hc, Hr'.
Qed.

Lemma ec_careful_run cl k signal n ls c es : cl <> Careless -> run (ec_step cl) ls (ec_init k signal n) = Some (c, es) ->
  run (ec_step Careful) ls (ec_init k signal n) = Some (c, es) /\ (cl = Prompt -> ec_prompt c).
Proof.
  intros Hcl Hrun. destruct cl; [done|by split|].
  destruct (ec_prompt_run _ _ _ _ _ _ (ec_init_rel k signal n) (ec_init_prompt k signal n) Hrun). auto.
Qed.

Lemma ec_run_rel cl k signal n ls c es : cl <> Careless -> run (ec_step cl) ls (ec_init k signal n) = Some (c, es) ->
  exists qs chains, spec_run ec_spec es (replicate k []) = Some qs /\ ec_rel c qs chains.
Proof.
  intros Hcl Hrun. destruct (ec_careful_run _ _ _ _ _ _ _ Hcl Hrun) as [Hc _].
  destruct (run_simulation (ec_step Careful) ec_spec (Z.of_nat (length ls) + 1) (fun _ c qs => exists chains, ec_rel c qs chains))
    with (ls := ls) (n := 0) (s := ec_init k signal n) (s' := c) (evs := es) (a := replicate k (@nil (Z * Z * Z)))
    as (qs & Hq & chains & HR); eauto using ec_init_rel; [|lia].
  intros m l s s' e a _ (chains & HR) Hs. destruct (ec_simulation _ _ _ _ _ _ HR Hs) as (qs' & chains' & ? & ?). eauto.
Qed.

(** ** Properties *)

(** C14: Events arrive.  Over either queue, in every interleaving of any senders
    with a receiver on one channel or on a selector, and with events freed and
    their blocks allocated again, each channel delivers its events in the order
    sent, each once, with the type and the payload they were sent with: as long as
    clients free an event only when no other lives in its wrapper, or, simpler,
    free every event before they receive the next and send none twice. *)
Theorem event_channels_fifo cl k signal n ls c es : cl <> Careless ->
  run (ec_step cl) ls (ec_init k signal n) = Some (c, es) -> exists qs, spec_run ec_spec es (replicate k []) = Some qs.
Proof. intros Hcl Hrun. destruct (ec_run_rel _ _ _ _ _ _ _ Hcl Hrun) as (qs & chains & Hq & _). by exists qs. Qed.

Lemma chains_length h evs cs owned pend live qs chains : em_ok h evs cs owned pend live qs chains -> length (concat chains) = (length cs + length (ev_ids qs))%nat.
Proof.
  intros HM. destruct (em_len _ _ _ _ _ _ _ _ HM) as [H1 H2]. unfold ev_ids. rewrite !length_fmap.
  assert (forall i ch, chains !! i = Some ch -> exists q, qs !! i = Some q /\ length ch = S (length q)) as Hl.
  { intros i ch Hch. destruct (lookup_lt_is_Some_2 cs i) as [f Hf]; [rewrite <- H1; by eapply lookup_lt_Some|].
    destruct (lookup_lt_is_Some_2 qs i) as [q Hq]; [rewrite H2, <- H1; by eapply lookup_lt_Some|]. exists q. split; [done|].
    pose proof (ch_head _ _ _ _ (em_chain _ _ _ _ _ _ _ _ HM i f ch Hf Hch)) as H0.
    pose proof (Forall2_length _ _ _ (em_data _ _ _ _ _ _ _ _ HM i ch q Hch Hq)) as Hlen. destruct ch; [done|]. cbn in *. by rewrite Hlen. }
  rewrite <- H1. assert (length qs = length chains) as E by congruence. clear - Hl E. revert qs Hl E.
  induction chains as [|ch chains IH]; intros [|q qs] Hl E; try done. cbn. rewrite !length_app.
  destruct (Hl 0%nat ch eq_refl) as (q' & [= <-] & ->). rewrite (IH qs); [lia|intros i; apply (Hl (S i))|by injection E].
Qed.

Lemma send_goes s ths qs chains t pc : ec_rel (Conf s ths) qs chains -> ths !! t = Some pc ->
  match pc with EcSend _ _ | EcLink _ _ _ _ | EcRaise => is_Some (channel_send s pc) | _ => True end.
Proof.
  intros HR Ht. pose proof (er_mem _ _ _ HR) as HM. pose proof (er_index _ _ _ HR t pc Ht) as Hix. destruct s as [h evs cs sg held live rc]. cbn in *.
  destruct pc as [|i e|i e prev w| | |]; try done.
  - assert (e ∈ ec_owned (EC h evs cs sg held live rc) ths) as He.
    { apply elem_of_app. right. apply list_elem_of_omap. eexists. by split; [eapply list_elem_of_lookup_2|]. }
    destruct (em_event _ _ _ _ _ _ _ _ HM e (em_owned_live HM e He)) as [ev Hev]. cbn. rewrite Hev. cbn. cbn in Hix.
    destruct (lookup_lt_is_Some_2 cs i Hix) as [f Hf]. rewrite Hf. cbn. rewrite eq_xchg_law. unfold xchg_ref, store_next.
    destruct (em_private HM e He) as (_ & [nd Hnd] & _). unfold wr in Hnd. rewrite Hev in Hnd. rewrite Hnd. by eexists.
  - cbn in Hix. destruct (lookup_lt_is_Some_2 cs i Hix) as [f Hf]. cbn. rewrite Hf. cbn. rewrite eq_link_law.
    destruct (em_chain_of HM i f Hf) as (ch & q & Hch & _).
    destruct (ch_pend _ _ _ _ (em_chain _ _ _ _ _ _ _ _ HM i f ch Hf Hch) prev w) as (m & Hm & _).
    { apply list_elem_of_omap. eexists. split; [by eapply list_elem_of_lookup_2|]. cbn. by rewrite decide_True. }
    apply list_elem_of_lookup_2 in Hm. destruct (em_in_chain HM i ch prev Hch Hm) as [_ [nd Hnd]]. unfold store_next. rewrite Hnd. by eexists.
Qed.

Lemma try_goes s ths qs chains i : ec_rel (Conf s ths) qs chains -> (i < length (ec_chans s))%nat -> is_Some (tryReceive s i).
Proof.
  intros HR Hi. pose proof (er_mem _ _ _ HR) as HM. destruct s as [h evs cs sg held live rc]. cbn in *.
  destruct (lookup_lt_is_Some_2 cs i Hi) as [f Hf]. rewrite Hf. cbn. rewrite eq_trypop_law. unfold pop_ref.
  destruct (em_chain_of HM i f Hf) as (ch & q & Hch & _). pose proof (em_chain _ _ _ _ _ _ _ _ HM i f ch Hf Hch) as Hc.
  pose proof (ch_head _ _ _ _ Hc) as H0. apply list_elem_of_lookup_2 in H0. destruct (em_in_chain HM i ch _ Hch H0) as [_ [nd Hnd]].
  assert (load_next h (f_head f) = Some (nd_next nd)) as El by (unfold load_next; by rewrite Hnd). rewrite El. cbn.
  destruct (decide (nd_next nd = NULL)) as [E|Hn]; [cbn; rewrite decide_True by done; by eexists|].
  destruct (chain_pop _ _ _ _ _ _ Hc eq_refl El Hn) as (rest & -> & _).
  destruct (em_in_chain HM i _ (nd_next nd) Hch ltac:(set_solver)) as [_ [nd' Hnd']].
  assert (load_data h (nd_next nd) = Some (nd_data nd')) as Ed by (unfold load_data; by rewrite Hnd'). rewrite Ed. cbn.
  destruct (store_data h (f_head f) (nd_data nd')) as [h'|] eqn:Eh; [|unfold store_data in Eh; by rewrite Hnd in Eh]. cbn.
  case_decide; [by eexists|]. rewrite (store_data_same _ _ _ _ Eh). cbn.
  destruct (em_pop HM i f _ _ _ Hf El Hn Ed Eh) as (? & ev & ? & _ & -> & _). by eexists.
Qed.

(** Memory.  Nothing faults: a send, a receive and the use of a held event only
    touch allocated blocks, and an operation waits only for a signal that is not
    raised; prompt clients can free any event they hold.  Nothing leaks: there is
    one block per channel and one per live event. *)
Theorem event_channels_memory cl k signal n ls c es t pc : cl <> Careless ->
  run (ec_step cl) ls (ec_init k signal n) = Some (c, es) -> threads c !! t = Some pc ->
  size (ec_heap (shared c)) = (length (ec_chans (shared c)) + size (ec_live (shared c)))%nat /\
  (forall e, e ∈ ec_held (shared c) -> is_Some (ec_events (shared c) !! e) /\ is_Some (ec_heap (shared c) !! wr (ec_events (shared c)) e)) /\
  (cl = Prompt -> pc = EcIdle -> forall e, e ∈ ec_held (shared c) -> is_Some (ec_step cl (t, EcFreeEvent e) c)) /\
  (pc <> EcIdle -> is_Some (ec_step cl (t, EcGo) c) \/ (exists sel i, pc = EcWait sel i /\ ec_signal (shared c) <> Some true)).
Proof.
  intros Hcl Hrun Ht. destruct (ec_run_rel _ _ _ _ _ _ _ Hcl Hrun) as (qs & chains & _ & HR). pose proof (er_mem _ _ _ HR) as HM.
  destruct c as [s ths]. cbn [shared threads] in *.
  assert (forall e, e ∈ ec_held s -> is_Some (ec_events s !! e) /\ is_Some (ec_heap s !! wr (ec_events s) e)) as Hheld.
  { intros e He. assert (e ∈ ec_owned s ths) as Ho by (apply elem_of_app; left; by apply elem_of_elements).
    split; [by apply (em_event _ _ _ _ _ _ _ _ HM), (em_owned_live HM)|by apply (em_private HM e Ho)]. }
  split_and!; [|exact Hheld| |].
  - rewrite (NoDup_size _ _ (em_nd _ _ _ _ _ _ _ _ HM) (em_heap _ _ _ _ _ _ _ _ HM)), length_app, (chains_length _ _ _ _ _ _ _ _ HM), length_fmap.
    unfold size, set_size. cbn. rewrite (em_live _ _ _ _ _ _ _ _ HM), length_app. lia.
  - intros -> -> e He. destruct (Hheld e He) as [[ev Hev] [nd Hnd]]. unfold ec_step, conf_step. cbn. rewrite Ht. cbn. rewrite decide_True by done.
    destruct s as [h evs cs sg held live rc]. cbn in *. unfold wr in Hnd. rewrite Hev in *. cbn. rewrite Hnd. by eexists.
  - intros Hne. pose proof (er_index _ _ _ HR t pc Ht) as Hix. pose proof (send_goes _ _ _ _ t pc HR Ht) as Hgo.
    assert (is_Some (ec_tstep cl t EcGo s pc) \/ (exists sel i, pc = EcWait sel i /\ ec_signal s <> Some true)) as [[[[s' pc'] e] E]|?]; [|left|by right].
    + destruct pc as [|i e|i e prev w| |sel blk i|sel i]; try done; try (left; exact Hgo).
      * left. cbn in Hix |- *. destruct (try_goes _ _ _ _ i HR Hix) as [[s' [[e ev]|]] E]; rewrite E; cbn; [by eexists|]. repeat case_match; by eexists.
      * cbn. destruct (ec_signal s) as [[|]|] eqn:Esg; [left; by eexists|right; by exists sel, i..].
    + unfold ec_step, conf_step. cbn [fst snd shared threads]. rewrite Ht, E. by eexists.
Qed.

(** The destructor, with no operation under way: the loop ends, and frees the dummy
    and the nodes of the events still queued, and the events that live there. *)
Theorem channel_destroy_frees cl k signal n ls c es qs i q : cl <> Careless ->
  run (ec_step cl) ls (ec_init k signal n) = Some (c, es) -> spec_run ec_spec es (replicate k []) = Some qs ->
  (forall t pc, threads c !! t = Some pc -> pc = EcIdle) -> qs !! i = Some q ->
  exists freed h evs, length freed = S (length q) /\ channel_destroy (S (length freed)) i (shared c) = Some (h, evs) /\
    (forall a, h !! a = if decide (a ∈ freed) then None else ec_heap (shared c) !! a) /\
    forall e ev, evs !! e = Some ev <-> ec_events (shared c) !! e = Some ev /\ (e ∉ freed).
Proof.
  intros Hcl Hrun Hq Hidle Hi. destruct (ec_run_rel _ _ _ _ _ _ _ Hcl Hrun) as (qs' & chains & Hq' & HR). rewrite Hq in Hq'. injection Hq' as <-.
  pose proof (er_mem _ _ _ HR) as HM. destruct (em_len _ _ _ _ _ _ _ _ HM) as [L1 L2]. pose proof (lookup_lt_Some _ _ _ Hi) as Hlt.
  destruct (lookup_lt_is_Some_2 (ec_chans (shared c)) i) as [f Hf]; [lia|]. destruct (lookup_lt_is_Some_2 chains i) as [ch Hch]; [lia|].
  pose proof (em_chain _ _ _ _ _ _ _ _ HM i f ch Hf Hch) as Hc. pose proof (ch_head _ _ _ _ Hc) as H0.
  pose proof (Forall2_length _ _ _ (em_data _ _ _ _ _ _ _ _ HM i ch q Hch Hi)) as Hlen.
  assert (omap (ec_pending i) (threads c) = []) as Hp.
  { apply elem_of_nil_inv. intros x (pc & [u Hu]%list_elem_of_lookup_1 & Hx)%list_elem_of_omap. by rewrite (Hidle _ _ Hu) in Hx. }
  destruct (destroy_chain ch (ec_heap (shared c)) (S (length ch)) (f_head f) (f_tail f)) as (h & Hd & Hh); try apply Hc; [|lia|].
  { intros m a b Ha Hb. destruct (ch_link _ _ _ _ Hc m a b Ha Hb) as [[? _]|[_ Hin]]; [done|]. rewrite Hp in Hin. by apply elem_of_nil in Hin. }
  exists ch, h, (filter (fun x => is_Some (h !! x.1)) (ec_events (shared c))). split_and!; try done.
  - destruct ch; [done|]. cbn in *. by rewrite Hlen.
  - unfold channel_destroy. rewrite Hf. cbn [mbind option_bind]. by rewrite Hd.
  - intros e ev. rewrite map_lookup_filter_Some. cbn. rewrite Hh. split; intros [He Hx]; (split; [done|]).
    + intros Hin. rewrite decide_True in Hx by done. by destruct Hx.
    + rewrite decide_False by done. apply (em_block _ _ _ _ _ _ _ _ HM). by eexists.
Qed.

(** The signal stays. *)
Lemma ec_signal_step cl lbl c c' es : is_Some (ec_signal (shared c)) -> ec_step cl lbl c = Some (c', es) -> is_Some (ec_signal (shared c')).
Proof.
  destruct lbl as [t ch], c as [[h evs cs sg held live rc] ths]. intros Hsg Hs. apply conf_step_inv in Hs as (pc & s' & pc' & _ & Hs & ->). cbn in *.
  destruct ch, pc; try discriminate Hs; cbn in Hs; repeat (case_match; cbn in *; try discriminate); simplify_option_eq; try done; try by eexists.
Qed.

Lemma ec_signal_run cl ls : forall c c' es, is_Some (ec_signal (shared c)) -> run (ec_step cl) ls c = Some (c', es) -> is_Some (ec_signal (shared c')).
Proof.
  induction ls as [|l ls IH]; intros c c' es Hsg Hrun; [cbn in Hrun; by simplify_eq|].
  apply run_cons_inv in Hrun as (c1 & e1 & e2 & Hs & Hr & ->). eapply IH; [|exact Hr]. by eapply ec_signal_step.
Qed.

(** No wake-up is lost.  When the receiver sleeps and the signal is not
    raised, every channel it waits for (all of them, in a selector) is empty, or a
    sender is between its push and the raise of the signal. *)
Theorem selector_no_lost_wakeup cl k b n ls c es qs sel i : cl <> Careless ->
  run (ec_step cl) ls (ec_init k (Some b) n) = Some (c, es) -> spec_run ec_spec es (replicate k []) = Some qs ->
  threads c !! 0%nat = Some (EcWait sel i) -> ec_signal (shared c) <> Some true ->
  forall j q, sel = true \/ j = i -> qs !! j = Some q -> q = [] \/ exists t pc, threads c !! t = Some pc /\ ec_busy pc = true.
Proof.
  intros Hcl Hrun Hq Ht Hsg j q Hj Hqj. destruct (ec_run_rel _ _ _ _ _ _ _ Hcl Hrun) as (qs' & chains & Hq' & HR). rewrite Hq in Hq'. injection Hq' as <-.
  destruct (er_wakes _ _ _ HR (ec_signal_run _ _ (ec_init k (Some b) n) _ _ (ex_intro _ b eq_refl) Hrun) _ j q Ht) as [?|[?|?]]; auto; try done.
  destruct Hj as [-> | ->]; [done|]. cbn. destruct sel; [done|by apply Nat.eqb_refl].
Qed.
End ec_sims.

(** ** Runs *)

Definition egoes (t k : nat) : list (nat * ec_choice) := replicate k (t, EcGo).
(** Fiber [t] allocates an event at [a] and sends it on channel [i]. *)
Definition esend (t i : nat) (a p : Z) : list (nat * ec_choice) :=
  [(t, EcAllocEvent 7 a); (t, EcSetPayload a p); (t, EcCallSend i a)] ++ egoes t 3.
Definition erecv (i : nat) : list (nat * ec_choice) := [(0%nat, EcCallReceive false true i); (0%nat, EcGo)].
Definition eselect (k : nat) : list (nat * ec_choice) := (0%nat, EcCallReceive true true 0) :: egoes 0 k.

(** Two channels and a selector: the receiver scans both, sleeps, is woken by a
    send on the second, takes the event (now in the wrapper 2, the dummy) and frees
    it; the next event uses the block again. *)
Definition ec_demo : list (nat * ec_choice) :=
  eselect 2 ++ esend 1 1 10 100 ++ egoes 0 3 ++ [(0%nat, EcFreeEvent 10)] ++ esend 2 1 2 200 ++ eselect 2.
Definition ec_demo_evs : list ec_ev := [EvSend 1 10 7 100; EvReceived 1 10 7 100; EvSend 1 2 7 200; EvReceived 1 2 7 200].

Lemma event_channels_fifo_witness : exists qs, spec_run ec_spec ec_demo_evs [[]; []] = Some qs.
Proof. eapply (event_channels_fifo (H := UnboundedMultiProducerChannel) Prompt 2 (Some false) 3 ec_demo); [discriminate|vm_compute; reflexivity]. Defined.

Lemma event_channels_memory_witness : exists c : ec_conf,
  run (ec_step (H := UnboundedMultiProducerChannel) Prompt) ec_demo (ec_init 2 (Some false) 3) = Some (c, ec_demo_evs) /\
  size (ec_heap (shared c)) = (length (ec_chans (shared c)) + size (ec_live (shared c)))%nat.
Proof.
  eexists. split; [vm_compute; reflexivity|].
  eapply (event_channels_memory (H := UnboundedMultiProducerChannel) Prompt 2 (Some false) 3 ec_demo _ ec_demo_evs 0 EcIdle);
    [discriminate|vm_compute; reflexivity|vm_compute; reflexivity].
Defined.

(** The receiver sleeps on a selector while fiber 1, alone on channel 1 as its
    queue demands, is inside a send. *)
Definition ec_asleep : list (nat * ec_choice) := eselect 2 ++ [(2%nat, EcAllocEvent 7 10); (2%nat, EcCallSend 1 10); (2%nat, EcGo)].

Lemma selector_no_lost_wakeup_witness : exists c : ec_conf,
  run (ec_step (H := UnboundedSingleProducerChannel) Prompt) ec_asleep (ec_init 2 (Some false) 3) = Some (c, [EvSend 1 10 7 0]) /\
  ([(10, 7, 0)] = [] \/ exists t pc, threads c !! t = Some pc /\ ec_busy pc = true).
Proof.
  eexists. split; [vm_compute; reflexivity|].
  eapply (selector_no_lost_wakeup (H := UnboundedSingleProducerChannel) Prompt 2 false 3 ec_asleep _ [EvSend 1 10 7 0] [[]; [(10, 7, 0)]] true 1) with (j := 1%nat);
    [discriminate|vm_compute; reflexivity|vm_compute; reflexivity|vm_compute; reflexivity|vm_compute; discriminate|left; reflexivity|vm_compute; reflexivity].
Defined.

(** The order of the frees matters.  A client that receives two events and
    frees the second first frees the memory of the first, which it still holds; so
    does one that forwards the first to another channel. *)
Theorem free_out_of_order : exists c1 c2 : ec_conf,
  run (ec_step (H := UnboundedMultiProducerChannel) Careless)
    (esend 1 0 10 100 ++ esend 1 0 11 101 ++ erecv 0 ++ erecv 0 ++ [(0%nat, EcFreeEvent 11)]) (ec_init 2 (Some false) 2)
    = Some (c1, [EvSend 0 10 7 100; EvSend 0 11 7 101; EvReceived 0 10 7 100; EvReceived 0 11 7 101]) /\
  10 ∈ ec_held (shared c1) /\ ec_events (shared c1) !! 10 = None /\
  run (ec_step (H := UnboundedMultiProducerChannel) Careless)
    (esend 1 0 10 100 ++ esend 1 0 11 101 ++ erecv 0 ++ [(0%nat, EcCallSend 1 10)] ++ egoes 0 3 ++ erecv 0 ++
     [(0%nat, EcFreeEvent 11); (0%nat, EcCallReceive false true 1)]) (ec_init 2 (Some false) 2)
    = Some (c2, [EvSend 0 10 7 100; EvSend 0 11 7 101; EvReceived 0 10 7 100; EvSend 1 10 7 100; EvReceived 0 11 7 101]) /\
  threads c2 !! 0%nat = Some (EcTry false true 1) /\ ec_step (H := UnboundedMultiProducerChannel) Careless (0%nat, EcGo) c2 = None.
Proof.
  eexists _, _. split; [vm_compute; reflexivity|]. split; [vm_compute; reflexivity|]. split; [vm_compute; reflexivity|].
  split; [vm_compute; reflexivity|]. split; vm_compute; reflexivity.
Qed.

Lemma channel_destroy_frees_witness : exists c : ec_conf, run (ec_step (H := UnboundedMultiProducerChannel) Prompt) ec_demo (ec_init 2 (Some false) 3) = Some (c, ec_demo_evs) /\
  exists freed h evs, length freed = 1%nat /\ channel_destroy (S (length freed)) 1 (shared c) = Some (h, evs) /\
    (forall a, h !! a = if decide (a ∈ freed) then None else ec_heap (shared c) !! a) /\
    forall e ev, evs !! e = Some ev <-> ec_events (shared c) !! e = Some ev /\ (e ∉ freed).
Proof.
  eexists. split; [vm_compute; reflexivity|].
  eapply (channel_destroy_frees (H := UnboundedMultiProducerChannel) Prompt 2 (Some false) 3 ec_demo _ ec_demo_evs [[]; []] 1 []);
    [discriminate|vm_compute; reflexivity|vm_compute; reflexivity| |vm_compute; reflexivity].
  intros [|[|[|t]]] pc; vm_compute; congruence.
Defined.

(** The event that was received last is lost with its channel, though it is held. *)
Example destroy_frees_held_event : exists c : ec_conf, run (ec_step (H := UnboundedMultiProducerChannel) Prompt) ec_demo (ec_init 2 (Some false) 3) = Some (c, ec_demo_evs) /\
  2 ∈ ec_held (shared c) /\ exists h evs, channel_destroy 2 1 (shared c) = Some (h, evs) /\ evs !! 2 = None.
Proof. eexists. split; [vm_compute; reflexivity|]. split; [vm_compute; reflexivity|]. eexists _, _. split; vm_compute; reflexivity. Qed.

(** The initial state is what the constructors build. *)
Lemma ec_init_constructs k : forall s, ec_chans s = (fun a => Fifo a a) <$> seqZ 1 (Z.of_nat k) ->
  channel_construct (Some (Z.of_nat k + 1)) s =
    Some (EC (<[Z.of_nat k + 1:=Node 0 NULL]> (ec_heap s)) (ec_events s) ((fun a => Fifo a a) <$> seqZ 1 (Z.of_nat (S k))) (ec_signal s) (ec_held s) (ec_live s) (ec_received s)).
Proof.
  intros [h evs cs sg held live rc] E. cbn in *. subst cs. replace (Z.of_nat (S k)) with (Z.of_nat k + 1) by lia.
  rewrite seqZ_app by lia. rewrite fmap_app. cbn. by replace (1 + Z.of_nat k) with (Z.of_nat k + 1) by lia.
Qed.
