(* ===== verification/SchedulerLock.v ===== *)
(** * The scheduler's lock flag ([src/schedule_lock.c])

    A global integer, read and written under a readers-writer lock; [Manager] reads
    it as one value.  This file shows that it may: over the lock that [RwLock]
    shows [fiber_rwlock] to be (many readers, or one writer), at one program point
    per call of the lock and per access of the flag. *)

From S2P Require Import Prelude.

(** ** State *)

(** [sl_readers], [sl_writer]: who holds the lock. *)
Record sl_shared := SL { sl_readers : nat; sl_writer : option nat; sl_lock_using : Z }.

Inductive sl_call := AddLock | SetLockStatus | IsLockUsing.
#[global] Instance sl_call_eq_dec : EqDecision sl_call.
Proof. solve_decision. Defined.

Inductive sl_pc :=
| SlIdle
| SlRdLock (c : sl_call)                (* fiber_rwlock_rdlock *)
| SlLoad (c : sl_call)                  (* val = lock_using *)
| SlRdUnlock (c : sl_call) (val : Z)
| SlWrLock (c : sl_call)                (* fiber_rwlock_wrlock *)
| SlStore (c : sl_call)
| SlWrUnlock                            (* of set_lock_status *)
| SlWrLock2.                            (* the second one of add_lock *)

Inductive sl_choice := SlCall (c : sl_call) | SlGo.
Inductive sl_ev := EvLoad (t : nat) (v : Z) | EvStore (t : nat) (v : Z) | EvReturn (t : nat) (v : option Z).

(** ** Operations *)

Definition sl_init_data : sl_shared := SL 0 None (-1).

(** The lock. *)
Definition rdlock (s : sl_shared) : option sl_shared :=
  match sl_writer s with None => Some (SL (S (sl_readers s)) None (sl_lock_using s)) | Some _ => None end.
Definition rdunlock (s : sl_shared) : sl_shared := SL (pred (sl_readers s)) (sl_writer s) (sl_lock_using s).
Definition wrlock (t : nat) (s : sl_shared) : option sl_shared :=
  match sl_writer s, sl_readers s with None, O => Some (SL 0 (Some t) (sl_lock_using s)) | _, _ => None end.
Definition wrunlock (s : sl_shared) : sl_shared := SL (sl_readers s) None (sl_lock_using s).
Definition store_flag (v : Z) (s : sl_shared) : sl_shared := SL (sl_readers s) (sl_writer s) v.

Definition add_lock (t : nat) (s : sl_shared) (pc : sl_pc) : option (sl_shared * sl_pc * list sl_ev) :=
  match pc with
  | SlRdLock AddLock => s ← rdlock s; Some (s, SlLoad AddLock, [])
  | SlLoad AddLock => Some (s, SlRdUnlock AddLock (sl_lock_using s), [EvLoad t (sl_lock_using s)])
  | SlRdUnlock AddLock val => if Z.ltb val 0 then Some (rdunlock s, SlWrLock AddLock, []) else Some (rdunlock s, SlIdle, [EvReturn t None])
  | SlWrLock AddLock => s ← wrlock t s; Some (s, SlStore AddLock, [])
  | SlStore AddLock => Some (store_flag 0 s, SlWrLock2, [EvStore t 0])
  | SlWrLock2 => s ← wrlock t s; Some (s, SlIdle, [EvReturn t None])
  | _ => None
  end.

Definition sl_set_lock_status (t : nat) (s : sl_shared) (pc : sl_pc) : option (sl_shared * sl_pc * list sl_ev) :=
  match pc with
  | SlWrLock SetLockStatus => s ← wrlock t s; Some (s, SlStore SetLockStatus, [])
  | SlStore SetLockStatus => Some (store_flag 1 s, SlWrUnlock, [EvStore t 1])
  | SlWrUnlock => Some (wrunlock s, SlIdle, [EvReturn t None])
  | _ => None
  end.

Definition sl_is_lock_using (t : nat) (s : sl_shared) (pc : sl_pc) : option (sl_shared * sl_pc * list sl_ev) :=
  match pc with
  | SlRdLock IsLockUsing => s ← rdlock s; Some (s, SlLoad IsLockUsing, [])
  | SlLoad IsLockUsing => Some (s, SlRdUnlock IsLockUsing (sl_lock_using s), [EvLoad t (sl_lock_using s)])
  | SlRdUnlock IsLockUsing val => Some (rdunlock s, SlIdle, [EvReturn t (Some val)])
  | _ => None
  end.

Definition sl_call_of (pc : sl_pc) : option sl_call :=
  match pc with
  | SlIdle => None
  | SlRdLock c | SlLoad c | SlRdUnlock c _ | SlWrLock c | SlStore c => Some c
  | SlWrUnlock => Some SetLockStatus
  | SlWrLock2 => Some AddLock
  end.

Definition sl_tstep (t : nat) (ch : sl_choice) (s : sl_shared) (pc : sl_pc) : option (sl_shared * sl_pc * list sl_ev) :=
  match ch, sl_call_of pc with
  | SlCall c, None => Some (s, match c with SetLockStatus => SlWrLock c | _ => SlRdLock c end, [])
  | SlGo, Some AddLock => add_lock t s pc
  | SlGo, Some SetLockStatus => sl_set_lock_status t s pc
  | SlGo, Some IsLockUsing => sl_is_lock_using t s pc
  | _, _ => None
  end.

Definition sl_conf := conf sl_shared sl_pc.
Definition sl_step := conf_step sl_tstep.
Definition sl_init (n : nat) : sl_conf := Conf sl_init_data (replicate n SlIdle).

(** An integer: loads see the last store, and a call returns what it loaded. *)
Definition flag_spec (e : sl_ev) (s : Z * gmap nat Z) : option (Z * gmap nat Z) :=
  match e with
  | EvLoad t v => if decide (v = s.1) then Some (s.1, <[t:=v]> s.2) else None
  | EvStore t v => Some (v, s.2)
  | EvReturn t None => Some s
  | EvReturn t (Some v) => if decide (s.2 !! t = Some v) then Some s else None
  end.

(** ** Invariant *)

Definition sl_reading (pc : sl_pc) : nat := match pc with SlLoad _ | SlRdUnlock _ _ => 1 | _ => 0 end.
Definition sl_writing (pc : sl_pc) : bool := match pc with SlStore _ | SlWrUnlock | SlWrLock2 => true | _ => false end.

Record sl_rel (c : sl_conf) (a : Z * gmap nat Z) : Prop := {
  slr_readers : sl_readers (shared c) = sum_list_with sl_reading (threads c);
  slr_writer : forall t pc, threads c !! t = Some pc -> sl_writing pc = true <-> sl_writer (shared c) = Some t;
  slr_excl : sl_writer (shared c) <> None -> sl_readers (shared c) = 0%nat;
  slr_flag : a.1 = sl_lock_using (shared c);
  slr_loaded : forall t k v, threads c !! t = Some (SlRdUnlock k v) -> a.2 !! t = Some v
}.

Lemma sl_rel_step c a t pc s' pc' a' : sl_rel c a -> threads c !! t = Some pc ->
  (sl_readers s' + sl_reading pc = sl_readers (shared c) + sl_reading pc')%nat ->
  (sl_writing pc' = true <-> sl_writer s' = Some t) ->
  (forall u, u <> t -> sl_writer s' = Some u <-> sl_writer (shared c) = Some u) ->
  (sl_writer s' <> None -> sl_readers s' = 0%nat) ->
  a'.1 = sl_lock_using s' -> (forall k v, pc' = SlRdUnlock k v -> a'.2 !! t = Some v) -> (forall u, u <> t -> a'.2 !! u = a.2 !! u) ->
  sl_rel (Conf s' (<[t:=pc']> (threads c))) a'.
Proof.
  intros HR Ht H1 H2 H3 H4 H5 H6 H7. split; cbn [shared threads]; auto.
  - pose proof (slr_readers _ _ HR). pose proof (sum_list_with_insert sl_reading (threads c) t pc pc' Ht). lia.
  - intros u p Hu. apply lookup_insert_cases in Hu as [[<- ->]|[Hne Hu]]; [done|]. rewrite H3 by done. by apply (slr_writer _ _ HR).
  - intros u k v Hu. apply lookup_insert_cases in Hu as [[-> E]|[Hne Hu]]; [by eapply H6|]. rewrite H7 by done. by eapply (slr_loaded _ _ HR).
Qed.

Ltac sl_step HR Ht := eapply (sl_rel_step _ _ _ _ _ _ _ HR Ht); cbn; try done; try lia; try (intros; congruence); try (intros u Hu; by rewrite lookup_insert_ne).

Lemma sl_simulation lbl c c' evs a : sl_rel c a -> sl_step lbl c = Some (c', evs) -> exists a', spec_run flag_spec evs a = Some a' /\ sl_rel c' a'.
Proof.
  destruct lbl as [t ch], c as [[r w f] ths], a as [fl ld]. intros HR Hstep. apply conf_step_inv in Hstep as (pc & s' & pc' & Ht & Hs & ->). cbn [shared threads] in *.
  pose proof (slr_writer _ _ HR t pc Ht) as Hw. pose proof (slr_excl _ _ HR) as Hx. pose proof (slr_flag _ _ HR) as Hfl. cbn in Hw, Hx, Hfl. subst fl.
  pose proof (slr_readers _ _ HR) as Hrd. pose proof (sum_list_with_lookup sl_reading _ _ _ Ht) as Hge. cbn [shared threads sl_readers] in Hrd, Hge.
  destruct ch as [c|].
  - destruct pc; try discriminate Hs. cbn in Hs. injection Hs as <- <- <-. exists (f, ld). split; [done|]. sl_step HR Ht; destruct c; cbn in *; try done; try lia.
  - destruct pc as [|k|k|k val|k|k| |]; try (destruct k); try discriminate Hs; cbn in Hs, Hw, Hge;
      try (destruct w as [x|]; [done|]; cbn in Hs); try (destruct r as [|r']; [|done]; cbn in Hs); try (destruct (Z.ltb val 0));
      injection Hs as <- <- <-.
    + exists (f, ld). split; [done|]. sl_step HR Ht; naive_solver.
    + exists (f, ld). split; [done|]. sl_step HR Ht; naive_solver.
    + exists (f, <[t:=f]> ld). split; [cbn [spec_run flag_spec fst snd]; by rewrite decide_True|]. sl_step HR Ht; intros; simplify_eq; by rewrite lookup_insert_eq.
    + exists (f, <[t:=f]> ld). split; [cbn [spec_run flag_spec fst snd]; by rewrite decide_True|]. sl_step HR Ht; intros; simplify_eq; by rewrite lookup_insert_eq.
    + exists (f, ld). split; [done|]. sl_step HR Ht; naive_solver lia.
    + exists (f, ld). split; [done|]. sl_step HR Ht; naive_solver lia.
    + exists (f, ld). split; [cbn [spec_run flag_spec fst snd]; rewrite decide_True; [done|]; by eapply (slr_loaded _ _ HR)|]. sl_step HR Ht; naive_solver lia.
    + exists (f, ld). split; [cbn [spec_run flag_spec fst snd]; rewrite decide_True; [done|]; by eapply (slr_loaded _ _ HR)|]. sl_step HR Ht; naive_solver lia.
    + exists (f, ld). split; [done|]. sl_step HR Ht; naive_solver.
    + exists (f, ld). split; [done|]. sl_step HR Ht; naive_solver.
    + exists (0, ld). split; [done|]. sl_step HR Ht; naive_solver.
    + exists (1, ld). split; [done|]. sl_step HR Ht; naive_solver.
    + exists (f, ld). split; [done|]. sl_step HR Ht; naive_solver.
    + destruct Hw as [Hw _]. discriminate (Hw eq_refl).
Qed.

Lemma sl_init_rel n : sl_rel (sl_init n) (-1, ∅).
Proof.
  split; cbn; try done.
  - by induction n.
  - intros t pc [-> _]%lookup_replicate. done.
  - intros t k v [E _]%lookup_replicate. done.
Qed.

Lemma sl_run_rel n ls c evs : run sl_step ls (sl_init n) = Some (c, evs) -> exists a, spec_run flag_spec evs (-1, ∅) = Some a /\ sl_rel c a.
Proof.
  intros Hrun. destruct (run_simulation sl_step flag_spec (Z.of_nat (length ls) + 1) (fun _ => sl_rel))
    with (ls := ls) (n := 0) (s := sl_init n) (s' := c) (evs := evs) (a := (-1, ∅ : gmap nat Z)) as (a & Ha & HR); eauto using sl_init_rel; [|lia].
  intros k l s s' e a _ HR Hs. by eapply sl_simulation.
Qed.

Definition sl_accesses (pc : sl_pc) : bool := match pc with SlLoad _ | SlStore _ => true | _ => false end.

(** ** Properties *)

(** The flag is one integer.  In every interleaving each load sees the last store,
    and [is_lock_using] returns what it loaded; and no store is ever concurrent
    with another access, so the plain accesses of the code do not race. *)
Theorem lock_flag_atomic n ls c evs : run sl_step ls (sl_init n) = Some (c, evs) ->
  (exists a, spec_run flag_spec evs (-1, ∅) = Some a) /\
  forall t u k pc, threads c !! t = Some (SlStore k) -> threads c !! u = Some pc -> u <> t -> sl_accesses pc = false.
Proof.
  intros Hrun. destruct (sl_run_rel _ _ _ _ Hrun) as (a & Ha & HR). split; [by exists a|]. intros t u k pc Ht Hu Hne.
  pose proof (proj1 (slr_writer _ _ HR t _ Ht) eq_refl) as Hw. destruct pc; try done.
  - pose proof (slr_excl _ _ HR ltac:(congruence)) as H0. rewrite (slr_readers _ _ HR) in H0.
    pose proof (sum_list_with_lookup sl_reading _ _ _ Hu) as Hge. cbn in Hge. lia.
  - pose proof (proj1 (slr_writer _ _ HR u _ Hu) eq_refl). congruence.
Qed.

Lemma sl_stuck_step c a t lbl c' evs : sl_rel c a -> threads c !! t = Some SlWrLock2 -> sl_step lbl c = Some (c', evs) ->
  threads c' !! t = Some SlWrLock2 /\ evs = [].
Proof.
  intros HR Ht Hs. pose proof (proj1 (slr_writer _ _ HR t _ Ht) eq_refl) as Hw.
  pose proof (slr_excl _ _ HR ltac:(congruence)) as H0. rewrite (slr_readers _ _ HR) in H0.
  destruct lbl as [u ch]. apply conf_step_inv in Hs as (pc & s' & pc' & Hu & Hs & ->). cbn [threads].
  pose proof (sum_list_with_lookup sl_reading _ _ _ Hu) as Hge. pose proof (slr_writer _ _ HR u _ Hu) as Hwu.
  destruct (decide (u = t)) as [->|Hne].
  - rewrite Ht in Hu. injection Hu as <-. destruct ch; [done|]. cbn in Hs. unfold wrlock in Hs. by rewrite Hw in Hs.
  - rewrite list_lookup_insert_ne by congruence. split; [done|]. rewrite Hw in Hwu.
    destruct ch as [k0|], pc as [|k|k|k v|k|k| |]; try (destruct k); try discriminate Hs; cbn in Hs, Hge, Hwu; unfold rdlock, wrlock in Hs;
      rewrite ?Hw in Hs; try discriminate Hs; try lia; try (destruct Hwu as [Hwu _]; specialize (Hwu eq_refl); congruence); by injection Hs as <- <- <-.
Qed.

(** [add_lock] hangs.  It stores 0 and then asks for the write lock it holds: from
    there on, whatever the others do, it never returns, and no other call reads the
    flag, writes it or returns. *)
Theorem add_lock_deadlocks n ls c evs t ls' c' evs' : run sl_step ls (sl_init n) = Some (c, evs) ->
  threads c !! t = Some SlWrLock2 -> run sl_step ls' c = Some (c', evs') -> threads c' !! t = Some SlWrLock2 /\ evs' = [].
Proof.
  intros Hrun. destruct (sl_run_rel _ _ _ _ Hrun) as (a & _ & HR). clear Hrun. revert c a HR evs'.
  induction ls' as [|l ls' IH]; intros c a HR evs' Ht Hrun; [cbn in Hrun; by simplify_eq|].
  apply run_cons_inv in Hrun as (c1 & e1 & e2 & Hs & Hr & ->). destruct (sl_stuck_step _ _ _ _ _ _ HR Ht Hs) as [Ht1 ->].
  destruct (sl_simulation _ _ _ _ _ HR Hs) as (a1 & _ & HR1). by apply (IH _ _ HR1).
Qed.

(** ** Runs *)

Definition slgo (t k : nat) : list (nat * sl_choice) := replicate k (t, SlGo).
Definition sl_demo : list (nat * sl_choice) := [(0, SlCall IsLockUsing); (1, SlCall SetLockStatus)]%nat ++ slgo 0 3 ++ slgo 1 3 ++ (0%nat, SlCall IsLockUsing) :: slgo 0 3.

Lemma lock_flag_atomic_witness : exists c : sl_conf,
  run sl_step sl_demo (sl_init 2) = Some (c, [EvLoad 0 (-1); EvReturn 0 (Some (-1)); EvStore 1 1; EvReturn 1 None; EvLoad 0 1; EvReturn 0 (Some 1)]) /\
  exists a, spec_run flag_spec [EvLoad 0 (-1); EvReturn 0 (Some (-1)); EvStore 1 1; EvReturn 1 None; EvLoad 0 1; EvReturn 0 (Some 1)] (-1, ∅) = Some a.
Proof. eexists. split; [vm_compute; reflexivity|]. eapply (lock_flag_atomic 2 sl_demo). vm_compute. reflexivity. Defined.

Lemma add_lock_deadlocks_witness : exists c c' : sl_conf,
  run sl_step ((0%nat, SlCall AddLock) :: slgo 0 5) (sl_init 2) = Some (c, [EvLoad 0 (-1); EvStore 0 0]) /\
  run sl_step [(1%nat, SlCall IsLockUsing)] c = Some (c', []) /\ threads c' !! 0%nat = Some SlWrLock2 /\ @nil sl_ev = [].
Proof.
  eexists _, _. split; [vm_compute; reflexivity|]. split; [vm_compute; reflexivity|].
  eapply (add_lock_deadlocks 2 ((0%nat, SlCall AddLock) :: slgo 0 5) _ _ 0 [(1%nat, SlCall IsLockUsing)]); vm_compute; reflexivity.
Defined.
