(* ===== verification/ContextPort.v ===== *)
(** * Machine32 contexts elsewhere ([src/fiber_context.c])

    The two other variants of the switch: i386 with fast switching, run by an
    interpreter for its instructions over a memory of 4-byte cells, and the one over
    [ucontext], where [getcontext], [makecontext] and [swapcontext] are as POSIX
    describes them.  Stacks come from [malloc]; what it returns is an input. *)

From S2P Require Import Prelude MpscFifo.

(** ** i386 *)

Module I386.

Abbreviation memory32 := (gmap Z Z).

Definition load32 (m : memory32) (a : Z) : option Z := m !! a.
Definition store32 (m : memory32) (a v : Z) : option memory32 :=
  match m !! a with Some _ => Some (<[a:=v]> m) | None => None end.

(** The cells of a fresh block32 of [count] words at [base]. *)
Definition block32 (base : Z) (count : nat) : memory32 := list_to_map ((fun i => (base + 4 * Z.of_nat i, 0)) <$> seq 0 count).

(** The fields of a [fiber_context_t]. *)
Definition ctx_stack32 (c : Z) : Z := c.
Definition ctx_size32 (c : Z) : Z := c + 4.
Definition ctx_sp32 (c : Z) : Z := c + 8.
Definition is_thread32 (c : Z) : Z := c + 16.

Definition EINVAL32 : Z := 22.

(** [fiber_context_alloc_stack] with [FIBER_STACK_MALLOC]; [p]: what [malloc]
    returns. *)
Definition i386_alloc_stack (p : Z) (m : memory32) (context stack_size : Z) : option (bool * memory32) :=
  let m := if Z.eqb p NULL then m else block32 p (Z.to_nat (stack_size / 4)) ∪ m in
  m ← store32 m (ctx_stack32 context) p;
  m ← store32 m (ctx_size32 context) stack_size;
  Some (negb (Z.eqb p NULL), m).

(** [*--context->ctx_stack_pointer = v]. *)
Definition push_ctx32 (m : memory32) (context v : Z) : option memory32 :=
  sp ← load32 m (ctx_sp32 context);
  m ← store32 m (ctx_sp32 context) (u32 (sp - 4));
  store32 m (u32 (sp - 4)) v.

Fixpoint push_all32 (m : memory32) (context : Z) (vs : list Z) : option memory32 :=
  match vs with [] => Some m | v :: vs => m ← push_ctx32 m context v; push_all32 m context vs end.

(** [fiber_context_init]: the result, [errno] if it is set, and the memory. *)
Definition i386_context_init (p : Z) (m : memory32) (context stack_size run_function param : Z) : option (Z * option Z * memory32) :=
  if Z.eqb context NULL || Z.eqb stack_size 0 || Z.eqb run_function NULL then Some (FIBER_ERROR, Some EINVAL32, m)
  else
    '(ok, m) ← i386_alloc_stack p m context stack_size;
    if negb ok then Some (FIBER_ERROR, None, m)
    else
      st ← load32 m (ctx_stack32 context);
      size ← load32 m (ctx_size32 context);
      let sp := u32 (st + size - 4) in
      let sp := Z.land sp (2 ^ 32 - 16) in
      m ← store32 m (ctx_sp32 context) (u32 (sp - 4));
      m ← push_all32 m context [param; NULL; run_function];
      sp ← load32 m (ctx_sp32 context);
      if negb (Z.eqb (Z.land sp 15) 0) then None
      else m ← store32 m (is_thread32 context) 0; Some (FIBER_SUCCESS, None, m).

Definition i386_context_init_from_thread (m : memory32) (context : Z) : option (Z * option Z * memory32) :=
  if Z.eqb context NULL then Some (FIBER_ERROR, Some EINVAL32, m)
  else
    m ← store32 m (ctx_stack32 context) 0; m ← store32 m (ctx_size32 context) 0;
    m ← store32 m (ctx_sp32 context) 0; m ← store32 m (is_thread32 context) 1;
    Some (FIBER_SUCCESS, None, m).

Definition i386_context_destroy (m : memory32) (context : Z) : option memory32 :=
  if Z.eqb context NULL then Some m
  else
    t ← load32 m (is_thread32 context);
    if Z.eqb t 0 then
      st ← load32 m (ctx_stack32 context); size ← load32 m (ctx_size32 context);
      Some (m ∖ block32 st (Z.to_nat (size / 4)))
    else Some m.

(** *** The switch *)

Inductive reg32 := EAX | ECX | EDX | ESP | EBP.
#[global] Instance reg32_eq_dec : EqDecision reg32.
Proof. solve_decision. Defined.

Record machine32 := Machine32 { regs32 : reg32 -> Z; mem32 : memory32; eip : Z }.
Definition upd32 (r : reg32 -> Z) (d : reg32) (v : Z) : reg32 -> Z := fun x => if decide (x = d) then v else r x.

Inductive instr32 := Pushl (s : reg32) | Pushl_label | Movl_store (s b : reg32) | Movl (s d : reg32) | Popl (d : reg32) | Jmp (s : reg32).

Definition push_word (v : Z) (x : machine32) : option machine32 :=
  let sp := u32 (regs32 x ESP - 4) in m ← store32 (mem32 x) sp v; Some (Machine32 (upd32 (regs32 x) ESP sp) m (eip x)).

Definition exec32_1 (label : Z) (i : instr32) (x : machine32) : option machine32 :=
  let r := regs32 x in
  match i with
  | Pushl s => push_word (r s) x
  | Pushl_label => push_word label x
  | Movl_store s b => m ← store32 (mem32 x) (r b) (r s); Some (Machine32 r m (eip x))
  | Movl s d => Some (Machine32 (upd32 r d (r s)) (mem32 x) (eip x))
  | Popl d => v ← load32 (mem32 x) (r ESP); Some (Machine32 (upd32 (upd32 r ESP (u32 (r ESP + 4))) d v) (mem32 x) (eip x))
  | Jmp s => Some (Machine32 r (mem32 x) (r s))
  end.

Fixpoint exec32 (label : Z) (code : list instr32) (x : machine32) : option machine32 :=
  match code with [] => Some x | i :: code => x ← exec32_1 label i x; exec32 label code x end.

(** The assembly, with [%[from]] in [eax] and [%[to]] in [edx], up to the jump; and
    what follows the label [0:]. *)
Definition i386_swap_asm : list instr32 := [Pushl EBP; Pushl_label; Movl_store ESP EAX; Movl EDX ESP; Popl ECX; Jmp ECX].
Definition i386_resume_asm : list instr32 := [Popl EBP].

(** [fiber_context_swap] up to the jump; [label]: the address of [0:]. *)
Definition i386_context_swap (label : Z) (x : machine32) (from_context to_context : Z) : option machine32 :=
  if Z.eqb from_context NULL || Z.eqb to_context NULL then None
  else
    to_sp ← load32 (mem32 x) (ctx_sp32 to_context);
    exec32 label i386_swap_asm (Machine32 (upd32 (upd32 (regs32 x) EAX (ctx_sp32 from_context)) EDX to_sp) (mem32 x) (eip x)).

(** *** Lemmas *)

Lemma store32_mapped m a v : is_Some (m !! a) -> store32 m a v = Some (<[a:=v]> m).
Proof. intros [y Hy]. unfold store32. by rewrite Hy. Qed.

(** The running context can be suspended in [from]: two free words below its stack
    pointer, apart from the context. *)
Definition can_suspend32 (x : machine32) (from : Z) : Prop :=
  from <> NULL /\ 8 <= regs32 x ESP < 2 ^ 32 /\ is_Some (mem32 x !! (regs32 x ESP - 4)) /\ is_Some (mem32 x !! (regs32 x ESP - 8)) /\
  is_Some (mem32 x !! ctx_sp32 from) /\ ctx_sp32 from <> regs32 x ESP - 4 /\ ctx_sp32 from <> regs32 x ESP - 8.

(** The memory after suspending it. *)
Definition suspended32 (label : Z) (x : machine32) (from : Z) : memory32 :=
  <[ctx_sp32 from:=regs32 x ESP - 8]> (<[regs32 x ESP - 8:=label]> (<[regs32 x ESP - 4:=regs32 x EBP]> (mem32 x))).

Lemma push32_spec v x : 4 <= regs32 x ESP < 2 ^ 32 + 4 -> is_Some (mem32 x !! (regs32 x ESP - 4)) ->
  push_word v x = Some (Machine32 (upd32 (regs32 x) ESP (regs32 x ESP - 4)) (<[regs32 x ESP - 4:=v]> (mem32 x)) (eip x)).
Proof. intros Hr Hm. unfold push_word. rewrite u32_small by lia. by rewrite store32_mapped. Qed.

Lemma swap32_spec label x from to to_sp resume : can_suspend32 x from -> to <> NULL ->
  mem32 x !! ctx_sp32 to = Some to_sp -> mem32 x !! to_sp = Some resume -> 0 <= to_sp < 2 ^ 32 - 4 ->
  to_sp <> ctx_sp32 from -> to_sp <> regs32 x ESP - 4 -> to_sp <> regs32 x ESP - 8 ->
  exists x', i386_context_swap label x from to = Some x' /\ eip x' = resume /\ regs32 x' ESP = to_sp + 4 /\ mem32 x' = suspended32 label x from.
Proof.
  intros (Hf & Hsp & M1 & M2 & M3 & A1 & A2) Hto Hto_sp Hres Hr N1 N2 N3. unfold i386_context_swap, load32.
  rewrite (proj2 (Z.eqb_neq from NULL)), (proj2 (Z.eqb_neq to NULL)), Hto_sp by done. cbn [orb mbind option_bind].
  unfold i386_swap_asm. set (x0 := Machine32 _ (mem32 x) (eip x)).
  assert (regs32 x0 ESP = regs32 x ESP /\ regs32 x0 EBP = regs32 x EBP /\ regs32 x0 EAX = ctx_sp32 from /\ regs32 x0 EDX = to_sp) as (R1 & R2 & R3 & R4) by done.
  assert (mem32 x0 = mem32 x) as Em by done. clearbody x0. cbn [exec32 exec32_1].
  rewrite push32_spec by (rewrite ?Em, ?R1; done || lia). cbn [mbind option_bind]. set (x1 := Machine32 _ _ _).
  assert (regs32 x1 ESP = regs32 x ESP - 4) as R1' by (unfold x1; cbn; by rewrite <- R1).
  rewrite (push32_spec label x1); [|rewrite R1'; lia|].
  2: { rewrite R1'. replace (regs32 x ESP - 4 - 4) with (regs32 x ESP - 8) by lia. unfold x1. cbn [mem32]. by rewrite R1, Em, lookup_insert_ne by lia. }
  cbn [mbind option_bind]. set (x2 := Machine32 _ _ (eip x1)).
  assert (regs32 x2 ESP = regs32 x ESP - 8 /\ regs32 x2 EAX = ctx_sp32 from /\ regs32 x2 EDX = to_sp) as (S1 & S2 & S3)
    by (split_and!; [change (regs32 x1 ESP - 4 = regs32 x ESP - 8); rewrite R1'; lia|exact R3|exact R4]).
  assert (mem32 x2 = <[regs32 x ESP - 8:=label]> (<[regs32 x ESP - 4:=regs32 x EBP]> (mem32 x))) as Em2.
  { unfold x2. cbn [mem32]. rewrite R1'. replace (regs32 x ESP - 4 - 4) with (regs32 x ESP - 8) by lia. unfold x1. cbn [mem32]. by rewrite R1, R2, Em. }
  clearbody x2. rewrite S1, S2, store32_mapped by (rewrite Em2, !lookup_insert_ne by congruence; done). cbn [mbind option_bind regs32 mem32 eip].
  rewrite S3. unfold load32. change (upd32 (regs32 x2) ESP to_sp ESP) with to_sp.
  rewrite Em2, !lookup_insert_ne, Hres by congruence. cbn [mbind option_bind regs32 mem32 eip].
  eexists. split; [reflexivity|]. cbn. split_and!; [done|by rewrite u32_small by lia|done].
Qed.

Lemma suspended32_own label x from : can_suspend32 x from ->
  suspended32 label x from !! ctx_sp32 from = Some (regs32 x ESP - 8) /\ suspended32 label x from !! (regs32 x ESP - 8) = Some label /\
  suspended32 label x from !! (regs32 x ESP - 4) = Some (regs32 x EBP).
Proof.
  intros (_ & _ & _ & _ & _ & A1 & A2). unfold suspended32. split_and!; [apply lookup_insert_eq|rewrite lookup_insert_ne by congruence; apply lookup_insert_eq|].
  rewrite lookup_insert_ne, lookup_insert_ne by (congruence || lia). apply lookup_insert_eq.
Qed.

(** Switching away and back on i386.  A context that switches away is continued by
    any later switch to it at its label, whose code leaves it with the stack pointer
    and the frame pointer it had, provided its stack was left alone.  (The other
    registers are declared as clobbered, so the compiler keeps nothing in them.) *)
Theorem swap32_roundtrip label x a b b_sp resume : can_suspend32 x a -> b <> NULL ->
  mem32 x !! ctx_sp32 b = Some b_sp -> mem32 x !! b_sp = Some resume -> 0 <= b_sp < 2 ^ 32 - 4 ->
  b_sp <> ctx_sp32 a -> b_sp <> regs32 x ESP - 4 -> b_sp <> regs32 x ESP - 8 ->
  exists x', i386_context_swap label x a b = Some x' /\ eip x' = resume /\ regs32 x' ESP = b_sp + 4 /\
    forall y c label',
      (forall w, w = regs32 x ESP - 8 \/ w = regs32 x ESP - 4 \/ w = ctx_sp32 a -> mem32 y !! w = mem32 x' !! w) ->
      can_suspend32 y c -> regs32 x ESP - 8 <> ctx_sp32 c -> regs32 x ESP - 4 <> ctx_sp32 c ->
      (forall w, w = regs32 x ESP - 8 \/ w = regs32 x ESP - 4 -> w <> regs32 y ESP - 4 /\ w <> regs32 y ESP - 8) ->
      exists z z', i386_context_swap label' y c a = Some z /\ eip z = label /\ exec32 label i386_resume_asm z = Some z' /\
        regs32 z' ESP = regs32 x ESP /\ regs32 z' EBP = regs32 x EBP.
Proof.
  intros Hs Hb Hbsp Hres Hr N1 N2 N3. destruct (swap32_spec label x a b b_sp resume) as (x' & E & E1 & E2 & E3); try done.
  exists x'. split_and!; try done. intros y c label' Hag Hcs C1 C2 Hap. destruct (suspended32_own label x a Hs) as (O1 & O2 & O3). rewrite <- E3 in O1, O2, O3.
  destruct Hs as (Ha & Hsp & _). destruct (Hap (regs32 x ESP - 8)) as [P1 P2]; [auto|]. destruct (Hap (regs32 x ESP - 4)) as [P3 P4]; [auto|].
  destruct (swap32_spec label' y c a (regs32 x ESP - 8) label) as (z & Z & Z1 & Z2 & Z3); try done; [rewrite Hag by auto; done|rewrite Hag by auto; done|lia|].
  exists z. cbn [i386_resume_asm exec32 exec32_1]. unfold load32. rewrite Z2. replace (regs32 x ESP - 8 + 4) with (regs32 x ESP - 4) by lia.
  rewrite Z3. unfold suspended32. rewrite !lookup_insert_ne, Hag, O3 by (congruence || auto). cbn [mbind option_bind].
  eexists. split; [done|]. split; [done|]. split; [reflexivity|]. split; [|done].
  change (u32 (regs32 x ESP - 4 + 4) = regs32 x ESP). rewrite u32_small by lia. lia.
Qed.

(** *** New contexts *)

Lemma land_align16 a : 0 <= a < 2 ^ 32 -> Z.land a (2 ^ 32 - 16) = a / 16 * 16.
Proof.
  intros Ha. replace (2 ^ 32 - 16) with (Z.land (Z.ones 32) (Z.lnot (Z.ones 4))) by reflexivity.
  rewrite Z.land_assoc, Z.land_ones, Z.mod_small by lia.
  rewrite <- Z.ldiff_land, Z.ldiff_ones_r, Z.shiftr_div_pow2, Z.shiftl_mul_pow2 by lia. done.
Qed.

Lemma block32_mapped base n i : (i < n)%nat -> is_Some (block32 base n !! (base + 4 * Z.of_nat i)).
Proof.
  intros Hi. assert (block32 base n !! (base + 4 * Z.of_nat i) = Some 0) as ->; [|by eexists]. unfold block32. apply elem_of_list_to_map.
  - rewrite <- list_fmap_compose. apply NoDup_fmap_2_strong; [|apply NoDup_seq]. cbn. intros. lia.
  - apply list_elem_of_fmap. exists i. split; [done|]. apply elem_of_seq. lia.
Qed.

(** The fields of the context are memory, and [malloc] returned an aligned block
    apart from them. *)
Definition malloc32_ok (p : Z) (m : memory32) (c stack_size : Z) : Prop :=
  c <> NULL /\ 0 < p /\ p mod 4 = 0 /\ p + stack_size < 2 ^ 32 /\
  Forall (fun a => is_Some (m !! a) /\ (a < p \/ p + stack_size <= a)) [ctx_stack32 c; ctx_size32 c; ctx_sp32 c; is_thread32 c].

Lemma push_ctx32_spec m c sp v : m !! ctx_sp32 c = Some sp -> 4 <= sp < 2 ^ 32 -> is_Some (m !! (sp - 4)) -> sp - 4 <> ctx_sp32 c ->
  push_ctx32 m c v = Some (<[sp - 4:=v]> (<[ctx_sp32 c:=sp - 4]> m)).
Proof.
  intros Hc Hr Hm Hne. unfold push_ctx32, load32. rewrite Hc. cbn [mbind option_bind]. rewrite !u32_small by lia.
  rewrite store32_mapped by (by eexists). cbn [mbind option_bind]. apply store32_mapped. by rewrite lookup_insert_ne by congruence.
Qed.

Lemma alloc32_spec p m c stack_size : malloc32_ok p m c stack_size -> exists m1, i386_alloc_stack p m c stack_size = Some (true, m1) /\
  m1 !! ctx_stack32 c = Some p /\ m1 !! ctx_size32 c = Some stack_size /\ is_Some (m1 !! ctx_sp32 c) /\ is_Some (m1 !! is_thread32 c) /\
  forall i, (i < Z.to_nat (stack_size / 4))%nat -> is_Some (m1 !! (p + 4 * Z.of_nat i)).
Proof.
  intros (Hc & Hp & Hal & Hlt & Hf). rewrite !Forall_cons in Hf. destruct Hf as ([F1 _] & [F2 _] & [F3 _] & [F4 _] & _).
  unfold i386_alloc_stack. rewrite (proj2 (Z.eqb_neq p NULL)) by (unfold NULL; lia). set (b := block32 p _).
  assert (forall a, is_Some (m !! a) -> is_Some ((b ∪ m) !! a)) as Hu by (intros a Ha; apply lookup_union_is_Some; auto).
  rewrite store32_mapped by auto. cbn [mbind option_bind].
  assert (forall (m0 : memory32) a v w, is_Some (m0 !! a) -> is_Some (<[w:=v]> m0 !! a)) as Hi by (intros m0 a v w Ha; rewrite lookup_insert; case_decide; [by eexists|done]).
  rewrite store32_mapped by auto. cbn [mbind option_bind negb]. eexists. split; [reflexivity|]. unfold ctx_stack32, ctx_size32, ctx_sp32, is_thread32 in *.
  split_and!; [rewrite lookup_insert_ne by lia; apply lookup_insert_eq|apply lookup_insert_eq|auto|auto|].
  intros i Hin. apply Hi, Hi, lookup_union_is_Some. left. by apply block32_mapped.
Qed.

Lemma pushes32_spec m c top a b d : m !! ctx_sp32 c = Some top -> 12 <= top < 2 ^ 32 ->
  (forall w, w = top - 4 \/ w = top - 8 \/ w = top - 12 -> is_Some (m !! w) /\ w <> ctx_sp32 c) ->
  exists m', push_all32 m c [a; b; d] = Some m' /\
    m' !! ctx_sp32 c = Some (top - 12) /\ m' !! (top - 12) = Some d /\ m' !! (top - 8) = Some b /\ m' !! (top - 4) = Some a /\
    forall w, is_Some (m !! w) -> is_Some (m' !! w).
Proof.
  intros Hc Hr Hw. destruct (Hw (top - 4)) as [M1 N1]; [auto|]. destruct (Hw (top - 8)) as [M2 N2]; [auto|]. destruct (Hw (top - 12)) as [M3 N3]; [auto|].
  cbn [push_all32]. rewrite (push_ctx32_spec m c top) by (done || lia). cbn [mbind option_bind].
  rewrite (push_ctx32_spec _ c (top - 4)); [|by rewrite lookup_insert_ne, lookup_insert_eq by done|lia| |].
  2: { replace (top - 4 - 4) with (top - 8) by lia. by rewrite !lookup_insert_ne by (done || lia || congruence). }
  2: { by replace (top - 4 - 4) with (top - 8) by lia. }
  cbn [mbind option_bind]. replace (top - 4 - 4) with (top - 8) by lia.
  rewrite (push_ctx32_spec _ c (top - 8)); [|by rewrite lookup_insert_ne, lookup_insert_eq by done|lia| |].
  2: { replace (top - 8 - 4) with (top - 12) by lia. by rewrite !lookup_insert_ne by (done || lia || congruence). }
  2: { by replace (top - 8 - 4) with (top - 12) by lia. }
  replace (top - 8 - 4) with (top - 12) by lia. eexists. split; [reflexivity|]. split_and!.
  - by rewrite lookup_insert_ne, lookup_insert_eq by done.
  - apply lookup_insert_eq.
  - by rewrite !lookup_insert_ne, lookup_insert_eq by (lia || congruence).
  - rewrite lookup_insert_ne, lookup_insert_ne, lookup_insert_ne, lookup_insert_ne by (lia || congruence). by rewrite lookup_insert_eq.
  - intros w Hsw. rewrite !lookup_insert. repeat (case_decide; [by eexists|]). done.
Qed.

(** A new context on i386.  Its first switch enters [run_function] with a null
    return address and the parameter on the stack; but there the stack is not
    aligned as compilers assume: [esp + 4] is 8 modulo 16. *)
Theorem init32_enters p m c stack_size run param : malloc32_ok p m c stack_size -> 64 <= stack_size -> run <> NULL ->
  exists m' sp, i386_context_init p m c stack_size run param = Some (FIBER_SUCCESS, None, m') /\
    m' !! ctx_sp32 c = Some sp /\ sp mod 16 = 0 /\ p <= sp /\ sp + 12 <= p + stack_size /\
    forall label x from, mem32 x = m' -> can_suspend32 x from -> from <> c -> (regs32 x ESP <= sp \/ sp + 24 <= regs32 x ESP) ->
      (ctx_sp32 from < sp \/ sp + 12 <= ctx_sp32 from) ->
      exists x', i386_context_swap label x from c = Some x' /\ eip x' = run /\ mem32 x' !! regs32 x' ESP = Some NULL /\
        mem32 x' !! (regs32 x' ESP + 4) = Some param /\ (regs32 x' ESP + 4) mod 16 = 8.
Proof.
  intros Hok Hsz Hrun. destruct (alloc32_spec _ _ _ _ Hok) as (m1 & E1 & S1 & S2 & S3 & S4 & S5).
  destruct Hok as (Hc & Hp & Hal & Hlt & Hf). rewrite !Forall_cons in Hf. destruct Hf as ([_ G1] & [_ G2] & [_ G3] & [_ G4] & _).
  unfold i386_context_init. rewrite (proj2 (Z.eqb_neq c NULL)), (proj2 (Z.eqb_neq stack_size 0)), (proj2 (Z.eqb_neq run NULL)) by (done || lia).
  cbn [orb]. rewrite E1. cbn [mbind option_bind negb]. unfold load32. rewrite S1, S2. cbn [mbind option_bind].
  rewrite (u32_small (p + stack_size - 4)) by lia. rewrite land_align16 by lia. set (top := (p + stack_size - 4) / 16 * 16).
  assert (top mod 16 = 0 /\ p + stack_size - 20 < top <= p + stack_size - 4) as [T1 T2] by (unfold top; Z.to_euclidean_division_equations; lia).
  clearbody top. rewrite u32_small by lia. rewrite store32_mapped by done. cbn [mbind option_bind].
  assert (forall w, w = top - 8 \/ w = top - 12 \/ w = top - 16 -> is_Some (m1 !! w) /\ w <> ctx_sp32 c) as Hw.
  { intros w Hw. split; [|lia]. replace w with (p + 4 * Z.of_nat (Z.to_nat ((w - p) / 4))) by (Z.to_euclidean_division_equations; lia).
    apply S5. Z.to_euclidean_division_equations. lia. }
  destruct (pushes32_spec (<[ctx_sp32 c:=top - 4]> m1) c (top - 4) param NULL run) as (m2 & E2 & P1 & P2 & P3 & P4 & P5).
  { apply lookup_insert_eq. } { lia. }
  { intros w Hw'. destruct (Hw w) as [? ?]; [lia|]. split; [|done]. by rewrite lookup_insert_ne by congruence. }
  rewrite E2. cbn [mbind option_bind]. rewrite P1. cbn [mbind option_bind]. replace (top - 4 - 12) with (top - 16) in * by lia.
  assert (Z.land (top - 16) 15 = 0) as -> by (change 15 with (Z.ones 4); rewrite Z.land_ones by lia; Z.to_euclidean_division_equations; lia).
  cbn [Z.eqb negb]. rewrite store32_mapped by (apply P5; rewrite lookup_insert; case_decide; [by eexists|done]). cbn [mbind option_bind].
  eexists _, (top - 16). split; [reflexivity|]. unfold ctx_stack32, ctx_size32, ctx_sp32, is_thread32 in *.
  split_and!; [by rewrite lookup_insert_ne by lia|Z.to_euclidean_division_equations; lia|lia|lia|].
  intros label x from Em Hs Hne Hap1 Hap2. assert (forall w, w = top - 16 \/ w = top - 12 \/ w = top - 8 -> mem32 x !! w = m2 !! w) as Hmx
    by (intros w Hwx; rewrite Em; apply lookup_insert_ne; lia).
  replace (top - 4 - 8) with (top - 12) in * by lia. replace (top - 4 - 4) with (top - 8) in * by lia.
  destruct (swap32_spec label x from c (top - 16) run) as (x' & E & X1 & X2 & X3); try done; unfold ctx_sp32 in *; try lia.
  { rewrite Em. by rewrite lookup_insert_ne by lia. } { rewrite Hmx by auto. done. }
  exists x'. rewrite X2, X3. unfold suspended32, ctx_sp32. split_and!; try done.
  - replace (top - 16 + 4) with (top - 12) by lia. rewrite !lookup_insert_ne, Hmx by (auto || lia). done.
  - replace (top - 16 + 4 + 4) with (top - 8) by lia. rewrite !lookup_insert_ne, Hmx by (auto || lia). done.
  - Z.to_euclidean_division_equations. lia.
Qed.

(** Destruction of a context that [context_init] made gives back its stack. *)
Theorem destroy32_frees m c st size : c <> NULL -> m !! is_thread32 c = Some 0 -> m !! ctx_stack32 c = Some st -> m !! ctx_size32 c = Some size ->
  exists m', i386_context_destroy m c = Some m' /\ forall a, m' !! a = if decide (is_Some (block32 st (Z.to_nat (size / 4)) !! a)) then None else m !! a.
Proof.
  intros Hc Ht Hs Hz. unfold i386_context_destroy, load32. rewrite (proj2 (Z.eqb_neq c NULL)), Ht by done. cbn [mbind option_bind Z.eqb]. rewrite Hs, Hz. cbn [mbind option_bind].
  eexists. split; [reflexivity|]. intros a. case_decide as Hd; [by apply lookup_difference_None; right|].
  destruct (m !! a) eqn:E; [apply lookup_difference_Some; split; [done|by apply eq_None_not_Some]|apply lookup_difference_None; by left].
Qed.

(** *** Runs *)

Definition fields32 (c : Z) : memory32 := list_to_map [(c, 0); (c + 4, 0); (c + 8, 0); (c + 16, 0)].
Definition demo32_mem : memory32 := <[208:=2020]> (fields32 100 ∪ fields32 200 ∪ block32 1000 20 ∪ <[2020:=777]> (block32 2000 20)).
Definition demo32 : machine32 := Machine32 (fun r => match r with ESP => 1040 | EBP => 55 | _ => 0 end) demo32_mem 0.

Lemma swap32_roundtrip_witness : exists x', i386_context_swap 500 demo32 100 200 = Some x' /\ eip x' = 777 /\ regs32 x' ESP = 2024.
Proof.
  destruct (swap32_roundtrip 500 demo32 100 200 2020 777) as (x' & H1 & H2 & H3 & _); try (vm_compute; (reflexivity || discriminate)).
  - repeat split; vm_compute; try discriminate; by eexists.
  - split; vm_compute; congruence.
  - exists x'. exact (conj H1 (conj H2 H3)).
Defined.

Lemma init32_enters_witness : exists m' sp, i386_context_init 4096 (fields32 100) 100 64 777 5 = Some (FIBER_SUCCESS, None, m') /\ m' !! ctx_sp32 100 = Some sp /\ sp mod 16 = 0.
Proof.
  destruct (init32_enters 4096 (fields32 100) 100 64 777 5) as (m' & sp & H1 & H2 & H3 & _); [|lia|discriminate|exists m', sp; exact (conj H1 (conj H2 H3))].
  split; [discriminate|]. split; [lia|]. split; [reflexivity|]. split; [lia|]. repeat constructor; try (vm_compute; by eexists); left; vm_compute; reflexivity.
Defined.

Lemma destroy32_frees_witness : exists m', i386_context_destroy (<[100:=4096]> (<[104:=64]> (fields32 100)) ∪ block32 4096 16) 100 = Some m' /\ m' !! 4096 = None.
Proof.
  destruct (destroy32_frees (<[100:=4096]> (<[104:=64]> (fields32 100)) ∪ block32 4096 16) 100 4096 64) as (m' & H1 & H2); try (vm_compute; (reflexivity || discriminate)).
  exists m'. split; [exact H1|]. rewrite H2. vm_compute. reflexivity.
Defined.
End I386.

(** ** [ucontext] *)

Module Ucontext.
Section ucontext.
(** The state of a running computation: registers, signal mask, program counter. *)
Context {S : Type}.

(** What [getcontext] and [swapcontext] save, and what [makecontext] prepares. *)
Inductive ucontext := UGot (s : S) | UMade (ss_sp ss_size entry arg : Z) | USaved (s : S).

(** A [fiber_context_t]. *)
Record uctx := UCtx { uc_stack : Z; uc_stack_size : Z; uc_pointer : Z; uc_is_thread : bool }.

(** The contexts, the allocated [ucontext_t]s and the allocated stacks, by address;
    and [errno]. *)
Record ustate := UState { u_ctxs : gmap Z uctx; u_ucs : gmap Z ucontext; u_stacks : gmap Z Z; u_errno : option Z }.

Definition UC_EINVAL : Z := 22.
Definition UC_ENOMEM : Z := 12.

Definition set_ctx (c : Z) (x : uctx) (st : ustate) : ustate := UState (<[c:=x]> (u_ctxs st)) (u_ucs st) (u_stacks st) (u_errno st).
Definition set_uc (a : Z) (u : ucontext) (st : ustate) : ustate := UState (u_ctxs st) (<[a:=u]> (u_ucs st)) (u_stacks st) (u_errno st).
Definition free_uc (a : Z) (st : ustate) : option ustate :=
  match u_ucs st !! a with Some _ => Some (UState (u_ctxs st) (delete a (u_ucs st)) (u_stacks st) (u_errno st)) | None => None end.
Definition u_fail (e : Z) (st : ustate) : ustate := UState (u_ctxs st) (u_ucs st) (u_stacks st) (Some e).

(** [fiber_context_alloc_stack] and [fiber_free_stack] with [malloc]. *)
Definition u_alloc_stack (p : Z) (c stack_size : Z) (st : ustate) : option (bool * ustate) :=
  x ← u_ctxs st !! c;
  let st := set_ctx c (UCtx p stack_size (uc_pointer x) (uc_is_thread x)) st in
  if Z.eqb p NULL then Some (false, st) else Some (true, UState (u_ctxs st) (u_ucs st) (<[p:=stack_size]> (u_stacks st)) (u_errno st)).
Definition u_free_stack (c : Z) (st : ustate) : option ustate :=
  x ← u_ctxs st !! c; _ ← u_stacks st !! uc_stack x;
  Some (UState (u_ctxs st) (u_ucs st) (delete (uc_stack x) (u_stacks st)) (u_errno st)).

(** [fiber_context_init]; [pu], [ps]: what the two [malloc]s return; [cur]: the
    running computation.  The first access to [context] is not guarded. *)
Definition u_context_init (pu ps : Z) (cur : S) (st : ustate) (context stack_size run_function param : Z) : option (Z * ustate) :=
  x ← u_ctxs st !! context;
  let st := set_ctx context (UCtx (uc_stack x) (uc_stack_size x) pu (uc_is_thread x)) st in
  if Z.eqb pu NULL then Some (FIBER_ERROR, u_fail UC_ENOMEM st)
  else
    let st := set_uc pu (UGot cur) st in
    '(ok, st) ← u_alloc_stack ps context stack_size st;
    if negb ok then st ← free_uc pu st; Some (FIBER_ERROR, st)
    else
      x ← u_ctxs st !! context;
      let st := set_uc pu (UMade (uc_stack x) (uc_stack_size x) run_function param) st in
      Some (FIBER_SUCCESS, set_ctx context (UCtx (uc_stack x) (uc_stack_size x) (uc_pointer x) false) st).

Definition u_context_init_from_thread (pu : Z) (cur : S) (st : ustate) (context : Z) : option (Z * ustate) :=
  if Z.eqb context NULL then Some (FIBER_ERROR, u_fail UC_EINVAL st)
  else
    _ ← u_ctxs st !! context;
    let st := set_ctx context (UCtx 0 0 pu false) st in
    if Z.eqb pu NULL then Some (FIBER_ERROR, u_fail UC_ENOMEM st)
    else Some (FIBER_SUCCESS, set_ctx context (UCtx 0 0 pu true) (set_uc pu (UGot cur) st)).

Definition u_context_destroy (st : ustate) (context : Z) : option ustate :=
  if Z.eqb context NULL then Some st
  else x ← u_ctxs st !! context; st ← free_uc (uc_pointer x) st; if uc_is_thread x then Some st else u_free_stack context st.

(** How a context continues. *)
Inductive continues := Enter (ss_sp ss_size entry arg : Z) | Resume (s : S).
Definition resume_of (u : ucontext) : continues :=
  match u with UGot s | USaved s => Resume s | UMade sp sz f a => Enter sp sz f a end.

(** [swapcontext], and [fiber_context_swap]: the computation [cur] is saved and
    what the other context saved continues. *)
Definition swapcontext (cur : S) (from to : Z) (st : ustate) : option (ustate * continues) :=
  match u_ucs st !! from, u_ucs st !! to with
  | Some _, Some u => Some (set_uc from (USaved cur) st, resume_of u)
  | _, _ => None
  end.
Definition u_context_swap (cur : S) (st : ustate) (from_context to_context : Z) : option (ustate * continues) :=
  f ← u_ctxs st !! from_context; t ← u_ctxs st !! to_context; swapcontext cur (uc_pointer f) (uc_pointer t) st.

(** *** Properties *)

(** Creation, on every branch: what it returns, [errno], and that a failure leaves
    the allocated objects as they were. *)
Theorem u_init_outcomes pu ps cur st c stack_size run param x : u_ctxs st !! c = Some x -> u_ucs st !! pu = None ->
  exists r st', u_context_init pu ps cur st c stack_size run param = Some (r, st') /\
    (pu = NULL -> r = FIBER_ERROR /\ u_errno st' = Some UC_ENOMEM) /\ (pu <> NULL -> ps = NULL -> r = FIBER_ERROR /\ u_errno st' = u_errno st) /\
    (pu = NULL \/ ps = NULL -> u_ucs st' = u_ucs st /\ u_stacks st' = u_stacks st) /\
    (pu <> NULL -> ps <> NULL -> r = FIBER_SUCCESS /\ u_ctxs st' !! c = Some (UCtx ps stack_size pu false) /\
      u_ucs st' = <[pu:=UMade ps stack_size run param]> (u_ucs st) /\ u_stacks st' = <[ps:=stack_size]> (u_stacks st)).
Proof.
  intros Hc Hu. unfold u_context_init, u_alloc_stack, set_ctx. rewrite Hc. cbn. destruct (Z.eqb_spec pu NULL) as [->|Hp]; cbn.
  - eexists _, _. split; [reflexivity|]. cbn. naive_solver.
  - rewrite lookup_insert_eq. cbn. destruct (Z.eqb_spec ps NULL) as [->|Hs]; cbn.
    + unfold free_uc. cbn. rewrite lookup_insert_eq. eexists _, _. split; [reflexivity|]. cbn. split_and!; try done. intros _. split; [|done].
      by rewrite delete_insert_id.
    + rewrite lookup_insert_eq. cbn. eexists _, _. split; [reflexivity|]. cbn. rewrite lookup_insert_eq, insert_insert_eq. naive_solver.
Qed.

(** Switching over [ucontext]: the computation that switches away is what any later
    switch back continues, and a new context enters its function on its stack. *)
Theorem u_swap_roundtrip cur cur' st a b c xa xb xc ua ub : u_ctxs st !! a = Some xa -> u_ctxs st !! b = Some xb ->
  u_ucs st !! uc_pointer xa = Some ua -> u_ucs st !! uc_pointer xb = Some ub ->
  exists st', u_context_swap cur st a b = Some (st', resume_of ub) /\ u_ctxs st' = u_ctxs st /\
    forall st2, u_ctxs st2 !! a = Some xa -> u_ucs st2 !! uc_pointer xa = u_ucs st' !! uc_pointer xa ->
      u_ctxs st2 !! c = Some xc -> is_Some (u_ucs st2 !! uc_pointer xc) -> exists st3, u_context_swap cur' st2 c a = Some (st3, Resume cur).
Proof.
  intros Ha Hb Hua Hub. unfold u_context_swap, swapcontext. rewrite Ha, Hb. cbn. rewrite Hua, Hub. eexists. split; [reflexivity|]. split; [done|].
  intros st2 Ha2 Hu2 Hc2 [uc Huc]. rewrite Hc2, Ha2. cbn. rewrite Huc, Hu2. cbn. rewrite lookup_insert_eq. by eexists.
Qed.

(** Destruction gives back what creation took. *)
Theorem u_destroy_frees pu ps cur st c stack_size run param x r st' : c <> NULL -> u_ctxs st !! c = Some x -> u_ucs st !! pu = None -> u_stacks st !! ps = None ->
  u_context_init pu ps cur st c stack_size run param = Some (r, st') -> r = FIBER_SUCCESS ->
  exists st2, u_context_destroy st' c = Some st2 /\ u_ucs st2 = u_ucs st /\ u_stacks st2 = u_stacks st.
Proof.
  intros Hn Hc Hu Hs Hi Hr. unfold u_context_init, u_alloc_stack, set_ctx in Hi. rewrite Hc in Hi. cbn in Hi.
  destruct (Z.eqb_spec pu NULL); [by simplify_eq|]. cbn in Hi. rewrite lookup_insert_eq in Hi. cbn in Hi.
  destruct (Z.eqb_spec ps NULL); cbn in Hi; [unfold free_uc in Hi; cbn in Hi; rewrite lookup_insert_eq in Hi; by simplify_eq|].
  rewrite lookup_insert_eq in Hi. cbn in Hi. injection Hi as <- <-. unfold u_context_destroy. rewrite (proj2 (Z.eqb_neq c NULL)) by done. cbn.
  rewrite lookup_insert_eq. cbn. unfold free_uc. cbn. rewrite lookup_insert_eq. cbn. unfold u_free_stack. cbn. rewrite lookup_insert_eq. cbn. rewrite lookup_insert_eq.
  eexists. split; [reflexivity|]. cbn. by rewrite insert_insert_eq, !delete_insert_id.
Qed.
End ucontext.

(** *** Runs *)

Definition demo_u : ustate (S := nat) := UState {[100 := UCtx 0 0 10 true; 200 := UCtx 0 0 0 false]} {[10 := UGot 7%nat]} ∅ None.

Lemma u_init_outcomes_witness : exists r st', u_context_init 20 3000 5%nat demo_u 200 4096 777 9 = Some (r, st') /\ r = FIBER_SUCCESS.
Proof.
  destruct (u_init_outcomes 20 3000 5%nat demo_u 200 4096 777 9 (UCtx 0 0 0 false)) as (r & st' & H1 & _ & _ & _ & H2); [vm_compute; reflexivity..|].
  exists r, st'. split; [exact H1|]. by destruct H2.
Defined.

Lemma u_swap_roundtrip_witness : exists st', u_context_swap 8%nat (set_ctx 200 (UCtx 3000 4096 20 false) (set_uc 20 (UMade 3000 4096 777 9) demo_u)) 100 200 = Some (st', Enter 3000 4096 777 9).
Proof.
  destruct (u_swap_roundtrip 8%nat 8%nat (set_ctx 200 (UCtx 3000 4096 20 false) (set_uc 20 (UMade 3000 4096 777 9) demo_u)) 100 200 200
    (UCtx 0 0 10 true) (UCtx 3000 4096 20 false) (UCtx 3000 4096 20 false) (UGot 7%nat) (UMade 3000 4096 777 9)) as (st' & H & _); [vm_compute; reflexivity..|].
  exists st'. exact H.
Defined.

Lemma u_destroy_frees_witness : exists st', u_context_init 20 3000 5%nat demo_u 200 4096 777 9 = Some (FIBER_SUCCESS, st') /\ exists st2, u_context_destroy st' 200 = Some st2 /\ u_ucs st2 = u_ucs demo_u.
Proof.
  eexists. split; [vm_compute; reflexivity|].
  edestruct (u_destroy_frees 20 3000 5%nat demo_u 200 4096 777 9 (UCtx 0 0 0 false)) as (st2 & H1 & H2 & _); [discriminate|vm_compute; reflexivity..|].
  exists st2. exact (conj H1 H2).
Defined.
End Ucontext.
