(* ===== verification/FiberRun.v ===== *)
(** * The life of a fiber on its thread ([src/fiber.c], [src/fiber_manager.c])

    [fiber_go_function] is where a new fiber starts: it does the maintenance of the
    switch that entered it, runs the user's function and ends in
    [fiber_join_routine], which must not return.  The steps are those of [Manager]
    and [ManagerLoop]; the user's function is an argument.  Also here:
    [fiber_yield] and the wait in a queue that releases a mutex. *)

From S2P Require Import Prelude MpscFifo Wsd SchedulerWsd Manager Fiber Event ManagerLoop.

Section run.
Context {S : Type} `{FiberScheduler S}.

(** ** Operations *)

Definition with_done (s : mstate (S := S)) (f : Z) : mstate :=
  let m := mgr s in
  with_mgr s (Manager (maintenance_fiber m) (current_fiber m) (old_fiber m) (thread_fiber m) (to_schedule m) (mpmc_to_push m)
    (mpsc_to_push m) (mutex_to_unlock m) (spinlock_to_unlock m) (set_wait_location m) (set_wait_value m) f (yield_count m)).

(** How the last call of a fiber ends: in a switch from which it does not come
    back; with a wait for a joiner, whose yield is given; with a joiner to wake,
    the case that [Fiber] treats; or in the assertion that it never returns. *)
Inductive go_result := GoSwitched (y : yield_result) | GoWaits (y : yield_result) | GoJoiner | GoAsserts.

Definition fiber_join_routine (now : Z * Z) (created the_fiber : Z) (s : loop_state (S := S)) : option (loop_state (S := S) * go_result) :=
  '(s, r) ← mark_completed now created the_fiber s;
  match r with
  | CDone =>
      '(m, y) ← fiber_manager_yield now created (with_done (lp_m s) the_fiber);
      Some (lp_with s m, match y with YStayed => GoAsserts | _ => GoSwitched y end)
  | CWaits y => Some (s, GoWaits y)
  | CJoiner => Some (s, GoJoiner)
  end.

Definition fiber_go_function (now : Z * Z) (created the_fiber : Z) (run_function : loop_state -> option (loop_state (S := S)))
    (s : loop_state) : option (loop_state (S := S) * go_result) :=
  m ← fiber_manager_do_maintenance (lp_m s);
  s ← run_function (lp_with s m);
  fiber_join_routine now created the_fiber s.

Definition fiber_yield (now : Z * Z) (created : Z) (s : mstate (S := S)) : option (mstate (S := S) * yield_result * Z) :=
  '(s, y) ← fiber_manager_yield now created s; Some (s, y, 1).

(** [fiber_manager_wait_in_mpsc_queue] with the node of the fiber: here the push
    comes before the switch. *)
Definition manager_wait_in_mpsc_queue (now : Z * Z) (created fifo node : Z) (s : mstate (S := S)) : option (mstate (S := S) * yield_result) :=
  if negb (Z.eqb fifo NULL) && running_current s && negb (Z.eqb node NULL) then
    fiber_manager_yield now created (act (with_fstate s (current_fiber (mgr s)) FIBER_STATE_SAVING_STATE_TO_WAIT) (APushMpsc fifo node))
  else None.

Definition fiber_manager_wait_in_mpsc_queue_and_unlock (now : Z * Z) (created fifo mutex node : Z) (s : mstate (S := S))
    : option (mstate (S := S) * yield_result) :=
  let m := mgr s in
  manager_wait_in_mpsc_queue now created fifo node
    (with_mgr s (Manager (maintenance_fiber m) (current_fiber m) (old_fiber m) (thread_fiber m) (to_schedule m) (mpmc_to_push m)
      (mpsc_to_push m) mutex (spinlock_to_unlock m) (set_wait_location m) (set_wait_value m) (done_fiber m) (yield_count m))).

(** ** Properties *)

(** A fiber that nobody will join, at the end of its function: it runs, nothing is
    pending. *)
Record ends (s : loop_state) (f : Z) : Prop := {
  en_rest : at_rest (lp_m s);
  en_current : current_fiber (mgr (lp_m s)) = f;
  en_detached : detach_of s !! f = Some FIBER_DETACH_DETACHED
}.

Lemma ends_done s f : ends s f ->
  let r := with_done (with_fstate (lp_m s) f FIBER_STATE_DONE) f in
  can_yield r /\ state_of r f = FIBER_STATE_DONE /\ wait_acts (mgr r) = [] /\ was_running r f = [].
Proof.
  intros [[R1 R2 R3 R4] Hc Hd] r. destruct (pending_nil _ R4) as (N1 & N2 & N3 & N4 & N5 & N6 & N7).
  assert (state_of r f = FIBER_STATE_DONE) as Hst.
  { change (state_of (with_fstate (lp_m s) f FIBER_STATE_DONE) f = FIBER_STATE_DONE). by rewrite state_of_fstate, decide_True. }
  split_and!; [|done|unfold wait_acts, unless_null; cbn; by rewrite N3, N4, N5, N6, N7|unfold was_running; by rewrite Hst].
  split; [done| |done|]; cbn; rewrite ?Hc; [congruence|]. intros _. split; [done|exact Hst].
Qed.

Lemma join_routine_done now created s f : ends s f ->
  fiber_join_routine now created f s =
    '(m, y) ← fiber_manager_yield now created (with_done (with_fstate (lp_m s) f FIBER_STATE_DONE) f);
    Some (lp_with s m, match y with YStayed => GoAsserts | _ => GoSwitched y end).
Proof. intros [_ _ Hd]. unfold fiber_join_routine, mark_completed. by rewrite Hd. Qed.


(** The end of a fiber when the flag is set.  Once some yield has set
    [lock_using], or when the next fiber is banned, the yield of a fiber that ends
    returns: the assertion that this never happens fails, with the finished fiber
    scheduled once more and the fiber found dropped. *)
Theorem fiber_end_asserts now created s f x g : ends s f ->
  fs_next (state_of (with_fstate (lp_m s) f FIBER_STATE_DONE)) (sched (lp_m s)) = Some (x, Some g) ->
  lock_using (lp_m s) = 1 \/ time_lt (default (0, 0) (Manager.banned_until (lp_m s) !! g)) now = false ->
  exists s', fiber_join_routine now created f s = Some (s', GoAsserts) /\ (exists b, acts (lp_m s') = acts (lp_m s) ++ ASchedule f :: b) /\
    g :: fs_fibers (sched (lp_m s')) ≡ₚ f :: fs_fibers (sched (lp_m s)).
Proof.
  intros He Hn Hl. rewrite (join_routine_done now created s f He). set (r := with_done _ f).
  assert (current_fiber (mgr r) = f) as Hc by (cbn; apply (en_current _ _ He)).
  destruct (yield_drops_fiber now created r x g) as [(s' & E & S1 & S2 & (b & S3 & _) & S4) _]; [apply (en_rest _ _ He)|exact Hn|exact Hl|].
  rewrite E. exists (lp_with s s'). rewrite Hc in *. split; [done|]. cbn [lp_m lp_with]. split; [by exists b|exact S4].
Qed.

(** The start of a fiber: first what the switch left pending is done, in order;
    then the function runs; then the fiber ends. *)
Theorem fiber_starts now created f run s : fs_ok (sched (lp_m s)) -> pending_ok (lp_m s) ->
  exists m, fiber_manager_do_maintenance (lp_m s) = Some m /\ acts m = acts (lp_m s) ++ pending_acts (mgr (lp_m s)) /\ pending_acts (mgr m) = [] /\
    fiber_go_function now created f run s = s' ← run (lp_with s m); fiber_join_routine now created f s'.
Proof.
  intros Hok Hp. destruct (maintenance_spec (lp_m s) Hok Hp) as (m & E & A1 & A2 & _). exists m. split_and!; try done.
  unfold fiber_go_function. by rewrite E.
Qed.

(** Waiting with a mutex.  The fiber is pushed to the queue before the switch,
    marked as saving its state; the mutex is released only after its context has
    been saved, when it is marked as waiting. *)
Theorem mpsc_wait_unlocks_after_save now created fifo mutex node s x f : at_rest s -> fifo <> NULL -> mutex <> NULL -> node <> NULL ->
  let c := current_fiber (mgr s) in
  fs_next (state_of (with_fstate s c FIBER_STATE_SAVING_STATE_TO_WAIT)) (sched s) = Some (x, Some f) -> f <> c ->
  time_lt (default (0, 0) (Manager.banned_until s !! f)) now = true -> lock_using s <> 1 ->
  exists s', fiber_manager_wait_in_mpsc_queue_and_unlock now created fifo mutex node s = Some (s', YSwitched f) /\
    acts s' = acts s ++ [APushMpsc fifo node; ASwap c f; AUnlockMutex mutex] /\ state_of s' c = FIBER_STATE_WAITING /\
    f :: fs_fibers (sched s') ≡ₚ fs_fibers (sched s).
Proof.
  intros [R1 R2 R3 R4] Hfifo Hmutex Hnode c Hn Hf Hb Hl. fold c in R2, R3. destruct (pending_nil _ R4) as (N1 & N2 & N3 & N4 & N5 & N6 & N7).
  unfold fiber_manager_wait_in_mpsc_queue_and_unlock, manager_wait_in_mpsc_queue, running_current.
  set (s1 := with_mgr s _). change (state_of s1) with (state_of s). change (current_fiber (mgr s1)) with c.
  rewrite R3, (proj2 (Z.eqb_neq fifo NULL)), (proj2 (Z.eqb_neq node NULL)) by done. cbn [andb negb Z.eqb]. rewrite Z.eqb_refl. cbn [andb].
  set (r := act _ _). assert (state_of r c = FIBER_STATE_SAVING_STATE_TO_WAIT) as Hst.
  { change (state_of (with_fstate s1 c FIBER_STATE_SAVING_STATE_TO_WAIT) c = FIBER_STATE_SAVING_STATE_TO_WAIT). by rewrite state_of_fstate, decide_True. }
  assert (can_yield r) as Hy by (split; cbn; [exact R1|exact R2|exact N2|congruence]).
  destruct (yield_switch_spec now created r x f Hy Hn Hf Hb Hl) as (s' & E & (S1 & _ & _ & _ & S5 & _ & S7 & _) & Hp).
  exists s'. split; [exact E|]. change (current_fiber (mgr r)) with c in *. unfold was_running in S1, S5. rewrite Hst in S1, S5, S7.
  cbn -[unless_null] in S1. cbn in S5, S7. split_and!.
  - rewrite S1. unfold wait_acts, unless_null. cbn. rewrite N1, N3, N4, N6, N7, (proj2 (Z.eqb_neq mutex NULL)) by done. cbn. by rewrite <- app_assoc.
  - exact S7.
  - by rewrite S5, <- Hp.
Qed.
End run.

(** ** Runs *)

(** Fiber 8, detached, ends on a thread with fiber 16 in its queue. *)
#[local] Instance run_scheduler : FiberScheduler schedulers := wsd_scheduler 0 [].
Definition run_demo (lock : Z) : loop_state (S := schedulers) := LoopState (mgr_demo lock) false true {[8 := FIBER_DETACH_DETACHED]} [].

Lemma run_demo_ends lock : ends (run_demo lock) 8.
Proof. split; [|reflexivity|reflexivity]. split; [exact mgr_queue_ok|discriminate|reflexivity|reflexivity]. Qed.


Lemma fiber_end_asserts_witness : exists s', fiber_join_routine (10, 0) 24 8 (run_demo 1) = Some (s', GoAsserts) /\
  (exists b, acts (lp_m s') = [] ++ ASchedule 8 :: b) /\ 16 :: fs_fibers (sched (lp_m s')) ≡ₚ 8 :: fs_fibers mgr_queue.
Proof.
  apply (fiber_end_asserts (10, 0) 24 (run_demo 1) 8 (Schedulers [[]; []] [Scheduler 0 1 0 0 0]) 16).
  - apply run_demo_ends.
  - vm_compute. reflexivity.
  - left. reflexivity.
Defined.

Lemma fiber_starts_witness : exists m, fiber_manager_do_maintenance (mgr_demo 0) = Some m /\ acts m = [] ++ pending_acts (mgr (mgr_demo 0)) /\ pending_acts (mgr m) = [] /\
  fiber_go_function (10, 0) 24 8 Some (run_demo 0) = s' ← Some (lp_with (run_demo 0) m); fiber_join_routine (10, 0) 24 8 s'.
Proof.
  apply (fiber_starts (10, 0) 24 8 Some (run_demo 0)); [exact mgr_queue_ok|]. split; intros Hn; by destruct Hn.
Defined.

Lemma mpsc_wait_unlocks_after_save_witness : exists s', fiber_manager_wait_in_mpsc_queue_and_unlock (10, 0) 24 100 200 104 (mgr_demo 0) = Some (s', YSwitched 16) /\
  acts s' = [] ++ [APushMpsc 100 104; ASwap 8 16; AUnlockMutex 200] /\ state_of s' 8 = FIBER_STATE_WAITING /\ 16 :: fs_fibers (sched s') ≡ₚ fs_fibers mgr_queue.
Proof.
  apply (mpsc_wait_unlocks_after_save (10, 0) 24 100 200 104 (mgr_demo 0) (Schedulers [[]; []] [Scheduler 0 1 0 0 0]) 16).
  - split; [exact mgr_queue_ok|discriminate|reflexivity|reflexivity].
  - discriminate.
  - discriminate.
  - discriminate.
  - vm_compute. reflexivity.
  - discriminate.
  - vm_compute. reflexivity.
  - discriminate.
Defined.
