(* ===== verification/EventPoll.v ===== *)
(** * Blocking polls, and event ports ([src/fiber_event_native.c])

    [fiber_poll_events_blocking], and the other platform of the native event
    system: Solaris, where [port_getn] takes the place of [epoll_wait] and the ticks
    of the timer are computed from the clock.  What [port_getn] and [gethrtime]
    return is an input; an association with a port is for one event, as with
    [EPOLLONESHOT]. *)

From S2P Require Import Prelude MpscFifo Wsd SchedulerWsd Manager Event.

(** ** Blocking polls *)

(** The timeout handed to [epoll_wait]: computed in [uint32_t], taken as [int]. *)
Definition poll_timeout (seconds useconds : Z) : Z := i32 (u32 (u32 (seconds * 1000) + useconds / 1000)).

(** [fiber_poll_events_blocking]: the thread sleeps, with the calls of [usleep], or
    polls with the timeout; [wait] as for [fiber_poll_events]. *)
Inductive blocking_poll := SleptFor (usleeps : list Z) | Polled (timeout : Z).

Definition fiber_poll_events_blocking (s : ev_state) (seconds useconds : Z) (wait : option (list epoll_event))
    : option (blocking_poll * Z * ev_state) :=
  if event_open s then
    match wait with
    | None => Some (Polled (poll_timeout seconds useconds), 0, s)
    | Some events =>
        s' ← fiber_poll_events_internal s events;
        Some (Polled (poll_timeout seconds useconds), Z.of_nat (length events), s')
    end
  else Some (SleptFor (fiber_do_real_sleep seconds useconds), 0, s).

(** ** Event ports *)

Definition POLLIN : Z := 1.
Definition POLLOUT : Z := 4.
Definition ETIME : Z := 62.

(** [last_timer_trigger] in nanoseconds; [port_log]: the calls of
    [port_associate]. *)
Record port_state := PortState { po_ev : ev_state; last_timer_trigger : Z; port_log : list (Z * Z) }.

(** What an event of the port is: the timer, with the time [gethrtime] returns; a
    descriptor; or another source. *)
Inductive port_event := PTimer (now : Z) | PFd (fd : nat) (events : Z) | POther.

(** The ticks since the last ones counted; the product is an [int]. *)
Definition timer_ticks (last now : Z) : Z := i32 (Z.quot (now - last) (FIBER_TIME_RESOLUTION_MS * 1000000)).
Definition ticks_ns (timer_count : Z) : Z := i32 (timer_count * (FIBER_TIME_RESOLUTION_MS * 1000000)).

(** [fiber_event_init]: [now] is the time of the first tick counted from; [ok]:
    whether [port_create], [timer_create] and [timer_settime] succeed, which is
    asserted. *)
Definition port_event_init (s : port_state) (rlim_max : option Z) (ok : bool) (now : Z) : option (Z * port_state) :=
  if event_open (po_ev s) then Some (FIBER_ERROR, s)
  else
    r ← fiber_event_init (po_ev s) rlim_max;
    if Z.eqb r.1 FIBER_SUCCESS then if ok then Some (FIBER_SUCCESS, PortState r.2 now (port_log s)) else None
    else Some (r.1, s).

Definition port_event_shutdown (s : port_state) : port_state :=
  PortState (fiber_event_shutdown (po_ev s)) (last_timer_trigger s) (port_log s).

Definition port_poll_one (s : port_state) (e : port_event) : option port_state :=
  match e with
  | PTimer now =>
      let timer_count := timer_ticks (last_timer_trigger s) now in
      ev ← fiber_event_wake_sleepers (po_ev s) (u64 timer_count);
      Some (PortState ev (last_timer_trigger s + ticks_ns timer_count) (port_log s))
  | PFd fd events =>
      info ← wait_info (po_ev s) !! fd;
      let rest := Z.land (Z.land (fd_events info) (Z.lnot events)) (Z.lor POLLIN POLLOUT) in
      ev ← fiber_event_wake_waiters (S (size (scratch (po_ev s)))) (set_info (po_ev s) fd (FdInfo rest (fd_added info) (fd_waiters info))) fd 0;
      Some (PortState ev (last_timer_trigger s) (if Z.eqb rest 0 then port_log s else port_log s ++ [(Z.of_nat fd, rest)]))
  | POther => Some s
  end.

Fixpoint port_poll_loop (s : port_state) (events : list port_event) : option port_state :=
  match events with
  | [] => Some s
  | e :: events => s' ← port_poll_one s e; port_poll_loop s' events
  end.

(** [fiber_poll_events_internal]: [err] is [errno] when [port_getn] returned -1;
    only a timeout is not fatal. *)
Definition port_poll_events_internal (s : port_state) (events : list port_event) (err : option Z) : option (Z * port_state) :=
  s' ← port_poll_loop s events;
  match err with
  | None => Some (Z.of_nat (length events), s')
  | Some e => if Z.eqb e ETIME then Some (Z.of_nat (length events), s') else None
  end.

(** [fiber_wait_for_event] up to its yield. *)
Definition port_wait_for_event (s : port_state) (this_fiber : Z) (fd : nat) (events : Z) : option port_state :=
  info ← wait_info (po_ev s) !! fd;
  let ev := if Z.eqb (Z.land events FIBER_POLL_IN) 0 then fd_events info else Z.lor (fd_events info) POLLIN in
  let ev := if Z.eqb (Z.land events FIBER_POLL_OUT) 0 then ev else Z.lor ev POLLOUT in
  let e := set_scratch (po_ev s) this_fiber (fd_waiters info) in
  let e := set_info e fd (FdInfo ev (fd_added info) this_fiber) in
  Some (PortState (set_state e this_fiber FIBER_STATE_WAITING) (last_timer_trigger s) (port_log s ++ [(Z.of_nat fd, ev)])).

(** ** Properties *)

Lemma poll_timeout_small seconds useconds : 0 <= seconds -> 0 <= useconds -> seconds * 1000 + useconds / 1000 < 2 ^ 31 ->
  poll_timeout seconds useconds = seconds * 1000 + useconds / 1000.
Proof.
  intros Hs Hu Hlt. assert (0 <= useconds / 1000) by (apply Z.div_pos; lia). unfold poll_timeout.
  rewrite (u32_small (seconds * 1000)) by lia. rewrite u32_small by lia. apply i32_small. lia.
Qed.

Lemma poll_timeout_large seconds useconds : 0 <= seconds -> 0 <= useconds -> 2 ^ 31 <= seconds * 1000 + useconds / 1000 < 2 ^ 32 ->
  poll_timeout seconds useconds = seconds * 1000 + useconds / 1000 - 2 ^ 32.
Proof.
  intros Hs Hu Hlt. assert (0 <= useconds / 1000) by (apply Z.div_pos; lia). unfold poll_timeout.
  rewrite (u32_small (seconds * 1000)) by lia. rewrite u32_small by lia. unfold i32.
  rewrite <- (Z_mod_plus_full _ (-1)), Z.mod_small by lia. lia.
Qed.

(** Blocking polls.  Before initialisation the thread sleeps for the whole time;
    after it the events reported are handled as by a poll that does not block.  The
    timeout is the time in milliseconds, rounded down, up to about 24 days; beyond
    it is negative, which [epoll_wait] takes as forever. *)
Theorem blocking_poll_outcomes s seconds useconds wait : 0 <= seconds < 2 ^ 32 -> 0 <= useconds < 2 ^ 32 ->
  (event_open s = false -> exists l, fiber_poll_events_blocking s seconds useconds wait = Some (SleptFor l, 0, s) /\ foldr Z.add 0 l = seconds * 1000000 + useconds) /\
  (event_open s = true -> fiber_poll_events_blocking s seconds useconds wait = '(n, s') ← fiber_poll_events s wait; Some (Polled (poll_timeout seconds useconds), n, s')) /\
  (seconds * 1000 + useconds / 1000 < 2 ^ 31 -> poll_timeout seconds useconds = seconds * 1000 + useconds / 1000) /\
  (2 ^ 31 <= seconds * 1000 + useconds / 1000 < 2 ^ 32 -> poll_timeout seconds useconds < 0).
Proof.
  intros Hs Hu. unfold fiber_poll_events_blocking, fiber_poll_events. split_and!.
  - intros ->. eexists. split; [reflexivity|]. apply real_sleep_total; lia.
  - intros ->. destruct wait as [l|]; [|done]. by destruct (fiber_poll_events_internal s l).
  - apply poll_timeout_small; lia.
  - intros Hlt. rewrite poll_timeout_large by lia. lia.
Qed.

(** The state of the event system with another log of [epoll_ctl]. *)
Definition with_log (l : list epoll_call) (s : ev_state) : ev_state :=
  EvState (event_open s) (wait_info s) (timer_trigger_count s) (sleepers s) (fstate s) (scratch s) (ev_ready s) l.

Lemma wake_waiters_log n l s fd result :
  fiber_event_wake_waiters n (with_log l s) fd result = with_log l <$> fiber_event_wake_waiters n s fd result.
Proof.
  revert s. induction n as [|n IH]; intros s; [done|]. cbn [fiber_event_wake_waiters].
  change (wait_info (with_log l s)) with (wait_info s). destruct (wait_info s !! fd) as [info|]; [|done]. cbn [mbind option_bind].
  destruct (Z.eqb (fd_waiters info) NULL); [done|]. rewrite <- IH. reflexivity.
Qed.

(** Setting the event port up.  A second initialisation and a failing [getrlimit]
    are refused without effect; otherwise, when the kernel provides the port and the
    timer, every descriptor below the limit has its entry and the ticks count from
    now.  After a shutdown the port can be set up again. *)
Theorem port_init_outcomes s n now : 0 <= n < 2 ^ 31 ->
  (event_open (po_ev s) = true -> port_event_init s (Some n) true now = Some (FIBER_ERROR, s)) /\
  (event_open (po_ev s) = false -> port_event_init s None true now = Some (FIBER_ERROR, s)) /\
  exists s', port_event_init (port_event_shutdown s) (Some n) true now = Some (FIBER_SUCCESS, s') /\
    event_open (po_ev s') = true /\ last_timer_trigger s' = now /\ length (wait_info (po_ev s')) = Z.to_nat n.
Proof.
  intros Hn. assert (event_open (po_ev (port_event_shutdown s)) = false) as Hs.
  { unfold port_event_shutdown, fiber_event_shutdown. cbn. by destruct (event_open (po_ev s)) eqn:E. }
  unfold port_event_init. split_and!; [intros ->; done|intros E; unfold fiber_event_init; by rewrite E|]. rewrite Hs.
  unfold fiber_event_init. rewrite Hs, i32_small by lia. rewrite (proj2 (Z.ltb_ge _ _)) by lia. cbn [mbind option_bind fst snd].
  change (Z.eqb FIBER_SUCCESS FIBER_SUCCESS) with true. cbv iota. eexists. split; [done|]. cbn. split_and!; [done|done|apply length_replicate].
Qed.

(** The two platforms treat the events of a descriptor alike: an event port leaves
    the state an epoll descriptor leaves, the calls to the kernel apart. *)
Theorem port_fd_as_epoll s fd events :
  po_ev <$> port_poll_one s (PFd fd events) = with_log (epoll_log (po_ev s)) <$> poll_one (po_ev s) (EvFd fd events).
Proof.
  destruct s as [ev last log]. cbn [port_poll_one poll_one po_ev].
  destruct (wait_info ev !! fd) as [info|] eqn:E; cbn [mbind option_bind]; [|done].
  change (Z.lor POLLIN POLLOUT) with (Z.lor EPOLLIN EPOLLOUT). set (rest := Z.land _ (Z.lor _ _)).
  set (s0 := set_info ev fd _). rewrite <- wake_waiters_log.
  destruct (Z.eqb rest 0); [change (with_log _ s0) with s0|change (with_log _ (epoll_ctl s0 _)) with s0];
    cbn [epoll_ctl scratch]; change (scratch s0) with (scratch ev); by destruct (fiber_event_wake_waiters _ s0 _ _).
Qed.

(** [port_getn] failing is fatal whatever the events delivered with the failure did,
    the timeout apart; an interrupted [epoll_wait] is not. *)
Theorem port_failure_fatal s events e : e <> ETIME ->
  port_poll_events_internal s events (Some e) = None /\
  (event_open (po_ev s) = true -> fiber_poll_events (po_ev s) None = Some (0, po_ev s)).
Proof.
  intros He. unfold port_poll_events_internal, fiber_poll_events. split; [|intros Ho; by rewrite Ho].
  destruct (port_poll_loop s events) as [s'|]; [|done]. cbn [mbind option_bind]. by rewrite (proj2 (Z.eqb_neq _ _) He).
Qed.

(** The clock of the event port, while less than 430 ticks (2.15 seconds) are
    outstanding: the ticks counted are those that have passed since the last ones
    counted, the remainder is carried over, and exactly the sleepers that are due by
    then become ready. *)
Theorem port_timer_exact s now : bst (sleepers (po_ev s)) -> 0 <= now - last_timer_trigger s < 430 * 5000000 ->
  let n := (now - last_timer_trigger s) / 5000000 in
  let c := u64 (timer_trigger_count (po_ev s) + n) in
  exists s', port_poll_one s (PTimer now) = Some s' /\ last_timer_trigger s' = last_timer_trigger s + n * 5000000 /\
    last_timer_trigger s' <= now < last_timer_trigger s' + 5000000 /\
    timer_trigger_count (po_ev s') = c /\ ev_ready (po_ev s') = ev_ready (po_ev s) ++ due c (sleepers (po_ev s)) /\
    tree_list (sleepers (po_ev s')) = filter (fun e => c <= e.1) (tree_list (sleepers (po_ev s))) /\ bst (sleepers (po_ev s')).
Proof.
  destruct s as [ev last log]. intros Hb Hnow n c. cbn [po_ev last_timer_trigger] in *.
  assert (now - last = 5000000 * n + (now - last) mod 5000000) as Hdm by (apply Z.div_mod; lia).
  assert (0 <= (now - last) mod 5000000 < 5000000) as Hm by (apply Z.mod_pos_bound; lia).
  assert (0 <= n < 430) as Hn by lia.
  assert (timer_ticks last now = n) as Hticks.
  { unfold timer_ticks. change (FIBER_TIME_RESOLUTION_MS * 1000000) with 5000000.
    rewrite Z.quot_div_nonneg by lia. apply i32_small. fold n. lia. }
  assert (ticks_ns n = n * 5000000) as Hns.
  { unfold ticks_ns. change (FIBER_TIME_RESOLUTION_MS * 1000000) with 5000000. apply i32_small. lia. }
  cbn [port_poll_one po_ev last_timer_trigger port_log]. rewrite Hticks, Hns, (u64_small n) by lia. unfold fiber_event_wake_sleepers. fold c.
  destruct (wake_sleepers_loop_spec (S (tree_size (sleepers ev))) (set_sleepers ev c (sleepers ev)))
    as (s' & E & I1 & I2 & I3 & I4 & I5 & I6 & I7); [done|simpl; lia|].
  cbn [set_sleepers ev_ready sleepers timer_trigger_count scratch wait_info fstate] in *.
  rewrite E. cbn [mbind option_bind]. eexists. split; [done|]. cbn [po_ev last_timer_trigger]. split_and!; try done; lia.
Qed.

(** Once 430 ticks are outstanding the product overflows an [int]: the ticks are
    counted but the time of the last ones goes back, and the next poll counts them
    again, and more. *)
Theorem port_timer_overflow s now : 430 * 5000000 <= now - last_timer_trigger s < 858 * 5000000 ->
  let s' := last_timer_trigger s + ticks_ns (timer_ticks (last_timer_trigger s) now) in
  s' < last_timer_trigger s /\ timer_ticks (last_timer_trigger s) now < timer_ticks s' now.
Proof.
  set (last := last_timer_trigger s). clearbody last. intros Hnow.
  assert (now - last = 5000000 * ((now - last) / 5000000) + (now - last) mod 5000000) as Hdm by (apply Z.div_mod; lia).
  assert (0 <= (now - last) mod 5000000 < 5000000) as Hm by (apply Z.mod_pos_bound; lia).
  unfold timer_ticks, ticks_ns. change (FIBER_TIME_RESOLUTION_MS * 1000000) with 5000000.
  rewrite Z.quot_div_nonneg by lia. set (n := (now - last) / 5000000) in *.
  assert (430 <= n < 858) as Hn by lia. rewrite (i32_small n) by lia.
  assert (i32 (n * 5000000) = n * 5000000 - 2 ^ 32) as Hw.
  { unfold i32. rewrite <- (Z_mod_plus_full _ (-1)), Z.mod_small by lia. lia. }
  rewrite Hw. cbv zeta. split; [lia|]. rewrite Z.quot_div_nonneg by lia.
  assert (858 <= (now - (last + (n * 5000000 - 2 ^ 32))) / 5000000 < 1717) as Hq.
  { split; [apply Z.div_le_lower_bound; lia|apply Z.div_lt_upper_bound; lia]. }
  rewrite i32_small; lia.
Qed.

(** ** Witnesses *)

Definition port_demo : port_state := PortState ev_demo 1000000000 [].

Lemma blocking_poll_outcomes_witness : exists l,
  fiber_poll_events_blocking (EvState false [] 0 WLeaf ∅ ∅ [] []) 2 500 None = Some (SleptFor l, 0, EvState false [] 0 WLeaf ∅ ∅ [] []) /\
  foldr Z.add 0 l = 2000500.
Proof. apply (blocking_poll_outcomes (EvState false [] 0 WLeaf ∅ ∅ [] []) 2 500 None); [lia|lia|reflexivity]. Defined.

Lemma port_init_outcomes_witness : port_event_init port_demo (Some 1024) true 5 = Some (FIBER_ERROR, port_demo).
Proof. refine (proj1 (port_init_outcomes port_demo 1024 5 _) _); [lia|reflexivity]. Defined.

Lemma port_failure_fatal_witness : port_poll_events_internal port_demo [PTimer 1020000000] (Some 4) = None.
Proof. apply (port_failure_fatal port_demo [PTimer 1020000000] 4). discriminate. Defined.

Lemma port_timer_exact_witness : exists s', port_poll_one port_demo (PTimer 1017000000) = Some s' /\
  last_timer_trigger s' = 1015000000 /\ timer_trigger_count (po_ev s') = 13 /\ ev_ready (po_ev s') = [64].
Proof.
  destruct (port_timer_exact port_demo 1017000000) as (s' & E & H1 & H2 & H3 & H4 & H5);
    [simpl; split_and!; constructor|vm_compute; split; [discriminate|reflexivity]|]. by exists s'.
Defined.

Lemma port_timer_overflow_witness :
  1000000000 + ticks_ns (timer_ticks 1000000000 4000000000) < 1000000000 /\
  timer_ticks 1000000000 4000000000 < timer_ticks (1000000000 + ticks_ns (timer_ticks 1000000000 4000000000)) 4000000000.
Proof. apply (port_timer_overflow port_demo 4000000000). vm_compute. split; [discriminate|reflexivity]. Defined.
