(* ===== verification/Teardown.v ===== *)
(** * Allocation and destruction

    The memory the components take and give back: the arrays of a work-stealing
    deque ([src/work_stealing_deque.c]), the queues of the two schedulers
    ([src/fiber_scheduler_wsd.c], [src/fiber_scheduler_dist.c]), the channels
    ([include/fiber_channel.h], [include/fiber_multi_channel.h]).  What [malloc] and
    [calloc] answer is an input, NULL included; an access to a block that is not
    allocated, a second [free] and a failed assertion have no result. *)

From S2P Require Import Prelude MpscFifo Lifo SpscFifo DistFifo.

(** ** Memory *)

(** What a block holds of pointers: [wsd_circular_array_t] ([log_size], [prev]), a
    deque ([underlying_array]), [fiber_schedulers] ([queue_one] and [queue_two] of
    the schedulers initialised so far), [fiber_scheduler_thread_queues], the
    [fiber_schedulers] of the other scheduler (the heads of its queues), a channel
    (the head of the queue inside). *)
Inductive heap_block :=
| BArray (log_size prev : Z)
| BDeque (underlying_array : Z)
| BScheds (qs : list (Z * Z))
| BQueues (qs : list Z)
| BDist (heads : list Z)
| BChannel (head : Z).

(** Queue nodes and other blocks, and the variables of the schedulers. *)
Record mem := Mem {
  mnodes : gmap Z node;
  mblocks : gmap Z heap_block;
  num_threads : nat;
  fiber_schedulers : Z;
  thread_queues : Z
}.

Definition set_nodes (h : gmap Z node) (m : mem) : mem := Mem h (mblocks m) (num_threads m) (fiber_schedulers m) (thread_queues m).
Definition set_blocks (h : gmap Z heap_block) (m : mem) : mem := Mem (mnodes m) h (num_threads m) (fiber_schedulers m) (thread_queues m).
Definition set_num (n : nat) (m : mem) : mem := Mem (mnodes m) (mblocks m) n (fiber_schedulers m) (thread_queues m).
Definition set_scheds (s : Z) (m : mem) : mem := Mem (mnodes m) (mblocks m) (num_threads m) s (thread_queues m).
Definition set_queues (q : Z) (m : mem) : mem := Mem (mnodes m) (mblocks m) (num_threads m) (fiber_schedulers m) q.

Definition mm (A : Type) : Type := mem -> option (A * mem).
#[export] Instance mm_ret : MRet mm := fun A x m => Some (x, m).
#[export] Instance mm_bind : MBind mm := fun A B f c m => '(x, m') ← c m; f x m'.

Definition fault {A} : mm A := fun _ => None.
Definition gets {A} (f : mem -> A) : mm A := fun m => Some (f m, m).
Definition modify (f : mem -> mem) : mm unit := fun m => Some (tt, f m).
Definition assert_ (b : bool) : mm unit := if b then mret tt else fault.

Definition fresh_in (m : mem) (a : Z) : Prop := a <> NULL /\ mblocks m !! a = None /\ mnodes m !! a = None.

(** [a]: the answer of the allocator. *)
Definition alloc (a : Z) (b : heap_block) : mm Z := fun m =>
  if decide (a = NULL) then Some (NULL, m)
  else if decide (fresh_in m a) then Some (a, set_blocks (<[a:=b]> (mblocks m)) m) else None.
Definition alloc_node (a : Z) : mm Z := fun m =>
  if decide (a = NULL) then Some (NULL, m)
  else if decide (fresh_in m a) then Some (a, set_nodes (<[a:=Node 0 NULL]> (mnodes m)) m) else None.
Definition load (a : Z) : mm heap_block := fun m => b ← mblocks m !! a; Some (b, m).
Definition store (a : Z) (b : heap_block) : mm unit := fun m =>
  _ ← mblocks m !! a; Some (tt, set_blocks (<[a:=b]> (mblocks m)) m).
Definition free_block (a : Z) : mm unit := fun m =>
  if decide (a = NULL) then Some (tt, m) else _ ← mblocks m !! a; Some (tt, set_blocks (delete a (mblocks m)) m).

(** ** The deque *)

(** [wsd_circular_array_create]; see [Wsd] for the bound. *)
Definition alloc_circular_array (log_size a : Z) : mm Z :=
  if Z.ltb log_size 31 then alloc a (BArray log_size NULL) else fault.

Fixpoint wsd_circular_array_destroy (fuel : nat) (a : Z) : mm unit :=
  match fuel with
  | O => fault
  | S fuel =>
      b ← load a;
      match b with
      | BArray _ prev => (if decide (prev = NULL) then mret tt else wsd_circular_array_destroy fuel prev);; free_block a
      | _ => fault
      end
  end.

(** [wsd_work_stealing_deque_create]. *)
Definition alloc_deque (ans : Z * Z) : mm Z :=
  d ← alloc ans.1 (BDeque NULL);
  if decide (d = NULL) then mret NULL else
  a ← alloc_circular_array 8 ans.2;
  if decide (a = NULL) then free_block d;; mret NULL else
  store d (BDeque a);; mret d.

(** What [wsd_work_stealing_deque_push_bottom] does to the memory when the array is
    full; a NULL array is dereferenced. *)
Definition grow_deque (d ans : Z) : mm unit :=
  b ← load d;
  match b with
  | BDeque a =>
      b ← load a;
      match b with
      | BArray lg prev =>
          new_a ← alloc_circular_array (lg + 1) ans;
          assert_ (negb (Z.eqb new_a NULL));;
          store new_a (BArray (lg + 1) a);;
          store d (BDeque new_a)
      | _ => fault
      end
  | _ => fault
  end.

(** A chain of arrays has no more arrays than there are blocks. *)
Definition wsd_work_stealing_deque_destroy (d : Z) : mm unit :=
  if decide (d = NULL) then mret tt else
  b ← load d;
  match b with
  | BDeque a => n ← gets (fun m => size (mblocks m)); wsd_circular_array_destroy n a;; free_block d
  | _ => fault
  end.

(** ** The work-stealing scheduler *)

(** [fiber_scheduler_wsd_init]: its result and the two queues. *)
Definition alloc_scheduler (ans : (Z * Z) * (Z * Z)) : mm (Z * (Z * Z)) :=
  queue_one ← alloc_deque ans.1;
  queue_two ← alloc_deque ans.2;
  if decide (queue_one = NULL \/ queue_two = NULL) then
    wsd_work_stealing_deque_destroy queue_one;;
    wsd_work_stealing_deque_destroy queue_two;;
    mret (0, (queue_one, queue_two))
  else mret (1, (queue_one, queue_two)).

Definition fiber_scheduler_wsd_destroy (q : Z * Z) : mm unit :=
  wsd_work_stealing_deque_destroy q.1;; wsd_work_stealing_deque_destroy q.2.

(** The loop of [fiber_scheduler_init]. *)
Fixpoint alloc_loop (s q : Z) (done : list (Z * Z)) (ans : list ((Z * Z) * (Z * Z))) : mm unit :=
  match ans with
  | [] => mret tt
  | a :: ans =>
      r ← alloc_scheduler a;
      assert_ (Z.eqb r.1 1);;
      store s (BScheds (done ++ [r.2]));;
      store q (BQueues (concat ((fun p => [p.1; p.2]) <$> (done ++ [r.2]))));;
      alloc_loop s q (done ++ [r.2]) ans
  end.

(** [fiber_scheduler_init] for as many threads as there are answers. *)
Definition alloc_schedulers (a_scheds a_queues : Z) (ans : list ((Z * Z) * (Z * Z))) : mm Z :=
  assert_ (bool_decide (ans <> []));;
  modify (set_num (length ans));;
  s0 ← gets fiber_schedulers;
  assert_ (Z.eqb s0 NULL);;
  s ← alloc a_scheds (BScheds []);
  modify (set_scheds s);;
  assert_ (negb (Z.eqb s NULL));;
  q0 ← gets thread_queues;
  assert_ (Z.eqb q0 NULL);;
  q ← alloc a_queues (BQueues []);
  modify (set_queues q);;
  assert_ (negb (Z.eqb q NULL));;
  alloc_loop s q [] ans;;
  mret 1.

(** The loop of [fiber_scheduler_shutdown]. *)
Fixpoint shutdown_loop (s : Z) (i todo : nat) : mm unit :=
  match todo with
  | O => mret tt
  | S todo =>
      b ← load s;
      match b with
      | BScheds qs =>
          match qs !! i with
          | Some q => fiber_scheduler_wsd_destroy q;; shutdown_loop s (S i) todo
          | None => fault
          end
      | _ => fault
      end
  end.

Definition fiber_scheduler_shutdown : mm unit :=
  n ← gets num_threads;
  s ← gets fiber_schedulers;
  shutdown_loop s 0 n;;
  free_block s;;
  modify (set_scheds NULL);;
  q ← gets thread_queues;
  free_block q;;
  modify (set_queues NULL).

(** [fiber_scheduler_for_thread]: the scheduler is given by its index. *)
Definition scheduler_for_thread (thread_id : nat) : mm nat := fun m =>
  if decide (fiber_schedulers m <> NULL /\ (thread_id < num_threads m)%nat) then Some (thread_id, m) else None.

(** ** The distributed scheduler *)

(** [dist_fifo_destroy] and [mpsc_fifo_destroy] on the nodes; a queue has no more
    nodes than there are. *)
Definition dist_queue_destroy (head : Z) : mm unit := fun m =>
  h ← dist_fifo_destroy (S (size (mnodes m))) (mnodes m) head; Some (tt, set_nodes h m).
Definition queue_destroy (head : Z) : mm unit := fun m =>
  h ← mpsc_fifo_destroy (S (size (mnodes m))) (mnodes m) head; Some (tt, set_nodes h m).
Definition sp_queue_destroy (head : Z) : mm unit := fun m =>
  h ← spsc_fifo_destroy (S (size (mnodes m))) (mnodes m) head; Some (tt, set_nodes h m).

Fixpoint dist_shutdown_loop (s : Z) (i todo : nat) : mm unit :=
  match todo with
  | O => mret tt
  | S todo =>
      b ← load s;
      match b with
      | BDist heads =>
          match heads !! i with
          | Some head => dist_queue_destroy head;; dist_shutdown_loop s (S i) todo
          | None => fault
          end
      | _ => fault
      end
  end.

(** [fiber_scheduler_shutdown] of [src/fiber_scheduler_dist.c]. *)
Definition dist_scheduler_shutdown : mm unit :=
  n ← gets num_threads;
  s ← gets fiber_schedulers;
  dist_shutdown_loop s 0 n;;
  free_block s;;
  modify (set_scheds NULL).

(** ** Channels *)

(** [fiber_bounded_channel_create] and [fiber_multi_channel_create] once the size is
    known: the block, and the queue inside ([waiters], or the waiters of [lock]). *)
Definition alloc_channel (a_channel a_node : Z) : mm Z :=
  channel ← alloc a_channel (BChannel NULL);
  if decide (channel = NULL) then mret NULL else
  n ← alloc_node a_node;
  if decide (n = NULL) then free_block channel;; mret NULL else
  store channel (BChannel n);; mret channel.

Definition fiber_bounded_channel_destroy (channel : Z) : mm unit :=
  if decide (channel = NULL) then mret tt else
  b ← load channel;
  match b with BChannel head => queue_destroy head;; free_block channel | _ => fault end.

(** [fiber_mutex_destroy] destroys the queue of its waiters. *)
Definition fiber_multi_channel_destroy (channel : Z) : mm unit :=
  if decide (channel = NULL) then mret tt else
  b ← load channel;
  match b with BChannel head => queue_destroy head;; free_block channel | _ => fault end.

(** The channel is the caller's memory; [None]: NULL, otherwise the head of its
    queue. *)
Definition fiber_unbounded_channel_destroy (channel : option Z) : mm unit :=
  match channel with Some head => queue_destroy head | None => mret tt end.
Definition fiber_unbounded_sp_channel_destroy (channel : option Z) : mm unit :=
  match channel with Some head => sp_queue_destroy head | None => mret tt end.

(** ** Lemmas *)

Definition del_all {A} (l : list Z) (h : gmap Z A) : gmap Z A := foldr delete h l.
Arguments del_all : simpl never.

Lemma lookup_del_all {A} l (h : gmap Z A) a : del_all l h !! a = if decide (a ∈ l) then None else h !! a.
Proof.
  induction l as [|x l IH]; [by rewrite decide_False by apply not_elem_of_nil|].
  change (del_all (x :: l) h) with (delete x (del_all l h)). rewrite lookup_delete, IH.
  destruct (decide (x = a)), (decide (a ∈ l)), (decide (a ∈ x :: l)); try done; set_solver.
Qed.

Lemma del_all_app {A} l1 l2 (h : gmap Z A) : del_all (l1 ++ l2) h = del_all l2 (del_all l1 h).
Proof.
  apply map_eq. intros a. rewrite !lookup_del_all.
  destruct (decide (a ∈ l1 ++ l2)), (decide (a ∈ l2)), (decide (a ∈ l1)); try done; set_solver.
Qed.

Lemma mm_run {A B} (c : mm A) (f : A -> mm B) m x m' : c m = Some (x, m') -> (c ≫= f) m = f x m'.
Proof. intros E. unfold mbind, mm_bind. by rewrite E. Qed.

Lemma load_run a b m : mblocks m !! a = Some b -> load a m = Some (b, m).
Proof. intros E. unfold load. by rewrite E. Qed.
Lemma store_run a b0 b m : mblocks m !! a = Some b0 -> store a b m = Some (tt, set_blocks (<[a:=b]> (mblocks m)) m).
Proof. intros E. unfold store. by rewrite E. Qed.
Lemma free_block_run a b m : a <> NULL -> mblocks m !! a = Some b -> free_block a m = Some (tt, set_blocks (delete a (mblocks m)) m).
Proof. intros Ha E. unfold free_block. by rewrite decide_False, E. Qed.
Lemma alloc_block_run a b m : fresh_in m a -> alloc a b m = Some (a, set_blocks (<[a:=b]> (mblocks m)) m).
Proof. intros Ha. unfold alloc. rewrite decide_False by apply Ha. by rewrite decide_True. Qed.

(** The chain of arrays from [a]: the array of the deque first.  The [i]th array
    from the end has [2 ^ (8 + i)] elements. *)
Fixpoint arrays_at (h : gmap Z heap_block) (a : Z) (l : list Z) : Prop :=
  match l with
  | [] => a = NULL
  | x :: l => a = x /\ x <> NULL /\ exists prev, h !! x = Some (BArray (8 + Z.of_nat (length l)) prev) /\ arrays_at h prev l
  end.

Lemma arrays_at_frame h h' l : forall a, (forall x, x ∈ l -> h' !! x = h !! x) -> arrays_at h a l -> arrays_at h' a l.
Proof.
  induction l as [|x l IH]; intros a Hf; [done|]. intros (-> & Hx & prev & Hp & Hl). split; [done|]. split; [done|].
  exists prev. rewrite Hf by left. split; [done|]. apply IH; [|done]. intros y Hy. apply Hf. by right.
Qed.

Lemma array_destroy_run l : forall fuel a m, arrays_at (mblocks m) a l -> l <> [] -> NoDup l -> (length l <= fuel)%nat ->
  wsd_circular_array_destroy fuel a m = Some (tt, set_blocks (del_all l (mblocks m)) m).
Proof.
  induction l as [|x l IH]; intros fuel a m Ha Hne Hnd Hf; [done|]. destruct Ha as (-> & Hx & prev & Hp & Hl).
  apply NoDup_cons in Hnd as [Hxl Hnd]. destruct fuel as [|fuel]; [simpl in Hf; lia|]. cbn [wsd_circular_array_destroy].
  erewrite mm_run by (by apply load_run). cbn iota. destruct (decide (prev = NULL)) as [->|Hprev].
  - assert (l = []) as -> by (destruct l as [|? ?]; [done|simpl in Hl; naive_solver]). erewrite mm_run by reflexivity.
    by erewrite free_block_run.
  - destruct l as [|y l]; [simpl in Hl; done|]. erewrite mm_run by (apply IH; [done|done|done|simpl in *; lia]).
    erewrite free_block_run; [done|done|]. cbn [set_blocks mblocks]. by rewrite lookup_del_all, decide_False.
Qed.

(** A deque and its arrays. *)
Definition deque_at (h : gmap Z heap_block) (d : Z) (l : list Z) : Prop :=
  d <> NULL /\ l <> [] /\ exists a, h !! d = Some (BDeque a) /\ arrays_at h a l.

Lemma deque_at_frame h h' d l : (forall x, x ∈ d :: l -> h' !! x = h !! x) -> deque_at h d l -> deque_at h' d l.
Proof.
  intros Hf (Hd & Hl & a & Ha & Hal). split_and!; [done|done|]. exists a. rewrite Hf by left. split; [done|].
  eapply arrays_at_frame; [|done]. intros x Hx. apply Hf. by right.
Qed.

Lemma arrays_at_dom h l : forall a, arrays_at h a l -> Forall (fun x => x ∈ dom h) l.
Proof.
  induction l as [|x l IH]; intros a H; [constructor|]. destruct H as (-> & _ & prev & Hp & Hl). constructor; [|by eapply IH].
  by apply elem_of_dom_2 in Hp.
Qed.

Lemma deque_destroy_run d l m : deque_at (mblocks m) d l -> NoDup (d :: l) ->
  wsd_work_stealing_deque_destroy d m = Some (tt, set_blocks (del_all (d :: l) (mblocks m)) m).
Proof.
  intros (Hd & Hl & a & Ha & Hal) [Hdl Hnd]%NoDup_cons. unfold wsd_work_stealing_deque_destroy. rewrite decide_False by done.
  assert (length l <= size (mblocks m))%nat as Hsz.
  { apply NoDup_length_size; [done|]. intros x Hx. pose proof (arrays_at_dom _ _ _ Hal) as Hall. rewrite Forall_forall in Hall. by apply elem_of_dom, Hall. }
  erewrite mm_run by (by apply load_run). cbn iota. erewrite mm_run by reflexivity.
  rewrite (mm_run _ _ _ _ _ (array_destroy_run l _ a m Hal Hl Hnd Hsz)).
  erewrite free_block_run; [done|done|]. cbn [set_blocks mblocks]. by rewrite lookup_del_all, decide_False.
Qed.

(** A deque is created whole, or not at all. *)
Definition answers_ok (m : mem) (l : list Z) : Prop :=
  NoDup (filter (fun a => a <> NULL) l) /\ forall a, a ∈ l -> a <> NULL -> fresh_in m a.

Lemma alloc_deque_run d a m : answers_ok m [d; a] ->
  (d <> NULL /\ a <> NULL /\ exists m', alloc_deque (d, a) m = Some (d, set_blocks m' m) /\ deque_at m' d [a] /\
     forall x, x ∉ [d; a] -> m' !! x = mblocks m !! x) \/
  ((d = NULL \/ a = NULL) /\ alloc_deque (d, a) m = Some (NULL, m)).
Proof.
  intros [Hnd Hfr]. unfold alloc_deque. cbn [fst snd]. destruct (decide (d = NULL)) as [->|Hd].
  { right. split; [by left|]. done. }
  assert (fresh_in m d) as Hfd by (apply Hfr; [left|done]). rewrite (mm_run _ _ _ _ _ (alloc_block_run _ _ _ Hfd)).
  rewrite decide_False by done. unfold alloc_circular_array. change (8 <? 31) with true. cbv iota.
  destruct (decide (a = NULL)) as [->|Ha].
  { right. split; [by right|]. erewrite mm_run by reflexivity. rewrite decide_True by done.
    erewrite mm_run; [|eapply free_block_run; [done|cbn; by rewrite lookup_insert_eq]]. cbn [set_blocks mblocks].
    rewrite delete_insert_id by apply Hfd. by destruct m. }
  left. split_and!; [done|done|]. rewrite !filter_cons_True, filter_nil in Hnd by done.
  apply NoDup_cons in Hnd as [Hda _]. assert (d <> a) as Hne by set_solver.
  assert (fresh_in m a) as Hfa by (apply Hfr; [right; left|done]).
  erewrite mm_run; [|apply alloc_block_run; split; [done|]; cbn; rewrite lookup_insert_ne by done; split; apply Hfa].
  rewrite decide_False by done. cbn [set_blocks mblocks mnodes num_threads fiber_schedulers thread_queues].
  erewrite mm_run; [|eapply store_run; cbn; rewrite lookup_insert_ne by done; by rewrite lookup_insert_eq].
  eexists. split; [reflexivity|]. cbn. split.
  - split_and!; [done|done|]. exists a. rewrite lookup_insert_eq. split; [done|]. cbn. split_and!; [done|done|]. exists NULL.
    rewrite lookup_insert_ne, lookup_insert_eq by done. done.
  - intros x Hx. rewrite !lookup_insert_ne by set_solver. done.
Qed.

(** Destroying a deque that was just created. *)
Lemma deque_undo d a h m : answers_ok m [d; a] -> d <> NULL -> a <> NULL -> deque_at h d [a] ->
  (forall x, x ∉ [d; a] -> h !! x = mblocks m !! x) -> wsd_work_stealing_deque_destroy d (set_blocks h m) = Some (tt, m).
Proof.
  intros [Hnd Hfr] Hd Ha Hdq Hf. rewrite !filter_cons_True, filter_nil in Hnd by done.
  rewrite (deque_destroy_run d [a] (set_blocks h m)) by done. do 2 f_equal. destruct m as [nd h0 ? ? ?]. unfold set_blocks. cbn in *.
  f_equal. apply map_eq. intros x. rewrite lookup_del_all. case_decide as Hx; [|by apply Hf].
  symmetry. apply (Hfr x); [done|]. assert (x = d \/ x = a) as [-> | ->] by set_solver; done.
Qed.

(** The deques in use with their arrays, and the blocks they take. *)
Definition foot (fps : list (Z * list Z)) : list Z := concat ((fun p => p.1 :: p.2) <$> fps).

Lemma foot_app f1 f2 : foot (f1 ++ f2) = foot f1 ++ foot f2.
Proof. unfold foot. by rewrite fmap_app, concat_app. Qed.
Lemma foot_cons p f : foot (p :: f) = p.1 :: p.2 ++ foot f.
Proof. done. Qed.

Lemma elem_of_foot fps x : x ∈ foot fps <-> exists p, p ∈ fps /\ x ∈ p.1 :: p.2.
Proof.
  unfold foot. rewrite list_elem_of_In, in_concat. split.
  - intros (l & Hl & Hin). apply list_elem_of_In, list_elem_of_fmap in Hl as (p & -> & Hp). exists p. split; [done|]. by apply list_elem_of_In.
  - intros (p & Hp & Hx). exists (p.1 :: p.2). rewrite <- !list_elem_of_In. split; [|done]. apply list_elem_of_fmap. by exists p.
Qed.

(** [h] is [h0] with the blocks [ex] and the deques [fps]. *)
Record owns (h0 h : gmap Z heap_block) (ex : list Z) (fps : list (Z * list Z)) : Prop := {
  ow_deques : Forall (fun p => deque_at h p.1 p.2) fps;
  ow_nd : NoDup (ex ++ foot fps);
  ow_live : forall x, x ∈ ex -> is_Some (h !! x);
  ow_new : forall x, x ∈ ex ++ foot fps -> h0 !! x = None;
  ow_rest : forall x, x ∉ ex ++ foot fps -> h !! x = h0 !! x
}.

Lemma owns_free h0 h ex fps : owns h0 h ex fps -> del_all (ex ++ foot fps) h = h0.
Proof.
  intros HO. apply map_eq. intros x. rewrite lookup_del_all. case_decide as Hx.
  - symmetry. by apply (ow_new _ _ _ _ HO).
  - by apply (ow_rest _ _ _ _ HO).
Qed.

Lemma deque_live h d l x : deque_at h d l -> x ∈ d :: l -> is_Some (h !! x).
Proof.
  intros (_ & _ & a & Ha & Hal) [->|Hx]%elem_of_cons; [eauto|]. pose proof (arrays_at_dom _ _ _ Hal) as Hall.
  rewrite Forall_forall in Hall. by apply elem_of_dom, Hall.
Qed.

Lemma owns_live h0 h ex fps x : owns h0 h ex fps -> x ∈ ex ++ foot fps -> is_Some (h !! x).
Proof.
  intros HO [Hx|(p & Hp & Hx)%elem_of_foot]%elem_of_app; [by apply (ow_live _ _ _ _ HO)|].
  pose proof (ow_deques _ _ _ _ HO) as Hd. rewrite Forall_forall in Hd. by eapply deque_live; [apply Hd|].
Qed.

Lemma owns_fresh h0 h ex fps x : owns h0 h ex fps -> h !! x = None -> (x ∉ ex ++ foot fps) /\ h0 !! x = None.
Proof.
  intros HO Hx. assert (x ∉ ex ++ foot fps) as Hout by (intros [y Hy]%(owns_live _ _ _ _ _ HO); congruence).
  split; [done|]. by rewrite <- (ow_rest _ _ _ _ HO).
Qed.

(** The content of one of the other blocks changes. *)
Lemma owns_store h0 h ex fps x b : owns h0 h ex fps -> x ∈ ex -> owns h0 (<[x:=b]> h) ex fps.
Proof.
  intros HO Hx. pose proof (ow_nd _ _ _ _ HO) as Hnd. apply NoDup_app in Hnd as (_ & Hdis & _). split; try apply HO.
  - pose proof (ow_deques _ _ _ _ HO) as Hd. rewrite Forall_forall in *. intros p Hp. eapply deque_at_frame; [|by apply Hd].
    intros y Hy. rewrite lookup_insert_ne; [done|]. intros ->. apply (Hdis _ Hx). apply elem_of_foot. eauto.
  - intros y Hy. destruct (decide (x = y)) as [->|]; [rewrite lookup_insert_eq; eauto|]. rewrite lookup_insert_ne by done.
    by apply (ow_live _ _ _ _ HO).
  - intros y Hy. rewrite lookup_insert_ne by set_solver. by apply (ow_rest _ _ _ _ HO).
Qed.

(** A new deque. *)
Lemma owns_add h0 h ex fps h' d a : owns h0 h ex fps -> d <> a -> h !! d = None -> h !! a = None -> deque_at h' d [a] ->
  (forall x, x ∉ [d; a] -> h' !! x = h !! x) -> owns h0 h' ex (fps ++ [(d, [a])]).
Proof.
  intros HO Hda Hd Ha Hdeq Hfr. destruct (owns_fresh _ _ _ _ _ HO Hd) as [Hd1 Hd2]. destruct (owns_fresh _ _ _ _ _ HO Ha) as [Ha1 Ha2].
  assert (forall x, x ∈ ex ++ foot fps -> h' !! x = h !! x) as Hold by (intros x Hx; apply Hfr; set_solver).
  assert (foot (fps ++ [(d, [a])]) = foot fps ++ [d; a]) as Hft by (by rewrite foot_app).
  split.
  - apply Forall_app. split; [|by constructor]. pose proof (ow_deques _ _ _ _ HO) as Hds. rewrite Forall_forall in *.
    intros p Hp. eapply deque_at_frame; [|by apply Hds]. intros x Hx. apply Hold, elem_of_app. right. apply elem_of_foot. eauto.
  - rewrite Hft, app_assoc. apply NoDup_app. split_and!; [apply HO|set_solver|]. apply NoDup_cons. split; [set_solver|apply NoDup_singleton].
  - intros x Hx. rewrite Hold by set_solver. by apply (ow_live _ _ _ _ HO).
  - intros x Hx. rewrite Hft, app_assoc in Hx. apply elem_of_app in Hx as [Hx|Hx]; [by apply (ow_new _ _ _ _ HO)|]. set_solver.
  - intros x Hx. rewrite Hft, app_assoc in Hx. apply not_elem_of_app in Hx as [Hx1 Hx2]. rewrite Hfr by done. by apply (ow_rest _ _ _ _ HO).
Qed.

(** A deque grows: the new array is put in front of the others. *)
Lemma grow_deque_run d y l a m : d <> a -> deque_at (mblocks m) d (y :: l) -> fresh_in m a -> (length l < 22)%nat ->
  grow_deque d a m = Some (tt, set_blocks (<[d:=BDeque a]> (<[a:=BArray (9 + Z.of_nat (length l)) y]> (mblocks m))) m).
Proof.
  intros Hda (Hd & _ & x & Hx & Hal) Hfa Hlen. destruct Hal as (-> & Hy & prev & Hp & _). pose proof Hfa as (Ha & _).
  unfold grow_deque. erewrite mm_run by (by apply load_run). cbn iota. erewrite mm_run by (by apply load_run). cbn iota.
  unfold alloc_circular_array. replace (8 + Z.of_nat (length l) + 1) with (9 + Z.of_nat (length l)) by lia.
  rewrite (proj2 (Z.ltb_lt _ _)) by lia. erewrite mm_run by (by apply alloc_block_run).
  rewrite (proj2 (Z.eqb_neq _ _)) by done. erewrite mm_run by reflexivity.
  erewrite mm_run; [|eapply store_run; cbn; by rewrite lookup_insert_eq]. cbn [set_blocks mblocks]. rewrite insert_insert_eq.
  by rewrite (store_run d (BDeque y)) by (cbn; by rewrite !lookup_insert_ne).
Qed.

Lemma grown_deque h d y l a : a <> NULL -> a ∉ d :: y :: l -> d ∉ y :: l -> deque_at h d (y :: l) ->
  deque_at (<[d:=BDeque a]> (<[a:=BArray (9 + Z.of_nat (length l)) y]> h)) d (a :: y :: l).
Proof.
  intros Hnull Ha Hdl (Hd & _ & x & _ & Hal). destruct Hal as (-> & Hal).
  split_and!; [done|done|]. exists a. rewrite lookup_insert_eq. split; [done|]. split_and!; [done|done|]. exists y.
  rewrite lookup_insert_ne, lookup_insert_eq by set_solver. split; [do 2 f_equal; cbn [length]; lia|].
  apply (arrays_at_frame h); [|by split]. intros z Hz. rewrite !lookup_insert_ne; [done|by intros ->; set_solver..].
Qed.

Lemma owns_grow h0 ex f1 d l f2 a m : owns h0 (mblocks m) ex (f1 ++ (d, l) :: f2) -> fresh_in m a -> (length l <= 22)%nat ->
  exists h', grow_deque d a m = Some (tt, set_blocks h' m) /\ owns h0 h' ex (f1 ++ (d, a :: l) :: f2) /\
    (forall x, x ∈ ex -> h' !! x = mblocks m !! x) /\ (forall x, x <> a -> mblocks m !! x = None -> h' !! x = None).
Proof.
  intros HO Hfa Hlen. pose proof Hfa as (Hnull & Hfb & _). pose proof (ow_deques _ _ _ _ HO) as Hds.
  apply Forall_app in Hds as [Hd1 [Hd Hd2]%Forall_cons]. cbn [fst snd] in Hd. destruct l as [|y l]; [by destruct Hd as (_ & ? & _)|].
  destruct (owns_fresh _ _ _ _ _ HO Hfb) as [Hout Ha0].
  assert (ex ++ foot (f1 ++ (d, y :: l) :: f2) ≡ₚ d :: ex ++ foot f1 ++ (y :: l) ++ foot f2) as Hp2
    by (rewrite foot_app, foot_cons; cbn [fst snd]; solve_Permutation).
  assert (ex ++ foot (f1 ++ (d, a :: y :: l) :: f2) ≡ₚ a :: ex ++ foot (f1 ++ (d, y :: l) :: f2)) as Hperm
    by (rewrite !foot_app, !foot_cons; cbn [fst snd]; solve_Permutation).
  pose proof (ow_nd _ _ _ _ HO) as Hnd. rewrite Hp2 in Hnd, Hout.
  apply NoDup_cons in Hnd as [(Hd3 & (Hd4 & (Hd5 & Hd6)%not_elem_of_app)%not_elem_of_app)%not_elem_of_app _].
  apply not_elem_of_cons in Hout as [Hda (Ha3 & (Ha4 & (Ha5 & Ha6)%not_elem_of_app)%not_elem_of_app)%not_elem_of_app].
  set (h' := <[d:=BDeque a]> (<[a:=BArray (9 + Z.of_nat (length l)) y]> (mblocks m))).
  assert (forall z, z <> a -> z <> d -> h' !! z = mblocks m !! z) as Hfr by (intros; unfold h'; by rewrite !lookup_insert_ne).
  assert (forall f, Forall (fun p => deque_at (mblocks m) p.1 p.2) f -> d ∉ foot f -> a ∉ foot f ->
    Forall (fun p => deque_at h' p.1 p.2) f) as Hkeep.
  { intros f Hf Hdf Haf. rewrite Forall_forall in *. intros p Hp1. eapply deque_at_frame; [|by apply Hf]. intros z Hz.
    assert (z ∈ foot f) by (apply elem_of_foot; eauto). apply Hfr; by intros ->. }
  assert (forall z, z ∈ ex -> h' !! z = mblocks m !! z) as Hex by (intros z Hz; apply Hfr; by intros ->).
  exists h'. split_and!; [eapply grow_deque_run; [by intros ->|done|done|simpl in Hlen; lia]|split|exact Hex|].
  - apply Forall_app. split; [by apply Hkeep|]. apply Forall_cons. split; [|by apply Hkeep].
    apply grown_deque; [done|by apply not_elem_of_cons|done|done].
  - rewrite Hperm. apply NoDup_cons. split; [by apply (owns_fresh _ _ _ _ _ HO Hfb)|apply HO].
  - intros z Hz. rewrite Hex by done. by apply (ow_live _ _ _ _ HO).
  - intros z. rewrite Hperm. intros [->|Hz]%elem_of_cons; [done|by apply (ow_new _ _ _ _ HO)].
  - intros z. rewrite Hperm. intros [Hza Hz]%not_elem_of_cons. rewrite Hfr; [by apply (ow_rest _ _ _ _ HO)|done|].
    intros ->. apply Hz. rewrite Hp2. left.
  - intros z Hza Hz. rewrite Hfr; [done|done|]. intros ->. destruct Hd as (_ & _ & x & Hx & _). congruence.
Qed.

(** [grows]: a deque and the address of its next array, in the order in which the
    arrays fill up. *)
Fixpoint grow_all (grows : list (Z * Z)) : mm unit :=
  match grows with [] => mret tt | g :: grows => grow_deque g.1 g.2;; grow_all grows end.

Lemma grows_run h0 ex grows : forall m fps, owns h0 (mblocks m) ex fps -> (forall g, g ∈ grows -> g.1 ∈ fps.*1) ->
  NoDup grows.*2 -> (forall a, a ∈ grows.*2 -> fresh_in m a) -> Forall (fun p => length p.2 + length grows <= 23)%nat fps ->
  exists h' fps', grow_all grows m = Some (tt, set_blocks h' m) /\ owns h0 h' ex fps' /\ fps'.*1 = fps.*1 /\
    forall x, x ∈ ex -> h' !! x = mblocks m !! x.
Proof.
  induction grows as [|[d a] grows IH]; intros m fps HO Hin Hnd Hfr Hlen.
  { exists (mblocks m), fps. split; [by destruct m|done]. }
  destruct (proj1 (list_elem_of_fmap _ _ _) (Hin (d, a) ltac:(left))) as ([d' l] & Hd & Hp). cbn in Hd. subst d'.
  apply list_elem_of_split in Hp as (f1 & f2 & ->). rewrite fmap_cons in Hnd. apply NoDup_cons in Hnd as [Ha Hnd].
  pose proof Hlen as Hlen2. apply Forall_app in Hlen2 as [Hl1 [Hl Hl2]%Forall_cons]. cbn [fst snd length] in *.
  destruct (owns_grow h0 ex f1 d l f2 a m HO) as (h1 & E1 & HO1 & Hex1 & Hno1); [apply Hfr; left|lia|].
  destruct (IH (set_blocks h1 m) (f1 ++ (d, a :: l) :: f2)) as (h' & fps' & E & HO' & Hfst & Hex').
  - exact HO1.
  - intros g Hg. rewrite fmap_app, fmap_cons. specialize (Hin g (list_elem_of_further _ _ _ Hg)). by rewrite fmap_app, fmap_cons in Hin.
  - done.
  - intros b Hb. destruct (Hfr b) as (Hb0 & Hb1 & Hb2); [by right|]. split_and!; [done| |done]. apply Hno1; [|done]. by intros ->.
  - apply Forall_app. split; [eapply Forall_impl; [exact Hl1|]; simpl; lia|]. apply Forall_cons. cbn [fst snd length]. split; [lia|].
    eapply Forall_impl; [exact Hl2|]. simpl. lia.
  - exists h', fps'. split_and!; [|done|by rewrite Hfst, !fmap_app, !fmap_cons|].
    + cbn [grow_all fst snd]. erewrite mm_run by exact E1. by rewrite E.
    + intros x Hx. rewrite Hex' by done. by apply Hex1.
Qed.

(** The deques of the schedulers, with the arrays they start with. *)
Definition sched_queues (ans : list ((Z * Z) * (Z * Z))) : list (Z * Z) := (fun a => (a.1.1, a.2.1)) <$> ans.
Definition sched_fps (ans : list ((Z * Z) * (Z * Z))) : list (Z * list Z) :=
  concat ((fun a => [(a.1.1, [a.1.2]); (a.2.1, [a.2.2])]) <$> ans).
Definition queue_list (qs : list (Z * Z)) : list Z := concat ((fun p => [p.1; p.2]) <$> qs).

Definition answer_list (ans : list ((Z * Z) * (Z * Z))) : list Z :=
  concat ((fun a => [a.1.1; a.1.2; a.2.1; a.2.2]) <$> ans).

Lemma sched_fps_queues ans : (sched_fps ans).*1 = queue_list (sched_queues ans).
Proof. unfold sched_fps, sched_queues, queue_list. induction ans as [|a ans IH]; [done|]. csimpl. by rewrite <- IH. Qed.

Lemma sched_fps_foot ans : foot (sched_fps ans) = answer_list ans.
Proof. unfold foot, sched_fps, answer_list. induction ans as [|a ans IH]; [done|]. csimpl. by rewrite IH. Qed.

Lemma owns_deque h0 ex fps d a m : owns h0 (mblocks m) ex fps -> d <> a -> fresh_in m d -> fresh_in m a ->
  exists h', alloc_deque (d, a) m = Some (d, set_blocks h' m) /\ owns h0 h' ex (fps ++ [(d, [a])]) /\
    (forall x, x ∉ [d; a] -> h' !! x = mblocks m !! x).
Proof.
  intros HO Hda Hd Ha. destruct (alloc_deque_run d a m) as [(Hd0 & Ha0 & h' & E & Hdq & Hfr)|[[-> | ->] _]].
  - split; [|set_solver]. rewrite !filter_cons_True by (apply Hd || apply Ha). rewrite filter_nil.
    apply NoDup_cons. split; [set_solver|apply NoDup_singleton].
  - exists h'. split_and!; [done| |done]. eapply owns_add; try done; [apply Hd|apply Ha].
  - by destruct Hd.
  - by destruct Ha.
Qed.

Lemma owns_scheduler h0 ex fps a m : owns h0 (mblocks m) ex fps -> NoDup [a.1.1; a.1.2; a.2.1; a.2.2] ->
  (forall x, x ∈ [a.1.1; a.1.2; a.2.1; a.2.2] -> fresh_in m x) ->
  exists h', alloc_scheduler a m = Some ((1, (a.1.1, a.2.1)), set_blocks h' m) /\ owns h0 h' ex (fps ++ sched_fps [a]) /\
    (forall x, x ∉ [a.1.1; a.1.2; a.2.1; a.2.2] -> h' !! x = mblocks m !! x).
Proof.
  destruct a as [[d1 a1] [d2 a2]]. cbn [fst snd]. intros HO Hnd Hfr. rewrite !NoDup_cons in Hnd. destruct Hnd as (N1 & N2 & N3 & _).
  destruct (owns_deque h0 ex fps d1 a1 m HO) as (h1 & E1 & HO1 & F1); [set_solver|apply Hfr; set_solver..|].
  assert (forall x, x ∈ [d2; a2] -> fresh_in (set_blocks h1 m) x) as Hfr2.
  { intros x Hx. destruct (Hfr x) as (H1 & H2 & H3); [set_solver|]. split_and!; [done| |done]. cbn. rewrite F1; [done|]. set_solver. }
  destruct (owns_deque h0 ex (fps ++ [(d1, [a1])]) d2 a2 (set_blocks h1 m) HO1) as (h2 & E2 & HO2 & F2);
    [set_solver|apply Hfr2; set_solver..|].
  exists h2. split_and!.
  - unfold alloc_scheduler. cbn [fst snd]. rewrite (mm_run _ _ _ _ _ E1), (mm_run _ _ _ _ _ E2).
    rewrite decide_False; [done|]. intros [->| ->]; [destruct (Hfr NULL) as [? _]|destruct (Hfr NULL) as [? _]]; set_solver.
  - unfold sched_fps. csimpl. by rewrite <- app_assoc in HO2.
  - intros x Hx. rewrite F2 by set_solver. apply F1. set_solver.
Qed.

Lemma alloc_loop_run h0 s q ans : forall done fps m, s <> q -> owns h0 (mblocks m) [s; q] fps ->
  NoDup (answer_list ans) -> (forall x, x ∈ answer_list ans -> fresh_in m x) ->
  mblocks m !! s = Some (BScheds done) ->
  exists h', alloc_loop s q done ans m = Some (tt, set_blocks h' m) /\ owns h0 h' [s; q] (fps ++ sched_fps ans) /\
    h' !! s = Some (BScheds (done ++ sched_queues ans)).
Proof.
  induction ans as [|a ans IH]; intros done fps m Hsq HO Hnd Hfr Hs.
  { exists (mblocks m). rewrite !app_nil_r. split; [by destruct m|done]. }
  unfold answer_list in Hnd, Hfr. rewrite fmap_cons, concat_cons in Hnd, Hfr. fold (answer_list ans) in Hnd, Hfr.
  apply NoDup_app in Hnd as (Hnd1 & Hdis & Hnd2).
  destruct (owns_scheduler h0 [s; q] fps a m HO Hnd1) as (h1 & E1 & HO1 & F1); [intros x Hx; apply Hfr, elem_of_app; by left|].
  pose proof (ow_live _ _ _ _ HO1 s ltac:(left)) as [bs Hbs]. pose proof (ow_live _ _ _ _ HO1 q ltac:(right; left)) as [bq Hbq].
  pose proof (owns_store _ _ _ _ s (BScheds (done ++ [(a.1.1, a.2.1)])) HO1 ltac:(left)) as HO2.
  pose proof (owns_store _ _ _ _ q (BQueues (queue_list (done ++ [(a.1.1, a.2.1)]))) HO2 ltac:(right; left)) as HO3.
  set (h3 := <[q:=_]> _) in HO3.
  destruct (IH (done ++ [(a.1.1, a.2.1)]) (fps ++ sched_fps [a]) (set_blocks h3 m)) as (h' & E & HO' & Hs').
  - done.
  - exact HO3.
  - done.
  - intros x Hx. destruct (Hfr x) as (H1 & H2 & H3); [apply elem_of_app; by right|]. split_and!; [done| |done]. cbn. unfold h3.
    assert (h1 !! x = None) as Hx1 by (rewrite F1; [done|]; intros ?; by eapply Hdis).
    rewrite !lookup_insert_ne; [done|congruence|congruence].
  - cbn. unfold h3. rewrite lookup_insert_ne by done. apply lookup_insert_eq.
  - exists h'. split_and!.
    + cbn [alloc_loop]. rewrite (mm_run _ _ _ _ _ E1). erewrite mm_run by reflexivity. erewrite mm_run by (by eapply store_run).
      rewrite (mm_run _ _ _ tt (set_blocks h3 m)); [exact E|]. rewrite (store_run q bq); [reflexivity|]. cbn. by rewrite lookup_insert_ne.
    + by rewrite <- app_assoc in HO'.
    + by rewrite <- app_assoc in Hs'.
Qed.

Lemma shutdown_loop_run s qs2 : forall qs1 fps m, mblocks m !! s = Some (BScheds (qs1 ++ qs2)) -> fps.*1 = queue_list qs2 ->
  Forall (fun p => deque_at (mblocks m) p.1 p.2) fps -> NoDup (foot fps) -> s ∉ foot fps ->
  shutdown_loop s (length qs1) (length qs2) m = Some (tt, set_blocks (del_all (foot fps) (mblocks m)) m).
Proof.
  induction qs2 as [|[d1 d2] qs2 IH]; intros qs1 fps m Hs Hq Hd Hnd Hns.
  { assert (fps = []) as -> by (by destruct fps). by destruct m. }
  destruct fps as [|[? l1] [|[? l2] fps]]; [done|done|]. unfold queue_list in Hq. csimpl in Hq. injection Hq as -> -> Hq.
  rewrite !foot_cons in *. cbn [fst snd] in *. rewrite app_comm_cons in Hnd, Hns. apply NoDup_app in Hnd as (N1 & N2 & N3).
  rewrite app_comm_cons in N2, N3, Hns. apply NoDup_app in N3 as (N3 & N4 & N5).
  apply not_elem_of_app in Hns as [S1 [S2 S3]%not_elem_of_app].
  apply Forall_cons in Hd as [D1 [D2 D3]%Forall_cons]. cbn [fst snd] in *.
  assert (forall l h d l', (forall x, x ∈ d :: l' -> x ∉ l) -> deque_at h d l' -> deque_at (del_all l h) d l') as Hkeep.
  { intros l h d l' Hout. apply deque_at_frame. intros x Hx. rewrite lookup_del_all, decide_False; [done|by apply Hout]. }
  cbn [shutdown_loop length]. erewrite mm_run by (by apply load_run). cbn iota. rewrite list_lookup_middle by done.
  unfold fiber_scheduler_wsd_destroy. cbn [fst snd].
  rewrite (mm_run _ _ m tt (set_blocks (del_all (d2 :: l2) (del_all (d1 :: l1) (mblocks m))) m)).
  - replace (S (length qs1)) with (length (qs1 ++ [(d1, d2)])) by (rewrite length_app; simpl; lia).
    rewrite (IH _ fps).
    + cbn [set_blocks mblocks]. f_equal. f_equal. unfold set_blocks. f_equal.
      rewrite app_comm_cons, (app_comm_cons l2), !del_all_app. done.
    + cbn [set_blocks mblocks]. rewrite <- app_assoc. by rewrite !lookup_del_all, !decide_False.
    + done.
    + cbn [set_blocks mblocks]. rewrite Forall_forall in *. intros p Hp. apply Hkeep; [|apply Hkeep; [|by apply D3]]; intros x Hx Hin.
      * apply (N4 _ Hin). apply elem_of_foot. eauto.
      * apply (N2 _ Hin). apply elem_of_app. right. apply elem_of_foot. eauto.
    + done.
    + done.
  - rewrite (mm_run _ _ _ _ _ (deque_destroy_run _ _ _ D1 N1)). rewrite (deque_destroy_run d2 l2); [done| |done].
    cbn [set_blocks mblocks]. apply Hkeep; [|done]. intros x Hx Hin. apply (N2 _ Hin). apply elem_of_app. by left.
Qed.

Lemma alloc_schedulers_run s q ans m : fiber_schedulers m = NULL -> thread_queues m = NULL -> ans <> [] ->
  NoDup (s :: q :: answer_list ans) -> (forall x, x ∈ s :: q :: answer_list ans -> fresh_in m x) ->
  exists h', alloc_schedulers s q ans m = Some (1, Mem (mnodes m) h' (length ans) s q) /\
    owns (mblocks m) h' [s; q] (sched_fps ans) /\ h' !! s = Some (BScheds (sched_queues ans)).
Proof.
  intros Hs0 Hq0 Hne Hnd Hfr. apply NoDup_cons in Hnd as [Hsn [Hqn Hnd]%NoDup_cons]. destruct m as [nd h0 k ? ?]. cbn in Hs0, Hq0. subst.
  assert (s <> q) as Hsq by set_solver. destruct (Hfr s) as (Hs & Hsb & Hsn'); [left|]. destruct (Hfr q) as (Hq & Hqb & Hqn'); [right; left|].
  cbn in Hsb, Hsn', Hqb, Hqn'. set (h2 := <[q:=BQueues []]> (<[s:=BScheds []]> h0)).
  destruct (alloc_loop_run h0 s q ans [] [] (Mem nd h2 (length ans) s q)) as (h' & E & HO & Hbs).
  - done.
  - split; [done| | | |].
    + cbn. apply NoDup_cons. split; [set_solver|apply NoDup_singleton].
    + intros x Hx. cbn. unfold h2. destruct (decide (x = q)) as [->|]; [rewrite lookup_insert_eq; eauto|].
      assert (x = s) as -> by set_solver. rewrite lookup_insert_ne, lookup_insert_eq by done. eauto.
    + intros x Hx. cbn in Hx. assert (x = s \/ x = q) as [-> | ->] by set_solver; done.
    + intros x Hx. cbn in Hx. cbn. unfold h2. by rewrite !lookup_insert_ne by set_solver.
  - done.
  - intros x Hx. destruct (Hfr x) as (H1 & H2 & H3); [by do 2 right|]. split_and!; [done| |done]. cbn. unfold h2.
    rewrite !lookup_insert_ne; [done|set_solver..].
  - cbn. unfold h2. by rewrite lookup_insert_ne, lookup_insert_eq by done.
  - exists h'. split_and!; [|done|done]. unfold alloc_schedulers. rewrite bool_decide_true by done.
    do 4 erewrite mm_run by reflexivity. erewrite mm_run by (by apply alloc_block_run). erewrite mm_run by reflexivity.
    rewrite (proj2 (Z.eqb_neq s NULL)) by done. do 3 erewrite mm_run by reflexivity.
    erewrite mm_run; [|apply alloc_block_run; split_and!; [done|cbn; by rewrite lookup_insert_ne|done]].
    erewrite mm_run by reflexivity. rewrite (proj2 (Z.eqb_neq q NULL)) by done. erewrite mm_run by reflexivity.
    rewrite (mm_run _ _ _ _ _ E). done.
Qed.

Lemma scheduler_shutdown_run h0 nd h s q qs fps : owns h0 h [s; q] fps -> s <> NULL -> q <> NULL -> h !! s = Some (BScheds qs) -> fps.*1 = queue_list qs ->
  fiber_scheduler_shutdown (Mem nd h (length qs) s q) = Some (tt, Mem nd h0 (length qs) NULL NULL).
Proof.
  intros HO Hs Hq Hbs Hfst. pose proof (ow_nd _ _ _ _ HO) as Hnd. apply NoDup_app in Hnd as (Hnd1 & Hdis & Hnd2).
  assert (s <> q) as Hsq by (apply NoDup_cons in Hnd1 as [? _]; set_solver).
  unfold fiber_scheduler_shutdown. do 2 erewrite mm_run by reflexivity.
  rewrite (mm_run _ _ _ _ _ (shutdown_loop_run s qs [] fps (Mem nd h (length qs) s q) Hbs Hfst (ow_deques _ _ _ _ HO) Hnd2 (Hdis s ltac:(left)))).
  pose proof (ow_live _ _ _ _ HO q ltac:(right; left)) as [bq Hbq].
  rewrite (mm_run _ _ _ _ _ (free_block_run s (BScheds qs) (set_blocks (del_all (foot fps) h) (Mem nd h (length qs) s q)) Hs
    ltac:(cbn [set_blocks mblocks]; rewrite lookup_del_all, decide_False; [exact Hbs|apply Hdis; left]))).
  do 2 erewrite mm_run by reflexivity.
  erewrite mm_run; [|apply (free_block_run q bq); [done|]; cbn; rewrite lookup_delete_ne by done;
    rewrite lookup_del_all, decide_False; [exact Hbq|apply Hdis; right; left]].
  unfold modify, set_queues, set_blocks, set_scheds. cbn. do 3 f_equal. rewrite <- (owns_free _ _ _ _ HO). apply map_eq. intros x.
  rewrite !lookup_delete, !lookup_del_all. destruct (decide (q = x)), (decide (s = x)), (decide (x ∈ foot fps)), (decide (x ∈ [s; q] ++ foot fps));
    try done; set_solver.
Qed.

(** The three loops that free a queue are one. *)
Lemma mpsc_destroy_is_lifo fuel : forall h hd, mpsc_fifo_destroy fuel h hd = mpmc_lifo_destroy fuel h hd.
Proof.
  induction fuel as [|fuel IH]; intros h hd; simpl; [done|]. destruct (decide (hd = NULL)) as [->|Hn]; [done|].
  rewrite (proj2 (Z.eqb_neq _ _)) by done. destruct (load_next h hd); [apply IH|done].
Qed.

Lemma stack_at_dom h st : forall hd, stack_at h hd st -> Forall (fun x => x ∈ dom h) st.
Proof.
  induction st as [|x st IH]; intros hd H; [constructor|]. destruct H as (-> & _ & nx & Hnx & Hst). constructor; [|by eapply IH].
  unfold load_next in Hnx. apply fmap_Some in Hnx as (n & Hn & _). by apply elem_of_dom_2 in Hn.
Qed.

Lemma lifo_destroy_all h hd st : stack_at h hd st -> NoDup st -> mpmc_lifo_destroy (S (size h)) h hd = Some (del_all st h).
Proof.
  intros Hst Hnd. destruct (lifo_destroy_frees st h hd (S (size h)) Hst Hnd) as (h' & E & Ha).
  - apply Nat.lt_succ_r, NoDup_length_size; [done|]. intros x Hx. pose proof (stack_at_dom _ _ _ Hst) as Hall.
    rewrite Forall_forall in Hall. by apply elem_of_dom, Hall.
  - rewrite E. f_equal. apply map_eq. intros x. by rewrite Ha, lookup_del_all.
Qed.

Lemma queue_destroy_run hd st m : stack_at (mnodes m) hd st -> NoDup st ->
  queue_destroy hd m = Some (tt, set_nodes (del_all st (mnodes m)) m) /\
  sp_queue_destroy hd m = Some (tt, set_nodes (del_all st (mnodes m)) m) /\
  dist_queue_destroy hd m = Some (tt, set_nodes (del_all st (mnodes m)) m).
Proof.
  intros Hst Hnd. unfold queue_destroy, sp_queue_destroy, dist_queue_destroy.
  pose proof (lifo_destroy_all _ _ _ Hst Hnd) as E. pose proof E as E2. rewrite <- mpsc_destroy_is_lifo in E2.
  pose proof E2 as E3. rewrite <- spsc_destroy_is_mpsc in E3. rewrite <- dist_destroy_is_lifo in E. by rewrite E, E2, E3.
Qed.

Lemma alloc_channel_run c n m : answers_ok m [c; n] ->
  ((c = NULL \/ n = NULL) /\ alloc_channel c n m = Some (NULL, m)) \/
  (c <> NULL /\ n <> NULL /\ c <> n /\ fresh_in m c /\ fresh_in m n /\
   alloc_channel c n m = Some (c, set_nodes (<[n:=Node 0 NULL]> (mnodes m)) (set_blocks (<[c:=BChannel n]> (mblocks m)) m))).
Proof.
  intros [Hnd Hfr]. unfold alloc_channel. destruct (decide (c = NULL)) as [->|Hc]; [left; split; [by left|done]|].
  assert (fresh_in m c) as Hfc by (apply Hfr; [left|done]). rewrite (mm_run _ _ _ _ _ (alloc_block_run _ _ _ Hfc)).
  rewrite decide_False by done. destruct (decide (n = NULL)) as [->|Hn].
  { left. split; [by right|]. erewrite mm_run by reflexivity. rewrite decide_True by done.
    erewrite mm_run; [|eapply free_block_run; [done|cbn; by rewrite lookup_insert_eq]]. cbn [set_blocks mblocks].
    rewrite delete_insert_id by apply Hfc. by destruct m. }
  right. rewrite !filter_cons_True, filter_nil in Hnd by done. apply NoDup_cons in Hnd as [Hcn _].
  assert (c <> n) as Hne by set_solver. assert (fresh_in m n) as Hfn by (apply Hfr; [right; left|done]). split_and!; try done.
  assert (alloc_node n (set_blocks (<[c:=BChannel NULL]> (mblocks m)) m) =
    Some (n, set_nodes (<[n:=Node 0 NULL]> (mnodes m)) (set_blocks (<[c:=BChannel NULL]> (mblocks m)) m))) as E.
  { unfold alloc_node. rewrite decide_False by done. rewrite decide_True; [done|]. split_and!; [done| |apply Hfn].
    cbn. rewrite lookup_insert_ne by done. apply Hfn. }
  rewrite (mm_run _ _ _ _ _ E), decide_False by done.
  erewrite mm_run; [|eapply store_run; cbn; by rewrite lookup_insert_eq]. unfold mret, mm_ret. cbn. by rewrite insert_insert_eq.
Qed.

(** ** Properties *)

(** C23: The memory of the work-stealing scheduler.  With an allocator that does not
    fail, initialising the scheduler, any growth of its deques in between (up to 22
    times, an array of 2 ^ 30 fibers) and shutting it down give back every block that
    was taken, the arrays a deque has outgrown included, and none twice; the memory is
    what it was and the scheduler can be initialised again.  Between the two every
    thread has its scheduler, afterwards none has. *)
Theorem scheduler_memory_roundtrip a_scheds a_queues ans grows m :
  fiber_schedulers m = NULL -> thread_queues m = NULL -> ans <> [] ->
  NoDup (a_scheds :: a_queues :: answer_list ans ++ grows.*2) ->
  (forall x, x ∈ a_scheds :: a_queues :: answer_list ans ++ grows.*2 -> fresh_in m x) ->
  (forall g, g ∈ grows -> g.1 ∈ queue_list (sched_queues ans)) -> (length grows <= 22)%nat ->
  exists m1 m2, alloc_schedulers a_scheds a_queues ans m = Some (1, m1) /\ grow_all grows m1 = Some (tt, m2) /\
    (forall i, (i < length ans)%nat -> scheduler_for_thread i m2 = Some (i, m2)) /\
    fiber_scheduler_shutdown m2 = Some (tt, set_num (length ans) m) /\
    forall i, scheduler_for_thread i (set_num (length ans) m) = None.
Proof.
  intros Hs0 Hq0 Hne Hnd Hfr Hin Hlen. rewrite !app_comm_cons in Hnd, Hfr. apply NoDup_app in Hnd as (Hnd1 & Hdis & Hnd2).
  destruct (alloc_schedulers_run a_scheds a_queues ans m Hs0 Hq0 Hne Hnd1) as (h1 & E1 & HO1 & Hbs1);
    [intros x Hx; apply Hfr, elem_of_app; by left|].
  destruct (grows_run (mblocks m) [a_scheds; a_queues] grows (Mem (mnodes m) h1 (length ans) a_scheds a_queues) (sched_fps ans))
    as (h2 & fps & E2 & HO2 & Hfst & Hex2).
  - exact HO1.
  - by rewrite sched_fps_queues.
  - done.
  - intros x Hx. destruct (Hfr x) as (H1 & H2 & H3); [apply elem_of_app; by right|]. split_and!; [done| |done]. cbn.
    rewrite (ow_rest _ _ _ _ HO1); [done|]. intros Hx1. refine (Hdis x _ Hx).
    rewrite sched_fps_foot in Hx1. exact Hx1.
  - apply Forall_forall. intros p Hp. unfold sched_fps in Hp. apply list_elem_of_In, in_concat in Hp as (l & Hl & Hp).
    apply list_elem_of_In, list_elem_of_fmap in Hl as (a & -> & _). cbn in Hp. destruct Hp as [<-|[<-|[]]]; cbn; lia.
  - assert (a_scheds <> NULL /\ a_queues <> NULL) as [Hs Hq] by (split; [apply (Hfr a_scheds)|apply (Hfr a_queues)]; set_solver).
    eexists _, _. split_and!; [exact E1|exact E2| | |].
    + intros i Hi. unfold scheduler_for_thread. cbn. by rewrite decide_True.
    + assert (length ans = length (sched_queues ans)) as Hl by (unfold sched_queues; by rewrite length_fmap).
      unfold set_blocks. cbn. rewrite Hl. erewrite scheduler_shutdown_run; [|exact HO2|done|done| |].
      * unfold set_num. by rewrite Hs0, Hq0.
      * by rewrite Hex2 by left.
      * by rewrite Hfst, sched_fps_queues.
    + intros i. unfold scheduler_for_thread. cbn. rewrite Hs0. by rewrite decide_False by naive_solver.
Qed.

(** An initialisation that fails.  Whatever the allocator answers,
    [fiber_scheduler_wsd_init] returns; it reports success exactly when all four
    allocations succeed, and a failure leaves the memory as it was. *)
Theorem scheduler_init_all_or_nothing d1 a1 d2 a2 m : answers_ok m [d1; a1; d2; a2] ->
  exists r m', alloc_scheduler ((d1, a1), (d2, a2)) m = Some (r, m') /\
    ((r.1 = 1 /\ NULL ∉ [d1; a1; d2; a2] /\ deque_at (mblocks m') d1 [a1] /\ deque_at (mblocks m') d2 [a2]) \/
     (r.1 = 0 /\ NULL ∈ [d1; a1; d2; a2] /\ m' = m)).
Proof.
  intros [Hnd Hfr]. assert ([d1; a1; d2; a2] = [d1; a1] ++ [d2; a2]) as E4 by done. rewrite E4, filter_app in Hnd.
  apply NoDup_app in Hnd as (N1 & Hdis & N2). assert (answers_ok m [d1; a1]) as H1 by (split; [done|set_solver]).
  assert (answers_ok m [d2; a2]) as H2 by (split; [done|set_solver]). unfold alloc_scheduler. cbn [fst snd].
  destruct (alloc_deque_run d1 a1 m H1) as [(Hd1 & Ha1 & h1 & E1 & D1 & F1)|[Hn1 E1]]; rewrite (mm_run _ _ _ _ _ E1).
  - assert (forall x, x ∈ [d2; a2] -> x <> NULL -> x ∉ [d1; a1]) as Hd.
    { intros x Hx Hx0 Hx1. apply (Hdis x); apply list_elem_of_filter; done. }
    assert (answers_ok (set_blocks h1 m) [d2; a2]) as H2'.
    { split; [done|]. intros x Hx Hx0. destruct (Hfr x) as (? & ? & ?); [set_solver|done|]. split_and!; [done| |done].
      cbn. rewrite F1 by (by apply Hd). done. }
    destruct (alloc_deque_run d2 a2 _ H2') as [(Hd2 & Ha2 & h2 & E2 & D2 & F2)|[Hn2 E2]]; rewrite (mm_run _ _ _ _ _ E2).
    + rewrite decide_False by naive_solver. eexists _, _. split; [done|]. left. split_and!; [done|set_solver| |done].
      cbn. eapply deque_at_frame; [|exact D1]. intros x Hx. rewrite F2; [done|]. intros Hx2. apply (Hd x Hx2); [|done].
      assert (x = d1 \/ x = a1) as [-> | ->] by set_solver; done.
    + rewrite decide_True by (by right). exists (0, (d1, NULL)), m. split; [|right; split_and!; [done| |done]].
      * by rewrite (mm_run _ _ _ _ _ (deque_undo d1 a1 h1 m H1 Hd1 Ha1 D1 F1)).
      * destruct Hn2 as [-> | ->]; set_solver.
  - assert (NULL ∈ [d1; a1; d2; a2]) as Hin by (destruct Hn1 as [-> | ->]; set_solver).
    destruct (alloc_deque_run d2 a2 m H2) as [(Hd2 & Ha2 & h2 & E2 & D2 & F2)|[Hn2 E2]]; rewrite (mm_run _ _ _ _ _ E2);
      (rewrite decide_True by (by left)).
    + exists (0, (NULL, d2)), m. split; [|by right]. erewrite (mm_run (wsd_work_stealing_deque_destroy NULL)) by reflexivity.
      by rewrite (mm_run _ _ _ _ _ (deque_undo d2 a2 h2 m H2 Hd2 Ha2 D2 F2)).
    + exists (0, (NULL, NULL)), m. split; [done|by right].
Qed.

(** Channels.  Whatever the allocator answers, creating a bounded channel or a
    channel with many receivers and destroying it (nothing, when it is NULL) gives
    the memory back; nothing leaks when the queue inside cannot be allocated. *)
Theorem channel_memory_roundtrip a_channel a_node m : answers_ok m [a_channel; a_node] ->
  exists channel m', alloc_channel a_channel a_node m = Some (channel, m') /\
    (channel = NULL <-> a_channel = NULL \/ a_node = NULL) /\
    fiber_bounded_channel_destroy channel m' = Some (tt, m) /\ fiber_multi_channel_destroy channel m' = Some (tt, m).
Proof.
  intros Hok. destruct (alloc_channel_run _ _ _ Hok) as [[Hn E]|(Hc & Hn & Hne & Hfc & Hfn & E)].
  { exists NULL, m. split_and!; [done|done|done|done]. }
  eexists _, _. split; [exact E|]. split; [naive_solver|]. set (m' := set_nodes _ _).
  assert ((queue_destroy a_node;; free_block a_channel) m' = Some (tt, m)) as Ed.
  { destruct (queue_destroy_run a_node [a_node] m') as (Eq & _).
    - cbn. split_and!; [done|done|]. exists NULL. split; [|done]. unfold load_next. by rewrite lookup_insert_eq.
    - apply NoDup_singleton.
    - rewrite (mm_run _ _ _ _ _ Eq). rewrite (free_block_run _ (BChannel a_node)); [|done|cbn; by rewrite lookup_insert_eq].
      unfold set_blocks, set_nodes. cbn. change (del_all [a_node]) with (delete (M := gmap Z node) a_node).
      rewrite !delete_insert_id by (apply Hfc || apply Hfn). by destruct m. }
  unfold fiber_bounded_channel_destroy, fiber_multi_channel_destroy. rewrite decide_False by done.
  assert (load a_channel m' = Some (BChannel a_node, m')) as El by (apply load_run; cbn; by rewrite lookup_insert_eq).
  by rewrite !(mm_run _ _ _ _ _ El).
Qed.

(** Unbounded channels.  Destroying one frees exactly the nodes of its queue: the
    dummy and the messages that were never received. *)
Theorem unbounded_destroy_frees head st m : stack_at (mnodes m) head st -> NoDup st ->
  fiber_unbounded_channel_destroy (Some head) m = Some (tt, set_nodes (del_all st (mnodes m)) m) /\
  fiber_unbounded_sp_channel_destroy (Some head) m = Some (tt, set_nodes (del_all st (mnodes m)) m) /\
  fiber_unbounded_channel_destroy None m = Some (tt, m) /\ fiber_unbounded_sp_channel_destroy None m = Some (tt, m).
Proof. intros Hst Hnd. destruct (queue_destroy_run head st m Hst Hnd) as (E1 & E2 & _). done. Qed.

(** The distributed scheduler.  Shutting it down frees the nodes of every queue,
    each once, and the array of the schedulers. *)
Lemma dist_shutdown_loop_run s h2 : forall h1 sts m, mblocks m !! s = Some (BDist (h1 ++ h2)) ->
  Forall2 (stack_at (mnodes m)) h2 sts -> NoDup (concat sts) ->
  dist_shutdown_loop s (length h1) (length h2) m = Some (tt, set_nodes (del_all (concat sts) (mnodes m)) m).
Proof.
  induction h2 as [|hd h2 IH]; intros h1 sts m Hs HF Hnd; inversion HF as [|? st ? sts' Hst HF']; subst; [by destruct m|].
  rewrite concat_cons in *. apply NoDup_app in Hnd as (N1 & N2 & N3). cbn [dist_shutdown_loop length].
  erewrite mm_run by (by apply load_run). cbn iota. rewrite list_lookup_middle by done.
  destruct (queue_destroy_run hd st m Hst N1) as (_ & _ & E). rewrite (mm_run _ _ _ _ _ E).
  replace (S (length h1)) with (length (h1 ++ [hd])) by (rewrite length_app; simpl; lia). rewrite (IH _ sts').
  - unfold set_nodes. cbn. by rewrite del_all_app.
  - cbn. by rewrite <- app_assoc.
  - apply Forall2_flip. apply Forall2_flip in HF'. cbn [set_nodes mnodes]. revert HF' N2. clear. induction 1 as [|x y l k Hxy _ IH]; intros N2; constructor.
    + cbn in *. eapply stack_at_heap; [|exact Hxy]. intros a Ha. unfold load_next. rewrite lookup_del_all, decide_False; [done|].
      intros Hin. apply (N2 _ Hin). set_solver.
    + apply IH. intros a Ha Hin. apply (N2 _ Ha). set_solver.
  - done.
Qed.

Theorem dist_shutdown_frees heads sts m : fiber_schedulers m <> NULL -> num_threads m = length heads ->
  mblocks m !! fiber_schedulers m = Some (BDist heads) -> Forall2 (stack_at (mnodes m)) heads sts -> NoDup (concat sts) ->
  dist_scheduler_shutdown m = Some (tt, Mem (del_all (concat sts) (mnodes m)) (delete (fiber_schedulers m) (mblocks m))
    (num_threads m) NULL (thread_queues m)).
Proof.
  intros Hs Hn Hb HF Hnd. unfold dist_scheduler_shutdown. do 2 erewrite mm_run by reflexivity. rewrite Hn.
  rewrite (mm_run _ _ _ _ _ (dist_shutdown_loop_run _ heads [] sts m Hb HF Hnd)).
  erewrite mm_run; [|by eapply free_block_run]. unfold modify, set_scheds, set_blocks, set_nodes. cbn. by rewrite Hn.
Qed.

(** ** Witnesses *)

Definition mem0 : mem := Mem {[90 := Node 0 91; 91 := Node 7 NULL]} {[99 := BChannel 90]} 0 NULL NULL.

Lemma fresh_in_dec_true m a : bool_decide (fresh_in m a) = true -> fresh_in m a.
Proof. by intros ?%bool_decide_eq_true. Qed.

Lemma scheduler_memory_roundtrip_witness : exists m1 m2,
  alloc_schedulers 1 2 [((10, 11), (12, 13)); ((14, 15), (16, 17))] mem0 = Some (1, m1) /\
  grow_all [(12, 20); (12, 21); (14, 22)] m1 = Some (tt, m2) /\
  (forall i, (i < 2)%nat -> scheduler_for_thread i m2 = Some (i, m2)) /\
  fiber_scheduler_shutdown m2 = Some (tt, set_num 2 mem0) /\
  forall i, scheduler_for_thread i (set_num 2 mem0) = None.
Proof.
  apply (scheduler_memory_roundtrip 1 2 [((10, 11), (12, 13)); ((14, 15), (16, 17))] [(12, 20); (12, 21); (14, 22)] mem0).
  - reflexivity.
  - reflexivity.
  - discriminate.
  - apply (bool_decide_unpack _). vm_compute. exact I.
  - intros x Hx. apply fresh_in_dec_true. cbn in Hx. repeat (apply elem_of_cons in Hx as [->|Hx]; [vm_compute; reflexivity|]).
    by apply elem_of_nil in Hx.
  - intros g Hg. repeat (apply elem_of_cons in Hg as [->|Hg]; [apply (bool_decide_unpack _); vm_compute; exact I|]).
    by apply elem_of_nil in Hg.
  - vm_compute. lia.
Defined.

Lemma answers_demo : answers_ok mem0 [10; 11; 12; NULL].
Proof.
  split; [apply (bool_decide_unpack _); vm_compute; exact I|]. intros x Hx Hn. apply fresh_in_dec_true.
  repeat (apply elem_of_cons in Hx as [->|Hx]; [by vm_compute|]). by apply elem_of_nil in Hx.
Qed.

Lemma scheduler_init_all_or_nothing_witness : exists r m', alloc_scheduler ((10, 11), (12, NULL)) mem0 = Some (r, m') /\
    ((r.1 = 1 /\ NULL ∉ [10; 11; 12; NULL] /\ deque_at (mblocks m') 10 [11] /\ deque_at (mblocks m') 12 [NULL]) \/
     (r.1 = 0 /\ NULL ∈ [10; 11; 12; NULL] /\ m' = mem0)).
Proof. exact (scheduler_init_all_or_nothing 10 11 12 NULL mem0 answers_demo). Defined.

Lemma channel_memory_roundtrip_witness : exists channel m', alloc_channel 10 11 mem0 = Some (channel, m') /\
    (channel = NULL <-> 10 = NULL \/ 11 = NULL) /\
    fiber_bounded_channel_destroy channel m' = Some (tt, mem0) /\ fiber_multi_channel_destroy channel m' = Some (tt, mem0).
Proof.
  apply (channel_memory_roundtrip 10 11 mem0). split; [apply (bool_decide_unpack _); vm_compute; exact I|]. intros x Hx Hn. apply fresh_in_dec_true.
  repeat (apply elem_of_cons in Hx as [->|Hx]; [by vm_compute|]). by apply elem_of_nil in Hx.
Defined.

Lemma unbounded_destroy_frees_witness : fiber_unbounded_channel_destroy (Some 90) mem0 =
  Some (tt, set_nodes (del_all [90; 91] (mnodes mem0)) mem0).
Proof.
  apply (unbounded_destroy_frees 90 [90; 91] mem0).
  - cbn. split_and!; [done|done|]. exists 91. split; [reflexivity|]. split_and!; [done|done|]. by exists NULL.
  - apply (bool_decide_unpack _). vm_compute. exact I.
Defined.

Definition mem_dist : mem := Mem (mnodes mem0) {[5 := BDist [90]]} 1 5 NULL.

Lemma dist_shutdown_frees_witness : dist_scheduler_shutdown mem_dist =
  Some (tt, Mem (del_all [90; 91] (mnodes mem_dist)) (delete 5 (mblocks mem_dist)) 1 NULL NULL).
Proof.
  refine (dist_shutdown_frees [90] [[90; 91]] mem_dist _ _ _ _ _).
  - discriminate.
  - reflexivity.
  - reflexivity.
  - constructor; [|constructor]. cbn. split_and!; [done|done|]. exists 91. split; [reflexivity|]. split_and!; [done|done|]. by exists NULL.
  - apply (bool_decide_unpack _). vm_compute. exact I.
Defined.
