(* ===== verification/HazardRace.v ===== *)
(** * Hazard pointers under interleaving ([src/hazard_pointer.c],
    [include/hazard_pointer.h], [include/machine_specific.h])

    [HazardPointer] runs one operation at a time.  Here the threads register,
    announce, validate, retire and scan at the granularity of their accesses to the
    shared records, on the memory of an x86 processor: a store to a hazard pointer
    waits in the store buffer of its thread until it is flushed, and
    [store_load_barrier] waits for the buffer to be empty.  The atomic operations of
    the list and of the thresholds act on memory at once, as the locked instructions
    they are.  A client announces a node it has read, then checks that it is still
    reachable ([hz_live]), as the comment of [hazard_pointer_using] asks; it retires
    a node it has made unreachable.  [fenced] says whether the barrier is there. *)

From S2P Require Import Prelude MpscFifo HazardPointer.

(** ** The contract: what a reclaimer may free *)

(** [rc_slot]: the hazard pointer [j] of thread [i]; [rc_seen]: a retired node with a
    hazard pointer that was read since its retirement without finding it. *)
Record rc_state := RC { rc_slot : gmap (nat * nat) Z; rc_retired : gset Z; rc_seen : gset (Z * (nat * nat)) }.

Inductive rc_ev :=
| RSet (i j : nat) (x : Z)              (* hazard pointer j of thread i becomes x *)
| RRetire (n : Z)
| RSeen (ns : list Z) (i j : nat)       (* it was read, and is none of ns *)
| RFree (n : Z).

Definition slot_at (a : rc_state) (i j : nat) : Z := default NULL (rc_slot a !! (i, j)).

(** All hazard pointers of [nthr] threads with [k] each. *)
Definition all_slots (nthr k : nat) : list (nat * nat) :=
  concat ((fun i => (fun j => (i, j)) <$> seq 0 k) <$> seq 0 nthr).

Definition reclaim_spec (nthr k : nat) (e : rc_ev) (a : rc_state) : option rc_state :=
  match e with
  | RSet i j x => Some (RC (<[(i, j):=x]> (rc_slot a)) (rc_retired a) (rc_seen a))
  | RRetire n =>
      if decide (n ∈ rc_retired a) then None
      else Some (RC (rc_slot a) ({[n]} ∪ rc_retired a) (filter (fun p => p.1 <> n) (rc_seen a)))
  | RSeen ns i j =>
      if decide (Forall (fun n => n ∈ rc_retired a /\ slot_at a i j <> n) ns)
      then Some (RC (rc_slot a) (rc_retired a) (list_to_set ((fun n => (n, (i, j))) <$> ns) ∪ rc_seen a))
      else None
  | RFree n =>
      if decide (n ∈ rc_retired a /\ Forall (fun p => (n, p) ∈ rc_seen a) (all_slots nthr k))
      then Some (RC (rc_slot a) (rc_retired a ∖ {[n]}) (rc_seen a)) else None
  end.

(** ** State *)

(** The fields of [hazard_pointer_thread_record_t] that other threads access. *)
Record hz_rec := HRec { hr_threshold : Z; hr_slots : list Z }.

(** [hz_list]: the records behind [head], newest first, each named by its thread;
    [hz_buf]: the store buffer of a thread, oldest store first.  [hz_used]: the
    allocated nodes, [hz_live]: those the clients can reach, [hz_prot]: the hazard
    pointers whose node the owner has found reachable after announcing it; the
    operations do not read them. *)
Record hz_shared := HZ {
  hz_list : list nat;
  hz_recs : gmap nat hz_rec;
  hz_buf : gmap nat (list (nat * Z));
  hz_live : gset Z;
  hz_used : gset Z;
  hz_prot : gmap (nat * nat) Z
}.

Inductive hz_pc :=
| HIdle
| HLoadHead                                      (* create_and_push: load the head *)
| HCas (cur_head : list nat)                     (* count the threads, swap the record in *)
| HRaise (cur : list nat)                        (* raise the thresholds of the others *)
| HFence (n : nat) (node : Z)                    (* store_load_barrier *)
| HCheck (n : nat) (node : Z)                    (* the client looks again *)
| HFree (node : Z)                               (* hazard_pointer_free *)
| HScanHead
| HScanThr (head : list nat)                     (* head->retire_threshold, the plist *)
| HScanRead (max_pointers : Z) (cur_record : list nat) (i : nat) (plist : list Z)
| HScanFree (plist nodes : list Z).

(** The program point and the private fields of the thread's own record. *)
Record hz_local := HL { hl_pc : hz_pc; hl_retired : list Z; hl_count : Z; hl_plist_size : Z }.

Inductive hz_choice :=
| HCallCreate | HCallUsing (n : nat) (node : Z) | HCallDone (n : nat) | HCallFree (node : Z)
| HAlloc (node : Z) | HFlush | HGo (spurious : bool).

Definition buf (s : hz_shared) (t : nat) : list (nat * Z) := default [] (hz_buf s !! t).

Definition set_list (s : hz_shared) (l : list nat) (r : gmap nat hz_rec) : hz_shared :=
  HZ l r (hz_buf s) (hz_live s) (hz_used s) (hz_prot s).
Definition set_buf (s : hz_shared) (t : nat) (b : list (nat * Z)) : hz_shared :=
  HZ (hz_list s) (hz_recs s) (<[t:=b]> (hz_buf s)) (hz_live s) (hz_used s) (hz_prot s).
Definition set_node_sets (s : hz_shared) (live used : gset Z) : hz_shared :=
  HZ (hz_list s) (hz_recs s) (hz_buf s) live used (hz_prot s).
Definition set_prot (s : hz_shared) (p : gmap (nat * nat) Z) : hz_shared :=
  HZ (hz_list s) (hz_recs s) (hz_buf s) (hz_live s) (hz_used s) p.
Definition set_pc (l : hz_local) (pc : hz_pc) : hz_local := HL pc (hl_retired l) (hl_count l) (hl_plist_size l).

Section machine.
Variables (fenced : bool) (nthr k : nat).

(** ** Memory *)

(** The newest of the pending stores to hazard pointer [j], or the value in memory. *)
Definition buf_read (b : list (nat * Z)) (j : nat) (v : Z) : Z :=
  foldl (fun v w => if decide (w.1 = j) then w.2 else v) v b.

(** What thread [t] reads in hazard pointer [j] of thread [r]. *)
Definition read_slot (t : nat) (s : hz_shared) (r j : nat) : option Z :=
  rec ← hz_recs s !! r;
  v ← hr_slots rec !! j;
  Some (if decide (r = t) then buf_read (buf s t) j v else v).

Definition write_slot (t : nat) (s : hz_shared) (j : nat) (x : Z) : hz_shared := set_buf s t (buf s t ++ [(j, x)]).

(** The oldest pending store reaches memory. *)
Definition flush (t : nat) (s : hz_shared) : option (hz_shared * list rc_ev) :=
  match buf s t with
  | [] => None
  | (j, x) :: b =>
      rec ← hz_recs s !! t;
      Some (set_buf (set_list s (hz_list s) (<[t:=HRec (hr_threshold rec) (<[j:=x]> (hr_slots rec))]> (hz_recs s))) t b,
            if decide (x = NULL) then [] else [RSet t j x])
  end.

(** [store_load_barrier]: a locked instruction, which waits for the buffer to be empty. *)
Definition drained (t : nat) (s : hz_shared) : bool := negb fenced || bool_decide (buf s t = []).

(** ** Operations *)

Definition create_and_push (t : nat) (spurious : bool) (s : hz_shared) (l : hz_local)
    : option (hz_shared * hz_local * list rc_ev) :=
  match hl_pc l with
  | HLoadHead => Some (s, set_pc l (HCas (hz_list s)), [])
  | HCas cur_head =>
      if negb spurious && bool_decide (head (hz_list s) = head cur_head) then
        let threads := 1 + Z.of_nat (length cur_head) in
        let ret := HRec (2 * threads * Z.of_nat k) (replicate k NULL) in
        Some (set_list s (t :: cur_head) (<[t:=ret]> (hz_recs s)), set_pc l (HRaise cur_head), [])
      else Some (s, set_pc l (HCas (hz_list s)), [])
  | HRaise [] => Some (s, set_pc l HIdle, [])
  | HRaise (cur :: next) =>
      rec ← hz_recs s !! cur;
      Some (set_list s (hz_list s) (<[cur:=HRec (hr_threshold rec + 2 * Z.of_nat (length (hr_slots rec))) (hr_slots rec)]> (hz_recs s)),
            set_pc l (HRaise next), [])
  | _ => None
  end.

(** [hazard_pointer_using], and the check of the client. *)
Definition announce (t : nat) (s : hz_shared) (l : hz_local) : option (hz_shared * hz_local * list rc_ev) :=
  match hl_pc l with
  | HFence n node => if drained t s then Some (s, set_pc l (HCheck n node), []) else None
  | HCheck n node =>
      Some (if decide (node ∈ hz_live s) then set_prot s (<[(t, n):=node]> (hz_prot s)) else s, set_pc l HIdle, [])
  | _ => None
  end.

Definition retire (t : nat) (s : hz_shared) (l : hz_local) : option (hz_shared * hz_local * list rc_ev) :=
  match hl_pc l with
  | HFree node =>
      rec ← hz_recs s !! t;
      let count := hl_count l + 1 in
      Some (s, HL (if Z.leb (hr_threshold rec) count then HScanHead else HIdle) (node :: hl_retired l) count (hl_plist_size l),
            [RRetire node])
  | _ => None
  end.

(** [hazard_pointer_scan]. *)
Definition scan (t : nat) (s : hz_shared) (l : hz_local) : option (hz_shared * hz_local * list rc_ev) :=
  match hl_pc l with
  | HScanHead =>
      match hz_list s with
      | [] => None
      | head => Some (s, set_pc l (HScanThr head),
          (fun p => RSeen (hl_retired l) p.1 p.2) <$> filter (fun p => p.1 ∉ head) (all_slots nthr k))
      end
  | HScanThr head =>
      r ← list.head head;
      rec ← hz_recs s !! r;
      let max_pointers := Z.div (hr_threshold rec) 2 in
      Some (s, HL (HScanRead max_pointers head 0 []) (hl_retired l) (hl_count l)
        (if Z.ltb (hl_plist_size l) max_pointers then max_pointers else hl_plist_size l), [])
  | HScanRead max_pointers (r :: next) i plist =>
      if bool_decide (i = 0%nat) && negb (Z.ltb (Z.of_nat (length plist)) max_pointers) then None else
      h ← read_slot t s r i;
      if negb (Z.eqb h NULL) && negb (Z.ltb (Z.of_nat (length plist)) (hl_plist_size l)) then None else
      let plist := if Z.eqb h NULL then plist else plist ++ [h] in
      Some (s, set_pc l (if decide (S i = k) then HScanRead max_pointers next 0 plist else HScanRead max_pointers (r :: next) (S i) plist),
            [RSeen (filter (fun n => n <> h) (hl_retired l)) r i])
  | HScanRead _ [] _ plist => Some (s, HL (HScanFree (merge_sort hazard_le plist) (hl_retired l)) [] 0 (hl_plist_size l), [])
  | HScanFree plist (node :: next) =>
      is_hazardous ← binary_search plist node;
      if (is_hazardous : bool)
      then Some (s, HL (HScanFree plist next) (node :: hl_retired l) (hl_count l + 1) (hl_plist_size l), [])
      else Some (set_node_sets s (hz_live s) (hz_used s ∖ {[node]}), set_pc l (HScanFree plist next), [RFree node])
  | HScanFree _ [] => Some (s, set_pc l HIdle, [])
  | _ => None
  end.

(** A thread that has a record uses its own hazard pointers. *)
Definition hz_tstep (t : nat) (ch : hz_choice) (s : hz_shared) (l : hz_local) : option (hz_shared * hz_local * list rc_ev) :=
  match ch with
  | HFlush => '(s, e) ← flush t s; Some (s, l, e)
  | HAlloc node =>
      if decide (node <> NULL /\ node ∉ hz_used s) then Some (set_node_sets s ({[node]} ∪ hz_live s) ({[node]} ∪ hz_used s), l, []) else None
  | HGo spurious =>
      match hl_pc l with
      | HIdle => None
      | HLoadHead | HCas _ | HRaise _ => create_and_push t spurious s l
      | HFence _ _ | HCheck _ _ => announce t s l
      | HFree _ => retire t s l
      | HScanHead | HScanThr _ | HScanRead _ _ _ _ | HScanFree _ _ => scan t s l
      end
  | HCallCreate =>
      match hl_pc l, hz_recs s !! t with HIdle, None => Some (s, set_pc l HLoadHead, []) | _, _ => None end
  | HCallUsing n node =>
      match hl_pc l, hz_recs s !! t with
      | HIdle, Some _ =>
          if decide ((n < k)%nat /\ node <> NULL)
          then Some (set_prot (write_slot t s n node) (delete (t, n) (hz_prot s)), set_pc l (HFence n node), []) else None
      | _, _ => None
      end
  | HCallDone n =>
      match hl_pc l, hz_recs s !! t with
      | HIdle, Some _ =>
          if decide (n < k)%nat then Some (set_prot (write_slot t s n NULL) (delete (t, n) (hz_prot s)), l, [RSet t n NULL]) else None
      | _, _ => None
      end
  | HCallFree node =>
      match hl_pc l, hz_recs s !! t with
      | HIdle, Some _ => if decide (node ∈ hz_live s) then Some (set_node_sets s (hz_live s ∖ {[node]}) (hz_used s), set_pc l (HFree node), []) else None
      | _, _ => None
      end
  end.

Definition hz_step := conf_step hz_tstep.

(** The steps as a relation: what the functions above can do. *)
Inductive hz_moves (t : nat) : hz_shared -> hz_local -> hz_shared -> hz_local -> list rc_ev -> Prop :=
| mv_flush s l j x b rec : buf s t = (j, x) :: b -> hz_recs s !! t = Some rec ->
    hz_moves t s l (set_buf (set_list s (hz_list s) (<[t:=HRec (hr_threshold rec) (<[j:=x]> (hr_slots rec))]> (hz_recs s))) t b) l
      (if decide (x = NULL) then [] else [RSet t j x])
| mv_alloc s l x : x <> NULL -> x ∉ hz_used s ->
    hz_moves t s l (set_node_sets s ({[x]} ∪ hz_live s) ({[x]} ∪ hz_used s)) l []
| mv_create s rt n ps : hz_recs s !! t = None -> hz_moves t s (HL HIdle rt n ps) s (HL HLoadHead rt n ps) []
| mv_load s pc rt n ps : (pc = HLoadHead \/ exists cur, pc = HCas cur) -> hz_moves t s (HL pc rt n ps) s (HL (HCas (hz_list s)) rt n ps) []
| mv_cas s cur rt n ps : head (hz_list s) = head cur ->
    hz_moves t s (HL (HCas cur) rt n ps)
      (set_list s (t :: cur) (<[t:=HRec (2 * (1 + Z.of_nat (length cur)) * Z.of_nat k) (replicate k NULL)]> (hz_recs s)))
      (HL (HRaise cur) rt n ps) []
| mv_raised s rt n ps : hz_moves t s (HL (HRaise []) rt n ps) s (HL HIdle rt n ps) []
| mv_raise s cur next rec rt n ps : hz_recs s !! cur = Some rec ->
    hz_moves t s (HL (HRaise (cur :: next)) rt n ps)
      (set_list s (hz_list s) (<[cur:=HRec (hr_threshold rec + 2 * Z.of_nat (length (hr_slots rec))) (hr_slots rec)]> (hz_recs s)))
      (HL (HRaise next) rt n ps) []
| mv_using s j x rt n ps : is_Some (hz_recs s !! t) -> (j < k)%nat -> x <> NULL ->
    hz_moves t s (HL HIdle rt n ps) (set_prot (write_slot t s j x) (delete (t, j) (hz_prot s))) (HL (HFence j x) rt n ps) []
| mv_fence s j x rt n ps : (fenced = true -> buf s t = []) ->
    hz_moves t s (HL (HFence j x) rt n ps) s (HL (HCheck j x) rt n ps) []
| mv_check s j x rt n ps : x ∈ hz_live s ->
    hz_moves t s (HL (HCheck j x) rt n ps) (set_prot s (<[(t, j):=x]> (hz_prot s))) (HL HIdle rt n ps) []
| mv_recheck s j x rt n ps : x ∉ hz_live s -> hz_moves t s (HL (HCheck j x) rt n ps) s (HL HIdle rt n ps) []
| mv_done s j rt n ps : is_Some (hz_recs s !! t) -> (j < k)%nat ->
    hz_moves t s (HL HIdle rt n ps) (set_prot (write_slot t s j NULL) (delete (t, j) (hz_prot s))) (HL HIdle rt n ps) [RSet t j NULL]
| mv_unlink s x rt n ps : is_Some (hz_recs s !! t) -> x ∈ hz_live s ->
    hz_moves t s (HL HIdle rt n ps) (set_node_sets s (hz_live s ∖ {[x]}) (hz_used s)) (HL (HFree x) rt n ps) []
| mv_retire s x rec pc rt n ps : hz_recs s !! t = Some rec -> pc = HScanHead \/ pc = HIdle ->
    hz_moves t s (HL (HFree x) rt n ps) s (HL pc (x :: rt) (n + 1) ps) [RRetire x]
| mv_head s rt n ps : hz_list s <> [] ->
    hz_moves t s (HL HScanHead rt n ps) s (HL (HScanThr (hz_list s)) rt n ps)
      ((fun p => RSeen rt p.1 p.2) <$> filter (fun p => p.1 ∉ hz_list s) (all_slots nthr k))
| mv_threshold s r next rec rt n ps ps' : hz_recs s !! r = Some rec -> Z.div (hr_threshold rec) 2 <= ps' ->
    hz_moves t s (HL (HScanThr (r :: next)) rt n ps) s (HL (HScanRead (Z.div (hr_threshold rec) 2) (r :: next) 0 []) rt n ps') []
| mv_read s max r next i plist h pc' rt n ps : read_slot t s r i = Some h ->
    pc' = (let plist := if Z.eqb h NULL then plist else plist ++ [h] in
      if decide (S i = k) then HScanRead max next 0 plist else HScanRead max (r :: next) (S i) plist) ->
    hz_moves t s (HL (HScanRead max (r :: next) i plist) rt n ps) s (HL pc' rt n ps) [RSeen (filter (fun n => n <> h) rt) r i]
| mv_collected s max i plist rt n ps :
    hz_moves t s (HL (HScanRead max [] i plist) rt n ps) s (HL (HScanFree (merge_sort hazard_le plist) rt) [] 0 ps) []
| mv_keep s plist x next rt n ps : binary_search plist x = Some true ->
    hz_moves t s (HL (HScanFree plist (x :: next)) rt n ps) s (HL (HScanFree plist next) (x :: rt) (n + 1) ps) []
| mv_free s plist x next rt n ps : binary_search plist x = Some false ->
    hz_moves t s (HL (HScanFree plist (x :: next)) rt n ps) (set_node_sets s (hz_live s) (hz_used s ∖ {[x]})) (HL (HScanFree plist next) rt n ps) [RFree x]
| mv_scanned s plist rt n ps : hz_moves t s (HL (HScanFree plist []) rt n ps) s (HL HIdle rt n ps) [].

Lemma hz_tstep_moves t ch s l s' l' e : hz_tstep t ch s l = Some (s', l', e) -> hz_moves t s l s' l' e.
Proof.
  intros Hs. destruct l as [pc rt n ps]. destruct ch as [|j x|j|x|x| |sp]; cbn [hz_tstep hl_pc] in Hs.
  - destruct pc; try done. destruct (hz_recs s !! t) eqn:E; simplify_eq. by constructor.
  - destruct pc; try done. destruct (hz_recs s !! t) eqn:E; [|done]. case_decide as Hd; simplify_eq. destruct Hd. by constructor; eauto.
  - destruct pc; try done. destruct (hz_recs s !! t) eqn:E; [|done]. case_decide as Hd; simplify_eq. constructor; eauto.
  - destruct pc; try done. destruct (hz_recs s !! t) eqn:E; [|done]. case_decide as Hd; simplify_eq. constructor; eauto.
  - case_decide as Hd; simplify_eq. destruct Hd. by constructor.
  - unfold flush in Hs. destruct (buf s t) as [|[j x] b] eqn:E; [done|]. destruct (hz_recs s !! t) as [rec|] eqn:Er; simplify_eq/=. by constructor.
  - destruct pc as [| |cur|[|cur next]|j x|j x|x| |[|r next]|max [|r next] i plist|plist [|x next]]; try done;
      cbn [create_and_push announce retire scan hl_pc] in Hs; unfold set_pc in Hs; cbn [hl_retired hl_count hl_plist_size] in Hs.
    + simplify_eq. constructor. by left.
    + destruct (negb sp && bool_decide _) eqn:E; simplify_eq; [|constructor; eauto].
      apply andb_prop in E as [_ E%bool_decide_eq_true]. by constructor.
    + simplify_eq. constructor.
    + destruct (hz_recs s !! cur) as [rec|] eqn:E; simplify_eq/=. by constructor.
    + unfold drained in Hs. destruct (negb fenced || bool_decide (buf s t = [])) eqn:E; simplify_eq. constructor.
      intros ->. by apply bool_decide_eq_true in E.
    + simplify_eq. case_decide; by constructor.
    + destruct (hz_recs s !! t) as [rec|] eqn:E; simplify_eq/=. econstructor; [done|]. case_match; auto.
    + destruct (hz_list s) as [|r next] eqn:E; simplify_eq. rewrite <- E. constructor. by rewrite E.
    + simpl in Hs. destruct (hz_recs s !! r) as [rec|] eqn:E; [|done]. cbn [mbind option_bind] in Hs. injection Hs as <- <- <-.
      apply mv_threshold; [done|]. destruct (Z.ltb_spec ps (hr_threshold rec / 2)); lia.
    + simplify_eq. constructor.
    + destruct (bool_decide _ && _); [done|]. destruct (read_slot t s r i) as [h|] eqn:E; [|done]. simpl in Hs.
      destruct (negb (Z.eqb h NULL) && _); [done|]. simplify_eq. by econstructor.
    + simplify_eq. constructor.
    + destruct (binary_search plist x) as [[]|] eqn:E; simplify_eq/=; by constructor.
Qed.

Definition hz_conf := conf hz_shared hz_local.

Definition hz_init : hz_conf := Conf (HZ [] ∅ ∅ ∅ ∅ ∅) (replicate nthr (HL HIdle [] 0 0)).
Definition rc_init : rc_state := RC ∅ ∅ ∅.

End machine.

(** ** Structure: the records, the thresholds and the store buffers *)

Definition slot_mem (s : hz_shared) (t j : nat) : Z := default NULL (rec ← hz_recs s !! t; hr_slots rec !! j).

Lemma all_slots_elem nthr k i j : (i, j) ∈ all_slots nthr k <-> (i < nthr)%nat /\ (j < k)%nat.
Proof.
  unfold all_slots. rewrite list_elem_of_In, in_concat. split.
  - intros (l & Hl & Hin). apply list_elem_of_In, list_elem_of_fmap in Hl as (i' & -> & Hi).
    apply list_elem_of_In, list_elem_of_fmap in Hin as (j' & [= -> ->] & Hj). apply elem_of_seq in Hi, Hj. lia.
  - intros [Hi Hj]. exists ((fun j => (i, j)) <$> seq 0 k). rewrite <- !list_elem_of_In. split; apply list_elem_of_fmap.
    + exists i. split; [done|]. apply elem_of_seq. lia.
    + exists j. split; [done|]. apply elem_of_seq. lia.
Qed.

Section structure.
Context {nthr k : nat}.
Hypothesis Hk : (0 < k)%nat.

(** A store that resets a hazard pointer. *)
Definition reset (w : nat * Z) : Prop := (w.1 < k)%nat /\ w.2 = NULL.

(** The head has a correct threshold, and every record one that is large enough for
    the records from it on. *)
Record recs_ok (s : hz_shared) : Prop := {
  ro_nd : NoDup (hz_list s);
  ro_lt : forall r, r ∈ hz_list s -> (r < nthr)%nat;
  ro_dom : forall r, r ∈ hz_list s <-> is_Some (hz_recs s !! r);
  ro_slots : forall r rec, hz_recs s !! r = Some rec -> length (hr_slots rec) = k;
  ro_threshold : forall r next rec, (r :: next) `suffix_of` hz_list s -> hz_recs s !! r = Some rec ->
    2 * Z.of_nat k * (1 + Z.of_nat (length next)) <= hr_threshold rec
}.

Definition pc_ok (s : hz_shared) (t : nat) (l : hz_local) : Prop :=
  match hl_pc l with
  | HIdle => True
  | HLoadHead => t ∉ hz_list s
  | HCas cur => t ∉ hz_list s /\ cur `suffix_of` hz_list s
  | HRaise cur => t ∈ hz_list s /\ cur `suffix_of` hz_list s
  | HFence j x => t ∈ hz_list s /\ (j < k)%nat /\ x <> NULL
  | HCheck j x => t ∈ hz_list s /\ (j < k)%nat /\ x <> NULL /\ slot_mem s t j = x /\ buf s t = []
  | HFree _ | HScanHead | HScanFree _ _ => t ∈ hz_list s
  | HScanThr head => t ∈ hz_list s /\ head `suffix_of` hz_list s /\ head <> []
  | HScanRead max cur i plist => t ∈ hz_list s /\ cur `suffix_of` hz_list s /\ (i < k)%nat /\ (cur = [] -> i = 0%nat) /\
      Z.of_nat (length plist) + Z.of_nat k * Z.of_nat (length cur) - Z.of_nat i <= max /\ max <= hl_plist_size l
  end.

Definition buf_ok (s : hz_shared) (t : nat) (l : hz_local) : Prop :=
  match hl_pc l with
  | HFence j x => (exists b, buf s t = b ++ [(j, x)] /\ Forall reset b) \/ (buf s t = [] /\ slot_mem s t j = x)
  | _ => Forall reset (buf s t)
  end.

Record local_ok (s : hz_shared) (t : nat) (l : hz_local) : Prop := {
  lo_pc : pc_ok s t l;
  lo_buf : buf_ok s t l;
  lo_none : t ∉ hz_list s -> buf s t = []
}.

Record hz_str (c : hz_conf) : Prop := {
  st_len : length (threads c) = nthr;
  st_recs : recs_ok (shared c);
  st_local : forall t l, threads c !! t = Some l -> local_ok (shared c) t l
}.

(** What a step of thread [t] leaves to the others. *)
Record others_keep (t : nat) (s s' : hz_shared) : Prop := {
  ok_list : hz_list s' = hz_list s \/ hz_list s' = t :: hz_list s;
  ok_buf : forall i, i <> t -> buf s' i = buf s i;
  ok_mem : forall i j, i <> t -> slot_mem s' i j = slot_mem s i j
}.

Lemma local_frame t i s s' l : others_keep t s s' -> i <> t -> local_ok s i l -> local_ok s' i l.
Proof.
  intros [HL HB HM] Hi [Hp Hb Hn].
  assert (forall r, r <> t -> (r ∈ hz_list s' <-> r ∈ hz_list s)) as Hin by (destruct HL as [-> | ->]; set_solver).
  assert (forall cur, cur `suffix_of` hz_list s -> cur `suffix_of` hz_list s') as Hsuf.
  { intros cur Hc. destruct HL as [-> | ->]; [done|]. by apply suffix_cons_r. }
  split.
  - unfold pc_ok in *. destruct (hl_pc l); rewrite ?Hin, ?HB, ?HM by done; naive_solver.
  - unfold buf_ok in *. destruct (hl_pc l); rewrite ?HB, ?HM by done; done.
  - rewrite HB, Hin by done. done.
Qed.

Lemma str_step c t l s' l' : hz_str c -> threads c !! t = Some l -> recs_ok s' -> others_keep t (shared c) s' -> local_ok s' t l' ->
  hz_str (Conf s' (<[t:=l']> (threads c))).
Proof.
  intros HS Ht HR HK HL. split; cbn [shared threads]; [by rewrite length_insert; apply HS|done|].
  intros i li Hi. thread_cases Hi; [done|]. eapply local_frame; [done|done|by apply HS].
Qed.

Lemma recs_ok_same s s' : hz_list s' = hz_list s -> hz_recs s' = hz_recs s -> recs_ok s -> recs_ok s'.
Proof. intros E1 E2 [? ? ? ? ?]. split; rewrite ?E1, ?E2; done. Qed.

(** A record is written: same length, threshold not lowered. *)
Lemma recs_ok_write s r rec rec' : recs_ok s -> hz_recs s !! r = Some rec -> length (hr_slots rec') = length (hr_slots rec) ->
  hr_threshold rec <= hr_threshold rec' -> recs_ok (set_list s (hz_list s) (<[r:=rec']> (hz_recs s))).
Proof.
  intros HR Hr Hl Ht. split; cbn [set_list hz_list hz_recs].
  - apply HR.
  - apply HR.
  - intros x. rewrite (ro_dom _ HR), lookup_insert_is_Some. destruct (decide (r = x)) as [->|]; naive_solver.
  - intros x rx Hx. apply lookup_insert_Some in Hx as [[<- <-]|[_ Hx]]; [rewrite Hl|]; by eapply (ro_slots _ HR).
  - intros x next rx Hs Hx. apply lookup_insert_Some in Hx as [[<- <-]|[_ Hx]]; [|by eapply (ro_threshold _ HR)].
    pose proof (ro_threshold _ HR _ _ _ Hs Hr). lia.
Qed.

Lemma suffix_same_head (cur L : list nat) : NoDup L -> cur `suffix_of` L -> head L = head cur -> cur = L.
Proof.
  intros Hnd [pre ->] Hh. destruct pre as [|x pre]; [done|]. destruct cur as [|y cur]; [done|]. injection Hh as ->.
  apply NoDup_app in Hnd as (_ & Hd & _). destruct (Hd y); left.
Qed.

Lemma recs_ok_push s t : recs_ok s -> t ∉ hz_list s -> (t < nthr)%nat ->
  recs_ok (set_list s (t :: hz_list s) (<[t:=HRec (2 * (1 + Z.of_nat (length (hz_list s))) * Z.of_nat k) (replicate k NULL)]> (hz_recs s))).
Proof.
  intros HR Ht Hlt. split; cbn [set_list hz_list hz_recs].
  - constructor; [done|apply HR].
  - intros r [->|Hr]%elem_of_cons; [done|by apply HR].
  - intros r. rewrite elem_of_cons, (ro_dom _ HR), lookup_insert_is_Some. destruct (decide (t = r)) as [->|]; naive_solver.
  - intros r rec Hr. apply lookup_insert_Some in Hr as [[<- <-]|[_ Hr]]; [apply length_replicate|by eapply (ro_slots _ HR)].
  - intros r next rec Hs Hr. apply suffix_cons_inv in Hs as [[= -> ->]|Hs].
    + rewrite lookup_insert_eq in Hr. injection Hr as <-. simpl. lia.
    + apply lookup_insert_Some in Hr as [[<- <-]|[_ Hr]]; [|by eapply (ro_threshold _ HR)].
      destruct Ht. destruct Hs as [pre ->]. set_solver.
Qed.

Lemma buf_set s t b i : buf (set_buf s t b) i = if decide (t = i) then b else buf s i.
Proof. unfold buf, set_buf. cbn. rewrite lookup_insert. by case_decide. Qed.

Lemma buf_set_eq s t b : buf (set_buf s t b) t = b.
Proof. by rewrite buf_set, decide_True. Qed.

Lemma mem_write s L r rec j : slot_mem (set_list s L (<[r:=rec]> (hz_recs s))) r j = default NULL (hr_slots rec !! j).
Proof. unfold slot_mem. cbn. by rewrite lookup_insert_eq. Qed.
Lemma mem_write_ne s L r rec i j : i <> r -> slot_mem (set_list s L (<[r:=rec]> (hz_recs s))) i j = slot_mem s i j.
Proof. intros Hi. unfold slot_mem. cbn. by rewrite lookup_insert_ne. Qed.

(** A step that leaves the records and the buffers alone. *)
Lemma str_core t s s' l l' : hz_list s' = hz_list s -> hz_recs s' = hz_recs s -> hz_buf s' = hz_buf s -> recs_ok s -> local_ok s t l ->
  pc_ok s t l' -> (Forall reset (buf s t) -> buf_ok s t l') -> (forall j x, hl_pc l = HFence j x -> buf_ok s t l') ->
  recs_ok s' /\ others_keep t s s' /\ local_ok s' t l'.
Proof.
  intros E1 E2 E3 HR [Hp Hb Hn] Hp' Hb1 Hb2. split_and!; [by apply (recs_ok_same s)|split; unfold buf, slot_mem; rewrite ?E1, ?E2, ?E3; auto|].
  assert (buf_ok s t l') as Hb'.
  { unfold buf_ok in Hb. destruct (hl_pc l) eqn:E; eauto. }
  split; unfold pc_ok, buf_ok, buf, slot_mem in *; by rewrite ?E1, ?E2, ?E3.
Qed.

Lemma str_flush t s l j x b rec : recs_ok s -> local_ok s t l -> buf s t = (j, x) :: b -> hz_recs s !! t = Some rec ->
  let s' := set_buf (set_list s (hz_list s) (<[t:=HRec (hr_threshold rec) (<[j:=x]> (hr_slots rec))]> (hz_recs s))) t b in
  recs_ok s' /\ others_keep t s s' /\ local_ok s' t l.
Proof.
  intros HR [Hp Hb Hn] E Hr s'. pose proof (proj2 (ro_dom _ HR t) (mk_is_Some _ _ Hr)) as Hin.
  assert (buf s' t = b) as Eb by apply buf_set_eq.
  assert (hz_list s' = hz_list s) as El by done.
  split_and!.
  - apply (recs_ok_same (set_list s (hz_list s) (<[t:=HRec (hr_threshold rec) (<[j:=x]> (hr_slots rec))]> (hz_recs s)))); [done|done|].
    apply (recs_ok_write _ _ rec); [done|done|cbn; by rewrite length_insert|done].
  - split; [by left| |].
    + intros i Hi. unfold s'. rewrite buf_set. by case_decide.
    + intros i j' Hi. by apply (mem_write_ne s (hz_list s)).
  - split; [unfold pc_ok in *; rewrite ?El; destruct (hl_pc l); naive_solver congruence| |by rewrite El].
    unfold pc_ok, buf_ok in *. rewrite Eb. rewrite E in Hb. destruct (hl_pc l) as [| | | |j' y| | | | | |]; try (by apply Forall_cons in Hb as []).
    destruct Hb as [([|w b'] & [= E1 E2] & Hb)|[? _]]; [| |done].
    + simplify_eq. right. split; [done|]. unfold s'. change (slot_mem _ t j') with (slot_mem (set_list s (hz_list s) (<[t:=HRec (hr_threshold rec) (<[j':=y]> (hr_slots rec))]> (hz_recs s))) t j').
      rewrite mem_write. cbn. rewrite list_lookup_insert_eq; [done|]. rewrite (ro_slots _ HR _ _ Hr).
      apply Hp.
    + left. exists b'. split; [done|]. by apply Forall_cons in Hb as [].
Qed.

Lemma buf_store s t j x p i : buf (set_prot (write_slot t s j x) p) i = if decide (t = i) then buf s t ++ [(j, x)] else buf s i.
Proof. exact (buf_set s t (buf s t ++ [(j, x)]) i). Qed.

Lemma buf_store_eq s t j x p : buf (set_prot (write_slot t s j x) p) t = buf s t ++ [(j, x)].
Proof. by rewrite buf_store, decide_True. Qed.

(** A step that buffers a store; [prot] does not matter. *)
Lemma str_store t s (l' : hz_local) j x p : recs_ok s -> t ∈ hz_list s -> Forall reset (buf s t) ->
  pc_ok s t l' -> (forall i y, hl_pc l' <> HCheck i y) ->
  (if decide (x = NULL) then (j < k)%nat /\ forall i y, hl_pc l' <> HFence i y else hl_pc l' = HFence j x) ->
  let s' := set_prot (write_slot t s j x) p in recs_ok s' /\ others_keep t s s' /\ local_ok s' t l'.
Proof.
  intros HR Hin Hb Hp Hc Hl s'. assert (buf s' t = buf s t ++ [(j, x)]) as Eb by apply buf_store_eq.
  split_and!; [by apply (recs_ok_same s)| |].
  - split; [by left| |done]. intros i Hi. unfold s'. by rewrite buf_store, decide_False.
  - split; [|unfold buf_ok; rewrite Eb|done].
    + unfold pc_ok in *. destruct (hl_pc l'); try done. by edestruct Hc.
    + case_decide as Hx.
      * destruct Hl as [Hj Hl]. assert (Forall reset (buf s t ++ [(j, x)])) by (apply Forall_app_2; [done|]; by repeat constructor).
        destruct (hl_pc l'); try done. by edestruct Hl.
      * rewrite Hl. eauto.
Qed.

Lemma str_push t s cur rt n ps : recs_ok s -> (t < nthr)%nat -> local_ok s t (HL (HCas cur) rt n ps) -> head (hz_list s) = head cur ->
  let s' := set_list s (t :: cur) (<[t:=HRec (2 * (1 + Z.of_nat (length cur)) * Z.of_nat k) (replicate k NULL)]> (hz_recs s)) in
  cur = hz_list s /\ recs_ok s' /\ others_keep t s s' /\ local_ok s' t (HL (HRaise cur) rt n ps).
Proof.
  intros HR Ht [[Hp1 Hp2] Hb Hn] Hh s'. pose proof (suffix_same_head _ _ (ro_nd _ HR) Hp2 Hh) as ->.
  split_and!; [done|by apply recs_ok_push| |].
  - split; [by right|done|]. intros i j Hi. by apply mem_write_ne.
  - split; [|done|by destruct 1; left]. split; [left|by apply suffix_cons_r].
Qed.

Lemma str_raise t s l cur rec v rt n ps next : recs_ok s -> local_ok s t l -> hl_pc l = HRaise (cur :: next) -> hz_recs s !! cur = Some rec ->
  hr_threshold rec <= v ->
  let s' := set_list s (hz_list s) (<[cur:=HRec v (hr_slots rec)]> (hz_recs s)) in
  recs_ok s' /\ others_keep t s s' /\ local_ok s' t (HL (HRaise next) rt n ps).
Proof.
  intros HR [Hp Hb Hn] El Hr Hv s'. unfold pc_ok, buf_ok in Hp, Hb. rewrite El in Hp, Hb. split_and!.
  - by apply (recs_ok_write _ _ rec).
  - split; [by left|done|]. intros i j Hi. destruct (decide (i = cur)) as [->|Hc]; [|by apply mem_write_ne].
    unfold s'. rewrite mem_write. unfold slot_mem. by rewrite Hr.
  - split; [|done|done]. split; [apply Hp|]. destruct Hp as [_ [pre E]]. exists (pre ++ [cur]). by rewrite <- app_assoc.
Qed.

Lemma str_read t s max r next i plist plist' rt n ps : local_ok s t (HL (HScanRead max (r :: next) i plist) rt n ps) ->
  (length plist' <= S (length plist))%nat ->
  pc_ok s t (HL (if decide (S i = k) then HScanRead max next 0 plist' else HScanRead max (r :: next) (S i) plist') rt n ps).
Proof.
  intros [Hp _ _] Hl. destruct Hp as (H1 & H2 & H3 & H4 & H5 & H6). cbn [length hl_plist_size] in *.
  case_decide; cbn [pc_ok hl_pc hl_plist_size length]; split_and!; try done; try lia.
  destruct H2 as [pre E]. exists (pre ++ [r]). by rewrite <- app_assoc.
Qed.

Lemma str_moves t s l s' l' e : recs_ok s -> (t < nthr)%nat -> local_ok s t l -> hz_moves true nthr k t s l s' l' e ->
  recs_ok s' /\ others_keep t s s' /\ local_ok s' t l'.
Proof.
  intros HR Ht HL Hm. destruct Hm; try pose proof (lo_pc _ _ _ HL) as Hp; try pose proof (lo_buf _ _ _ HL) as Hb;
    cbn [pc_ok buf_ok hl_pc] in *.
  - by apply str_flush.
  - eapply str_core; try done.
  - eapply str_core; try done. cbn. rewrite (ro_dom _ HR). rewrite H. by intros [].
  - destruct H as [-> | [cur ->]]; eapply str_core; try done. split; [apply (lo_pc _ _ _ HL)|done].
  - by edestruct str_push as (? & ? & ? & ?).
  - eapply str_core; try done.
  - eapply str_raise; try done. lia.
  - eapply str_store; try done; cbn; [by apply (ro_dom _ HR)|split_and!; [by apply (ro_dom _ HR)|done|done]|]. by rewrite decide_False.
  - eapply str_core; try done; cbn; [|by rewrite (H eq_refl); constructor].
    destruct Hp as (? & ? & ?). destruct Hb as [(b & E & _)|[? ?]]; [|done]. rewrite (H eq_refl) in E. by destruct b.
  - eapply str_core; try done.
  - eapply str_core; try done.
  - eapply str_store; try done. by apply (ro_dom _ HR).
  - eapply str_core; try done. cbn. by apply (ro_dom _ HR).
  - destruct H0 as [-> | ->]; by eapply str_core.
  - eapply str_core; done.
  - eapply str_core; try done. destruct Hp as (? & Hs & _). cbn. split_and!; try done.
    pose proof (ro_threshold _ HR _ _ _ Hs H). cbn [length]. Z.to_euclidean_division_equations; nia.
  - eapply str_core; try done; subst pc'; [|by case_decide].
    eapply str_read; [done|]. case_match; [lia|]. rewrite length_app. simpl. lia.
  - eapply str_core; try done. cbn. apply Hp.
  - eapply str_core; try done.
  - eapply str_core; try done.
  - eapply str_core; try done.
Qed.

Lemma str_conf_step t c l s' l' e : hz_str c -> threads c !! t = Some l -> hz_moves true nthr k t (shared c) l s' l' e ->
  hz_str (Conf s' (<[t:=l']> (threads c))).
Proof.
  intros HS Ht Hm. assert (t < nthr)%nat as Hlt by (rewrite <- (st_len _ HS); by eapply lookup_lt_Some).
  edestruct str_moves as (? & ? & ?); [apply (st_recs _ HS)|done|by apply (st_local _ HS)|done|]. by eapply str_step.
Qed.

Lemma str_init : hz_str (hz_init nthr).
Proof.
  split; cbn [hz_init shared threads]; [by rewrite length_replicate| |].
  - split; cbn; [by apply NoDup_nil|by intros r ?%elem_of_nil| |by intros r rec ?%lookup_empty_Some|by intros r next rec [pre ?%(f_equal length)]].
    intros r. rewrite lookup_empty. split; [by intros ?%elem_of_nil|by intros []].
  - intros t l [-> _]%lookup_replicate. split; [done|constructor|done].
Qed.

(** *** The value of a hazard pointer *)

(** A hazard pointer whose reset is pending is already free to go. *)
Definition eff (s : hz_shared) (t j : nat) : Z := if decide ((j, NULL) ∈ buf s t) then NULL else slot_mem s t j.

Lemma eff_frame t s s' i j : others_keep t s s' -> i <> t -> eff s' i j = eff s i j.
Proof. intros HK Hi. unfold eff. by rewrite (ok_buf _ _ _ HK), (ok_mem _ _ _ HK). Qed.

Lemma eff_store_NULL s t j p i : eff (set_prot (write_slot t s j NULL) p) t i = if decide (i = j) then NULL else eff s t i.
Proof.
  unfold eff. rewrite buf_store_eq. destruct (decide (i = j)) as [->|Hi].
  - by rewrite decide_True by set_solver.
  - assert ((i, NULL) ∈ buf s t ++ [(j, NULL)] <-> (i, NULL) ∈ buf s t) as E by set_solver. by rewrite (decide_ext _ _ _ _ E).
Qed.

Lemma eff_store s t j x p i : x <> NULL -> eff (set_prot (write_slot t s j x) p) t i = eff s t i.
Proof.
  intros Hx. unfold eff. rewrite buf_store_eq.
  assert ((i, NULL) ∈ buf s t ++ [(j, x)] <-> (i, NULL) ∈ buf s t) as E.
  { rewrite elem_of_app, list_elem_of_singleton. naive_solver. }
  rewrite (decide_ext _ _ _ _ E). done.
Qed.

Lemma mem_flush s t j x b rec i : hz_recs s !! t = Some rec ->
  slot_mem (set_buf (set_list s (hz_list s) (<[t:=HRec (hr_threshold rec) (<[j:=x]> (hr_slots rec))]> (hz_recs s))) t b) t i =
  if decide (i = j /\ (j < length (hr_slots rec))%nat) then x else slot_mem s t i.
Proof.
  intros Hr. transitivity (default NULL (<[j:=x]> (hr_slots rec) !! i)); [apply (mem_write s (hz_list s))|].
  unfold slot_mem. rewrite Hr. cbn. case_decide as Hd.
  - destruct Hd as [-> Hj]. by rewrite list_lookup_insert_eq.
  - destruct (decide (j = i)) as [->|Hi]; [|by rewrite list_lookup_insert_ne].
    rewrite list_insert_ge; [done|]. lia.
Qed.

Lemma eff_flush s t l j x b rec i : recs_ok s -> local_ok s t l -> buf s t = (j, x) :: b -> hz_recs s !! t = Some rec ->
  eff (set_buf (set_list s (hz_list s) (<[t:=HRec (hr_threshold rec) (<[j:=x]> (hr_slots rec))]> (hz_recs s))) t b) t i =
    (if decide (x <> NULL /\ i = j) then x else eff s t i) /\ (x <> NULL -> hl_pc l = HFence j x).
Proof.
  intros HR HL E Hr. pose proof (ro_slots _ HR _ _ Hr) as Hlen. unfold eff. rewrite mem_flush by done.
  rewrite buf_set_eq, E, Hlen.
  destruct (decide (x = NULL)) as [->|Hx].
  - split; [|done]. rewrite (decide_False (P := NULL <> NULL /\ _)) by naive_solver.
    assert (j < k)%nat as Hj.
    { pose proof (lo_buf _ _ _ HL) as Hb. pose proof (lo_pc _ _ _ HL) as Hp. unfold buf_ok, pc_ok in *. rewrite E in Hb.
      destruct (hl_pc l); try (by apply Forall_cons in Hb as [[] _]).
      destruct Hb as [([|w b'] & [= E1 E2] & Hb)|[? _]]; [naive_solver| |done]. subst. by apply Forall_cons in Hb as [[] _]. }
    repeat case_decide; set_unfold; naive_solver.
  - pose proof (lo_buf _ _ _ HL) as Hb. pose proof (lo_pc _ _ _ HL) as Hp. unfold buf_ok, pc_ok in *. rewrite E in Hb.
    destruct (hl_pc l); try (apply Forall_cons in Hb as [[] _]; done).
    destruct Hb as [([|w b'] & [= E1 E2] & Hb)|[? _]]; [|subst; apply Forall_cons in Hb as [[] _]; done|done]. subst.
    split; [|done]. repeat case_decide; set_unfold; naive_solver.
Qed.

(** *** The nodes *)

(** The retired nodes a thread holds, and those it has unlinked. *)
Definition mine (l : hz_local) : list Z :=
  (match hl_pc l with HScanFree _ nodes => nodes | _ => [] end) ++ hl_retired l.
Definition own (l : hz_local) : list Z := (match hl_pc l with HFree x => [x] | _ => [] end) ++ mine l.

Definition owned (c : hz_conf) : list Z := concat (own <$> threads c).
Definition mined (c : hz_conf) : list Z := concat (mine <$> threads c).

Record nodes_ok (c : hz_conf) : Prop := {
  no_nd : NoDup (owned c);
  no_own : forall x, x ∈ owned c -> x ∈ hz_used (shared c) /\ x ∉ hz_live (shared c);
  no_live : hz_live (shared c) ⊆ hz_used (shared c);
  no_null : NULL ∉ hz_used (shared c)
}.

(** What a step does to the nodes. *)
Inductive node_effect (s : hz_shared) (l : hz_local) (s' : hz_shared) (l' : hz_local) : Prop :=
| ne_same : own l' ≡ₚ own l -> hz_used s' = hz_used s -> hz_live s' = hz_live s -> node_effect s l s' l'
| ne_alloc x : own l' = own l -> x ∉ hz_used s -> x <> NULL -> hz_used s' = {[x]} ∪ hz_used s -> hz_live s' = {[x]} ∪ hz_live s ->
    node_effect s l s' l'
| ne_unlink x : own l' = x :: own l -> x ∈ hz_live s -> hz_used s' = hz_used s -> hz_live s' = hz_live s ∖ {[x]} -> node_effect s l s' l'
| ne_free x : own l = x :: own l' -> hz_used s' = hz_used s ∖ {[x]} -> hz_live s' = hz_live s -> node_effect s l s' l'.

Lemma node_moves t s l s' l' e : hz_moves true nthr k t s l s' l' e -> node_effect s l s' l'.
Proof.
  destruct 1; try (by apply ne_same).
  - by eapply ne_alloc.
  - apply ne_same; [|done|done]. by destruct H as [-> | [? ->]].
  - by eapply ne_unlink.
  - apply ne_same; [|done|done]. by destruct H0 as [-> | ->].
  - apply ne_same; [|done|done]. subst pc'. by case_decide.
  - apply ne_same; [|done|done]. unfold own, mine. cbn. by rewrite app_nil_r.
  - apply ne_same; [|done|done]. unfold own, mine. cbn. by rewrite Permutation_middle.
  - by eapply ne_free.
Qed.

Lemma owned_insert c t l s' l' : threads c !! t = Some l -> own l ++ owned (Conf s' (<[t:=l']> (threads c))) ≡ₚ own l' ++ owned c.
Proof. intros Ht. unfold owned. cbn. rewrite list_fmap_insert. apply concat_insert. by rewrite list_lookup_fmap, Ht. Qed.

Lemma mined_insert c t l s' l' : threads c !! t = Some l -> mine l ++ mined (Conf s' (<[t:=l']> (threads c))) ≡ₚ mine l' ++ mined c.
Proof. intros Ht. unfold mined. cbn. rewrite list_fmap_insert. apply concat_insert. by rewrite list_lookup_fmap, Ht. Qed.

Lemma nodes_step c t l s' l' : nodes_ok c -> threads c !! t = Some l -> node_effect (shared c) l s' l' ->
  nodes_ok (Conf s' (<[t:=l']> (threads c))).
Proof.
  intros [H1 H2 H3 H4] Ht He. pose proof (owned_insert c t l s' l' Ht) as HP. set (c' := Conf s' _) in *.
  destruct He as [Eo Eu El|x Eo Hx Hn Eu El|x Eo Hx Eu El|x Eo Eu El].
  - rewrite Eo in HP. apply Permutation_app_inv_l in HP. split; cbn [c' shared]; rewrite ?HP, ?Eu, ?El; try done.
    intros y. rewrite HP. by apply H2.
  - rewrite Eo in HP. apply Permutation_app_inv_l in HP. split; cbn [c' shared]; rewrite ?HP, ?Eu, ?El; [done| |set_solver|set_solver].
    intros y. rewrite HP. intros Hy. destruct (H2 y Hy). set_solver.
  - rewrite Eo in HP. assert (owned c' ≡ₚ x :: owned c) as HP'.
    { apply (Permutation_app_inv_l (own l)). rewrite HP. cbn. by rewrite Permutation_middle. }
    split; cbn [c' shared]; rewrite ?HP', ?Eu, ?El; [|clear -H2 H3 HP' Eu El Hx|clear -H3; set_solver|done].
    + apply NoDup_cons_2; [|done]. intros Hy. by destruct (H2 _ Hy).
    + intros y. rewrite HP', elem_of_cons. intros [->|Hy]; [set_solver|]. destruct (H2 y Hy). set_solver.
  - rewrite Eo in HP. assert (owned c ≡ₚ x :: owned c') as HP'.
    { apply (Permutation_app_inv_l (own l')). rewrite <- HP. cbn. by rewrite Permutation_middle. }
    rewrite HP' in H1. apply NoDup_cons in H1 as [Hx H1].
    split; cbn [c' shared]; rewrite ?Eu, ?El; [done| | |clear -H4; set_solver].
    + intros y Hy. destruct (H2 y) as [? ?]; [rewrite HP'; by right|]. set_solver.
    + intros y Hy. destruct (decide (y = x)) as [->|]; [|set_solver]. destruct (H2 x); [rewrite HP'; left|done].
Qed.

Lemma mine_own l : mine l ⊆ own l.
Proof. unfold own. set_solver. Qed.

Lemma mined_elem c x : x ∈ mined c <-> exists t l, threads c !! t = Some l /\ x ∈ mine l.
Proof.
  unfold mined. rewrite list_elem_of_In, in_concat. split.
  - intros (ls & Hls & Hx). apply list_elem_of_In, list_elem_of_fmap in Hls as (l & -> & Hl). apply list_elem_of_In in Hx.
    apply list_elem_of_lookup in Hl as [t Ht]. eauto.
  - intros (t & l & Ht & Hx). exists (mine l). split; apply list_elem_of_In; [|done]. apply list_elem_of_fmap. exists l.
    split; [done|]. by eapply list_elem_of_lookup_2.
Qed.

Lemma owned_in c t l x : threads c !! t = Some l -> x ∈ own l -> x ∈ owned c.
Proof.
  intros Ht Hx. unfold owned. rewrite list_elem_of_In, in_concat. exists (own l). split; apply list_elem_of_In; [|done].
  apply list_elem_of_fmap. exists l. split; [done|]. by eapply list_elem_of_lookup_2.
Qed.

Lemma mined_owned c x : x ∈ mined c -> x ∈ owned c.
Proof. intros (t & l & Ht & Hx)%mined_elem. eapply owned_in; [done|]. by apply mine_own. Qed.

Lemma mined_NoDup c : nodes_ok c -> NoDup (mined c).
Proof.
  intros HN. eapply sublist_NoDup; [apply (no_nd _ HN)|]. unfold mined, owned. induction (threads c) as [|l ls IH]; [done|].
  cbn. apply sublist_app; [|done]. unfold own. by apply sublist_inserts_l.
Qed.

Lemma own_unique c t i l l' x : nodes_ok c -> threads c !! t = Some l -> threads c !! i = Some l' -> x ∈ own l -> x ∈ own l' -> t = i.
Proof.
  intros HN Ht Hi Hx Hy. eapply (concat_NoDup_inj (own <$> threads c)); [apply HN| | |exact Hx|exact Hy].
  - by rewrite list_lookup_fmap, Ht.
  - by rewrite list_lookup_fmap, Hi.
Qed.

(** *** The relation to the contract *)

(** What a scan has read so far covers: a node that it will free was not in the
    hazard pointers it is done with. *)
Definition cov (a : rc_state) (l : hz_local) : Prop :=
  match hl_pc l with
  | HScanThr head => forall n p, n ∈ hl_retired l -> p ∈ all_slots nthr k -> p.1 ∉ head -> (n, p) ∈ rc_seen a
  | HScanRead _ cur i plist => forall n p, n ∈ hl_retired l -> p ∈ all_slots nthr k ->
      p.1 ∉ cur \/ (head cur = Some p.1 /\ (p.2 < i)%nat) -> (n, p) ∈ rc_seen a \/ n ∈ plist
  | HScanFree plist nodes => StronglySorted Z.le plist /\
      forall n p, n ∈ nodes -> p ∈ all_slots nthr k -> (n, p) ∈ rc_seen a \/ n ∈ plist
  | _ => True
  end.

(** A validated node: allocated, announced, and not missed since it was retired. *)
Record prot_ok (s : hz_shared) (a : rc_state) (i j : nat) (x : Z) : Prop := {
  po_slot : (i, j) ∈ all_slots nthr k;
  po_used : x ∈ hz_used s;
  po_eff : eff s i j = x;
  po_seen : x ∈ rc_retired a -> (x, (i, j)) ∉ rc_seen a
}.

Definition fencing (l : hz_local) (j : nat) : Prop := exists x, hl_pc l = HFence j x.

Record race (c : hz_conf) (a : rc_state) : Prop := {
  ra_str : hz_str c;
  ra_nodes : nodes_ok c;
  ra_ret : forall x, x ∈ rc_retired a <-> x ∈ mined c;
  ra_slot : forall i j, slot_at a i j = eff (shared c) i j;
  ra_cov : forall t l, threads c !! t = Some l -> cov a l;
  ra_prot : forall i j x, hz_prot (shared c) !! (i, j) = Some x -> prot_ok (shared c) a i j x;
  ra_fence : forall t l j, threads c !! t = Some l -> fencing l j -> hz_prot (shared c) !! (t, j) = None
}.

Lemma cov_mono a a' l : (forall n p, n ∈ mine l -> (n, p) ∈ rc_seen a -> (n, p) ∈ rc_seen a') -> cov a l -> cov a' l.
Proof.
  unfold cov, mine. intros Hs. destruct (hl_pc l); try done.
  - intros Hc n p Hn Hp Hh. apply Hs; [done|eauto].
  - intros Hc n p Hn Hp Hh. destruct (Hc n p Hn Hp Hh); [left; by apply Hs|by right].
  - intros [Hp Hc]. split; [done|]. intros n p' Hn Hp'. destruct (Hc n p' Hn Hp'); [left; apply Hs; [set_solver|done]|by right].
Qed.

Lemma race_upd c a t l s' l' e a' : race c a -> threads c !! t = Some l -> hz_moves true nthr k t (shared c) l s' l' e ->
  (forall x, x ∈ rc_retired a' <-> x ∈ mined (Conf s' (<[t:=l']> (threads c)))) ->
  (forall i j, slot_at a' i j = eff s' i j) ->
  (forall n p, n ∉ own l -> (n, p) ∈ rc_seen a -> (n, p) ∈ rc_seen a') -> cov a' l' ->
  (forall i j x, hz_prot s' !! (i, j) = Some x -> prot_ok s' a' i j x) ->
  (forall i j, i <> t -> hz_prot s' !! (i, j) = hz_prot (shared c) !! (i, j)) ->
  (forall j, fencing l' j -> hz_prot s' !! (t, j) = None) ->
  race (Conf s' (<[t:=l']> (threads c))) a'.
Proof.
  intros HR Ht Hm Hret Hslot Hseen Hcov Hprot Hpo Hf. split; try done.
  - eapply str_conf_step; [apply HR|done|done].
  - eapply nodes_step; [apply HR|done|by eapply node_moves].
  - intros i li Hi. cbn in Hi. thread_cases Hi; [done|]. eapply cov_mono; [|by eapply (ra_cov _ _ HR)].
    intros n p Hn. apply Hseen. intros Hx. destruct H. symmetry. eapply own_unique; [apply (ra_nodes _ _ HR)|done|done|done|by apply mine_own].
  - intros i li j Hi Hj. cbn in *. thread_cases Hi; [by apply Hf|]. rewrite Hpo by done. by eapply (ra_fence _ _ HR).
Qed.

Lemma race_keep_others c a t l s' l' e : race c a -> threads c !! t = Some l -> hz_moves true nthr k t (shared c) l s' l' e ->
  others_keep t (shared c) s'.
Proof.
  intros HR Ht Hm. pose proof (ra_str _ _ HR) as HS.
  assert (t < nthr)%nat as Hlt by (rewrite <- (st_len _ HS); by eapply lookup_lt_Some).
  edestruct str_moves as (? & ? & ?); [apply (st_recs _ HS)|done|by apply (st_local _ HS)|done|done].
Qed.

(** A step without events. *)
Lemma race_quiet c a t l s' l' e : race c a -> threads c !! t = Some l -> hz_moves true nthr k t (shared c) l s' l' e ->
  mine l' ≡ₚ mine l -> (forall j, eff s' t j = eff (shared c) t j) -> hz_used (shared c) ⊆ hz_used s' -> cov a l' ->
  (hz_prot s' = hz_prot (shared c) /\ (forall j, fencing l' j -> fencing l j)) \/
  (exists j x, hz_prot s' = <[(t, j):=x]> (hz_prot (shared c)) /\ (forall i, ~ fencing l' i) /\ prot_ok s' a t j x) \/
  (exists j, hz_prot s' = delete (t, j) (hz_prot (shared c)) /\ (forall i, fencing l' i -> i = j)) ->
  race (Conf s' (<[t:=l']> (threads c))) a.
Proof.
  intros HR Ht Hm HM He Hu Hc Hp. pose proof (race_keep_others _ _ _ _ _ _ _ HR Ht Hm) as HK.
  assert (forall i j, eff s' i j = eff (shared c) i j) as He'.
  { intros i j. destruct (decide (i = t)) as [->|Hi]; [done|by eapply eff_frame]. }
  assert (forall i j x, hz_prot (shared c) !! (i, j) = Some x -> prot_ok s' a i j x) as Hold.
  { intros i j x Hx. destruct (ra_prot _ _ HR _ _ _ Hx) as [? ? Heff ?]. split; [done|by apply Hu|by rewrite He'|done]. }
  eapply race_upd; try done.
  - intros x. rewrite (ra_ret _ _ HR). pose proof (mined_insert c t l s' l' Ht) as HP. rewrite HM in HP.
    apply Permutation_app_inv_l in HP. by rewrite HP.
  - intros i j. rewrite He'. apply (ra_slot _ _ HR).
  - intros i j x Hx. destruct Hp as [[Hp _]|[(j0 & y & Hp & _ & Hok)|(j0 & Hp & _)]]; rewrite Hp in Hx.
    + by apply Hold.
    + apply lookup_insert_Some in Hx as [[[= <- <-] <-]|[_ Hx]]; [done|by apply Hold].
    + apply lookup_delete_Some in Hx as [_ Hx]. by apply Hold.
  - intros i j Hi. destruct Hp as [[Hp _]|[(j0 & y & Hp & _ & Hok)|(j0 & Hp & _)]]; rewrite Hp; [done| |].
    + rewrite lookup_insert_ne; [done|]. naive_solver.
    + rewrite lookup_delete_ne; [done|]. naive_solver.
  - intros j Hj. destruct Hp as [[Hp Hf]|[(j0 & y & _ & Hf & _)|(j0 & Hp & Hf)]]; [|by destruct (Hf j)|].
    + rewrite Hp. eapply (ra_fence _ _ HR); [done|by apply Hf].
    + rewrite Hp, (Hf j Hj). by rewrite lookup_delete_eq.
Qed.

Lemma mined_same c t l s' l' x : threads c !! t = Some l -> mine l' ≡ₚ mine l -> x ∈ mined (Conf s' (<[t:=l']> (threads c))) <-> x ∈ mined c.
Proof.
  intros Ht HM. pose proof (mined_insert c t l s' l' Ht) as HP. rewrite HM in HP. apply Permutation_app_inv_l in HP. by rewrite HP.
Qed.

(** A hazard pointer is set. *)
Lemma race_set c a t l s' l' j v : race c a -> threads c !! t = Some l -> hz_moves true nthr k t (shared c) l s' l' [RSet t j v] ->
  mine l' = mine l -> (forall i, eff s' t i = if decide (i = j) then v else eff (shared c) t i) -> hz_used s' = hz_used (shared c) ->
  cov a l' -> hz_prot s' = delete (t, j) (hz_prot (shared c)) -> (forall i, fencing l' i -> fencing l i) ->
  exists a', spec_run (reclaim_spec nthr k) [RSet t j v] a = Some a' /\ race (Conf s' (<[t:=l']> (threads c))) a'.
Proof.
  intros HR Ht Hm HM He Hu Hc Hp Hf. pose proof (race_keep_others _ _ _ _ _ _ _ HR Ht Hm) as HK.
  eexists. split; [done|]. eapply race_upd; try done.
  - intros x. rewrite mined_same by (done || by rewrite HM). apply (ra_ret _ _ HR).
  - intros i j'. unfold slot_at. cbn. destruct (decide ((t, j) = (i, j'))) as [[= -> ->]|Hne].
    + rewrite lookup_insert_eq, He. by rewrite decide_True.
    + rewrite lookup_insert_ne by done. etransitivity; [apply (ra_slot _ _ HR)|]. destruct (decide (i = t)) as [->|Hi].
      * rewrite He, decide_False; [done|]. naive_solver.
      * symmetry. by eapply eff_frame.
  - intros i j' x Hx. rewrite Hp in Hx. apply lookup_delete_Some in Hx as [Hne Hx]. destruct (ra_prot _ _ HR _ _ _ Hx) as [? ? Heff ?].
    split; [done|by rewrite Hu| |done]. destruct (decide (i = t)) as [->|Hi].
    + rewrite He, decide_False; [done|]. naive_solver.
    + erewrite eff_frame by done. done.
  - intros i j' Hi. rewrite Hp. rewrite lookup_delete_ne; [done|]. naive_solver.
  - intros j' Hj. rewrite Hp. apply lookup_delete_None. right. eapply (ra_fence _ _ HR); [done|by apply Hf].
Qed.

(** A node is retired. *)
Lemma race_retire c a t s pc x rt n ps : race c a -> s = shared c -> threads c !! t = Some (HL (HFree x) rt n ps) ->
  hz_moves true nthr k t s (HL (HFree x) rt n ps) s (HL pc (x :: rt) (n + 1) ps) [RRetire x] -> pc = HScanHead \/ pc = HIdle ->
  exists a', spec_run (reclaim_spec nthr k) [RRetire x] a = Some a' /\ race (Conf s (<[t:=HL pc (x :: rt) (n + 1) ps]> (threads c))) a'.
Proof.
  intros HR -> Ht Hm Hpc. pose proof (mined_insert c t _ (shared c) (HL pc (x :: rt) (n + 1) ps) Ht) as HP.
  assert (mined (Conf (shared c) (<[t:=HL pc (x :: rt) (n + 1) ps]> (threads c))) ≡ₚ x :: mined c) as HP'.
  { destruct Hpc as [-> | ->]; cbn in HP; apply (Permutation_app_inv_l rt); rewrite HP; by rewrite <- Permutation_middle. }
  assert (x ∉ mined c) as Hx.
  { intros (i & li & Hi & Hx)%mined_elem. pose proof (no_nd _ (ra_nodes _ _ HR)) as Hnd.
    assert (t = i) as <- by (eapply own_unique; [apply HR|done|done|by left|by apply mine_own]).
    rewrite Ht in Hi. injection Hi as <-. unfold owned in Hnd. rewrite <- (take_drop_middle _ _ _ Ht), fmap_app, fmap_cons, concat_app in Hnd.
    apply NoDup_app in Hnd as (_ & _ & Hnd). cbn in Hnd, Hx. apply NoDup_cons in Hnd as [[] _]. set_solver. }
  eexists. cbn. rewrite decide_False by (by rewrite (ra_ret _ _ HR)). split; [done|]. eapply race_upd; try done.
  - intros y. cbn. rewrite elem_of_union, elem_of_singleton, (ra_ret _ _ HR), HP', elem_of_cons. done.
  - apply (ra_slot _ _ HR).
  - intros m p Hm' Hs. apply elem_of_filter. split; [|done]. cbn. intros ->. apply Hm'. left.
  - by destruct Hpc as [-> | ->].
  - intros i j y Hy. destruct (ra_prot _ _ HR _ _ _ Hy) as [? ? ? Hs]. split; try done. cbn [rc_retired rc_seen].
    rewrite elem_of_union, elem_of_singleton. intros Hr [Hne ?]%elem_of_filter. destruct Hr as [->|Hr]; [done|by apply Hs].
  - intros j [y E]. by destruct Hpc as [-> | ->].
Qed.

(** Hazard pointers are read. *)
Definition seen_ev (q : list Z * (nat * nat)) : rc_ev := RSeen q.1 q.2.1 q.2.2.

Lemma spec_seens qs : forall a, (forall ns p n, (ns, p) ∈ qs -> n ∈ ns -> n ∈ rc_retired a /\ slot_at a p.1 p.2 <> n) ->
  exists seen, spec_run (reclaim_spec nthr k) (seen_ev <$> qs) a = Some (RC (rc_slot a) (rc_retired a) seen) /\
    forall n p, (n, p) ∈ seen <-> (n, p) ∈ rc_seen a \/ exists ns, (ns, p) ∈ qs /\ n ∈ ns.
Proof.
  induction qs as [|[ns [i j]] qs IH]; intros a Hq.
  - exists (rc_seen a). split; [by destruct a|]. intros n p. split; [auto|]. intros [?|(ns & H%elem_of_nil & _)]; done.
  - cbn [fmap list_fmap spec_run seen_ev reclaim_spec fst snd]. rewrite decide_True.
    2: { apply Forall_forall. intros n Hn. apply (Hq ns (i, j) n); [left|done]. }
    edestruct (IH (RC (rc_slot a) (rc_retired a) (list_to_set ((fun n => (n, (i, j))) <$> ns) ∪ rc_seen a))) as (seen & Hs & Hi).
    { intros ns' p n Hin Hn. apply (Hq ns'); [by right|done]. }
    exists seen. split; [exact Hs|]. intros n p. rewrite Hi. cbn [rc_seen]. rewrite elem_of_union, elem_of_list_to_set, list_elem_of_fmap.
    setoid_rewrite elem_of_cons. naive_solver.
Qed.

Lemma race_seen c a t l s l' e qs : race c a -> s = shared c -> threads c !! t = Some l -> hz_moves true nthr k t s l s l' e -> e = seen_ev <$> qs ->
  mine l' = mine l -> (forall j, ~ fencing l' j) ->
  (forall ns p n, (ns, p) ∈ qs -> n ∈ ns -> n ∈ mine l /\ eff s p.1 p.2 <> n) ->
  (forall a', rc_seen a ⊆ rc_seen a' -> (forall ns p n, (ns, p) ∈ qs -> n ∈ ns -> (n, p) ∈ rc_seen a') -> cov a' l') ->
  exists a', spec_run (reclaim_spec nthr k) e a = Some a' /\ race (Conf s (<[t:=l']> (threads c))) a'.
Proof.
  intros HR -> Ht Hm -> HM Hf Hq Hc. destruct (spec_seens qs a) as (seen & Hs & Hi).
  { intros ns p n Hin Hn. destruct (Hq ns p n Hin Hn) as [H1 H2]. rewrite (ra_ret _ _ HR), (ra_slot _ _ HR). split; [|done].
    apply mined_elem. eauto. }
  eexists. split; [exact Hs|]. eapply race_upd; try done.
  - intros x. rewrite mined_same by (done || by rewrite HM). apply (ra_ret _ _ HR).
  - apply (ra_slot _ _ HR).
  - intros n p _ Hn. apply Hi. by left.
  - apply Hc; [intros [n p] Hn; apply Hi; by left|]. intros ns p n Hin Hn. apply Hi. right. eauto.
  - intros i j x Hx. destruct (ra_prot _ _ HR _ _ _ Hx) as [? ? Heff Hns]. split; try done. intros Hr [Hin|(ns & Hin & Hn)]%Hi; [by apply Hns|].
    by destruct (Hq ns (i, j) x Hin Hn).
  - intros j Hj. by destruct (Hf j).
Qed.

(** A node is freed. *)
Lemma race_free c a t s plist x next rt n ps : race c a -> s = shared c -> threads c !! t = Some (HL (HScanFree plist (x :: next)) rt n ps) ->
  binary_search plist x = Some false ->
  exists a', spec_run (reclaim_spec nthr k) [RFree x] a = Some a' /\
    race (Conf (set_node_sets s (hz_live s) (hz_used s ∖ {[x]})) (<[t:=HL (HScanFree plist next) rt n ps]> (threads c))) a'.
Proof.
  intros HR -> Ht Hb. set (s' := set_node_sets _ _ _). set (l' := HL (HScanFree plist next) rt n ps).
  pose proof (mv_free true nthr k t (shared c) plist x next rt n ps Hb) as Hm.
  pose proof (mined_insert c t _ s' l' Ht) as HP. assert (mined c ≡ₚ x :: mined (Conf s' (<[t:=l']> (threads c)))) as HP'.
  { apply (Permutation_app_inv_l (mine l')). rewrite <- HP. cbn. by rewrite Permutation_middle. }
  pose proof (ra_cov _ _ HR _ _ Ht) as [Hsorted Hc]. cbn in Hc.
  assert (x ∉ plist) as Hx.
  { destruct (binary_search_spec plist x Hsorted) as (b & E & Hin). rewrite Hb in E. injection E as <-. naive_solver. }
  assert (forall p, p ∈ all_slots nthr k -> (x, p) ∈ rc_seen a) as Hall.
  { intros p Hp. by destruct (Hc x p ltac:(left) Hp). }
  assert (x ∉ mined (Conf s' (<[t:=l']> (threads c)))) as Hx'.
  { assert (NoDup (mined c)) as Hnd by (apply mined_NoDup, HR). rewrite HP' in Hnd. by apply NoDup_cons in Hnd as []. }
  eexists. cbn [spec_run reclaim_spec]. rewrite decide_True.
  2: { split; [rewrite (ra_ret _ _ HR), HP'; left|by apply Forall_forall]. }
  split; [done|]. eapply race_upd; try done.
  - intros y. cbn. rewrite elem_of_difference, elem_of_singleton, (ra_ret _ _ HR), HP', elem_of_cons. naive_solver.
  - apply (ra_slot _ _ HR).
  - split; [done|]. intros m p Hn Hp. apply Hc; [by right|done].
  - intros i j y Hy. destruct (ra_prot _ _ HR _ _ _ Hy) as [? ? ? Hs]. cbn in *. split; try done; cbn.
    + apply elem_of_difference. split; [done|]. intros ->%elem_of_singleton. apply Hs; [rewrite (ra_ret _ _ HR), HP'; left|by apply Hall].
    + intros [Hr _]%elem_of_difference. by apply Hs.
  - intros j [y E]. done.
Qed.

Lemma eff_push s t L rec i j : hz_recs s !! t = None -> hr_slots rec = replicate k NULL -> eff (set_list s L (<[t:=rec]> (hz_recs s))) i j = eff s i j.
Proof.
  intros Hn Hs. unfold eff. change (buf (set_list _ _ _)) with (buf s). destruct (decide (i = t)) as [->|Hi]; [|by rewrite mem_write_ne].
  rewrite mem_write, Hs. unfold slot_mem. rewrite Hn. cbn. case_decide; [done|]. destruct (replicate k NULL !! j) eqn:E; [|done].
  by apply lookup_replicate in E as [-> _].
Qed.

Lemma eff_raise s L cur rec v i j : hz_recs s !! cur = Some rec -> eff (set_list s L (<[cur:=HRec v (hr_slots rec)]> (hz_recs s))) i j = eff s i j.
Proof.
  intros Hr. unfold eff. change (buf (set_list _ _ _)) with (buf s). destruct (decide (i = cur)) as [->|Hi]; [|by rewrite mem_write_ne].
  rewrite mem_write. unfold slot_mem. by rewrite Hr.
Qed.

(** A read by a scanning thread finds the hazard pointer, or one about to be reset. *)
Lemma read_eff s t l r i h : recs_ok s -> local_ok s t l -> (forall j, ~ fencing l j) -> read_slot t s r i = Some h -> eff s r i = h \/ eff s r i = NULL.
Proof.
  intros HR HL Hf Hread. unfold read_slot in Hread. destruct (hz_recs s !! r) as [rec|] eqn:Er; [|done]. cbn in Hread.
  destruct (hr_slots rec !! i) as [v|] eqn:Ev; [|done]. cbn in Hread. injection Hread as <-.
  assert (slot_mem s r i = v) as Hm by (unfold slot_mem; rewrite Er; cbn; by rewrite Ev).
  unfold eff. case_decide as Hin; [by right|]. left. rewrite Hm. case_decide as Hr; [subst r|done].
  assert (Forall reset (buf s t)) as Hb.
  { pose proof (lo_buf _ _ _ HL) as Hb. unfold buf_ok in Hb. destruct (hl_pc l) eqn:E; try done. destruct (Hf n). by exists node. }
  unfold buf_read. clear -Hin Hb. revert v. induction (buf s t) as [|[j x] b IH]; intros v; [done|].
  apply Forall_cons in Hb as [[_ Hx] Hb]. cbn in Hx |- *. subst x. case_decide; [subst; set_solver|]. apply IH; [set_solver|done].
Qed.

Lemma race_flush c a t l j x b rec : race c a -> threads c !! t = Some l -> buf (shared c) t = (j, x) :: b -> hz_recs (shared c) !! t = Some rec ->
  let s := shared c in
  let s' := set_buf (set_list s (hz_list s) (<[t:=HRec (hr_threshold rec) (<[j:=x]> (hr_slots rec))]> (hz_recs s))) t b in
  exists a', spec_run (reclaim_spec nthr k) (if decide (x = NULL) then [] else [RSet t j x]) a = Some a' /\ race (Conf s' (<[t:=l]> (threads c))) a'.
Proof.
  intros HR Ht Hb Hr s s'. pose proof (ra_str _ _ HR) as HS.
  pose proof (fun i => eff_flush s t l j x b rec i (st_recs _ HS) (st_local _ HS _ _ Ht) Hb Hr) as He.
  pose proof (mv_flush true nthr k t s l j x b rec Hb Hr) as Hm. case_decide as Hx.
  - exists a. split; [done|]. eapply race_quiet; try done.
    + intros i. etransitivity; [apply (He i)|]. apply decide_False. naive_solver.
    + by eapply (ra_cov _ _ HR).
    + left. split; [done|auto].
  - eapply race_set; try done.
    + intros i. etransitivity; [apply (He i)|]. apply decide_ext. naive_solver.
    + by eapply (ra_cov _ _ HR).
    + symmetry. apply delete_id. eapply (ra_fence _ _ HR); [done|]. exists x. by apply (He j).
Qed.

Lemma race_head c a t rt n ps : race c a -> threads c !! t = Some (HL HScanHead rt n ps) -> hz_list (shared c) <> [] ->
  let s := shared c in
  exists a', spec_run (reclaim_spec nthr k) ((fun p => RSeen rt p.1 p.2) <$> filter (fun p => p.1 ∉ hz_list s) (all_slots nthr k)) a = Some a' /\
    race (Conf s (<[t:=HL (HScanThr (hz_list s)) rt n ps]> (threads c))) a'.
Proof.
  intros HR Ht Hl s. pose proof (mv_head true nthr k t s rt n ps Hl) as Hm. pose proof (ra_str _ _ HR) as HS.
  eapply (race_seen c a t _ s _ _ ((fun p => (rt, p)) <$> filter (fun p => p.1 ∉ hz_list s) (all_slots nthr k))); try done.
  - by rewrite <- list_fmap_compose.
  - intros j [y E]. done.
  - intros ns p m Hin Hm'. apply list_elem_of_fmap in Hin as (q & [= -> ->] & [Hq _]%list_elem_of_filter). split; [done|].
    unfold eff, slot_mem. assert (hz_recs s !! q.1 = None) as ->.
    { apply eq_None_not_Some. intros Hq'. by apply Hq, (ro_dom _ (st_recs _ HS)). }
    assert (m <> NULL) as Hnz.
    { intros ->. destruct (no_own _ (ra_nodes _ _ HR) NULL) as [H _]; [|by apply (no_null _ (ra_nodes _ _ HR))].
      eapply owned_in; [done|]. exact Hm'. }
    cbn. by case_decide.
  - intros a' Hs Hn m p Hm' Hp Hh. cbn in *. apply (Hn rt p m); [|done]. apply list_elem_of_fmap. exists p. split; [done|].
    by apply list_elem_of_filter.
Qed.

Lemma cov_read a a' max r next i plist plist' rt n ps : cov a (HL (HScanRead max (r :: next) i plist) rt n ps) ->
  rc_seen a ⊆ rc_seen a' -> plist ⊆ plist' -> (forall m, m ∈ rt -> (m, (r, i)) ∈ rc_seen a' \/ m ∈ plist') ->
  cov a' (HL (if decide (S i = k) then HScanRead max next 0 plist' else HScanRead max (r :: next) (S i) plist') rt n ps).
Proof.
  intros Hc Hs Hp Hnow.
  assert (forall m p, m ∈ rt -> p ∈ all_slots nthr k -> p.1 ∉ r :: next \/ (r = p.1 /\ (p.2 < S i)%nat) -> (m, p) ∈ rc_seen a' \/ m ∈ plist') as Hnew.
  { intros m p Hm Hin Hor. assert (p = (r, i) \/ (p.1 ∉ r :: next \/ Some r = Some p.1 /\ (p.2 < i)%nat)) as [-> | Hold].
    - destruct Hor as [?|[-> ?]]; [auto|]. destruct (decide (p.2 = i)) as [<-|]; [left; by destruct p|]. right. right. split; [done|lia].
    - by apply Hnow.
    - destruct (Hc m p Hm Hin Hold); [left; by apply Hs|right; by apply Hp]. }
  case_decide as Hk'; intros m p Hm Hin Hor; apply Hnew; cbn in *; try done.
  - destruct p as [p1 p2]. apply all_slots_elem in Hin as [_ Hj]. destruct Hor as [Hor|[_ ?]]; [|lia]. cbn in *.
    destruct (decide (p1 = r)) as [->|]; [right; split; [done|lia]|]. left. by rewrite not_elem_of_cons.
  - naive_solver.
Qed.

Lemma race_read c a t max r next i plist h rt n ps : race c a -> threads c !! t = Some (HL (HScanRead max (r :: next) i plist) rt n ps) ->
  read_slot t (shared c) r i = Some h ->
  let plist' := if Z.eqb h NULL then plist else plist ++ [h] in
  let pc' := if decide (S i = k) then HScanRead max next 0 plist' else HScanRead max (r :: next) (S i) plist' in
  exists a', spec_run (reclaim_spec nthr k) [RSeen (filter (fun n => n <> h) rt) r i] a = Some a' /\
    race (Conf (shared c) (<[t:=HL pc' rt n ps]> (threads c))) a'.
Proof.
  intros HR Ht Hread plist' pc'. pose proof (mv_read true nthr k t (shared c) max r next i plist h pc' rt n ps Hread eq_refl) as Hm.
  pose proof (ra_str _ _ HR) as HS. pose proof (st_local _ HS _ _ Ht) as HL.
  assert (forall m, m ∈ rt -> m <> NULL) as Hnz.
  { intros m Hin ->. destruct (no_own _ (ra_nodes _ _ HR) NULL) as [H _]; [|by apply (no_null _ (ra_nodes _ _ HR))].
    eapply owned_in; [done|]. exact Hin. }
  eapply (race_seen c a t _ (shared c) _ _ [(filter (fun n => n <> h) rt, (r, i))]); try done.
  - unfold pc', mine. by case_decide.
  - intros j [y E]. unfold pc' in E. cbn in E. by case_decide.
  - intros ns p m Hin Hm'. apply list_elem_of_singleton in Hin as [= -> ->]. apply list_elem_of_filter in Hm' as [Hne Hin]. split; [done|]. cbn.
    edestruct (read_eff (shared c) t) as [-> | ->]; [apply (st_recs _ HS)|done|by intros j [y E]|done|done|]. intros <-. by apply (Hnz NULL).
  - intros a' Hs Hn. pose proof (ra_cov _ _ HR _ _ Ht) as Hc. cbn in Hc.
    assert (forall m, m ∈ rt -> (m, (r, i)) ∈ rc_seen a' \/ m ∈ plist') as Hnow.
    { intros m Hin. destruct (decide (m = h)) as [->|Hne].
      - right. unfold plist'. rewrite (proj2 (Z.eqb_neq h NULL)) by (by apply Hnz). set_solver.
      - left. apply (Hn (filter (fun n => n <> h) rt)); [left|]. by apply list_elem_of_filter. }
    assert (plist ⊆ plist') as Hsub by (unfold plist'; case_match; set_solver).
    exact (cov_read a a' max r next i plist plist' rt n ps Hc Hs Hsub Hnow).
Qed.

(** Every step of the machine is one the contract allows. *)
Lemma race_moves c a t l s s' l' e : race c a -> threads c !! t = Some l -> s = shared c -> hz_moves true nthr k t s l s' l' e ->
  exists a', spec_run (reclaim_spec nthr k) e a = Some a' /\ race (Conf s' (<[t:=l']> (threads c))) a'.
Proof.
  intros HR Ht Es Hm. pose proof (ra_str _ _ HR) as HS. pose proof (st_local _ HS _ _ Ht) as HL. rewrite <- Es in HL.
  pose proof Hm as Hm'. pose proof (ra_cov _ _ HR _ _ Ht) as Hc.
  assert (e = [] -> mine l' ≡ₚ mine l -> (forall j, eff s' t j = eff s t j) -> hz_used s ⊆ hz_used s' -> cov a l' -> hz_prot s' = hz_prot s ->
    (forall j, fencing l' j -> fencing l j) ->
    exists a', spec_run (reclaim_spec nthr k) e a = Some a' /\ race (Conf s' (<[t:=l']> (threads c))) a') as Hquiet.
  { intros -> HM He Hu Hc' Hp Hf. exists a. split; [done|]. subst s. eapply race_quiet; eauto. }
  destruct Hm; try (apply Hquiet; try done; by intros ? [? ?]).
  - subst s. by apply race_flush.
  - apply Hquiet; try done. cbn. set_solver.
  - destruct H as [-> | [cur ->]]; apply Hquiet; try done; by intros j [y E].
  - apply Hquiet; try done; [|by intros j [y E]]. intros j. apply eff_push; [|done].
    apply eq_None_not_Some. intros Hr. destruct (lo_pc _ _ _ HL) as [[] _]. subst s. by apply (ro_dom _ (st_recs _ HS)).
  - apply Hquiet; try done; [|by intros j [y E]]. intros j. by apply eff_raise.
  - exists a. split; [done|]. subst s. eapply race_quiet; try done; [intros i; by apply eff_store|].
    right. right. exists j. split; [done|]. by intros i [y [= -> _]].
  - exists a. split; [done|]. subst s. eapply race_quiet; try done. right. left. exists j, x. split; [done|]. split; [by intros i [y E]|].
    destruct (lo_pc _ _ _ HL) as (Ht' & Hj & Hx & Hme & Hb). split.
    + apply all_slots_elem. split; [|done]. by apply (ro_lt _ (st_recs _ HS)).
    + by apply (no_live _ (ra_nodes _ _ HR)).
    + change (eff (shared c) t j = x). unfold eff. rewrite Hb. case_decide as Hin; [by apply elem_of_nil in Hin|done].
    + rewrite (ra_ret _ _ HR). intros Hin%mined_owned. by destruct (no_own _ (ra_nodes _ _ HR) _ Hin).
  - subst s. eapply race_set; try done. intros i. apply eff_store_NULL.
  - subst s. by eapply race_retire.
  - subst s. by apply race_head.
  - apply Hquiet; try done; [|by intros j [y E]]. intros m p Hin Hp Hor. left. apply Hc; [done|done|]. destruct Hor as [?|[_ ?]]; [done|lia].
  - subst s pc'. by apply race_read.
  - apply Hquiet; try done; [unfold mine; cbn; by rewrite app_nil_r| |by intros j [y E]]. split; [apply sorted_plist|].
    intros m p Hin Hp. rewrite merge_sort_Permutation. apply Hc; [done|done|]. left. apply not_elem_of_nil.
  - apply Hquiet; try done; [unfold mine; cbn; by rewrite Permutation_middle| |by intros j [y E]]. destruct Hc as [Hs Hc]. split; [done|].
    intros m p Hin Hp. apply Hc; [by right|done].
  - subst s. by eapply race_free.
Qed.

Lemma race_step c a lbl c' e : race c a -> hz_step true nthr k lbl c = Some (c', e) ->
  exists a', spec_run (reclaim_spec nthr k) e a = Some a' /\ race c' a'.
Proof.
  intros HR Hs. destruct lbl as [t ch]. apply conf_step_inv in Hs as (l & s' & l' & Ht & Hs & ->).
  eapply race_moves; [done|done|done|by eapply hz_tstep_moves].
Qed.

Lemma concat_fmap_nils {A B} (f : A -> list B) (x : A) n : f x = [] -> concat (f <$> replicate n x) = [].
Proof. intros Hx. induction n as [|n IH]; [done|]. cbn. by rewrite Hx. Qed.

Lemma race_init : race (hz_init nthr) rc_init.
Proof.
  split; [apply str_init| | |done| | |].
  - assert (owned (hz_init nthr) = []) as E by (by apply concat_fmap_nils). split; rewrite ?E; [by apply NoDup_nil| |done|cbn; set_solver].
    by intros x ?%elem_of_nil.
  - intros x. assert (mined (hz_init nthr) = []) as -> by (by apply concat_fmap_nils). cbn. set_solver.
  - intros t l [-> _]%lookup_replicate. done.
  - intros i j x Hx. cbn in Hx. by rewrite lookup_empty in Hx.
  - intros t l j _ _. apply lookup_empty.
Qed.

Lemma race_run ls c evs : run (hz_step true nthr k) ls (hz_init nthr) = Some (c, evs) ->
  exists a, spec_run (reclaim_spec nthr k) evs rc_init = Some a /\ race c a.
Proof.
  intros Hr. destruct (run_simulation (hz_step true nthr k) (reclaim_spec nthr k) (Z.of_nat (length ls) + 1) (fun _ => race))
    with (ls := ls) (n := 0) (s := hz_init nthr) (s' := c) (evs := evs) (a := rc_init) as (a & Ha & HR); eauto; [|lia|apply race_init].
  intros n l s s' e a _ HR Hs. by eapply race_step.
Qed.

(** *** No operation gets stuck *)

Lemma suffix_elem (r : nat) next L : (r :: next) `suffix_of` L -> r ∈ L.
Proof. intros [pre ->]. set_solver. Qed.

Lemma read_enabled s r next t i : recs_ok s -> (r :: next) `suffix_of` hz_list s -> (i < k)%nat -> is_Some (read_slot t s r i).
Proof.
  intros HR Hs Hi. destruct (proj1 (ro_dom _ HR r) (suffix_elem _ _ _ Hs)) as [rec Hr]. unfold read_slot. rewrite Hr. cbn.
  destruct (lookup_lt_is_Some_2 (hr_slots rec) i) as [v Hv]; [by rewrite (ro_slots _ HR _ _ Hr)|]. rewrite Hv. by eexists.
Qed.

(** The assertion on [index] and the stores to [plist] are in bounds. *)
Lemma scan_enabled t s max r next i plist rt n ps : recs_ok s -> local_ok s t (HL (HScanRead max (r :: next) i plist) rt n ps) ->
  is_Some (scan nthr k t s (HL (HScanRead max (r :: next) i plist) rt n ps)).
Proof.
  intros HR HL. destruct (lo_pc _ _ _ HL) as (_ & Hs & Hi & _ & Hmax & Hps). cbn [hl_plist_size length] in *.
  cbn [scan hl_pc hl_plist_size]. destruct (read_enabled s r next t i HR Hs Hi) as [h Hh].
  assert (Z.of_nat (length plist) < max) as Hlt by nia. rewrite (proj2 (Z.ltb_lt _ _) Hlt), andb_false_r, Hh. cbn.
  rewrite (proj2 (Z.ltb_lt (Z.of_nat (length plist)) ps)) by lia. rewrite andb_false_r. by eexists.
Qed.

Lemma go_enabled c a t l : race c a -> threads c !! t = Some l -> hl_pc l <> HIdle ->
  is_Some (hz_tstep true nthr k t (HGo false) (shared c) l) \/ is_Some (hz_tstep true nthr k t HFlush (shared c) l).
Proof.
  intros HR Ht Hne. pose proof (ra_str _ _ HR) as HS. pose proof (st_recs _ HS) as HRec. pose proof (st_local _ HS _ _ Ht) as HL.
  pose proof (lo_pc _ _ _ HL) as Hp. pose proof (ra_cov _ _ HR _ _ Ht) as Hc. pose proof (fun r => proj1 (ro_dom _ HRec r)) as Hdom.
  destruct l as [pc rt n ps]. cbn [hz_tstep hl_pc pc_ok cov] in *.
  destruct pc as [| |cur|[|cur next]|j x|j x|x| |[|r next]|max [|r next] i plist|plist [|x next]]; cbn [create_and_push announce retire scan hl_pc]; eauto.
  - done.
  - left. destruct (negb false && _); by eexists.
  - left. destruct (Hdom cur) as [rec ->]; [by eapply suffix_elem, Hp|]. by eexists.
  - unfold drained. cbn. case_bool_decide as Hb; [eauto|]. right. unfold flush. destruct (buf (shared c) t) as [|[i y] b]; [done|].
    destruct (Hdom t) as [rec ->]; [apply Hp|]. by eexists.
  - left. destruct (Hdom t Hp) as [rec ->]. by eexists.
  - left. change (t ∈ hz_list (shared c)) in Hp. destruct (hz_list (shared c)); [by apply elem_of_nil in Hp|]. by eexists.
  - by destruct Hp as (_ & _ & []).
  - left. cbn. destruct (Hdom r) as [rec ->]; [by eapply suffix_elem, Hp|]. by eexists.
  - left. by apply scan_enabled.
  - left. destruct Hc as [Hs _]. destruct (binary_search_spec plist x Hs) as (b & -> & _). destruct b; by eexists.
Qed.

(** *** Retiring a node is wait-free *)

(** The steps that [hazard_pointer_free] has left, at most. *)
Definition steps_left (l : hz_local) : nat :=
  match hl_pc l with
  | HFree _ => 6 + nthr * k + length (hl_retired l)
  | HScanHead => 4 + nthr * k + length (hl_retired l)
  | HScanThr head => 3 + length head * k + length (hl_retired l)
  | HScanRead _ cur i _ => 2 + (length cur * k - i) + length (hl_retired l)
  | HScanFree _ nodes => 1 + length nodes
  | _ => 0
  end.

Lemma list_length_bound s : recs_ok s -> (length (hz_list s) <= nthr)%nat.
Proof.
  intros HR. rewrite <- (length_seq nthr 0). apply submseteq_length, NoDup_submseteq; [apply HR|].
  intros r Hr. apply elem_of_seq. pose proof (ro_lt _ HR r Hr). lia.
Qed.

Lemma steps_decrease t sp s l s' l' e : recs_ok s -> local_ok s t l -> (0 < steps_left l)%nat ->
  hz_tstep true nthr k t (HGo sp) s l = Some (s', l', e) -> (steps_left l' < steps_left l)%nat /\ (steps_left l' = 0%nat -> hl_pc l' = HIdle).
Proof.
  intros HR HL Hpos Hs. pose proof (lo_pc _ _ _ HL) as Hp. pose proof (list_length_bound s HR) as Hlen. destruct l as [pc rt n ps].
  destruct pc as [| |cur|cur|j x|j x|x| |[|r next]|max [|r next] i plist|plist [|x next]]; cbn in Hpos; try lia;
    cbn [hz_tstep scan retire hl_pc] in Hs; unfold steps_left; cbn [hl_pc hl_retired length].
  - destruct (hz_recs s !! t) as [rec|]; [|done]. simplify_eq/=. destruct (Z.leb _ _); cbn [length]; split; first [done | lia].
  - destruct (hz_list s) as [|r next] eqn:E; [done|]. simplify_eq/=. split; [nia|lia].
  - done.
  - simpl in Hs. destruct (hz_recs s !! r); [|done]. simplify_eq/=. split; lia.
  - simplify_eq/=. split; lia.
  - destruct Hp as (_ & _ & Hi & _). destruct (bool_decide _ && _); [done|]. destruct (read_slot t s r i); [|done]. simpl in Hs.
    destruct (negb _ && _); [done|]. simplify_eq/=. case_decide; cbn [hl_pc length]; split; nia.
  - simplify_eq/=. split; [lia|done].
  - destruct (binary_search plist x) as [[]|]; simplify_eq/=; split; lia.
Qed.

Definition is_go (t : nat) (lbl : nat * hz_choice) : bool :=
  bool_decide (lbl.1 = t) && match lbl.2 with HGo _ => true | _ => false end.

Lemma local_kept t lbl c c' l e : threads c !! t = Some l -> (0 < steps_left l)%nat -> is_go t lbl = false ->
  hz_step true nthr k lbl c = Some (c', e) -> threads c' !! t = Some l.
Proof.
  intros Ht Hpos Hgo Hs. destruct lbl as [i ch]. apply conf_step_inv in Hs as (li & s' & l' & Hi & Hs & ->). cbn.
  destruct (decide (i = t)) as [->|Hne]; [|by rewrite list_lookup_insert_ne].
  unfold is_go in Hgo. cbn in Hgo. rewrite bool_decide_eq_true_2 in Hgo by done. rewrite Ht in Hi. injection Hi as <-.
  assert (l' = l) as ->; [|by apply list_lookup_insert_eq; eapply lookup_lt_Some].
  unfold steps_left in Hpos. destruct ch; try done; cbn in Hs.
  1-4: destruct (hl_pc l); cbn in Hpos; try lia; done.
  - case_decide; by simplify_eq.
  - destruct (flush t (shared c)) as [[]|]; by simplify_eq/=.
Qed.

Lemma free_returns t ls : forall c a c' evs l, race c a -> run (hz_step true nthr k) ls c = Some (c', evs) -> threads c !! t = Some l ->
  (0 < steps_left l)%nat -> (steps_left l <= length (filter (is_go t) ls))%nat ->
  exists ls1 ls2 c1 e1 l1, ls = ls1 ++ ls2 /\ run (hz_step true nthr k) ls1 c = Some (c1, e1) /\ threads c1 !! t = Some l1 /\ hl_pc l1 = HIdle.
Proof.
  induction ls as [|lbl ls IH]; intros c a c' evs l HR Hrun Ht Hpos Hle; [cbn in Hle; lia|].
  apply run_cons_inv in Hrun as (c1 & e1 & e2 & Hs & Hrun & ->). destruct (race_step _ _ _ _ _ HR Hs) as (a1 & _ & HR1).
  assert (forall l1, threads c1 !! t = Some l1 -> (0 < steps_left l1)%nat -> (steps_left l1 <= length (filter (is_go t) ls))%nat ->
    exists ls1 ls2 c2 e2 l2, lbl :: ls = ls1 ++ ls2 /\ run (hz_step true nthr k) ls1 c = Some (c2, e2) /\ threads c2 !! t = Some l2 /\ hl_pc l2 = HIdle) as Hrec.
  { intros l1 Ht1 Hp1 Hl1. destruct (IH _ _ _ _ _ HR1 Hrun Ht1 Hp1 Hl1) as (ls1 & ls2 & c2 & e & l2 & -> & Hr & Ht2 & Hi).
    exists (lbl :: ls1), ls2, c2, (e1 ++ e), l2. cbn. by rewrite Hs, Hr. }
  rewrite filter_cons in Hle. destruct (decide (is_go t lbl)) as [Hgo|Hgo].
  - destruct lbl as [i ch]. unfold is_go in Hgo. apply andb_prop_elim in Hgo as [Hi Hgo]. apply bool_decide_unpack in Hi. cbn in Hi, Hgo. subst i.
    destruct ch as [| | | | | |sp]; try done. pose proof Hs as Hstep. apply conf_step_inv in Hs as (l0 & s' & l1 & Ht0 & Hs & ->).
    rewrite Ht in Ht0. injection Ht0 as <-. pose proof (ra_str _ _ HR) as HS.
    destruct (steps_decrease t sp _ _ _ _ _ (st_recs _ HS) (st_local _ HS _ _ Ht) Hpos Hs) as [Hlt H0].
    assert (threads (Conf s' (<[t:=l1]> (threads c))) !! t = Some l1) as Ht1 by (cbn; apply list_lookup_insert_eq; by eapply lookup_lt_Some).
    destruct (decide (steps_left l1 = 0%nat)) as [Hz|Hz]; [|cbn in Hle; apply (Hrec l1); [done|lia|lia]].
    exists [(t, HGo sp)], ls. do 3 eexists. split; [done|]. split; [cbn [run]; by rewrite Hstep|]. split; [exact Ht1|by apply H0].
  - apply (Hrec l); [|done|done]. eapply local_kept; [done|done| |done]. by apply Is_true_false.
Qed.

End structure.

(** ** Theorems *)

(** C6: every run of any number of threads that register, announce, retire and scan
    concurrently, with store buffers and the barrier, is a run of the contract: a node
    is freed only after each hazard pointer of each thread was read since the node was
    retired and found not to hold it, and the retired nodes that are not freed yet are
    those in the retired lists and in the scans under way. *)
Theorem hazard_race_refines nthr k ls c evs : (0 < k)%nat -> run (hz_step true nthr k) ls (hz_init nthr) = Some (c, evs) ->
  exists a, spec_run (reclaim_spec nthr k) evs rc_init = Some a /\ forall x, x ∈ rc_retired a <-> x ∈ mined c.
Proof. intros Hk Hr. destruct (race_run Hk _ _ _ Hr) as (a & Ha & HR). exists a. split; [done|apply HR]. Qed.

(** C7: a node that a thread has announced, and found reachable after the barrier, is
    not freed until that thread changes the hazard pointer: it is still allocated, the
    hazard pointer in memory holds it, and no step of any thread frees it. *)
Theorem hazard_race_protects nthr k ls c evs t j x : (0 < k)%nat -> run (hz_step true nthr k) ls (hz_init nthr) = Some (c, evs) ->
  hz_prot (shared c) !! (t, j) = Some x ->
  x ∈ hz_used (shared c) /\ slot_mem (shared c) t j = x /\ forall lbl c' e, hz_step true nthr k lbl c = Some (c', e) -> RFree x ∉ e.
Proof.
  intros Hk Hr Hx. destruct (race_run Hk _ _ _ Hr) as (a & Ha & HR). destruct (ra_prot _ _ HR _ _ _ Hx) as [Hp Hu He Hs].
  split; [done|]. split.
  - unfold eff in He. case_decide; [|done]. subst x. by destruct (no_null _ (ra_nodes _ _ HR)).
  - intros lbl c' e Hstep Hin. destruct (race_step Hk _ _ _ _ _ HR Hstep) as (a' & Hrun & _).
    destruct lbl as [i ch]. apply conf_step_inv in Hstep as (l & s' & l' & Hi & Hm%hz_tstep_moves & _).
    assert (e = [RFree x]) as ->.
    { destruct Hm; try (by apply elem_of_nil in Hin); try (by apply list_elem_of_singleton in Hin; congruence).
      - case_decide; [by apply elem_of_nil in Hin|by apply list_elem_of_singleton in Hin].
      - by apply list_elem_of_fmap in Hin as (? & ? & _). }
    cbn in Hrun. case_decide as Hd; [|done]. destruct Hd as [Hr1 Hall]. rewrite Forall_forall in Hall. by apply Hs, Hall.
Qed.

(** an operation that has started can always take a step, or a store of its thread
    can reach memory: no assertion of a scan fails, and no scan writes past the end of
    its [plist], also while other threads register. *)
Theorem hazard_race_progress nthr k ls c evs t l : (0 < k)%nat -> run (hz_step true nthr k) ls (hz_init nthr) = Some (c, evs) ->
  threads c !! t = Some l -> hl_pc l <> HIdle ->
  is_Some (hz_step true nthr k (t, HGo false) c) \/ is_Some (hz_step true nthr k (t, HFlush) c).
Proof.
  intros Hk Hr Ht Hl. destruct (race_run Hk _ _ _ Hr) as (a & _ & HR).
  unfold hz_step, conf_step. cbn [fst snd]. rewrite Ht.
  destruct (go_enabled Hk _ _ _ _ HR Ht Hl) as [[[[s' l'] e] ->]|[[[s' l'] e] ->]]; eauto.
Qed.

(** C33: [hazard_pointer_free] is wait-free: a thread in it returns after a number of its
    own steps that is fixed by the number of hazard pointers and of its retired nodes,
    whatever the other threads do in between. *)
Theorem hazard_free_wait_free nthr k ls0 ls c0 c evs0 evs t l : (0 < k)%nat ->
  run (hz_step true nthr k) ls0 (hz_init nthr) = Some (c0, evs0) -> run (hz_step true nthr k) ls c0 = Some (c, evs) ->
  threads c0 !! t = Some l -> (exists x, hl_pc l = HFree x) -> (6 + nthr * k + length (hl_retired l) <= length (filter (is_go t) ls))%nat ->
  exists ls1 ls2 c1 e1 l1, ls = ls1 ++ ls2 /\ run (hz_step true nthr k) ls1 c0 = Some (c1, e1) /\
    threads c1 !! t = Some l1 /\ hl_pc l1 = HIdle.
Proof.
  intros Hk Hr0 Hr Ht [x Hx] Hle. destruct (race_run Hk _ _ _ Hr0) as (a & _ & HR).
  eapply (free_returns (nthr := nthr) (k := k) Hk); [done|done|done| |]; unfold steps_left; rewrite Hx; [lia|done].
Qed.

(** ** A run: two threads, one hazard pointer each *)

Definition hz_go (t n : nat) : list (nat * hz_choice) := replicate n (t, HGo false).

(** Thread 1 announces node 5, which thread 0 retires with three others; [flushes] are
    the stores of thread 1 that reach memory before it looks again. *)
Definition race_labels (flushes : list (nat * hz_choice)) : list (nat * hz_choice) :=
  (0%nat, HCallCreate) :: hz_go 0 3 ++ (1%nat, HCallCreate) :: hz_go 1 4 ++ ((fun x => (0%nat, HAlloc x)) <$> [5; 6; 7; 8]) ++
  (1%nat, HCallUsing 0 5) :: flushes ++ hz_go 1 2 ++ concat ((fun x => (0%nat, HCallFree x) :: hz_go 0 1) <$> [5; 6; 7; 8]) ++ hz_go 0 10.

Definition race_end (fenced : bool) (flushes : list (nat * hz_choice)) : option (hz_conf * list rc_ev) :=
  run (hz_step fenced 2 1) (race_labels flushes) (hz_init 2).

Definition race_conf (fenced : bool) (flushes : list (nat * hz_choice)) : hz_conf := default (hz_init 2) (fst <$> race_end fenced flushes).
Definition race_events (fenced : bool) (flushes : list (nat * hz_choice)) : list rc_ev := default [] (snd <$> race_end fenced flushes).

(** With the barrier the scan keeps node 5 and frees the three others. *)
Example race_fenced : threads (race_conf true [(1%nat, HFlush)]) !! 0%nat = Some (HL HIdle [5] 1 2) /\
  race_end true [] = None.
Proof. split; vm_compute; reflexivity. Qed.

(** the barrier of [hazard_pointer_using] is needed: without it the announcement may
    still be in the store buffer when the node is scanned, and the run frees a node that
    its thread has announced and found reachable. *)
Theorem unfenced_frees_protected : race_end false [] = Some (race_conf false [], race_events false []) /\
  hz_prot (shared (race_conf false [])) !! (1%nat, 0%nat) = Some 5 /\ RFree 5 ∈ race_events false [] /\
  5 ∉ hz_used (shared (race_conf false [])).
Proof.
  split; [vm_compute; reflexivity|]. split; [vm_compute; reflexivity|]. split.
  - apply list_elem_of_lookup. exists 9%nat. vm_compute. reflexivity.
  - apply (bool_decide_unpack _). vm_compute. done.
Qed.

Lemma hazard_race_refines_witness :
  exists a, spec_run (reclaim_spec 2 1) (race_events true [(1%nat, HFlush)]) rc_init = Some a /\
    forall x, x ∈ rc_retired a <-> x ∈ mined (race_conf true [(1%nat, HFlush)]).
Proof.
  refine (hazard_race_refines 2 1 (race_labels [(1%nat, HFlush)]) _ _ _ _).
  - repeat constructor.
  - vm_compute. reflexivity.
Defined.

Lemma hazard_race_protects_witness :
  5 ∈ hz_used (shared (race_conf true [(1%nat, HFlush)])) /\ slot_mem (shared (race_conf true [(1%nat, HFlush)])) 1 0 = 5 /\
  forall lbl c' e, hz_step true 2 1 lbl (race_conf true [(1%nat, HFlush)]) = Some (c', e) -> RFree 5 ∉ e.
Proof.
  refine (hazard_race_protects 2 1 (race_labels [(1%nat, HFlush)]) _ (race_events true [(1%nat, HFlush)]) 1 0 5 _ _ _).
  - repeat constructor.
  - vm_compute. reflexivity.
  - vm_compute. reflexivity.
Defined.

(** Thread 0 of the run has announced nothing yet when it is in [create_and_push]. *)
Lemma hazard_race_progress_witness : exists c, run (hz_step true 2 1) [(0%nat, HCallCreate)] (hz_init 2) = Some (c, []) /\
  (is_Some (hz_step true 2 1 (0%nat, HGo false) c) \/ is_Some (hz_step true 2 1 (0%nat, HFlush) c)).
Proof.
  eexists. split; [vm_compute; reflexivity|].
  refine (hazard_race_progress 2 1 [(0%nat, HCallCreate)] _ [] 0 (HL HLoadHead [] 0 0) _ _ _ _).
  - repeat constructor.
  - vm_compute. reflexivity.
  - reflexivity.
  - discriminate.
Defined.

(** A thread retires two nodes; the second one makes it scan. *)
Definition alone : list (nat * hz_choice) := (0%nat, HCallCreate) :: hz_go 0 3 ++ [(0%nat, HAlloc 5); (0%nat, HAlloc 6); (0%nat, HCallFree 5)].
Definition alone_rest : list (nat * hz_choice) := (0%nat, HGo false) :: (0%nat, HCallFree 6) :: hz_go 0 8.
Definition alone_conf : hz_conf := default (hz_init 1) (fst <$> run (hz_step true 1 1) alone (hz_init 1)).

Lemma hazard_free_wait_free_witness : exists ls1 ls2 c1 e1 l1, alone_rest = ls1 ++ ls2 /\
  run (hz_step true 1 1) ls1 alone_conf = Some (c1, e1) /\ threads c1 !! 0%nat = Some l1 /\ hl_pc l1 = HIdle.
Proof.
  refine (hazard_free_wait_free 1 1 alone alone_rest alone_conf _ [] _ 0 (HL (HFree 5) [] 0 0) _ _ _ _ _ _).
  - repeat constructor.
  - vm_compute. reflexivity.
  - vm_compute. reflexivity.
  - reflexivity.
  - exists 5. reflexivity.
  - vm_compute. repeat constructor.
Defined.
