(* ===== verification/HazardFifo.v ===== *)
(** * The fifo and its reclaimer ([include/mpmc_fifo.h] over [src/hazard_pointer.c])

    [MpmcFifo] frees a retired node by choices of its own, [PScan] and [PReclaim];
    [HazardRace] shows that the scans of the library keep to a contract,
    [reclaim_spec].  Here the two meet: the fifo keeps its side of the contract, and
    whatever the contract lets a reclaimer do is a sequence of choices of the fifo's
    machine, so the theorems of [MpmcFifo] hold for it. *)

From S2P Require Import Prelude MpscFifo HazardPointer MpmcFifo HazardRace.

(** The number of a hazard pointer: the fifo has two of them ([MPMC_HAZARD_COUNT]). *)
Definition slot_no (second : bool) : nat := if second then 1 else 0.

(** The state of the contract that a state of the fifo stands for. *)
Record reclaims (s : mpmc_shared) (a : rc_state) : Prop := {
  rl_ret : forall n, n ∈ rc_retired a <-> n ∈ p_retired s;
  rl_slot : forall i second v, slot_of (p_hazard s) i second = Some v -> slot_at a i (slot_no second) = v;
  rl_seen : forall n i second, n ∈ p_retired s -> (n, (i, slot_no second)) ∈ rc_seen a -> (i, second) ∈ cleared (p_clear s) n
}.

Lemma slot_at_set a i j x ret seen i' j' :
  slot_at (RC (<[(i, j):=x]> (rc_slot a)) ret seen) i' j' = if decide (i = i' /\ j = j') then x else slot_at a i' j'.
Proof.
  unfold slot_at. cbn. case_decide as Hd; [destruct Hd as [-> ->]; by rewrite lookup_insert_eq|]. rewrite lookup_insert_ne; [done|]. naive_solver.
Qed.

(** ** The fifo's side *)

(** What a thread of the fifo asks of the reclaimer. *)
Definition client_ev (t : nat) (e : rc_ev) : Prop :=
  match e with RSet i j _ => i = t /\ (j < 2)%nat | RRetire _ => True | _ => False end.

Definition is_client (ch : mpmc_choice) : bool := match ch with PScan _ _ _ | PReclaim _ => false | _ => true end.

(** A step that leaves the hazard pointers, sets one, or retires a node. *)
Inductive client_step (t : nat) (s s' : mpmc_shared) (pc : mpmc_pc) : Prop :=
| cs_none : p_hazard s' = p_hazard s -> p_retired s' = p_retired s -> p_clear s' = p_clear s -> client_step t s s' pc
| cs_using second x : p_hazard s' = (if second : bool then using1 t x (p_hazard s) else using0 t x (p_hazard s)) -> p_retired s' = p_retired s ->
    p_clear s' = p_clear s -> client_step t s s' pc
| cs_free n : p_taken pc = Some n -> p_hazard s' = p_hazard s -> p_retired s' = n :: p_retired s -> p_clear s' = <[n:=∅]> (p_clear s) ->
    client_step t s s' pc.

Lemma client_cases t ch s pc s' pc' e : is_client ch = true -> mpmc_tstep t ch s pc = Some (s', pc', e) -> client_step t s s' pc.
Proof.
  intros Hc Hs. destruct s as [h nx f hz rt cl].
  destruct ch; try done; destruct pc; cbn [mpmc_tstep] in Hs; try done; simpl in Hs; repeat case_match; simplify_option_eq;
    try (by apply cs_none); try (by eapply (cs_using _ _ _ _ false)); try (by eapply (cs_using _ _ _ _ true)); by eapply cs_free.
Qed.

Lemma slot_using t second x hz i second' v : slot_of (if second : bool then using1 t x hz else using0 t x hz) i second' = Some v ->
  (i = t /\ second' = second /\ v = x) \/ ((i <> t \/ second' <> second) /\ slot_of hz i second' = Some v).
Proof.
  unfold slot_of, using0, using1. intros Hv. destruct (decide (i = t)) as [->|Hi].
  - assert (exists p, hz !! t = Some p /\ v = if second' : bool then (if second : bool then x else p.2) else (if second : bool then p.1 else x)) as (p & Hp & Hp').
    { destruct second; rewrite list_lookup_alter in Hv; rewrite decide_True in Hv by done; destruct (hz !! t) as [p|]; cbn in Hv; [|done| |done];
        exists p; split; [done| |done|]; destruct second'; by simplify_eq/=. }
    rewrite Hp. cbn. destruct second, second'; naive_solver.
  - right. split; [by left|]. destruct second; by rewrite list_lookup_alter_ne in Hv.
Qed.

(** each step of a push or a pop of the fifo is, for the reclaimer, at most one
    change of a hazard pointer of the thread or the retirement of a node that is not
    retired already, as the contract asks. *)
Theorem mpmc_keeps_contract n ls c evs a t ch c' e : run mpmc_step ls (mpmc_init n) = Some (c, evs) -> reclaims (shared c) a -> is_client ch = true ->
  mpmc_step (t, ch) c = Some (c', e) ->
  exists es a', Forall (client_ev t) es /\ spec_run (reclaim_spec n 2) es a = Some a' /\ reclaims (shared c') a'.
Proof.
  intros Hr [H1 H2 H3] Hc Hs. destruct (mpmc_run_rel _ _ _ _ Hr) as (q & chain & _ & HM).
  apply conf_step_inv in Hs as (pc & s' & pc' & Ht & Hs & ->). cbn [shared].
  destruct (client_cases _ _ _ _ _ _ _ Hc Hs) as [Eh Er Ec|second x Eh Er Ec|m Hm Eh Er Ec].
  - exists [], a. split; [constructor|]. split; [done|]. split; rewrite ?Eh, ?Er, ?Ec; done.
  - exists [RSet t (slot_no second) x]. eexists. split; [constructor; [split; [done|destruct second; cbn; lia]|constructor]|]. split; [done|].
    split; rewrite ?Eh, ?Er, ?Ec; [done| |done]. intros i sec v Hv. rewrite slot_at_set.
    apply slot_using in Hv as [(-> & -> & ->)|(Hne & Hv)]; [by rewrite decide_True|]. rewrite decide_False; [by apply H2|].
    intros [-> E]. destruct Hne as [?|Hne]; [done|]. by destruct sec, second.
  - assert (m ∉ p_retired (shared c)) as Hnew.
    { intros Hin. pose proof (pr_nd _ _ _ HM) as Hnd. unfold p_nodes, passed in Hnd. apply NoDup_app in Hnd as (_ & _ & Hnd).
      apply NoDup_app in Hnd as (Hnd & _ & _). apply NoDup_app in Hnd as (_ & Hd & _). apply (Hd m); [|done].
      apply list_elem_of_omap. exists pc. split; [by eapply list_elem_of_lookup_2|done]. }
    exists [RRetire m]. eexists. split; [by repeat constructor|]. cbn. rewrite decide_False by (by rewrite H1). split; [done|].
    split; rewrite ?Eh, ?Er, ?Ec; cbn; [set_solver|done|]. intros m' i sec Hin [Hne Hs']%elem_of_filter. cbn in Hne.
    unfold cleared. rewrite lookup_insert_ne by done. apply H3; [set_solver|done].
Qed.

(** ** The reclaimer's side *)

Lemma reclaims_ext s slot ret seen seen' : (forall p, p ∈ seen <-> p ∈ seen') -> reclaims s (RC slot ret seen) -> reclaims s (RC slot ret seen').
Proof. intros E [H1 H2 H3]. split; cbn in *; [done|done|]. intros n i second Hin Hs. apply H3; [done|]. by apply E. Qed.

Lemma scan_reclaims t s pc a n i second v : reclaims s a -> n ∈ p_retired s -> slot_of (p_hazard s) i second = Some v -> v <> n ->
  exists s', mpmc_tstep t (PScan n i second) s pc = Some (s', pc, []) /\ p_retired s' = p_retired s /\ p_hazard s' = p_hazard s /\
    reclaims s' (RC (rc_slot a) (rc_retired a) ({[(n, (i, slot_no second))]} ∪ rc_seen a)).
Proof.
  intros [H1 H2 H3] Hin Hv Hne. destruct s as [h nx f hz rt cl]. cbn in *. rewrite decide_True by done. rewrite Hv. cbn. rewrite decide_False by done.
  eexists. split; [done|]. split; [done|]. split; [done|]. split; cbn; [done|done|].
  intros m i' sec Hm [E|Hs]%elem_of_union; unfold cleared.
  - apply elem_of_singleton in E as [= -> -> Esec]. assert (sec = second) as -> by (by destruct sec, second). rewrite lookup_insert_eq. cbn. set_solver.
  - destruct (decide (n = m)) as [->|Hnm]; [rewrite lookup_insert_eq; cbn|rewrite lookup_insert_ne by done; by apply H3].
    apply elem_of_union. right. by apply H3.
Qed.

Lemma scans_reclaims t i second v ns : forall c a pc, threads c !! t = Some pc -> reclaims (shared c) a ->
  slot_of (p_hazard (shared c)) i second = Some v -> (forall n, n ∈ ns -> n ∈ p_retired (shared c) /\ v <> n) ->
  exists c', run mpmc_step ((fun n => (t, PScan n i second)) <$> ns) c = Some (c', []) /\ threads c' = threads c /\
    reclaims (shared c') (RC (rc_slot a) (rc_retired a) (list_to_set ((fun n => (n, (i, slot_no second))) <$> ns) ∪ rc_seen a)).
Proof.
  induction ns as [|n ns IH]; intros c a pc Ht HR Hv Hns.
  - exists c. split; [done|]. split; [done|]. destruct a as [sl re se]. eapply reclaims_ext; [|exact HR]. cbn. set_solver.
  - destruct (Hns n ltac:(left)) as [Hin Hne]. destruct (scan_reclaims t (shared c) pc a n i second v HR Hin Hv Hne) as (s' & Hs & Er & Eh & HR').
    destruct (IH (Conf s' (<[t:=pc]> (threads c))) _ pc (list_lookup_insert_eq _ _ _ (lookup_lt_Some _ _ _ Ht)) HR') as (c' & Hrun & Et & HR2).
    + cbn. by rewrite Eh.
    + intros m Hm. cbn. rewrite Er. apply Hns. by right.
    + exists c'. cbn [fmap list_fmap run]. unfold mpmc_step at 1, conf_step. cbn [fst snd]. rewrite Ht, Hs, Hrun. cbn in Et.
      split; [done|]. split; [by rewrite Et, list_insert_id|]. cbn in HR2. eapply reclaims_ext; [|exact HR2]. set_solver.
Qed.

Lemma all_clear_intro m seen : (forall i second, (i < m)%nat -> (i, second) ∈ seen) -> all_clear m seen = true.
Proof.
  intros Hall. unfold all_clear. apply forallb_forall. intros i Hi%in_seq. rewrite !bool_decide_eq_true_2; [done| |]; apply Hall; lia.
Qed.

Lemma free_reclaims t s pc a n : reclaims s a -> n ∈ rc_retired a -> (forall p, p ∈ all_slots (length (p_hazard s)) 2 -> (n, p) ∈ rc_seen a) ->
  exists s', mpmc_tstep t (PReclaim n) s pc = Some (s', pc, []) /\ reclaims s' (RC (rc_slot a) (rc_retired a ∖ {[n]}) (rc_seen a)).
Proof.
  intros [H1 H2 H3] Hin Hall. destruct s as [h nx f hz rt cl]. cbn [p_hazard p_retired p_clear mpmc_tstep] in *. rewrite decide_True by (by apply H1). rewrite all_clear_intro.
  2: { intros i second Hi. apply H3; [by apply H1|]. apply Hall. apply all_slots_elem. split; [done|]. destruct second; cbn; lia. }
  eexists. split; [done|]. split; cbn; [|done|].
  - intros m. rewrite elem_of_difference, elem_of_singleton, H1, list_elem_of_filter. naive_solver.
  - intros m i second [Hne Hm]%list_elem_of_filter Hs. unfold cleared. rewrite lookup_delete_ne by done. by apply H3.
Qed.

Lemma mpmc_threads n ls c evs : run mpmc_step ls (mpmc_init n) = Some (c, evs) -> length (threads c) = n.
Proof.
  intros Hr. eapply (run_invariant mpmc_step (fun c => length (threads c) = n) ls (mpmc_init n)); [|exact (length_replicate n PIdle)|exact Hr].
  intros l s s' e Hs Hstep. by rewrite (conf_step_length _ _ _ _ _ Hstep).
Qed.

(** The choices of the fifo's machine that do what the contract lets a reclaimer do. *)
Definition reclaimer_labels (t : nat) (e : rc_ev) : list (nat * mpmc_choice) :=
  match e with
  | RSeen ns i j => (fun n => (t, PScan n i (bool_decide (j = 1%nat)))) <$> ns
  | RFree n => [(t, PReclaim n)]
  | _ => []
  end.

Definition reclaimer_ev (nthr : nat) (e : rc_ev) : bool :=
  match e with RSeen _ i j => Nat.ltb i nthr && Nat.ltb j 2 | RFree _ => true | _ => false end.


(** ** A run: thread 1 has announced node 1, thread 0 is about to retire it *)

Definition before_retire : list (nat * mpmc_choice) :=
  mpmc_demo_push ++ (1%nat, PCallPop) :: replicate 4 (1%nat, PGo false) ++ (0%nat, PCallPop) :: replicate 10 (0%nat, PGo false).
Definition conf_of (ls : list (nat * mpmc_choice)) : mpmc_conf := default (mpmc_init 2) (fst <$> run mpmc_step ls (mpmc_init 2)).
Definition announced_1 (ret : gset Z) : rc_state := RC {[(1%nat, 0%nat) := 1]} ret ∅.

Lemma before_retire_reclaims : reclaims (shared (conf_of before_retire)) (announced_1 ∅).
Proof.
  split.
  - intros n. vm_compute (p_retired _). cbn. rewrite elem_of_nil. set_solver.
  - vm_compute (p_hazard _). intros [|[|i]] [] v Hv; cbn in Hv; try done; injection Hv as <-; vm_compute; reflexivity.
  - intros n i second _ Hs. cbn in Hs. set_solver.
Qed.

Lemma mpmc_keeps_contract_witness : exists es a', Forall (client_ev 0) es /\ spec_run (reclaim_spec 2 2) es (announced_1 ∅) = Some a' /\
  reclaims (shared (conf_of mpmc_demo_race)) a'.
Proof.
  refine (mpmc_keeps_contract 2 before_retire (conf_of before_retire) [FEnq 70; FDeq 70] _ 0 (PGo false) (conf_of mpmc_demo_race) [] _ before_retire_reclaims _ _).
  - vm_compute. reflexivity.
  - reflexivity.
  - vm_compute. reflexivity.
Defined.

Lemma after_retire_reclaims : reclaims (shared (conf_of mpmc_demo_race)) (announced_1 {[1]}).
Proof.
  split.
  - intros n. vm_compute (p_retired _). cbn. rewrite list_elem_of_singleton. set_solver.
  - vm_compute (p_hazard _). intros [|[|i]] [] v Hv; cbn in Hv; try done; injection Hv as <-; vm_compute; reflexivity.
  - intros n i second _ Hs. cbn in Hs. set_solver.
Qed.

