(* ===== verification/Barriers.v ===== *)
(** * Barriers on x86 ([include/machine_specific.h])

    What the barriers of the library give on the machines it supports.  A thread's
    accesses to shared variables are a program that the compiler may reorder, but
    not across an [asm] statement with a [memory] clobber; the processor (x86-TSO)
    runs them in order, with a store buffer per thread.  [write_barrier] and
    [load_load_barrier] are such statements with no instruction in them,
    [store_load_barrier] is a locked instruction.  The theorems are the two uses the
    library makes of them: publishing data with a flag ([fiber_event_init] and
    [fiber_poll_events_blocking] of [src/fiber_event_ev.c], [dist_fifo_push] of
    [include/dist_fifo.h]), and announcing before looking
    ([hazard_pointer_using]). *)

From S2P Require Import Prelude.

(** ** Programs and the compiler *)

Inductive asm := ANone | ALockAdd | APause.

Inductive mem_instr := Store (x : nat) (v : Z) | Load (x : nat) | Asm (a : asm).

Definition write_barrier : mem_instr := Asm ANone.
Definition store_load_barrier : mem_instr := Asm ALockAdd.
Definition load_load_barrier : mem_instr := Asm ANone.
Definition cpu_relax : mem_instr := Asm APause.

Definition access (i : mem_instr) : option nat := match i with Store x _ | Load x => Some x | Asm _ => None end.

(** Two accesses that the compiler may exchange: to different variables. *)
Definition may_swap (i j : mem_instr) : bool :=
  match access i, access j with Some x, Some y => negb (Nat.eqb x y) | _, _ => false end.

Inductive swap : list mem_instr -> list mem_instr -> Prop :=
| swap_here i j p : may_swap i j = true -> swap (i :: j :: p) (j :: i :: p)
| swap_skip i p q : swap p q -> swap (i :: p) (i :: q).

Definition compiled : list mem_instr -> list mem_instr -> Prop := rtc swap.

(** ** The processor *)

(** [th_buf]: the pending stores, oldest first; [th_log]: what the loads returned. *)
Record th := Th { th_prog : list mem_instr; th_buf : list (nat * Z); th_log : list (nat * Z) }.

Abbreviation memory := (gmap nat Z).
Definition value (m : memory) (x : nat) : Z := default 0 (m !! x).
Definition buffered (b : list (nat * Z)) (x : nat) (v : Z) : Z := foldl (fun v w => if decide (w.1 = x) then w.2 else v) v b.

Inductive tso_choice := Exec | Flush.

Definition tso_tstep (t : nat) (ch : tso_choice) (m : memory) (l : th) : option (memory * th * list unit) :=
  match ch, th_prog l, th_buf l with
  | Exec, Store x v :: p, b => Some (m, Th p (b ++ [(x, v)]) (th_log l), [])
  | Exec, Load x :: p, b => Some (m, Th p b (th_log l ++ [(x, buffered b x (value m x))]), [])
  | Exec, Asm ALockAdd :: p, [] => Some (m, Th p [] (th_log l), [])
  | Exec, Asm ALockAdd :: _, _ => None
  | Exec, Asm _ :: p, b => Some (m, Th p b (th_log l), [])
  | Flush, p, (x, v) :: b => Some (<[x:=v]> m, Th p b (th_log l), [])
  | _, _, _ => None
  end.

Definition tso_step := conf_step tso_tstep.
Definition tso_start (ps : list (list mem_instr)) : conf memory th := Conf ∅ ((fun p => Th p [] []) <$> ps).

(** ** The compiler keeps to the barriers *)

Lemma swap_app_asm p1 a p2 q : swap (p1 ++ Asm a :: p2) q ->
  (exists q1, swap p1 q1 /\ q = q1 ++ Asm a :: p2) \/ (exists q2, swap p2 q2 /\ q = p1 ++ Asm a :: q2).
Proof.
  revert q. induction p1 as [|i p1 IH]; intros q Hs; cbn in Hs; inversion Hs; subst.
  - done.
  - right. eauto.
  - destruct p1 as [|j' p1]; cbn in *; simplify_eq.
    + match goal with H : may_swap _ _ = true |- _ => unfold may_swap in H; cbn in H; by case_match end.
    + left. eexists. split; [by apply swap_here|done].
  - match goal with H : swap (_ ++ _) _ |- _ => apply IH in H as [(q1 & H & ->)|(q2 & H & ->)] end.
    + left. exists (i :: q1). split; [by constructor|done].
    + right. eauto.
Qed.

Lemma compiled_asm p1 a p2 q : compiled (p1 ++ Asm a :: p2) q -> exists q1 q2, q = q1 ++ Asm a :: q2 /\ compiled p1 q1 /\ compiled p2 q2.
Proof.
  intros Hc. remember (p1 ++ Asm a :: p2) as p eqn:E. revert p1 p2 E. induction Hc as [p|p p' q Hs Hc IH]; intros p1 p2 ->.
  - exists p1, p2. split; [done|]. split; apply rtc_refl.
  - apply swap_app_asm in Hs as [(q1 & Hs & ->)|(q2 & Hs & ->)]; edestruct IH as (r1 & r2 & -> & H1 & H2); try done;
      exists r1, r2; (split; [done|]); split; try done; by eapply rtc_l.
Qed.

Lemma compiled_one i q : compiled [i] q -> q = [i].
Proof. intros Hc. inversion Hc as [|? q' ? Hs]; subst; [done|]. inversion Hs as [|? ? ? Hs']; subst. inversion Hs'. Qed.

(** The stores of a program, and that the last one to each variable stays the last. *)
Definition stores (p : list mem_instr) : list (nat * Z) := omap (fun i => match i with Store x v => Some (x, v) | _ => None end) p.

Definition after (ws : list (nat * Z)) (m : memory) : memory := foldl (fun m w => <[w.1:=w.2]> m) m ws.

Lemma swap_stores p q m : swap p q -> after (stores p) m = after (stores q) m.
Proof.
  intros Hs. revert m. induction Hs as [i j p Hm|i p q Hs IH]; intros m.
  - unfold may_swap in Hm. destruct i as [x v|x|a], j as [y w|y|b]; cbn in *; try done. apply negb_true_iff, Nat.eqb_neq in Hm.
    f_equal. by apply insert_insert_ne.
  - destruct i; cbn; apply IH.
Qed.

Lemma compiled_stores p q m : compiled p q -> after (stores p) m = after (stores q) m.
Proof. intros Hc. induction Hc as [|p p' q Hs _ IH]; [done|]. rewrite <- IH. by apply swap_stores. Qed.

Lemma swap_perm p q : swap p q -> p ≡ₚ q.
Proof. induction 1; [constructor|by constructor]. Qed.
Lemma compiled_perm p q : compiled p q -> p ≡ₚ q.
Proof. induction 1 as [|p p' q Hs _ IH]; [done|]. rewrite <- IH. by apply swap_perm. Qed.

(** ** Publishing *)

(** The data is stored, then the flag; a reader loads the flag, then the data. *)
Definition publisher (ds : list (nat * Z)) (f : nat) (v : Z) : list mem_instr := ((fun w => Store w.1 w.2) <$> ds) ++ [write_barrier; Store f v].
Definition subscriber (f : nat) (xs : list nat) : list mem_instr := Load f :: load_load_barrier :: (Load <$> xs).

Lemma after_app ws ws' m : after (ws ++ ws') m = after ws' (after ws m).
Proof. apply foldl_app. Qed.

Lemma after_other ws f m : f ∉ ws.*1 -> value (after ws m) f = value m f.
Proof.
  revert m. induction ws as [|[x v] ws IH]; intros m Hf; [done|]. rewrite fmap_cons in Hf.
  change (value (after ws (<[x:=v]> m)) f = value m f). rewrite IH by set_solver.
  unfold value. rewrite lookup_insert_ne; [done|]. set_solver.
Qed.

Lemma stores_app p q : stores (p ++ q) = stores p ++ stores q.
Proof. apply omap_app. Qed.

Section publish.
Context (D : list (nat * Z)) (f : nat) (v : Z).
Hypothesis (Hf : f ∉ D.*1) (Hv : v <> 0).

Let W := D ++ [(f, v)].

Lemma flag_last flushed rest : W = flushed ++ rest -> value (after flushed ∅) f <> 0 -> rest = [] /\ flushed = W.
Proof.
  intros E Hne. destruct (list.last rest) as [w|] eqn:El; [|apply last_None in El as ->; by rewrite app_nil_r in E].
  apply last_Some in El as [rest' ->]. unfold W in E. rewrite app_assoc in E. apply app_inj_tail in E as [E _].
  destruct Hne. rewrite after_other; [done|]. intros Hin. apply Hf. rewrite E, fmap_app. set_solver.
Qed.

Definition reader_ok (m : memory) (l : th) : Prop :=
  th_buf l = [] /\ stores (th_prog l) = [] /\
  ((th_log l = [] /\ exists q, th_prog l = Load f :: q) \/
   exists u rest, th_log l = (f, u) :: rest /\ (u <> 0 -> m = after W ∅ /\ u = v /\ forall x w, (x, w) ∈ rest -> w = value m x)).

Record pub_inv (c : conf memory th) (l0 : th) (ls : list th) (flushed : list (nat * Z)) : Prop := {
  pi_threads : threads c = l0 :: ls;
  pi_writes : W = flushed ++ th_buf l0 ++ stores (th_prog l0);
  pi_mem : shared c = after flushed ∅;
  pi_readers : Forall (reader_ok (shared c)) ls
}.

Lemma value_W : value (after W ∅) f = v.
Proof. unfold W. rewrite after_app. cbn. unfold value. by rewrite lookup_insert_eq. Qed.

(** A step of the publisher. *)
Lemma pub_write c l0 ls flushed ch m' l' e : pub_inv c l0 ls flushed -> tso_tstep 0 ch (shared c) l0 = Some (m', l', e) ->
  exists flushed', pub_inv (Conf m' (l' :: ls)) l' ls flushed'.
Proof.
  intros [H1 H2 H3 H4] Hs. destruct l0 as [p b lg]. cbn in H2. destruct ch, p as [|[x w|x|[]] p], b as [|[y u] b]; cbn in Hs; simplify_eq.
  all: try (exists flushed; split; [done| |done|done]; cbn; cbn in H2; rewrite H2; try done; rewrite <- !app_assoc; done).
  all: exists (flushed ++ [(y, u)]); (split; [done| | |]); cbn [shared th_buf th_prog];
    [by rewrite H2, <- !app_assoc|by rewrite after_app, <- H3|].
  all: eapply Forall_impl; [exact H4|]; intros l (Hb & Hst & Hl); (split; [done|]); (split; [done|]);
    destruct Hl as [Hl|(u' & rest & Hlog & Hu)]; [by left|]; right; exists u', rest; (split; [done|]); intros Hne;
    destruct (Hu Hne) as (Hm & -> & _);
    destruct (flag_last flushed (((y, u) :: b) ++ stores _) H2) as [? _]; [|done];
    rewrite <- H3, Hm, value_W; done.
Qed.

(** A step of a subscriber. *)
Lemma pub_read m l t ch m' l' e flushed rest : reader_ok m l -> W = flushed ++ rest -> m = after flushed ∅ -> tso_tstep t ch m l = Some (m', l', e) ->
  m' = m /\ reader_ok m l'.
Proof.
  intros (Hb & Hst & Hl) HW Hm Hs. destruct l as [p b lg]. cbn in Hb, Hst, Hl. subst b.
  destruct ch, p as [|[x w|x|[]] p]; cbn in Hs; try done; simplify_eq.
  all: split; [done|]; (split; [done|]); (split; [done|]); cbn [th_log th_prog].
  - right. destruct Hl as [[-> [q [= -> ->]]]|(u & rs & -> & Hu)].
    + eexists _, []. split; [done|]. intros Hne. destruct (flag_last _ _ HW Hne) as [_ ->]. split; [done|]. split; [apply value_W|].
      by intros ? ? ?%elem_of_nil.
    + eexists u, _. split; [done|]. intros Hne. destruct (Hu Hne) as (-> & -> & Hx). split; [done|]. split; [done|].
      intros y w [Hin|Hin]%elem_of_app; [by apply Hx|]. apply list_elem_of_singleton in Hin. by simplify_eq.
  - destruct Hl as [[_ [q ?]]|?]; [done|by right].
  - destruct Hl as [[_ [q ?]]|?]; [done|by right].
  - destruct Hl as [[_ [q ?]]|?]; [done|by right].
Qed.

Lemma pub_step lbl c c' e : (exists l0 ls flushed, pub_inv c l0 ls flushed) -> tso_step lbl c = Some (c', e) ->
  exists l0 ls flushed, pub_inv c' l0 ls flushed.
Proof.
  intros (l0 & ls & flushed & HI) Hs. destruct lbl as [t ch]. apply conf_step_inv in Hs as (l & m' & l' & Ht & Hs & ->).
  destruct HI as [H1 H2 H3 H4] eqn:EI. clear EI. rewrite H1 in Ht |- *. destruct t as [|t]; cbn in Ht |- *.
  - injection Ht as <-. destruct (pub_write _ _ _ _ _ _ _ _ HI Hs) as [fl ?]. eauto.
  - pose proof (proj1 (Forall_lookup _ _) H4 _ _ Ht) as Hr. destruct (pub_read _ _ _ _ _ _ _ _ _ Hr H2 H3 Hs) as [-> Hr'].
    exists l0, (<[t:=l']> ls), flushed. split; [done|done|done|]. by apply Forall_insert.
Qed.

End publish.

Lemma stores_data ds : stores ((fun w => Store w.1 w.2) <$> ds) = ds.
Proof. induction ds as [|[x v] ds IH]; [done|]. cbn. f_equal. exact IH. Qed.

Lemma stores_loads q xs : q ≡ₚ (Load <$> xs) -> stores q = [].
Proof.
  intros HP. assert (forall i, i ∈ q -> exists x, i = Load x) as Hl.
  { intros i. rewrite HP. intros (x & -> & _)%list_elem_of_fmap. eauto. }
  clear HP. induction q as [|i q IH]; [done|]. destruct (Hl i ltac:(left)) as [x ->]. cbn. apply IH. intros j Hj. apply Hl. by right.
Qed.

(** C34: publishing with a flag works on x86 with no instruction in either barrier: with
    any number of subscribers, whatever the compiler reorders and however the threads
    and their store buffers interleave, a thread that has seen the flag reads the data
    that was stored before it. *)
Theorem write_barrier_publishes ds f v xss qw qrs ls c evs i l u rest :
  f ∉ ds.*1 -> v <> 0 -> compiled (publisher ds f v) qw -> Forall2 (fun xs q => compiled (subscriber f xs) q) xss qrs ->
  run tso_step ls (tso_start (qw :: qrs)) = Some (c, evs) -> threads c !! S i = Some l -> th_log l = (f, u) :: rest -> u <> 0 ->
  u = v /\ forall x w, (x, w) ∈ rest -> w = value (after (ds ++ [(f, v)]) ∅) x.
Proof.
  intros Hf Hv Hw Hr Hrun Hl Hlog Hu. apply compiled_asm in Hw as (qd & qf & -> & Hd & ->%compiled_one).
  pose proof (compiled_perm _ _ Hd) as HP. pose proof (compiled_stores _ _ ∅ Hd) as HA. rewrite stores_data in HA.
  assert (f ∉ (stores qd).*1) as Hf'.
  { intros Hin. apply Hf. rewrite <- (stores_data ds). unfold stores in *. by rewrite HP. }
  assert (exists l0 ls flushed, pub_inv (stores qd) f v c l0 ls flushed) as (l0 & ths & flushed & [H1 _ _ H4]).
  { apply (run_invariant tso_step (fun c => exists l0 ls flushed, pub_inv (stores qd) f v c l0 ls flushed) ls _ _ _
      (fun lbl c c' e HI Hs => pub_step _ _ _ Hf' Hv lbl c c' e HI Hs)) in Hrun; [done|].
    eexists _, _, []. split; [done|cbn [th_prog th_buf app]; by rewrite stores_app|done|]. cbn. clear -Hr. induction Hr as [|xs q xss qrs Hq Hr IH]; constructor; [|done].
    apply (compiled_asm [Load f]) in Hq as (q1 & q2 & -> & ->%compiled_one & Hq). split; [done|]. split.
    - cbn. eapply stores_loads. symmetry. by apply compiled_perm.
    - left. split; [done|]. by eexists. }
  rewrite H1 in Hl. cbn in Hl. destruct (proj1 (Forall_lookup _ _) H4 _ _ Hl) as (_ & _ & [[Hnil _]|(u' & rest' & Hlog' & Himp)]); [congruence|].
  rewrite Hlog in Hlog'. injection Hlog' as <- <-. destruct (Himp Hu) as (Hm & -> & Hx). split; [done|].
  intros x w Hin. rewrite (Hx x w Hin), Hm, !after_app. by rewrite HA.
Qed.

(** ** Announcing before looking *)

Definition announcer (b : mem_instr) (mine other : nat) : list mem_instr := [Store mine 1; b; Load other].

(** Where an announcer with the barrier stands. *)
Inductive ann_at (m : memory) (mine other : nat) : th -> Prop :=
| at_start : ann_at m mine other (Th (announcer store_load_barrier mine other) [] [])
| at_pending : ann_at m mine other (Th [store_load_barrier; Load other] [(mine, 1)] [])
| at_stored : value m mine = 1 -> ann_at m mine other (Th [store_load_barrier; Load other] [] [])
| at_load : value m mine = 1 -> ann_at m mine other (Th [Load other] [] [])
| at_end w : value m mine = 1 -> ann_at m mine other (Th [] [] [(other, w)]).

Lemma ann_frame m m' mine other l : value m' mine = value m mine -> ann_at m mine other l -> ann_at m' mine other l.
Proof. intros E H. destruct H; constructor; congruence. Qed.

(** A step changes only the announcer's own variable, and one that ends it looks. *)
Lemma ann_step t ch m mine other l m' l' e : ann_at m mine other l -> tso_tstep t ch m l = Some (m', l', e) ->
  ann_at m' mine other l' /\ (forall z, z <> mine -> value m' z = value m z) /\
  (th_log l' = th_log l \/ (value m' mine = 1 /\ th_log l' = [(other, value m other)])).
Proof.
  assert (forall z, z <> mine -> value (<[mine:=1]> m) z = value m z) as Hne.
  { intros z Hz. unfold value. by rewrite lookup_insert_ne. }
  assert (value (<[mine:=1]> m) mine = 1) as Heq by (unfold value; by rewrite lookup_insert_eq).
  intros Hl Hs. destruct Hl, ch; cbn in Hs; simplify_eq; (split; [by constructor|]); (split; [done|]); auto.
Qed.

Definition sb_inv (x y : nat) (c : conf memory th) : Prop :=
  exists l0 l1, threads c = [l0; l1] /\ ann_at (shared c) x y l0 /\ ann_at (shared c) y x l1 /\
    ~ (th_log l0 = [(y, 0)] /\ th_log l1 = [(x, 0)]).

Lemma ann_log m mine other l w : ann_at m mine other l -> th_log l = [(other, w)] -> value m mine = 1.
Proof. intros Hl E. destruct Hl; cbn in E; try done. Qed.

Lemma sb_step x y lbl c c' e : x <> y -> sb_inv x y c -> tso_step lbl c = Some (c', e) -> sb_inv x y c'.
Proof.
  intros Hxy (l0 & l1 & Hth & H0 & H1 & Hno) Hs. destruct lbl as [t ch]. apply conf_step_inv in Hs as (l & m' & l' & Ht & Hs & ->).
  rewrite Hth in Ht |- *. destruct t as [|[|t]]; cbn in Ht; simplify_eq; cbn [list_insert insert].
  - destruct (ann_step _ _ _ _ _ _ _ _ _ H0 Hs) as (H0' & Hfr & Hlog). exists l', l1. split; [done|]. split; [done|].
    split; [eapply ann_frame; [apply Hfr|done]; congruence|]. intros [Ha Hb]. destruct Hlog as [Hlog|[_ Hlog]]; [by apply Hno; rewrite <- Hlog|].
    pose proof (ann_log _ _ _ _ _ H1 Hb). rewrite Hlog in Ha. injection Ha as Ha. congruence.
  - destruct (ann_step _ _ _ _ _ _ _ _ _ H1 Hs) as (H1' & Hfr & Hlog). exists l0, l'. split; [done|]. split; [eapply ann_frame; [apply Hfr|done]; congruence|].
    split; [done|]. intros [Ha Hb]. destruct Hlog as [Hlog|[_ Hlog]]; [by apply Hno; rewrite <- Hlog|].
    pose proof (ann_log _ _ _ _ _ H0 Ha). rewrite Hlog in Hb. injection Hb as Hb. congruence.
Qed.

Lemma announcer_compiled b mine other q : compiled (announcer (Asm b) mine other) q -> q = announcer (Asm b) mine other.
Proof.
  intros Hc. apply (compiled_asm [Store mine 1]) in Hc as (q1 & q2 & -> & ->%compiled_one & ->%compiled_one). done.
Qed.

(** with [store_load_barrier] between announcing and looking, of two threads that
    announce themselves and then look for each other at least one sees the other. *)
Theorem store_load_barrier_orders x y q0 q1 ls c evs l0 l1 : x <> y ->
  compiled (announcer store_load_barrier x y) q0 -> compiled (announcer store_load_barrier y x) q1 ->
  run tso_step ls (tso_start [q0; q1]) = Some (c, evs) -> threads c = [l0; l1] -> ~ (th_log l0 = [(y, 0)] /\ th_log l1 = [(x, 0)]).
Proof.
  intros Hxy ->%announcer_compiled ->%announcer_compiled Hrun Hth.
  assert (sb_inv x y c) as (k0 & k1 & Hk & _ & _ & Hno).
  { eapply (run_invariant tso_step (sb_inv x y)); [|  |exact Hrun]; [intros lbl s s' e HI Hs; by eapply sb_step|].
    eexists _, _. split; [done|]. split; [apply at_start|]. split; [apply at_start|]. by intros [? _]. }
  rewrite Hth in Hk. by simplify_eq.
Qed.

(** The weaker barriers do not give this, and without a barrier the compiler may
    publish the flag first. *)
Example load_load_barrier_too_weak : exists ls c evs, run tso_step ls (tso_start [announcer load_load_barrier 0 1; announcer load_load_barrier 1 0]) = Some (c, evs) /\
  th_log <$> threads c = [[(1%nat, 0)]; [(0%nat, 0)]].
Proof.
  exists (replicate 3 (0%nat, Exec) ++ replicate 3 (1%nat, Exec)). do 2 eexists. split; [vm_compute; reflexivity|]. reflexivity.
Qed.

Example unpublished : exists q ls c evs, compiled [Store 0 7; Store 1 1] q /\ run tso_step ls (tso_start [q; subscriber 1 [0%nat]]) = Some (c, evs) /\
  th_log <$> threads c = [[]; [(1%nat, 1); (0%nat, 0)]].
Proof.
  exists [Store 1 1; Store 0 7], [(0%nat, Exec); (0%nat, Flush); (1%nat, Exec); (1%nat, Exec); (1%nat, Exec)]. do 2 eexists.
  split; [apply rtc_once; by constructor|]. split; [vm_compute; reflexivity|reflexivity].
Qed.

(** [fiber_event_init] publishes [active_threads] (variable 0) with [fiber_loop] (1). *)
Lemma write_barrier_publishes_witness : exists c : conf memory th,
  run tso_step [(0%nat, Exec); (0%nat, Exec); (0%nat, Exec); (0%nat, Flush); (0%nat, Flush); (1%nat, Exec); (1%nat, Exec); (1%nat, Exec)]
    (tso_start [publisher [(0%nat, 4)] 1 99; subscriber 1 [0%nat]]) = Some (c, []) /\
  (99 = 99 /\ forall x w, (x, w) ∈ [(0%nat, 4)] -> w = value (after ([(0%nat, 4)] ++ [(1%nat, 99)]) ∅) x).
Proof.
  eexists. split; [vm_compute; reflexivity|].
  refine (write_barrier_publishes [(0%nat, 4)] 1 99 [[0%nat]] (publisher [(0%nat, 4)] 1 99) [subscriber 1 [0%nat]]
    [(0%nat, Exec); (0%nat, Exec); (0%nat, Exec); (0%nat, Flush); (0%nat, Flush); (1%nat, Exec); (1%nat, Exec); (1%nat, Exec)]
    _ _ 0 (Th [] [] [(1%nat, 99); (0%nat, 4)]) 99 [(0%nat, 4)] _ _ _ _ _ _ _ _).
  - apply (bool_decide_unpack _). vm_compute. exact I.
  - discriminate.
  - apply rtc_refl.
  - constructor; [apply rtc_refl|constructor].
  - vm_compute. reflexivity.
  - reflexivity.
  - reflexivity.
  - discriminate.
Defined.

Lemma store_load_barrier_orders_witness : exists c : conf memory th,
  run tso_step (replicate 2 (0%nat, Exec) ++ replicate 1 (0%nat, Flush)) (tso_start [announcer store_load_barrier 0 1; announcer store_load_barrier 1 0]) = None /\
  run tso_step [(0%nat, Exec); (0%nat, Flush); (0%nat, Exec); (0%nat, Exec); (1%nat, Exec); (1%nat, Flush); (1%nat, Exec); (1%nat, Exec)]
    (tso_start [announcer store_load_barrier 0 1; announcer store_load_barrier 1 0]) = Some (c, []) /\
  ~ (@nil (nat * Z) ++ [(1%nat, 0)] = [(1%nat, 0)] /\ [(0%nat, 1)] = [(0%nat, 0)]).
Proof.
  eexists. split; [vm_compute; reflexivity|]. split; [vm_compute; reflexivity|].
  refine (store_load_barrier_orders 0 1 _ _
    [(0%nat, Exec); (0%nat, Flush); (0%nat, Exec); (0%nat, Exec); (1%nat, Exec); (1%nat, Flush); (1%nat, Exec); (1%nat, Exec)]
    _ [] (Th [] [] [(1%nat, 0)]) (Th [] [] [(0%nat, 1)]) _ (rtc_refl _ _) (rtc_refl _ _) _ _).
  - discriminate.
  - vm_compute. reflexivity.
  - reflexivity.
Defined.
